(* ===== verification/_CoqProject ===== *)
-Q . S2P
Prelude.v
Jid.v
TokenData.v
Token.v
Node.v
Writer.v
Packed.v
Decoder.v
Encoder.v
Marshal.v
Exact.v
Framing.v
Noise.v
Socket.v
LtHash.v
AppState.v
Dedup.v
AppSync.v
AppSend.v
Attrs.v
PatchStanza.v
SyncTyped.v
AppClient.v
SyncTasks.v
SyncConverge.v
SyncErrors.v
SyncDriver.v
Schemas.v
ChatActions.v
ActionEvents.v
Media.v
MediaStream.v
MediaCodec.v
MediaTransfer.v
MediaDelivery.v
Curve.v
SignalBase.v
SenderKeys.v
GroupCipher.v
Ratchet.v
Session.v
SignalMessages.v
SessionCipher.v
SessionSafety.v
SessionWorld.v
Epochs.v
Conversation.v
Dialogue.v
SignalCache.v
CacheCoherence.v
CacheSlots.v
CacheLedger.v
CacheRefines.v
CacheFlush.v
CacheRun.v
CacheBounds.v
NamedLocks.v
Handshake.v
HandshakeSync.v
Connect.v
Connections.v
PortableCache.v
PortableRuns.v
SingleFlight.v
InflateReader.v
HistoryWire.v
HistorySync.v
HistoryStream.v
Companion.v
Pairing.v
PairCode.v
PairFlow.v
LidMigrate.v
LidPn.v
PreKeyUpload.v
PreKeySafe.v
PreKeyRuns.v
PreKeyNodes.v
PreKeyDigest.v
