(* ===== verification/Prelude.v ===== *)
(** * A verification library for the WhatsApp protocol core

    The Rust crates under [src/rust-backend] implement a WhatsApp multi-device client.
    This library models the layers that every stanza and every synchronised setting goes
    through, and proves that the two ends of each layer fit together.

    ** The program and how its parts interact

    A stanza is a tree of tagged nodes ([wacore/binary]: [Node], [Jid], tokens).  To send
    one, the client calls [marshal_auto], hands the bytes to the socket's sender task
    ([src/socket/noise_socket.rs]), which encrypts them under a counter
    ([wacore/noise/src/state.rs]), puts a three-byte length in front
    ([wacore/noise/src/framing.rs]) and passes the frame to the transport.  In the other
    direction the receive loop ([src/client/node_io.rs]) cuts frames out of the byte
    stream, decrypts them in order, inflates them if they are flagged, and decodes them
    to borrowed nodes ([NodeRef]).

    A connection starts with a Noise handshake ([wacore/noise/src/handshake.rs]): XX the first
    time, with a certificate chain that is checked and cached, and IK with the cached key from
    then on, which the server may turn into XX ([src/handshake.rs]).

    Settings shared between devices are collections of records ([wacore/appstate]).  The
    server sends snapshots and patches; the client keeps, per collection, a version, a
    summation hash ([LTHash]) and the value MAC of every index MAC, validates each patch
    against them and persists the result ([wacore/src/appstate_sync.rs]).  The client's
    own changes are sealed by [encode_record] and assembled by [build_patch].  The tasks of
    [src/client/app_state.rs] fetch the collections page by page, request missing keys, and
    turn the mutations they receive into events; [src/features/chat_actions.rs] and
    [labels.rs] send the user's actions (archive, pin, star, label) the other way, with
    indexes laid out by a registry of schemas.

    Group messages are encrypted under sender keys ([wacore/libsignal]): each sender signs
    its messages with a Curve25519 key and derives their keys from a hash chain it announces
    to the group; receivers keep the keys of messages that were skipped.

    Messages between two devices go through a Signal session ([wacore/libsignal]): a device
    fetches the other's pre-key bundle, agrees on a root key, and from then on each message is
    sealed under a key of a chain that a Diffie-Hellman ratchet renews at every change of
    direction.  The record of a session, with the sessions it replaced, is loaded and stored
    around every call ([session_cipher.rs], [session.rs]).

    Sessions, identities and sender keys live in a write-back cache over the backend
    ([wacore/src/store/signal_cache.rs]); a flush writes what has changed and then deletes the
    one-time pre-keys whose sessions have reached the backend.  Other lookups go through an
    in-process cache with a capacity and time limits ([src/portable_cache.rs]), which
    runs one initialisation per missing key.

    The client keeps the server supplied with one-time pre-keys ([src/prekeys.rs]): it plans a
    window of ids between two watermarks of the device, generates and stores what is missing,
    writes the watermarks ([store/persistence_manager.rs]) and uploads; it fetches the bundles
    of other devices and checks the digest of its own ([wacore/src/prekeys.rs],
    [wacore/src/iq/prekeys.rs]).

    A device is linked to an account by a QR code or by a code typed on the phone
    ([wacore/src/pair.rs], [pair_code.rs], [src/pair.rs], [src/pair_code.rs]); the account signs
    the identity of the device, and every peer checks that signature ([adv.rs]).  Users have a
    phone number and a linked id; the client learns which belong together
    ([src/lid_pn_cache.rs], [src/client/lid_pn.rs]) and moves Signal sessions from one address
    to the other.

    Media are encrypted and hashed while they are read ([wacore/src/upload.rs],
    [download.rs]) and travel over several hosts with resumption and renewed credentials
    ([src/upload.rs], [src/download.rs]).  After linking, the phone sends the history as a
    compressed protobuf that is taken apart while it is inflated
    ([wacore/src/history_sync.rs], [zlib_pool.rs]).

    ** Files

    - [Prelude]: outcomes ([Ok], [Err], [Panic], [Timeout]) and their monad, byte strings
      and machine integers, big-endian encodings, decimal numbers, UTF-8, chunking; the
      hint databases and tactics the other files use.
    - [Jid]: [binary/src/jid.rs].  Servers, JIDs, [parse_jid_fast] and the fallback of
      [from_str], [Display] through the 64-byte stack writer, the redacted [Display].
    - [TokenData], [Token]: [tokens.json], the generator [build.rs] and [token.rs].  The
      generated lookup is the class [TokenMaps]; [wa_token_maps] instantiates it.
    - [Node]: [node.rs] and [builder.rs].
    - [Writer]: the trait [ByteWriter] as a class with laws, and its three implementations.
    - [Packed]: packed digits, SIMD and scalar, both directions.
    - [Decoder]: [decoder.rs] and [unmarshal_ref], over a reader monad.
    - [Encoder]: [encoder.rs], generic in the writer, and the specification [encode_*].
    - [Marshal]: [marshal.rs], [util.rs]; what a node becomes on the wire ([image_node]).
    - [Exact]: [marshal_exact], its size plan and the string-hint cache.
    - [Framing]: [framing.rs], [edge_routing.rs] and the frame loop of [node_io.rs].
    - [Noise]: [state.rs] over the class [Crypto].
    - [Handshake], [HandshakeSync], [Connect], [Connections]: [handshake.rs] of the Noise crate
      with the responder of its tests; both sides in step; [src/handshake.rs]; sequences of
      connections.
    - [Socket]: [noise_socket.rs] and the two ends of the client.
    - [LtHash], [AppState], [Dedup], [AppSync], [AppSend]: [lthash.rs]; [hash.rs],
      [decode.rs], [processor.rs], [keys.rs]; [collect_unique_index_macs]; the key cache,
      external blobs, patch lists and persistence of [appstate_sync.rs]; [encode.rs] and
      [build_patch].
    - [Attrs], [PatchStanza]: the attribute parsers of [attrs.rs]; [patch_decode.rs].
    - [AppClient]: the tasks of [src/client/app_state.rs] in a monad over the client's state
      and the class [Host] of everything outside.  [SyncTyped], [SyncTasks], [SyncConverge],
      [SyncErrors]: processing is total; tasks end, and keep out of each other's way; devices
      converge; what becomes of errors.
    - [SyncDriver]: the loop [sync_collection] of the core.
    - [Schemas], [ChatActions], [ActionEvents]: [schemas.rs]; [chat_actions.rs], [labels.rs]
      and the dispatch of mutations; an action from one device to the event on another.
    - [Curve], [SignalBase]: [curve.rs] and [curve25519.rs]; errors, limits and
      parameters of the Signal files; numbered messages that arrive in any order.
    - [SenderKeys], [GroupCipher]: [sender_keys.rs] and the sender-key messages of
      [protocol.rs]; [group_cipher.rs].
    - [Ratchet], [Session], [SignalMessages], [SessionCipher]: [ratchet/keys.rs];
      [state/session.rs]; the two session messages of [protocol.rs]; [session_cipher.rs],
      [session.rs] and [ratchet.rs], in a monad whose errors show the state they leave.
    - [SessionSafety], [SessionWorld]: what sessions promise on any input - a failed
      decryption changes nothing, no call panics, limits hold.
    - [Epochs], [Conversation], [Dialogue]: the double ratchet as a sequence of epochs, the
      calls of two devices that have agreed on a key, and the ideal conversation they refine.
    - [SignalCache], [CacheCoherence], [CacheSlots], [CacheLedger], [CacheRefines],
      [CacheFlush], [CacheRun], [CacheBounds]: [signal_cache.rs] over a backend that may fail
      ([in_memory.rs]); a program logic for it and what each store keeps; the plain ledger it
      refines; its operations, the flush and whole runs; the sizes of its stores.
    - [NamedLocks]: the lock table of [signal_cache.rs].
    - [PortableCache], [PortableRuns], [SingleFlight]: [portable_cache.rs], the sequential
      cache and the map it refines, runs of it, and [get_with] as steps of many callers.
    - [PreKeyUpload], [PreKeySafe], [PreKeyRuns]: the pre-key part of [src/prekeys.rs], of the
      device and of its persistence, as tasks that meet a script of interruptions and faults;
      a program logic and the invariant of the watermarks; whole runs.  [PreKeyNodes],
      [PreKeyDigest]: the stanzas of [iq/prekeys.rs] and [wacore/src/prekeys.rs]; the check of
      the digest.
    - [Media], [MediaStream], [MediaCodec]: encryption and decryption of [upload.rs] and
      [download.rs]; streams and the laws of the primitives; both directions together.
      [MediaTransfer], [MediaDelivery]: the transfers of [src/upload.rs] and
      [src/download.rs]; from one device to another.
    - [InflateReader], [HistoryWire], [HistorySync], [HistoryStream]: [zlib_pool.rs]; the walk
      over fields, the extraction and the two streams of [history_sync.rs].
    - [Companion], [Pairing], [PairCode], [PairFlow]: companion identity strings; QR codes, the
      signed identity and [adv.rs]; the code flow's cryptography; the handlers of both flows.
    - [LidMigrate], [LidPn]: the migration of sessions over the Signal cache; the mapping cache,
      learning, storing and looking up.

    A definition keeps the name of the function it models, with a prefix where two Rust
    types have a method of the same name ([jid_fmt], [stack_new], [noise_new]).  A method on
    [&mut self] takes the state and returns the state it leaves with its result.

    ** What the theorems show

    - The wire: every node that fits the format is marshalled to bytes that decode to its
      image, and canonical nodes survive unchanged; [marshal] fails exactly on the nodes
      that do not fit; the output does not depend on the writer, on the string cache or on
      the form of the node; the decoder is total on arbitrary input.
    - Tokens, packed strings, JIDs: the lookup directions are inverse; vector loops equal
      scalar loops; parsing inverts printing; the redacted form reveals only the token.
    - Frames, Noise, socket: reassembly is independent of the transport's cuts; two Noise
      states that start equal stay equal; nonces never repeat; stanzas sent through the
      socket arrive as their images, in order.
    - Connections: with an honest server a handshake succeeds whichever pattern the cached
      chain selects, and both sides end with the same keys; only keys that the root has
      certified are ever cached or used for IK, whatever the network does.
    - App state: the hash of a collection is the sum of the value MACs it stores, after every
      call that no access to the store interrupts, and what an interrupted one leaves is half
      of one patch or snapshot; patches apply in sequence and once; MACs are enforced when the
      key is named; the sorting and the scanning deduplication agree; the key cache answers as
      the backend; a patch built by the client is accepted by the client; sync stanzas are
      parsed back; processing never panics and keeps its types.
    - Synchronisation: whatever the server answers, tasks end within a fixed number of
      queries and release their collections; devices that share a key converge through a
      server that serves the log of patches; every accepted action raises its event, with
      its arguments, on the other device.
    - Groups: signatures verify, with cold and warm caches; a conversation survives any
      order of delivery, losses and repetitions; a message key is handed out once; only
      signed messages are opened; records stay within their limits.
    - Sessions: two devices that set up a session and exchange messages give, event by event,
      the reports of an ideal conversation, under reordering, loss and repetition; a message
      that fails to decrypt changes no stored session; in any sequence of calls nothing panics
      and records stay within their limits.
    - The cache answers as the ledger does whatever the backend refuses; a pre-key leaves the
      backend only after its session has reached it, at every point where the process may die;
      retried flushes end and make everything durable; clean entries stay below the watermark;
      a name has one lock as long as anybody holds it.
    - The in-process cache refines a map that may forget; at most one initialisation of a key
      runs at a time, and its waiters get its result unless the call is dropped before it has
      inserted it.
    - Pre-keys: across failures and crashes no id is offered twice and the record of an offered
      key stays until it is used; retried uploads end; the direct encoder agrees with the node
      tree; answers are parsed back, companions whose identity is not signed left out; the digest of
      the client's own keys is found valid.
    - Linking: a device that the phone links by code ends with the identity the phone signed; no
      other container is accepted; sessions move to the linked id and no crash loses one;
      mappings that are reported as stored are in the store.
    - Media: what is uploaded is what is downloaded, through any failures the retries cover, and
      what a download returns is a response whose MAC or hash is right.  History: the streaming
      extraction equals the walk over the whole blob, however it is cut.
    - Behaviours that deviate from the code's own intent are lemmas too:
      [failed_send_reuses_nonce], [patch_commit_interrupted], [missing_key_not_recognised],
      [sync_collection_endless], [unknown_server_undecodable],
      [jid_from_str_errors], [patch_without_key_id_unverified], [untrusted_message_consumed],
      [late_peek_is_stale], [coalesced_bytes_lost], [collection_error_dropped],
      [foreign_response_corrupts], [cleanup_breaks_exclusion], [writer_not_truncated],
      [init_lock_leaked], [dropped_initialises_twice], [unread_wrapper_accepted], [self_signed_valid],
      [failed_finish_breaks_qr], [link_without_device], [documented_code_invalid],
      [offline_learn_never_migrates], [returned_lid_not_durable], [reverse_index_dropped],
      [saver_race_reoffers], [handed_key_regenerated], [extract_never_ends].

    ** Parameters

    Code outside the repository is a class with the laws its documentation states:
    [TokenMaps] (the [hashify] macro), [Crypto] (AES-GCM, SHA-256, HKDF), [Hkdf] (HKDF
    expansion), [AppCrypto] and [AppEncrypt] (HMAC, AES-CBC, protobuf, JSON), [KeyStore]
    (sync keys of the backend, base64), [Blobs] (download callback, protobuf), [StrKeys]
    (the address of a string), [Dalek] (curve arithmetic, SHA-512), [SignalCrypto] (HMAC,
    HKDF, AES-CBC, protobuf), [SenderKeyStore] and [SignalStores] (the record and key stores),
    [HandshakeProto] (protobuf of the handshake), [BuildConfig] (the feature that skips the
    certificate check), [Codec] (the bytes of a stored record), [HashOrder] (the order of a hash table),
    [SyncProto], [BlobProto] and [ActionCodec] (protobuf and JSON of the app-state messages),
    [Host] (server, media, disk, clock, shutdown flag), [SyncDriver] (the driver of the core),
    [MediaCrypto] (AES-CBC, HMAC, SHA-256, HKDF), [MediaHttp] (HTTP, JSON, clock), [IoSink] (a
    writer), [Inflater] (the zlib decoder), [HistoryCodec] and [PairCodec] (protobuf, base64,
    AES-CTR), [PreKeyCodec] with [PreKeyWire] (protobuf), [Sha1],
    and the argument [inflate] (zlib).  Each has a concrete instance, used by the witnesses.

    ** Fuel

    Recursion that is not structural in Rust's data is bounded by fuel, and [Timeout] marks
    its end.  [unmarshal_ref] uses one more than the input length, since every level of
    nesting reads at least one byte ([unmarshal_ref_total]); [write_string] uses one more
    than the length of the string, since the parts of a JID are shorter; [drain] uses one more
    than the buffer length, since a frame is at least its prefix ([receive_any_chunking]);
    [skip_to] and [ratchet_to] use one more than the jump, since a step advances the chain by
    one ([sessions_safe]); [fetch_app_state_attempts] uses the six attempts of the code
    ([app_state_tasks_end]).  The loops over an inflated stream are bounded by what the stream
    can still deliver, since every round takes a byte ([history_sync_streams]);
    [retry_upload] ends after more attempts than the script has moments
    ([prekey_retry_ends]).  [sync_collection] has no bound that always suffices, nor has
    [extract_loop] on a record whose lengths wrap.

    ** Not modelled

    Asynchronous scheduling, timers, reconnection and node dispatch (the sender task is its
    sequence of jobs, the receive loop its sequence of deliveries); memory reuse and
    capacity beyond the hint of [marshal_auto] and the plan of [marshal_exact]; serde
    implementations, and logging where it cannot change a result.  The app-state tasks run
    without interruption between two calls to the outside, except under [flight_step], where only
    their claims are steps; the accesses of the tasks to the disk fail as [Host] says, those of
    the processor as its script of faults says, row by row.  The saver of the device overlaps an
    upload only in [saver_race_reoffers].

    Left out altogether: the sending of messages and their retries ([send.rs], [retry.rs]) and
    the device registry, which orchestrate the modelled ciphers, stores and nodes through many
    services; the specifications of the other queries ([iq/]), which lay out stanzas one by
    one, and its generated tables; the SQL of the stores; transports, HTTP clients, the derive
    macros and the front end. *)

From stdpp Require Import prelude strings.
From Stdlib Require Import ZArith Lia.

#[local] Open Scope Z_scope.

(** ** Outcomes

    A Rust function that returns [Result<A, E>] ends in one of four ways: it
    returns [Ok], it returns [Err], it panics (an index out of range, a failed
    [assert!] or [expect], [unreachable!]), or the fuel that bounds the
    recursion of its model runs out.  The last constructor never stands for a
    behaviour of the code: each fuelled definition comes with a theorem that
    excludes it. *)

Inductive outcome (E A : Type) : Type :=
  | Ok (a : A)
  | Err (e : E)
  | Panic
  | Timeout.
Arguments Ok {E A} a.
Arguments Err {E A} e.
Arguments Panic {E A}.
Arguments Timeout {E A}.

#[global] Instance outcome_ret {E} : MRet (outcome E) := fun A a => Ok a.
#[global] Instance outcome_bind {E} : MBind (outcome E) := fun A B f m =>
  match m with
  | Ok a => f a
  | Err e => Err e
  | Panic => Panic
  | Timeout => Timeout
  end.
#[global] Instance outcome_fmap {E} : FMap (outcome E) := fun A B f m =>
  match m with
  | Ok a => Ok (f a)
  | Err e => Err e
  | Panic => Panic
  | Timeout => Timeout
  end.

(** [opt.ok_or(e)?] *)
Definition ok_or {E A} (o : option A) (e : E) : outcome E A :=
  match o with Some a => Ok a | None => Err e end.

(** [res.is_err()] *)
Definition is_err {E A} (m : outcome E A) : bool :=
  match m with Err _ => true | _ => false end.

(** [res.map_err(f)] *)
Definition map_err {E F A} (f : E -> F) (m : outcome E A) : outcome F A :=
  match m with
  | Ok a => Ok a
  | Err e => Err (f e)
  | Panic => Panic
  | Timeout => Timeout
  end.

(** The outcomes a Rust caller can observe: a value or an error. *)
Definition returns {E A} (m : outcome E A) : Prop :=
  match m with Ok _ | Err _ => True | Panic | Timeout => False end.

Lemma bind_Ok_inv {E A B} (m : outcome E A) (f : A -> outcome E B) b :
  (m ≫= f) = Ok b -> exists a, m = Ok a /\ f a = Ok b.
Proof. destruct m; simpl; naive_solver. Qed.

Lemma bind_returns {E A B} (m : outcome E A) (f : A -> outcome E B) :
  returns m -> (forall a, m = Ok a -> returns (f a)) -> returns (m ≫= f).
Proof. destruct m; simpl; naive_solver. Qed.

Lemma fmap_returns {E A B} (m : outcome E A) (f : A -> B) :
  returns m -> returns (f <$> m).
Proof. by destruct m. Qed.

Lemma ok_or_returns {E A} (o : option A) (e : E) : returns (ok_or o e).
Proof. by destruct o. Qed.

Lemma map_err_returns {E F A} (f : E -> F) (m : outcome E A) :
  returns m -> returns (map_err f m).
Proof. by destruct m. Qed.

Create HintDb outcome discriminated.
#[export] Hint Resolve bind_returns fmap_returns ok_or_returns map_err_returns : outcome.
#[export] Hint Constants Opaque : outcome.

(** Splits every [m ≫= f = Ok b] and [f <$> m = Ok b] of the context. *)
Ltac inv_ok :=
  repeat match goal with
  | H : _ ≫= _ = Ok _ |- _ =>
      let a := fresh "v" in
      apply bind_Ok_inv in H as (a & ? & ?)
  | H : Ok _ = Ok _ |- _ => injection H as H; try subst
  | H : Err _ = Ok _ |- _ => discriminate H
  | H : Panic = Ok _ |- _ => discriminate H
  | H : Timeout = Ok _ |- _ => discriminate H
  end.

(** ** Machine integers and byte strings

    Unsigned integers are [Z] values kept in range by the operations that the
    code uses; [wrap w] is the conversion [as u<w>], which keeps the low [w]
    bits.  A byte slice, a [Vec<u8>], a [BytesMut] and the bytes of a [&str]
    are all [bytes]. *)

Abbreviation byte := Z (only parsing).
Abbreviation bytes := (list Z) (only parsing).

Definition wrap (w : Z) (z : Z) : Z := z mod 2 ^ w.
Definition in_range (w : Z) (z : Z) : Prop := 0 <= z < 2 ^ w.

Definition is_byte (z : Z) : Prop := 0 <= z < 256.
Definition are_bytes (l : bytes) : Prop := Forall is_byte l.

#[global] Instance is_byte_dec z : Decision (is_byte z).
Proof. unfold is_byte. apply _. Defined.
#[global] Instance are_bytes_dec l : Decision (are_bytes l).
Proof. unfold are_bytes. apply _. Defined.

(** A decidable property of bytes is checked on all of them. *)
Definition all_bytes : list Z := map Z.of_nat (seq 0 256).

Lemma all_bytes_spec b : is_byte b -> In b all_bytes.
Proof.
  unfold is_byte, all_bytes. intros Hb. apply in_map_iff. exists (Z.to_nat b).
  split; [lia|]. apply in_seq. lia.
Qed.

Lemma byte_check (P : byte -> bool) :
  forallb P all_bytes = true -> forall b, is_byte b -> P b = true.
Proof. intros H b Hb. rewrite forallb_forall in H. by apply H, all_bytes_spec. Qed.

(** Lengths are [usize] values, that is [Z]. *)
Definition zlen {A} (l : list A) : Z := Z.of_nat (length l).

Lemma zlen_nil {A} : zlen (@nil A) = 0.
Proof. done. Qed.
Lemma zlen_cons {A} (x : A) l : zlen (x :: l) = 1 + zlen l.
Proof. unfold zlen. simpl length. lia. Qed.
Lemma zlen_app {A} (l1 l2 : list A) : zlen (l1 ++ l2) = zlen l1 + zlen l2.
Proof. unfold zlen. rewrite length_app. lia. Qed.
Lemma zlen_nonneg {A} (l : list A) : 0 <= zlen l.
Proof. unfold zlen. lia. Qed.
Create Rewrite HintDb zlen.
#[export] Hint Rewrite @zlen_nil @zlen_cons @zlen_app : zlen.

(** The bytes of a string literal. *)
Definition str (s : string) : bytes :=
  map (fun a => Z.of_N (Ascii.N_of_ascii a)) (String.list_ascii_of_string s).

(** One character of a literal, [b'x']. *)
Definition chr (s : string) : byte := default 0 (head (str s)).

(** String equality, as [==] on [&str] or [&[u8]]. *)
Fixpoint bytes_eqb (a b : bytes) : bool :=
  match a, b with
  | [], [] => true
  | x :: a', y :: b' => (x =? y) && bytes_eqb a' b'
  | _, _ => false
  end.

Lemma bytes_eqb_eq a b : bytes_eqb a b = true <-> a = b.
Proof.
  revert b. induction a as [|x a IH]; intros [|y b]; cbn [bytes_eqb]; [done..|].
  rewrite andb_true_iff, Z.eqb_eq, IH. naive_solver.
Qed.
Lemma bytes_eqb_refl a : bytes_eqb a a = true.
Proof. by apply bytes_eqb_eq. Qed.
Lemma bytes_eqb_neq a b : bytes_eqb a b = false <-> a <> b.
Proof. rewrite <- bytes_eqb_eq. by destruct (bytes_eqb a b). Qed.

(** [s[..i]] and [s[i..]] for an index in range. *)
Definition upto (i : Z) (s : bytes) : bytes := take (Z.to_nat i) s.
Definition from (i : Z) (s : bytes) : bytes := drop (Z.to_nat i) s.

Lemma upto_from i s : upto i s ++ from i s = s.
Proof. apply take_drop. Qed.
Lemma upto_app a b : upto (zlen a) (a ++ b) = a.
Proof. unfold upto, zlen. by rewrite Nat2Z.id, take_app_length. Qed.
Lemma from_app a b : from (zlen a) (a ++ b) = b.
Proof. unfold from, zlen. by rewrite Nat2Z.id, drop_app_length. Qed.

(** ** Searching a string *)

(** [s.find(c)] for an ASCII character: the first index. *)
Fixpoint find (c : byte) (s : bytes) : option Z :=
  match s with
  | [] => None
  | b :: s' => if b =? c then Some 0 else Z.succ <$> find c s'
  end.

(** [s.rfind(c)]: the last index. *)
Fixpoint rfind (c : byte) (s : bytes) : option Z :=
  match s with
  | [] => None
  | b :: s' =>
      match rfind c s' with
      | Some i => Some (Z.succ i)
      | None => if b =? c then Some 0 else None
      end
  end.

(** [s.split_once(c)] and [s.rsplit_once(c)]. *)
Definition split_once (c : byte) (s : bytes) : option (bytes * bytes) :=
  i ← find c s; Some (upto i s, from (i + 1) s).
Definition rsplit_once (c : byte) (s : bytes) : option (bytes * bytes) :=
  i ← rfind c s; Some (upto i s, from (i + 1) s).

Lemma find_None c s : find c s = None <-> c ∉ s.
Proof.
  induction s as [|b s IH]; simpl.
  - split; [intros _; apply not_elem_of_nil | done].
  - rewrite not_elem_of_cons, <- IH. destruct (Z.eqb_spec b c) as [->|Hne].
    + split; [done | intros [? _]; done].
    + destruct (find c s); simpl; naive_solver.
Qed.

Lemma rfind_None c s : rfind c s = None <-> c ∉ s.
Proof.
  induction s as [|b s IH]; simpl.
  - split; [intros _; apply not_elem_of_nil | done].
  - rewrite not_elem_of_cons, <- IH.
    destruct (rfind c s); [naive_solver|].
    destruct (Z.eqb_spec b c) as [->|Hne]; naive_solver.
Qed.

Lemma find_app c a b : c ∉ a -> find c (a ++ c :: b) = Some (zlen a).
Proof.
  induction a as [|x a IH]; simpl; intros Hc.
  - by rewrite Z.eqb_refl.
  - apply not_elem_of_cons in Hc as [Hne Hc].
    destruct (Z.eqb_spec x c); [done|]. rewrite IH by done. simpl.
    f_equal. autorewrite with zlen. lia.
Qed.

Lemma rfind_app c a b : c ∉ b -> rfind c (a ++ c :: b) = Some (zlen a).
Proof.
  intros Hb. induction a as [|x a IH]; simpl.
  - apply rfind_None in Hb. by rewrite Hb, Z.eqb_refl.
  - rewrite IH. f_equal. autorewrite with zlen. lia.
Qed.

Lemma find_Some c s i :
  find c s = Some i -> exists a b, s = a ++ c :: b /\ zlen a = i /\ c ∉ a.
Proof.
  revert i. induction s as [|x s IH]; simpl; intros i; [done|].
  destruct (Z.eqb_spec x c) as [->|Hne].
  - intros [= <-]. exists [], s. split_and!; [done..|apply not_elem_of_nil].
  - destruct (find c s) as [j|] eqn:Hj; [|done]. intros [= <-].
    destruct (IH j eq_refl) as (a & b & -> & Ha & Hca).
    exists (x :: a), b. split_and!; [done| |].
    + autorewrite with zlen. lia.
    + apply not_elem_of_cons. naive_solver.
Qed.

Lemma rfind_Some c s i :
  rfind c s = Some i -> exists a b, s = a ++ c :: b /\ zlen a = i /\ c ∉ b.
Proof.
  revert i. induction s as [|x s IH]; simpl; intros i; [done|].
  destruct (rfind c s) as [j|] eqn:Hj.
  - intros [= <-]. destruct (IH j eq_refl) as (a & b & -> & Ha & Hcb).
    exists (x :: a), b. split_and!; [done| |done].
    autorewrite with zlen. lia.
  - destruct (Z.eqb_spec x c) as [->|Hne]; [|done]. intros [= <-].
    exists [], s. split_and!; [done..|by apply rfind_None].
Qed.

Lemma upto_split a c b : upto (zlen a) (a ++ c :: b) = a.
Proof. apply upto_app. Qed.
Lemma from_split (a : bytes) c b : from (zlen a + 1) (a ++ c :: b) = b.
Proof.
  replace (zlen a + 1) with (zlen (a ++ [c])) by (autorewrite with zlen; lia).
  rewrite (app_assoc a [c] b : a ++ c :: b = (a ++ [c]) ++ b). apply from_app.
Qed.

(** ** Big- and little-endian integers *)

(** [z.to_be_bytes()] for an integer of [n] bytes. *)
Fixpoint to_be_bytes (n : nat) (z : Z) : bytes :=
  match n with
  | O => []
  | S n' => (Z.shiftr z (8 * Z.of_nat n')) mod 256 :: to_be_bytes n' z
  end.

(** [u<n>::from_be_bytes]. *)
Fixpoint from_be_acc (acc : Z) (l : bytes) : Z :=
  match l with
  | [] => acc
  | b :: l' => from_be_acc (acc * 256 + b) l'
  end.
Definition from_be_bytes (l : bytes) : Z := from_be_acc 0 l.

Lemma to_be_bytes_length n z : length (to_be_bytes n z) = n.
Proof. induction n; simpl; congruence. Qed.

Lemma to_be_bytes_zlen n z : zlen (to_be_bytes n z) = Z.of_nat n.
Proof. unfold zlen. by rewrite to_be_bytes_length. Qed.

Lemma to_be_bytes_are_bytes n z : are_bytes (to_be_bytes n z).
Proof.
  induction n; simpl; constructor; [|done].
  apply Z.mod_pos_bound. lia.
Qed.

Lemma pow2_8 n : 2 ^ (8 * Z.of_nat (S n)) = 256 * 2 ^ (8 * Z.of_nat n).
Proof.
  replace (8 * Z.of_nat (S n)) with (8 + 8 * Z.of_nat n) by lia.
  rewrite Z.pow_add_r by lia. done.
Qed.

Lemma from_be_acc_to_be n acc z :
  0 <= z -> from_be_acc acc (to_be_bytes n z)
            = acc * 2 ^ (8 * Z.of_nat n) + z mod 2 ^ (8 * Z.of_nat n).
Proof.
  intros Hz. revert acc. induction n as [|n IH]; intros acc.
  - simpl. rewrite Z.mod_1_r. lia.
  - cbn [to_be_bytes from_be_acc]. rewrite IH, pow2_8.
    rewrite Z.shiftr_div_pow2 by lia.
    set (p := 2 ^ (8 * Z.of_nat n)).
    assert (0 < p) by (apply Z.pow_pos_nonneg; lia).
    rewrite (Z.mul_comm 256 p), Z.rem_mul_r by lia. ring.
Qed.

Lemma from_to_be_bytes n z :
  0 <= z < 2 ^ (8 * Z.of_nat n) -> from_be_bytes (to_be_bytes n z) = z.
Proof.
  intros Hz. unfold from_be_bytes. rewrite from_be_acc_to_be by lia.
  rewrite Z.mod_small by lia. lia.
Qed.

(** [(hi << k) | lo] joins two fields. *)
Lemma lor_shiftl hi lo k :
  0 <= k -> 0 <= lo < 2 ^ k -> Z.lor (Z.shiftl hi k) lo = hi * 2 ^ k + lo.
Proof.
  intros Hk Hlo. rewrite <- Z.shiftl_mul_pow2 by lia. symmetry. apply Z.add_nocarry_lor.
  apply Z.bits_inj'. intros n Hn. rewrite Z.land_spec, Z.testbit_0_l, Z.shiftl_spec by lia.
  destruct (Z.lt_ge_cases n k).
  - by rewrite Z.testbit_neg_r by lia.
  - rewrite <- (Z.mod_small lo (2 ^ k)), Z.mod_pow2_bits_high by lia. apply andb_false_r.
Qed.

(** ** Decimal numbers

    [itoa] is the formatting of an unsigned integer ([itoa::Buffer::format],
    [{}] of [u8] .. [u64]); forty digits are enough for a [u128]. *)

Fixpoint digits (fuel : nat) (n : Z) (acc : bytes) : bytes :=
  match fuel with
  | O => acc
  | S fuel' =>
      let acc' := 48 + n mod 10 :: acc in
      if n <? 10 then acc' else digits fuel' (n / 10) acc'
  end.
Definition itoa (n : Z) : bytes := digits 40 n [].
Arguments itoa : simpl never.

Definition is_ascii_digit (b : byte) : bool := (48 <=? b) && (b <=? 57).

(** The digit loop of [from_str_radix]: [None] on a character that is not a
    digit, or when the value leaves the range of the type. *)
Fixpoint parse_digits (max : Z) (acc : Z) (s : bytes) : option Z :=
  match s with
  | [] => Some acc
  | b :: s' =>
      if is_ascii_digit b then
        let acc' := acc * 10 + (b - 48) in
        if acc' <=? max then parse_digits max acc' s' else None
      else None
  end.

(** [s.parse::<u<w>>().ok()], with [max] the largest value of the type: a
    leading [+] is allowed, and at least one digit is needed. *)
Definition parse_uint (max : Z) (s : bytes) : option Z :=
  match s with
  | [] => None
  | b :: s' =>
      if b =? 43 then match s' with [] => None | _ => parse_digits max 0 s' end
      else parse_digits max 0 s
  end.

Abbreviation parse_u8 := (parse_uint 255).
Abbreviation parse_u16 := (parse_uint 65535).
Abbreviation parse_u64 := (parse_uint 18446744073709551615).

Lemma parse_digits_app max acc a b :
  parse_digits max acc (a ++ b)
  = match parse_digits max acc a with
    | Some acc' => parse_digits max acc' b
    | None => None
    end.
Proof.
  revert acc. induction a as [|x a IH]; intros acc; simpl; [done|].
  destruct (is_ascii_digit x); [|done]. case_match; [apply IH|done].
Qed.

Lemma digits_spec fuel n acc :
  0 <= n < 10 ^ Z.of_nat fuel -> (0 < fuel)%nat ->
  exists d ds, digits fuel n acc = (d :: ds) ++ acc
    /\ Forall (fun b => is_ascii_digit b = true) (d :: ds)
    /\ (forall max, n <= max -> parse_digits max 0 (d :: ds) = Some n).
Proof.
  revert n acc. induction fuel as [|fuel IH]; intros n acc Hn Hf; [lia|].
  assert (Hm := Z.mod_pos_bound n 10 ltac:(lia)).
  assert (Hdig : is_ascii_digit (48 + n mod 10) = true)
    by (unfold is_ascii_digit; apply andb_true_intro; split; lia).
  cbn [digits]. destruct (Z.ltb_spec n 10) as [Hlt|Hge].
  - exists (48 + n mod 10), []. split_and!; [done|by repeat constructor|].
    intros max Hmax. cbn [parse_digits]. rewrite Hdig.
    rewrite Z.mod_small by lia. replace (0 * 10 + (48 + n - 48)) with n by lia.
    destruct (Z.leb_spec n max); [done|lia].
  - assert (Hdiv : 0 <= n / 10 < 10 ^ Z.of_nat fuel).
    { rewrite Nat2Z.inj_succ, Z.pow_succ_r in Hn by lia.
      split; [apply Z.div_pos; lia | apply Z.div_lt_upper_bound; lia]. }
    assert (0 < fuel)%nat.
    { destruct fuel; [|lia]. change (10 ^ Z.of_nat 1) with 10 in Hn. lia. }
    destruct (IH (n / 10) (48 + n mod 10 :: acc) Hdiv) as (d & ds & Heq & Hall & Hp);
      [done|].
    exists d, (ds ++ [48 + n mod 10]). split_and!.
    + rewrite Heq. simpl. by rewrite <- app_assoc.
    + change (d :: ds ++ ?e) with ((d :: ds) ++ e).
      apply Forall_app. split; [done|by repeat constructor].
    + intros max Hmax.
      change (d :: ds ++ ?e) with ((d :: ds) ++ e). rewrite parse_digits_app.
      assert (n = 10 * (n / 10) + n mod 10) by (apply Z.div_mod; lia).
      rewrite Hp by lia. cbn [parse_digits]. rewrite Hdig.
      replace (n / 10 * 10 + (48 + n mod 10 - 48)) with n by lia.
      destruct (Z.leb_spec n max); [done|lia].
Qed.

Lemma itoa_spec n :
  0 <= n < 10 ^ 40 ->
  exists d ds, itoa n = d :: ds
    /\ Forall (fun b => is_ascii_digit b = true) (itoa n)
    /\ (forall max, n <= max -> parse_digits max 0 (itoa n) = Some n).
Proof.
  intros Hn. unfold itoa.
  destruct (digits_spec 40 n [] Hn ltac:(lia)) as (d & ds & Heq & Hall & Hp).
  rewrite app_nil_r in Heq. exists d, ds. rewrite Heq. by split_and!.
Qed.

(** Formatting then parsing gives the number back, at any width it fits. *)
Lemma parse_uint_itoa max n :
  0 <= n <= max -> max < 10 ^ 40 -> parse_uint max (itoa n) = Some n.
Proof.
  intros Hn Hmax. destruct (itoa_spec n) as (d & ds & Heq & Hall & Hp); [lia|].
  unfold parse_uint. rewrite Heq in *. apply Forall_inv in Hall.
  destruct (Z.eqb_spec d 43) as [->|]; [by vm_compute in Hall|].
  apply Hp. lia.
Qed.

Lemma itoa_digits n b : 0 <= n < 10 ^ 40 -> b ∈ itoa n -> is_ascii_digit b = true.
Proof.
  intros Hn Hb. destruct (itoa_spec n Hn) as (d & ds & _ & Hall & _).
  rewrite Forall_forall in Hall. by apply Hall.
Qed.

Lemma itoa_not_elem n c :
  0 <= n < 10 ^ 40 -> is_ascii_digit c = false -> c ∉ itoa n.
Proof. intros Hn Hc Hin. apply itoa_digits in Hin; congruence. Qed.

Lemma itoa_nonnil n : 0 <= n < 10 ^ 40 -> itoa n <> [].
Proof. intros Hn. destruct (itoa_spec n Hn) as (d & ds & -> & _). done. Qed.

Lemma parse_digits_range max acc s n :
  0 <= acc <= max -> parse_digits max acc s = Some n -> 0 <= n <= max.
Proof.
  revert acc. induction s as [|b s IH]; intros acc Ha; cbn [parse_digits].
  - by intros [= <-].
  - unfold is_ascii_digit. destruct (Z.leb_spec 48 b); [|done].
    destruct (Z.leb_spec b 57); [|done]. cbn [andb].
    destruct (Z.leb_spec (acc * 10 + (b - 48)) max); [|done]. apply IH. lia.
Qed.

Lemma parse_uint_range max s n : 0 <= max -> parse_uint max s = Some n -> 0 <= n <= max.
Proof.
  intros Hm. unfold parse_uint. destruct s as [|b s]; [done|].
  destruct (b =? 43); [destruct s; [done|]|]; apply parse_digits_range; lia.
Qed.

(** ** UTF-8

    [std::str::from_utf8]: the well-formed sequences of RFC 3629.  A [&str] is
    a byte string for which [utf8_valid] holds. *)

Definition is_cont (b : byte) : bool := (128 <=? b) && (b <=? 191).

Definition utf8_3 (b0 b1 : byte) : bool :=
  ((b0 =? 224) && (160 <=? b1) && (b1 <=? 191))
  || ((225 <=? b0) && (b0 <=? 236) && is_cont b1)
  || ((b0 =? 237) && (128 <=? b1) && (b1 <=? 159))
  || ((238 <=? b0) && (b0 <=? 239) && is_cont b1).

Definition utf8_4 (b0 b1 : byte) : bool :=
  ((b0 =? 240) && (144 <=? b1) && (b1 <=? 191))
  || ((241 <=? b0) && (b0 <=? 243) && is_cont b1)
  || ((b0 =? 244) && (128 <=? b1) && (b1 <=? 143)).

Fixpoint utf8_valid (l : bytes) : bool :=
  match l with
  | [] => true
  | b0 :: l1 =>
      if (0 <=? b0) && (b0 <? 128) then utf8_valid l1 else
      match l1 with
      | [] => false
      | b1 :: l2 =>
          if (194 <=? b0) && (b0 <=? 223) then is_cont b1 && utf8_valid l2 else
          match l2 with
          | [] => false
          | b2 :: l3 =>
              if utf8_3 b0 b1 then is_cont b2 && utf8_valid l3 else
              match l3 with
              | [] => false
              | b3 :: l4 => utf8_4 b0 b1 && is_cont b2 && is_cont b3 && utf8_valid l4
              end
          end
      end
  end.

Definition is_ascii (b : byte) : bool := (0 <=? b) && (b <? 128).

Lemma utf8_valid_ascii l : Forall (fun b => is_ascii b = true) l -> utf8_valid l = true.
Proof.
  induction 1 as [|b l Hb Hl IH]; simpl; [done|].
  unfold is_ascii in Hb. by rewrite Hb.
Qed.

(** A non-empty string starts with one code point, whose bytes after the first
    are not ASCII. *)
Lemma utf8_valid_cons x l : utf8_valid (x :: l) = true ->
  exists h t, l = h ++ t /\ utf8_valid t = true
    /\ Forall (fun b => is_ascii b = false) h
    /\ forall t', utf8_valid ((x :: h) ++ t') = utf8_valid t'.
Proof.
  assert (Hcont : forall b, is_cont b = true -> is_ascii b = false)
    by (intros b; unfold is_ascii, is_cont; lia).
  assert (H3 : forall a b, utf8_3 a b = true -> is_ascii b = false)
    by (intros a b; unfold utf8_3, is_ascii, is_cont; lia).
  assert (H4 : forall a b, utf8_4 a b = true -> is_ascii b = false)
    by (intros a b; unfold utf8_4, is_ascii, is_cont; lia).
  cbn [utf8_valid]. destruct ((0 <=? x) && (x <? 128)) eqn:E1.
  { intros H. exists [], l. split_and!; try done. intros t'. cbn [app utf8_valid]. by rewrite E1. }
  destruct l as [|b1 l]; [done|]. destruct ((194 <=? x) && (x <=? 223)) eqn:E2.
  { intros [Hb H]%andb_true_iff. exists [b1], l. split_and!; try done.
    - repeat constructor. auto.
    - intros t'. cbn [app utf8_valid]. by rewrite E1, E2, Hb. }
  destruct l as [|b2 l]; [done|]. destruct (utf8_3 x b1) eqn:E3.
  { intros [Hb H]%andb_true_iff. exists [b1; b2], l. split_and!; try done.
    - repeat constructor; eauto.
    - intros t'. cbn [app utf8_valid]. by rewrite E1, E2, E3, Hb. }
  destruct l as [|b3 l]; [done|]. rewrite !andb_true_iff. intros [[[E4 Hb2] Hb3] H].
  exists [b1; b2; b3], l. split_and!; try done.
  - repeat constructor; eauto.
  - intros t'. cbn [app utf8_valid]. by rewrite E1, E2, E3, E4, Hb2, Hb3.
Qed.

(** A string cut at an ASCII character is cut at a boundary. *)
Lemma utf8_valid_split a c b :
  is_ascii c = true -> utf8_valid (a ++ c :: b) = true ->
  utf8_valid a = true /\ utf8_valid b = true.
Proof.
  intros Hc. remember (length a) as n eqn:Hn. assert (Hle : (length a <= n)%nat) by lia.
  clear Hn. revert a Hle. induction n as [n IH] using lt_wf_ind. intros [|x a] Hle H.
  - cbn [app utf8_valid] in H. unfold is_ascii in Hc. by rewrite Hc in H.
  - cbn [app] in H. apply utf8_valid_cons in H as (h & t & Heq & Ht & Hh & Hx).
    assert (exists a', a = h ++ a' /\ t = a' ++ c :: b) as (a' & -> & ->).
    { apply app_eq_app in Heq as (k & [[-> ->]|[-> Heq]]); [by exists k|].
      destruct k as [|y k]; [exists []; rewrite !app_nil_r; by cbn in Heq|].
      injection Heq as <- _. apply Forall_app in Hh as [_ Hh]. inv Hh. congruence. }
    cbn [length] in Hle. rewrite length_app in Hle.
    destruct (IH (length a') ltac:(lia) a' ltac:(lia) Ht) as [Ha Hb].
    split; [|done]. rewrite <- Ha. exact (Hx a').
Qed.

(** ** Chunks

    [l.as_chunks::<N>()] and the loops that take [N] elements at a time: the
    full chunks and the remainder. *)

Fixpoint chunks_fuel {A} (fuel : nat) (n : nat) (l : list A) : list (list A) * list A :=
  match fuel with
  | O => ([], l)
  | S fuel' =>
      if (n <=? length l)%nat then
        let '(cs, r) := chunks_fuel fuel' n (drop n l) in (take n l :: cs, r)
      else ([], l)
  end.
Definition as_chunks {A} (n : nat) (l : list A) : list (list A) * list A :=
  chunks_fuel (length l) n l.

Lemma chunks_fuel_spec {A} fuel n (l : list A) :
  (0 < n)%nat -> (length l <= fuel)%nat ->
  let '(cs, r) := chunks_fuel fuel n l in
  l = concat cs ++ r /\ Forall (fun c => length c = n) cs /\ (length r < n)%nat.
Proof.
  intros Hn. revert l. induction fuel as [|fuel IH]; intros l Hl; simpl.
  - destruct l; simpl in *; [|lia]. split_and!; [done|constructor|lia].
  - destruct (Nat.leb_spec n (length l)) as [Hle|Hgt].
    + specialize (IH (drop n l)). rewrite length_drop in IH.
      destruct (chunks_fuel fuel n (drop n l)) as [cs r].
      destruct IH as (Heq & Hall & Hr); [lia|]. split_and!; [| |done].
      * simpl. rewrite <- app_assoc, <- Heq. by rewrite take_drop.
      * constructor; [|done]. rewrite length_take. lia.
    + split_and!; [done|constructor|lia].
Qed.

Lemma as_chunks_spec {A} n (l : list A) :
  (0 < n)%nat ->
  let '(cs, r) := as_chunks n l in
  l = concat cs ++ r /\ Forall (fun c => length c = n) cs /\ (length r < n)%nat.
Proof. intros Hn. by apply chunks_fuel_spec. Qed.

(** A list of known length is an explicit list: [list_cases c 16] turns
    [length c = 16] into sixteen variables. *)
Tactic Notation "list_cases" ident(l) integer(n) ident(H) :=
  do n (destruct l as [|? l]; [discriminate H|]);
  destruct l; [clear H|discriminate H].
