(* ===== verification/Jid.v ===== *)
(** * JIDs

    The identifiers of [wacore/binary/src/jid.rs]: the [Server] enum, the
    [Jid] struct (its borrowed form [JidRef] has the same fields, with the
    string borrowed), the single-pass parser with its fallback, the formatter
    with its stack buffer, and the redacted formatter for traces. *)

From stdpp Require Import prelude strings.
From S2P Require Import Prelude.

#[local] Open Scope Z_scope.

(** ** Servers *)

Inductive Server : Type :=
  | Pn | Lid | Group | Broadcast | Newsletter | Hosted | HostedLid
  | Messenger | Interop | Bot | Legacy | Call.

#[global] Instance Server_eq_dec : EqDecision Server.
Proof. solve_decision. Defined.

Definition server_eqb (a b : Server) : bool := bool_decide (a = b).

Definition server_as_str (s : Server) : bytes :=
  match s with
  | Pn => str "s.whatsapp.net"
  | Lid => str "lid"
  | Group => str "g.us"
  | Broadcast => str "broadcast"
  | Newsletter => str "newsletter"
  | Hosted => str "hosted"
  | HostedLid => str "hosted.lid"
  | Messenger => str "msgr"
  | Interop => str "interop"
  | Bot => str "bot"
  | Legacy => str "c.us"
  | Call => str "call"
  end.

Definition is_pn_family (s : Server) : bool :=
  match s with Pn | Hosted => true | _ => false end.
Definition is_lid_family (s : Server) : bool :=
  match s with Lid | HostedLid => true | _ => false end.
Definition renders_agent (s : Server) : bool :=
  match s with Pn | Lid | Hosted | HostedLid => false | _ => true end.
Definition carries_phone_number (s : Server) : bool :=
  match s with Pn | Hosted | Legacy | Messenger | Interop => true | _ => false end.

(** [JidError]; the payload of [Parse] (a [ParseIntError]) is not modelled. *)
Inductive JidError : Type :=
  | InvalidFormat (msg : bytes)
  | Parse.

Definition server_try_from (s : bytes) : outcome JidError Server :=
  if bytes_eqb s (str "s.whatsapp.net") then Ok Pn
  else if bytes_eqb s (str "lid") then Ok Lid
  else if bytes_eqb s (str "g.us") then Ok Group
  else if bytes_eqb s (str "broadcast") then Ok Broadcast
  else if bytes_eqb s (str "newsletter") then Ok Newsletter
  else if bytes_eqb s (str "hosted") then Ok Hosted
  else if bytes_eqb s (str "hosted.lid") then Ok HostedLid
  else if bytes_eqb s (str "msgr") then Ok Messenger
  else if bytes_eqb s (str "interop") then Ok Interop
  else if bytes_eqb s (str "bot") then Ok Bot
  else if bytes_eqb s (str "c.us") then Ok Legacy
  else if bytes_eqb s (str "call") then Ok Call
  else Err (InvalidFormat (str "unknown server: " ++ s)).

Definition DEFAULT_USER_SERVER : bytes := str "s.whatsapp.net".
Definition HIDDEN_USER_SERVER : bytes := str "lid".
Definition MESSENGER_SERVER : bytes := str "msgr".
Definition INTEROP_SERVER : bytes := str "interop".
Definition STATUS_BROADCAST_USER : bytes := str "status".

Lemma server_try_from_as_str s : server_try_from (server_as_str s) = Ok s.
Proof. by destruct s. Qed.

Lemma server_try_from_Ok s srv : server_try_from s = Ok srv -> s = server_as_str srv.
Proof.
  unfold server_try_from.
  repeat match goal with
  | |- (if bytes_eqb s ?l then _ else _) = _ -> _ =>
      destruct (bytes_eqb s l) eqn:?H;
      [apply bytes_eqb_eq in H; by intros [= <-]|clear H]
  end.
  done.
Qed.

Lemma server_try_from_cases s :
  (exists srv, server_try_from s = Ok srv /\ s = server_as_str srv)
  \/ server_try_from s = Err (InvalidFormat (str "unknown server: " ++ s)).
Proof.
  destruct (server_try_from s) as [srv|e| |] eqn:H.
  - left. exists srv. eauto using server_try_from_Ok.
  - right. revert H. unfold server_try_from.
    repeat (case_match; [done|]). by intros [= <-].
  - exfalso. revert H. unfold server_try_from. by repeat (case_match; [done|]).
  - exfalso. revert H. unfold server_try_from. by repeat (case_match; [done|]).
Qed.

(** ** The [Jid] struct *)

Record Jid : Type := mkJid {
  j_user : bytes;
  j_server : Server;
  j_agent : Z;
  j_device : Z;
  j_integrator : Z;
}.

#[global] Instance Jid_eq_dec : EqDecision Jid.
Proof. solve_decision. Defined.

Definition jid_default : Jid := mkJid [] Pn 0 0 0.
Definition jid_new (user : bytes) (server : Server) : Jid := mkJid user server 0 0 0.

(** The predicates of the [JidExt] trait. *)
Definition is_ad (j : Jid) : bool :=
  (0 <? j_device j)
  && match j_server j with Pn | Lid | Hosted | HostedLid => true | _ => false end.
Definition is_interop (j : Jid) : bool :=
  server_eqb (j_server j) Interop && (0 <? j_integrator j).
Definition is_messenger (j : Jid) : bool :=
  server_eqb (j_server j) Messenger && (0 <? j_device j).
Definition is_group (j : Jid) : bool := server_eqb (j_server j) Group.
Definition is_broadcast_list (j : Jid) : bool :=
  server_eqb (j_server j) Broadcast && negb (bytes_eqb (j_user j) STATUS_BROADCAST_USER).
Definition is_status_broadcast (j : Jid) : bool :=
  server_eqb (j_server j) Broadcast && bytes_eqb (j_user j) STATUS_BROADCAST_USER.

Fixpoint starts_with (p s : bytes) : bool :=
  match p, s with
  | [], _ => true
  | x :: p', y :: s' => (x =? y) && starts_with p' s'
  | _ :: _, [] => false
  end.

Definition is_bot (j : Jid) : bool :=
  (server_eqb (j_server j) Pn && (j_device j =? 0)
   && (starts_with (str "1313555") (j_user j) || starts_with (str "131655500") (j_user j)))
  || server_eqb (j_server j) Bot.
Definition is_newsletter (j : Jid) : bool := server_eqb (j_server j) Newsletter.
Definition is_hosted (j : Jid) : bool :=
  (j_device j =? 99) || match j_server j with Hosted | HostedLid => true | _ => false end.
Definition is_same_user_as (a b : Jid) : bool := bytes_eqb (j_user a) (j_user b).

(** Derived JIDs. *)
Definition user_base (j : Jid) : bytes :=
  match split_once (chr ":") (j_user j) with
  | Some (base, _) => base
  | None => j_user j
  end.
Definition with_device (j : Jid) (device_id : Z) : Jid :=
  mkJid (j_user j) (j_server j) (j_agent j) device_id (j_integrator j).
Definition to_non_ad (j : Jid) : Jid :=
  mkJid (j_user j) (j_server j) 0 0 (j_integrator j).
Definition is_same_chat_as (a b : Jid) : bool :=
  bytes_eqb (j_user a) (j_user b)
  && server_eqb (j_server a) (j_server b)
  && (j_integrator a =? j_integrator b)
  && (negb (renders_agent (j_server a)) || (j_agent a =? j_agent b)).
Definition matches_user_or_lid (j user : Jid) (lid : option Jid) : bool :=
  is_same_user_as j user
  || match lid with Some l => is_same_user_as j l | None => false end.
Definition normalize_for_prekey_bundle (j : Jid) : Jid :=
  match j_server j with
  | Pn | Lid => mkJid (j_user j) (j_server j) 0 (j_device j) (j_integrator j)
  | _ => j
  end.
Definition device_eq (a b : Jid) : bool :=
  bytes_eqb (j_user a) (j_user b) && server_eqb (j_server a) (j_server b)
  && (j_device a =? j_device b).

(** ** Formatting

    The macro [write_jid!] has an infallible variant, which pushes to a
    growing string, and a fallible one, over any [fmt::Write]. *)

Definition push_jid (user : bytes) (server : Server) (agent device : Z) (buf : bytes)
    : bytes :=
  if bool_decide (user = []) then buf ++ server_as_str server
  else
    let buf := buf ++ user in
    let buf :=
      if (0 <? agent) && renders_agent server
      then buf ++ str "." ++ itoa agent else buf in
    let buf := if 0 <? device then buf ++ str ":" ++ itoa device else buf in
    buf ++ str "@" ++ server_as_str server.

(** [fmt::Write::write_str]; [None] is [fmt::Error]. *)
Class FmtWrite (W : Type) := fmt_write_str : W -> bytes -> option W.

Definition write_jid_fallible `{FmtWrite W} (w : W) (user : bytes) (server : Server)
    (agent device : Z) : option W :=
  if bool_decide (user = []) then fmt_write_str w (server_as_str server)
  else
    w ← fmt_write_str w user;
    w ← (if (0 <? agent) && renders_agent server
         then w ← fmt_write_str w (str "."); fmt_write_str w (itoa agent)
         else Some w);
    w ← (if 0 <? device
         then w ← fmt_write_str w (str ":"); fmt_write_str w (itoa device)
         else Some w);
    w ← fmt_write_str w (str "@");
    fmt_write_str w (server_as_str server).

(** [String] as a writer never fails. *)
#[global] Instance string_fmt_write : FmtWrite bytes := fun w s => Some (w ++ s).

Record JidStackWriter : Type := mkStack { sw_buf : bytes; sw_len : Z }.
Definition stack_new : JidStackWriter := mkStack (replicate 64 0) 0.
Definition stack_as_str (w : JidStackWriter) : bytes := upto (sw_len w) (sw_buf w).
#[global] Instance stack_fmt_write : FmtWrite JidStackWriter := fun w s =>
  let e := sw_len w + zlen s in
  if zlen (sw_buf w) <? e then None
  else Some (mkStack (upto (sw_len w) (sw_buf w) ++ s ++ from e (sw_buf w)) e).

(** [impl fmt::Display for Jid] (and for [JidRef]). *)
Definition jid_fmt `{FmtWrite W} (f : W) (j : Jid) : option W :=
  match write_jid_fallible stack_new (j_user j) (j_server j) (j_agent j) (j_device j) with
  | Some w => fmt_write_str f (stack_as_str w)
  | None => write_jid_fallible f (j_user j) (j_server j) (j_agent j) (j_device j)
  end.

(** [to_string()]: formatting into an empty string. *)
Definition jid_to_string (j : Jid) : bytes := default [] (jid_fmt ([] : bytes) j).

Definition to_non_ad_string (j : Jid) : bytes := push_jid (j_user j) (j_server j) 0 0 [].

Definition to_ad_string (j : Jid) : bytes :=
  if bool_decide (j_user j = []) then server_as_str (j_server j)
  else j_user j ++ str "." ++ itoa (j_agent j) ++ str ":" ++ itoa (j_device j)
       ++ str "@" ++ server_as_str (j_server j).

(** A writer that has accepted the string [s] so far. *)
Definition stack_holds (w : JidStackWriter) (s : bytes) : Prop :=
  zlen (sw_buf w) = 64 /\ sw_len w = zlen s /\ stack_as_str w = s.

Lemma stack_new_holds : stack_holds stack_new [].
Proof. done. Qed.

Lemma stack_write_holds w s t w' :
  stack_holds w s -> fmt_write_str w t = Some w' -> stack_holds w' (s ++ t).
Proof.
  intros (Hbuf & Hlen & Hs). unfold fmt_write_str, stack_fmt_write.
  destruct (Z.ltb_spec (zlen (sw_buf w)) (sw_len w + zlen t)) as [|Hfit]; [done|].
  intros [= <-]. unfold stack_holds, stack_as_str in *. cbn.
  rewrite Hs. split_and!.
  - autorewrite with zlen. unfold from, zlen in *. rewrite length_drop. lia.
  - autorewrite with zlen. lia.
  - rewrite Hlen, <- zlen_app, app_assoc. apply upto_app.
Qed.

Ltac destruct_binds :=
  repeat match goal with
  | H : _ ≫= _ = Some _ |- _ => apply bind_Some in H as (? & ? & ?)
  | H : (if ?b then _ else _) = Some _ |- _ => destruct b eqn:?
  | H : Some _ = Some _ |- _ => injection H as H; subst
  end.

Lemma write_jid_stack_holds user server agent device w' :
  write_jid_fallible stack_new user server agent device = Some w' ->
  stack_holds w' (push_jid user server agent device []).
Proof.
  intros H. unfold write_jid_fallible in H. unfold push_jid.
  assert (H0 := stack_new_holds). case_bool_decide.
  - by eapply (stack_write_holds stack_new []).
  - destruct_binds;
    repeat match goal with
    | Hh : stack_holds ?a _, Hw : fmt_write_str ?a _ = Some ?b |- _ =>
        apply (stack_write_holds _ _ _ _ Hh) in Hw
    end; simpl in *; rewrite <- ?app_assoc in *; done.
Qed.

Lemma write_jid_string (f : bytes) user server agent device :
  write_jid_fallible f user server agent device
  = Some (push_jid user server agent device f).
Proof.
  unfold write_jid_fallible, push_jid, fmt_write_str, string_fmt_write.
  repeat case_match; simpl; by rewrite <- ?app_assoc.
Qed.

Lemma push_jid_app user server agent device f :
  push_jid user server agent device f = f ++ push_jid user server agent device [].
Proof. unfold push_jid. repeat case_match; simpl; by rewrite <- ?app_assoc. Qed.

Lemma jid_fmt_push (f : bytes) j :
  jid_fmt f j = Some (push_jid (j_user j) (j_server j) (j_agent j) (j_device j) f).
Proof.
  unfold jid_fmt. destruct (write_jid_fallible stack_new _ _ _ _) as [w|] eqn:H.
  - apply write_jid_stack_holds in H as (_ & _ & H).
    rewrite H. unfold fmt_write_str, string_fmt_write. by rewrite <- push_jid_app.
  - apply write_jid_string.
Qed.

(** A writer that accepts every fragment and keeps a relation to the text it
    has received: it receives exactly the text of the JID. *)
Section TotalWriter.
Context `{FmtWrite W} (R : bytes -> W -> Prop).
Context (Hwrite : forall s x w, R s w -> exists w', fmt_write_str w x = Some w' /\ R (s ++ x) w').

Lemma write_jid_total s w user server agent device :
  R s w ->
  exists w', write_jid_fallible w user server agent device = Some w'
    /\ R (s ++ push_jid user server agent device []) w'.
Proof using Hwrite.
  intros Hw. rewrite <- push_jid_app. unfold write_jid_fallible, push_jid.
  repeat case_match;
    repeat match goal with
    | Hr : R ?t ?v |- context [fmt_write_str ?v ?x] =>
        destruct (Hwrite t x v Hr) as (? & -> & ?); clear Hr; cbn [mbind option_bind]
    end; eexists; (split; [done|]); by rewrite ?app_assoc in *.
Qed.

Lemma jid_fmt_total s w j :
  R s w -> exists w', jid_fmt w j = Some w'
    /\ R (s ++ push_jid (j_user j) (j_server j) (j_agent j) (j_device j) []) w'.
Proof using Hwrite.
  intros Hw. unfold jid_fmt.
  destruct (write_jid_fallible stack_new _ _ _ _) as [st|] eqn:E; [|by apply write_jid_total].
  apply write_jid_stack_holds in E as (_ & _ & ->). by apply Hwrite.
Qed.
End TotalWriter.

Lemma jid_to_string_push j :
  jid_to_string j = push_jid (j_user j) (j_server j) (j_agent j) (j_device j) [].
Proof. unfold jid_to_string. by rewrite jid_fmt_push. Qed.

(** ** Parsing *)

Record ParsedJidParts : Type := mkParts {
  p_user : bytes;
  p_server : bytes;
  p_agent : Z;
  p_device : Z;
  p_integrator : Z;
}.

Definition is_none {A} (o : option A) : bool :=
  match o with None => true | Some _ => false end.

(** The single pass over the bytes: the first [@], the last [:] before it, and
    the last [.] before both. *)
Fixpoint scan_separators (i : Z) (l : bytes) (at_pos colon_pos last_dot_pos : option Z)
    : option Z * option Z * option Z :=
  match l with
  | [] => (at_pos, colon_pos, last_dot_pos)
  | b :: l' =>
      if (b =? chr "@") && is_none at_pos
      then scan_separators (i + 1) l' (Some i) colon_pos last_dot_pos
      else if (b =? chr ":") && is_none at_pos
      then scan_separators (i + 1) l' at_pos (Some i) last_dot_pos
      else if (b =? chr ".") && is_none at_pos && is_none colon_pos
      then scan_separators (i + 1) l' at_pos colon_pos (Some i)
      else scan_separators (i + 1) l' at_pos colon_pos last_dot_pos
  end.

(** [&s[a..b]] *)
Definition slice (a b : Z) (s : bytes) : bytes := from a (upto b s).

Definition parse_jid_fast (s : bytes) : option ParsedJidParts :=
  if bool_decide (s = []) then None else
  let '(at_pos, colon_pos, last_dot_pos) := scan_separators 0 s None None None in
  match at_pos with
  | None => None
  | Some at_ =>
      let user_part := upto at_ s in
      let server := from (at_ + 1) s in
      if bool_decide (user_part = []) then None
      else if bytes_eqb server HIDDEN_USER_SERVER then
        let '(user, device) :=
          match colon_pos with
          | Some pos =>
              if pos <? at_
              then (upto pos s, default 0 (parse_u16 (slice (pos + 1) at_ s)))
              else (user_part, 0)
          | None => (user_part, 0)
          end in
        Some (mkParts user server 0 device 0)
      else if bytes_eqb server DEFAULT_USER_SERVER then
        match colon_pos with
        | Some pos =>
            Some (mkParts (upto pos s) server 0
                    (default 0 (parse_u16 (slice (pos + 1) at_ s))) 0)
        | None =>
            match last_dot_pos with
            | Some dot_pos =>
                match parse_u16 (slice (dot_pos + 1) at_ s) with
                | Some device_val => Some (mkParts (upto dot_pos s) server 0 device_val 0)
                | None => Some (mkParts user_part server 0 0 0)
                end
            | None => Some (mkParts user_part server 0 0 0)
            end
        end
      else
        let '(user_before_colon, device) :=
          match colon_pos with
          | Some pos => (upto pos s, default 0 (parse_u16 (slice (pos + 1) at_ s)))
          | None => (user_part, 0)
          end in
        let user_to_check := user_before_colon in
        let '(final_user, agent) :=
          match rfind (chr ".") user_to_check with
          | Some dot_pos =>
              match parse_u16 (from (dot_pos + 1) user_to_check) with
              | Some agent_val =>
                  if agent_val <=? 255 then (upto dot_pos user_to_check, agent_val)
                  else (user_to_check, 0)
              | None => (user_to_check, 0)
              end
          | None => (user_to_check, 0)
          end in
        Some (mkParts final_user server agent device 0)
  end.

(** [d_str.parse()?] into a [u16]. *)
Definition parse_u16_or_err (s : bytes) : outcome JidError Z := ok_or (parse_u16 s) Parse.

(** The fallback parser, tried when [parse_jid_fast] declines. *)
Definition from_str_fallback (s : bytes) : outcome JidError Jid :=
  let '(user_part, server) :=
    match split_once (chr "@") s with Some (u, sv) => (u, sv) | None => ([], s) end in
  if bool_decide (user_part = []) && is_err (server_try_from server)
  then Err (InvalidFormat (str "unknown server '" ++ server ++ str "'"))
  else if bytes_eqb server HIDDEN_USER_SERVER then
    '(user, device) ←
      (match rsplit_once (chr ":") user_part with
       | Some (u, d_str) => d ← parse_u16_or_err d_str; Ok (u, d)
       | None => Ok (user_part, 0)
       end);
    sv ← server_try_from server;
    Ok (mkJid user sv 0 device 0)
  else
    '(user, device) ←
      (match rsplit_once (chr ":") user_part with
       | Some (u, d_str) => d ← parse_u16_or_err d_str; Ok (u, d)
       | None => Ok (user_part, 0)
       end);
    '(user, agent) ←
      (if negb (bytes_eqb server DEFAULT_USER_SERVER)
          && negb (bytes_eqb server HIDDEN_USER_SERVER) then
         match rsplit_once (chr ".") user with
         | Some (u, last_part) =>
             match parse_u16 last_part with
             | Some num_val =>
                 if 255 <? num_val
                 then Err (InvalidFormat (str "Agent component out of range: " ++ itoa num_val))
                 else Ok (u, num_val)
             | None => Ok (user, 0)
             end
         | None => Ok (user, 0)
         end
       else Ok (user, 0));
    sv ← server_try_from server;
    Ok (mkJid user sv agent device 0).

(** [impl FromStr for Jid] *)
Definition jid_from_str (s : bytes) : outcome JidError Jid :=
  match parse_jid_fast s with
  | Some parts =>
      sv ← server_try_from (p_server parts);
      Ok (mkJid (p_user parts) sv (p_agent parts) (p_device parts) (p_integrator parts))
  | None => from_str_fallback s
  end.

Example parse_ex1 :
  jid_from_str (str "1234567890:15@s.whatsapp.net") = Ok (mkJid (str "1234567890") Pn 0 15 0).
Proof. reflexivity. Qed.
Example parse_ex2 :
  jid_from_str (str "12345.6789:25@lid") = Ok (mkJid (str "12345.6789") Lid 0 25 0).
Proof. reflexivity. Qed.
Example parse_ex3 :
  jid_from_str (str "1234567890.2:15@hosted") = Ok (mkJid (str "1234567890") Hosted 2 15 0).
Proof. reflexivity. Qed.
Example parse_ex4 : jid_from_str (str "@s.whatsapp.net") = Ok (mkJid [] Pn 0 0 0).
Proof. reflexivity. Qed.
Example parse_ex5 :
  jid_from_str (str "@unknown.server")
  = Err (InvalidFormat (str "unknown server 'unknown.server'")).
Proof. reflexivity. Qed.
Example fmt_ex1 : jid_to_string (mkJid (str "user") Bot 5 10 0) = str "user.5:10@bot".
Proof. reflexivity. Qed.

(** ** What the scan finds *)

Lemma scan_after_at i l at_ c d :
  scan_separators i l (Some at_) c d = (Some at_, c, d).
Proof.
  revert i. induction l as [|b l IH]; intros i; [done|].
  cbn [scan_separators is_none].
  rewrite !andb_false_r, andb_false_l. apply IH.
Qed.

(** A stretch without [@] and [:] only moves the dot, and only before a colon. *)
Definition dot_after (i : Z) (p : bytes) (c d : option Z) : option Z :=
  match c, rfind (chr ".") p with
  | None, Some k => Some (i + k)
  | _, _ => d
  end.

Lemma scan_plain i p l c d :
  chr "@" ∉ p -> chr ":" ∉ p ->
  scan_separators i (p ++ l) None c d
  = scan_separators (i + zlen p) l None c (dot_after i p c d).
Proof.
  revert i d. induction p as [|b p IH]; intros i d Hat Hcol.
  - rewrite zlen_nil, Z.add_0_r. unfold dot_after. simpl. by destruct c.
  - apply not_elem_of_cons in Hat as [Hat1 Hat], Hcol as [Hc1 Hcol].
    cbn [app scan_separators].
    rewrite (proj2 (Z.eqb_neq b (chr "@"))), (proj2 (Z.eqb_neq b (chr ":"))) by done.
    cbn [andb is_none].
    replace (i + zlen (b :: p)) with (i + 1 + zlen p) by (autorewrite with zlen; lia).
    destruct (Z.eqb_spec b (chr ".")) as [->|Hdot]; cbn [andb].
    + destruct c as [c|]; cbn [is_none]; rewrite IH by done; [done|].
      f_equal. unfold dot_after. cbn [rfind].
      destruct (rfind (chr ".") p) as [k|]; [f_equal; lia|].
      rewrite Z.eqb_refl. f_equal. lia.
    + rewrite IH by done. f_equal. unfold dot_after. cbn [rfind].
      destruct c; [done|]. destruct (rfind (chr ".") p) as [k|]; [f_equal; lia|].
      by rewrite (proj2 (Z.eqb_neq b (chr "."))).
Qed.

Lemma scan_at i l c d :
  scan_separators i (chr "@" :: l) None c d = (Some i, c, d).
Proof. cbn [scan_separators]. rewrite Z.eqb_refl. apply scan_after_at. Qed.

Lemma scan_no_colon p l :
  chr "@" ∉ p -> chr ":" ∉ p ->
  scan_separators 0 (p ++ chr "@" :: l) None None None
  = (Some (zlen p), None, rfind (chr ".") p).
Proof.
  intros Hat Hcol. rewrite scan_plain, scan_at by done. do 2 f_equal.
  unfold dot_after. by destruct (rfind (chr ".") p).
Qed.

Lemma scan_colon u d l :
  chr "@" ∉ u -> chr ":" ∉ u -> chr "@" ∉ d -> chr ":" ∉ d ->
  scan_separators 0 ((u ++ chr ":" :: d) ++ chr "@" :: l) None None None
  = (Some (zlen (u ++ chr ":" :: d)), Some (zlen u), rfind (chr ".") u).
Proof.
  intros Hat Hcol Hat' Hcol'. rewrite <- app_assoc, scan_plain by done.
  cbn [app scan_separators].
  rewrite Z.eqb_refl, (eq_refl : (chr ":" =? chr "@") = false). cbn [andb is_none].
  rewrite scan_plain, scan_at by done. autorewrite with zlen.
  f_equal; [f_equal; f_equal; lia|].
  unfold dot_after. by destruct (rfind (chr ".") u).
Qed.

(** The position of [@] is the first one, whatever else the user part holds. *)
Lemma scan_at_pos i s c d :
  (scan_separators i s None c d).1.1 = Z.add i <$> find (chr "@") s.
Proof.
  revert i c d. induction s as [|b s IH]; intros i c d; [done|].
  cbn [scan_separators find]. destruct (Z.eqb_spec b (chr "@")) as [->|Hne].
  - cbn [andb is_none]. rewrite scan_after_at. simpl. f_equal. lia.
  - cbn [andb].
    assert (Hsh : forall c d, (scan_separators (i + 1) s None c d).1.1
                  = Z.add i <$> (Z.succ <$> find (chr "@") s)).
    { intros c' d'. rewrite IH. destruct (find (chr "@") s); simpl; f_equal; lia. }
    repeat case_match; apply Hsh.
Qed.

Lemma scan_at_pos_0 s c d : (scan_separators 0 s None c d).1.1 = find (chr "@") s.
Proof. rewrite scan_at_pos. by destruct (find (chr "@") s). Qed.

(** ** The parser on separated strings

    [split_agent] is the tail of [parse_jid_fast]: it takes an agent off the
    end of the user part when the part after the last dot is a small number. *)

Definition split_agent (u : bytes) : bytes * Z :=
  match rfind (chr ".") u with
  | Some dot_pos =>
      match parse_u16 (from (dot_pos + 1) u) with
      | Some agent_val => if agent_val <=? 255 then (upto dot_pos u, agent_val) else (u, 0)
      | None => (u, 0)
      end
  | None => (u, 0)
  end.

(** The same for the legacy [user.device] form of phone-number JIDs. *)
Definition split_legacy (u : bytes) : bytes * Z :=
  match rfind (chr ".") u with
  | Some dot_pos =>
      match parse_u16 (from (dot_pos + 1) u) with
      | Some device_val => (upto dot_pos u, device_val)
      | None => (u, 0)
      end
  | None => (u, 0)
  end.

Lemma parse_fast_colon u d srv :
  chr "@" ∉ u -> chr ":" ∉ u -> chr "@" ∉ d -> chr ":" ∉ d ->
  parse_jid_fast ((u ++ chr ":" :: d) ++ chr "@" :: srv)
  = let dev := default 0 (parse_u16 d) in
    Some (if bytes_eqb srv HIDDEN_USER_SERVER || bytes_eqb srv DEFAULT_USER_SERVER
          then mkParts u srv 0 dev 0
          else let '(fu, ag) := split_agent u in mkParts fu srv ag dev 0).
Proof.
  intros Hat Hcol Hat' Hcol'. unfold parse_jid_fast.
  rewrite scan_colon by done. rewrite bool_decide_eq_false_2 by (by destruct u).
  unfold slice. rewrite upto_split, from_split, from_split.
  rewrite bool_decide_eq_false_2 by (by destruct u).
  replace (upto (zlen u) ((u ++ chr ":" :: d) ++ chr "@" :: srv)) with u
    by (rewrite <- app_assoc; symmetry; apply (upto_app u)).
  replace (zlen u <? zlen (u ++ chr ":" :: d)) with true
    by (symmetry; apply Z.ltb_lt; autorewrite with zlen; pose proof (zlen_nonneg d); lia).
  destruct (bytes_eqb srv HIDDEN_USER_SERVER); [done|].
  destruct (bytes_eqb srv DEFAULT_USER_SERVER); [done|].
  cbn [orb]. unfold split_agent. by repeat case_match.
Qed.

Lemma parse_fast_no_colon u srv :
  chr "@" ∉ u -> chr ":" ∉ u -> u <> [] ->
  parse_jid_fast (u ++ chr "@" :: srv)
  = Some (if bytes_eqb srv HIDDEN_USER_SERVER then mkParts u srv 0 0 0
          else if bytes_eqb srv DEFAULT_USER_SERVER
          then let '(fu, dev) := split_legacy u in mkParts fu srv 0 dev 0
          else let '(fu, ag) := split_agent u in mkParts fu srv ag 0 0).
Proof.
  intros Hat Hcol Hne. unfold parse_jid_fast.
  rewrite scan_no_colon by done. rewrite bool_decide_eq_false_2 by (by destruct u).
  unfold slice. rewrite upto_split, from_split.
  rewrite bool_decide_eq_false_2 by done.
  destruct (bytes_eqb srv HIDDEN_USER_SERVER); [done|].
  destruct (bytes_eqb srv DEFAULT_USER_SERVER).
  - unfold split_legacy. destruct (rfind (chr ".") u) as [k|] eqn:Hk; [|done].
    apply rfind_Some in Hk as (a & b & -> & <- & _).
    rewrite upto_split. rewrite <- app_assoc. cbn [app].
    rewrite (upto_app a (chr "." :: b ++ chr "@" :: srv)).
    by repeat case_match.
  - unfold split_agent. by repeat case_match.
Qed.

(** ** Formatting then parsing

    A JID is canonical when its text determines it: a user part without
    separators, the agent only where it is printed, and no trailing
    [.number] of the user that the parser would read as an agent or as a
    legacy device. *)

Definition dot_number (max : Z) (u : bytes) : bool :=
  match rsplit_once (chr ".") u with
  | Some (_, d) => match parse_u16 d with Some n => n <=? max | None => false end
  | None => false
  end.

Definition display_canonical (j : Jid) : bool :=
  negb (bool_decide (j_user j = []))
  && bool_decide (chr "@" ∉ j_user j) && bool_decide (chr ":" ∉ j_user j)
  && (0 <=? j_agent j) && (j_agent j <=? 255)
  && (0 <=? j_device j) && (j_device j <=? 65535) && (j_integrator j =? 0)
  && match j_server j with
     | Lid => j_agent j =? 0
     | Pn => (j_agent j =? 0) && ((0 <? j_device j) || negb (dot_number 65535 (j_user j)))
     | Hosted | HostedLid => (j_agent j =? 0) && negb (dot_number 255 (j_user j))
     | _ => (0 <? j_agent j) || negb (dot_number 255 (j_user j))
     end.

Lemma split_agent_none u : dot_number 255 u = false -> split_agent u = (u, 0).
Proof.
  unfold dot_number, rsplit_once, split_agent.
  destruct (rfind (chr ".") u) as [k|]; [|done]. simpl.
  destruct (parse_u16 _) as [n|]; [|done]. by intros ->.
Qed.

Lemma parse_u16_le s n : parse_u16 s = Some n -> n <= 65535.
Proof.
  assert (Hd : forall t acc, acc <= 65535 -> parse_digits 65535 acc t = Some n -> n <= 65535).
  { induction t as [|b t IH]; intros acc Hacc; cbn [parse_digits]; [intros [= <-]; done|].
    destruct (is_ascii_digit b); [|done]. case_match eqn:Hle; [|done].
    apply IH. lia. }
  unfold parse_uint. destruct s as [|b s]; [done|].
  case_match; [destruct s; [done|]|]; apply Hd; lia.
Qed.

Lemma split_legacy_none u : dot_number 65535 u = false -> split_legacy u = (u, 0).
Proof.
  unfold dot_number, rsplit_once, split_legacy.
  destruct (rfind (chr ".") u) as [k|]; [|done]. simpl.
  destruct (parse_u16 _) as [n|] eqn:Hn; [|done].
  apply parse_u16_le in Hn. lia.
Qed.

Lemma split_agent_dot u ag :
  0 <= ag <= 255 -> split_agent (u ++ chr "." :: itoa ag) = (u, ag).
Proof.
  intros Hag. unfold split_agent.
  rewrite rfind_app by (apply itoa_not_elem; [lia|done]).
  rewrite from_split, upto_split, parse_uint_itoa by lia.
  destruct (Z.leb_spec ag 255); [done|lia].
Qed.

(** The user part as it is printed. *)
Definition printed_user (user : bytes) (server : Server) (agent : Z) : bytes :=
  if (0 <? agent) && renders_agent server then user ++ chr "." :: itoa agent else user.

Lemma push_jid_shape user server agent device :
  user <> [] ->
  push_jid user server agent device []
  = (if 0 <? device
     then printed_user user server agent ++ chr ":" :: itoa device
     else printed_user user server agent)
    ++ chr "@" :: server_as_str server.
Proof.
  intros Hne. unfold push_jid, printed_user.
  rewrite bool_decide_eq_false_2 by done.
  repeat case_match; simpl; by rewrite <- ?app_assoc.
Qed.

Lemma printed_user_no_sep user server agent c :
  c ∉ user -> 0 <= agent <= 255 -> is_ascii_digit c = false -> c <> chr "." ->
  c ∉ printed_user user server agent.
Proof.
  intros Hu Ha Hd Hc. unfold printed_user. case_match; [|done].
  rewrite not_elem_of_app, not_elem_of_cons. split_and!; [done..|].
  apply itoa_not_elem; [lia|done].
Qed.

Lemma printed_user_nonnil user server agent :
  user <> [] -> printed_user user server agent <> [].
Proof. intros Hne. unfold printed_user. case_match; [|done]. by destruct user. Qed.

(** The agent is recovered from the printed user on a server that is neither
    the phone-number nor the LID one. *)
Lemma split_agent_printed user server agent :
  0 <= agent <= 255 ->
  (renders_agent server = true /\ 0 < agent)
  \/ (agent = 0 /\ dot_number 255 user = false) ->
  split_agent (printed_user user server agent) = (user, agent).
Proof.
  intros Ha [[Hr Hpos]|[-> Hdot]]; unfold printed_user.
  - rewrite (proj2 (Z.ltb_lt 0 agent) Hpos), Hr. by apply split_agent_dot.
  - by apply split_agent_none.
Qed.

Lemma eqb_server_as_str_lid s :
  bytes_eqb (server_as_str s) HIDDEN_USER_SERVER = server_eqb s Lid.
Proof. by destruct s. Qed.
Lemma eqb_server_as_str_pn s :
  bytes_eqb (server_as_str s) DEFAULT_USER_SERVER = server_eqb s Pn.
Proof. by destruct s. Qed.

(** Splits a hypothesis that is a conjunction of boolean tests. *)
Ltac split_bools :=
  repeat match goal with
  | H : (_ && _) = true |- _ => apply andb_prop in H as [? ?]
  | H : negb _ = true |- _ => apply negb_true_iff in H
  | H : bool_decide _ = true |- _ => apply bool_decide_eq_true in H
  | H : bool_decide _ = false |- _ => apply bool_decide_eq_false in H
  end.

(** The server's part of [display_canonical]. *)
Definition server_canonical (j : Jid) : Prop :=
  (j_server j = Lid /\ j_agent j = 0)
  \/ (j_server j = Pn /\ j_agent j = 0
      /\ (0 < j_device j \/ dot_number 65535 (j_user j) = false))
  \/ (j_server j <> Lid /\ j_server j <> Pn
      /\ ((renders_agent (j_server j) = true /\ 0 < j_agent j)
          \/ (j_agent j = 0 /\ dot_number 255 (j_user j) = false))).

Lemma display_canonical_inv j :
  display_canonical j = true ->
  j_user j <> [] /\ (chr "@" ∉ j_user j) /\ (chr ":" ∉ j_user j)
  /\ 0 <= j_agent j <= 255 /\ 0 <= j_device j <= 65535 /\ j_integrator j = 0
  /\ server_canonical j.
Proof.
  unfold display_canonical. intros H. apply andb_prop in H as [H Hsrv]. split_bools.
  split_and!; try done; try lia. unfold server_canonical.
  destruct (j_server j); cbn [renders_agent];
    rewrite ?andb_true_iff, ?orb_true_iff, ?negb_true_iff in Hsrv;
    repeat match goal with H : _ /\ _ |- _ => destruct H end;
    first [ left; split; [done|lia]
          | right; left; split_and!; [done|lia|]; intuition lia
          | right; right; split_and!; [done..|];
            destruct (Z.ltb_spec 0 (j_agent j)); intuition lia ].
Qed.

Lemma parse_printed j :
  display_canonical j = true ->
  parse_jid_fast (jid_to_string j)
  = Some (mkParts (j_user j) (server_as_str (j_server j)) (j_agent j) (j_device j) 0).
Proof.
  intros H. apply display_canonical_inv in H as (Hne & Hat & Hcol & Ha & Hd & _ & Hs).
  rewrite jid_to_string_push, push_jid_shape by done.
  set (v := printed_user (j_user j) (j_server j) (j_agent j)).
  assert ((chr "@" ∉ v) /\ (chr ":" ∉ v)) as [? ?]
    by (split; apply printed_user_no_sep; (done || lia)).
  assert (v <> []) by (by apply printed_user_nonnil).
  assert (Hv0 : j_agent j = 0 -> v = j_user j)
    by (intros E; subst v; unfold printed_user; by rewrite E).
  destruct (Z.ltb_spec 0 (j_device j)) as [Hdev|Hdev].
  - rewrite parse_fast_colon by (done || (apply itoa_not_elem; [lia|done])).
    rewrite parse_uint_itoa, eqb_server_as_str_lid, eqb_server_as_str_pn by lia.
    destruct Hs as [[E E0]|[(E & E0 & _)|(E1 & E2 & Hcase)]].
    + rewrite E, E0, Hv0 by done. done.
    + rewrite E, E0, Hv0 by done. done.
    + unfold server_eqb. rewrite !bool_decide_eq_false_2 by done. cbn [orb].
      subst v. by rewrite split_agent_printed.
  - assert (E3 : j_device j = 0) by lia. rewrite E3.
    rewrite parse_fast_no_colon, eqb_server_as_str_lid, eqb_server_as_str_pn by done.
    destruct Hs as [[E E0]|[(E & E0 & Hleg)|(E1 & E2 & Hcase)]].
    + rewrite E, E0, Hv0 by done. done.
    + rewrite E, E0, Hv0 by done. cbn. rewrite split_legacy_none by (destruct Hleg; [lia|done]).
      done.
    + unfold server_eqb. rewrite !bool_decide_eq_false_2 by done.
      subst v. by rewrite split_agent_printed.
Qed.

(** ** Traces without phone numbers

    [ObservedJid] prints a keyed token of the phone number instead of the
    number.  The keyed hash ([RandomState::hash_one]) is a parameter. *)

Fixpoint hex_digits (n : nat) (z : Z) : bytes :=
  match n with
  | O => []
  | S n' =>
      let d := (Z.shiftr z (4 * Z.of_nat n')) mod 16 in
      (if d <? 10 then 48 + d else 87 + d) :: hex_digits n' z
  end.
(** [{:016x}] of a [u64] *)
Definition hex16 (z : Z) : bytes := hex_digits 16 z.

Section Observe.
Context (observe_token : bytes -> Z).

(** The privacy-safe rendering of the user part, [None] when the user is
    printed in full. *)
Definition redacted_user (j : Jid) : option bytes :=
  if carries_phone_number (j_server j)
  then Some (str "pn#" ++ hex16 (observe_token (j_user j)))
  else
    match j_server j with
    | Group | Broadcast =>
        match find (chr "-") (j_user j) with
        | Some i =>
            if (0 <? i) && forallb is_ascii_digit (upto i (j_user j))
            then Some (str "pn#" ++ hex16 (observe_token (upto i (j_user j)))
                       ++ from i (j_user j))
            else None
        | None => None
        end
    | _ => None
    end.

Definition observe (j : Jid) : bytes :=
  if bool_decide (j_user j = []) then jid_to_string j
  else
    match redacted_user j with
    | None => jid_to_string j
    | Some user =>
        user
        ++ (if (0 <? j_agent j) && renders_agent (j_server j)
            then str "." ++ itoa (j_agent j) else [])
        ++ (if 0 <? j_device j then str ":" ++ itoa (j_device j) else [])
        ++ str "@" ++ server_as_str (j_server j)
    end.

(** [observe_str]: a string that is not a JID is replaced by its token. *)
Definition observe_str (s : bytes) : bytes :=
  match jid_from_str s with
  | Ok j => observe j
  | _ => str "?#" ++ hex16 (observe_token s)
  end.
End Observe.

(** ** Properties of JIDs *)

Lemma from_str_to_string j :
  display_canonical j = true -> jid_from_str (jid_to_string j) = Ok j.
Proof.
  intros H. unfold jid_from_str. rewrite (parse_printed j H). simpl.
  rewrite server_try_from_as_str. simpl.
  apply display_canonical_inv in H as (_ & _ & _ & _ & _ & Hi & _).
  rewrite <- Hi. by destruct j.
Qed.

(** C34: formatting and parsing are inverse on canonical JIDs: [to_string] then
    [parse] gives the same JID back, on every server. *)
Theorem jid_display_parse (j : Jid) :
  display_canonical j = true -> jid_from_str (jid_to_string j) = Ok j.
Proof. apply from_str_to_string. Qed.

Lemma jid_display_parse_witness :
  jid_from_str (jid_to_string (mkJid (str "13136555001") Bot 5 10 0))
  = Ok (mkJid (str "13136555001") Bot 5 10 0).
Proof. apply jid_display_parse. vm_compute. reflexivity. Defined.

(** When the fast parser declines, there is no user part. *)
Lemma parse_fast_None s :
  parse_jid_fast s = None -> (chr "@" ∉ s) \/ exists srv, s = chr "@" :: srv.
Proof.
  unfold parse_jid_fast. case_bool_decide as Hs; [subst; left; apply not_elem_of_nil|].
  pose proof (scan_at_pos_0 s None None) as Hat.
  destruct (scan_separators 0 s None None None) as [[at_ c] d]. simpl in Hat. subst at_.
  destruct (find (chr "@") s) as [i|] eqn:Hf; [|intros _; left; by apply find_None].
  apply find_Some in Hf as (u & srv & -> & <- & Hu). rewrite upto_split.
  case_bool_decide as Hu0; [intros _; right; subst; by exists srv|].
  by repeat case_match.
Qed.

(** The fallback without a user part: the server alone decides. *)
Lemma fallback_server_only s srv :
  ((chr "@" ∉ s) /\ srv = s) \/ s = chr "@" :: srv ->
  from_str_fallback s
  = match server_try_from srv with
    | Ok sv => Ok (mkJid [] sv 0 0 0)
    | _ => Err (InvalidFormat (str "unknown server '" ++ srv ++ str "'"))
    end.
Proof.
  intros H. unfold from_str_fallback.
  assert (Hsp : match split_once (chr "@") s with Some (u, sv) => (u, sv) | None => ([], s) end
                = ([], srv)).
  { unfold split_once. destruct H as [[H ->]| ->].
    - apply find_None in H. by rewrite H.
    - cbn [find]. by rewrite Z.eqb_refl. }
  rewrite Hsp. destruct (server_try_from_cases srv) as [(sv & Hsv & ->)|Hsv]; rewrite Hsv;
    [|done].
  by destruct sv.
Qed.

(** Parsing fails only because of the server: every other defect of the text
    (a device that is not a number, an agent out of range) is accepted with a
    default. In particular the [JidError::Parse] and "Agent component out of
    range" errors of the fallback are never returned. *)
Lemma jid_from_str_errors (s : bytes) (e : JidError) :
  jid_from_str s = Err e ->
  exists srv, is_err (server_try_from srv) = true
    /\ (e = InvalidFormat (str "unknown server: " ++ srv)
        \/ e = InvalidFormat (str "unknown server '" ++ srv ++ str "'")).
Proof.
  unfold jid_from_str. destruct (parse_jid_fast s) as [parts|] eqn:Hp.
  - destruct (server_try_from_cases (p_server parts)) as [(sv & -> & _)|Hsv]; [done|].
    rewrite Hsv. intros [= <-]. exists (p_server parts). rewrite Hsv. auto.
  - assert (exists srv, ((chr "@" ∉ s) /\ srv = s) \/ s = chr "@" :: srv) as [srv Hs].
    { apply parse_fast_None in Hp as [?|[srv ?]]; eauto. }
    rewrite (fallback_server_only _ _ Hs).
    destruct (server_try_from_cases srv) as [(sv & -> & _)|Hsv]; [done|].
    rewrite Hsv. intros [= <-]. exists srv. rewrite Hsv. auto.
Qed.

Lemma jid_from_str_errors_witness :
  exists srv, is_err (server_try_from srv) = true
    /\ (InvalidFormat (str "unknown server: example.com")
          = InvalidFormat (str "unknown server: " ++ srv)
        \/ InvalidFormat (str "unknown server: example.com")
          = InvalidFormat (str "unknown server '" ++ srv ++ str "'")).
Proof.
  apply (jid_from_str_errors (str "joe:x@example.com")). vm_compute. reflexivity.
Defined.

(** A device that is not a [u16] is read as device 0, on every known server
    (the strict parser would have rejected it). *)
Theorem jid_from_str_bad_device (u d : bytes) (srv : Server) :
  chr "@" ∉ u -> chr ":" ∉ u -> chr "@" ∉ d -> chr ":" ∉ d ->
  parse_u16 d = None ->
  exists user agent,
    jid_from_str (u ++ str ":" ++ d ++ str "@" ++ server_as_str srv)
    = Ok (mkJid user srv agent 0 0).
Proof.
  intros Hu1 Hu2 Hd1 Hd2 Hd. unfold jid_from_str.
  replace (u ++ str ":" ++ d ++ str "@" ++ server_as_str srv)
    with ((u ++ chr ":" :: d) ++ chr "@" :: server_as_str srv)
    by (by rewrite <- app_assoc).
  rewrite parse_fast_colon, Hd by done. cbn [default].
  destruct (split_agent u) as [fu ag].
  case_match; cbn [p_server p_user p_agent p_device p_integrator];
    rewrite server_try_from_as_str; eauto.
Qed.

(** The part of a JID that identifies the chat: no device, and the agent only
    where it is printed. *)
Definition chat_key (j : Jid) : Jid :=
  mkJid (j_user j) (j_server j) (if renders_agent (j_server j) then j_agent j else 0) 0
    (j_integrator j).

Lemma chat_key_to_string j : jid_to_string (with_device j 0) = jid_to_string (chat_key j).
Proof.
  rewrite !jid_to_string_push. unfold push_jid. cbn.
  destruct (renders_agent (j_server j)); [done|]. by rewrite !andb_false_r.
Qed.

Lemma is_same_chat_as_key a b : is_same_chat_as a b = true <-> chat_key a = chat_key b.
Proof.
  unfold is_same_chat_as, chat_key, server_eqb. rewrite !andb_true_iff, orb_true_iff.
  rewrite bytes_eqb_eq, bool_decide_eq_true, negb_true_iff, !Z.eqb_eq.
  destruct a as [ua sa aa da ia], b as [ub sb ab db ib]; cbn. split.
  - intros (((-> & ->) & ->) & [->| ->]); done.
  - intros [= -> -> Ha ->]. destruct (renders_agent sb); naive_solver.
Qed.

(** Two JIDs are the same chat exactly when they print the same text once
    the device is dropped, also when a decoded agent byte that is not printed
    differs. *)
Lemma is_same_chat_as_printed (a b : Jid) :
  display_canonical (chat_key a) = true -> display_canonical (chat_key b) = true ->
  is_same_chat_as a b = true
  <-> jid_to_string (with_device a 0) = jid_to_string (with_device b 0).
Proof.
  intros Ha Hb. rewrite is_same_chat_as_key, !chat_key_to_string. split; [by intros ->|].
  intros Heq. apply from_str_to_string in Ha, Hb. congruence.
Qed.

Lemma is_same_chat_as_printed_witness :
  is_same_chat_as (mkJid (str "5511") Pn 1 33 0) (mkJid (str "5511") Pn 0 0 0) = true
  <-> jid_to_string (with_device (mkJid (str "5511") Pn 1 33 0) 0)
      = jid_to_string (with_device (mkJid (str "5511") Pn 0 0 0) 0).
Proof. apply is_same_chat_as_printed; vm_compute; reflexivity. Defined.

(** The [Display] implementation, which fills a 64-byte stack buffer and
    falls back to fragment writes when the text does not fit, prints exactly
    what the infallible formatter [push_jid_to_string] pushes. *)
Lemma jid_fmt_equiv (f : bytes) (j : Jid) :
  jid_fmt f j = Some (f ++ push_jid (j_user j) (j_server j) (j_agent j) (j_device j) []).
Proof. by rewrite jid_fmt_push, push_jid_app. Qed.

(** A trace reveals nothing of a phone number but its keyed token: two JIDs
    on a server that carries phone numbers, with users that have the same token
    and the same other fields, are printed alike. *)
Lemma observe_noninterference (observe_token : bytes -> Z) (a b : Jid) :
  carries_phone_number (j_server a) = true ->
  j_user a <> [] -> j_user b <> [] ->
  j_server a = j_server b -> j_agent a = j_agent b -> j_device a = j_device b ->
  observe_token (j_user a) = observe_token (j_user b) ->
  observe observe_token a = observe observe_token b.
Proof.
  intros Hc Ha Hb Hs Hg Hd Ht. unfold observe, redacted_user.
  rewrite !bool_decide_eq_false_2, <- Hs, Hc, Ht, Hg, Hd by done. done.
Qed.

Lemma observe_noninterference_witness :
  observe (fun _ => 7) (mkJid (str "5511999998888") Pn 0 7 0)
  = observe (fun _ => 7) (mkJid (str "15551234567") Pn 0 7 0).
Proof. apply observe_noninterference; done. Defined.
