(* ===== verification/Token.v ===== *)
(** * Tokens

    The token layer of the binary protocol: the tag constants and lookups of
    [wacore/binary/src/token.rs], and the table generator
    [wacore/binary/build.rs].  The generated file is the parameter
    [TokenMaps]: its tables are the dictionaries handed to the generator, and
    its lookup function (the third-party macro [hashify::tiny_map!]) maps
    exactly the keys of the generated entries.  [wa_token_maps] instantiates
    it with [tokens.json]. *)

From stdpp Require Import prelude strings.
From S2P Require Import Prelude TokenData.

#[local] Open Scope Z_scope.

Definition DICT_VERSION : Z := 3.

Definition LIST_EMPTY : Z := 0.
Definition DICTIONARY_0 : Z := 236.
Definition DICTIONARY_3 : Z := 239.
Definition INTEROP_JID : Z := 245.
Definition FB_JID : Z := 246.
Definition AD_JID : Z := 247.
Definition LIST_8 : Z := 248.
Definition LIST_16 : Z := 249.
Definition JID_PAIR : Z := 250.
Definition HEX_8 : Z := 251.
Definition BINARY_8 : Z := 252.
Definition BINARY_20 : Z := 253.
Definition BINARY_32 : Z := 254.
Definition NIBBLE_8 : Z := 255.

Definition PACKED_MAX : Z := 127.

Inductive TokenKind : Type :=
  | Single (index : Z)
  | Double (dict index : Z).

#[global] Instance TokenKind_eq_dec : EqDecision TokenKind.
Proof. solve_decision. Defined.

(** ** The generator ([build.rs]) *)

Record Tokens : Type := mkTokens {
  single_byte : list bytes;
  double_byte : list (list bytes);
}.

(** The entries emitted so far, each with its token kind; the keys are also
    the [seen] map of the generator. *)
Abbreviation token_entries := (list (bytes * TokenKind)) (only parsing).

Fixpoint assoc (key : bytes) (l : token_entries) : option TokenKind :=
  match l with
  | [] => None
  | (k, v) :: l' => if bytes_eqb k key then Some v else assoc key l'
  end.

(** One loop of the generator over a dictionary: empty tokens are skipped, a
    token already seen is a panic. *)
Fixpoint build_dict (kind : Z -> TokenKind) (i : Z) (dict : list bytes)
    (values : token_entries) : outcome unit token_entries :=
  match dict with
  | [] => Ok values
  | token :: dict' =>
      if bool_decide (token = []) then build_dict kind (i + 1) dict' values
      else
        match assoc token values with
        | Some _ => Panic
        | None => build_dict kind (i + 1) dict' (values ++ [(token, kind i)])
        end
  end.

Fixpoint build_dicts (d : Z) (dicts : list (list bytes)) (values : token_entries)
    : outcome unit token_entries :=
  match dicts with
  | [] => Ok values
  | dict :: dicts' =>
      values ← build_dict (Double d) 0 dict values;
      build_dicts (d + 1) dicts' values
  end.

Definition build_values (t : Tokens) : outcome unit token_entries :=
  values ← build_dict Single 0 (single_byte t) [];
  build_dicts 0 (double_byte t) values.

(** ** The generated maps and the lookups *)

Class TokenMaps : Type := {
  token_tables : Tokens;
  token_values : token_entries;
  token_build : build_values token_tables = Ok token_values;
  hashify_lookup : bytes -> option TokenKind;
  hashify_spec : forall key, hashify_lookup key = assoc key token_values;
  single_byte_zero : head (single_byte token_tables) = Some [];
  single_byte_small : zlen (single_byte token_tables) <= DICTIONARY_0;
  double_byte_small : zlen (double_byte token_tables) <= 4;
  double_byte_dict_small : Forall (fun d => zlen d <= 256) (double_byte token_tables);
}.

(** [slice.get(i)] *)
Definition get {A} (l : list A) (i : Z) : option A :=
  if i <? 0 then None else l !! Z.to_nat i.

Section Lookups.
Context `{TokenMaps}.

Definition index_of_token (token : bytes) : option TokenKind := hashify_lookup token.

Definition get_single_token (index : Z) : option bytes :=
  get (single_byte token_tables) index.

Definition get_double_token (dict index : Z) : option bytes :=
  d ← get (double_byte token_tables) dict; get d index.
End Lookups.

(** ** The generated entries describe the tables *)

(** What an entry means. *)
Definition entry_ok (t : Tokens) (key : bytes) (k : TokenKind) : Prop :=
  key <> [] /\
  match k with
  | Single i => get (single_byte t) i = Some key
  | Double d i => exists dict, get (double_byte t) d = Some dict /\ get dict i = Some key
  end.

Lemma get_Some_range {A} (l : list A) i x : get l i = Some x -> 0 <= i < zlen l.
Proof.
  unfold get, zlen. case_match; [done|]. intros Hl.
  apply lookup_lt_Some in Hl. lia.
Qed.

Lemma get_cons_0 {A} (x : A) l : get (x :: l) 0 = Some x.
Proof. done. Qed.

Lemma get_app_r {A} (l1 l2 : list A) i :
  0 <= i -> get (l1 ++ l2) (zlen l1 + i) = get l2 i.
Proof.
  intros Hi. unfold get, zlen. rewrite (proj2 (Z.ltb_ge _ 0)), (proj2 (Z.ltb_ge i 0)) by lia.
  rewrite lookup_app_r by lia. f_equal. lia.
Qed.

Lemma assoc_Some key l k : assoc key l = Some k -> (key, k) ∈ l.
Proof.
  induction l as [|[k' v] l IH]; cbn [assoc]; [done|].
  destruct (bytes_eqb k' key) eqn:E.
  - apply bytes_eqb_eq in E as ->. intros [= ->]. apply list_elem_of_here.
  - intros. apply list_elem_of_further. auto.
Qed.

(** A dictionary loop keeps every entry it had, and adds one for each non-empty
    token of the dictionary, at its index. *)
Lemma build_dict_spec kind i dict values out :
  build_dict kind i dict values = Ok out ->
  forall key k, (key, k) ∈ out <->
    ((key, k) ∈ values)
    \/ (key <> [] /\ exists j, 0 <= j /\ k = kind (i + j) /\ get dict j = Some key).
Proof.
  revert i values. induction dict as [|t dict IH]; intros i values; cbn [build_dict].
  - intros [= <-] key k. split; [auto|]. intros [?|(_ & j & _ & _ & Hj)]; [done|].
    unfold get in Hj. by case_match.
  - intros H key k.
    assert (Hsh : forall j, 0 <= j -> get (t :: dict) (j + 1) = get dict j).
    { intros j Hj. rewrite <- (get_app_r [t] dict j Hj).
      f_equal. autorewrite with zlen. lia. }
    case_bool_decide as Ht.
    + rewrite (IH _ _ H). apply or_iff_compat_l. split.
      * intros (Hk & j & Hj & -> & Hg). split; [done|]. exists (j + 1).
        rewrite Hsh by lia. split_and!; [lia|f_equal; lia|done].
      * intros (Hk & j & Hj & -> & Hg). split; [done|].
        destruct (Z.eq_dec j 0) as [->|Hne]; [rewrite get_cons_0 in Hg; congruence|].
        exists (j - 1). rewrite <- (Hsh (j - 1)) by lia.
        replace (j - 1 + 1) with j by lia. split_and!; [lia|f_equal; lia|done].
    + destruct (assoc t values); [done|].
      rewrite (IH _ _ H), elem_of_app, list_elem_of_singleton. split.
      * intros [[?|[= -> ->]]|(Hk & j & Hj & -> & Hg)]; [by left| |]; right; split; try done.
        -- exists 0. split_and!; [lia|f_equal; lia|done].
        -- exists (j + 1). rewrite Hsh by lia. split_and!; [lia|f_equal; lia|done].
      * intros [?|(Hk & j & Hj & -> & Hg)]; [by left; left|].
        destruct (Z.eq_dec j 0) as [->|Hne].
        -- rewrite get_cons_0 in Hg. injection Hg as ->. left; right. f_equal. f_equal. lia.
        -- right. split; [done|]. exists (j - 1). rewrite <- (Hsh (j - 1)) by lia.
           replace (j - 1 + 1) with j by lia. split_and!; [lia|f_equal; lia|done].
Qed.

Lemma build_dicts_spec d dicts values out :
  build_dicts d dicts values = Ok out ->
  forall key k, (key, k) ∈ out <->
    ((key, k) ∈ values)
    \/ (key <> [] /\ exists e j dict, 0 <= e /\ k = Double (d + e) j
        /\ get dicts e = Some dict /\ get dict j = Some key).
Proof.
  revert d values. induction dicts as [|dict dicts IH]; intros d values; cbn [build_dicts].
  - intros [= <-] key k. split; [auto|]. intros [?|(_ & e & j & dict & _ & _ & He & _)]; [done|].
    unfold get in He. by case_match.
  - intros H key k. inv_ok.
    match goal with
    | H1 : build_dict _ _ _ _ = _, H2 : build_dicts _ _ _ = _ |- _ =>
        rewrite (IH _ _ H2), (build_dict_spec _ _ _ _ _ H1)
    end.
    assert (Hsh : forall e, 0 <= e -> get (dict :: dicts) (e + 1) = get dicts e).
    { intros e He. rewrite <- (get_app_r [dict] dicts e He). f_equal.
      autorewrite with zlen. lia. }
    split.
    + intros [[?|(Hk & j & Hj & -> & Hg)]|(Hk & e & j & dct & He & -> & Hd & Hg)].
      * by left.
      * right. split; [done|]. exists 0, j, dict.
        split_and!; [lia|f_equal; lia|done|done].
      * right. split; [done|]. exists (e + 1), j, dct. rewrite Hsh by lia.
        split_and!; [lia|f_equal; lia|done|done].
    + intros [?|(Hk & e & j & dct & He & -> & Hd & Hg)]; [by left; left|].
      destruct (Z.eq_dec e 0) as [->|Hne].
      * rewrite get_cons_0 in Hd. injection Hd as <-. left; right. split; [done|].
        exists j. pose proof (get_Some_range _ _ _ Hg). split_and!; [lia|f_equal; lia|done].
      * right. split; [done|]. exists (e - 1), j, dct. rewrite <- (Hsh (e - 1)) by lia.
        replace (e - 1 + 1) with e by lia. split_and!; [lia|f_equal; lia|done|done].
Qed.

Lemma build_values_spec t values :
  build_values t = Ok values ->
  forall key k, (key, k) ∈ values <-> entry_ok t key k.
Proof.
  unfold build_values. intros H key k. inv_ok.
  match goal with
  | H1 : build_dict _ _ _ _ = _, H2 : build_dicts _ _ _ = _ |- _ =>
      rewrite (build_dicts_spec _ _ _ _ H2), (build_dict_spec _ _ _ _ _ H1)
  end.
  unfold entry_ok. split.
  - intros [[Hn|(Hk & j & Hj & -> & Hg)]|(Hk & e & j & dict & He & -> & Hd & Hg)].
    + by apply not_elem_of_nil in Hn.
    + done.
    + split; [done|]. by exists dict.
  - intros [Hk He]. destruct k as [i|d i].
    + left; right. split; [done|]. exists i.
      pose proof (get_Some_range _ _ _ He). split_and!; [lia|f_equal; lia|done].
    + destruct He as (dict & Hd & Hg). right. split; [done|]. exists d, i, dict.
      pose proof (get_Some_range _ _ _ Hd). split_and!; [lia|done|done|done].
Qed.

Lemma assoc_None key l : assoc key l = None <-> key ∉ l.*1.
Proof.
  induction l as [|[k v] l IH]; cbn [assoc fmap list_fmap fst].
  - split; [intros _; apply not_elem_of_nil|done].
  - rewrite not_elem_of_cons, <- IH. destruct (bytes_eqb k key) eqn:E.
    + apply bytes_eqb_eq in E. naive_solver.
    + apply bytes_eqb_neq in E. naive_solver.
Qed.

Lemma assoc_elem key k l : NoDup l.*1 -> (key, k) ∈ l -> assoc key l = Some k.
Proof.
  induction l as [|[k' v] l IH]; cbn [assoc fmap list_fmap fst];
    [intros _ Hn; by apply not_elem_of_nil in Hn|].
  intros [Hk' Hnd]%NoDup_cons Hin. apply elem_of_cons in Hin as [[= -> ->]|Hin].
  - by rewrite bytes_eqb_refl.
  - destruct (bytes_eqb k' key) eqn:E; [|by apply IH].
    apply bytes_eqb_eq in E as ->. exfalso. apply Hk'.
    apply list_elem_of_fmap. by exists (key, k).
Qed.

Lemma build_dict_NoDup kind i dict values out :
  build_dict kind i dict values = Ok out -> NoDup values.*1 -> NoDup out.*1.
Proof.
  revert i values. induction dict as [|t dict IH]; intros i values; cbn [build_dict];
    [by intros [= <-]|].
  case_bool_decide; [apply IH|]. destruct (assoc t values) eqn:Ha; [done|].
  intros Hb Hnd. apply (IH _ _ Hb). rewrite fmap_app. apply NoDup_app.
  split_and!; [done| |apply NoDup_singleton].
  intros x Hx. cbn. rewrite list_elem_of_singleton. intros ->.
  by apply assoc_None in Ha.
Qed.

Lemma build_dicts_NoDup d dicts values out :
  build_dicts d dicts values = Ok out -> NoDup values.*1 -> NoDup out.*1.
Proof.
  revert d values. induction dicts as [|dict dicts IH]; intros d values; cbn [build_dicts];
    [by intros [= <-]|].
  intros H Hnd. inv_ok. eauto using build_dict_NoDup.
Qed.

Lemma build_values_NoDup t values : build_values t = Ok values -> NoDup values.*1.
Proof.
  unfold build_values. intros Hb. inv_ok.
  eapply build_dicts_NoDup; [done|]. eapply build_dict_NoDup; [done|]. apply NoDup_nil_2.
Qed.

(** ** The lookups are inverse *)

Section Laws.
Context {TM : TokenMaps}.

Lemma index_of_token_iff s k :
  index_of_token s = Some k <-> entry_ok token_tables s k.
Proof.
  unfold index_of_token. rewrite hashify_spec, <- (build_values_spec _ _ token_build).
  split; [apply assoc_Some|]. apply assoc_elem, (build_values_NoDup _ _ token_build).
Qed.

Lemma index_of_token_single s i :
  index_of_token s = Some (Single i) ->
  get_single_token i = Some s /\ 0 < i < DICTIONARY_0.
Proof.
  rewrite index_of_token_iff. intros [Hne Hg]. unfold get_single_token.
  pose proof (get_Some_range _ _ _ Hg). pose proof single_byte_small.
  split; [done|]. destruct (Z.eq_dec i 0) as [->|]; [|lia].
  pose proof single_byte_zero as Hz. unfold get in Hg. simpl in Hg.
  destruct (single_byte token_tables); simpl in *; congruence.
Qed.

Lemma index_of_token_double s d i :
  index_of_token s = Some (Double d i) ->
  get_double_token d i = Some s /\ 0 <= d < 4 /\ 0 <= i < 256.
Proof.
  rewrite index_of_token_iff. intros (_ & dict & Hd & Hg). unfold get_double_token.
  rewrite Hd. pose proof (get_Some_range _ _ _ Hd). pose proof (get_Some_range _ _ _ Hg).
  pose proof double_byte_small. pose proof double_byte_dict_small as Hall.
  rewrite Forall_forall in Hall. specialize (Hall dict).
  assert (zlen dict <= 256).
  { apply Hall. unfold get in Hd. case_match; [done|].
    apply list_elem_of_lookup. eauto. }
  split_and!; done || lia.
Qed.
End Laws.

(** ** The dictionaries of [tokens.json] *)

Definition wa_tokens : Tokens :=
  mkTokens (dictionary single_byte_strings)
    [dictionary double_byte_strings_0; dictionary double_byte_strings_1;
     dictionary double_byte_strings_2; dictionary double_byte_strings_3].

(** The generator's output on them: the non-empty tokens in order. *)
Fixpoint dict_entries (kind : Z -> TokenKind) (i : Z) (dict : list bytes) : token_entries :=
  match dict with
  | [] => []
  | [] :: dict' => dict_entries kind (i + 1) dict'
  | token :: dict' => (token, kind i) :: dict_entries kind (i + 1) dict'
  end.
Definition wa_values : token_entries :=
  dict_entries Single 0 (dictionary single_byte_strings)
  ++ dict_entries (Double 0) 0 (dictionary double_byte_strings_0)
  ++ dict_entries (Double 1) 0 (dictionary double_byte_strings_1)
  ++ dict_entries (Double 2) 0 (dictionary double_byte_strings_2)
  ++ dict_entries (Double 3) 0 (dictionary double_byte_strings_3).

Lemma wa_tokens_build : build_values wa_tokens = Ok wa_values.
Proof. vm_compute. reflexivity. Qed.

#[global] Instance wa_token_maps : TokenMaps := {|
  token_tables := wa_tokens;
  token_values := wa_values;
  token_build := wa_tokens_build;
  hashify_lookup := fun key => assoc key wa_values;
  hashify_spec := fun key => eq_refl;
  single_byte_zero := eq_refl;
  single_byte_small := ltac:(vm_compute; discriminate);
  double_byte_small := ltac:(vm_compute; discriminate);
  double_byte_dict_small :=
    ltac:(apply (bool_decide_unpack _); vm_compute; exact I);
|}.

(** The longest token is 48 bytes: a longer string is never looked up in vain,
    and a string above [PACKED_MAX] is never a token. *)
Lemma wa_tokens_max_len :
  Forall (fun s => zlen s <= 48) (single_byte wa_tokens ++ concat (double_byte wa_tokens)).
Proof. apply (bool_decide_unpack _). vm_compute. exact I. Qed.

(** ** Properties of the token layer *)

(** The two directions of the token maps agree: a string has a token kind
    exactly when it is the non-empty entry of a dictionary at that position.
    The position fits the wire format: a single token is a tag byte below the
    dictionary tags and different from the empty-list tag. *)
Lemma token_lookup_inverse {TM : TokenMaps} (s : bytes) (k : TokenKind) :
  index_of_token s = Some k <->
  s <> [] /\
  match k with
  | Single i => get_single_token i = Some s /\ 0 < i < DICTIONARY_0
  | Double d i => get_double_token d i = Some s /\ 0 <= d < 4 /\ 0 <= i < 256
  end.
Proof.
  split.
  - intros Hk. pose proof (proj1 (index_of_token_iff s k) Hk) as [Hne _].
    split; [done|]. destruct k; [by apply index_of_token_single|by apply index_of_token_double].
  - intros [Hne Hk]. apply index_of_token_iff. split; [done|].
    destruct k as [i|d i]; [apply Hk|]. destruct Hk as [Hg _].
    unfold get_double_token in Hg. apply bind_Some in Hg as (dict & ? & ?). eauto.
Qed.
