(* ===== verification/Node.v ===== *)
(** * Nodes

    The stanza trees of [wacore/binary/src/node.rs] and the builder of
    [builder.rs].  An owned [Node] has [Cow<'static, str>] and [CompactString]
    strings, a decoded [NodeRef] borrows them ([NodeStr]); both compare by
    content, and are [bytes] here.  The two tree types are kept apart, with the
    conversions [as_node_ref] and [to_owned]. *)

From stdpp Require Import prelude strings.
From S2P Require Import Prelude Jid Token.

#[local] Open Scope Z_scope.

(** ** Attribute values *)

Inductive NodeValue : Type :=
  | VString (s : bytes)
  | VJid (j : Jid).

Inductive ValueRef : Type :=
  | VRString (s : bytes)
  | VRJid (j : Jid).

#[global] Instance NodeValue_eq_dec : EqDecision NodeValue.
Proof. solve_decision. Defined.
#[global] Instance ValueRef_eq_dec : EqDecision ValueRef.
Proof. solve_decision. Defined.

Definition value_as_str (v : NodeValue) : bytes :=
  match v with VString s => s | VJid j => jid_to_string j end.

Definition value_to_jid (v : NodeValue) : option Jid :=
  match v with
  | VJid j => Some j
  | VString s => match jid_from_str s with Ok j => Some j | _ => None end
  end.

Definition value_ref_as_str (v : ValueRef) : bytes :=
  match v with VRString s => s | VRJid j => jid_to_string j end.

Definition value_ref_to_jid (v : ValueRef) : option Jid :=
  match v with
  | VRJid j => Some j
  | VRString s => match jid_from_str s with Ok j => Some j | _ => None end
  end.

Definition to_node_value (v : ValueRef) : NodeValue :=
  match v with VRString s => VString s | VRJid j => VJid j end.
Definition as_value_ref (v : NodeValue) : ValueRef :=
  match v with VString s => VRString s | VJid j => VRJid j end.

(** [impl PartialEq<str> for NodeValue]: the JID is streamed through a writer
    that compares as it goes. *)
Record EqCheck : Type := mkEqCheck { eq_target : bytes; eq_pos : Z; eq_matches : bool }.

#[global] Instance eq_check_write : FmtWrite EqCheck := fun c s =>
  if negb (eq_matches c) then Some c
  else
    let e := eq_pos c + zlen s in
    let bad := (zlen (eq_target c) <? e)
               || negb (bytes_eqb (slice (eq_pos c) e (eq_target c)) s) in
    Some (mkEqCheck (eq_target c) e (negb bad)).

Definition value_eq_str (v : NodeValue) (other : bytes) : bool :=
  match v with
  | VString s => bytes_eqb s other
  | VJid j =>
      let check := mkEqCheck other 0 true in
      let check := default check (jid_fmt check j) in
      eq_matches check && (eq_pos check =? zlen other)
  end.

(** ** Attributes of an owned node *)

Abbreviation Attrs := (list (bytes * NodeValue)) (only parsing).

Fixpoint attrs_get (attrs : Attrs) (key : bytes) : option NodeValue :=
  match attrs with
  | [] => None
  | (k, v) :: attrs' => if bytes_eqb k key then Some v else attrs_get attrs' key
  end.

Definition contains_key (attrs : Attrs) (key : bytes) : bool :=
  existsb (fun '(k, _) => bytes_eqb k key) attrs.

(** Overwrite the first entry with this key, or append. *)
Fixpoint attrs_insert (attrs : Attrs) (key : bytes) (value : NodeValue) : Attrs :=
  match attrs with
  | [] => [(key, value)]
  | (k, v) :: attrs' =>
      if bytes_eqb k key then (k, value) :: attrs'
      else (k, v) :: attrs_insert attrs' key value
  end.

Definition attrs_push (attrs : Attrs) (key : bytes) (value : NodeValue) : Attrs :=
  attrs ++ [(key, value)].

(** ** Trees *)

Inductive Node : Type :=
  | mkNode (tag : bytes) (attrs : list (bytes * NodeValue)) (content : option NodeContent)
with NodeContent : Type :=
  | NBytes (b : bytes)
  | NString (s : bytes)
  | NNodes (ns : list Node).

Inductive AttrsRef : Type :=
  | AEmpty
  | ASlice (l : list (bytes * ValueRef)).

Inductive NodeRef : Type :=
  | mkNodeRef (tag : bytes) (attrs : AttrsRef) (content : option NodeContentRef)
with NodeContentRef : Type :=
  | NRBytes (b : bytes)
  | NRString (s : bytes)
  | NRNodes (ns : list NodeRef).

Definition node_tag (n : Node) : bytes := let 'mkNode t _ _ := n in t.
Definition node_attrs (n : Node) : Attrs := let 'mkNode _ a _ := n in a.
Definition node_content (n : Node) : option NodeContent := let 'mkNode _ _ c := n in c.
Definition ref_tag (n : NodeRef) : bytes := let 'mkNodeRef t _ _ := n in t.
Definition ref_attrs (n : NodeRef) : AttrsRef := let 'mkNodeRef _ a _ := n in a.
Definition ref_content (n : NodeRef) : option NodeContentRef := let 'mkNodeRef _ _ c := n in c.

Definition attrs_ref_from_vec (v : list (bytes * ValueRef)) : AttrsRef :=
  match v with [] => AEmpty | _ => ASlice v end.
Definition attrs_ref_as_slice (a : AttrsRef) : list (bytes * ValueRef) :=
  match a with AEmpty => [] | ASlice l => l end.
Definition attrs_ref_len (a : AttrsRef) : Z :=
  match a with AEmpty => 0 | ASlice l => zlen l end.

(** Induction over a tree, with the hypothesis for every child. *)
Section NodeInd.
Context (P : Node -> Prop).
Context (Hnode : forall tag attrs content,
  (forall ns, content = Some (NNodes ns) -> Forall P ns) -> P (mkNode tag attrs content)).

Fixpoint Node_tree_ind (n : Node) : P n :=
  match n with
  | mkNode tag attrs content =>
      Hnode tag attrs content
        (match content as c return forall ns, c = Some (NNodes ns) -> Forall P ns with
         | Some (NNodes l) => fun ns E =>
             match E in _ = r return
               match r with Some (NNodes k) => Forall P k | _ => True end
             with eq_refl =>
               (fix go (l : list Node) : Forall P l :=
                  match l with
                  | [] => Forall_nil_2 P
                  | x :: l' => Forall_cons_2 P x l' (Node_tree_ind x) (go l')
                  end) l
             end
         | Some (NBytes _) | Some (NString _) => fun ns E => ltac:(discriminate E)
         | None => fun ns E => ltac:(discriminate E)
         end)
  end.
End NodeInd.

Section NodeRefInd.
Context (P : NodeRef -> Prop).
Context (Hnode : forall tag attrs content,
  (forall ns, content = Some (NRNodes ns) -> Forall P ns) -> P (mkNodeRef tag attrs content)).

Fixpoint NodeRef_tree_ind (n : NodeRef) : P n :=
  match n with
  | mkNodeRef tag attrs content =>
      Hnode tag attrs content
        (match content as c return forall ns, c = Some (NRNodes ns) -> Forall P ns with
         | Some (NRNodes l) => fun ns E =>
             match E in _ = r return
               match r with Some (NRNodes k) => Forall P k | _ => True end
             with eq_refl =>
               (fix go (l : list NodeRef) : Forall P l :=
                  match l with
                  | [] => Forall_nil_2 P
                  | x :: l' => Forall_cons_2 P x l' (NodeRef_tree_ind x) (go l')
                  end) l
             end
         | Some (NRBytes _) | Some (NRString _) => fun ns E => ltac:(discriminate E)
         | None => fun ns E => ltac:(discriminate E)
         end)
  end.
End NodeRefInd.

(** ** Conversions *)

Definition as_attrs_ref (attrs : Attrs) : AttrsRef :=
  attrs_ref_from_vec (map (fun '(k, v) => (k, as_value_ref v)) attrs).

Fixpoint as_node_ref (n : Node) : NodeRef :=
  match n with
  | mkNode tag attrs content =>
      mkNodeRef tag (as_attrs_ref attrs)
        (match content with
         | Some (NBytes b) => Some (NRBytes b)
         | Some (NString s) => Some (NRString s)
         | Some (NNodes ns) => Some (NRNodes (map as_node_ref ns))
         | None => None
         end)
  end.

Section ToOwned.
Context {TM : TokenMaps}.

(** The static string of a known token, or a copy. *)
Definition intern_cow (s : bytes) : bytes :=
  match index_of_token s with
  | Some kind =>
      let interned :=
        match kind with
        | Single idx => get_single_token idx
        | Double dict idx => get_double_token dict idx
        end in
      match interned with Some token => token | None => s end
  | None => s
  end.

Fixpoint to_owned (n : NodeRef) : Node :=
  match n with
  | mkNodeRef tag attrs content =>
      mkNode (intern_cow tag)
        (map (fun '(k, v) => (intern_cow k, to_node_value v)) (attrs_ref_as_slice attrs))
        (match content with
         | Some (NRBytes b) => Some (NBytes b)
         | Some (NRString s) => Some (NString s)
         | Some (NRNodes ns) => Some (NNodes (map to_owned ns))
         | None => None
         end)
  end.
End ToOwned.

(** ** Reading a tree *)

Definition children (n : NodeRef) : option (list NodeRef) :=
  match ref_content n with Some (NRNodes ns) => Some ns | _ => None end.

Fixpoint slice_get_attr (l : list (bytes * ValueRef)) (key : bytes) : option ValueRef :=
  match l with
  | [] => None
  | (k, v) :: l' => if bytes_eqb k key then Some v else slice_get_attr l' key
  end.
Definition get_attr (n : NodeRef) (key : bytes) : option ValueRef :=
  slice_get_attr (attrs_ref_as_slice (ref_attrs n)) key.

Fixpoint find_child (ns : list NodeRef) (tag : bytes) : option NodeRef :=
  match ns with
  | [] => None
  | c :: ns' => if bytes_eqb (ref_tag c) tag then Some c else find_child ns' tag
  end.

Definition get_optional_child (n : NodeRef) (tag : bytes) : option NodeRef :=
  ns ← children n; find_child ns tag.

Fixpoint get_optional_child_by_tag (n : NodeRef) (tags : list bytes) : option NodeRef :=
  match tags with
  | [] => Some n
  | tag :: tags' =>
      match children n with
      | Some cs =>
          match find_child cs tag with
          | Some found => get_optional_child_by_tag found tags'
          | None => None
          end
      | None => None
      end
  end.

Definition get_children_by_tag (n : NodeRef) (tag : bytes) : list NodeRef :=
  List.filter (fun c => bytes_eqb (ref_tag c) tag) (default [] (children n)).

Definition content_bytes (n : NodeRef) : option bytes :=
  match ref_content n with Some (NRBytes b) => Some b | _ => None end.
Definition content_str (n : NodeRef) : option bytes :=
  match ref_content n with Some (NRString s) => Some s | _ => None end.

(** ** The builder ([builder.rs]) *)

Record NodeBuilder : Type := mkBuilder {
  nb_tag : bytes; nb_attrs : Attrs; nb_content : option NodeContent
}.
Definition builder_new (tag : bytes) : NodeBuilder := mkBuilder tag [] None.
Definition builder_attr (b : NodeBuilder) (key : bytes) (value : NodeValue) : NodeBuilder :=
  mkBuilder (nb_tag b) (attrs_insert (nb_attrs b) key value) (nb_content b).
Definition builder_attrs (b : NodeBuilder) (l : list (bytes * NodeValue)) : NodeBuilder :=
  fold_left (fun b '(k, v) => builder_attr b k v) l b.
Definition builder_children (b : NodeBuilder) (ns : list Node) : NodeBuilder :=
  mkBuilder (nb_tag b) (nb_attrs b) (Some (NNodes ns)).
Definition builder_bytes (b : NodeBuilder) (bs : bytes) : NodeBuilder :=
  mkBuilder (nb_tag b) (nb_attrs b) (Some (NBytes bs)).
Definition builder_string_content (b : NodeBuilder) (s : bytes) : NodeBuilder :=
  mkBuilder (nb_tag b) (nb_attrs b) (Some (NString s)).
Definition builder_build (b : NodeBuilder) : Node :=
  mkNode (nb_tag b) (nb_attrs b) (nb_content b).

(** ** Lemmas *)

Lemma attrs_insert_get attrs key value k :
  attrs_get (attrs_insert attrs key value) k
  = if bytes_eqb key k then Some value else attrs_get attrs k.
Proof.
  induction attrs as [|[k' v] attrs IH]; cbn [attrs_insert attrs_get]; [done|].
  destruct (bytes_eqb k' key) eqn:E; cbn [attrs_get].
  - apply bytes_eqb_eq in E as ->. by destruct (bytes_eqb key k).
  - destruct (bytes_eqb k' k) eqn:E2; [|by rewrite IH].
    destruct (bytes_eqb key k) eqn:E3; [|done].
    apply bytes_eqb_eq in E2, E3. apply bytes_eqb_neq in E. congruence.
Qed.

Lemma attrs_insert_keys attrs key value :
  (attrs_insert attrs key value).*1
  = if contains_key attrs key then attrs.*1 else attrs.*1 ++ [key].
Proof.
  unfold contains_key. induction attrs as [|[k v] attrs IH]; [done|].
  cbn [attrs_insert existsb]. destruct (bytes_eqb k key) eqn:E; [done|].
  cbn [orb]. rewrite !fmap_cons, IH. by case_match.
Qed.

Lemma contains_key_elem attrs key : contains_key attrs key = true <-> key ∈ attrs.*1.
Proof.
  unfold contains_key. rewrite existsb_exists. setoid_rewrite list_elem_of_fmap. split.
  - intros ([k v] & Hin & E%bytes_eqb_eq). exists (k, v). split; [done|].
    by apply list_elem_of_In.
  - intros ([k v] & -> & Hin). exists (k, v). rewrite bytes_eqb_refl. split; [|done].
    by apply list_elem_of_In.
Qed.

Lemma attrs_insert_NoDup attrs key value :
  NoDup attrs.*1 -> NoDup (attrs_insert attrs key value).*1.
Proof.
  intros Hnd. rewrite attrs_insert_keys. destruct (contains_key attrs key) eqn:E; [done|].
  apply NoDup_app. split_and!; [done| |apply NoDup_singleton].
  intros x Hx Hs. apply list_elem_of_singleton in Hs as ->.
  apply contains_key_elem in Hx. congruence.
Qed.

Lemma builder_attrs_NoDup l b : NoDup (nb_attrs b).*1 -> NoDup (nb_attrs (builder_attrs b l)).*1.
Proof.
  revert b. induction l as [|[k v] l IH]; intros b Hb; [done|].
  apply IH. cbn. by apply attrs_insert_NoDup.
Qed.

Lemma intern_cow_id {TM : TokenMaps} s : intern_cow s = s.
Proof.
  unfold intern_cow. destruct (index_of_token s) as [[i|d i]|] eqn:E; [| |done].
  - apply index_of_token_single in E as [-> _]. done.
  - apply index_of_token_double in E as [-> _]. done.
Qed.

Lemma map_id_Forall {A} (f : A -> A) l : Forall (fun x => f x = x) l -> map f l = l.
Proof. induction 1; cbn; congruence. Qed.

Lemma as_attrs_ref_slice attrs :
  attrs_ref_as_slice (as_attrs_ref attrs) = map (fun '(k, v) => (k, as_value_ref v)) attrs.
Proof. by destruct attrs. Qed.

Lemma attrs_ref_len_slice a : attrs_ref_len a = zlen (attrs_ref_as_slice a).
Proof. by destruct a. Qed.

(** The writer that compares, after the text [s]: it still matches when the
    target starts with [s]. *)
Definition eq_after (t s : bytes) (c : EqCheck) : Prop :=
  eq_target c = t
  /\ if eq_matches c then eq_pos c = zlen s /\ exists r, t = s ++ r
     else ~ exists r, t = s ++ r.

Lemma node_slice_app (a b x : bytes) :
  slice (zlen a) (zlen a + zlen x) (a ++ b) = upto (zlen x) b.
Proof.
  unfold slice, from, upto, zlen. rewrite <- Nat2Z.inj_add, !Nat2Z.id.
  by rewrite <- take_drop_commute, drop_app_length.
Qed.

Lemma eq_check_write_after t s x c :
  eq_after t s c -> exists c', fmt_write_str c x = Some c' /\ eq_after t (s ++ x) c'.
Proof.
  intros [Ht Hm]. unfold fmt_write_str, eq_check_write.
  destruct (eq_matches c) eqn:E; cbn [negb].
  - destruct Hm as [Hpos [r ->]]. eexists. split; [done|]. split; [done|]. cbn.
    rewrite Ht, Hpos, node_slice_app. rewrite negb_orb, negb_involutive.
    autorewrite with zlen. pose proof (zlen_nonneg r). pose proof (zlen_nonneg x).
    destruct (negb _ && _) eqn:Hb.
    + apply andb_true_iff in Hb as [Hfit Heq].
      apply negb_true_iff, Z.ltb_ge in Hfit. apply bytes_eqb_eq in Heq. split; [lia|].
      exists (from (zlen x) r). rewrite <- app_assoc. f_equal.
      rewrite <- Heq at 1. symmetry. apply upto_from.
    + intros [r' Hr']. rewrite <- app_assoc in Hr'. apply (app_inv_head s) in Hr' as ->.
      revert Hb. autorewrite with zlen. pose proof (zlen_nonneg r').
      rewrite upto_app, bytes_eqb_refl, andb_true_r, negb_false_iff. intros. lia.
  - exists c. split; [done|]. split; [done|]. rewrite E. intros [r Hr]. apply Hm.
    exists (x ++ r). by rewrite app_assoc.
Qed.

Lemma value_eq_str_as_str v other : value_eq_str v other = bytes_eqb (value_as_str v) other.
Proof.
  destruct v as [s|j]; [done|]. cbn [value_eq_str value_as_str].
  rewrite jid_to_string_push.
  destruct (jid_fmt_total (eq_after other) (eq_check_write_after other)
              [] (mkEqCheck other 0 true) j) as (c & -> & Hc).
  { split; [done|]. cbn. split; [done|]. by exists other. }
  cbn [from_option id app] in *. destruct Hc as [_ Hc].
  destruct (eq_matches c); cbn [andb].
  - destruct Hc as [-> [r ->]]. autorewrite with zlen.
    destruct r as [|x r].
    + rewrite app_nil_r, bytes_eqb_refl. apply Z.eqb_eq. rewrite zlen_nil. lia.
    + transitivity false.
      * apply Z.eqb_neq. autorewrite with zlen. pose proof (zlen_nonneg r). lia.
      * symmetry. apply bytes_eqb_neq. intros E. apply (f_equal length) in E.
        rewrite length_app in E. cbn in E. lia.
  - symmetry. apply bytes_eqb_neq. intros <-. apply Hc. exists []. by rewrite app_nil_r.
Qed.

(** ** Properties of nodes *)

(** Comparing an attribute value with a string ([==] streams the JID through
    a comparing writer) is comparing its text. *)
Lemma value_eq_str_spec (v : NodeValue) (other : bytes) :
  value_eq_str v other = true <-> value_as_str v = other.
Proof. rewrite value_eq_str_as_str. apply bytes_eqb_eq. Qed.

(** Borrowing a node and copying it back gives the same node, interned tags
    and keys included. *)
Lemma to_owned_as_node_ref {TM : TokenMaps} (n : Node) : to_owned (as_node_ref n) = n.
Proof.
  induction n as [tag attrs content IH] using Node_tree_ind. cbn [as_node_ref to_owned].
  rewrite intern_cow_id, as_attrs_ref_slice, map_map. f_equal.
  - apply map_id_Forall, Forall_true. intros [k v]. rewrite intern_cow_id. by destruct v.
  - destruct content as [[b|s|ns]|]; [done..| |done].
    do 2 f_equal. rewrite map_map. by apply map_id_Forall, IH.
Qed.

(** The builder never repeats an attribute: the attributes of a built node
    have distinct keys, and the value of a key is the last one given. *)
Lemma builder_attrs_spec (tag key : bytes) (l : list (bytes * NodeValue)) (v : NodeValue) :
  let n := builder_build (builder_attr (builder_attrs (builder_new tag) l) key v) in
  NoDup (node_attrs n).*1
  /\ attrs_get (node_attrs n) key = Some v
  /\ (forall k, k <> key -> attrs_get (node_attrs n) k
        = attrs_get (nb_attrs (builder_attrs (builder_new tag) l)) k).
Proof.
  cbn. split_and!.
  - apply attrs_insert_NoDup, builder_attrs_NoDup, NoDup_nil_2.
  - by rewrite attrs_insert_get, bytes_eqb_refl.
  - intros k Hk. rewrite attrs_insert_get.
    rewrite (proj2 (bytes_eqb_neq key k)); [done|congruence].
Qed.
