(* ===== verification/Writer.v ===== *)
(** * Byte writers

    The errors of [wacore/binary/src/error.rs] and the [ByteWriter] trait of
    [encoder.rs] with its three implementations.  [ByteWriterLaws] is what the
    encoder relies on: writing a string byte by byte, in pieces or at once is
    the same.  The encoder's theorems are proved against the laws; each writer
    is an instance. *)

From stdpp Require Import prelude strings.
From S2P Require Import Prelude Jid.

#[local] Open Scope Z_scope.

(** [BinaryError]; the payloads of [Io] and [InvalidUtf8] are not modelled. *)
Inductive BinaryError : Type :=
  | Io
  | InvalidToken (t : Z)
  | InvalidNode
  | NonStringKey
  | AttrParse (msg : bytes)
  | MissingAttr (name : bytes)
  | InvalidUtf8
  | Zlib (msg : bytes)
  | BJid (e : JidError)
  | UnexpectedEof
  | EmptyData
  | LeftoverData (n : Z)
  | AttrList (errors : list BinaryError).

Class ByteWriter (W : Type) : Type := {
  write_u8 : W -> byte -> outcome BinaryError W;
  write_bytes : W -> bytes -> outcome BinaryError W;
}.

(** [VecByteWriter]: the growing buffer. *)
#[global] Instance vec_byte_writer : ByteWriter bytes := {|
  write_u8 w value := Ok (w ++ [value]);
  write_bytes w bs := Ok (w ++ bs);
|}.

(** [SliceByteWriter]: a buffer of fixed size. *)
Record SliceByteWriter : Type := mkSlice { sb_buffer : bytes; sb_position : Z }.

Definition slice_writer_new (buffer : bytes) : SliceByteWriter := mkSlice buffer 0.
Definition bytes_written (w : SliceByteWriter) : Z := sb_position w.

(** [buffer[p..p + len].copy_from_slice(src)] in range. *)
Definition copy_at (p : Z) (src buffer : bytes) : bytes :=
  upto p buffer ++ src ++ from (p + zlen src) buffer.

#[global] Instance slice_byte_writer : ByteWriter SliceByteWriter := {|
  write_u8 w value :=
    if zlen (sb_buffer w) <=? sb_position w then Err UnexpectedEof
    else Ok (mkSlice (copy_at (sb_position w) [value] (sb_buffer w)) (sb_position w + 1));
  write_bytes w bs :=
    let e := sb_position w + zlen bs in
    if zlen (sb_buffer w) <? e then Err UnexpectedEof
    else Ok (mkSlice (copy_at (sb_position w) bs (sb_buffer w)) e);
|}.

(** [IoByteWriter<W>]: over any [std::io::Write]; [write_all] fails with an I/O
    error. *)
Class IoWrite (W : Type) := io_write_all : W -> bytes -> option W.
Record IoByteWriter (W : Type) : Type := mkIo { io_writer : W }.
Arguments mkIo {W}.
Arguments io_writer {W}.

#[global] Instance io_byte_writer {W} {IO : IoWrite W} : ByteWriter (IoByteWriter W) := {|
  write_u8 w value := w' ← ok_or (io_write_all (io_writer w) [value]) Io; Ok (mkIo w');
  write_bytes w bs := w' ← ok_or (io_write_all (io_writer w) bs) Io; Ok (mkIo w');
|}.

(** ** The laws *)

Class ByteWriterLaws (W : Type) {BW : ByteWriter W} : Type := {
  writer_ok : W -> Prop;
  writer_ok_write w bs w' : writer_ok w -> write_bytes w bs = Ok w' -> writer_ok w';
  write_returns w bs : writer_ok w -> returns (write_bytes w bs);
  write_u8_spec w b : writer_ok w -> write_u8 w b = write_bytes w [b];
  write_nil w : writer_ok w -> write_bytes w [] = Ok w;
  write_app w a b :
    writer_ok w -> write_bytes w (a ++ b) = write_bytes w a ≫= fun w' => write_bytes w' b;
}.

#[global] Program Instance vec_writer_laws : ByteWriterLaws bytes := {|
  writer_ok _ := True;
|}.
Next Obligation. done. Qed.
Next Obligation. done. Qed.
Next Obligation. done. Qed.
Next Obligation. intros w _. cbn. by rewrite app_nil_r. Qed.
Next Obligation. intros w a b _. cbn. by rewrite app_assoc. Qed.

Lemma copy_at_zlen p src buffer :
  0 <= p -> p + zlen src <= zlen buffer -> zlen (copy_at p src buffer) = zlen buffer.
Proof.
  intros Hp Hfit. unfold copy_at. autorewrite with zlen.
  unfold upto, from, zlen in *. rewrite length_take, length_drop. lia.
Qed.

Lemma copy_at_pre l src rest :
  copy_at (zlen l) src (l ++ rest) = l ++ src ++ from (zlen src) rest.
Proof.
  unfold copy_at. rewrite upto_app. do 2 f_equal. unfold from, zlen.
  rewrite drop_app_ge by lia. f_equal. lia.
Qed.

Lemma from_from i j s : 0 <= i -> 0 <= j -> from i (from j s) = from (j + i) s.
Proof. intros Hi Hj. unfold from. rewrite drop_drop. f_equal. lia. Qed.

Lemma copy_at_app p a b buffer :
  0 <= p <= zlen buffer ->
  copy_at (p + zlen a) b (copy_at p a buffer) = copy_at p (a ++ b) buffer.
Proof.
  intros Hp. pose proof (zlen_nonneg a). pose proof (zlen_nonneg b).
  assert (Hu : p = zlen (upto p buffer))
    by (unfold upto, zlen in *; rewrite length_take; lia).
  rewrite <- (upto_from p buffer). set (l := upto p buffer) in *.
  rewrite Hu, !copy_at_pre, (app_assoc l a), <- zlen_app, copy_at_pre.
  rewrite from_from, <- zlen_app by lia. by rewrite !app_assoc.
Qed.

#[global] Program Instance slice_writer_laws : ByteWriterLaws SliceByteWriter := {|
  writer_ok w := 0 <= sb_position w <= zlen (sb_buffer w);
|}.
Next Obligation.
  intros w bs w' Hw. cbn in *. destruct (Z.ltb_spec (zlen (sb_buffer w)) (sb_position w + zlen bs));
    [done|]. intros [= <-]. cbn. rewrite copy_at_zlen by lia. pose proof (zlen_nonneg bs). lia.
Qed.
Next Obligation. intros w bs _. cbn. by case_match. Qed.
Next Obligation.
  intros w b Hw. cbn [write_u8 write_bytes slice_byte_writer]. cbn in Hw.
  rewrite zlen_cons, zlen_nil.
  destruct (Z.leb_spec (zlen (sb_buffer w)) (sb_position w)),
    (Z.ltb_spec (zlen (sb_buffer w)) (sb_position w + (1 + 0))); done || lia.
Qed.
Next Obligation.
  intros [buf p] Hw. cbn in *. rewrite zlen_nil, Z.add_0_r.
  destruct (Z.ltb_spec (zlen buf) p); [lia|]. do 2 f_equal.
  unfold copy_at. cbn. rewrite zlen_nil, Z.add_0_r. apply upto_from.
Qed.
Next Obligation.
  intros [buf p] a b Hw. cbn in *. rewrite zlen_app.
  pose proof (zlen_nonneg a). pose proof (zlen_nonneg b).
  destruct (Z.ltb_spec (zlen buf) (p + zlen a)) as [|Ha];
    destruct (Z.ltb_spec (zlen buf) (p + (zlen a + zlen b))) as [|Hab]; try done; try lia.
  - cbn. rewrite copy_at_zlen by lia.
    destruct (Z.ltb_spec (zlen buf) (p + zlen a + zlen b)); [done|lia].
  - cbn. rewrite copy_at_zlen by lia.
    destruct (Z.ltb_spec (zlen buf) (p + zlen a + zlen b)); [lia|].
    rewrite copy_at_app by lia. do 2 f_equal. lia.
Qed.

(** ** What a write emits

    [emits f bs]: the action [f] on a writer writes exactly [bs], whatever the
    writer (in particular it fails exactly when [bs] does not fit). *)

Definition emits {W} {BW : ByteWriter W} {L : ByteWriterLaws W}
    (f : W -> outcome BinaryError W) (bs : bytes) : Prop :=
  forall w, writer_ok w -> f w = write_bytes w bs.

Section Emits.
Context {W : Type} {BW : ByteWriter W} {L : ByteWriterLaws W}.

Lemma emits_u8 b : emits (fun w => write_u8 w b) [b].
Proof. intros w Hw. by apply write_u8_spec. Qed.

Lemma emits_bytes bs : emits (fun w => write_bytes w bs) bs.
Proof. done. Qed.

Lemma emits_ret : emits (fun w => Ok w) [].
Proof. intros w Hw. by rewrite write_nil. Qed.

Lemma emits_bind f g a b :
  emits f a -> emits g b -> emits (fun w => f w ≫= g) (a ++ b).
Proof.
  intros Hf Hg w Hw. rewrite Hf, write_app by done.
  destruct (write_bytes w a) as [w'| | |] eqn:E; [|done..]. cbn.
  apply Hg. by eapply writer_ok_write.
Qed.
End Emits.

(** ** Writes that may be refused

    An encoding that the encoder itself refuses has an error in place of its
    bytes.  The action then fails with that error, unless the writer failed
    before the encoder got to it. *)

Definition emits_res {W} {BW : ByteWriter W} {L : ByteWriterLaws W}
    (f : W -> outcome BinaryError W) (o : outcome BinaryError bytes) : Prop :=
  match o with
  | Ok bs => emits f bs
  | Err e => forall w, writer_ok w ->
      f w = Err e \/ exists bs e', write_bytes w bs = Err e' /\ f w = Err e'
  | Panic | Timeout => False
  end.

Section EmitsRes.
Context {W : Type} {BW : ByteWriter W} {L : ByteWriterLaws W}.

Lemma emits_res_ok f bs : emits f bs -> emits_res f (Ok bs).
Proof. done. Qed.

Lemma emits_res_bind f g (o1 o2 : outcome BinaryError bytes) :
  emits_res f o1 -> emits_res g o2 ->
  emits_res (fun w => f w ≫= g) (a ← o1; b ← o2; Ok (a ++ b)).
Proof.
  intros Hf Hg. destruct o1 as [a|e| |]; cbn in *; [|intros w Hw|done..].
  - destruct o2 as [b|e| |]; cbn in *; [by apply emits_bind| |done..].
    intros w Hw. pose proof (write_returns w a Hw) as Hret. specialize (Hf w Hw).
    destruct (write_bytes w a) as [w'|e'| |] eqn:E; rewrite Hf; cbn; try done.
    + destruct (Hg w') as [|(bs & e' & Hb & He)]; [by eapply writer_ok_write|by left|].
      right. exists (a ++ bs), e'. split; [|done]. by rewrite write_app, E by done.
    + right. by exists a, e'.
  - destruct (Hf w Hw) as [->|(bs & e' & Hb & ->)]; [by left|right]. by eexists _, _.
Qed.
End EmitsRes.

Create HintDb emits discriminated.
#[export] Hint Resolve emits_u8 emits_bytes emits_ret emits_bind : emits.
