(* ===== verification/Packed.v ===== *)
(** * Packed strings

    Strings of decimal or hexadecimal characters travel as two characters per
    byte.  This file models the packing of [encoder.rs] ([validate_nibble],
    [validate_hex], [pack_nibble], [pack_hex], [write_packed_bytes]) and the
    unpacking of [decoder.rs] ([unpack_nibble], [unpack_hex],
    [decode_packed_hex], [decode_packed_nibble]), both with their 16-lane SIMD
    loops (the default feature set) followed by the scalar tail, and relates
    them to the scalar definitions [pairs] and [unpack_ref]. *)

From stdpp Require Import prelude strings.
From S2P Require Import Prelude Jid Token Writer.

#[local] Open Scope Z_scope.

(** ** Which strings are packed *)

Definition is_nibble_char (b : byte) : bool :=
  is_ascii_digit b || (b =? chr "-") || (b =? chr ".").
Definition is_hex_char (b : byte) : bool :=
  is_ascii_digit b || ((chr "A" <=? b) && (b <=? chr "F")).

Definition validate_nibble (value : bytes) : bool :=
  if PACKED_MAX <? zlen value then false else forallb is_nibble_char value.
Definition validate_hex (value : bytes) : bool :=
  if PACKED_MAX <? zlen value then false else forallb is_hex_char value.

(** ** Packing one byte *)

Definition pack_nibble (value : byte) : outcome BinaryError Z :=
  if value =? chr "-" then Ok 10
  else if value =? chr "." then Ok 11
  else if value =? 0 then Ok 15
  else if is_ascii_digit value then Ok (value - chr "0")
  else Panic.

Definition pack_hex (value : byte) : outcome BinaryError Z :=
  if is_ascii_digit value then Ok (value - chr "0")
  else if (chr "A" <=? value) && (value <=? chr "F") then Ok (10 + (value - chr "A"))
  else if value =? 0 then Ok 15
  else Panic.

(** [(hi << 4) | lo] on [u8]. *)
Definition join (hi lo : Z) : Z := Z.lor (wrap 8 (Z.shiftl hi 4)) lo.

Definition pack_byte_pair (packer : byte -> outcome BinaryError Z) (part1 part2 : byte)
    : outcome BinaryError Z :=
  x ← packer part1; y ← packer part2; Ok (join x y).

(** ** Sixteen lanes

    The portable SIMD operations the code uses, lane by lane. *)

(** [swizzle_dyn]: a lane whose index is out of range is zero. *)
Definition swizzle_dyn (table : list Z) (idx : list Z) : list Z :=
  map (fun i => default 0 (get table i)) idx.
Definition rotate_elements_left_1 (l : list Z) : list Z :=
  match l with [] => [] | x :: l' => l' ++ [x] end.

Fixpoint evens {A} (l : list A) : list A :=
  match l with
  | [] => []
  | [x] => [x]
  | x :: _ :: l' => x :: evens l'
  end.
Fixpoint odds {A} (l : list A) : list A :=
  match l with
  | [] => []
  | [_] => []
  | _ :: y :: l' => y :: odds l'
  end.
Definition deinterleave (a b : list Z) : list Z * list Z := (evens (a ++ b), odds (a ++ b)).

Fixpoint weave (a b : list Z) : list Z :=
  match a, b with
  | x :: a', y :: b' => x :: y :: weave a' b'
  | _, _ => []
  end.
(** [interleave]: the low and the high half of the woven lanes. *)
Definition interleave (a b : list Z) : list Z * list Z :=
  (take 16 (weave a b), drop 16 (weave a b)).

Definition saturating_sub (a b : Z) : Z := Z.max 0 (a - b).

Definition NIBBLE_PACK_LOOKUP : list Z :=
  [10; 11; 255; 0; 1; 2; 3; 4; 5; 6; 7; 8; 9; 255; 255; 255].

(** The lanes of one chunk joined in pairs: eight bytes. *)
Definition join_lanes (nibbles : list Z) : list Z :=
  let '(e, o) := deinterleave nibbles (rotate_elements_left_1 nibbles) in
  take 8 (zip_with join e o).

Definition simd_pack_nibble (chunk : list Z) : list Z :=
  let indices := map (fun b => saturating_sub b (chr "-")) chunk in
  join_lanes (swizzle_dyn NIBBLE_PACK_LOOKUP indices).

Definition simd_pack_hex (chunk : list Z) : list Z :=
  let digit_vals := map (fun b => wrap 8 (b - chr "0")) chunk in
  let letter_vals := map (fun b => wrap 8 (wrap 8 (b - chr "A") + 10)) chunk in
  let is_letter := map (fun b => chr "A" <=? b) chunk in
  join_lanes (zip_with (fun (m : bool) '(l, d) => if m then l else d) is_letter
                (zip_with pair letter_vals digit_vals)).

(** ** [write_packed_bytes] *)

Section WritePacked.
Context {W : Type} {BW : ByteWriter W}.

Fixpoint write_chunks (pack : list Z -> list Z) (chunks : list (list Z)) (w : W)
    : outcome BinaryError W :=
  match chunks with
  | [] => Ok w
  | c :: chunks' => w ← write_bytes w (pack c); write_chunks pack chunks' w
  end.

Fixpoint write_pairs (packer : byte -> outcome BinaryError Z) (l : bytes) (w : W)
    : outcome BinaryError W :=
  match l with
  | [] => Ok w
  | [part1] => b ← pack_byte_pair packer part1 0; write_u8 w b
  | part1 :: part2 :: l' =>
      b ← pack_byte_pair packer part1 part2;
      w ← write_u8 w b; write_pairs packer l' w
  end.

Definition write_packed_bytes (value : bytes) (data_type : Z) (w : W)
    : outcome BinaryError W :=
  if PACKED_MAX <? zlen value then Panic
  else
    w ← write_u8 w data_type;
    let rounded_len := wrap 8 ((zlen value + 1) / 2) in
    let rounded_len :=
      if zlen value mod 2 =? 0 then rounded_len else Z.lor rounded_len 128 in
    w ← write_u8 w rounded_len;
    let '(chunks, rest) := as_chunks 16 value in
    if data_type =? NIBBLE_8 then
      w ← write_chunks simd_pack_nibble chunks w;
      write_pairs pack_nibble rest w
    else
      w ← write_chunks simd_pack_hex chunks w;
      write_pairs pack_hex rest w.
End WritePacked.

(** ** Unpacking *)

Definition unpack_nibble (value : Z) : outcome BinaryError byte :=
  if (0 <=? value) && (value <=? 9) then Ok (chr "0" + value)
  else if value =? 10 then Ok (chr "-")
  else if value =? 11 then Ok (chr ".")
  else if value =? 15 then Ok 0
  else Err (InvalidToken value).

Definition unpack_hex (value : Z) : outcome BinaryError byte :=
  if (0 <=? value) && (value <=? 9) then Ok (chr "0" + value)
  else if (10 <=? value) && (value <=? 15) then Ok (chr "A" + value - 10)
  else Panic.

Definition high_nibble (b : byte) : Z := Z.shiftr (Z.land b 240) 4.
Definition low_nibble (b : byte) : Z := Z.land b 15.

(** The output buffer and the write position of [read_packed]. *)
Abbreviation packed_out := (bytes * Z)%type (only parsing).

(** [out[*pos] = b; *pos += 1] *)
Definition put_byte (b : byte) (o : packed_out) : outcome BinaryError packed_out :=
  let '(out, pos) := o in
  if (0 <=? pos) && (pos <? zlen out) then Ok (copy_at pos [b] out, pos + 1) else Panic.

(** [out[*pos..*pos + n].copy_from_slice(s); *pos += n] *)
Definition put_slice (s : bytes) (o : packed_out) : outcome BinaryError packed_out :=
  let '(out, pos) := o in
  if (0 <=? pos) && (pos + zlen s <=? zlen out) then Ok (copy_at pos s out, pos + zlen s)
  else Panic.

(** The scalar loop. *)
Fixpoint unpack_loop (unpack : Z -> outcome BinaryError byte) (packed : bytes) (o : packed_out)
    : outcome BinaryError packed_out :=
  match packed with
  | [] => Ok o
  | b :: packed' =>
      x ← unpack (high_nibble b); o ← put_byte x o;
      y ← unpack (low_nibble b); o ← put_byte y o;
      unpack_loop unpack packed' o
  end.

Definition HEX_LOOKUP : list Z := str "0123456789ABCDEF".
Definition NIBBLE_LOOKUP : list Z := str "0123456789-." ++ [0; 0; 0; 0].

(** The lanes of a chunk looked up in a table. *)
Definition lanes (table chunk : list Z) : list Z * list Z :=
  let high := map (fun b => Z.land (Z.shiftr b 4) 15) chunk in
  let low := map (fun b => Z.land b 15) chunk in
  interleave (swizzle_dyn table high) (swizzle_dyn table low).

Definition simd_unpack_chunk (table chunk : list Z) (o : packed_out)
    : outcome BinaryError packed_out :=
  let '(lo, hi) := lanes table chunk in
  o ← put_slice lo o; put_slice hi o.

Fixpoint hex_chunks (chunks : list (list Z)) (o : packed_out)
    : outcome BinaryError packed_out :=
  match chunks with
  | [] => Ok o
  | c :: chunks' => o ← simd_unpack_chunk HEX_LOOKUP c o; hex_chunks chunks' o
  end.

Definition decode_packed_hex (packed : bytes) (o : packed_out)
    : outcome BinaryError packed_out :=
  let '(chunks, remainder) := as_chunks 16 packed in
  o ← hex_chunks chunks o;
  unpack_loop unpack_hex remainder o.

(** [(nibbles.simd_le(11) | nibbles.simd_eq(15)).all()] *)
Definition nibbles_valid (chunk : list Z) : bool :=
  forallb (fun b =>
    let h := Z.land (Z.shiftr b 4) 15 in
    let l := Z.land b 15 in
    ((h <=? 11) || (h =? 15)) && ((l <=? 11) || (l =? 15))) chunk.

(** The first pass over a bad chunk, which reports the first bad nibble. *)
Fixpoint check_chunk (chunk : list Z) : outcome BinaryError unit :=
  match chunk with
  | [] => Ok tt
  | b :: chunk' =>
      _ ← unpack_nibble (high_nibble b);
      _ ← unpack_nibble (low_nibble b);
      check_chunk chunk'
  end.

Fixpoint nibble_chunks (chunks : list (list Z)) (o : packed_out)
    : outcome BinaryError packed_out :=
  match chunks with
  | [] => Ok o
  | c :: chunks' =>
      o ← (if negb (nibbles_valid c)
           then _ ← check_chunk c; unpack_loop unpack_nibble c o
           else simd_unpack_chunk NIBBLE_LOOKUP c o);
      nibble_chunks chunks' o
  end.

Definition decode_packed_nibble (packed : bytes) (o : packed_out)
    : outcome BinaryError packed_out :=
  let '(chunks, remainder) := as_chunks 16 packed in
  o ← nibble_chunks chunks o;
  unpack_loop unpack_nibble remainder o.

(** ** The scalar reference *)

(** Two characters per byte, an odd last one joined with a zero byte. *)
Fixpoint pairs (f : byte -> Z) (l : bytes) : bytes :=
  match l with
  | [] => []
  | [a] => [join (f a) (f 0)]
  | a :: b :: l' => join (f a) (f b) :: pairs f l'
  end.

(** The nibble value of a valid character. *)
Definition nibble_val (b : byte) : Z := match pack_nibble b with Ok v => v | _ => 0 end.
Definition hex_val (b : byte) : Z := match pack_hex b with Ok v => v | _ => 0 end.

(** Both characters of each byte. *)
Fixpoint unpack_ref (unpack : Z -> outcome BinaryError byte) (packed : bytes)
    : outcome BinaryError bytes :=
  match packed with
  | [] => Ok []
  | b :: packed' =>
      x ← unpack (high_nibble b);
      y ← unpack (low_nibble b);
      rest ← unpack_ref unpack packed';
      Ok (x :: y :: rest)
  end.

(** ** Facts checked on all bytes *)

Lemma nibble_char_byte b : is_nibble_char b = true -> is_byte b.
Proof.
  unfold is_nibble_char, is_ascii_digit, is_byte.
  change (chr "-") with 45. change (chr ".") with 46. lia.
Qed.
Lemma hex_char_byte b : is_hex_char b = true -> is_byte b.
Proof.
  unfold is_hex_char, is_ascii_digit, is_byte.
  change (chr "A") with 65. change (chr "F") with 70. lia.
Qed.

(** A character that may be packed: its value is a nibble, the SIMD lane
    computes it, and unpacking it gives the character back. *)
Definition nibble_char_ok (b : byte) : bool :=
  implb (is_nibble_char b)
    (match pack_nibble b with
     | Ok v => (v =? default 0 (get NIBBLE_PACK_LOOKUP (saturating_sub b (chr "-"))))
               && (0 <=? v) && (v <? 16)
               && match unpack_nibble v with Ok c => c =? b | _ => false end
     | _ => false
     end).
Definition hex_char_ok (b : byte) : bool :=
  implb (is_hex_char b)
    (match pack_hex b with
     | Ok v => (v =? (if chr "A" <=? b then wrap 8 (wrap 8 (b - chr "A") + 10)
                      else wrap 8 (b - chr "0")))
               && (0 <=? v) && (v <? 16)
               && match unpack_hex v with Ok c => c =? b | _ => false end
     | _ => false
     end).

Lemma nibble_char_spec b :
  is_nibble_char b = true ->
  exists v, pack_nibble b = Ok v /\ nibble_val b = v
    /\ default 0 (get NIBBLE_PACK_LOOKUP (saturating_sub b (chr "-"))) = v
    /\ 0 <= v < 16 /\ unpack_nibble v = Ok b.
Proof.
  intros Hb. pose proof (byte_check nibble_char_ok eq_refl b (nibble_char_byte b Hb)) as H.
  unfold nibble_char_ok in H. rewrite Hb in H. cbn [implb] in H. unfold nibble_val.
  destruct (pack_nibble b) as [v| | |]; try done. exists v.
  destruct (unpack_nibble v) as [c| | |]; [|by rewrite andb_false_r in H..].
  rewrite !andb_true_iff in H.
  destruct H as (((E1%Z.eqb_eq & E2) & E3) & ->%Z.eqb_eq). split_and!; done || lia.
Qed.

Lemma hex_char_spec b :
  is_hex_char b = true ->
  exists v, pack_hex b = Ok v /\ hex_val b = v
    /\ (if chr "A" <=? b then wrap 8 (wrap 8 (b - chr "A") + 10) else wrap 8 (b - chr "0")) = v
    /\ 0 <= v < 16 /\ unpack_hex v = Ok b.
Proof.
  intros Hb. pose proof (byte_check hex_char_ok eq_refl b (hex_char_byte b Hb)) as H.
  unfold hex_char_ok in H. rewrite Hb in H. cbn [implb] in H. unfold hex_val.
  destruct (pack_hex b) as [v| | |]; try done. exists v.
  destruct (unpack_hex v) as [c| | |]; [|by rewrite andb_false_r in H..].
  rewrite !andb_true_iff in H.
  destruct H as (((E1%Z.eqb_eq & E2) & E3) & ->%Z.eqb_eq). split_and!; done || lia.
Qed.

(** Splitting a joined byte. *)
Definition join_ok (p : Z * Z) : bool :=
  (high_nibble (join p.1 p.2) =? p.1) && (low_nibble (join p.1 p.2) =? p.2)
  && (0 <=? join p.1 p.2) && (join p.1 p.2 <? 256).
Definition all_nibbles : list Z := map Z.of_nat (seq 0 16).

Lemma join_spec hi lo :
  0 <= hi < 16 -> 0 <= lo < 16 ->
  high_nibble (join hi lo) = hi /\ low_nibble (join hi lo) = lo /\ is_byte (join hi lo).
Proof.
  intros Hhi Hlo.
  assert (H : forallb join_ok (list_prod all_nibbles all_nibbles) = true) by reflexivity.
  rewrite forallb_forall in H. specialize (H (hi, lo)).
  unfold join_ok, is_byte in *. cbn [fst snd] in H. rewrite !andb_true_iff in H.
  assert (Hin : forall z, 0 <= z < 16 -> In z all_nibbles).
  { intros z Hz. apply in_map_iff. exists (Z.to_nat z). rewrite in_seq. lia. }
  destruct H as (((? & ?) & ?) & ?); [apply in_prod; auto|]. lia.
Qed.

(** The two ways the code takes the high nibble agree on bytes. *)
Lemma high_nibble_alt b : is_byte b -> Z.land (Z.shiftr b 4) 15 = high_nibble b.
Proof.
  intros Hb. apply Z.eqb_eq.
  apply (byte_check (fun b => Z.land (Z.shiftr b 4) 15 =? high_nibble b) eq_refl b Hb).
Qed.

Lemma nibble_range b : is_byte b -> 0 <= high_nibble b < 16 /\ 0 <= low_nibble b < 16.
Proof.
  intros Hb.
  pose proof (byte_check (fun b => (0 <=? high_nibble b) && (high_nibble b <? 16)
    && (0 <=? low_nibble b) && (low_nibble b <? 16)) eq_refl b Hb) as H.
  cbv beta in H. rewrite !andb_true_iff in H. lia.
Qed.

(** ** Packing: the SIMD loop and the scalar loop agree *)

Lemma pairs_chunk f c r : length c = 16%nat -> pairs f (c ++ r) = pairs f c ++ pairs f r.
Proof. intros Hc. by list_cases c 16 Hc. Qed.

Lemma join_lanes_pairs f c : length c = 16%nat -> join_lanes (map f c) = pairs f c.
Proof. intros Hc. by list_cases c 16 Hc. Qed.

Lemma map_Forall_ext {A B} (f g : A -> B) l :
  Forall (fun x => f x = g x) l -> map f l = map g l.
Proof. induction 1; cbn; congruence. Qed.

Lemma simd_pack_nibble_pairs c :
  length c = 16%nat -> forallb is_nibble_char c = true ->
  simd_pack_nibble c = pairs nibble_val c.
Proof.
  intros Hc Hv. unfold simd_pack_nibble, swizzle_dyn. rewrite map_map.
  rewrite <- (join_lanes_pairs nibble_val) by done. f_equal.
  apply map_Forall_ext, Forall_forall. intros b Hb.
  rewrite forallb_forall in Hv. destruct (nibble_char_spec b) as (v & _ & -> & -> & _); [|done].
  by apply Hv, list_elem_of_In.
Qed.

Lemma zip_with_select c :
  zip_with (fun (m : bool) '(l, d) => if m then l else d)
    (map (fun b => chr "A" <=? b) c)
    (zip_with pair (map (fun b => wrap 8 (wrap 8 (b - chr "A") + 10)) c)
       (map (fun b => wrap 8 (b - chr "0")) c))
  = map (fun b => if chr "A" <=? b then wrap 8 (wrap 8 (b - chr "A") + 10)
                  else wrap 8 (b - chr "0")) c.
Proof. induction c as [|b c IH]; cbn [map zip_with]; [done|]. by rewrite IH. Qed.

Lemma simd_pack_hex_pairs c :
  length c = 16%nat -> forallb is_hex_char c = true ->
  simd_pack_hex c = pairs hex_val c.
Proof.
  intros Hc Hv. unfold simd_pack_hex. rewrite zip_with_select.
  rewrite <- (join_lanes_pairs hex_val) by done. f_equal.
  apply map_Forall_ext, Forall_forall. intros b Hb.
  rewrite forallb_forall in Hv. destruct (hex_char_spec b) as (v & _ & -> & -> & _); [|done].
  by apply Hv, list_elem_of_In.
Qed.

Section Emits.
Context {W : Type} {BW : ByteWriter W} {L : ByteWriterLaws W}.

Lemma emits_chunks pack f valid chunks :
  Forall (fun c => length c = 16%nat) chunks ->
  (forall c, length c = 16%nat -> forallb valid c = true -> pack c = pairs f c) ->
  forallb valid (concat chunks) = true ->
  emits (write_chunks pack chunks) (pairs f (concat chunks)).
Proof.
  intros Hlen Hpack. induction Hlen as [|c chunks Hc Hlen IH]; cbn [concat write_chunks].
  - intros _. apply emits_ret.
  - rewrite forallb_app, andb_true_iff. intros [Hv Hvs]. rewrite pairs_chunk by done.
    rewrite <- Hpack by done. apply emits_bind; [apply emits_bytes|auto].
Qed.

Lemma emits_pairs packer f valid l :
  (forall b, valid b = true -> packer b = Ok (f b)) -> packer 0 = Ok (f 0) ->
  forallb valid l = true ->
  emits (write_pairs packer l) (pairs f l).
Proof.
  intros Hp H0. remember (length l) as n eqn:Hn. assert (Hle : (length l <= n)%nat) by lia.
  clear Hn. revert l Hle. induction n as [n IH] using lt_wf_ind.
  intros [|a [|b l]] Hle; cbn [pairs write_pairs forallb].
  - intros _. apply emits_ret.
  - rewrite andb_true_r. intros Ha. unfold pack_byte_pair.
    rewrite (Hp a), H0 by done. apply emits_u8.
  - rewrite !andb_true_iff. intros (Ha & Hb & Hl). unfold pack_byte_pair.
    rewrite (Hp a), (Hp b) by done. cbn in Hle |- *.
    apply (emits_bind _ _ [_]); [apply emits_u8|].
    apply (IH (n - 1)%nat); [lia|lia|done].
Qed.

(** The length byte: the number of packed bytes, with the high bit set when
    the last one holds a single character. *)
Definition packed_len_byte (n : Z) : Z :=
  if n mod 2 =? 0 then wrap 8 ((n + 1) / 2) else Z.lor (wrap 8 ((n + 1) / 2)) 128.

Lemma emits_packed value data_type valid f :
  zlen value <= PACKED_MAX -> forallb valid value = true ->
  (if data_type =? NIBBLE_8 then valid = is_nibble_char /\ f = nibble_val
   else valid = is_hex_char /\ f = hex_val) ->
  emits (write_packed_bytes value data_type)
    (data_type :: packed_len_byte (zlen value) :: pairs f value).
Proof.
  intros Hlen Hv Hf. unfold write_packed_bytes.
  destruct (Z.ltb_spec PACKED_MAX (zlen value)); [lia|].
  pose proof (as_chunks_spec 16 value ltac:(lia)) as Hch.
  destruct (as_chunks 16 value) as [chunks rest].
  destruct Hch as (Heq & Hall & _).
  assert (Hsplit : pairs f value = pairs f (concat chunks) ++ pairs f rest).
  { rewrite Heq. clear -Hall. induction Hall as [|c cs Hc Hall IH]; [done|].
    cbn [concat]. rewrite <- app_assoc.
    rewrite (pairs_chunk f c (_ ++ _)), (pairs_chunk f c (concat cs)), IH by done.
    by rewrite app_assoc. }
  rewrite Hsplit. rewrite Heq, forallb_app, andb_true_iff in Hv. destruct Hv as [Hv1 Hv2].
  apply (emits_bind _ _ [_]); [apply emits_u8|].
  apply (emits_bind _ _ [_]); [apply emits_u8|].
  destruct (data_type =? NIBBLE_8); destruct Hf as [-> ->];
    (apply emits_bind; [eapply emits_chunks|eapply emits_pairs]);
    eauto using simd_pack_nibble_pairs, simd_pack_hex_pairs.
  - intros b Hb. destruct (nibble_char_spec b Hb) as (v & -> & -> & _). done.
  - intros b Hb. destruct (hex_char_spec b Hb) as (v & -> & -> & _). done.
Qed.
End Emits.

(** ** Unpacking: the buffered loops compute the scalar reference *)

Lemma unpack_ref_zlen unpack packed bs :
  unpack_ref unpack packed = Ok bs -> zlen bs = 2 * zlen packed.
Proof.
  revert bs. induction packed as [|b packed IH]; intros bs; cbn [unpack_ref].
  - by intros [= <-].
  - intros H. inv_ok. autorewrite with zlen. rewrite (IH _ ltac:(done)). lia.
Qed.

Lemma unpack_ref_app unpack a b :
  unpack_ref unpack (a ++ b)
  = x ← unpack_ref unpack a; y ← unpack_ref unpack b; Ok (x ++ y).
Proof.
  induction a as [|c a IH]; cbn [app unpack_ref].
  - cbn. by destruct (unpack_ref unpack b).
  - destruct (unpack (high_nibble c)); [|done..]. cbn.
    destruct (unpack (low_nibble c)); [|done..]. cbn. rewrite IH.
    destruct (unpack_ref unpack a); [|done..]. cbn.
    by destruct (unpack_ref unpack b).
Qed.

Lemma put_slice_spec s out pos :
  0 <= pos -> pos + zlen s <= zlen out ->
  put_slice s (out, pos) = Ok (copy_at pos s out, pos + zlen s).
Proof. intros Hp Hfit. unfold put_slice. case_match; [done|lia]. Qed.

Lemma put_byte_slice b o : put_byte b o = put_slice [b] o.
Proof.
  destruct o as [out pos]. unfold put_byte, put_slice. autorewrite with zlen.
  replace (pos + (1 + 0)) with (pos + 1) by lia.
  repeat case_match; (done || lia).
Qed.

(** The result of unpacking [packed] at [pos]. *)
Definition unpacks (unpack : Z -> outcome BinaryError byte) (packed : bytes) (o : packed_out)
    : outcome BinaryError packed_out :=
  bs ← unpack_ref unpack packed; Ok (copy_at o.2 bs o.1, o.2 + zlen bs).

(** There is room for [n] more packed bytes. *)
Definition room (n : Z) (o : packed_out) : Prop := 0 <= o.2 /\ o.2 + 2 * n <= zlen o.1.

Lemma unpacks_room unpack packed o o' n :
  room (zlen packed + n) o -> 0 <= n -> unpacks unpack packed o = Ok o' -> room n o'.
Proof.
  unfold unpacks, room. destruct o as [out pos]. cbn. intros [Hp Hfit] Hn H. inv_ok.
  match goal with H : unpack_ref _ _ = Ok _ |- _ => apply unpack_ref_zlen in H as Hz end.
  cbn. pose proof (zlen_nonneg packed). rewrite copy_at_zlen by lia. lia.
Qed.

Lemma unpacks_app unpack a b o :
  room (zlen a + zlen b) o ->
  unpacks unpack (a ++ b) o = o' ← unpacks unpack a o; unpacks unpack b o'.
Proof.
  intros [Hp Hfit]. destruct o as [out pos]. unfold unpacks. rewrite unpack_ref_app.
  destruct (unpack_ref unpack a) as [x| | |] eqn:Hx; [|done..]. cbn in *.
  destruct (unpack_ref unpack b) as [y| | |] eqn:Hy; [|done..]. cbn.
  apply unpack_ref_zlen in Hx, Hy. pose proof (zlen_nonneg a). pose proof (zlen_nonneg b).
  rewrite copy_at_app, zlen_app by lia. do 2 f_equal. lia.
Qed.

Lemma unpack_loop_unpacks unpack packed o :
  room (zlen packed) o -> unpack_loop unpack packed o = unpacks unpack packed o.
Proof.
  revert o. induction packed as [|b packed IH]; intros [out pos] [Hp Hfit]; cbn in Hp, Hfit.
  - unfold unpacks, copy_at. cbn. rewrite zlen_nil, Z.add_0_r, upto_from. done.
  - rewrite (unpacks_app unpack [b] packed) by (split; cbn; autorewrite with zlen in *; lia).
    autorewrite with zlen in Hfit. pose proof (zlen_nonneg packed).
    cbn [unpack_loop]. unfold unpacks at 2. cbn [unpack_ref fst snd].
    destruct (unpack (high_nibble b)) as [x| | |]; [|done..]. cbn [mbind outcome_bind].
    rewrite put_byte_slice, put_slice_spec by (autorewrite with zlen; lia).
    cbn [mbind outcome_bind].
    destruct (unpack (low_nibble b)) as [y| | |]; [|done..]. cbn [mbind outcome_bind].
    rewrite put_byte_slice, put_slice_spec
      by (rewrite ?copy_at_zlen by (autorewrite with zlen; lia); autorewrite with zlen; lia).
    cbn [mbind outcome_bind fst snd app]. rewrite copy_at_app by lia. autorewrite with zlen.
    rewrite IH; [|split; cbn; rewrite ?copy_at_zlen by (autorewrite with zlen; lia); lia].
    cbn [fst snd app]. f_equal. f_equal. lia.
Qed.

Lemma weave_unpack_ref unpack table c :
  Forall (fun b => unpack (high_nibble b) = Ok (default 0 (get table (Z.land (Z.shiftr b 4) 15)))
                   /\ unpack (low_nibble b) = Ok (default 0 (get table (Z.land b 15)))) c ->
  unpack_ref unpack c
  = Ok (weave (swizzle_dyn table (map (fun b => Z.land (Z.shiftr b 4) 15) c))
          (swizzle_dyn table (map (fun b => Z.land b 15) c))).
Proof.
  induction 1 as [|b c [Hh Hl] Hc IH]; cbn [unpack_ref]; [done|].
  rewrite Hh, Hl. cbn -[get]. by rewrite IH.
Qed.

Lemma simd_unpack_unpacks unpack table c o :
  length c = 16%nat -> room (zlen c) o ->
  Forall (fun b => unpack (high_nibble b) = Ok (default 0 (get table (Z.land (Z.shiftr b 4) 15)))
                   /\ unpack (low_nibble b) = Ok (default 0 (get table (Z.land b 15)))) c ->
  simd_unpack_chunk table c o = unpacks unpack c o.
Proof.
  intros Hlen [Hp Hfit] Hc. destruct o as [out pos]. unfold unpacks.
  rewrite (weave_unpack_ref _ _ _ Hc). unfold simd_unpack_chunk, lanes, interleave.
  set (l := weave _ _).
  assert (Hl : length l = 32%nat) by (subst l; clear Hfit Hc; by list_cases c 16 Hlen).
  cbn in Hp, Hfit. assert (zlen c = 16) by (unfold zlen; lia).
  assert (zlen (take 16 l) = 16 /\ zlen (drop 16 l) = 16) as [Ht Hd]
    by (unfold zlen; rewrite length_take, length_drop; lia).
  rewrite put_slice_spec by lia. cbn [mbind outcome_bind].
  rewrite put_slice_spec by (rewrite ?copy_at_zlen by lia; lia).
  rewrite copy_at_app by lia. rewrite take_drop. cbn.
  replace (zlen l) with 32 by (unfold zlen; lia). do 2 f_equal. lia.
Qed.

Definition hex_lanes_ok (b : byte) : bool :=
  match unpack_hex (high_nibble b), unpack_hex (low_nibble b) with
  | Ok h, Ok l => (h =? default 0 (get HEX_LOOKUP (Z.land (Z.shiftr b 4) 15)))
                  && (l =? default 0 (get HEX_LOOKUP (Z.land b 15)))
  | _, _ => false
  end.

Lemma hex_lanes b : is_byte b ->
  unpack_hex (high_nibble b) = Ok (default 0 (get HEX_LOOKUP (Z.land (Z.shiftr b 4) 15)))
  /\ unpack_hex (low_nibble b) = Ok (default 0 (get HEX_LOOKUP (Z.land b 15))).
Proof.
  intros Hb. pose proof (byte_check hex_lanes_ok eq_refl b Hb) as H.
  unfold hex_lanes_ok in H. destruct (unpack_hex (high_nibble b)); try done.
  destruct (unpack_hex (low_nibble b)); try done.
  apply andb_true_iff in H as [->%Z.eqb_eq ->%Z.eqb_eq]. done.
Qed.

Definition nibble_valid (b : byte) : bool :=
  let h := Z.land (Z.shiftr b 4) 15 in
  let l := Z.land b 15 in
  ((h <=? 11) || (h =? 15)) && ((l <=? 11) || (l =? 15)).

Definition nibble_lanes_ok (b : byte) : bool :=
  implb (nibble_valid b)
    match unpack_nibble (high_nibble b), unpack_nibble (low_nibble b) with
    | Ok h, Ok l => (h =? default 0 (get NIBBLE_LOOKUP (Z.land (Z.shiftr b 4) 15)))
                    && (l =? default 0 (get NIBBLE_LOOKUP (Z.land b 15)))
    | _, _ => false
    end.

Lemma nibble_lanes b : is_byte b -> nibble_valid b = true ->
  unpack_nibble (high_nibble b) = Ok (default 0 (get NIBBLE_LOOKUP (Z.land (Z.shiftr b 4) 15)))
  /\ unpack_nibble (low_nibble b) = Ok (default 0 (get NIBBLE_LOOKUP (Z.land b 15))).
Proof.
  intros Hb Hv. pose proof (byte_check nibble_lanes_ok eq_refl b Hb) as H.
  unfold nibble_lanes_ok in H. rewrite Hv in H. cbn [implb] in H.
  destruct (unpack_nibble (high_nibble b)); try done.
  destruct (unpack_nibble (low_nibble b)); try done.
  apply andb_true_iff in H as [->%Z.eqb_eq ->%Z.eqb_eq]. done.
Qed.

Lemma check_chunk_ref c : check_chunk c = (fun _ => tt) <$> unpack_ref unpack_nibble c.
Proof.
  induction c as [|b c IH]; cbn [check_chunk unpack_ref]; [done|].
  destruct (unpack_nibble (high_nibble b)); [|done..]. cbn.
  destruct (unpack_nibble (low_nibble b)); [|done..]. cbn. rewrite IH.
  by destruct (unpack_ref unpack_nibble c).
Qed.

(** Chunk by chunk: when every chunk is unpacked as the reference does, so is
    the whole. *)
Lemma chunks_unpacks unpack (loop : list (list Z) -> packed_out -> outcome BinaryError packed_out)
    (step : list Z -> packed_out -> outcome BinaryError packed_out) chunks rest o :
  (forall o, loop [] o = Ok o) ->
  (forall c cs o, loop (c :: cs) o = o' ← step c o; loop cs o') ->
  (forall c o, length c = 16%nat -> are_bytes c -> room (zlen c) o ->
     step c o = unpacks unpack c o) ->
  Forall (fun c => length c = 16%nat) chunks -> are_bytes (concat chunks ++ rest) ->
  room (zlen (concat chunks ++ rest)) o ->
  (o' ← loop chunks o; unpack_loop unpack rest o')
  = unpacks unpack (concat chunks ++ rest) o.
Proof.
  intros Hnil Hcons Hstep Hall. revert o.
  induction Hall as [|c chunks Hc Hall IH]; intros o Hb Hr.
  - rewrite Hnil. cbn [concat app mbind outcome_bind]. by apply unpack_loop_unpacks.
  - cbn [concat] in *. rewrite <- app_assoc in *. unfold are_bytes in Hb.
    apply Forall_app in Hb as [Hb1 Hb2]. pose proof (zlen_nonneg (concat chunks ++ rest)).
    rewrite Hcons, Hstep, unpacks_app by
      (try done; try (by rewrite <- zlen_app); unfold room in *; rewrite zlen_app in Hr; lia).
    destruct (unpacks unpack c o) as [o'| | |] eqn:E; [|done..].
    cbn [mbind outcome_bind]. apply IH; [done|].
    eapply (unpacks_room unpack c o o'); [by rewrite <- zlen_app|lia|done].
Qed.

Lemma decode_packed_hex_unpacks packed o :
  are_bytes packed -> room (zlen packed) o ->
  decode_packed_hex packed o = unpacks unpack_hex packed o.
Proof.
  intros Hb Hr. unfold decode_packed_hex.
  pose proof (as_chunks_spec 16 packed ltac:(lia)) as Hch.
  destruct (as_chunks 16 packed) as [chunks rest]. destruct Hch as (-> & Hall & _).
  apply (chunks_unpacks unpack_hex hex_chunks (simd_unpack_chunk HEX_LOOKUP)); try done.
  intros c o' Hc Hcb Hro. apply simd_unpack_unpacks; [done..|].
  eapply Forall_impl; [exact Hcb|]. apply hex_lanes.
Qed.

Lemma decode_packed_nibble_unpacks packed o :
  are_bytes packed -> room (zlen packed) o ->
  decode_packed_nibble packed o = unpacks unpack_nibble packed o.
Proof.
  intros Hb Hr. unfold decode_packed_nibble.
  pose proof (as_chunks_spec 16 packed ltac:(lia)) as Hch.
  destruct (as_chunks 16 packed) as [chunks rest]. destruct Hch as (-> & Hall & _).
  apply (chunks_unpacks unpack_nibble nibble_chunks
    (fun c o => if negb (nibbles_valid c)
                then _ ← check_chunk c; unpack_loop unpack_nibble c o
                else simd_unpack_chunk NIBBLE_LOOKUP c o)); try done.
  intros c o' Hc Hcb Hro. destruct (nibbles_valid c) eqn:Hv; cbn [negb].
  - apply simd_unpack_unpacks; [done..|]. apply Forall_forall. intros b Hin.
    unfold are_bytes in Hcb. rewrite Forall_forall in Hcb. unfold nibbles_valid in Hv. rewrite forallb_forall in Hv.
    apply nibble_lanes; [by apply Hcb|]. by apply Hv, list_elem_of_In.
  - rewrite check_chunk_ref, unpack_loop_unpacks by done. unfold unpacks.
    by destruct (unpack_ref unpack_nibble c).
Qed.

(** ** Unpacking what was packed *)

(** The character that the padding of an odd string decodes to. *)
Definition padding (pad : byte) (s : bytes) : bytes := if zlen s mod 2 =? 0 then [] else [pad].

Lemma unpack_pairs f unpack pad s :
  Forall (fun b => 0 <= f b < 16 /\ unpack (f b) = Ok b) s ->
  0 <= f 0 < 16 -> unpack (f 0) = Ok pad ->
  unpack_ref unpack (pairs f s) = Ok (s ++ padding pad s).
Proof.
  intros Hs H0 Hpad. remember (length s) as n eqn:Hn.
  assert (Hle : (length s <= n)%nat) by lia. clear Hn. revert s Hs Hle.
  induction n as [n IH] using lt_wf_ind. intros [|a [|b s]] Hs Hle; cbn [pairs unpack_ref].
  - done.
  - inv Hs. destruct (join_spec (f a) (f 0)) as (-> & -> & _); [naive_solver..|].
    match goal with H : _ /\ unpack _ = _ |- _ => destruct H as [_ ->] end.
    by rewrite Hpad.
  - inv Hs. match goal with H : Forall _ (b :: s) |- _ => inv H end.
    destruct (join_spec (f a) (f b)) as (-> & -> & _); [naive_solver..|].
    repeat match goal with H : _ /\ unpack _ = _ |- _ => destruct H as [_ ->] end.
    cbn [mbind outcome_bind]. cbn in Hle.
    rewrite (IH (n - 1)%nat) by (done || lia). cbn. do 2 f_equal.
    unfold padding. autorewrite with zlen.
    replace (1 + (1 + zlen s)) with (zlen s + 1 * 2) by lia. by rewrite Z.mod_add.
Qed.

Lemma pairs_zlen f s : zlen (pairs f s) = (zlen s + 1) / 2.
Proof.
  remember (length s) as n eqn:Hn. assert (Hle : (length s <= n)%nat) by lia.
  clear Hn. revert s Hle. induction n as [n IH] using lt_wf_ind.
  intros [|a [|b s]] Hle; [done..|]. cbn [pairs]. autorewrite with zlen.
  cbn in Hle. rewrite (IH (n - 1)%nat) by lia.
  replace (1 + (1 + zlen s) + 1) with (zlen s + 1 + 1 * 2) by lia.
  rewrite Z.div_add by lia. lia.
Qed.

Lemma pairs_bytes f s :
  Forall (fun b => 0 <= f b < 16) s -> 0 <= f 0 < 16 -> are_bytes (pairs f s).
Proof.
  intros Hs H0. remember (length s) as n eqn:Hn.
  assert (Hle : (length s <= n)%nat) by lia. clear Hn. revert s Hs Hle.
  induction n as [n IH] using lt_wf_ind. intros [|a [|b s]] Hs Hle; cbn [pairs].
  - constructor.
  - inv Hs. repeat constructor; by apply join_spec.
  - inv Hs. match goal with H : Forall _ (b :: s) |- _ => inv H end. constructor.
    + by apply join_spec.
    + cbn in Hle. apply (IH (n - 1)%nat); [lia|done|lia].
Qed.

Lemma nibble_vals s :
  forallb is_nibble_char s = true ->
  Forall (fun b => 0 <= nibble_val b < 16 /\ unpack_nibble (nibble_val b) = Ok b) s.
Proof.
  intros Hs. apply Forall_forall. intros b Hb. rewrite forallb_forall in Hs.
  destruct (nibble_char_spec b) as (v & _ & -> & _ & Hv & Hu); [|done].
  by apply Hs, list_elem_of_In.
Qed.
Lemma hex_vals s :
  forallb is_hex_char s = true ->
  Forall (fun b => 0 <= hex_val b < 16 /\ unpack_hex (hex_val b) = Ok b) s.
Proof.
  intros Hs. apply Forall_forall. intros b Hb. rewrite forallb_forall in Hs.
  destruct (hex_char_spec b) as (v & _ & -> & _ & Hv & Hu); [|done].
  by apply Hs, list_elem_of_In.
Qed.

Lemma unpack_pack_nibble s :
  forallb is_nibble_char s = true ->
  unpack_ref unpack_nibble (pairs nibble_val s) = Ok (s ++ padding 0 s).
Proof. intros Hs. apply unpack_pairs; [by apply nibble_vals|by cbn|done]. Qed.
Lemma unpack_pack_hex s :
  forallb is_hex_char s = true ->
  unpack_ref unpack_hex (pairs hex_val s) = Ok (s ++ padding (chr "F") s).
Proof. intros Hs. apply unpack_pairs; [by apply hex_vals|by cbn|done]. Qed.

(** ** Properties of packing *)

(** The SIMD packing is the scalar one: [write_packed_bytes] on a valid
    string writes the tag, the length byte and the characters joined in pairs,
    to any writer. *)
Lemma write_packed_scalar {W : Type} {BW : ByteWriter W} {L : ByteWriterLaws W}
    (value : bytes) (nibble : bool) (w : W) :
  (if nibble then validate_nibble value else validate_hex value) = true ->
  writer_ok w ->
  write_packed_bytes value (if nibble then NIBBLE_8 else HEX_8) w
  = write_bytes w ((if nibble then NIBBLE_8 else HEX_8) :: packed_len_byte (zlen value)
                   :: pairs (if nibble then nibble_val else hex_val) value).
Proof.
  intros Hv Hw. apply (emits_packed value _ (if nibble then is_nibble_char else is_hex_char));
    [| |by destruct nibble|done]; destruct nibble;
    unfold validate_nibble, validate_hex in Hv; case_match; done || lia.
Qed.

Lemma write_packed_scalar_witness :
  write_packed_bytes (str "-.0123456789012345678") NIBBLE_8 ([] : bytes)
  = write_bytes ([] : bytes)
      (NIBBLE_8 :: packed_len_byte (zlen (str "-.0123456789012345678"))
       :: pairs nibble_val (str "-.0123456789012345678")).
Proof.
  apply (write_packed_scalar (W := bytes) (str "-.0123456789012345678") true []).
  - vm_compute. reflexivity.
  - exact I.
Defined.

(** The SIMD unpacking is the scalar one: on any bytes that fit the output
    buffer, the buffered hexadecimal and nibble loops return exactly what the
    byte-by-byte reference returns, the first invalid nibble included. *)
Lemma decode_packed_scalar (packed out : bytes) (pos : Z) :
  are_bytes packed -> 0 <= pos -> pos + 2 * zlen packed <= zlen out ->
  decode_packed_hex packed (out, pos)
  = (bs ← unpack_ref unpack_hex packed; Ok (copy_at pos bs out, pos + zlen bs))
  /\ decode_packed_nibble packed (out, pos)
  = (bs ← unpack_ref unpack_nibble packed; Ok (copy_at pos bs out, pos + zlen bs)).
Proof.
  intros Hb Hp Hfit. split.
  - by apply decode_packed_hex_unpacks.
  - by apply decode_packed_nibble_unpacks.
Qed.

Lemma decode_packed_scalar_witness :
  decode_packed_hex [171; 205] (replicate 254 0, 0)
  = (bs ← unpack_ref unpack_hex [171; 205]; Ok (copy_at 0 bs (replicate 254 0), 0 + zlen bs))
  /\ decode_packed_nibble [171; 205] (replicate 254 0, 0)
  = (bs ← unpack_ref unpack_nibble [171; 205];
     Ok (copy_at 0 bs (replicate 254 0), 0 + zlen bs)).
Proof.
  apply decode_packed_scalar; [|lia|vm_compute; discriminate].
  apply (bool_decide_unpack _). vm_compute. exact I.
Defined.
