(* ===== verification/Decoder.v ===== *)
(** * The binary decoder

    [wacore/binary/src/decoder.rs].  A decoder is the input and a position.
    The two recursions of the code (a string may be a JID whose parts are
    strings; a node has child nodes) are bounded by fuel.  Each reader that
    recurses takes the recursive reader as an argument, named as in the code;
    [read_value_as_string] and [read_node_ref] tie the knots. *)

From stdpp Require Import prelude strings.
From S2P Require Import Prelude Jid Token Node Writer Packed.

#[local] Open Scope Z_scope.

Record Decoder : Type := mkDecoder { d_data : bytes; d_position : Z }.

(** A reader consumes input or fails. *)
Definition reader (A : Type) : Type := Decoder -> outcome BinaryError (A * Decoder).

#[global] Instance reader_ret : MRet reader := fun A a d => Ok (a, d).
#[global] Instance reader_bind : MBind reader := fun A B f m d =>
  match m d with
  | Ok (a, d') => f a d'
  | Err e => Err e
  | Panic => Panic
  | Timeout => Timeout
  end.
#[global] Instance reader_fmap : FMap reader := fun A B f m d =>
  match m d with
  | Ok (a, d') => Ok (f a, d')
  | Err e => Err e
  | Panic => Panic
  | Timeout => Timeout
  end.

(** A computation that does not read. *)
Definition lift {A} (o : outcome BinaryError A) : reader A := fun d =>
  match o with Ok a => Ok (a, d) | Err e => Err e | Panic => Panic | Timeout => Timeout end.

Definition decoder_new (data : bytes) : Decoder := mkDecoder data 0.
Definition is_finished (d : Decoder) : bool := zlen (d_data d) <=? d_position d.
Definition bytes_left (d : Decoder) : Z := zlen (d_data d) - d_position d.

Definition check_eos (len : Z) : reader unit := fun d =>
  if len <=? bytes_left d then Ok (tt, d) else Err UnexpectedEof.

(** [self.data[i]], a panic out of range. *)
Definition index (i : Z) (d : Decoder) : outcome BinaryError byte :=
  match get (d_data d) i with Some b => Ok b | None => Panic end.

Definition advance (n : Z) : reader unit := fun d =>
  Ok (tt, mkDecoder (d_data d) (d_position d + n)).

(** The [n] bytes at the position, as the fixed-size reads index them. *)
Fixpoint index_many (n : nat) (i : Z) (d : Decoder) : outcome BinaryError bytes :=
  match n with
  | O => Ok []
  | S n' => b ← index i d; bs ← index_many n' (i + 1) d; Ok (b :: bs)
  end.

Definition take_fixed (n : nat) : reader bytes :=
  _ ← check_eos (Z.of_nat n);
  bs ← (fun d => lift (index_many n (d_position d) d) d);
  _ ← advance (Z.of_nat n);
  mret bs.

Definition read_u8 : reader Z :=
  bs ← take_fixed 1; mret (default 0 (head bs)).
Definition read_u16_be : reader Z :=
  bs ← take_fixed 2; mret (from_be_bytes bs).
Definition read_u20_be : reader Z :=
  bs ← take_fixed 3;
  match bs with
  | [b0; b1; b2] =>
      mret (Z.lor (Z.lor (Z.shiftl (Z.land b0 15) 16) (Z.shiftl b1 8)) b2)
  | _ => lift Panic
  end.
Definition read_u32_be : reader Z :=
  bs ← take_fixed 4; mret (from_be_bytes bs).

Definition read_bytes (len : Z) : reader bytes := fun d =>
  match check_eos len d with
  | Ok (_, d) =>
      let start := d_position d in
      let e := start + len in
      if (start <=? e) && (e <=? zlen (d_data d))
      then Ok (slice start e (d_data d), mkDecoder (d_data d) e)
      else Panic
  | Err e => Err e
  | Panic => Panic
  | Timeout => Timeout
  end.

Definition read_string (len : Z) : reader bytes :=
  bs ← read_bytes len;
  lift (if utf8_valid bs then Ok bs else Err InvalidUtf8).

Definition read_list_size (tag : Z) : reader Z :=
  if tag =? LIST_EMPTY then mret 0
  else if tag =? LIST_8 then read_u8
  else if tag =? LIST_16 then read_u16_be
  else lift (Err (InvalidToken tag)).

(** [read_packed]: into a buffer of 254 bytes, twice the largest packed length. *)
Definition read_packed (tag : Z) : reader bytes :=
  packed_len_byte ← read_u8;
  let is_half_byte := negb (Z.land packed_len_byte 128 =? 0) in
  let len := Z.land packed_len_byte 127 in
  if len =? 0 then mret []
  else
    packed_data ← read_bytes len;
    '(buf, pos) ← lift
      (if tag =? HEX_8 then decode_packed_hex packed_data (replicate 254 0, 0)
       else if tag =? NIBBLE_8 then decode_packed_nibble packed_data (replicate 254 0, 0)
       else Err (InvalidToken tag));
    let pos := if is_half_byte && (0 <? pos) then pos - 1 else pos in
    if (0 <=? pos) && (pos <=? zlen buf) && utf8_valid (upto pos buf)
    then mret (upto pos buf) else lift Panic.

Section Values.
Context {TM : TokenMaps}.

(** ** JIDs, given the reader of strings *)

Section WithStrings.
Context (read_value_as_string : reader (option bytes)).

Definition read_jid_pair : reader Jid :=
  user ← read_value_as_string;
  server_str ← read_value_as_string;
  let server_str := default [] server_str in
  server ← lift (map_err (fun _ => AttrParse (str "JID_PAIR unknown server: " ++ server_str))
                   (server_try_from server_str));
  mret (mkJid (default [] user) server 0 0 0).

(** The AD domain types; any other byte is rejected. *)
Definition domain_to_server (agent : Z) : outcome BinaryError Server :=
  if agent =? 0 then Ok Pn
  else if agent =? 1 then Ok Lid
  else if agent =? 128 then Ok Hosted
  else if agent =? 129 then Ok HostedLid
  else if negb (Z.land agent 128 =? 0) && (Z.land agent 1 =? 0) then Ok Hosted
  else Err (AttrParse (str "read_ad_jid - Invalid domain type encoding " ++ itoa agent)).

Definition read_ad_jid : reader Jid :=
  agent ← read_u8;
  device ← read_u8;
  user ← read_value_as_string;
  user ← lift (ok_or user InvalidNode);
  server ← lift (domain_to_server agent);
  mret (mkJid user server agent device 0).

Definition read_interop_jid : reader Jid :=
  user ← read_value_as_string;
  user ← lift (ok_or user InvalidNode);
  device ← read_u16_be;
  integrator ← read_u16_be;
  server_str ← read_value_as_string;
  if bytes_eqb (default [] server_str) INTEROP_SERVER
  then mret (mkJid user Interop 0 device integrator)
  else lift (Err InvalidNode).

Definition read_fb_jid : reader Jid :=
  user ← read_value_as_string;
  user ← lift (ok_or user InvalidNode);
  device ← read_u16_be;
  server_str ← read_value_as_string;
  if bytes_eqb (default [] server_str) MESSENGER_SERVER
  then mret (mkJid user Messenger 0 device 0)
  else lift (Err InvalidNode).

(** [jid_ref_to_compact] *)
Definition jid_ref_to_compact (j : Jid) : bytes :=
  push_jid (j_user j) (j_server j) (j_agent j) (j_device j) [].

Definition read_dictionary (tag : Z) : reader bytes :=
  i ← read_u8;
  lift (ok_or (get_double_token (tag - DICTIONARY_0) i) (InvalidToken tag)).

Definition read_single (tag : Z) : reader bytes :=
  lift (ok_or (get_single_token tag) (InvalidToken tag)).

Definition read_value_as_string_from_tag (tag : Z) : reader (option bytes) :=
  if tag =? LIST_EMPTY then mret None
  else if tag =? BINARY_8 then size ← read_u8; s ← read_string size; mret (Some s)
  else if tag =? BINARY_20 then size ← read_u20_be; s ← read_string size; mret (Some s)
  else if tag =? BINARY_32 then size ← read_u32_be; s ← read_string size; mret (Some s)
  else if tag =? JID_PAIR then j ← read_jid_pair; mret (Some (jid_ref_to_compact j))
  else if tag =? AD_JID then j ← read_ad_jid; mret (Some (jid_ref_to_compact j))
  else if tag =? INTEROP_JID then j ← read_interop_jid; mret (Some (jid_ref_to_compact j))
  else if tag =? FB_JID then j ← read_fb_jid; mret (Some (jid_ref_to_compact j))
  else if (tag =? NIBBLE_8) || (tag =? HEX_8) then s ← read_packed tag; mret (Some s)
  else if (DICTIONARY_0 <=? tag) && (tag <=? DICTIONARY_3)
  then s ← read_dictionary tag; mret (Some s)
  else s ← read_single tag; mret (Some s).
End WithStrings.

(** [read_value_as_string]: one byte of tag per level of nesting. *)
Fixpoint read_value_as_string (fuel : nat) : reader (option bytes) :=
  match fuel with
  | O => lift Timeout
  | S fuel' =>
      tag ← read_u8;
      read_value_as_string_from_tag (read_value_as_string fuel') tag
  end.

(** ** Attribute values: JIDs stay structured *)

(** [read_value], after its tag. *)
Definition read_value_from_tag (fuel : nat) (tag : Z) : reader (option ValueRef) :=
  if tag =? LIST_EMPTY then mret None
  else if tag =? BINARY_8 then size ← read_u8; s ← read_string size; mret (Some (VRString s))
  else if tag =? BINARY_20 then size ← read_u20_be; s ← read_string size; mret (Some (VRString s))
  else if tag =? BINARY_32 then size ← read_u32_be; s ← read_string size; mret (Some (VRString s))
  else if tag =? JID_PAIR then
    j ← read_jid_pair (read_value_as_string fuel); mret (Some (VRJid j))
  else if tag =? AD_JID then
    j ← read_ad_jid (read_value_as_string fuel); mret (Some (VRJid j))
  else if tag =? INTEROP_JID then
    j ← read_interop_jid (read_value_as_string fuel); mret (Some (VRJid j))
  else if tag =? FB_JID then
    j ← read_fb_jid (read_value_as_string fuel); mret (Some (VRJid j))
  else if (tag =? NIBBLE_8) || (tag =? HEX_8) then
    s ← read_packed tag; mret (Some (VRString s))
  else if (DICTIONARY_0 <=? tag) && (tag <=? DICTIONARY_3)
  then s ← read_dictionary tag; mret (Some (VRString s))
  else s ← read_single tag; mret (Some (VRString s)).
Definition read_value (fuel : nat) : reader (option ValueRef) :=
  tag ← read_u8; read_value_from_tag fuel tag.

Fixpoint read_attributes_loop (fuel : nat) (size : nat) (v : list (bytes * ValueRef))
    : reader (list (bytes * ValueRef)) :=
  match size with
  | O => mret v
  | S size' =>
      key ← read_value_as_string fuel;
      key ← lift (ok_or key NonStringKey);
      value ← read_value fuel;
      read_attributes_loop fuel size' (v ++ [(key, default (VRString []) value)])
  end.

Definition read_attributes (fuel : nat) (size : Z) : reader AttrsRef :=
  if size =? 0 then mret AEmpty
  else v ← read_attributes_loop fuel (Z.to_nat size) []; mret (attrs_ref_from_vec v).

(** ** Nodes, given the reader of child nodes *)

Section WithNodes.
Context (fuel : nat) (read_node_ref : reader NodeRef).

Fixpoint read_nodes (size : nat) (nodes : list NodeRef) : reader (list NodeRef) :=
  match size with
  | O => mret nodes
  | S size' => n ← read_node_ref; read_nodes size' (nodes ++ [n])
  end.

Definition read_content_from_tag (tag : Z) : reader (option NodeContentRef) :=
  if tag =? LIST_EMPTY then mret None
  else if (tag =? LIST_8) || (tag =? LIST_16) then
    size ← read_list_size tag;
    nodes ← read_nodes (Z.to_nat size) [];
    mret (Some (NRNodes nodes))
  else if tag =? BINARY_8 then len ← read_u8; b ← read_bytes len; mret (Some (NRBytes b))
  else if tag =? BINARY_20 then len ← read_u20_be; b ← read_bytes len; mret (Some (NRBytes b))
  else if tag =? BINARY_32 then len ← read_u32_be; b ← read_bytes len; mret (Some (NRBytes b))
  else
    s ← read_value_as_string_from_tag (read_value_as_string fuel) tag;
    mret (match s with Some s => Some (NRString s) | None => None end).

Definition read_content : reader (option NodeContentRef) :=
  tag ← read_u8; read_content_from_tag tag.

Definition read_node_body : reader NodeRef :=
  tag ← read_u8;
  list_size ← read_list_size tag;
  if list_size =? 0 then lift (Err InvalidNode)
  else
    tag ← read_value_as_string fuel;
    tag ← lift (ok_or tag InvalidNode);
    let attr_count := (list_size - 1) / 2 in
    let has_content := list_size mod 2 =? 0 in
    attrs ← read_attributes fuel attr_count;
    content ← (if has_content then read_content else mret None);
    mret (mkNodeRef tag attrs content).
End WithNodes.

Fixpoint read_node_ref (fuel : nat) : reader NodeRef :=
  match fuel with
  | O => lift Timeout
  | S fuel' => read_node_body fuel (read_node_ref fuel')
  end.

(** ** [marshal::unmarshal_ref]

    The fuel is the length of the input plus one: every level of nesting
    reads at least one byte. *)
Definition unmarshal_ref (data : bytes) : outcome BinaryError NodeRef :=
  match read_node_ref (S (length data)) (decoder_new data) with
  | Ok (node, d) => if is_finished d then Ok node else Err (LeftoverData (bytes_left d))
  | Err e => Err e
  | Panic => Panic
  | Timeout => Timeout
  end.
End Values.

(** ** Safety and termination

    [runs n k m P]: from a well-formed decoder with at most [n] bytes left, the
    reader [m] does not panic and does not run out of fuel; it returns an error,
    or it consumes at least [k] bytes and its value satisfies [P]. *)

Definition decoder_ok (d : Decoder) : Prop :=
  are_bytes (d_data d) /\ 0 <= d_position d <= zlen (d_data d).

Definition runs {A} (n k : Z) (m : reader A) (P : A -> Prop) : Prop :=
  forall d, decoder_ok d -> bytes_left d <= n ->
  match m d with
  | Ok (a, d') =>
      d_data d' = d_data d /\ d_position d + k <= d_position d' <= zlen (d_data d) /\ P a
  | Err _ => True
  | Panic | Timeout => False
  end.

Create HintDb runs discriminated.

Lemma runs_ret {A} n (a : A) (P : A -> Prop) : P a -> runs n 0 (mret a) P.
Proof. intros HP d [_ Hd] _. cbn. split_and!; (done || lia). Qed.

Lemma runs_lift {A} n (o : outcome BinaryError A) (P : A -> Prop) :
  returns o -> (forall a, o = Ok a -> P a) -> runs n 0 (lift o) P.
Proof. intros Ho HP d [_ Hd] _. unfold lift. destruct o; try done. split_and!; [done|lia..|by apply HP]. Qed.

Lemma runs_ok_or {A} n (o : option A) e (P : A -> Prop) :
  (forall a, o = Some a -> P a) -> runs n 0 (lift (ok_or o e)) P.
Proof. intros HP. apply runs_lift; [by destruct o|]. destruct o; naive_solver. Qed.

Lemma runs_bind {A B} n k1 k2 (m : reader A) (f : A -> reader B) P Q :
  runs n k1 m P -> 0 <= k1 -> 0 <= k2 -> (forall a, P a -> runs (n - k1) k2 (f a) Q) ->
  runs n (k1 + k2) (m ≫= f) Q.
Proof.
  intros Hm Hk1 Hk Hf d Hd Hn. specialize (Hm d Hd Hn). unfold mbind, reader_bind.
  destruct (m d) as [[a d']| | |]; try done. destruct Hm as (Hdata & Hpos & Ha).
  specialize (Hf a Ha d'). destruct Hd as [Hb Hp]. unfold decoder_ok, bytes_left in *.
  rewrite Hdata in Hf. specialize (Hf ltac:(split; [done|lia]) ltac:(lia)).
  destruct (f a d') as [[b d'']| | |]; try done.
  destruct Hf as (Hdata' & Hpos' & Hb').
  split_and!; [done|lia|lia|done].
Qed.

Lemma runs_weaken {A} n n' k k' (m : reader A) (P Q : A -> Prop) :
  runs n k m P -> n' <= n -> k' <= k -> (forall a, P a -> Q a) -> runs n' k' m Q.
Proof.
  intros Hm Hn Hk HP d Hd Hd'. specialize (Hm d Hd ltac:(lia)).
  destruct (m d) as [[a d']| | |]; try done. destruct Hm as (? & ? & ?).
  split_and!; [done|lia..|by apply HP].
Qed.

(** A reader that consumes nothing further. *)
Lemma runs_bind0 {A B} n k (m : reader A) (f : A -> reader B) P Q :
  0 <= k -> runs n k m P -> (forall a, P a -> runs (n - k) 0 (f a) Q) ->
  runs n k (m ≫= f) Q.
Proof.
  intros Hk Hm Hf. replace k with (k + 0) by lia. eapply runs_bind; [done|lia..|done].
Qed.

Lemma runs_check_eos n len : 0 <= len ->
  runs n 0 (check_eos len) (fun _ => True).
Proof.
  intros Hl d [_ Hd] _. unfold check_eos. destruct (len <=? bytes_left d); [|done]. split_and!; (done || lia).
Qed.

(** Bytes in range are read without a panic. *)
Lemma index_many_spec n i d :
  are_bytes (d_data d) -> 0 <= i -> i + Z.of_nat n <= zlen (d_data d) ->
  exists bs, index_many n i d = Ok bs /\ are_bytes bs /\ length bs = n.
Proof.
  intros Hb. revert i. induction n as [|n IH]; intros i Hi Hn; cbn [index_many].
  - exists []. split_and!; [done|constructor|done].
  - unfold index, get. destruct (Z.ltb_spec i 0); [lia|].
    destruct (lookup_lt_is_Some_2 (d_data d) (Z.to_nat i)) as [b Hlk];
      [unfold zlen in Hn; lia|]. rewrite Hlk. cbn [mbind outcome_bind].
    destruct (IH (i + 1)) as (bs & -> & Hbs & Hlen); [lia..|]. cbn.
    exists (b :: bs). split; [done|]. split; [|by cbn; rewrite Hlen].
    constructor; [|done]. exact (Forall_lookup_1 _ _ _ _ Hb Hlk).
Qed.

Lemma runs_take_fixed n k :
  runs n (Z.of_nat k) (take_fixed k) (fun bs => are_bytes bs /\ length bs = k).
Proof.
  intros d [Hb Hd] _. unfold take_fixed, mbind, reader_bind, check_eos, bytes_left.
  destruct (Z.leb_spec (Z.of_nat k) (zlen (d_data d) - d_position d)); [|done].
  destruct (index_many_spec k (d_position d) d) as (bs & -> & Hbs & Hlen); [done|lia..|].
  cbn. split_and!; (done || lia).
Qed.

Lemma from_be_acc_range acc l :
  0 <= acc -> are_bytes l -> 0 <= from_be_acc acc l.
Proof.
  intros Ha Hl. revert acc Ha. induction Hl as [|b l Hb Hl IH]; intros acc Ha; cbn; [done|].
  apply IH. unfold is_byte in Hb. lia.
Qed.

Lemma runs_u8 n : runs n 1 read_u8 is_byte.
Proof.
  apply (runs_bind0 n 1 _ _ _ _ ltac:(lia) (runs_take_fixed n 1)). intros bs [Hb Hlen].
  apply runs_ret. destruct bs as [|b []]; try done. by inv Hb.
Qed.
Lemma runs_u16 n : runs n 2 read_u16_be (fun z => 0 <= z).
Proof.
  apply (runs_bind0 n 2 _ _ _ _ ltac:(lia) (runs_take_fixed n 2)). intros bs [Hb Hlen].
  apply runs_ret. by apply from_be_acc_range.
Qed.
Lemma runs_u32 n : runs n 4 read_u32_be (fun z => 0 <= z).
Proof.
  apply (runs_bind0 n 4 _ _ _ _ ltac:(lia) (runs_take_fixed n 4)). intros bs [Hb Hlen].
  apply runs_ret. by apply from_be_acc_range.
Qed.
Lemma runs_u20 n : runs n 3 read_u20_be (fun z => 0 <= z).
Proof.
  apply (runs_bind0 n 3 _ _ _ _ ltac:(lia) (runs_take_fixed n 3)). intros bs [Hb Hlen].
  destruct bs as [|b0 [|b1 [|b2 []]]]; try done. apply runs_ret.
  unfold are_bytes, is_byte in Hb. rewrite !Forall_cons in Hb.
  rewrite !Z.lor_nonneg, !Z.shiftl_nonneg, Z.land_nonneg. lia.
Qed.

Lemma slice_bytes a b s : are_bytes s -> are_bytes (slice a b s).
Proof. intros Hs. unfold slice, from, upto. by apply Forall_drop, Forall_take. Qed.

Lemma slice_zlen a b s : 0 <= a -> a <= b -> b <= zlen s -> zlen (slice a b s) = b - a.
Proof.
  intros. unfold slice, from, upto, zlen in *. rewrite length_drop, length_take. lia.
Qed.

Lemma runs_bytes n len : 0 <= len ->
  runs n len (read_bytes len) (fun bs => are_bytes bs /\ zlen bs = len).
Proof.
  intros Hl d [Hb Hd] _. unfold read_bytes, check_eos, bytes_left.
  destruct (Z.leb_spec len (zlen (d_data d) - d_position d)); [|done].
  destruct (Z.leb_spec (d_position d) (d_position d + len)); [|lia].
  destruct (Z.leb_spec (d_position d + len) (zlen (d_data d))); [|lia]. cbn.
  split_and!; [done|lia..| |].
  - by apply slice_bytes.
  - rewrite slice_zlen by lia. lia.
Qed.

Lemma runs_string n len : 0 <= len -> runs n 0 (read_string len) (fun _ => True).
Proof.
  intros Hl. eapply runs_weaken; [|reflexivity|exact Hl|intros ? HP; exact HP].
  eapply runs_bind0; [done|by apply runs_bytes|]. intros bs _.
  apply runs_lift; [by case_match|done].
Qed.

Lemma runs_list_size n tag : runs n 0 (read_list_size tag) (fun z => 0 <= z).
Proof.
  unfold read_list_size. repeat case_match.
  - by apply runs_ret.
  - eapply runs_weaken; [apply (runs_u8 n)|lia..|]. unfold is_byte. lia.
  - eapply runs_weaken; [apply (runs_u16 n)|lia..|done].
  - by apply runs_lift.
Qed.

(** ** Packed strings decode to ASCII *)

Lemma unpack_ref_ascii unpack packed bs :
  (forall v c, unpack v = Ok c -> is_ascii c = true) ->
  unpack_ref unpack packed = Ok bs -> Forall (fun b => is_ascii b = true) bs.
Proof.
  intros Hu. revert bs. induction packed as [|b l IH]; cbn [unpack_ref]; intros bs H; inv_ok.
  - constructor.
  - do 2 (constructor; [by eapply Hu|]); by apply IH.
Qed.

Lemma unpack_nibble_ascii v c : unpack_nibble v = Ok c -> is_ascii c = true.
Proof.
  unfold unpack_nibble, is_ascii. repeat case_match; intros [= <-]; try done.
  change (chr "0") with 48. lia.
Qed.
Lemma unpack_hex_ascii v c : unpack_hex v = Ok c -> is_ascii c = true.
Proof.
  unfold unpack_hex, is_ascii. repeat case_match; intros [= <-]; try done;
    change (chr "0") with 48; change (chr "A") with 65; lia.
Qed.

Lemma unpack_nibble_returns v : returns (unpack_nibble v).
Proof. unfold unpack_nibble. by repeat case_match. Qed.
Lemma unpack_hex_nibbles b : is_byte b ->
  returns (unpack_hex (high_nibble b)) /\ returns (unpack_hex (low_nibble b)).
Proof. intros Hb. by destruct (hex_lanes b Hb) as [-> ->]. Qed.

Lemma unpack_ref_returns unpack packed :
  Forall (fun b => returns (unpack (high_nibble b)) /\ returns (unpack (low_nibble b))) packed ->
  returns (unpack_ref unpack packed).
Proof.
  induction 1 as [|b l [Hh Hl] Hall IH]; cbn [unpack_ref]; [done|]. by repeat (apply bind_returns; [done|intros ? _]).
Qed.

(** What [read_packed] computes from the bytes it reads. *)
Definition unpacker (tag : Z) : Z -> outcome BinaryError byte :=
  if tag =? HEX_8 then unpack_hex else unpack_nibble.

Lemma read_packed_buffer tag packed :
  tag = HEX_8 \/ tag = NIBBLE_8 -> are_bytes packed -> zlen packed <= 127 ->
  (if tag =? HEX_8 then decode_packed_hex packed (replicate 254 0, 0)
   else if tag =? NIBBLE_8 then decode_packed_nibble packed (replicate 254 0, 0)
   else Err (InvalidToken tag))
  = (bs ← unpack_ref (unpacker tag) packed; Ok (copy_at 0 bs (replicate 254 0), zlen bs))
  /\ returns (unpack_ref (unpacker tag) packed)
  /\ forall bs, unpack_ref (unpacker tag) packed = Ok bs ->
       Forall (fun b => is_ascii b = true) bs /\ zlen bs = 2 * zlen packed.
Proof.
  intros Htag Hb Hlen.
  assert (Hroom : room (zlen packed) (replicate 254 0, 0)).
  { unfold room. cbn [fst snd]. change (zlen (replicate 254 0)) with 254. lia. }
  split_and!.
  - destruct Htag as [->| ->]; cbn [unpacker]; [apply decode_packed_hex_unpacks|apply decode_packed_nibble_unpacks]; done.
  - apply unpack_ref_returns. eapply Forall_impl; [exact Hb|]. intros b Hbb.
    destruct Htag as [->| ->]; [by apply unpack_hex_nibbles|split; apply unpack_nibble_returns].
  - intros bs E. split; [|by eapply unpack_ref_zlen].
    eapply unpack_ref_ascii; [|exact E].
    destruct Htag as [->| ->]; [apply unpack_hex_ascii|apply unpack_nibble_ascii].
Qed.

Lemma upto_copy_at_0 p bs buf : 0 <= p <= zlen bs -> upto p (copy_at 0 bs buf) = upto p bs.
Proof.
  intros Hp. unfold copy_at. change (upto 0 buf) with (@nil Z). cbn [app]. unfold upto.
  rewrite take_app_le; [done|]. unfold zlen in Hp. lia.
Qed.

Lemma packed_len_range b : is_byte b -> 0 <= Z.land b 127 <= 127.
Proof.
  intros Hb. change 127 with (Z.ones 7) at 1 2. rewrite Z.land_ones by lia.
  pose proof (Z.mod_pos_bound b (2 ^ 7) ltac:(lia)). lia.
Qed.

(** The string that [read_packed] returns for the unpacked characters [bs]. *)
Lemma packed_result (half : bool) bs :
  Forall (fun b => is_ascii b = true) bs -> 0 < zlen bs <= 254 ->
  let pos := if half && (0 <? zlen bs) then zlen bs - 1 else zlen bs in
  let buf := copy_at 0 bs (replicate 254 0) in
  ((0 <=? pos) && (pos <=? zlen buf) && utf8_valid (upto pos buf)) = true
  /\ upto pos buf = upto (zlen bs - (if half then 1 else 0)) bs.
Proof.
  intros Hasc Hlen pos buf.
  assert (Hpos : pos = zlen bs - (if half then 1 else 0))
    by (unfold pos; destruct half; destruct (Z.ltb_spec 0 (zlen bs)); cbn; lia).
  assert (Hbuf : zlen buf = 254).
  { unfold buf. rewrite copy_at_zlen; change (zlen (replicate 254 0)) with 254; lia. }
  assert (Hr : 0 <= pos <= zlen bs) by (rewrite Hpos; destruct half; lia).
  assert (Hu : upto pos buf = upto pos bs) by (by apply upto_copy_at_0).
  rewrite Hu, Hbuf, <- Hpos. split; [|done].
  destruct (Z.leb_spec 0 pos); [|lia]. destruct (Z.leb_spec pos 254); [|lia]. cbn.
  apply utf8_valid_ascii. by apply Forall_take.
Qed.

Lemma runs_packed n tag : tag = HEX_8 \/ tag = NIBBLE_8 ->
  runs n 1 (read_packed tag) (fun _ => True).
Proof.
  intros Htag. unfold read_packed. eapply runs_bind0; [lia|apply runs_u8|].
  intros b Hb. cbv zeta. destruct (Z.eqb_spec (Z.land b 127) 0) as [|Hne]; [by apply runs_ret|].
  pose proof (packed_len_range b Hb) as Hlen.
  apply (runs_weaken (n - 1) _ (Z.land b 127) 0 _ (fun _ => True)); [|lia..|done].
  eapply runs_bind0; [lia|apply runs_bytes; lia|]. intros packed [Hpb Hpl]. cbv beta.
  destruct (read_packed_buffer tag packed Htag Hpb ltac:(lia)) as (-> & Hret & Hok).
  destruct (unpack_ref (unpacker tag) packed) as [bs| | |]; try done.
  cbn [mbind outcome_bind].
  destruct (Hok bs eq_refl) as [Hasc Hzl].
  destruct (packed_result (negb (Z.land b 128 =? 0)) bs) as [Hg _]; [done|lia|].
  intros d Hd Hn. unfold mbind, reader_bind, lift. cbv zeta in Hg. rewrite Hg.
  destruct Hd. cbn. split_and!; (done || lia).
Qed.

Section Safety.
Context {TM : TokenMaps}.

(** A reader of strings that may follow a tag byte. *)
Section WithStrings.
Context (rs : reader (option bytes)) (n : Z).
Hypothesis Hrs : forall k, k <= n -> runs k 1 rs (fun _ => True).

Ltac run_step :=
  first
    [ eapply runs_bind0; [lia|apply Hrs; lia|intros ? _]
    | eapply runs_bind0; [lia|apply runs_u16|intros ? ?]
    | eapply runs_bind0; [lia|apply runs_u8|intros ? ?]
    | eapply runs_bind0; [lia|apply runs_ok_or; intros ? ?; exact I|intros ? _]
    | apply runs_ret; exact I ].
Ltac run_weaken k :=
  match goal with
  | |- runs ?m 0 _ ?P => apply (runs_weaken m m k 0 _ P);
      [|lia..|intros ? HP; exact HP]
  end.
Ltac run := repeat first [progress cbv zeta | run_step | run_weaken 1; run_step | run_weaken 2; run_step].

Lemma server_try_from_returns s : returns (server_try_from s).
Proof. unfold server_try_from. repeat (case_match; [done|]). done. Qed.

Lemma domain_to_server_returns a : returns (domain_to_server a).
Proof. unfold domain_to_server. by repeat case_match. Qed.

Lemma runs_jid_pair : runs n 0 (read_jid_pair rs) (fun _ => True).
Proof.
  unfold read_jid_pair. run.
  eapply runs_bind0; [lia|apply (runs_lift _ _ (fun _ => True)); [|done]|].
  - apply map_err_returns, server_try_from_returns.
  - intros ? _. by apply runs_ret.
Qed.

Lemma runs_ad_jid : runs n 0 (read_ad_jid rs) (fun _ => True).
Proof.
  unfold read_ad_jid. run.
  eapply runs_bind0; [lia|apply (runs_lift _ _ (fun _ => True)); [apply domain_to_server_returns|done]|].
  intros ? _. by apply runs_ret.
Qed.

Lemma runs_interop_jid : runs n 0 (read_interop_jid rs) (fun _ => True).
Proof.
  unfold read_interop_jid. run. case_match; [by apply runs_ret|by apply runs_lift].
Qed.

Lemma runs_fb_jid : runs n 0 (read_fb_jid rs) (fun _ => True).
Proof.
  unfold read_fb_jid. run. case_match; [by apply runs_ret|by apply runs_lift].
Qed.
End WithStrings.

Lemma runs_weak0 {A} n k (m : reader A) : 0 <= k -> runs n k m (fun _ => True) ->
  runs n 0 m (fun _ => True).
Proof. intros Hk Hm. eapply runs_weaken; [exact Hm|lia|lia|done]. Qed.

(** The sized strings, shared by the readers of values and of content. *)
Lemma runs_sized {A B} n (size : reader Z) k (m : Z -> reader A) (f : A -> B) :
  runs n k size (fun z => 0 <= z) -> 0 <= k ->
  (forall z, 0 <= z -> runs (n - k) 0 (m z) (fun _ => True)) ->
  runs n 0 (z ← size; a ← m z; mret (f a)) (fun _ => True).
Proof.
  intros Hs Hk Hm. apply (runs_weak0 _ k); [done|]. eapply runs_bind0; [done|exact Hs|].
  intros z Hz. eapply runs_bind0; [lia|by apply Hm|]. intros a _. by apply runs_ret.
Qed.

Lemma runs_then {A B} n (m : reader A) (f : A -> B) :
  runs n 0 m (fun _ => True) -> runs n 0 (a ← m; mret (f a)) (fun _ => True).
Proof. intros Hm. eapply runs_bind0; [lia|exact Hm|]. intros a _. by apply runs_ret. Qed.

Lemma runs_u8_size n : runs n 1 read_u8 (fun z => 0 <= z).
Proof. eapply runs_weaken; [apply (runs_u8 n)|lia..|]. unfold is_byte. lia. Qed.

Lemma runs_bytes0 n len : 0 <= len -> runs n 0 (read_bytes len) (fun _ => True).
Proof.
  intros Hl. eapply runs_weaken; [by apply (runs_bytes n)|lia..|done].
Qed.

Lemma runs_dictionary n tag : runs n 0 (read_dictionary tag) (fun _ => True).
Proof.
  apply (runs_weak0 _ 1); [lia|]. eapply runs_bind0; [lia|apply runs_u8|].
  intros i _. by apply runs_ok_or.
Qed.

Lemma runs_single n tag : runs n 0 (read_single tag) (fun _ => True).
Proof. by apply runs_ok_or. Qed.

Lemma runs_packed0 n tag : (tag =? NIBBLE_8) || (tag =? HEX_8) = true ->
  runs n 0 (read_packed tag) (fun _ => True).
Proof.
  intros [H%Z.eqb_eq|H%Z.eqb_eq]%orb_true_iff; apply (runs_weak0 _ 1); try lia;
    apply runs_packed; auto.
Qed.

Ltac run_tags :=
  repeat case_match;
  first
    [ by apply runs_ret
    | eapply runs_sized;
      [first [apply runs_u8_size|apply runs_u20|apply runs_u32]|lia|intros z Hz;
       first [by apply runs_string|by apply runs_bytes0]]
    | apply runs_then;
      first [ by apply runs_jid_pair | by apply runs_ad_jid | by apply runs_interop_jid
            | by apply runs_fb_jid | by apply runs_packed0 | apply runs_dictionary
            | apply runs_single ] ].

Lemma runs_string_from_tag rs n tag :
  (forall k, k <= n -> runs k 1 rs (fun _ => True)) ->
  runs n 0 (read_value_as_string_from_tag rs tag) (fun _ => True).
Proof. intros Hrs. unfold read_value_as_string_from_tag. run_tags. Qed.

Lemma runs_value_as_string fuel n : n < Z.of_nat fuel ->
  runs n 1 (read_value_as_string fuel) (fun _ => True).
Proof.
  revert n. induction fuel as [|fuel IH]; intros n Hn; cbn [read_value_as_string].
  - intros d [_ Hd] Hl. unfold bytes_left in Hl. lia.
  - eapply runs_bind0; [lia|apply runs_u8|]. intros tag _.
    apply runs_string_from_tag. intros k Hk. apply IH. lia.
Qed.

Lemma runs_value fuel n : n < Z.of_nat fuel -> runs n 1 (read_value fuel) (fun _ => True).
Proof.
  intros Hn. unfold read_value, read_value_from_tag. eapply runs_bind0; [lia|apply runs_u8|]. intros tag _.
  assert (Hrs : forall k, k <= n - 1 -> runs k 1 (read_value_as_string fuel) (fun _ => True))
    by (intros k Hk; apply runs_value_as_string; lia).
  run_tags.
Qed.

Lemma runs_attributes_loop fuel size v n : n < Z.of_nat fuel ->
  runs n 0 (read_attributes_loop fuel size v) (fun _ => True).
Proof.
  revert v n. induction size as [|size IH]; intros v n Hn; cbn [read_attributes_loop].
  - by apply runs_ret.
  - apply (runs_weak0 _ 1); [lia|].
    eapply runs_bind0; [lia|by apply runs_value_as_string|]. intros key _.
    eapply runs_bind0; [lia|by apply (runs_ok_or _ _ _ (fun _ => True))|]. intros key' _.
    apply (runs_weak0 _ 1); [lia|].
    eapply runs_bind0; [lia|apply runs_value; lia|]. intros value _. apply IH. lia.
Qed.

Lemma runs_attributes fuel size n : n < Z.of_nat fuel ->
  runs n 0 (read_attributes fuel size) (fun _ => True).
Proof.
  intros Hn. unfold read_attributes. case_match; [by apply runs_ret|].
  apply runs_then. by apply runs_attributes_loop.
Qed.

Lemma runs_nodes (rn : reader NodeRef) size nodes n :
  (forall k, k <= n -> runs k 0 rn (fun _ => True)) ->
  runs n 0 (read_nodes rn size nodes) (fun _ => True).
Proof.
  intros Hrn. revert nodes. induction size as [|size IH]; intros nodes; cbn [read_nodes].
  - by apply runs_ret.
  - eapply runs_bind0; [lia|by apply Hrn|]. intros node _.
    eapply runs_weaken; [apply IH|lia..|done].
Qed.

Lemma runs_content fuel rn n : n < Z.of_nat fuel ->
  (forall k, k <= n - 1 -> runs k 0 rn (fun _ => True)) ->
  runs n 0 (read_content fuel rn) (fun _ => True).
Proof.
  intros Hn Hrn. apply (runs_weak0 _ 1); [lia|].
  eapply runs_bind0; [lia|apply runs_u8|]. intros tag _. unfold read_content_from_tag.
  assert (Hrs : forall k, k <= n - 1 -> runs k 1 (read_value_as_string fuel) (fun _ => True))
    by (intros k Hk; apply runs_value_as_string; lia).
  case_match; [by apply runs_ret|]. case_match.
  { eapply runs_bind0; [lia|apply runs_list_size|]. intros size _.
    apply runs_then. apply runs_nodes. intros k Hk. apply Hrn. lia. }
  do 3 (case_match; [by run_tags|]). apply runs_then. by apply runs_string_from_tag.
Qed.

Lemma runs_node_ref fuel n : n < Z.of_nat fuel ->
  runs n 0 (read_node_ref fuel) (fun _ => True).
Proof.
  revert n. induction fuel as [|fuel IH]; intros n Hn; cbn [read_node_ref].
  - intros d [_ Hd] Hl. unfold bytes_left in Hl. lia.
  - unfold read_node_body. apply (runs_weak0 _ 1); [lia|].
    eapply runs_bind0; [lia|apply runs_u8|]. intros tag _.
    eapply runs_bind0; [lia|apply runs_list_size|]. intros size _.
    case_match; [by apply runs_lift|]. apply (runs_weak0 _ 1); [lia|].
    eapply runs_bind0; [lia|apply runs_value_as_string; lia|]. intros t _.
    eapply runs_bind0; [lia|by apply (runs_ok_or _ _ _ (fun _ => True))|]. intros t' _.
    cbv zeta. eapply runs_bind0; [lia|apply runs_attributes; lia|]. intros attrs _.
    eapply runs_bind0; [lia| |intros c _; by apply runs_ret].
    case_match; [|by apply (runs_ret _ _ (fun _ => True))].
    apply runs_content; [lia|]. intros k Hk. apply IH. lia.
Qed.
End Safety.

(** C27: the decoder is total and safe: on every byte string, however malformed,
    [unmarshal_ref] returns a node or an error.  It never reads out of bounds,
    never hits one of its [expect]s, and the fuel of the model (one more than the
    length of the input) is never exhausted. *)
Theorem unmarshal_ref_total {TM : TokenMaps} (data : bytes) :
  are_bytes data -> returns (unmarshal_ref data).
Proof.
  intros Hb. unfold unmarshal_ref.
  pose proof (runs_node_ref (S (length data)) (zlen data) ltac:(unfold zlen; lia)
                (decoder_new data)) as H.
  unfold decoder_ok, bytes_left in H. cbn [d_data d_position decoder_new] in H.
  pose proof (zlen_nonneg data). specialize (H ltac:(split; [done|lia]) ltac:(lia)).
  destruct (read_node_ref (S (length data)) (decoder_new data)) as [[n d]| | |]; try done.
  by case_match.
Qed.

Lemma unmarshal_ref_total_witness :
  returns (unmarshal_ref [248; 3; 19; 252; 1; 97; 247; 200; 1; 255; 2; 18; 206]).
Proof.
  apply unmarshal_ref_total. apply (bool_decide_unpack _). vm_compute. exact I.
Defined.

(** ** Reading back what was written

    [reads m bs a]: wherever the bytes [bs] occur in the input, the reader [m]
    started there consumes exactly them and returns [a]. *)

Definition reads {A} (m : reader A) (bs : bytes) (a : A) : Prop :=
  forall pre rest,
    m (mkDecoder (pre ++ bs ++ rest) (zlen pre))
    = Ok (a, mkDecoder (pre ++ bs ++ rest) (zlen pre + zlen bs)).

Lemma reads_ret {A} (a : A) : reads (mret a) [] a.
Proof. intros pre rest. unfold mret, reader_ret. by rewrite zlen_nil, Z.add_0_r. Qed.

Lemma reads_lift {A} (o : outcome BinaryError A) a : o = Ok a -> reads (lift o) [] a.
Proof. intros -> pre rest. cbn [lift]. by rewrite zlen_nil, Z.add_0_r. Qed.

Lemma reads_bind {A B} (m : reader A) (f : A -> reader B) bs1 bs2 a b :
  reads m bs1 a -> reads (f a) bs2 b -> reads (m ≫= f) (bs1 ++ bs2) b.
Proof.
  intros Hm Hf pre rest. unfold mbind, reader_bind. rewrite <- app_assoc, Hm.
  specialize (Hf (pre ++ bs1) rest). rewrite <- app_assoc, zlen_app in Hf.
  by rewrite Hf, zlen_app, Z.add_assoc.
Qed.

(** Binding a step that reads nothing, before or after. *)
Lemma reads_bind_l {A B} (m : reader A) (f : A -> reader B) bs a b :
  reads m [] a -> reads (f a) bs b -> reads (m ≫= f) bs b.
Proof. intros Hm Hf. exact (reads_bind m f [] bs a b Hm Hf). Qed.
Lemma reads_bind_r {A B} (m : reader A) (f : A -> reader B) bs a b :
  reads m bs a -> reads (f a) [] b -> reads (m ≫= f) bs b.
Proof. intros Hm Hf. rewrite <- (app_nil_r bs). by eapply reads_bind. Qed.
Lemma reads_then {A B} (m : reader A) (f : A -> B) bs a :
  reads m bs a -> reads (x ← m; mret (f x)) bs (f a).
Proof. intros Hm. eapply reads_bind_r; [exact Hm|apply reads_ret]. Qed.

Lemma get_zlen_app (pre : bytes) b rest : get (pre ++ b :: rest) (zlen pre) = Some b.
Proof.
  unfold get. pose proof (zlen_nonneg pre). destruct (Z.ltb_spec (zlen pre) 0); [lia|].
  unfold zlen. by rewrite Nat2Z.id, list_lookup_middle.
Qed.

Lemma index_many_reads bs pre rest p :
  index_many (length bs) (zlen pre) (mkDecoder (pre ++ bs ++ rest) p) = Ok bs.
Proof.
  revert pre. induction bs as [|b bs IH]; intros pre; cbn [length index_many]; [done|].
  unfold index. cbn [d_data app]. rewrite get_zlen_app. cbn [mbind outcome_bind].
  specialize (IH (pre ++ [b])). rewrite <- app_assoc, zlen_app in IH. cbn [app] in IH.
  change (zlen [b]) with 1 in IH. by rewrite IH.
Qed.

Lemma reads_fixed bs : reads (take_fixed (length bs)) bs bs.
Proof.
  intros pre rest. unfold take_fixed, mbind, reader_bind, check_eos, bytes_left.
  cbn [d_data d_position]. autorewrite with zlen.
  pose proof (zlen_nonneg rest). destruct (Z.leb_spec (Z.of_nat (length bs))
    (zlen pre + (zlen bs + zlen rest) - zlen pre)); [|unfold zlen in *; lia].
  cbv beta iota. cbn [d_position]. by rewrite index_many_reads.
Qed.

Lemma reads_u8 b : reads read_u8 [b] b.
Proof. exact (reads_then (take_fixed 1) _ [b] [b] (reads_fixed [b])). Qed.

Lemma reads_u16 z : 0 <= z < 65536 -> reads read_u16_be (to_be_bytes 2 z) z.
Proof.
  intros Hz. rewrite <- (from_to_be_bytes 2 z) at 2 by (cbn; lia).
  apply (reads_then (take_fixed 2)), (reads_fixed (to_be_bytes 2 z)).
Qed.
Lemma reads_u32 z : 0 <= z < 2 ^ 32 -> reads read_u32_be (to_be_bytes 4 z) z.
Proof.
  intros Hz. rewrite <- (from_to_be_bytes 4 z) at 2 by (cbn in *; lia).
  apply (reads_then (take_fixed 4)), (reads_fixed (to_be_bytes 4 z)).
Qed.

(** The three bytes of [write_u20_be]. *)
Definition u20_bytes (value : Z) : bytes :=
  [wrap 8 (Z.land (Z.shiftr value 16) 15); wrap 8 (Z.land (Z.shiftr value 8) 255);
   wrap 8 (Z.land value 255)].

Lemma u20_bytes_value z : 0 <= z < 2 ^ 20 ->
  match u20_bytes z with
  | [b0; b1; b2] => Z.lor (Z.lor (Z.shiftl (Z.land b0 15) 16) (Z.shiftl b1 8)) b2 = z
  | _ => False
  end.
Proof.
  intros Hz. unfold u20_bytes, wrap.
  change 15 with (Z.ones 4). change 255 with (Z.ones 8).
  rewrite <- !Z.land_ones by lia. apply Z.bits_inj'. intros n Hn.
  rewrite !Z.lor_spec, !Z.shiftl_spec, !Z.land_spec, !Z.testbit_ones by lia.
  assert (Htop : 20 <= n -> Z.testbit z n = false).
  { intros Hn20. destruct (Z.eq_dec z 0) as [->|]; [apply Z.testbit_0_l|].
    apply Z.bits_above_log2; [lia|]. apply Z.log2_lt_pow2; [lia|].
    eapply Z.lt_le_trans; [apply Hz|]. apply Z.pow_le_mono_r; lia. }
  destruct (Z.leb_spec 0 (n - 16)), (Z.leb_spec 0 (n - 8)); try lia;
    rewrite ?(Z.testbit_neg_r _ (n - 16)), ?(Z.testbit_neg_r _ (n - 8)), ?Z.shiftr_spec by lia;
    replace (n - 16 + 16) with n by lia; replace (n - 8 + 8) with n by lia;
    destruct (Z.leb_spec 0 n), (Z.ltb_spec n 8), (Z.ltb_spec (n - 8) 8),
      (Z.ltb_spec (n - 16) 4), (Z.ltb_spec (n - 16) 8); try lia; cbn;
    rewrite ?andb_true_r, ?andb_false_r, ?orb_false_r; try done; symmetry; apply Htop; lia.
Qed.

Lemma reads_u20 z : 0 <= z < 2 ^ 20 -> reads read_u20_be (u20_bytes z) z.
Proof.
  intros Hz. eapply reads_bind_r; [apply (reads_fixed (u20_bytes z))|].
  pose proof (u20_bytes_value z Hz) as Hv. destruct (u20_bytes z) as [|? [|? [|? []]]]; try done.
  rewrite <- Hv. apply reads_ret.
Qed.

Lemma slice_app (pre bs rest : bytes) :
  slice (zlen pre) (zlen pre + zlen bs) (pre ++ bs ++ rest) = bs.
Proof.
  unfold slice. rewrite app_assoc, <- zlen_app, upto_app. apply from_app.
Qed.

Lemma reads_bytes bs : reads (read_bytes (zlen bs)) bs bs.
Proof.
  intros pre rest. unfold read_bytes, check_eos, bytes_left. cbn [d_data d_position].
  autorewrite with zlen. pose proof (zlen_nonneg rest). pose proof (zlen_nonneg bs).
  destruct (Z.leb_spec (zlen bs) (zlen pre + (zlen bs + zlen rest) - zlen pre)); [|lia].
  cbn [d_data d_position]. autorewrite with zlen.
  destruct (Z.leb_spec (zlen pre) (zlen pre + zlen bs)); [|lia].
  destruct (Z.leb_spec (zlen pre + zlen bs) (zlen pre + (zlen bs + zlen rest))); [|lia].
  cbn. by rewrite slice_app.
Qed.

Lemma reads_string bs : utf8_valid bs = true -> reads (read_string (zlen bs)) bs bs.
Proof.
  intros Hu. eapply reads_bind_r; [apply reads_bytes|]. apply reads_lift. by rewrite Hu.
Qed.

(** ** Packed strings read back *)

Definition packed_len_ok (k : Z) : bool :=
  let b := packed_len_byte k in
  (Z.land b 127 =? (k + 1) / 2) && Bool.eqb (negb (Z.land b 128 =? 0)) (k mod 2 =? 1).

Lemma packed_len_spec k : 0 <= k <= 127 ->
  Z.land (packed_len_byte k) 127 = (k + 1) / 2
  /\ negb (Z.land (packed_len_byte k) 128 =? 0) = (k mod 2 =? 1).
Proof.
  intros Hk.
  pose proof (byte_check (fun k => implb (k <=? 127) (packed_len_ok k)) eq_refl k
    ltac:(unfold is_byte; lia)) as H. cbv beta in H.
  destruct (Z.leb_spec k 127); [|lia]. cbn [implb] in H. unfold packed_len_ok in H.
  apply andb_true_iff in H as [->%Z.eqb_eq ->%Bool.eqb_prop]. done.
Qed.

Lemma upto_padding s pad :
  upto (zlen (s ++ padding pad s) - (if zlen s mod 2 =? 1 then 1 else 0)) (s ++ padding pad s) = s.
Proof.
  unfold padding. pose proof (Z.mod_pos_bound (zlen s) 2 ltac:(lia)).
  destruct (Z.eqb_spec (zlen s mod 2) 0), (Z.eqb_spec (zlen s mod 2) 1); try lia;
    autorewrite with zlen.
  - rewrite app_nil_r, Z.add_0_r, Z.sub_0_r. rewrite <- (app_nil_r s) at 2. apply upto_app.
  - replace (zlen s + (1 + 0) - 1) with (zlen s) by lia. apply upto_app.
Qed.

Lemma reads_packed_gen tag (f : byte -> Z) pad s :
  tag = HEX_8 \/ tag = NIBBLE_8 -> 0 < zlen s <= 127 -> are_bytes (pairs f s) ->
  unpack_ref (unpacker tag) (pairs f s) = Ok (s ++ padding pad s) ->
  reads (read_packed tag) (packed_len_byte (zlen s) :: pairs f s) s.
Proof.
  intros Htag Hlen Hpb Hun. unfold read_packed.
  apply (reads_bind _ _ [packed_len_byte (zlen s)] _ _ _ (reads_u8 _)). cbv zeta.
  destruct (packed_len_spec (zlen s) ltac:(lia)) as [-> ->].
  assert (0 < (zlen s + 1) / 2 <= 64) by (split; [apply Z.div_str_pos|apply Z.div_le_upper_bound]; lia).
  destruct (Z.eqb_spec ((zlen s + 1) / 2) 0); [lia|].
  rewrite <- (pairs_zlen f s) in *. eapply reads_bind_r; [apply reads_bytes|]. cbv beta.
  destruct (read_packed_buffer tag (pairs f s) Htag Hpb ltac:(lia)) as (-> & _ & Hok).
  destruct (Hok _ Hun) as [Hasc Hzl]. rewrite Hun. cbn [mbind outcome_bind].
  destruct (packed_result (zlen s mod 2 =? 1) (s ++ padding pad s)) as [Hg Hr]; [done|lia|].
  cbv zeta in Hg, Hr. rewrite upto_padding in Hr.
  eapply reads_bind_l; [by apply reads_lift|]. cbv beta iota.
  rewrite Hg, Hr. apply reads_ret.
Qed.

Lemma reads_packed_nibble s : validate_nibble s = true -> s <> [] ->
  reads (read_packed NIBBLE_8) (packed_len_byte (zlen s) :: pairs nibble_val s) s.
Proof.
  intros Hv Hne. unfold validate_nibble in Hv.
  destruct (Z.ltb_spec PACKED_MAX (zlen s)) as [|Hl]; [done|]. unfold PACKED_MAX in Hl.
  apply (reads_packed_gen _ _ 0).
  - by right.
  - destruct s; [done|]. rewrite zlen_cons in *. pose proof (zlen_nonneg s). lia.
  - apply pairs_bytes; [|by cbn]. eapply Forall_impl; [by apply nibble_vals|]. naive_solver.
  - by apply unpack_pack_nibble.
Qed.

Lemma reads_packed_hex s : validate_hex s = true -> s <> [] ->
  reads (read_packed HEX_8) (packed_len_byte (zlen s) :: pairs hex_val s) s.
Proof.
  intros Hv Hne. unfold validate_hex in Hv.
  destruct (Z.ltb_spec PACKED_MAX (zlen s)) as [|Hl]; [done|]. unfold PACKED_MAX in Hl.
  apply (reads_packed_gen _ _ (chr "F")).
  - by left.
  - destruct s; [done|]. rewrite zlen_cons in *. pose proof (zlen_nonneg s). lia.
  - apply pairs_bytes; [|by cbn]. eapply Forall_impl; [by apply hex_vals|]. naive_solver.
  - by apply unpack_pack_hex.
Qed.

Example unmarshal_ex :
  unmarshal_ref [248; 2; 19; 7]
  = Ok (mkNodeRef (str "message") AEmpty (Some (NRString (str "receipt")))).
Proof. vm_compute. reflexivity. Qed.
