(* ===== verification/Encoder.v ===== *)
(** * The binary encoder

    [wacore/binary/src/encoder.rs]: the classification of strings and the
    [Encoder], over any [ByteWriter].  [encode_*] are the specification: the bytes
    of a value, as a pure function; [writes_node] and its companions show that the
    code emits exactly them.

    The lookup in the string-hint cache of the encoder is the parameter
    [hint_for] ([fun _ => None] for the encoders made by [Encoder::new] and
    [Encoder::new_vec], which carry no cache); the theorems hold for every sound
    cache, one whose hint for a string is its classification. *)

From stdpp Require Import prelude strings.
From S2P Require Import Prelude Jid Token Node Writer Packed Decoder.

#[local] Open Scope Z_scope.

(** ** Classification of strings *)

Record ParsedJidMeta : Type := mkMeta {
  user_end : Z; server_start : Z; domain_type : Z; meta_device : option Z
}.

Inductive StringHint : Type :=
  | HEmpty
  | HSingleToken (token : Z)
  | HDoubleToken (dict token : Z)
  | HPackedNibble
  | HPackedHex
  | HJid (meta : ParsedJidMeta)
  | HRawBytes.

Definition server_to_domain_type (s : Server) : Z :=
  match s with
  | Pn => 0
  | Lid => 1
  | Hosted => 128
  | HostedLid => 129
  | _ => 0
  end.

Definition server_supports_ad_jid (s : Server) : bool :=
  match s with Pn | Lid | Hosted | HostedLid => true | _ => false end.

(** [Server::try_from(s).ok()] *)
Definition server_ok (s : bytes) : option Server :=
  match server_try_from s with Ok srv => Some srv | _ => None end.

Definition parse_jid_meta (input : bytes) : option ParsedJidMeta :=
  sep_idx ← find (chr "@") input;
  let server_start := sep_idx + 1 in
  let server := from server_start input in
  let user_combined := upto sep_idx input in
  let '(user_agent, device) :=
    match find (chr ":") user_combined with
    | Some colon_idx =>
        match parse_u8 (from (colon_idx + 1) user_combined) with
        | Some parsed_device => (upto colon_idx user_combined, Some parsed_device)
        | None => (user_combined, None)
        end
    | None => (user_combined, None)
    end in
  let user_end :=
    match find (chr "_") user_agent with
    | Some underscore_idx =>
        match parse_u8 (from (underscore_idx + 1) user_agent) with
        | Some _ => underscore_idx
        | None => zlen user_agent
        end
    | None => zlen user_agent
    end in
  let server_kind := server_ok server in
  let domain_type :=
    match server_kind with
    | Some Pn => 0
    | Some Lid => 1
    | Some Hosted => 128
    | Some HostedLid => 129
    | _ => 0
    end in
  let device :=
    match server_kind with
    | Some s => if server_supports_ad_jid s then device else None
    | None => None
    end in
  Some (mkMeta user_end server_start domain_type device).

Definition split_jid_from_meta (input : bytes) (meta : ParsedJidMeta) : bytes * bytes :=
  (upto (user_end meta) input, from (server_start meta) input).

Section Classify.
Context {TM : TokenMaps}.

Definition classify_string_hint (s : bytes) : StringHint :=
  if bool_decide (s = []) then HEmpty
  else
    let is_likely_jid := zlen s <=? 48 in
    match index_of_token s with
    | Some (Single token) => HSingleToken token
    | Some (Double dict token) => HDoubleToken dict token
    | None =>
        if validate_nibble s then HPackedNibble
        else if validate_hex s then HPackedHex
        else if is_likely_jid
        then match parse_jid_meta s with Some meta => HJid meta | None => HRawBytes end
        else HRawBytes
    end.
End Classify.

(** ** The writer side *)

Section Encoder.
Context {TM : TokenMaps} {W : Type} {BW : ByteWriter W}.
Context (hint_for : bytes -> option StringHint).

Definition write_u16_be (val : Z) (w : W) : outcome BinaryError W :=
  write_bytes w (to_be_bytes 2 val).
Definition write_u32_be (val : Z) (w : W) : outcome BinaryError W :=
  write_bytes w (to_be_bytes 4 val).
Definition write_u20_be (value : Z) (w : W) : outcome BinaryError W :=
  let bytes := [wrap 8 (Z.land (Z.shiftr value 16) 15);
                wrap 8 (Z.land (Z.shiftr value 8) 255);
                wrap 8 (Z.land value 255)] in
  write_bytes w bytes.

Definition write_bytes_with_len (bs : bytes) (w : W) : outcome BinaryError W :=
  let len := zlen bs in
  w ← (if len <? 256 then
         w ← write_u8 w BINARY_8; write_u8 w (wrap 8 len)
       else if len <? Z.shiftl 1 20 then
         w ← write_u8 w BINARY_20; write_u20_be (wrap 32 len) w
       else
         w ← write_u8 w BINARY_32; write_u32_be (wrap 32 len) w);
  write_bytes w bs.

Definition write_list_start (len : Z) (w : W) : outcome BinaryError W :=
  if len =? 0 then write_u8 w LIST_EMPTY
  else if len <? 256 then w ← write_u8 w 248; write_u8 w (wrap 8 len)
  else if len <=? 65535 then w ← write_u8 w 249; write_u16_be (wrap 16 len) w
  else Err InvalidNode.

(** Strings and the JIDs inside them call each other; the recursion is on
    proper substrings. *)
Section WithStrings.
Context (write_string : bytes -> W -> outcome BinaryError W).

Definition write_jid_from_meta (jid : bytes) (meta : ParsedJidMeta) (w : W)
    : outcome BinaryError W :=
  let '(user, server) := split_jid_from_meta jid meta in
  match meta_device meta with
  | Some device =>
      w ← write_u8 w AD_JID;
      w ← write_u8 w (domain_type meta);
      w ← write_u8 w device;
      write_string user w
  | None =>
      w ← write_u8 w JID_PAIR;
      w ← (if bool_decide (user = []) then write_u8 w LIST_EMPTY else write_string user w);
      write_string server w
  end.

Definition write_string_with_hint (s : bytes) (hint : StringHint) (w : W)
    : outcome BinaryError W :=
  match hint with
  | HEmpty => w ← write_u8 w BINARY_8; write_u8 w 0
  | HSingleToken token => write_u8 w token
  | HDoubleToken dict token => w ← write_u8 w (DICTIONARY_0 + dict); write_u8 w token
  | HPackedNibble => write_packed_bytes s NIBBLE_8 w
  | HPackedHex => write_packed_bytes s HEX_8 w
  | HJid meta => write_jid_from_meta s meta w
  | HRawBytes => write_bytes_with_len s w
  end.

Definition write_string_uncached (s : bytes) (w : W) : outcome BinaryError W :=
  if PACKED_MAX <? zlen s then write_bytes_with_len s w
  else write_string_with_hint s (classify_string_hint s) w.
End WithStrings.

Fixpoint write_string_fuel (fuel : nat) (s : bytes) (w : W) : outcome BinaryError W :=
  match fuel with
  | O => Timeout
  | S fuel' =>
      match hint_for s with
      | Some hint => write_string_with_hint (write_string_fuel fuel') s hint w
      | None => write_string_uncached (write_string_fuel fuel') s w
      end
  end.
Definition write_string (s : bytes) (w : W) : outcome BinaryError W :=
  write_string_fuel (S (length s)) s w.

(** [write_jid_ref] and [write_jid_owned] have the same body. *)
Definition write_jid_ref (jid : Jid) (w : W) : outcome BinaryError W :=
  if (0 <? j_device jid) && server_supports_ad_jid (j_server jid) then
    device ← (if j_device jid <=? 255 then Ok (j_device jid)
              else Err (AttrParse (str "AD_JID device id out of range: " ++ itoa (j_device jid))));
    w ← write_u8 w AD_JID;
    w ← write_u8 w (server_to_domain_type (j_server jid));
    w ← write_u8 w device;
    write_string (j_user jid) w
  else
    w ← write_u8 w JID_PAIR;
    w ← (if bool_decide (j_user jid = []) then write_u8 w LIST_EMPTY
         else write_string (j_user jid) w);
    write_string (server_as_str (j_server jid)) w.
Definition write_jid_owned (jid : Jid) (w : W) : outcome BinaryError W := write_jid_ref jid w.

(** ** Nodes *)

(** [Encoder::write_node], over the accessors of the [EncodeNode] trait. *)
Definition write_node_with (tag : bytes) (attrs_len : Z) (has_content : bool)
    (encode_attrs encode_content : W -> outcome BinaryError W) (w : W)
    : outcome BinaryError W :=
  let content_len := if has_content then 1 else 0 in
  let list_len := 1 + attrs_len * 2 + content_len in
  w ← write_list_start list_len w;
  w ← write_string tag w;
  w ← encode_attrs w;
  encode_content w.

(** A loop of writes, [for x in l { f(x)? }]. *)
Fixpoint write_each {A} (f : A -> W -> outcome BinaryError W) (l : list A) (w : W)
    : outcome BinaryError W :=
  match l with
  | [] => Ok w
  | x :: l' => w ← f x w; write_each f l' w
  end.

Definition encode_attr (kv : bytes * NodeValue) (w : W) : outcome BinaryError W :=
  w ← write_string (fst kv) w;
  match snd kv with
  | VString s => write_string s w
  | VJid jid => write_jid_owned jid w
  end.
Definition encode_attrs (attrs : Attrs) (w : W) : outcome BinaryError W :=
  write_each encode_attr attrs w.

Definition encode_attr_ref (kv : bytes * ValueRef) (w : W) : outcome BinaryError W :=
  w ← write_string (fst kv) w;
  match snd kv with
  | VRString s => write_string s w
  | VRJid jid => write_jid_ref jid w
  end.
Definition encode_attrs_ref (attrs : AttrsRef) (w : W) : outcome BinaryError W :=
  write_each encode_attr_ref (attrs_ref_as_slice attrs) w.

(** [impl EncodeNode for Node] and [for NodeRef]. *)
Fixpoint write_node (node : Node) (w : W) : outcome BinaryError W :=
  match node with
  | mkNode tag attrs content =>
      write_node_with tag (zlen attrs) (bool_decide (is_Some content)) (encode_attrs attrs)
        (fun w =>
           match content with
           | Some (NString s) => write_string s w
           | Some (NBytes b) => write_bytes_with_len b w
           | Some (NNodes nodes) =>
               w ← write_list_start (zlen nodes) w;
               write_each write_node nodes w
           | None => Ok w
           end) w
  end.

Fixpoint write_node_ref (node : NodeRef) (w : W) : outcome BinaryError W :=
  match node with
  | mkNodeRef tag attrs content =>
      write_node_with tag (attrs_ref_len attrs) (bool_decide (is_Some content))
        (encode_attrs_ref attrs)
        (fun w =>
           match content with
           | Some (NRString s) => write_string s w
           | Some (NRBytes b) => write_bytes_with_len b w
           | Some (NRNodes nodes) =>
               w ← write_list_start (zlen nodes) w;
               write_each write_node_ref nodes w
           | None => Ok w
           end) w
  end.
End Encoder.

(** ** The specification: the bytes of a value *)

Section Spec.
Context {TM : TokenMaps}.

Definition encode_bytes (bs : bytes) : bytes :=
  (if zlen bs <? 256 then [BINARY_8; wrap 8 (zlen bs)]
   else if zlen bs <? 2 ^ 20 then BINARY_20 :: u20_bytes (wrap 32 (zlen bs))
   else BINARY_32 :: to_be_bytes 4 (wrap 32 (zlen bs))) ++ bs.

Definition encode_list_start (len : Z) : outcome BinaryError bytes :=
  if len =? 0 then Ok [LIST_EMPTY]
  else if len <? 256 then Ok [LIST_8; wrap 8 len]
  else if len <=? 65535 then Ok (LIST_16 :: to_be_bytes 2 (wrap 16 len))
  else Err InvalidNode.

(** The form in which a string is sent. *)
Definition hint_of (s : bytes) : StringHint :=
  if PACKED_MAX <? zlen s then HRawBytes else classify_string_hint s.

Definition encode_jid_pair (enc : bytes -> bytes) (user server : bytes) : bytes :=
  JID_PAIR :: (if bool_decide (user = []) then [LIST_EMPTY] else enc user) ++ enc server.

Fixpoint encode_string_fuel (fuel : nat) (s : bytes) : bytes :=
  match fuel with
  | O => []
  | S fuel' =>
      match hint_of s with
      | HEmpty => [BINARY_8; 0]
      | HSingleToken token => [token]
      | HDoubleToken dict token => [DICTIONARY_0 + dict; token]
      | HPackedNibble => NIBBLE_8 :: packed_len_byte (zlen s) :: pairs nibble_val s
      | HPackedHex => HEX_8 :: packed_len_byte (zlen s) :: pairs hex_val s
      | HJid meta =>
          let '(user, server) := split_jid_from_meta s meta in
          match meta_device meta with
          | Some device => AD_JID :: domain_type meta :: device :: encode_string_fuel fuel' user
          | None => encode_jid_pair (encode_string_fuel fuel') user server
          end
      | HRawBytes => encode_bytes s
      end
  end.
Definition encode_string (s : bytes) : bytes := encode_string_fuel (S (length s)) s.

Definition encode_jid (j : Jid) : outcome BinaryError bytes :=
  if (0 <? j_device j) && server_supports_ad_jid (j_server j) then
    if j_device j <=? 255 then
      Ok (AD_JID :: server_to_domain_type (j_server j) :: j_device j :: encode_string (j_user j))
    else Err (AttrParse (str "AD_JID device id out of range: " ++ itoa (j_device j)))
  else Ok (encode_jid_pair encode_string (j_user j) (server_as_str (j_server j))).

Fixpoint encode_each {A} (f : A -> outcome BinaryError bytes) (l : list A)
    : outcome BinaryError bytes :=
  match l with
  | [] => Ok []
  | x :: l' => a ← f x; b ← encode_each f l'; Ok (a ++ b)
  end.

Definition encode_value (v : NodeValue) : outcome BinaryError bytes :=
  match v with VString s => Ok (encode_string s) | VJid j => encode_jid j end.

Definition encode_pair (kv : bytes * NodeValue) : outcome BinaryError bytes :=
  b ← encode_value (snd kv); Ok (encode_string (fst kv) ++ b).

(** The number of list elements of a node. *)
Definition list_len (attrs : Attrs) (content : option NodeContent) : Z :=
  1 + zlen attrs * 2 + (if bool_decide (is_Some content) then 1 else 0).

Fixpoint encode_node (node : Node) : outcome BinaryError bytes :=
  match node with
  | mkNode tag attrs content =>
      start ← encode_list_start (list_len attrs content);
      a ← encode_each encode_pair attrs;
      c ← match content with
          | Some (NString s) => Ok (encode_string s)
          | Some (NBytes b) => Ok (encode_bytes b)
          | Some (NNodes nodes) =>
              start ← encode_list_start (zlen nodes);
              b ← encode_each encode_node nodes;
              Ok (start ++ b)
          | None => Ok []
          end;
      Ok (start ++ encode_string tag ++ a ++ c)
  end.
End Spec.

(** ** Facts about [parse_jid_meta] *)

(** The user of a parsed JID is a prefix of what stands before the first [@];
    the device is kept for the servers that support it. *)
Lemma parse_jid_meta_spec s meta :
  parse_jid_meta s = Some meta ->
  exists a u r b,
    s = a ++ chr "@" :: b /\ (chr "@" ∉ a) /\ a = u ++ r
    /\ (forall c r', r = c :: r' -> is_ascii c = true)
    /\ split_jid_from_meta s meta = (u, b)
    /\ domain_type meta = match server_ok b with Some srv => server_to_domain_type srv | None => 0 end
    /\ match meta_device meta with
       | Some d => 0 <= d <= 255
           /\ exists srv, server_ok b = Some srv /\ server_supports_ad_jid srv = true
       | None => True
       end.
Proof.
  unfold parse_jid_meta. intros H. destruct (find (chr "@") s) as [i|] eqn:Hf; [|done].
  cbn [mbind option_bind] in H. apply find_Some in Hf as (a & b & -> & <- & Ha).
  rewrite upto_split, from_split in H.
  set (ua := match find (chr ":") a with
    | Some colon_idx =>
        match parse_u8 (from (colon_idx + 1) a) with
        | Some parsed_device => (upto colon_idx a, Some parsed_device)
        | None => (a, None)
        end
    | None => (a, None)
    end) in H.
  assert (Hua : exists r, a = ua.1 ++ r /\ (forall c r', r = c :: r' -> is_ascii c = true)
                /\ forall d, ua.2 = Some d -> 0 <= d <= 255).
  { unfold ua. destruct (find (chr ":") a) as [k|] eqn:Hk; [|exists []; by rewrite app_nil_r].
    destruct (parse_u8 _) as [d|] eqn:Hd; [|exists []; by rewrite app_nil_r].
    exists (from k a). cbn [fst snd]. rewrite upto_from. split; [done|]. split.
    - apply find_Some in Hk as (x & y & -> & <- & _). rewrite from_app. by intros ? ? [= <- <-].
    - intros ? [= <-]. by eapply parse_uint_range; [|exact Hd]. }
  destruct ua as [user_agent device]. destruct Hua as (r & Hr & Hra & Hd). cbn in Hr, Hd.
  injection H as <-. unfold split_jid_from_meta. cbn [user_end server_start domain_type meta_device].
  rewrite from_split.
  set (e := match find (chr "_") user_agent with Some _ => _ | None => _ end).
  assert (Hall : from (zlen user_agent) user_agent = []).
  { unfold from, zlen. by rewrite Nat2Z.id, drop_all. }
  assert (He : 0 <= e <= zlen user_agent
               /\ (forall c r', from e user_agent = c :: r' -> is_ascii c = true)).
  { pose proof (zlen_nonneg user_agent). unfold e.
    destruct (find (chr "_") user_agent) as [k|] eqn:Hk; [|by rewrite Hall].
    destruct (parse_u8 _); [|by rewrite Hall].
    apply find_Some in Hk as (x & y & -> & <- & _).
    rewrite zlen_app, zlen_cons, from_app. pose proof (zlen_nonneg x).
    pose proof (zlen_nonneg y). split; [lia|]. by intros ? ? [= <- <-]. }
  destruct He as [He Hea].
  exists a, (upto e user_agent), (from e user_agent ++ r), b.
  rewrite (app_assoc (upto e user_agent)), upto_from. split_and!; try done.
  - intros c r'. destruct (from e user_agent) eqn:Hfe; [apply Hra|].
    cbn [app]. intros [= <- <-]. by eapply Hea.
  - f_equal. rewrite Hr, <- app_assoc. unfold upto. rewrite take_app_le; [done|].
    unfold zlen in He. lia.
  - destruct (server_ok b) as [srv|] eqn:Hsrv; [|done].
    destruct (server_supports_ad_jid srv) eqn:Hs; [|done].
    destruct device as [d|]; [|done]. split; [by apply Hd|]. by exists srv.
Qed.

Lemma parse_jid_meta_shorter s meta user server :
  parse_jid_meta s = Some meta -> split_jid_from_meta s meta = (user, server) ->
  (length user < length s)%nat /\ (length server < length s)%nat.
Proof.
  intros H Hs. apply parse_jid_meta_spec in H as (a & u & r & b & -> & _ & -> & _ & Hs' & _).
  rewrite Hs' in Hs. injection Hs as <- <-. rewrite !length_app. cbn [length]. lia.
Qed.

Section SpecLemmas.
Context {TM : TokenMaps}.

(** What a hint says of its string. *)
Lemma hint_of_cases s :
  match hint_of s with
  | HEmpty => s = []
  | HSingleToken t => get_single_token t = Some s /\ 0 < t < DICTIONARY_0
  | HDoubleToken d t => get_double_token d t = Some s /\ 0 <= d < 4 /\ 0 <= t < 256
  | HPackedNibble => validate_nibble s = true /\ s <> []
  | HPackedHex => validate_hex s = true /\ s <> []
  | HJid meta => parse_jid_meta s = Some meta
  | HRawBytes => True
  end.
Proof.
  unfold hint_of. destruct (PACKED_MAX <? zlen s); [done|].
  unfold classify_string_hint. destruct (bool_decide_reflect (s = [])) as [->|Hne]; [done|].
  destruct (index_of_token s) as [[t|d t]|] eqn:Ht.
  - by apply index_of_token_single.
  - by apply index_of_token_double.
  - destruct (validate_nibble s); [done|]. destruct (validate_hex s); [done|].
    destruct (zlen s <=? 48); [|done]. by destruct (parse_jid_meta s).
Qed.

Lemma encode_string_fuel_enough fuel s :
  (length s < fuel)%nat -> encode_string_fuel fuel s = encode_string s.
Proof.
  unfold encode_string. remember (S (length s)) as g eqn:Hg. intros Hf.
  assert (Hl : (length s < g)%nat) by lia. clear Hg. revert g s Hf Hl.
  induction fuel as [|fuel IH]; intros [|g] s Hf Hl; try lia. cbn [encode_string_fuel].
  pose proof (hint_of_cases s) as Hc. destruct (hint_of s) as [| | | | |meta|]; try done.
  destruct (split_jid_from_meta s meta) as [user server] eqn:Hsp.
  destruct (parse_jid_meta_shorter _ _ _ _ Hc Hsp). unfold encode_jid_pair.
  rewrite (IH g user), (IH g server) by lia. done.
Qed.

(** The recursive equation of [encode_string], without fuel. *)
Lemma encode_string_eq s :
  encode_string s
  = match hint_of s with
    | HEmpty => [BINARY_8; 0]
    | HSingleToken token => [token]
    | HDoubleToken dict token => [DICTIONARY_0 + dict; token]
    | HPackedNibble => NIBBLE_8 :: packed_len_byte (zlen s) :: pairs nibble_val s
    | HPackedHex => HEX_8 :: packed_len_byte (zlen s) :: pairs hex_val s
    | HJid meta =>
        let '(user, server) := split_jid_from_meta s meta in
        match meta_device meta with
        | Some device => AD_JID :: domain_type meta :: device :: encode_string user
        | None => encode_jid_pair encode_string user server
        end
    | HRawBytes => encode_bytes s
    end.
Proof.
  unfold encode_string at 1. cbn [encode_string_fuel].
  pose proof (hint_of_cases s) as Hc. destruct (hint_of s) as [| | | | |meta|]; try done.
  destruct (split_jid_from_meta s meta) as [user server] eqn:Hsp.
  destruct (parse_jid_meta_shorter _ _ _ _ Hc Hsp). unfold encode_jid_pair.
  by rewrite !encode_string_fuel_enough by done.
Qed.
End SpecLemmas.

(** ** The encoder emits the specification *)

Section Refinement.
Context {TM : TokenMaps} {W : Type} {BW : ByteWriter W} {L : ByteWriterLaws W}.
Context (hint_for : bytes -> option StringHint).
Hypothesis hint_sound : forall s h, hint_for s = Some h -> h = hint_of s.

Lemma emits_cons (f : W -> outcome BinaryError W) g b bs :
  emits f [b] -> emits g bs -> emits (fun w => f w ≫= g) (b :: bs).
Proof. exact (emits_bind f g [b] bs). Qed.

Lemma emits_bytes_with_len bs : emits (write_bytes_with_len (W := W) bs) (encode_bytes bs).
Proof.
  unfold write_bytes_with_len, encode_bytes. change (Z.shiftl 1 20) with (2 ^ 20).
  apply emits_bind; [|apply emits_bytes].
  destruct (zlen bs <? 256); [|destruct (zlen bs <? 2 ^ 20)];
    apply emits_cons; try apply emits_u8; apply emits_bytes.
Qed.

Lemma emits_list_start len :
  emits_res (write_list_start (W := W) len) (encode_list_start len).
Proof.
  unfold write_list_start, encode_list_start.
  destruct (len =? 0); [apply emits_res_ok, emits_u8|].
  destruct (len <? 256); [apply emits_res_ok, emits_cons; apply emits_u8|].
  destruct (len <=? 65535); [|by left].
  apply emits_res_ok, emits_cons; [apply emits_u8|apply emits_bytes].
Qed.

Lemma emits_packed_nibble s : validate_nibble s = true ->
  emits (write_packed_bytes (W := W) s NIBBLE_8)
    (NIBBLE_8 :: packed_len_byte (zlen s) :: pairs nibble_val s).
Proof.
  unfold validate_nibble. destruct (Z.ltb_spec PACKED_MAX (zlen s)); [done|].
  intros Hv. by apply (emits_packed s NIBBLE_8 is_nibble_char).
Qed.
Lemma emits_packed_hex s : validate_hex s = true ->
  emits (write_packed_bytes (W := W) s HEX_8)
    (HEX_8 :: packed_len_byte (zlen s) :: pairs hex_val s).
Proof.
  unfold validate_hex. destruct (Z.ltb_spec PACKED_MAX (zlen s)); [done|].
  intros Hv. by apply (emits_packed s HEX_8 is_hex_char).
Qed.

(** The pair form, shared by structured JIDs and by strings that hold one. *)
Lemma emits_jid_pair (ws : bytes -> W -> outcome BinaryError W) enc user server :
  emits (ws user) (enc user) -> emits (ws server) (enc server) ->
  emits (fun w => w ← write_u8 w JID_PAIR;
                  w ← (if bool_decide (user = []) then write_u8 w LIST_EMPTY else ws user w);
                  ws server w) (encode_jid_pair enc user server).
Proof.
  intros Hu Hs. unfold encode_jid_pair. apply emits_cons; [apply emits_u8|].
  apply (emits_bind (fun w => if bool_decide (user = []) then write_u8 w LIST_EMPTY
                              else ws user w)); [|done].
  case_bool_decide; [apply emits_u8|done].
Qed.

Lemma emits_with_hint (ws : bytes -> W -> outcome BinaryError W) s :
  (forall t, (length t < length s)%nat -> emits (ws t) (encode_string t)) ->
  emits (write_string_with_hint ws s (hint_of s)) (encode_string s).
Proof.
  intros Hws. rewrite encode_string_eq. pose proof (hint_of_cases s) as Hc.
  destruct (hint_of s) as [|t|d t| | |meta|]; cbn [write_string_with_hint].
  - apply emits_cons; apply emits_u8.
  - apply emits_u8.
  - apply emits_cons; apply emits_u8.
  - by apply emits_packed_nibble, Hc.
  - by apply emits_packed_hex, Hc.
  - unfold write_string_with_hint, write_jid_from_meta.
    destruct (split_jid_from_meta s meta) as [user server] eqn:Hsp.
    destruct (parse_jid_meta_shorter _ _ _ _ Hc Hsp).
    destruct (meta_device meta) as [d|]; [|by apply emits_jid_pair; apply Hws].
    do 3 (apply emits_cons; [apply emits_u8|]). by apply Hws.
  - apply emits_bytes_with_len.
Qed.

Lemma emits_string_fuel fuel s : (length s < fuel)%nat ->
  emits (write_string_fuel (W := W) hint_for fuel s) (encode_string s).
Proof.
  revert s. induction fuel as [|fuel IH]; intros s Hs; [lia|]. cbn [write_string_fuel].
  assert (Hws : emits (write_string_with_hint (write_string_fuel hint_for fuel) s (hint_of s))
                  (encode_string s)).
  { apply emits_with_hint. intros t Ht. apply IH. lia. }
  destruct (hint_for s) as [h|] eqn:Hh; [by rewrite (hint_sound s h Hh)|].
  unfold write_string_uncached, hint_of in *. by destruct (PACKED_MAX <? zlen s).
Qed.

Lemma emits_string s : emits (write_string (W := W) hint_for s) (encode_string s).
Proof. apply emits_string_fuel. lia. Qed.

Lemma emits_jid j : emits_res (write_jid_ref (W := W) hint_for j) (encode_jid j).
Proof.
  unfold write_jid_ref, encode_jid. destruct (_ && _).
  - destruct (j_device j <=? 255); [|by left]. apply emits_res_ok.
    do 3 (apply emits_cons; [apply emits_u8|]). apply emits_string.
  - apply emits_res_ok, emits_jid_pair; apply emits_string.
Qed.

Lemma emits_each {A} (f : A -> W -> outcome BinaryError W) g (l : list A) :
  Forall (fun x => emits_res (f x) (g x)) l ->
  emits_res (write_each f l) (encode_each g l).
Proof.
  induction 1 as [|x l Hx Hl IH]; [apply emits_ret|]. by apply emits_res_bind.
Qed.

Lemma emits_attr kv : emits_res (encode_attr (W := W) hint_for kv) (encode_pair kv).
Proof.
  unfold encode_attr, encode_pair, write_jid_owned.
  apply (emits_res_bind (write_string hint_for kv.1) _ (Ok (encode_string kv.1))
           (encode_value kv.2)); [apply emits_string|].
  destruct kv.2; [apply emits_string|apply emits_jid].
Qed.

Lemma emits_node_with tag attrs_len (has_content : bool) ea ec oa oc :
  emits_res ea oa -> emits_res ec oc ->
  emits_res (write_node_with (W := W) hint_for tag attrs_len has_content ea ec)
    (start ← encode_list_start (1 + attrs_len * 2 + (if has_content then 1 else 0));
     a ← oa; c ← oc; Ok (start ++ encode_string tag ++ a ++ c)).
Proof.
  intros Ha Hc. unfold write_node_with.
  pose proof (emits_res_bind _ _ _ _ (emits_list_start (1 + attrs_len * 2
    + (if has_content then 1 else 0))) (emits_res_bind _ _ _ _
      (emits_res_ok _ _ (emits_string tag)) (emits_res_bind _ _ _ _ Ha Hc))) as H.
  cbn [mbind outcome_bind] in *.
  destruct (encode_list_start _); [|done..]. by destruct oa; [destruct oc|..].
Qed.

Lemma emits_node n : emits_res (write_node (W := W) hint_for n) (encode_node n).
Proof.
  induction n as [tag attrs content IH] using Node_tree_ind. cbn [write_node encode_node].
  apply emits_node_with.
  - apply emits_each, Forall_true. apply emits_attr.
  - destruct content as [[b|s|ns]|].
    + apply emits_bytes_with_len.
    + apply emits_string.
    + apply emits_res_bind; [apply emits_list_start|]. by apply emits_each, IH.
    + apply emits_ret.
Qed.

Lemma emits_attrs_ref l :
  emits_res (write_each (encode_attr_ref (W := W) hint_for) l)
    (encode_each encode_pair (map (fun '(k, v) => (intern_cow k, to_node_value v)) l)).
Proof.
  assert (H : forall kv, emits_res (encode_attr_ref (W := W) hint_for kv)
            (encode_pair (let '(k, v) := kv in (intern_cow k, to_node_value v)))).
  { intros [k v]. rewrite intern_cow_id. pose proof (emits_attr (k, to_node_value v)) as H.
    by destruct v. }
  induction l as [|kv l IH]; [apply emits_ret|].
  cbn [write_each map encode_each]. by apply emits_res_bind.
Qed.

Lemma emits_node_ref r : emits_res (write_node_ref (W := W) hint_for r) (encode_node (to_owned r)).
Proof.
  induction r as [tag attrs content IH] using NodeRef_tree_ind.
  cbn [write_node_ref to_owned encode_node]. rewrite intern_cow_id. unfold list_len.
  pose proof (emits_node_with tag (attrs_ref_len attrs) (bool_decide (is_Some content))
    (encode_attrs_ref hint_for attrs)) as H.
  replace (zlen (map _ (attrs_ref_as_slice attrs))) with (attrs_ref_len attrs)
    by (destruct attrs; cbn; unfold zlen; by rewrite ?length_map).
  destruct content as [[b|s|ns]|]; cbn in H; apply H; try apply emits_attrs_ref.
  - apply emits_bytes_with_len.
  - apply emits_string.
  - apply emits_res_bind.
    + unfold zlen. rewrite length_map. apply emits_list_start.
    + specialize (IH ns eq_refl). induction IH as [|x l Hx Hl IHl]; [apply emits_ret|].
      cbn [map encode_each write_each]. by apply emits_res_bind.
  - apply emits_ret.
Qed.
End Refinement.
