(* ===== verification/Marshal.v ===== *)
(** * Marshalling

    [wacore/binary/src/marshal.rs] and [util.rs]: the entry points that build an
    encoder or a decoder, and the theorems that connect the two sides of the
    protocol.  [image_node] says what a node becomes when it is sent: strings that
    look like a JID come back as the JID, raw strings in content position come
    back as bytes, and an empty list of children comes back as no content. *)

From stdpp Require Import prelude strings.
From S2P Require Import Prelude Jid Token Node Writer Packed Decoder Encoder.

#[local] Open Scope Z_scope.

Definition DEFAULT_MARSHAL_CAPACITY : Z := 1024.
Definition AUTO_RESERVE_ATTRS_THRESHOLD : Z := 24.
Definition AUTO_RESERVE_CHILDREN_THRESHOLD : Z := 64.
Definition AUTO_RESERVE_SCALAR_THRESHOLD : Z := 8 * 1024.
Definition AUTO_CHILD_SAMPLE_LIMIT : nat := 32.
Definition AUTO_MAX_HINT_CAPACITY : Z := 512 * 1024.
Definition AUTO_ATTR_ESTIMATE : Z := 24.
Definition AUTO_CHILD_ESTIMATE : Z := 96.
Definition AUTO_GRANDCHILD_ESTIMATE : Z := 40.

(** ** Capacity estimates *)

Definition should_auto_reserve_node (node : Node) : bool :=
  if AUTO_RESERVE_ATTRS_THRESHOLD <=? zlen (node_attrs node) then true
  else
    match node_content node with
    | Some (NBytes bs) => AUTO_RESERVE_SCALAR_THRESHOLD <=? zlen bs
    | Some (NString text) => AUTO_RESERVE_SCALAR_THRESHOLD <=? zlen text
    | Some (NNodes children) =>
        if AUTO_RESERVE_CHILDREN_THRESHOLD <=? zlen children then true
        else existsb (fun child =>
               match node_content child with
               | Some (NNodes gc) => AUTO_RESERVE_CHILDREN_THRESHOLD <=? zlen gc
               | _ => false
               end) children
    | None => false
    end.

(** The loop over the sampled children returns early at the cap. *)
Fixpoint estimate_children (children : list Node) (estimate : Z) : Z + Z :=
  match children with
  | [] => inl estimate
  | child :: rest =>
      let estimate := estimate + zlen (node_tag child)
                      + zlen (node_attrs child) * AUTO_ATTR_ESTIMATE in
      let estimate :=
        match node_content child with
        | Some (NBytes bs) => estimate + (zlen bs + 8)
        | Some (NString text) => estimate + (zlen text + 8)
        | Some (NNodes gc) => estimate + zlen gc * AUTO_GRANDCHILD_ESTIMATE
        | None => estimate
        end in
      if AUTO_MAX_HINT_CAPACITY <=? estimate then inr AUTO_MAX_HINT_CAPACITY
      else estimate_children rest estimate
  end.

Definition clamp (lo hi z : Z) : Z := Z.min hi (Z.max lo z).

Definition estimate_capacity_node (node : Node) : Z :=
  let estimate := DEFAULT_MARSHAL_CAPACITY + 16 in
  let estimate := estimate + zlen (node_tag node) in
  let estimate := estimate + zlen (node_attrs node) * AUTO_ATTR_ESTIMATE in
  let finish e := clamp DEFAULT_MARSHAL_CAPACITY AUTO_MAX_HINT_CAPACITY e in
  match node_content node with
  | Some (NBytes bs) => finish (estimate + (zlen bs + 8))
  | Some (NString text) => finish (estimate + (zlen text + 8))
  | Some (NNodes children) =>
      let estimate := estimate + zlen children * AUTO_CHILD_ESTIMATE in
      match estimate_children (take AUTO_CHILD_SAMPLE_LIMIT children) estimate with
      | inl e => finish e
      | inr e => e
      end
  | None => finish estimate
  end.

Section Marshal.
Context {TM : TokenMaps}.

Definition no_hints : bytes -> option StringHint := fun _ => None.

(** [Encoder::new_vec] clears the buffer and writes the leading byte. *)
Definition encoder_new_vec (buffer : bytes) : outcome BinaryError bytes :=
  write_u8 ([] : bytes) 0.

Definition marshal_to_vec (node : Node) (output : bytes) : outcome BinaryError bytes :=
  w ← encoder_new_vec output; write_node no_hints node w.
Definition marshal_ref_to_vec (node : NodeRef) (output : bytes) : outcome BinaryError bytes :=
  w ← encoder_new_vec output; write_node_ref no_hints node w.

(** [Encoder::new] over a [std::io::Write]. *)
Definition marshal_to {W} {IO : IoWrite W} (node : Node) (writer : W)
    : outcome BinaryError W :=
  enc ← write_u8 (mkIo writer) 0; enc ← write_node no_hints node enc; Ok (io_writer enc).
Definition marshal_ref_to {W} {IO : IoWrite W} (node : NodeRef) (writer : W)
    : outcome BinaryError W :=
  enc ← write_u8 (mkIo writer) 0; enc ← write_node_ref no_hints node enc; Ok (io_writer enc).

(** [Vec::with_capacity] is the empty vector, whatever the capacity. *)
Definition vec_with_capacity (capacity : Z) : bytes := [].

Definition marshal (node : Node) : outcome BinaryError bytes :=
  marshal_to_vec node (vec_with_capacity DEFAULT_MARSHAL_CAPACITY).
Definition marshal_ref (node : NodeRef) : outcome BinaryError bytes :=
  marshal_ref_to_vec node (vec_with_capacity DEFAULT_MARSHAL_CAPACITY).
Definition marshal_with_capacity (node : Node) (capacity : Z) : outcome BinaryError bytes :=
  marshal_to_vec node (vec_with_capacity capacity).

Definition marshal_auto (node : Node) : outcome BinaryError bytes :=
  if should_auto_reserve_node node
  then marshal_with_capacity node (estimate_capacity_node node)
  else marshal node.
End Marshal.

(** ** Unpacking a received frame ([util.rs]) *)

Section Unpack.
(** The zlib inflater, with its size limit. *)
Context (decompress_zlib : bytes -> outcome BinaryError bytes).

Definition unpack (data : bytes) : outcome BinaryError bytes :=
  match data with
  | [] => Err EmptyData
  | data_type :: data =>
      if 0 <? Z.land data_type 2 then decompress_zlib data else Ok data
  end.

Definition unpack_bytes (data : bytes) : outcome BinaryError bytes :=
  match data with
  | [] => Err EmptyData
  | data_type :: _ =>
      if 0 <? Z.land data_type 2 then decompress_zlib (from 1 data) else Ok (from 1 data)
  end.
End Unpack.

(** ** What a value becomes on the wire *)

Section Image.
Context {TM : TokenMaps}.

(** The JID that a string classified as one decodes to; [None] when its server
    is not known to the decoder. *)
Definition string_jid (s : bytes) (meta : ParsedJidMeta) : option Jid :=
  let '(user, server) := split_jid_from_meta s meta in
  srv ← server_ok server;
  Some match meta_device meta with
       | Some d => mkJid user srv (domain_type meta) d 0
       | None => mkJid user srv 0 0 0
       end.

Definition image_value (s : bytes) : option ValueRef :=
  match hint_of s with
  | HJid meta => VRJid <$> string_jid s meta
  | _ => Some (VRString s)
  end.
Definition image_string (s : bytes) : option bytes :=
  match hint_of s with
  | HJid meta => jid_ref_to_compact <$> string_jid s meta
  | _ => Some s
  end.
Definition image_text (s : bytes) : option NodeContentRef :=
  match hint_of s with
  | HJid meta => (fun j => NRString (jid_ref_to_compact j)) <$> string_jid s meta
  | HEmpty | HRawBytes => Some (NRBytes s)
  | _ => Some (NRString s)
  end.

Definition image_jid (j : Jid) : option Jid :=
  user ← (if bool_decide (j_user j = []) then Some [] else image_string (j_user j));
  Some (if (0 <? j_device j) && server_supports_ad_jid (j_server j)
        then mkJid user (j_server j) (server_to_domain_type (j_server j)) (j_device j) 0
        else mkJid user (j_server j) 0 0 0).

Definition image_pair (kv : bytes * NodeValue) : option (bytes * ValueRef) :=
  k ← image_string (fst kv);
  v ← match snd kv with VString s => image_value s | VJid j => VRJid <$> image_jid j end;
  Some (k, v).

Fixpoint image_each {A B} (f : A -> option B) (l : list A) : option (list B) :=
  match l with
  | [] => Some []
  | x :: l' => a ← f x; b ← image_each f l'; Some (a :: b)
  end.

Fixpoint image_node (node : Node) : option NodeRef :=
  match node with
  | mkNode tag attrs content =>
      t ← image_string tag;
      a ← image_each image_pair attrs;
      c ← match content with
          | None | Some (NNodes []) => Some None
          | Some (NString s) => Some <$> image_text s
          | Some (NBytes b) => Some (Some (NRBytes b))
          | Some (NNodes ns) => (fun l => Some (NRNodes l)) <$> image_each image_node ns
          end;
      Some (mkNodeRef t (attrs_ref_from_vec a) c)
  end.
End Image.

(** ** Well-formed values

    What the types of the code guarantee: a [String] is valid UTF-8 and a
    [u16] is not negative; and lengths that fit the 32-bit prefix. *)

Definition string_ok (s : bytes) : bool := utf8_valid s && (zlen s <? 2 ^ 32).
Definition value_ok (v : NodeValue) : bool :=
  match v with VString s => string_ok s | VJid j => string_ok (j_user j) && (0 <=? j_device j) end.
Fixpoint node_ok (n : Node) : bool :=
  match n with
  | mkNode tag attrs content =>
      string_ok tag && forallb (fun kv => string_ok (fst kv) && value_ok (snd kv)) attrs
      && match content with
         | None => true
         | Some (NBytes b) => zlen b <? 2 ^ 32
         | Some (NString s) => string_ok s
         | Some (NNodes ns) => forallb node_ok ns
         end
  end.

Example marshal_ex :
  let n := mkNode (str "iq") [(str "to", VJid (mkJid (str "123456") Pn 0 3 0));
                              (str "id", VString (str "ab:c"))]
             (Some (NNodes [mkNode (str "ping") [] None])) in
  match marshal n with
  | Ok (0 :: bs) => unmarshal_ref bs = Ok (as_node_ref n) /\ image_node n = Some (as_node_ref n)
  | _ => False
  end.
Proof. vm_compute. split; reflexivity. Qed.

(** ** Strings read back *)

(** Resolves the ladder of tag tests for a tag that is a constant, or bounded by
    the hypotheses. *)
Ltac tags :=
  unfold LIST_EMPTY, LIST_8, LIST_16, BINARY_8, BINARY_20, BINARY_32, JID_PAIR, AD_JID,
    INTEROP_JID, FB_JID, NIBBLE_8, HEX_8, DICTIONARY_0, DICTIONARY_3 in *;
  repeat match goal with
  | |- context [?a =? ?b] =>
      first [ replace (a =? b) with true by (symmetry; apply Z.eqb_eq; lia)
            | replace (a =? b) with false by (symmetry; apply Z.eqb_neq; lia) ]
  | |- context [?a <=? ?b] =>
      first [ replace (a <=? b) with true by (symmetry; apply Z.leb_le; lia)
            | replace (a <=? b) with false by (symmetry; apply Z.leb_gt; lia) ]
  end; cbn [orb andb].

Section Reading.
Context {TM : TokenMaps}.

Lemma encode_bytes_cases bs : zlen bs < 2 ^ 32 ->
  exists t len, encode_bytes bs = t :: len ++ bs
    /\ (t = BINARY_8 /\ reads read_u8 len (zlen bs)
        \/ t = BINARY_20 /\ reads read_u20_be len (zlen bs)
        \/ t = BINARY_32 /\ reads read_u32_be len (zlen bs)).
Proof.
  intros Hl. pose proof (zlen_nonneg bs). unfold encode_bytes, wrap.
  destruct (Z.ltb_spec (zlen bs) 256).
  { eexists _, [_]. split; [done|left]. split; [done|].
    rewrite Z.mod_small by (cbn; lia). apply reads_u8. }
  rewrite Z.mod_small by lia. destruct (Z.ltb_spec (zlen bs) (2 ^ 20)).
  - eexists _, _. split; [done|right; left]. split; [done|]. apply reads_u20. lia.
  - eexists _, _. split; [done|right; right]. split; [done|]. apply reads_u32. lia.
Qed.

Lemma reads_sized {A B} (size : reader Z) (m : Z -> reader A) (f : A -> B) len bs a n :
  reads size len n -> reads (m n) bs a ->
  reads (z ← size; x ← m z; mret (f x)) (len ++ bs) (f a).
Proof. intros Hs Hm. eapply reads_bind; [exact Hs|]. by apply reads_then. Qed.

Definition not_jid (s : bytes) : Prop := forall meta, hint_of s <> HJid meta.
Definition jid_tag (t : Z) : Prop := t = JID_PAIR \/ t = AD_JID \/ t = INTEROP_JID \/ t = FB_JID.
Definition binary_tag (t : Z) : Prop := t = BINARY_8 \/ t = BINARY_20 \/ t = BINARY_32.

(** A string that is not a JID, by its tag. *)
Lemma encode_atom rs s : not_jid s -> string_ok s = true ->
  exists t rest, encode_string s = t :: rest
    /\ ~ jid_tag t /\ t <> LIST_EMPTY /\ t <> LIST_8 /\ t <> LIST_16
    /\ reads (read_value_as_string_from_tag rs t) rest (Some s)
    /\ (binary_tag t <-> hint_of s = HEmpty \/ hint_of s = HRawBytes)
    /\ (binary_tag t -> encode_string s = encode_bytes s).
Proof.
  intros Hnj [Hu Hl%Z.ltb_lt]%andb_true_iff. rewrite encode_string_eq.
  pose proof (hint_of_cases s) as Hc. unfold not_jid in Hnj. unfold jid_tag, binary_tag.
  destruct (hint_of s) as [|t|d t| | |meta|].
  - subst s. eexists _, _. split; [done|]. split_and!; try done.
    + by intros [|[|[|]]].
    + unfold read_value_as_string_from_tag. tags.
      apply (reads_sized read_u8 read_string Some [0] [] [] 0 (reads_u8 0)).
      by apply (reads_string []).
    + naive_solver.
  - destruct Hc as [Hg Ht]. eexists _, _. split; [done|].
    unfold read_value_as_string_from_tag. split_and!; try (tags; lia).
    + tags. apply reads_then, reads_lift. by rewrite Hg.
    + tags. split; [lia|]. by intros [|].
  - destruct Hc as (Hg & Hd & Ht). eexists _, _. split; [done|].
    unfold read_value_as_string_from_tag. split_and!; try (tags; lia).
    + tags. apply reads_then. eapply reads_bind_r; [apply reads_u8|].
      apply reads_lift. unfold DICTIONARY_0. replace (236 + d - 236) with d by lia.
      by rewrite Hg.
    + tags. split; [lia|]. by intros [|].
  - destruct Hc as [Hv Hne]. eexists _, _. split; [done|]. split_and!; try done.
    + by intros [|[|[|]]].
    + unfold read_value_as_string_from_tag. tags.
      apply reads_then. by apply reads_packed_nibble.
    + split; [by intros [|[|]]|by intros [|]].
    + by intros [|[|]].
  - destruct Hc as [Hv Hne]. eexists _, _. split; [done|]. split_and!; try done.
    + by intros [|[|[|]]].
    + unfold read_value_as_string_from_tag. tags.
      apply reads_then. by apply reads_packed_hex.
    + split; [by intros [|[|]]|by intros [|]].
    + by intros [|[|]].
  - by destruct (Hnj meta).
  - destruct (encode_bytes_cases s Hl) as (t & len & -> & Ht).
    exists t, (len ++ s). split; [done|].
    destruct Ht as [[-> Hr]|[[-> Hr]|[-> Hr]]];
      (split_and!; try done; [by intros [|[|[|]]]| |naive_solver]);
      unfold read_value_as_string_from_tag; tags;
      eapply reads_sized; try exact Hr; by apply reads_string.
Qed.
End Reading.

(** ** JIDs and nested strings *)

Section ReadingJids.
Context {TM : TokenMaps}.

Lemma no_at_not_jid s : (chr "@" ∉ s) -> not_jid s.
Proof.
  intros Hs meta Hh. pose proof (hint_of_cases s) as Hc. rewrite Hh in Hc.
  apply parse_jid_meta_spec in Hc as (a & u & r & b & -> & _).
  apply Hs. apply elem_of_app. right. left.
Qed.

Lemma server_not_jid srv : not_jid (server_as_str srv) /\ string_ok (server_as_str srv) = true.
Proof.
  split; [|by destruct srv]. apply no_at_not_jid.
  destruct srv; apply (bool_decide_unpack _); vm_compute; exact I.
Qed.

Lemma reads_atom fuel s : not_jid s -> string_ok s = true -> (0 < fuel)%nat ->
  reads (read_value_as_string fuel) (encode_string s) (Some s).
Proof.
  intros Hnj Hok Hf. destruct fuel as [|fuel]; [lia|]. cbn [read_value_as_string].
  destruct (encode_atom (read_value_as_string fuel) s Hnj Hok)
    as (t & rest & -> & _ & _ & _ & _ & Hr & _).
  exact (reads_bind _ _ [t] rest _ _ (reads_u8 t) Hr).
Qed.

(** The pair form, given how the user is read. *)
Lemma reads_jid_pair fuel user user' srv : (0 < fuel)%nat ->
  (if bool_decide (user = []) then user' = []
   else reads (read_value_as_string fuel) (encode_string user) (Some user')) ->
  reads (read_jid_pair (read_value_as_string fuel))
    ((if bool_decide (user = []) then [LIST_EMPTY] else encode_string user)
     ++ encode_string (server_as_str srv))
    (mkJid user' srv 0 0 0).
Proof.
  intros Hf Hu. destruct (server_not_jid srv) as [Hnj Hok].
  assert (Hr : exists o, reads (read_value_as_string fuel)
      (if bool_decide (user = []) then [LIST_EMPTY] else encode_string user) o
      /\ default [] o = user').
  { case_bool_decide; [|by eexists]. subst user'. exists None. split; [|done].
    destruct fuel as [|fuel]; [lia|]. cbn [read_value_as_string].
    apply (reads_bind _ _ [LIST_EMPTY] [] _ _ (reads_u8 _)). apply reads_ret. }
  destruct Hr as (o & Hr & <-). unfold read_jid_pair.
  eapply reads_bind; [exact Hr|]. eapply reads_bind_r; [by apply reads_atom|].
  cbv zeta. change (default [] (Some ?x)) with x. eapply reads_bind_l; [|apply reads_ret].
  apply reads_lift. by rewrite server_try_from_as_str.
Qed.

Lemma domain_to_server_back srv : server_supports_ad_jid srv = true ->
  domain_to_server (server_to_domain_type srv) = Ok srv.
Proof. by destruct srv. Qed.

Lemma reads_ad_jid fuel user user' srv d : server_supports_ad_jid srv = true ->
  reads (read_value_as_string fuel) (encode_string user) (Some user') ->
  reads (read_ad_jid (read_value_as_string fuel))
    (server_to_domain_type srv :: d :: encode_string user)
    (mkJid user' srv (server_to_domain_type srv) d 0).
Proof.
  intros Hs Hu. unfold read_ad_jid.
  apply (reads_bind _ _ [_] _ _ _ (reads_u8 _)). apply (reads_bind _ _ [_] _ _ _ (reads_u8 _)).
  eapply reads_bind_r; [exact Hu|]. eapply reads_bind_l; [by apply reads_lift|].
  eapply reads_bind_l; [apply reads_lift; by apply domain_to_server_back|]. apply reads_ret.
Qed.

Lemma server_ok_inv s srv : server_ok s = Some srv -> s = server_as_str srv.
Proof.
  unfold server_ok. destruct (server_try_from s) eqn:E; [|done..]. intros [= <-].
  by apply server_try_from_Ok.
Qed.

(** A string that holds a JID: its tag, and the JID that is read after it. *)
Lemma encode_string_jid fuel s meta j : (0 < fuel)%nat ->
  hint_of s = HJid meta -> string_ok s = true -> string_jid s meta = Some j ->
  exists t rest, encode_string s = t :: rest
    /\ (t = JID_PAIR /\ reads (read_jid_pair (read_value_as_string fuel)) rest j
        \/ t = AD_JID /\ reads (read_ad_jid (read_value_as_string fuel)) rest j).
Proof.
  intros Hf Hh [Hu Hl%Z.ltb_lt]%andb_true_iff Hj. rewrite encode_string_eq, Hh.
  pose proof (hint_of_cases s) as Hc. rewrite Hh in Hc. unfold string_jid in Hj.
  apply parse_jid_meta_spec in Hc as (a & u & r & b & -> & Ha & -> & Hr & Hsp & Hdt & Hdev).
  rewrite Hsp in *. destruct (server_ok b) as [srv|] eqn:Hb; [|done]. cbn in Hj.
  injection Hj as <-. pose proof (server_ok_inv _ _ Hb) as ->.
  assert (Hus : string_ok u = true).
  { apply utf8_valid_split in Hu as [Hu _]; [|done].
    unfold string_ok. apply andb_true_iff. split.
    - destruct r as [|c r]; [by rewrite app_nil_r in Hu|].
      by apply (utf8_valid_split u c r); [eapply Hr|].
    - apply Z.ltb_lt. rewrite !zlen_app in Hl. pose proof (zlen_nonneg r).
      pose proof (zlen_nonneg (chr "@" :: server_as_str srv)). lia. }
  assert (Hread : reads (read_value_as_string fuel) (encode_string u) (Some u)).
  { apply reads_atom; [|done..]. apply no_at_not_jid. intros Hin. apply Ha.
    apply elem_of_app. by left. }
  destruct (meta_device meta) as [d|].
  - destruct Hdev as (_ & srv' & [= <-] & Hs). eexists _, _. split; [done|right].
    split; [done|]. rewrite Hdt. by apply reads_ad_jid.
  - eexists _, _. split; [done|left]. split; [done|]. apply reads_jid_pair; [done|].
    by case_bool_decide.
Qed.

Lemma reads_image_string fuel s s' : (2 <= fuel)%nat -> string_ok s = true ->
  image_string s = Some s' -> reads (read_value_as_string fuel) (encode_string s) (Some s').
Proof.
  intros Hf Hok Hi. destruct fuel as [|fuel]; [lia|]. unfold image_string in Hi.
  destruct (hint_of s) as [| | | | |meta|] eqn:Hh;
    try (injection Hi as <-; apply reads_atom; [intros m; by rewrite Hh|done|lia]).
  destruct (string_jid s meta) as [j|] eqn:Hj; [|done]. injection Hi as <-.
  destruct (encode_string_jid fuel s meta j ltac:(lia) Hh Hok Hj) as (t & rest & -> & Ht).
  cbn [read_value_as_string]. apply (reads_bind _ _ [t] rest _ _ (reads_u8 t)).
  destruct Ht as [[-> Hr]|[-> Hr]]; unfold read_value_as_string_from_tag; tags;
    eapply reads_bind_r; try exact Hr; apply reads_ret.
Qed.
End ReadingJids.

(** ** Attribute values, attributes and content *)

Section ReadingNodes.
Context {TM : TokenMaps}.

(** Outside the JID tags, a value is the string with the same tag. *)
Lemma reads_value_from_tag fuel t rest s : ~ jid_tag t ->
  reads (read_value_as_string_from_tag (read_value_as_string fuel) t) rest (Some s) ->
  reads (read_value_from_tag fuel t) rest (Some (VRString s)).
Proof.
  unfold jid_tag, read_value_from_tag, read_value_as_string_from_tag. intros Hj H pre tl.
  specialize (H pre tl). unfold mbind, reader_bind, mret, reader_ret in *.
  repeat (case_match; try (exfalso; naive_solver lia)); naive_solver.
Qed.

Lemma reads_image_value fuel s v : (0 < fuel)%nat -> string_ok s = true ->
  image_value s = Some v -> reads (read_value fuel) (encode_string s) (Some v).
Proof.
  intros Hf Hok Hi. unfold image_value in Hi. unfold read_value.
  destruct (hint_of s) as [| | | | |meta|] eqn:Hh;
    try (injection Hi as <-;
         destruct (encode_atom (read_value_as_string fuel) s) as
           (t & rest & -> & Hj & _ & _ & _ & Hr & _); [intros m; by rewrite Hh|done|];
         apply (reads_bind _ _ [t] rest _ _ (reads_u8 t)); by apply reads_value_from_tag).
  destruct (string_jid s meta) as [j|] eqn:Hj; [|done]. injection Hi as <-.
  destruct (encode_string_jid fuel s meta j Hf Hh Hok Hj) as (t & rest & -> & Ht).
  apply (reads_bind _ _ [t] rest _ _ (reads_u8 t)).
  destruct Ht as [[-> Hr]|[-> Hr]]; unfold read_value_from_tag; tags;
    eapply reads_bind_r; try exact Hr; apply reads_ret.
Qed.

Lemma reads_image_jid fuel j j' bs : (2 <= fuel)%nat -> string_ok (j_user j) = true ->
  encode_jid j = Ok bs -> image_jid j = Some j' ->
  reads (read_value fuel) bs (Some (VRJid j')).
Proof.
  unfold encode_jid, image_jid, read_value. intros Hf Hok He Hi.
  destruct (if bool_decide (j_user j = []) then _ else _) as [user|] eqn:Hu; [|done].
  cbn in Hi. injection Hi as <-.
  assert (Hr : reads (read_value_as_string fuel) (encode_string (j_user j)) (Some user)).
  { case_bool_decide as Hnil; [injection Hu as <-; rewrite Hnil|by apply reads_image_string].
    apply reads_atom; [|done|lia]. by apply no_at_not_jid, not_elem_of_nil. }
  destruct (0 <? j_device j), (server_supports_ad_jid (j_server j)) eqn:Hs; cbn [andb] in *;
    [destruct (j_device j <=? 255); [|done]|..]; injection He as <-;
    apply (reads_bind _ _ [_] _ _ _ (reads_u8 _)); unfold read_value_from_tag; tags;
    eapply reads_bind_r; try apply reads_ret; try (by apply reads_ad_jid);
    (apply reads_jid_pair; [lia|]; case_bool_decide; [by injection Hu|done]).
Qed.

Lemma reads_image_pair fuel kv kv' bs : (2 <= fuel)%nat ->
  string_ok (fst kv) && value_ok (snd kv) = true ->
  encode_pair kv = Ok bs -> image_pair kv = Some kv' ->
  reads (key ← read_value_as_string fuel;
         key ← lift (ok_or key NonStringKey);
         value ← read_value fuel;
         mret (key, default (VRString []) value)) bs kv'.
Proof.
  destruct kv as [k v]. unfold encode_pair, image_pair. cbn [fst snd].
  intros Hf [Hk Hv]%andb_true_iff He Hi. inv_ok.
  destruct (image_string k) as [k'|] eqn:Hik; [|done]. cbn [mbind option_bind] in Hi.
  eapply reads_bind; [by apply reads_image_string|].
  eapply reads_bind_l; [by apply reads_lift|].
  destruct v as [s|j]; cbn [encode_value value_ok] in *.
  - destruct (image_value s) as [w|] eqn:Hw; [|done]. injection Hi as <-. inv_ok.
    eapply reads_bind_r; [by apply reads_image_value; [lia|..]|]. apply reads_ret.
  - apply andb_true_iff in Hv as [Hv _].
    destruct (image_jid j) as [w|] eqn:Hw; [|done]. injection Hi as <-.
    eapply reads_bind_r; [by eapply reads_image_jid|]. apply reads_ret.
Qed.

Lemma reads_ext {A} (m m' : reader A) bs a :
  (forall d, m d = m' d) -> reads m bs a -> reads m' bs a.
Proof. intros He Hm pre rest. rewrite <- He. apply Hm. Qed.

Lemma reads_attributes_loop fuel attrs v images bs : (2 <= fuel)%nat ->
  forallb (fun kv => string_ok (fst kv) && value_ok (snd kv)) attrs = true ->
  encode_each encode_pair attrs = Ok bs -> image_each image_pair attrs = Some images ->
  reads (read_attributes_loop fuel (length attrs) v) bs (v ++ images).
Proof.
  intros Hf. revert v images bs. induction attrs as [|kv attrs IH]; intros v images bs Hok He Hi.
  - injection He as <-. injection Hi as <-. rewrite app_nil_r. apply reads_ret.
  - cbn [forallb encode_each image_each length read_attributes_loop] in *.
    apply andb_true_iff in Hok as [Hkv Hok]. inv_ok.
    destruct (image_pair kv) as [p|] eqn:Hp; [|done]. cbn [mbind option_bind] in Hi.
    destruct (image_each image_pair attrs) as [l|] eqn:Hl; [|done]. injection Hi as <-.
    change (p :: l) with ([p] ++ l). rewrite app_assoc.
    eapply reads_ext; [|eapply (reads_bind _ (fun p => read_attributes_loop fuel (length attrs) (v ++ [p])));
      [by eapply reads_image_pair|by eapply IH]].
    intros d. unfold mbind, reader_bind, mret, reader_ret, lift.
    destruct (read_value_as_string fuel d) as [[[k|] d1]| | |]; try done. cbn [ok_or].
    by destruct (read_value fuel d1) as [[]| | |].
Qed.

Lemma reads_attributes fuel attrs images bs : (2 <= fuel)%nat ->
  forallb (fun kv => string_ok (fst kv) && value_ok (snd kv)) attrs = true ->
  encode_each encode_pair attrs = Ok bs -> image_each image_pair attrs = Some images ->
  reads (read_attributes fuel (zlen attrs)) bs (attrs_ref_from_vec images).
Proof.
  intros Hf Hok He Hi. unfold read_attributes. destruct (Z.eqb_spec (zlen attrs) 0) as [Hz|Hz].
  - destruct attrs; [|rewrite zlen_cons in Hz; pose proof (zlen_nonneg attrs); lia].
    injection He as <-. injection Hi as <-. apply reads_ret.
  - unfold zlen. rewrite Nat2Z.id. eapply reads_bind_r; [|apply reads_ret].
    by apply (reads_attributes_loop _ _ []).
Qed.

Lemma reads_list_start len bs : 0 < len -> encode_list_start len = Ok bs ->
  exists t rest, bs = t :: rest /\ (t = LIST_8 \/ t = LIST_16)
    /\ reads (read_list_size t) rest len.
Proof.
  intros Hl. unfold encode_list_start, wrap, read_list_size.
  destruct (Z.eqb_spec len 0); [lia|]. destruct (Z.ltb_spec len 256).
  - intros [= <-]. eexists _, _. split; [done|]. split; [by left|]. tags.
    rewrite Z.mod_small by (cbn; lia). apply reads_u8.
  - destruct (Z.leb_spec len 65535); [|done]. intros [= <-]. eexists _, _. split; [done|].
    split; [by right|]. tags. rewrite (Z.mod_small len) by lia. apply reads_u16. lia.
Qed.

Lemma reads_content_bytes fuel rn b : zlen b < 2 ^ 32 ->
  reads (read_content fuel rn) (encode_bytes b) (Some (NRBytes b)).
Proof.
  intros Hl. unfold read_content.
  destruct (encode_bytes_cases b Hl) as (t & len & -> & Ht).
  apply (reads_bind _ _ [t] _ _ _ (reads_u8 t)). unfold read_content_from_tag.
  destruct Ht as [[-> Hr]|[[-> Hr]|[-> Hr]]]; tags;
    eapply (reads_sized _ read_bytes (fun b => Some (NRBytes b))); try exact Hr; apply reads_bytes.
Qed.

Lemma reads_text_bytes fuel rn s : string_ok s = true ->
  hint_of s = HEmpty \/ hint_of s = HRawBytes ->
  reads (read_content fuel rn) (encode_string s) (Some (NRBytes s)).
Proof.
  intros Hok Hh. destruct (encode_atom (read_value_as_string fuel) s) as
    (t & rest & _ & _ & _ & _ & _ & _ & Hb & He); [|done|].
  { intros m Hm. rewrite Hm in Hh. by destruct Hh. }
  rewrite He by (by apply Hb). apply reads_content_bytes.
  by apply andb_true_iff in Hok as [_ Hl%Z.ltb_lt].
Qed.

Lemma reads_text_atom fuel rn s : string_ok s = true -> not_jid s ->
  hint_of s <> HEmpty -> hint_of s <> HRawBytes ->
  reads (read_content fuel rn) (encode_string s) (Some (NRString s)).
Proof.
  intros Hok Hnj H1 H2. destruct (encode_atom (read_value_as_string fuel) s Hnj Hok) as
    (t & rest & -> & _ & Hne & H8 & H16 & Hr & Hb & _).
  assert (Hnb : ~ binary_tag t) by (rewrite Hb; by intros [|]). unfold binary_tag in Hnb.
  apply (reads_bind _ _ [t] rest _ _ (reads_u8 t)). unfold read_content_from_tag. tags.
  exact (reads_then _ (fun s => match s with Some s => Some (NRString s) | None => None end)
           _ _ Hr).
Qed.

(** A text in content position. *)
Lemma reads_image_text fuel rn s c : (0 < fuel)%nat -> string_ok s = true ->
  image_text s = Some c -> reads (read_content fuel rn) (encode_string s) (Some c).
Proof.
  intros Hf Hok Hi. unfold image_text in Hi. unfold read_content.
  destruct (hint_of s) as [|t|d t| | |meta|] eqn:Hh;
    try (injection Hi as <-;
         first [ apply reads_text_bytes; [done|rewrite Hh; by auto]
               | apply reads_text_atom; [done|intros m|..]; by rewrite Hh ]).
  destruct (string_jid s meta) as [j|] eqn:Hj; [|done]. injection Hi as <-.
  destruct (encode_string_jid fuel s meta j Hf Hh Hok Hj) as (t & rest & -> & Ht).
  apply (reads_bind _ _ [t] rest _ _ (reads_u8 t)). unfold read_content_from_tag.
  destruct Ht as [[-> Hr]|[-> Hr]]; tags;
    apply (reads_then _ (fun s => match s with Some s => Some (NRString s) | None => None end)
             _ (Some (jid_ref_to_compact j)));
    unfold read_value_as_string_from_tag; tags;
    eapply reads_bind_r; try exact Hr; apply reads_ret.
Qed.

Lemma reads_nodes (rn : reader NodeRef) ns images bound bs acc :
  Forall (fun n => forall b r, encode_node n = Ok b -> image_node n = Some r ->
            (length b <= bound)%nat -> reads rn b r) ns ->
  (length bs <= bound)%nat ->
  encode_each encode_node ns = Ok bs -> image_each image_node ns = Some images ->
  reads (read_nodes rn (length ns) acc) bs (acc ++ images).
Proof.
  intros Hall. revert images acc bs.
  induction Hall as [|n ns Hn Hall IH]; intros images acc bs Hlen He Hi.
  - injection He as <-. injection Hi as <-. rewrite app_nil_r. apply reads_ret.
  - cbn [encode_each image_each length read_nodes] in *. inv_ok.
    destruct (image_node n) as [p|] eqn:Hp; [|done]. cbn [mbind option_bind] in Hi.
    destruct (image_each image_node ns) as [l|] eqn:Hl; [|done]. injection Hi as <-.
    rewrite length_app in Hlen. change (p :: l) with ([p] ++ l). rewrite app_assoc.
    eapply reads_bind; [eapply Hn; [done|done|lia]|]. apply IH; [lia|done|done].
Qed.

(** The content of a node, given how its children are read. *)
Lemma reads_image_content fuel rn content c bs bound : (0 < fuel)%nat ->
  match content with
  | None => true
  | Some (NBytes b) => zlen b <? 2 ^ 32
  | Some (NString s) => string_ok s
  | Some (NNodes ns) => forallb node_ok ns
  end = true ->
  (forall ns, content = Some (NNodes ns) ->
     Forall (fun n => forall b r, encode_node n = Ok b -> image_node n = Some r ->
               (length b <= bound)%nat -> reads rn b r) ns) ->
  (length bs <= S bound)%nat ->
  match content with
  | Some (NString s) => Ok (encode_string s)
  | Some (NBytes b) => Ok (encode_bytes b)
  | Some (NNodes nodes) =>
      start ← encode_list_start (zlen nodes); b ← encode_each encode_node nodes; Ok (start ++ b)
  | None => Ok []
  end = Ok bs ->
  match content with
  | None | Some (NNodes []) => Some None
  | Some (NString s) => Some <$> image_text s
  | Some (NBytes b) => Some (Some (NRBytes b))
  | Some (NNodes ns) => (fun l => Some (NRNodes l)) <$> image_each image_node ns
  end = Some c ->
  reads (if bool_decide (is_Some content) then read_content fuel rn else mret None) bs c.
Proof.
  intros Hf Hok Hrn Hlen He Hi. destruct content as [[b|s|ns]|]; cbn in Hi |- *.
  - inv_ok. injection Hi as <-. by apply reads_content_bytes, Z.ltb_lt.
  - inv_ok. destruct (image_text s) eqn:Ht; [|done]. injection Hi as <-.
    by apply reads_image_text.
  - specialize (Hrn ns eq_refl). destruct ns as [|n0 ns'].
    { injection He as <-. injection Hi as <-.
      apply (reads_bind _ _ [LIST_EMPTY] [] _ _ (reads_u8 _)). apply reads_ret. }
    set (l := n0 :: ns') in *. inv_ok.
    destruct (image_each image_node l) as [images|] eqn:Hl; [|done]. injection Hi as <-.
    assert (Hpos : 0 < zlen l)
      by (unfold l; rewrite zlen_cons; pose proof (zlen_nonneg ns'); lia).
    match goal with H : encode_list_start _ = Ok _ |- _ =>
      destruct (reads_list_start _ _ Hpos H) as (t & rest & -> & Ht & Hrs) end.
    cbn [app]. apply (reads_bind _ _ [t] _ _ _ (reads_u8 t)). unfold read_content_from_tag.
    rewrite length_app in Hlen. cbn [length] in Hlen.
    destruct Ht as [-> | ->]; tags; (eapply reads_bind; [exact Hrs|]);
      unfold zlen; rewrite Nat2Z.id; (eapply reads_bind_r; [|apply reads_ret]);
      (eapply (reads_nodes _ _ _ bound _ []); [exact Hrn|lia|done|done]).
  - inv_ok. injection Hi as <-. apply reads_ret.
Qed.

Lemma list_len_parts attrs content :
  0 < list_len attrs content
  /\ (list_len attrs content - 1) / 2 = zlen attrs
  /\ (list_len attrs content mod 2 =? 0) = bool_decide (is_Some content).
Proof.
  unfold list_len. pose proof (zlen_nonneg attrs). case_bool_decide; split_and!; try lia.
  - replace (1 + zlen attrs * 2 + 1 - 1) with (1 + zlen attrs * 2) by lia.
    by rewrite Z.div_add by lia.
  - replace (1 + zlen attrs * 2 + 1) with (0 + (zlen attrs + 1) * 2) by lia.
    by rewrite Z.mod_add by lia.
  - replace (1 + zlen attrs * 2 + 0 - 1) with (0 + zlen attrs * 2) by lia.
    by rewrite Z.div_add by lia.
  - replace (1 + zlen attrs * 2 + 0) with (1 + zlen attrs * 2) by lia.
    by rewrite Z.mod_add by lia.
Qed.

Lemma encode_string_pos s : (0 < length (encode_string s))%nat.
Proof.
  rewrite encode_string_eq. unfold encode_jid_pair, encode_bytes.
  repeat case_match; cbn [length app]; lia.
Qed.

Lemma reads_image_node n : node_ok n = true -> forall fuel bs r,
  (length bs < fuel)%nat -> encode_node n = Ok bs -> image_node n = Some r ->
  reads (read_node_ref fuel) bs r.
Proof.
  induction n as [tag attrs content IH] using Node_tree_ind. intros Hok fuel bs r Hf He Hi.
  cbn [node_ok encode_node image_node] in *.
  apply andb_true_iff in Hok as [[Ht Ha]%andb_true_iff Hc]. inv_ok.
  apply bind_Some in Hi as (tag' & Hit & Hi). apply bind_Some in Hi as (attrs' & Hia & Hi).
  apply bind_Some in Hi as (c & Hic & [= <-]).
  destruct (list_len_parts attrs content) as (Hpos & Hattrs & Hcont).
  match goal with H : encode_list_start _ = Ok _ |- _ =>
    destruct (reads_list_start _ _ Hpos H) as (t & rest & -> & Hlt & Hrs) end.
  pose proof (encode_string_pos tag). rewrite !length_app in Hf. cbn [length] in Hf.
  destruct fuel as [|fuel]; [lia|]. cbn [read_node_ref app]. unfold read_node_body.
  apply (reads_bind _ _ [t] _ _ _ (reads_u8 t)). eapply reads_bind; [exact Hrs|].
  destruct (Z.eqb_spec (list_len attrs content) 0); [lia|].
  eapply reads_bind; [apply reads_image_string; [lia|done|exact Hit]|].
  eapply reads_bind_l; [by apply reads_lift|]. cbv zeta. rewrite Hattrs, Hcont.
  eapply reads_bind; [by eapply reads_attributes; [lia|..]|].
  eapply reads_bind_r; [|apply reads_ret].
  apply (reads_image_content _ _ content c _ (fuel - 1)); [lia|done| |lia|done|done].
  intros ns ->. specialize (IH ns eq_refl). rewrite Forall_forall in IH |- *.
  intros child Hin b r Hb Hr Hlb. apply (IH child Hin); [|lia|done|done].
  rewrite forallb_forall in Hc. by apply Hc, list_elem_of_In.
Qed.
End ReadingNodes.

(** ** When a node can be encoded *)

Definition list_ok (len : Z) : bool := len <=? 65535.
Definition value_encodable (v : NodeValue) : bool :=
  match v with
  | VString _ => true
  | VJid j => negb ((0 <? j_device j) && server_supports_ad_jid (j_server j))
              || (j_device j <=? 255)
  end.
Fixpoint encodable (n : Node) : bool :=
  match n with
  | mkNode tag attrs content =>
      list_ok (list_len attrs content) && forallb (fun kv => value_encodable (snd kv)) attrs
      && match content with
         | Some (NNodes ns) => list_ok (zlen ns) && forallb encodable ns
         | _ => true
         end
  end.

(** ** Nodes that come back unchanged *)

Section Plain.
Context {TM : TokenMaps}.

Definition is_jid_hint (h : StringHint) : bool := match h with HJid _ => true | _ => false end.
Definition plain_string (s : bytes) : bool := negb (is_jid_hint (hint_of s)).
Definition plain_jid (j : Jid) : bool :=
  plain_string (j_user j) && (j_integrator j =? 0)
  && (if 0 <? j_device j
      then server_supports_ad_jid (j_server j)
           && (j_agent j =? server_to_domain_type (j_server j))
      else (j_device j =? 0) && (j_agent j =? 0)).
Definition plain_value (v : NodeValue) : bool :=
  match v with VString s => plain_string s | VJid j => plain_jid j end.
Fixpoint plain_node (n : Node) : bool :=
  match n with
  | mkNode tag attrs content =>
      plain_string tag && forallb (fun kv => plain_string (fst kv) && plain_value (snd kv)) attrs
      && match content with
         | None | Some (NBytes _) => true
         | Some (NString s) =>
             match hint_of s with HEmpty | HRawBytes | HJid _ => false | _ => true end
         | Some (NNodes ns) => negb (zlen ns =? 0) && forallb plain_node ns
         end
  end.

Lemma encode_each_ok {A} (f : A -> outcome BinaryError bytes) (ok : A -> bool) (l : list A) :
  Forall (fun x => (exists b, f x = Ok b) <-> ok x = true) l ->
  (exists b, encode_each f l = Ok b) <-> forallb ok l = true.
Proof.
  induction 1 as [|x l Hx Hl IH]; cbn [encode_each forallb]; [split; eauto|].
  rewrite andb_true_iff, <- Hx, <- IH. split.
  - intros (b & H). inv_ok. eauto.
  - intros [(a & ->) (b & ->)]. cbn. eauto.
Qed.

Lemma encode_list_start_ok len : 0 <= len ->
  (exists b, encode_list_start len = Ok b) <-> list_ok len = true.
Proof.
  intros Hl. unfold encode_list_start, list_ok.
  destruct (Z.eqb_spec len 0), (Z.ltb_spec len 256), (Z.leb_spec len 65535);
    split; intros H'; try done; try lia; try (by eexists); by destruct H'.
Qed.

Lemma encode_pair_ok kv :
  (exists b, encode_pair kv = Ok b) <-> value_encodable (snd kv) = true.
Proof.
  unfold encode_pair, value_encodable, encode_value, encode_jid. destruct kv as [k [s|j]]; cbn.
  - split; [done|]. intros _. by eexists.
  - destruct (0 <? j_device j), (server_supports_ad_jid (j_server j)), (j_device j <=? 255);
      cbn; split; try done; try (intros _; by eexists); by intros [].
Qed.

Lemma encode_node_ok n : (exists b, encode_node n = Ok b) <-> encodable n = true.
Proof.
  induction n as [tag attrs content IH] using Node_tree_ind. cbn [encode_node encodable].
  pose proof (encode_list_start_ok (list_len attrs content)
    (Z.lt_le_incl _ _ (proj1 (list_len_parts attrs content)))) as Hl.
  pose proof (encode_each_ok encode_pair (fun kv => value_encodable (snd kv)) attrs) as Ha.
  specialize (Ha ltac:(apply Forall_true; apply encode_pair_ok)).
  rewrite !andb_true_iff, <- Hl, <- Ha.
  assert (Hc : (exists b, match content with
          | Some (NString s) => Ok (encode_string s)
          | Some (NBytes b) => Ok (encode_bytes b)
          | Some (NNodes nodes) =>
              start ← encode_list_start (zlen nodes);
              b ← encode_each encode_node nodes; Ok (start ++ b)
          | None => Ok []
          end = Ok b)
    <-> match content with
        | Some (NNodes ns) => list_ok (zlen ns) && forallb encodable ns
        | _ => true
        end = true).
  { destruct content as [[b|s|ns]|]; try (split; [done|intros _; by eexists]).
    rewrite andb_true_iff, <- (encode_each_ok encode_node encodable ns (IH ns eq_refl)),
      <- (encode_list_start_ok (zlen ns) (zlen_nonneg ns)).
    split; [intros (b & H); inv_ok; eauto|]. intros [(a & ->) (b & ->)]. by eexists. }
  rewrite <- Hc. split; [intros (b & H); inv_ok; split_and!; by eexists|].
  intros [[(a & ->) (b & ->)] (c & ->)]. by eexists.
Qed.

Lemma plain_string_image s : plain_string s = true ->
  image_string s = Some s /\ image_value s = Some (VRString s).
Proof. unfold plain_string, image_string, image_value. by destruct (hint_of s). Qed.

Lemma plain_jid_image j : plain_jid j = true -> image_jid j = Some j.
Proof.
  unfold plain_jid, image_jid. rewrite !andb_true_iff. intros [[Hu Hi%Z.eqb_eq] Hd].
  apply plain_string_image in Hu as [-> _]. destruct j as [user srv agent device integ]; cbn in *.
  replace (if bool_decide (user = []) then Some [] else Some user) with (Some user)
    by (by case_bool_decide; subst). cbn.
  destruct (0 <? device); apply andb_true_iff in Hd as [H1 H2%Z.eqb_eq].
  - rewrite H1. cbn. by rewrite <- H2, Hi.
  - apply Z.eqb_eq in H1. by rewrite H1, H2, Hi.
Qed.

Lemma image_each_map {A B} (f : A -> option B) (g : A -> B) (l : list A) :
  Forall (fun x => f x = Some (g x)) l -> image_each f l = Some (map g l).
Proof. induction 1 as [|x l Hx Hl IH]; cbn; [done|]. by rewrite Hx, IH. Qed.

Lemma plain_node_image n : plain_node n = true -> image_node n = Some (as_node_ref n).
Proof.
  induction n as [tag attrs content IH] using Node_tree_ind.
  cbn [plain_node image_node as_node_ref]. rewrite !andb_true_iff. intros [[Ht Ha] Hc].
  apply plain_string_image in Ht as [-> _]. cbn [mbind option_bind].
  rewrite (image_each_map _ (fun '(k, v) => (k, as_value_ref v))).
  2:{ rewrite forallb_forall in Ha. apply Forall_forall. intros [k v] Hin%list_elem_of_In.
      specialize (Ha _ Hin). cbn in Ha. apply andb_true_iff in Ha as [Hk Hv].
      unfold image_pair. cbn [fst snd]. apply plain_string_image in Hk as [-> _]. cbn.
      destruct v as [s|j]; cbn in *; [by apply plain_string_image in Hv as [_ ->]|].
      by rewrite plain_jid_image. }
  cbn [mbind option_bind]. destruct content as [[b|s|ns]|]; [done| | |done].
  - unfold image_text. by destruct (hint_of s).
  - apply andb_true_iff in Hc as [Hne Hc]. destruct ns as [|n0 ns]; [done|].
    rewrite (image_each_map _ as_node_ref); [done|]. specialize (IH _ eq_refl).
    rewrite Forall_forall in IH |- *. rewrite forallb_forall in Hc.
    intros x Hx. by apply IH, Hc, list_elem_of_In.
Qed.
End Plain.

(** ** Marshalling is the specification with a leading zero *)

Section Entry.
Context {TM : TokenMaps}.

Lemma vec_emits_res (f : bytes -> outcome BinaryError bytes) o w :
  emits_res f o -> f w = (bs ← o; Ok (w ++ bs)).
Proof.
  destruct o as [bs|e| |]; cbn; intros Hf; try done.
  - by apply Hf.
  - destruct (Hf w I) as [H|(? & ? & H & _)]; [done|]. done.
Qed.

Lemma marshal_spec n : marshal n = (bs ← encode_node n; Ok (0 :: bs)).
Proof. apply (vec_emits_res (write_node no_hints n)), emits_node. done. Qed.

Lemma marshal_ref_spec r : marshal_ref r = (bs ← encode_node (to_owned r); Ok (0 :: bs)).
Proof. apply (vec_emits_res (write_node_ref no_hints r)), emits_node_ref. done. Qed.

Lemma unmarshal_encoded n bs r :
  node_ok n = true -> encode_node n = Ok bs -> image_node n = Some r ->
  unmarshal_ref bs = Ok r.
Proof.
  intros Hok He Hi. unfold unmarshal_ref.
  pose proof (reads_image_node n Hok (S (length bs)) bs r ltac:(lia) He Hi [] []) as H.
  cbn [app] in H. rewrite app_nil_r, zlen_nil in H. unfold decoder_new. rewrite H.
  unfold is_finished. cbn [d_data d_position]. by rewrite Z.leb_refl.
Qed.
End Entry.

(** C25: the round trip over the wire.  A well-formed node that fits the format and
    whose image is defined is marshalled to a frame that unpacks (no compression
    flag) to bytes which [unmarshal_ref] decodes to exactly that image. *)
Theorem marshal_unmarshal {TM : TokenMaps} (inflate : bytes -> outcome BinaryError bytes)
    (n : Node) (r : NodeRef) :
  node_ok n = true -> encodable n = true -> image_node n = Some r ->
  exists bs, marshal n = Ok (0 :: bs) /\ unpack inflate (0 :: bs) = Ok bs
             /\ unmarshal_ref bs = Ok r.
Proof.
  intros Hok He Hi. apply encode_node_ok in He as (bs & He). exists bs.
  rewrite marshal_spec, He. split_and!; [done|done|]. by eapply unmarshal_encoded.
Qed.

Definition sample_node : Node :=
  mkNode (str "message")
    [(str "to", VString (str "15551234567:2@s.whatsapp.net"));
     (str "participant", VJid (mkJid (str "99") HostedLid 129 7 0))]
    (Some (NNodes [mkNode (str "body") [] (Some (NString (str "hello, world")))])).

Lemma marshal_unmarshal_witness :
  exists bs, marshal sample_node = Ok (0 :: bs)
    /\ unpack (fun _ => Err EmptyData) (0 :: bs) = Ok bs
    /\ unmarshal_ref bs
       = Ok (mkNodeRef (str "message")
               (ASlice [(str "to", VRJid (mkJid (str "15551234567") Pn 0 2 0));
                        (str "participant", VRJid (mkJid (str "99") HostedLid 129 7 0))])
               (Some (NRNodes [mkNodeRef (str "body") AEmpty
                                 (Some (NRBytes (str "hello, world")))]))).
Proof. apply marshal_unmarshal; vm_compute; reflexivity. Defined.

(** Nodes in canonical form survive unchanged: no string that the encoder would
    take for a JID, JIDs with the agent of their server, text content that is a
    token or packed, no empty list of children. *)
Lemma marshal_unmarshal_plain {TM : TokenMaps} (n : Node) :
  node_ok n = true -> encodable n = true -> plain_node n = true ->
  exists bs, marshal n = Ok (0 :: bs) /\ unmarshal_ref bs = Ok (as_node_ref n).
Proof.
  intros Hok He Hp. apply encode_node_ok in He as (bs & He). exists bs.
  rewrite marshal_spec, He. split; [done|].
  eapply unmarshal_encoded; [done|done|]. by apply plain_node_image.
Qed.

Definition plain_sample : Node :=
  mkNode (str "iq")
    [(str "to", VJid (mkJid (str "15551234567") Pn 0 2 0)); (str "id", VString (str "ab:c"))]
    (Some (NNodes [mkNode (str "ping") [] (Some (NBytes [1; 2; 255]))])).

Lemma marshal_unmarshal_plain_witness :
  exists bs, marshal plain_sample = Ok (0 :: bs)
    /\ unmarshal_ref bs = Ok (as_node_ref plain_sample).
Proof. apply marshal_unmarshal_plain; vm_compute; reflexivity. Defined.

(** [marshal] fails exactly on the nodes that do not fit: more than 65535 list
    elements, or an AD device above 255; it never panics. *)
Lemma marshal_ok_iff {TM : TokenMaps} (n : Node) :
  ((exists out, marshal n = Ok out) <-> encodable n = true) /\ returns (marshal n).
Proof.
  split.
  - rewrite <- encode_node_ok, marshal_spec. split.
    + intros (out & H). inv_ok. by eexists.
    + intros (bs & ->). by eexists.
  - pose proof (emits_node (W := bytes) no_hints ltac:(done) n) as H.
    rewrite marshal_spec. by destruct (encode_node n).
Qed.

(** The encoder is independent of the writer and of its string cache.  For any
    lawful writer and any sound cache, writing a node that can be encoded is
    writing one fixed byte string: the one [marshal] produces after its leading
    zero. *)
Lemma write_node_any_writer {TM : TokenMaps} {W : Type} {BW : ByteWriter W}
    {L : ByteWriterLaws W} (hint_for : bytes -> option StringHint) (n : Node) (w : W) :
  (forall s h, hint_for s = Some h -> h = hint_of s) ->
  encodable n = true -> writer_ok w ->
  exists bs, marshal n = Ok (0 :: bs) /\ write_node hint_for n w = write_bytes w bs.
Proof.
  intros Hh He Hw. apply encode_node_ok in He as (bs & He). exists bs.
  rewrite marshal_spec, He. split; [done|].
  pose proof (emits_node (W := W) hint_for Hh n) as H. rewrite He in H. by apply H.
Qed.

Lemma write_node_any_writer_witness :
  exists bs, marshal plain_sample = Ok (0 :: bs)
    /\ write_node (fun s => if bytes_eqb s (str "iq") then Some (hint_of s) else None) plain_sample
         (slice_writer_new (replicate 64 0))
       = write_bytes (slice_writer_new (replicate 64 0)) bs.
Proof.
  apply write_node_any_writer.
  - intros s h. destruct (bytes_eqb s (str "iq")); congruence.
  - vm_compute. reflexivity.
  - cbn [writer_ok slice_writer_laws slice_writer_new sb_position sb_buffer].
    change (zlen (replicate 64 0)) with 64. lia.
Defined.

(** A borrowed node is marshalled as its owned copy, whatever the form of its
    attribute slice. *)
Lemma marshal_ref_to_owned {TM : TokenMaps} (r : NodeRef) :
  marshal_ref r = marshal (to_owned r).
Proof. by rewrite marshal_spec, marshal_ref_spec. Qed.

Lemma estimate_children_cap children e e' :
  estimate_children children e = inr e' -> e' = AUTO_MAX_HINT_CAPACITY.
Proof.
  revert e. induction children as [|c cs IH]; intros e; cbn [estimate_children]; [done|].
  case_match; [by intros [= <-]|apply IH].
Qed.

(** The capacity hint is an optimisation: [marshal_auto] returns what [marshal]
    returns, and the hint is always between one and 512 kilobytes. *)
Theorem marshal_auto_marshal {TM : TokenMaps} (n : Node) :
  marshal_auto n = marshal n
  /\ DEFAULT_MARSHAL_CAPACITY <= estimate_capacity_node n <= AUTO_MAX_HINT_CAPACITY.
Proof.
  split; [unfold marshal_auto; by case_match|].
  unfold estimate_capacity_node, clamp, DEFAULT_MARSHAL_CAPACITY.
  destruct (node_content n) as [[b|s|ns]|]; unfold AUTO_MAX_HINT_CAPACITY in *; try lia.
  destruct (estimate_children _ _) eqn:E; [lia|].
  apply estimate_children_cap in E as ->. unfold AUTO_MAX_HINT_CAPACITY. lia.
Qed.

(** A frame with the compression flag is inflated, one without is passed on, an
    empty one is an error; the copying and the in-place unpacker agree. *)
Lemma unpack_frames (inflate : bytes -> outcome BinaryError bytes) (data : bytes) :
  unpack_bytes inflate data = unpack inflate data
  /\ (unpack inflate data = Err EmptyData <-> data = [] \/
      exists t d, data = t :: d /\ Z.testbit t 1 = true /\ inflate d = Err EmptyData).
Proof.
  assert (Hbit : forall t, (0 <? Z.land t 2) = Z.testbit t 1).
  { intros t. change 2 with (2 ^ 1). destruct (Z.testbit t 1) eqn:E.
    - apply Z.ltb_lt. assert (Hz : Z.land t (2 ^ 1) <> 0).
      { intros Hz. apply (f_equal (fun z => Z.testbit z 1)) in Hz.
        by rewrite Z.land_spec, E in Hz. }
      assert (0 <= Z.land t (2 ^ 1)) by (apply Z.land_nonneg; lia). lia.
    - apply Z.ltb_ge. replace (Z.land t (2 ^ 1)) with 0; [lia|]. symmetry.
      apply Z.bits_inj'. intros k Hk. rewrite Z.land_spec, Z.pow2_bits_eqb, Z.testbit_0_l by lia.
      destruct (Z.eqb_spec 1 k) as [<-|]; [by rewrite E|apply andb_false_r]. }
  destruct data as [|t d]; cbn [unpack unpack_bytes].
  - split; [done|]. split; [by left|done].
  - change (from 1 (t :: d)) with d. rewrite Hbit. split; [done|]. split.
    + intros H. right. exists t, d. destruct (Z.testbit t 1); done.
    + intros [|(t' & d' & [= <- <-] & -> & ->)]; done.
Qed.

Lemma read_jid_pair_unknown {TM : TokenMaps} fuel user server pre rest : (0 < fuel)%nat ->
  (if bool_decide (user = []) then True
   else not_jid user /\ string_ok user = true) ->
  not_jid server -> string_ok server = true -> server_ok server = None ->
  read_jid_pair (read_value_as_string fuel)
    (mkDecoder (pre ++ ((if bool_decide (user = []) then [LIST_EMPTY] else encode_string user)
                        ++ encode_string server) ++ rest) (zlen pre))
  = Err (AttrParse (str "JID_PAIR unknown server: " ++ server)).
Proof.
  intros Hf Hu Hnj Hok Hs.
  assert (Hr : exists o, reads (read_value_as_string fuel)
      (if bool_decide (user = []) then [LIST_EMPTY] else encode_string user) o).
  { case_bool_decide; [|exists (Some user); apply reads_atom; naive_solver]. exists None.
    destruct fuel as [|fuel]; [lia|].
    apply (reads_bind _ _ [LIST_EMPTY] [] _ _ (reads_u8 _)). apply reads_ret. }
  destruct Hr as (o & Hr).
  pose proof (reads_bind _ (fun _ => read_value_as_string fuel) _ _ _ _ Hr
                (reads_atom fuel server Hnj Hok Hf) pre rest) as Hrs.
  unfold read_jid_pair, mbind, reader_bind in *.
  destruct (read_value_as_string fuel _) as [[u d1]| | |]; try done. rewrite Hrs.
  unfold server_ok in Hs. cbn [lift default from_option].
  unfold id. destruct (server_try_from_cases server) as [(srv & H & _)|H]; rewrite H in *; done.
Qed.

(** Text that only looks like a JID does not survive.  A string of at most 48
    bytes with an [@] whose right-hand side is not a server name is sent as a JID
    pair, and the decoder rejects every such pair: an attribute holding an e-mail
    address makes the whole stanza undecodable. *)
Lemma unknown_server_undecodable {TM : TokenMaps} (s server : bytes) (meta : ParsedJidMeta)
    (pre rest : bytes) (fuel : nat) :
  hint_of s = HJid meta -> snd (split_jid_from_meta s meta) = server ->
  server_ok server = None -> (chr "@" ∉ server) -> string_ok s = true -> (0 < fuel)%nat ->
  read_value fuel (mkDecoder (pre ++ encode_string s ++ rest) (zlen pre))
  = Err (AttrParse (str "JID_PAIR unknown server: " ++ server)).
Proof.
  intros Hh Hsv Hs Hat [Hu Hl%Z.ltb_lt]%andb_true_iff Hf. rewrite encode_string_eq, Hh.
  pose proof (hint_of_cases s) as Hc. rewrite Hh in Hc.
  apply parse_jid_meta_spec in Hc as (a & u & r & b & -> & Ha & -> & Hr & Hsp & _ & Hdev).
  rewrite Hsp in *. cbn [snd] in Hsv. subst b. rewrite Hs in Hdev.
  destruct (meta_device meta); [by destruct Hdev as (_ & ? & ? & _)|].
  apply utf8_valid_split in Hu as [Hu Hsu]; [|done].
  rewrite !zlen_app, zlen_cons in Hl. pose proof (zlen_nonneg r). pose proof (zlen_nonneg u).
  pose proof (zlen_nonneg server).
  assert (Hus : string_ok u = true).
  { apply andb_true_iff. split; [|apply Z.ltb_lt; lia].
    destruct r as [|c r]; [by rewrite app_nil_r in Hu|].
    by apply (utf8_valid_split u c r); [eapply Hr|]. }
  unfold read_value, encode_jid_pair, mbind, reader_bind. cbn [app].
  pose proof (reads_u8 JID_PAIR pre) as H8. cbn [app] in H8. rewrite H8. unfold read_value_from_tag. tags.
  change (zlen [250]) with 1.
  pose proof (read_jid_pair_unknown fuel u server (pre ++ [250]) rest Hf) as Hp.
  rewrite <- app_assoc, zlen_app in Hp. cbn [app] in Hp. change (zlen [250]) with 1 in Hp.
  unfold LIST_EMPTY in Hp. unfold mbind, reader_bind. rewrite Hp; [done| | | |done].
  - case_bool_decide; [done|]. split; [|done]. apply no_at_not_jid. intros Hin. apply Ha.
    apply elem_of_app. by left.
  - by apply no_at_not_jid.
  - apply andb_true_iff. split; [done|]. apply Z.ltb_lt. lia.
Qed.

Lemma unknown_server_undecodable_witness :
  read_value 3 (mkDecoder ([] ++ encode_string (str "me@example.com") ++ []) (zlen (@nil Z)))
  = Err (AttrParse (str "JID_PAIR unknown server: " ++ str "example.com")).
Proof.
  apply (unknown_server_undecodable _ _ (mkMeta 2 3 0 None)); try (vm_compute; reflexivity);
    [|lia]. apply (bool_decide_unpack _). vm_compute. exact I.
Defined.
