(* ===== verification/Exact.v ===== *)
(** * Exact-size marshalling

    The second strategy of [wacore/binary/src/marshal.rs]: [marshal_exact] first computes
    the size of the encoding ([encoder.rs], the [*_encoded_size_with_cache] functions),
    remembering the classification of short strings in a [StringHintCache], and then
    encodes into a buffer of exactly that size with the help of the cache.

    The cache is keyed by the address and the length of a borrowed string.  [str_ptr] is
    the address; its law is the one the code relies on: while the node is borrowed, two
    strings with the same address and length are the same string. *)

From stdpp Require Import prelude strings countable.
From S2P Require Import Prelude Jid Token Node Writer Packed Decoder Encoder Marshal.

#[local] Open Scope Z_scope.

Class StrKeys : Type := { str_ptr : bytes -> Z }.
Class StrKeysLaws {SK : StrKeys} : Prop := {
  str_ptr_inj s t : str_ptr s = str_ptr t -> zlen s = zlen t -> s = t
}.

Record StrKey : Type := mkKey { key_ptr : Z; key_len : Z }.
#[global] Instance StrKey_eq_dec : EqDecision StrKey.
Proof. solve_decision. Defined.

(** The cache: at most [MAX_HINT_ENTRIES] pairs, in the order of insertion. *)
Abbreviation StringHintCache := (list (StrKey * StringHint)).
Definition MAX_HINT_ENTRIES : Z := 96.

Section Exact.
Context {TM : TokenMaps} {SK : StrKeys}.

Definition key_from_str (s : bytes) : StrKey := mkKey (str_ptr s) (zlen s).

Fixpoint find_hint (key : StrKey) (hints : StringHintCache) : option StringHint :=
  match hints with
  | [] => None
  | (cached_key, hint) :: rest => if bool_decide (cached_key = key) then Some hint else find_hint key rest
  end.

Definition cache_hint_for (hints : StringHintCache) (s : bytes) : option StringHint :=
  find_hint (key_from_str s) hints.

Definition hint_or_insert (s : bytes) (hints : StringHintCache) : StringHint * StringHintCache :=
  if PACKED_MAX <? zlen s then (HRawBytes, hints)
  else
    let key := key_from_str s in
    match find_hint key hints with
    | Some existing => (existing, hints)
    | None =>
        let hint := classify_string_hint s in
        (hint, if zlen hints <? MAX_HINT_ENTRIES then hints ++ [(key, hint)] else hints)
    end.

(** ** Sizes *)

Definition list_start_encoded_size (len : Z) : Z :=
  if len =? 0 then 1 else if len <? 256 then 2 else 3.
Definition binary_len_prefix_size (len : Z) : Z :=
  if len <? 256 then 2 else if len <? Z.shiftl 1 20 then 4 else 5.
Definition bytes_with_len_encoded_size (len : Z) : Z := binary_len_prefix_size len + len.
(** [div_ceil(2)] *)
Definition packed_encoded_size (value_len : Z) : Z := 2 + (value_len + 1) / 2.

Section WithStrings.
(** [string_encoded_size_with_cache] *)
Context (string_size : bytes -> StringHintCache -> Z * StringHintCache).

Definition parsed_jid_encoded_size_with_cache (jid : bytes) (meta : ParsedJidMeta)
    (hints : StringHintCache) : Z * StringHintCache :=
  let '(user, server) := split_jid_from_meta jid meta in
  match meta_device meta with
  | Some _ => let '(n, hints) := string_size user hints in (3 + n, hints)
  | None =>
      let '(user_size, hints) :=
        if bool_decide (user = []) then (1, hints) else string_size user hints in
      let '(server_size, hints) := string_size server hints in
      (1 + user_size + server_size, hints)
  end.

Definition string_encoded_size_from_hint_with_cache (s : bytes) (hint : StringHint)
    (hints : StringHintCache) : Z * StringHintCache :=
  match hint with
  | HEmpty => (2, hints)
  | HSingleToken _ => (1, hints)
  | HDoubleToken _ _ => (2, hints)
  | HPackedNibble | HPackedHex => (packed_encoded_size (zlen s), hints)
  | HRawBytes => (bytes_with_len_encoded_size (zlen s), hints)
  | HJid meta => parsed_jid_encoded_size_with_cache s meta hints
  end.
End WithStrings.

(** The parts of a JID are shorter than it, so the length bounds the recursion. *)
Fixpoint string_size_fuel (fuel : nat) (s : bytes) (hints : StringHintCache)
    : Z * StringHintCache :=
  match fuel with
  | O => (0, hints)
  | S fuel' =>
      let '(hint, hints) := hint_or_insert s hints in
      string_encoded_size_from_hint_with_cache (string_size_fuel fuel') s hint hints
  end.
Definition string_encoded_size_with_cache (s : bytes) (hints : StringHintCache)
    : Z * StringHintCache := string_size_fuel (S (length s)) s hints.

(** [owned_jid_encoded_size_with_cache] and [jid_ref_encoded_size_with_cache] have the
    same body. *)
Definition jid_encoded_size_with_cache (jid : Jid) (hints : StringHintCache) : Z * StringHintCache :=
  if (0 <? j_device jid) && server_supports_ad_jid (j_server jid) then
    let '(n, hints) := string_encoded_size_with_cache (j_user jid) hints in (3 + n, hints)
  else
    let '(user_size, hints) :=
      if bool_decide (j_user jid = []) then (1, hints)
      else string_encoded_size_with_cache (j_user jid) hints in
    let '(server_size, hints) := string_encoded_size_with_cache (server_as_str (j_server jid)) hints in
    (1 + user_size + server_size, hints).

(** [iter().map(f).sum()] with the cache threaded through. *)
Fixpoint sum_sizes {A} (f : A -> StringHintCache -> Z * StringHintCache) (l : list A)
    (hints : StringHintCache) : Z * StringHintCache :=
  match l with
  | [] => (0, hints)
  | x :: l' =>
      let '(n, hints) := f x hints in
      let '(m, hints) := sum_sizes f l' hints in
      (n + m, hints)
  end.

(** An attribute: the value is measured before the key. *)
Definition attr_encoded_size (kv : bytes * NodeValue) (hints : StringHintCache)
    : Z * StringHintCache :=
  let '(value_size, hints) :=
    match snd kv with
    | VString s => string_encoded_size_with_cache s hints
    | VJid jid => jid_encoded_size_with_cache jid hints
    end in
  let '(key_size, hints) := string_encoded_size_with_cache (fst kv) hints in
  (key_size + value_size, hints).
Definition attr_ref_encoded_size (kv : bytes * ValueRef) (hints : StringHintCache)
    : Z * StringHintCache :=
  let '(value_size, hints) :=
    match snd kv with
    | VRString s => string_encoded_size_with_cache s hints
    | VRJid jid => jid_encoded_size_with_cache jid hints
    end in
  let '(key_size, hints) := string_encoded_size_with_cache (fst kv) hints in
  (key_size + value_size, hints).

Fixpoint node_encoded_size_with_cache (node : Node) (hints : StringHintCache)
    : Z * StringHintCache :=
  match node with
  | mkNode tag attrs content =>
      let content_len := if bool_decide (is_Some content) then 1 else 0 in
      let list_len := 1 + zlen attrs * 2 + content_len in
      let '(attrs_size, hints) := sum_sizes attr_encoded_size attrs hints in
      let '(content_size, hints) :=
        match content with
        | Some (NString s) => string_encoded_size_with_cache s hints
        | Some (NBytes b) => (bytes_with_len_encoded_size (zlen b), hints)
        | Some (NNodes nodes) =>
            let '(n, hints) := sum_sizes node_encoded_size_with_cache nodes hints in
            (list_start_encoded_size (zlen nodes) + n, hints)
        | None => (0, hints)
        end in
      let '(tag_size, hints) := string_encoded_size_with_cache tag hints in
      (list_start_encoded_size list_len + tag_size + attrs_size + content_size, hints)
  end.

Fixpoint node_ref_encoded_size_with_cache (node : NodeRef) (hints : StringHintCache)
    : Z * StringHintCache :=
  match node with
  | mkNodeRef tag attrs content =>
      let content_len := if bool_decide (is_Some content) then 1 else 0 in
      let list_len := 1 + attrs_ref_len attrs * 2 + content_len in
      let '(attrs_size, hints) := sum_sizes attr_ref_encoded_size (attrs_ref_as_slice attrs) hints in
      let '(content_size, hints) :=
        match content with
        | Some (NRString s) => string_encoded_size_with_cache s hints
        | Some (NRBytes b) => (bytes_with_len_encoded_size (zlen b), hints)
        | Some (NRNodes nodes) =>
            let '(n, hints) := sum_sizes node_ref_encoded_size_with_cache nodes hints in
            (list_start_encoded_size (zlen nodes) + n, hints)
        | None => (0, hints)
        end in
      let '(tag_size, hints) := string_encoded_size_with_cache tag hints in
      (list_start_encoded_size list_len + tag_size + attrs_size + content_size, hints)
  end.

Record MarshaledSizePlan : Type := mkPlan { plan_size : Z; plan_hints : StringHintCache }.
Definition build_marshaled_node_plan (node : Node) : MarshaledSizePlan :=
  let '(n, hints) := node_encoded_size_with_cache node [] in mkPlan (1 + n) hints.
Definition build_marshaled_node_ref_plan (node : NodeRef) : MarshaledSizePlan :=
  let '(n, hints) := node_ref_encoded_size_with_cache node [] in mkPlan (1 + n) hints.

(** ** Marshalling into the planned buffer *)

(** [Encoder::new_slice] *)
Definition encoder_new_slice (buffer : bytes) : outcome BinaryError SliceByteWriter :=
  write_u8 (slice_writer_new buffer) 0.

(** The [debug_assert_eq!] is a theorem; [truncate] keeps what was written. *)
Definition marshal_exact (node : Node) : outcome BinaryError bytes :=
  let plan := build_marshaled_node_plan node in
  w ← encoder_new_slice (replicate (Z.to_nat (plan_size plan)) 0);
  w ← write_node (cache_hint_for (plan_hints plan)) node w;
  Ok (upto (bytes_written w) (sb_buffer w)).
Definition marshal_ref_exact (node : NodeRef) : outcome BinaryError bytes :=
  let plan := build_marshaled_node_ref_plan node in
  w ← encoder_new_slice (replicate (Z.to_nat (plan_size plan)) 0);
  w ← write_node_ref (cache_hint_for (plan_hints plan)) node w;
  Ok (upto (bytes_written w) (sb_buffer w)).
End Exact.

(** ** The cache is sound *)

Section Sizes.
Context {TM : TokenMaps} {SK : StrKeys} {SL : StrKeysLaws}.

Definition sound (hints : StringHintCache) : Prop :=
  forall s h, cache_hint_for hints s = Some h -> h = hint_of s.

Lemma sound_nil : sound [].
Proof. done. Qed.

Lemma find_hint_snoc key hints k h :
  find_hint key (hints ++ [(k, h)])
  = match find_hint key hints with
    | Some x => Some x
    | None => if bool_decide (k = key) then Some h else None
    end.
Proof. induction hints as [|[k' h'] hints IH]; [done|]. cbn [find_hint app]. rewrite IH. by destruct (bool_decide (k' = key)). Qed.

Lemma hint_or_insert_sound s hints : sound hints ->
  exists hints', hint_or_insert s hints = (hint_of s, hints') /\ sound hints'.
Proof.
  intros Hs. unfold hint_or_insert, hint_of. destruct (PACKED_MAX <? zlen s) eqn:Hl; [by eexists|].
  destruct (find_hint (key_from_str s) hints) as [h|] eqn:Hf.
  { apply Hs in Hf. unfold hint_of in Hf. rewrite Hl in Hf. subst h. by eexists. }
  eexists. split; [done|]. destruct (zlen hints <? MAX_HINT_ENTRIES); [|done].
  intros t h. unfold cache_hint_for. rewrite find_hint_snoc.
  destruct (find_hint (key_from_str t) hints) as [h'|] eqn:Ht; [intros [= <-]; by apply Hs|].
  case_bool_decide as Hk; [|done]. intros [= <-].
  injection Hk as Hp Hz. rewrite (str_ptr_inj t s) by done. unfold hint_of. by rewrite Hl.
Qed.

(** ** The sizes are the lengths of the encodings *)

(** [f] measures [n] bytes and keeps the cache sound. *)
Definition measures (f : StringHintCache -> Z * StringHintCache) (n : Z) : Prop :=
  forall hints, sound hints -> exists hints', f hints = (n, hints') /\ sound hints'.

Lemma measures_ret n : measures (fun hints => (n, hints)) n.
Proof. intros hints Hs. by eexists. Qed.

Lemma measures_ext f g n : (forall hints, f hints = g hints) -> measures g n -> measures f n.
Proof. intros He Hg hints Hs. rewrite He. by apply Hg. Qed.

Lemma encode_bytes_size bs : zlen (encode_bytes bs) = bytes_with_len_encoded_size (zlen bs).
Proof.
  unfold encode_bytes, bytes_with_len_encoded_size, binary_len_prefix_size.
  change (Z.shiftl 1 20) with (2 ^ 20). rewrite zlen_app. f_equal.
  destruct (zlen bs <? 256); [done|]. by destruct (zlen bs <? 2 ^ 20).
Qed.

Lemma encode_list_start_size len bs :
  encode_list_start len = Ok bs -> zlen bs = list_start_encoded_size len.
Proof.
  unfold encode_list_start, list_start_encoded_size. destruct (len =? 0); [by intros [= <-]|].
  destruct (len <? 256); [by intros [= <-]|]. destruct (len <=? 65535); [|done].
  intros E. apply (f_equal (fun o => match o with Ok b => b | _ => [] end)) in E. by subst bs.
Qed.

Lemma measures_pair f g n m c :
  measures f n -> measures g m ->
  measures (fun hints => let '(x, hints) := f hints in let '(y, hints) := g hints in (c + x + y, hints))
    (c + n + m).
Proof.
  intros Hf Hg hints Hs. destruct (Hf hints Hs) as (h1 & -> & Hs1).
  destruct (Hg h1 Hs1) as (h2 & -> & Hs2). by eexists.
Qed.

(** A pair form: a tag byte, the user (one byte when empty) and the server. *)
Lemma measures_jid_pair f enc user server :
  measures (f user) (zlen (enc user)) -> measures (f server) (zlen (enc server)) ->
  measures (fun hints =>
    let '(user_size, hints) := if bool_decide (user = []) then (1, hints) else f user hints in
    let '(server_size, hints) := f server hints in
    (1 + user_size + server_size, hints)) (zlen (encode_jid_pair enc user server)).
Proof.
  intros Hu Hs. unfold encode_jid_pair. rewrite zlen_cons, zlen_app, Z.add_assoc.
  apply (measures_pair (fun hints => if bool_decide (user = []) then (1, hints) else f user hints)); [|done].
  case_bool_decide; [apply measures_ret|done].
Qed.

Lemma measures_prefix f n c : measures f n ->
  measures (fun hints => let '(x, hints) := f hints in (c + x, hints)) (c + n).
Proof. intros Hf hints Hs. destruct (Hf hints Hs) as (h' & -> & Hs'). by eexists. Qed.

Lemma string_size_measures fuel s : (length s < fuel)%nat ->
  measures (string_size_fuel fuel s) (zlen (encode_string s)).
Proof.
  revert s. induction fuel as [|fuel IH]; intros s Hf; [lia|]. intros hints Hh. cbn [string_size_fuel].
  destruct (hint_or_insert_sound s hints Hh) as (h1 & -> & Hh1). revert h1 Hh1.
  change (measures (string_encoded_size_from_hint_with_cache (string_size_fuel fuel) s (hint_of s))
            (zlen (encode_string s))).
  rewrite encode_string_eq. pose proof (hint_of_cases s) as Hc.
  destruct (hint_of s) as [| | | | |meta|]; cbn [string_encoded_size_from_hint_with_cache];
    try apply measures_ret.
  - rewrite !zlen_cons, pairs_zlen, Z.add_assoc. apply measures_ret.
  - rewrite !zlen_cons, pairs_zlen, Z.add_assoc. apply measures_ret.
  - destruct (split_jid_from_meta s meta) as [user server] eqn:Hsp.
    destruct (parse_jid_meta_shorter _ _ _ _ Hc Hsp).
    eapply measures_ext; [intros h; cbn [string_encoded_size_from_hint_with_cache];
      unfold parsed_jid_encoded_size_with_cache; rewrite Hsp; reflexivity|].
    destruct (meta_device meta).
    + rewrite !zlen_cons, !Z.add_assoc. apply (measures_prefix _ _ 3). apply IH. lia.
    + apply measures_jid_pair; apply IH; lia.
  - rewrite encode_bytes_size. apply measures_ret.
Qed.

Lemma string_measures s : measures (string_encoded_size_with_cache s) (zlen (encode_string s)).
Proof. apply string_size_measures. lia. Qed.

(** [f] measures what [o] encodes; when the encoding is refused it measures something. *)
Definition plans (f : StringHintCache -> Z * StringHintCache) (o : outcome BinaryError bytes) : Prop :=
  exists n, measures f n /\ forall bs, o = Ok bs -> n = zlen bs.

Lemma plans_ok f bs : measures f (zlen bs) -> plans f (Ok bs).
Proof. intros Hf. exists (zlen bs). split; [done|]. by intros ? [= ->]. Qed.

Lemma plans_ext f g o : (forall hints, f hints = g hints) -> plans g o -> plans f o.
Proof. intros He (n & Hn & Hb). exists n. split; [by eapply measures_ext|done]. Qed.

Lemma jid_plans j : plans (jid_encoded_size_with_cache j) (encode_jid j).
Proof.
  unfold encode_jid, jid_encoded_size_with_cache. destruct (_ && _).
  - exists (3 + zlen (encode_string (j_user j))). split; [apply (measures_prefix _ _ 3), string_measures|].
    intros bs. destruct (j_device j <=? 255); [|done]. intros E.
    apply (f_equal (fun o => match o with Ok b => b | _ => [] end)) in E. subst bs.
    rewrite !zlen_cons. lia.
  - apply plans_ok, measures_jid_pair; apply string_measures.
Qed.

Lemma sum_plans {A} (f : A -> StringHintCache -> Z * StringHintCache) g (l : list A) :
  Forall (fun x => plans (f x) (g x)) l -> plans (sum_sizes f l) (encode_each g l).
Proof.
  induction 1 as [|x l (n & Hn & Hb) Hl (m & Hm & Hc)]; cbn [encode_each sum_sizes].
  - apply plans_ok, measures_ret.
  - exists (n + m). split.
    + intros hints Hs. destruct (Hn hints Hs) as (h1 & -> & Hs1).
      destruct (Hm h1 Hs1) as (h2 & -> & Hs2). by eexists.
    + intros bs E. apply bind_Ok_inv in E as (a & Ha & E). apply bind_Ok_inv in E as (b & Hb' & [= <-]).
      rewrite zlen_app, (Hb a Ha), (Hc b Hb'). done.
Qed.

Lemma attr_plans kv : plans (attr_encoded_size kv) (encode_pair kv).
Proof.
  assert (Hv : plans (fun hints => match kv.2 with
      | VString s => string_encoded_size_with_cache s hints
      | VJid jid => jid_encoded_size_with_cache jid hints end) (encode_value kv.2)).
  { destruct kv.2; [apply plans_ok, string_measures|apply jid_plans]. }
  destruct Hv as (n & Hn & Hb). exists (zlen (encode_string kv.1) + n). split.
  - unfold attr_encoded_size. intros hints Hs. destruct (Hn hints Hs) as (h1 & -> & Hs1).
    destruct (string_measures kv.1 h1 Hs1) as (h2 & -> & Hs2). by eexists.
  - intros bs E. apply bind_Ok_inv in E as (b & Hb' & [= <-]). by rewrite zlen_app, (Hb b Hb').
Qed.

(** The shape shared by owned and borrowed nodes. *)
Lemma node_shape_plans fa fc oa oc tag len :
  plans fa oa -> plans fc oc ->
  plans (fun hints =>
    let '(attrs_size, hints) := fa hints in
    let '(content_size, hints) := fc hints in
    let '(tag_size, hints) := string_encoded_size_with_cache tag hints in
    (list_start_encoded_size len + tag_size + attrs_size + content_size, hints))
    (start ← encode_list_start len; a ← oa; c ← oc; Ok (start ++ encode_string tag ++ a ++ c)).
Proof.
  intros (na & Ha & Hba) (nc & Hc & Hbc).
  exists (list_start_encoded_size len + zlen (encode_string tag) + na + nc). split.
  - intros hints Hs. destruct (Ha hints Hs) as (h1 & -> & H1). destruct (Hc h1 H1) as (h2 & -> & H2).
    destruct (string_measures tag h2 H2) as (h3 & -> & H3). by exists h3.
  - intros bs E. apply bind_Ok_inv in E as (start & Hl & E). apply bind_Ok_inv in E as (a & Ha' & E).
    apply bind_Ok_inv in E as (c & Hc' & [= <-]).
    rewrite !zlen_app, (encode_list_start_size _ _ Hl), (Hba a Ha'), (Hbc c Hc'). lia.
Qed.

Lemma children_plans {A} (f : A -> StringHintCache -> Z * StringHintCache) g (l : list A) :
  Forall (fun x => plans (f x) (g x)) l ->
  plans (fun hints => let '(n, hints) := sum_sizes f l hints in
                      (list_start_encoded_size (zlen l) + n, hints))
    (start ← encode_list_start (zlen l); b ← encode_each g l; Ok (start ++ b)).
Proof.
  intros Hl%sum_plans. destruct Hl as (n & Hn & Hb). eexists. split; [by apply measures_prefix|].
  intros bs E. apply bind_Ok_inv in E as (st & Hst & E). apply bind_Ok_inv in E as (b & Hb' & [= <-]).
  by rewrite zlen_app, (encode_list_start_size _ _ Hst), (Hb b Hb').
Qed.

Lemma bytes_plans b : plans (fun hints => (bytes_with_len_encoded_size (zlen b), hints)) (Ok (encode_bytes b)).
Proof. apply plans_ok. rewrite encode_bytes_size. apply measures_ret. Qed.

Lemma node_plans n : plans (node_encoded_size_with_cache n) (encode_node n).
Proof.
  induction n as [tag attrs content IH] using Node_tree_ind.
  cbn [encode_node node_encoded_size_with_cache].
  apply (node_shape_plans (sum_sizes attr_encoded_size attrs)).
  - apply sum_plans, Forall_true. apply attr_plans.
  - destruct content as [[b|s|ns]|].
    + apply bytes_plans.
    + apply plans_ok, string_measures.
    + by apply children_plans, IH.
    + apply plans_ok, measures_ret.
Qed.

Lemma attr_ref_plans kv :
  plans (attr_ref_encoded_size kv) (encode_pair (let '(k, v) := kv in (intern_cow k, to_node_value v))).
Proof.
  destruct kv as [k v]. rewrite intern_cow_id. eapply plans_ext; [|apply attr_plans].
  intros hints. by destruct v.
Qed.

Lemma encode_each_map {A B} (f : B -> outcome BinaryError bytes) (h : A -> B) l :
  encode_each f (map h l) = encode_each (fun x => f (h x)) l.
Proof. induction l as [|x l IH]; [done|]. cbn. by rewrite IH. Qed.

Lemma zlen_map {A B} (h : A -> B) l : zlen (map h l) = zlen l.
Proof. unfold zlen. by rewrite length_map. Qed.

Lemma node_ref_plans r : plans (node_ref_encoded_size_with_cache r) (encode_node (to_owned r)).
Proof.
  induction r as [tag attrs content IH] using NodeRef_tree_ind.
  cbn [to_owned encode_node node_ref_encoded_size_with_cache]. rewrite intern_cow_id.
  unfold list_len. rewrite zlen_map, encode_each_map.
  replace (zlen (attrs_ref_as_slice attrs)) with (attrs_ref_len attrs) by (by destruct attrs).
  pose proof (sum_plans attr_ref_encoded_size _ (attrs_ref_as_slice attrs)
    (Forall_true _ _ attr_ref_plans)) as Ha.
  destruct content as [[b|s|ns]|].
  - apply (node_shape_plans _ (fun hints => (bytes_with_len_encoded_size (zlen b), hints)) _ _ tag _ Ha).
    apply bytes_plans.
  - apply (node_shape_plans _ (string_encoded_size_with_cache s) _ _ tag _ Ha).
    apply plans_ok, string_measures.
  - rewrite zlen_map, encode_each_map.
    apply (node_shape_plans _ (fun hints =>
      let '(n, hints) := sum_sizes node_ref_encoded_size_with_cache ns hints in
      (list_start_encoded_size (zlen ns) + n, hints)) _ _ tag _ Ha). by apply children_plans, IH.
  - apply (node_shape_plans _ (fun hints => (0, hints)) _ _ tag _ Ha). apply plans_ok, measures_ret.
Qed.
End Sizes.

(** ** Writing into a buffer of the planned size *)

Definition write_planned (size : Z) (f : SliceByteWriter -> outcome BinaryError SliceByteWriter)
    : outcome BinaryError bytes :=
  w ← encoder_new_slice (replicate (Z.to_nat size) 0);
  w ← f w;
  Ok (upto (bytes_written w) (sb_buffer w)).

Lemma zlen_replicate (n : Z) (x : byte) : 0 <= n -> zlen (replicate (Z.to_nat n) x) = n.
Proof. intros Hn. unfold zlen. rewrite length_replicate. lia. Qed.

Lemma write_planned_exact f bs : emits f bs -> write_planned (1 + zlen bs) f = Ok (0 :: bs).
Proof.
  intros Hf. pose proof (zlen_nonneg bs). unfold write_planned, encoder_new_slice, slice_writer_new.
  set (buf := replicate _ 0). assert (Hb : zlen buf = 1 + zlen bs) by (apply zlen_replicate; lia).
  cbn [write_u8 slice_byte_writer sb_buffer sb_position]. destruct (Z.leb_spec (zlen buf) 0); [lia|].
  cbn [mbind outcome_bind]. rewrite Hf.
  - cbn [write_bytes slice_byte_writer sb_buffer sb_position].
    rewrite copy_at_zlen by (change (zlen [0]) with 1; lia).
    destruct (Z.ltb_spec (zlen buf) (0 + 1 + zlen bs)); [lia|].
    cbn [mbind outcome_bind bytes_written sb_buffer sb_position]. f_equal.
    change (0 + 1) with (0 + zlen [0]). rewrite copy_at_app by lia. unfold copy_at.
    change (upto 0 buf) with (@nil Z). cbn [app]. rewrite app_comm_cons.
    change (zlen [0]) with 1. replace (0 + 1 + zlen bs) with (zlen (0 :: bs)) by (rewrite zlen_cons; lia).
    apply upto_app.
  - cbn [writer_ok slice_writer_laws sb_buffer sb_position].
    rewrite copy_at_zlen by (change (zlen [0]) with 1; lia). lia.
Qed.

Lemma write_planned_err size f e : emits_res f (Err e) -> is_err (write_planned size f) = true.
Proof.
  intros Hf. unfold write_planned, encoder_new_slice, slice_writer_new.
  set (buf := replicate _ 0). cbn [write_u8 slice_byte_writer sb_buffer sb_position].
  destruct (Z.leb_spec (zlen buf) 0); [done|]. cbn [mbind outcome_bind].
  match goal with |- context [f ?w] => destruct (Hf w) as [->|(bs & e' & _ & ->)] end; [|done..].
  cbn [writer_ok slice_writer_laws sb_buffer sb_position].
  rewrite copy_at_zlen by (change (zlen [0]) with 1; lia). lia.
Qed.

Lemma write_planned_res size f o : emits_res f o -> (forall bs, o = Ok bs -> size = 1 + zlen bs) ->
  match o with
  | Ok bs => write_planned size f = Ok (0 :: bs)
  | _ => is_err (write_planned size f) = true
  end.
Proof.
  intros Hf Hsize. destruct o as [bs|e| |]; [|by eapply write_planned_err|done..].
  rewrite (Hsize bs eq_refl). by apply write_planned_exact.
Qed.

Lemma marshal_returns {TM : TokenMaps} n : returns (marshal n).
Proof.
  rewrite marshal_spec. pose proof (emits_node (W := bytes) no_hints ltac:(done) n) as H.
  by destruct (encode_node n).
Qed.

Lemma planned_spec k f o : emits_res f o -> (forall bs, o = Ok bs -> k = zlen bs) ->
  match (bs ← o; Ok (0 :: bs)) with
  | Ok bs => write_planned (1 + k) f = Ok bs /\ 1 + k = zlen bs
  | _ => is_err (write_planned (1 + k) f) = true
  end.
Proof.
  intros Hf Hk. pose proof (write_planned_res (1 + k) f o Hf) as H.
  destruct o as [bs|e| |]; cbn [mbind outcome_bind]; try (apply H; intros ? [=]).
  rewrite zlen_cons, (Hk bs eq_refl). split; [|done]. rewrite <- (Hk bs eq_refl). apply H.
  intros ? [= <-]. by rewrite (Hk bs eq_refl).
Qed.

(** ** Properties *)

(** The two-pass encoder is the one-pass encoder.  When [marshal] succeeds, the plan of
    [marshal_exact] is exactly the length of the result (its [debug_assert_eq!] holds, the
    buffer is neither too short nor truncated) and the result is the same; when [marshal]
    fails, so does [marshal_exact].  Likewise for borrowed nodes. *)
Lemma marshal_exact_spec {TM : TokenMaps} {SK : StrKeys} {SL : StrKeysLaws} (n : Node) (r : NodeRef) :
  match marshal n with
  | Ok bs => marshal_exact n = Ok bs /\ plan_size (build_marshaled_node_plan n) = zlen bs
  | _ => is_err (marshal_exact n) = true
  end
  /\ match marshal_ref r with
     | Ok bs => marshal_ref_exact r = Ok bs /\ plan_size (build_marshaled_node_ref_plan r) = zlen bs
     | _ => is_err (marshal_ref_exact r) = true
     end.
Proof.
  rewrite marshal_spec, marshal_ref_spec. split.
  - unfold marshal_exact, build_marshaled_node_plan. destruct (node_plans n) as (k & Hm & Hb).
    destruct (Hm [] sound_nil) as (hints & -> & Hs). cbn [plan_size plan_hints].
    apply (planned_spec k); [apply emits_node, Hs|done].
  - unfold marshal_ref_exact, build_marshaled_node_ref_plan. destruct (node_ref_plans r) as (k & Hm & Hb).
    destruct (Hm [] sound_nil) as (hints & -> & Hs). cbn [plan_size plan_hints].
    apply (planned_spec k); [apply emits_node_ref, Hs|done].
Qed.

(** Strings at the address of their contents. *)
#[global] Instance content_keys : StrKeys := {| str_ptr s := Z.pos (encode s) |}.
#[global] Instance content_keys_laws : StrKeysLaws.
Proof. split. intros s t [= H] _. by apply (inj encode). Qed.

Definition refused_sample : Node :=
  mkNode (str "iq") [(str "to", VJid (mkJid (str "1") Pn 0 256 0))] None.

Lemma marshal_exact_spec_witness :
  marshal_exact plain_sample = marshal plain_sample /\ is_err (marshal_exact refused_sample) = true.
Proof.
  split.
  - pose proof (proj1 (marshal_exact_spec plain_sample (as_node_ref plain_sample))) as H. revert H.
    assert (E : is_err (marshal plain_sample) = false) by (vm_compute; reflexivity). revert E.
    pose proof (marshal_returns plain_sample) as R. revert R.
    generalize (marshal plain_sample). intros [bs|e| |] R E H;
      [exact (proj1 H)|discriminate E|destruct R|destruct R].
  - pose proof (proj1 (marshal_exact_spec refused_sample (as_node_ref plain_sample))) as H. revert H.
    assert (E : is_err (marshal refused_sample) = true) by (vm_compute; reflexivity). revert E.
    generalize (marshal refused_sample). intros [bs|e| |] E H;
      [discriminate E|exact H|discriminate E|discriminate E].
Defined.
