(* ===== verification/Framing.v ===== *)
(** * Frames on the socket

    [wacore/noise/src/framing.rs] and [edge_routing.rs]: a frame is a payload
    after its length, three bytes, big endian.  [FrameDecoder] buffers what the
    transport delivers and cuts frames off its front; [receive] is the receive
    loop of [src/client/node_io.rs]: feed one delivery, take every complete
    frame. *)

From stdpp Require Import prelude strings.
From S2P Require Import Prelude Token Decoder.

#[local] Open Scope Z_scope.

Definition FRAME_LENGTH_SIZE : Z := 3.
Definition FRAME_MAX_SIZE : Z := Z.shiftl 1 24.

Inductive FrameError : Type := FrameTooLarge (max got : Z).

(** [encode_frame_into]: the output buffer is cleared first. *)
Definition encode_frame_into (payload : bytes) (header : option bytes) (out : bytes)
    : outcome FrameError bytes :=
  let payload_len := zlen payload in
  if FRAME_MAX_SIZE <=? payload_len then Err (FrameTooLarge FRAME_MAX_SIZE payload_len)
  else
    let out := [] in
    let out := match header with Some header_data => out ++ header_data | None => out end in
    let len_bytes := to_be_bytes 4 (wrap 32 payload_len) in
    let out := out ++ from 1 len_bytes in
    Ok (out ++ payload).

Definition encode_frame (payload : bytes) (header : option bytes) : outcome FrameError bytes :=
  encode_frame_into payload header [].

Record FrameDecoder : Type := mkFrameDecoder { fd_buffer : bytes }.

Definition frame_decoder_new : FrameDecoder := mkFrameDecoder [].
Definition feed (d : FrameDecoder) (data : bytes) : FrameDecoder :=
  mkFrameDecoder (fd_buffer d ++ data).

(** [unique]: whether [try_into_mut] finds no other reference to the payload. *)
Definition feed_bytes (d : FrameDecoder) (data : bytes) (unique : bool) : FrameDecoder :=
  if bool_decide (fd_buffer d = []) then
    if unique then mkFrameDecoder data else mkFrameDecoder (fd_buffer d ++ data)
  else mkFrameDecoder (fd_buffer d ++ data).

(** The three length bytes. *)
Definition frame_length (b0 b1 b2 : byte) : Z :=
  Z.lor (Z.lor (Z.shiftl b0 16) (Z.shiftl b1 8)) b2.

(** Indexing and [split_to] panic out of range. *)
Definition decode_frame (d : FrameDecoder) : outcome FrameError (option bytes * FrameDecoder) :=
  let buffer := fd_buffer d in
  if zlen buffer <? FRAME_LENGTH_SIZE then Ok (None, d)
  else
    match buffer !! 0%nat, buffer !! 1%nat, buffer !! 2%nat with
    | Some b0, Some b1, Some b2 =>
        let frame_len := frame_length b0 b1 b2 in
        if FRAME_LENGTH_SIZE + frame_len <=? zlen buffer then
          let buffer := from FRAME_LENGTH_SIZE buffer in
          if frame_len <=? zlen buffer
          then Ok (Some (upto frame_len buffer), mkFrameDecoder (from frame_len buffer))
          else Panic
        else Ok (None, d)
    | _, _, _ => Panic
    end.

Definition buffered_len (d : FrameDecoder) : Z := zlen (fd_buffer d).
Definition frame_decoder_clear (d : FrameDecoder) : FrameDecoder := mkFrameDecoder [].

(** [while let Some(frame) = frame_decoder.decode_frame()] *)
Fixpoint drain_fuel (fuel : nat) (d : FrameDecoder) (acc : list bytes)
    : outcome FrameError (list bytes * FrameDecoder) :=
  match fuel with
  | O => Timeout
  | S fuel' =>
      '(frame, d) ← decode_frame d;
      match frame with
      | Some f => drain_fuel fuel' d (acc ++ [f])
      | None => Ok (acc, d)
      end
  end.
Definition drain (d : FrameDecoder) (acc : list bytes) : outcome FrameError (list bytes * FrameDecoder) :=
  drain_fuel (S (length (fd_buffer d))) d acc.

(** The receive loop over a sequence of deliveries. *)
Fixpoint receive (d : FrameDecoder) (deliveries : list (bytes * bool)) (acc : list bytes)
    : outcome FrameError (list bytes * FrameDecoder) :=
  match deliveries with
  | [] => Ok (acc, d)
  | (data, unique) :: rest =>
      '(acc, d) ← drain (feed_bytes d data unique) acc;
      receive d rest acc
  end.

(** ** Edge routing *)

Definition WA_MAGIC_VALUE : Z := 6.
Definition WA_CONN_HEADER : bytes := [chr "W"; chr "A"; WA_MAGIC_VALUE; DICT_VERSION].
Definition MAX_EDGE_ROUTING_LEN : Z := 16777215.

Inductive EdgeRoutingError : Type := RoutingInfoTooLarge.

Definition build_edge_routing_preintro (routing_info : bytes) : outcome EdgeRoutingError bytes :=
  let len := zlen routing_info in
  if MAX_EDGE_ROUTING_LEN <? len then Err RoutingInfoTooLarge
  else
    let preintro := [chr "E"; chr "D"; 0; 1] in
    let preintro := preintro ++ [wrap 8 (Z.shiftr len 16)] in
    let preintro := preintro ++ [wrap 8 (Z.shiftr len 8)] in
    let preintro := preintro ++ [wrap 8 len] in
    Ok (preintro ++ routing_info).

Definition build_handshake_header (edge_routing_info : option bytes) : bytes * bool :=
  match edge_routing_info with
  | None => (WA_CONN_HEADER, false)
  | Some routing_info =>
      match build_edge_routing_preintro routing_info with
      | Ok header => (header ++ WA_CONN_HEADER, true)
      | _ => (WA_CONN_HEADER, false)
      end
  end.

(** ** The frames of a stream

    The specification: what the bytes received so far contain, whatever the way
    they were delivered. *)

Fixpoint stream_fuel (fuel : nat) (s : bytes) : list bytes * bytes :=
  match fuel, s with
  | S fuel', b0 :: b1 :: b2 :: rest =>
      let n := frame_length b0 b1 b2 in
      if n <=? zlen rest then
        let '(fs, r) := stream_fuel fuel' (from n rest) in (upto n rest :: fs, r)
      else ([], s)
  | _, _ => ([], s)
  end.
Definition stream_frames (s : bytes) : list bytes * bytes := stream_fuel (length s) s.

Lemma frame_length_be b0 b1 b2 : is_byte b0 -> is_byte b1 -> is_byte b2 ->
  frame_length b0 b1 b2 = from_be_bytes [b0; b1; b2].
Proof.
  unfold is_byte, frame_length, from_be_bytes. intros H0 H1 H2. cbn [from_be_acc].
  rewrite <- Z.lor_assoc, (lor_shiftl b1 b2 8), lor_shiftl by lia. lia.
Qed.

(** One step of the decoder. *)
Lemma decode_frame_short s : zlen s < 3 ->
  decode_frame (mkFrameDecoder s) = Ok (None, mkFrameDecoder s).
Proof. intros H. unfold decode_frame, FRAME_LENGTH_SIZE. cbn. by destruct (Z.ltb_spec (zlen s) 3); [|lia]. Qed.

Lemma decode_frame_cons b0 b1 b2 rest :
  decode_frame (mkFrameDecoder (b0 :: b1 :: b2 :: rest))
  = let n := frame_length b0 b1 b2 in
    if n <=? zlen rest then Ok (Some (upto n rest), mkFrameDecoder (from n rest))
    else Ok (None, mkFrameDecoder (b0 :: b1 :: b2 :: rest)).
Proof.
  unfold decode_frame, FRAME_LENGTH_SIZE. cbn [fd_buffer]. rewrite !zlen_cons.
  pose proof (zlen_nonneg rest). destruct (Z.ltb_spec (1 + (1 + (1 + zlen rest))) 3); [lia|].
  cbn [lookup list_lookup]. change (from 3 (b0 :: b1 :: b2 :: rest)) with rest. cbv zeta.
  set (n := frame_length b0 b1 b2).
  destruct (Z.leb_spec n (zlen rest)), (Z.leb_spec (3 + n) (1 + (1 + (1 + zlen rest)))); done || lia.
Qed.

Lemma short_cases (s : bytes) :
  zlen s < 3 \/ exists b0 b1 b2 rest, s = b0 :: b1 :: b2 :: rest.
Proof.
  destruct s as [|b0 [|b1 [|b2 rest]]]; [left; done..|]. right. eauto.
Qed.

Lemma stream_fuel_short fuel s : zlen s < 3 -> stream_fuel fuel s = ([], s).
Proof.
  intros H. destruct fuel; [done|]. destruct s as [|b0 [|b1 [|b2 rest]]]; try done.
  rewrite !zlen_cons in H. pose proof (zlen_nonneg rest). lia.
Qed.

Lemma length_from_le n (s : bytes) : (length (from n s) <= length s)%nat.
Proof. unfold from. rewrite length_drop. lia. Qed.

Lemma stream_fuel_enough fuel s : (length s <= fuel)%nat ->
  stream_fuel fuel s = stream_frames s.
Proof.
  unfold stream_frames. remember (length s) as g eqn:Hg. intros Hf.
  assert (Hl : (length s <= g)%nat) by lia. assert (Hl' : (length s <= fuel)%nat) by lia.
  clear Hg Hf. revert g s Hl Hl'.
  induction fuel as [|fuel IH]; intros g s Hg Hf.
  - destruct s; [|cbn in Hf; lia]. by rewrite !stream_fuel_short.
  - destruct (short_cases s) as [Hs|(b0 & b1 & b2 & rest & ->)]; [by rewrite !stream_fuel_short|].
    destruct g as [|g]; [cbn in Hg; lia|]. cbn [stream_fuel length] in *.
    pose proof (length_from_le (frame_length b0 b1 b2) rest).
    by rewrite (IH g) by lia.
Qed.

Lemma stream_frames_cons b0 b1 b2 rest :
  stream_frames (b0 :: b1 :: b2 :: rest)
  = let n := frame_length b0 b1 b2 in
    if n <=? zlen rest then
      let '(fs, r) := stream_frames (from n rest) in (upto n rest :: fs, r)
    else ([], b0 :: b1 :: b2 :: rest).
Proof.
  unfold stream_frames at 1. cbn [length]. remember (S (S (length rest))) as g eqn:Hg.
  cbn [stream_fuel]. cbv zeta. pose proof (length_from_le (frame_length b0 b1 b2) rest).
  by rewrite stream_fuel_enough by lia.
Qed.

Lemma drain_spec s acc :
  drain (mkFrameDecoder s) acc
  = Ok (acc ++ (stream_frames s).1, mkFrameDecoder (stream_frames s).2).
Proof.
  unfold drain. cbn [fd_buffer]. remember (S (length s)) as fuel eqn:Hf.
  assert (Hl : (length s < fuel)%nat) by lia. clear Hf. revert s acc Hl.
  induction fuel as [|fuel IH]; intros s acc Hl; [lia|]. cbn [drain_fuel].
  destruct (short_cases s) as [Hs|(b0 & b1 & b2 & rest & ->)].
  - rewrite decode_frame_short by done. unfold stream_frames. rewrite stream_fuel_short by done.
    cbn. by rewrite app_nil_r.
  - rewrite decode_frame_cons, stream_frames_cons. cbv zeta.
    destruct (frame_length b0 b1 b2 <=? zlen rest); cbn [mbind outcome_bind fst snd];
      [|by rewrite app_nil_r]. cbn [length] in Hl.
    pose proof (length_from_le (frame_length b0 b1 b2) rest). rewrite IH by lia.
    destruct (stream_frames (from _ rest)) as [fs r]. cbn. by rewrite <- app_assoc.
Qed.

(** A longer stream has the same frames first. *)
Lemma stream_frames_app s t :
  stream_frames (s ++ t)
  = let '(fs, r) := stream_frames s in
    let '(gs, r') := stream_frames (r ++ t) in (fs ++ gs, r').
Proof.
  remember (length s) as n eqn:Hn. assert (Hl : (length s <= n)%nat) by lia. clear Hn.
  revert s Hl. induction n as [n IH] using lt_wf_ind. intros s Hl.
  destruct (short_cases s) as [Hs|(b0 & b1 & b2 & rest & ->)].
  - unfold stream_frames at 2. rewrite stream_fuel_short by done. cbn.
    by destruct (stream_frames (s ++ t)).
  - cbn [app]. rewrite (stream_frames_cons b0 b1 b2 rest). cbv zeta.
    destruct (Z.leb_spec (frame_length b0 b1 b2) (zlen rest)) as [Hle|Hgt]; cycle 1.
    { cbn [app]. by destruct (stream_frames _). }
    rewrite stream_frames_cons. cbv zeta. set (k := frame_length b0 b1 b2) in *.
    rewrite zlen_app. pose proof (zlen_nonneg t).
    destruct (Z.leb_spec k (zlen rest + zlen t)); [|lia].
    assert (Hu : upto k (rest ++ t) = upto k rest)
      by (unfold upto; rewrite take_app_le; [done|unfold zlen in Hle; lia]).
    assert (Hfr : from k (rest ++ t) = from k rest ++ t)
      by (unfold from; rewrite drop_app_le; [done|unfold zlen in Hle; lia]).
    rewrite Hu, Hfr. pose proof (length_from_le k rest). cbn [length] in Hl.
    rewrite (IH (length (from k rest))) by lia.
    destruct (stream_frames (from k rest)) as [fs r].
    by destruct (stream_frames (r ++ t)).
Qed.

Lemma feed_bytes_feed d data unique : feed_bytes d data unique = feed d data.
Proof.
  unfold feed_bytes, feed. destruct d as [buf]; cbn. case_bool_decide; [subst|done].
  by destruct unique.
Qed.

(** What is left over contains no frame. *)
Lemma stream_frames_rest s : (stream_frames (stream_frames s).2) = ([], (stream_frames s).2).
Proof.
  remember (length s) as n eqn:Hn. assert (Hl : (length s <= n)%nat) by lia. clear Hn.
  revert s Hl. induction n as [n IH] using lt_wf_ind. intros s Hl.
  destruct (short_cases s) as [Hs|(b0 & b1 & b2 & rest & ->)].
  - assert (Hsf : stream_frames s = ([], s)) by (by apply stream_fuel_short).
    by rewrite Hsf.
  - rewrite stream_frames_cons. cbv zeta.
    destruct (frame_length b0 b1 b2 <=? zlen rest) eqn:E; cbn [fst snd];
      [|rewrite stream_frames_cons; cbv zeta; by rewrite E].
    pose proof (length_from_le (frame_length b0 b1 b2) rest). cbn [length] in Hl.
    specialize (IH (length (from (frame_length b0 b1 b2) rest)) ltac:(lia) _ ltac:(done)).
    by destruct (stream_frames (from _ rest)) as [fs r].
Qed.

Lemma receive_spec s deliveries acc :
  stream_frames s = ([], s) ->
  receive (mkFrameDecoder s) deliveries acc
  = Ok (acc ++ (stream_frames (s ++ concat deliveries.*1)).1,
        mkFrameDecoder (stream_frames (s ++ concat deliveries.*1)).2).
Proof.
  revert s acc. induction deliveries as [|[data unique] rest IH]; intros s acc Hs.
  - cbn. by rewrite app_nil_r, Hs, app_nil_r.
  - cbn [receive]. rewrite feed_bytes_feed. unfold feed. cbn [fd_buffer].
    rewrite drain_spec. cbn [mbind outcome_bind]. rewrite IH by apply stream_frames_rest.
    rewrite fmap_cons. cbn [fst concat]. rewrite app_assoc, (stream_frames_app (s ++ data)).
    destruct (stream_frames (s ++ data)) as [fs r]. cbn [fst snd].
    destruct (stream_frames (r ++ concat rest.*1)) as [gs r']. cbn. by rewrite app_assoc.
Qed.

(** ** Properties of framing *)

(** C33: reassembly does not depend on how the transport cuts the stream: whatever
    the deliveries and whether their buffers were adopted or copied, the receive
    loop terminates, never panics, and yields the frames of the concatenated bytes
    in order, keeping the incomplete tail. *)
Theorem receive_any_chunking (deliveries : list (bytes * bool)) :
  receive frame_decoder_new deliveries []
  = Ok ((stream_frames (concat deliveries.*1)).1,
        mkFrameDecoder (stream_frames (concat deliveries.*1)).2).
Proof. apply (receive_spec [] deliveries []). done. Qed.

Lemma encode_frame_Ok payload out : encode_frame payload None = Ok out ->
  zlen payload < 2 ^ 24 /\ out = to_be_bytes 3 (zlen payload) ++ payload.
Proof.
  unfold encode_frame, encode_frame_into, FRAME_MAX_SIZE. change (Z.shiftl 1 24) with (2 ^ 24).
  destruct (Z.leb_spec (2 ^ 24) (zlen payload)); [done|].
  unfold wrap. pose proof (zlen_nonneg payload).
  rewrite (Z.mod_small (zlen payload) (2 ^ 32)) by lia. intros H'. split; [done|].
  symmetry. exact (f_equal (fun o => match o with Ok b => b | _ => [] end) H').
Qed.

Lemma stream_frames_encoded payload rest : zlen payload < 2 ^ 24 ->
  stream_frames ((to_be_bytes 3 (zlen payload) ++ payload) ++ rest)
  = (payload :: (stream_frames rest).1, (stream_frames rest).2).
Proof.
  intros Hl. pose proof (zlen_nonneg payload) as Hp.
  pose proof (to_be_bytes_are_bytes 3 (zlen payload)) as Hb.
  pose proof (from_to_be_bytes 3 (zlen payload) ltac:(change (2 ^ (8 * Z.of_nat 3)) with (2 ^ 24); lia)) as Hf.
  destruct (to_be_bytes 3 (zlen payload)) as [|b0 [|b1 [|b2 []]]] eqn:E; try done.
  unfold are_bytes in Hb. rewrite !Forall_cons in Hb. destruct Hb as (H0 & H1 & H2 & _).
  cbn [app]. rewrite stream_frames_cons. cbv zeta. rewrite frame_length_be, Hf by done.
  rewrite zlen_app. pose proof (zlen_nonneg rest).
  destruct (Z.leb_spec (zlen payload) (zlen payload + zlen rest)); [|lia].
  rewrite from_app, upto_app. by destruct (stream_frames rest).
Qed.

(** The frames of a list of payloads, one after the other. *)
Fixpoint encode_all (payloads : list bytes) : outcome FrameError bytes :=
  match payloads with
  | [] => Ok []
  | p :: ps => a ← encode_frame p None; b ← encode_all ps; Ok (a ++ b)
  end.

Lemma stream_frames_all payloads s : encode_all payloads = Ok s ->
  stream_frames s = (payloads, []).
Proof.
  revert s. induction payloads as [|p ps IH]; intros s H; cbn [encode_all] in H; inv_ok; [done|].
  match goal with H : encode_frame _ _ = _ |- _ => apply encode_frame_Ok in H as [Hl ->] end.
  rewrite stream_frames_encoded by done.
  match goal with H : encode_all ps = _ |- _ => by rewrite (IH _ H) end.
Qed.

(** What is sent is received: the payloads framed by [encode_frame], written one
    after the other and delivered in any pieces, come out as the same payloads with
    nothing left in the buffer. *)
Lemma framing_roundtrip (payloads : list bytes) (stream : bytes)
    (deliveries : list (bytes * bool)) :
  encode_all payloads = Ok stream -> concat deliveries.*1 = stream ->
  receive frame_decoder_new deliveries [] = Ok (payloads, frame_decoder_new).
Proof.
  intros He <-. unfold frame_decoder_new. rewrite (receive_spec [] deliveries []) by done.
  cbn [app]. by rewrite (stream_frames_all _ _ He).
Qed.

Lemma framing_roundtrip_witness :
  receive frame_decoder_new [([0; 0], true); ([2; 7; 8; 0], false); ([0; 1; 9], true)] []
  = Ok ([[7; 8]; [9]], frame_decoder_new).
Proof. eapply framing_roundtrip; vm_compute; reflexivity. Defined.

(** [encode_frame] refuses exactly the payloads of 2^24 bytes or more, the ones
    whose length would not fit the prefix; the others get the header, the length
    and the payload. *)
Lemma encode_frame_bounds (payload : bytes) (header : option bytes) (out : bytes) :
  encode_frame_into payload header out
  = if zlen payload <? 2 ^ 24
    then Ok (default [] header ++ to_be_bytes 3 (zlen payload) ++ payload)
    else Err (FrameTooLarge (2 ^ 24) (zlen payload)).
Proof.
  unfold encode_frame_into, FRAME_MAX_SIZE. change (Z.shiftl 1 24) with (2 ^ 24).
  pose proof (zlen_nonneg payload). unfold wrap.
  destruct (Z.leb_spec (2 ^ 24) (zlen payload)), (Z.ltb_spec (zlen payload) (2 ^ 24)); try lia; [done|].
  rewrite Z.mod_small by lia. destruct header; cbn [app default from_option];
    change (from 1 (to_be_bytes 4 ?z)) with (to_be_bytes 3 z); [by rewrite <- app_assoc|done].
Qed.

(** The handshake header is always sendable: it ends with the connection header;
    the edge-routing prefix is present exactly when the routing data fits its
    three-byte length, which then frames the data. *)
Theorem handshake_header_spec (info : bytes) :
  build_handshake_header None = (WA_CONN_HEADER, false)
  /\ build_handshake_header (Some info)
     = (if zlen info <? 2 ^ 24
        then str "ED" ++ [0; 1] ++ to_be_bytes 3 (zlen info) ++ info ++ WA_CONN_HEADER
        else WA_CONN_HEADER, zlen info <? 2 ^ 24).
Proof.
  split; [done|]. unfold build_handshake_header, build_edge_routing_preintro, MAX_EDGE_ROUTING_LEN.
  destruct (Z.ltb_spec 16777215 (zlen info)), (Z.ltb_spec (zlen info) (2 ^ 24)); try lia; [done|].
  cbn [to_be_bytes]. change (8 * Z.of_nat 0) with 0. by rewrite Z.shiftr_0_r.
Qed.
