(* ===== verification/Noise.v ===== *)
(** * The Noise symmetric state

    [wacore/noise/src/state.rs].  The cryptographic provider is the interface
    [Crypto] (the [SignalCryptoProvider] trait and the [sha2] and [hkdf] crates);
    [CryptoLaws] is its documented behaviour: opening what was sealed under the
    same key, nonce and associated data returns the plaintext, sealing adds a tag
    of 16 bytes, and the key derivation returns as many bytes as asked.

    An operation on [&mut self] maps a state to the state it leaves and a result,
    so that the state after an error is explicit. *)

From stdpp Require Import prelude strings.
From S2P Require Import Prelude.

#[local] Open Scope Z_scope.

Class Crypto : Type := {
  CryptoProviderError : Type;
  sha256 : bytes -> bytes;
  gcm_encrypt : bytes -> bytes -> bytes -> bytes -> outcome CryptoProviderError bytes;
  gcm_decrypt : bytes -> bytes -> bytes -> bytes -> outcome CryptoProviderError bytes;
  (** [Hkdf::<Sha256>::new(Some(salt), ikm).expand(info, okm)] for [okm] of a length *)
  hkdf_sha256 : bytes -> bytes -> bytes -> Z -> option bytes;
}.

Class CryptoLaws {C : Crypto} : Prop := {
  gcm_encrypt_returns k iv aad p : returns (gcm_encrypt k iv aad p);
  gcm_open_seal k iv aad p c : gcm_encrypt k iv aad p = Ok c -> gcm_decrypt k iv aad c = Ok p;
  gcm_seal_length k iv aad p c : gcm_encrypt k iv aad p = Ok c -> zlen c = zlen p + 16;
  hkdf_length salt ikm info n okm : hkdf_sha256 salt ikm info n = Some okm -> zlen okm = n;
}.

(** [generate_iv]: the counter in the last four of twelve bytes. *)
Definition generate_iv (counter : Z) : bytes := replicate 8 0 ++ to_be_bytes 4 counter.

Definition TAG_LEN : Z := 16.
Definition U32_MAX : Z := 4294967295.

(** [u32::checked_add(1)] *)
Definition checked_add_1 (c : Z) : option Z := if c =? U32_MAX then None else Some (c + 1).

Section Noise.
Context {C : Crypto}.

Inductive NoiseError : Type :=
  | Encrypt (e : CryptoProviderError)
  | Decrypt (e : CryptoProviderError)
  | CiphertextTooShort
  | HkdfExpandFailed
  | CounterExhausted.

(** ** The transport cipher *)

Record NoiseCipher : Type := mkCipher { aead_key : bytes }.

Definition encrypt_with_counter (c : NoiseCipher) (counter : Z) (plaintext : bytes)
    : outcome NoiseError bytes :=
  let iv := generate_iv counter in
  let out := [] ++ plaintext in
  map_err Encrypt (gcm_encrypt (aead_key c) iv [] out).

(** The in-place variants replace the buffer. *)
Definition encrypt_in_place_with_counter (c : NoiseCipher) (counter : Z) (buffer : bytes)
    : outcome NoiseError bytes :=
  map_err Encrypt (gcm_encrypt (aead_key c) (generate_iv counter) [] buffer).
Definition decrypt_in_place_with_counter (c : NoiseCipher) (counter : Z) (buffer : bytes)
    : outcome NoiseError bytes :=
  map_err Decrypt (gcm_decrypt (aead_key c) (generate_iv counter) [] buffer).

(** ** The handshake state *)

Record NoiseState : Type := mkNoise {
  ns_hash : bytes; ns_salt : bytes; ns_key : bytes; ns_counter : Z
}.
Record NoiseKeys : Type := mkKeys { nk_write : NoiseCipher; nk_read : NoiseCipher }.

Definition set_hash (st : NoiseState) (h : bytes) : NoiseState :=
  mkNoise h (ns_salt st) (ns_key st) (ns_counter st).
Definition set_counter (st : NoiseState) (c : Z) : NoiseState :=
  mkNoise (ns_hash st) (ns_salt st) (ns_key st) c.

Definition authenticate (st : NoiseState) (data : bytes) : NoiseState :=
  set_hash st (sha256 (ns_hash st ++ data)).

(** [NoiseState::new]: a name of at most 32 bytes is padded, a longer one hashed. *)
Definition noise_new (pattern prologue : bytes) : NoiseState :=
  let h := if zlen pattern <=? 32
           then pattern ++ replicate (32 - length pattern) 0 else sha256 pattern in
  authenticate (mkNoise h h h 0) prologue.

Definition post_increment_counter (st : NoiseState) : NoiseState * outcome NoiseError Z :=
  let count := ns_counter st in
  match checked_add_1 (ns_counter st) with
  | Some c => (set_counter st c, Ok count)
  | None => (st, Err CounterExhausted)
  end.

(** [encrypt_into]: appends the ciphertext to [out] and hashes it. *)
Definition encrypt_into (st : NoiseState) (plaintext out : bytes)
    : NoiseState * outcome NoiseError bytes :=
  match post_increment_counter st with
  | (st, Ok counter) =>
      match gcm_encrypt (ns_key st) (generate_iv counter) (ns_hash st) plaintext with
      | Ok c => (authenticate st c, Ok (out ++ c))
      | Err e => (st, Err (Encrypt e))
      | Panic => (st, Panic)
      | Timeout => (st, Timeout)
      end
  | (st, Err e) => (st, Err e)
  | (st, Panic) => (st, Panic)
  | (st, Timeout) => (st, Timeout)
  end.
Definition encrypt (st : NoiseState) (plaintext : bytes)
    : NoiseState * outcome NoiseError bytes := encrypt_into st plaintext [].

Definition decrypt_append (st : NoiseState) (ciphertext out : bytes)
    : NoiseState * outcome NoiseError bytes :=
  let aad := ns_hash st in
  match post_increment_counter st with
  | (st, Ok counter) =>
      match gcm_decrypt (ns_key st) (generate_iv counter) aad ciphertext with
      | Ok p => (authenticate st ciphertext, Ok (out ++ p))
      | Err e => (st, Err (Decrypt e))
      | Panic => (st, Panic)
      | Timeout => (st, Timeout)
      end
  | (st, Err e) => (st, Err e)
  | (st, Panic) => (st, Panic)
  | (st, Timeout) => (st, Timeout)
  end.
Definition decrypt (st : NoiseState) (ciphertext : bytes)
    : NoiseState * outcome NoiseError bytes := decrypt_append st ciphertext [].

(** [decrypt_into] checks the length first, before the counter moves. *)
Definition decrypt_into (st : NoiseState) (ciphertext out : bytes)
    : NoiseState * outcome NoiseError bytes :=
  if zlen ciphertext <? TAG_LEN then (st, Err CiphertextTooShort)
  else decrypt_append st ciphertext out.

Definition extract_and_expand (st : NoiseState) (ikm : option bytes)
    : outcome NoiseError (bytes * bytes) :=
  match hkdf_sha256 (ns_salt st) (default [] ikm) [] 64 with
  | Some okm => Ok (upto 32 okm, from 32 okm)
  | None => Err HkdfExpandFailed
  end.

(** [mix_key] resets the counter before it derives; the counter stays reset when
    the derivation fails. *)
Definition mix_key (st : NoiseState) (input_key_material : bytes)
    : NoiseState * outcome NoiseError unit :=
  let st := set_counter st 0 in
  match extract_and_expand st (Some input_key_material) with
  | Ok (new_salt, new_key) => (mkNoise (ns_hash st) new_salt new_key (ns_counter st), Ok tt)
  | Err e => (st, Err e)
  | Panic => (st, Panic)
  | Timeout => (st, Timeout)
  end.

Definition split (st : NoiseState) : outcome NoiseError NoiseKeys :=
  '(w, r) ← extract_and_expand st None; Ok (mkKeys (mkCipher w) (mkCipher r)).
End Noise.

(** ** Transcripts

    A handshake is a sequence of steps that both sides take: mixing public data,
    sending one message (sealed by one side and opened by the other), mixing a
    shared secret. *)

Inductive step : Type :=
  | SAuth (data : bytes)
  | SMsg (plaintext : bytes)
  | SMix (ikm : bytes).

Section Transcript.
Context {C : Crypto}.

(** The side that seals: the ciphertexts it sends, in order. *)
Fixpoint run_sender (st : NoiseState) (l : list step)
    : NoiseState * outcome NoiseError (list bytes) :=
  match l with
  | [] => (st, Ok [])
  | SAuth data :: l' => run_sender (authenticate st data) l'
  | SMix ikm :: l' =>
      match mix_key st ikm with
      | (st, Ok _) => run_sender st l'
      | (st, Err e) => (st, Err e)
      | (st, Panic) => (st, Panic)
      | (st, Timeout) => (st, Timeout)
      end
  | SMsg p :: l' =>
      match encrypt st p with
      | (st, Ok c) => let '(st, r) := run_sender st l' in (st, cs ← r; Ok (c :: cs))
      | (st, Err e) => (st, Err e)
      | (st, Panic) => (st, Panic)
      | (st, Timeout) => (st, Timeout)
      end
  end.

(** The side that opens: it follows the same steps, takes the ciphertexts from
    the wire and returns the plaintexts. *)
Fixpoint run_receiver (st : NoiseState) (l : list step) (wire : list bytes)
    : NoiseState * outcome NoiseError (list bytes) :=
  match l with
  | [] => (st, Ok [])
  | SAuth data :: l' => run_receiver (authenticate st data) l' wire
  | SMix ikm :: l' =>
      match mix_key st ikm with
      | (st, Ok _) => run_receiver st l' wire
      | (st, Err e) => (st, Err e)
      | (st, Panic) => (st, Panic)
      | (st, Timeout) => (st, Timeout)
      end
  | SMsg _ :: l' =>
      match wire with
      | [] => (st, Err CiphertextTooShort)
      | c :: wire' =>
          match decrypt st c with
          | (st, Ok p) => let '(st, r) := run_receiver st l' wire' in (st, ps ← r; Ok (p :: ps))
          | (st, Err e) => (st, Err e)
          | (st, Panic) => (st, Panic)
          | (st, Timeout) => (st, Timeout)
          end
      end
  end.

Definition messages (l : list step) : list bytes :=
  omap (fun s => match s with SMsg p => Some p | _ => None end) l.
End Transcript.

(** ** Lemmas *)

Lemma generate_iv_length c : zlen (generate_iv c) = 12.
Proof. unfold generate_iv. by rewrite zlen_app, to_be_bytes_zlen. Qed.

Lemma generate_iv_inj a b : 0 <= a <= U32_MAX -> 0 <= b <= U32_MAX ->
  generate_iv a = generate_iv b -> a = b.
Proof.
  unfold U32_MAX, generate_iv. intros Ha Hb H. apply app_inv_head in H.
  rewrite <- (from_to_be_bytes 4 a), <- (from_to_be_bytes 4 b), H; [done|..];
    change (2 ^ (8 * Z.of_nat 4)) with 4294967296; lia.
Qed.

Section Sync.
Context {C : Crypto} {L : CryptoLaws}.

Lemma decrypt_encrypt st p st' c : encrypt st p = (st', Ok c) -> decrypt st c = (st', Ok p).
Proof.
  unfold encrypt, encrypt_into, decrypt, decrypt_append, post_increment_counter.
  destruct (checked_add_1 (ns_counter st)) as [n|]; [|done].
  destruct (gcm_encrypt _ _ _ p) as [c'| | |] eqn:E; try done. cbn [app]. intros [= <- <-].
  change (ns_hash st) with (ns_hash (set_counter st n)). by rewrite (gcm_open_seal _ _ _ _ _ E).
Qed.

Lemma run_sync st l st' wire :
  run_sender st l = (st', Ok wire) -> run_receiver st l wire = (st', Ok (messages l)).
Proof.
  revert st wire. induction l as [|[data|p|ikm] l IH]; intros st wire;
    cbn [run_sender run_receiver messages omap list_omap].
  - by intros [= <- <-].
  - apply IH.
  - destruct (encrypt st p) as [st1 [c| | |]] eqn:E; try done.
    destruct (run_sender st1 l) as [st2 [cs| | |]] eqn:Er; try done. intros [= <- <-].
    rewrite (decrypt_encrypt _ _ _ _ E), (IH _ _ Er). done.
  - destruct (mix_key st ikm) as [st1 [| | |]]; try done. apply IH.
Qed.

(** What the sender passes to the cipher: the number of keys mixed so far and
    the nonce. *)
Fixpoint sealed (epoch : nat) (st : NoiseState) (l : list step) : list (nat * bytes) :=
  match l with
  | [] => []
  | SAuth data :: l' => sealed epoch (authenticate st data) l'
  | SMix ikm :: l' =>
      match mix_key st ikm with
      | (st, Ok _) => sealed (S epoch) st l'
      | _ => []
      end
  | SMsg p :: l' =>
      match post_increment_counter st with
      | (_, Ok counter) =>
          (epoch, generate_iv counter)
          :: match encrypt st p with (st, Ok _) => sealed epoch st l' | _ => [] end
      | _ => []
      end
  end.

Lemma sealed_later epoch st l e iv : 0 <= ns_counter st <= U32_MAX ->
  (e, iv) ∈ sealed epoch st l ->
  (epoch < e)%nat
  \/ e = epoch /\ exists c, ns_counter st <= c <= U32_MAX /\ iv = generate_iv c.
Proof.
  revert epoch st. induction l as [|[data|p|ikm] l IH]; intros epoch st Hc; cbn [sealed].
  - intros H. by apply not_elem_of_nil in H.
  - exact (IH epoch (authenticate st data) Hc).
  - unfold encrypt, encrypt_into, post_increment_counter, checked_add_1.
    destruct (Z.eqb_spec (ns_counter st) U32_MAX); [intros H; by apply not_elem_of_nil in H|].
    intros [[= -> ->]|H]%elem_of_cons; [right; split; [done|]; exists (ns_counter st); split; [lia|done]|].
    destruct (gcm_encrypt _ _ _ p); try (by apply not_elem_of_nil in H).
    apply IH in H; cbn in *; [|lia]. destruct H as [|(-> & c & Hcc & ->)]; [by left|right].
    split; [done|]. exists c. split; [lia|done].
  - unfold mix_key. destruct (extract_and_expand _ _) as [[s k]| | |];
      try (intros H; by apply not_elem_of_nil in H).
    intros H. apply IH in H; [|cbn; unfold U32_MAX; lia]. left. lia.
Qed.

Lemma sealed_NoDup epoch st l : 0 <= ns_counter st <= U32_MAX -> NoDup (sealed epoch st l).
Proof.
  revert epoch st. induction l as [|[data|p|ikm] l IH]; intros epoch st Hc; cbn [sealed].
  - constructor.
  - exact (IH epoch (authenticate st data) Hc).
  - unfold encrypt, encrypt_into, post_increment_counter, checked_add_1.
    destruct (Z.eqb_spec (ns_counter st) U32_MAX); [constructor|].
    destruct (gcm_encrypt _ _ _ p);
      try (apply NoDup_cons; split; [apply not_elem_of_nil|constructor]).
    apply NoDup_cons. split; [|apply IH; cbn; lia].
    intros H. apply sealed_later in H; [|cbn; lia].
    destruct H as [|(_ & c & Hcc & H)]; [lia|]. cbn in Hcc.
    apply generate_iv_inj in H; lia.
  - unfold mix_key. destruct (extract_and_expand _ _) as [[s k]| | |]; try constructor.
    apply IH. cbn. unfold U32_MAX. lia.
Qed.
End Sync.

(** ** A provider for the examples *)

(** Not a cipher: it appends a tag of 16 bytes derived from the nonce, which is
    enough for the laws. *)
Definition toy_tag (iv aad : bytes) : bytes := iv ++ upto 4 (aad ++ [0; 0; 0; 0]).

#[global] Instance toy_crypto : Crypto := {|
  CryptoProviderError := unit;
  sha256 b := upto 32 (to_be_bytes 4 (fold_left Z.add b 7) ++ b ++ replicate 32 0);
  gcm_encrypt k iv aad p := if zlen iv =? 12 then Ok (p ++ toy_tag iv aad) else Err tt;
  gcm_decrypt k iv aad c :=
    let n := zlen c - 16 in
    if bytes_eqb (from n c) (toy_tag iv aad) then Ok (upto n c) else Err tt;
  hkdf_sha256 salt ikm info n :=
    if (0 <=? n) && (n <=? 64) then Some (upto n (salt ++ ikm ++ replicate 64 9)) else None;
|}.

Lemma toy_tag_length iv aad : zlen iv = 12 -> zlen (toy_tag iv aad) = 16.
Proof.
  intros H. unfold toy_tag. rewrite zlen_app, H. unfold upto, zlen.
  rewrite length_take, length_app. change (length [0; 0; 0; 0]) with 4%nat. lia.
Qed.

#[global] Instance toy_crypto_laws : CryptoLaws (C := toy_crypto).
Proof.
  split; cbn [gcm_encrypt gcm_decrypt toy_crypto].
  - intros. by case_match.
  - intros k iv aad p c. destruct (Z.eqb_spec (zlen iv) 12) as [H|]; [|done]. intros [= <-].
    rewrite zlen_app, toy_tag_length by done. replace (zlen p + 16 - 16) with (zlen p) by lia.
    by rewrite from_app, bytes_eqb_refl, upto_app.
  - intros k iv aad p c. destruct (Z.eqb_spec (zlen iv) 12) as [H|]; [|done]. intros [= <-].
    by rewrite zlen_app, toy_tag_length.
  - intros salt ikm info n okm. cbn [hkdf_sha256 toy_crypto].
    destruct (Z.leb_spec 0 n), (Z.leb_spec n 64); try done. cbn [andb].
    remember (replicate 64 9) as pad eqn:Hpad. intros [= <-]. subst pad. unfold upto, zlen. rewrite length_take, !length_app, length_replicate. lia.
Qed.

(** ** Properties *)

(** C32: the two sides of a handshake stay in step.  Whatever the sequence of mixing
    and messages, if the sealing side completes it, the opening side that starts
    from the same state and reads the ciphertexts recovers every plaintext and ends
    in the same state. *)
Theorem noise_transcript_sync {C : Crypto} {L : CryptoLaws} (st st' : NoiseState)
    (l : list step) (wire : list bytes) :
  run_sender st l = (st', Ok wire) -> run_receiver st l wire = (st', Ok (messages l)).
Proof. apply run_sync. Qed.

Definition sample_steps : list step :=
  [SAuth [1; 2]; SMsg [5]; SMix [3]; SMsg (str "hello"); SMsg []].

Lemma noise_transcript_sync_witness :
  exists st' wire,
    run_sender (C := toy_crypto) (noise_new (str "Noise_XX") []) sample_steps = (st', Ok wire)
    /\ run_receiver (noise_new (str "Noise_XX") []) sample_steps wire
       = (st', Ok [[5]; str "hello"; []]).
Proof.
  eexists _, _. split; [vm_compute; reflexivity|].
  apply (noise_transcript_sync _ _ sample_steps). vm_compute. reflexivity.
Defined.

(** No nonce is used twice.  Along any run, the nonces handed to the cipher
    between two mixes of key material are pairwise different: the counter never
    wraps, it stops with [CounterExhausted]. *)
Lemma noise_nonces_fresh {C : Crypto} (st : NoiseState) (l : list step) :
  0 <= ns_counter st <= U32_MAX -> NoDup (sealed 0 st l).
Proof. apply sealed_NoDup. Qed.

(** The errors of the state machine.  At the last counter value both directions
    fail with [CounterExhausted] and leave the state as it was; a ciphertext shorter
    than its tag is refused by [decrypt_into] before the counter moves; a failed
    decryption consumes the counter but not the hash. *)
Lemma noise_errors {C : Crypto} (st : NoiseState) (data out : bytes) (e : CryptoProviderError) :
  (ns_counter st = U32_MAX ->
     encrypt st data = (st, Err CounterExhausted) /\ decrypt st data = (st, Err CounterExhausted))
  /\ (zlen data < 16 -> decrypt_into st data out = (st, Err CiphertextTooShort))
  /\ (ns_counter st <> U32_MAX ->
      gcm_decrypt (ns_key st) (generate_iv (ns_counter st)) (ns_hash st) data = Err e ->
      decrypt st data = (set_counter st (ns_counter st + 1), Err (Decrypt e))).
Proof.
  unfold encrypt, encrypt_into, decrypt, decrypt_into, decrypt_append, post_increment_counter,
    checked_add_1, TAG_LEN. split_and!.
  - intros ->. by rewrite Z.eqb_refl.
  - intros H. by destruct (Z.ltb_spec (zlen data) 16); [|lia].
  - intros Hc Hd. destruct (Z.eqb_spec (ns_counter st) U32_MAX); [done|].
    cbn [ns_key set_counter]. by rewrite Hd.
Qed.

(** A new state hashes the prologue into a chaining value of 32 bytes, whatever the
    length of the protocol name. *)
Theorem noise_new_pattern {C : Crypto} (pattern prologue : bytes) :
  zlen (sha256 pattern) = 32 ->
  zlen (ns_key (noise_new pattern prologue)) = 32
  /\ ns_salt (noise_new pattern prologue) = ns_key (noise_new pattern prologue)
  /\ ns_hash (noise_new pattern prologue) = sha256 (ns_key (noise_new pattern prologue) ++ prologue)
  /\ ns_counter (noise_new pattern prologue) = 0.
Proof.
  intros Hs. unfold noise_new. cbn [ns_key ns_salt ns_hash ns_counter authenticate set_hash].
  split; [|done]. destruct (Z.leb_spec (zlen pattern) 32) as [Hp|]; [|done].
  unfold zlen in *. rewrite length_app, length_replicate. lia.
Qed.

