(* ===== verification/Socket.v ===== *)
(** * The encrypted socket

    [src/socket/noise_socket.rs] with the ends of the pipe that the client puts on
    it ([src/client/messaging.rs] [send_node], [src/client/node_io.rs]
    [decrypt_frame]).  The sender task takes jobs from a FIFO channel one at a time,
    so it is a fold over the jobs in the order of the channel; the transport is the
    sequence of its answers, and every frame handed to it is recorded, also when
    its answer is an error. *)

From stdpp Require Import prelude strings.
From S2P Require Import Prelude Jid Token Node Writer Packed Decoder Encoder Marshal Framing Noise.

#[local] Open Scope Z_scope.

Definition INLINE_ENCRYPT_THRESHOLD : Z := 16 * 1024.

Inductive EncryptSendErrorKind : Type := Crypto | Framing | Transport | Join | ChannelClosed.

(** What the sender task owns: the counter and its two reusable buffers; and the
    frames that reached the transport. *)
Record SenderTask : Type := mkSender {
  write_counter : Z; enc_buf : bytes; out_buf : bytes; sent : list bytes
}.
Definition sender_new : SenderTask := mkSender 0 [] [] [].

(** One job: the plaintext, and whether [transport.send] will succeed. *)
Abbreviation SendJob := (bytes * bool)%type (only parsing).

Section Socket.
Context {C : Noise.Crypto}.

(** [transport.send(out_buf.split().freeze())] and the counter. *)
Definition send_frame (st : SenderTask) (transport_ok : bool)
    : SenderTask * outcome EncryptSendErrorKind unit :=
  let frame := out_buf st in
  let st := mkSender (write_counter st) (enc_buf st) [] (sent st ++ [frame]) in
  if negb transport_ok then (st, Err Transport)
  else (mkSender (wrap 32 (write_counter st + 1)) (enc_buf st) (out_buf st) (sent st), Ok tt).

Definition process_send_job (write_key : NoiseCipher) (st : SenderTask) (job : SendJob)
    : SenderTask * outcome EncryptSendErrorKind unit :=
  let '(plaintext, transport_ok) := job in
  let counter := write_counter st in
  if counter =? U32_MAX then (st, Err Crypto)
  else if zlen plaintext <=? INLINE_ENCRYPT_THRESHOLD then
    let st := mkSender counter ([] ++ plaintext) (out_buf st) (sent st) in
    match encrypt_in_place_with_counter write_key counter (enc_buf st) with
    | Ok c =>
        let st := mkSender counter c (out_buf st) (sent st) in
        match encode_frame_into (enc_buf st) None (out_buf st) with
        | Ok out => send_frame (mkSender counter (enc_buf st) out (sent st)) transport_ok
        | Err _ => (st, Err Framing)
        | Panic => (st, Panic)
        | Timeout => (st, Timeout)
        end
    | Err _ => (st, Err Crypto)
    | Panic => (st, Panic)
    | Timeout => (st, Timeout)
    end
  else
    match encrypt_with_counter write_key counter plaintext with
    | Ok ciphertext =>
        match encode_frame_into ciphertext None (out_buf st) with
        | Ok out => send_frame (mkSender counter (enc_buf st) out (sent st)) transport_ok
        | Err _ => (st, Err Framing)
        | Panic => (st, Panic)
        | Timeout => (st, Timeout)
        end
    | Err _ => (st, Err Crypto)
    | Panic => (st, Panic)
    | Timeout => (st, Timeout)
    end.

(** [while let Ok(job) = send_job_rx.recv().await]: an error of one job does not
    stop the task. *)
Fixpoint sender_task (write_key : NoiseCipher) (st : SenderTask) (jobs : list SendJob)
    : SenderTask * list (outcome EncryptSendErrorKind unit) :=
  match jobs with
  | [] => (st, [])
  | job :: rest =>
      let '(st, r) := process_send_job write_key st job in
      let '(st, rs) := sender_task write_key st rest in
      (st, r :: rs)
  end.

(** ** The receiving side *)

(** [NoiseSocket::decrypt_frame]: the counter moves before the frame is opened. *)
Definition decrypt_frame (read_key : NoiseCipher) (read_counter : Z) (ciphertext : bytes)
    : Z * outcome NoiseError bytes :=
  match checked_add_1 read_counter with
  | Some next => (next, decrypt_in_place_with_counter read_key read_counter ciphertext)
  | None => (read_counter, Err CounterExhausted)
  end.

Fixpoint decrypt_all (read_key : NoiseCipher) (read_counter : Z) (frames : list bytes)
    : Z * list (outcome NoiseError bytes) :=
  match frames with
  | [] => (read_counter, [])
  | f :: rest =>
      let '(read_counter, r) := decrypt_frame read_key read_counter f in
      let '(read_counter, rs) := decrypt_all read_key read_counter rest in
      (read_counter, r :: rs)
  end.

(** [Client::decrypt_frame]: any failure drops the frame. *)
Context {TM : TokenMaps}.
Definition client_decrypt_frame (inflate : bytes -> outcome BinaryError bytes)
    (read_key : NoiseCipher) (read_counter : Z) (encrypted_frame : bytes)
    : Z * option NodeRef :=
  let '(read_counter, r) := decrypt_frame read_key read_counter encrypted_frame in
  (read_counter,
   match r with
   | Ok decrypted_payload =>
       match unpack_bytes inflate decrypted_payload with
       | Ok buffer => match unmarshal_ref buffer with Ok node => Some node | _ => None end
       | _ => None
       end
   | _ => None
   end).

Fixpoint client_nodes (inflate : bytes -> outcome BinaryError bytes)
    (read_key : NoiseCipher) (read_counter : Z) (frames : list bytes) : list NodeRef :=
  match frames with
  | [] => []
  | f :: rest =>
      let '(read_counter, n) := client_decrypt_frame inflate read_key read_counter f in
      match n with
      | Some n => n :: client_nodes inflate read_key read_counter rest
      | None => client_nodes inflate read_key read_counter rest
      end
  end.
End Socket.

(** ** What one job puts on the wire *)

Section SocketLemmas.
Context {C : Noise.Crypto} {L : CryptoLaws}.

(** The frame of a plaintext under a counter. *)
Definition job_frame (key : NoiseCipher) (counter : Z) (plaintext frame : bytes) : Prop :=
  exists c, gcm_encrypt (aead_key key) (generate_iv counter) [] plaintext = Ok c
    /\ encode_frame c None = Ok frame.

Lemma encode_frame_into_out c out : encode_frame_into c None out = encode_frame c None.
Proof. done. Qed.

(** Both paths, inline and blocking, do the same; the job fails before the
    transport, or hands it the frame. *)
Lemma process_send_job_spec key st plaintext transport_ok :
  let '(st', r) := process_send_job key st (plaintext, transport_ok) in
  (write_counter st' = write_counter st /\ sent st' = sent st
   /\ (r = Err Crypto \/ r = Err Framing))
  \/ (write_counter st <> U32_MAX
      /\ exists frame, job_frame key (write_counter st) plaintext frame
      /\ sent st' = sent st ++ [frame]
      /\ if transport_ok
         then r = Ok tt /\ write_counter st' = wrap 32 (write_counter st + 1)
         else r = Err Transport /\ write_counter st' = write_counter st).
Proof.
  unfold process_send_job, job_frame, encrypt_in_place_with_counter, encrypt_with_counter.
  destruct (Z.eqb_spec (write_counter st) U32_MAX); [cbn; left; by auto|]. cbn [app enc_buf].
  pose proof (gcm_encrypt_returns (aead_key key) (generate_iv (write_counter st)) [] plaintext) as Hret.
  assert (Hframe : forall c, returns (encode_frame c None))
    by (intros c; unfold encode_frame, encode_frame_into; by case_match).
  destruct (gcm_encrypt _ _ _ plaintext) as [c| | |] eqn:E; cbn [map_err]; try done;
    [|destruct (_ <=? _); cbn; left; by auto].
  specialize (Hframe c). cbn [enc_buf out_buf]. rewrite !encode_frame_into_out.
  destruct (encode_frame c None) as [f| | |] eqn:Ef; try done;
    [|destruct (_ <=? _); cbn; left; by auto].
  destruct (_ <=? _); unfold send_frame; cbn; destruct transport_ok; cbn; right;
    (split; [done|]); exists f; (split; [by exists c|]); auto.
Qed.

(** The frames that reach the transport when every job succeeds: one per job,
    under consecutive counters. *)
Fixpoint frames_of (key : NoiseCipher) (counter : Z) (plaintexts frames : list bytes) : Prop :=
  match plaintexts, frames with
  | [], [] => True
  | p :: ps, f :: fs => counter < U32_MAX /\ job_frame key counter p f
                        /\ frames_of key (counter + 1) ps fs
  | _, _ => False
  end.

Lemma sender_task_frames key jobs st st' rs :
  0 <= write_counter st <= U32_MAX ->
  sender_task key st jobs = (st', rs) -> Forall (fun r => r = Ok tt) rs ->
  exists frames, sent st' = sent st ++ frames
                 /\ frames_of key (write_counter st) jobs.*1 frames.
Proof.
  revert st rs. induction jobs as [|[p ok] jobs IH]; intros st rs Hc; cbn [sender_task].
  - intros [= <- <-] _. exists []. by rewrite app_nil_r.
  - pose proof (process_send_job_spec key st p ok) as Hspec.
    destruct (process_send_job key st (p, ok)) as [st1 r].
    destruct (sender_task key st1 jobs) as [st2 rs2] eqn:Et. intros [= <- <-] Hall.
    apply Forall_cons in Hall as [-> Hall].
    destruct Hspec as [(_ & _ & [|])|(Hne & f & Hf & Hs & Hr)]; [done..|].
    destruct ok; [|by destruct Hr]. destruct Hr as [_ Hw].
    unfold wrap in Hw. rewrite Z.mod_small in Hw by (unfold U32_MAX in *; lia).
    destruct (IH st1 rs2 ltac:(lia) Et Hall) as (frames & Hsent & Hfr).
    exists (f :: frames). rewrite Hsent, Hs, <- app_assoc. split; [done|].
    rewrite fmap_cons. cbn [fst frames_of]. rewrite Hw in Hfr. split; [lia|done].
Qed.

Lemma job_frame_stream key counter p f rest : job_frame key counter p f ->
  exists c, gcm_encrypt (aead_key key) (generate_iv counter) [] p = Ok c
    /\ stream_frames (f ++ rest) = (c :: (stream_frames rest).1, (stream_frames rest).2).
Proof.
  intros (c & Hc & Hf). exists c. split; [done|]. apply encode_frame_Ok in Hf as [Hl ->].
  by apply stream_frames_encoded.
Qed.

(** Cutting and opening the stream of a sender. *)
Lemma frames_of_received key counter plaintexts frames :
  frames_of key counter plaintexts frames ->
  exists cs, stream_frames (concat frames) = (cs, [])
    /\ (decrypt_all key counter cs).2 = map Ok plaintexts.
Proof.
  revert counter frames. induction plaintexts as [|p ps IH]; intros counter [|f fs]; cbn [frames_of];
    try done.
  - intros _. by exists [].
  - intros (Hlt & Hf & Hrest). destruct (IH _ _ Hrest) as (cs & Hs & Hd).
    destruct (job_frame_stream _ _ _ _ (concat fs) Hf) as (c & Hc & Hst).
    exists (c :: cs). cbn [concat]. rewrite Hst, Hs. split; [done|].
    cbn [decrypt_all map]. unfold decrypt_frame, checked_add_1, decrypt_in_place_with_counter.
    destruct (Z.eqb_spec counter U32_MAX); [lia|].
    rewrite (gcm_open_seal _ _ _ _ _ Hc). cbn [map_err].
    destruct (decrypt_all key (counter + 1) cs) as [k rs]. cbn in *. by rewrite Hd.
Qed.
End SocketLemmas.

(** ** Nodes through the socket *)

Section Nodes.
Context {C : Noise.Crypto} {L : CryptoLaws} {TM : TokenMaps}.

Lemma client_frame_node inflate key counter n r p c :
  counter < U32_MAX -> node_ok n = true -> marshal_auto n = Ok p -> image_node n = Some r ->
  gcm_encrypt (aead_key key) (generate_iv counter) [] p = Ok c ->
  client_decrypt_frame inflate key counter c = (counter + 1, Some r).
Proof.
  intros Hlt Hok Hm Hi Hc. unfold client_decrypt_frame, decrypt_frame, checked_add_1,
    decrypt_in_place_with_counter. destruct (Z.eqb_spec counter U32_MAX); [lia|].
  rewrite (gcm_open_seal _ _ _ _ _ Hc). cbn [map_err].
  assert (Hm' : marshal n = Ok p) by (rewrite <- Hm; unfold marshal_auto; by case_match).
  rewrite marshal_spec in Hm'. inv_ok. cbn [unpack_bytes]. change (0 <? Z.land 0 2) with false.
  cbv iota. change (from 1 (0 :: ?l)) with l.
  erewrite unmarshal_encoded by done. done.
Qed.

Lemma client_nodes_frames inflate key counter nodes images payloads frames :
  Forall (fun n => node_ok n = true) nodes ->
  Forall2 (fun n p => marshal_auto n = Ok p) nodes payloads ->
  Forall2 (fun n r => image_node n = Some r) nodes images ->
  frames_of key counter payloads frames ->
  exists cs, stream_frames (concat frames) = (cs, [])
    /\ client_nodes inflate key counter cs = images.
Proof.
  intros Hok Hm Hi. revert counter images frames Hok Hi.
  induction Hm as [|n p nodes payloads Hnp Hm IH]; intros counter images frames Hok Hi Hf;
    inv Hi; destruct frames as [|f fs]; cbn [frames_of] in Hf; try done.
  - by exists [].
  - destruct Hf as (Hlt & Hjf & Hrest). apply Forall_cons in Hok as [Hn Hok].
    destruct (job_frame_stream _ _ _ _ (concat fs) Hjf) as (c & Hc & Hst).
    match goal with H : Forall2 _ nodes ?l |- _ =>
      destruct (IH (counter + 1) l fs Hok H Hrest) as (cs & Hs & Hd) end.
    exists (c :: cs). cbn [concat]. rewrite Hst, Hs. split; [done|].
    cbn [client_nodes]. erewrite client_frame_node by done. by rewrite Hd.
Qed.
End Nodes.

(** ** Properties of the socket *)

(** The pipe is reliable end to end.  When every job of the sender task succeeds,
    the bytes it wrote, delivered to the peer in any pieces, are cut and decrypted to
    exactly the plaintexts, in the order of the channel, with nothing left over. *)
Lemma socket_end_to_end {C : Noise.Crypto} {L : CryptoLaws} (key : NoiseCipher)
    (jobs : list (bytes * bool)) (st' : SenderTask)
    (rs : list (outcome EncryptSendErrorKind unit)) (deliveries : list (bytes * bool)) :
  sender_task key sender_new jobs = (st', rs) -> Forall (fun r => r = Ok tt) rs ->
  concat deliveries.*1 = concat (sent st') ->
  exists frames, receive frame_decoder_new deliveries [] = Ok (frames, frame_decoder_new)
    /\ (decrypt_all key 0 frames).2 = map Ok jobs.*1.
Proof.
  intros Ht Hall Hd.
  destruct (sender_task_frames key jobs sender_new st' rs ltac:(cbn; unfold U32_MAX; lia) Ht Hall)
    as (frames & Hs & Hf).
  destruct (frames_of_received _ _ _ _ Hf) as (cs & Hst & Hdec). exists cs. split; [|done].
  unfold frame_decoder_new. rewrite (receive_spec [] deliveries []) by done. cbn [app].
  rewrite Hd, Hs. cbn [sent sender_new app]. by rewrite Hst.
Qed.

Definition toy_key : NoiseCipher := mkCipher (replicate 32 1).

Lemma socket_end_to_end_witness :
  exists frames,
    receive frame_decoder_new [([0; 0; 17; 104; 0; 0; 0], true);
      ([0; 0; 0; 0; 0; 0; 0; 0; 0; 0; 0; 0; 0; 0; 0; 18; 1; 2], false);
      ([0; 0; 0; 0; 0; 0; 0; 0; 0; 0; 0; 1; 0; 0; 0; 0], true)] []
    = Ok (frames, frame_decoder_new)
    /\ (decrypt_all toy_key 0 frames).2 = map Ok [[104]; [1; 2]].
Proof.
  eapply (socket_end_to_end toy_key [([104], true); ([1; 2], true)]);
    [vm_compute; reflexivity|repeat constructor|vm_compute; reflexivity].
Defined.

(** C2: stanzas through the socket.  Well-formed nodes sent one after the other by
    [send_node] arrive at the peer's client as their images, in order, whatever the
    way the transport cuts the stream. *)
Theorem nodes_end_to_end {C : Noise.Crypto} {L : CryptoLaws} {TM : TokenMaps}
    (inflate : bytes -> outcome BinaryError bytes) (key : NoiseCipher)
    (nodes : list Node) (payloads : list bytes) (images : list NodeRef) (st' : SenderTask)
    (rs : list (outcome EncryptSendErrorKind unit)) (deliveries : list (bytes * bool)) :
  Forall (fun n => node_ok n = true) nodes ->
  Forall2 (fun n p => marshal_auto n = Ok p) nodes payloads ->
  Forall2 (fun n r => image_node n = Some r) nodes images ->
  sender_task key sender_new (map (fun p => (p, true)) payloads) = (st', rs) ->
  Forall (fun r => r = Ok tt) rs ->
  concat deliveries.*1 = concat (sent st') ->
  exists frames, receive frame_decoder_new deliveries [] = Ok (frames, frame_decoder_new)
    /\ client_nodes inflate key 0 frames = images.
Proof.
  intros Hok Hm Hi Ht Hall Hd.
  destruct (sender_task_frames key _ sender_new st' rs ltac:(cbn; unfold U32_MAX; lia) Ht Hall)
    as (frames & Hs & Hf).
  replace ((map (fun p => (p, true)) payloads).*1) with payloads in Hf
    by (clear; induction payloads; [done|]; rewrite map_cons, fmap_cons; by f_equal).
  destruct (client_nodes_frames inflate key 0 nodes images payloads frames Hok Hm Hi Hf)
    as (cs & Hst & Hn).
  exists cs. split; [|done].
  unfold frame_decoder_new. rewrite (receive_spec [] deliveries []) by done. cbn [app].
  rewrite Hd, Hs. cbn [sent sender_new app]. by rewrite Hst.
Qed.

Lemma nodes_end_to_end_witness :
  exists deliveries frames, length deliveries = 2%nat /\
    receive frame_decoder_new deliveries [] = Ok (frames, frame_decoder_new)
    /\ client_nodes (fun _ => Err EmptyData) toy_key 0 frames
       = [as_node_ref plain_sample; as_node_ref plain_sample].
Proof.
  set (p := match marshal_auto plain_sample with Ok p => p | _ => [] end).
  set (out := concat (sent (sender_task toy_key sender_new [(p, true); (p, true)]).1)).
  exists [(upto 9 out, true); (from 9 out, false)].
  destruct (nodes_end_to_end (fun _ => Err EmptyData) toy_key [plain_sample; plain_sample] [p; p]
    [as_node_ref plain_sample; as_node_ref plain_sample]
    (sender_task toy_key sender_new [(p, true); (p, true)]).1
    (sender_task toy_key sender_new [(p, true); (p, true)]).2
    [(upto 9 out, true); (from 9 out, false)]) as (frames & H1 & H2).
  - repeat constructor.
  - repeat constructor; vm_compute; reflexivity.
  - repeat constructor; vm_compute; reflexivity.
  - vm_compute. reflexivity.
  - repeat constructor.
  - vm_compute. reflexivity.
  - exists frames. split; [reflexivity|]. split; [exact H1|exact H2].
Defined.

(** One nonce per frame.  When every transport send succeeds, the i-th frame is
    sealed under counter i, below the last value, and no two frames share a nonce. *)
Lemma sender_fresh_nonces {C : Noise.Crypto} {L : CryptoLaws} (key : NoiseCipher)
    (jobs : list (bytes * bool)) (st' : SenderTask)
    (rs : list (outcome EncryptSendErrorKind unit)) :
  sender_task key sender_new jobs = (st', rs) -> Forall (fun r => r = Ok tt) rs ->
  (forall i p f, jobs.*1 !! i = Some p -> sent st' !! i = Some f ->
     job_frame key (Z.of_nat i) p f)
  /\ forall i j, (i < length (sent st'))%nat -> (j < length (sent st'))%nat ->
     generate_iv (Z.of_nat i) = generate_iv (Z.of_nat j) -> i = j.
Proof.
  intros Ht Hall.
  destruct (sender_task_frames key jobs sender_new st' rs ltac:(cbn; unfold U32_MAX; lia) Ht Hall)
    as (frames & Hs & Hf). cbn [sent sender_new app write_counter] in Hs, Hf. rewrite Hs.
  assert (Hgen : forall ps fs c, frames_of key c ps fs ->
    (forall i p f, ps !! i = Some p -> fs !! i = Some f -> job_frame key (c + Z.of_nat i) p f)
    /\ forall i, (i < length fs)%nat -> c + Z.of_nat i < U32_MAX).
  { clear. induction ps as [|p ps IH]; intros [|f fs] c H; cbn [frames_of] in H; try done.
    - split; [done|]. intros i Hi. cbn in Hi. lia.
    - destruct H as (Hlt & Hj & Hr). destruct (IH fs (c + 1) Hr) as [IH1 IH2]. split.
      + intros [|i] p' f'; cbn; [intros [= <-] [= <-]; by rewrite Z.add_0_r|].
        intros Hp Hfi. specialize (IH1 i p' f' Hp Hfi).
        by replace (c + Z.of_nat (S i)) with (c + 1 + Z.of_nat i) by lia.
      + intros [|i] Hi; [lia|]. cbn in Hi. specialize (IH2 i ltac:(lia)). lia. }
  destruct (Hgen _ _ _ Hf) as [H1 H2]. split; [exact H1|].
  intros i j Hi Hj He. apply generate_iv_inj in He; [lia|..];
    [specialize (H2 i Hi)|specialize (H2 j Hj)]; lia.
Qed.

Definition sample_jobs : list (bytes * bool) := [([104], true); ([1; 2], true)].

Lemma sender_fresh_nonces_witness :
  let st' := (sender_task toy_key sender_new sample_jobs).1 in
  (forall i p f, sample_jobs.*1 !! i = Some p -> sent st' !! i = Some f ->
     job_frame toy_key (Z.of_nat i) p f)
  /\ forall i j, (i < length (sent st'))%nat -> (j < length (sent st'))%nat ->
     generate_iv (Z.of_nat i) = generate_iv (Z.of_nat j) -> i = j.
Proof.
  apply (sender_fresh_nonces toy_key sample_jobs _ [Ok tt; Ok tt]);
    [vm_compute; reflexivity|repeat constructor].
Defined.

(** A failed send reuses its nonce.  The counter moves only after
    [transport.send] succeeds: when the transport reports an error for a frame it was
    handed, the next job is sealed under the same key and the same counter, so two
    ciphertexts of different plaintexts under one AES-GCM nonce reach the transport. *)
Lemma failed_send_reuses_nonce {C : Noise.Crypto} {L : CryptoLaws} (key : NoiseCipher)
    (st st' : SenderTask) (p1 p2 : bytes) :
  sender_task key st [(p1, false); (p2, true)] = (st', [Err Transport; Ok tt]) ->
  exists f1 f2, sent st' = sent st ++ [f1; f2]
    /\ job_frame key (write_counter st) p1 f1 /\ job_frame key (write_counter st) p2 f2.
Proof.
  cbn [sender_task]. pose proof (process_send_job_spec key st p1 false) as H1.
  destruct (process_send_job key st (p1, false)) as [st1 r1].
  pose proof (process_send_job_spec key st1 p2 true) as H2.
  destruct (process_send_job key st1 (p2, true)) as [st2 r2]. intros [= <- -> ->].
  destruct H1 as [(_ & _ & [|])|(_ & f1 & Hf1 & Hs1 & _ & Hw)]; [done..|].
  destruct H2 as [(_ & _ & [|])|(_ & f2 & Hf2 & Hs2 & _)]; [done..|].
  exists f1, f2. rewrite Hs2, Hs1, <- app_assoc. rewrite Hw in Hf2. done.
Qed.

Lemma failed_send_reuses_nonce_witness :
  exists f1 f2,
    sent (sender_task toy_key sender_new [([1], false); ([2], true)]).1 = sent sender_new ++ [f1; f2]
    /\ job_frame toy_key (write_counter sender_new) [1] f1
    /\ job_frame toy_key (write_counter sender_new) [2] f2.
Proof. apply failed_send_reuses_nonce. vm_compute. reflexivity. Defined.
