(* ===== verification/LtHash.v ===== *)
(** * The summation hash of app state

    [wacore/appstate/src/lthash.rs]: a hash of 128 bytes seen as 64 little-endian
    16-bit lanes, to which the HKDF of an item is added or from which it is
    subtracted, lane by lane.  The key derivation is the interface [Hkdf]. *)

From stdpp Require Import prelude strings.
From S2P Require Import Prelude.

#[local] Open Scope Z_scope.

(** [hkdf_sha256_into(key, info, out)] for an output of a size; expansion fills the
    output. *)
Class Hkdf : Type := {
  hkdf : bytes -> bytes -> Z -> bytes;
  hkdf_bytes key info n : are_bytes (hkdf key info n);
  hkdf_zlen key info n : 0 <= n -> zlen (hkdf key info n) = n;
}.

Record LTHash : Type := mkLTHash { hkdf_info : bytes; hkdf_size : Z }.

Definition WAPATCH_INTEGRITY : LTHash := mkLTHash (str "WhatsApp Patch Integrity") 128.

(** ** Lanes *)

(** [u16::from_le_bytes] and [to_le_bytes]. *)
Definition from_le16 (a b : byte) : Z := a + 256 * b.
Definition to_le16 (z : Z) : bytes := [z mod 256; z / 256 mod 256].

Definition lane_op (subtract : bool) (x y : Z) : Z :=
  wrap 16 (if subtract then x - y else x + y).

(** The scalar loop over pairs of bytes. *)
Fixpoint pairs_op (subtract : bool) (base input : bytes) : bytes :=
  match base, input with
  | b0 :: b1 :: base', i0 :: i1 :: input' =>
      to_le16 (lane_op subtract (from_le16 b0 b1) (from_le16 i0 i1))
      ++ pairs_op subtract base' input'
  | _, _ => base
  end.

(** The vector loop: a chunk of 16 bytes is cast to eight lanes of the machine's
    endianness, whose bytes are swapped on a big-endian machine. *)
Section Simd.
Context (big_endian : bool).

Definition swap_bytes (z : Z) : Z := z mod 256 * 256 + z / 256.
Definition cast_lane (a b : byte) : Z := if big_endian then a * 256 + b else a + 256 * b.
Definition uncast_lane (z : Z) : bytes :=
  if big_endian then [z / 256 mod 256; z mod 256] else [z mod 256; z / 256 mod 256].
Definition fix_endian (z : Z) : Z := if big_endian then swap_bytes z else z.

Fixpoint cast_lanes (l : bytes) : list Z :=
  match l with a :: b :: l' => cast_lane a b :: cast_lanes l' | _ => [] end.

Definition simd_chunk (subtract : bool) (base input : bytes) : bytes :=
  let base_arr := map fix_endian (cast_lanes base) in
  let input_arr := map fix_endian (cast_lanes input) in
  let out := zip_with (lane_op subtract) base_arr input_arr in
  concat (map uncast_lane (map fix_endian out)).

Fixpoint simd_chunks (subtract : bool) (base input : list bytes) : list bytes :=
  match base, input with
  | b :: bs, i :: xs => simd_chunk subtract b i :: simd_chunks subtract bs xs
  | _, _ => base
  end.

(** [perform_pointwise_with_overflow]; the assertions panic. *)
Definition perform_pointwise_with_overflow (base input : bytes) (subtract : bool)
    : outcome unit bytes :=
  if negb (zlen base =? zlen input) then Panic
  else if negb (zlen base mod 2 =? 0) then Panic
  else
    let '(base_chunks, base_rem) := as_chunks 16 base in
    let '(input_chunks, input_rem) := as_chunks 16 input in
    Ok (concat (simd_chunks subtract base_chunks input_chunks)
        ++ pairs_op subtract base_rem input_rem).

(** ** Operations on many items *)

Context {H : Hkdf}.

Fixpoint multiple_op (lt : LTHash) (base : bytes) (input : list bytes) (subtract : bool)
    : outcome unit bytes :=
  match input with
  | [] => Ok base
  | item :: rest =>
      let derived := hkdf item (hkdf_info lt) (hkdf_size lt) in
      base ← perform_pointwise_with_overflow base derived subtract;
      multiple_op lt base rest subtract
  end.

Definition subtract_then_add_in_place (lt : LTHash) (base : bytes) (subtract add : list bytes)
    : outcome unit bytes :=
  base ← multiple_op lt base subtract true;
  multiple_op lt base add false.
Definition subtract_then_add (lt : LTHash) (base : bytes) (subtract add : list bytes)
    : outcome unit bytes := subtract_then_add_in_place lt base subtract add.
End Simd.

(** ** The vector loop computes the scalar one *)

Lemma le16_range a b : is_byte a -> is_byte b -> 0 <= from_le16 a b < 65536.
Proof. unfold is_byte, from_le16. lia. Qed.

Lemma lane_op_range s x y : 0 <= lane_op s x y < 65536.
Proof. apply Z.mod_pos_bound. lia. Qed.

Lemma cast_lane_le big a b : is_byte a -> is_byte b ->
  fix_endian big (cast_lane big a b) = from_le16 a b.
Proof.
  unfold is_byte, fix_endian, cast_lane, from_le16, swap_bytes. intros Ha Hb.
  destruct big; [|done].
  rewrite (Z.add_comm (a * 256) b), Z.mod_add, Z.div_add, Z.mod_small, Z.div_small by lia. lia.
Qed.

Lemma uncast_lane_le big z : 0 <= z < 65536 -> uncast_lane big (fix_endian big z) = to_le16 z.
Proof.
  intros Hz. unfold uncast_lane, fix_endian, swap_bytes, to_le16. destruct big; [|done].
  pose proof (Z.mod_pos_bound z 256 ltac:(lia)).
  assert (0 <= z / 256 < 256) by (split; [apply Z.div_pos|apply Z.div_lt_upper_bound]; lia).
  rewrite (Z.add_comm (z mod 256 * 256)), Z.div_add, Z.mod_add by lia.
  rewrite (Z.div_small (z / 256)), (Z.mod_small (z / 256)), Z.add_0_l by lia.
  by rewrite Z.mod_mod by lia.
Qed.

Lemma simd_chunk_pairs big s b i : are_bytes b -> are_bytes i -> length b = length i ->
  Nat.even (length b) = true ->
  simd_chunk big s b i = pairs_op s b i.
Proof.
  remember (length b) as n eqn:Hn. revert b i Hn.
  induction n as [n IH] using lt_wf_ind. intros b i Hn Hb Hi Hl He.
  destruct b as [|b0 [|b1 b]], i as [|i0 [|i1 i]]; cbn in Hn; subst n; try done.
  unfold are_bytes in Hb, Hi. rewrite !Forall_cons in Hb, Hi.
  destruct Hb as (Hb0 & Hb1 & Hb), Hi as (Hi0 & Hi1 & Hi).
  unfold simd_chunk. cbn [cast_lanes map zip_with concat pairs_op].
  rewrite !cast_lane_le, uncast_lane_le by (done || apply lane_op_range).
  f_equal. injection Hl as Hl. exact (IH (length b) ltac:(lia) b i eq_refl Hb Hi Hl He).
Qed.

Lemma pairs_op_app s b1 i1 b2 i2 : length b1 = length i1 -> Nat.even (length b1) = true ->
  pairs_op s (b1 ++ b2) (i1 ++ i2) = pairs_op s b1 i1 ++ pairs_op s b2 i2.
Proof.
  remember (length b1) as n eqn:Hn. revert b1 i1 Hn.
  induction n as [n IH] using lt_wf_ind. intros b i Hn Hl He.
  destruct b as [|x0 [|x1 b]], i as [|y0 [|y1 i]]; cbn in Hn; subst n; try done.
  cbn [app pairs_op]. injection Hl as Hl.
  rewrite (IH (length b) ltac:(lia) b i eq_refl Hl He). by rewrite app_assoc.
Qed.

Lemma simd_chunks_pairs big s fuel b i : are_bytes b -> are_bytes i -> length b = length i ->
  let '(bc, br) := chunks_fuel fuel 16 b in
  let '(ic, ir) := chunks_fuel fuel 16 i in
  concat (simd_chunks big s bc ic) ++ pairs_op s br ir = pairs_op s b i.
Proof.
  revert b i. induction fuel as [|fuel IH]; intros b i Hb Hi Hl; cbn [chunks_fuel]; [done|].
  rewrite <- Hl. destruct (Nat.leb_spec 16 (length b)) as [Hle|]; [|done].
  specialize (IH (drop 16 b) (drop 16 i)). unfold are_bytes in *.
  specialize (IH ltac:(by apply Forall_drop) ltac:(by apply Forall_drop)
                 ltac:(rewrite !length_drop; lia)).
  destruct (chunks_fuel fuel 16 (drop 16 b)) as [bc br].
  destruct (chunks_fuel fuel 16 (drop 16 i)) as [ic ir].
  assert (Htl : length (take 16 b) = 16%nat /\ length (take 16 i) = 16%nat)
    by (rewrite !length_take; lia). destruct Htl as [Hb16 Hi16].
  cbn [simd_chunks concat].
  rewrite simd_chunk_pairs by (try apply Forall_take; rewrite ?Hb16; done).
  rewrite <- app_assoc, IH, <- pairs_op_app by (rewrite ?Hb16; done).
  by rewrite !take_drop.
Qed.

Lemma perform_pointwise_pairs big base input s :
  are_bytes base -> are_bytes input -> zlen base = zlen input -> zlen base mod 2 = 0 ->
  perform_pointwise_with_overflow big base input s = Ok (pairs_op s base input).
Proof.
  intros Hb Hi Hl He. unfold perform_pointwise_with_overflow.
  rewrite Hl, Z.eqb_refl. rewrite Hl in He. rewrite He. cbn [negb Z.eqb].
  assert (Hl' : length base = length input) by (unfold zlen in Hl; lia).
  pose proof (simd_chunks_pairs big s (length base) base input Hb Hi Hl') as H.
  unfold as_chunks. rewrite <- Hl'.
  destruct (chunks_fuel (length base) 16 base) as [bc br].
  destruct (chunks_fuel (length base) 16 input) as [ic ir]. by rewrite H.
Qed.

(** ** The algebra of the lanes *)

(** A value of the hash: bytes, in whole lanes. *)
Definition lanes_ok (n : nat) (b : bytes) : Prop := are_bytes b /\ length b = (2 * n)%nat.

Lemma from_to_le16 z : 0 <= z < 65536 -> forall a b, to_le16 z = [a; b] -> from_le16 a b = z.
Proof.
  intros Hz a b [= <- <-]. unfold from_le16.
  assert (0 <= z / 256 < 256) by (split; [apply Z.div_pos|apply Z.div_lt_upper_bound]; lia).
  rewrite (Z.mod_small (z / 256)) by lia. pose proof (Z.div_mod z 256). lia.
Qed.

Lemma to_from_le16 a b : is_byte a -> is_byte b -> to_le16 (from_le16 a b) = [a; b].
Proof.
  unfold is_byte, to_le16, from_le16. intros Ha Hb. rewrite (Z.mul_comm 256 b).
  rewrite Z.mod_add, Z.div_add, (Z.mod_small a), (Z.div_small a), Z.add_0_l by lia.
  by rewrite Z.mod_small by lia.
Qed.

Lemma to_le16_bytes z : are_bytes (to_le16 z).
Proof. repeat constructor; apply Z.mod_pos_bound; lia. Qed.

Lemma lanes_ok_cons n b : lanes_ok (S n) b ->
  exists b0 b1 b', b = b0 :: b1 :: b' /\ is_byte b0 /\ is_byte b1 /\ lanes_ok n b'.
Proof.
  intros [Hb Hl]. destruct b as [|b0 [|b1 b]]; try (cbn in Hl; lia).
  unfold are_bytes in Hb. rewrite !Forall_cons in Hb. destruct Hb as (H0 & H1 & Hb).
  exists b0, b1, b. split; [done|]. split; [done|]. split; [done|]. split; [done|]. cbn in Hl. lia.
Qed.
Lemma lanes_ok_0 b : lanes_ok 0 b -> b = [].
Proof. intros [_ Hl]. by destruct b. Qed.

Lemma pairs_op_ok s n b x : lanes_ok n b -> lanes_ok n x -> lanes_ok n (pairs_op s b x).
Proof.
  revert b x. induction n as [|n IH]; intros b x Hb Hx; [apply lanes_ok_0 in Hb as ->; split; [constructor|done]|].
  apply lanes_ok_cons in Hb as (b0 & b1 & b' & -> & Hb0 & Hb1 & Hb).
  apply lanes_ok_cons in Hx as (x0 & x1 & x' & -> & Hx0 & Hx1 & Hx).
  destruct (IH b' x' Hb Hx) as [IHb IHl]. split; cbn [pairs_op].
  - apply Forall_app. split; [apply to_le16_bytes|done].
  - rewrite length_app, IHl. cbn. lia.
Qed.

(** Two operations on one lane. *)
Definition two_ops (s t : bool) (b0 b1 x0 x1 y0 y1 : byte) : bytes :=
  to_le16 (lane_op t (lane_op s (from_le16 b0 b1) (from_le16 x0 x1)) (from_le16 y0 y1)).

Lemma pairs_op_cons2 s t b0 b1 b x0 x1 x y0 y1 y :
  pairs_op t (pairs_op s (b0 :: b1 :: b) (x0 :: x1 :: x)) (y0 :: y1 :: y)
  = two_ops s t b0 b1 x0 x1 y0 y1 ++ pairs_op t (pairs_op s b x) y.
Proof.
  cbn [pairs_op]. unfold two_ops.
  pose proof (from_to_le16 _ (lane_op_range s (from_le16 b0 b1) (from_le16 x0 x1))) as Hf.
  cbn [to_le16 app pairs_op] in *. by rewrite (Hf _ _ eq_refl).
Qed.

Lemma lane_op_comm s t b x y :
  lane_op t (lane_op s b x) y = lane_op s (lane_op t b y) x.
Proof.
  unfold lane_op, wrap. destruct s, t;
    rewrite ?Zminus_mod_idemp_l, ?Zplus_mod_idemp_l; f_equal; lia.
Qed.

Lemma lane_op_cancel s b x : 0 <= b < 65536 -> lane_op (negb s) (lane_op s b x) x = b.
Proof.
  intros Hb. unfold lane_op, wrap. destruct s; cbn [negb];
    rewrite ?Zminus_mod_idemp_l, ?Zplus_mod_idemp_l;
    [replace (b - x + x) with b by lia|replace (b + x - x) with b by lia];
    apply Z.mod_small; lia.
Qed.

(** Operations commute, whatever their signs. *)
Lemma pairs_op_comm s t n b x y : lanes_ok n b -> lanes_ok n x -> lanes_ok n y ->
  pairs_op t (pairs_op s b x) y = pairs_op s (pairs_op t b y) x.
Proof.
  revert b x y. induction n as [|n IH]; intros b x y Hb Hx Hy; [by apply lanes_ok_0 in Hb as ->|].
  apply lanes_ok_cons in Hb as (b0 & b1 & b' & -> & Hb0 & Hb1 & Hb).
  apply lanes_ok_cons in Hx as (x0 & x1 & x' & -> & Hx0 & Hx1 & Hx).
  apply lanes_ok_cons in Hy as (y0 & y1 & y' & -> & Hy0 & Hy1 & Hy).
  rewrite !pairs_op_cons2. unfold two_ops. rewrite lane_op_comm. f_equal. by apply IH.
Qed.

(** Adding and subtracting the same item cancel. *)
Lemma pairs_op_cancel s n b x : lanes_ok n b -> lanes_ok n x ->
  pairs_op (negb s) (pairs_op s b x) x = b.
Proof.
  revert b x. induction n as [|n IH]; intros b x Hb Hx; [by apply lanes_ok_0 in Hb as ->|].
  apply lanes_ok_cons in Hb as (b0 & b1 & b' & -> & Hb0 & Hb1 & Hb).
  apply lanes_ok_cons in Hx as (x0 & x1 & x' & -> & Hx0 & Hx1 & Hx).
  rewrite pairs_op_cons2. unfold two_ops.
  rewrite lane_op_cancel, to_from_le16 by (done || by apply le16_range). cbn [app].
  do 2 f_equal. by apply IH.
Qed.

(** ** Many items *)

Section Items.
Context {H : Hkdf}.

Definition derived (lt : LTHash) (item : bytes) : bytes := hkdf item (hkdf_info lt) (hkdf_size lt).

(** The specification of [multiple_op]. *)
Definition ops (lt : LTHash) (s : bool) (base : bytes) (items : list bytes) : bytes :=
  fold_left (fun b item => pairs_op s b (derived lt item)) items base.

Context (lt : LTHash) (n : nat) (Hn : hkdf_size lt = 2 * Z.of_nat n).

Lemma derived_ok item : lanes_ok n (derived lt item).
Proof.
  split; [apply hkdf_bytes|]. pose proof (hkdf_zlen item (hkdf_info lt) (hkdf_size lt)).
  unfold derived, zlen in *. lia.
Qed.

Lemma ops_ok s base items : lanes_ok n base -> lanes_ok n (ops lt s base items).
Proof.
  unfold ops. revert base. induction items as [|x items IH]; intros base Hb; [done|].
  cbn [fold_left]. apply IH. apply pairs_op_ok; [done|apply derived_ok].
Qed.

Lemma multiple_op_ops big base items s : lanes_ok n base ->
  multiple_op big lt base items s = Ok (ops lt s base items).
Proof.
  revert base. induction items as [|x items IH]; intros base Hb; cbn [multiple_op]; [done|].
  destruct (derived_ok x) as [Hd Hdl]. destruct Hb as [Hbb Hbl].
  fold (derived lt x). rewrite perform_pointwise_pairs; [|done..|unfold zlen; lia|].
  - cbn [mbind outcome_bind]. apply IH. by apply pairs_op_ok; [|apply derived_ok].
  - unfold zlen. rewrite Hbl. replace (Z.of_nat (2 * n)) with (Z.of_nat n * 2) by lia.
    apply Z.mod_mul. lia.
Qed.

Lemma ops_snoc s base items x :
  ops lt s base (items ++ [x]) = pairs_op s (ops lt s base items) (derived lt x).
Proof. unfold ops. by rewrite fold_left_app. Qed.

Lemma ops_op_comm s t base items x : lanes_ok n base ->
  ops lt s (pairs_op t base (derived lt x)) items = pairs_op t (ops lt s base items) (derived lt x).
Proof.
  intros Hb. unfold ops. revert base Hb. induction items as [|y items IH]; intros base Hb; [done|].
  cbn [fold_left]. rewrite (pairs_op_comm t s n) by (done || apply derived_ok).
  apply IH. by apply pairs_op_ok; [|apply derived_ok].
Qed.

Lemma ops_cons s base items x : lanes_ok n base ->
  ops lt s base (x :: items) = pairs_op s (ops lt s base items) (derived lt x).
Proof. intros Hb. unfold ops at 1. cbn [fold_left]. by apply ops_op_comm. Qed.

Lemma ops_perm s base items items' : lanes_ok n base -> items ≡ₚ items' ->
  ops lt s base items = ops lt s base items'.
Proof.
  intros Hb Hp. induction Hp as [|x l l' Hp IH|x y l|l l' l'' Hp IH Hp' IH'].
  - done.
  - by rewrite !ops_cons, IH by done.
  - rewrite !ops_cons by done. apply (pairs_op_comm s s n); [by apply ops_ok|apply derived_ok..].
  - congruence.
Qed.

Lemma ops_app s base l1 l2 : ops lt s base (l1 ++ l2) = ops lt s (ops lt s base l1) l2.
Proof. unfold ops. by rewrite fold_left_app. Qed.

Lemma ops_swap s t base l1 l2 : lanes_ok n base ->
  ops lt t (ops lt s base l1) l2 = ops lt s (ops lt t base l2) l1.
Proof.
  intros Hb. revert base Hb. induction l1 as [|x l1 IH]; intros base Hb; [done|].
  change (ops lt s base (x :: l1)) with (ops lt s (pairs_op s base (derived lt x)) l1).
  rewrite IH by (by apply pairs_op_ok; [|apply derived_ok]).
  by rewrite ops_op_comm.
Qed.

Lemma ops_cancel s base l : lanes_ok n base ->
  ops lt (negb s) (ops lt s base l) l = base.
Proof.
  intros Hb. induction l as [|x l IH] using rev_ind; [done|].
  rewrite (ops_snoc s base l x), (ops_perm (negb s) _ (l ++ [x]) (x :: l)).
  - change (ops lt (negb s) ?b (x :: l)) with
      (ops lt (negb s) (pairs_op (negb s) b (derived lt x)) l).
    rewrite (pairs_op_cancel s n); [done|by apply ops_ok|apply derived_ok].
  - apply pairs_op_ok; [by apply ops_ok|apply derived_ok].
  - by rewrite Permutation_app_comm.
Qed.
End Items.

(** ** Properties *)

(** The vector loop is the scalar one, on a machine of either endianness: for
    byte strings of equal, even length, [perform_pointwise_with_overflow] adds or
    subtracts the little-endian 16-bit lanes modulo 2^16; for any other lengths it
    panics. *)
Lemma lthash_simd_scalar (big_endian subtract : bool) (base input : bytes) :
  are_bytes base -> are_bytes input ->
  perform_pointwise_with_overflow big_endian base input subtract
  = if (zlen base =? zlen input) && (zlen base mod 2 =? 0)
    then Ok (pairs_op subtract base input) else Panic.
Proof.
  intros Hb Hi. destruct (Z.eqb_spec (zlen base) (zlen input)) as [Hl|Hl];
    [destruct (Z.eqb_spec (zlen base mod 2) 0) as [He|He]|]; cbn [andb].
  - by apply perform_pointwise_pairs.
  - unfold perform_pointwise_with_overflow. rewrite Hl, Z.eqb_refl. rewrite Hl in He. cbn [negb].
    by destruct (Z.eqb_spec (zlen input mod 2) 0).
  - unfold perform_pointwise_with_overflow. by destruct (Z.eqb_spec (zlen base) (zlen input)).
Qed.

Lemma lthash_simd_scalar_witness :
  perform_pointwise_with_overflow true (replicate 18 255) (replicate 18 1) false
  = Ok (pairs_op false (replicate 18 255) (replicate 18 1)).
Proof.
  apply (lthash_simd_scalar true false (replicate 18 255) (replicate 18 1));
    apply (bool_decide_unpack _); vm_compute; exact I.
Defined.

(** A derivation for the examples. *)
#[global] Program Instance toy_hkdf : Hkdf := {|
  hkdf key info n := upto n (map (fun b => b mod 256) key ++ replicate (Z.to_nat n) 3);
|}.
Next Obligation.
  intros key info n. unfold are_bytes, upto. apply Forall_take, Forall_app. split.
  - apply Forall_map, Forall_true. intros b. apply Z.mod_pos_bound. lia.
  - apply Forall_replicate. unfold is_byte. lia.
Qed.
Next Obligation.
  intros key info n Hn. unfold upto, zlen. rewrite length_take, length_app, length_replicate. lia.
Qed.

Lemma integrity_size : hkdf_size WAPATCH_INTEGRITY = 2 * Z.of_nat 64.
Proof. reflexivity. Qed.

Lemma subtract_then_add_ops {H : Hkdf} big base rem add : lanes_ok 64 base ->
  subtract_then_add_in_place big WAPATCH_INTEGRITY base rem add
  = Ok (ops WAPATCH_INTEGRITY false (ops WAPATCH_INTEGRITY true base rem) add).
Proof.
  intros Hb. unfold subtract_then_add_in_place.
  rewrite (multiple_op_ops _ 64 integrity_size) by done. cbn [mbind outcome_bind].
  rewrite (multiple_op_ops _ 64 integrity_size); [done|]. by apply ops_ok.
Qed.

(** The hash of app state is a sum over multisets.  On a 128-byte accumulator
    [subtract_then_add] never fails; its result does not depend on the order in which
    items are removed or added, nor on the machine; and undoing it restores the
    accumulator. *)
Lemma lthash_multiset {H : Hkdf} (big big' : bool) (base : bytes)
    (rem rem' add add' : list bytes) :
  lanes_ok 64 base -> rem ≡ₚ rem' -> add ≡ₚ add' ->
  exists h, subtract_then_add_in_place big WAPATCH_INTEGRITY base rem add = Ok h
    /\ subtract_then_add_in_place big' WAPATCH_INTEGRITY base rem' add' = Ok h
    /\ subtract_then_add_in_place big WAPATCH_INTEGRITY h add rem = Ok base.
Proof.
  intros Hb Hr Ha. set (lt := WAPATCH_INTEGRITY).
  assert (Hs : lanes_ok 64 (ops lt true base rem)) by (by apply ops_ok).
  exists (ops lt false (ops lt true base rem) add).
  rewrite !subtract_then_add_ops by (done || by apply ops_ok).
  split; [done|]. split.
  - by rewrite (ops_perm lt 64 integrity_size true base rem rem'),
      (ops_perm lt 64 integrity_size false _ add add') by (done || by apply ops_ok).
  - rewrite (ops_cancel lt 64 integrity_size false) by done.
    by rewrite (ops_cancel lt 64 integrity_size true).
Qed.

Lemma lthash_multiset_witness :
  exists h, subtract_then_add_in_place false WAPATCH_INTEGRITY (replicate 128 0) [[9]] [[1]; [2]] = Ok h
    /\ subtract_then_add_in_place true WAPATCH_INTEGRITY (replicate 128 0) [[9]] [[2]; [1]] = Ok h
    /\ subtract_then_add_in_place false WAPATCH_INTEGRITY h [[1]; [2]] [[9]] = Ok (replicate 128 0).
Proof.
  apply lthash_multiset.
  - split; [|reflexivity]. apply (bool_decide_unpack _). vm_compute. exact I.
  - reflexivity.
  - apply perm_swap.
Defined.
