(* ===== verification/AppState.v ===== *)
(** * App-state patches and snapshots

    [wacore/appstate/src/hash.rs], [decode.rs], [processor.rs] and [keys.rs].  The
    protobuf messages are records of the fields the code reads.  Message
    authentication, AES-CBC, the protobuf decoder of an action and the JSON parser of
    its index are the interface [AppCrypto]. *)

From stdpp Require Import prelude strings gmap.
From S2P Require Import Prelude LtHash.

#[local] Open Scope Z_scope.

(** ** Messages *)

Inductive SyncdOperation : Type := OpSet | OpRemove.
#[global] Instance SyncdOperation_eq_dec : EqDecision SyncdOperation.
Proof. solve_decision. Defined.

(** [SyncdOperation as i32] and its [try_from]. *)
Definition op_i32 (o : SyncdOperation) : Z := match o with OpSet => 0 | OpRemove => 1 end.
Definition op_try_from (z : Z) : option SyncdOperation :=
  if z =? 0 then Some OpSet else if z =? 1 then Some OpRemove else None.

(** A field that is itself a message with one optional field is a nested option. *)
Record SyncdRecord : Type := mkRecord {
  rec_index : option (option bytes); rec_value : option (option bytes);
  rec_key_id : option (option bytes)
}.
Record SyncdMutation : Type := mkMutation {
  mut_operation : option Z; mut_record : option SyncdRecord
}.
Record ExternalBlobReference : Type := mkBlobRef {
  media_key : option bytes; direct_path : option bytes; handle : option bytes;
  file_size_bytes : option Z; file_sha256 : option bytes; file_enc_sha256 : option bytes
}.
(** The fields [exitCode], [deviceIndex] and [clientDebugData] are never read. *)
Record SyncdPatch : Type := mkPatch {
  patch_version : option (option Z); patch_mutations : list SyncdMutation;
  patch_external : option ExternalBlobReference;
  patch_snapshot_mac : option bytes; patch_patch_mac : option bytes;
  patch_key_id : option (option bytes)
}.
Record SyncdSnapshot : Type := mkSnapshot {
  snap_version : option (option Z); snap_records : list SyncdRecord;
  snap_mac : option bytes; snap_key_id : option (option bytes)
}.

Inductive AppStateError : Type :=
  | MissingPreviousSetValueOperation
  | MismatchingLTHash
  | MismatchingContentMAC
  | MismatchingIndexMAC
  | KeyNotFound
  | MissingValueBlob
  | ValueBlobTooShort
  | DecryptionFailed
  | DecodeFailed
  | MissingIndexMAC
  | MissingKeyId
  | SnapshotMACMismatch
  | PatchSnapshotMACMismatch
  | PatchMACMismatch
  | PatchVersionMismatch (expected got : Z)
  | DuplicateIndexInPatch.

Record ExpandedAppStateKeys : Type := mkAppKeys {
  k_index : bytes; k_value_encryption : bytes; k_value_mac : bytes;
  k_snapshot_mac : bytes; k_patch_mac : bytes
}.

Class AppCrypto : Type := {
  ActionValue : Type;
  hmac_sha256 : bytes -> bytes -> bytes;
  hmac_sha512 : bytes -> bytes -> bytes;
  (** ciphertext, key, iv *)
  aes_256_cbc_decrypt : bytes -> bytes -> bytes -> option bytes;
  (** [SyncActionData::decode]: the index and the value of the action *)
  decode_action : bytes -> option (option bytes * option ActionValue);
  (** [serde_json::from_slice::<Vec<String>>] *)
  json_strings : bytes -> option (list bytes);
}.

(** [expand_app_state_keys] *)
Definition expand_app_state_keys {H : Hkdf} (key_data : bytes) : ExpandedAppStateKeys :=
  let okm := hkdf key_data (str "WhatsApp Mutation Keys") 160 in
  let take32 start := upto 32 (from start okm) in
  mkAppKeys (take32 0) (take32 32) (take32 64) (take32 96) (take32 128).

(** ** The hash state *)

Record HashState : Type := mkHashState {
  version : Z; hash : bytes; index_value_map : gmap bytes bytes
}.
Definition hash_state_default : HashState := mkHashState 0 (replicate 128 0) ∅.

Definition set_hash (st : HashState) (h : bytes) : HashState :=
  mkHashState (version st) h (index_value_map st).
Definition set_version (st : HashState) (v : Z) : HashState :=
  mkHashState v (hash st) (index_value_map st).

Definition index_mac_of (m : SyncdMutation) : option bytes :=
  r ← mut_record m; mjoin (rec_index r).

(** The last 32 bytes of a value blob, when it has that many. *)
Definition mac_tail (blob : bytes) : option bytes :=
  if 32 <=? zlen blob then Some (from (zlen blob - 32) blob) else None.
Definition value_tail (r : SyncdRecord) : option bytes := mjoin (rec_value r) ≫= mac_tail.

Definition operation_or_default (m : SyncdMutation) : Z := default 0 (mut_operation m).
Definition is_set (m : SyncdMutation) : bool := operation_or_default m =? op_i32 OpSet.
Definition is_remove (m : SyncdMutation) : bool := operation_or_default m =? op_i32 OpRemove.

Definition contains (x : bytes) (l : list bytes) : bool := existsb (bytes_eqb x) l.

(** [index_mode] and the index MACs that the patch removes. *)
Definition index_mode (mutations : list SyncdMutation) : bool :=
  forallb (fun m => bool_decide (is_Some (index_mac_of m))) mutations.
Definition removed_in_patch (mutations : list SyncdMutation) : list bytes :=
  if index_mode mutations
  then omap (fun m => if is_remove m then index_mac_of m else None) mutations
  else [].

(** The loop over the mutations.  The callback keeps state of its own. *)
Section UpdateLoop.
Context {S : Type} (get_prev : S -> bytes -> SyncdMutation -> S * outcome AppStateError (option bytes)).

Record loop_state : Type := mkLoop {
  l_added : list bytes; l_removed : list bytes; l_missing_remove : bool; l_cb : S
}.

Definition update_step (removed_macs : list bytes) (st : loop_state) (m : SyncdMutation)
    : loop_state * outcome AppStateError unit :=
  let added :=
    match mut_record m ≫= value_tail with
    | Some tail => if is_set m then l_added st ++ [tail] else l_added st
    | None => l_added st
    end in
  let st := mkLoop added (l_removed st) (l_missing_remove st) (l_cb st) in
  match index_mac_of m with
  | Some index_mac =>
      if is_set m && contains index_mac removed_macs then (st, Ok tt)
      else
        let '(cb, r) := get_prev (l_cb st) index_mac m in
        match r with
        | Ok (Some prev) =>
            (mkLoop (l_added st) (l_removed st ++ [prev]) (l_missing_remove st) cb, Ok tt)
        | Ok None =>
            (mkLoop (l_added st) (l_removed st)
               (if is_remove m then true else l_missing_remove st) cb, Ok tt)
        | Err e => (mkLoop (l_added st) (l_removed st) (l_missing_remove st) cb, Err e)
        | Panic => (st, Panic)
        | Timeout => (st, Timeout)
        end
  | None => (st, Ok tt)
  end.

Fixpoint update_loop (removed_macs : list bytes) (st : loop_state) (l : list SyncdMutation)
    : loop_state * outcome AppStateError unit :=
  match l with
  | [] => (st, Ok tt)
  | m :: l' =>
      match update_step removed_macs st m with
      | (st, Ok _) => update_loop removed_macs st l'
      | other => other
      end
  end.
End UpdateLoop.
Arguments loop_state : clear implicits.
Arguments mkLoop {S}.
Arguments l_added {S}.
Arguments l_removed {S}.
Arguments l_missing_remove {S}.
Arguments l_cb {S}.

(** [asserts] of the lane arithmetic are panics. *)
Definition lift_panic {A} (o : outcome unit A) : outcome AppStateError A :=
  map_err (fun _ => MismatchingLTHash) o.

Section Processing.
Context {H : Hkdf} {AC : AppCrypto} (big_endian : bool).

(** [HashState::update_hash]: the flag [has_missing_remove], the callback's final
    state, and the new hash state. *)
Definition update_hash {S} (get_prev : S -> bytes -> SyncdMutation -> S * outcome AppStateError (option bytes))
    (cb : S) (st : HashState) (mutations : list SyncdMutation)
    : outcome AppStateError (bool * S * HashState) :=
  let '(l, r) := update_loop get_prev (removed_in_patch mutations) (mkLoop [] [] false cb) mutations in
  _ ← r;
  h ← lift_panic (subtract_then_add_in_place big_endian WAPATCH_INTEGRITY (hash st) (l_removed l) []);
  h ← lift_panic (subtract_then_add_in_place big_endian WAPATCH_INTEGRITY h [] (l_added l));
  Ok (l_missing_remove l, l_cb l, set_hash st h).

Definition update_hash_from_records (st : HashState) (records : list SyncdRecord)
    : outcome AppStateError HashState :=
  h ← lift_panic (subtract_then_add_in_place big_endian WAPATCH_INTEGRITY (hash st) []
                    (omap value_tail records));
  Ok (set_hash st h).

(** ** MACs *)

Definition generate_snapshot_mac (st : HashState) (name key : bytes) : bytes :=
  hmac_sha256 key (hash st ++ to_be_bytes 8 (version st) ++ name).

Definition generate_patch_mac (p : SyncdPatch) (name key : bytes) (v : Z) : bytes :=
  hmac_sha256 key
    (default [] (patch_snapshot_mac p)
     ++ concat (omap (fun m => mut_record m ≫= value_tail) (patch_mutations p))
     ++ to_be_bytes 8 v ++ name).

Definition generate_content_mac (operation : SyncdOperation) (data key_id key : bytes) : bytes :=
  let op_byte := [wrap 8 (op_i32 operation) + 1] in
  let key_data_length := replicate 7 0 ++ [wrap 8 (Z.land (zlen key_id + 1) 255)] in
  upto 32 (hmac_sha512 key (op_byte ++ key_id ++ data ++ key_data_length)).

Definition generate_index_mac (index_json_bytes key : bytes) : bytes :=
  hmac_sha256 key index_json_bytes.
Definition validate_index_mac (index_json_bytes expected_mac key : bytes)
    : outcome AppStateError unit :=
  if negb (bytes_eqb (generate_index_mac index_json_bytes key) expected_mac)
  then Err MismatchingIndexMAC else Ok tt.

(** ** Records *)

Record Mutation : Type := mkMut {
  action_value : option ActionValue; mut_index : list bytes; operation : SyncdOperation
}.
Record AppStateMutationMAC : Type := mkMac { index_mac : bytes; value_mac : bytes }.

Definition decode_record (op : SyncdOperation) (record : SyncdRecord)
    (keys : ExpandedAppStateKeys) (key_id : bytes) (validate_macs : bool)
    : outcome AppStateError (Mutation * AppStateMutationMAC) :=
  value_blob ← ok_or (mjoin (rec_value record)) MissingValueBlob;
  if zlen value_blob <? 16 + 32 then Err ValueBlobTooShort
  else
    let iv := upto 16 value_blob in
    let rest := from 16 value_blob in
    let ciphertext := upto (zlen rest - 32) rest in
    let value_mac := from (zlen rest - 32) rest in
    _ ← (if validate_macs then
           if negb (bytes_eqb (generate_content_mac op (upto (zlen value_blob - 32) value_blob)
                                 key_id (k_value_mac keys)) value_mac)
           then Err MismatchingContentMAC else Ok tt
         else Ok tt);
    plaintext ← ok_or (aes_256_cbc_decrypt ciphertext (k_value_encryption keys) iv) DecryptionFailed;
    '(index, value) ← ok_or (decode_action plaintext) DecodeFailed;
    _ ← (if validate_macs then
           stored ← ok_or (mjoin (rec_index record)) MissingIndexMAC;
           validate_index_mac (default [] index) stored (k_index keys)
         else Ok tt);
    let index_list := match index with
                      | Some idx_bytes => default [] (json_strings idx_bytes)
                      | None => []
                      end in
    index_mac ← ok_or (mjoin (rec_index record)) MissingIndexMAC;
    Ok (mkMut value index_list op, mkMac index_mac value_mac).

(** ** Snapshots *)

Context (get_keys : bytes -> outcome AppStateError ExpandedAppStateKeys).

Fixpoint decode_snapshot_records (records : list SyncdRecord) (validate_macs : bool)
    : outcome AppStateError (list Mutation * list AppStateMutationMAC) :=
  match records with
  | [] => Ok ([], [])
  | rec :: rest =>
      key_id ← ok_or (mjoin (rec_key_id rec)) MissingKeyId;
      keys ← get_keys key_id;
      '(mutation, macs) ← decode_record OpSet rec keys key_id validate_macs;
      '(ms, mcs) ← decode_snapshot_records rest validate_macs;
      Ok (mutation :: ms, macs :: mcs)
  end.

Definition process_snapshot (snapshot : SyncdSnapshot) (initial_state : HashState)
    (validate_macs : bool) (collection_name : bytes)
    : outcome AppStateError (HashState * list Mutation * list AppStateMutationMAC) :=
  let v := default 0 (mjoin (snap_version snapshot)) in
  st ← update_hash_from_records (set_version initial_state v) (snap_records snapshot);
  _ ← (if validate_macs then
         match snap_mac snapshot, mjoin (snap_key_id snapshot) with
         | Some mac_expected, Some key_id =>
             keys ← get_keys key_id;
             if negb (bytes_eqb (generate_snapshot_mac st collection_name (k_snapshot_mac keys))
                        mac_expected)
             then Err SnapshotMACMismatch else Ok tt
         | _, _ => Err SnapshotMACMismatch
         end
       else Ok tt);
  '(ms, mcs) ← decode_snapshot_records (snap_records snapshot) validate_macs;
  Ok (st, ms, mcs).

(** ** Patches *)

Definition validate_patch_macs (patch : SyncdPatch) (st : HashState)
    (keys : ExpandedAppStateKeys) (collection_name : bytes) (had_no_prior_state : bool)
    : outcome AppStateError unit :=
  if had_no_prior_state then Ok tt
  else
    _ ← match patch_snapshot_mac patch with
        | Some snap_mac =>
            if negb (bytes_eqb (generate_snapshot_mac st collection_name (k_snapshot_mac keys)) snap_mac)
            then Err PatchSnapshotMACMismatch else Ok tt
        | None => Ok tt
        end;
    match patch_patch_mac patch with
    | Some patch_mac =>
        let v := default 0 (mjoin (patch_version patch)) in
        if negb (bytes_eqb (generate_patch_mac patch collection_name (k_patch_mac keys) v) patch_mac)
        then Err PatchMACMismatch else Ok tt
    | None => Ok tt
    end.

(** One list of index MACs seen per operation. *)
Fixpoint detect_duplicate_loop (mutations : list SyncdMutation) (seen_set seen_remove : list bytes)
    : outcome AppStateError unit :=
  match mutations with
  | [] => Ok tt
  | m :: rest =>
      match index_mac_of m with
      | None => detect_duplicate_loop rest seen_set seen_remove
      | Some mac =>
          match default OpSet (op_try_from (operation_or_default m)) with
          | OpSet => if contains mac seen_set then Err DuplicateIndexInPatch
                     else detect_duplicate_loop rest (seen_set ++ [mac]) seen_remove
          | OpRemove => if contains mac seen_remove then Err DuplicateIndexInPatch
                        else detect_duplicate_loop rest seen_set (seen_remove ++ [mac])
          end
      end
  end.
Definition detect_duplicate_index_in_patch (mutations : list SyncdMutation)
    : outcome AppStateError unit := detect_duplicate_loop mutations [] [].

(** The callback of [process_patch]: values set earlier in the same patch shadow
    the store, except for a removal. *)
Definition patch_get_prev (get_prev_value_mac : bytes -> outcome AppStateError (option bytes))
    (in_patch : gmap bytes bytes) (index_mac : bytes) (m : SyncdMutation)
    : gmap bytes bytes * outcome AppStateError (option bytes) :=
  let prev :=
    if is_remove m then get_prev_value_mac index_mac
    else match in_patch !! index_mac with
         | Some value_mac => Ok (Some value_mac)
         | None => get_prev_value_mac index_mac
         end in
  match prev with
  | Ok prev =>
      (match mut_record m with
       | Some rec =>
           match mjoin (rec_index rec), value_tail rec with
           | Some index, Some tail => <[index := tail]> in_patch
           | _, _ => in_patch
           end
       | None => in_patch
       end, Ok prev)
  | Err e => (in_patch, Err e)
  | Panic => (in_patch, Panic)
  | Timeout => (in_patch, Timeout)
  end.

Record PatchResult : Type := mkPatchResult {
  pr_state : HashState; pr_mutations : list Mutation;
  pr_added_macs : list AppStateMutationMAC; pr_removed_index_macs : list bytes
}.

Fixpoint decode_patch_mutations (l : list SyncdMutation) (validate_macs : bool)
    : outcome AppStateError (list Mutation * list AppStateMutationMAC * list bytes) :=
  match l with
  | [] => Ok ([], [], [])
  | m :: rest =>
      match mut_record m with
      | None => decode_patch_mutations rest validate_macs
      | Some rec =>
          let op := default OpSet (op_try_from (default 0 (mut_operation m))) in
          key_id ← ok_or (mjoin (rec_key_id rec)) MissingKeyId;
          keys ← get_keys key_id;
          '(mutation, macs) ← decode_record op rec keys key_id validate_macs;
          '(ms, added, removed) ← decode_patch_mutations rest validate_macs;
          match op with
          | OpSet => Ok (mutation :: ms, macs :: added, removed)
          | OpRemove => Ok (mutation :: ms, added, index_mac macs :: removed)
          end
      end
  end.

Definition U64_MAX : Z := 18446744073709551615.

Definition process_patch (patch : SyncdPatch) (state : HashState)
    (get_prev_value_mac : bytes -> outcome AppStateError (option bytes))
    (validate_macs : bool) (collection_name : bytes) : outcome AppStateError PatchResult :=
  let original_version := version state in
  let original_hash_is_empty := bytes_eqb (hash state) (replicate 128 0) in
  let had_no_prior_state := (original_version =? 0) && original_hash_is_empty in
  let pv := default 0 (mjoin (patch_version patch)) in
  let expected_version := Z.min U64_MAX (original_version + 1) in
  if negb had_no_prior_state && negb (pv =? expected_version)
  then Err (PatchVersionMismatch expected_version pv)
  else
    let state := set_version state pv in
    '(has_missing_remove, _, state) ←
      map_err (fun _ => MismatchingLTHash)
        (update_hash (patch_get_prev get_prev_value_mac) ∅ state (patch_mutations patch));
    _ ← match validate_macs, mjoin (patch_key_id patch) with
        | true, Some key_id =>
            keys ← get_keys key_id;
            validate_patch_macs patch state keys collection_name had_no_prior_state
        | _, _ => Ok tt
        end;
    _ ← (if validate_macs then detect_duplicate_index_in_patch (patch_mutations patch) else Ok tt);
    '(ms, added, removed) ← decode_patch_mutations (patch_mutations patch) validate_macs;
    Ok (mkPatchResult state ms added removed).
End Processing.
