(* ===== verification/Dedup.v ===== *)
(** * The unique index MACs of a patch

    [collect_unique_index_macs] of [wacore/src/appstate_sync.rs] picks, before a patch is
    processed, the index MACs to look up in the store.  Small patches are scanned; large
    ones sort positions by MAC, drop all but the first of each run, and sort the
    positions back.  Both orders are total, so an unstable sort has one result, that of
    any sort. *)

From stdpp Require Import prelude strings sorting.
From S2P Require Import Prelude LtHash AppState.

#[local] Open Scope Z_scope.

Definition MAC_DEDUP_SCAN_LIMIT : Z := 64.

Definition mutation_index_mac (m : SyncdMutation) : option bytes :=
  r ← mut_record m; mjoin (rec_index r).

(** The scan. *)
Fixpoint scan_macs (mutations : list SyncdMutation) (out : list bytes) : list bytes :=
  match mutations with
  | [] => out
  | m :: rest =>
      match mutation_index_mac m with
      | Some mac => if existsb (bytes_eqb mac) out then scan_macs rest out
                    else scan_macs rest (out ++ [mac])
      | None => scan_macs rest out
      end
  end.

(** [Ord] of byte slices: lexicographic. *)
Fixpoint bytes_leb (a b : bytes) : bool :=
  match a, b with
  | [], _ => true
  | _ :: _, [] => false
  | x :: a', y :: b' => (x <? y) || ((x =? y) && bytes_leb a' b')
  end.

(** Positions are [u32]. *)
Definition mac_at (mutations : list SyncdMutation) (i : Z) : bytes :=
  default [] (mutations !! Z.to_nat i ≫= mutation_index_mac).
Fixpoint mac_positions (i : Z) (mutations : list SyncdMutation) : list Z :=
  match mutations with
  | [] => []
  | m :: rest =>
      match mutation_index_mac m with
      | Some _ => wrap 32 i :: mac_positions (i + 1) rest
      | None => mac_positions (i + 1) rest
      end
  end.

(** [mac_at(a).cmp(mac_at(b)).then(a.cmp(&b))] is not [Greater]. *)
Definition position_leb (mac : Z -> bytes) (a b : Z) : bool :=
  if bytes_eqb (mac a) (mac b) then a <=? b else bytes_leb (mac a) (mac b).
Definition position_le (mac : Z -> bytes) (a b : Z) : Prop := position_leb mac a b = true.

#[global] Instance position_le_dec mac a b : Decision (position_le mac a b).
Proof. unfold position_le. apply _. Defined.

(** [Vec::dedup_by]: an element is dropped when it matches the last one kept. *)
Fixpoint dedup_after (same : Z -> Z -> bool) (kept : Z) (l : list Z) : list Z :=
  match l with
  | [] => []
  | x :: rest => if same x kept then dedup_after same kept rest
                 else x :: dedup_after same x rest
  end.
Definition dedup_by (same : Z -> Z -> bool) (l : list Z) : list Z :=
  match l with
  | [] => []
  | x :: rest => x :: dedup_after same x rest
  end.

Definition unique_positions (mac : Z -> bytes) (order : list Z) : list Z :=
  let order := merge_sort (position_le mac) order in
  let order := dedup_by (fun a b => bytes_eqb (mac a) (mac b)) order in
  merge_sort Z.le order.

Definition collect_unique_index_macs (mutations : list SyncdMutation) : list bytes :=
  if zlen mutations <=? MAC_DEDUP_SCAN_LIMIT then scan_macs mutations []
  else map (mac_at mutations) (unique_positions (mac_at mutations) (mac_positions 0 mutations)).

(** ** The order of the MACs *)

Lemma bytes_leb_total a b : bytes_leb a b = true \/ bytes_leb b a = true.
Proof.
  revert b. induction a as [|x a IH]; intros [|y b]; cbn [bytes_leb]; auto.
  destruct (IH b), (Z.ltb_spec x y), (Z.eqb_spec x y), (Z.ltb_spec y x), (Z.eqb_spec y x);
    subst; cbn; auto; lia.
Qed.

Lemma bytes_leb_antisym a b : bytes_leb a b = true -> bytes_leb b a = true -> a = b.
Proof.
  revert b. induction a as [|x a IH]; intros [|y b]; cbn [bytes_leb]; try done.
  destruct (Z.ltb_spec x y), (Z.eqb_spec x y), (Z.ltb_spec y x), (Z.eqb_spec y x);
    subst; cbn; try lia; try done.
  intros H1 H2. f_equal. by apply IH.
Qed.

Lemma bytes_leb_trans a b c : bytes_leb a b = true -> bytes_leb b c = true -> bytes_leb a c = true.
Proof.
  revert b c. induction a as [|x a IH]; intros [|y b] [|z c]; cbn [bytes_leb]; try done.
  rewrite !orb_true_iff, !andb_true_iff, !Z.ltb_lt, !Z.eqb_eq.
  intros [?|[? ?]] [?|[? ?]]; [left; lia..|right]. split; [lia|]. by eapply IH.
Qed.

Lemma bytes_leb_refl a : bytes_leb a a = true.
Proof. by destruct (bytes_leb_total a a). Qed.

Section Positions.
Context (mac : Z -> bytes).

Lemma position_le_spec a b : position_le mac a b <->
  bytes_leb (mac a) (mac b) = true /\ (mac a = mac b -> a <= b).
Proof.
  unfold position_le, position_leb. destruct (bytes_eqb (mac a) (mac b)) eqn:E.
  - apply bytes_eqb_eq in E. rewrite Z.leb_le, E, bytes_leb_refl. naive_solver.
  - apply bytes_eqb_neq in E. naive_solver.
Qed.

#[local] Instance position_le_total : Total (position_le mac).
Proof.
  intros a b. rewrite !position_le_spec.
  destruct (decide (mac a = mac b)) as [E|E].
  - rewrite E, bytes_leb_refl. destruct (Z.le_ge_cases a b); [left|right]; auto.
  - destruct (bytes_leb_total (mac a) (mac b)); [left|right]; split; congruence.
Qed.

#[local] Instance position_le_trans : Transitive (position_le mac).
Proof.
  intros a b c. rewrite !position_le_spec. intros [H1 H2] [H3 H4]. split.
  - by eapply bytes_leb_trans.
  - intros E. assert (mac a = mac b).
    { apply bytes_leb_antisym; [done|]. rewrite E. done. }
    assert (mac b = mac c) by congruence. specialize (H2 ltac:(done)). specialize (H4 ltac:(done)). lia.
Qed.

(** ** What the sort-based path keeps: the first position of each MAC *)

Abbreviation same := (fun a b => bytes_eqb (mac a) (mac b)).

Definition first_in (l : list Z) (i : Z) : Prop := i ∈ l /\ forall j, j ∈ l -> mac j = mac i -> i <= j.

Lemma first_in_nil i : first_in [] i <-> False.
Proof. unfold first_in. split; [by intros [?%not_elem_of_nil _]|done]. Qed.

Lemma first_in_cons x l i : StronglySorted (position_le mac) (x :: l) ->
  first_in (x :: l) i <-> i = x \/ first_in l i /\ mac i <> mac x.
Proof.
  intros [Hx Hl]%StronglySorted_cons. rewrite Forall_forall in Hx.
  assert (Hlow : forall j, j ∈ l -> mac j = mac x -> x <= j).
  { intros j Hj Hm. specialize (Hx j Hj). apply position_le_spec in Hx as [_ Hx]. by apply Hx. }
  unfold first_in. split.
  - intros [[->|Hi]%elem_of_cons Hmin]; [by left|].
    destruct (decide (mac i = mac x)) as [Heq|]; [left|right].
    + specialize (Hmin x ltac:(by left) ltac:(done)). specialize (Hlow i Hi Heq). lia.
    + split; [|done]. split; [done|]. intros j Hj. apply Hmin. by right.
  - intros [->|[[Hi Hmin] Hne]].
    + split; [by left|]. intros j [->|Hj]%elem_of_cons Hm; [lia|by apply Hlow].
    + split; [by right|]. intros j [->|Hj]%elem_of_cons Hm; [congruence|by apply Hmin].
Qed.

Lemma dedup_after_elem kept l i : StronglySorted (position_le mac) (kept :: l) ->
  i ∈ dedup_after same kept l <-> first_in l i /\ mac i <> mac kept.
Proof.
  revert kept. induction l as [|x l IH]; intros kept Hs; cbn [dedup_after].
  { rewrite elem_of_nil, first_in_nil. naive_solver. }
  apply StronglySorted_cons in Hs as [Hk Hxl]. rewrite first_in_cons by done.
  apply Forall_cons in Hk as [Hkx Hkl]. apply position_le_spec in Hkx as [Hkx _].
  pose proof Hxl as [Hx Hl]%StronglySorted_cons. rewrite Forall_forall in Hx.
  destruct (bytes_eqb (mac x) (mac kept)) eqn:E.
  - apply bytes_eqb_eq in E. rewrite IH by (by apply StronglySorted_cons). naive_solver congruence.
  - apply bytes_eqb_neq in E. rewrite elem_of_cons, IH by done. split; [|naive_solver].
    intros [->|[Hi Hne]]; [by auto|]. split; [by right|]. intros Heq. apply E, bytes_leb_antisym; [|done].
    rewrite <- Heq. destruct Hi as [Hi _]. specialize (Hx i Hi). by apply position_le_spec in Hx as [Hx _].
Qed.

Lemma dedup_by_elem l i : StronglySorted (position_le mac) l ->
  i ∈ dedup_by same l <-> first_in l i.
Proof.
  destruct l as [|x l]; intros Hs; cbn [dedup_by].
  - by rewrite elem_of_nil, first_in_nil.
  - by rewrite elem_of_cons, dedup_after_elem, first_in_cons.
Qed.

Lemma dedup_after_sublist kept l : dedup_after same kept l `sublist_of` l.
Proof.
  revert kept. induction l as [|x l IH]; intros kept; cbn [dedup_after]; [done|].
  case_match; [by apply sublist_cons|by apply sublist_skip].
Qed.

Lemma dedup_by_NoDup l : NoDup l -> NoDup (dedup_by same l).
Proof.
  destruct l as [|x l]; [done|]. intros Hnd. cbn [dedup_by].
  eapply sublist_NoDup; [exact Hnd|]. apply sublist_skip, dedup_after_sublist.
Qed.

(** ** The scan as a choice of positions *)

Fixpoint scan_positions (seen : list bytes) (l : list Z) : list Z :=
  match l with
  | [] => []
  | i :: l' => if existsb (bytes_eqb (mac i)) seen then scan_positions seen l'
               else i :: scan_positions (seen ++ [mac i]) l'
  end.

Lemma existsb_elem k seen : existsb (bytes_eqb k) seen = true <-> k ∈ seen.
Proof.
  rewrite existsb_exists. setoid_rewrite bytes_eqb_eq. setoid_rewrite <- list_elem_of_In. naive_solver.
Qed.

Lemma scan_positions_elem seen l i : StronglySorted Z.lt l ->
  i ∈ scan_positions seen l <-> first_in l i /\ mac i ∉ seen.
Proof.
  revert seen. induction l as [|x l IH]; intros seen Hs; cbn [scan_positions].
  { rewrite elem_of_nil, first_in_nil. naive_solver. }
  apply StronglySorted_cons in Hs as [Hx Hl]. rewrite Forall_forall in Hx.
  assert (Hc : first_in (x :: l) i <-> i = x \/ first_in l i /\ mac i <> mac x).
  { unfold first_in. setoid_rewrite elem_of_cons. split.
    - intros [[->|Hi] Hmin]; [by left|]. right. split; [by auto|]. intros E.
      specialize (Hmin x ltac:(by left) ltac:(done)). specialize (Hx i Hi). lia.
    - intros [->|[[Hi Hmin] Hne]].
      + split; [by left|]. intros j [->|Hj] _; [lia|]. specialize (Hx j Hj). lia.
      + split; [by right|]. intros j [->|Hj] Hm; [congruence|by apply Hmin]. }
  rewrite Hc. destruct (existsb (bytes_eqb (mac x)) seen) eqn:E.
  - apply existsb_elem in E. rewrite IH by done. naive_solver congruence.
  - assert (mac x ∉ seen) by (rewrite <- existsb_elem; by rewrite E).
    rewrite elem_of_cons, IH, elem_of_app, list_elem_of_singleton by done. naive_solver.
Qed.

Lemma scan_positions_sublist seen l : scan_positions seen l `sublist_of` l.
Proof.
  revert seen. induction l as [|x l IH]; intros seen; cbn [scan_positions]; [done|].
  case_match; [by apply sublist_cons|by apply sublist_skip].
Qed.

Lemma StronglySorted_lt_NoDup l : StronglySorted Z.lt l -> NoDup l.
Proof.
  induction 1 as [|x l Hl IH Hx]; constructor; [|done]. intros Hin.
  rewrite Forall_forall in Hx. specialize (Hx x Hin). lia.
Qed.

Lemma StronglySorted_sublist (R : Z -> Z -> Prop) l k :
  k `sublist_of` l -> StronglySorted R l -> StronglySorted R k.
Proof.
  induction 1 as [|x k l Hk IH|x k l Hk IH]; [done| |]; intros [Hx Hl]%StronglySorted_cons.
  - apply StronglySorted_cons. split; [|by apply IH]. rewrite Forall_forall in *. intros y Hy.
    eapply Hx, elem_of_sublist; [exact Hy|done].
  - by apply IH.
Qed.

(** Both paths choose the same positions. *)
Lemma unique_positions_scan l : StronglySorted Z.lt l ->
  unique_positions mac l = scan_positions [] l.
Proof.
  intros Hs. unfold unique_positions.
  apply (StronglySorted_unique Z.le).
  - apply (StronglySorted_merge_sort _).
  - eapply StronglySorted_sublist; [apply scan_positions_sublist|].
    clear -Hs. induction Hs as [|x l Hl IH Hx]; constructor; [done|].
    eapply Forall_impl; [exact Hx|]. intros; lia.
  - rewrite merge_sort_Permutation. pose proof (StronglySorted_lt_NoDup l Hs) as Hnd.
    apply NoDup_Permutation.
    + apply dedup_by_NoDup. by rewrite merge_sort_Permutation.
    + eapply sublist_NoDup; [exact Hnd|apply scan_positions_sublist].
    + intros i. rewrite dedup_by_elem by apply (StronglySorted_merge_sort _).
      rewrite scan_positions_elem by done. unfold first_in.
      setoid_rewrite (merge_sort_Permutation (position_le mac) l). rewrite elem_of_nil. naive_solver.
Qed.
End Positions.

Lemma mac_positions_sorted i mutations : 0 <= i -> i + zlen mutations <= 2 ^ 32 ->
  StronglySorted Z.lt (mac_positions i mutations) /\ Forall (fun j => i <= j) (mac_positions i mutations).
Proof.
  revert i. induction mutations as [|m l IH]; intros i Hi Hlen; [by repeat constructor|].
  rewrite zlen_cons in Hlen. pose proof (zlen_nonneg l). destruct (IH (i + 1)) as [Hs Hf]; [lia..|].
  cbn [mac_positions]. case_match.
  - assert (wrap 32 i = i) as -> by (unfold wrap; apply Z.mod_small; lia). split; constructor; try done; try lia.
    all: eapply Forall_impl; [exact Hf|]; cbn; lia.
  - split; [done|]. eapply Forall_impl; [exact Hf|]. cbn. lia.
Qed.

Lemma mac_positions_macs pre mutations : zlen (pre ++ mutations) <= 2 ^ 32 ->
  map (mac_at (pre ++ mutations)) (mac_positions (zlen pre) mutations) = omap mutation_index_mac mutations.
Proof.
  revert pre. induction mutations as [|m l IH]; intros pre Hlen; [done|].
  specialize (IH (pre ++ [m])). rewrite <- app_assoc in IH. cbn [app] in IH. specialize (IH Hlen).
  rewrite zlen_app, zlen_cons, zlen_nil in IH. replace (zlen pre + (0 + 1)) with (zlen pre + 1) in IH by lia.
  rewrite zlen_app, zlen_cons in Hlen. pose proof (zlen_nonneg l). pose proof (zlen_nonneg pre).
  cbn [mac_positions omap list_omap]. destruct (mutation_index_mac m) as [k|] eqn:E; [|done].
  cbn [map]. f_equal; [|done]. unfold wrap. rewrite Z.mod_small by lia. unfold mac_at, zlen.
  rewrite Nat2Z.id, list_lookup_middle by done. cbn. by rewrite E.
Qed.

Lemma scan_macs_app mac l mutations out : map mac l = omap mutation_index_mac mutations ->
  scan_macs mutations out = out ++ map mac (scan_positions mac out l).
Proof.
  revert l out. induction mutations as [|m ms IH]; intros l out Hm; cbn [scan_macs omap list_omap] in *.
  - destruct l; [|done]. by rewrite app_nil_r.
  - destruct (mutation_index_mac m) as [k|]; [|by apply IH].
    destruct l as [|i l]; [done|]. injection Hm as <- Hm. cbn [scan_positions].
    destruct (existsb _ out); [by apply IH|]. rewrite (IH l) by done. cbn [map]. by rewrite <- app_assoc.
Qed.

Lemma scan_macs_elem mutations out k :
  k ∈ scan_macs mutations out <-> k ∈ out \/ k ∈ omap mutation_index_mac mutations.
Proof.
  revert out. induction mutations as [|m ms IH]; intros out; cbn [scan_macs omap list_omap].
  - rewrite elem_of_nil. naive_solver.
  - destruct (mutation_index_mac m) as [j|]; [|by apply IH]. rewrite elem_of_cons.
    destruct (existsb (bytes_eqb j) out) eqn:E; rewrite IH.
    + apply existsb_elem in E. naive_solver.
    + rewrite elem_of_app, list_elem_of_singleton. naive_solver.
Qed.

Lemma scan_macs_NoDup mutations out : NoDup out -> NoDup (scan_macs mutations out).
Proof.
  revert out. induction mutations as [|m ms IH]; intros out Hnd; cbn [scan_macs]; [done|].
  destruct (mutation_index_mac m) as [j|]; [|by apply IH].
  destruct (existsb (bytes_eqb j) out) eqn:E; apply IH; [done|]. apply NoDup_app. split; [done|].
  split; [|apply NoDup_singleton]. intros x Hx ->%list_elem_of_singleton.
  apply existsb_elem in Hx. by rewrite E in Hx.
Qed.

Lemma collect_unique_scan mutations : zlen mutations <= 2 ^ 32 ->
  collect_unique_index_macs mutations = scan_macs mutations [].
Proof.
  intros Hlen. unfold collect_unique_index_macs. case_match; [done|].
  destruct (mac_positions_sorted 0 mutations) as [Hs _]; [lia..|].
  rewrite unique_positions_scan by done. symmetry. apply (scan_macs_app _ _ _ []).
  by apply (mac_positions_macs []).
Qed.

(** ** Properties *)

(** The sorting path of [collect_unique_index_macs] is the scan.  On any patch of at most
    2^32 mutations the result, whichever path computes it, is the scan's: the index MACs of
    the patch, each once. *)
Lemma collect_unique_index_macs_spec (mutations : list SyncdMutation) :
  zlen mutations <= 2 ^ 32 ->
  collect_unique_index_macs mutations = scan_macs mutations []
  /\ NoDup (collect_unique_index_macs mutations)
  /\ forall k, k ∈ collect_unique_index_macs mutations
               <-> exists m, m ∈ mutations /\ mutation_index_mac m = Some k.
Proof.
  intros Hlen. rewrite collect_unique_scan by done. split; [done|]. split.
  - apply scan_macs_NoDup. constructor.
  - intros k. rewrite scan_macs_elem, elem_of_nil, list_elem_of_omap. naive_solver.
Qed.

Definition sample_mutations : list SyncdMutation :=
  mkMutation (Some 0) None
  :: map (fun i => mkMutation (Some 0) (Some (mkRecord (Some (Some [i mod 7; i])) None None)))
       (map Z.of_nat (rev (seq 0 40) ++ seq 0 40)).

Lemma collect_unique_index_macs_witness :
  collect_unique_index_macs sample_mutations = scan_macs sample_mutations []
  /\ NoDup (collect_unique_index_macs sample_mutations)
  /\ length (collect_unique_index_macs sample_mutations) = 40%nat.
Proof.
  destruct (collect_unique_index_macs_spec sample_mutations) as (H1 & H2 & _).
  { vm_compute. discriminate. }
  split; [exact H1|]. split; [exact H2|]. vm_compute. reflexivity.
Defined.
