(* ===== verification/AppSync.v ===== *)
(** * The collection store and its hash

    [wacore/src/appstate_sync.rs]: how the results of [process_snapshot] and
    [process_patch] are persisted.  The backend keeps, per collection, the hash state
    and a map from index MACs to value MACs.  The invariant of the whole component is
    [consistent]: the hash is the sum of the values in the map. *)

From stdpp Require Import prelude strings gmap.
From S2P Require Import Prelude LtHash AppState Dedup.

#[local] Open Scope Z_scope.

(** ** Patch lists *)

Inductive WAPatchName : Type :=
  | CriticalBlock | CriticalUnblockLow | RegularLow | RegularHigh | Regular | Unknown.
#[global] Instance WAPatchName_eq_dec : EqDecision WAPatchName.
Proof. solve_decision. Defined.

Definition patch_name_as_str (n : WAPatchName) : bytes :=
  match n with
  | CriticalBlock => str "critical_block"
  | CriticalUnblockLow => str "critical_unblock_low"
  | RegularLow => str "regular_low"
  | RegularHigh => str "regular_high"
  | Regular => str "regular"
  | Unknown => str "unknown"
  end.

Inductive CollectionSyncError : Type :=
  | Conflict (has_more : bool)
  | Fatal (code : Z) (text : bytes)
  | Retry (code : Z) (text : bytes).

Record PatchList : Type := mkPatchList {
  pl_name : WAPatchName; pl_has_more_patches : bool; pl_patches : list SyncdPatch;
  pl_snapshot : option SyncdSnapshot; pl_snapshot_ref : option ExternalBlobReference;
  pl_error : option CollectionSyncError
}.
Definition pl_set_error (pl : PatchList) (e : CollectionSyncError) : PatchList :=
  mkPatchList (pl_name pl) (pl_has_more_patches pl) (pl_patches pl) (pl_snapshot pl)
    (pl_snapshot_ref pl) (Some e).
Definition pl_set_content (pl : PatchList) (s : option SyncdSnapshot) (ps : list SyncdPatch)
    : PatchList :=
  mkPatchList (pl_name pl) (pl_has_more_patches pl) ps s (pl_snapshot_ref pl) (pl_error pl).
Definition patch_set_mutations (p : SyncdPatch) (l : list SyncdMutation) : SyncdPatch :=
  mkPatch (patch_version p) l (patch_external p) (patch_snapshot_mac p) (patch_patch_mac p)
    (patch_key_id p).

(** The [Debug] names, which the error texts use. *)
Definition patch_name_debug (n : WAPatchName) : bytes :=
  match n with
  | CriticalBlock => str "CriticalBlock"
  | CriticalUnblockLow => str "CriticalUnblockLow"
  | RegularLow => str "RegularLow"
  | RegularHigh => str "RegularHigh"
  | Regular => str "Regular"
  | Unknown => str "Unknown"
  end.

Inductive SyncError : Type :=
  | Processing (e : AppStateError)
  | StoreError (busy : bool)
  | KeyNotFoundId (id_b64 : bytes)
  | NoSyncKey
  | External (text : bytes).

(** External blobs: the download callback and the protobuf decoders.  Their errors are
    replaced by the context of the call. *)
Class Blobs : Type := {
  download : ExternalBlobReference -> option bytes;
  decode_snapshot_blob : bytes -> option SyncdSnapshot;
  decode_mutations_blob : bytes -> option (list SyncdMutation)
}.

Section External.
Context {BL : Blobs}.

(** The blobs replace the list's content in place, so the list keeps what was inlined
    before an error. *)
Definition inline_snapshot (pl : PatchList) : PatchList * outcome SyncError unit :=
  match pl_snapshot pl, pl_snapshot_ref pl with
  | None, Some ext =>
      let for_name what := External (what ++ str " external snapshot for "
                                     ++ patch_name_debug (pl_name pl)) in
      match download ext with
      | None => (pl, Err (for_name (str "download")))
      | Some data =>
          match decode_snapshot_blob data with
          | None => (pl, Err (for_name (str "decode")))
          | Some s => (pl_set_content pl (Some s) (pl_patches pl), Ok tt)
          end
      end
  | _, _ => (pl, Ok tt)
  end.

Fixpoint inline_mutations (name : WAPatchName) (patches : list SyncdPatch)
    : list SyncdPatch * outcome SyncError unit :=
  match patches with
  | [] => ([], Ok tt)
  | p :: rest =>
      let go p := let '(rest, r) := inline_mutations name rest in (p :: rest, r) in
      match patch_external p with
      | None => go p
      | Some ext =>
          let for_version what :=
            External (what ++ str " external mutations for " ++ patch_name_debug name
                      ++ str " v" ++ itoa (default 0 (mjoin (patch_version p)))) in
          match download ext with
          | None => (patches, Err (for_version (str "download")))
          | Some data =>
              match decode_mutations_blob data with
              | None => (patches, Err (for_version (str "decode")))
              | Some l => go (patch_set_mutations p l)
              end
          end
      end
  end.

Definition download_external_blobs (pl : PatchList) : PatchList * outcome SyncError unit :=
  match inline_snapshot pl with
  | (pl, Ok _) =>
      let '(ps, r) := inline_mutations (pl_name pl) (pl_patches pl) in
      (pl_set_content pl (pl_snapshot pl) ps, r)
  | other => other
  end.
End External.

(** ** The key cache *)

(** [collect_key_ids_from_patch_list]: the ids in the order they appear, each once. *)
Definition patch_key_ids (p : SyncdPatch) : list (option bytes) :=
  mjoin (patch_key_id p) :: omap (fun m => r ← mut_record m; Some (mjoin (rec_key_id r))) (patch_mutations p).
Definition snapshot_key_ids (s : SyncdSnapshot) : list (option bytes) :=
  mjoin (snap_key_id s) :: map (fun r => mjoin (rec_key_id r)) (snap_records s).
Fixpoint check_ids (l : list (option bytes)) (key_ids : list bytes) : list bytes :=
  match l with
  | [] => key_ids
  | Some k :: rest => check_ids rest (if contains k key_ids then key_ids else key_ids ++ [k])
  | None :: rest => check_ids rest key_ids
  end.
Definition collect_key_ids_from_patch_list (snapshot : option SyncdSnapshot)
    (patches : list SyncdPatch) : list bytes :=
  check_ids (match snapshot with Some s => snapshot_key_ids s | None => [] end
             ++ concat (map patch_key_ids patches)) [].

(** The backend's sync keys, and the base64 text that keys the cache. *)
Class KeyStore : Type := {
  b64 : bytes -> bytes;
  get_sync_key : bytes -> outcome SyncError (option bytes)
}.
Class KeyStoreLaws {KS : KeyStore} : Prop := { #[global] b64_inj :: Inj (=) (=) b64 }.

Abbreviation key_cache := (gmap bytes ExpandedAppStateKeys).

Section Keys.
Context {H : Hkdf} {KS : KeyStore}.

(** The cache is only written when the backend has the key. *)
Definition get_app_state_key (cache : key_cache) (key_id : bytes)
    : key_cache * outcome SyncError ExpandedAppStateKeys :=
  match cache !! b64 key_id with
  | Some cached => (cache, Ok cached)
  | None =>
      match get_sync_key key_id with
      | Ok (Some key_data) =>
          let expanded := expand_app_state_keys key_data in
          (<[b64 key_id := expanded]> cache, Ok expanded)
      | Ok None => (cache, Err (KeyNotFoundId (b64 key_id)))
      | Err e => (cache, Err e)
      | Panic => (cache, Panic)
      | Timeout => (cache, Timeout)
      end
  end.

Definition prefetch_keys (cache : key_cache) (pl : PatchList) : key_cache :=
  fold_left (fun cache id => (get_app_state_key cache id).1)
    (collect_key_ids_from_patch_list (pl_snapshot pl) (pl_patches pl)) cache.

Definition lookup_app_state_key (cache : key_cache) (key_id : bytes)
    : outcome AppStateError ExpandedAppStateKeys :=
  ok_or (cache !! b64 key_id) KeyNotFound.

Definition clear_key_cache (cache : key_cache) : key_cache := ∅.
End Keys.

(** ** Collections *)

(** What the backend holds for one collection. *)
Record Collection : Type := mkCollection { c_state : HashState; c_macs : gmap bytes bytes }.
Definition collection_new : Collection := mkCollection hash_state_default ∅.

(** [put_mutation_macs], [delete_mutation_macs], [clear_mutation_macs] and
    [get_mutation_macs] of the backend. *)
Definition put_mutation_macs (macs : list AppStateMutationMAC) (m : gmap bytes bytes)
    : gmap bytes bytes :=
  fold_left (fun m mac => <[index_mac mac := value_mac mac]> m) macs m.
Definition delete_mutation_macs (keys : list bytes) (m : gmap bytes bytes) : gmap bytes bytes :=
  fold_left (fun m k => delete k m) keys m.
Definition clear_mutation_macs (m : gmap bytes bytes) : gmap bytes bytes := ∅.
Definition get_mutation_macs (keys : list bytes) (m : gmap bytes bytes) : gmap bytes bytes :=
  list_to_map (omap (fun k => v ← m !! k; Some (k, v)) keys).

Definition snapshot_is_stale (persisted_version snapshot_version : Z) : bool :=
  (0 <? persisted_version) && (snapshot_version <=? persisted_version).

(** *** Accesses that fail

    What happens to the accesses to come is a script; behind its end nothing fails.  A call of
    the backend that fails has made some attempts, and each has carried out some of its rows and
    left it at that: no transaction is around the batches of rows that [put_mutation_macs] and
    [delete_mutation_macs] write, and [with_retry] starts from the first row again.  All rows
    may be written although the call fails.  [busy] says whether the database is locked. *)
Record StoreFault : Type := mkFault { sf_attempts : list nat; sf_busy : bool }.
Abbreviation fault_script := (list (option StoreFault)).

(** Computations on the store of one collection. *)
Definition col (A : Type) : Type := Collection * fault_script -> (Collection * fault_script) * outcome SyncError A.
#[global] Instance col_ret : MRet col := fun A a s => (s, Ok a).
#[global] Instance col_bind : MBind col := fun A B k m s =>
  match m s with
  | (s, Ok a) => k a s
  | (s, Err e) => (s, Err e)
  | (s, Panic) => (s, Panic)
  | (s, Timeout) => (s, Timeout)
  end.
Definition col_lift {A} (o : outcome AppStateError A) : col A := fun s => (s, map_err Processing o).
Definition col_answer {A} (o : outcome SyncError A) : col A := fun s => (s, o).
Definition store_read {A} (f : Collection -> A) : col A := fun '(c, fs) =>
  match fs with
  | Some fault :: fs => ((c, fs), Err (StoreError (sf_busy fault)))
  | _ => ((c, tail fs), Ok (f c))
  end.
Definition rows_done {R} (fault : StoreFault) (rows : list R) : list R :=
  concat (map (fun n => take n rows) (sf_attempts fault)).
Definition store_rows {R} (f : list R -> Collection -> Collection) (rows : list R) : col unit := fun '(c, fs) =>
  match fs with
  | Some fault :: fs => ((f (rows_done fault rows) c, fs), Err (StoreError (sf_busy fault)))
  | _ => ((f rows c, tail fs), Ok tt)
  end.
(** A call of one statement. *)
Definition store_write (f : Collection -> Collection) : col unit :=
  store_rows (fun rows c => match rows with [] => c | _ => f c end) [tt].

Lemma store_read_or {A} (f : Collection -> A) c fs :
  (exists busy, store_read f (c, fs) = ((c, tail fs), Err (StoreError busy)) /\ from_option is_Some False (head fs))
  \/ store_read f (c, fs) = ((c, tail fs), Ok (f c)).
Proof. destruct fs as [|[[n b]|] fs]; [by right|left; exists b; split; [done|by eexists]|by right]. Qed.

(** What the writes do. *)
Definition with_state (st : HashState) (c : Collection) : Collection := mkCollection st (c_macs c).
Definition on_macs (f : gmap bytes bytes -> gmap bytes bytes) (c : Collection) : Collection :=
  mkCollection (c_state c) (f (c_macs c)).
Definition put_rows (macs : list AppStateMutationMAC) : Collection -> Collection := on_macs (put_mutation_macs macs).
Definition delete_rows (keys : list bytes) : Collection -> Collection := on_macs (delete_mutation_macs keys).

Section Sync.
Context {H : Hkdf} {AC : AppCrypto} (big_endian : bool).
Context (get_keys : bytes -> outcome AppStateError ExpandedAppStateKeys).

(** The snapshot branch of [process_patch_list]: process from a fresh state, replace
    the MACs, commit the version last. *)
Definition apply_snapshot (state : HashState) (snapshot : SyncdSnapshot) (validate_macs : bool)
    (name : bytes) : col (HashState * list Mutation) :=
  if snapshot_is_stale (version state) (default 0 (mjoin (snap_version snapshot)))
  then mret (state, [])
  else
    '(st, ms, mcs) ← col_lift (process_snapshot big_endian get_keys snapshot hash_state_default
                                 validate_macs name);
    _ ← store_write (on_macs clear_mutation_macs);
    _ ← match mcs with [] => mret tt | _ => store_rows put_rows mcs end;
    _ ← store_write (with_state st);
    mret (st, ms).

(** The three commits of a patch: the new version and hash, the removed MACs, the added MACs,
    in this order. *)
Definition persist_patch (r : PatchResult) : col unit :=
  _ ← store_write (with_state (pr_state r));
  _ ← match pr_removed_index_macs r with
      | [] => mret tt
      | removed => store_rows delete_rows removed
      end;
  match pr_added_macs r with
  | [] => mret tt
  | added => store_rows put_rows added
  end.

(** One patch: the previous values of the MACs that it names, fetched in one query; process,
    then persist. *)
Definition apply_patch (state : HashState) (patch : SyncdPatch) (validate_macs : bool) (name : bytes)
    : col (HashState * list Mutation) :=
  let need_db_lookup := collect_unique_index_macs (patch_mutations patch) in
  db_prev ← store_read (fun c => get_mutation_macs need_db_lookup (c_macs c));
  r ← col_lift (process_patch big_endian get_keys patch state (fun index_mac => Ok (db_prev !! index_mac))
                  validate_macs name);
  _ ← persist_patch r;
  mret (pr_state r, pr_mutations r).

(** The loop over the patches; an error keeps what the earlier patches persisted. *)
Fixpoint apply_patches (state : HashState) (patches : list SyncdPatch) (validate_macs : bool)
    (name : bytes) (acc : list Mutation) : col (HashState * list Mutation) :=
  match patches with
  | [] => mret (state, acc)
  | p :: rest =>
      '(state, ms) ← apply_patch state p validate_macs name;
      apply_patches state rest validate_macs name (acc ++ ms)
  end.

(** The body of [process_patch_list] once the keys are cached: the new mutations, the state
    and the collection error that asks for a refetch. *)
Definition apply_patch_list (snapshot : option SyncdSnapshot) (patches : list SyncdPatch)
    (validate_macs : bool) (name : bytes) : col (list Mutation * HashState * option CollectionSyncError) :=
  state ← store_read c_state;
  '(state, ms) ← match snapshot with
                 | Some s => apply_snapshot state s validate_macs name
                 | None => mret (state, [])
                 end;
  let first_version := match patches with
                       | p :: _ => default 0 (mjoin (patch_version p))
                       | [] => 0
                       end in
  if (version state =? 0) && bytes_eqb (hash state) (replicate 128 0)
     && negb (bool_decide (patches = [])) && negb (first_version =? 1)
  then mret (ms, state, Some (Retry 0 (str "empty lthash")))
  else
    '(state, ms) ← apply_patches state patches validate_macs name ms;
    _ ← match patches, snapshot with
        | [], Some _ => store_write (with_state state)
        | _, _ => mret tt
        end;
    mret (ms, state, None).

(** *** Without faults *)

(** The collection after each commit of a patch. *)
Definition persist_version (c : Collection) (r : PatchResult) : Collection := with_state (pr_state r) c.
Definition persist_removed (c : Collection) (r : PatchResult) : Collection :=
  match pr_removed_index_macs r with
  | [] => c
  | removed => delete_rows removed c
  end.
Definition persist_added (c : Collection) (r : PatchResult) : Collection :=
  match pr_added_macs r with
  | [] => c
  | added => put_rows added c
  end.
Definition persisted (c : Collection) (r : PatchResult) : Collection :=
  persist_added (persist_removed (persist_version c r) r) r.
Definition db_prev_mac (c : Collection) (patch : SyncdPatch) (index_mac : bytes)
    : outcome AppStateError (option bytes) :=
  Ok (get_mutation_macs (collect_unique_index_macs (patch_mutations patch)) (c_macs c) !! index_mac).

(** What a patch does to a collection when the store works. *)
Definition calm_patch (c : Collection) (patch : SyncdPatch) (validate_macs : bool) (name : bytes)
    : outcome AppStateError (Collection * list Mutation) :=
  r ← process_patch big_endian get_keys patch (c_state c) (db_prev_mac c patch) validate_macs name;
  Ok (persisted c r, pr_mutations r).
Definition calm_snapshot (c : Collection) (snapshot : SyncdSnapshot) (validate_macs : bool)
    (name : bytes) : outcome AppStateError (Collection * list Mutation) :=
  if snapshot_is_stale (version (c_state c)) (default 0 (mjoin (snap_version snapshot)))
  then Ok (c, [])
  else
    '(st, ms, mcs) ← process_snapshot big_endian get_keys snapshot hash_state_default validate_macs name;
    Ok (mkCollection st (put_mutation_macs mcs ∅), ms).
End Sync.

(** *** Reasoning about runs

    [runs m c Q]: whatever fails, [m] started on the collection [c] ends with a result and a
    collection as in [Q]. *)
Definition runs {A} (m : col A) (c : Collection) (Q : outcome SyncError A -> Collection -> Prop) : Prop :=
  forall fs, Q (m (c, fs)).2 (m (c, fs)).1.1.

Lemma col_runs_mono {A} (m : col A) c (Q Q' : outcome SyncError A -> Collection -> Prop) :
  runs m c Q -> (forall o c', Q o c' -> Q' o c') -> runs m c Q'.
Proof. intros Hm HQ fs. apply HQ, Hm. Qed.
Lemma col_runs_ret {A} (a : A) c (Q : outcome SyncError A -> Collection -> Prop) : Q (Ok a) c -> runs (mret a) c Q.
Proof. by intros HQ fs. Qed.
Lemma col_runs_bind {A B} (m : col A) (k : A -> col B) c (Q : outcome SyncError B -> Collection -> Prop) :
  runs m c (fun o c' => match o with
                        | Ok a => runs (k a) c' Q
                        | Err e => Q (Err e) c' | Panic => Q Panic c' | Timeout => Q Timeout c'
                        end) ->
  runs (a ← m; k a) c Q.
Proof.
  intros Hm fs. specialize (Hm fs). unfold mbind, col_bind.
  destruct (m (c, fs)) as [[c' fs'] [a|e| |]]; cbn in *; [apply (Hm fs')|done..].
Qed.
Lemma col_runs_lift {A} (o : outcome AppStateError A) c (Q : outcome SyncError A -> Collection -> Prop) :
  Q (map_err Processing o) c -> runs (col_lift o) c Q.
Proof. by intros HQ fs. Qed.
Lemma col_runs_read {A} (f : Collection -> A) c (Q : outcome SyncError A -> Collection -> Prop) :
  Q (Ok (f c)) c -> (forall busy, Q (Err (StoreError busy)) c) -> runs (store_read f) c Q.
Proof. intros Ho He [|[[n b]|] fs]; [exact Ho|apply He|exact Ho]. Qed.
Lemma rows_done_subseteq {R} fault (rows : list R) : rows_done fault rows ⊆ rows.
Proof.
  unfold rows_done. induction (sf_attempts fault) as [|n ns IH]; [apply list_subseteq_nil|].
  intros x [(i & Hi & _)%elem_of_take|Hx]%elem_of_app; [by eapply list_elem_of_lookup_2|by apply IH].
Qed.
Lemma col_runs_rows {R} (f : list R -> Collection -> Collection) rows c (Q : outcome SyncError unit -> Collection -> Prop) :
  Q (Ok tt) (f rows c) -> (forall busy l, l ⊆ rows -> Q (Err (StoreError busy)) (f l c)) ->
  runs (store_rows f rows) c Q.
Proof. intros Ho He [|[fault|] fs]; [exact Ho|apply He, rows_done_subseteq|exact Ho]. Qed.
Lemma col_runs_write (f : Collection -> Collection) c (Q : outcome SyncError unit -> Collection -> Prop) :
  Q (Ok tt) (f c) -> (forall busy, Q (Err (StoreError busy)) c) -> (forall busy, Q (Err (StoreError busy)) (f c)) ->
  runs (store_write f) c Q.
Proof. intros Ho Hr Hu. apply col_runs_rows; [done|]. intros busy [|x l] _; [apply Hr|apply Hu]. Qed.

(** Without faults nothing is left of the script, and nothing fails. *)
Definition calm {A} (m : col A) (c c' : Collection) (o : outcome SyncError A) : Prop := m (c, []) = ((c', []), o).
Lemma calm_bind {A B} (m : col A) (k : A -> col B) c c1 c2 a o : calm m c c1 (Ok a) -> calm (k a) c1 c2 o -> calm (a ← m; k a) c c2 o.
Proof. unfold calm, mbind, col_bind. by intros ->. Qed.
Lemma calm_write f c : calm (store_write f) c (f c) (Ok tt).
Proof. done. Qed.

Section Calm.
Context {H : Hkdf} {AC : AppCrypto} (big : bool).
Context (get_keys : bytes -> outcome AppStateError ExpandedAppStateKeys).

Lemma persist_patch_calm c r : calm (persist_patch r) c (persisted c r) (Ok tt).
Proof.
  unfold persist_patch, persisted, persist_added, persist_removed.
  destruct (pr_removed_index_macs r), (pr_added_macs r); reflexivity.
Qed.
Lemma persisted_state c r : c_state (persisted c r) = pr_state r.
Proof. unfold persisted, persist_added, persist_removed. by destruct (pr_removed_index_macs r), (pr_added_macs r). Qed.

(** On a store that works, [apply_patch] is [calm_patch]. *)
Lemma apply_patch_calm c p v name :
  calm (apply_patch big get_keys (c_state c) p v name) c
    (match calm_patch big get_keys c p v name with Ok (c', _) => c' | _ => c end)
    (match calm_patch big get_keys c p v name with
     | Ok (c', ms) => Ok (c_state c', ms)
     | Err e => Err (Processing e) | Panic => Panic | Timeout => Timeout
     end).
Proof.
  unfold apply_patch, calm_patch. eapply calm_bind; [reflexivity|]. cbv beta.
  change (fun index_mac : list Z => Ok (_ !! index_mac)) with (db_prev_mac c p).
  destruct (process_patch _ _ p _ _ v name) as [r|e| |]; cbn [mbind outcome_bind]; [|done..].
  eapply calm_bind; [reflexivity|]. eapply calm_bind; [apply persist_patch_calm|]. by rewrite persisted_state.
Qed.
Lemma calm_patch_ok c p v name c' ms :
  apply_patch big get_keys (c_state c) p v name (c, []) = ((c', []), Ok (c_state c', ms))
  <-> calm_patch big get_keys c p v name = Ok (c', ms).
Proof.
  pose proof (apply_patch_calm c p v name) as Ha. unfold calm in Ha. rewrite Ha.
  destruct (calm_patch _ _ _ _ _ _) as [[c1 ms1]|e| |]; split; naive_solver.
Qed.
End Calm.

(** ** The processor *)

(** [Display] of the errors that can reach it; the others are not printed. *)
Definition error_text (e : SyncError) : bytes :=
  match e with
  | External text => text
  | _ => []
  end.

(** The state of [AppStateProcessor]: the key cache, the collections of the backend, and what
    will become of the accesses to them. *)
Record Processor : Type := mkProcessor {
  p_cache : key_cache; p_store : gmap bytes Collection; p_faults : fault_script
}.
Definition get_collection (p : Processor) (name : bytes) : Collection :=
  default collection_new (p_store p !! name).

Section Processor.
Context {H : Hkdf} {AC : AppCrypto} {KS : KeyStore} {BL : Blobs} (big_endian : bool).

Definition process_patch_list (p : Processor) (pl : PatchList) (validate_macs : bool)
    : Processor * outcome SyncError (list Mutation * HashState * PatchList) :=
  let cache := prefetch_keys (p_cache p) pl in
  let name := patch_name_as_str (pl_name pl) in
  let '((c, fs), r) := apply_patch_list big_endian (lookup_app_state_key cache) (pl_snapshot pl) (pl_patches pl)
                         validate_macs name (get_collection p name, p_faults p) in
  (mkProcessor cache (<[name := c]> (p_store p)) fs,
   '(ms, st, e) ← r;
   Ok (ms, st, match e with Some e => pl_set_error pl e | None => pl end)).

Definition process_parsed_patch_list (p : Processor) (pl : PatchList) (validate_macs : bool)
    : Processor * outcome SyncError (list Mutation * HashState * PatchList) :=
  match download_external_blobs pl with
  | (pl, Ok _) => process_patch_list p pl validate_macs
  | (_, Err e) => (p, Err e)
  | (_, Panic) => (p, Panic)
  | (_, Timeout) => (p, Timeout)
  end.

(** [process_patch_lists]: a collection with an error, or whose blobs cannot be fetched,
    is skipped; the first other error stops the loop. *)
Definition process_one (p : Processor) (pl : PatchList) (validate_macs : bool)
    : Processor * outcome SyncError (list Mutation * HashState * PatchList) :=
  let skipped pl :=
    let '((_, fs), r) := store_read c_state (get_collection p (patch_name_as_str (pl_name pl)), p_faults p) in
    (mkProcessor (p_cache p) (p_store p) fs, st ← r; Ok ([], st, pl)) in
  match pl_error pl with
  | Some _ => skipped pl
  | None =>
      match download_external_blobs pl with
      | (pl, Ok _) => process_patch_list p pl validate_macs
      | (pl, Err e) => skipped (pl_set_error pl (Retry 0 (error_text e)))
      | (_, Panic) => (p, Panic)
      | (_, Timeout) => (p, Timeout)
      end
  end.

Fixpoint process_patch_lists (p : Processor) (pls : list PatchList) (validate_macs : bool)
    (results : list (list Mutation * HashState * PatchList))
    : Processor * outcome SyncError (list (list Mutation * HashState * PatchList)) :=
  match pls with
  | [] => (p, Ok results)
  | pl :: rest =>
      match process_one p pl validate_macs with
      | (p, Ok r) => process_patch_lists p rest validate_macs (results ++ [r])
      | (p, Err e) => (p, Err e)
      | (p, Panic) => (p, Panic)
      | (p, Timeout) => (p, Timeout)
      end
  end.
End Processor.

(** ** The hash of a map of MACs *)

Section Sum.
Context {H : Hkdf}.
Abbreviation lt := WAPATCH_INTEGRITY.

Definition zero_hash : bytes := replicate 128 0.
Definition mac_sum (m : gmap bytes bytes) : bytes := ops lt false zero_hash (map_to_list m).*2.

(** The hash of a collection is the sum of its value MACs. *)
Definition consistent (c : Collection) : Prop := hash (c_state c) = mac_sum (c_macs c).

Lemma zero_hash_ok : lanes_ok 64 zero_hash.
Proof. split; [|done]. apply Forall_replicate. unfold is_byte. lia. Qed.

Lemma mac_sum_ok m : lanes_ok 64 (mac_sum m).
Proof. apply (ops_ok lt 64 integrity_size), zero_hash_ok. Qed.

Lemma mac_sum_perm m (l : list (bytes * bytes)) : map_to_list m ≡ₚ l ->
  mac_sum m = ops lt false zero_hash l.*2.
Proof.
  intros Hp. apply (ops_perm lt 64 integrity_size); [apply zero_hash_ok|]. by rewrite Hp.
Qed.

Lemma mac_sum_insert m k v : m !! k = None ->
  mac_sum (<[k := v]> m) = pairs_op false (mac_sum m) (derived lt v).
Proof.
  intros Hk. rewrite (mac_sum_perm _ ((k, v) :: map_to_list m)) by (by apply map_to_list_insert).
  rewrite fmap_cons. by rewrite (ops_cons lt 64 integrity_size) by apply zero_hash_ok.
Qed.

Lemma mac_sum_delete m k v : m !! k = Some v ->
  pairs_op true (mac_sum m) (derived lt v) = mac_sum (delete k m).
Proof.
  intros Hk. rewrite <- (insert_delete_id m k v Hk) at 1.
  rewrite mac_sum_insert by apply lookup_delete_eq.
  apply (pairs_op_cancel false 64); [apply mac_sum_ok|by apply derived_ok].
Qed.

(** The values met when keys are deleted one after the other. *)
Fixpoint taken (m : gmap bytes bytes) (keys : list bytes) : list bytes :=
  match keys with
  | [] => []
  | k :: ks => match m !! k with Some v => [v] | None => [] end ++ taken (delete k m) ks
  end.

Lemma mac_sum_taken m keys :
  ops lt true (mac_sum m) (taken m keys) = mac_sum (delete_mutation_macs keys m).
Proof.
  unfold delete_mutation_macs. revert m. induction keys as [|k ks IH]; intros m; [done|].
  cbn [taken fold_left]. rewrite ops_app, <- IH. f_equal.
  destruct (m !! k) as [v|] eqn:E; [by apply mac_sum_delete|]. by rewrite delete_id.
Qed.

Lemma taken_app m k1 k2 :
  taken m (k1 ++ k2) = taken m k1 ++ taken (delete_mutation_macs k1 m) k2.
Proof.
  unfold delete_mutation_macs. revert m. induction k1 as [|k ks IH]; intros m; [done|].
  cbn [app taken fold_left]. by rewrite IH, app_assoc.
Qed.

Lemma taken_NoDup m keys : NoDup keys -> taken m keys = omap (m !!.) keys.
Proof.
  intros Hnd. revert m. induction Hnd as [|k ks Hk Hnd IH]; intros m; [done|].
  cbn [taken omap list_omap]. rewrite IH.
  replace (omap (delete k m !!.) ks) with (omap (m !!.) ks).
  - by destruct (m !! k).
  - clear -Hk. induction ks as [|j ks IH]; [done|]. apply not_elem_of_cons in Hk as [Hne Hk].
    cbn [omap list_omap]. rewrite lookup_delete_ne by done. by rewrite IH.
Qed.

Lemma delete_macs_lookup keys m k :
  delete_mutation_macs keys m !! k = if bool_decide (k ∈ keys) then None else m !! k.
Proof.
  unfold delete_mutation_macs. revert m. induction keys as [|j ks IH]; intros m; [done|].
  cbn [fold_left]. rewrite IH. destruct (decide (j = k)) as [->|Hne].
  - rewrite lookup_delete_eq. rewrite (bool_decide_true (k ∈ k :: ks)) by left.
    by case_bool_decide.
  - rewrite lookup_delete_ne by done.
    destruct (decide (k ∈ ks)) as [Hin|Hin].
    + rewrite !bool_decide_true by (done || by right). done.
    + rewrite !bool_decide_false; [done|..]; [|done].
      intros [|]%elem_of_cons; [congruence|done].
Qed.

(** Inserting values replaces what their keys held. *)
Lemma mac_sum_put macs m : NoDup (map index_mac macs) ->
  ops lt false (mac_sum (delete_mutation_macs (map index_mac macs) m)) (map value_mac macs)
  = mac_sum (put_mutation_macs macs m).
Proof.
  unfold put_mutation_macs. revert m.
  induction macs as [|[k v] macs IH]; intros m Hnd; [done|].
  cbn [map index_mac value_mac fold_left] in *. apply NoDup_cons in Hnd as [Hk Hnd].
  rewrite <- IH by done.
  change (ops lt false ?b (v :: ?l)) with (ops lt false (pairs_op false b (derived lt v)) l).
  f_equal.
  set (ks := map index_mac macs) in *.
  assert (Heq : delete_mutation_macs ks (<[k:=v]> m)
                = <[k := v]> (delete_mutation_macs (k :: ks) m)).
  { apply map_eq. intros j. rewrite delete_macs_lookup. destruct (decide (j = k)) as [->|Hne].
    - rewrite !lookup_insert_eq. by rewrite bool_decide_false.
    - rewrite !lookup_insert_ne, delete_macs_lookup by done.
      destruct (decide (j ∈ ks)) as [Hin|Hin].
      + rewrite !bool_decide_true; [done|by right|done].
      + rewrite !bool_decide_false; [done| |done]. intros [|]%elem_of_cons; [done|done]. }
  rewrite Heq, mac_sum_insert; [done|].
  rewrite delete_macs_lookup, bool_decide_true by left. done.
Qed.
End Sum.

(** ** What a patch adds and removes *)

Definition mut_key (m : SyncdMutation) : bytes := default [] (index_mac_of m).
Definition mut_tail (m : SyncdMutation) : bytes := default [] (mut_record m ≫= value_tail).

(** A mutation with a record, an index, a value long enough for its MAC, and one of
    the two operations of the schema. *)
Definition well_formed (m : SyncdMutation) : Prop :=
  is_Some (index_mac_of m) /\ is_Some (mut_record m ≫= value_tail)
  /\ (is_set m = true /\ is_remove m = false \/ is_set m = false /\ is_remove m = true).

Definition set_keys (l : list SyncdMutation) : list bytes := map mut_key (List.filter is_set l).
Definition remove_keys (l : list SyncdMutation) : list bytes := map mut_key (List.filter is_remove l).
Definition set_tails (l : list SyncdMutation) : list bytes := map mut_tail (List.filter is_set l).

Lemma contains_elem x l : contains x l = bool_decide (x ∈ l).
Proof.
  unfold contains. induction l as [|y l IH]; [done|]. cbn [existsb]. rewrite IH.
  destruct (bytes_eqb x y) eqn:E; cbn [orb].
  - apply bytes_eqb_eq in E as ->. symmetry. apply bool_decide_eq_true. left.
  - apply bytes_eqb_neq in E. apply bool_decide_ext. rewrite elem_of_cons. naive_solver.
Qed.

Section Patch.
Context (store : gmap bytes bytes).

(** The values a patch subtracts, in the order of its mutations. *)
Definition subtracted (rm : list bytes) (l : list SyncdMutation) : list bytes :=
  omap (fun m => if is_set m && bool_decide (mut_key m ∈ rm) then None
                 else store !! mut_key m) l.

Abbreviation get_prev := (patch_get_prev (fun k => Ok (store !! k))).

Lemma patch_get_prev_spec ip k t m :
  index_mac_of m = Some k -> (mut_record m ≫= value_tail) = Some t ->
  (is_remove m = false -> ip !! k = None) ->
  get_prev ip k m = (<[k := t]> ip, Ok (store !! k)).
Proof.
  intros Hk Ht Hip. unfold patch_get_prev, index_mac_of in *.
  destruct (mut_record m) as [rec|]; [|done]. cbn in Hk, Ht. rewrite Hk, Ht.
  destruct (is_remove m); [done|]. by rewrite Hip.
Qed.

(** One step on a well-formed mutation. *)
Lemma update_step_spec (rm A R : list bytes) (mr : bool) (ip : gmap bytes bytes) m :
  well_formed m -> (is_set m = true -> mut_key m ∉ rm -> ip !! mut_key m = None) ->
  let skip := is_set m && bool_decide (mut_key m ∈ rm) in
  exists mr' : bool,
    update_step get_prev rm (mkLoop A R mr ip) m
    = (mkLoop (if is_set m then A ++ [mut_tail m] else A)
         (R ++ if skip then [] else match store !! mut_key m with Some v => [v] | None => [] end)
         mr' (if skip then ip else <[mut_key m := mut_tail m]> ip), Ok tt).
Proof.
  intros ([k Hk] & [t Ht] & Hop) Hip skip. unfold update_step, skip, mut_key, mut_tail in *.
  rewrite Ht, Hk, contains_elem in *. cbn [default from_option id l_added l_removed l_missing_remove l_cb] in *.
  unfold id in *.
  destruct (is_set m && bool_decide (k ∈ rm)) eqn:Hs.
  { apply andb_true_iff in Hs as [Hs _]. exists mr. by rewrite Hs, app_nil_r. }
  rewrite (patch_get_prev_spec ip k t m Hk Ht).
  - destruct (store !! k); eexists; rewrite ?app_nil_r; by destruct (is_set m).
  - intros Hr. destruct Hop as [[Hset _]|[_ Hr']]; [|congruence]. apply Hip; [done|].
    rewrite Hset in Hs. by case_bool_decide.
Qed.

Lemma update_loop_spec (rm : list bytes) (l : list SyncdMutation) (A R : list bytes)
    (mr : bool) (ip : gmap bytes bytes) :
  Forall well_formed l -> NoDup (set_keys l) -> Forall (fun k => k ∈ rm) (remove_keys l) ->
  (forall m, m ∈ l -> is_set m = true -> mut_key m ∉ rm -> ip !! mut_key m = None) ->
  exists (mr' : bool) (ip' : gmap bytes bytes),
    update_loop get_prev rm (mkLoop A R mr ip) l
    = (mkLoop (A ++ set_tails l) (R ++ subtracted rm l) mr' ip', Ok tt).
Proof.
  revert A R mr ip. induction l as [|m l IH]; intros A R mr ip Hwf Hnd Hrm Hip.
  { exists mr, ip. cbn. by rewrite !app_nil_r. }
  apply Forall_cons in Hwf as [Hm Hwf]. cbn [update_loop].
  destruct (update_step_spec rm A R mr ip m Hm (Hip m ltac:(left))) as [mr1 ->].
  set (skip := is_set m && bool_decide (mut_key m ∈ rm)).
  unfold set_keys, set_tails, remove_keys, subtracted in *.
  cbn [List.filter omap list_omap] in *. fold skip.
  destruct (IH (if is_set m then A ++ [mut_tail m] else A)
    (R ++ if skip then [] else match store !! mut_key m with Some v => [v] | None => [] end)
    mr1 (if skip then ip else <[mut_key m := mut_tail m]> ip)) as (mr' & ip' & ->).
  - done.
  - destruct (is_set m); [|done]. by apply NoDup_cons in Hnd as [_ Hnd].
  - destruct (is_remove m); [|done]. by apply Forall_cons in Hrm as [_ Hrm].
  - intros j Hj Hjs Hjr. unfold skip. destruct (is_set m && _) eqn:Hs; [apply Hip; [by right|done..]|].
    rewrite lookup_insert_ne; [apply Hip; [by right|done..]|]. intros Heq.
    destruct Hm as (_ & _ & [[Hset Hr]|[Hset Hr]]); rewrite Hset, ?Hr in *.
    + apply NoDup_cons in Hnd as [Hfresh _]. apply Hfresh. rewrite Heq.
      apply list_elem_of_In, in_map, filter_In. split; [by apply list_elem_of_In|done].
    + apply Forall_cons in Hrm as [Hin _]. congruence.
  - exists mr', ip'. destruct (is_set m), skip; cbn [map];
      destruct (store !! mut_key m); rewrite ?app_nil_r, <- ?app_assoc; done.
Qed.
End Patch.

(** The mutations the schema allows. *)
Definition known_mutation (m : SyncdMutation) : Prop :=
  is_Some (mut_record m) /\ (operation_or_default m = 0 \/ operation_or_default m = 1).

Definition known_mutationb (m : SyncdMutation) : bool :=
  match mut_record m with Some _ => true | None => false end
  && ((operation_or_default m =? 0) || (operation_or_default m =? 1)).

Lemma known_mutations_check l : forallb known_mutationb l = true -> Forall known_mutation l.
Proof.
  intros Hl. apply Forall_forall. intros m Hm. apply list_elem_of_In in Hm.
  pose proof (proj1 (forallb_forall _ _) Hl m Hm) as Hb. clear Hl. rename Hb into Hl.
  unfold known_mutationb in Hl. apply andb_true_iff in Hl as [Hr Ho]. split.
  - destruct (mut_record m); [by eexists|done].
  - apply orb_true_iff in Ho as [->%Z.eqb_eq | ->%Z.eqb_eq]; auto.
Qed.

Lemma known_op m : known_mutation m ->
  is_set m = true /\ is_remove m = false /\ default OpSet (op_try_from (operation_or_default m)) = OpSet
  \/ is_set m = false /\ is_remove m = true /\ default OpSet (op_try_from (operation_or_default m)) = OpRemove.
Proof.
  intros [_ Hop]. unfold is_set, is_remove. destruct Hop as [-> | ->]; [left|right]; done.
Qed.

Lemma removed_in_patch_keys l : Forall well_formed l -> removed_in_patch l = remove_keys l.
Proof.
  intros Hwf. unfold removed_in_patch.
  assert (Him : index_mode l = true).
  { apply forallb_forall. intros m Hm. apply list_elem_of_In in Hm.
    rewrite Forall_forall in Hwf. apply bool_decide_eq_true. apply (Hwf m Hm). }
  rewrite Him. clear Him. unfold remove_keys.
  induction Hwf as [|m l Hm Hwf IH]; [done|]. cbn [omap list_omap List.filter].
  destruct (is_remove m); [|done]. destruct Hm as ([k Hk] & _).
  assert (Hkey : mut_key m = k) by (unfold mut_key; by rewrite Hk).
  cbn [map]. rewrite Hk, Hkey. by f_equal.
Qed.

Lemma subtracted_perm store rm l : Forall well_formed l ->
  subtracted store rm l
  ≡ₚ omap (store !!.) (remove_keys l)
     ++ omap (fun k => if bool_decide (k ∈ rm) then None else store !! k) (set_keys l).
Proof.
  unfold subtracted, remove_keys, set_keys. induction 1 as [|m l Hm Hwf IH]; [done|].
  cbn [omap list_omap List.filter].
  destruct Hm as (_ & _ & [[Hs Hr]|[Hs Hr]]); rewrite Hs, Hr; cbn [andb map omap list_omap].
  - destruct (if bool_decide (mut_key m ∈ rm) then None else store !! mut_key m) as [v|];
      [|done]. rewrite IH. by rewrite Permutation_middle.
  - destruct (store !! mut_key m) as [v|]; [|done]. by rewrite IH.
Qed.

Section Consistency.
Context {H : Hkdf}.

(** Subtracting the old values of a patch and adding its new ones is the sum of the
    updated map. *)
Lemma patch_sum store l macs :
  Forall well_formed l -> NoDup (set_keys l) -> NoDup (remove_keys l) ->
  map index_mac macs = set_keys l -> map value_mac macs = set_tails l ->
  ops WAPATCH_INTEGRITY false
    (ops WAPATCH_INTEGRITY true (mac_sum store) (subtracted store (remove_keys l) l)) (set_tails l)
  = mac_sum (put_mutation_macs macs (delete_mutation_macs (remove_keys l) store)).
Proof.
  intros Hwf Hs Hr Hk Hv.
  rewrite <- mac_sum_put by (by rewrite Hk). rewrite Hk, Hv. f_equal.
  rewrite <- (mac_sum_taken _ (set_keys l)), <- mac_sum_taken, <- ops_app.
  rewrite (ops_perm WAPATCH_INTEGRITY 64 integrity_size true _ _
             (taken store (remove_keys l)
              ++ taken (delete_mutation_macs (remove_keys l) store) (set_keys l)));
    [done|apply mac_sum_ok|].
  rewrite subtracted_perm by done. rewrite !taken_NoDup by done. apply Permutation_app_head.
  replace (omap (delete_mutation_macs (remove_keys l) store !!.) (set_keys l)) with
    (omap (fun k => if bool_decide (k ∈ remove_keys l) then None else store !! k) (set_keys l));
    [done|].
  clear. induction (set_keys l) as [|k ks IH]; [done|]. cbn [omap list_omap].
  by rewrite delete_macs_lookup, IH.
Qed.
End Consistency.

Section Decoding.
Context {H : Hkdf} {AC : AppCrypto}.

(** Cutting the initialisation vector off first does not move the tail. *)
Lemma blob_tail blob : 48 <= zlen blob ->
  from (zlen (from 16 blob) - 32) (from 16 blob) = from (zlen blob - 32) blob.
Proof.
  intros Hl. assert (Hz : zlen (from 16 blob) = zlen blob - 16)
    by (unfold from, zlen in *; rewrite length_drop; lia).
  rewrite Hz. unfold from. rewrite drop_drop. f_equal. lia.
Qed.

Lemma decode_record_macs op rec keys kid v mt macs :
  decode_record op rec keys kid v = Ok (mt, macs) ->
  mjoin (rec_index rec) = Some (index_mac macs) /\ value_tail rec = Some (value_mac macs).
Proof.
  unfold decode_record, value_tail. intros Hd.
  destruct (mjoin (rec_value rec)) as [blob|]; [|done]. cbn [ok_or mbind outcome_bind option_bind] in *.
  destruct (Z.ltb_spec (zlen blob) (16 + 32)); [done|]. apply bind_Ok_inv in Hd as (u & _ & Hd).
  apply bind_Ok_inv in Hd as (pt & _ & Hd). apply bind_Ok_inv in Hd as ([idx val] & _ & Hd).
  apply bind_Ok_inv in Hd as (u' & _ & Hd).
  destruct (mjoin (rec_index rec)) as [k|]; [|done]. cbn [ok_or mbind outcome_bind] in Hd.
  injection Hd as <- <-. split; [done|]. cbn [value_mac]. unfold mac_tail.
  destruct (Z.leb_spec 32 (zlen blob)); [|lia]. by rewrite blob_tail by lia.
Qed.

Lemma decode_patch_spec get_keys l v ms added removed :
  Forall known_mutation l ->
  decode_patch_mutations get_keys l v = Ok (ms, added, removed) ->
  Forall well_formed l /\ map index_mac added = set_keys l /\ map value_mac added = set_tails l
  /\ removed = remove_keys l.
Proof.
  intros Hk. revert ms added removed.
  induction Hk as [|m l Hm Hk IH]; intros ms added removed Hd; cbn [decode_patch_mutations] in Hd.
  - injection Hd as <- <- <-. done.
  - pose proof (known_op m Hm) as Hop. destruct Hm as [[rec Hrec] _]. rewrite Hrec in Hd.
    apply bind_Ok_inv in Hd as (kid & _ & Hd). apply bind_Ok_inv in Hd as (keys & _ & Hd).
    apply bind_Ok_inv in Hd as ([mt macs] & Hdr & Hd).
    apply bind_Ok_inv in Hd as ([[ms' added'] removed'] & Hdl & Hd).
    destruct (IH _ _ _ Hdl) as (Hwf & Hki & Hti & Hri).
    apply decode_record_macs in Hdr as [Hidx Htl].
    assert (Hmk : index_mac_of m = Some (index_mac macs)) by (unfold index_mac_of; by rewrite Hrec).
    assert (Hmt : (mut_record m ≫= value_tail) = Some (value_mac macs)) by (by rewrite Hrec).
    assert (Hkey : mut_key m = index_mac macs) by (unfold mut_key; by rewrite Hmk).
    assert (Htail : mut_tail m = value_mac macs) by (unfold mut_tail; by rewrite Hmt).
    unfold set_keys, set_tails, remove_keys in *. cbn [List.filter].
    unfold operation_or_default in Hop.
    destruct Hop as [(Hs & Hr & Ho)|(Hs & Hr & Ho)]; rewrite Ho in Hd; rewrite Hs, Hr;
      injection Hd as <- <- <-; cbn [map]; rewrite ?Hkey, ?Htail, ?Hki, ?Hti, ?Hri;
      (split; [constructor; [|done]|done]); unfold well_formed; rewrite Hmk, Hmt, Hs, Hr;
      (split; [by eexists|]; split; [by eexists|]); auto.
Qed.

Lemma detect_duplicate_spec l ss sr : Forall known_mutation l -> Forall well_formed l ->
  detect_duplicate_loop l ss sr = Ok tt -> NoDup ss -> NoDup sr ->
  NoDup (ss ++ set_keys l) /\ NoDup (sr ++ remove_keys l).
Proof.
  intros Hk. revert ss sr. induction Hk as [|m l Hm Hk IH]; intros ss sr Hwf Hd Hss Hsr.
  - cbn. by rewrite !app_nil_r.
  - apply Forall_cons in Hwf as [([k Hki] & _) Hwf]. cbn [detect_duplicate_loop] in Hd.
    rewrite Hki in Hd. assert (Hkey : mut_key m = k) by (unfold mut_key; by rewrite Hki).
    unfold set_keys, remove_keys in *. cbn [List.filter].
    destruct (known_op m Hm) as [(Hs & Hr & Ho)|(Hs & Hr & Ho)]; rewrite Ho in Hd; rewrite Hs, Hr;
      rewrite contains_elem in Hd; case_bool_decide as Hin; try done; cbn [map]; rewrite Hkey.
    + destruct (IH (ss ++ [k]) sr Hwf Hd) as [H1 H2]; [|done|].
      * apply NoDup_app. split; [done|]. split; [|apply NoDup_singleton].
        intros x Hx ->%list_elem_of_singleton. done.
      * rewrite <- app_assoc in H1. done.
    + destruct (IH ss (sr ++ [k]) Hwf Hd) as [H1 H2]; [done| |].
      * apply NoDup_app. split; [done|]. split; [|apply NoDup_singleton].
        intros x Hx ->%list_elem_of_singleton. done.
      * rewrite <- app_assoc in H2. done.
Qed.

Lemma update_hash_spec big store l (st : HashState) :
  lanes_ok 64 (hash st) -> Forall well_formed l -> NoDup (set_keys l) ->
  exists mr ip, update_hash big (patch_get_prev (fun k => Ok (store !! k))) ∅ st l
    = Ok (mr, ip, set_hash st (ops WAPATCH_INTEGRITY false
        (ops WAPATCH_INTEGRITY true (hash st) (subtracted store (remove_keys l) l)) (set_tails l))).
Proof.
  intros Hh Hwf Hnd. unfold update_hash. rewrite removed_in_patch_keys by done.
  destruct (update_loop_spec store (remove_keys l) l [] [] false ∅ Hwf Hnd) as (mr & ip & ->).
  { by apply Forall_forall. }
  { intros m _ _ _. apply lookup_empty. }
  exists mr, ip. cbn [mbind outcome_bind l_added l_removed l_missing_remove l_cb app].
  rewrite subtract_then_add_ops by done. cbn [lift_panic map_err mbind outcome_bind ops fold_left].
  rewrite subtract_then_add_ops by (by apply (ops_ok _ 64 integrity_size)). done.
Qed.

Lemma process_patch_consistent big get_keys c patch name r :
  consistent c -> Forall known_mutation (patch_mutations patch) ->
  process_patch big get_keys patch (c_state c) (fun k => Ok (c_macs c !! k)) true name = Ok r ->
  consistent (persisted c r)
  /\ version (c_state (persisted c r)) = default 0 (mjoin (patch_version patch)).
Proof.
  intros Hc Hkn Hp. unfold process_patch in Hp. set (l := patch_mutations patch) in *.
  destruct (negb _ && negb _); [done|].
  apply bind_Ok_inv in Hp as ([[mr ip] st'] & Hu & Hp). apply bind_Ok_inv in Hp as (u1 & _ & Hp).
  apply bind_Ok_inv in Hp as ([] & Hdup & Hp).
  apply bind_Ok_inv in Hp as ([[ms added] removed] & Hdec & [= <-]).
  destruct (decode_patch_spec _ _ _ _ _ _ Hkn Hdec) as (Hwf & Hki & Hti & ->).
  destruct (detect_duplicate_spec l [] [] Hkn Hwf Hdup) as [Hns Hnr]; [constructor..|].
  assert (Hh : lanes_ok 64 (hash (c_state c))) by (rewrite Hc; apply mac_sum_ok).
  destruct (update_hash_spec big (c_macs c) l
    (set_version (c_state c) (default 0 (mjoin (patch_version patch)))) Hh Hwf Hns)
    as (mr' & ip' & Hu'). rewrite Hu' in Hu. injection Hu as <- <- <-.
  cbn [hash set_version] in *. rewrite Hc, (patch_sum _ _ added) by done.
  unfold consistent, persisted, persist_added, persist_removed, persist_version, with_state, on_macs.
  cbn [pr_state pr_removed_index_macs pr_added_macs c_state c_macs].
  destruct (remove_keys l) eqn:Er, added; cbn [c_state c_macs hash set_hash version set_version]; done.
Qed.
End Decoding.

Section Snapshots.
Context {H : Hkdf} {AC : AppCrypto}.

Definition record_keys (records : list SyncdRecord) : list bytes :=
  omap (fun r => mjoin (rec_index r)) records.

Lemma decode_snapshot_spec get_keys records v ms mcs :
  decode_snapshot_records get_keys records v = Ok (ms, mcs) ->
  map index_mac mcs = record_keys records /\ map value_mac mcs = omap value_tail records.
Proof.
  revert ms mcs. unfold record_keys.
  induction records as [|rec rest IH]; intros ms mcs Hd; cbn [decode_snapshot_records] in Hd.
  - by injection Hd as <- <-.
  - apply bind_Ok_inv in Hd as (kid & _ & Hd). apply bind_Ok_inv in Hd as (keys & _ & Hd).
    apply bind_Ok_inv in Hd as ([mt macs] & Hdr & Hd).
    apply bind_Ok_inv in Hd as ([ms' mcs'] & Hdl & [= <- <-]).
    destruct (IH _ _ Hdl) as [Hk Hv]. apply decode_record_macs in Hdr as [Hi Ht].
    cbn [omap list_omap map]. by rewrite Hi, Ht, Hk, Hv.
Qed.

Lemma calm_snapshot_consistent big get_keys c s v name c' ms :
  consistent c -> NoDup (record_keys (snap_records s)) ->
  calm_snapshot big get_keys c s v name = Ok (c', ms) -> consistent c'.
Proof.
  intros Hc Hnd. unfold calm_snapshot. case_match; [by intros [= <- <-]|].
  intros Hp. apply bind_Ok_inv in Hp as ([[st ms'] mcs] & Hp & [= <- <-]).
  unfold process_snapshot, update_hash_from_records in Hp.
  apply bind_Ok_inv in Hp as (st0 & Hst & Hp).
  apply bind_Ok_inv in Hst as (h & Hh & [= <-]).
  apply bind_Ok_inv in Hp as (u & _ & Hp).
  apply bind_Ok_inv in Hp as ([ms2 mcs2] & Hd & [= <- <- <-]).
  apply decode_snapshot_spec in Hd as [Hk Hv].
  cbn [hash set_version hash_state_default] in Hh. fold zero_hash in Hh.
  rewrite subtract_then_add_ops in Hh by apply zero_hash_ok. cbn [lift_panic map_err] in Hh.
  assert (Heq : h = ops WAPATCH_INTEGRITY false (mac_sum ∅) (omap value_tail (snap_records s)))
    by (symmetry; exact (f_equal (fun o => match o with Ok b => b | _ => [] end) Hh)).
  unfold consistent. cbn [c_state c_macs hash set_hash]. rewrite Heq.
  assert (Hput : mac_sum (put_mutation_macs mcs2 ∅)
                 = ops WAPATCH_INTEGRITY false (mac_sum ∅) (omap value_tail (snap_records s))).
  { rewrite <- mac_sum_put by (by rewrite Hk). rewrite Hv. f_equal. f_equal. apply map_eq.
    intros k. rewrite delete_macs_lookup, lookup_empty. by case_bool_decide. }
  by rewrite <- Hput.
Qed.

Lemma get_mutation_macs_lookup (keys : list bytes) (m : gmap bytes bytes) (k : bytes) : k ∈ keys ->
  get_mutation_macs keys m !! k = m !! k.
Proof.
  unfold get_mutation_macs. induction keys as [|x keys IH]; [by intros ?%not_elem_of_nil|].
  cbn [omap list_omap]. destruct (decide (k = x)) as [<-|Hne].
  - intros _. destruct (m !! k) as [v|] eqn:E; cbn; [by rewrite lookup_insert_eq|].
    apply not_elem_of_list_to_map. rewrite list_elem_of_fmap. intros ([k' v] & -> & Hin).
    apply list_elem_of_omap in Hin as (y & _ & Hy). cbn in E.
    destruct (m !! y) eqn:E2; [|done]. cbn in Hy. injection Hy as <- <-. congruence.
  - intros [?|Hin]%elem_of_cons; [done|]. destruct (m !! x); cbn; [|by apply IH].
    rewrite lookup_insert_ne by congruence. by apply IH.
Qed.

Lemma update_loop_ext {S} (g1 g2 : S -> bytes -> SyncdMutation -> S * outcome AppStateError (option bytes))
    rm l (st : loop_state S) :
  (forall cb k m, m ∈ l -> index_mac_of m = Some k -> g1 cb k m = g2 cb k m) ->
  update_loop g1 rm st l = update_loop g2 rm st l.
Proof.
  revert st. induction l as [|m l IH]; intros st Hg; [done|]. cbn [update_loop].
  assert (update_step g1 rm st m = update_step g2 rm st m) as ->.
  { unfold update_step. destruct (index_mac_of m) as [k|] eqn:E; [|done].
    rewrite (Hg _ k m) by (done || by left). done. }
  destruct (update_step g2 rm st m) as [st' []]; try done. apply IH. intros cb k m' Hm'. apply Hg. by right.
Qed.

(** Looking only the patch's own MACs up is looking all of them up. *)
Lemma process_patch_prefetched big get_keys c patch (st : HashState) v name :
  zlen (patch_mutations patch) <= 2 ^ 32 ->
  process_patch big get_keys patch st (db_prev_mac c patch) v name
  = process_patch big get_keys patch st (fun k => Ok (c_macs c !! k)) v name.
Proof.
  intros Hlen. unfold process_patch, update_hash. erewrite update_loop_ext; [reflexivity|].
  intros cb k m Hm Hk. unfold patch_get_prev, db_prev_mac. rewrite get_mutation_macs_lookup; [done|].
  rewrite collect_unique_scan, scan_macs_elem by done. right. apply list_elem_of_omap. by exists m.
Qed.

(** A patch the schema allows. *)
Definition patch_ok (p : SyncdPatch) : Prop :=
  Forall known_mutation (patch_mutations p) /\ zlen (patch_mutations p) <= 2 ^ 32.

End Snapshots.

(** ** The processor keeps its collections consistent *)

Section Lists.
Context {H : Hkdf} {AC : AppCrypto} {KS : KeyStore} {BL : Blobs}.

Definition store_consistent (p : Processor) : Prop :=
  forall name c, p_store p !! name = Some c -> consistent c.

(** A list whose snapshot repeats no index and whose patches follow the schema. *)
Definition list_ok (pl : PatchList) : Prop :=
  (forall s, pl_snapshot pl = Some s -> NoDup (record_keys (snap_records s)))
  /\ Forall patch_ok (pl_patches pl).

Lemma download_external_name pl : pl_name (download_external_blobs pl).1 = pl_name pl.
Proof.
  assert (Hi : pl_name (inline_snapshot pl).1 = pl_name pl).
  { unfold inline_snapshot. repeat case_match; done. }
  unfold download_external_blobs. destruct (inline_snapshot pl) as [pl1 o]. cbn [fst] in Hi.
  destruct o; try done. by destruct (inline_mutations _ _).
Qed.

Lemma collection_new_consistent : consistent collection_new.
Proof. done. Qed.

(** *** What a fault leaves behind *)

(** Half of a patch [p] on a consistent collection: the new version and hash over the old MACs
    without some of the removed ones, or without all of them and with some of the added ones.
    Half of a snapshot [s]: the version and hash from before, over some MACs of the snapshot. *)
Definition half_patch big get_keys name (p : SyncdPatch) (c : Collection) : Prop :=
  exists c0 r, consistent c0
    /\ process_patch big get_keys p (c_state c0) (db_prev_mac c0 p) true name = Ok r
    /\ ((exists ks, ks ⊆ pr_removed_index_macs r /\ c = delete_rows ks (persist_version c0 r))
        \/ (exists ms, ms ⊆ pr_added_macs r /\ c = put_rows ms (persist_removed (persist_version c0 r) r))).
Definition half_snapshot big get_keys name (s : SyncdSnapshot) (c : Collection) : Prop :=
  exists c0 st ms mcs, consistent c0
    /\ process_snapshot big get_keys s hash_state_default true name = Ok (st, ms, mcs)
    /\ c_state c = c_state c0 /\ (exists l, l ⊆ mcs /\ c_macs c = put_mutation_macs l ∅).
(** Half of one of the patches, or of the snapshot. *)
Definition torn big get_keys name (snapshot : option SyncdSnapshot) (patches : list SyncdPatch) (c : Collection)
    : Prop :=
  (exists p, p ∈ patches /\ half_patch big get_keys name p c)
  \/ (exists s, snapshot = Some s /\ half_snapshot big get_keys name s c).
(** The result of a call, the collection it leaves, and the state it goes on with. *)
Definition kept {A} (T : Collection -> Prop) (state : A -> HashState) (o : outcome SyncError A) (c : Collection)
    : Prop :=
  match o with
  | Ok a => consistent c /\ state a = c_state c
  | Err (StoreError _) => consistent c \/ T c
  | _ => consistent c
  end.

Lemma kept_mono {A} (T T' : Collection -> Prop) (state : A -> HashState) o c :
  (forall c, T c -> T' c) -> kept T state o c -> kept T' state o c.
Proof. intros HT. destruct o as [a|[] | |]; cbn [kept]; naive_solver. Qed.

Lemma persist_patch_kept big get_keys name p c r :
  consistent c -> process_patch big get_keys p (c_state c) (db_prev_mac c p) true name = Ok r ->
  consistent (persisted c r) ->
  runs (persist_patch r) c (fun o c' => kept (half_patch big get_keys name p) (fun _ => pr_state r) o c').
Proof.
  intros Hc E Hp. set (T := half_patch big get_keys name p).
  assert (Hr : forall ks, ks ⊆ pr_removed_index_macs r -> T (delete_rows ks (persist_version c r))).
  { intros ks Hks. exists c, r. do 2 (split; [done|]). left. by exists ks. }
  assert (Ha : forall ms, ms ⊆ pr_added_macs r -> T (put_rows ms (persist_removed (persist_version c r) r))).
  { intros ms Hms. exists c, r. do 2 (split; [done|]). right. by exists ms. }
  assert (Hst : pr_state r = c_state (persisted c r)) by (by rewrite persisted_state).
  unfold persist_patch. apply col_runs_bind, col_runs_write; [|by left|].
  2: { intros ?. right. apply (Hr []), list_subseteq_nil. }
  fold (persist_version c r). apply col_runs_bind. unfold persisted, persist_removed in *.
  destruct (pr_removed_index_macs r) as [|k ks].
  - apply col_runs_ret. unfold persist_added in *. destruct (pr_added_macs r); [by apply col_runs_ret|].
    apply col_runs_rows; [done|]. intros ? rows Hl. right. by apply Ha.
  - apply col_runs_rows; [|intros ? l Hl; right; by apply Hr].
    unfold persist_added in *. destruct (pr_added_macs r); [by apply col_runs_ret|].
    apply col_runs_rows; [done|]. intros ? rows Hl. right. by apply Ha.
Qed.

Lemma apply_patch_kept big get_keys c p name : consistent c -> patch_ok p ->
  runs (apply_patch big get_keys (c_state c) p true name) c (kept (half_patch big get_keys name p) fst).
Proof.
  intros Hc [Hk Hlen]. unfold apply_patch. apply col_runs_bind, col_runs_read; [|by left]. apply col_runs_bind, col_runs_lift.
  pose proof (process_patch_prefetched big get_keys c p (c_state c) true name Hlen) as Hp.
  fold (db_prev_mac c p). destruct (process_patch _ _ _ _ _ _ _) as [r|e| |] eqn:E; [|done..].
  symmetry in Hp. destruct (process_patch_consistent _ _ _ _ _ _ Hc Hk Hp) as [Hc1 _]. cbn [map_err].
  apply col_runs_bind. eapply col_runs_mono; [by apply persist_patch_kept|].
  intros [[]|e'| |] c'; try done. intros [? ?]. by apply col_runs_ret.
Qed.

Lemma apply_patches_kept big get_keys c patches name acc : consistent c -> Forall patch_ok patches ->
  runs (apply_patches big get_keys (c_state c) patches true name acc) c (kept (torn big get_keys name None patches) fst).
Proof.
  intros Hc Hk. revert c acc Hc.
  induction Hk as [|p patches Hp Hk IH]; intros c acc Hc; cbn [apply_patches]; [by apply col_runs_ret|].
  apply col_runs_bind. eapply col_runs_mono; [by apply apply_patch_kept|].
  intros o c' Ho. apply (kept_mono _ (torn big get_keys name None (p :: patches))) in Ho;
    [|intros c2 Hc2; left; exists p; split; [by left|done]].
  destruct o as [[st ms]|e| |]; try done. destruct Ho as [Hc' Hst]. cbn [fst] in Hst. subst st.
  eapply col_runs_mono; [by apply IH|]. intros o c2. apply kept_mono. intros c3 [(q & Hq & Hh)|(s & ? & _)]; [|done].
  left. exists q. split; [by right|done].
Qed.

Lemma apply_snapshot_kept big get_keys c s name : consistent c -> NoDup (record_keys (snap_records s)) ->
  runs (apply_snapshot big get_keys (c_state c) s true name) c (kept (half_snapshot big get_keys name s) fst).
Proof.
  intros Hc Hnd. unfold apply_snapshot. pose proof (calm_snapshot_consistent big get_keys c s true name) as Hcalm.
  unfold calm_snapshot in Hcalm. destruct (snapshot_is_stale _ _); [by apply col_runs_ret|].
  apply col_runs_bind, col_runs_lift. destruct (process_snapshot _ _ _ _ _ _) as [[[st ms] mcs]|e| |] eqn:E; try done.
  specialize (Hcalm _ _ Hc Hnd eq_refl). cbn [map_err]. set (T := half_snapshot big get_keys name s).
  assert (Hf : forall l, l ⊆ mcs -> T (put_rows l (on_macs clear_mutation_macs c))).
  { intros l Hl. exists c, st, ms, mcs. do 3 (split; [done|]). by exists l. }
  assert (He : T (on_macs clear_mutation_macs c)) by apply (Hf []), list_subseteq_nil.
  apply col_runs_bind, col_runs_write; [|by left|by right]. apply col_runs_bind. destruct mcs as [|m mcs].
  - apply col_runs_ret, col_runs_bind, col_runs_write; [by apply col_runs_ret|by right|by left].
  - apply col_runs_rows; [|by right; apply Hf]. apply col_runs_bind, col_runs_write; [by apply col_runs_ret| |by left].
    intros ?. right. by apply Hf.
Qed.

Lemma apply_patch_list_kept big get_keys c snapshot patches name : consistent c ->
  (forall s, snapshot = Some s -> NoDup (record_keys (snap_records s))) -> Forall patch_ok patches ->
  runs (apply_patch_list big get_keys snapshot patches true name) c
    (kept (torn big get_keys name snapshot patches) (fun r => r.1.2)).
Proof.
  intros Hc Hs Hk. set (T := torn big get_keys name snapshot patches).
  unfold apply_patch_list. apply col_runs_bind, col_runs_read; [|by left]. apply col_runs_bind.
  apply (col_runs_mono _ _ (kept T fst)).
  { destruct snapshot as [s|]; [|by apply col_runs_ret].
    eapply col_runs_mono; [by apply apply_snapshot_kept; [|apply Hs]|]. intros o c'. apply kept_mono.
    intros c2 Hc2. right. by exists s. }
  intros [[st ms]|e| |] c1; try done. cbn [kept fst]. intros [Hc1 ->].
  destruct (_ && negb (_ =? 1)); [by apply col_runs_ret|]. apply col_runs_bind.
  eapply col_runs_mono; [by apply apply_patches_kept|]. intros o c2 Ho. apply (kept_mono _ T) in Ho;
    [|intros c3 [?|(s & ? & _)]; [by left|done]].
  destruct o as [[st2 ms2]|e| |]; try done. destruct Ho as [Hc2 Hst]. cbn [fst] in Hst. subst st2.
  assert (Hsame : with_state (c_state c2) c2 = c2) by (by destruct c2).
  apply col_runs_bind. destruct patches, snapshot; try (by apply col_runs_ret, col_runs_ret).
  apply col_runs_write; rewrite ?Hsame; [by apply col_runs_ret|by left|by left].
Qed.

(** The collections of a processor after a call: all consistent, but for one that an access
    which failed may have left half way through what a list [pl] of [pls] brings. *)
Definition lists_kept {A} big (pls : list PatchList) (r : outcome SyncError A) (p : Processor) : Prop :=
  match r with
  | Err (StoreError _) => store_consistent p
      \/ exists pl cache, pl ∈ pls
         /\ let name := patch_name_as_str (pl_name pl) in let pl := (download_external_blobs pl).1 in
           forall n c, p_store p !! n = Some c -> consistent c
             \/ n = name /\ torn big (lookup_app_state_key (prefetch_keys cache pl)) name
                              (pl_snapshot pl) (pl_patches pl) c
  | _ => store_consistent p
  end.
Lemma all_kept {A} big pls (r : outcome SyncError A) p : store_consistent p -> lists_kept big pls r p.
Proof. intros Hp. destruct r as [a|[] | |]; try done. by left. Qed.

Lemma process_patch_list_kept big p pl : store_consistent p -> list_ok (download_external_blobs pl).1 ->
  lists_kept big [pl] (process_patch_list big p (download_external_blobs pl).1 true).2
    (process_patch_list big p (download_external_blobs pl).1 true).1.
Proof.
  intros Hp. assert (Hname : pl_name (download_external_blobs pl).1 = pl_name pl) by apply download_external_name.
  set (pl' := (download_external_blobs pl).1) in *. intros [Hs Hk].
  unfold process_patch_list. cbv zeta. set (name := patch_name_as_str _).
  assert (Hc : consistent (get_collection p name)).
  { unfold get_collection. destruct (p_store p !! name) eqn:El; [by eapply Hp|apply collection_new_consistent]. }
  pose proof (apply_patch_list_kept big (lookup_app_state_key (prefetch_keys (p_cache p) pl')) _ (pl_snapshot pl')
    (pl_patches pl') name Hc Hs Hk (p_faults p)) as Ha.
  destruct (apply_patch_list _ _ _ _ _ _ _) as [[c fs] r]. cbn [fst snd] in Ha |- *.
  assert (Hins : forall n c', p_store (mkProcessor (prefetch_keys (p_cache p) pl') (<[name := c]> (p_store p)) fs) !! n = Some c' ->
    n = name /\ c' = c \/ consistent c').
  { cbn [p_store]. intros n c' [[<- <-]|[_ Hn]]%lookup_insert_Some; [by left|right; by eapply Hp]. }
  destruct r as [[[ms st] e]|[]| |]; cbn [mbind outcome_bind lists_kept kept] in *;
    try (intros n c' [[_ ->]|?]%Hins; [by destruct_and? Ha|done]).
  right. exists pl, (p_cache p). split; [by left|]. cbv zeta. fold pl'. rewrite <- Hname. fold name.
  intros n c' [[-> ->]|?]%Hins; [|by left]. destruct Ha; auto.
Qed.

Lemma process_one_kept big p pl : store_consistent p -> list_ok (download_external_blobs pl).1 ->
  lists_kept big [pl] (process_one big p pl true).2 (process_one big p pl true).1.
Proof.
  intros Hp Hl. pose proof (process_patch_list_kept big p pl Hp Hl) as Hk.
  unfold process_one. cbv zeta beta.
  destruct (pl_error pl); [destruct (store_read _ _) as [[c1 fs] r]; by apply all_kept|].
  destruct (download_external_blobs pl) as [pl2 o]. destruct o; try (by apply all_kept); [done|].
  destruct (store_read _ _) as [[c1 fs] r]. by apply all_kept.
Qed.

(** Without faults there are no store errors, and the script stays empty. *)
Definition faultless {A} (m : col A) : Prop := forall c, exists c' o,
  m (c, []) = ((c', []), o) /\ forall busy, o <> Err (StoreError busy).
Lemma faultless_ret {A} (a : A) : faultless (mret a).
Proof. intros c. by exists c, (Ok a). Qed.
Lemma faultless_lift {A} (o : outcome AppStateError A) : faultless (col_lift o).
Proof. intros c. exists c, (map_err Processing o). split; [done|]. by destruct o. Qed.
Lemma faultless_read {A} (f : Collection -> A) : faultless (store_read f).
Proof. intros c. by exists c, (Ok (f c)). Qed.
Lemma faultless_rows {R} (f : list R -> Collection -> Collection) rows : faultless (store_rows f rows).
Proof. intros c. by exists (f rows c), (Ok tt). Qed.
Lemma faultless_bind {A B} (m : col A) (k : A -> col B) : faultless m -> (forall a, faultless (k a)) -> faultless (a ← m; k a).
Proof.
  intros Hm Hk c. destruct (Hm c) as (c' & o & Ho & Hs). unfold mbind, col_bind. rewrite Ho.
  destruct o as [a|e| |]; [apply Hk|exists c', (Err e)|by exists c', Panic|by exists c', Timeout].
  split; [done|]. intros busy [= ->]. by apply (Hs busy).
Qed.
Ltac faultless := repeat first
  [ apply faultless_ret | apply faultless_lift | apply faultless_read | apply faultless_rows
  | apply faultless_bind; [|intros []] | apply faultless_bind; [|intros ?] | case_match ].

Lemma apply_patch_faultless big get_keys st p v name : faultless (apply_patch big get_keys st p v name).
Proof. unfold apply_patch, persist_patch. cbv zeta. faultless. Qed.
Lemma apply_patches_faultless big get_keys st ps v name acc : faultless (apply_patches big get_keys st ps v name acc).
Proof.
  revert st acc. induction ps as [|p ps IH]; intros st acc; cbn [apply_patches]; [apply faultless_ret|].
  apply faultless_bind; [apply apply_patch_faultless|]. intros [st' ms]. apply IH.
Qed.
Lemma apply_patch_list_faultless big get_keys s ps v name : faultless (apply_patch_list big get_keys s ps v name).
Proof.
  unfold apply_patch_list, apply_snapshot. cbv zeta. apply faultless_bind; [apply faultless_read|]. intros st.
  apply faultless_bind; [faultless|]. intros [st1 ms].
  destruct (_ && _); [apply faultless_ret|].
  apply faultless_bind; [apply apply_patches_faultless|]. intros [st2 ms2]. faultless.
Qed.

Lemma process_one_faultless big p pl v : p_faults p = [] ->
  p_faults (process_one big p pl v).1 = [] /\ forall busy, (process_one big p pl v).2 <> Err (StoreError busy).
Proof.
  intros Hf. unfold process_one. cbv zeta. rewrite Hf.
  assert (Hl : forall pl, p_faults (process_patch_list big p pl v).1 = []
    /\ forall busy, (process_patch_list big p pl v).2 <> Err (StoreError busy)).
  { clear pl. intros pl. unfold process_patch_list. cbv zeta. rewrite Hf.
    destruct (apply_patch_list_faultless big (lookup_app_state_key (prefetch_keys (p_cache p) pl)) (pl_snapshot pl)
      (pl_patches pl) v (patch_name_as_str (pl_name pl)) (get_collection p (patch_name_as_str (pl_name pl))))
      as (c' & o & -> & Hs). split; [done|]. intros busy. cbn [snd].
    destruct o as [[[ms st] e]|e| |]; cbn [mbind outcome_bind]; [done| |done..]. intros [= ->]. by apply (Hs busy). }
  destruct (pl_error pl); [done|]. destruct (download_external_blobs pl) as [pl2 []]; done.
Qed.

Lemma lists_kept_mono {A B} big pls pls' (r : outcome SyncError A) (r' : outcome SyncError B) p :
  (forall pl, pl ∈ pls -> pl ∈ pls') -> (forall busy, r = Err (StoreError busy) -> r' = Err (StoreError busy)) ->
  lists_kept big pls r p -> lists_kept big pls' r' p.
Proof.
  intros Hin Hr Hk. destruct r as [a|[] | |]; try (by apply all_kept). rewrite (Hr busy eq_refl).
  destruct Hk as [?|(pl & cache & Hpl & Hk)]; [by left|right]. exists pl, cache. auto.
Qed.
Lemma process_patch_lists_kept big p pls results : store_consistent p ->
  Forall (fun pl => list_ok (download_external_blobs pl).1) pls ->
  lists_kept big pls (process_patch_lists big p pls true results).2 (process_patch_lists big p pls true results).1.
Proof.
  intros Hp Hl. revert p results Hp.
  induction Hl as [|pl pls Hpl Hl IH]; intros p results Hp; cbn [process_patch_lists]; [done|].
  pose proof (process_one_kept big p pl Hp Hpl) as Hk. destruct (process_one big p pl true) as [p1 [a|e| |]]; [|
    revert Hk; apply lists_kept_mono; [set_solver|naive_solver]..].
  eapply lists_kept_mono; [| |by apply IH]; [set_solver|done].
Qed.
Lemma process_patch_lists_faultless big p pls v results : p_faults p = [] ->
  p_faults (process_patch_lists big p pls v results).1 = []
  /\ forall busy, (process_patch_lists big p pls v results).2 <> Err (StoreError busy).
Proof.
  revert p results. induction pls as [|pl pls IH]; intros p results Hf; cbn [process_patch_lists]; [done|].
  destruct (process_one_faultless big p pl v Hf) as [H1 H2].
  destruct (process_one big p pl v) as [p1 [a|e| |]]; cbn [fst snd] in *; [by apply IH| |done..].
  split; [done|]. intros busy [= ->]. by apply (H2 busy).
Qed.
End Lists.

(** ** The key cache agrees with the backend *)

Section KeyCache.
Context {H : Hkdf} {KS : KeyStore} {KL : KeyStoreLaws}.

(** The keys of an id, straight from the backend. *)
Definition backend_key (id : bytes) : outcome AppStateError ExpandedAppStateKeys :=
  match get_sync_key id with
  | Ok (Some key_data) => Ok (expand_app_state_keys key_data)
  | _ => Err KeyNotFound
  end.

Definition cache_sound (cache : key_cache) : Prop :=
  forall id keys, cache !! b64 id = Some keys -> backend_key id = Ok keys.

Lemma get_app_state_key_sound cache id : cache_sound cache ->
  cache_sound (get_app_state_key cache id).1
  /\ lookup_app_state_key (get_app_state_key cache id).1 id = backend_key id
  /\ cache ⊆ (get_app_state_key cache id).1.
Proof.
  intros Hc. unfold get_app_state_key, lookup_app_state_key, backend_key.
  destruct (cache !! b64 id) as [keys|] eqn:E; cbn [fst].
  { split; [done|]. rewrite E. apply Hc in E. unfold backend_key in E. by rewrite E. }
  destruct (get_sync_key id) as [[d|]| | |] eqn:G; cbn [fst]; try (by rewrite E).
  split; [|split; [by rewrite lookup_insert_eq|by apply insert_subseteq]].
  intros id' keys. destruct (decide (id' = id)) as [->|Hne].
  - rewrite lookup_insert_eq. intros [= <-]. unfold backend_key. by rewrite G.
  - rewrite lookup_insert_ne by (by intros ?%(inj b64)). apply Hc.
Qed.

Lemma check_ids_elem l ids id : id ∈ check_ids l ids <-> id ∈ ids \/ Some id ∈ l.
Proof.
  revert ids. induction l as [|[k|] l IH]; intros ids; cbn [check_ids].
  - rewrite elem_of_nil. naive_solver.
  - rewrite IH, elem_of_cons. unfold contains. destruct (existsb (bytes_eqb k) ids) eqn:E.
    + apply existsb_elem in E. naive_solver.
    + rewrite elem_of_app, list_elem_of_singleton. naive_solver.
  - rewrite IH, elem_of_cons. naive_solver.
Qed.

Lemma lookup_sub cache cache' id : cache_sound cache' -> cache ⊆ cache' ->
  lookup_app_state_key cache id = backend_key id -> lookup_app_state_key cache' id = backend_key id.
Proof.
  intros Hs Hsub. unfold lookup_app_state_key. destruct (cache !! b64 id) as [keys|] eqn:E.
  - by rewrite (lookup_weaken _ _ _ _ E Hsub).
  - cbn [ok_or]. intros Hb. destruct (cache' !! b64 id) as [keys|] eqn:E2; [|done].
    apply Hs in E2. congruence.
Qed.

Lemma fetch_all_sound ids cache : cache_sound cache ->
  let cache' := fold_left (fun cache id => (get_app_state_key cache id).1) ids cache in
  cache_sound cache' /\ cache ⊆ cache'
  /\ forall id, id ∈ ids -> lookup_app_state_key cache' id = backend_key id.
Proof.
  revert cache. induction ids as [|x ids IH]; intros cache Hc; cbn [fold_left].
  { split; [done|]. split; [done|]. by intros id ?%not_elem_of_nil. }
  destruct (get_app_state_key_sound cache x Hc) as (Hc1 & Hl & Hsub).
  destruct (IH _ Hc1) as (Hc2 & Hsub2 & Hall). split; [done|]. split; [by etransitivity|].
  intros id [->|Hid]%elem_of_cons; [|by apply Hall]. by eapply lookup_sub.
Qed.
End KeyCache.

(** ** A provider for the examples *)

Definition toy_mac (key data : bytes) : bytes :=
  to_be_bytes 32 (fold_left (fun acc b => (acc * 257 + b + 1) mod 2 ^ 256) (key ++ data) 5).

#[global] Instance toy_app_crypto : AppCrypto := {|
  ActionValue := unit;
  hmac_sha256 := toy_mac;
  hmac_sha512 key data := toy_mac key data ++ toy_mac data key;
  aes_256_cbc_decrypt c k iv := Some c;
  decode_action p := Some (Some p, Some tt);
  json_strings b := Some [b];
|}.

Definition toy_keys : ExpandedAppStateKeys := mkAppKeys [1] [2] [3] [4] [5].
Definition toy_get_keys (id : bytes) : outcome AppStateError ExpandedAppStateKeys := Ok toy_keys.

(** A record whose MACs verify. *)
Definition toy_record (op : SyncdOperation) (index : bytes) (iv : bytes) : SyncdRecord :=
  let body := iv ++ index in
  mkRecord (Some (Some (toy_mac [1] index)))
    (Some (Some (body ++ generate_content_mac op body [7] [3]))) (Some (Some [7])).
Definition toy_set (index iv : bytes) : SyncdMutation :=
  mkMutation (Some 0) (Some (toy_record OpSet index iv)).
Definition toy_remove (index iv : bytes) : SyncdMutation :=
  mkMutation (Some 1) (Some (toy_record OpRemove index iv)).

Definition iv_a : bytes := replicate 16 1.
Definition iv_b : bytes := replicate 16 2.

Definition toy_snapshot_at (name : bytes) (v : Z) (records : list SyncdRecord) : SyncdSnapshot :=
  let s mac := mkSnapshot (Some (Some v)) records mac (Some (Some [7])) in
  match process_snapshot false toy_get_keys (s None) hash_state_default false name with
  | Ok (st, _, _) => s (Some (generate_snapshot_mac st name [4]))
  | _ => s None
  end.

(** A patch on a collection, with its MACs computed as the server would. *)
Definition toy_patch (c : Collection) (name : bytes) (l : list SyncdMutation) : SyncdPatch :=
  let v := version (c_state c) + 1 in
  let p sm pm := mkPatch (Some (Some v)) l None sm pm (Some (Some [7])) in
  match process_patch false toy_get_keys (p None None) (c_state c) (fun k => Ok (c_macs c !! k))
          false name with
  | Ok r =>
      let sm := Some (generate_snapshot_mac (pr_state r) name [4]) in
      p sm (Some (generate_patch_mac (p sm None) name [5] v))
  | _ => p None None
  end.

(** The value of a computation that succeeds. *)
Definition is_ok {E A} (o : outcome E A) : bool := match o with Ok _ => true | _ => false end.
Definition value_or {E A} (d : A) (o : outcome E A) : A := match o with Ok a => a | _ => d end.

Lemma value_or_Ok {E A} (d : A) (o : outcome E A) : is_ok o = true -> o = Ok (value_or d o).
Proof. by destruct o. Qed.

Lemma value_or_pair {E A B} (d : A * B) (o : outcome E (A * B)) :
  is_ok o = true -> o = Ok ((value_or d o).1, (value_or d o).2).
Proof. by destruct o as [[]| | |]. Qed.

Definition toy_snapshot : SyncdSnapshot :=
  toy_snapshot_at (str "regular") 4 [toy_record OpSet [1] iv_a; toy_record OpSet [2] iv_a].
Definition toy_c1 : Collection :=
  (value_or (collection_new, [])
     (calm_snapshot false toy_get_keys collection_new toy_snapshot true (str "regular"))).1.
Definition toy_p1 : SyncdPatch :=
  toy_patch toy_c1 (str "regular") [toy_set [2] iv_b; toy_remove [1] iv_a; toy_set [1] iv_b].

Example toy_patch_accepted :
  match calm_patch false toy_get_keys toy_c1 toy_p1 true (str "regular") with
  | Ok (c, _) => bytes_eqb (hash (c_state c)) (mac_sum (c_macs c)) && (version (c_state c) =? 5)
  | _ => false
  end = true.
Proof. vm_compute. reflexivity. Qed.

(** ** Properties *)

(** C26: the hash and the MAC store never drift apart.  From consistent collections,
    processing any patch lists whose inlined content has snapshots without repeated indices
    and patches that follow the schema, with MACs validated, leaves every collection
    consistent: its hash is the sum of the value MACs it stores.  This includes calls that stop
    part of the way at an error of the content.  Each access to the store may fail, with none,
    some or all of its rows written: then, when the call answers with that store error, at most
    one collection is not consistent, namely that of a list of the call, and it is half way
    through one patch of the list (the new version and hash over the old MACs without some of
    the removed ones, or without all of them and with some of the added ones) or through its
    snapshot (the old version and hash over some MACs of the snapshot).  When no access fails there is no store error, so all
    collections are consistent. *)
Theorem patch_lists_consistent {H : Hkdf} {AC : AppCrypto} {KS : KeyStore} {BL : Blobs} (big : bool)
    (p p' : Processor) (pls : list PatchList)
    (results : list (list Mutation * HashState * PatchList))
    (r : outcome SyncError (list (list Mutation * HashState * PatchList))) :
  store_consistent p ->
  Forall (fun pl => list_ok (download_external_blobs pl).1) pls ->
  process_patch_lists big p pls true results = (p', r) ->
  lists_kept big pls r p' /\ (p_faults p = [] -> store_consistent p').
Proof.
  intros Hp Hl Hr. pose proof (process_patch_lists_faultless big p pls true results) as Hf.
  pose proof (process_patch_lists_kept big p pls results Hp Hl) as Hk. rewrite Hr in Hf, Hk. cbn [fst snd] in *.
  split; [done|]. intros H0. destruct (Hf H0) as [_ Hn]. destruct r as [a|[] | |]; try done. by destruct (Hn busy).
Qed.

#[global] Instance toy_key_store : KeyStore :=
  {| b64 k := k; get_sync_key k := Ok (if bytes_eqb k [7] then Some [1; 2; 3] else None) |}.
#[global] Instance toy_key_laws : KeyStoreLaws.
Proof. split. by intros x y. Qed.
#[global] Instance toy_blobs : Blobs :=
  {| download r := handle r; decode_snapshot_blob b := None; decode_mutations_blob b := Some [] |}.

(** A record, a snapshot and a patch under the key that the cache holds. *)
Definition toy_list (ps : list SyncdPatch) (s : option SyncdSnapshot) : PatchList :=
  mkPatchList Regular false ps s None None.
Lemma inline_mutations_none {BL : Blobs} name ps :
  Forall (fun p => patch_external p = None) ps -> inline_mutations name ps = (ps, Ok tt).
Proof. induction 1 as [|p ps Hp Hps IH]; [done|]. cbn. by rewrite Hp, IH. Qed.

Lemma toy_list_ok ps s :
  NoDup (match s with Some s => record_keys (snap_records s) | None => [] end) ->
  Forall (fun p => patch_ok p /\ patch_external p = None) ps ->
  list_ok (download_external_blobs (toy_list ps s)).1.
Proof.
  intros Hs Hps. unfold download_external_blobs.
  assert (inline_snapshot (toy_list ps s) = (toy_list ps s, Ok tt)) as -> by (by destruct s).
  cbn [pl_patches pl_name toy_list]. rewrite inline_mutations_none by (eapply Forall_impl; [exact Hps|naive_solver]).
  split; cbn [fst pl_set_content pl_snapshot pl_patches].
  - intros s' Hs'. cbn [toy_list pl_snapshot] in Hs'. by rewrite Hs' in Hs.
  - eapply Forall_impl; [exact Hps|naive_solver].
Qed.

Definition toy_processor : Processor := mkProcessor {[ [7] := toy_keys ]} ∅ [].
(** A snapshot and a patch, once on a store that works and once with a database that is locked
    when the patch's additions are written, where one row gets through on the second attempt. *)
Definition toy_lists : list PatchList := [toy_list [] (Some toy_snapshot); toy_list [toy_p1] None].
Definition toy_result : Processor := (process_patch_lists false toy_processor toy_lists true []).1.
Definition toy_struck : Processor :=
  mkProcessor {[ [7] := toy_keys ]} ∅ (replicate 9 None ++ [Some (mkFault [0%nat; 1%nat] true)]).
Definition toy_struck_result := process_patch_lists false toy_struck toy_lists true [].

Lemma toy_lists_ok : Forall (fun pl => list_ok (download_external_blobs pl).1) toy_lists.
Proof.
  apply Forall_cons. split; [|apply Forall_cons; split; [|constructor]].
  - apply toy_list_ok; [|constructor]. apply (bool_decide_unpack _). vm_compute. exact I.
  - apply toy_list_ok; [constructor|]. apply Forall_cons. split; [|constructor].
    split; [split|vm_compute; reflexivity].
    + apply known_mutations_check. vm_compute. reflexivity.
    + vm_compute. discriminate.
Qed.

Lemma patch_lists_consistent_witness :
  (store_consistent toy_result /\ version (c_state (get_collection toy_result (str "regular"))) = 5)
  /\ lists_kept false toy_lists toy_struck_result.2 toy_struck_result.1
  /\ match toy_struck_result.2 with Err (StoreError busy) => busy | _ => false end = true
  /\ ~ consistent (get_collection toy_struck_result.1 (str "regular")).
Proof.
  assert (Hempty : forall cache fs, store_consistent (mkProcessor cache ∅ fs)).
  { intros cache fs name c. cbn [p_store]. rewrite lookup_empty. discriminate. }
  split; [split; [|vm_compute; reflexivity]|split; [|split]].
  - apply (patch_lists_consistent false toy_processor toy_result toy_lists []
      (process_patch_lists false toy_processor toy_lists true []).2);
      [apply Hempty|apply toy_lists_ok|apply surjective_pairing|reflexivity].
  - exact (proj1 (patch_lists_consistent false toy_struck toy_struck_result.1 toy_lists [] toy_struck_result.2
      (Hempty _ _) toy_lists_ok (surjective_pairing toy_struck_result))).
  - vm_compute. reflexivity.
  - apply bytes_eqb_neq. vm_compute. reflexivity.
Defined.

(** Prefetching finds every key.  With a cache that agrees with the backend,
    [prefetch_keys] leaves it in agreement, and afterwards the lookup of any key id that the
    list names (on its snapshot, its patches or their records) answers what the backend
    would: its expanded key, or [KeyNotFound]. *)
Lemma prefetch_keys_complete {H : Hkdf} {KS : KeyStore} {KL : KeyStoreLaws} (cache : key_cache)
    (pl : PatchList) :
  cache_sound cache ->
  cache_sound (prefetch_keys cache pl)
  /\ forall id,
       (exists s, pl_snapshot pl = Some s /\ Some id ∈ snapshot_key_ids s)
       \/ (exists p, p ∈ pl_patches pl /\ Some id ∈ patch_key_ids p) ->
       lookup_app_state_key (prefetch_keys cache pl) id = backend_key id.
Proof.
  intros Hc. unfold prefetch_keys. split; [by apply fetch_all_sound|]. intros id Hid.
  apply fetch_all_sound; [done|]. unfold collect_key_ids_from_patch_list.
  apply check_ids_elem. right. apply elem_of_app.
  destruct Hid as [(s & -> & Hs)|(p & Hp & Hin)]; [by left|right].
  apply list_elem_of_In, in_concat. exists (patch_key_ids p).
  split; [|by apply list_elem_of_In]. apply in_map. by apply list_elem_of_In.
Qed.

Lemma prefetch_keys_complete_witness :
  lookup_app_state_key (prefetch_keys ∅ (toy_list [toy_p1] None)) [7] = backend_key [7]
  /\ lookup_app_state_key (prefetch_keys ∅ (toy_list [toy_p1] None)) [7]
     = Ok (expand_app_state_keys [1; 2; 3]).
Proof.
  assert (Hw : lookup_app_state_key (prefetch_keys ∅ (toy_list [toy_p1] None)) [7] = backend_key [7]).
  { apply (prefetch_keys_complete ∅ (toy_list [toy_p1] None)).
    - intros id keys. rewrite lookup_empty. discriminate.
    - right. exists toy_p1. split; [by left|]. apply (bool_decide_unpack _). vm_compute. exact I. }
  split; [exact Hw|]. rewrite Hw. reflexivity.
Defined.

Lemma update_hash_version {H : Hkdf} {AC : AppCrypto} {S} big
    (get_prev : S -> bytes -> SyncdMutation -> S * outcome AppStateError (option bytes)) cb st l mr cb' st' :
  update_hash big get_prev cb st l = Ok (mr, cb', st') -> version st' = version st.
Proof.
  unfold update_hash. destruct (update_loop _ _ _ _) as [lo rr]. intros Hu.
  apply bind_Ok_inv in Hu as (? & _ & Hu). apply bind_Ok_inv in Hu as (h & _ & Hu).
  by apply bind_Ok_inv in Hu as (h2 & _ & [= <- <- <-]).
Qed.

Lemma process_patch_version {H : Hkdf} {AC : AppCrypto} big get_keys patch st prev v name r :
  process_patch big get_keys patch st prev v name = Ok r ->
  version (pr_state r) = default 0 (mjoin (patch_version patch))
  /\ (version st = 0 /\ hash st = replicate 128 0
      \/ default 0 (mjoin (patch_version patch)) = Z.min U64_MAX (version st + 1)).
Proof.
  unfold process_patch. set (pv := default 0 (mjoin (patch_version patch))).
  destruct (negb _ && negb _) eqn:E0; [done|]. intros Hp.
  apply bind_Ok_inv in Hp as ([[mr ip] st'] & Hu & Hp).
  apply bind_Ok_inv in Hp as (? & _ & Hp). apply bind_Ok_inv in Hp as (? & _ & Hp).
  apply bind_Ok_inv in Hp as ([[? ?] ?] & _ & [= <-]). split.
  - unfold map_err in Hu. destruct (update_hash _ _ _ _ _) as [[[mr' ip'] st'']| | |] eqn:E; try done.
    injection Hu as -> -> ->. by apply update_hash_version in E.
  - apply andb_false_iff in E0 as [E0%negb_false_iff|E0%negb_false_iff].
    + left. by apply andb_true_iff in E0 as [->%Z.eqb_eq ->%bytes_eqb_eq].
    + right. by apply Z.eqb_eq in E0.
Qed.

(** A collection at the version of a patch refuses it. *)
Lemma calm_patch_replay {H : Hkdf} {AC : AppCrypto} big get_keys c patch v name :
  version (c_state c) = default 0 (mjoin (patch_version patch)) ->
  0 < version (c_state c) < U64_MAX ->
  calm_patch big get_keys c patch v name
  = Err (PatchVersionMismatch (version (c_state c) + 1) (version (c_state c))).
Proof.
  intros Hver Hv. unfold calm_patch, process_patch. rewrite <- Hver.
  set (pv := version (c_state c)) in *. destruct (Z.eqb_spec pv 0); [lia|]. cbn [andb negb].
  rewrite Z.min_r by (unfold U64_MAX in *; lia).
  by destruct (Z.eqb_spec pv (pv + 1)); [lia|].
Qed.

(** Patches apply in sequence and only once.  A patch is accepted on a collection that
    has state only when its version is the next one; once applied, the same patch is
    refused with the version the collection expects. *)
Lemma patch_replay_rejected {H : Hkdf} {AC : AppCrypto} (big : bool)
    (get_keys : bytes -> outcome AppStateError ExpandedAppStateKeys) (c c' : Collection)
    (patch : SyncdPatch) (validate validate' : bool) (name : bytes) (ms : list Mutation) :
  calm_patch big get_keys c patch validate name = Ok (c', ms) ->
  0 < version (c_state c') < U64_MAX ->
  (version (c_state c) = 0 \/ version (c_state c') = version (c_state c) + 1)
  /\ calm_patch big get_keys c' patch validate' name
     = Err (PatchVersionMismatch (version (c_state c') + 1) (version (c_state c'))).
Proof.
  intros Ha Hv. unfold calm_patch in Ha. apply bind_Ok_inv in Ha as (r & Hp & E).
  assert (c' = persisted c r) as -> by congruence. clear E.
  apply process_patch_version in Hp as [Hver Hseq]. rewrite persisted_state in Hv |- *. split.
  - destruct Hseq as [[-> _]|Hseq]; [by left|right]. lia.
  - rewrite (calm_patch_replay big) by (rewrite ?persisted_state; done). by rewrite persisted_state.
Qed.

Definition toy_c2 : Collection :=
  (value_or (collection_new, []) (calm_patch false toy_get_keys toy_c1 toy_p1 true (str "regular"))).1.

Lemma patch_replay_rejected_witness :
  (version (c_state toy_c1) = 0 \/ version (c_state toy_c2) = version (c_state toy_c1) + 1)
  /\ calm_patch false toy_get_keys toy_c2 toy_p1 true (str "regular")
     = Err (PatchVersionMismatch (version (c_state toy_c2) + 1) (version (c_state toy_c2))).
Proof.
  eapply (patch_replay_rejected false toy_get_keys toy_c1 toy_c2 toy_p1 true true).
  - apply value_or_pair. vm_compute. reflexivity.
  - vm_compute. split; reflexivity.
Defined.

(** Tampering is detected.  When MACs are validated, an accepted patch that names its
    key on a collection with state carries, if present, the snapshot MAC of the resulting
    hash and the patch MAC of its own contents; an accepted snapshot always carries the MAC
    of its hash. *)
Lemma macs_enforced {H : Hkdf} {AC : AppCrypto} (big : bool)
    (get_keys : bytes -> outcome AppStateError ExpandedAppStateKeys) (name key_id : bytes)
    (keys : ExpandedAppStateKeys) :
  get_keys key_id = Ok keys ->
  (forall patch st prev r, process_patch big get_keys patch st prev true name = Ok r ->
     mjoin (patch_key_id patch) = Some key_id -> version st <> 0 ->
     (forall mac, patch_snapshot_mac patch = Some mac ->
        mac = generate_snapshot_mac (pr_state r) name (k_snapshot_mac keys))
     /\ (forall mac, patch_patch_mac patch = Some mac ->
        mac = generate_patch_mac patch name (k_patch_mac keys)
                (default 0 (mjoin (patch_version patch)))))
  /\ (forall snapshot st st' ms mcs,
     process_snapshot big get_keys snapshot st true name = Ok (st', ms, mcs) ->
     mjoin (snap_key_id snapshot) = Some key_id ->
     snap_mac snapshot = Some (generate_snapshot_mac st' name (k_snapshot_mac keys))).
Proof.
  intros Hk. split.
  - intros patch st prev r Hp Hkid Hv. unfold process_patch in Hp.
    destruct (Z.eqb_spec (version st) 0); [done|]. cbn [andb negb] in Hp.
    destruct (negb _); [done|].
    apply bind_Ok_inv in Hp as ([[mr ip] st'] & Hu & Hp). apply bind_Ok_inv in Hp as (? & Hm & Hp).
    apply bind_Ok_inv in Hp as (? & _ & Hp). apply bind_Ok_inv in Hp as ([[? ?] ?] & _ & [= <-]).
    rewrite Hkid, Hk in Hm. cbn [mbind outcome_bind] in Hm. unfold validate_patch_macs in Hm.
    apply bind_Ok_inv in Hm as (? & Hs & Hm). cbn [pr_state]. split; intros mac Hmac; rewrite Hmac in *.
    + destruct (bytes_eqb _ mac) eqn:E; [|done]. by apply bytes_eqb_eq in E.
    + cbv zeta in Hm. destruct (bytes_eqb (generate_patch_mac _ _ _ _) mac) eqn:E; [|done].
      by apply bytes_eqb_eq in E.
  - intros snapshot st st' ms mcs Hp Hkid. unfold process_snapshot in Hp.
    apply bind_Ok_inv in Hp as (st0 & _ & Hp). apply bind_Ok_inv in Hp as (? & Hm & Hp).
    apply bind_Ok_inv in Hp as ([? ?] & _ & [= <- <- <-]). rewrite Hkid in Hm.
    destruct (snap_mac snapshot) as [mac|]; [|done]. rewrite Hk in Hm. cbn [mbind outcome_bind] in Hm.
    destruct (bytes_eqb _ mac) eqn:E; [|done]. apply bytes_eqb_eq in E. by rewrite E.
Qed.

Definition toy_r1 : PatchResult :=
  value_or (mkPatchResult hash_state_default [] [] [])
    (process_patch false toy_get_keys toy_p1 (c_state toy_c1) (db_prev_mac toy_c1 toy_p1) true (str "regular")).

Definition toy_s1 : HashState * list Mutation * list AppStateMutationMAC :=
  value_or (hash_state_default, [], [])
    (process_snapshot false toy_get_keys toy_snapshot hash_state_default true (str "regular")).

Lemma macs_enforced_witness :
  (forall mac, patch_snapshot_mac toy_p1 = Some mac ->
     mac = generate_snapshot_mac (pr_state toy_r1) (str "regular") [4])
  /\ snap_mac toy_snapshot = Some (generate_snapshot_mac toy_s1.1.1 (str "regular") [4])
  /\ is_Some (patch_snapshot_mac toy_p1).
Proof.
  destruct (macs_enforced false toy_get_keys (str "regular") [7] toy_keys eq_refl) as [H1 H2].
  split; [|split].
  - apply (H1 toy_p1 (c_state toy_c1) (db_prev_mac toy_c1 toy_p1)).
    + apply value_or_Ok. vm_compute. reflexivity.
    + vm_compute. reflexivity.
    + vm_compute. discriminate.
  - apply (H2 toy_snapshot hash_state_default _ toy_s1.1.2 toy_s1.2).
    + transitivity (@Ok AppStateError _ toy_s1); [apply value_or_Ok; vm_compute; reflexivity|].
      by destruct toy_s1 as [[] ].
    + vm_compute. reflexivity.
  - apply (bool_decide_unpack _). vm_compute. exact I.
Defined.

(** A patch that does not name its key is accepted unverified.  Even with MAC validation
    on, its snapshot MAC and patch MAC are never looked at: replacing them by anything
    changes nothing. *)
Lemma patch_without_key_id_unverified {H : Hkdf} {AC : AppCrypto} (big : bool)
    (get_keys : bytes -> outcome AppStateError ExpandedAppStateKeys) (v : option (option Z))
    (l : list SyncdMutation) (ext : option ExternalBlobReference) (mac1 mac2 mac1' mac2' : option bytes) (st : HashState)
    (prev : bytes -> outcome AppStateError (option bytes)) (name : bytes) :
  process_patch big get_keys (mkPatch v l ext mac1 mac2 None) st prev true name
  = process_patch big get_keys (mkPatch v l ext mac1' mac2' None) st prev true name.
Proof. done. Qed.

(** An interrupted commit cannot be repaired.  [process_patch_list] stores the new
    version before the MACs.  If the store fails in between, the collection has the new
    hash over the old MACs, which is consistent only if the patch changed no sum, and
    applying the patch again is refused, so the MACs are never written. *)
Lemma patch_commit_interrupted {H : Hkdf} {AC : AppCrypto} (big : bool)
    (get_keys : bytes -> outcome AppStateError ExpandedAppStateKeys) (c : Collection)
    (patch : SyncdPatch) (name : bytes) (r : PatchResult) :
  consistent c -> patch_ok patch ->
  process_patch big get_keys patch (c_state c) (db_prev_mac c patch) true name = Ok r ->
  0 < version (pr_state r) < U64_MAX ->
  let interrupted := persist_version c r in
  (consistent interrupted <-> mac_sum (c_macs (persisted c r)) = mac_sum (c_macs c))
  /\ calm_patch big get_keys interrupted patch true name
     = Err (PatchVersionMismatch (version (pr_state r) + 1) (version (pr_state r))).
Proof.
  intros Hc [Hk Hlen] Hp Hv interrupted. rewrite process_patch_prefetched in Hp by done.
  destruct (process_patch_consistent _ _ _ _ _ _ Hc Hk Hp) as [Hc' _].
  unfold consistent in *. rewrite persisted_state in Hc'.
  cbn [persist_version c_state c_macs interrupted]. split; [by rewrite <- Hc'|].
  apply process_patch_version in Hp as [Hver _]. by rewrite (calm_patch_replay big).
Qed.

Lemma patch_commit_interrupted_witness :
  (consistent (persist_version toy_c1 toy_r1)
   <-> mac_sum (c_macs (persisted toy_c1 toy_r1)) = mac_sum (c_macs toy_c1))
  /\ calm_patch false toy_get_keys (persist_version toy_c1 toy_r1) toy_p1 true
       (str "regular")
     = Err (PatchVersionMismatch (version (pr_state toy_r1) + 1) (version (pr_state toy_r1))).
Proof.
  apply (patch_commit_interrupted false toy_get_keys toy_c1 toy_p1 (str "regular") toy_r1).
  - vm_compute. reflexivity.
  - split; [apply known_mutations_check; vm_compute; reflexivity|vm_compute; discriminate].
  - apply value_or_Ok. vm_compute. reflexivity.
  - vm_compute. split; reflexivity.
Defined.
