(* ===== verification/AppSend.v ===== *)
(** * Outbound app state

    [wacore/appstate/src/encode.rs] ([encode_record]) and [build_patch] of
    [wacore/src/appstate_sync.rs]: how the client seals its own mutations into a patch.
    The theorems close the loop with the inbound side: what is sealed is decoded, and the
    patch, once the server gave it its version, is accepted by [process_patch]. *)

From stdpp Require Import prelude strings gmap.
From S2P Require Import Prelude LtHash AppState Dedup AppSync.

#[local] Open Scope Z_scope.

(** AES-CBC and the encoder of [SyncActionData] (index, value, empty padding, version). *)
Class AppEncrypt {AC : AppCrypto} : Type := {
  (** plaintext, key, iv *)
  aes_256_cbc_encrypt : bytes -> bytes -> bytes -> option bytes;
  encode_action : bytes -> ActionValue -> Z -> bytes
}.

(** AES-CBC with a key of 32 bytes and an IV of 16 inverts; [decode] inverts [encode]; a
    SHA-512 MAC has 64 bytes. *)
Class AppEncryptLaws {AC : AppCrypto} {AE : AppEncrypt} : Prop := {
  cbc_inverse plaintext key iv : zlen key = 32 -> zlen iv = 16 ->
    exists c, aes_256_cbc_encrypt plaintext key iv = Some c
              /\ aes_256_cbc_decrypt c key iv = Some plaintext;
  action_inverse index value v : decode_action (encode_action index value v) = Some (Some index, Some value);
  hmac_sha512_len key data : zlen (hmac_sha512 key data) = 64
}.

Section Send.
Context {H : Hkdf} {AC : AppCrypto} {AE : AppEncrypt} (big_endian : bool).

(** The only failure of [encode_record] is its [expect] on the cipher. *)
Definition encode_record (op : SyncdOperation) (index : bytes) (value : ActionValue)
    (keys : ExpandedAppStateKeys) (key_id iv : bytes) (v : Z)
    : outcome AppStateError (SyncdMutation * bytes) :=
  let plaintext := encode_action index value v in
  match aes_256_cbc_encrypt plaintext (k_value_encryption keys) iv with
  | None => Panic
  | Some ciphertext =>
      let iv_and_cipher := iv ++ ciphertext in
      let value_mac := generate_content_mac op iv_and_cipher key_id (k_value_mac keys) in
      let value_blob := iv_and_cipher ++ value_mac in
      let index_mac := hmac_sha256 (k_index keys) index in
      let record := mkRecord (Some (Some index_mac)) (Some (Some value_blob)) (Some (Some key_id)) in
      Ok (mkMutation (Some (op_i32 op)) (Some record), value_mac)
  end.

(** The callback of [build_patch] is the store alone. *)
Definition store_get_prev (db_prev : gmap bytes bytes) (_ : unit) (index_mac : bytes)
    (m : SyncdMutation) : unit * outcome AppStateError (option bytes) :=
  (tt, Ok (db_prev !! index_mac)).

Context {KS : KeyStore} (get_latest_sync_key_id : outcome SyncError (option bytes)).

(** What follows the look-up of the key: two accesses to the store, neither of which writes. *)
Definition built_of (rk : outcome SyncError ExpandedAppStateKeys) (key_id collection_name : bytes)
    (mutations : list SyncdMutation) : col (SyncdPatch * Z) :=
  keys ← col_answer rk;
  state ← store_read c_state;
  let base_version := version state in
  db_prev ← store_read (fun c => get_mutation_macs (collect_unique_index_macs mutations) (c_macs c));
  '(_, _, state) ← col_lift (update_hash big_endian (store_get_prev db_prev) tt state mutations);
  let state := set_version state (wrap 64 (version state + 1)) in
  let snapshot_mac := generate_snapshot_mac state collection_name (k_snapshot_mac keys) in
  let patch := mkPatch None mutations None (Some snapshot_mac) None (Some (Some key_id)) in
  let patch_mac := generate_patch_mac patch collection_name (k_patch_mac keys) (version state) in
  mret (mkPatch None mutations None (Some snapshot_mac) (Some patch_mac) (Some (Some key_id)), base_version).

(** [build_patch], before its protobuf encoding: the patch and the base version.  The
    version is a [u64]. *)
Definition build_patch (p : Processor) (collection_name : bytes) (mutations : list SyncdMutation)
    : Processor * outcome SyncError (SyncdPatch * Z) :=
  match get_latest_sync_key_id with
  | Ok (Some key_id) =>
      let '(cache, rk) := get_app_state_key (p_cache p) key_id in
      let '((_, fs), r) := built_of rk key_id collection_name mutations (get_collection p collection_name, p_faults p) in
      (mkProcessor cache (p_store p) fs, r)
  | Ok None => (p, Err NoSyncKey)
  | Err e => (p, Err e)
  | Panic => (p, Panic)
  | Timeout => (p, Timeout)
  end.
End Send.

(** The server stores the patch under the next version. *)
Definition stamp (patch : SyncdPatch) (v : Z) : SyncdPatch :=
  mkPatch (Some (Some v)) (patch_mutations patch) (patch_external patch) (patch_snapshot_mac patch)
    (patch_patch_mac patch) (patch_key_id patch).

(** ** Records *)

Lemma upto_at n (a b : bytes) : n = zlen a -> upto n (a ++ b) = a.
Proof. intros ->. apply upto_app. Qed.
Lemma from_at n (a b : bytes) : n = zlen a -> from n (a ++ b) = b.
Proof. intros ->. apply from_app. Qed.

Section Records.
Context {H : Hkdf} {AC : AppCrypto} {AE : AppEncrypt} {AL : AppEncryptLaws}.

Lemma content_mac_len op data key_id key : zlen (generate_content_mac op data key_id key) = 32.
Proof.
  unfold generate_content_mac, upto, zlen. rewrite length_take.
  set (d := _ ++ key_id ++ data ++ _). pose proof (hmac_sha512_len key d) as Hl. unfold zlen in Hl. lia.
Qed.

(** A record as the sealing side builds it. *)
Definition sealed_record (op : SyncdOperation) (index iv c : bytes) (keys : ExpandedAppStateKeys)
    (key_id : bytes) : SyncdRecord :=
  mkRecord (Some (Some (hmac_sha256 (k_index keys) index)))
    (Some (Some ((iv ++ c) ++ generate_content_mac op (iv ++ c) key_id (k_value_mac keys))))
    (Some (Some key_id)).

Lemma sealed_record_tail op index iv c keys key_id :
  value_tail (sealed_record op index iv c keys key_id)
  = Some (generate_content_mac op (iv ++ c) key_id (k_value_mac keys)).
Proof.
  unfold value_tail, sealed_record. cbn [rec_value mjoin option_join mbind option_bind]. unfold mac_tail.
  set (mac := generate_content_mac _ _ _ _). assert (Hm : zlen mac = 32) by apply content_mac_len.
  pose proof (zlen_nonneg (iv ++ c)). rewrite zlen_app.
  destruct (Z.leb_spec 32 (zlen (iv ++ c) + zlen mac)); [|lia]. f_equal. apply from_at. lia.
Qed.

Lemma sealed_record_decodes op index value v iv c keys key_id b :
  zlen iv = 16 ->
  aes_256_cbc_decrypt c (k_value_encryption keys) iv = Some (encode_action index value v) ->
  decode_record op (sealed_record op index iv c keys key_id) keys key_id b
  = Ok (mkMut (Some value) (default [] (json_strings index)) op,
        mkMac (hmac_sha256 (k_index keys) index)
          (generate_content_mac op (iv ++ c) key_id (k_value_mac keys))).
Proof.
  intros Hiv Hd. unfold decode_record, sealed_record.
  cbn [rec_value rec_index mjoin option_join ok_or mbind outcome_bind].
  set (mac := generate_content_mac _ _ _ _). assert (Hm : zlen mac = 32) by apply content_mac_len.
  pose proof (zlen_nonneg c). rewrite !zlen_app.
  destruct (Z.ltb_spec (zlen iv + zlen c + zlen mac) (16 + 32)); [lia|].
  rewrite (upto_at (zlen iv + zlen c + zlen mac - 32)) by (rewrite zlen_app; lia).
  rewrite <- !(app_assoc iv). rewrite (upto_at 16), (from_at 16) by lia. rewrite zlen_app.
  rewrite (from_at (zlen c + zlen mac - 32)), (upto_at (zlen c + zlen mac - 32)) by lia.
  fold mac. rewrite bytes_eqb_refl. cbn [negb].
  assert (forall A (x : outcome AppStateError A), (_ ← (if b then Ok tt else Ok tt); x) = x) as ->
    by (by destruct b).
  rewrite Hd. cbn [ok_or mbind outcome_bind]. rewrite action_inverse. cbn [ok_or mbind outcome_bind].
  unfold validate_index_mac, generate_index_mac. cbn [default from_option id]. rewrite bytes_eqb_refl.
  by destruct b.
Qed.

Lemma encode_record_spec op index value keys key_id iv v :
  zlen (k_value_encryption keys) = 32 -> zlen iv = 16 ->
  exists c, aes_256_cbc_decrypt c (k_value_encryption keys) iv = Some (encode_action index value v)
    /\ encode_record op index value keys key_id iv v
       = Ok (mkMutation (Some (op_i32 op)) (Some (sealed_record op index iv c keys key_id)),
             generate_content_mac op (iv ++ c) key_id (k_value_mac keys)).
Proof.
  intros Hk Hiv. destruct (cbc_inverse (encode_action index value v) _ _ Hk Hiv) as (c & Hc & Hd).
  exists c. split; [done|]. unfold encode_record. by rewrite Hc.
Qed.
End Records.

(** ** Patches *)

Section Build.
Context {H : Hkdf} {AC : AppCrypto} {AE : AppEncrypt} {AL : AppEncryptLaws}.

Lemma update_step_store store rm A R mr m : well_formed m ->
  let skip := is_set m && bool_decide (mut_key m ∈ rm) in
  exists mr' : bool,
    update_step (store_get_prev store) rm (mkLoop A R mr tt) m
    = (mkLoop (if is_set m then A ++ [mut_tail m] else A)
         (R ++ if skip then [] else match store !! mut_key m with Some v => [v] | None => [] end)
         mr' tt, Ok tt).
Proof.
  intros ([k Hk] & [t Ht] & _) skip. unfold update_step, store_get_prev, skip, mut_key, mut_tail.
  rewrite Ht, Hk, contains_elem. cbn [default from_option id l_added l_removed l_missing_remove l_cb].
  unfold id. destruct (is_set m && bool_decide (k ∈ rm)) eqn:Es; [exists mr; by rewrite app_nil_r|].
  destruct (store !! k); eexists; rewrite ?app_nil_r; by destruct (is_set m).
Qed.

Lemma update_loop_store store rm l A R mr : Forall well_formed l ->
  exists mr' : bool, update_loop (store_get_prev store) rm (mkLoop A R mr tt) l
    = (mkLoop (A ++ set_tails l) (R ++ subtracted store rm l) mr' tt, Ok tt).
Proof.
  intros Hwf. revert A R mr. induction Hwf as [|m l Hm Hwf IH]; intros A R mr.
  { exists mr. cbn. by rewrite !app_nil_r. }
  cbn [update_loop]. destruct (update_step_store store rm A R mr m Hm) as [mr1 ->].
  set (skip := is_set m && bool_decide (mut_key m ∈ rm)).
  destruct (IH (if is_set m then A ++ [mut_tail m] else A)
    (R ++ if skip then [] else match store !! mut_key m with Some v => [v] | None => [] end) mr1)
    as [mr' ->]. exists mr'. unfold set_tails, subtracted. cbn [List.filter omap list_omap]. fold skip.
  destruct (is_set m), skip; cbn [map]; destruct (store !! mut_key m);
    rewrite ?app_nil_r, <- ?app_assoc; done.
Qed.

(** [build_patch] updates the hash as [process_patch] will. *)
Lemma update_hash_build big c l (st : HashState) :
  zlen l <= 2 ^ 32 -> lanes_ok 64 (hash st) -> Forall well_formed l ->
  exists mr, update_hash big (store_get_prev (get_mutation_macs (collect_unique_index_macs l) (c_macs c)))
               tt st l
    = Ok (mr, tt, set_hash st (ops WAPATCH_INTEGRITY false
        (ops WAPATCH_INTEGRITY true (hash st) (subtracted (c_macs c) (remove_keys l) l)) (set_tails l))).
Proof.
  intros Hlen Hh Hwf. unfold update_hash. rewrite removed_in_patch_keys by done.
  rewrite (update_loop_ext _ (store_get_prev (c_macs c))).
  - destruct (update_loop_store (c_macs c) (remove_keys l) l [] [] false Hwf) as [mr ->]. exists mr.
    cbn [mbind outcome_bind l_added l_removed l_missing_remove l_cb app].
    rewrite subtract_then_add_ops by done. cbn [lift_panic map_err mbind outcome_bind ops fold_left].
    rewrite subtract_then_add_ops by (by apply (ops_ok _ 64 integrity_size)). done.
  - intros cb k m Hm Hk. unfold store_get_prev. rewrite get_mutation_macs_lookup; [done|].
    rewrite collect_unique_scan, scan_macs_elem by done. right. apply list_elem_of_omap. by exists m.
Qed.

(** A mutation that [encode_record] returned under these keys. *)
Definition sealed_mutation (keys : ExpandedAppStateKeys) (key_id : bytes) (m : SyncdMutation) : Prop :=
  exists op index value iv v mac,
    zlen iv = 16 /\ encode_record op index value keys key_id iv v = Ok (m, mac).

Lemma sealed_mutation_inv keys key_id m :
  zlen (k_value_encryption keys) = 32 -> sealed_mutation keys key_id m ->
  known_mutation m /\ well_formed m /\ exists rec mt macs,
    mut_record m = Some rec /\ mjoin (rec_key_id rec) = Some key_id
    /\ decode_record (default OpSet (op_try_from (default 0 (mut_operation m)))) rec keys key_id true
       = Ok (mt, macs).
Proof.
  intros Hk (op & index & value & iv & v & mac & Hiv & He).
  destruct (encode_record_spec op index value keys key_id iv v Hk Hiv) as (c & Hd & He2).
  rewrite He2 in He. injection He as <- _.
  split; [|split].
  - split; [by eexists|]. destruct op; [by left|by right].
  - split; [by eexists|]. split; [eexists; apply sealed_record_tail|].
    destruct op; [by left|by right].
  - eexists _, _, _. split; [done|]. split; [done|]. cbn [mut_operation].
    replace (default OpSet (op_try_from (default 0 (Some (op_i32 op))))) with op by (by destruct op).
    by eapply sealed_record_decodes.
Qed.

Lemma decode_sealed get_keys keys key_id l :
  get_keys key_id = Ok keys -> zlen (k_value_encryption keys) = 32 ->
  Forall (sealed_mutation keys key_id) l ->
  exists ms added removed, decode_patch_mutations get_keys l true = Ok (ms, added, removed).
Proof.
  intros Hg Hk. induction 1 as [|m l Hm Hl (ms & added & removed & IH)]; [by eexists _, _, _|].
  destruct (sealed_mutation_inv _ _ _ Hk Hm) as (_ & _ & rec & mt & macs & Hr & Hi & Hd).
  cbn [decode_patch_mutations]. rewrite Hr, Hi. cbn [ok_or mbind outcome_bind]. rewrite Hg.
  cbn [mbind outcome_bind]. rewrite Hd. cbn [mbind outcome_bind]. rewrite IH. cbn [mbind outcome_bind].
  destruct (default OpSet _); by eexists _, _, _.
Qed.

Lemma detect_duplicate_complete l ss sr :
  Forall known_mutation l -> Forall well_formed l ->
  NoDup (ss ++ set_keys l) -> NoDup (sr ++ remove_keys l) -> detect_duplicate_loop l ss sr = Ok tt.
Proof.
  intros Hk. revert ss sr. induction Hk as [|m l Hm Hk IH]; intros ss sr Hwf Hs Hr; [done|].
  apply Forall_cons in Hwf as [([k Hki] & _) Hwf]. cbn [detect_duplicate_loop]. rewrite Hki.
  assert (Hkey : mut_key m = k) by (unfold mut_key; by rewrite Hki).
  unfold set_keys, remove_keys in *. cbn [List.filter] in *.
  destruct (known_op m Hm) as [(Es & Er & ->)|(Es & Er & ->)]; rewrite Es, Er in *; cbn [map] in *;
    rewrite Hkey in *; rewrite contains_elem.
  - assert (k ∉ ss) by (intros Hin; apply NoDup_app in Hs as (_ & Hs & _); by apply (Hs k Hin); left).
    rewrite bool_decide_false by done. apply IH; [done| |done]. by rewrite <- app_assoc.
  - assert (k ∉ sr) by (intros Hin; apply NoDup_app in Hr as (_ & Hr & _); by apply (Hr k Hin); left).
    rewrite bool_decide_false by done. apply IH; [done|done|]. by rewrite <- app_assoc.
Qed.

(** The patch that [build_patch] makes of a hash [h] over the mutations [l]. *)
Definition built (st : HashState) (name key_id : bytes) (keys : ExpandedAppStateKeys)
    (l : list SyncdMutation) : SyncdPatch :=
  let sm := generate_snapshot_mac st name (k_snapshot_mac keys) in
  let pm := generate_patch_mac (mkPatch None l None (Some sm) None (Some (Some key_id))) name
              (k_patch_mac keys) (version st) in
  mkPatch None l None (Some sm) (Some pm) (Some (Some key_id)).

Lemma process_built big get_keys c name key_id keys l (st : HashState) ms added removed :
  0 <= version (c_state c) < U64_MAX -> lanes_ok 64 (hash (c_state c)) ->
  get_keys key_id = Ok keys -> Forall known_mutation l -> Forall well_formed l ->
  NoDup (set_keys l) -> NoDup (remove_keys l) ->
  decode_patch_mutations get_keys l true = Ok (ms, added, removed) ->
  st = set_hash (set_version (c_state c) (version (c_state c) + 1)) (ops WAPATCH_INTEGRITY false
        (ops WAPATCH_INTEGRITY true (hash (c_state c)) (subtracted (c_macs c) (remove_keys l) l)) (set_tails l)) ->
  process_patch big get_keys (stamp (built st name key_id keys l) (version (c_state c) + 1)) (c_state c)
    (fun k => Ok (c_macs c !! k)) true name
  = Ok (mkPatchResult st ms added removed).
Proof.
  intros Hv Hh Hg Hkn Hwf Hns Hnr Hdec Hst. unfold process_patch.
  cbn [stamp patch_version patch_mutations patch_key_id built mjoin option_join default from_option].
  unfold id. set (v' := version (c_state c) + 1) in *. rewrite Z.min_r by (unfold v'; lia).
  rewrite Z.eqb_refl, andb_false_r.
  destruct (update_hash_spec big (c_macs c) l (set_version (c_state c) v') Hh Hwf Hns) as (mr & ip & ->).
  cbn [map_err mbind outcome_bind hash set_version]. fold (set_version (c_state c) v'). rewrite <- Hst.
  rewrite Hg. cbn [mbind outcome_bind]. unfold detect_duplicate_index_in_patch.
  rewrite detect_duplicate_complete by done. cbn [mbind outcome_bind]. rewrite Hdec. cbn [mbind outcome_bind].
  assert (forall b, validate_patch_macs (stamp (built st name key_id keys l) v') st keys name b = Ok tt) as ->;
    [|done].
  intros [|]; [done|]. unfold validate_patch_macs, stamp, built.
  cbn [patch_snapshot_mac patch_patch_mac patch_version mjoin option_join default from_option].
  unfold id. rewrite bytes_eqb_refl. cbn [negb mbind outcome_bind].
  assert (version st = v') as -> by (by rewrite Hst). unfold generate_patch_mac.
  cbn [patch_snapshot_mac patch_mutations]. by rewrite bytes_eqb_refl.
Qed.
End Build.

(** ** A provider for the examples *)

#[global] Instance toy_app_encrypt : AppEncrypt :=
  {| aes_256_cbc_encrypt p k iv := Some p; encode_action index value v := index |}.
#[global] Instance toy_app_encrypt_laws : AppEncryptLaws.
Proof.
  split.
  - intros p key iv _ _. exists p. done.
  - by intros index [] v.
  - intros key data. cbn [hmac_sha512 toy_app_crypto]. rewrite zlen_app. unfold toy_mac.
    by rewrite !to_be_bytes_zlen.
Qed.

Definition toy_value : @ActionValue toy_app_crypto := tt.
Definition send_keys : ExpandedAppStateKeys := mkAppKeys [1] (replicate 32 2) [3] [4] [5].
Definition send_get_keys (id : bytes) : outcome AppStateError ExpandedAppStateKeys := Ok send_keys.
Definition send_mutation (op : SyncdOperation) (index iv : bytes) : SyncdMutation :=
  (value_or (mkMutation None None, []) (encode_record op index toy_value send_keys [7] iv 3)).1.
Definition send_processor : Processor := mkProcessor {[ [7] := send_keys ]} {[ str "regular" := toy_c1 ]} [].
Definition send_mutations : list SyncdMutation :=
  [send_mutation OpSet [2] iv_b; send_mutation OpRemove [1] iv_a; send_mutation OpSet [3] iv_b].

Lemma send_mutation_sealed op index iv : zlen iv = 16 ->
  sealed_mutation send_keys [7] (send_mutation op index iv).
Proof.
  intros Hiv. exists op, index, toy_value, iv, 3. eexists. split; [done|]. by apply value_or_pair.
Qed.

(** ** Properties *)

(** What [encode_record] seals, [decode_record] opens.  With a 32-byte key and a 16-byte
    IV it never fails, and the record decodes, MACs validated, to the same operation, value
    and index, with the index MAC and the value MAC that the encoder reported. *)
Lemma record_roundtrip {H : Hkdf} {AC : AppCrypto} {AE : AppEncrypt} {AL : AppEncryptLaws}
    (op : SyncdOperation) (index : bytes) (value : ActionValue) (keys : ExpandedAppStateKeys)
    (key_id iv : bytes) (v : Z) :
  zlen (k_value_encryption keys) = 32 -> zlen iv = 16 ->
  exists m rec mac, encode_record op index value keys key_id iv v = Ok (m, mac)
    /\ mut_operation m = Some (op_i32 op) /\ mut_record m = Some rec
    /\ value_tail rec = Some mac
    /\ decode_record op rec keys key_id true
       = Ok (mkMut (Some value) (default [] (json_strings index)) op,
             mkMac (generate_index_mac index (k_index keys)) mac).
Proof.
  intros Hk Hiv. destruct (encode_record_spec op index value keys key_id iv v Hk Hiv) as (c & Hd & ->).
  eexists _, _, _. split; [done|]. split; [done|]. split; [done|].
  split; [apply sealed_record_tail|by eapply sealed_record_decodes].
Qed.

Lemma record_roundtrip_witness :
  exists m rec mac, encode_record OpSet [1] toy_value send_keys [7] iv_a 3 = Ok (m, mac)
    /\ mut_operation m = Some (op_i32 OpSet) /\ mut_record m = Some rec
    /\ value_tail rec = Some mac
    /\ decode_record OpSet rec send_keys [7] true
       = Ok (mkMut (Some toy_value) (default [] (json_strings [1])) OpSet,
             mkMac (generate_index_mac [1] (k_index send_keys)) mac).
Proof. apply (record_roundtrip OpSet [1] toy_value send_keys [7] iv_a 3); reflexivity. Defined.

Definition known_keys {H : Hkdf} {KS : KeyStore} (p : Processor) (key_id : bytes)
    (keys : ExpandedAppStateKeys) : Prop :=
  (get_app_state_key (p_cache p) key_id).2 = Ok keys.

(** One of the next [n] accesses fails. *)
Definition struck (n : nat) (p : Processor) : Prop := Exists is_Some (take n (p_faults p)).

(** What [build_patch] returns, and that the inbound path takes it. *)
Lemma build_patch_spec {H : Hkdf} {AC : AppCrypto} {AE : AppEncrypt} {AL : AppEncryptLaws}
    {KS : KeyStore} (big : bool) (get_keys : bytes -> outcome AppStateError ExpandedAppStateKeys)
    (p : Processor) (name key_id : bytes) (keys : ExpandedAppStateKeys) (l : list SyncdMutation) :
  consistent (get_collection p name) -> 0 <= version (c_state (get_collection p name)) < U64_MAX ->
  known_keys p key_id keys -> get_keys key_id = Ok keys -> zlen (k_value_encryption keys) = 32 ->
  Forall (sealed_mutation keys key_id) l -> NoDup (set_keys l) -> NoDup (remove_keys l) ->
  zlen l <= 2 ^ 32 ->
  let c := get_collection p name in
  (struck 2 p /\ exists p' busy, build_patch big (Ok (Some key_id)) p name l = (p', Err (StoreError busy)))
  \/ exists patch c' ms,
    build_patch big (Ok (Some key_id)) p name l
    = (mkProcessor (get_app_state_key (p_cache p) key_id).1 (p_store p) (drop 2 (p_faults p)),
       Ok (patch, version (c_state c)))
    /\ calm_patch big get_keys c (stamp patch (version (c_state c) + 1)) true name = Ok (c', ms)
    /\ consistent c' /\ version (c_state c') = version (c_state c) + 1
    /\ patch_mutations patch = l /\ patch_external patch = None /\ patch_key_id patch = Some (Some key_id).
Proof.
  intros Hc Hv Hkn Hg Hk Hl Hns Hnr Hlen c.
  assert (Hknown : Forall known_mutation l /\ Forall well_formed l).
  { split; (eapply Forall_impl; [exact Hl|]); intros m Hm; by apply (sealed_mutation_inv keys key_id) in Hm as (? & ? & _). }
  destruct Hknown as [Hknown Hwf].
  assert (Hh : lanes_ok 64 (hash (c_state c))) by (unfold c; rewrite Hc; apply mac_sum_ok).
  destruct (update_hash_build big c l (c_state c) Hlen Hh Hwf) as [mr Hu].
  destruct (decode_sealed get_keys keys key_id l Hg Hk Hl) as (ms & added & removed & Hdec).
  set (st := set_hash (set_version (c_state c) (version (c_state c) + 1)) (ops WAPATCH_INTEGRITY false
    (ops WAPATCH_INTEGRITY true (hash (c_state c)) (subtracted (c_macs c) (remove_keys l) l)) (set_tails l))).
  pose proof (process_built big get_keys c name key_id keys l st ms added removed Hv Hh Hg Hknown Hwf Hns Hnr
    Hdec eq_refl) as Hp.
  unfold build_patch, known_keys, struck in *. fold c.
  destruct (get_app_state_key (p_cache p) key_id) as [cache rk]. cbn [snd fst] in *. subst rk.
  unfold built_of, mbind, col_bind. cbn [col_answer].
  destruct (store_read_or c_state c (p_faults p)) as [(busy & -> & Hs)| ->]; [left; split; [|by eauto]|].
  { destruct (p_faults p); [done|]. by constructor. }
  destruct (store_read_or (fun c => get_mutation_macs (collect_unique_index_macs l) (c_macs c)) c (tail (p_faults p)))
    as [(busy & -> & Hs)| ->]; [left; split; [|by eauto]|].
  { destruct (p_faults p) as [|f [|g fs]]; [done..|]. by do 2 constructor. }
  right. unfold col_lift. rewrite Hu. cbn [map_err].
  assert (Hst : set_version (set_hash (c_state c) (hash st)) (wrap 64 (version (c_state c) + 1)) = st).
  { unfold wrap. rewrite Z.mod_small by (unfold U64_MAX in Hv; fold c in Hv; lia). done. }
  cbn [version set_hash]. unfold st in Hst at 1. cbn [hash set_hash] in Hst. rewrite Hst.
  replace (tail (tail (p_faults p))) with (drop 2 (p_faults p)) by (by destruct (p_faults p) as [|? []]).
  eexists (built st name key_id keys l), _, _. split; [done|]. unfold calm_patch.
  rewrite process_patch_prefetched by done. rewrite Hp. cbn [mbind outcome_bind]. split; [done|].
  by apply process_patch_consistent in Hp as [Hc' Hver]; [|done..].
Qed.

(** C29: a patch the client builds is a patch the client accepts.  From a consistent collection
    below the last version, [build_patch] on sealed mutations that repeat no index per
    operation succeeds and reports the current version as the base, unless one of its two
    accesses to the store fails, whose error it then reports; stamped with the next
    version, the patch passes the version check, both MACs and the duplicate check of the
    inbound path, is decoded, and leaves the collection, in a store that works, consistent at
    that version. *)
Theorem built_patch_accepted {H : Hkdf} {AC : AppCrypto} {AE : AppEncrypt} {AL : AppEncryptLaws}
    {KS : KeyStore} (big : bool) (get_keys : bytes -> outcome AppStateError ExpandedAppStateKeys)
    (p : Processor) (name key_id : bytes) (keys : ExpandedAppStateKeys) (l : list SyncdMutation) :
  consistent (get_collection p name) -> 0 <= version (c_state (get_collection p name)) < U64_MAX ->
  known_keys p key_id keys -> get_keys key_id = Ok keys -> zlen (k_value_encryption keys) = 32 ->
  Forall (sealed_mutation keys key_id) l -> NoDup (set_keys l) -> NoDup (remove_keys l) ->
  zlen l <= 2 ^ 32 ->
  let c := get_collection p name in
  (struck 2 p /\ exists p' busy, build_patch big (Ok (Some key_id)) p name l = (p', Err (StoreError busy)))
  \/ exists p' patch c' ms,
    build_patch big (Ok (Some key_id)) p name l = (p', Ok (patch, version (c_state c)))
    /\ apply_patch big get_keys (c_state c) (stamp patch (version (c_state c) + 1)) true name (c, [])
       = ((c', []), Ok (c_state c', ms))
    /\ consistent c' /\ version (c_state c') = version (c_state c) + 1.
Proof.
  intros Hc Hv Hkn Hg Hk Hl Hns Hnr Hlen c.
  destruct (build_patch_spec big get_keys p name key_id keys l) as [?|(patch & c' & ms & Hb & Ha & Hc' & Hv' & _)];
    [done..|by left|]. right. eexists _, patch, c', ms. by rewrite calm_patch_ok.
Qed.

Definition send_collection : Collection := get_collection send_processor (str "regular").

Lemma built_patch_accepted_witness :
  exists p' patch c' ms,
    build_patch false (Ok (Some [7])) send_processor (str "regular") send_mutations
    = (p', Ok (patch, version (c_state send_collection)))
    /\ apply_patch false send_get_keys (c_state send_collection)
         (stamp patch (version (c_state send_collection) + 1)) true (str "regular") (send_collection, [])
       = ((c', []), Ok (c_state c', ms))
    /\ consistent c'
    /\ version (c_state c') = version (c_state send_collection) + 1.
Proof.
  destruct (built_patch_accepted false send_get_keys send_processor (str "regular") [7] send_keys
    send_mutations) as [[Hstruck _]|Hbuilt]; [..|by inversion Hstruck|exact Hbuilt].
  - vm_compute. reflexivity.
  - vm_compute. split; [discriminate|reflexivity].
  - vm_compute. reflexivity.
  - reflexivity.
  - reflexivity.
  - unfold send_mutations. repeat apply Forall_cons_2; try apply send_mutation_sealed; try reflexivity.
    apply Forall_nil_2.
  - apply (bool_decide_unpack _). vm_compute. exact I.
  - apply (bool_decide_unpack _). vm_compute. exact I.
  - vm_compute. discriminate.
Defined.
