(* ===== verification/Attrs.v ===== *)
(** * Typed attributes

    [AttrParser] and [AttrParserRef] of [wacore/binary/src/attrs.rs]: typed access to the
    attributes of a node, where a bad value yields a default and an error that
    [finish] reports at the end.  The two parsers have the same methods over owned and
    borrowed values; they are one record over the class [AttrValue] here. *)

From stdpp Require Import prelude strings.
From S2P Require Import Prelude Jid Token Node Writer.

#[local] Open Scope Z_scope.

(** ** Numbers in text *)

(** [ParseIntError]'s [Display], by its kind. *)
Definition text_empty : bytes := str "cannot parse integer from empty string".
Definition text_invalid : bytes := str "invalid digit found in string".
Definition text_pos_overflow : bytes := str "number too large to fit in target type".
Definition text_neg_overflow : bytes := str "number too small to fit in target type".

(** Why the digit loop stopped: at the first character that is no digit, or at the first
    digit that leaves the range. *)
Fixpoint digits_error (max acc : Z) (overflow : bytes) (s : bytes) : bytes :=
  match s with
  | [] => text_invalid
  | b :: s' =>
      if is_ascii_digit b then
        let acc' := acc * 10 + (b - 48) in
        if acc' <=? max then digits_error max acc' overflow s' else overflow
      else text_invalid
  end.

(** [s.parse::<u64>()] *)
Definition parse_u64_res (s : bytes) : outcome bytes Z :=
  match parse_u64 s with
  | Some n => Ok n
  | None =>
      Err match s with
          | [] => text_empty
          | 43 :: [] => text_invalid
          | 43 :: s' => digits_error 18446744073709551615 0 text_pos_overflow s'
          | _ => digits_error 18446744073709551615 0 text_pos_overflow s
          end
  end.

(** [s.parse::<i64>()]: with a minus sign, the digits count down to the least value. *)
Definition I64_MAX : Z := 9223372036854775807.
Definition I64_MIN : Z := -9223372036854775808.
Definition parse_i64 (s : bytes) : option Z :=
  match s with
  | 45 :: s' => match s' with [] => None | _ => Z.opp <$> parse_digits (- I64_MIN) 0 s' end
  | _ => parse_uint I64_MAX s
  end.
Definition parse_i64_res (s : bytes) : outcome bytes Z :=
  match parse_i64 s with
  | Some n => Ok n
  | None =>
      Err match s with
          | [] => text_empty
          | 43 :: [] | 45 :: [] => text_invalid
          | 45 :: s' => digits_error (- I64_MIN) 0 text_neg_overflow s'
          | 43 :: s' => digits_error I64_MAX 0 text_pos_overflow s'
          | _ => digits_error I64_MAX 0 text_pos_overflow s
          end
  end.

(** ** Booleans on the wire *)

Definition coerce_protocol_bool (s : bytes) : option bool :=
  if existsb (bytes_eqb s) [str "1"; str "true"; str "True"; str "t"; str "T"; str "TRUE"]
  then Some true
  else if existsb (bytes_eqb s) [str "0"; str "false"; str "False"; str "f"; str "F"; str "FALSE"]
  then Some false
  else None.

(** ** Parsers *)

(** What a parser needs of a value: its text, and the JID it holds or the error to report. *)
Class AttrValue (V : Type) : Type := {
  av_str : V -> bytes;
  av_jid : V -> outcome BinaryError Jid
}.

#[global] Instance node_attr_value : AttrValue NodeValue := {
  av_str := value_as_str;
  av_jid v := match v with
              | VJid j => Ok j
              | VString s => map_err BJid (jid_from_str s)
              end
}.

#[global] Instance ref_attr_value : AttrValue ValueRef := {
  av_str := value_ref_as_str;
  av_jid v := match v with
              | VRJid j => Ok j
              | VRString s => map_err (fun _ => AttrParse (str "Invalid JID: " ++ s)) (jid_from_str s)
              end
}.

Record AttrParser (V : Type) : Type := mkParser {
  ap_attrs : list (bytes * V); ap_errors : list BinaryError
}.
Arguments mkParser {V} ap_attrs ap_errors.
Arguments ap_attrs {V} a.
Arguments ap_errors {V} a.

Definition attr_parser (n : Node) : AttrParser NodeValue := mkParser (node_attrs n) [].
Definition attr_parser_ref (n : NodeRef) : AttrParser ValueRef :=
  mkParser (attrs_ref_as_slice (ref_attrs n)) [].

(** Cloning an error turns a JID error into its text.  The text of [Parse] ends in the
    payload, which [JidError] does not carry here. *)
Definition jid_error_text (e : JidError) : bytes :=
  match e with
  | InvalidFormat s => str "Invalid JID format: " ++ s
  | Parse => str "Failed to parse component: "
  end.
Fixpoint clone_error (e : BinaryError) : BinaryError :=
  match e with
  | BJid e => BJid (InvalidFormat (jid_error_text e))
  | AttrList l => AttrList (map clone_error l)
  | e => e
  end.

Section Parser.
Context {V : Type} {AV : AttrValue V}.
Abbreviation parser := (AttrParser V).

Definition push_error (p : parser) (e : BinaryError) : parser :=
  mkParser (ap_attrs p) (ap_errors p ++ [e]).

Definition attr_ok (p : parser) : bool := bool_decide (ap_errors p = []).
Definition finish (p : parser) : outcome BinaryError unit :=
  if attr_ok p then Ok tt else Err (AttrList (map clone_error (ap_errors p))).

Fixpoint find_attr (l : list (bytes * V)) (key : bytes) : option V :=
  match l with
  | [] => None
  | (k, v) :: l' => if bytes_eqb k key then Some v else find_attr l' key
  end.

Definition get_raw (key : bytes) (require : bool) (p : parser) : option V * parser :=
  let val := find_attr (ap_attrs p) key in
  (val, if require && is_none val
        then push_error p (AttrParse (str "Required attribute '" ++ key ++ str "' not found"))
        else p).

Definition get_string_value (key : bytes) (require : bool) (p : parser) : option bytes * parser :=
  let '(v, p) := get_raw key require p in (av_str <$> v, p).

Definition optional_string (key : bytes) (p : parser) : option bytes * parser :=
  let '(v, p) := get_raw key false p in (av_str <$> v, p).

Definition required_string (key : bytes) (p : parser) : outcome BinaryError bytes * parser :=
  let '(s, p) := optional_string key p in (ok_or s (MissingAttr key), p).

Definition optional_jid (key : bytes) (p : parser) : option Jid * parser :=
  let '(v, p) := get_raw key false p in
  match v with
  | None => (None, p)
  | Some v =>
      match av_jid v with
      | Ok j => (Some j, p)
      | Err e => (None, push_error p e)
      | _ => (None, p)
      end
  end.

Definition attr_jid (key : bytes) (p : parser) : Jid * parser :=
  let '(_, p) := get_raw key true p in
  let '(j, p) := optional_jid key p in (default jid_default j, p).

Definition non_ad_jid (key : bytes) (p : parser) : Jid * parser :=
  let '(j, p) := attr_jid key p in (to_non_ad j, p).

(** A value of the attribute's text, or an error that quotes it. *)
Definition get_parsed {A} (parse : bytes -> outcome bytes A) (message : bytes -> bytes -> bytes)
    (key : bytes) (require : bool) (p : parser) : option A * parser :=
  let '(s, p) := get_string_value key require p in
  match s with
  | None => (None, p)
  | Some s =>
      match parse s with
      | Ok v => (Some v, p)
      | Err e => (None, push_error p (AttrParse (message s e)))
      | _ => (None, p)
      end
  end.

Definition quoted (what s key : bytes) : bytes :=
  str "Failed to parse " ++ what ++ str " from '" ++ s ++ str "' for key '" ++ key ++ str "'".

Definition get_bool (key : bytes) : bool -> parser -> option bool * parser :=
  get_parsed (fun s => ok_or (coerce_protocol_bool s) []) (fun s _ => quoted (str "bool") s key) key.
Definition optional_bool (key : bytes) (p : parser) : bool * parser :=
  let '(b, p) := get_bool key false p in (default false b, p).
Definition attr_bool (key : bytes) (p : parser) : bool * parser :=
  let '(b, p) := get_bool key true p in (default false b, p).

Definition optional_u64 (key : bytes) : parser -> option Z * parser :=
  get_parsed parse_u64_res (fun s e => quoted (str "u64") s key ++ str ": " ++ e) key false.

Definition get_i64 (key : bytes) : bool -> parser -> option Z * parser :=
  get_parsed parse_i64_res (fun s e => quoted (str "i64") s key ++ str ": " ++ e) key.
Definition optional_unix_time (key : bytes) (p : parser) : option Z * parser := get_i64 key false p.
Definition unix_time (key : bytes) (p : parser) : Z * parser :=
  let '(_, p) := get_raw key true p in
  let '(t, p) := optional_unix_time key p in (default 0 t, p).
Definition optional_unix_milli (key : bytes) (p : parser) : option Z * parser := get_i64 key false p.
Definition unix_milli (key : bytes) (p : parser) : Z * parser :=
  let '(_, p) := get_raw key true p in
  let '(t, p) := optional_unix_milli key p in (default 0 t, p).
End Parser.

(** ** Sequences of reads *)

(** The public methods of a parser, and what each returns. *)
Inductive AttrRead : Type :=
  | ReadString (key : bytes) | ReadRequired (key : bytes)
  | ReadOptJid (key : bytes) | ReadJid (key : bytes) | ReadNonAdJid (key : bytes)
  | ReadOptBool (key : bytes) | ReadBool (key : bytes) | ReadOptU64 (key : bytes)
  | ReadOptTime (key : bytes) | ReadTime (key : bytes)
  | ReadOptMilli (key : bytes) | ReadMilli (key : bytes).

Inductive AttrResult : Type :=
  | GotString (s : option bytes) | GotRequired (s : outcome BinaryError bytes)
  | GotOptJid (j : option Jid) | GotJid (j : Jid)
  | GotBool (b : bool) | GotOptInt (n : option Z) | GotInt (n : Z).

Section Reads.
Context {V : Type} {AV : AttrValue V}.
Abbreviation parser := (AttrParser V).

Definition on_fst {A B} (f : A -> AttrResult) (r : A * B) : AttrResult * B := (f r.1, r.2).

Definition run_read (r : AttrRead) (p : parser) : AttrResult * parser :=
  match r with
  | ReadString k => on_fst GotString (optional_string k p)
  | ReadRequired k => on_fst GotRequired (required_string k p)
  | ReadOptJid k => on_fst GotOptJid (optional_jid k p)
  | ReadJid k => on_fst GotJid (attr_jid k p)
  | ReadNonAdJid k => on_fst GotJid (non_ad_jid k p)
  | ReadOptBool k => on_fst GotBool (optional_bool k p)
  | ReadBool k => on_fst GotBool (attr_bool k p)
  | ReadOptU64 k => on_fst GotOptInt (optional_u64 k p)
  | ReadOptTime k => on_fst GotOptInt (optional_unix_time k p)
  | ReadTime k => on_fst GotInt (unix_time k p)
  | ReadOptMilli k => on_fst GotOptInt (optional_unix_milli k p)
  | ReadMilli k => on_fst GotInt (unix_milli k p)
  end.

Fixpoint run_reads (rs : list AttrRead) (p : parser) : list AttrResult * parser :=
  match rs with
  | [] => ([], p)
  | r :: rs =>
      let '(v, p) := run_read r p in
      let '(vs, p) := run_reads rs p in (v :: vs, p)
  end.
End Reads.

(** ** The two parsers agree *)

(** The two parsers word a bad JID differently; every other error is the same. *)
Inductive same_error : BinaryError -> BinaryError -> Prop :=
  | same_error_eq e : same_error e e
  | same_error_jid e s : same_error (BJid e) (AttrParse (str "Invalid JID: " ++ s)).

Definition agree (p : AttrParser NodeValue) (q : AttrParser ValueRef) : Prop :=
  ap_attrs q = map (prod_map id as_value_ref) (ap_attrs p)
  /\ Forall2 same_error (ap_errors p) (ap_errors q).

(** Two reads agree when they return the same value and leave parsers that agree. *)
Definition agrees {A} (r : A * AttrParser NodeValue) (q : A * AttrParser ValueRef) : Prop :=
  r.1 = q.1 /\ agree r.2 q.2.

Lemma agree_push p q e e' : agree p q -> same_error e e' -> agree (push_error p e) (push_error q e').
Proof. intros [Ha He] Hs. split; [done|]. apply Forall2_app; [done|]. by repeat constructor. Qed.

Lemma agree_find p q key : agree p q ->
  find_attr (ap_attrs q) key = as_value_ref <$> find_attr (ap_attrs p) key.
Proof.
  intros [-> _]. induction (ap_attrs p) as [|[k v] l IH]; [done|]. cbn.
  by destruct (bytes_eqb k key).
Qed.

Lemma as_value_ref_str v : value_ref_as_str (as_value_ref v) = value_as_str v.
Proof. by destruct v. Qed.

Lemma agree_get_raw key req p q : agree p q ->
  (get_raw key req q).1 = as_value_ref <$> (get_raw key req p).1
  /\ agree (get_raw key req p).2 (get_raw key req q).2.
Proof.
  intros Ha. unfold get_raw. rewrite (agree_find p q) by done. split; [done|]. cbn [snd].
  destruct (find_attr (ap_attrs p) key), req; cbn; try done. by apply agree_push; [|constructor].
Qed.

Lemma agree_string key req p q : agree p q ->
  agrees (get_string_value key req p) (get_string_value key req q).
Proof.
  intros Ha. destruct (agree_get_raw key req p q Ha) as [Hv Hp]. unfold get_string_value.
  destruct (get_raw key req p) as [v p'], (get_raw key req q) as [w q']. cbn [fst snd] in *. subst w.
  split; [|done]. destruct v as [v|]; [|done]. cbn. by rewrite as_value_ref_str.
Qed.

Lemma agree_parsed {A} (parse : bytes -> outcome bytes A) m key req p q : agree p q ->
  agrees (get_parsed parse m key req p) (get_parsed parse m key req q).
Proof.
  intros Ha. destruct (agree_string key req p q Ha) as [Hv Hp]. unfold get_parsed.
  destruct (get_string_value key req p) as [v p'], (get_string_value key req q) as [w q'].
  cbn [fst snd] in *. subst w. destruct v as [s|]; [|done]. destruct (parse s); try done.
  split; [done|]. by apply agree_push; [|constructor].
Qed.

Lemma agree_optional_jid key p q : agree p q ->
  agrees (optional_jid key p) (optional_jid key q).
Proof.
  intros Ha. destruct (agree_get_raw key false p q Ha) as [Hv Hp]. unfold optional_jid.
  destruct (get_raw key false p) as [v p'], (get_raw key false q) as [w q']. cbn [fst snd] in *. subst w.
  destruct v as [[s|j]|]; try done. cbn. destruct (jid_from_str s); try done.
  cbn. split; [done|]. by apply agree_push; [|constructor].
Qed.

(** A read that post-processes the value of another. *)
Lemma agrees_map {A B} (f : A -> B) r q : agrees r q ->
  agrees (let '(a, p) := r in (f a, p)) (let '(a, p) := q in (f a, p)).
Proof. destruct r, q. intros [Hv Hp]. cbn in *. by subst. Qed.

(** A read that first checks that the attribute is there. *)
Lemma agrees_required {A} key (f : AttrParser NodeValue -> A * AttrParser NodeValue)
    (g : AttrParser ValueRef -> A * AttrParser ValueRef) p q :
  agree p q -> (forall p q, agree p q -> agrees (f p) (g q)) ->
  agrees (let '(_, p) := get_raw key true p in f p) (let '(_, q) := get_raw key true q in g q).
Proof.
  intros Ha Hf. destruct (agree_get_raw key true p q Ha) as [_ Hp].
  destruct (get_raw key true p), (get_raw key true q). by apply Hf.
Qed.

Lemma agree_attr_jid key p q : agree p q -> agrees (attr_jid key p) (attr_jid key q).
Proof.
  intros Ha. unfold attr_jid. apply agrees_required; [done|]. intros p' q' Ha'.
  by apply agrees_map, agree_optional_jid.
Qed.

Lemma agree_get_i64 key req p q : agree p q -> agrees (get_i64 key req p) (get_i64 key req q).
Proof. apply agree_parsed. Qed.

Lemma agree_run_read r p q : agree p q -> agrees (run_read r p) (run_read r q).
Proof.
  assert (Hon : forall A (f : A -> AttrResult) (a : A * AttrParser NodeValue) (b : A * AttrParser ValueRef),
            agrees a b -> agrees (on_fst f a) (on_fst f b)).
  { intros A f [??] [??] [? ?]. cbn in *. by subst. }
  intros Ha. destruct r; cbn [run_read]; apply Hon.
  - by apply (agree_string key false).
  - by apply (agrees_map (fun s => ok_or s (MissingAttr key))), (agree_string key false).
  - by apply agree_optional_jid.
  - by apply agree_attr_jid.
  - by apply agrees_map, agree_attr_jid.
  - by apply agrees_map, agree_parsed.
  - by apply agrees_map, agree_parsed.
  - by apply agree_parsed.
  - by apply agree_get_i64.
  - apply agrees_required; [done|]. intros. by apply agrees_map, agree_get_i64.
  - by apply agree_get_i64.
  - apply agrees_required; [done|]. intros. by apply agrees_map, agree_get_i64.
Qed.

Lemma agree_run_reads rs p q : agree p q -> agrees (run_reads rs p) (run_reads rs q).
Proof.
  revert p q. induction rs as [|r rs IH]; intros p q Ha; [done|]. cbn [run_reads].
  destruct (agree_run_read r p q Ha) as [Hv Hp].
  destruct (run_read r p) as [v p'], (run_read r q) as [w q']. cbn [fst snd] in *. subst w.
  exact (agrees_map (cons v) _ _ (IH _ _ Hp)).
Qed.

Lemma agree_finish p q : agree p q -> is_err (finish p) = is_err (finish q).
Proof.
  intros [_ He]. unfold finish, attr_ok. by destruct He.
Qed.

(** ** When a sequence of reads is accepted *)

Section Clean.
Context {V : Type} {AV : AttrValue V}.
Abbreviation parser := (AttrParser V).

Definition parses {A} (o : outcome bytes A) : bool := negb (is_err o).
Definition text_ok (f : bytes -> bool) (missing : bool) (l : list (bytes * V)) (key : bytes) : bool :=
  match find_attr l key with Some v => f (av_str v) | None => missing end.
Definition jid_ok (missing : bool) (l : list (bytes * V)) (key : bytes) : bool :=
  match find_attr l key with Some v => negb (is_err (av_jid v)) | None => missing end.

(** What a read asks of the attributes: a required one is there, and the text of a typed
    one is of its type. *)
Definition read_clean (l : list (bytes * V)) (r : AttrRead) : bool :=
  let is_bool s := match coerce_protocol_bool s with Some _ => true | None => false end in
  match r with
  | ReadString _ | ReadRequired _ => true
  | ReadOptJid k => jid_ok true l k
  | ReadJid k | ReadNonAdJid k => jid_ok false l k
  | ReadOptBool k => text_ok is_bool true l k
  | ReadBool k => text_ok is_bool false l k
  | ReadOptU64 k => text_ok (fun s => parses (parse_u64_res s)) true l k
  | ReadOptTime k | ReadOptMilli k => text_ok (fun s => parses (parse_i64_res s)) true l k
  | ReadTime k | ReadMilli k => text_ok (fun s => parses (parse_i64_res s)) false l k
  end.

(** A read keeps the attributes and adds errors exactly when it is not clean. *)
Definition adds (clean : bool) (p p' : parser) : Prop :=
  ap_attrs p' = ap_attrs p
  /\ exists es, ap_errors p' = ap_errors p ++ es /\ (es = [] <-> clean = true).

Lemma adds_none p : adds true p p.
Proof. split; [done|]. exists []. by rewrite app_nil_r. Qed.
Lemma adds_error p e : adds false p (push_error p e).
Proof. split; [done|]. by exists [e]. Qed.

Lemma adds_trans b c p q r : adds b p q -> adds c q r -> adds (b && c) p r.
Proof.
  intros [Ha (es & He & Hb)] [Ha' (es' & He' & Hc)]. split; [congruence|].
  exists (es ++ es'). rewrite He', He, app_assoc. split; [done|].
  rewrite andb_true_iff, <- Hb, <- Hc. split; [apply app_nil|by intros [-> ->]].
Qed.

Lemma adds_get_raw key req p :
  adds (match find_attr (ap_attrs p) key with Some _ => true | None => negb req end)
    p (get_raw key req p).2.
Proof.
  unfold get_raw. cbn [snd]. destruct (find_attr (ap_attrs p) key), req; cbn;
    (apply adds_none || apply adds_error).
Qed.

Lemma adds_parsed {A} (parse : bytes -> outcome bytes A) m key req p :
  (forall s, returns (parse s)) ->
  adds (text_ok (fun s => parses (parse s)) (negb req) (ap_attrs p) key) p (get_parsed parse m key req p).2.
Proof.
  intros Hr. unfold get_parsed, get_string_value, get_raw, text_ok.
  destruct (find_attr (ap_attrs p) key) as [v|]; cbn.
  - rewrite andb_false_r. cbn. specialize (Hr (av_str v)).
    destruct (parse (av_str v)); (done || apply adds_none || apply adds_error).
  - rewrite andb_true_r. destruct req; (apply adds_none || apply adds_error).
Qed.

Lemma parse_u64_returns s : returns (parse_u64_res s).
Proof. unfold parse_u64_res. by destruct (parse_u64 s). Qed.
Lemma parse_i64_returns s : returns (parse_i64_res s).
Proof. unfold parse_i64_res. by destruct (parse_i64 s). Qed.

Lemma adds_optional_jid key p : adds (jid_ok true (ap_attrs p) key) p (optional_jid key p).2.
Proof.
  unfold optional_jid, get_raw, jid_ok. cbn.
  destruct (find_attr (ap_attrs p) key) as [v|]; [|apply adds_none].
  destruct (av_jid v); (apply adds_none || apply adds_error).
Qed.

Lemma adds_required {A} key (f : parser -> A * parser) (c d : bool) p :
  (forall q, ap_attrs q = ap_attrs p -> adds c q (f q).2) ->
  d = match find_attr (ap_attrs p) key with Some _ => c | None => false end ->
  adds d p (let '(_, q) := get_raw key true p in f q).2.
Proof.
  intros Hf ->. pose proof (adds_get_raw key true p) as Hr.
  destruct (get_raw key true p) as [v q]. cbn [snd] in *.
  pose proof (adds_trans _ _ _ _ _ Hr (Hf q (proj1 Hr))) as Ht.
  destruct (find_attr (ap_attrs p) key); [exact Ht|].
  destruct Ht as [Ha (es & He & Hb)]. split; [done|]. exists es. by rewrite Hb.
Qed.

Lemma snd_map {A B} (f : A -> B) (r : A * parser) : (let '(a, p) := r in (f a, p)).2 = r.2.
Proof. by destruct r. Qed.

Lemma adds_time key p :
  adds (text_ok (fun s => parses (parse_i64_res s)) false (ap_attrs p) key) p (unix_time key p).2.
Proof.
  unfold unix_time. eapply (adds_required key _ (text_ok (fun s => parses (parse_i64_res s)) true (ap_attrs p) key)).
  - intros q <-. rewrite snd_map. apply (adds_parsed parse_i64_res), parse_i64_returns.
  - unfold text_ok. by destruct (find_attr (ap_attrs p) key).
Qed.

Lemma adds_jid key p : adds (jid_ok false (ap_attrs p) key) p (attr_jid key p).2.
Proof.
  unfold attr_jid. eapply (adds_required key _ (jid_ok true (ap_attrs p) key)).
  - intros q <-. rewrite snd_map. apply adds_optional_jid.
  - unfold jid_ok. by destruct (find_attr (ap_attrs p) key).
Qed.

Lemma adds_bool key req p :
  adds (text_ok (fun s => match coerce_protocol_bool s with Some _ => true | None => false end)
          (negb req) (ap_attrs p) key) p (get_bool key req p).2.
Proof.
  pose proof (adds_parsed (fun s => ok_or (coerce_protocol_bool s) [])
    (fun s _ => quoted (str "bool") s key) key req p (fun s => ok_or_returns _ _)) as Ha.
  unfold get_bool. revert Ha. unfold text_ok. destruct (find_attr (ap_attrs p) key) as [v|]; [|done].
  unfold parses. by destruct (coerce_protocol_bool (av_str v)).
Qed.

Lemma adds_run_read r p : adds (read_clean (ap_attrs p) r) p (run_read r p).2.
Proof.
  destruct r; cbn [run_read read_clean on_fst snd].
  - pose proof (adds_get_raw key false p) as Hr. unfold optional_string. rewrite snd_map.
    by destruct (find_attr (ap_attrs p) key).
  - pose proof (adds_get_raw key false p) as Hr. unfold required_string, optional_string. rewrite !snd_map.
    by destruct (find_attr (ap_attrs p) key).
  - apply adds_optional_jid.
  - apply adds_jid.
  - unfold non_ad_jid. rewrite snd_map. apply adds_jid.
  - unfold optional_bool. rewrite snd_map. apply (adds_bool key false).
  - unfold attr_bool. rewrite snd_map. apply (adds_bool key true).
  - apply (adds_parsed parse_u64_res), parse_u64_returns.
  - apply (adds_parsed parse_i64_res), parse_i64_returns.
  - apply adds_time.
  - apply (adds_parsed parse_i64_res), parse_i64_returns.
  - apply adds_time.
Qed.

Lemma adds_run_reads rs p : adds (forallb (read_clean (ap_attrs p)) rs) p (run_reads rs p).2.
Proof.
  revert p. induction rs as [|r rs IH]; intros p; [apply adds_none|]. cbn [run_reads forallb].
  pose proof (adds_run_read r p) as Hr. destruct (run_read r p) as [v q]. cbn [snd] in Hr.
  rewrite snd_map. apply (adds_trans _ _ p q); [done|]. rewrite <- (proj1 Hr). apply IH.
Qed.
End Clean.

(** The two attribute parsers are one specification.  On any owned node and any sequence
    of typed reads, the parser over the node and the parser over its borrowed view return
    the same values and collect the same errors (up to the wording of a bad JID), and
    [finish] accepts exactly when every read was clean: each required attribute was there and
    each typed one had a text of its type. *)
Lemma attr_parsers_agree (n : Node) (rs : list AttrRead) :
  let '(vs, p) := run_reads rs (attr_parser n) in
  let '(ws, q) := run_reads rs (attr_parser_ref (as_node_ref n)) in
  vs = ws /\ Forall2 same_error (ap_errors p) (ap_errors q)
  /\ (finish p = Ok tt <-> forallb (read_clean (node_attrs n)) rs = true)
  /\ (finish q = Ok tt <-> forallb (read_clean (node_attrs n)) rs = true).
Proof.
  assert (Hag : agree (attr_parser n) (attr_parser_ref (as_node_ref n))).
  { split; [|constructor]. destruct n as [t a c]. unfold attr_parser_ref. cbn [ap_attrs as_node_ref ref_attrs].
    rewrite as_attrs_ref_slice. apply map_ext. by intros [k v]. }
  pose proof (adds_run_reads rs (attr_parser n)) as [_ (es & He & Hb)].
  destruct (agree_run_reads rs _ _ Hag) as [Hv Hp].
  destruct (run_reads rs (attr_parser n)) as [vs p], (run_reads rs (attr_parser_ref (as_node_ref n))) as [ws q].
  cbn [fst snd ap_attrs attr_parser] in *. split; [done|]. split; [apply Hp|].
  assert (Hfin : finish p = Ok tt <-> forallb (read_clean (node_attrs n)) rs = true).
  { rewrite <- Hb. unfold finish, attr_ok. rewrite He. by destruct es. }
  split; [done|]. rewrite <- Hfin. destruct Hp as [_ Hp]. unfold finish, attr_ok. by destruct Hp.
Qed.
