(* ===== verification/PatchStanza.v ===== *)
(** * Patch lists as stanzas

    [wacore/appstate/src/patch_decode.rs]: how the server's answer to a sync request becomes
    [PatchList]s, with the child lookups of owned nodes that it uses
    ([wacore/binary/src/node.rs]).  Protobuf is a parameter; its law is that decoding
    inverts encoding. *)

From stdpp Require Import prelude strings countable.
From S2P Require Import Prelude Jid Token Node Writer Attrs LtHash AppState AppSync.

#[local] Open Scope Z_scope.

(** ** Children of an owned node *)

Definition node_children (n : Node) : option (list Node) :=
  match node_content n with Some (NNodes ns) => Some ns | _ => None end.

Fixpoint find_node (ns : list Node) (tag : bytes) : option Node :=
  match ns with
  | [] => None
  | c :: ns' => if bytes_eqb (node_tag c) tag then Some c else find_node ns' tag
  end.

Definition node_optional_child (n : Node) (tag : bytes) : option Node :=
  ns ← node_children n; find_node ns tag.

Fixpoint node_optional_child_by_tag (n : Node) (tags : list bytes) : option Node :=
  match tags with
  | [] => Some n
  | tag :: tags' =>
      match node_children n with
      | Some cs =>
          match find_node cs tag with
          | Some found => node_optional_child_by_tag found tags'
          | None => None
          end
      | None => None
      end
  end.

(** ** Parsing *)

(** [prost]'s decoders; the error of a patch is its text. *)
Class SyncProto : Type := {
  decode_blob_ref : bytes -> option ExternalBlobReference;
  decode_patch : bytes -> SyncdPatch + bytes;
  encode_blob_ref : ExternalBlobReference -> bytes;
  encode_patch : SyncdPatch -> bytes
}.
Class SyncProtoLaws {SP : SyncProto} : Prop := {
  decode_encode_patch p : decode_patch (encode_patch p) = inl p;
  decode_encode_ref r : decode_blob_ref (encode_blob_ref r) = Some r
}.

Inductive StanzaError : Type :=
  | MissingCollection
  | MissingSync
  | MissingName
  | BadAttrs (e : BinaryError)
  | BadPatch (text : bytes).

(** [WAPatchName::from_str], which never fails. *)
Definition patch_name_from_str (s : bytes) : WAPatchName :=
  if bytes_eqb s (str "critical_block") then CriticalBlock
  else if bytes_eqb s (str "critical_unblock_low") then CriticalUnblockLow
  else if bytes_eqb s (str "regular_low") then RegularLow
  else if bytes_eqb s (str "regular_high") then RegularHigh
  else if bytes_eqb s (str "regular") then Regular
  else Unknown.

Definition parse_collection_error (collection : Node) (col_type : option bytes)
    : option CollectionSyncError :=
  t ← col_type;
  if negb (bytes_eqb t (str "error")) then None
  else
    let '(code, text) :=
      match node_optional_child collection (str "error") with
      | Some error_node =>
          let error_attrs := attr_parser error_node in
          let '(code_str, error_attrs) := optional_string (str "code") error_attrs in
          let '(text, _) := optional_string (str "text") error_attrs in
          (default 0 (parse_u16 (default (str "0") code_str)), default [] text)
      | None => (0, str "missing <error> child")
      end in
    Some (if code =? 409 then
            Conflict (optional_bool (str "has_more_patches") (attr_parser collection)).1
          else if (code =? 400) || (code =? 404) then Fatal code text
          else Retry code text).

Section Parse.
Context {SP : SyncProto}.

Fixpoint parse_patches (children : list Node) : outcome StanzaError (list SyncdPatch) :=
  match children with
  | [] => Ok []
  | child :: rest =>
      match bytes_eqb (node_tag child) (str "patch"), node_content child with
      | true, Some (NBytes raw) =>
          p ← match decode_patch raw with inl p => Ok p | inr e => Err (BadPatch e) end;
          ps ← parse_patches rest;
          Ok (p :: ps)
      | _, _ => parse_patches rest
      end
  end.

Definition parse_single_collection (collection : Node) : outcome StanzaError PatchList :=
  let ag := attr_parser collection in
  let '(name, ag) := optional_string (str "name") ag in
  name_str ← ok_or name MissingName;
  let '(has_more, ag) := optional_bool (str "has_more_patches") ag in
  let '(col_type, ag) := optional_string (str "type") ag in
  let error := parse_collection_error collection col_type in
  _ ← map_err BadAttrs (finish ag);
  let snapshot_ref :=
    match node_optional_child collection (str "snapshot") with
    | Some snapshot_node =>
        match node_content snapshot_node with
        | Some (NBytes raw) => decode_blob_ref raw
        | _ => None
        end
    | None => None
    end in
  patches ← match node_optional_child collection (str "patches") ≫= node_children with
            | Some children => parse_patches children
            | None => Ok []
            end;
  Ok (mkPatchList (patch_name_from_str name_str) has_more patches None snapshot_ref error).

Definition parse_patch_list (node : Node) : outcome StanzaError PatchList :=
  collection ← ok_or (node_optional_child_by_tag node [str "sync"; str "collection"]) MissingCollection;
  parse_single_collection collection.

Fixpoint parse_collections (children : list Node) : outcome StanzaError (list PatchList) :=
  match children with
  | [] => Ok []
  | c :: rest =>
      if bytes_eqb (node_tag c) (str "collection") then
        pl ← parse_single_collection c;
        pls ← parse_collections rest;
        Ok (pl :: pls)
      else parse_collections rest
  end.

Definition parse_patch_lists (node : Node) : outcome StanzaError (list PatchList) :=
  sync_node ← (if bytes_eqb (node_tag node) (str "sync") then Ok node
               else ok_or (node_optional_child node (str "sync")) MissingSync);
  match node_children sync_node with
  | None => Ok []
  | Some children => parse_collections children
  end.

(** The entry points over borrowed nodes copy the tree first. *)
Context {TM : TokenMaps}.
Definition parse_patch_list_ref (node : NodeRef) : outcome StanzaError PatchList :=
  parse_patch_list (to_owned node).
Definition parse_patch_lists_ref (node : NodeRef) : outcome StanzaError (list PatchList) :=
  parse_patch_lists (to_owned node).
End Parse.

(** ** The stanzas the server sends *)

(** A collection as the server writes it: its name, whether more patches follow, the
    external snapshot and the patches; or an error node. *)
Section Render.
Context {SP : SyncProto}.

Definition bool_text (b : bool) : bytes := if b then str "true" else str "false".

Definition error_code (e : CollectionSyncError) : Z :=
  match e with Conflict _ => 409 | Fatal c _ | Retry c _ => c end.
Definition error_message (e : CollectionSyncError) : bytes :=
  match e with Conflict _ => str "conflict" | Fatal _ t | Retry _ t => t end.

Definition patch_node (p : SyncdPatch) : Node := mkNode (str "patch") [] (Some (NBytes (encode_patch p))).
Definition snapshot_node (r : ExternalBlobReference) : Node :=
  mkNode (str "snapshot") [] (Some (NBytes (encode_blob_ref r))).
Definition error_node (e : CollectionSyncError) : Node :=
  mkNode (str "error") [(str "code", VString (itoa (error_code e))); (str "text", VString (error_message e))] None.

Definition collection_children (pl : PatchList) : list Node :=
  match pl_error pl with Some e => [error_node e] | None => [] end
  ++ match pl_snapshot_ref pl with Some r => [snapshot_node r] | None => [] end
  ++ [mkNode (str "patches") [] (Some (NNodes (map patch_node (pl_patches pl))))].

Definition collection_node (pl : PatchList) : Node :=
  mkNode (str "collection")
    ((str "name", VString (patch_name_as_str (pl_name pl)))
     :: match pl_error pl with Some _ => [(str "type", VString (str "error"))] | None => [] end
     ++ [(str "has_more_patches", VString (bool_text (pl_has_more_patches pl)))])
    (Some (NNodes (collection_children pl))).

Definition sync_response (pls : list PatchList) : Node :=
  mkNode (str "iq") [] (Some (NNodes [mkNode (str "sync") [] (Some (NNodes (map collection_node pls)))])).
End Render.

(** The lists such a stanza can express: nothing inlined; the code of an error is a [u16]
    of its class, and a conflict's flag is the collection's. *)
Definition expressible (pl : PatchList) : bool :=
  is_none (pl_snapshot pl)
  && match pl_error pl with
     | None => true
     | Some (Conflict has_more) => Bool.eqb has_more (pl_has_more_patches pl)
     | Some (Fatal c _) => (c =? 400) || (c =? 404)
     | Some (Retry c _) =>
         (0 <=? c) && (c <=? 65535) && negb (c =? 409) && negb ((c =? 400) || (c =? 404))
     end.

Lemma patch_name_roundtrip n : patch_name_from_str (patch_name_as_str n) = n.
Proof. by destruct n. Qed.

Section Roundtrip.
Context {SP : SyncProto} {SL : SyncProtoLaws}.

Lemma parse_patches_render ps : parse_patches (map patch_node ps) = Ok ps.
Proof.
  induction ps as [|p ps IH]; [done|]. cbn [map parse_patches]. cbn [patch_node node_tag node_content].
  rewrite decode_encode_patch. change (bytes_eqb (str "patch") (str "patch")) with true.
  cbn [map_err mbind outcome_bind]. by rewrite IH.
Qed.

(** The three attributes of a rendered collection. *)
Definition collection_attrs (name : bytes) (typ : option bytes) (more : bool) : list (bytes * NodeValue) :=
  (str "name", VString name)
  :: match typ with Some t => [(str "type", VString t)] | None => [] end
  ++ [(str "has_more_patches", VString (bool_text more))].

Lemma read_has_more name typ more es :
  optional_bool (str "has_more_patches") (mkParser (collection_attrs name typ more) es)
  = (more, mkParser (collection_attrs name typ more) es).
Proof. by destruct typ, more. Qed.

Lemma read_type name typ more es :
  optional_string (str "type") (mkParser (collection_attrs name typ more) es)
  = (typ, mkParser (collection_attrs name typ more) es).
Proof. by destruct typ. Qed.

Lemma parse_error_render attrs more e rest :
  (optional_bool (str "has_more_patches") (mkParser attrs [])).1 = more ->
  match e with
  | Conflict h => h = more
  | Fatal c _ => c = 400 \/ c = 404
  | Retry c _ => 0 <= c <= 65535 /\ c <> 409 /\ c <> 400 /\ c <> 404
  end ->
  parse_collection_error (mkNode (str "collection") attrs (Some (NNodes (error_node e :: rest))))
    (Some (str "error")) = Some e.
Proof.
  intros Hm He. unfold parse_collection_error. cbn [mbind option_bind].
  change (bytes_eqb (str "error") (str "error")) with true. cbn [negb].
  assert (Hc : 0 <= error_code e <= 65535) by (destruct e; cbn; [lia|destruct He; lia|lia]).
  change (node_optional_child _ (str "error")) with (Some (error_node e)). cbv iota.
  change (optional_string (str "code") (attr_parser (error_node e)))
    with (Some (itoa (error_code e)), attr_parser (error_node e)). cbv iota.
  change (optional_string (str "text") (attr_parser (error_node e)))
    with (Some (error_message e), attr_parser (error_node e)). cbv iota.
  cbn [default from_option id]. unfold id. rewrite parse_uint_itoa by lia. cbn [default from_option].
  unfold id. change (attr_parser (mkNode _ attrs _)) with (mkParser attrs []). rewrite Hm.
  destruct e as [h|c t|c t]; cbn [error_code error_message] in *.
  - by subst.
  - destruct He as [-> | ->]; done.
  - destruct (Z.eqb_spec c 409), (Z.eqb_spec c 400), (Z.eqb_spec c 404); cbn [orb]; try lia. done.
Qed.

Lemma find_patches pl : node_optional_child (collection_node pl) (str "patches") ≫= node_children
  = Some (map patch_node (pl_patches pl)).
Proof. destruct pl as [n m ps s r e]. by destruct e, r. Qed.

Lemma find_snapshot pl : node_optional_child (collection_node pl) (str "snapshot")
  = snapshot_node <$> pl_snapshot_ref pl.
Proof. destruct pl as [n m ps s r e]. by destruct e, r. Qed.

Lemma parse_single_render pl : expressible pl = true -> parse_single_collection (collection_node pl) = Ok pl.
Proof.
  intros He. unfold parse_single_collection.
  set (typ := match pl_error pl with Some _ => Some (str "error") | None => None end).
  assert (Hattrs : attr_parser (collection_node pl)
    = mkParser (collection_attrs (patch_name_as_str (pl_name pl)) typ (pl_has_more_patches pl)) []).
  { unfold typ, collection_node. by destruct (pl_error pl). }
  rewrite find_patches, find_snapshot, Hattrs.
  change (optional_string (str "name") (mkParser (collection_attrs ?n ?t ?m) []))
    with (Some n, mkParser (collection_attrs n t m) []). cbv iota. cbn [ok_or mbind outcome_bind].
  rewrite read_has_more, read_type, parse_patches_render. cbn [finish attr_ok ap_errors].
  change (bool_decide ([] = [])) with true. cbn [map_err mbind outcome_bind].
  rewrite patch_name_roundtrip.
  apply andb_true_iff in He as [Hs He]. destruct (pl_snapshot pl) eqn:Es; [done|].
  assert (Herr : parse_collection_error (collection_node pl) typ = pl_error pl).
  { unfold typ. destruct (pl_error pl) as [e|] eqn:Ee; [|done].
    unfold collection_node, collection_children. rewrite Ee. cbn [app].
    apply (parse_error_render _ (pl_has_more_patches pl)).
    - change ((str "name", VString (patch_name_as_str (pl_name pl))) :: _)
        with (collection_attrs (patch_name_as_str (pl_name pl)) (Some (str "error")) (pl_has_more_patches pl)).
      by rewrite read_has_more.
    - destruct e as [h|c t|c t].
      + by apply Bool.eqb_prop in He.
      + apply orb_true_iff in He as [->%Z.eqb_eq | ->%Z.eqb_eq]; auto.
      + rewrite !andb_true_iff, !negb_true_iff, orb_false_iff, !Z.eqb_neq, !Z.leb_le in He. lia. }
  rewrite Herr. destruct pl as [n m ps s r e]. cbn in *. subst s.
  destruct r as [r|]; [|done]. cbn [fmap option_fmap option_map pl_snapshot_ref node_content snapshot_node].
  by rewrite decode_encode_ref.
Qed.

Lemma parse_collections_render pls : forallb expressible pls = true ->
  parse_collections (map collection_node pls) = Ok pls.
Proof.
  induction pls as [|pl pls IH]; [done|]. cbn [forallb map parse_collections]. intros [Hp Hps]%andb_true_iff.
  change (bytes_eqb (node_tag (collection_node pl)) (str "collection")) with true. cbv iota.
  rewrite parse_single_render by done. cbn [mbind outcome_bind]. by rewrite IH.
Qed.
End Roundtrip.

(** The stanza of a sync response is parsed back.  Whatever collections the server writes
    into one response (with snapshot references, patches, error nodes and the
    [has_more_patches] flag), both entry points over the received node return exactly these
    patch lists, in order; a single one is also what the one-collection entry point finds. *)
Lemma sync_response_parsed {SP : SyncProto} {SL : SyncProtoLaws} {TM : TokenMaps}
    (pls : list PatchList) :
  forallb expressible pls = true ->
  parse_patch_lists (sync_response pls) = Ok pls
  /\ parse_patch_lists_ref (as_node_ref (sync_response pls)) = Ok pls
  /\ match pls with
     | pl :: _ => parse_patch_list_ref (as_node_ref (sync_response pls)) = Ok pl
     | [] => parse_patch_list_ref (as_node_ref (sync_response pls)) = Err MissingCollection
     end.
Proof.
  intros He. unfold parse_patch_lists_ref, parse_patch_list_ref. rewrite to_owned_as_node_ref.
  assert (Hp : parse_patch_lists (sync_response pls) = Ok pls) by (by apply parse_collections_render).
  split; [done|]. split; [done|]. destruct pls as [|pl pls]; [done|].
  apply andb_true_iff in He as [He _]. by apply parse_single_render.
Qed.

(** A codec for the messages: each is one number, from its countability. *)
#[global] Instance SyncdRecord_eq_dec : EqDecision SyncdRecord.
Proof. solve_decision. Defined.
#[global] Instance SyncdRecord_countable : Countable SyncdRecord.
Proof.
  refine (inj_countable' (fun r => (rec_index r, rec_value r, rec_key_id r))
    (fun '(i, v, k) => mkRecord i v k) _). by intros [].
Defined.
#[global] Instance SyncdMutation_eq_dec : EqDecision SyncdMutation.
Proof. solve_decision. Defined.
#[global] Instance SyncdMutation_countable : Countable SyncdMutation.
Proof.
  refine (inj_countable' (fun m => (mut_operation m, mut_record m)) (fun '(o, r) => mkMutation o r) _).
  by intros [].
Defined.
#[global] Instance BlobRef_eq_dec : EqDecision ExternalBlobReference.
Proof. solve_decision. Defined.
#[global] Instance BlobRef_countable : Countable ExternalBlobReference.
Proof.
  refine (inj_countable' (fun r => (media_key r, direct_path r, handle r,
      (file_size_bytes r, file_sha256 r, file_enc_sha256 r)))
    (fun '(m, d, h, (f, s, e)) => mkBlobRef m d h f s e) _). by intros [].
Defined.
#[global] Instance SyncdPatch_eq_dec : EqDecision SyncdPatch.
Proof. solve_decision. Defined.
#[global] Instance SyncdPatch_countable : Countable SyncdPatch.
Proof.
  refine (inj_countable' (fun p => (patch_version p, patch_mutations p, patch_external p,
      (patch_snapshot_mac p, patch_patch_mac p, patch_key_id p)))
    (fun '(v, m, e, (s, x, k)) => mkPatch v m e s x k) _). by intros [].
Defined.

Definition number_of {A} `{Countable A} (a : A) : bytes := [Z.pos (encode a)].
Definition of_number {A} `{Countable A} (b : bytes) : option A :=
  match b with [Z.pos x] => decode x | _ => None end.
Lemma of_number_of {A} `{Countable A} (a : A) : of_number (number_of a) = Some a.
Proof. apply decode_encode. Qed.

Definition toy_proto : SyncProto := {|
  decode_blob_ref := of_number;
  decode_patch b := match of_number b with Some p => inl p | None => inr (str "failed to decode") end;
  encode_blob_ref := number_of;
  encode_patch := number_of
|}.
Lemma toy_proto_laws : @SyncProtoLaws toy_proto.
Proof.
  split; [intros p|apply of_number_of]. unfold decode_patch, encode_patch, toy_proto.
  by rewrite of_number_of.
Qed.

Definition toy_stanza : list PatchList :=
  [mkPatchList Regular true [toy_p1] None (Some (mkBlobRef None (Some [1]) None None None None)) None;
   mkPatchList RegularLow false [] None None (Some (Retry 503 (str "busy")));
   mkPatchList CriticalBlock true [] None None (Some (Conflict true))].

Lemma sync_response_parsed_witness :
  parse_patch_lists_ref (SP := toy_proto) (as_node_ref (sync_response (SP := toy_proto) toy_stanza)) = Ok toy_stanza.
Proof. apply (sync_response_parsed (SP := toy_proto) (SL := toy_proto_laws) toy_stanza). reflexivity. Defined.
