(* ===== verification/SyncTyped.v ===== *)
(** * Typed collections

    The hash of a collection is a [[u8; 128]] in the code and a list of bytes here.  Every
    operation of the processor keeps it an array of 128 bytes, whatever the server sends;
    this is why the lane arithmetic never panics and processing always returns. *)

From stdpp Require Import prelude strings gmap.
From S2P Require Import Prelude LtHash AppState Dedup AppSync.

#[local] Open Scope Z_scope.

Definition hash_typed (st : HashState) : Prop := lanes_ok 64 (hash st).
Definition store_typed (p : Processor) : Prop :=
  forall name c, p_store p !! name = Some c -> hash_typed (c_state c).

(** A result that returns, with a property of its value. *)
Definition gives {E A} (V : A -> Prop) (o : outcome E A) : Prop :=
  returns o /\ forall a, o = Ok a -> V a.

Lemma gives_Ok {E A} (V : A -> Prop) (a : A) : V a -> gives (E := E) V (Ok a).
Proof. intros Hv. split; [done|]. by intros ? [= <-]. Qed.
Lemma gives_Err {E A} (V : A -> Prop) (e : E) : gives V (Err e).
Proof. by split. Qed.
Lemma gives_bind {E A B} (V : A -> Prop) (U : B -> Prop) (m : outcome E A) (f : A -> outcome E B) :
  gives V m -> (forall a, V a -> gives U (f a)) -> gives U (m ≫= f).
Proof. intros [Hr Hv] Hf. destruct m; try done. by apply Hf, Hv. Qed.
Lemma gives_map_err {E F A} (V : A -> Prop) (f : E -> F) (m : outcome E A) :
  gives V m -> gives V (map_err f m).
Proof. intros [Hr Hv]. destruct m; try done. by apply gives_Ok, Hv. Qed.
Lemma gives_ok_or {E A} (o : option A) (e : E) : gives (fun _ => True) (ok_or o e).
Proof. by destruct o. Qed.
Lemma gives_if {E A} (V : A -> Prop) (b : bool) (m n : outcome E A) :
  gives V m -> gives V n -> gives V (if b then m else n).
Proof. by destruct b. Qed.
Lemma gives_returns {E A} (V : A -> Prop) (m : outcome E A) : gives V m -> returns m.
Proof. by intros []. Qed.
Lemma gives_weaken {E A} (V U : A -> Prop) (m : outcome E A) :
  gives V m -> (forall a, V a -> U a) -> gives U m.
Proof. intros [Hr Hv] Hu. split; [done|]. intros a Ha. by apply Hu, Hv. Qed.

Create HintDb gives discriminated.
#[export] Hint Resolve gives_Ok gives_Err gives_map_err gives_ok_or gives_if : gives.

(** Follows the structure of a computation. *)
Ltac giving :=
  lazymatch goal with
  | |- gives _ (mbind _ (ok_or _ _)) => eapply gives_bind; [apply gives_ok_or|intros ? _; giving]
  | |- gives _ (mbind _ _) => eapply (gives_bind (fun _ => True)); [giving|intros ? _; giving]
  | |- gives _ (if _ then _ else _) => apply gives_if; giving
  | |- gives _ (Err _) => apply gives_Err
  | |- gives _ (Ok _) => apply gives_Ok; try done
  | |- gives _ (ok_or _ _) => eapply gives_weaken; [apply gives_ok_or|done]
  | |- gives _ (match ?x with _ => _ end) => destruct x; giving
  | |- _ => try done
  end.

(** Runs on the store keep the hash typed, whatever access fails. *)
Definition typed {A} (V : A -> Prop) (m : col A) : Prop := forall c, hash_typed (c_state c) ->
  runs m c (fun o c' => hash_typed (c_state c') /\ gives V o).

Lemma typed_ret {A} (V : A -> Prop) (a : A) : V a -> typed V (mret a).
Proof. intros Hv c Hc. apply col_runs_ret. split; [done|by apply gives_Ok]. Qed.
Lemma typed_bind {A B} (V : A -> Prop) (U : B -> Prop) (m : col A) (k : A -> col B) :
  typed V m -> (forall a, V a -> typed U (k a)) -> typed U (a ← m; k a).
Proof.
  intros Hm Hk c Hc. apply col_runs_bind. eapply col_runs_mono; [by apply Hm|].
  intros [a|e| |] c' [Hc' [Hr Hv]]; try done. by apply Hk; [apply Hv|].
Qed.
Lemma typed_lift {A} (V : A -> Prop) (o : outcome AppStateError A) : gives V o -> typed V (col_lift o).
Proof. intros Ho c Hc. apply col_runs_lift. split; [done|by apply gives_map_err]. Qed.
Lemma typed_read {A} (V : A -> Prop) (f : Collection -> A) :
  (forall c, hash_typed (c_state c) -> V (f c)) -> typed V (store_read f).
Proof. intros Hf c Hc. apply col_runs_read; [split; [done|by apply gives_Ok, Hf]|done]. Qed.
Lemma typed_rows {R} (f : list R -> Collection -> Collection) rows : (forall l c, c_state (f l c) = c_state c) ->
  typed (fun _ => True) (store_rows f rows).
Proof.
  intros Hf c Hc. apply col_runs_rows; [split; [by rewrite Hf|by apply gives_Ok]|].
  intros busy l _. split; [by rewrite Hf|apply gives_Err].
Qed.
Lemma typed_write f : (forall c, hash_typed (c_state c) -> hash_typed (c_state (f c))) ->
  typed (fun _ => True) (store_write f).
Proof.
  intros Hf c Hc. apply col_runs_write; [split; [by apply Hf|by apply gives_Ok]|done|].
  intros busy. split; [by apply Hf|apply gives_Err].
Qed.

Section Typed.
Context {H : Hkdf} {AC : AppCrypto} (big : bool).
Context (get_keys : bytes -> outcome AppStateError ExpandedAppStateKeys).
Context (Hkeys : forall id, returns (get_keys id)).

Lemma get_keys_gives id : gives (fun _ => True) (get_keys id).
Proof. by split. Qed.

Lemma decode_record_gives op rec keys kid v : gives (fun _ => True) (decode_record op rec keys kid v).
Proof. unfold decode_record, validate_index_mac. giving. Qed.

Lemma update_loop_gives (store : bytes -> option bytes) (rm : list bytes) (l : list SyncdMutation)
    (st : loop_state (gmap bytes bytes)) :
  (update_loop (patch_get_prev (fun k => Ok (store k))) rm st l).2 = Ok tt.
Proof.
  revert st. induction l as [|m l IH]; intros st; [done|]. cbn [update_loop].
  destruct (update_step _ rm st m) as [st' r] eqn:E.
  assert (Hr : r = Ok tt); [|rewrite Hr; apply IH].
  unfold update_step in E. destruct (index_mac_of m) as [k|]; [|by injection E].
  destruct (is_set m && _); [by injection E|]. unfold patch_get_prev in E.
  destruct (is_remove m); [|destruct (_ !! k)]; try destruct (store k); by injection E.
Qed.

Lemma update_hash_gives store st l : hash_typed st ->
  gives (fun r => hash_typed r.2) (update_hash big (patch_get_prev (fun k => Ok (store k))) ∅ st l).
Proof.
  intros Hh. unfold update_hash.
  pose proof (update_loop_gives store (removed_in_patch l) l (mkLoop [] [] false ∅)) as Hl.
  destruct (update_loop _ _ _ _) as [lo r]. cbn [snd] in Hl. subst r. cbn [mbind outcome_bind].
  rewrite subtract_then_add_ops by done. cbn [lift_panic map_err mbind outcome_bind].
  assert (Hok : forall b l, lanes_ok 64 (hash st) -> lanes_ok 64 (ops WAPATCH_INTEGRITY b (hash st) l))
    by (intros; by apply (ops_ok _ 64 integrity_size)).
  rewrite subtract_then_add_ops by (repeat apply (ops_ok _ 64 integrity_size); done).
  apply gives_Ok. unfold hash_typed. cbn. by repeat apply (ops_ok _ 64 integrity_size).
Qed.

Lemma detect_duplicate_gives l s r : gives (fun _ => True) (detect_duplicate_loop l s r).
Proof.
  revert s r. induction l as [|m l IH]; intros s r; cbn [detect_duplicate_loop]; [by split|].
  repeat case_match; (apply IH || by split).
Qed.

Lemma decode_mutations_gives l v : gives (fun _ => True) (decode_patch_mutations get_keys l v).
Proof.
  induction l as [|m l IH]; cbn [decode_patch_mutations]; [by split|].
  destruct (mut_record m) as [rec|]; [|done].
  eapply gives_bind; [apply gives_ok_or|intros kid _].
  eapply gives_bind; [apply get_keys_gives|intros keys _].
  eapply gives_bind; [apply decode_record_gives|intros [mt macs] _].
  eapply gives_bind; [exact IH|intros [[ms added] removed] _]. by case_match.
Qed.

Lemma process_patch_gives patch st store v name : hash_typed st ->
  gives (fun r => hash_typed (pr_state r))
    (process_patch big get_keys patch st (fun k => Ok (store k)) v name).
Proof.
  intros Hh. unfold process_patch. apply gives_if; [apply gives_Err|].
  eapply (gives_bind (fun r => hash_typed r.2)); [by apply gives_map_err, update_hash_gives|].
  intros [[mr ip] st'] Hst.
  eapply (gives_bind (fun _ => True)).
  { destruct v; [|by split]. destruct (mjoin (patch_key_id patch)) as [kid|]; [|by split].
    eapply gives_bind; [apply get_keys_gives|intros keys _]. unfold validate_patch_macs. giving. }
  intros _ _. eapply (gives_bind (fun _ => True)).
  { destruct v; [apply detect_duplicate_gives|by split]. }
  intros _ _. eapply gives_bind; [apply decode_mutations_gives|]. intros [[ms added] removed] _.
  by apply gives_Ok.
Qed.

Lemma decode_snapshot_gives l v : gives (fun _ => True) (decode_snapshot_records get_keys l v).
Proof.
  induction l as [|rec l IH]; cbn [decode_snapshot_records]; [by split|].
  eapply gives_bind; [apply gives_ok_or|intros kid _].
  eapply gives_bind; [apply get_keys_gives|intros keys _].
  eapply gives_bind; [apply decode_record_gives|intros [mt macs] _].
  eapply gives_bind; [exact IH|by intros [ms added] _].
Qed.

Lemma process_snapshot_gives s v name :
  gives (fun r => hash_typed r.1.1) (process_snapshot big get_keys s hash_state_default v name).
Proof.
  unfold process_snapshot, update_hash_from_records.
  rewrite subtract_then_add_ops by apply zero_hash_ok. cbn [lift_panic map_err mbind outcome_bind].
  eapply (gives_bind (fun _ => True)).
  { destruct v; [|by split]. destruct (snap_mac s), (mjoin (snap_key_id s)) as [kid|]; try by split.
    eapply gives_bind; [apply get_keys_gives|intros keys _]. giving. }
  intros _ _. eapply gives_bind; [apply decode_snapshot_gives|]. intros [ms mcs] _.
  apply gives_Ok. unfold hash_typed. cbn. repeat apply (ops_ok _ 64 integrity_size). apply zero_hash_ok.
Qed.

Lemma apply_snapshot_typed st s v name : hash_typed st ->
  typed (fun r => hash_typed r.1) (apply_snapshot big get_keys st s v name).
Proof.
  intros Hst. unfold apply_snapshot. case_match; [by apply typed_ret|].
  eapply typed_bind; [apply typed_lift, process_snapshot_gives|]. intros [[st' ms] mcs] Hst'.
  eapply typed_bind; [by apply typed_write|]. intros _ _.
  eapply (typed_bind (fun _ => True)); [case_match; [by apply typed_ret|by apply typed_rows]|]. intros _ _.
  eapply typed_bind; [by apply typed_write|]. intros _ _. by apply typed_ret.
Qed.

Lemma apply_patch_typed st p v name : hash_typed st ->
  typed (fun r => hash_typed r.1) (apply_patch big get_keys st p v name).
Proof.
  intros Hst. unfold apply_patch, persist_patch. cbv zeta.
  eapply (typed_bind (fun _ => True)); [by apply typed_read|]. intros db _.
  eapply typed_bind; [apply typed_lift; by apply process_patch_gives|]. intros r Hr.
  eapply (typed_bind (fun _ => True)); [|intros _ _; by apply typed_ret].
  eapply typed_bind; [by apply typed_write|]. intros _ _.
  eapply (typed_bind (fun _ => True)); [case_match; [by apply typed_ret|by apply typed_rows]|]. intros _ _.
  case_match; [by apply typed_ret|by apply typed_rows].
Qed.

Lemma apply_patches_typed st patches v name acc : hash_typed st ->
  typed (fun r => hash_typed r.1) (apply_patches big get_keys st patches v name acc).
Proof.
  revert st acc. induction patches as [|p ps IH]; intros st acc Hst; cbn [apply_patches]; [by apply typed_ret|].
  eapply typed_bind; [by apply apply_patch_typed|]. intros [st' ms] Hst'. by apply IH.
Qed.

Lemma apply_patch_list_typed snapshot patches v name :
  typed (fun r => hash_typed r.1.2) (apply_patch_list big get_keys snapshot patches v name).
Proof.
  unfold apply_patch_list. cbv zeta. eapply (typed_bind hash_typed); [by apply typed_read|]. intros st Hst.
  eapply (typed_bind (fun r => hash_typed r.1)).
  { destruct snapshot; [by apply apply_snapshot_typed|by apply typed_ret]. }
  intros [st1 ms] Hst1. destruct (_ && _); [by apply typed_ret|].
  eapply typed_bind; [by apply apply_patches_typed|]. intros [st2 ms2] Hst2.
  eapply (typed_bind (fun _ => True)); [|intros _ _; by apply typed_ret].
  destruct patches, snapshot; try (by apply typed_ret). by apply typed_write.
Qed.
End Typed.

Section Lists.
Context {H : Hkdf} {AC : AppCrypto} {KS : KeyStore} {BL : Blobs} (big : bool).

Lemma get_collection_typed p name : store_typed p -> hash_typed (c_state (get_collection p name)).
Proof.
  intros Hp. unfold get_collection. destruct (p_store p !! name) eqn:E; [by eapply Hp|].
  apply zero_hash_ok.
Qed.

Lemma store_typed_insert p cache fs name c : store_typed p -> hash_typed (c_state c) ->
  store_typed (mkProcessor cache (<[name := c]> (p_store p)) fs).
Proof.
  intros Hp Hc name' c'. cbn [p_store]. destruct (decide (name' = name)) as [->|Hne].
  - rewrite lookup_insert_eq. by intros [= <-].
  - rewrite lookup_insert_ne by done. apply Hp.
Qed.

Lemma download_returns pl : returns (download_external_blobs pl).2.
Proof.
  unfold download_external_blobs, inline_snapshot.
  assert (Hm : forall n ps, returns (inline_mutations n ps).2).
  { intros n. induction ps as [|p ps IH]; [done|]. cbn [inline_mutations]. revert IH.
    destruct (inline_mutations n ps) as [ps' r]. cbn [snd]. intros Hr.
    repeat case_match; simplify_eq; done. }
  destruct (pl_snapshot pl), (pl_snapshot_ref pl) as [ext|]; cbn [fst snd];
    [| |destruct (download ext) as [b|]; [destruct (decode_snapshot_blob b)|]|]; cbn [snd]; try done;
    match goal with |- context [inline_mutations ?n ?ps] =>
      specialize (Hm n ps); by destruct (inline_mutations n ps) end.
Qed.

(** The keys come from the cache, so a missing one is an error and nothing else. *)
Lemma process_patch_list_typed p pl v : store_typed p ->
  let '(p', r) := process_patch_list big p pl v in
  store_typed p' /\ gives (fun '(_, st, _) => hash_typed st) r.
Proof.
  intros Hp. unfold process_patch_list. cbv zeta.
  set (cache := prefetch_keys _ _). set (name := patch_name_as_str _).
  pose proof (apply_patch_list_typed big (lookup_app_state_key cache) (fun id => ok_or_returns _ _)
    (pl_snapshot pl) (pl_patches pl) v name (get_collection p name) (get_collection_typed p name Hp) (p_faults p)) as Ha.
  destruct (apply_patch_list _ _ _ _ _ _ _) as [[c fs] r]. destruct Ha as [Hc Hr].
  split; [by apply store_typed_insert|].
  eapply gives_bind; [exact Hr|]. intros [[ms st] e] Hst. by apply gives_Ok.
Qed.

Lemma process_parsed_typed p pl v : store_typed p ->
  let '(p', r) := process_parsed_patch_list big p pl v in
  store_typed p' /\ gives (fun '(_, st, _) => hash_typed st) r.
Proof.
  intros Hp. unfold process_parsed_patch_list. pose proof (download_returns pl) as Hd.
  destruct (download_external_blobs pl) as [pl' [[]|e| |]]; try done. by apply process_patch_list_typed.
Qed.

Lemma process_one_typed p pl v : store_typed p ->
  let '(p', r) := process_one big p pl v in
  store_typed p' /\ gives (fun '(_, st, _) => hash_typed st) r.
Proof.
  intros Hp. unfold process_one. pose proof (download_returns pl) as Hd.
  assert (Hs : forall name, gives hash_typed (store_read c_state (get_collection p name, p_faults p)).2).
  { intros name. apply (typed_read hash_typed c_state); [done|by apply get_collection_typed]. }
  cbv zeta beta. destruct (pl_error pl).
  { specialize (Hs (patch_name_as_str (pl_name pl))). destruct (store_read _ _) as [[c1 fs] r]. split; [done|].
    eapply gives_bind; [exact Hs|]. intros st Hst. by apply gives_Ok. }
  destruct (download_external_blobs pl) as [pl' [[]|e| |]]; try done; [by apply process_patch_list_typed|].
  specialize (Hs (patch_name_as_str (pl_name (pl_set_error pl' (Retry 0 (error_text e)))))).
  destruct (store_read _ _) as [[c1 fs] r]. split; [done|].
  eapply gives_bind; [exact Hs|]. intros st Hst. by apply gives_Ok.
Qed.

Lemma process_patch_lists_typed p pls v rs : store_typed p -> Forall (fun '(_, st, _) => hash_typed st) rs ->
  let '(p', r) := process_patch_lists big p pls v rs in
  store_typed p' /\ gives (Forall (fun '(_, st, _) => hash_typed st)) r.
Proof.
  revert p rs. induction pls as [|pl pls IH]; intros p rs Hp Hrs; cbn [process_patch_lists].
  { split; [done|]. by apply gives_Ok. }
  pose proof (process_one_typed p pl v Hp) as Ho. destruct (process_one big p pl v) as [p1 o].
  destruct Ho as [Hp1 [Hr Ho]]. destruct o as [a|e| |]; try done.
  apply IH; [done|]. apply Forall_app. split; [done|]. by repeat constructor; apply Ho.
Qed.
End Lists.

(** C30: processing is total and keeps its types.  Whatever patch lists arrive (patches out of
    order, malformed records, missing keys, broken blobs), with whatever the caches hold and whichever accesses to the
    store fail,
    [process_patch_lists] returns a value or an error, never panics, and keeps the hash of
    every stored collection and of every reported state an array of 128 bytes. *)
Theorem process_patch_lists_total {H : Hkdf} {AC : AppCrypto} {KS : KeyStore} {BL : Blobs}
    (big : bool) (p : Processor) (pls : list PatchList) (v : bool) :
  store_typed p ->
  let '(p', r) := process_patch_lists big p pls v [] in
  store_typed p' /\ returns r
  /\ forall l, r = Ok l -> Forall (fun '(_, st, _) => hash_typed st) l.
Proof.
  intros Hp. pose proof (process_patch_lists_typed big p pls v [] Hp (Forall_nil_2 _)) as Ht.
  destruct (process_patch_lists big p pls v []) as [p' r]. destruct Ht as [? [? ?]]. done.
Qed.

Lemma process_patch_lists_total_witness :
  store_typed toy_processor
  /\ returns (process_patch_lists false toy_processor
       [toy_list [toy_p1] None; toy_list [] (Some toy_snapshot); toy_list [toy_p1] None] true []).2.
Proof.
  assert (Hp : store_typed toy_processor)
    by (intros name c; cbn [p_store toy_processor]; rewrite lookup_empty; discriminate).
  split; [exact Hp|].
  pose proof (process_patch_lists_total false toy_processor
    [toy_list [toy_p1] None; toy_list [] (Some toy_snapshot); toy_list [toy_p1] None] true Hp) as Ht.
  destruct (process_patch_lists false toy_processor _ true []) as [p' r]. exact (proj1 (proj2 Ht)).
Defined.
