(* ===== verification/AppClient.v ===== *)
(** * The client's app-state tasks

    [src/client/app_state.rs]: the tasks that keep the collections up to date.  A task asks
    the server for patches, downloads the blobs they refer to, has the processor apply them,
    requests keys it lacks, hands the mutations on, and repeats while there is more.
    Everything outside (the connection, the media server, the disk, the clock, the shutdown
    flag) is the class [Host]; it may answer anything at any time. *)

From stdpp Require Import prelude strings gmap.
From S2P Require Import Prelude Jid Token Node Writer Attrs LtHash AppState Dedup AppSync AppSend PatchStanza.

#[local] Open Scope Z_scope.

#[global] Instance WAPatchName_countable : Countable WAPatchName.
Proof.
  refine (inj_countable' (fun n => match n with CriticalBlock => 0 | CriticalUnblockLow => 1 | RegularLow => 2
                                    | RegularHigh => 3 | Regular => 4 | Unknown => 5 end)%nat
    (fun k => match k with 0 => CriticalBlock | 1 => CriticalUnblockLow | 2 => RegularLow
              | 3 => RegularHigh | 4 => Regular | _ => Unknown end)%nat _).
  by intros [].
Defined.

(** ** Errors *)

(** The [anyhow::Error] of a task, as far as the callers look into it: a store error that
    says whether the database was busy, an error of the processor, a failed query, or a
    response that does not parse. *)
Inductive TaskError : Type :=
  | AnyStore (busy : bool)
  | AnySync (e : SyncError)
  | AnyIq
  | AnyStanza (e : StanzaError).

(** [e.downcast_ref::<AppStateSyncError>()] is [KeyNotFound].  An error of the processing
    itself is an [anyhow!] of its text, which is no [AppStateSyncError]. *)
Definition is_key_not_found (e : TaskError) : bool :=
  match e with AnySync (KeyNotFoundId _) => true | _ => false end.
Definition is_db_locked (e : TaskError) : bool :=
  match e with AnyStore busy | AnySync (StoreError busy) => busy | _ => false end.

(** ** The state and its surroundings *)

(** The part of [Client] the tasks use: the processor (key cache and backend), the
    collections in flight, the times of the key requests; and two traces, the mutations
    handed to [dispatch_app_state_mutation] and the queries sent. *)
Record Client {AC : AppCrypto} : Type := mkClient {
  cl_proc : Processor; cl_syncing : gset WAPatchName; cl_key_requests : gmap bytes Z;
  cl_dispatched : list (Mutation * bool); cl_queries : list Node
}.

Class Host (W : Type) : Type := {
  (** [expected_disconnect] or not [is_running] *)
  h_shutting_down : W -> bool * W;
  (** the response to the content of a query *)
  h_send_iq : Node -> W -> option NodeRef * W;
  h_download : ExternalBlobReference -> W -> option bytes * W;
  (** the next access of the client to its backend fails, and whether the database is busy *)
  h_store_fault : W -> option bool * W;
  (** the key request message is sent *)
  h_request_keys : list bytes -> W -> bool * W;
  (** seconds of the monotonic clock *)
  h_now : W -> Z;
  (** has the initial key share arrived, and waiting for it at most ten seconds *)
  h_keys_received : W -> bool * W;
  h_wait_keys : W -> W;
  (** milliseconds *)
  h_sleep : Z -> W -> W
}.

(** The protobuf decoders of the external blobs. *)
Class BlobProto : Type := {
  bp_snapshot : bytes -> option SyncdSnapshot;
  bp_mutations : bytes -> option (list SyncdMutation)
}.

Section Client.
Context {W : Type} {HW : Host W} {H : Hkdf} {AC : AppCrypto} {KS : KeyStore} {BP : BlobProto}.
Context {SP : SyncProto} {TM : TokenMaps} (big_endian : bool).

(** ** Tasks *)

Definition task (A : Type) : Type := Client * W -> outcome TaskError A * (Client * W).
#[global] Instance task_ret : MRet task := fun A a s => (Ok a, s).
#[global] Instance task_bind : MBind task := fun A B f m s =>
  match m s with
  | (Ok a, s) => f a s
  | (Err e, s) => (Err e, s)
  | (Panic, s) => (Panic, s)
  | (Timeout, s) => (Timeout, s)
  end.

Definition throw {A} (e : TaskError) : task A := fun s => (Err e, s).
Definition lift {A} (o : outcome TaskError A) : task A := fun s => (o, s).
(** A call to the outside. *)
Definition ask {A} (f : W -> A * W) : task A := fun '(c, w) => let '(a, w) := f w in (Ok a, (c, w)).
Definition gets {A} (f : Client -> A) : task A := fun '(c, w) => (Ok (f c), (c, w)).
Definition update (f : Client -> Client) : task unit := fun '(c, w) => (Ok tt, (f c, w)).
(** A call to the processor. *)
Definition call_processor {A} (f : Processor -> Processor * outcome SyncError A) : task A :=
  fun '(c, w) =>
    let '(p, r) := f (cl_proc c) in
    (map_err AnySync r,
     (mkClient AC p (cl_syncing c) (cl_key_requests c) (cl_dispatched c) (cl_queries c), w)).

Definition set_proc (p : Processor) (c : Client) : Client :=
  mkClient AC p (cl_syncing c) (cl_key_requests c) (cl_dispatched c) (cl_queries c).
Definition set_syncing (l : gset WAPatchName) (c : Client) : Client :=
  mkClient AC (cl_proc c) l (cl_key_requests c) (cl_dispatched c) (cl_queries c).
Definition set_key_requests (m : gmap bytes Z) (c : Client) : Client :=
  mkClient AC (cl_proc c) (cl_syncing c) m (cl_dispatched c) (cl_queries c).
Definition add_dispatched (l : list (Mutation * bool)) (c : Client) : Client :=
  mkClient AC (cl_proc c) (cl_syncing c) (cl_key_requests c) (cl_dispatched c ++ l) (cl_queries c).
Definition add_query (n : Node) (c : Client) : Client :=
  mkClient AC (cl_proc c) (cl_syncing c) (cl_key_requests c) (cl_dispatched c) (cl_queries c ++ [n]).

Definition is_shutting_down : task bool := ask h_shutting_down.

(** [backend.get_version] and [backend.set_version] *)
Definition store_access : task unit :=
  fault ← ask h_store_fault;
  match fault with Some busy => throw (AnyStore busy) | None => mret tt end.
Definition backend_get_version (name : WAPatchName) : task HashState :=
  _ ← store_access;
  gets (fun c => c_state (get_collection (cl_proc c) (patch_name_as_str name))).
Definition store_version (name : WAPatchName) (st : HashState) (p : Processor) : Processor :=
  let name := patch_name_as_str name in
  mkProcessor (p_cache p) (<[name := mkCollection st (c_macs (get_collection p name))]> (p_store p)) (p_faults p).
Definition backend_set_version (name : WAPatchName) (st : HashState) : task unit :=
  _ ← store_access;
  update (fun c => set_proc (store_version name st (cl_proc c)) c).

Definition send_iq (content : Node) : task NodeRef :=
  _ ← update (add_query content);
  r ← ask (h_send_iq content);
  lift (ok_or r AnyIq).

(** ** Queries *)

Definition collection_query (name : WAPatchName) (want_snapshot : bool) (v : Z) : Node :=
  let b := builder_new (str "collection") in
  let b := builder_attr b (str "name") (VString (patch_name_as_str name)) in
  let b := builder_attr b (str "return_snapshot") (VString (if want_snapshot then str "true" else str "false")) in
  let b := if want_snapshot then b else builder_attr b (str "version") (VString (itoa v)) in
  builder_build b.
Definition sync_query (collections : list Node) : Node :=
  builder_build (builder_children (builder_new (str "sync")) collections).

(** ** Blobs *)

(** The blobs of the lists, by their path; a failed download leaves no entry. *)
Definition predownload_blob (ext : option ExternalBlobReference) (pre : gmap bytes bytes)
    : task (gmap bytes bytes) :=
  match ext with
  | Some ext =>
      match direct_path ext with
      | Some path =>
          r ← ask (h_download ext);
          mret (match r with Some data => <[path := data]> pre | None => pre end)
      | None => mret pre
      end
  | None => mret pre
  end.
Fixpoint predownload_refs (exts : list (option ExternalBlobReference)) (pre : gmap bytes bytes)
    : task (gmap bytes bytes) :=
  match exts with
  | [] => mret pre
  | ext :: rest => pre ← predownload_blob ext pre; predownload_refs rest pre
  end.
Definition list_refs (pl : PatchList) : list (option ExternalBlobReference) :=
  pl_snapshot_ref pl :: map patch_external (pl_patches pl).
Definition predownload (pls : list PatchList) : task (gmap bytes bytes) :=
  predownload_refs (concat (map list_refs pls)) ∅.

(** The closure [download] over the downloaded blobs. *)
Definition predownloaded (pre : gmap bytes bytes) : Blobs := {|
  download ext := direct_path ext ≫= (pre !!.);
  decode_snapshot_blob := bp_snapshot;
  decode_mutations_blob := bp_mutations
|}.

(** ** Keys *)

(** [get_missing_key_ids]; the caller takes an error for an empty list. *)
Fixpoint missing_ids (ids : list bytes) : outcome SyncError (list bytes) :=
  match ids with
  | [] => Ok []
  | id :: rest =>
      k ← get_sync_key id;
      l ← missing_ids rest;
      Ok (match k with None => id :: l | Some _ => l end)
  end.
Definition get_missing_key_ids (pl : PatchList) : outcome SyncError (list bytes) :=
  missing_ids (collect_key_ids_from_patch_list (pl_snapshot pl) (pl_patches pl)).

(** A request is repeated after a day, and forgotten when it could not be sent.  The times
    are keyed by the id where the code has its hexadecimal text; the clock is read once. *)
Definition DAY : Z := 24 * 3600.
Fixpoint stamp_requests (now : Z) (missing : list bytes) (guard : gmap bytes Z)
    : gmap bytes Z * list bytes :=
  match missing with
  | [] => (guard, [])
  | id :: rest =>
      let should := match guard !! id with Some t => DAY <? now - t | None => true end in
      if should then
        let '(guard, l) := stamp_requests now rest (<[id := now]> guard) in (guard, id :: l)
      else stamp_requests now rest guard
  end.
Definition request_missing_keys_with_dedup (missing : list bytes) : task unit :=
  match missing with
  | [] => mret tt
  | _ =>
      now ← ask (fun w => (h_now w, w));
      guard ← gets cl_key_requests;
      let '(guard, to_request) := stamp_requests now missing guard in
      _ ← update (set_key_requests (filter (fun '(_, t) => now - t < DAY) guard));
      match to_request with
      | [] => mret tt
      | _ =>
          sent ← ask (h_request_keys to_request);
          if (sent : bool) then mret tt
          else update (fun c => set_key_requests (fold_left (fun m id => delete id m) to_request (cl_key_requests c)) c)
      end
  end.

Definition request_missing (pl : PatchList) : task unit :=
  request_missing_keys_with_dedup (match get_missing_key_ids pl with Ok l => l | _ => [] end).

Definition dispatch (ms : list Mutation) (full_sync : bool) : task unit :=
  update (add_dispatched (map (fun m => (m, full_sync)) ms)).

(** ** One collection *)

Definition MAX_PAGINATION_ITERATIONS : nat := 500.

(** One round of the loop of [process_app_state_sync_task] after the shutdown check: [None]
    when the response is dropped because of a shutdown. *)
Definition sync_page (name : WAPatchName) (full_sync want_snapshot : bool) (state : HashState)
    : task (option (HashState * bool)) :=
  resp ← send_iq (sync_query [collection_query name want_snapshot (version state)]);
  stop ← is_shutting_down;
  if (stop : bool) then mret None
  else
    pl ← lift (map_err AnyStanza (parse_patch_list_ref resp));
    pre ← predownload [pl];
    '(ms, new_state, pl) ← call_processor
      (fun p => process_parsed_patch_list (BL := predownloaded pre) big_endian p pl true);
    _ ← request_missing pl;
    _ ← dispatch ms full_sync;
    mret (Some (new_state, pl_has_more_patches pl)).

(** The [while] loop; [rounds] is what remains of [MAX_PAGINATION_ITERATIONS]. *)
Fixpoint sync_pages (rounds : nat) (name : WAPatchName) (full_sync want_snapshot : bool)
    (state : HashState) : task HashState :=
  stop ← is_shutting_down;
  if (stop : bool) then mret state
  else
    match rounds with
    | O => mret state
    | S rounds =>
        page ← sync_page name full_sync want_snapshot state;
        match page with
        | None => mret state
        | Some (state, has_more) =>
            if (has_more : bool) then sync_pages rounds name full_sync false state else mret state
        end
    end.

Definition process_app_state_sync_task (name : WAPatchName) (full_sync : bool) : task unit :=
  stop ← is_shutting_down;
  if (stop : bool) then mret tt
  else
    state ← backend_get_version name;
    let full_sync := if version state =? 0 then true else full_sync in
    state ← sync_pages MAX_PAGINATION_ITERATIONS name full_sync full_sync state;
    backend_set_version name state.

(** ** Retries *)

Definition APP_STATE_RETRY_MAX_ATTEMPTS : Z := 6.

(** [match self.f().await { Ok => …, Err(e) => … }] *)
Definition catch {A} (m : task A) (h : TaskError -> task A) : task A := fun s =>
  match m s with
  | (Err e, s) => h e s
  | other => other
  end.

(** The loop of [fetch_app_state_with_retry_inner], on fuel; [attempt] is a [u32]. *)
Fixpoint fetch_app_state_attempts (fuel : nat) (attempt : Z) (name : WAPatchName) : task unit :=
  match fuel with
  | O => lift Timeout
  | S fuel =>
      let attempt := wrap 32 (attempt + 1) in
      catch (process_app_state_sync_task name false) (fun e =>
        if is_key_not_found e && (attempt =? 1) then
          received ← ask h_keys_received;
          _ ← (if (received : bool) then mret tt else ask (fun w => (tt, h_wait_keys w)));
          fetch_app_state_attempts fuel attempt name
        else if is_db_locked e && (attempt <? APP_STATE_RETRY_MAX_ATTEMPTS) then
          _ ← ask (fun w => (tt, h_sleep (200 * attempt + 150) w));
          fetch_app_state_attempts fuel attempt name
        else throw e)
  end.
Definition fetch_app_state_with_retry_inner (name : WAPatchName) : task unit :=
  fetch_app_state_attempts 6 0 name.

(** ** The collections in flight *)

(** Run [m], then remove the names, whatever its result. *)
Definition finally_remove {A} (names : list WAPatchName) (m : task A) : task A := fun s =>
  let '(r, (c, w)) := m s in (r, (set_syncing (cl_syncing c ∖ list_to_set names) c, w)).

Definition fetch_app_state_with_retry (name : WAPatchName) : task unit :=
  syncing ← gets cl_syncing;
  if bool_decide (name ∈ syncing) then mret tt
  else
    _ ← update (fun c => set_syncing ({[ name ]} ∪ cl_syncing c) c);
    finally_remove [name] (fetch_app_state_with_retry_inner name).

(** [HashSet::insert] on each name in turn, keeping the new ones. *)
Fixpoint claim_names (names : list WAPatchName) (syncing : gset WAPatchName)
    : list WAPatchName * gset WAPatchName :=
  match names with
  | [] => ([], syncing)
  | n :: rest =>
      if bool_decide (n ∈ syncing) then claim_names rest syncing
      else let '(l, s) := claim_names rest ({[ n ]} ∪ syncing) in (n :: l, s)
  end.

(** ** Several collections *)

Definition MAX_ITERATIONS : nat := 5.

(** The collection nodes of a batch, and the names whose snapshot is wanted. *)
Fixpoint batch_queries (pending : list WAPatchName) : task (list Node * list WAPatchName) :=
  match pending with
  | [] => mret ([], [])
  | name :: rest =>
      state ← backend_get_version name;
      let want_snapshot := version state =? 0 in
      '(nodes, snaps) ← batch_queries rest;
      mret (collection_query name want_snapshot (version state) :: nodes,
            if want_snapshot then name :: snaps else snaps)
  end.

(** One result of a batch: whether the collection is fetched again. *)
Definition batch_result (was_snapshot : list WAPatchName) (r : list Mutation * HashState * PatchList)
    : task bool :=
  let '(ms, new_state, pl) := r in
  match pl_error pl with
  | Some (Conflict has_more) => mret has_more
  | Some (Fatal _ _) => mret false
  | Some (Retry _ _) => mret true
  | None =>
      _ ← request_missing pl;
      _ ← dispatch ms (bool_decide (pl_name pl ∈ was_snapshot));
      _ ← backend_set_version (pl_name pl) new_state;
      mret (pl_has_more_patches pl)
  end.
Fixpoint batch_results (was_snapshot : list WAPatchName)
    (rs : list (list Mutation * HashState * PatchList)) : task (list WAPatchName) :=
  match rs with
  | [] => mret []
  | r :: rest =>
      again ← batch_result was_snapshot r;
      l ← batch_results was_snapshot rest;
      mret (if (again : bool) then pl_name r.2 :: l else l)
  end.

Definition batch_round (pending : list WAPatchName) : task (list WAPatchName) :=
  '(nodes, was_snapshot) ← batch_queries pending;
  resp ← send_iq (sync_query nodes);
  pls ← lift (map_err AnyStanza (parse_patch_lists_ref resp));
  pre ← predownload pls;
  results ← call_processor
    (fun p => process_patch_lists (BL := predownloaded pre) big_endian p pls true []);
  batch_results was_snapshot results.

(** The [while] loop; [rounds] is what remains of [MAX_ITERATIONS]. *)
Fixpoint batch_rounds (rounds : nat) (pending : list WAPatchName) : task unit :=
  match pending, rounds with
  | [], _ | _, O => mret tt
  | _, S rounds => pending ← batch_round pending; batch_rounds rounds pending
  end.

Definition sync_collections_batched (collections : list WAPatchName) : task unit :=
  syncing ← gets cl_syncing;
  let '(pending, syncing) := claim_names collections syncing in
  _ ← update (set_syncing syncing);
  match pending with
  | [] => mret tt
  | _ => finally_remove pending (batch_rounds MAX_ITERATIONS pending)
  end.

(** ** Sending a patch *)

Definition patch_query (collection_name : bytes) (base_version : Z) (patch_bytes : bytes) : Node :=
  let b := builder_new (str "collection") in
  let b := builder_attr b (str "name") (VString collection_name) in
  let b := builder_attr b (str "version") (VString (itoa base_version)) in
  let b := builder_attr b (str "return_snapshot") (VString (str "false")) in
  let patch := builder_build (builder_bytes (builder_new (str "patch")) patch_bytes) in
  sync_query [builder_build (builder_children b [patch])].

(** The error of the second synchronisation is logged only. *)
Definition send_app_state_patch (latest_key_id : outcome SyncError (option bytes))
    (collection_name : bytes) (mutations : list SyncdMutation) : task unit :=
  '(patch, base_version) ← call_processor
    (fun p => build_patch big_endian latest_key_id p collection_name mutations);
  _ ← send_iq (patch_query collection_name base_version (encode_patch patch));
  catch (fetch_app_state_with_retry (patch_name_from_str collection_name)) (fun _ => mret tt).
End Client.
