(* ===== verification/SyncTasks.v ===== *)
(** * The app-state tasks end

    Every loop of [src/client/app_state.rs] is bounded, whatever the server answers and
    whenever the disk fails or the client shuts down.  The development counts the queries a
    task sends through a small program logic over the task monad: [keeps] says of a task that
    it returns, adds a bounded number of queries of a kind, keeps the store typed and leaves
    the collections in flight alone.  The last part has several tasks run at the same time. *)

From stdpp Require Import prelude strings gmap.
From S2P Require Import Prelude Jid Token Node Writer Attrs LtHash AppState Dedup AppSync AppSend PatchStanza SyncTyped AppClient.

#[local] Open Scope Z_scope.

Section Bounded.
Context {W : Type} {HW : Host W} {H : Hkdf} {AC : AppCrypto} {KS : KeyStore} {BP : BlobProto}.
Context {SP : SyncProto} {TM : TokenMaps} (big_endian : bool).
Abbreviation state := (Client * W)%type.

(** The kind of query a task sends. *)
Context (kind : Node -> Prop).

(** From [s0], at most [n] queries were sent, all of the kind. *)
Definition within (n : nat) (s0 s : state) : Prop :=
  store_typed (cl_proc s.1) /\ cl_syncing s.1 = cl_syncing s0.1
  /\ exists l, cl_queries s.1 = cl_queries s0.1 ++ l /\ (length l <= n)%nat /\ Forall kind l.

Definition keeps {A} (n m : nat) (V : A -> Prop) (t : task A) : Prop :=
  forall s0 s, within n s0 s -> gives V (t s).1 /\ within m s0 (t s).2.

Lemma within_weaken n m s0 s : within n s0 s -> (n <= m)%nat -> within m s0 s.
Proof. intros (Ht & Hs & l & Hl & Hn & Hk) Hle. do 2 (split; [done|]). exists l. split_and!; [done|lia|done]. Qed.

Lemma task_keeps_weaken {A} n m m' (V U : A -> Prop) t : keeps n m V t -> (m <= m')%nat ->
  (forall a, V a -> U a) -> keeps n m' U t.
Proof.
  intros Ht Hle Hu s0 s Hs. destruct (Ht s0 s Hs) as [Hg Hw]. split.
  - by eapply gives_weaken.
  - by eapply within_weaken.
Qed.

Lemma task_keeps_ret {A} n (V : A -> Prop) a : V a -> keeps n n V (mret a).
Proof. intros Hv s0 s Hs. split; [by apply gives_Ok|done]. Qed.
Lemma task_keeps_throw {A} n (V : A -> Prop) e : keeps n n V (throw e).
Proof. intros s0 s Hs. split; [apply gives_Err|done]. Qed.
Lemma task_keeps_lift {A} n (V : A -> Prop) o : gives V o -> keeps n n V (lift o).
Proof. by intros Hg s0 s Hs. Qed.
Lemma task_keeps_ask {A} n (V : A -> Prop) (f : W -> A * W) : (forall w, V (f w).1) -> keeps n n V (ask f).
Proof.
  intros Hf s0 [c w] Hs. unfold ask. specialize (Hf w). destruct (f w) as [a w'].
  split; [by apply gives_Ok|done].
Qed.

Lemma task_keeps_bind {A B} n m k (V : A -> Prop) (U : B -> Prop) t f : keeps n m V t ->
  (forall a, V a -> keeps m k U (f a)) -> (m <= k)%nat -> keeps n k U (t ≫= f).
Proof.
  intros Ht Hf Hle s0 s Hs. destruct (Ht s0 s Hs) as [[Hr Hv] Hw]. unfold mbind, task_bind.
  destruct (t s) as [[a|e| |] s']; cbn [fst snd] in *; try done.
  - by apply Hf; [apply Hv|].
  - split; [apply gives_Err|]. by eapply within_weaken.
Qed.

Lemma task_keeps_gets {A} n (V : A -> Prop) (f : Client -> A) : (forall c, store_typed (cl_proc c) -> V (f c)) ->
  keeps n n V (gets f).
Proof. intros Hf s0 [c w] Hs. split; [apply gives_Ok, Hf, Hs|done]. Qed.

Lemma task_keeps_update n f : (forall c, store_typed (cl_proc c) -> store_typed (cl_proc (f c))
    /\ cl_syncing (f c) = cl_syncing c /\ cl_queries (f c) = cl_queries c) ->
  keeps n n (fun _ => True) (update f).
Proof.
  intros Hf s0 [c w] (Ht & Hs & l & Hl & Hn & Hk). cbn [fst] in *.
  destruct (Hf c Ht) as (Ht' & Hs' & Hq). split; [by split|].
  split; [done|]. split; [cbn; congruence|]. exists l. cbn. rewrite Hq. done.
Qed.

Lemma task_keeps_processor {A} n (V : A -> Prop) f :
  (forall p, store_typed p -> let '(p', r) := f p in store_typed p' /\ gives V r) ->
  keeps n n V (call_processor f).
Proof.
  intros Hf s0 [c w] (Ht & Hs). cbn [fst] in *. specialize (Hf _ Ht). unfold call_processor.
  destruct (f (cl_proc c)) as [p r]. destruct Hf as [Hp Hr]. split; [by apply gives_map_err|].
  split; [done|]. exact Hs.
Qed.

Lemma task_keeps_send_iq n q : kind q -> keeps n (S n) (fun _ => True) (send_iq q).
Proof.
  intros Hq. eapply (task_keeps_bind n (S n) _ (fun _ => True)); [|intros _ _|done].
  - intros s0 [c w] (Ht & Hs & l & Hl & Hn & Hk). cbn [fst] in *. split; [by split|].
    split; [done|]. split; [done|]. exists (l ++ [q]). cbn. rewrite Hl, app_assoc, length_app.
    split; [done|]. split; [cbn; lia|]. apply Forall_app. by repeat constructor.
  - eapply (task_keeps_bind _ (S n) _ (fun _ => True)); [by apply task_keeps_ask| |done].
    intros r _. apply task_keeps_lift, gives_ok_or.
Qed.

(** ** The parts of a round *)

Lemma task_keeps_bool_if {A} n m (V : A -> Prop) (b : bool) t u :
  keeps n m V t -> keeps n m V u -> keeps n m V (if b then t else u).
Proof. by destruct b. Qed.

Lemma task_keeps_shutting_down n : keeps n n (fun _ => True) is_shutting_down.
Proof. by apply task_keeps_ask. Qed.

Lemma task_keeps_store_access n : keeps n n (fun _ => True) store_access.
Proof.
  eapply task_keeps_bind; [by apply (task_keeps_ask n (fun _ => True))| |done].
  intros [b|] _; [apply task_keeps_throw|by apply task_keeps_ret].
Qed.

Lemma task_keeps_get_version n name : keeps n n hash_typed (backend_get_version name).
Proof.
  eapply task_keeps_bind; [apply task_keeps_store_access| |done]. intros _ _.
  apply task_keeps_gets. intros c Hc. by apply get_collection_typed.
Qed.

Lemma task_keeps_set_version n name st : hash_typed st -> keeps n n (fun _ => True) (backend_set_version name st).
Proof.
  intros Hst. eapply task_keeps_bind; [apply task_keeps_store_access| |done]. intros _ _.
  apply task_keeps_update. intros c Hc. split; [|done]. by apply store_typed_insert.
Qed.

Lemma task_keeps_predownload n pls : keeps n n (fun _ => True) (predownload pls).
Proof.
  unfold predownload. generalize (∅ : gmap bytes bytes). induction (concat _) as [|ext l IH]; intros pre.
  { by apply task_keeps_ret. }
  eapply (task_keeps_bind n n n (fun _ => True)); [|intros; apply IH|done].
  unfold predownload_blob. destruct ext as [ext|]; [|by apply task_keeps_ret].
  destruct (direct_path ext); [|by apply task_keeps_ret].
  eapply task_keeps_bind; [by apply (task_keeps_ask n (fun _ => True))| |done]. intros r _. by apply task_keeps_ret.
Qed.

Lemma task_keeps_request_missing n pl : keeps n n (fun _ => True) (request_missing pl).
Proof.
  unfold request_missing, request_missing_keys_with_dedup. case_match; [by apply task_keeps_ret|].
  eapply task_keeps_bind; [by apply (task_keeps_ask n (fun _ => True))|intros now _|done].
  eapply task_keeps_bind; [by apply (task_keeps_gets n (fun _ => True))|intros guard _|done].
  destruct (stamp_requests now _ guard) as [guard' ids].
  eapply task_keeps_bind; [by apply task_keeps_update|intros _ _|done].
  destruct ids; [by apply task_keeps_ret|].
  eapply task_keeps_bind; [by apply (task_keeps_ask n (fun _ => True))|intros sent _|done].
  apply task_keeps_bool_if; [by apply task_keeps_ret|by apply task_keeps_update].
Qed.

Lemma task_keeps_dispatch n ms full : keeps n n (fun _ => True) (dispatch ms full).
Proof. by apply task_keeps_update. Qed.

(** The parsers return. *)
Lemma finish_returns {V} (p : AttrParser V) : returns (finish p).
Proof. unfold finish. by case_match. Qed.

Lemma parse_patches_returns : forall l, returns (parse_patches l).
Proof.
  induction l as [|n l IH]; cbn [parse_patches]; [done|].
  destruct (bytes_eqb _ _); [|done]. destruct (node_content n) as [[b|s|ns]|]; try done.
  apply bind_returns; [by destruct (decode_patch b)|]. intros p _. by apply bind_returns.
Qed.

Lemma parse_single_returns : forall n, returns (parse_single_collection n).
Proof.
  intros n. unfold parse_single_collection. destruct (optional_string _ _) as [nm ag].
  apply bind_returns; [apply ok_or_returns|]. intros name _.
  destruct (optional_bool _ ag) as [more ag1]. destruct (optional_string _ ag1) as [typ ag2].
  apply bind_returns; [apply map_err_returns, finish_returns|]. intros _ _.
  apply bind_returns; [|done]. case_match; [by apply parse_patches_returns|done].
Qed.

Lemma parse_list_returns : forall n, returns (parse_patch_list_ref n).
Proof.
  intros n. unfold parse_patch_list_ref, parse_patch_list.
  apply bind_returns; [apply ok_or_returns|]. intros c _. by apply parse_single_returns.
Qed.

Lemma parse_lists_returns : forall n, returns (parse_patch_lists_ref n).
Proof.
  intros n. unfold parse_patch_lists_ref, parse_patch_lists.
  apply bind_returns; [case_match; [done|apply ok_or_returns]|]. intros c _.
  destruct (node_children c) as [l|]; [|done].
  induction l as [|x l IH]; cbn [parse_collections]; [done|].
  destruct (bytes_eqb _ _); [|done]. apply bind_returns; [by apply parse_single_returns|].
  intros pl _. by apply bind_returns.
Qed.

(** ** One collection *)

Lemma task_keeps_sync_page n name full want st :
  (forall want v, kind (sync_query [collection_query name want v])) ->
  keeps n (S n) (fun r => match r with Some (st, _) => hash_typed st | None => True end)
    (sync_page big_endian name full want st).
Proof.
  intros Hk. eapply task_keeps_bind; [by apply task_keeps_send_iq|intros resp _|done].
  eapply task_keeps_bind; [apply task_keeps_shutting_down|intros stop _|done].
  apply task_keeps_bool_if; [by apply task_keeps_ret|].
  eapply (task_keeps_bind _ _ _ (fun _ => True)).
  { apply task_keeps_lift. split; [|done]. apply map_err_returns, parse_list_returns. }
  2: done. intros pl _. eapply task_keeps_bind; [apply task_keeps_predownload|intros pre _|done].
  eapply task_keeps_bind; [apply task_keeps_processor; intros p; apply process_parsed_typed| |done].
  intros [[ms st'] pl'] Hst. eapply task_keeps_bind; [apply task_keeps_request_missing|intros _ _|done].
  eapply task_keeps_bind; [apply task_keeps_dispatch|intros _ _|done]. by apply task_keeps_ret.
Qed.

Lemma task_keeps_sync_pages rounds n name full want st :
  (forall want v, kind (sync_query [collection_query name want v])) -> hash_typed st ->
  keeps n (n + rounds) hash_typed (sync_pages big_endian rounds name full want st).
Proof.
  intros Hk. revert n want st. induction rounds as [|rounds IH]; intros n want st Hst; cbn [sync_pages];
    (eapply (task_keeps_bind n n); [apply task_keeps_shutting_down|intros stop _|lia]);
    (apply task_keeps_bool_if; [eapply task_keeps_weaken; [by apply task_keeps_ret|lia|done]|]).
  - eapply task_keeps_weaken; [by apply task_keeps_ret|lia|done].
  - eapply (task_keeps_bind n (S n)); [by apply task_keeps_sync_page| |lia].
    intros [[st' more]|] Hv; [|eapply task_keeps_weaken; [by apply task_keeps_ret|lia|done]].
    apply task_keeps_bool_if.
    + replace (n + S rounds)%nat with (S n + rounds)%nat by lia. by apply IH.
    + eapply task_keeps_weaken; [by apply task_keeps_ret|lia|done].
Qed.

Lemma task_keeps_sync_task n name full :
  (forall want v, kind (sync_query [collection_query name want v])) ->
  keeps n (n + MAX_PAGINATION_ITERATIONS) (fun _ => True) (process_app_state_sync_task big_endian name full).
Proof.
  intros Hk. eapply (task_keeps_bind n n); [apply task_keeps_shutting_down|intros stop _|lia].
  apply task_keeps_bool_if; [eapply task_keeps_weaken; [by apply (task_keeps_ret n (fun _ => True))|lia|done]|].
  eapply (task_keeps_bind n n); [apply task_keeps_get_version|intros st Hst|lia].
  eapply task_keeps_bind; [by apply task_keeps_sync_pages| |done]. intros st' Hst'. by apply task_keeps_set_version.
Qed.

(** ** Retries *)

Lemma task_keeps_catch {A} n m k (V : A -> Prop) t h : keeps n m V t -> (forall e, keeps m k V (h e)) ->
  (m <= k)%nat -> keeps n k V (catch t h).
Proof.
  intros Ht Hh Hle s0 s Hs. destruct (Ht s0 s Hs) as [[Hr Hv] Hw]. unfold catch.
  destruct (t s) as [[a|e| |] s']; cbn [fst snd] in *; try done.
  - split; [by apply gives_Ok, Hv|]. by eapply within_weaken.
  - by apply Hh.
Qed.

(** The attempts left when [attempt] were made. *)
Lemma task_keeps_attempts fuel attempt n name :
  (forall want v, kind (sync_query [collection_query name want v])) ->
  0 <= attempt < 6 -> Z.of_nat fuel = 6 - attempt ->
  keeps n (n + 500 * fuel) (fun _ => True) (fetch_app_state_attempts big_endian fuel attempt name).
Proof.
  intros Hk. revert attempt n. induction fuel as [|fuel IH]; intros attempt n Ha Hf; [lia|].
  cbn [fetch_app_state_attempts].
  assert (Hw : wrap 32 (attempt + 1) = attempt + 1) by (unfold wrap; rewrite Z.mod_small; lia).
  eapply (task_keeps_catch n (n + 500)); [by apply task_keeps_sync_task|intros e|lia]. rewrite Hw.
  replace (n + 500 * S fuel)%nat with (n + 500 + 500 * fuel)%nat by lia.
  destruct (is_key_not_found e && (attempt + 1 =? 1)) eqn:E1.
  { apply andb_true_iff in E1 as [_ E1%Z.eqb_eq].
    eapply (task_keeps_bind _ (n + 500)); [by apply (task_keeps_ask _ (fun _ => True))|intros rc _|lia].
    eapply (task_keeps_bind _ (n + 500) _ (fun _ => True)); [|intros _ _; apply IH; lia|lia].
    apply task_keeps_bool_if; [by apply task_keeps_ret|by apply task_keeps_ask]. }
  destruct (is_db_locked e && (attempt + 1 <? APP_STATE_RETRY_MAX_ATTEMPTS)) eqn:E2.
  { apply andb_true_iff in E2 as [_ E2%Z.ltb_lt]. unfold APP_STATE_RETRY_MAX_ATTEMPTS in E2.
    eapply (task_keeps_bind _ (n + 500) _ (fun _ => True)); [by apply task_keeps_ask|intros _ _; apply IH; lia|lia]. }
  eapply task_keeps_weaken; [apply (task_keeps_throw _ (fun _ => True))|lia|done].
Qed.

(** ** Batches *)

Lemma task_keeps_batch_queries n pending : keeps n n (fun _ => True) (batch_queries pending).
Proof.
  induction pending as [|name rest IH]; cbn [batch_queries]; [by apply task_keeps_ret|].
  eapply task_keeps_bind; [apply task_keeps_get_version|intros st _|done].
  eapply task_keeps_bind; [apply IH|intros [nodes snaps] _|done]. by apply task_keeps_ret.
Qed.

Lemma task_keeps_batch_result n snaps r : hash_typed r.1.2 -> keeps n n (fun _ => True) (batch_result snaps r).
Proof.
  destruct r as [[ms st] pl]. cbn [fst snd]. intros Hst. unfold batch_result.
  destruct (pl_error pl) as [[]|]; [by apply task_keeps_ret..|].
  eapply task_keeps_bind; [apply task_keeps_request_missing|intros _ _|done].
  eapply task_keeps_bind; [apply task_keeps_dispatch|intros _ _|done].
  eapply task_keeps_bind; [by apply task_keeps_set_version|intros _ _|done]. by apply task_keeps_ret.
Qed.

Lemma task_keeps_batch_results n snaps rs : Forall (fun '(_, st, _) => hash_typed st) rs ->
  keeps n n (fun _ => True) (batch_results snaps rs).
Proof.
  induction 1 as [|[[ms st] pl] rs Hst Hrs IH]; cbn [batch_results]; [by apply task_keeps_ret|].
  eapply task_keeps_bind; [by apply task_keeps_batch_result|intros again _|done].
  eapply task_keeps_bind; [apply IH|intros l _|done]. by apply task_keeps_ret.
Qed.

Lemma task_keeps_batch_round n pending : (forall l, kind (sync_query l)) ->
  keeps n (S n) (fun _ => True) (batch_round big_endian pending).
Proof.
  intros Hk. eapply task_keeps_bind; [apply task_keeps_batch_queries|intros [nodes snaps] _|lia].
  eapply task_keeps_bind; [by apply task_keeps_send_iq|intros resp _|done].
  eapply (task_keeps_bind _ _ _ (fun _ => True)).
  { apply task_keeps_lift. split; [|done]. apply map_err_returns, parse_lists_returns. }
  2: done. intros pls _. eapply task_keeps_bind; [apply task_keeps_predownload|intros pre _|done].
  eapply task_keeps_bind; [|intros rs Hrs; by apply task_keeps_batch_results|done].
  apply task_keeps_processor. intros p Hp. by apply process_patch_lists_typed.
Qed.

Lemma task_keeps_batch_rounds rounds n pending : (forall l, kind (sync_query l)) ->
  keeps n (n + rounds) (fun _ => True) (batch_rounds big_endian rounds pending).
Proof.
  intros Hk. revert n pending. induction rounds as [|rounds IH]; intros n [|name rest]; cbn [batch_rounds];
    try (eapply task_keeps_weaken; [by apply (task_keeps_ret n (fun _ => True))|lia|done]).
  eapply (task_keeps_bind n (S n)); [by apply task_keeps_batch_round|intros l _|lia].
  replace (n + S rounds)%nat with (S n + rounds)%nat by lia. apply IH.
Qed.
End Bounded.

(** ** The collections in flight *)

Lemma claim_names_spec names s :
  let '(l, s') := claim_names names s in
  s' = s ∪ list_to_set l /\ (forall n, n ∈ l -> n ∉ s) /\ NoDup l /\ forall n, n ∈ l -> n ∈ names.
Proof.
  revert s. induction names as [|n names IH]; intros s; cbn [claim_names].
  { split_and!; [set_solver|set_solver|constructor|set_solver]. }
  destruct (bool_decide_reflect (n ∈ s)) as [Hin|Hni].
  - specialize (IH s). destruct (claim_names names s) as [l s']. destruct IH as (-> & H1 & H2 & H3).
    split_and!; [done..|set_solver].
  - specialize (IH ({[ n ]} ∪ s)). destruct (claim_names names ({[ n ]} ∪ s)) as [l s'].
    destruct IH as (-> & H1 & H2 & H3). split_and!; [set_solver|set_solver| |set_solver].
    apply NoDup_cons. split; [|done]. intros Hn%H1. set_solver.
Qed.

(** ** Properties *)

Section Total.
Context {W : Type} {HW : Host W} {H : Hkdf} {AC : AppCrypto} {KS : KeyStore} {BP : BlobProto}.
Context {SP : SyncProto} {TM : TokenMaps} (big_endian : bool).

(** The result of a task: it returned, sent at most [n] queries of the kind, and left the
    collections in flight as they were and the store typed. *)
Definition ended {A} (kind : Node -> Prop) (n : nat) (s : Client * W) (r : outcome TaskError A * (Client * W))
    : Prop :=
  returns r.1 /\ store_typed (cl_proc r.2.1) /\ cl_syncing r.2.1 = cl_syncing s.1
  /\ exists l, cl_queries r.2.1 = cl_queries s.1 ++ l /\ (length l <= n)%nat /\ Forall kind l.

Lemma within_start kind (s : Client * W) : store_typed (cl_proc s.1) -> within kind 0 s s.
Proof. intros Hs. split; [done|]. split; [done|]. exists []. by rewrite app_nil_r. Qed.

(** Names that are new to the set are there while the task runs and gone afterwards. *)
Lemma ended_finally {A} kind n names (c : Client) (w : W) (t : task A) :
  (forall x, x ∈ names -> x ∉ cl_syncing c) -> store_typed (cl_proc c) ->
  keeps kind 0 n (fun _ => True) t ->
  ended kind n (c, w)
    (finally_remove names t (set_syncing (cl_syncing c ∪ list_to_set names) c, w)).
Proof.
  intros Hn Hc Ht. unfold finally_remove.
  set (s := (set_syncing (cl_syncing c ∪ list_to_set names) c, w)).
  destruct (Ht s s (within_start kind s Hc)) as [[Hr _] (Htp & Hs & l & Hl)].
  destruct (t s) as [r [c' w']]. cbn [fst snd] in *. split; [done|]. split; [done|]. split.
  - cbn. rewrite Hs. cbn. set_solver.
  - by exists l.
Qed.

Lemma ended_nothing {A} kind n (s : Client * W) (r : outcome TaskError A) :
  returns r -> store_typed (cl_proc s.1) -> ended kind n s (r, s).
Proof. intros Hr Hs. do 3 (split; [done|]). exists []. rewrite app_nil_r. split_and!; [done|cbn; lia|done]. Qed.

(** A query for one collection. *)
Definition asks_for (name : WAPatchName) (q : Node) : Prop :=
  exists want v, q = sync_query [collection_query name want v].

Lemma fetch_ended (c : Client) (w : W) (name : WAPatchName) : store_typed (cl_proc c) ->
  ended (asks_for name) 3000 (c, w) (fetch_app_state_with_retry big_endian name (c, w)).
Proof.
  intros Hc. unfold fetch_app_state_with_retry, mbind, task_bind, gets. case_bool_decide as Hin.
  { by apply ended_nothing. }
  cbn [update]. replace ({[name]} ∪ cl_syncing c) with (cl_syncing c ∪ list_to_set [name]) by set_solver.
  apply ended_finally; [set_solver|done|].
  apply (task_keeps_attempts big_endian (asks_for name) 6 0 0 name); [|lia|lia].
  intros want v. by exists want, v.
Qed.

Lemma batched_ended (c : Client) (w : W) (names : list WAPatchName) : store_typed (cl_proc c) ->
  ended (fun q => exists l, q = sync_query l) 5 (c, w) (sync_collections_batched big_endian names (c, w)).
Proof.
  intros Hc. unfold sync_collections_batched, mbind, task_bind, gets.
  pose proof (claim_names_spec names (cl_syncing c)) as Hcl.
  destruct (claim_names names (cl_syncing c)) as [pending syncing]. destruct Hcl as (-> & Hnew & _ & _).
  cbn [update]. destruct pending as [|x pending].
  { cbn [mret task_ret]. split; [done|]. split; [done|]. split; [cbn; set_solver|].
    exists []. rewrite app_nil_r. split_and!; [done|cbn; lia|done]. }
  apply ended_finally; [done|done|]. apply (task_keeps_batch_rounds big_endian _ 5 0).
  intros l. by exists l.
Qed.

(** C28: the synchronisation tasks end.  Whatever the server answers, however often the disk
    is busy, whenever keys arrive or the client shuts down: [fetch_app_state_with_retry]
    returns after at most six attempts of 500 queries, each of them for its collection;
    [sync_collections_batched] returns after at most five queries; and both leave the set
    of collections in flight as they found it, also when they fail. *)
Theorem app_state_tasks_end (c : Client) (w : W) (name : WAPatchName) (names : list WAPatchName) :
  store_typed (cl_proc c) ->
  ended (asks_for name) 3000 (c, w) (fetch_app_state_with_retry big_endian name (c, w))
  /\ ended (fun q => exists l, q = sync_query l) 5 (c, w) (sync_collections_batched big_endian names (c, w)).
Proof. intros Hc. split; [by apply fetch_ended|by apply batched_ended]. Qed.
End Total.

(** A server that always announces more, and never advances. *)
Definition endless_list : PatchList := mkPatchList Regular true [] None None None.
#[global] Instance endless_host : Host unit := {|
  h_shutting_down w := (false, w);
  h_send_iq _ w := (Some (as_node_ref (sync_response (SP := toy_proto) [endless_list])), w);
  h_download _ w := (None, w);
  h_store_fault w := (None, w);
  h_request_keys _ w := (true, w);
  h_now _ := 0;
  h_keys_received w := (true, w);
  h_wait_keys w := w;
  h_sleep _ w := w
|}.
Definition toy_blob_proto : BlobProto := {| bp_snapshot _ := None; bp_mutations _ := None |}.
Definition toy_client : Client := mkClient toy_app_crypto toy_processor ∅ ∅ [] [].

Lemma app_state_tasks_end_witness :
  ended (asks_for Regular) 3000 (toy_client, tt)
    (fetch_app_state_with_retry (BP := toy_blob_proto) (SP := toy_proto) false Regular (toy_client, tt)).
Proof.
  assert (Hc : store_typed (cl_proc toy_client)).
  { intros name c. cbn [cl_proc toy_client p_store toy_processor]. rewrite lookup_empty. discriminate. }
  exact (proj1 (app_state_tasks_end (BP := toy_blob_proto) (SP := toy_proto) false toy_client tt Regular [] Hc)).
Defined.

Example endless_server_capped :
  length (cl_queries (fetch_app_state_with_retry (BP := toy_blob_proto) (SP := toy_proto) false Regular
    (toy_client, tt)).2.1) = 500%nat.
Proof. vm_compute. reflexivity. Qed.

(** ** Collections in flight

    The set [app_state_syncing] keeps two tasks from synchronising one collection at the same
    time.  The tasks are steps of a shared state here: each claims its names under the lock,
    runs, and removes them; the cleanup of a lost connection ([cleanup_connection_state] of
    [src/client/lifecycle.rs]) replaces the set by an empty one. *)

(** The set, and the names of each running task. *)
Record Flight : Type := mkFlight { fl_syncing : gset WAPatchName; fl_running : list (list WAPatchName) }.
Definition flight_new : Flight := mkFlight ∅ [].

(** [fetch_app_state_with_retry] claims one name, [sync_collections_batched] several; both
    skip what is in flight, and a task without a name does not run. *)
Definition start_task (names : list WAPatchName) (f : Flight) : Flight :=
  let '(pending, syncing) := claim_names names (fl_syncing f) in
  match pending with
  | [] => f
  | _ => mkFlight syncing (fl_running f ++ [pending])
  end.
(** The task at a position ends, whatever its result. *)
Definition end_task (i : nat) (f : Flight) : Flight :=
  match fl_running f !! i with
  | Some names => mkFlight (fl_syncing f ∖ list_to_set names) (delete i (fl_running f))
  | None => f
  end.
Definition cleanup_flight (f : Flight) : Flight := mkFlight ∅ (fl_running f).

Inductive flight_step : bool -> Flight -> Flight -> Prop :=
  | fs_start names f : flight_step false f (start_task names f)
  | fs_end i f : flight_step false f (end_task i f)
  | fs_cleanup f : flight_step true f (cleanup_flight f).

(** Steps of one connection, and of several. *)
Inductive flights (reconnects : bool) : Flight -> Flight -> Prop :=
  | flights_nil f : flights reconnects f f
  | flights_snoc f g h b : flights reconnects f g -> (b = true -> reconnects = true) -> flight_step b g h ->
      flights reconnects f h.

(** No name is claimed twice, and the set is what the tasks hold. *)
Definition exclusive (f : Flight) : Prop :=
  NoDup (concat (fl_running f)) /\ fl_syncing f = list_to_set (concat (fl_running f)).

Lemma start_exclusive names f : exclusive f -> exclusive (start_task names f).
Proof.
  intros [Hn Hs]. unfold start_task. pose proof (claim_names_spec names (fl_syncing f)) as Hc.
  destruct (claim_names names (fl_syncing f)) as [pending syncing]. destruct Hc as (-> & Hnew & Hnd & _).
  destruct pending as [|x l] eqn:E; [by split|]. rewrite <- E in *. split; cbn [fl_running fl_syncing].
  - rewrite concat_app. cbn [concat]. rewrite app_nil_r. apply NoDup_app. split; [done|]. split; [|done].
    intros y Hy Hp. apply (Hnew y Hp). rewrite Hs. by apply elem_of_list_to_set.
  - rewrite concat_app. cbn [concat]. rewrite app_nil_r, list_to_set_app_L. congruence.
Qed.

Lemma end_exclusive i f : exclusive f -> exclusive (end_task i f).
Proof.
  intros [Hn Hs]. unfold end_task. destruct (fl_running f !! i) as [names|] eqn:E; [|done].
  assert (Hp : concat (fl_running f) ≡ₚ names ++ concat (delete i (fl_running f))).
  { rewrite (delete_Permutation _ _ _ E) at 1. done. }
  split; cbn [fl_running fl_syncing].
  - rewrite Hp in Hn. by apply NoDup_app in Hn as (_ & _ & Hn).
  - rewrite Hs. apply leibniz_equiv. rewrite Hp in Hn. apply NoDup_app in Hn as (_ & Hd & _).
    intros y. rewrite elem_of_difference, !elem_of_list_to_set, Hp, elem_of_app.
    split; [naive_solver|]. intros Hy. split; [by right|]. intros Hin. by apply (Hd y).
Qed.

(** Within one connection no collection is synchronised by two tasks, and an idle client has
    no name in flight. *)
Lemma flights_exclusive f : flights false flight_new f -> exclusive f.
Proof.
  remember flight_new as g0 eqn:E. induction 1 as [f|f g h b Hf IH Hb Hs]; subst.
  { split; [constructor|done]. }
  specialize (IH eq_refl). destruct Hs; [by apply start_exclusive|by apply end_exclusive|].
  by specialize (Hb eq_refl).
Qed.

Lemma flights_idle f : flights false flight_new f -> fl_running f = [] -> fl_syncing f = ∅.
Proof. intros Hf Hr. destruct (flights_exclusive f Hf) as [_ Hs]. by rewrite Hs, Hr. Qed.

(** Across a reconnection the guarantee is lost: a task that outlives the cleanup runs beside
    a new one for the same collection, and when it ends it takes the new one's mark away. *)
Lemma cleanup_breaks_exclusion :
  flights true flight_new (mkFlight {[ Regular ]} [[Regular]; [Regular]])
  /\ flights true flight_new (mkFlight ∅ [[Regular]]).
Proof.
  assert (H2 : flights true flight_new (mkFlight {[ Regular ]} [[Regular]; [Regular]])).
  { apply (flights_snoc true _ (mkFlight ∅ [[Regular]]) _ false); [|done|].
    - apply (flights_snoc true _ (mkFlight {[ Regular ]} [[Regular]]) _ true); [|done|apply fs_cleanup].
      apply (flights_snoc true _ flight_new _ false); [constructor|done|].
      exact (fs_start [Regular] flight_new).
    - exact (fs_start [Regular] (mkFlight ∅ [[Regular]])). }
  split; [exact H2|]. apply (flights_snoc true _ _ _ false H2); [done|].
  exact (fs_end 0 (mkFlight {[ Regular ]} [[Regular]; [Regular]])).
Qed.
