(* ===== verification/SyncConverge.v ===== *)
(** * Devices converge

    Composition of the outbound and the inbound side of the app state.  One device turns its
    mutations into patches ([build_patch]), the server numbers and keeps them, and another
    device runs [fetch_app_state_with_retry] against a server that hands the patches out
    page by page: it ends in the first device's collection, with every mutation
    dispatched once, in order. *)

From stdpp Require Import prelude strings gmap.
From S2P Require Import Prelude Jid Token Node Writer Attrs LtHash AppState Dedup AppSync AppSend PatchStanza SyncTyped AppClient.

#[local] Open Scope Z_scope.

(** ** Only the keys a patch names matter *)

Section Keys.
Context {H : Hkdf} {AC : AppCrypto} (big : bool).
Context (gk1 gk2 : bytes -> outcome AppStateError ExpandedAppStateKeys).

Lemma decode_mutations_keys (l : list SyncdMutation) v :
  (forall id, Some id ∈ omap (fun m => r ← mut_record m; Some (mjoin (rec_key_id r))) l -> gk1 id = gk2 id) ->
  decode_patch_mutations gk1 l v = decode_patch_mutations gk2 l v.
Proof.
  induction l as [|m l IH]; intros Hk; [done|]. cbn [decode_patch_mutations].
  destruct (mut_record m) as [rec|] eqn:E.
  - rewrite IH.
    + destruct (mjoin (rec_key_id rec)) as [id|] eqn:Ei; [|done]. cbn [ok_or mbind outcome_bind].
      rewrite Hk; [done|]. cbn [omap list_omap]. rewrite E. cbn [mbind option_bind]. rewrite Ei. by left.
    + intros id Hid. apply Hk. cbn [omap list_omap]. rewrite E. cbn [mbind option_bind]. by right.
  - apply IH. intros id Hid. apply Hk. cbn [omap list_omap]. by rewrite E.
Qed.

Lemma process_patch_keys p st prev v name : (forall id, Some id ∈ patch_key_ids p -> gk1 id = gk2 id) ->
  process_patch big gk1 p st prev v name = process_patch big gk2 p st prev v name.
Proof.
  intros Hk. unfold process_patch. rewrite (decode_mutations_keys (patch_mutations p) v).
  - destruct (mjoin (patch_key_id p)) as [id|] eqn:E; [|done]. rewrite (Hk id); [done|].
    unfold patch_key_ids. rewrite E. by left.
  - intros id Hid. apply Hk. unfold patch_key_ids. by right.
Qed.

Lemma calm_patch_keys p c v name : (forall id, Some id ∈ patch_key_ids p -> gk1 id = gk2 id) ->
  calm_patch big gk1 c p v name = calm_patch big gk2 c p v name.
Proof. intros Hk. unfold calm_patch. by rewrite (process_patch_keys p). Qed.
End Keys.

(** ** Replaying a log *)

(** A patch takes a collection to another one, in a store that works. *)
Definition applies {H : Hkdf} {AC : AppCrypto} big gk name (c : Collection) (p : SyncdPatch) (c' : Collection)
    (ms : list Mutation) : Prop :=
  apply_patch big gk (c_state c) p true name (c, []) = ((c', []), Ok (c_state c', ms)).
Lemma applies_calm {H : Hkdf} {AC : AppCrypto} big gk name c p c' ms :
  applies big gk name c p c' ms <-> calm_patch big gk c p true name = Ok (c', ms).
Proof. apply calm_patch_ok. Qed.

(** A processor whose cached keys are those of the backend, and whose accesses to the store
    will not fail. *)
Definition ready {H : Hkdf} {KS : KeyStore} (p : Processor) : Prop := cache_sound (p_cache p) /\ p_faults p = [].

Section Replay.
Context {H : Hkdf} {AC : AppCrypto} (big : bool).
Context (gk : bytes -> outcome AppStateError ExpandedAppStateKeys) (name : bytes).

(** The patches apply one after the other, each with the next version. *)
Inductive replays : Collection -> list SyncdPatch -> Collection -> list Mutation -> Prop :=
  | replays_nil c : replays c [] c []
  | replays_cons c p c1 ms1 ps c2 ms2 :
      patch_version p = Some (Some (version (c_state c) + 1)) -> patch_external p = None ->
      version (c_state c1) = version (c_state c) + 1 ->
      applies big gk name c p c1 ms1 ->
      replays c1 ps c2 ms2 -> replays c (p :: ps) c2 (ms1 ++ ms2).

Lemma replays_version c ps c' ms : replays c ps c' ms -> version (c_state c') = version (c_state c) + zlen ps.
Proof. induction 1; unfold zlen in *; cbn [length]; lia. Qed.

Lemma replays_external c ps c' ms : replays c ps c' ms -> Forall (fun p => patch_external p = None) ps.
Proof. induction 1; by constructor. Qed.

Lemma replays_split n c ps c' ms : replays c ps c' ms ->
  exists c1 ms1 ms2, replays c (take n ps) c1 ms1 /\ replays c1 (drop n ps) c' ms2 /\ ms = ms1 ++ ms2.
Proof.
  revert c ms ps. induction n as [|n IH]; intros c ms ps Hr.
  { exists c, [], ms. split; [constructor|]. by rewrite drop_0. }
  destruct Hr as [c|c p c1 ms1 ps c2 ms2 Hv He Hv1 Ha Hr].
  { exists c, [], []. split; [constructor|]. split; [constructor|done]. }
  destruct (IH c1 ms2 ps Hr) as (d & n1 & n2 & Ht & Hd & ->).
  exists d, (ms1 ++ n1), n2. split; [by econstructor|]. by rewrite app_assoc.
Qed.

Lemma replays_apply c ps c' ms acc : replays c ps c' ms ->
  calm (apply_patches big gk (c_state c) ps true name acc) c c' (Ok (c_state c', acc ++ ms)).
Proof.
  intros Hr. revert acc. induction Hr as [c|c p c1 ms1 ps c2 ms2 Hv He Hv1 Ha Hr IH]; intros acc;
    cbn [apply_patches]; [by rewrite app_nil_r|]. eapply calm_bind; [exact Ha|]. cbv beta iota.
  rewrite app_assoc. apply IH.
Qed.

(** A list that continues the log is applied as it is. *)
Lemma replays_list c ps c' ms : 0 <= version (c_state c) -> replays c ps c' ms ->
  calm (apply_patch_list big gk None ps true name) c c' (Ok (ms, c_state c', None)).
Proof.
  intros Hv Hr. unfold apply_patch_list. eapply calm_bind; [reflexivity|]. eapply calm_bind; [reflexivity|]. cbv zeta beta iota.
  assert (Hguard : (version (c_state c) =? 0) && bytes_eqb (hash (c_state c)) (replicate 128 0)
    && negb (bool_decide (ps = []))
    && negb (match ps with p :: _ => default 0 (mjoin (patch_version p)) | [] => 0 end =? 1) = false).
  { destruct (Z.eqb_spec (version (c_state c)) 0) as [E|]; [|done].
    destruct Hr as [|c p c1 ms1 ps c2 ms2 Hp]; [by rewrite andb_false_r|].
    rewrite Hp, E. cbn. by rewrite andb_false_r. }
  rewrite Hguard. eapply calm_bind; [by apply (replays_apply c ps c' ms [])|]. cbv beta iota.
  eapply calm_bind; [by destruct ps|]. done.
Qed.
End Replay.

Lemma replays_keys {H : Hkdf} {AC : AppCrypto} big gk1 gk2 name c ps c' ms :
  (forall p id, p ∈ ps -> Some id ∈ patch_key_ids p -> gk1 id = gk2 id) ->
  replays big gk1 name c ps c' ms -> replays big gk2 name c ps c' ms.
Proof.
  intros Hk Hr. induction Hr as [c|c p c1 ms1 ps c2 ms2 Hv He Hv1 Ha Hr IH]; [constructor|].
  econstructor; [done..| |apply IH; intros q id Hq; apply Hk; by right].
  apply applies_calm. rewrite <- (calm_patch_keys big gk1); [by apply applies_calm|].
  intros id. apply Hk. by left.
Qed.

(** ** The device that pushes *)

Section Push.
Context {H : Hkdf} {AC : AppCrypto} {AE : AppEncrypt} {AL : AppEncryptLaws} {KS : KeyStore} {KL : KeyStoreLaws}.
Context (big : bool) (name : bytes) (key_id : bytes) (keys : ExpandedAppStateKeys).

(** What a client may push: mutations sealed under the current key, no index twice. *)
Definition pushable (l : list SyncdMutation) : Prop :=
  Forall (sealed_mutation keys key_id) l /\ NoDup (set_keys l) /\ NoDup (remove_keys l) /\ zlen l <= 2 ^ 32.

(** A device pushes batches: it builds a patch from its collection, the server stores it
    under the next version, and the device applies it when it syncs afterwards. *)
Inductive pushes : Collection -> list (list SyncdMutation) -> list SyncdPatch -> Collection -> Prop :=
  | pushes_nil c : pushes c [] [] c
  | pushes_cons p p' l patch c1 ms ls log c2 :
      cache_sound (p_cache p) ->
      pushable l ->
      build_patch big (Ok (Some key_id)) p name l = (p', Ok (patch, version (c_state (get_collection p name)))) ->
      applies big backend_key name (get_collection p name)
        (stamp patch (version (c_state (get_collection p name)) + 1)) c1 ms ->
      pushes c1 ls log c2 ->
      pushes (get_collection p name) (l :: ls)
        (stamp patch (version (c_state (get_collection p name)) + 1) :: log) c2.

Context (Hkey : backend_key key_id = Ok keys) (Hlen : zlen (k_value_encryption keys) = 32).

Lemma known_keys_sound p : cache_sound (p_cache p) -> known_keys p key_id keys.
Proof.
  intros Hc. unfold known_keys, get_app_state_key. destruct (p_cache p !! b64 key_id) as [k|] eqn:E.
  { apply Hc in E. cbn [snd]. congruence. }
  unfold backend_key in Hkey. destruct (get_sync_key key_id) as [[d|]| | |]; try done.
  by injection Hkey as <-.
Qed.

(** The log of the pushes replays, and every key it names is the one key. *)
Lemma pushes_replay c ls log c' : pushes c ls log c' -> consistent c -> 0 <= version (c_state c) ->
  version (c_state c) + zlen ls <= U64_MAX ->
  consistent c' /\ (exists ms, replays big backend_key name c log c' ms)
  /\ forall p id, p ∈ log -> Some id ∈ patch_key_ids p -> id = key_id.
Proof.
  induction 1 as [c|p p' l patch c1 ms ls log c2 Hcs (Hs & Hns & Hnr & Hl) Hb Ha Hp IH]; intros Hc H0 Hv.
  { split; [done|]. split; [eexists; constructor|]. by intros p id ?%not_elem_of_nil. }
  unfold zlen in Hv. cbn [length] in Hv.
  destruct (build_patch_spec big backend_key p name key_id keys l) as
    [(_ & p2 & busy & Hb2)|(patch2 & c2' & ms2 & Hb2 & Ha2 & Hc2 & Hv2 & Hm & He & Hk)];
    [done|lia|by apply known_keys_sound|done..|congruence|].
  rewrite Hb in Hb2. injection Hb2 as _ <-. pose proof (proj1 (applies_calm _ _ _ _ _ _ _) Ha) as Ha1.
  rewrite Ha1 in Ha2. injection Ha2 as <- <-.
  destruct IH as (Hc' & [ms3 Hr] & Hids); [done|lia|unfold zlen; lia|].
  split; [done|]. split.
  - exists (ms ++ ms3). by econstructor.
  - intros q id [->|Hq]%elem_of_cons; [|by apply Hids].
    unfold patch_key_ids, stamp. cbn [patch_key_id patch_mutations]. rewrite Hk, Hm.
    intros [[= ->]|Hin]%elem_of_cons; [done|]. apply list_elem_of_omap in Hin as (m & Hml & Hmr).
    rewrite Forall_forall in Hs. destruct (sealed_mutation_inv _ _ _ Hlen (Hs m Hml))
      as (_ & _ & rec & mt & macs & Hrec & Hi & _).
    rewrite Hrec in Hmr. cbn in Hmr. congruence.
Qed.
End Push.

(** ** The server *)

Section Server.
Context {W : Type} {HW : Host W} {SP : SyncProto}.
Context (name : WAPatchName) (page : nat) (base : Z) (log : list SyncdPatch).

(** The answer to a query at a version: the next patches, at most a page of them, and
    whether there are more. *)
Definition page_after (v : Z) : PatchList :=
  let rest := drop (Z.to_nat (v - base)) log in
  mkPatchList name (Nat.ltb page (length rest)) (take page rest) None None None.

(** The surroundings of a successful run: in every state [good], the client is not shutting
    down, the disk works, and the server answers from its log. *)
Record Serves (good : W -> Prop) : Prop := {
  sv_up w : good w -> exists w', h_shutting_down w = (false, w') /\ good w';
  sv_disk w : good w -> exists w', h_store_fault w = (None, w') /\ good w';
  sv_answers w v want : good w -> base <= v <= base + zlen log -> (want = true -> v = 0) ->
    exists w', h_send_iq (sync_query [collection_query name want v]) w
               = (Some (as_node_ref (sync_response [page_after v])), w') /\ good w'
}.

(** The number of pages for a rest of the log; an empty one is one page. *)
Definition pages (n : nat) : nat := S (pred n / page).
End Server.

Lemma task_bind_step {W AC A B} (t : @task W AC A) (f : A -> @task W AC B) s a s' :
  t s = (Ok a, s') -> (t ≫= f) s = f a s'.
Proof. intros Ht. unfold mbind, task_bind. by rewrite Ht. Qed.

Section Converge.
Context {W : Type} {HW : Host W} {H : Hkdf} {AC : AppCrypto} {KS : KeyStore} {KL : KeyStoreLaws} {BP : BlobProto}.
Context {SP : SyncProto} {SL : SyncProtoLaws} {TM : TokenMaps} (big : bool).
Context (name : WAPatchName) (page : nat) (base : Z) (log : list SyncdPatch) (good : W -> Prop).
Context (Hserves : Serves name page base log good).
Abbreviation nm := (patch_name_as_str name).

(** Every key the log names is in the backend. *)
Context (Hids : forall p id, p ∈ log -> Some id ∈ patch_key_ids p -> exists d, get_sync_key id = Ok (Some d)).

Lemma send_iq_honest c w v want : good w -> base <= v <= base + zlen log -> (want = true -> v = 0) ->
  exists w', good w' /\
    send_iq (sync_query [collection_query name want v]) (c, w)
    = (Ok (as_node_ref (sync_response [page_after name page base log v])),
       (add_query (sync_query [collection_query name want v]) c, w')).
Proof.
  intros Hw Hv Hwant. destruct (sv_answers _ _ _ _ _ Hserves w v want Hw Hv Hwant) as (w' & Hi & Hw').
  exists w'. split; [done|]. unfold send_iq, mbind, task_bind, update, ask. by rewrite Hi.
Qed.

Lemma shutting_down_honest c w : good w ->
  exists w', good w' /\ is_shutting_down (AC := AC) (c, w) = (Ok false, (c, w')).
Proof.
  intros Hw. destruct (sv_up _ _ _ _ _ Hserves w Hw) as (w' & Hs & Hw'). exists w'. split; [done|].
  unfold is_shutting_down, ask. by rewrite Hs.
Qed.

Lemma store_access_honest c w : good w ->
  exists w', good w' /\ store_access (AC := AC) (c, w) = (Ok tt, (c, w')).
Proof.
  intros Hw. destruct (sv_disk _ _ _ _ _ Hserves w Hw) as (w' & Hs & Hw'). exists w'. split; [done|].
  unfold store_access, mbind, task_bind, ask. by rewrite Hs.
Qed.

Lemma missing_none ids : (forall id, id ∈ ids -> exists d, get_sync_key id = Ok (Some d)) -> missing_ids ids = Ok [].
Proof.
  induction ids as [|id ids IH]; intros Hk; [done|]. cbn [missing_ids].
  destruct (Hk id) as [d ->]; [by left|]. cbn [mbind outcome_bind]. rewrite IH; [done|].
  intros x Hx. apply Hk. by right.
Qed.

Lemma request_missing_none pl s : pl_snapshot pl = None -> (forall p, p ∈ pl_patches pl -> p ∈ log) ->
  request_missing (HW := HW) (AC := AC) pl s = (Ok tt, s).
Proof.
  intros Hs Hp. unfold request_missing, get_missing_key_ids.
  rewrite missing_none; [done|]. intros id Hid. unfold collect_key_ids_from_patch_list in Hid.
  rewrite Hs in Hid. apply check_ids_elem in Hid as [Hid|Hid]; [by apply not_elem_of_nil in Hid|].
  apply list_elem_of_In, in_concat in Hid as (ids & Hin & Hid).
  apply in_map_iff in Hin as (p & <- & Hin%list_elem_of_In). apply list_elem_of_In in Hid.
  by apply (Hids p id); [apply Hp|].
Qed.

Lemma predownload_none pl s : pl_snapshot_ref pl = None -> Forall (fun p => patch_external p = None) (pl_patches pl) ->
  predownload (HW := HW) (AC := AC) [pl] s = (Ok ∅, s).
Proof.
  intros Hr He. unfold predownload. cbn [map concat]. rewrite app_nil_r. unfold list_refs. rewrite Hr.
  cbn [predownload_refs predownload_blob]. rewrite (task_bind_step _ _ _ ∅ s) by done.
  induction He as [|p ps Hp He IH]; [done|]. cbn [map predownload_refs]. rewrite Hp.
  by rewrite (task_bind_step _ _ _ ∅ s).
Qed.

(** The processor applies a page of the log with the keys of the backend. *)
Lemma process_page p c' ps ms more : ready p ->
  (forall q, q ∈ ps -> q ∈ log) -> 0 <= version (c_state (get_collection p nm)) ->
  replays big backend_key nm (get_collection p nm) ps c' ms ->
  let pl := mkPatchList name more ps None None None in
  exists cache, cache_sound cache /\
    process_parsed_patch_list (BL := predownloaded ∅) big p pl true
    = (mkProcessor cache (<[nm := c']> (p_store p)) [], Ok (ms, c_state c', pl)).
Proof.
  intros [Hc Hf] Hps Hv Hr pl. exists (prefetch_keys (p_cache p) pl).
  destruct (prefetch_keys_complete (p_cache p) pl Hc) as [Hc' Hkeys]. split; [done|].
  unfold process_parsed_patch_list, download_external_blobs, inline_snapshot.
  cbn [pl pl_snapshot pl_snapshot_ref pl_name pl_patches].
  rewrite inline_mutations_none by (by eapply replays_external).
  change (pl_set_content _ None ps) with pl. unfold process_patch_list.
  change (pl_name pl) with name. change (pl_snapshot pl) with (@None SyncdSnapshot).
  change (pl_patches pl) with ps.
  assert (Hr' : replays big (lookup_app_state_key (prefetch_keys (p_cache p) pl)) nm (get_collection p nm) ps c' ms).
  { apply (replays_keys big backend_key); [|done]. intros q id Hq Hid. symmetry. apply Hkeys. right. by exists q. }
  pose proof (replays_list big _ nm _ _ _ _ Hv Hr') as Hl. unfold calm in Hl. cbv zeta.
  change (pl_name pl) with name. by rewrite Hf, Hl.
Qed.

(** What a run changed: the collection, the mutations handed on, and the number of queries. *)
Record progress (c c' : Client) (col : Collection) (ms : list Mutation) (full : bool) (k : nat) : Prop := {
  pg_cache : ready (cl_proc c');
  pg_collection : get_collection (cl_proc c') nm = col;
  pg_others n : n <> nm -> get_collection (cl_proc c') n = get_collection (cl_proc c) n;
  pg_syncing : cl_syncing c' = cl_syncing c;
  pg_dispatched : cl_dispatched c' = cl_dispatched c ++ map (fun m => (m, full)) ms;
  pg_queries : length (cl_queries c') = (length (cl_queries c) + k)%nat
}.

Lemma progress_trans c c1 c2 d1 d2 ms1 ms2 full j k :
  progress c c1 d1 ms1 full j -> progress c1 c2 d2 ms2 full k -> progress c c2 d2 (ms1 ++ ms2) full (j + k).
Proof.
  intros [] []. split; try done.
  - intros n Hn. by rewrite pg_others1, pg_others0.
  - congruence.
  - rewrite pg_dispatched1, pg_dispatched0, map_app. by rewrite app_assoc.
  - lia.
Qed.

Lemma get_collection_insert cache p fs n c m :
  get_collection (mkProcessor cache (<[n := c]> (p_store p)) fs) m
  = if bool_decide (m = n) then c else get_collection p m.
Proof.
  unfold get_collection. cbn [p_store]. case_bool_decide as E.
  - subst. by rewrite lookup_insert_eq.
  - by rewrite lookup_insert_ne.
Qed.

Abbreviation rest_at v := (drop (Z.to_nat (v - base)) log).

Lemma sync_page_honest c w col col' ms full want :
  good w -> ready (cl_proc c) -> get_collection (cl_proc c) nm = col ->
  base <= version (c_state col) <= base + zlen log -> 0 <= version (c_state col) ->
  (want = true -> version (c_state col) = 0) ->
  replays big backend_key nm col (take page (rest_at (version (c_state col)))) col' ms ->
  exists c' w', good w' /\ progress c c' col' ms full 1 /\
    sync_page big name full want (c_state col) (c, w)
    = (Ok (Some (c_state col', Nat.ltb page (length (rest_at (version (c_state col)))))), (c', w')).
Proof.
  intros Hw Hc Hcol Hv H0 Hwant Hr. set (v := version (c_state col)) in *.
  destruct (send_iq_honest c w v want Hw Hv Hwant) as (w1 & Hw1 & Hsend).
  set (c1 := add_query _ c) in Hsend. destruct (shutting_down_honest c1 w1 Hw1) as (w2 & Hw2 & Hstop).
  set (pl := page_after name page base log v) in *.
  assert (Hin : forall q, q ∈ pl_patches pl -> q ∈ log).
  { intros q Hq. cbn [pl pl_patches page_after] in Hq. eapply elem_of_sublist; [exact Hq|].
    etransitivity; [apply sublist_take|apply sublist_drop]. }
  destruct (process_page (cl_proc c) col' (pl_patches pl) ms (pl_has_more_patches pl) Hc Hin)
    as (cache & Hcs & Hp); [by rewrite Hcol|by rewrite Hcol|].
  eexists (add_dispatched (map (fun m => (m, full)) ms) (set_proc (mkProcessor cache (<[nm := col']> (p_store (cl_proc c))) []) c1)), w2.
  split; [done|]. split.
  { split; cbn.
    - done.
    - rewrite get_collection_insert. by rewrite bool_decide_true.
    - intros n Hn. rewrite get_collection_insert. by rewrite bool_decide_false.
    - done.
    - done.
    - by rewrite length_app. }
  unfold sync_page. fold v. rewrite (task_bind_step _ _ _ _ _ Hsend), (task_bind_step _ _ _ _ _ Hstop). cbv iota.
  assert (Hparse : parse_patch_list_ref (as_node_ref (sync_response [pl])) = Ok pl).
  { unfold parse_patch_list_ref. rewrite to_owned_as_node_ref. by apply parse_single_render. }
  rewrite (task_bind_step _ _ _ pl (c1, w2)) by (unfold lift; by rewrite Hparse).
  rewrite (task_bind_step _ _ _ ∅ (c1, w2)) by (apply predownload_none; [done|by eapply replays_external]).
  rewrite (task_bind_step _ _ _ (ms, c_state col', pl)
    (set_proc (mkProcessor cache (<[nm := col']> (p_store (cl_proc c))) []) c1, w2)).
  2: { unfold call_processor. change (cl_proc c1) with (cl_proc c).
       change pl with (mkPatchList name (pl_has_more_patches pl) (pl_patches pl) None None None). by rewrite Hp. }
  rewrite (task_bind_step _ _ _ tt _) by (by apply request_missing_none). done.
Qed.

Lemma pages_more n : (0 < page < n)%nat -> pages page n = S (pages page (n - page)).
Proof.
  intros Hn. unfold pages. f_equal. replace (pred n) with (pred (n - page) + 1 * page)%nat by lia.
  rewrite Nat.div_add by lia. lia.
Qed.
Lemma pages_last n : (0 < page)%nat -> (n <= page)%nat -> pages page n = 1%nat.
Proof. intros Hp Hn. unfold pages. rewrite Nat.div_small by lia. done. Qed.

Lemma sync_pages_honest rounds c w col col' ms full want :
  (0 < page)%nat -> good w -> ready (cl_proc c) -> get_collection (cl_proc c) nm = col ->
  base <= version (c_state col) <= base + zlen log -> 0 <= version (c_state col) ->
  (want = true -> version (c_state col) = 0) ->
  replays big backend_key nm col (rest_at (version (c_state col))) col' ms ->
  (pages page (length (rest_at (version (c_state col)))) <= rounds)%nat ->
  exists c' w', good w' /\ progress c c' col' ms full (pages page (length (rest_at (version (c_state col))))) /\
    sync_pages big rounds name full want (c_state col) (c, w) = (Ok (c_state col'), (c', w')).
Proof.
  intros Hpage. revert c w col ms want. induction rounds as [|rounds IH];
    intros c w col ms want Hw Hc Hcol Hv H0 Hwant Hr Hn; [unfold pages in Hn; lia|].
  destruct (shutting_down_honest c w Hw) as (w1 & Hw1 & Hstop).
  destruct (replays_split big backend_key nm page _ _ _ _ Hr) as (col1 & ms1 & ms2 & Hr1 & Hr2 & ->).
  destruct (sync_page_honest c w1 col col1 ms1 full want Hw1 Hc Hcol Hv H0 Hwant Hr1) as (c1 & w2 & Hw2 & Hp1 & Hpg).
  set (rest := rest_at (version (c_state col))) in *. cbn [sync_pages].
  rewrite (task_bind_step _ _ _ _ _ Hstop), (task_bind_step _ _ _ _ _ Hpg). cbv iota beta.
  pose proof (replays_version _ _ _ _ _ _ _ Hr1) as Hv1.
  assert (Hlen : zlen rest = base + zlen log - version (c_state col))
    by (unfold rest, zlen in *; rewrite length_drop; lia).
  destruct (Nat.ltb_spec page (length rest)) as [Hlt|Hge].
  - assert (Hz : zlen (take page rest) = Z.of_nat page) by (unfold zlen; rewrite length_take_le; lia).
    assert (Hrest : rest_at (version (c_state col1)) = drop page rest).
    { rewrite Hv1, Hz. unfold rest. rewrite drop_drop. f_equal. lia. }
    destruct (IH c1 w2 col1 ms2 false) as (c2 & w3 & Hw3 & Hp2 & Hrun).
    + done.
    + apply Hp1.
    + apply Hp1.
    + unfold zlen in *. lia.
    + lia.
    + done.
    + by rewrite Hrest.
    + rewrite Hrest, length_drop. rewrite pages_more in Hn by lia. lia.
    + exists c2, w3. split; [done|]. split; [|exact Hrun].
      rewrite pages_more by lia. rewrite Hrest, length_drop in Hp2.
      exact (progress_trans _ _ _ _ _ _ _ _ _ _ Hp1 Hp2).
  - rewrite drop_ge in Hr2 by lia. inversion Hr2; subst. rewrite app_nil_r.
    exists c1, w2. rewrite pages_last by done. done.
Qed.

Lemma progress_set_version c c' col ms full k : progress c c' col ms full k ->
  progress c (set_proc (store_version name (c_state col) (cl_proc c')) c') col ms full k.
Proof.
  intros []. split; cbn [set_proc cl_proc cl_syncing cl_dispatched cl_queries]; unfold store_version; try done.
  - rewrite get_collection_insert, bool_decide_true, pg_collection0 by done. by destruct col.
  - intros n Hn. rewrite get_collection_insert, bool_decide_false by done. by apply pg_others0.
Qed.

(** The whole task, from the collection at the base version. *)
Lemma sync_task_honest c w col col' ms :
  (0 < page)%nat -> good w -> ready (cl_proc c) -> get_collection (cl_proc c) nm = col ->
  base = version (c_state col) -> 0 <= base -> replays big backend_key nm col log col' ms ->
  (pages page (length log) <= 500)%nat ->
  exists c' w', good w' /\ progress c c' col' ms (base =? 0) (pages page (length log)) /\
    process_app_state_sync_task big name false (c, w) = (Ok tt, (c', w')).
Proof.
  intros Hpage Hw Hc Hcol Hb H0 Hr Hn. unfold process_app_state_sync_task.
  destruct (shutting_down_honest c w Hw) as (w1 & Hw1 & Hstop).
  destruct (store_access_honest c w1 Hw1) as (w2 & Hw2 & Hacc).
  assert (Hrest : rest_at (version (c_state col)) = log) by (rewrite <- Hb, Z.sub_diag; apply drop_0).
  destruct (sync_pages_honest 500 c w2 col col' ms (base =? 0) (base =? 0)) as (c' & w3 & Hw3 & Hp & Hrun).
  1-4: done.
  1: rewrite <- Hb; unfold zlen; lia.
  1: lia.
  1: intros ?%Z.eqb_eq; lia.
  1,2: by rewrite Hrest.
  destruct (store_access_honest c' w3 Hw3) as (w4 & Hw4 & Hacc').
  eexists _, w4. split; [done|]. split; [rewrite Hrest in Hp; apply progress_set_version, Hp|].
  rewrite (task_bind_step _ _ _ _ _ Hstop). cbv iota.
  assert (Hget : backend_get_version name (c, w1) = (Ok (c_state col), (c, w2))).
  { unfold backend_get_version. rewrite (task_bind_step _ _ _ _ _ Hacc). unfold gets. by rewrite Hcol. }
  rewrite (task_bind_step _ _ _ _ _ Hget). cbv zeta.
  replace (if version (c_state col) =? 0 then true else false) with (base =? 0)
    by (rewrite Hb; by destruct (version (c_state col) =? 0)).
  unfold MAX_PAGINATION_ITERATIONS. rewrite (task_bind_step _ _ _ _ _ Hrun).
  unfold backend_set_version. rewrite (task_bind_step _ _ _ _ _ Hacc'). done.
Qed.

(** The retry wrapper succeeds at its first attempt. *)
Lemma fetch_honest c w col col' ms :
  (0 < page)%nat -> good w -> ready (cl_proc c) -> name ∉ cl_syncing c ->
  get_collection (cl_proc c) nm = col ->
  base = version (c_state col) -> 0 <= base -> replays big backend_key nm col log col' ms ->
  (pages page (length log) <= 500)%nat ->
  exists c' w', good w' /\ progress c c' col' ms (base =? 0) (pages page (length log)) /\
    fetch_app_state_with_retry big name (c, w) = (Ok tt, (c', w')).
Proof.
  intros Hpage Hw Hc Hns Hcol Hb H0 Hr Hn. unfold fetch_app_state_with_retry.
  rewrite (task_bind_step _ _ _ (cl_syncing c) (c, w)) by done. rewrite bool_decide_false by done.
  set (c1 := set_syncing ({[name]} ∪ cl_syncing c) c).
  rewrite (task_bind_step _ _ _ tt (c1, w)) by done.
  destruct (sync_task_honest c1 w col col' ms Hpage Hw Hc Hcol Hb H0 Hr Hn) as (c' & w' & Hw' & Hp & Hrun).
  exists (set_syncing (cl_syncing c' ∖ {[name]} ) c'), w'. split; [done|]. split.
  - destruct Hp. split; cbn; try done. rewrite pg_syncing0. cbn. set_solver.
  - unfold finally_remove, fetch_app_state_with_retry_inner. cbn [fetch_app_state_attempts]. unfold catch.
    rewrite Hrun. do 3 f_equal. set_solver.
Qed.
End Converge.

(** The composition, for the theorems below and for the actions that travel this way. *)
Lemma pushed_log_synced {W : Type} {HW : Host W} {H : Hkdf} {AC : AppCrypto} {AE : AppEncrypt}
    {AL : AppEncryptLaws} {KS : KeyStore} {KL : KeyStoreLaws} {BP : BlobProto} {SP : SyncProto}
    {SL : SyncProtoLaws} {TM : TokenMaps} (big : bool) (name : WAPatchName) (page : nat)
    (key_id : bytes) (keys : ExpandedAppStateKeys) (good : W -> Prop)
    (ls : list (list SyncdMutation)) (log : list SyncdPatch) (col col' : Collection) (c : Client) (w : W) :
  backend_key key_id = Ok keys -> zlen (k_value_encryption keys) = 32 ->
  consistent col -> 0 <= version (c_state col) -> version (c_state col) + zlen ls <= U64_MAX ->
  pushes big (patch_name_as_str name) key_id keys col ls log col' ->
  (0 < page)%nat -> (pages page (length log) <= 500)%nat ->
  Serves name page (version (c_state col)) log good -> good w ->
  get_collection (cl_proc c) (patch_name_as_str name) = col -> ready (cl_proc c) ->
  name ∉ cl_syncing c ->
  exists c' w' ms,
    fetch_app_state_with_retry big name (c, w) = (Ok tt, (c', w'))
    /\ progress name c c' col' ms (version (c_state col) =? 0) (pages page (length log))
    /\ replays big backend_key (patch_name_as_str name) col log col' ms
    /\ consistent col' /\ version (c_state col') = version (c_state col) + zlen log.
Proof.
  intros Hk Hlen Hcons Hv Hmax Hpush Hpage Hpages Hserves Hw Hcol Hcache Hns.
  destruct (pushes_replay big _ key_id keys Hk Hlen _ _ _ _ Hpush Hcons Hv Hmax) as (Hcons' & [ms Hr] & Hids).
  assert (Hkn : forall p id, p ∈ log -> Some id ∈ patch_key_ids p -> exists d, get_sync_key id = Ok (Some d)).
  { intros p id Hp Hid. rewrite (Hids p id Hp Hid). unfold backend_key in Hk.
    destruct (get_sync_key key_id) as [[d|]| | |]; try done. by exists d. }
  destruct (fetch_honest big name page _ log good Hserves Hkn c w col col' ms) as (c' & w' & Hw' & Hp & Hrun);
    [done..|].
  exists c', w', ms. do 4 (split; [done|]). exact (replays_version _ _ _ _ _ _ _ Hr).
Qed.


(** ** A concrete run *)

(** A server over a log: it reads the version of the query, or takes it for 0. *)
Definition query_version (q : Node) : Z :=
  default 0 (cs ← node_children q; n ← head cs; v ← find_attr (node_attrs n) (str "version"); parse_u64 (value_as_str v)).
Definition log_server (name : WAPatchName) (page : nat) (base : Z) (log : list SyncdPatch) : Host unit := {|
  h_shutting_down w := (false, w);
  h_send_iq q w :=
    (Some (as_node_ref (sync_response (SP := toy_proto) [page_after name page base log (query_version q)])), w);
  h_download _ w := (None, w);
  h_store_fault w := (None, w);
  h_request_keys _ w := (true, w);
  h_now _ := 0;
  h_keys_received w := (true, w);
  h_wait_keys w := w;
  h_sleep _ w := w
|}.

Lemma query_version_spec name want v : 0 <= v <= U64_MAX -> (want = true -> v = 0) ->
  query_version (sync_query [collection_query name want v]) = v.
Proof.
  intros Hv Hw. destruct want; [by rewrite Hw|].
  change (query_version _) with (default 0 (parse_u64 (itoa v))).
  rewrite parse_uint_itoa by (unfold U64_MAX in Hv; lia). done.
Qed.

Lemma log_server_serves name page base log : 0 <= base -> base + zlen log <= U64_MAX ->
  Serves (HW := log_server name page base log) (SP := toy_proto) name page base log (fun _ => True).
Proof.
  intros Hb Hl. split.
  - intros w _. by exists w.
  - intros w _. by exists w.
  - intros w v want _ Hv Hw. exists w. split; [|done]. cbn [h_send_iq log_server].
    by rewrite query_version_spec by (lia || done).
Qed.

Definition demo_keys : ExpandedAppStateKeys := expand_app_state_keys [1; 2; 3].
Definition demo_mutation (op : SyncdOperation) (index iv : bytes) : SyncdMutation :=
  (value_or (mkMutation None None, []) (encode_record op index toy_value demo_keys [7] iv 3)).1.
Lemma demo_mutation_sealed op index iv : zlen iv = 16 -> sealed_mutation demo_keys [7] (demo_mutation op index iv).
Proof.
  intros Hiv. exists op, index, toy_value, iv, 3. eexists. split; [done|]. by apply value_or_pair.
Qed.

(** A device that pushes one batch and syncs. *)
Abbreviation col_of p := (get_collection p (str "regular")).
Definition push_build (p : Processor) (l : list SyncdMutation) : outcome SyncError (SyncdPatch * Z) :=
  (build_patch false (Ok (Some [7])) p (str "regular") l).2.
Definition push_patch (p : Processor) (l : list SyncdMutation) : SyncdPatch :=
  stamp (value_or (mkPatch None [] None None None None, 0) (push_build p l)).1 (version (c_state (col_of p)) + 1).
Definition push_apply (p : Processor) (l : list SyncdMutation) : outcome AppStateError (Collection * list Mutation) :=
  calm_patch false backend_key (col_of p) (push_patch p l) true (str "regular").
Definition push_next (p : Processor) (l : list SyncdMutation) : Processor :=
  mkProcessor ∅ {[ str "regular" := (value_or (col_of p, []) (push_apply p l)).1 ]} [].
Definition push_works (p : Processor) (l : list SyncdMutation) : bool :=
  match push_build p l with Ok (_, v) => v =? version (c_state (col_of p)) | _ => false end
  && is_ok (push_apply p l).

Lemma push_pushes p l ls log c' : p_cache p = ∅ -> push_works p l = true -> pushable [7] demo_keys l ->
  pushes false (str "regular") [7] demo_keys (col_of (push_next p l)) ls log c' ->
  pushes false (str "regular") [7] demo_keys (col_of p) (l :: ls) (push_patch p l :: log) c'.
Proof.
  intros Hc [Hb Ha]%andb_true_iff Hl Hp.
  assert (Hn : col_of (push_next p l) = (value_or (col_of p, []) (push_apply p l)).1).
  { unfold push_next, get_collection. cbn [p_store]. by rewrite lookup_singleton_eq. }
  rewrite Hn in Hp. apply value_or_Ok with (d := (col_of p, [])) in Ha.
  destruct (value_or (col_of p, []) (push_apply p l)) as [c1 ms].
  assert (Hbuild : build_patch false (Ok (Some [7])) p (str "regular") l
    = ((build_patch false (Ok (Some [7])) p (str "regular") l).1,
       Ok ((value_or (mkPatch None [] None None None None, 0) (push_build p l)).1, version (c_state (col_of p))))).
  { unfold push_build in *. destruct (build_patch _ _ p _ l) as [p' r]. cbn [fst snd] in *.
    destruct r as [[patch v]| | |]; try done. apply Z.eqb_eq in Hb as <-. done. }
  refine (pushes_cons _ _ _ _ p _ l _ c1 ms ls log c' _ Hl Hbuild (proj2 (applies_calm _ _ _ _ _ _ _) Ha) Hp).
  intros id k. rewrite Hc. by rewrite lookup_empty.
Qed.

Definition demo_l1 : list SyncdMutation := [demo_mutation OpSet [2] iv_b; demo_mutation OpSet [3] iv_a].
Definition demo_l2 : list SyncdMutation := [demo_mutation OpRemove [2] iv_b; demo_mutation OpSet [4] iv_a].
Definition demo_p0 : Processor := mkProcessor ∅ ∅ [].
Definition demo_p1 : Processor := push_next demo_p0 demo_l1.
Definition demo_p2 : Processor := push_next demo_p1 demo_l2.
Definition demo_log : list SyncdPatch := [push_patch demo_p0 demo_l1; push_patch demo_p1 demo_l2].
Definition demo_client : Client := mkClient toy_app_crypto demo_p0 ∅ ∅ [] [].
Definition demo_blob_proto : BlobProto := {| bp_snapshot _ := None; bp_mutations _ := None |}.

Lemma demo_pushes :
  pushes false (str "regular") [7] demo_keys (col_of demo_p0) [demo_l1; demo_l2] demo_log (col_of demo_p2).
Proof.
  assert (Hl : forall l, l = demo_l1 \/ l = demo_l2 -> pushable [7] demo_keys l).
  { intros l [-> | ->]; (split; [|split; [|split]]);
      try (repeat apply Forall_cons_2; try apply demo_mutation_sealed; try reflexivity; apply Forall_nil_2);
      try (apply (bool_decide_unpack _); vm_compute; exact I); vm_compute; discriminate. }
  apply push_pushes; [done|vm_compute; reflexivity|apply Hl; auto|].
  apply push_pushes; [done|vm_compute; reflexivity|apply Hl; auto|]. constructor.
Qed.

