(* ===== verification/SyncErrors.v ===== *)
(** * The error paths of the app-state tasks

    Which errors of [process_app_state_sync_task] reach the retry loop of
    [fetch_app_state_with_retry_inner], and three behaviours of the single-collection path
    that its comments do not expect: a missing key is not recognised, an error of the
    collection is taken for success, and the name of the response is not checked. *)

From stdpp Require Import prelude strings gmap.
From S2P Require Import Prelude Jid Token Node Writer Attrs LtHash AppState Dedup AppSync AppSend PatchStanza SyncTyped AppClient SyncConverge.

#[local] Open Scope Z_scope.

Section Errors.
Context {W : Type} {HW : Host W} {H : Hkdf} {AC : AppCrypto} {KS : KeyStore} {BP : BlobProto}.
Context {SP : SyncProto} {TM : TokenMaps} (big_endian : bool) (P : TaskError -> Prop).

(** Every error of the task is a [P]. *)
Definition fails_as {A} (t : task A) : Prop := forall (s : Client * W) e, (t s).1 = Err e -> P e.

Lemma fails_ret {A} (a : A) : fails_as (mret a).
Proof. by intros s e. Qed.
Lemma fails_ask {A} (f : W -> A * W) : fails_as (ask f).
Proof. intros [c w] e. unfold ask. by destruct (f w). Qed.
Lemma fails_gets {A} (f : Client -> A) : fails_as (gets f).
Proof. by intros [c w] e. Qed.
Lemma fails_update f : fails_as (update f).
Proof. by intros [c w] e. Qed.
Lemma fails_lift {A} (o : outcome TaskError A) : (forall e, o = Err e -> P e) -> fails_as (lift o).
Proof. intros Ho s e. apply Ho. Qed.
Lemma fails_throw {A} e : P e -> fails_as (A := A) (throw e).
Proof. by intros He s e' [= <-]. Qed.
Lemma fails_bind {A B} (t : task A) (f : A -> task B) : fails_as t -> (forall a, fails_as (f a)) -> fails_as (t ≫= f).
Proof.
  intros Ht Hf s e. unfold mbind, task_bind. specialize (Ht s). destruct (t s) as [[a|e'| |] s']; cbn; try done.
  - apply Hf.
  - intros [= <-]. by apply Ht.
Qed.
Lemma fails_if {A} (b : bool) (t u : task A) : fails_as t -> fails_as u -> fails_as (if b then t else u).
Proof. by destruct b. Qed.

(** Store errors, failed queries, stanzas that do not parse, and what the processor reports. *)
Context (Pstore : forall busy, P (AnyStore busy)) (Piq : P AnyIq) (Pstanza : forall e, P (AnyStanza e)).
Context (Pprocess : forall e, P (AnySync (Processing e))) (Pexternal : forall t, P (AnySync (External t))).
Context (Psync : forall busy, P (AnySync (StoreError busy))).

(** The runs on the store fail with store errors and the errors of the processing. *)
Definition store_or_processing (e : SyncError) : Prop := (exists a, e = Processing a) \/ exists busy, e = StoreError busy.
Definition fails {A} (m : col A) : Prop := forall c, runs m c (fun o _ => forall e, o = Err e -> store_or_processing e).
Lemma col_fails_ret {A} (a : A) : fails (mret a).
Proof. by intros c fs e. Qed.
Lemma col_fails_lift {A} (o : outcome AppStateError A) : fails (col_lift o).
Proof. intros c fs e. unfold col_lift. destruct o; try done. intros [= <-]. left. by eexists. Qed.
Lemma col_fails_read {A} (f : Collection -> A) : fails (store_read f).
Proof. intros c. apply col_runs_read; [done|]. intros busy e [= <-]. right. by eexists. Qed.
Lemma col_fails_rows {R} (f : list R -> Collection -> Collection) rows : fails (store_rows f rows).
Proof. intros c. apply col_runs_rows; [done|]. intros busy l _ e [= <-]. right. by eexists. Qed.
Lemma col_fails_bind {A B} (m : col A) (k : A -> col B) : fails m -> (forall a, fails (k a)) -> fails (a ← m; k a).
Proof.
  intros Hm Hk c. apply col_runs_bind. eapply col_runs_mono; [apply Hm|]. intros [a|e| |] c' Ho; try done; [apply Hk|].
  intros e' [= <-]. by apply Ho.
Qed.
Ltac col_fails := repeat first
  [ apply col_fails_ret | apply col_fails_lift | apply col_fails_read | apply col_fails_rows
  | apply col_fails_bind; [|intros []] | apply col_fails_bind; [|intros ?] | case_match ].
Lemma apply_patches_fails gk st ps v name acc : fails (apply_patches big_endian gk st ps v name acc).
Proof.
  revert st acc. induction ps as [|p ps IH]; intros st acc; cbn [apply_patches]; [apply col_fails_ret|].
  apply col_fails_bind; [unfold apply_patch, persist_patch; cbv zeta; col_fails|]. intros [st' ms]. apply IH.
Qed.
Lemma apply_patch_list_fails gk s ps v name : fails (apply_patch_list big_endian gk s ps v name).
Proof.
  unfold apply_patch_list, apply_snapshot. cbv zeta. apply col_fails_bind; [apply col_fails_read|]. intros st.
  apply col_fails_bind; [col_fails|]. intros [st1 ms]. destruct (_ && _); [apply col_fails_ret|].
  apply col_fails_bind; [apply apply_patches_fails|]. intros [st2 ms2]. col_fails.
Qed.

Lemma inline_mutations_errors {BL : Blobs} n ps e : (inline_mutations n ps).2 = Err e -> exists t, e = External t.
Proof.
  revert e. induction ps as [|p ps IH]; intros e; [done|]. cbn [inline_mutations]. revert IH.
  destruct (inline_mutations n ps) as [ps' r]. cbn [snd]. intros IH.
  repeat case_match; simplify_eq; cbn; intros Hr; simplify_eq; eauto.
Qed.

Lemma download_errors {BL : Blobs} pl e : (download_external_blobs pl).2 = Err e -> exists t, e = External t.
Proof.
  unfold download_external_blobs, inline_snapshot.
  pose proof (fun n ps => inline_mutations_errors n ps e) as Hm.
  destruct (pl_snapshot pl), (pl_snapshot_ref pl) as [ext|]; cbn [fst snd];
    [| |destruct (download ext) as [b|]; [destruct (decode_snapshot_blob b)|]|]; cbn [snd];
    try (intros [= <-]; by eexists);
    match goal with |- context [inline_mutations ?n ?ps] =>
      specialize (Hm n ps); by destruct (inline_mutations n ps) end.
Qed.

(** The processing turns each of its own errors into a text. *)
Lemma process_parsed_errors {BL : Blobs} p pl v e :
  (process_parsed_patch_list big_endian p pl v).2 = Err e ->
  store_or_processing e \/ exists t, e = External t.
Proof.
  unfold process_parsed_patch_list. pose proof (fun e => download_errors pl e) as Hd.
  destruct (download_external_blobs pl) as [pl' [[]|e'| |]]; cbn [snd] in *; try done.
  - unfold process_patch_list. cbv zeta. set (gk := lookup_app_state_key _). set (name := patch_name_as_str _).
    pose proof (apply_patch_list_fails gk (pl_snapshot pl') (pl_patches pl') v name (get_collection p name) (p_faults p)) as Ha.
    destruct (apply_patch_list _ _ _ _ _ _ _) as [[c fs] [[[ms st] o]|a| |]]; cbn in *; try done.
    intros [= <-]. left. by apply Ha.
  - intros [= <-]. right. by apply Hd.
Qed.

Lemma fails_store_access : fails_as store_access.
Proof. apply fails_bind; [apply fails_ask|]. intros [b|]; [by apply fails_throw|apply fails_ret]. Qed.

Lemma fails_send_iq q : fails_as (send_iq q).
Proof.
  apply fails_bind; [apply fails_update|intros _]. apply fails_bind; [apply fails_ask|intros r].
  apply fails_lift. intros e. destruct r; [done|]. by intros [= <-].
Qed.

Lemma fails_predownload pls : fails_as (predownload pls).
Proof.
  unfold predownload. generalize (∅ : gmap bytes bytes). induction (concat _) as [|ext l IH]; intros pre.
  { apply fails_ret. }
  apply fails_bind; [|intros; apply IH]. unfold predownload_blob. destruct ext as [ext|]; [|apply fails_ret].
  destruct (direct_path ext); [|apply fails_ret]. apply fails_bind; [apply fails_ask|intros; apply fails_ret].
Qed.

Lemma fails_request_missing pl : fails_as (request_missing pl).
Proof.
  unfold request_missing, request_missing_keys_with_dedup. case_match; [apply fails_ret|].
  apply fails_bind; [apply fails_ask|intros now]. apply fails_bind; [apply fails_gets|intros guard].
  destruct (stamp_requests now _ guard) as [guard' ids].
  apply fails_bind; [apply fails_update|intros _]. destruct ids; [apply fails_ret|].
  apply fails_bind; [apply fails_ask|intros sent]. apply fails_if; [apply fails_ret|apply fails_update].
Qed.

Lemma fails_sync_page name full want st : fails_as (sync_page big_endian name full want st).
Proof.
  apply fails_bind; [apply fails_send_iq|intros resp]. apply fails_bind; [apply fails_ask|intros stop].
  apply fails_if; [apply fails_ret|]. apply fails_bind.
  { apply fails_lift. intros e. destruct (parse_patch_list_ref resp); cbn; try done. by intros [= <-]. }
  intros pl. apply fails_bind; [apply fails_predownload|intros pre]. apply fails_bind.
  { intros [c w] e. unfold call_processor.
    pose proof (fun e => process_parsed_errors (BL := predownloaded pre) (cl_proc c) pl true e) as He.
    destruct (process_parsed_patch_list _ _ _ _) as [p r]. cbn [fst snd] in *.
    destruct r as [x|e'| |]; cbn; try done. intros [= <-].
    destruct (He e' eq_refl) as [[[a ->]|[b ->]]|[t ->]]; done. }
  intros [[ms st'] pl']. apply fails_bind; [apply fails_request_missing|intros _].
  apply fails_bind; [apply fails_update|intros _]. apply fails_ret.
Qed.

Lemma fails_sync_pages rounds name full want st : fails_as (sync_pages big_endian rounds name full want st).
Proof.
  revert want st. induction rounds as [|rounds IH]; intros want st; cbn [sync_pages];
    (apply fails_bind; [apply fails_ask|intros stop]); (apply fails_if; [apply fails_ret|]).
  - apply fails_ret.
  - apply fails_bind; [apply fails_sync_page|]. intros [[st' more]|]; [|apply fails_ret].
    apply fails_if; [apply IH|apply fails_ret].
Qed.

Lemma fails_sync_task name full : fails_as (process_app_state_sync_task big_endian name full).
Proof.
  apply fails_bind; [apply fails_ask|intros stop]. apply fails_if; [apply fails_ret|].
  apply fails_bind; [apply fails_bind; [apply fails_store_access|intros; apply fails_gets]|intros st].
  apply fails_bind; [apply fails_sync_pages|intros st'].
  apply fails_bind; [apply fails_store_access|intros; apply fails_update].
Qed.
End Errors.

(** C40: a missing key is never recognised.  Whatever happens, the error of
    [process_app_state_sync_task] is not the [KeyNotFound] its caller looks for: the
    processor turns a missing key into a text, and the prefetch drops the typed error.  So
    the branch that waits for the key share and tries again is dead: a task that fails is
    repeated only while the database is busy, and otherwise its first error is final. *)
Theorem missing_key_not_recognised {W : Type} {HW : Host W} {H : Hkdf} {AC : AppCrypto} {KS : KeyStore}
    {BP : BlobProto} {SP : SyncProto} {TM : TokenMaps} (big : bool) (name : WAPatchName) (full : bool)
    (s s' : Client * W) (e : TaskError) (fuel : nat) (attempt : Z) :
  process_app_state_sync_task big name full s = (Err e, s') ->
  is_key_not_found e = false
  /\ (full = false -> is_db_locked e = false ->
      fetch_app_state_attempts big (S fuel) attempt name s = (Err e, s')).
Proof.
  intros Hrun.
  assert (Hk : is_key_not_found e = false).
  { eapply (fails_sync_task big (fun e => is_key_not_found e = false)); [done..|]. by rewrite Hrun. }
  split; [done|]. intros -> Hlock. cbn [fetch_app_state_attempts]. unfold catch. rewrite Hrun, Hk, Hlock. done.
Qed.

(** ** Concrete runs *)

(** A server that answers every query with the same list. *)
Definition answer_host (pl : PatchList) : Host unit := {|
  h_shutting_down w := (false, w);
  h_send_iq _ w := (Some (as_node_ref (sync_response (SP := toy_proto) [pl])), w);
  h_download _ w := (None, w);
  h_store_fault w := (None, w);
  h_request_keys _ w := (true, w);
  h_now _ := 0;
  h_keys_received w := (false, w);
  h_wait_keys w := w;
  h_sleep _ w := w
|}.

Definition run_fetch (pl : PatchList) (name : WAPatchName) (p : Processor) : outcome TaskError unit * (Client * unit) :=
  fetch_app_state_with_retry (HW := answer_host pl) (BP := demo_blob_proto) (SP := toy_proto) false name
    (mkClient toy_app_crypto p ∅ ∅ [] [], tt).

(** A patch under a key that the backend does not hold. *)
Definition unknown_key_patch : SyncdPatch :=
  mkPatch (Some (Some 1)) [] None None None (Some (Some [8])).
Definition unknown_key_list : PatchList := mkPatchList Regular false [unknown_key_patch] None None None.

Definition unknown_key_sync : outcome TaskError unit * (Client * unit) :=
  process_app_state_sync_task (HW := answer_host unknown_key_list) (BP := demo_blob_proto) (SP := toy_proto)
    false Regular false (mkClient toy_app_crypto demo_p0 ∅ ∅ [] [], tt).

Lemma missing_key_not_recognised_witness :
  unknown_key_sync = (Err (AnySync (Processing KeyNotFound)), unknown_key_sync.2)
  /\ is_key_not_found (AnySync (Processing KeyNotFound)) = false.
Proof.
  assert (Hrun : unknown_key_sync = (Err (AnySync (Processing KeyNotFound)), unknown_key_sync.2)).
  { rewrite (surjective_pairing unknown_key_sync) at 1. f_equal. }
  split; [exact Hrun|].
  exact (proj1 (missing_key_not_recognised (HW := answer_host unknown_key_list) (BP := demo_blob_proto)
    (SP := toy_proto) false Regular false _ _ _ 0 0 Hrun)).
Defined.

(** The task gives up after one query, and asks nobody for the key. *)
Example missing_key_not_requested :
  let '(r, (c, _)) := run_fetch unknown_key_list Regular demo_p0 in
  is_err r = true /\ length (cl_queries c) = 1%nat /\ cl_key_requests c = ∅.
Proof. vm_compute. done. Qed.

(** An error of the collection is taken for success: nothing is applied or fetched again,
    here for a server that is busy and for patches that need a snapshot first. *)
Definition busy_list : PatchList := mkPatchList Regular false [] None None (Some (Retry 503 (str "busy"))).
Definition unanchored_list : PatchList :=
  mkPatchList Regular false [mkPatch (Some (Some 5)) [] None None None (Some (Some [7]))] None None None.
Lemma collection_error_dropped :
  forallb (fun pl =>
    let '(r, (c, _)) := run_fetch pl Regular demo_p0 in
    is_ok r && Nat.eqb (length (cl_queries c)) 1 && (version (c_state (get_collection (cl_proc c) (str "regular"))) =? 0))
    [busy_list; unanchored_list] = true.
Proof. vm_compute. reflexivity. Qed.

(** A response for another collection: the state of that collection is stored under the
    name of the requested one, whose MACs it does not fit. *)
Definition consistentb (c : Collection) : bool := bytes_eqb (hash (c_state c)) (mac_sum (c_macs c)).
Definition foreign_list : PatchList := mkPatchList Regular false [] None None None.
Lemma foreign_response_corrupts :
  let '(r, (c, _)) := run_fetch foreign_list RegularLow demo_p2 in
  (is_ok r, consistentb (get_collection demo_p2 (str "regular_low")),
   consistentb (get_collection demo_p2 (str "regular")),
   consistentb (get_collection (cl_proc c) (str "regular_low"))) = (true, true, true, false).
Proof. vm_compute. reflexivity. Qed.
