(* ===== verification/SyncDriver.v ===== *)
(** * The refetch loop of the core

    [sync_collection] of [wacore/src/appstate_sync.rs], over any [AppStateSyncDriver].  The
    loop bounds the refetches of a collection with a retryable error, but not those of one
    that announces more patches: it ends when every such answer makes progress, and
    runs forever against a server that announces more without end. *)

From stdpp Require Import prelude strings gmap.
From S2P Require Import Prelude Jid Token Node Writer Attrs LtHash AppState Dedup AppSync AppSend PatchStanza SyncTyped SyncTasks.

#[local] Open Scope Z_scope.

Inductive CollectError : Type :=
  | CollectDriver
  | CollectStanza (e : StanzaError)
  | CollectSync (e : SyncError).

(** [AppStateSyncDriver] *)
Class SyncDriver (D : Type) : Type := {
  fetch_collection : WAPatchName -> Z -> D -> option Node * D
}.

Section Collect.
Context {D : Type} {SD : SyncDriver D} {H : Hkdf} {AC : AppCrypto} {KS : KeyStore} {BL : Blobs} {SP : SyncProto}.
Context (big_endian : bool).

(** [decode_patch_list] *)
Definition decode_patch_list (p : Processor) (stanza_root : Node) (validate_macs : bool)
    : Processor * outcome CollectError (list Mutation * HashState * PatchList) :=
  match parse_patch_list stanza_root with
  | Ok pl => let '(p, r) := process_parsed_patch_list big_endian p pl validate_macs in (p, map_err CollectSync r)
  | Err e => (p, Err (CollectStanza e))
  | Panic => (p, Panic)
  | Timeout => (p, Timeout)
  end.

Definition MAX_RETRIES : Z := 5.

Definition retryable (e : option CollectionSyncError) : bool :=
  match e with Some (Retry _ _) | Some (Conflict true) => true | _ => false end.

(** One round: fetch from the stored version and decode. *)
Definition collect_round (name : WAPatchName) (validate_macs : bool) (p : Processor) (d : D)
    : Processor * D * outcome CollectError (list Mutation * PatchList) :=
  let '((_, fs), state) := store_read c_state (get_collection p (patch_name_as_str name), p_faults p) in
  let p := mkProcessor (p_cache p) (p_store p) fs in
  match state with
  | Ok state =>
      let '(r, d) := fetch_collection name (version state) d in
      match r with
      | None => (p, d, Err CollectDriver)
      | Some node =>
          let '(p, r) := decode_patch_list p node validate_macs in
          (p, d, '(ms, _, pl) ← r; Ok (ms, pl))
      end
  | Err e => (p, d, Err (CollectSync e))
  | Panic => (p, d, Panic)
  | Timeout => (p, d, Timeout)
  end.

(** The [loop], on fuel. *)
Fixpoint sync_collection (fuel : nat) (name : WAPatchName) (validate_macs : bool) (retries : Z)
    (all : list Mutation) (p : Processor) (d : D) : Processor * D * outcome CollectError (list Mutation) :=
  match fuel with
  | O => (p, d, Timeout)
  | S fuel =>
      match collect_round name validate_macs p d with
      | (p, d, Ok (ms, pl)) =>
          let all := all ++ ms in
          if retryable (pl_error pl) then
            let retries := retries + 1 in
            if MAX_RETRIES <=? retries then (p, d, Ok all)
            else sync_collection fuel name validate_macs retries all p d
          else if pl_has_more_patches pl then sync_collection fuel name validate_macs retries all p d
          else (p, d, Ok all)
      | (p, d, Err e) => (p, d, Err e)
      | (p, d, Panic) => (p, d, Panic)
      | (p, d, Timeout) => (p, d, Timeout)
      end
  end.

Lemma collect_round_returns name v p d : store_typed p ->
  let '(p', _, r) := collect_round name v p d in store_typed p' /\ returns r.
Proof.
  intros Hp. unfold collect_round, decode_patch_list. cbv zeta.
  destruct (store_read_or c_state (get_collection p (patch_name_as_str name)) (p_faults p)) as [(busy & -> & _)| ->]; [done|].
  destruct (fetch_collection _ _ d) as [[node|] d']; [|done].
  assert (Hparse : returns (parse_patch_list node)).
  { unfold parse_patch_list. apply bind_returns; [apply ok_or_returns|]. intros c _. apply parse_single_returns. }
  destruct (parse_patch_list node) as [pl|e| |]; try done.
  set (p1 := mkProcessor _ _ _). pose proof (process_parsed_typed big_endian p1 pl v Hp) as Ht.
  destruct (process_parsed_patch_list big_endian p1 pl v) as [p' r]. destruct Ht as [Hp' [Hr _]].
  split; [done|]. by destruct r as [[[ms st] pl']|e| |].
Qed.

(** When every answer that announces more comes closer to the end, in any measure that the
    others do not increase, the loop ends: the measure bounds the pages, and the retries are
    at most five. *)
Lemma sync_collection_ends (mu : Processor * D -> nat) name v fuel retries all p d :
  (forall p d p' d' ms pl, collect_round name v p d = (p', d', Ok (ms, pl)) ->
     if retryable (pl_error pl) then (mu (p', d') <= mu (p, d))%nat
     else pl_has_more_patches pl = true -> (mu (p', d') < mu (p, d))%nat) ->
  store_typed p -> 0 <= retries < MAX_RETRIES ->
  Z.of_nat (mu (p, d)) + (MAX_RETRIES - retries) <= Z.of_nat fuel ->
  let '(p', _, r) := sync_collection fuel name v retries all p d in store_typed p' /\ returns r.
Proof.
  intros Hmu. revert retries all p d. induction fuel as [|fuel IH]; intros retries all p d Hp Hr Hf; [lia|].
  cbn [sync_collection]. pose proof (collect_round_returns name v p d Hp) as Hc.
  pose proof (Hmu p d) as Hm. destruct (collect_round name v p d) as [[p' d'] r]. destruct Hc as [Hp' Hret].
  destruct r as [[ms pl]|e| |]; try done. specialize (Hm p' d' ms pl eq_refl).
  destruct (retryable (pl_error pl)).
  - destruct (Z.leb_spec MAX_RETRIES (retries + 1)); [done|]. apply IH; [done|lia|lia].
  - destruct (pl_has_more_patches pl); [|done]. specialize (Hm eq_refl). apply IH; [done|lia|lia].
Qed.
End Collect.

(** ** Against a server that always announces more *)

#[global] Instance endless_driver : SyncDriver unit := {|
  fetch_collection _ _ d := (Some (sync_response (SP := toy_proto) [endless_list]), d)
|}.

Lemma endless_parsed : parse_patch_list (SP := toy_proto) (sync_response (SP := toy_proto) [endless_list]) = Ok endless_list.
Proof. reflexivity. Qed.

(** No number of rounds is enough, from any state of the processor whose store works. *)
Theorem sync_collection_endless {H : Hkdf} {AC : AppCrypto} {KS : KeyStore} {BL : Blobs} big fuel v retries all p d :
  p_faults p = [] -> (sync_collection (SP := toy_proto) (AC := AC) big fuel Regular v retries all p d).2 = Timeout.
Proof.
  revert all p d. induction fuel as [|fuel IH]; intros all p d Hf; [done|]. cbn [sync_collection].
  unfold collect_round, decode_patch_list, fetch_collection, endless_driver.
  rewrite Hf, endless_parsed. cbn [store_read]. unfold process_parsed_patch_list.
  change (download_external_blobs endless_list) with (endless_list, @Ok SyncError unit tt).
  unfold process_patch_list, apply_patch_list, mbind, col_bind. cbn [endless_list pl_snapshot pl_patches pl_name].
  cbn [store_read p_faults tail]. unfold mret, col_ret. cbn [bool_decide apply_patches]. rewrite bool_decide_true by done.
  cbn [negb]. rewrite andb_false_r. cbn [andb]. unfold mret, col_ret.
  cbn [map_err outcome_bind mbind pl_error pl_has_more_patches endless_list retryable]. by apply IH.
Qed.
