(* ===== verification/Schemas.v ===== *)
(** * The registry of app-state actions

    [wacore/appstate/src/schemas.rs]: for every kind of action its collection, version, scope,
    value and the parts of its index. *)

From stdpp Require Import prelude strings.
From S2P Require Import Prelude.

#[local] Open Scope Z_scope.

Inductive SyncCollection : Type := CRegular | CRegularLow | CRegularHigh | CCriticalBlock | CCriticalUnblockLow.
#[global] Instance SyncCollection_eq_dec : EqDecision SyncCollection.
Proof. solve_decision. Defined.

Definition sync_collection_as_str (c : SyncCollection) : bytes :=
  match c with
  | CRegular => str "regular"
  | CRegularLow => str "regular_low"
  | CRegularHigh => str "regular_high"
  | CCriticalBlock => str "critical_block"
  | CCriticalUnblockLow => str "critical_unblock_low"
  end.

Inductive Scope : Type := SAccount | SChat | SChatMessageRange | SChatOrContact | SMessage.
#[global] Instance Scope_eq_dec : EqDecision Scope.
Proof. solve_decision. Defined.

Definition scope_as_str (s : Scope) : bytes :=
  match s with
  | SAccount => str "account"
  | SChat => str "chat"
  | SChatMessageRange => str "chatMessageRange"
  | SChatOrContact => str "chatOrContact"
  | SMessage => str "message"
  end.

Inductive IndexPart : Type :=
  | PLiteral (value : bytes)
  | PJid (name : bytes)
  | PBoolString (name : bytes)
  | PJidOrZero (name : bytes)
  | PEnum (name proto_enum : bytes)
  | PStringPart (name : bytes)
  | PUnknown (name : bytes).

Record Schema : Type := mkSchema {
  sc_key : bytes; sc_name : bytes; sc_module : bytes; sc_collection : SyncCollection;
  sc_version : Z; sc_scope : Scope; sc_value_field : option bytes;
  sc_value_proto_type : option bytes; sc_value_enum_fields : list (bytes * bytes);
  sc_chat_jid_index : option Z; sc_index_parts : list IndexPart
}.

Definition COLLECTIONS : list SyncCollection :=
  [CRegular; CRegularLow; CRegularHigh; CCriticalBlock; CCriticalUnblockLow].

Definition ADS_CTWA_PER_CUSTOMER_DATA_SHARING : Schema := mkSchema (str "AdsCtwaPerCustomerDataSharing") (str "ctwaPerCustomerDataSharing") (str "WAWebCtwaPerCustomerDataSharingSync")
  CRegularHigh 1 SAccount (Some (str "ctwaPerCustomerDataSharingAction"))
  (Some (str "SyncActionValue.CtwaPerCustomerDataSharingAction"))
  [] None
  [PLiteral (str "ctwaPerCustomerDataSharing"); PStringPart (str "accountLid")].
Definition AGENT : Schema := mkSchema (str "Agent") (str "deviceAgent") (str "WAWebAgentSync")
  CRegular 7 SAccount (Some (str "agentAction"))
  (Some (str "SyncActionValue.AgentAction"))
  [] None
  [PLiteral (str "deviceAgent"); PStringPart (str "agentId")].
Definition AI_THREAD_DELETE : Schema := mkSchema (str "AiThreadDelete") (str "ai_thread_delete") (str "WAWebAiThreadDeleteSync")
  CRegularHigh 7 SChat None
  None
  [] (Some 1)
  [PLiteral (str "ai_thread_delete"); PJid (str "chatJid"); PStringPart (str "id")].
Definition AI_THREAD_PIN : Schema := mkSchema (str "AiThreadPin") (str "thread_pin") (str "WAWebAiThreadPinSync")
  CRegularLow 7 SChat (Some (str "threadPinAction"))
  (Some (str "SyncActionValue.ThreadPinAction"))
  [] (Some 1)
  [PLiteral (str "thread_pin"); PJid (str "chatJid"); PStringPart (str "id")].
Definition AI_THREAD_RENAME : Schema := mkSchema (str "AiThreadRename") (str "ai_thread_rename") (str "WAWebAiThreadRenameSync")
  CRegularLow 7 SChat (Some (str "aiThreadRenameAction"))
  (Some (str "SyncActionValue.AiThreadRenameAction"))
  [] (Some 1)
  [PLiteral (str "ai_thread_rename"); PJid (str "chatJid"); PStringPart (str "id")].
Definition ANDROID_UNSUPPORTED_ACTIONS : Schema := mkSchema (str "AndroidUnsupportedActions") (str "android_unsupported_actions") (str "WAWebAndroidUnsupportedActionsSync")
  CRegularLow 4 SAccount (Some (str "androidUnsupportedActions"))
  (Some (str "SyncActionValue.AndroidUnsupportedActions"))
  [] None
  [PLiteral (str "android_unsupported_actions")].
Definition ARCHIVE : Schema := mkSchema (str "Archive") (str "archive") (str "WAWebArchiveChatSync")
  CRegularLow 3 SChatMessageRange (Some (str "archiveChatAction"))
  (Some (str "SyncActionValue.ArchiveChatAction"))
  [] (Some 1)
  [PLiteral (str "archive"); PJid (str "chatJid")].
Definition AVATAR_UPDATED : Schema := mkSchema (str "AvatarUpdated") (str "avatar_updated_action") (str "WAWebStickersAvatarUpdatedSyncAction")
  CRegular 7 SAccount (Some (str "avatarUpdatedAction"))
  (Some (str "SyncActionValue.AvatarUpdatedAction"))
  [(str "eventType", str "AvatarUpdatedAction.AvatarEventType")] None
  [PLiteral (str "avatar_updated_action")].
Definition BIZ_AI_SETTINGS_NUDGE : Schema := mkSchema (str "BizAiSettingsNudge") (str "biz_ai_settings_nudge") (str "WAWebBizAiSettingsNudgeSync")
  CRegularHigh 1 SAccount (Some (str "bizAiSettingsNudgeAction"))
  (Some (str "SyncActionValue.BizAISettingsNudgeAction"))
  [(str "category", str "BizAISettingsNudgeAction.BizAISettingsCategory")] None
  [PLiteral (str "biz_ai_settings_nudge")].
Definition BOT_WELCOME_REQUEST : Schema := mkSchema (str "BotWelcomeRequest") (str "bot_welcome_request") (str "WAWebBotWelcomeRequestSync")
  CRegularLow 2 SChat (Some (str "botWelcomeRequestAction"))
  (Some (str "SyncActionValue.BotWelcomeRequestAction"))
  [] (Some 1)
  [PLiteral (str "bot_welcome_request"); PJid (str "chatJid")].
Definition BUSINESS_BROADCAST_CAMPAIGN : Schema := mkSchema (str "BusinessBroadcastCampaign") (str "business_broadcast_campaign") (str "WAWebBroadcastCampaignSync")
  CRegular 1 SAccount (Some (str "businessBroadcastCampaignAction"))
  (Some (str "SyncActionValue.BusinessBroadcastCampaignAction"))
  [(str "status", str "BusinessBroadcastCampaignStatus")] None
  [PLiteral (str "business_broadcast_campaign"); PStringPart (str "campaign")].
Definition BUSINESS_BROADCAST_INSIGHTS : Schema := mkSchema (str "BusinessBroadcastInsights") (str "business_broadcast_insights_sync") (str "WAWebBusinessBroadcastInsightsSync")
  CRegular 1 SAccount (Some (str "businessBroadcastInsightsAction"))
  (Some (str "SyncActionValue.BusinessBroadcastInsightsAction"))
  [] None
  [PLiteral (str "business_broadcast_insights_sync"); PStringPart (str "campaignId")].
Definition BUSINESS_BROADCAST_LIST : Schema := mkSchema (str "BusinessBroadcastList") (str "business_broadcast_list") (str "WAWebBroadcastListSync")
  CRegular 1 SAccount (Some (str "businessBroadcastListAction"))
  (Some (str "SyncActionValue.BusinessBroadcastListAction"))
  [] None
  [PLiteral (str "business_broadcast_list"); PStringPart (str "id")].
Definition CALL_LOG : Schema := mkSchema (str "CallLog") (str "call_log") (str "WAWebCallLogSync")
  CRegular 1 SAccount (Some (str "callLogAction"))
  (Some (str "SyncActionValue.CallLogAction"))
  [(str "callLogRecord.callResult", str "CallLogRecord.CallResult"); (str "callLogRecord.callType", str "CallLogRecord.CallType"); (str "callLogRecord.participants.callResult", str "CallLogRecord.CallResult"); (str "callLogRecord.silenceReason", str "CallLogRecord.SilenceReason")] None
  [PLiteral (str "call_log")].
Definition CHAT_ASSIGNMENT : Schema := mkSchema (str "ChatAssignment") (str "agentChatAssignment") (str "WAWebChatAssignmentSync")
  CRegular 7 SChat (Some (str "chatAssignment"))
  (Some (str "SyncActionValue.ChatAssignmentAction"))
  [] (Some 1)
  [PLiteral (str "agentChatAssignment"); PJid (str "chatJid")].
Definition CHAT_ASSIGNMENT_OPENED_STATUS : Schema := mkSchema (str "ChatAssignmentOpenedStatus") (str "agentChatAssignmentOpenedStatus") (str "WAWebChatAssignmentOpenedStatusSync")
  CRegular 7 SChat (Some (str "chatAssignmentOpenedStatus"))
  (Some (str "SyncActionValue.ChatAssignmentOpenedStatusAction"))
  [] (Some 1)
  [PLiteral (str "agentChatAssignmentOpenedStatus"); PJid (str "chatJid"); PStringPart (str "agentId")].
Definition CHAT_LOCK_SETTINGS : Schema := mkSchema (str "ChatLockSettings") (str "setting_chatLock") (str "WAWebChatLockSettingsSync")
  CRegularLow 7 SAccount (Some (str "chatLockSettings"))
  (Some (str "ChatLockSettings"))
  [] None
  [PLiteral (str "setting_chatLock")].
Definition CLEAR_CHAT : Schema := mkSchema (str "ClearChat") (str "clearChat") (str "WAWebClearChatSync")
  CRegularHigh 6 SChatMessageRange (Some (str "clearChatAction"))
  (Some (str "SyncActionValue.ClearChatAction"))
  [] (Some 1)
  [PLiteral (str "clearChat"); PJid (str "chatJid"); PStringPart (str "deleteStarred"); PStringPart (str "deleteMedia")].
Definition CONTACT : Schema := mkSchema (str "Contact") (str "contact") (str "WAWebContactSync")
  CCriticalUnblockLow 2 SAccount (Some (str "contactAction"))
  (Some (str "SyncActionValue.ContactAction"))
  [] None
  [PLiteral (str "contact"); PStringPart (str "id")].
Definition CUSTOM_PAYMENT_METHODS : Schema := mkSchema (str "CustomPaymentMethods") (str "custom_payment_methods") (str "WAWebCustomPaymentMethodsSync")
  CRegularLow 7 SAccount (Some (str "customPaymentMethodsAction"))
  (Some (str "SyncActionValue.CustomPaymentMethodsAction"))
  [] None
  [PLiteral (str "custom_payment_methods")].
Definition CUSTOMER_DATA : Schema := mkSchema (str "CustomerData") (str "customer_data") (str "WAWebCustomerDataSync")
  CRegularLow 1 SAccount (Some (str "customerDataAction"))
  (Some (str "SyncActionValue.CustomerDataAction"))
  [] None
  [PLiteral (str "customer_data"); PStringPart (str "chatJid")].
Definition DELETE_CHAT : Schema := mkSchema (str "DeleteChat") (str "deleteChat") (str "WAWebDeleteChatSync")
  CRegularHigh 6 SChatMessageRange (Some (str "deleteChatAction"))
  (Some (str "SyncActionValue.DeleteChatAction"))
  [] (Some 1)
  [PLiteral (str "deleteChat"); PJid (str "chatJid"); PStringPart (str "deleteMedia")].
Definition DELETE_MESSAGE_FOR_ME : Schema := mkSchema (str "DeleteMessageForMe") (str "deleteMessageForMe") (str "WAWebDeleteMessageForMeSync")
  CRegularHigh 3 SMessage (Some (str "deleteMessageForMeAction"))
  (Some (str "SyncActionValue.DeleteMessageForMeAction"))
  [] (Some 1)
  [PLiteral (str "deleteMessageForMe"); PJid (str "remote"); PStringPart (str "id"); PBoolString (str "fromMe"); PJidOrZero (str "participant")].
Definition DETECTED_OUTCOME_STATUS : Schema := mkSchema (str "DetectedOutcomeStatus") (str "detected_outcomes_status_action") (str "WAWebDetectedOutcomesStatusSync")
  CRegular 1 SAccount (Some (str "detectedOutcomesStatusAction"))
  (Some (str "SyncActionValue.DetectedOutcomesStatusAction"))
  [] None
  [PLiteral (str "detected_outcomes_status_action")].
Definition DEVICE_CAPABILITIES : Schema := mkSchema (str "DeviceCapabilities") (str "device_capabilities") (str "WAWebDeviceCapabilitiesSync")
  CRegularLow 7 SAccount (Some (str "deviceCapabilities"))
  (Some (str "DeviceCapabilities"))
  [] None
  [PLiteral (str "device_capabilities")].
Definition DISABLE_LINK_PREVIEWS : Schema := mkSchema (str "DisableLinkPreviews") (str "setting_disableLinkPreviews") (str "WAWebDisableLinkPreviewsSync")
  CRegular 8 SAccount (Some (str "privacySettingDisableLinkPreviewsAction"))
  (Some (str "SyncActionValue.PrivacySettingDisableLinkPreviewsAction"))
  [] None
  [PLiteral (str "setting_disableLinkPreviews")].
Definition EXTERNAL_WEB_BETA : Schema := mkSchema (str "ExternalWebBeta") (str "external_web_beta") (str "WAWebExternalWebBetaSync")
  CRegular 3 SAccount (Some (str "externalWebBetaAction"))
  (Some (str "SyncActionValue.ExternalWebBetaAction"))
  [] None
  [PLiteral (str "external_web_beta")].
Definition FAVORITE_STICKER : Schema := mkSchema (str "FavoriteSticker") (str "favoriteSticker") (str "WAWebStickersFavoriteSyncAction")
  CRegularLow 7 SAccount (Some (str "stickerAction"))
  (Some (str "SyncActionValue.StickerAction"))
  [] None
  [PLiteral (str "favoriteSticker"); PStringPart (str "filehash")].
Definition FAVORITES : Schema := mkSchema (str "Favorites") (str "favorites") (str "WAWebFavoritesSync")
  CRegularHigh 1 SAccount (Some (str "favoritesAction"))
  (Some (str "SyncActionValue.FavoritesAction"))
  [] None
  [PLiteral (str "favorites")].
Definition INTERACTIVE_MESSAGE_ACTION : Schema := mkSchema (str "InteractiveMessageAction") (str "interactive_message_action") (str "WAWebInteractiveMessageSync")
  CRegularLow 1 SMessage (Some (str "interactiveMessageAction"))
  (Some (str "SyncActionValue.InteractiveMessageAction"))
  [(str "type", str "InteractiveMessageAction.InteractiveMessageActionMode")] (Some 1)
  [PLiteral (str "interactive_message_action"); PJid (str "remote"); PStringPart (str "id"); PBoolString (str "fromMe"); PJidOrZero (str "participant"); PStringPart (str "arg5")].
Definition LABEL_EDIT : Schema := mkSchema (str "LabelEdit") (str "label_edit") (str "WAWebLabelSync")
  CRegular 3 SAccount (Some (str "labelEditAction"))
  (Some (str "SyncActionValue.LabelEditAction"))
  [(str "type", str "LabelEditAction.ListType")] None
  [PLiteral (str "label_edit"); PStringPart (str "id")].
Definition LABEL_JID : Schema := mkSchema (str "LabelJid") (str "label_jid") (str "WAWebLabelJidSync")
  CRegular 3 SChatOrContact (Some (str "labelAssociationAction"))
  (Some (str "SyncActionValue.LabelAssociationAction"))
  [] (Some 2)
  [PLiteral (str "label_jid"); PStringPart (str "labelId"); PJid (str "chatJid")].
Definition LABEL_REORDERING : Schema := mkSchema (str "LabelReordering") (str "label_reordering") (str "WAWebLabelReorderingSync")
  CRegular 3 SAccount (Some (str "labelReorderingAction"))
  (Some (str "SyncActionValue.LabelReorderingAction"))
  [] None
  [PLiteral (str "label_reordering")].
Definition LID_CONTACT : Schema := mkSchema (str "LidContact") (str "lid_contact") (str "WAWebLidContactSync")
  CCriticalUnblockLow 1 SAccount (Some (str "lidContactAction"))
  (Some (str "SyncActionValue.LidContactAction"))
  [] None
  [PLiteral (str "lid_contact"); PStringPart (str "id")].
Definition LOCALE_SETTING : Schema := mkSchema (str "LocaleSetting") (str "setting_locale") (str "WAWebLocaleSettingSync")
  CCriticalBlock 3 SAccount (Some (str "localeSetting"))
  (Some (str "SyncActionValue.LocaleSetting"))
  [] None
  [PLiteral (str "setting_locale")].
Definition LOCK_CHAT : Schema := mkSchema (str "LockChat") (str "lock") (str "WAWebLockChatSync")
  CRegularLow 7 SChat (Some (str "lockChatAction"))
  (Some (str "SyncActionValue.LockChatAction"))
  [] (Some 1)
  [PLiteral (str "lock"); PJid (str "chatJid")].
Definition MARK_CHAT_AS_READ : Schema := mkSchema (str "MarkChatAsRead") (str "markChatAsRead") (str "WAWebMarkChatAsReadSync")
  CRegularLow 3 SChatMessageRange (Some (str "markChatAsReadAction"))
  (Some (str "SyncActionValue.MarkChatAsReadAction"))
  [] (Some 1)
  [PLiteral (str "markChatAsRead"); PJid (str "chatJid")].
Definition MARKETING_MESSAGE : Schema := mkSchema (str "MarketingMessage") (str "marketingMessage") (str "WAWebPremiumMessageSync")
  CRegular 7 SAccount (Some (str "marketingMessageAction"))
  (Some (str "SyncActionValue.MarketingMessageAction"))
  [] None
  [PLiteral (str "marketingMessage"); PStringPart (str "id")].
Definition MARKETING_MESSAGE_BROADCAST : Schema := mkSchema (str "MarketingMessageBroadcast") (str "marketingMessageBroadcast") (str "WAWebPremiumMessageBroadcastSync")
  CRegular 7 SAccount None
  None
  [] None
  [PLiteral (str "marketingMessageBroadcast"); PStringPart (str "premiumMessageId"); PStringPart (str "messageId")].
Definition MERCHANT_PAYMENT_PARTNER : Schema := mkSchema (str "MerchantPaymentPartner") (str "merchant_payment_partner") (str "WAWebMerchantPaymentPartnerSync")
  CRegularLow 7 SAccount None
  None
  [] None
  [PLiteral (str "merchant_payment_partner")].
Definition MUTE : Schema := mkSchema (str "Mute") (str "mute") (str "WAWebMuteChatSync")
  CRegularHigh 2 SChat (Some (str "muteAction"))
  (Some (str "SyncActionValue.MuteAction"))
  [] (Some 1)
  [PLiteral (str "mute"); PJid (str "chatJid")].
Definition NCT_SALT_SYNC : Schema := mkSchema (str "NctSaltSync") (str "nct_salt_sync") (str "WAWebNctSaltSync")
  CRegularHigh 1 SAccount (Some (str "nctSaltSyncAction"))
  (Some (str "SyncActionValue.NctSaltSyncAction"))
  [] None
  [PLiteral (str "nct_salt_sync")].
Definition NOTE_EDIT : Schema := mkSchema (str "NoteEdit") (str "note_edit") (str "WAWebNoteSync")
  CRegularLow 7 SAccount (Some (str "noteEditAction"))
  (Some (str "SyncActionValue.NoteEditAction"))
  [(str "type", str "NoteEditAction.NoteType")] None
  [PLiteral (str "note_edit"); PStringPart (str "id")].
Definition NUX : Schema := mkSchema (str "Nux") (str "nux") (str "WAWebNuxSync")
  CRegularLow 7 SAccount (Some (str "nuxAction"))
  (Some (str "SyncActionValue.NuxAction"))
  [] None
  [PLiteral (str "nux"); PStringPart (str "nuxKey")].
Definition OUT_CONTACT : Schema := mkSchema (str "OutContact") (str "out_contact") (str "WAWebOutContactSync")
  CRegularLow 1 SAccount (Some (str "outContactAction"))
  (Some (str "SyncActionValue.OutContactAction"))
  [] None
  [PLiteral (str "out_contact"); PStringPart (str "id")].
Definition PAYMENT_INFO : Schema := mkSchema (str "PaymentInfo") (str "payment_info") (str "WAWebPaymentInfoSync")
  CRegularLow 7 SAccount (Some (str "paymentInfoAction"))
  (Some (str "SyncActionValue.PaymentInfoAction"))
  [] None
  [PLiteral (str "payment_info")].
Definition PAYMENT_TOS : Schema := mkSchema (str "PaymentTos") (str "payment_tos") (str "WAWebPaymentTosSync")
  CRegularLow 7 SAccount (Some (str "paymentTosAction"))
  (Some (str "SyncActionValue.PaymentTosAction"))
  [(str "paymentNotice", str "PaymentTosAction.PaymentNotice")] None
  [PLiteral (str "payment_tos")].
Definition PIN : Schema := mkSchema (str "Pin") (str "pin_v1") (str "WAWebPinChatSync")
  CRegularLow 5 SChat (Some (str "pinAction"))
  (Some (str "SyncActionValue.PinAction"))
  [] (Some 1)
  [PLiteral (str "pin_v1"); PJid (str "chatJid")].
Definition PN_FOR_LID_CHAT : Schema := mkSchema (str "PnForLidChat") (str "pnForLidChat") (str "WAWebPnForLidChatSync")
  CRegular 8 SAccount (Some (str "pnForLidChatAction"))
  (Some (str "SyncActionValue.PnForLidChatAction"))
  [] None
  [PLiteral (str "pnForLidChat"); PStringPart (str "lid")].
Definition PRIMARY_FEATURE : Schema := mkSchema (str "PrimaryFeature") (str "primary_feature") (str "WAWebPrimaryFeatureSync")
  CRegular 7 SAccount (Some (str "primaryFeature"))
  (Some (str "SyncActionValue.PrimaryFeature"))
  [] None
  [PLiteral (str "primary_feature")].
Definition PRIMARY_VERSION : Schema := mkSchema (str "PrimaryVersion") (str "primary_version") (str "WAWebPrimaryVersionSync")
  CRegularLow 7 SAccount (Some (str "primaryVersionAction"))
  (Some (str "SyncActionValue.PrimaryVersionAction"))
  [] None
  [PLiteral (str "primary_version"); PStringPart (str "key1")].
Definition QUICK_REPLY : Schema := mkSchema (str "QuickReply") (str "quick_reply") (str "WAWebQuickRepliesSync")
  CRegular 2 SAccount (Some (str "quickReplyAction"))
  (Some (str "SyncActionValue.QuickReplyAction"))
  [] None
  [PLiteral (str "quick_reply"); PStringPart (str "id")].
Definition REMOVE_RECENT_STICKER : Schema := mkSchema (str "RemoveRecentSticker") (str "removeRecentSticker") (str "WAWebStickersRemoveRecentSyncAction")
  CRegularLow 7 SAccount (Some (str "removeRecentStickerAction"))
  (Some (str "SyncActionValue.RemoveRecentStickerAction"))
  [] None
  [PLiteral (str "removeRecentSticker"); PStringPart (str "filehash")].
Definition SENTINEL : Schema := mkSchema (str "Sentinel") (str "sentinel") (str "WAWebSentinelMutationSync")
  CRegularLow 3 SAccount (Some (str "keyExpiration"))
  (Some (str "SyncActionValue.KeyExpiration"))
  [] None
  [PLiteral (str "sentinel")].
Definition SETTING_PUSH_NAME : Schema := mkSchema (str "SettingPushName") (str "setting_pushName") (str "WAWebPushNameSync")
  CCriticalBlock 1 SAccount (Some (str "pushNameSetting"))
  (Some (str "SyncActionValue.PushNameSetting"))
  [] None
  [PLiteral (str "setting_pushName")].
Definition SETTINGS_SYNC : Schema := mkSchema (str "SettingsSync") (str "settings_sync") (str "WAWebSettingsSync")
  CRegularLow 1 SAccount (Some (str "settingsSyncAction"))
  (Some (str "SyncActionValue.SettingsSyncAction"))
  [(str "bannerNotificationDisplayMode", str "SettingsSyncAction.DisplayMode"); (str "mediaUploadQuality", str "SettingsSyncAction.MediaQualitySetting"); (str "unreadCounterBadgeDisplayMode", str "SettingsSyncAction.DisplayMode")] (Some 3)
  [PLiteral (str "settings_sync"); PEnum (str "settingPlatform") (str "SettingsSyncAction.SettingPlatform"); PEnum (str "settingKey") (str "SettingsSyncAction.SettingKey"); PJid (str "chatJid")].
Definition SHARE_OWN_PN : Schema := mkSchema (str "ShareOwnPn") (str "shareOwnPn") (str "WAWebShareOwnPnSync")
  CRegular 8 SAccount None
  None
  [] None
  [PLiteral (str "shareOwnPn"); PStringPart (str "lid")].
Definition STAR : Schema := mkSchema (str "Star") (str "star") (str "WAWebStarMessageSync")
  CRegularHigh 2 SMessage (Some (str "starAction"))
  (Some (str "SyncActionValue.StarAction"))
  [] (Some 1)
  [PLiteral (str "star"); PJid (str "remote"); PStringPart (str "id"); PBoolString (str "fromMe"); PJidOrZero (str "participant")].
Definition STATUS_PRIVACY : Schema := mkSchema (str "StatusPrivacy") (str "status_privacy") (str "WAWebStatusPrivacySettingSync")
  CRegularHigh 7 SAccount (Some (str "statusPrivacy"))
  (Some (str "SyncActionValue.StatusPrivacyAction"))
  [] None
  [PLiteral (str "status_privacy")].
Definition SUBSCRIPTIONS_SYNC_V2 : Schema := mkSchema (str "SubscriptionsSyncV2") (str "subscriptions_sync_v2") (str "WAWebSubscriptionsSyncV2Sync")
  CRegular 1 SAccount (Some (str "subscriptionsSyncV2Action"))
  (Some (str "SyncActionValue.SubscriptionsSyncV2Action"))
  [] None
  [PLiteral (str "subscriptions_sync_v2")].
Definition TIME_FORMAT : Schema := mkSchema (str "TimeFormat") (str "time_format") (str "WAWebTimeFormatSync")
  CRegularLow 7 SAccount (Some (str "timeFormatAction"))
  (Some (str "SyncActionValue.TimeFormatAction"))
  [] None
  [PLiteral (str "time_format")].
Definition UNARCHIVE_CHATS_SETTING : Schema := mkSchema (str "UnarchiveChatsSetting") (str "setting_unarchiveChats") (str "WAWebArchiveSettingSync")
  CRegularLow 4 SAccount (Some (str "unarchiveChatsSetting"))
  (Some (str "SyncActionValue.UnarchiveChatsSetting"))
  [] None
  [PLiteral (str "setting_unarchiveChats")].
Definition USER_STATUS_MUTE : Schema := mkSchema (str "UserStatusMute") (str "userStatusMute") (str "WAWebUserStatusMuteSync")
  CRegularHigh 7 SAccount (Some (str "userStatusMuteAction"))
  (Some (str "SyncActionValue.UserStatusMuteAction"))
  [] None
  [PLiteral (str "userStatusMute"); PStringPart (str "id")].
Definition VOIP_RELAY_ALL_CALLS : Schema := mkSchema (str "VoipRelayAllCalls") (str "setting_relayAllCalls") (str "WAWebVoipRelayAllCallsSettingSync")
  CRegular 1 SAccount (Some (str "privacySettingRelayAllCalls"))
  (Some (str "SyncActionValue.PrivacySettingRelayAllCalls"))
  [] None
  [PLiteral (str "setting_relayAllCalls")].
Definition WAFFLE_ACCOUNT_LINK_STATE : Schema := mkSchema (str "WaffleAccountLinkState") (str "waffle_account_link_state") (str "WAWebWaffleAccountLinkStateSync")
  CRegularHigh 1 SAccount (Some (str "waffleAccountLinkStateAction"))
  (Some (str "SyncActionValue.WaffleAccountLinkStateAction"))
  [(str "linkState", str "WaffleAccountLinkStateAction.AccountLinkState")] None
  [PLiteral (str "waffle_account_link_state")].

(** ** The registry *)

Definition ALL : list Schema := [
  ADS_CTWA_PER_CUSTOMER_DATA_SHARING; AGENT; AI_THREAD_DELETE; AI_THREAD_PIN; AI_THREAD_RENAME;
  ANDROID_UNSUPPORTED_ACTIONS; ARCHIVE; AVATAR_UPDATED; BIZ_AI_SETTINGS_NUDGE; BOT_WELCOME_REQUEST;
  BUSINESS_BROADCAST_CAMPAIGN; BUSINESS_BROADCAST_INSIGHTS; BUSINESS_BROADCAST_LIST; CALL_LOG; CHAT_ASSIGNMENT;
  CHAT_ASSIGNMENT_OPENED_STATUS; CHAT_LOCK_SETTINGS; CLEAR_CHAT; CONTACT; CUSTOM_PAYMENT_METHODS;
  CUSTOMER_DATA; DELETE_CHAT; DELETE_MESSAGE_FOR_ME; DETECTED_OUTCOME_STATUS; DEVICE_CAPABILITIES;
  DISABLE_LINK_PREVIEWS; EXTERNAL_WEB_BETA; FAVORITE_STICKER; FAVORITES; INTERACTIVE_MESSAGE_ACTION;
  LABEL_EDIT; LABEL_JID; LABEL_REORDERING; LID_CONTACT; LOCALE_SETTING;
  LOCK_CHAT; MARK_CHAT_AS_READ; MARKETING_MESSAGE; MARKETING_MESSAGE_BROADCAST; MERCHANT_PAYMENT_PARTNER;
  MUTE; NCT_SALT_SYNC; NOTE_EDIT; NUX; OUT_CONTACT;
  PAYMENT_INFO; PAYMENT_TOS; PIN; PN_FOR_LID_CHAT; PRIMARY_FEATURE;
  PRIMARY_VERSION; QUICK_REPLY; REMOVE_RECENT_STICKER; SENTINEL; SETTING_PUSH_NAME;
  SETTINGS_SYNC; SHARE_OWN_PN; STAR; STATUS_PRIVACY; SUBSCRIPTIONS_SYNC_V2;
  TIME_FORMAT; UNARCHIVE_CHATS_SETTING; USER_STATUS_MUTE; VOIP_RELAY_ALL_CALLS; WAFFLE_ACCOUNT_LINK_STATE].

Definition by_name (key : bytes) : option Schema := List.find (fun s => bytes_eqb (sc_key s) key) ALL.

(** ** Its shape *)

Definition is_literal (p : IndexPart) : bool := match p with PLiteral _ => true | _ => false end.

(** The action name is the one literal, at the front; a chat position is a JID; the version
    is a small positive number; an action with a payload has both its field and its type. *)
Definition schema_ok (s : Schema) : bool :=
  match sc_index_parts s with
  | PLiteral v :: rest => bytes_eqb v (sc_name s) && negb (existsb is_literal rest)
  | _ => false
  end
  && match sc_chat_jid_index s with
     | Some i => match sc_index_parts s !! Z.to_nat i with Some (PJid _) => true | _ => false end
     | None => true
     end
  && (0 <? sc_version s) && (sc_version s <? 2 ^ 31)
  && match sc_value_field s, sc_value_proto_type s with
     | Some _, Some _ | None, None => true
     | _, _ => false
     end.

Lemma registry_ok : forallb schema_ok ALL = true.
Proof. vm_compute. reflexivity. Qed.

Lemma registry_keys_unique : NoDup (map sc_key ALL) /\ NoDup (map sc_name ALL).
Proof. split; apply (bool_decide_unpack _); vm_compute; exact I. Qed.
