(* ===== verification/ChatActions.v ===== *)
(** * Chat actions and labels

    [src/features/chat_actions.rs], [src/features/labels.rs] and
    [dispatch_app_state_mutation] of [src/client/app_state.rs]: what the client sends when
    the user archives, pins, mutes, stars, labels and so on, and the events it raises when
    such an action arrives from another device.  An action is a schema of the registry,
    the arguments of its index, and a [SyncActionValue]. *)

From stdpp Require Import prelude strings gmap.
From S2P Require Import Prelude Jid Token Node Writer Attrs LtHash AppState Dedup AppSync AppSend PatchStanza AppClient Schemas.

#[local] Open Scope Z_scope.

(** ** The payloads *)

Record MessageKey : Type := mkMessageKey {
  mk_remote_jid : option bytes; mk_from_me : option bool; mk_id : option bytes; mk_participant : option bytes
}.
Record SyncActionMessageRange : Type := mkRange {
  mr_last_message_timestamp : option Z; mr_last_system_message_timestamp : option Z;
  mr_messages : list (option MessageKey * option Z)
}.
Record MuteAction : Type := mkMuteAction {
  ma_muted : option bool; ma_mute_end_timestamp : option Z; ma_auto_muted : option bool;
  ma_mention_end_timestamp : option Z
}.
Record ContactAction : Type := mkContactAction {
  ca_full_name : option bytes; ca_first_name : option bytes; ca_lid_jid : option bytes;
  ca_save_on_primary : option bool; ca_pn_jid : option bytes; ca_username : option bytes
}.
Record DeleteForMeAction : Type := mkDeleteForMe { dm_delete_media : option bool; dm_message_timestamp : option Z }.
Record LabelEditAction : Type := mkLabelEdit {
  le_name : option bytes; le_color : option Z; le_predefined_id : option Z; le_deleted : option bool;
  le_order_index : option Z; le_is_active : option bool; le_type : option Z; le_is_immutable : option bool;
  le_mute_end : option Z
}.
Record LabelAssociationAction : Type := mkLabelAssociation { la_labeled : option bool; la_model_meta : option bytes }.

(** The fields of [SyncActionValue] that the client sends or reads.  A message with one
    optional field is a nested option. *)
Record SyncActionValue : Type := mkActionValue {
  sv_timestamp : option Z; sv_star : option (option bool); sv_contact : option ContactAction;
  sv_mute : option MuteAction; sv_pin : option (option bool); sv_push_name : option (option bytes);
  sv_label_edit : option LabelEditAction; sv_label_association : option LabelAssociationAction;
  sv_archive : option (option bool * option SyncActionMessageRange);
  sv_delete_for_me : option DeleteForMeAction;
  sv_mark_read : option (option bool * option SyncActionMessageRange);
  sv_clear_chat : option (option SyncActionMessageRange);
  sv_delete_chat : option (option SyncActionMessageRange);
  sv_user_status_mute : option (option bool); sv_nct_salt : option (option bytes)
}.

(** The protobuf value carries these fields, and [serde_json] writes an array of strings that
    it reads back. *)
Class ActionCodec {AC : AppCrypto} : Type := {
  view_value : ActionValue -> SyncActionValue;
  make_value : SyncActionValue -> ActionValue;
  json_array : list bytes -> bytes
}.
Class ActionCodecLaws {AC : AppCrypto} {CD : ActionCodec} : Prop := {
  view_make v : view_value (make_value v) = v;
  json_read l : Forall (fun s => utf8_valid s = true) l -> json_strings (json_array l) = Some l
}.

(** [message_range] and [message_key], for callers that know the messages. *)
Definition message_range (last : Z) (last_system : option Z) (messages : list (MessageKey * Z))
    : SyncActionMessageRange :=
  mkRange (Some last) last_system (map (fun '(k, ts) => (Some k, Some ts)) messages).
Definition message_key (id : bytes) (remote_jid : Jid) (from_me : bool) (participant : option Jid) : MessageKey :=
  mkMessageKey (Some (jid_to_string remote_jid)) (Some from_me) (Some id) (jid_to_string <$> participant).

(** ** Sending *)

Record Action : Type := mkAction { ac_schema : Schema; ac_args : list bytes; ac_value : SyncActionValue }.

Inductive ActionError : Type :=
  | MuteEndNotPositive
  | MuteEndInPast (mute_end now : Z)
  | ParticipantRequired
  | NotAContactId
  | EmptyLabelId
  | EmptyLabelName
  | IndexArgs (name : bytes) (expected got : Z).

Definition MUTE_INDEFINITE : Z := -1.
Definition bool_str (b : bool) : bytes := if b then str "1" else str "0".

Section Sending.
Context (now : Z).

Definition send_archive_mutation (jid : Jid) (archived : bool) (r : option SyncActionMessageRange)
    : outcome ActionError Action :=
  Ok (mkAction ARCHIVE [jid_to_string jid]
        (mkActionValue (Some now) None None None None None None None (Some (Some archived, r)) None None None None None None)).
Definition archive_chat (jid : Jid) (r : option SyncActionMessageRange) := send_archive_mutation jid true r.
Definition unarchive_chat (jid : Jid) (r : option SyncActionMessageRange) := send_archive_mutation jid false r.

Definition send_pin_mutation (jid : Jid) (pinned : bool) : outcome ActionError Action :=
  Ok (mkAction PIN [jid_to_string jid]
        (mkActionValue (Some now) None None None (Some (Some pinned)) None None None None None None None None None None)).
Definition pin_chat (jid : Jid) := send_pin_mutation jid true.
Definition unpin_chat (jid : Jid) := send_pin_mutation jid false.

Definition send_mute_mutation (jid : Jid) (muted : bool) (mute_end_timestamp_ms : Z) : outcome ActionError Action :=
  let mute_end := if muted then Some mute_end_timestamp_ms else Some 0 in
  Ok (mkAction MUTE [jid_to_string jid]
        (mkActionValue (Some now) None None (Some (mkMuteAction (Some muted) mute_end None None))
           None None None None None None None None None None None)).
Definition mute_chat (jid : Jid) := send_mute_mutation jid true MUTE_INDEFINITE.
Definition mute_chat_until (jid : Jid) (mute_end_timestamp_ms : Z) : outcome ActionError Action :=
  if mute_end_timestamp_ms <=? 0 then Err MuteEndNotPositive
  else if mute_end_timestamp_ms <=? now then Err (MuteEndInPast mute_end_timestamp_ms now)
  else send_mute_mutation jid true mute_end_timestamp_ms.
Definition unmute_chat (jid : Jid) := send_mute_mutation jid false 0.

Definition message_key_owned (chat_jid : Jid) (participant_jid : option Jid) (from_me : bool)
    : outcome ActionError (bytes * option bytes) :=
  if is_group chat_jid && negb from_me && is_none participant_jid then Err ParticipantRequired
  else Ok (jid_to_string chat_jid, jid_to_string <$> participant_jid).

Definition send_star_mutation (chat_jid : Jid) (participant_jid : option Jid) (message_id : bytes)
    (from_me starred : bool) : outcome ActionError Action :=
  '(chat, participant) ← message_key_owned chat_jid participant_jid from_me;
  Ok (mkAction STAR [chat; message_id; bool_str from_me; default (str "0") participant]
        (mkActionValue (Some now) (Some (Some starred)) None None None None None None None None None None None None None)).
Definition star_message (chat : Jid) (participant : option Jid) (id : bytes) (from_me : bool) :=
  send_star_mutation chat participant id from_me true.
Definition unstar_message (chat : Jid) (participant : option Jid) (id : bytes) (from_me : bool) :=
  send_star_mutation chat participant id from_me false.

Definition mark_chat_as_read (jid : Jid) (read : bool) (r : option SyncActionMessageRange)
    : outcome ActionError Action :=
  Ok (mkAction MARK_CHAT_AS_READ [jid_to_string jid]
        (mkActionValue (Some now) None None None None None None None None None (Some (Some read, r)) None None None None)).

Definition delete_chat (jid : Jid) (delete_media : bool) (r : option SyncActionMessageRange)
    : outcome ActionError Action :=
  Ok (mkAction DELETE_CHAT [jid_to_string jid; if delete_media then str "1" else str "0"]
        (mkActionValue (Some now) None None None None None None None None None None None (Some r) None None)).

Definition clear_chat (jid : Jid) (delete_starred delete_media : bool) (r : option SyncActionMessageRange)
    : outcome ActionError Action :=
  Ok (mkAction CLEAR_CHAT
        [jid_to_string jid; if delete_starred then str "1" else str "0"; if delete_media then str "1" else str "0"]
        (mkActionValue (Some now) None None None None None None None None None None (Some r) None None None)).

Definition set_user_status_mute (jid : Jid) (muted : bool) : outcome ActionError Action :=
  Ok (mkAction USER_STATUS_MUTE [jid_to_string jid]
        (mkActionValue (Some now) None None None None None None None None None None None None (Some (Some muted)) None)).

Definition delete_message_for_me (chat_jid : Jid) (participant_jid : option Jid) (message_id : bytes)
    (from_me delete_media : bool) (message_timestamp : option Z) : outcome ActionError Action :=
  '(chat, participant) ← message_key_owned chat_jid participant_jid from_me;
  Ok (mkAction DELETE_MESSAGE_FOR_ME [chat; message_id; bool_str from_me; default (str "0") participant]
        (mkActionValue (Some now) None None None None None None None None
           (Some (mkDeleteForMe (Some delete_media) message_timestamp)) None None None None None)).

Definition is_valid_contact_id (jid : Jid) : bool := server_eqb (j_server jid) Pn && (j_device jid =? 0).
Definition save_contact (jid : Jid) (full_name first_name : option bytes) (save_on_primary : bool)
    : outcome ActionError Action :=
  if negb (is_valid_contact_id jid) then Err NotAContactId
  else
    Ok (mkAction CONTACT [jid_to_string jid]
          (mkActionValue (Some now) None (Some (mkContactAction full_name first_name None (Some save_on_primary) None None))
             None None None None None None None None None None None None)).

(** *** Labels *)

Definition create_label (label_id name : bytes) (color : Z) : outcome ActionError Action :=
  if bool_decide (label_id = []) then Err EmptyLabelId
  else if bool_decide (name = []) then Err EmptyLabelName
  else
    Ok (mkAction LABEL_EDIT [label_id]
          (mkActionValue (Some now) None None None None None
             (Some (mkLabelEdit (Some name) (Some color) None (Some false) None None None None None))
             None None None None None None None None)).

Definition delete_label (label_id : bytes) : outcome ActionError Action :=
  if bool_decide (label_id = []) then Err EmptyLabelId
  else
    Ok (mkAction LABEL_EDIT [label_id]
          (mkActionValue (Some now) None None None None None
             (Some (mkLabelEdit None None None (Some true) None None None None None))
             None None None None None None None None)).

Definition send_association (label_id : bytes) (chat_jid : Jid) (labeled : bool) : outcome ActionError Action :=
  if bool_decide (label_id = []) then Err EmptyLabelId
  else
    Ok (mkAction LABEL_JID [label_id; jid_to_string chat_jid]
          (mkActionValue (Some now) None None None None None None
             (Some (mkLabelAssociation (Some labeled) None)) None None None None None None None)).
Definition add_chat_label (label_id : bytes) (chat : Jid) := send_association label_id chat true.
Definition remove_chat_label (label_id : bytes) (chat : Jid) := send_association label_id chat false.
End Sending.

(** ** The index *)

Fixpoint fill_parts (parts : list IndexPart) (args : list bytes) : outcome ActionError (list bytes) :=
  match parts with
  | [] => Ok []
  | PLiteral v :: rest => l ← fill_parts rest args; Ok (v :: l)
  | _ :: rest =>
      match args with
      | a :: args => l ← fill_parts rest args; Ok (a :: l)
      | [] => Panic
      end
  end.

(** The strings of the index, before they are written as JSON.  Running out of arguments is
    the [expect] that the count excludes. *)
Definition build_action_index (schema : Schema) (args : list bytes) : outcome ActionError (list bytes) :=
  let non_literal := zlen (List.filter (fun p => negb (is_literal p)) (sc_index_parts schema)) in
  if negb (zlen args =? non_literal) then Err (IndexArgs (sc_name schema) non_literal (zlen args))
  else fill_parts (sc_index_parts schema) args.

Definition collection_patch_name (c : SyncCollection) : WAPatchName :=
  match c with
  | CRegular => Regular
  | CRegularLow => RegularLow
  | CRegularHigh => RegularHigh
  | CCriticalBlock => CriticalBlock
  | CCriticalUnblockLow => CriticalUnblockLow
  end.

(** ** Sending it *)

(** The error of a call: its arguments, or the task. *)
Inductive CallError : Type :=
  | CallAction (e : ActionError)
  | CallTask (e : TaskError).

Section Client.
Context {W : Type} {HW : Host W} {H : Hkdf} {AC : AppCrypto} {AE : AppEncrypt} {CD : ActionCodec}.
Context {KS : KeyStore} {BP : BlobProto} {SP : SyncProto} {TM : TokenMaps} (big_endian : bool).

(** [iv] is what the random generator returns. *)
Definition send_app_state_mutation (latest_key_id : outcome SyncError (option bytes)) (iv : bytes)
    (collection : WAPatchName) (index : bytes) (value : SyncActionValue) (v : Z) : task (W := W) unit :=
  latest ← lift (map_err AnySync latest_key_id);
  key_id ← lift (ok_or latest (AnySync NoSyncKey));
  keys ← call_processor (fun p =>
           let '(cache, r) := get_app_state_key (p_cache p) key_id in (mkProcessor cache (p_store p) (p_faults p), r));
  m ← lift (match encode_record OpSet index (make_value value) keys key_id iv v with
            | Ok (m, _) => Ok m
            | Err e => Err (AnySync (Processing e))
            | Panic => Panic
            | Timeout => Timeout
            end);
  send_app_state_patch big_endian latest_key_id (patch_name_as_str collection) [m].

(** [send_app_state_action] *)
Definition send_app_state_action (latest_key_id : outcome SyncError (option bytes)) (iv : bytes) (a : Action)
    (s : Client * W) : outcome CallError unit * (Client * W) :=
  match build_action_index (ac_schema a) (ac_args a) with
  | Ok parts =>
      let '(r, s) := send_app_state_mutation latest_key_id iv (collection_patch_name (sc_collection (ac_schema a)))
                       (json_array parts) (ac_value a) (sc_version (ac_schema a)) s in
      (map_err CallTask r, s)
  | Err e => (Err (CallAction e), s)
  | Panic => (Panic, s)
  | Timeout => (Timeout, s)
  end.
End Client.

(** ** Receiving *)

Inductive Event : Type :=
  | EMuteUpdate (jid : Jid) (time : Z) (action : MuteAction) (full : bool)
  | EPinUpdate (jid : Jid) (time : Z) (pinned : option bool) (full : bool)
  | EArchiveUpdate (jid : Jid) (time : Z) (action : option bool * option SyncActionMessageRange) (full : bool)
  | EStarUpdate (chat : Jid) (participant : option Jid) (message_id : bytes) (from_me : bool) (time : Z)
      (starred : option bool) (full : bool)
  | EContactUpdate (jid : Jid) (time : Z) (action : ContactAction) (full : bool)
  | EMarkChatAsReadUpdate (jid : Jid) (time : Z) (action : option bool * option SyncActionMessageRange) (full : bool)
  | EDeleteChatUpdate (jid : Jid) (delete_media : bool) (time : Z) (action : option SyncActionMessageRange) (full : bool)
  | EClearChatUpdate (jid : Jid) (delete_starred delete_media : bool) (time : Z)
      (action : option SyncActionMessageRange) (full : bool)
  | EUserStatusMuteUpdate (jid : Jid) (muted : bool) (time : Z) (action : option bool) (full : bool)
  | EDeleteMessageForMeUpdate (chat : Jid) (participant : option Jid) (message_id : bytes) (from_me : bool) (time : Z)
      (action : DeleteForMeAction) (full : bool)
  | ELabelEditUpdate (label_id : bytes) (time : Z) (action : LabelEditAction) (full : bool)
  | ELabelAssociationUpdate (label_id : bytes) (chat : Jid) (time : Z) (action : LabelAssociationAction) (full : bool)
  | ESelfPushNameUpdated (from_server : bool) (old_name new_name : bytes).

(** The part of the device that mutations change. *)
Record DeviceState : Type := mkDevice { dv_nct_salt : option bytes; dv_push_name : bytes }.

(** What a handler does besides changing the device. *)
Inductive Effect : Type :=
  | Emit (e : Event)
  | SendAvailable.

Section Receiving.
Context {AC : AppCrypto} {CD : ActionCodec}.
(** The range of the time library, and the clock that replaces a time outside it. *)
Context (representable : Z -> bool) (now : Z).

Definition from_millis_or_now (ts : Z) : Z := if representable ts then ts else now.

Definition action_of (m : Mutation) : option SyncActionValue := view_value <$> action_value m.
Definition mutation_time (m : Mutation) : Z := from_millis_or_now (default 0 (v ← action_of m; sv_timestamp v)).

Definition parse_message_key_fields (index : list bytes) : option (bytes * bool * option Jid) :=
  match index with
  | _ :: _ :: message_id :: from_me :: participant :: _ =>
      if negb (bytes_eqb participant (str "0")) then
        match jid_from_str participant with
        | Ok j => Some (message_id, bytes_eqb from_me (str "1"), Some j)
        | _ => None
        end
      else Some (message_id, bytes_eqb from_me (str "1"), None)
  | _ => None
  end.

Definition chat_kinds : list bytes :=
  [str "mute"; str "pin"; str "pin_v1"; str "archive"; str "star"; str "contact"; str "mark_chat_as_read";
   str "markChatAsRead"; str "deleteChat"; str "clearChat"; str "userStatusMute"; str "deleteMessageForMe"].

Definition is_set_op (m : Mutation) : bool := match operation m with OpSet => true | OpRemove => false end.

(** The event of a chat mutation whose JID parsed. *)
Definition chat_event (kind : bytes) (m : Mutation) (jid : Jid) (full : bool) : option Event :=
  let time := mutation_time m in
  v ← action_of m;
  if bytes_eqb kind (str "mute") then a ← sv_mute v; Some (EMuteUpdate jid time a full)
  else if bytes_eqb kind (str "pin") || bytes_eqb kind (str "pin_v1") then
    a ← sv_pin v; Some (EPinUpdate jid time a full)
  else if bytes_eqb kind (str "archive") then a ← sv_archive v; Some (EArchiveUpdate jid time a full)
  else if bytes_eqb kind (str "star") then
    a ← sv_star v;
    '(id, from_me, participant) ← parse_message_key_fields (mut_index m);
    Some (EStarUpdate jid participant id from_me time a full)
  else if bytes_eqb kind (str "contact") then a ← sv_contact v; Some (EContactUpdate jid time a full)
  else if bytes_eqb kind (str "mark_chat_as_read") || bytes_eqb kind (str "markChatAsRead") then
    a ← sv_mark_read v; Some (EMarkChatAsReadUpdate jid time a full)
  else if bytes_eqb kind (str "deleteChat") then
    a ← sv_delete_chat v;
    let delete_media := match mut_index m !! 2%nat with Some x => negb (bytes_eqb x (str "0")) | None => true end in
    Some (EDeleteChatUpdate jid delete_media time a full)
  else if bytes_eqb kind (str "clearChat") then
    a ← sv_clear_chat v;
    let is_one i := match mut_index m !! i with Some x => bytes_eqb x (str "1") | None => false end in
    Some (EClearChatUpdate jid (is_one 2%nat) (is_one 3%nat) time a full)
  else if bytes_eqb kind (str "userStatusMute") then
    a ← sv_user_status_mute v; Some (EUserStatusMuteUpdate jid (default false a) time a full)
  else if bytes_eqb kind (str "deleteMessageForMe") then
    a ← sv_delete_for_me v;
    '(id, from_me, participant) ← parse_message_key_fields (mut_index m);
    Some (EDeleteMessageForMeUpdate jid participant id from_me time a full)
  else None.

(** Whether the mutation was handled, and the event it raised. *)
Definition dispatch_chat_mutation (m : Mutation) (full : bool) : bool * option Event :=
  match mut_index m with
  | kind :: rest =>
      if negb (is_set_op m) then (false, None)
      else if negb (existsb (bytes_eqb kind) chat_kinds) then (false, None)
      else
        match rest with
        | [] => (true, None)
        | j :: _ =>
            match jid_from_str j with
            | Ok jid => (true, chat_event kind m jid full)
            | _ => (true, None)
            end
        end
  | [] => (false, None)
  end.

Definition dispatch_label_mutation (m : Mutation) (full : bool) : bool * option Event :=
  match mut_index m with
  | kind :: rest =>
      if negb (is_set_op m) then (false, None)
      else
        let edit := bytes_eqb kind (str "label_edit") in
        if negb (edit || bytes_eqb kind (str "label_jid")) then (false, None)
        else
          match rest with
          | [] => (true, None)
          | label_id :: rest =>
              if edit then
                (true, v ← action_of m; a ← sv_label_edit v; Some (ELabelEditUpdate label_id (mutation_time m) a full))
              else
                match rest with
                | [] => (true, None)
                | s :: _ =>
                    match jid_from_str s with
                    | Ok chat => (true, v ← action_of m; a ← sv_label_association v;
                                        Some (ELabelAssociationUpdate label_id chat (mutation_time m) a full))
                    | _ => (true, None)
                    end
                end
          end
  | [] => (false, None)
  end.

Definition emit (e : option Event) : list Effect := match e with Some e => [Emit e] | None => [] end.

Definition dispatch_app_state_mutation (m : Mutation) (full : bool) (d : DeviceState)
    : DeviceState * list Effect :=
  match mut_index m with
  | [] => (d, [])
  | kind :: _ =>
      if bytes_eqb kind (str "nct_salt_sync") then
        if negb (is_set_op m) then (mkDevice None (dv_push_name d), [])
        else
          match v ← action_of m; mjoin (sv_nct_salt v) with
          | Some salt => if bool_decide (salt = []) then (d, []) else (mkDevice (Some salt) (dv_push_name d), [])
          | None => (d, [])
          end
      else if negb (is_set_op m) then (d, [])
      else
        match dispatch_chat_mutation m full with
        | (true, e) => (d, emit e)
        | (false, _) =>
            match dispatch_label_mutation m full with
            | (true, e) => (d, emit e)
            | (false, _) =>
                match bytes_eqb kind (str "setting_pushName"), v ← action_of m; mjoin (sv_push_name v) with
                | true, Some new_name =>
                    let old := dv_push_name d in
                    if bytes_eqb old new_name then (d, [])
                    else
                      (mkDevice (dv_nct_salt d) new_name,
                       Emit (ESelfPushNameUpdated true old new_name)
                       :: if bool_decide (old = []) && negb (bool_decide (new_name = [])) then [SendAvailable] else [])
                | _, _ => (d, [])
                end
            end
        end
  end.

(** The mutations a task hands on, one after the other. *)
Definition deliver (l : list (Mutation * bool)) (d : DeviceState) : DeviceState * list Effect :=
  fold_left (fun '(d, es) '(m, full) => let '(d, es') := dispatch_app_state_mutation m full d in (d, es ++ es'))
    l (d, []).
End Receiving.
