(* ===== verification/ActionEvents.v ===== *)
(** * An action on one device is an event on the other

    The calls of [ChatActions] and [Labels] as one type, the event each should raise, and the
    theorem that sending and receiving agree: through the index and the payload alone, then
    through the whole path of encryption, patch, server and synchronisation. *)

From stdpp Require Import prelude strings gmap.
From S2P Require Import Prelude Jid Token Node Writer Attrs LtHash AppState Dedup AppSync AppSend PatchStanza SyncTyped AppClient SyncTasks SyncConverge Schemas ChatActions.

#[local] Open Scope Z_scope.

(** ** Calls *)

Inductive ChatCall : Type :=
  | CallArchive (jid : Jid) (archived : bool) (r : option SyncActionMessageRange)
  | CallPin (jid : Jid) (pinned : bool)
  | CallMute (jid : Jid) | CallMuteUntil (jid : Jid) (mute_end : Z) | CallUnmute (jid : Jid)
  | CallStar (chat : Jid) (participant : option Jid) (id : bytes) (from_me starred : bool)
  | CallMarkRead (jid : Jid) (read : bool) (r : option SyncActionMessageRange)
  | CallDeleteChat (jid : Jid) (delete_media : bool) (r : option SyncActionMessageRange)
  | CallClearChat (jid : Jid) (delete_starred delete_media : bool) (r : option SyncActionMessageRange)
  | CallStatusMute (jid : Jid) (muted : bool)
  | CallDeleteForMe (chat : Jid) (participant : option Jid) (id : bytes) (from_me delete_media : bool) (ts : option Z)
  | CallSaveContact (jid : Jid) (full_name first_name : option bytes) (save_on_primary : bool)
  | CallCreateLabel (label_id name : bytes) (color : Z)
  | CallDeleteLabel (label_id : bytes)
  | CallLabelChat (label_id : bytes) (chat : Jid) (labeled : bool).

Definition make_call (now : Z) (c : ChatCall) : outcome ActionError Action :=
  match c with
  | CallArchive j archived r => (if archived then archive_chat else unarchive_chat) now j r
  | CallPin j pinned => (if pinned then pin_chat else unpin_chat) now j
  | CallMute j => mute_chat now j
  | CallMuteUntil j e => mute_chat_until now j e
  | CallUnmute j => unmute_chat now j
  | CallStar c p id fm starred => (if starred then star_message else unstar_message) now c p id fm
  | CallMarkRead j read r => mark_chat_as_read now j read r
  | CallDeleteChat j dm r => delete_chat now j dm r
  | CallClearChat j ds dm r => clear_chat now j ds dm r
  | CallStatusMute j muted => set_user_status_mute now j muted
  | CallDeleteForMe c p id fm dm ts => delete_message_for_me now c p id fm dm ts
  | CallSaveContact j f g s => save_contact now j f g s
  | CallCreateLabel id name color => create_label now id name color
  | CallDeleteLabel id => delete_label now id
  | CallLabelChat id chat labeled => (if labeled then add_chat_label else remove_chat_label) now id chat
  end.

(** The event the user's other devices should see. *)
Definition event_of (now : Z) (full : bool) (c : ChatCall) : Event :=
  match c with
  | CallArchive j archived r => EArchiveUpdate j now (Some archived, r) full
  | CallPin j pinned => EPinUpdate j now (Some pinned) full
  | CallMute j => EMuteUpdate j now (mkMuteAction (Some true) (Some MUTE_INDEFINITE) None None) full
  | CallMuteUntil j e => EMuteUpdate j now (mkMuteAction (Some true) (Some e) None None) full
  | CallUnmute j => EMuteUpdate j now (mkMuteAction (Some false) (Some 0) None None) full
  | CallStar c p id fm starred => EStarUpdate c p id fm now (Some starred) full
  | CallMarkRead j read r => EMarkChatAsReadUpdate j now (Some read, r) full
  | CallDeleteChat j dm r => EDeleteChatUpdate j dm now r full
  | CallClearChat j ds dm r => EClearChatUpdate j ds dm now r full
  | CallStatusMute j muted => EUserStatusMuteUpdate j muted now (Some muted) full
  | CallDeleteForMe c p id fm dm ts =>
      EDeleteMessageForMeUpdate c p id fm now (mkDeleteForMe (Some dm) ts) full
  | CallSaveContact j f g s => EContactUpdate j now (mkContactAction f g None (Some s) None None) full
  | CallCreateLabel id name color =>
      ELabelEditUpdate id now (mkLabelEdit (Some name) (Some color) None (Some false) None None None None None) full
  | CallDeleteLabel id =>
      ELabelEditUpdate id now (mkLabelEdit None None None (Some true) None None None None None) full
  | CallLabelChat id chat labeled =>
      ELabelAssociationUpdate id chat now (mkLabelAssociation (Some labeled) None) full
  end.

(** The JIDs and the texts that go into the index. *)
Definition call_jids (c : ChatCall) : list Jid :=
  match c with
  | CallArchive j _ _ | CallPin j _ | CallMute j | CallMuteUntil j _ | CallUnmute j | CallMarkRead j _ _
  | CallDeleteChat j _ _ | CallClearChat j _ _ _ | CallStatusMute j _ | CallSaveContact j _ _ _
  | CallLabelChat _ j _ => [j]
  | CallStar c p _ _ _ | CallDeleteForMe c p _ _ _ _ => c :: match p with Some p => [p] | None => [] end
  | CallCreateLabel _ _ _ | CallDeleteLabel _ => []
  end.
Definition call_canonical (c : ChatCall) : bool := forallb display_canonical (call_jids c).

(** The arguments a call is refused for. *)
Definition call_valid (now : Z) (c : ChatCall) : bool :=
  match c with
  | CallMuteUntil _ e => (0 <? e) && (now <? e)
  | CallStar c p _ fm _ | CallDeleteForMe c p _ fm _ _ => negb (is_group c && negb fm && is_none p)
  | CallSaveContact j _ _ _ => is_valid_contact_id j
  | CallCreateLabel id name _ => negb (bool_decide (id = [])) && negb (bool_decide (name = []))
  | CallDeleteLabel id | CallLabelChat id _ _ => negb (bool_decide (id = []))
  | _ => true
  end.

(** ** The index *)

Lemma fill_parts_args parts args : existsb is_literal parts = false -> length args = length parts ->
  fill_parts parts args = Ok args.
Proof.
  revert args. induction parts as [|p parts IH]; intros [|a args] Hl Hn; try done.
  cbn [existsb] in Hl. apply orb_false_iff in Hl as [Hp Hl]. injection Hn as Hn.
  destruct p; try done; cbn [fill_parts]; by rewrite IH.
Qed.

(** For a schema of the registry, the index is the action's name and the arguments. *)
Lemma build_index_spec s args : schema_ok s = true -> length (sc_index_parts s) = S (length args) ->
  build_action_index s args = Ok (sc_name s :: args).
Proof.
  unfold schema_ok, build_action_index. rewrite !andb_true_iff. intros ((((Hp & _) & _) & _) & _) Hn.
  destruct (sc_index_parts s) as [|[v|n|n|n|n e|n|n] rest]; try done.
  apply andb_true_iff in Hp as [Hv Hl]. apply bytes_eqb_eq in Hv as ->. apply negb_true_iff in Hl.
  cbn [length] in Hn. injection Hn as Hn. cbn [List.filter is_literal negb].
  assert (Hf : List.filter (fun p => negb (is_literal p)) rest = rest).
  { clear Hn. induction rest as [|p rest IH]; [done|]. cbn [existsb] in Hl. apply orb_false_iff in Hl as [Hp Hl].
    cbn [List.filter]. rewrite Hp. cbn [negb]. by rewrite IH. }
  rewrite Hf. unfold zlen. rewrite Hn, Z.eqb_refl. cbn [negb fill_parts]. by rewrite fill_parts_args.
Qed.

(** A call is sent exactly when its arguments are valid, and the registry has room for them. *)
Lemma make_call_valid now c : call_valid now c = true ->
  exists a, make_call now c = Ok a /\ schema_ok (ac_schema a) = true
            /\ length (sc_index_parts (ac_schema a)) = S (length (ac_args a)).
Proof.
  destruct c; cbn [call_valid make_call]; intros Hv;
    repeat match goal with |- context [if ?b then archive_chat else _] => destruct b
      | |- context [if ?b then pin_chat else _] => destruct b
      | |- context [if ?b then star_message else _] => destruct b
      | |- context [if ?b then add_chat_label else _] => destruct b end;
    unfold mute_chat_until, save_contact, create_label, delete_label, add_chat_label, remove_chat_label, send_association,
      star_message, unstar_message, send_star_mutation, delete_message_for_me, message_key_owned;
    repeat match goal with
    | H : _ && _ = true |- _ => apply andb_true_iff in H as [? ?]
    | H : negb _ = true |- _ => apply negb_true_iff in H
    | H : (_ <? _) = true |- _ => apply Z.ltb_lt in H
    end;
    repeat match goal with
    | |- context [?a <=? ?b] => destruct (Z.leb_spec a b); [lia|]
    | H : ?b = _ |- context [?b] => rewrite H
    end; cbn [negb mbind outcome_bind];
    (eexists; split; [reflexivity|split; reflexivity]).
Qed.

Lemma make_call_invalid now c : call_valid now c = false -> exists e, make_call now c = Err e.
Proof.
  destruct c; cbn [call_valid make_call]; intros Hv; try done;
    repeat match goal with
      | |- context [if ?b then star_message else _] => destruct b
      | |- context [if ?b then add_chat_label else _] => destruct b end;
    unfold mute_chat_until, save_contact, create_label, delete_label, add_chat_label, remove_chat_label, send_association,
      star_message, unstar_message, send_star_mutation, delete_message_for_me, message_key_owned;
    try (apply negb_false_iff in Hv; rewrite Hv; by eexists).
  - destruct (Z.leb_spec mute_end 0); [by eexists|]. destruct (Z.leb_spec mute_end now); [by eexists|].
    apply andb_false_iff in Hv as [Hv|Hv]; apply Z.ltb_ge in Hv; lia.
  - rewrite Hv. by eexists.
  - case_bool_decide; [by eexists|]. case_bool_decide; [by eexists|done].
Qed.

(** ** Receiving a call *)

Lemma printed_not_zero j : display_canonical j = true -> bytes_eqb (jid_to_string j) (str "0") = false.
Proof.
  intros Hj. apply from_str_to_string in Hj. apply bytes_eqb_neq. intros E. rewrite E in Hj. discriminate Hj.
Qed.

Lemma parse_key_fields (kind chat mid : bytes) (from_me : bool) (participant : option Jid) :
  forallb display_canonical (match participant with Some p => [p] | None => [] end) = true ->
  parse_message_key_fields [kind; chat; mid; bool_str from_me; default (str "0") (jid_to_string <$> participant)]
  = Some (mid, from_me, participant).
Proof.
  intros Hp. unfold parse_message_key_fields.
  replace (bytes_eqb (bool_str from_me) (str "1")) with from_me by (by destruct from_me).
  destruct participant as [p|]; cbn [fmap option_fmap option_map default from_option]; [|done].
  unfold id. cbn in Hp. rewrite andb_true_r in Hp. rewrite printed_not_zero by done. cbn [negb].
  by rewrite from_str_to_string.
Qed.

(** Decides the comparisons of action names. *)
Ltac compare_names :=
  repeat match goal with
  | |- context [bytes_eqb (sc_name ?s) (str ?t)] =>
      let b := eval vm_compute in (bytes_eqb (sc_name s) (str t)) in
      change (bytes_eqb (sc_name s) (str t)) with b
  | |- context [existsb (bytes_eqb (sc_name ?s)) chat_kinds] =>
      let b := eval vm_compute in (existsb (bytes_eqb (sc_name s)) chat_kinds) in
      change (existsb (bytes_eqb (sc_name s)) chat_kinds) with b
  end.

Section Receive.
Context {AC : AppCrypto} {CD : ActionCodec} {CL : ActionCodecLaws} (representable : Z -> bool) (clock : Z).

(** The mutation that arrives for an action. *)
Definition received (a : Action) : Mutation :=
  mkMut (Some (make_value (ac_value a))) (sc_name (ac_schema a) :: ac_args a) OpSet.

Lemma action_of_received a : action_of (received a) = Some (ac_value a).
Proof. unfold action_of, received. cbn. by rewrite view_make. Qed.

Lemma received_time a now : sv_timestamp (ac_value a) = Some now -> representable now = true ->
  mutation_time representable clock (received a) = now.
Proof.
  intros Ht Hr. unfold mutation_time. rewrite action_of_received. cbn [mbind option_bind]. rewrite Ht.
  cbn [default from_option]. unfold id, from_millis_or_now. by rewrite Hr.
Qed.

(** Opens a call that was accepted. *)
Ltac open_call Ha :=
  cbn [make_call] in Ha;
  unfold mute_chat_until, save_contact, create_label, delete_label, add_chat_label, remove_chat_label,
    send_association, star_message, unstar_message, send_star_mutation, delete_message_for_me, message_key_owned in Ha;
  repeat match type of Ha with context [if ?b then _ else _] => destruct b; try discriminate Ha end;
  cbn [mbind outcome_bind] in Ha; injection Ha as <-.

Lemma dispatch_received now full c a d : call_canonical c = true -> representable now = true ->
  make_call now c = Ok a ->
  dispatch_app_state_mutation representable clock (received a) full d = (d, [Emit (event_of now full c)]).
Proof.
  intros Hc Hr Ha.
  assert (Ht : sv_timestamp (ac_value a) = Some now) by (destruct c; open_call Ha; reflexivity).
  unfold dispatch_app_state_mutation, dispatch_chat_mutation, dispatch_label_mutation, chat_event.
  rewrite (received_time a now Ht Hr), action_of_received. clear Ht Hr.
  unfold received. cbn [mut_index operation is_set_op negb].
  unfold call_canonical in Hc.
  destruct c; open_call Ha; cbn [ac_schema ac_args ac_value]; compare_names; cbn [negb orb];
    cbn [call_jids forallb] in Hc; try (apply andb_true_iff in Hc as [Hc Hp]); try rewrite (from_str_to_string _ Hc);
    try rewrite parse_key_fields by done; try done;
    repeat match goal with b : bool |- _ => destruct b end; reflexivity.
Qed.
End Receive.

(** ** The whole way *)

Section Travel.
Context {H : Hkdf} {AC : AppCrypto} {AE : AppEncrypt} {AL : AppEncryptLaws} {CD : ActionCodec} {CL : ActionCodecLaws}.
Context {KS : KeyStore} {KL : KeyStoreLaws} (big : bool) (key_id : bytes) (keys : ExpandedAppStateKeys).
Context (Hkey : backend_key key_id = Ok keys) (Hlen : zlen (k_value_encryption keys) = 32).

(** The mutation that seals an action. *)
Definition sealed_action (iv : bytes) (a : Action) (m : SyncdMutation) : Prop :=
  exists mac, encode_record OpSet (json_array (sc_name (ac_schema a) :: ac_args a)) (make_value (ac_value a))
                keys key_id iv (sc_version (ac_schema a)) = Ok (m, mac).

Lemma sealed_action_exists iv a : zlen iv = 16 -> exists m, sealed_action iv a m /\ pushable key_id keys [m].
Proof.
  intros Hiv.
  destruct (encode_record_spec OpSet (json_array (sc_name (ac_schema a) :: ac_args a)) (make_value (ac_value a))
    keys key_id iv (sc_version (ac_schema a)) Hlen Hiv) as (ct & _ & He).
  eexists. split; [by eexists|]. split; [|split; [|split]].
  - constructor; [|constructor]. by eexists _, _, _, _, _, _.
  - apply NoDup_singleton.
  - constructor.
  - unfold zlen. cbn [length]. lia.
Qed.

(** Whoever applies a patch with this one mutation receives the action. *)
Lemma sealed_action_received iv a m p c c1 ms name : zlen iv = 16 -> sealed_action iv a m ->
  Forall (fun s => utf8_valid s = true) (sc_name (ac_schema a) :: ac_args a) ->
  patch_mutations p = [m] -> applies big backend_key name c p c1 ms -> ms = [received a].
Proof.
  intros Hiv [mac He] Hu Hm Ha%applies_calm.
  destruct (encode_record_spec OpSet (json_array (sc_name (ac_schema a) :: ac_args a)) (make_value (ac_value a))
    keys key_id iv (sc_version (ac_schema a)) Hlen Hiv) as (ct & Hd & He').
  rewrite He' in He. injection He as <- <-.
  unfold calm_patch in Ha. apply bind_Ok_inv in Ha as (r & Hp & [= <- <-]).
  unfold process_patch in Hp. destruct (negb _ && negb _); [done|].
  apply bind_Ok_inv in Hp as ([[mr ip] st] & _ & Hp). apply bind_Ok_inv in Hp as (u1 & _ & Hp).
  apply bind_Ok_inv in Hp as (u2 & _ & Hp). apply bind_Ok_inv in Hp as ([[ms' added] removed] & Hdec & [= <-]).
  rewrite Hm in Hdec. cbn [decode_patch_mutations mut_record sealed_record rec_key_id mjoin option_join ok_or mbind outcome_bind] in Hdec.
  rewrite Hkey in Hdec. cbn [mbind outcome_bind] in Hdec.
  change (default OpSet (op_try_from (default 0 (Some (op_i32 OpSet))))) with OpSet in Hdec.
  change (mkRecord _ _ _) with (sealed_record OpSet (json_array (sc_name (ac_schema a) :: ac_args a)) iv ct keys key_id) in Hdec.
  rewrite (sealed_record_decodes OpSet _ (make_value (ac_value a)) (sc_version (ac_schema a))) in Hdec by done.
  cbn [mbind outcome_bind mut_operation] in Hdec. rewrite json_read in Hdec by done.
  cbn [default from_option] in Hdec. by injection Hdec as <- <- <-.
Qed.

(** The sending device: the first query is the patch, the others only fetch. *)
Context {W : Type} {HW : Host W} {BP : BlobProto} {SP : SyncProto} {TM : TokenMaps}.

Lemma queries_after_fetch (c : Client) (w : W) name : store_typed (cl_proc c) ->
  exists rest, cl_queries (catch (fetch_app_state_with_retry big name) (fun _ => mret tt) (c, w)).2.1
               = cl_queries c ++ rest /\ (length rest <= 3000)%nat /\ Forall (asks_for name) rest.
Proof.
  intros Hc. destruct (fetch_ended big c w name Hc) as (_ & _ & _ & l & Hl & Hn & Hk). exists l. unfold catch.
  split; [|done]. by destruct (fetch_app_state_with_retry big name (c, w)) as [[u|e| |] [c' w']].
Qed.

(** The task up to its call of [build_patch]. *)
Lemma send_action_start (c : Client) (w : W) (iv : bytes) (a : Action) cache m mac :
  schema_ok (ac_schema a) = true -> length (sc_index_parts (ac_schema a)) = S (length (ac_args a)) ->
  get_app_state_key (p_cache (cl_proc c)) key_id = (cache, Ok keys) ->
  encode_record OpSet (json_array (sc_name (ac_schema a) :: ac_args a)) (make_value (ac_value a))
    keys key_id iv (sc_version (ac_schema a)) = Ok (m, mac) ->
  let nm := patch_name_as_str (collection_patch_name (sc_collection (ac_schema a))) in
  let p1 := mkProcessor cache (p_store (cl_proc c)) (p_faults (cl_proc c)) in
  send_app_state_action big (Ok (Some key_id)) iv a (c, w)
  = let '(r, s) := send_app_state_patch big (Ok (Some key_id)) nm [m] (set_proc p1 c, w) in (map_err CallTask r, s).
Proof.
  intros Hs Hargs Hg Hm nm p1. unfold send_app_state_action. rewrite build_index_spec by done.
  unfold send_app_state_mutation. fold nm.
  rewrite (task_bind_step _ _ _ (Some key_id) (c, w)) by done.
  rewrite (task_bind_step _ _ _ key_id (c, w)) by done.
  rewrite (task_bind_step _ _ _ keys (set_proc p1 c, w)) by (unfold call_processor; by rewrite Hg).
  by rewrite (task_bind_step _ _ _ m (set_proc p1 c, w)) by (unfold lift; by rewrite Hm).
Qed.

(** A patch that was built is sent first. *)
Lemma send_patch_queries (c : Client) (w : W) name l patch v p2 :
  build_patch big (Ok (Some key_id)) (cl_proc c) (patch_name_as_str name) l = (p2, Ok (patch, v)) ->
  store_typed p2 ->
  exists rest, cl_queries (send_app_state_patch big (Ok (Some key_id)) (patch_name_as_str name) l (c, w)).2.1
    = cl_queries c ++ patch_query (patch_name_as_str name) v (encode_patch patch) :: rest
    /\ (length rest <= 3000)%nat /\ Forall (asks_for name) rest.
Proof.
  intros Hb Hty. unfold send_app_state_patch.
  rewrite (task_bind_step _ _ _ (patch, v) (set_proc p2 c, w)) by (unfold call_processor; by rewrite Hb).
  set (q := patch_query _ v (encode_patch patch)).
  unfold mbind at 1, task_bind at 1, send_iq at 1. unfold mbind, task_bind, update, ask.
  destruct (h_send_iq q w) as [[r|] w']; cbn [ok_or lift]; [|exists []; split; [done|split; [cbn; lia|constructor]]].
  destruct (queries_after_fetch (add_query q (set_proc p2 c)) w' name Hty) as (rest & Hrest & Hn & Hk).
  exists rest. rewrite patch_name_roundtrip. destruct (catch _ _ _) as [o [c' w'']]. cbn [fst snd] in *.
  split; [|done]. rewrite Hrest. cbn. by rewrite <- app_assoc.
Qed.

(** The queries among [l] that carry a patch. *)
Definition carries_patch (q : Node) : bool :=
  existsb (fun c => existsb (fun n => bytes_eqb (node_tag n) (str "patch")) (default [] (node_children c)))
    (default [] (node_children q)).
Lemma asks_carry_none name l : Forall (asks_for name) l -> List.filter carries_patch l = [].
Proof.
  induction 1 as [|q l (want & v & ->) Hl IH]; [done|]. cbn [List.filter]. rewrite IH. by destruct want.
Qed.

(** What a client that sends an action under the key has asked the server afterwards: its one
    patch first, which seals the action and nothing else, then nothing but fetches. *)
Definition sent_patch (c c' : Client) (iv : bytes) (a : Action) (m : SyncdMutation) (patch : SyncdPatch) : Prop :=
  let name := collection_patch_name (sc_collection (ac_schema a)) in
  let v := version (c_state (get_collection (cl_proc c) (patch_name_as_str name))) in
  let q := patch_query (patch_name_as_str name) v (encode_patch patch) in
  sealed_action iv a m /\ patch_mutations patch = [m] /\ patch_key_id patch = Some (Some key_id)
  /\ exists rest, cl_queries c' = cl_queries c ++ q :: rest /\ (length rest <= 3000)%nat
       /\ Forall (asks_for name) rest /\ List.filter carries_patch (q :: rest) = [q].

Lemma send_action_query (c : Client) (w : W) (iv : bytes) (a : Action) :
  let nm := patch_name_as_str (collection_patch_name (sc_collection (ac_schema a))) in
  let col := get_collection (cl_proc c) nm in
  schema_ok (ac_schema a) = true -> length (sc_index_parts (ac_schema a)) = S (length (ac_args a)) ->
  zlen iv = 16 -> store_typed (cl_proc c) -> cache_sound (p_cache (cl_proc c)) ->
  consistent col -> 0 <= version (c_state col) < U64_MAX ->
  let '(r, (c', _)) := send_app_state_action big (Ok (Some key_id)) iv a (c, w) in
  (struck 2 (cl_proc c) /\ cl_queries c' = cl_queries c /\ exists busy, r = Err (CallTask (AnySync (StoreError busy))))
  \/ exists m patch col',
    sent_patch c c' iv a m patch
    /\ pushes big nm key_id keys col [[m]] [stamp patch (version (c_state col) + 1)] col'.
Proof.
  intros nm col Hs Hargs Hiv Hty Hcs Hcons Hv.
  destruct (send_app_state_action _ _ _ _ _) as [r [c' w']] eqn:Erun.
  destruct (sealed_action_exists iv a Hiv) as (m & [mac Hm] & Hpush).
  destruct (get_app_state_key_sound (p_cache (cl_proc c)) key_id Hcs) as (Hcs' & _ & _).
  assert (Hkn : known_keys (cl_proc c) key_id keys) by (by apply known_keys_sound). unfold known_keys in Hkn.
  destruct (get_app_state_key (p_cache (cl_proc c)) key_id) as [cache rk] eqn:Eg. cbn [fst snd] in *. subst rk.
  set (p1 := mkProcessor cache (p_store (cl_proc c)) (p_faults (cl_proc c))).
  rewrite (send_action_start c w iv a cache m mac Hs Hargs Eg Hm) in Erun. cbv zeta in Erun. fold nm p1 in Erun.
  destruct (proj1 (conj Hpush I)) as (Hl & Hns & Hnr & Hz).
  destruct (build_patch_spec big backend_key p1 nm key_id keys [m]) as
    [(Hstruck & p2 & busy & Hb)|(patch & col' & ms & Hb & Ha & _ & _ & Hpm & _ & Hpk)];
    [done|done|by apply known_keys_sound|done..| |].
  { left. split; [done|]. revert Erun. unfold send_app_state_patch, mbind, task_bind, call_processor.
    change (cl_proc (set_proc p1 c)) with p1. rewrite Hb. cbn. intros [= <- <- <-]. by eauto. }
  right. change (get_collection p1 nm) with col in Hb, Ha. exists m, patch, col'. split.
  - destruct (send_patch_queries (set_proc p1 c) w _ [m] patch _ _ Hb Hty) as (rest & Hrest & Hn & Hk).
    split; [by eexists|]. split; [done|]. split; [done|]. exists rest. fold nm in Hrest |- *.
    destruct (send_app_state_patch _ _ _ _ _) as [o [c2 w2]]. injection Erun as <- <- <-.
    split; [exact Hrest|]. split; [done|]. split; [done|]. cbn [List.filter].
    rewrite (asks_carry_none _ _ Hk). done.
  - refine (pushes_cons big nm key_id keys p1 _ [m] patch col' ms [] [] col' Hcs' Hpush Hb
      (proj2 (applies_calm _ _ _ _ _ _ _) Ha) _). constructor.
Qed.
End Travel.

(** C3: an action on one device is the event on the other.  For every call of [ChatActions]
    and [Labels] that is accepted (archive, pin, mute, star, mark as read, delete, clear,
    status mute, delete for me, contact, labels) with JIDs that print canonically, texts in
    UTF-8 and a clock in range, from a store whose hashes have their length, a key cache that
    agrees with the backend, a consistent collection below the last version, and with a key
    that the backend holds and an IV of 16 bytes: either one of the two accesses to
    the store that building the patch needs fails, and then the call reports this error and
    nothing was sent; or the client sends exactly one patch, on the collection of its schema
    and at the version of that collection: its key id is the current key's, its one mutation
    is the action sealed under this key, and every other query of the call (at most 3000) is
    a fetch of the same collection that carries no patch.  Once the server numbers this patch,
    another device with the same collection and key, whose store works, that synchronises page
    by page receives it, and delivering what it dispatched raises exactly the event of the
    call, with the same chat, participant, message, flags and time, and changes nothing of the
    device. *)
Theorem action_reaches_devices {WA : Type} {HA : Host WA}
    {H : Hkdf} {AC : AppCrypto} {AE : AppEncrypt} {AL : AppEncryptLaws} {CD : ActionCodec} {CL : ActionCodecLaws}
    {KS : KeyStore} {KL : KeyStoreLaws} {BP : BlobProto} {SP : SyncProto} {SL : SyncProtoLaws} {TM : TokenMaps}
    (big : bool) (key_id : bytes) (keys : ExpandedAppStateKeys) (representable : Z -> bool) (clock : Z)
    (now : Z) (call : ChatCall) (a : Action) (iv : bytes) (ca : Client) (wa : WA) :
  let name := collection_patch_name (sc_collection (ac_schema a)) in
  let col := get_collection (cl_proc ca) (patch_name_as_str name) in
  let v := version (c_state col) in
  backend_key key_id = Ok keys -> zlen (k_value_encryption keys) = 32 -> zlen iv = 16 ->
  make_call now call = Ok a -> call_canonical call = true -> representable now = true ->
  Forall (fun s => utf8_valid s = true) (sc_name (ac_schema a) :: ac_args a) ->
  store_typed (cl_proc ca) -> cache_sound (p_cache (cl_proc ca)) -> consistent col -> 0 <= v < U64_MAX ->
  let '(r, (ca', _)) := send_app_state_action (HW := HA) big (Ok (Some key_id)) iv a (ca, wa) in
  (struck 2 (cl_proc ca) /\ cl_queries ca' = cl_queries ca
   /\ exists busy, r = Err (CallTask (AnySync (StoreError busy))))
  \/ exists m patch,
    sent_patch key_id keys ca ca' iv a m patch
    /\ forall (WB : Type) (HB : Host WB) (page : nat) (good : WB -> Prop) (cb : Client) (wb : WB) (d : DeviceState),
        Serves (HW := HB) name page v [stamp patch (v + 1)] good -> good wb -> (0 < page)%nat ->
        get_collection (cl_proc cb) (patch_name_as_str name) = col -> ready (cl_proc cb) ->
        name ∉ cl_syncing cb ->
        exists cb' wb' new,
          fetch_app_state_with_retry (HW := HB) big name (cb, wb) = (Ok tt, (cb', wb'))
          /\ cl_dispatched cb' = cl_dispatched cb ++ new
          /\ deliver representable clock new d = (d, [Emit (event_of now (v =? 0) call)]).
Proof.
  intros name col v Hkey Hlen Hiv Ha Hcan Hrep Hutf Hty Hcs Hcons Hv.
  assert (Hval : call_valid now call = true).
  { destruct (call_valid now call) eqn:E; [done|]. apply make_call_invalid in E as [e E]. congruence. }
  destruct (make_call_valid now call Hval) as (a' & Ha' & Hs & Hargs). rewrite Ha in Ha'. injection Ha' as <-.
  pose proof (send_action_query big key_id keys Hkey Hlen ca wa iv a Hs Hargs Hiv Hty Hcs Hcons Hv) as Hq.
  destruct (send_app_state_action _ _ _ _ _) as [r [ca' wa']]. destruct Hq as [?|(m & patch & col' & Hsent & Hpush)]; [by left|right].
  exists m, patch. split; [done|]. destruct Hsent as (Hm & Hpm & _).
  intros WB HB page good cb wb d Hserves Hgood Hpage Hcb Hcsb Hns.
  destruct (pushed_log_synced big name page key_id keys good [[m]] [stamp patch (v + 1)] col col' cb wb)
    as (cb' & wb' & ms' & Hrun & Hp & Hr & _); try done.
  { fold v. lia. }
  { fold v. unfold zlen. cbn [length]. lia. }
  { unfold pages. cbn. rewrite Nat.Div0.div_0_l by lia. lia. }
  assert (Hms : ms' = [received a]).
  { inversion Hr as [|? ? c1 ms1 ? ? ms2 _ _ _ Happ' Hr2]; subst. inversion Hr2; subst. rewrite app_nil_r.
    eapply (sealed_action_received big key_id keys Hkey Hlen iv a m); [done|done|done| |exact Happ'].
    exact Hpm. }
  exists cb', wb', (map (fun m => (m, v =? 0)) ms'). split; [done|]. split; [apply Hp|].
  rewrite Hms. cbn [map deliver fold_left]. unfold deliver. cbn [fold_left].
  by rewrite (dispatch_received representable clock now (v =? 0) call a d Hcan Hrep Ha).
Qed.

(** ** A concrete run *)

#[global] Instance MessageKey_eq_dec : EqDecision MessageKey.
Proof. solve_decision. Defined.
#[global] Instance MessageKey_countable : Countable MessageKey.
Proof.
  refine (inj_countable' (fun k => (mk_remote_jid k, mk_from_me k, mk_id k, mk_participant k))
    (fun '(a, b, c, d) => mkMessageKey a b c d) _). by intros [].
Defined.
#[global] Instance Range_eq_dec : EqDecision SyncActionMessageRange.
Proof. solve_decision. Defined.
#[global] Instance Range_countable : Countable SyncActionMessageRange.
Proof.
  refine (inj_countable' (fun r => (mr_last_message_timestamp r, mr_last_system_message_timestamp r, mr_messages r))
    (fun '(a, b, c) => mkRange a b c) _). by intros [].
Defined.
#[global] Instance MuteAction_eq_dec : EqDecision MuteAction.
Proof. solve_decision. Defined.
#[global] Instance MuteAction_countable : Countable MuteAction.
Proof.
  refine (inj_countable' (fun r => (ma_muted r, ma_mute_end_timestamp r, ma_auto_muted r, ma_mention_end_timestamp r))
    (fun '(a, b, c, d) => mkMuteAction a b c d) _). by intros [].
Defined.
#[global] Instance ContactAction_eq_dec : EqDecision ContactAction.
Proof. solve_decision. Defined.
#[global] Instance ContactAction_countable : Countable ContactAction.
Proof.
  refine (inj_countable' (fun r => (ca_full_name r, ca_first_name r, ca_lid_jid r, ca_save_on_primary r, ca_pn_jid r, ca_username r))
    (fun '(a, b, c, d, e, f) => mkContactAction a b c d e f) _). by intros [].
Defined.
#[global] Instance DeleteForMe_eq_dec : EqDecision DeleteForMeAction.
Proof. solve_decision. Defined.
#[global] Instance DeleteForMe_countable : Countable DeleteForMeAction.
Proof.
  refine (inj_countable' (fun r => (dm_delete_media r, dm_message_timestamp r)) (fun '(a, b) => mkDeleteForMe a b) _).
  by intros [].
Defined.
#[global] Instance LabelEdit_eq_dec : EqDecision LabelEditAction.
Proof. solve_decision. Defined.
#[global] Instance LabelEdit_countable : Countable LabelEditAction.
Proof.
  refine (inj_countable' (fun r => (le_name r, le_color r, le_predefined_id r, le_deleted r, le_order_index r,
      (le_is_active r, le_type r, le_is_immutable r, le_mute_end r)))
    (fun '(a, b, c, d, e, (f, g, h, i)) => mkLabelEdit a b c d e f g h i) _). by intros [].
Defined.
#[global] Instance LabelAssociation_eq_dec : EqDecision LabelAssociationAction.
Proof. solve_decision. Defined.
#[global] Instance LabelAssociation_countable : Countable LabelAssociationAction.
Proof.
  refine (inj_countable' (fun r => (la_labeled r, la_model_meta r)) (fun '(a, b) => mkLabelAssociation a b) _).
  by intros [].
Defined.
#[global] Instance SyncActionValue_eq_dec : EqDecision SyncActionValue.
Proof. solve_decision. Defined.
#[global] Instance SyncActionValue_countable : Countable SyncActionValue.
Proof.
  refine (inj_countable' (fun v => ((sv_timestamp v, sv_star v, sv_contact v, sv_mute v, sv_pin v),
      (sv_push_name v, sv_label_edit v, sv_label_association v, sv_archive v, sv_delete_for_me v),
      (sv_mark_read v, sv_clear_chat v, sv_delete_chat v, sv_user_status_mute v, sv_nct_salt v)))
    (fun '((a, b, c, d, e), (f, g, h, i, j), (k, l, m, n, o)) => mkActionValue a b c d e f g h i j k l m n o) _).
  by intros [].
Defined.

Definition demo_action_crypto : AppCrypto := {|
  ActionValue := SyncActionValue;
  hmac_sha256 := toy_mac;
  hmac_sha512 key data := toy_mac key data ++ toy_mac data key;
  aes_256_cbc_decrypt c k iv := Some c;
  decode_action p := '(i, v) ← of_number p; Some (Some i, Some v);
  json_strings := of_number;
|}.
Definition demo_action_encrypt : @AppEncrypt demo_action_crypto :=
  @Build_AppEncrypt demo_action_crypto (fun p k iv => Some p)
    (fun (index : bytes) (value : SyncActionValue) (v : Z) => number_of (index, value)).
Lemma demo_action_encrypt_laws : @AppEncryptLaws demo_action_crypto demo_action_encrypt.
Proof.
  split.
  - intros p key iv _ _. by exists p.
  - intros index value v. cbn [decode_action demo_action_crypto encode_action demo_action_encrypt].
    by rewrite of_number_of.
  - intros key data. cbn [hmac_sha512 demo_action_crypto]. rewrite zlen_app. unfold toy_mac.
    by rewrite !to_be_bytes_zlen.
Qed.
Definition demo_codec : @ActionCodec demo_action_crypto :=
  @Build_ActionCodec demo_action_crypto (fun v : SyncActionValue => v) (fun v : SyncActionValue => v) number_of.
Lemma demo_codec_laws : @ActionCodecLaws demo_action_crypto demo_codec.
Proof. split; [done|]. intros l _. apply of_number_of. Qed.

(** Starring a message of a group. *)
Definition demo_call : ChatCall :=
  CallStar (mkJid (str "120363000000000000") Group 0 0 0) (Some (mkJid (str "5511999999999") Pn 0 0 0))
    (str "3EB0ABCD") false true.
Definition demo_action : Action := value_or (mkAction STAR [] (mkActionValue None None None None None None None
  None None None None None None None None)) (make_call 1700000000000 demo_call).
Definition star_client : @Client demo_action_crypto := mkClient demo_action_crypto demo_p0 ∅ ∅ [] [].

Definition star_sent : outcome CallError unit * (@Client demo_action_crypto * unit) :=
  send_app_state_action (HW := log_server RegularHigh 1 0 []) (AC := demo_action_crypto) (AE := demo_action_encrypt)
    (CD := demo_codec) (BP := demo_blob_proto) (SP := toy_proto) false (Ok (Some [7])) iv_a demo_action (star_client, tt).

Lemma action_reaches_devices_witness :
  exists m patch cb' new,
    sent_patch (AE := demo_action_encrypt) (CD := demo_codec) (SP := toy_proto) [7] demo_keys star_client star_sent.2.1
      iv_a demo_action m patch
    /\ fetch_app_state_with_retry (HW := log_server RegularHigh 1 0 [stamp patch 1]) (AC := demo_action_crypto)
      (BP := demo_blob_proto) (SP := toy_proto) false RegularHigh (star_client, tt) = (Ok tt, (cb', tt))
    /\ cl_dispatched cb' = new
    /\ deliver (CD := demo_codec) (fun _ => true) 0 new (mkDevice None [])
       = (mkDevice None [], [Emit (event_of 1700000000000 true demo_call)]).
Proof.
  pose proof (action_reaches_devices (HA := log_server RegularHigh 1 0 []) (AC := demo_action_crypto)
    (AE := demo_action_encrypt) (AL := demo_action_encrypt_laws) (CD := demo_codec) (CL := demo_codec_laws)
    (BP := demo_blob_proto) (SP := toy_proto) (SL := toy_proto_laws) false [7] demo_keys (fun _ => true) 0
    1700000000000 demo_call demo_action iv_a star_client tt) as Hreach. cbv zeta in Hreach. fold star_sent in Hreach.
  destruct star_sent as [r [ca' wa']].
  destruct Hreach as [[Hstruck _]|(m & patch & Hsent & HB)]; try reflexivity; [..|by inversion Hstruck|].
  - repeat apply Forall_cons_2; try reflexivity. apply Forall_nil_2.
  - intros n c. cbn [p_store cl_proc star_client demo_p0]. rewrite lookup_empty. discriminate.
  - intros id k. cbn [p_cache cl_proc star_client demo_p0]. rewrite lookup_empty. discriminate.
  - split; [discriminate|reflexivity].
  - destruct (HB unit (log_server RegularHigh 1 0 [stamp patch 1]) 1%nat (fun _ => True) star_client tt (mkDevice None []))
      as (cb' & [] & new & Hrun & Hd & He).
    + exact (log_server_serves RegularHigh 1 0 [stamp patch 1] ltac:(lia) ltac:(discriminate)).
    + exact I.
    + lia.
    + reflexivity.
    + split; [|reflexivity]. intros id k. cbn [p_cache cl_proc star_client demo_p0]. rewrite lookup_empty. discriminate.
    + cbn [cl_syncing star_client]. set_solver.
    + exists m, patch, cb', new. split; [exact Hsent|]. split; [exact Hrun|]. split; [exact Hd|exact He].
Defined.
