(* ===== verification/Media.v ===== *)
(** * Encrypted media

    [wacore/src/upload.rs] and [wacore/src/download.rs]: the chunk-wise encryptor with its
    hashes and its streaming sidecar, the streaming and the in-memory decryption, and the
    requests of a download.  A reader is the list of what its reads return; a writer is the
    class [IoSink].  Byte counts of a stream are unbounded integers. *)

From stdpp Require Import prelude strings.
From S2P Require Import Prelude.

#[local] Open Scope Z_scope.

(** ** What other crates provide *)

(** HKDF, HMAC and hashes over SHA-256, the AES-256 block cipher, and the CBC mode of the
    crate [cbc] with its PKCS#7 unpadding. *)
Class MediaCrypto : Type := {
  (** [Hkdf::<Sha256>::new(None, ikm).expand(info, okm)] for [okm] of a length *)
  media_hkdf : bytes -> bytes -> Z -> option bytes;
  media_hmac : bytes -> bytes -> bytes;
  media_sha256 : bytes -> bytes;
  (** key, block *)
  aes_encrypt_block : bytes -> bytes -> bytes;
  aes_decrypt_block : bytes -> bytes -> bytes;
  (** key, iv, ciphertext: [cbc::Decryptor::<Aes256>::decrypt_padded::<Pkcs7>] *)
  cbc_decrypt_padded : bytes -> bytes -> bytes -> option bytes;
  base64_url : bytes -> bytes
}.

(** ** Media types *)

Inductive MediaType : Type :=
  | Image | Video | Audio | Document | History | AppStateMedia | Sticker | StickerPack
  | StickerPackThumbnail | LinkThumbnail | ProductCatalogImage.
#[global] Instance MediaType_eq_dec : EqDecision MediaType.
Proof. solve_decision. Defined.

Definition media_app_info (t : MediaType) : bytes :=
  match t with
  | Image => str "WhatsApp Image Keys"
  | Video => str "WhatsApp Video Keys"
  | Audio => str "WhatsApp Audio Keys"
  | Document => str "WhatsApp Document Keys"
  | History => str "WhatsApp History Keys"
  | AppStateMedia => str "WhatsApp App State Keys"
  | Sticker => str "WhatsApp Image Keys"
  | StickerPack => str "WhatsApp Sticker Pack Keys"
  | StickerPackThumbnail => str "WhatsApp Sticker Pack Thumbnail Keys"
  | LinkThumbnail => str "WhatsApp Link Thumbnail Keys"
  | ProductCatalogImage => str "WhatsApp Image Keys"
  end.

Definition mms_type (t : MediaType) : bytes :=
  match t with
  | Image | Sticker => str "image"
  | Video => str "video"
  | Audio => str "audio"
  | Document => str "document"
  | History => str "md-msg-hist"
  | AppStateMedia => str "md-app-state"
  | StickerPack => str "sticker-pack"
  | StickerPackThumbnail => str "thumbnail-sticker-pack"
  | LinkThumbnail => str "thumbnail-link"
  | ProductCatalogImage => str "product-catalog-image"
  end.

Definition upload_path (t : MediaType) : bytes :=
  match t with
  | Image | Sticker => str "/mms/image"
  | Video => str "/mms/video"
  | Audio => str "/mms/audio"
  | Document => str "/mms/document"
  | History => str "/mms/md-msg-hist"
  | AppStateMedia => str "/mms/md-app-state"
  | StickerPack => str "/mms/sticker-pack"
  | StickerPackThumbnail => str "/mms/thumbnail-sticker-pack"
  | LinkThumbnail => str "/mms/thumbnail-link"
  | ProductCatalogImage => str "/product/image"
  end.

Definition type_is_encrypted (t : MediaType) : bool :=
  match t with ProductCatalogImage => false | _ => true end.

(** [media_type_uses_sidecar] *)
Definition media_type_uses_sidecar (t : MediaType) : bool :=
  match t with Audio | Video => true | _ => false end.

(** ** Errors, readers, writers *)

Inductive MediaError : Type :=
  | ReadFailed | WriteFailed
  | HkdfFailed | BadBlockSize
  | InvalidFinalSize | MacMismatch | EmptyPlaintext | InvalidPadding | BadPaddingBytes
  | HashMismatch
  | PayloadTooShort | InvalidMac | Decryption
  | MissingMediaKey | MissingFileSha256 | MissingDirectPath | MissingFileEncSha256.

(** What the reads of a reader return, in order: bytes, or an error.  After the last one, and
    at an empty one, the stream has ended. *)
Abbreviation Reader := (list (option bytes)) (only parsing).

Class IoSink (S : Type) : Type := {
  write_all : bytes -> S -> bool * S;
  io_flush : S -> bool * S;
  written : S -> bytes
}.
(** [Write]: a successful [write_all] appends all its bytes; [flush] adds none. *)
Class IoSinkLaws (S : Type) {W : IoSink S} : Prop := {
  write_all_ok b s s' : write_all b s = (true, s') -> written s' = written s ++ b;
  flush_ok s s' : io_flush s = (true, s') -> written s' = written s
}.
#[global] Instance vec_write : IoSink bytes := {|
  write_all b s := (true, s ++ b); io_flush s := (true, s); written s := s
|}.
#[global] Instance vec_write_laws : IoSinkLaws bytes.
Proof. split; [intros b s s' H; by injection H as <-|intros s s' H; by injection H as <-]. Qed.

(** ** Blocks *)

Definition BLOCK : nat := 16.
Definition MEDIA_MAC_LEN : Z := 10.

(** [data.chunks_exact(BLOCK)] *)
Definition blocks (data : bytes) : list bytes := fst (as_chunks BLOCK data).
(** [for (b, &p) in data.iter_mut().zip(prev) { *b ^= p }] *)
Definition xor_bytes (a b : bytes) : bytes := zip_with Z.lxor a b.

Section Media.
Context {MC : MediaCrypto}.

(** [get_media_keys]: the iv, the cipher key and the MAC key. *)
Definition get_media_keys (media_key : bytes) (t : MediaType) : outcome MediaError (bytes * bytes * bytes) :=
  expanded ← ok_or (media_hkdf media_key (media_app_info t) 112) HkdfFailed;
  Ok (upto 16 expanded, upto 32 (from 16 expanded), upto 32 (from 48 expanded)).

(** ** The sidecar *)

Definition SIDECAR_CHUNK : Z := 64 * 1024.
Definition SIDECAR_MAC_LEN : Z := 10.
Definition SIDECAR_OVERLAP : Z := 16.

Record SidecarAccumulator : Type := mkSidecar {
  sc_mac_key : bytes; sc_window : bytes; sc_result : bytes; sc_next_chunk_start : Z; sc_total_pushed : Z
}.

(** The name of the algorithm is one that [CryptographicMac::new] knows: no error arises. *)
Definition hmac_sha256_trunc10 (mac_key data : bytes) : bytes := upto SIDECAR_MAC_LEN (media_hmac mac_key data).

Definition sidecar_new (mac_key : bytes) : SidecarAccumulator := mkSidecar mac_key [] [] 0 0.

Definition sidecar_flush (sc : SidecarAccumulator) : SidecarAccumulator :=
  match sc_window sc with
  | [] => sc
  | window =>
      let keep_from := Z.max 0 (zlen window - SIDECAR_OVERLAP) in
      mkSidecar (sc_mac_key sc) (from keep_from window)
        (sc_result sc ++ hmac_sha256_trunc10 (sc_mac_key sc) window)
        (sc_next_chunk_start sc + SIDECAR_CHUNK) (sc_total_pushed sc)
  end.

(** The [while] loop, on fuel; [data] is what remains of the argument. *)
Fixpoint sidecar_push (fuel : nat) (data : bytes) (sc : SidecarAccumulator)
    : outcome MediaError SidecarAccumulator :=
  match data with
  | [] => Ok sc
  | _ =>
      match fuel with
      | O => Timeout
      | S fuel =>
          let window_end := sc_next_chunk_start sc + (SIDECAR_OVERLAP + SIDECAR_CHUNK) in
          let remaining := wrap 64 (window_end - sc_total_pushed sc) in
          let to_copy := Z.min remaining (zlen data) in
          let sc := mkSidecar (sc_mac_key sc) (sc_window sc ++ upto to_copy data) (sc_result sc)
                      (sc_next_chunk_start sc) (sc_total_pushed sc + to_copy) in
          sidecar_push fuel (from to_copy data)
            (if sc_total_pushed sc =? window_end then sidecar_flush sc else sc)
      end
  end.

Definition sidecar_finish (sc : SidecarAccumulator) : bytes :=
  sc_result (match sc_window sc with [] => sc | _ => sidecar_flush sc end).

(** ** The encryptor *)

(** A running MAC or hash is the data it has been given. *)
Record MediaEncryptor : Type := mkEncryptor {
  e_cipher : bytes; e_mac_key : bytes; e_hmac : bytes; e_sha256_plain : bytes; e_sha256_enc : bytes;
  e_prev_block : bytes; e_remainder : bytes; e_media_key : bytes; e_file_length : Z;
  e_sidecar : option SidecarAccumulator
}.
Record EncryptedMediaInfo : Type := mkMediaInfo {
  mi_media_key : bytes; mi_file_sha256 : bytes; mi_file_enc_sha256 : bytes; mi_file_length : Z;
  mi_streaming_sidecar : option bytes
}.
Record EncryptedMedia : Type := mkEncryptedMedia {
  em_data_to_upload : bytes; em_media_key : bytes; em_file_sha256 : bytes; em_file_enc_sha256 : bytes;
  em_streaming_sidecar : option bytes
}.

Definition with_key_and_sidecar (media_key : bytes) (t : MediaType) (sidecar : bool)
    : outcome MediaError MediaEncryptor :=
  '(iv, cipher_key, mac_key) ← get_media_keys media_key t;
  Ok (mkEncryptor cipher_key mac_key iv [] [] iv [] media_key 0
        (if sidecar then Some (sidecar_new mac_key) else None)).
Definition with_key (media_key : bytes) (t : MediaType) : outcome MediaError MediaEncryptor :=
  with_key_and_sidecar media_key t false.

Definition cbc_encrypt (e : MediaEncryptor) (block_data : bytes) : bytes :=
  aes_encrypt_block (e_cipher e) (xor_bytes block_data (e_prev_block e)).

(** Encrypt the blocks and return what was emitted for each. *)
Fixpoint encrypt_blocks (chunks : list bytes) (e : MediaEncryptor)
    : outcome MediaError (MediaEncryptor * list bytes) :=
  match chunks with
  | [] => Ok (e, [])
  | chunk :: rest =>
      let c := cbc_encrypt e chunk in
      sidecar ← match e_sidecar e with
                | Some sc => sc ← sidecar_push (length c) c sc; Ok (Some sc)
                | None => Ok None
                end;
      '(e, out) ← encrypt_blocks rest
        (mkEncryptor (e_cipher e) (e_mac_key e) (e_hmac e ++ c) (e_sha256_plain e) (e_sha256_enc e ++ c)
           c (e_remainder e) (e_media_key e) (e_file_length e) sidecar);
      Ok (e, c :: out)
  end.
Definition encrypt_and_emit (data : bytes) (e : MediaEncryptor)
    : outcome MediaError (MediaEncryptor * list bytes) :=
  encrypt_blocks (blocks data) e.

Definition set_remainder (r : bytes) (e : MediaEncryptor) : MediaEncryptor :=
  mkEncryptor (e_cipher e) (e_mac_key e) (e_hmac e) (e_sha256_plain e) (e_sha256_enc e) (e_prev_block e) r
    (e_media_key e) (e_file_length e) (e_sidecar e).
Definition count_plain (p : bytes) (e : MediaEncryptor) : MediaEncryptor :=
  mkEncryptor (e_cipher e) (e_mac_key e) (e_hmac e) (e_sha256_plain e ++ p) (e_sha256_enc e) (e_prev_block e)
    (e_remainder e) (e_media_key e) (e_file_length e + zlen p) (e_sidecar e).

(** The second half of [feed]: the full blocks of the input, then its tail. *)
Definition feed_blocks (input : bytes) (e : MediaEncryptor)
    : outcome MediaError (MediaEncryptor * list bytes) :=
  let full := zlen input / 16 * 16 in
  '(e, out) ← (if 0 <? full then encrypt_and_emit (upto full input) e else Ok (e, []));
  Ok (set_remainder (e_remainder e ++ from full input) e, out).

Definition media_feed (plaintext : bytes) (e : MediaEncryptor)
    : outcome MediaError (MediaEncryptor * list bytes) :=
  let e := count_plain plaintext e in
  match e_remainder e with
  | [] => feed_blocks plaintext e
  | remainder =>
      let need := 16 - zlen remainder in
      if zlen plaintext <? need then Ok (set_remainder (remainder ++ plaintext) e, [])
      else
        '(e, out) ← encrypt_and_emit (remainder ++ upto need plaintext) (set_remainder [] e);
        '(e, out') ← feed_blocks (from need plaintext) e;
        Ok (e, out ++ out')
  end.

Definition pad_and_encrypt (e : MediaEncryptor) : outcome MediaError (MediaEncryptor * list bytes) :=
  let pad_len := 16 - zlen (e_remainder e) mod 16 in
  encrypt_and_emit (e_remainder e ++ replicate (Z.to_nat pad_len) pad_len) (set_remainder [] e).

Definition media_compute_mac (e : MediaEncryptor) : bytes := upto 10 (media_hmac (e_mac_key e) (e_hmac e)).

Definition finish_hashes (mac : bytes) (e : MediaEncryptor) : outcome MediaError EncryptedMediaInfo :=
  sidecar ← match e_sidecar e with
            | Some sc => sc ← sidecar_push (length mac) mac sc; Ok (Some (sidecar_finish sc))
            | None => Ok None
            end;
  Ok (mkMediaInfo (e_media_key e) (media_sha256 (e_sha256_plain e)) (media_sha256 (e_sha256_enc e ++ mac))
        (e_file_length e) sidecar).

(** *** Output to a vector *)

Definition media_update (plaintext : bytes) (e : MediaEncryptor) (out : bytes)
    : outcome MediaError (MediaEncryptor * bytes) :=
  '(e, blocks) ← media_feed plaintext e; Ok (e, out ++ concat blocks).
Definition media_finalize (e : MediaEncryptor) (out : bytes) : outcome MediaError (EncryptedMediaInfo * bytes) :=
  '(e, blocks) ← pad_and_encrypt e;
  let mac := media_compute_mac e in
  info ← finish_hashes mac e;
  Ok (info, out ++ concat blocks ++ mac).

Definition encrypted_len (plaintext_len : Z) : Z := (plaintext_len / 16 + 1) * 16 + MEDIA_MAC_LEN.

(** [media_key] is the given key, or the random one. *)
Definition encrypt_media_with_key_and_sidecar (plaintext : bytes) (t : MediaType) (media_key : bytes)
    (sidecar : option bool) : outcome MediaError EncryptedMedia :=
  let want_sidecar := default (media_type_uses_sidecar t) sidecar in
  enc ← with_key_and_sidecar media_key t want_sidecar;
  '(enc, data) ← media_update plaintext enc [];
  '(info, data) ← media_finalize enc data;
  Ok (mkEncryptedMedia data (mi_media_key info) (mi_file_sha256 info) (mi_file_enc_sha256 info)
        (mi_streaming_sidecar info)).
Definition encrypt_media_with_key (plaintext : bytes) (t : MediaType) (media_key : bytes)
    : outcome MediaError EncryptedMedia := encrypt_media_with_key_and_sidecar plaintext t media_key None.

(** *** Output to a writer *)

Section Writer.
Context {S : Type} {W : IoSink S}.

(** Emit the blocks until a write fails; what comes later is not written. *)
Fixpoint emit_blocks (blocks : list bytes) (s : S) : bool * S :=
  match blocks with
  | [] => (true, s)
  | b :: rest => match write_all b s with (true, s) => emit_blocks rest s | failed => failed end
  end.

Definition update_to_writer (plaintext : bytes) (e : MediaEncryptor) (s : S)
    : outcome MediaError MediaEncryptor * S :=
  match media_feed plaintext e with
  | Ok (e, blocks) => match emit_blocks blocks s with (true, s) => (Ok e, s) | (false, s) => (Err WriteFailed, s) end
  | Err x => (Err x, s) | Panic => (Panic, s) | Timeout => (Timeout, s)
  end.

Definition finalize_to_writer (e : MediaEncryptor) (s : S) : outcome MediaError EncryptedMediaInfo * S :=
  match pad_and_encrypt e with
  | Ok (e, blocks) =>
      match emit_blocks blocks s with
      | (true, s) =>
          let mac := media_compute_mac e in
          match write_all mac s with
          | (true, s) => (finish_hashes mac e, s)
          | (false, s) => (Err WriteFailed, s)
          end
      | (false, s) => (Err WriteFailed, s)
      end
  | Err x => (Err x, s) | Panic => (Panic, s) | Timeout => (Timeout, s)
  end.

Fixpoint encrypt_reads (r : Reader) (e : MediaEncryptor) (s : S) : outcome MediaError MediaEncryptor * S :=
  match r with
  | [] | Some [] :: _ => (Ok e, s)
  | None :: _ => (Err ReadFailed, s)
  | Some buf :: rest =>
      match update_to_writer buf e s with
      | (Ok e, s) => encrypt_reads rest e s
      | failed => failed
      end
  end.

Definition encrypt_media_streaming_with_key (r : Reader) (s : S) (t : MediaType) (media_key : bytes)
    (sidecar : option bool) : outcome MediaError EncryptedMediaInfo * S :=
  let want_sidecar := default (media_type_uses_sidecar t) sidecar in
  match with_key_and_sidecar media_key t want_sidecar with
  | Ok enc =>
      match encrypt_reads r enc s with
      | (Ok enc, s) =>
          match finalize_to_writer enc s with
          | (Ok info, s) => match io_flush s with (true, s) => (Ok info, s) | (false, s) => (Err WriteFailed, s) end
          | failed => failed
          end
      | (Err x, s) => (Err x, s) | (Panic, s) => (Panic, s) | (Timeout, s) => (Timeout, s)
      end
  | Err x => (Err x, s) | Panic => (Panic, s) | Timeout => (Timeout, s)
  end.
Definition encrypt_media_streaming (r : Reader) (s : S) (t : MediaType) (random_key : bytes)
    : outcome MediaError EncryptedMediaInfo * S :=
  encrypt_media_streaming_with_key r s t random_key None.

(** ** Decryption of a stream *)

Record MediaDecryptor : Type := mkDecryptor {
  d_hmac : bytes; d_tail : bytes; d_prev_block : bytes; d_bytes_written : Z; d_writer : S
}.

Definition decrypt_cbc_block (cblock cipher_key prev_block : bytes) : outcome MediaError (bytes * bytes) :=
  if negb (zlen cblock =? 16) then Err BadBlockSize
  else Ok (xor_bytes (aes_decrypt_block cipher_key cblock) prev_block, cblock).

(** The blocks of a chunk, each written as it is decrypted. *)
Fixpoint write_blocks (cipher_key : bytes) (cblocks : list bytes) (d : MediaDecryptor)
    : outcome MediaError unit * MediaDecryptor :=
  match cblocks with
  | [] => (Ok tt, d)
  | cblock :: rest =>
      match decrypt_cbc_block cblock cipher_key (d_prev_block d) with
      | Ok (decrypted, c) =>
          let '(sent, s) := write_all decrypted (d_writer d) in
          let next prev n := mkDecryptor (d_hmac d) (d_tail d) prev n s in
          if (sent : bool) then write_blocks cipher_key rest (next c (d_bytes_written d + 16))
          else (Err WriteFailed, next (d_prev_block d) (d_bytes_written d))
      | Err x => (Err x, d) | Panic => (Panic, d) | Timeout => (Timeout, d)
      end
  end.

(** One round of the loop: all but the last block and the MAC are decrypted. *)
Definition decrypt_chunk (cipher_key buf : bytes) (d : MediaDecryptor) : outcome MediaError unit * MediaDecryptor :=
  let tail := d_tail d ++ buf in
  let d := mkDecryptor (d_hmac d) tail (d_prev_block d) (d_bytes_written d) (d_writer d) in
  if 26 <? zlen tail then
    let processable := zlen tail - 26 in
    let processable := processable - processable mod 16 in
    if 16 <=? processable then
      let d := mkDecryptor (d_hmac d ++ upto processable tail) tail (d_prev_block d) (d_bytes_written d) (d_writer d) in
      match write_blocks cipher_key (blocks (upto processable tail)) d with
      | (Ok _, d) =>
          (Ok tt, mkDecryptor (d_hmac d) (from processable tail) (d_prev_block d) (d_bytes_written d) (d_writer d))
      | failed => failed
      end
    else (Ok tt, d)
  else (Ok tt, d).

Fixpoint decrypt_reads (cipher_key : bytes) (r : Reader) (d : MediaDecryptor)
    : outcome MediaError unit * MediaDecryptor :=
  match r with
  | [] | Some [] :: _ => (Ok tt, d)
  | None :: _ => (Err ReadFailed, d)
  | Some buf :: rest =>
      match decrypt_chunk cipher_key buf d with
      | (Ok _, d) => decrypt_reads cipher_key rest d
      | failed => failed
      end
  end.

Fixpoint decrypt_blocks (cipher_key prev_block : bytes) (cblocks : list bytes) : outcome MediaError bytes :=
  match cblocks with
  | [] => Ok []
  | cblock :: rest =>
      '(decrypted, c) ← decrypt_cbc_block cblock cipher_key prev_block;
      plain ← decrypt_blocks cipher_key c rest;
      Ok (decrypted ++ plain)
  end.

(** The PKCS#7 padding of the last block; a byte is 0 when it is less than 1. *)
Definition strip_padding (final_plain : bytes) : outcome MediaError bytes :=
  match last final_plain with
  | None => Err EmptyPlaintext
  | Some pad_len =>
      let n := zlen final_plain in
      if (pad_len <? 1) || (16 <? pad_len) || (n <? pad_len) then Err InvalidPadding
      else if negb (forallb (Z.eqb pad_len) (from (n - pad_len) final_plain)) then Err BadPaddingBytes
      else Ok (upto (n - pad_len) final_plain)
  end.

(** After the loop: the MAC, the last block and its padding. *)
Definition decrypt_final (cipher_key mac_key : bytes) (d : MediaDecryptor) : outcome MediaError bytes :=
  let tail := d_tail d in
  if (zlen tail <? 26) || negb ((zlen tail - 10) mod 16 =? 0) then Err InvalidFinalSize
  else
    let final_ciphertext := upto (zlen tail - 10) tail in
    let mac_bytes := from (zlen tail - 10) tail in
    if negb (bytes_eqb mac_bytes (upto 10 (media_hmac mac_key (d_hmac d ++ final_ciphertext)))) then Err MacMismatch
    else
      final_plain ← decrypt_blocks cipher_key (d_prev_block d) (blocks final_ciphertext);
      strip_padding final_plain.

Definition decrypt_stream_to_writer (r : Reader) (media_key : bytes) (t : MediaType) (s : S)
    : outcome MediaError Z * S :=
  match get_media_keys media_key t with
  | Ok (iv, cipher_key, mac_key) =>
      match decrypt_reads cipher_key r (mkDecryptor iv [] iv 0 s) with
      | (Ok _, d) =>
          match decrypt_final cipher_key mac_key d with
          | Ok plain =>
              match write_all plain (d_writer d) with
              | (true, s) => (Ok (d_bytes_written d + zlen plain), s)
              | (false, s) => (Err WriteFailed, s)
              end
          | Err x => (Err x, d_writer d) | Panic => (Panic, d_writer d) | Timeout => (Timeout, d_writer d)
          end
      | (Err x, d) => (Err x, d_writer d)
      | (Panic, d) => (Panic, d_writer d)
      | (Timeout, d) => (Timeout, d_writer d)
      end
  | Err x => (Err x, s) | Panic => (Panic, s) | Timeout => (Timeout, s)
  end.

(** ** Unencrypted media *)

Fixpoint copy_reads (r : Reader) (hashed : bytes) (total : Z) (s : S) : outcome MediaError (bytes * Z) * S :=
  match r with
  | [] | Some [] :: _ => (Ok (hashed, total), s)
  | None :: _ => (Err ReadFailed, s)
  | Some buf :: rest =>
      match write_all buf s with
      | (true, s) => copy_reads rest (hashed ++ buf) (total + zlen buf) s
      | (false, s) => (Err WriteFailed, s)
      end
  end.
Definition copy_and_validate_plaintext_to_writer (r : Reader) (expected_sha256 : bytes) (s : S)
    : outcome MediaError Z * S :=
  match copy_reads r [] 0 s with
  | (Ok (hashed, total), s) =>
      (if negb (bytes_eqb (media_sha256 hashed) expected_sha256) then Err HashMismatch else Ok total, s)
  | (Err x, s) => (Err x, s) | (Panic, s) => (Panic, s) | (Timeout, s) => (Timeout, s)
  end.
End Writer.

Definition validate_plaintext_sha256 (data expected_sha256 : bytes) : outcome MediaError unit :=
  if negb (bytes_eqb (media_sha256 data) expected_sha256) then Err HashMismatch else Ok tt.

Definition decrypt_stream (r : Reader) (media_key : bytes) (t : MediaType) : outcome MediaError bytes :=
  match decrypt_stream_to_writer (S := bytes) r media_key t [] with
  | (Ok _, buf) => Ok buf
  | (Err x, _) => Err x | (Panic, _) => Panic | (Timeout, _) => Timeout
  end.

(** ** Decryption in memory *)

(** [aes_256_cbc_decrypt] of the default provider, under [aes_256_cbc_decrypt_into], whose
    keys have their lengths here. *)
Definition rust_cbc_decrypt (key iv ciphertext : bytes) : option bytes :=
  if bool_decide (ciphertext = []) || negb (zlen ciphertext mod 16 =? 0) then None
  else cbc_decrypt_padded key iv ciphertext.

Definition verify_and_decrypt (encrypted_payload media_key : bytes) (t : MediaType) : outcome MediaError bytes :=
  if zlen encrypted_payload <=? 10 then Err PayloadTooShort
  else
    let ciphertext := upto (zlen encrypted_payload - 10) encrypted_payload in
    let received_mac := from (zlen encrypted_payload - 10) encrypted_payload in
    '(iv, cipher_key, mac_key) ← get_media_keys media_key t;
    if negb (bytes_eqb (upto 10 (media_hmac mac_key (iv ++ ciphertext))) received_mac) then Err InvalidMac
    else ok_or (rust_cbc_decrypt cipher_key iv ciphertext) Decryption.

(** ** Requests of a download *)

(** [Downloadable], as the record of what its methods return. *)
Record Downloadable : Type := mkDownloadable {
  dl_direct_path : option bytes; dl_media_key : option bytes; dl_file_enc_sha256 : option bytes;
  dl_file_sha256 : option bytes; dl_file_length : option Z; dl_app_info : MediaType;
  dl_static_url : option bytes
}.
Definition dl_is_encrypted (d : Downloadable) : bool :=
  match dl_media_key d with Some _ => true | None => false end.

Inductive MediaDecryption : Type :=
  | Encrypted (media_key : bytes) (media_type : MediaType)
  | Plaintext (file_sha256 : bytes).
Record DownloadRequest : Type := mkDownloadRequest { rq_url : bytes; rq_decryption : MediaDecryption }.
(** The host names and the token of the connection. *)
Record MediaConnection : Type := mkMediaConnection { mc_hosts : list bytes; mc_auth : bytes }.

Definition prepare_download_requests (d : Downloadable) (conn : MediaConnection)
    : outcome MediaError (list DownloadRequest) :=
  decryption ← (if dl_is_encrypted d
                then media_key ← ok_or (dl_media_key d) MissingMediaKey; Ok (Encrypted media_key (dl_app_info d))
                else sha ← ok_or (dl_file_sha256 d) MissingFileSha256; Ok (Plaintext sha));
  match dl_static_url d with
  | Some url => Ok [mkDownloadRequest url decryption]
  | None =>
      direct_path ← ok_or (dl_direct_path d) MissingDirectPath;
      hash ← (if dl_is_encrypted d then ok_or (dl_file_enc_sha256 d) MissingFileEncSha256
              else ok_or (dl_file_sha256 d) MissingFileSha256);
      let token := base64_url hash in
      Ok (map (fun host => mkDownloadRequest
                 (str "https://" ++ host ++ direct_path ++ str "?auth=" ++ mc_auth conn ++ str "&token=" ++ token)
                 decryption) (mc_hosts conn))
  end.

(** What a request promises about the bytes it fetched: the plaintext of an encrypted file, or
    the file itself when its hash matches. *)
Definition open_download (d : MediaDecryption) (data : bytes) : outcome MediaError bytes :=
  match d with
  | Encrypted media_key t => verify_and_decrypt data media_key t
  | Plaintext sha => _ ← validate_plaintext_sha256 data sha; Ok data
  end.
End Media.
