(* ===== verification/MediaStream.v ===== *)
(** * Media streams

    The chunk-wise code of [Media] against whole-file definitions: CBC over a list of blocks,
    the windows of the sidecar, and opening a file in one piece. *)

From stdpp Require Import prelude strings.
From S2P Require Import Prelude Media.

#[local] Open Scope Z_scope.

(** ** Blocks *)

Lemma chunks_fuel_unique {A} fuel n (cs : list (list A)) r :
  (0 < n)%nat -> Forall (fun c => length c = n) cs -> (length r < n)%nat -> (length (concat cs ++ r) <= fuel)%nat ->
  chunks_fuel fuel n (concat cs ++ r) = (cs, r).
Proof.
  intros Hn Hc Hr. revert fuel. induction Hc as [|c cs Hlen Hc IH]; intros fuel Hf.
  - cbn [concat app] in *. destruct fuel; [done|]. cbn [chunks_fuel]. destruct (Nat.leb_spec n (length r)); [lia|done].
  - cbn [concat] in *. rewrite <- app_assoc in *. rewrite length_app in Hf.
    destruct fuel as [|fuel]; [lia|]. cbn [chunks_fuel]. rewrite length_app.
    destruct (Nat.leb_spec n (length c + length (concat cs ++ r))); [|lia].
    rewrite drop_app_length', take_app_length' by done. rewrite IH by lia. done.
Qed.

Abbreviation are_blocks := (Forall (fun c : bytes => length c = BLOCK)).

Lemma blocks_concat cs r : are_blocks cs -> (length r < BLOCK)%nat -> blocks (concat cs ++ r) = cs.
Proof.
  intros Hc Hr. unfold blocks, as_chunks. rewrite chunks_fuel_unique; [done|unfold BLOCK; lia|done..].
Qed.

Lemma blocks_one x : length x = BLOCK -> blocks x = [x].
Proof.
  intros Hx. pose proof (blocks_concat [x] []) as H. cbn [concat] in H. rewrite !app_nil_r in H.
  apply H; [by repeat constructor|unfold BLOCK; cbn; lia].
Qed.

Lemma blocks_spec (l : bytes) :
  exists r, l = concat (blocks l) ++ r /\ are_blocks (blocks l) /\ (length r < BLOCK)%nat.
Proof.
  pose proof (as_chunks_spec BLOCK l) as H. unfold blocks. destruct (as_chunks BLOCK l) as [cs r].
  destruct H as (Hl & Hc & Hr); [unfold BLOCK; lia|]. by exists r.
Qed.

Lemma concat_blocks_length cs : are_blocks cs -> length (concat cs) = (BLOCK * length cs)%nat.
Proof. induction 1 as [|c cs Hc Hcs IH]; [done|]. cbn [concat length]. rewrite length_app, IH, Hc. lia. Qed.
Lemma concat_blocks_zlen cs : are_blocks cs -> zlen (concat cs) = 16 * zlen cs.
Proof. intros H. unfold zlen. rewrite concat_blocks_length by done. unfold BLOCK. lia. Qed.

(** A string of whole blocks. *)
Lemma blocks_aligned (l : bytes) : zlen l mod 16 = 0 -> l = concat (blocks l) /\ are_blocks (blocks l).
Proof.
  intros Hl. destruct (blocks_spec l) as (r & He & Hb & Hr). split; [|done].
  pose proof (concat_blocks_zlen _ Hb) as Hz. rewrite He in Hl. autorewrite with zlen in Hl.
  assert (Hr0 : zlen r = 0).
  { assert (0 <= zlen r < 16) by (unfold zlen, BLOCK in *; lia). Z.div_mod_to_equations. lia. }
  destruct r; [by rewrite app_nil_r in He|]. unfold zlen in Hr0. cbn [length] in Hr0. lia.
Qed.

Lemma blocks_app cs r x : are_blocks cs -> blocks (concat cs ++ r ++ x) = cs ++ blocks (r ++ x).
Proof.
  intros Hc. destruct (blocks_spec (r ++ x)) as (t & He & Hb & Ht). rewrite He at 1.
  rewrite app_assoc, <- concat_app. apply blocks_concat; [|done]. by apply Forall_app.
Qed.

(** ** CBC over blocks *)

Section Cbc.
Context {MC : MediaCrypto} (key : bytes).

Fixpoint cbc_enc (prev : bytes) (ps : list bytes) : list bytes :=
  match ps with
  | [] => []
  | p :: ps => let c := aes_encrypt_block key (xor_bytes p prev) in c :: cbc_enc c ps
  end.
Fixpoint cbc_dec (prev : bytes) (cs : list bytes) : list bytes :=
  match cs with
  | [] => []
  | c :: cs => xor_bytes (aes_decrypt_block key c) prev :: cbc_dec c cs
  end.
Definition last_block (prev : bytes) (cs : list bytes) : bytes := default prev (last cs).

Lemma last_block_cons prev c cs : last_block prev (c :: cs) = last_block c cs.
Proof. unfold last_block. destruct cs as [|d cs]; [done|]. rewrite last_cons. by destruct (last (d :: cs)) eqn:E; [|by apply last_None in E]. Qed.

Lemma cbc_enc_app prev a b : cbc_enc prev (a ++ b) = cbc_enc prev a ++ cbc_enc (last_block prev (cbc_enc prev a)) b.
Proof.
  revert prev. induction a as [|p a IH]; intros prev; [done|]. cbn [app cbc_enc]. by rewrite IH, last_block_cons.
Qed.
Lemma cbc_dec_app prev a b : cbc_dec prev (a ++ b) = cbc_dec prev a ++ cbc_dec (last_block prev a) b.
Proof.
  revert prev. induction a as [|c a IH]; intros prev; [done|]. cbn [app cbc_dec]. by rewrite IH, last_block_cons.
Qed.
Lemma cbc_dec_length prev cs : length (cbc_dec prev cs) = length cs.
Proof. revert prev. induction cs as [|c cs IH]; intros prev; [done|]. cbn [cbc_dec length]. by rewrite IH. Qed.
End Cbc.

Lemma xor_bytes_length a b : length a = length b -> length (xor_bytes a b) = length a.
Proof. intros H. unfold xor_bytes. rewrite length_zip_with. lia. Qed.
Lemma xor_bytes_cancel a b : length a = length b -> xor_bytes (xor_bytes a b) b = a.
Proof.
  revert b. induction a as [|x a IH]; intros [|y b] H; try done. cbn in *. unfold xor_bytes in *. rewrite IH by lia.
  by rewrite Z.lxor_assoc, Z.lxor_nilpotent, Z.lxor_0_r.
Qed.

(** What the crates document. *)
Class MediaLaws {MC : MediaCrypto} : Prop := {
  media_hkdf_expands ikm info n : 0 <= n <= 255 * 32 ->
    exists okm, media_hkdf ikm info n = Some okm /\ zlen okm = n;
  media_hmac_len key data : zlen (media_hmac key data) = 32;
  aes_encrypt_len key b : length b = BLOCK -> length (aes_encrypt_block key b) = BLOCK;
  aes_decrypt_len key b : length b = BLOCK -> length (aes_decrypt_block key b) = BLOCK;
  aes_inverse key b : zlen key = 32 -> length b = BLOCK -> aes_decrypt_block key (aes_encrypt_block key b) = b;
  (** CBC, and between one and sixteen bytes of padding that name their number *)
  cbc_padded key iv cs p : zlen key = 32 -> length iv = BLOCK -> are_blocks cs -> cs <> [] ->
    cbc_decrypt_padded key iv (concat cs) = Some p <->
    exists n, 1 <= n <= 16 /\ concat (cbc_dec key iv cs) = p ++ replicate (Z.to_nat n) n
}.

Section CbcLaws.
Context {MC : MediaCrypto} {ML : MediaLaws} (key : bytes).

Lemma cbc_enc_blocks prev ps : length prev = BLOCK -> are_blocks ps -> are_blocks (cbc_enc key prev ps).
Proof.
  intros Hp Hb. revert prev Hp. induction Hb as [|p ps H Hb IH]; intros prev Hp; [constructor|].
  cbn [cbc_enc]. assert (Hc : length (aes_encrypt_block key (xor_bytes p prev)) = BLOCK).
  { apply aes_encrypt_len. rewrite xor_bytes_length; congruence. }
  constructor; [done|]. by apply IH.
Qed.
Lemma cbc_dec_blocks prev cs : length prev = BLOCK -> are_blocks cs -> are_blocks (cbc_dec key prev cs).
Proof.
  intros Hp Hb. revert prev Hp. induction Hb as [|c cs H Hb IH]; intros prev Hp; [constructor|].
  cbn [cbc_dec]. constructor; [|by apply IH]. rewrite xor_bytes_length; rewrite aes_decrypt_len; congruence.
Qed.

Lemma cbc_dec_enc prev ps : zlen key = 32 -> length prev = BLOCK -> are_blocks ps ->
  cbc_dec key prev (cbc_enc key prev ps) = ps.
Proof.
  intros Hk Hp Hb. revert prev Hp. induction Hb as [|p ps H Hb IH]; intros prev Hp; [done|].
  cbn [cbc_enc cbc_dec]. assert (Hx : length (xor_bytes p prev) = BLOCK) by (rewrite xor_bytes_length; congruence).
  rewrite aes_inverse, xor_bytes_cancel by (done || congruence). f_equal. apply IH. by apply aes_encrypt_len.
Qed.

Lemma last_block_length prev cs : length prev = BLOCK -> are_blocks cs -> length (last_block prev cs) = BLOCK.
Proof.
  intros Hp Hb. unfold last_block. destruct (last cs) as [c|] eqn:E; [|done].
  apply last_Some_elem_of in E. rewrite Forall_forall in Hb. by apply Hb.
Qed.
End CbcLaws.

(** ** Padding *)

Definition padding (n : Z) : bytes := replicate (Z.to_nat n) n.

Lemma padding_zlen n : 0 <= n -> zlen (padding n) = n.
Proof. intros. unfold zlen, padding. rewrite length_replicate. lia. Qed.

Lemma forallb_replicate n (l : bytes) : forallb (Z.eqb n) l = true <-> l = replicate (length l) n.
Proof.
  induction l as [|x l IH]; cbn [forallb length replicate]; [done|]. rewrite andb_true_iff, Z.eqb_eq, IH.
  split; [intros [<- H]; by rewrite <- H|intros [= -> H]; done].
Qed.

Lemma last_padding p n : 1 <= n -> last (p ++ padding n) = Some n.
Proof.
  intros Hn. unfold padding. replace (Z.to_nat n) with (S (Z.to_nat (n - 1))) by lia.
  by rewrite replicate_S_end, app_assoc, last_snoc.
Qed.

Lemma strip_padding_spec x p : strip_padding x = Ok p <-> exists n, 1 <= n <= 16 /\ x = p ++ padding n.
Proof.
  split.
  - unfold strip_padding. destruct (last x) as [n|] eqn:El; [|done]. pose proof (zlen_nonneg x).
    destruct (Z.ltb_spec n 1); [done|]. destruct (Z.ltb_spec 16 n); [done|]. destruct (Z.ltb_spec (zlen x) n); [done|].
    cbn [orb]. destruct (forallb _ _) eqn:Ef; [|done]. cbn [negb]. intros [= <-]. exists n. split; [lia|].
    apply forallb_replicate in Ef. unfold padding.
    assert (Hlen : length (from (zlen x - n) x) = Z.to_nat n).
    { unfold from, zlen in *. rewrite length_drop. lia. }
    rewrite Hlen in Ef. rewrite <- Ef. symmetry. apply upto_from.
  - intros (n & Hn & ->). unfold strip_padding. rewrite last_padding by lia.
    pose proof (padding_zlen n ltac:(lia)) as Hz. pose proof (zlen_nonneg p).
    rewrite zlen_app, Hz. destruct (Z.ltb_spec n 1); [lia|]. destruct (Z.ltb_spec 16 n); [lia|].
    destruct (Z.ltb_spec (zlen p + n) n); [lia|]. cbn [orb]. replace (zlen p + n - n) with (zlen p) by lia.
    rewrite from_app, upto_app.
    replace (forallb _ _) with true; [done|]. symmetry. apply forallb_replicate. unfold padding. by rewrite length_replicate.
Qed.

(** [.ok()] *)
Definition res_ok {E A} (m : outcome E A) : option A := match m with Ok a => Some a | _ => None end.
Lemma res_ok_Some {E A} (m : outcome E A) a : res_ok m = Some a <-> m = Ok a.
Proof. destruct m; cbn; split; intros H; by inversion H. Qed.

(** Only the last block matters. *)
Lemma strip_padding_app a b p : 16 <= zlen b ->
  strip_padding (a ++ b) = Ok p <-> exists q, strip_padding b = Ok q /\ p = a ++ q.
Proof.
  intros Hb. rewrite strip_padding_spec. split.
  - intros (n & Hn & He). exists (upto (zlen b - n) b). pose proof (padding_zlen n ltac:(lia)) as Hz.
    assert (Hl : zlen a + zlen b = zlen p + n) by (rewrite <- Hz, <- !zlen_app; congruence).
    assert (Hbn : b = upto (zlen b - n) b ++ padding n /\ p = a ++ upto (zlen b - n) b).
    { assert (Hp : p = a ++ upto (zlen b - n) b).
      { assert (H1 : upto (zlen p) (p ++ padding n) = p) by apply upto_app. rewrite <- He in H1. rewrite <- H1 at 1.
        replace (zlen p) with (zlen a + (zlen b - n)) by lia. unfold upto, zlen in *.
        rewrite take_app. f_equal; [apply take_ge; lia|f_equal; lia]. }
      split; [|done]. rewrite Hp, <- app_assoc in He. by apply app_inv_head in He. }
    destruct Hbn as [Hb' Hp]. split; [|done]. apply strip_padding_spec. by exists n.
  - intros (q & Hq & ->). apply strip_padding_spec in Hq as (n & Hn & ->). exists n. by rewrite app_assoc.
Qed.

(** ** The sidecar *)

Section Sidecar.
Context {MC : MediaCrypto} (mac_key : bytes).

(** The window of an index: one chunk and the overlap, or what there is of it. *)
Definition sidecar_window (blob : bytes) (i : Z) : bytes :=
  upto (SIDECAR_OVERLAP + SIDECAR_CHUNK) (from (i * SIDECAR_CHUNK) blob).
(** A window is there once its overlap is full; the first one with its first byte. *)
Definition sidecar_windows (n : Z) : Z :=
  if n =? 0 then 0 else 1 + Z.max 0 ((n - SIDECAR_OVERLAP) / SIDECAR_CHUNK).
Definition sidecar_macs (blob : bytes) (count : Z) : bytes :=
  concat (map (fun i => hmac_sha256_trunc10 mac_key (sidecar_window blob (Z.of_nat i))) (seq 0 (Z.to_nat count))).
Definition sidecar_of (blob : bytes) : bytes := sidecar_macs blob (sidecar_windows (zlen blob)).

#[local] Opaque SIDECAR_CHUNK SIDECAR_OVERLAP.
Lemma sidecar_sizes : 0 < SIDECAR_OVERLAP < SIDECAR_CHUNK /\ SIDECAR_OVERLAP + SIDECAR_CHUNK < 2 ^ 64.
Proof. with_strategy transparent [SIDECAR_CHUNK SIDECAR_OVERLAP] (unfold SIDECAR_CHUNK, SIDECAR_OVERLAP). lia. Qed.

Lemma sidecar_start k : 0 <= k -> 0 <= k * SIDECAR_CHUNK.
Proof. pose proof sidecar_sizes. intros. nia. Qed.

(** After [k] windows the accumulator holds the rest. *)
Record Accumulated (blob : bytes) (k : Z) (sc : SidecarAccumulator) : Prop := {
  ac_key : sc_mac_key sc = mac_key;
  ac_nonneg : 0 <= k;
  ac_start : sc_next_chunk_start sc = k * SIDECAR_CHUNK;
  ac_total : sc_total_pushed sc = zlen blob;
  ac_window : sc_window sc = from (k * SIDECAR_CHUNK) blob;
  ac_below : zlen blob < (k + 1) * SIDECAR_CHUNK + SIDECAR_OVERLAP;
  ac_above : k = 0 \/ k * SIDECAR_CHUNK + SIDECAR_OVERLAP <= zlen blob;
  ac_result : sc_result sc = sidecar_macs blob k
}.

Lemma sidecar_window_app blob x i : 0 <= i -> (i + 1) * SIDECAR_CHUNK + SIDECAR_OVERLAP <= zlen blob ->
  sidecar_window (blob ++ x) i = sidecar_window blob i.
Proof.
  intros Hi Hl. pose proof sidecar_sizes. pose proof (sidecar_start i Hi). unfold sidecar_window, upto, from, zlen in *.
  rewrite drop_app_le by lia. rewrite take_app_le; [done|]. rewrite length_drop. lia.
Qed.

Lemma sidecar_macs_app blob x k : (k <= 0 \/ k * SIDECAR_CHUNK + SIDECAR_OVERLAP <= zlen blob) ->
  sidecar_macs (blob ++ x) k = sidecar_macs blob k.
Proof.
  intros Hk. unfold sidecar_macs. f_equal. apply map_ext_in. intros i Hi. apply in_seq in Hi. f_equal.
  pose proof sidecar_sizes. apply sidecar_window_app; [lia|]. nia.
Qed.

Lemma sidecar_macs_S blob k : 0 <= k ->
  sidecar_macs blob (k + 1) = sidecar_macs blob k ++ hmac_sha256_trunc10 mac_key (sidecar_window blob k).
Proof.
  intros Hk. unfold sidecar_macs. replace (Z.to_nat (k + 1)) with (S (Z.to_nat k)) by lia.
  rewrite seq_S, map_app, concat_app. cbn [map concat]. rewrite app_nil_r. by rewrite Nat.add_0_l, Z2Nat.id.
Qed.

Lemma accumulated_new : Accumulated [] 0 (sidecar_new mac_key).
Proof. pose proof sidecar_sizes. split; cbn [sc_mac_key sc_next_chunk_start sc_total_pushed sc_window sc_result sidecar_new]; first [done|lia|by left]. Qed.

Lemma accumulated_copy blob k sc x : Accumulated blob k sc ->
  zlen (blob ++ x) < (k + 1) * SIDECAR_CHUNK + SIDECAR_OVERLAP ->
  Accumulated (blob ++ x) k (mkSidecar (sc_mac_key sc) (sc_window sc ++ x) (sc_result sc)
    (sc_next_chunk_start sc) (sc_total_pushed sc + zlen x)).
Proof.
  intros [Hk H0 Hs Ht Hw Hb Ha Hr] Hl. pose proof sidecar_sizes. pose proof (sidecar_start k H0). rewrite zlen_app in *. pose proof (zlen_nonneg x).
  split; cbn; try done.
  - by rewrite Ht, zlen_app.
  - rewrite Hw. unfold from, zlen in *. rewrite drop_app_le; [done|]. nia.
  - rewrite zlen_app. lia.
  - rewrite zlen_app. destruct Ha; [by left|right; lia].
  - rewrite Hr, sidecar_macs_app; [done|]. destruct Ha as [->|]; [left; lia|by right].
Qed.

Lemma whole_window blob k : 0 <= k -> zlen blob <= (k + 1) * SIDECAR_CHUNK + SIDECAR_OVERLAP ->
  from (k * SIDECAR_CHUNK) blob = sidecar_window blob k.
Proof.
  intros Hk Hl. pose proof sidecar_sizes. pose proof (sidecar_start k Hk). unfold sidecar_window, upto, from, zlen in *.
  symmetry. apply take_ge. rewrite length_drop. lia.
Qed.

(** A window that is full is hashed, and its overlap starts the next one. *)
Lemma accumulated_flush blob k sc : 0 <= k -> sc_mac_key sc = mac_key ->
  sc_next_chunk_start sc = k * SIDECAR_CHUNK -> sc_total_pushed sc = zlen blob ->
  sc_window sc = from (k * SIDECAR_CHUNK) blob -> zlen blob = (k + 1) * SIDECAR_CHUNK + SIDECAR_OVERLAP ->
  sc_result sc = sidecar_macs blob k ->
  Accumulated blob (k + 1) (sidecar_flush sc).
Proof.
  intros H0 Hk Hs Ht Hw Hl Hr. pose proof sidecar_sizes. pose proof (sidecar_start k H0). unfold sidecar_flush.
  assert (Hz : zlen (sc_window sc) = SIDECAR_OVERLAP + SIDECAR_CHUNK).
  { rewrite Hw. unfold from, zlen in *. rewrite length_drop. lia. }
  destruct (sc_window sc) as [|z w] eqn:E; [unfold zlen in Hz; cbn in Hz; lia|]. rewrite <- E in *.
  rewrite E, <- E. split; cbn [sc_mac_key sc_next_chunk_start sc_total_pushed sc_window sc_result]; try done.
  - lia.
  - rewrite Hs. lia.
  - rewrite Hz, Hw. unfold from. rewrite drop_drop. f_equal. lia.
  - lia.
  - right. lia.
  - rewrite sidecar_macs_S, Hr, Hk, Hw, whole_window by lia. done.
Qed.

Lemma sidecar_push_ok fuel data blob k sc : (length data <= fuel)%nat -> Accumulated blob k sc ->
  exists k' sc', sidecar_push fuel data sc = Ok sc' /\ Accumulated (blob ++ data) k' sc'.
Proof.
  revert data blob k sc. induction fuel as [|fuel IH]; intros data blob k sc Hf Hac.
  { destruct data; [|cbn in Hf; lia]. exists k, sc. by rewrite app_nil_r. }
  destruct data as [|z data]; [exists k, sc; by rewrite app_nil_r|]. set (all := z :: data) in *.
  assert (Hall : 0 < zlen all) by (unfold all; rewrite zlen_cons; pose proof (zlen_nonneg data); lia).
  change (sidecar_push (S fuel) all sc) with
    (let window_end := sc_next_chunk_start sc + (SIDECAR_OVERLAP + SIDECAR_CHUNK) in
     let to_copy := Z.min (wrap 64 (window_end - sc_total_pushed sc)) (zlen all) in
     let sc := mkSidecar (sc_mac_key sc) (sc_window sc ++ upto to_copy all) (sc_result sc)
                 (sc_next_chunk_start sc) (sc_total_pushed sc + to_copy) in
     sidecar_push fuel (from to_copy all) (if sc_total_pushed sc =? window_end then sidecar_flush sc else sc)).
  cbv zeta. pose proof sidecar_sizes. pose proof Hac as [Hk H0 Hs Ht Hw Hb Ha Hr]. pose proof (sidecar_start k H0).
  set (remaining := sc_next_chunk_start sc + (SIDECAR_OVERLAP + SIDECAR_CHUNK) - sc_total_pushed sc).
  assert (Hrem : 0 < remaining < 2 ^ 64) by (unfold remaining; rewrite Hs, Ht; pose proof (zlen_nonneg blob); lia).
  unfold wrap. rewrite Z.mod_small by lia. set (tc := Z.min remaining (zlen all)).
  assert (Hx : zlen (upto tc all) = tc) by (unfold upto, zlen in *; rewrite length_take; lia).
  assert (Hsplit : blob ++ all = (blob ++ upto tc all) ++ from tc all) by (by rewrite <- app_assoc, upto_from).
  assert (Hfuel : (length (from tc all) <= fuel)%nat) by (unfold from; rewrite length_drop; unfold zlen in *; lia).
  rewrite Hsplit. cbn [sc_total_pushed].
  destruct (Z.eqb_spec (sc_total_pushed sc + tc) (sc_next_chunk_start sc + (SIDECAR_OVERLAP + SIDECAR_CHUNK))) as [E|E].
  - apply (IH _ _ (k + 1)); [done|]. apply accumulated_flush; cbn; try done; try lia.
    + rewrite zlen_app. lia.
    + rewrite Hw. unfold from, zlen in *. rewrite drop_app_le; [done|]. nia.
    + rewrite zlen_app. lia.
    + rewrite Hr, sidecar_macs_app; [done|]. destruct Ha as [->|]; [left; lia|by right].
  - apply (IH _ _ k); [done|].
    pose proof (accumulated_copy blob k sc (upto tc all) Hac) as Hcopy. rewrite Hx in Hcopy. apply Hcopy.
    rewrite zlen_app. lia.
Qed.

Lemma sidecar_finish_ok blob k sc : Accumulated blob k sc -> sidecar_finish sc = sidecar_of blob.
Proof.
  intros [Hk H0 Hs Ht Hw Hb Ha Hr]. pose proof sidecar_sizes. pose proof (sidecar_start k H0). unfold sidecar_finish, sidecar_of, sidecar_windows.
  destruct (Z.eqb_spec (zlen blob) 0) as [E|E].
  - destruct blob; [|rewrite zlen_cons in E; pose proof (zlen_nonneg blob); lia]. destruct Ha as [->|Ha]; [|nia].
    rewrite Hw. cbn [from]. unfold from. rewrite drop_nil. by rewrite Hr.
  - assert (Hwin : zlen (sc_window sc) = zlen blob - k * SIDECAR_CHUNK).
    { rewrite Hw. unfold from, zlen in *. rewrite length_drop. nia. }
    unfold sidecar_flush. destruct (sc_window sc) as [|z w] eqn:Ew.
    { exfalso. unfold zlen in Hwin, Ha, E, Hb. cbn in Hwin. destruct Ha; nia. }
    rewrite <- Ew in *. rewrite Ew, <- Ew. cbn [sc_result]. rewrite Hr, Hk, Hw, whole_window by lia.
    rewrite <- sidecar_macs_S by done. f_equal. rewrite Z.add_comm. f_equal.
    destruct Ha as [->|Ha].
    + destruct (Z.leb_spec SIDECAR_OVERLAP (zlen blob)).
      * rewrite Z.div_small; lia.
      * assert ((zlen blob - SIDECAR_OVERLAP) / SIDECAR_CHUNK < 0) by (apply Z.div_lt_upper_bound; lia). lia.
    + assert ((zlen blob - SIDECAR_OVERLAP) / SIDECAR_CHUNK = k); [|lia].
      symmetry. apply (Z.div_unique _ _ _ (zlen blob - SIDECAR_OVERLAP - k * SIDECAR_CHUNK)); [left; lia|lia].
Qed.
End Sidecar.
