(* ===== verification/MediaCodec.v ===== *)
(** * Media files: sealed and opened

    What the encryptor and the two decryptors compute, whole: the file they produce, its
    hashes and its sidecar, and when a file opens. *)

From stdpp Require Import prelude strings.
From S2P Require Import Prelude Media MediaStream.

#[local] Open Scope Z_scope.

(** The bytes a reader delivers before it ends, and whether it ends without an error. *)
Fixpoint reader_bytes (r : Reader) : bytes :=
  match r with
  | [] | Some [] :: _ | None :: _ => []
  | Some buf :: rest => buf ++ reader_bytes rest
  end.
Fixpoint reader_ends (r : Reader) : bool :=
  match r with
  | [] | Some [] :: _ => true
  | None :: _ => false
  | Some _ :: rest => reader_ends rest
  end.

(** ** Sealing *)

Section Seal.
Context {MC : MediaCrypto} {ML : MediaLaws} (key iv mac_key media_key : bytes) (want_sidecar : bool).

Definition side (blob : bytes) (o : option SidecarAccumulator) : Prop :=
  match o with
  | Some sc => want_sidecar = true /\ exists k, Accumulated mac_key blob k sc
  | None => want_sidecar = false
  end.

(** The blocks [ps] have been encrypted, [pl] has been hashed, [r] waits. *)
Record Fed (ps : list bytes) (pl r : bytes) (e : MediaEncryptor) : Prop := {
  fed_cipher : e_cipher e = key; fed_mac : e_mac_key e = mac_key; fed_key : e_media_key e = media_key;
  fed_hmac : e_hmac e = iv ++ concat (cbc_enc key iv ps);
  fed_plain : e_sha256_plain e = pl;
  fed_enc : e_sha256_enc e = concat (cbc_enc key iv ps);
  fed_prev : e_prev_block e = last_block iv (cbc_enc key iv ps);
  fed_rest : e_remainder e = r;
  fed_length : e_file_length e = zlen pl;
  fed_side : side (concat (cbc_enc key iv ps)) (e_sidecar e)
}.
Abbreviation next_block ps := (last_block iv (cbc_enc key iv ps)).

Lemma side_push blob o c : side blob o -> exists o',
  match o with Some sc => sc ← sidecar_push (length c) c sc; Ok (Some sc) | None => Ok None end = Ok o'
  /\ side (blob ++ c) o'.
Proof.
  destruct o as [sc|]; cbn [side]; [|by exists None]. intros [Hw [k Hk]].
  destruct (sidecar_push_ok mac_key (length c) c blob k sc) as (k' & sc' & Hp & Hk'); [done|done|].
  exists (Some sc'). rewrite Hp. split; [done|]. split; [done|by exists k'].
Qed.

Lemma encrypt_blocks_ok qs ps pl r e : Fed ps pl r e ->
  exists e', encrypt_blocks qs e = Ok (e', cbc_enc key (next_block ps) qs) /\ Fed (ps ++ qs) pl r e'.
Proof.
  revert ps e. induction qs as [|q qs IH]; intros ps e He.
  { exists e. by rewrite app_nil_r. }
  cbn [encrypt_blocks cbc_enc]. destruct He as [Hc Hm Hk Hh Hp He Hv Hr Hl Hs].
  unfold cbc_encrypt. rewrite Hc, Hv. set (c := aes_encrypt_block key (xor_bytes q (next_block ps))).
  assert (Hsnoc : cbc_enc key iv (ps ++ [q]) = cbc_enc key iv ps ++ [c]) by (by rewrite cbc_enc_app).
  assert (Hcat : concat (cbc_enc key iv (ps ++ [q])) = concat (cbc_enc key iv ps) ++ c).
  { rewrite Hsnoc, concat_app. cbn [concat]. by rewrite app_nil_r. }
  destruct (side_push _ _ c Hs) as (o' & -> & Ho). cbn [mbind outcome_bind].
  edestruct (IH (ps ++ [q])) as (e' & -> & He').
  { split; cbn; try done; rewrite ?Hcat, ?Hh, ?He, ?app_assoc; try done.
    rewrite Hsnoc. unfold last_block. by rewrite last_snoc. }
  exists e'. cbn [mbind outcome_bind]. rewrite <- app_assoc in He'. split; [|exact He'].
  rewrite Hsnoc. unfold last_block. by rewrite last_snoc.
Qed.

(** The full blocks of an input, and its tail. *)
Lemma input_split (input : bytes) : let full := zlen input / 16 * 16 in
  upto full input = concat (blocks input) /\ (length (from full input) < BLOCK)%nat /\ are_blocks (blocks input).
Proof.
  destruct (blocks_spec input) as (r & He & Hb & Hr). pose proof (concat_blocks_zlen _ Hb) as Hz.
  assert (Hfull : zlen input / 16 * 16 = zlen (concat (blocks input))).
  { assert (Hr' : 0 <= zlen r < 16) by (unfold zlen, BLOCK in *; lia).
    assert (zlen input = 16 * zlen (blocks input) + zlen r) by (rewrite He at 1; by rewrite zlen_app, Hz).
    Z.div_mod_to_equations. lia. }
  cbv zeta. rewrite Hfull. clear Hfull Hz. revert He Hb. generalize (blocks input). intros cs -> Hb.
  by rewrite upto_app, from_app.
Qed.

Lemma set_remainder_fed ps pl r r' e : Fed ps pl r e -> Fed ps pl r' (set_remainder r' e).
Proof. by intros []; split. Qed.

Lemma feed_blocks_ok input ps pl e : Fed ps pl [] e ->
  exists e', feed_blocks input e = Ok (e', cbc_enc key (next_block ps) (blocks input))
    /\ Fed (ps ++ blocks input) pl (from (zlen input / 16 * 16) input) e'.
Proof.
  intros He. destruct (input_split input) as (Hu & Hl & Hb). unfold feed_blocks, encrypt_and_emit.
  set (full := zlen input / 16 * 16) in *. rewrite Hu.
  replace (blocks (concat (blocks input))) with (blocks input).
  2:{ rewrite <- (app_nil_r (concat _)). symmetry. apply blocks_concat; [done|unfold BLOCK; cbn; lia]. }
  destruct (encrypt_blocks_ok (blocks input) ps pl [] e He) as (e' & Henc & He').
  destruct (Z.ltb_spec 0 full) as [Hf|Hf].
  - rewrite Henc. cbn [mbind outcome_bind]. eexists. split; [done|]. rewrite (fed_rest _ _ _ _ He').
    by eapply set_remainder_fed.
  - assert (Hnil : blocks input = []).
    { assert (zlen (concat (blocks input)) = 0).
      { rewrite <- Hu. unfold upto, zlen. replace (Z.to_nat full) with 0%nat by lia. done. }
      rewrite concat_blocks_zlen in H by done. destruct (blocks input); [done|]. unfold zlen in H. cbn in H. lia. }
    rewrite Hnil, app_nil_r. cbn [mbind outcome_bind cbc_enc]. eexists. split; [done|].
    rewrite (fed_rest _ _ _ _ He). by eapply set_remainder_fed.
Qed.

(** The encryptor between two calls. *)
Record Ready (ps : list bytes) (pl : bytes) (e : MediaEncryptor) : Prop := {
  ready_fed : Fed ps pl (e_remainder e) e;
  ready_split : pl = concat ps ++ e_remainder e;
  ready_blocks : are_blocks ps;
  ready_short : (length (e_remainder e) < BLOCK)%nat
}.

Lemma count_plain_fed ps pl r p e : Fed ps pl r e -> Fed ps (pl ++ p) r (count_plain p e).
Proof. intros []. split; cbn; try done; [congruence|rewrite zlen_app; lia]. Qed.

Lemma media_feed_ok p ps pl e : Ready ps pl e ->
  exists ps' e' out, media_feed p e = Ok (e', out) /\ Ready ps' (pl ++ p) e'
    /\ cbc_enc key iv ps' = cbc_enc key iv ps ++ out.
Proof.
  intros [Hf Hs Hb Hr]. pose proof (count_plain_fed _ _ _ p _ Hf) as Hc. unfold media_feed.
  change (e_remainder (count_plain p e)) with (e_remainder e).
  destruct (e_remainder e) as [|z r] eqn:Er.
  { destruct (feed_blocks_ok p ps (pl ++ p) _ Hc) as (e' & -> & He').
    destruct (input_split p) as (Hu & Hl & Hbp).
    eexists (ps ++ blocks p), e', _. split; [done|]. split; [|by rewrite cbc_enc_app].
    pose proof (fed_rest _ _ _ _ He') as Hrest. split; rewrite ?Hrest; try done; [|by apply Forall_app].
    rewrite Hs, app_nil_r, concat_app, <- app_assoc, <- Hu. by rewrite upto_from. }
  set (rr := z :: r) in *. assert (Hrr : 0 < zlen rr < 16).
  { unfold rr, zlen in *. unfold BLOCK in Hr. cbn [length] in *. lia. }
  destruct (Z.ltb_spec (zlen p) (16 - zlen rr)) as [Hlt|Hge].
  { exists ps, (set_remainder (rr ++ p) (count_plain p e)), []. split; [done|]. rewrite app_nil_r. split; [|done].
    split; cbn [set_remainder e_remainder]; [by eapply set_remainder_fed|by rewrite Hs, app_assoc|done|].
    unfold BLOCK, zlen in *. rewrite length_app. lia. }
  set (need := 16 - zlen rr) in *. assert (Hone : length (rr ++ upto need p) = BLOCK).
  { unfold upto, BLOCK, zlen in *. rewrite length_app, length_take. lia. }
  unfold encrypt_and_emit.
  rewrite (blocks_one _ Hone).
  destruct (encrypt_blocks_ok [rr ++ upto need p] ps (pl ++ p) [] (set_remainder [] (count_plain p e)))
    as (e1 & -> & He1); [by eapply set_remainder_fed|].
  cbn [mbind outcome_bind]. destruct (feed_blocks_ok (from need p) _ _ _ He1) as (e2 & -> & He2).
  destruct (input_split (from need p)) as (Hu & Hl & Hbp). cbn [mbind outcome_bind].
  eexists _, e2, _. split; [done|]. pose proof (fed_rest _ _ _ _ He2) as Hrest. split.
  - split; rewrite ?Hrest; [exact He2| |by repeat apply Forall_app_2; try done; repeat constructor|done].
    rewrite !concat_app, <- Hu. cbn [concat]. rewrite app_nil_r, <- !app_assoc, upto_from.
    rewrite (app_assoc _ (upto need p)), <- (app_assoc rr), upto_from. rewrite Hs. by rewrite <- app_assoc.
  - by rewrite !cbc_enc_app, <- app_assoc.
Qed.

(** *** The whole file *)

Definition media_padding (pl : bytes) : bytes := padding (16 - zlen pl mod 16).
Definition media_ciphertext (pl : bytes) : bytes := concat (cbc_enc key iv (blocks (pl ++ media_padding pl))).
Definition media_mac (ciphertext : bytes) : bytes := upto 10 (media_hmac mac_key (iv ++ ciphertext)).
Definition media_blob (pl : bytes) : bytes := media_ciphertext pl ++ media_mac (media_ciphertext pl).
Definition media_info (pl : bytes) : EncryptedMediaInfo :=
  mkMediaInfo media_key (media_sha256 pl) (media_sha256 (media_blob pl)) (zlen pl)
    (if want_sidecar then Some (sidecar_of mac_key (media_blob pl)) else None).

Lemma pad_ok ps pl e : Ready ps pl e ->
  exists e' out, pad_and_encrypt e = Ok (e', out)
    /\ Fed (blocks (pl ++ media_padding pl)) pl [] e'
    /\ concat (cbc_enc key iv ps) ++ concat out = media_ciphertext pl.
Proof.
  intros [Hf Hs Hb Hr]. unfold pad_and_encrypt, encrypt_and_emit. set (r := e_remainder e) in *.
  assert (Hmod : zlen pl mod 16 = zlen r mod 16).
  { rewrite Hs, zlen_app, concat_blocks_zlen by done. rewrite Z.add_comm, Z.mul_comm. apply Z.mod_add. lia. }
  assert (Hz : 0 <= zlen r < 16) by (unfold zlen, BLOCK in *; lia).
  fold (padding (16 - zlen r mod 16)). assert (Hmp : padding (16 - zlen r mod 16) = media_padding pl).
  { unfold media_padding. by rewrite Hmod. }
  rewrite Hmp.
  assert (Hone : length (r ++ media_padding pl) = BLOCK).
  { rewrite <- Hmp, Z.mod_small by lia. unfold padding, BLOCK, zlen in *. rewrite length_app, length_replicate. lia. }
  assert (Hblocks : blocks (pl ++ media_padding pl) = ps ++ [r ++ media_padding pl]).
  { rewrite Hs at 1. rewrite <- app_assoc.
    replace (concat ps ++ r ++ media_padding pl) with (concat (ps ++ [r ++ media_padding pl]) ++ []).
    - apply blocks_concat; [|unfold BLOCK; cbn; lia]. apply Forall_app. split; [done|by repeat constructor].
    - rewrite concat_app. cbn [concat]. by rewrite !app_nil_r. }
  rewrite (blocks_one _ Hone).
  destruct (encrypt_blocks_ok [r ++ media_padding pl] ps pl [] (set_remainder [] e)) as (e' & -> & He');
    [by eapply set_remainder_fed|].
  eexists e', _. split; [done|]. rewrite Hblocks. split; [done|].
  unfold media_ciphertext. by rewrite Hblocks, cbc_enc_app, concat_app.
Qed.

Lemma media_compute_mac_ok ps pl e : Fed ps pl [] e -> media_compute_mac e = media_mac (concat (cbc_enc key iv ps)).
Proof. intros []. unfold media_compute_mac, media_mac. congruence. Qed.

Lemma media_finish_ok pl e : Fed (blocks (pl ++ media_padding pl)) pl [] e ->
  finish_hashes (media_mac (media_ciphertext pl)) e = Ok (media_info pl).
Proof.
  intros [Hc Hm Hk Hh Hp He Hv Hr Hl Hs]. unfold finish_hashes. fold (media_ciphertext pl) in *.
  destruct (e_sidecar e) as [sc|]; cbn [side] in Hs.
  - destruct Hs as [Hw [k Hac]].
    destruct (sidecar_push_ok mac_key (length (media_mac (media_ciphertext pl))) (media_mac (media_ciphertext pl))
      (media_ciphertext pl) k sc) as (k' & sc' & -> & Hac'); [done|done|].
    cbn [mbind outcome_bind]. rewrite (sidecar_finish_ok _ _ _ _ Hac'). unfold media_info. by rewrite Hw, Hk, Hp, He, Hl.
  - cbn [mbind outcome_bind]. unfold media_info. by rewrite Hs, Hk, Hp, He, Hl.
Qed.
End Seal.

(** ** Opening *)

Section Open.
Context {MC : MediaCrypto} {ML : MediaLaws} {S : Type} {W : IoSink S} {WL : IoSinkLaws S}.
Context (key iv mac_key : bytes) (Hkey : zlen key = 32) (Hiv : length iv = BLOCK).

(** A write of this writer can fail. *)
Definition unreliable : Prop := exists b s, (write_all b s).1 = false.

Lemma decrypt_cbc_block_ok c prev : length c = BLOCK ->
  decrypt_cbc_block c key prev = Ok (xor_bytes (aes_decrypt_block key c) prev, c).
Proof. intros Hc. unfold decrypt_cbc_block, zlen. by rewrite Hc. Qed.

Lemma write_blocks_ok cs (d : MediaDecryptor (S := S)) : are_blocks cs ->
  let '(r, d') := write_blocks key cs d in
  (r = Err WriteFailed /\ unreliable)
  \/ (r = Ok tt /\ d_hmac d' = d_hmac d /\ d_tail d' = d_tail d /\ d_prev_block d' = last_block (d_prev_block d) cs
      /\ written (d_writer d') = written (d_writer d) ++ concat (cbc_dec key (d_prev_block d) cs)
      /\ d_bytes_written d' = d_bytes_written d + 16 * zlen cs).
Proof.
  intros Hb. revert d. induction Hb as [|c cs Hc Hb IH]; intros d; cbn [write_blocks].
  { right. cbn [cbc_dec concat]. rewrite app_nil_r. split_and!; try done. change (zlen (@nil bytes)) with 0. lia. }
  rewrite decrypt_cbc_block_ok by done. destruct (write_all _ _) as [[|] s'] eqn:Ew.
  - specialize (IH (mkDecryptor (d_hmac d) (d_tail d) c (d_bytes_written d + 16) s')).
    destruct (write_blocks key cs _) as [r d']. destruct IH as [IH|(-> & H1 & H2 & H3 & H4 & H5)]; [by left|right].
    cbn [d_hmac d_tail d_prev_block d_bytes_written d_writer] in *. split_and!; try done.
    + by rewrite H3, last_block_cons.
    + rewrite H4. apply write_all_ok in Ew as ->. cbn [cbc_dec concat]. by rewrite <- app_assoc.
    + rewrite H5, zlen_cons. lia.
  - left. split; [done|]. eexists _, _. by rewrite Ew.
Qed.

(** All of [data] has been read; the blocks [cs] are decrypted. *)
Record Opened (data w0 : bytes) (cs : list bytes) (d : MediaDecryptor (S := S)) : Prop := {
  op_split : data = concat cs ++ d_tail d;
  op_blocks : are_blocks cs;
  op_hmac : d_hmac d = iv ++ concat cs;
  op_prev : d_prev_block d = last_block iv cs;
  op_written : written (d_writer d) = w0 ++ concat (cbc_dec key iv cs);
  op_count : d_bytes_written d = 16 * zlen cs;
  op_tail : cs = [] \/ 26 <= zlen (d_tail d)
}.

Lemma decrypt_chunk_ok buf data w0 cs d : Opened data w0 cs d ->
  let '(r, d') := decrypt_chunk key buf d in
  (r = Err WriteFailed /\ unreliable) \/ (r = Ok tt /\ exists cs', Opened (data ++ buf) w0 cs' d').
Proof.
  intros [Hs Hb Hh Hp Hw Hn Ht]. unfold decrypt_chunk. set (tail := d_tail d ++ buf).
  cbn [d_hmac d_tail d_prev_block d_bytes_written d_writer].
  assert (Hkeep : Opened (data ++ buf) w0 cs (mkDecryptor (d_hmac d) tail (d_prev_block d) (d_bytes_written d) (d_writer d))).
  { split; cbn; try done; [by rewrite Hs, <- app_assoc|]. destruct Ht as [->|Ht]; [by left|right].
    unfold tail. rewrite zlen_app. pose proof (zlen_nonneg buf). lia. }
  destruct (Z.ltb_spec 26 (zlen tail)) as [Hl|Hl]; [|right; split; [done|by exists cs]].
  set (m := zlen tail - 26) in *. set (n := m - m mod 16). assert (Hmod : n mod 16 = 0).
  { unfold n. clearbody m. Z.div_mod_to_equations. lia. }
  assert (Hnm : 0 <= n <= m) by (unfold n, m in *; Z.div_mod_to_equations; lia).
  destruct (Z.leb_spec 16 n) as [Hn16|Hn16]; [|right; split; [done|by exists cs]].
  assert (Hz : zlen (upto n tail) = n) by (unfold upto, zlen in *; rewrite length_take; lia).
  destruct (blocks_aligned (upto n tail)) as [He Hbs]; [by rewrite Hz|]. set (qs := blocks (upto n tail)) in *.
  pose proof (write_blocks_ok qs (mkDecryptor (d_hmac d ++ upto n tail) tail (d_prev_block d) (d_bytes_written d)
    (d_writer d)) Hbs) as Hwr.
  destruct (write_blocks key qs _) as [r d']. destruct Hwr as [[-> Hu]|(-> & H1 & H2 & H3 & H4 & H5)]; [by left|right].
  split; [done|]. exists (cs ++ qs). cbn [d_hmac d_tail d_prev_block d_bytes_written d_writer] in *.
  split; cbn [d_hmac d_tail d_prev_block d_bytes_written d_writer].
  - rewrite concat_app, <- He, <- app_assoc, upto_from, Hs. unfold tail. by rewrite <- app_assoc.
  - by apply Forall_app.
  - by rewrite H1, Hh, concat_app, <- He, app_assoc.
  - rewrite H3, Hp. clear. revert iv. induction cs as [|c cs IH]; intros prev; [done|].
    cbn [app]. by rewrite !last_block_cons.
  - by rewrite H4, Hw, Hp, cbc_dec_app, concat_app, app_assoc.
  - rewrite H5, Hn, zlen_app. lia.
  - right. unfold from. unfold zlen in *. rewrite length_drop. lia.
Qed.

Lemma decrypt_reads_ok (rd : Reader) data w0 cs d : Opened data w0 cs d ->
  let '(r, d') := decrypt_reads key rd d in
  (r = Err WriteFailed /\ unreliable) \/ (r = Err ReadFailed /\ reader_ends rd = false)
  \/ (r = Ok tt /\ reader_ends rd = true /\ exists cs', Opened (data ++ reader_bytes rd) w0 cs' d').
Proof.
  revert data cs d. induction rd as [|[[|z buf]|] rd IH]; intros data cs d Hd;
    cbn [decrypt_reads reader_ends reader_bytes].
  - right; right. rewrite app_nil_r. split; [done|]. split; [done|by exists cs].
  - right; right. rewrite app_nil_r. split; [done|]. split; [done|by exists cs].
  - pose proof (decrypt_chunk_ok (z :: buf) data w0 cs d Hd) as Hc.
    destruct (decrypt_chunk key (z :: buf) d) as [r d']. destruct Hc as [[-> Hu]|(-> & cs' & Hd')]; [by left|].
    specialize (IH _ cs' d' Hd'). destruct (decrypt_reads key rd d') as [r d'']. by rewrite <- app_assoc in IH.
  - right; left. done.
Qed.

Lemma decrypt_blocks_ok prev cs : are_blocks cs -> decrypt_blocks key prev cs = Ok (concat (cbc_dec key prev cs)).
Proof.
  intros Hb. revert prev. induction Hb as [|c cs Hc Hb IH]; intros prev; [done|]. cbn [decrypt_blocks].
  rewrite decrypt_cbc_block_ok by done. cbn [mbind outcome_bind]. by rewrite IH.
Qed.

(** A file that opens: its size, its MAC, and the padding of its plaintext. *)
Definition opens (data p : bytes) : Prop :=
  26 <= zlen data /\ (zlen data - 10) mod 16 = 0
  /\ from (zlen data - 10) data = media_mac iv mac_key (upto (zlen data - 10) data)
  /\ strip_padding (concat (cbc_dec key iv (blocks (upto (zlen data - 10) data)))) = Ok p.

Lemma decrypt_final_ok data w0 cs d : Opened data w0 cs d ->
  returns (decrypt_final key mac_key d)
  /\ forall p, opens data p <-> exists q, decrypt_final key mac_key d = Ok q /\ p = concat (cbc_dec key iv cs) ++ q.
Proof.
  intros [Hs Hb Hh Hp Hw Hn Ht]. set (tail := d_tail d) in *. pose proof (concat_blocks_zlen _ Hb) as Hz.
  assert (Hlen : zlen data = 16 * zlen cs + zlen tail) by (by rewrite Hs, zlen_app, Hz).
  assert (Hmod : (zlen data - 10) mod 16 = (zlen tail - 10) mod 16).
  { rewrite Hlen. replace (16 * zlen cs + zlen tail - 10) with (zlen tail - 10 + zlen cs * 16) by lia.
    apply Z.mod_add. lia. }
  assert (Hsize : 26 <= zlen data <-> 26 <= zlen tail).
  { rewrite Hlen. pose proof (zlen_nonneg cs). destruct Ht as [->|Ht]; [change (zlen (@nil bytes)) with 0|]; lia. }
  unfold decrypt_final. fold tail. unfold opens. setoid_rewrite Hsize. rewrite Hmod.
  destruct (Z.ltb_spec (zlen tail) 26) as [Hlt|Hge].
  { cbn [orb]. split; [done|]. intros p. split; [lia|]. by intros (q & Hq & _). }
  cbn [orb]. destruct (Z.eqb_spec ((zlen tail - 10) mod 16) 0) as [H0|H0]; cbn [negb].
  2:{ split; [done|]. intros p. split; [lia|]. by intros (q & Hq & _). }
  set (ft := upto (zlen tail - 10) tail) in *.
  assert (Hup : upto (zlen data - 10) data = concat cs ++ ft).
  { rewrite Hlen, Hs. unfold upto, ft, zlen in *. rewrite take_app, take_ge by lia. f_equal. unfold upto. f_equal. lia. }
  assert (Hfr : from (zlen data - 10) data = from (zlen tail - 10) tail).
  { rewrite Hlen, Hs. unfold from, zlen in *. rewrite drop_app, drop_ge by lia. cbn [app]. f_equal. lia. }
  assert (Hfz : zlen ft = zlen tail - 10) by (unfold ft, upto, zlen in *; rewrite length_take; lia).
  destruct (blocks_aligned ft) as [Hfe Hfb]; [by rewrite Hfz|].
  rewrite Hup, Hfr. unfold media_mac. rewrite Hh, <- app_assoc.
  destruct (bytes_eqb _ _) eqn:Em; cbn [negb].
  2:{ split; [done|]. intros p. apply bytes_eqb_neq in Em. split; [by intros (_ & _ & ? & _)|]. by intros (q & Hq & _). }
  apply bytes_eqb_eq in Em. rewrite decrypt_blocks_ok, Hp by done. cbn [mbind outcome_bind].
  assert (Hbl : blocks (concat cs ++ ft) = cs ++ blocks ft).
  { rewrite <- (app_nil_r ft) at 1. rewrite blocks_app by done. by rewrite app_nil_r. }
  rewrite Hbl, cbc_dec_app, concat_app. set (b := concat (cbc_dec key (last_block iv cs) (blocks ft))).
  assert (Hbz : 16 <= zlen b).
  { unfold b. rewrite concat_blocks_zlen by (apply cbc_dec_blocks; [by apply last_block_length|done]).
    assert (zlen (cbc_dec key (last_block iv cs) (blocks ft)) = zlen (blocks ft)) as ->.
    { unfold zlen. by rewrite cbc_dec_length. }
    rewrite Hfe, concat_blocks_zlen in Hfz by done. lia. }
  split.
  { unfold strip_padding. repeat case_match; done. }
  intros p. rewrite (strip_padding_app _ b p Hbz). naive_solver.
Qed.

Lemma rust_cbc_decrypt_ok ct p : zlen ct mod 16 = 0 -> 16 <= zlen ct ->
  rust_cbc_decrypt key iv ct = Some p <-> strip_padding (concat (cbc_dec key iv (blocks ct))) = Ok p.
Proof.
  intros Hm Hl. unfold rust_cbc_decrypt. rewrite bool_decide_eq_false_2 by (intros ->; by cbn in Hl).
  rewrite Hm. cbn [Z.eqb negb orb]. destruct (blocks_aligned ct Hm) as [He Hb]. rewrite He at 1.
  rewrite cbc_padded, strip_padding_spec; try done. intros Hn. rewrite Hn in He. by rewrite He in Hl.
Qed.
End Open.

Section Files.
Context {MC : MediaCrypto} {ML : MediaLaws}.

Lemma get_media_keys_ok media_key t : exists iv key mac_key,
  get_media_keys media_key t = Ok (iv, key, mac_key) /\ zlen key = 32 /\ length iv = BLOCK.
Proof.
  unfold get_media_keys. destruct (media_hkdf_expands media_key (media_app_info t) 112) as (okm & -> & Hl); [lia|].
  eexists _, _, _. split; [done|]. unfold upto, from, zlen, BLOCK in *.
  rewrite !length_take, length_drop. lia.
Qed.

Lemma verify_and_decrypt_ok data media_key t iv key mac_key :
  get_media_keys media_key t = Ok (iv, key, mac_key) -> zlen key = 32 -> length iv = BLOCK ->
  returns (verify_and_decrypt data media_key t)
  /\ forall p, verify_and_decrypt data media_key t = Ok p <-> opens key iv mac_key data p.
Proof.
  intros Hg Hk Hi. unfold verify_and_decrypt. rewrite Hg. unfold opens.
  destruct (Z.leb_spec (zlen data) 10) as [Hl|Hl]; [split; [done|]; intros p; split; [done|lia]|].
  cbn [mbind outcome_bind]. set (ct := upto (zlen data - 10) data).
  assert (Hz : zlen ct = zlen data - 10) by (unfold ct, upto, zlen in *; rewrite length_take; lia).
  fold (media_mac iv mac_key ct). destruct (bytes_eqb (media_mac iv mac_key ct) _) eqn:Em; cbn [negb].
  2:{ split; [done|]. apply bytes_eqb_neq in Em. intros p. split; [done|]. intros (_ & _ & Hm & _). by rewrite Hm in Em. }
  apply bytes_eqb_eq in Em. split; [apply ok_or_returns|]. intros p.
  transitivity (rust_cbc_decrypt key iv ct = Some p).
  { destruct (rust_cbc_decrypt key iv ct) as [q|]; cbn; [|by split]. split; by intros [= ->]. }
  destruct (Z.eqb_spec (zlen ct mod 16) 0) as [H0|H0].
  - rewrite rust_cbc_decrypt_ok by (done || (Z.div_mod_to_equations; lia)).
    split; [intros Hp; split_and!; try done; [Z.div_mod_to_equations; lia|by rewrite <- Hz]|by intros (_ & _ & _ & ?)].
  - split; [|intros (_ & Hm & _); by rewrite Hz in H0]. unfold rust_cbc_decrypt.
    destruct (Z.eqb_spec (zlen ct mod 16) 0); [done|]. by rewrite orb_true_r.
Qed.

(** *** Producing a file *)

Section Sealed.
Context {S : Type} {W : IoSink S} {WL : IoSinkLaws S}.
Context (media_key : bytes) (t : MediaType) (want : bool) (iv key mac_key : bytes).
Context (Hg : get_media_keys media_key t = Ok (iv, key, mac_key)) (Hkey : zlen key = 32) (Hiv : length iv = BLOCK).
Abbreviation ready := (Ready key iv mac_key media_key want).

Lemma with_key_ok : exists e, with_key_and_sidecar media_key t want = Ok e /\ ready [] [] e.
Proof.
  unfold with_key_and_sidecar. rewrite Hg. eexists. split; [done|]. split; [|done|constructor|cbn; unfold BLOCK; lia].
  split; cbn [cbc_enc concat e_cipher e_mac_key e_media_key e_hmac e_sha256_plain e_sha256_enc e_prev_block
    e_remainder e_file_length e_sidecar]; try done; [by rewrite app_nil_r|].
  destruct want; cbn [side]; [|done]. split; [done|]. exists 0. apply accumulated_new.
Qed.

Lemma emit_blocks_ok bs (s : S) :
  let '(sent, s') := emit_blocks bs s in
  if sent then written s' = written s ++ concat bs else unreliable (S := S).
Proof.
  revert s. induction bs as [|b bs IH]; intros s; cbn [emit_blocks]; [by rewrite app_nil_r|].
  destruct (write_all b s) as [[|] s'] eqn:E; [|eexists _, _; by rewrite E].
  specialize (IH s'). destruct (emit_blocks bs s') as [[|] s'']; [|done]. rewrite IH.
  apply write_all_ok in E as ->. cbn [concat]. by rewrite <- app_assoc.
Qed.

Lemma encrypt_reads_ok (rd : Reader) ps pl e (s : S) : ready ps pl e ->
  let '(r, s') := encrypt_reads rd e s in
  (r = Err WriteFailed /\ unreliable (S := S)) \/ (r = Err ReadFailed /\ reader_ends rd = false)
  \/ (reader_ends rd = true /\ exists ps' e' out, r = Ok e' /\ ready ps' (pl ++ reader_bytes rd) e'
      /\ written s' = written s ++ concat out /\ cbc_enc key iv ps' = cbc_enc key iv ps ++ out).
Proof.
  revert ps pl e s. induction rd as [|[[|z buf]|] rd IH]; intros ps pl e s He;
    cbn [encrypt_reads reader_ends reader_bytes].
  - right; right. split; [done|]. exists ps, e, []. by rewrite !app_nil_r.
  - right; right. split; [done|]. exists ps, e, []. by rewrite !app_nil_r.
  - unfold update_to_writer. destruct (media_feed_ok _ _ _ _ _ (z :: buf) ps pl e He) as (ps1 & e1 & out1 & -> & He1 & Hc1).
    pose proof (emit_blocks_ok out1 s) as Hem. destruct (emit_blocks out1 s) as [[|] s1]; [|by left].
    specialize (IH ps1 (pl ++ z :: buf) e1 s1 He1). destruct (encrypt_reads rd e1 s1) as [r s2].
    destruct IH as [?|[?|(Hend & ps2 & e2 & out2 & -> & He2 & Hw & Hc2)]]; [by left|by right; left|right; right].
    split; [done|]. exists ps2, e2, (out1 ++ out2). rewrite <- app_assoc in He2. split; [done|]. split; [done|].
    split; [by rewrite Hw, Hem, concat_app, app_assoc|]. by rewrite Hc2, Hc1, app_assoc.
  - right; left. done.
Qed.

Abbreviation blob_of pl := (media_blob key iv mac_key pl).
Abbreviation info_of pl := (media_info key iv mac_key media_key want pl).

(** On any writer: a result means that the whole file was written. *)
Lemma encrypt_stream_ok (rd : Reader) (s : S) (sidecar : option bool) :
  default (media_type_uses_sidecar t) sidecar = want ->
  let '(r, s') := encrypt_media_streaming_with_key rd s t media_key sidecar in
  (exists x, r = Err x /\ (reader_ends rd = false \/ unreliable (S := S) \/ exists s, (io_flush s).1 = false))
  \/ (reader_ends rd = true /\ r = Ok (info_of (reader_bytes rd))
      /\ written s' = written s ++ blob_of (reader_bytes rd)).
Proof.
  intros Hw. unfold encrypt_media_streaming_with_key. rewrite Hw. destruct with_key_ok as (e & -> & He).
  pose proof (encrypt_reads_ok rd [] [] e s He) as Hr. destruct (encrypt_reads rd e s) as [r s1].
  destruct Hr as [[-> Hu]|[[-> Hend]|(Hend & ps & e1 & out & -> & He1 & Hw1 & Hc)]].
  { left. eexists. split; [done|]. by right; left. }
  { left. eexists. split; [done|]. by left. }
  cbn [app cbc_enc] in He1, Hc. unfold finalize_to_writer.
  destruct (pad_ok _ _ _ _ _ ps _ e1 He1) as (e2 & out2 & -> & He2 & Hct).
  pose proof (emit_blocks_ok out2 s1) as Hem. destruct (emit_blocks out2 s1) as [[|] s2].
  2:{ left. eexists. split; [done|]. by right; left. }
  rewrite (media_compute_mac_ok _ _ _ _ _ _ _ _ He2). fold (media_ciphertext key iv (reader_bytes rd)).
  destruct (write_all _ s2) as [[|] s3] eqn:Ew.
  2:{ left. eexists. split; [done|]. right; left. eexists _, _. by rewrite Ew. }
  rewrite (media_finish_ok _ _ _ _ _ _ _ He2). destruct (io_flush s3) as [[|] s4] eqn:Ef.
  2:{ left. eexists. split; [done|]. right; right. eexists. by rewrite Ef. }
  right. split; [done|]. split; [done|]. apply flush_ok in Ef as ->. apply write_all_ok in Ew as ->.
  rewrite Hem, Hw1, <- Hc. unfold media_blob. rewrite <- Hct, Hc. cbn [concat]. by rewrite !app_assoc.
Qed.

Lemma encrypt_media_ok pl (sidecar : option bool) : default (media_type_uses_sidecar t) sidecar = want ->
  encrypt_media_with_key_and_sidecar pl t media_key sidecar =
  Ok (mkEncryptedMedia (blob_of pl) media_key (media_sha256 pl) (media_sha256 (blob_of pl))
        (if want then Some (sidecar_of mac_key (blob_of pl)) else None)).
Proof.
  intros Hw. unfold encrypt_media_with_key_and_sidecar. rewrite Hw. destruct with_key_ok as (e & -> & He).
  cbn [mbind outcome_bind]. unfold media_update.
  destruct (media_feed_ok _ _ _ _ _ pl [] [] e He) as (ps & e1 & out & -> & He1 & Hc). cbn [app cbc_enc] in He1, Hc.
  cbn [mbind outcome_bind]. unfold media_finalize.
  destruct (pad_ok _ _ _ _ _ ps _ e1 He1) as (e2 & out2 & -> & He2 & Hct). cbn [mbind outcome_bind].
  rewrite (media_compute_mac_ok _ _ _ _ _ _ _ _ He2). fold (media_ciphertext key iv pl).
  rewrite (media_finish_ok _ _ _ _ _ _ _ He2). cbn [mbind outcome_bind media_info mi_media_key mi_file_sha256
    mi_file_enc_sha256 mi_streaming_sidecar]. cbn [app]. rewrite <- Hc, app_assoc, Hct. done.
Qed.

Lemma padded_aligned pl : zlen (pl ++ media_padding pl) = (zlen pl / 16 + 1) * 16
  /\ (zlen pl / 16 + 1) * 16 mod 16 = 0 /\ 0 <= zlen pl.
Proof.
  pose proof (zlen_nonneg pl). unfold media_padding.
  rewrite zlen_app, padding_zlen by (Z.div_mod_to_equations; lia). split; [Z.div_mod_to_equations; lia|].
  split; [apply Z.mod_mul; lia|done].
Qed.

Lemma media_ciphertext_ok pl :
  zlen (media_ciphertext key iv pl) = (zlen pl / 16 + 1) * 16
  /\ concat (cbc_dec key iv (blocks (media_ciphertext key iv pl))) = pl ++ media_padding pl.
Proof.
  destruct (padded_aligned pl) as (Hz & Hm & _). rewrite <- Hz in Hm. destruct (blocks_aligned _ Hm) as [He Hb].
  set (bs := blocks (pl ++ media_padding pl)) in *. pose proof (cbc_enc_blocks key iv bs Hiv Hb) as Hc.
  unfold media_ciphertext. fold bs. split.
  - rewrite concat_blocks_zlen by done. rewrite <- Hz, He, concat_blocks_zlen by done. f_equal.
    unfold zlen. f_equal. clear. generalize iv. induction bs as [|b bs IH]; intros prev; [done|]. cbn. by rewrite IH.
  - rewrite <- (app_nil_r (concat (cbc_enc _ _ _))), blocks_concat by (done || (unfold BLOCK; cbn; lia)).
    by rewrite cbc_dec_enc, <- He.
Qed.

Lemma media_blob_zlen pl : zlen (blob_of pl) = encrypted_len (zlen pl).
Proof.
  unfold media_blob, encrypted_len, MEDIA_MAC_LEN. rewrite zlen_app, (proj1 (media_ciphertext_ok pl)). f_equal.
  unfold media_mac. pose proof (media_hmac_len mac_key (iv ++ media_ciphertext key iv pl)).
  unfold upto, zlen in *. rewrite length_take. lia.
Qed.

Lemma media_blob_opens pl : opens key iv mac_key (blob_of pl) pl.
Proof.
  destruct (padded_aligned pl) as (_ & Hm & Hpl). destruct (media_ciphertext_ok pl) as [Hz Hd].
  pose proof (media_blob_zlen pl) as Hl. unfold encrypted_len, MEDIA_MAC_LEN in Hl.
  assert (Hn : zlen (blob_of pl) - 10 = zlen (media_ciphertext key iv pl)) by (rewrite Hl, Hz; lia).
  split; [rewrite Hl; Z.div_mod_to_equations; lia|]. rewrite Hn. split; [by rewrite Hz|].
  unfold media_blob. rewrite upto_app, from_app. split; [done|]. rewrite Hd. apply strip_padding_spec.
  eexists. split; [|done]. Z.div_mod_to_equations. lia.
Qed.
End Sealed.

(** *** Reading it back *)

Lemma stream_opens {S : Type} {W : IoSink S} {WL : IoSinkLaws S} (rd : Reader) media_key t (s : S) iv key mac_key :
  get_media_keys media_key t = Ok (iv, key, mac_key) -> zlen key = 32 -> length iv = BLOCK ->
  let '(r, s') := decrypt_stream_to_writer rd media_key t s in
  returns r
  /\ (forall n, r = Ok n -> reader_ends rd = true /\ exists p, opens key iv mac_key (reader_bytes rd) p
        /\ n = zlen p /\ written s' = written s ++ p)
  /\ (forall p, reader_ends rd = true -> opens key iv mac_key (reader_bytes rd) p ->
        r = Ok (zlen p) \/ unreliable (S := S)).
Proof.
  intros Hg Hk Hi. unfold decrypt_stream_to_writer. rewrite Hg.
  assert (H0 : Opened (S := S) key iv [] (written s) [] (mkDecryptor iv [] iv 0 s)).
  { split; cbn; rewrite ?app_nil_r; first [done|by left|by constructor]. }
  pose proof (decrypt_reads_ok key iv Hi rd _ _ _ _ H0) as Hr. destruct (decrypt_reads key rd _) as [r d].
  destruct Hr as [[-> Hu]|[[-> Hend]|(-> & Hend & cs & Hd)]].
  { split; [done|]. split; [done|by right]. }
  { split; [done|]. split; [done|]. intros p Hp. by rewrite Hend in Hp. }
  cbn [app] in Hd. destruct (decrypt_final_ok key iv mac_key Hi _ _ _ _ Hd) as [Hret Hfin].
  destruct Hd as [Hs Hb Hh Hpv Hw Hn Ht].
  destruct (decrypt_final key mac_key d) as [q|x| |] eqn:Ef; try done.
  - destruct (write_all q (d_writer d)) as [[|] s'] eqn:Ew.
    + split; [done|]. set (p := concat (cbc_dec key iv cs) ++ q).
      assert (Hop : opens key iv mac_key (reader_bytes rd) p) by (apply Hfin; by exists q).
      assert (Hlen : d_bytes_written d + zlen q = zlen p).
      { unfold p. rewrite zlen_app, concat_blocks_zlen, Hn by (by apply cbc_dec_blocks). unfold zlen. by rewrite cbc_dec_length. }
      split.
      * intros n [= <-]. split; [done|]. exists p. split; [done|]. split; [done|].
        apply write_all_ok in Ew as ->. by rewrite Hw, <- app_assoc.
      * intros p' _ Hop'. left. apply Hfin in Hop' as (q' & [= <-] & ->). by rewrite Hlen.
    + split; [done|]. split; [done|]. intros p _ _. right. eexists _, _. by rewrite Ew.
  - split; [done|]. split; [done|]. intros p _ Hop. apply Hfin in Hop as (q & Hq & _). done.
Qed.
End Files.

(** On any reader and any writer, the stream against the whole file. *)
Lemma stream_whole {MC : MediaCrypto} {ML : MediaLaws} {S : Type} {W : IoSink S} {WL : IoSinkLaws S}
    (rd : Reader) (media_key : bytes) (t : MediaType) (s : S) :
  let '(r, s') := decrypt_stream_to_writer rd media_key t s in
  let whole := verify_and_decrypt (reader_bytes rd) media_key t in
  returns r /\ returns whole
  /\ (forall n, r = Ok n ->
        reader_ends rd = true /\ exists p, whole = Ok p /\ n = zlen p /\ written s' = written s ++ p)
  /\ (forall p, reader_ends rd = true -> whole = Ok p -> r = Ok (zlen p) \/ unreliable (S := S)).
Proof.
  destruct (get_media_keys_ok media_key t) as (iv & key & mac_key & Hg & Hk & Hi).
  pose proof (stream_opens rd media_key t s iv key mac_key Hg Hk Hi) as Hs.
  destruct (decrypt_stream_to_writer rd media_key t s) as [r s'].
  destruct (verify_and_decrypt_ok (reader_bytes rd) media_key t iv key mac_key Hg Hk Hi) as [Hret Hv].
  destruct Hs as (Hr & Hok & Hex). cbv zeta. split_and!; [done|done| |].
  - intros n Hn. destruct (Hok n Hn) as (He & p & Hp & Hlen & Hw). split; [done|]. exists p. by rewrite Hv.
  - intros p He Hp. apply Hv in Hp. by apply Hex.
Qed.

(** ** The claims *)

(** C8: media files survive.  Whatever pieces the plaintext arrives in, the streaming encryptor
    and the in-memory one produce the same file, of the length [encrypted_len] announces, with
    the hashes of the plaintext and of the file, and with one truncated HMAC per window of the
    file where a sidecar is wanted; and that file opens to the plaintext, in memory and as a
    stream, whatever pieces it is delivered in. *)
Theorem media_roundtrip {MC : MediaCrypto} {ML : MediaLaws} (media_key : bytes) (t : MediaType)
    (sidecar : option bool) (rd : Reader) :
  reader_ends rd = true ->
  let pl := reader_bytes rd in
  let want := default (media_type_uses_sidecar t) sidecar in
  exists iv key mac_key blob,
    get_media_keys media_key t = Ok (iv, key, mac_key)
    /\ let side := if want then Some (sidecar_of mac_key blob) else None in
       encrypt_media_streaming_with_key rd [] t media_key sidecar
       = (Ok (mkMediaInfo media_key (media_sha256 pl) (media_sha256 blob) (zlen pl) side), blob)
    /\ encrypt_media_with_key_and_sidecar pl t media_key sidecar
       = Ok (mkEncryptedMedia blob media_key (media_sha256 pl) (media_sha256 blob) side)
    /\ zlen blob = encrypted_len (zlen pl)
    /\ verify_and_decrypt blob media_key t = Ok pl
    /\ forall rd' : Reader, reader_ends rd' = true -> reader_bytes rd' = blob -> decrypt_stream rd' media_key t = Ok pl.
Proof.
  intros Hend pl want. destruct (get_media_keys_ok media_key t) as (iv & key & mac_key & Hg & Hk & Hi).
  assert (Hvec : unreliable (S := bytes) -> False) by (intros (b & s & H); discriminate H).
  exists iv, key, mac_key, (media_blob key iv mac_key pl). split; [done|]. cbv zeta.
  pose proof (media_blob_opens iv key mac_key Hk Hi pl) as Hop. split_and!.
  - pose proof (encrypt_stream_ok (S := bytes) media_key t want iv key mac_key Hg Hi rd [] sidecar eq_refl) as He.
    destruct (encrypt_media_streaming_with_key rd [] t media_key sidecar) as [r s'].
    destruct He as [(x & _ & [H|[H|[s H]]])|(_ & -> & Hw)]; [congruence|by apply Hvec in H|discriminate H|].
    cbn in Hw. by rewrite Hw.
  - by apply (encrypt_media_ok media_key t want iv key mac_key Hg Hi pl sidecar).
  - by apply media_blob_zlen.
  - by apply (verify_and_decrypt_ok _ _ _ iv key mac_key Hg Hk Hi).
  - intros rd' Hend' Hb. pose proof (stream_opens (S := bytes) rd' media_key t [] iv key mac_key Hg Hk Hi) as Hs.
    unfold decrypt_stream. destruct (decrypt_stream_to_writer rd' media_key t []) as [r s'].
    destruct Hs as (_ & Hok & Hex). rewrite <- Hb in Hop. destruct (Hex pl Hend' Hop) as [->|H]; [|by apply Hvec in H].
    destruct (Hok _ eq_refl) as (_ & p & Hp & _ & Hw).
    cbn [written vec_write app] in Hw. rewrite Hw. f_equal.
    destruct Hop as (_ & _ & _ & Hop). destruct Hp as (_ & _ & _ & Hp). rewrite Hop in Hp. by injection Hp.
Qed.

(** The streaming decryption is the in-memory one.  On any reader and any writer, neither
    panics; a success of the stream means that the reader ended without an error, that
    [verify_and_decrypt] accepts all it delivered, and that exactly that plaintext was
    written; and what [verify_and_decrypt] accepts, the stream accepts, unless a read or a
    write fails. *)
Lemma stream_decryption_agrees {MC : MediaCrypto} {ML : MediaLaws} {S : Type} {W : IoSink S} {WL : IoSinkLaws S}
    (rd : Reader) (media_key : bytes) (t : MediaType) (s : S) :
  let '(r, s') := decrypt_stream_to_writer rd media_key t s in
  let whole := verify_and_decrypt (reader_bytes rd) media_key t in
  returns r /\ returns whole
  /\ (forall n, r = Ok n ->
        reader_ends rd = true /\ exists p, whole = Ok p /\ n = zlen p /\ written s' = written s ++ p)
  /\ (forall p, reader_ends rd = true -> whole = Ok p -> r = Ok (zlen p) \/ unreliable (S := S)).
Proof. exact (stream_whole rd media_key t s). Qed.

(** ** A concrete instance *)

(** The block cipher reverses a block. *)
#[export] Instance toy_media : MediaCrypto := {|
  media_hkdf ikm info n := Some (resize (Z.to_nat n) 7 ikm);
  media_hmac key data := resize 32 0 (rev data ++ key);
  media_sha256 data := resize 32 1 data;
  aes_encrypt_block key b := rev b;
  aes_decrypt_block key b := rev b;
  cbc_decrypt_padded key iv c :=
    (fix go (prev : bytes) (cs : list bytes) (acc : bytes) : option bytes :=
       match cs with
       | [] => res_ok (strip_padding acc)
       | c :: cs => go c cs (acc ++ xor_bytes (rev c) prev)
       end) iv (blocks c) [];
  base64_url h := map (fun b => 65 + b mod 26) h
|}.

#[export] Instance toy_media_laws : MediaLaws.
Proof.
  split.
  - intros ikm info n Hn. eexists. split; [done|]. unfold zlen. rewrite length_resize. lia.
  - intros key data. unfold zlen. cbn [media_hmac toy_media]. by rewrite length_resize.
  - intros key b Hb. cbn. by rewrite length_rev.
  - intros key b Hb. cbn. by rewrite length_rev.
  - intros key b _ _. cbn. by rewrite rev_involutive.
  - intros key iv cs p _ _ Hb _. cbn [cbc_decrypt_padded toy_media].
    rewrite <- (app_nil_r (concat cs)), blocks_concat by (done || (unfold BLOCK; cbn; lia)).
    assert (Hgo : forall prev acc,
      (fix go (prev : bytes) (cs : list bytes) (acc : bytes) : option bytes :=
         match cs with [] => res_ok (strip_padding acc) | c :: cs => go c cs (acc ++ xor_bytes (rev c) prev) end) prev cs acc
      = res_ok (strip_padding (acc ++ concat (cbc_dec key prev cs)))).
    { clear. induction cs as [|c cs IH]; intros prev acc; cbn [cbc_dec concat]; [by rewrite app_nil_r|].
      rewrite IH, <- app_assoc. done. }
    rewrite Hgo. cbn [app]. by rewrite res_ok_Some, strip_padding_spec.
Qed.

Definition toy_media_reader : Reader := [Some [1; 2; 3]; Some (replicate 20 9); Some [4]].

Lemma media_roundtrip_witness :
  exists blob, encrypt_media_with_key_and_sidecar (reader_bytes toy_media_reader) Image (replicate 32 5) None
    = Ok (mkEncryptedMedia blob (replicate 32 5) (media_sha256 (reader_bytes toy_media_reader)) (media_sha256 blob)
            None)
    /\ decrypt_stream [Some (upto 7 blob); Some (from 7 blob)] (replicate 32 5) Image = Ok (reader_bytes toy_media_reader).
Proof.
  destruct (media_roundtrip (replicate 32 5) Image None toy_media_reader eq_refl)
    as (iv & key & mac_key & blob & Hg & _ & He & Hl & _ & Hd).
  exists blob. injection Hg as <- <- <-. split; [exact He|].
  assert (Hz : zlen blob = 42) by (rewrite Hl; reflexivity). unfold zlen in Hz.
  assert (Hs : upto 7 blob ++ from 7 blob = blob) by apply upto_from.
  assert (H1 : length (upto 7 blob) = 7%nat) by (unfold upto; rewrite length_take; lia).
  assert (H2 : length (from 7 blob) = 35%nat) by (unfold from; rewrite length_drop; lia).
  destruct (upto 7 blob), (from 7 blob); try discriminate. apply Hd; [reflexivity|].
  cbn [reader_bytes]. by rewrite app_nil_r.
Defined.

Definition toy_blob : bytes :=
  match encrypt_media_with_key_and_sidecar [1; 2; 3] Image (replicate 32 5) None with
  | Ok enc => em_data_to_upload enc
  | _ => []
  end.
Definition toy_blob_reader : Reader := [Some (upto 7 toy_blob); Some (from 7 toy_blob)].
Lemma toy_blob_read : (decrypt_stream_to_writer toy_blob_reader (replicate 32 5) Image [0]).1 = Ok 3.
Proof. vm_compute. reflexivity. Qed.
Lemma stream_decryption_agrees_witness :
  exists p, verify_and_decrypt (reader_bytes toy_blob_reader) (replicate 32 5) Image = Ok p /\ zlen p = 3
  /\ written (decrypt_stream_to_writer toy_blob_reader (replicate 32 5) Image [0]).2 = 0 :: p.
Proof.
  pose proof toy_blob_read as Hr.
  pose proof (stream_decryption_agrees toy_blob_reader (replicate 32 5) Image ([0] : bytes)) as H.
  destruct (decrypt_stream_to_writer toy_blob_reader (replicate 32 5) Image ([0] : bytes)) as [r s']. cbn [fst snd] in *.
  destruct H as (_ & _ & Hok & _). destruct (Hok 3 Hr) as (_ & p & Hw & Hn & Hs). by exists p.
Defined.
