(* ===== verification/MediaTransfer.v ===== *)
(** * Media transfers

    [src/mediaconn.rs], [src/download.rs] and [src/upload.rs]: the cached media connection, and
    downloads and uploads over several hosts, with one refresh of the credentials and with
    uploads that resume where the server says.  The servers are the class [MediaHttp]; they
    may answer anything. *)

From stdpp Require Import prelude strings.
From S2P Require Import Prelude Media.

#[local] Open Scope Z_scope.

(** ** HTTP *)

Record HttpRequest : Type := mkHttpRequest {
  hq_url : bytes; hq_method : bytes; hq_headers : list (bytes * bytes); hq_body : option bytes
}.
Record HttpResponse : Type := mkHttpResponse { hs_status_code : Z; hs_body : bytes }.

Definition http_get (url : bytes) : HttpRequest := mkHttpRequest url (str "GET") [] None.
Definition http_post (url : bytes) : HttpRequest := mkHttpRequest url (str "POST") [] None.
Definition with_header (r : HttpRequest) (key value : bytes) : HttpRequest :=
  mkHttpRequest (hq_url r) (hq_method r) (hq_headers r ++ [(key, value)]) (hq_body r).
Definition with_body (r : HttpRequest) (body : bytes) : HttpRequest :=
  mkHttpRequest (hq_url r) (hq_method r) (hq_headers r) (Some body).

(** ** The media connection *)

(** Of a host, the name. *)
Record MediaConn : Type := mkMediaConn {
  cn_auth : bytes; cn_ttl : Z; cn_auth_ttl : option Z; cn_hosts : list bytes; cn_fetched_at : Z
}.

Class MediaHttp (W : Type) : Type := {
  (** the request, with its body; [None] when no response arrived *)
  mh_execute : HttpRequest -> W -> option HttpResponse * W;
  (** does the client stream, and the status and the body of a response that it reads piece by
      piece *)
  mh_streaming : bool;
  mh_execute_streaming : HttpRequest -> W -> option (Z * list (option bytes)) * W;
  (** the response to a [MediaConnSpec]: auth, ttl, auth ttl, hosts *)
  mh_fetch_conn : W -> option (bytes * Z * option Z * list bytes) * W;
  (** the monotonic clock, in nanoseconds *)
  mh_now : W -> Z;
  (** the JSON bodies: url, direct path and resume position of a progress response; url and
      direct path of an upload response *)
  mh_json_progress : bytes -> option (option bytes * option bytes * option bytes);
  mh_json_upload : bytes -> option (bytes * bytes)
}.

Definition is_media_auth_error (status : Z) : bool := (status =? 401) || (status =? 403).
Definition MEDIA_AUTH_REFRESH_RETRY_ATTEMPTS : nat := 1.

Definition is_expired (now : Z) (c : MediaConn) : bool :=
  let effective_ttl := match cn_auth_ttl c with Some at_ => Z.min (cn_ttl c) at_ | None => cn_ttl c end in
  effective_ttl * 10 ^ 9 <? now - cn_fetched_at c.

(** Errors of a transfer: one request, or the rest. *)
Inductive TransferError : Type :=
  | TAuth (status : Z) | TNotFound (status : Z) | TStatus (status : Z) | TNoResponse
  | TMedia (e : MediaError) | TConn | TNoHosts | TAllFailed | TBadJson.
Definition is_auth (e : TransferError) : bool := match e with TAuth _ => true | _ => false end.
Definition is_not_found (e : TransferError) : bool := match e with TNotFound _ => true | _ => false end.

Section Transfer.
Context {MC : MediaCrypto} {W : Type} {MH : MediaHttp W}.

(** The cached connection and the world. *)
Abbreviation world := (option MediaConn * W)%type.

Definition invalidate_media_conn (s : world) : world := (None, s.2).

Definition refresh_media_conn (force : bool) (s : world) : outcome TransferError MediaConn * world :=
  let '(cached, w) := s in
  let fetch :=
    match mh_fetch_conn w with
    | (Some (auth, ttl, auth_ttl, hosts), w) =>
        let c := mkMediaConn auth ttl auth_ttl hosts (mh_now w) in (Ok c, (Some c, w))
    | (None, w) => (Err TConn, (cached, w))
    end in
  match cached with
  | Some c => if negb force && negb (is_expired (mh_now w) c) then (Ok c, s) else fetch
  | None => fetch
  end.

Definition prepare_requests (d : Downloadable) (force_refresh : bool) (s : world)
    : outcome TransferError (list DownloadRequest) * world :=
  match refresh_media_conn force_refresh s with
  | (Ok c, s) => (map_err TMedia (prepare_download_requests d (mkMediaConnection (cn_hosts c) (cn_auth c))), s)
  | (Err e, s) => (Err e, s) | (Panic, s) => (Panic, s) | (Timeout, s) => (Timeout, s)
  end.

(** ** Downloading *)

Definition status_error (status : Z) : TransferError :=
  if is_media_auth_error status then TAuth status
  else if (status =? 404) || (status =? 410) then TNotFound status
  else TStatus status.

(** A body in memory is read in pieces of 8 KiB. *)
Definition READ_CHUNK : nat := 8 * 1024.
Definition body_reader (body : bytes) : list (option bytes) :=
  let '(pieces, rest) := as_chunks READ_CHUNK body in map Some pieces ++ [Some rest].

Definition download_with_request (rq : DownloadRequest) (s : world) : outcome TransferError bytes * world :=
  let '(cached, w) := s in
  match mh_execute (http_get (rq_url rq)) w with
  | (None, w) => (Err TNoResponse, (cached, w))
  | (Some resp, w) =>
      (if 300 <=? hs_status_code resp then Err (status_error (hs_status_code resp))
       else match rq_decryption rq with
            | Encrypted media_key t => map_err TMedia (decrypt_stream (body_reader (hs_body resp)) media_key t)
            | Plaintext sha =>
                _ ← map_err TMedia (validate_plaintext_sha256 (hs_body resp) sha); Ok (hs_body resp)
            end, (cached, w))
  end.

(** The hosts of one attempt: a result, a final error, a refresh of the credentials, or the
    last error of hosts that all failed. *)
Inductive Attempt (A : Type) : Type :=
  | Done (a : A) | Fatal_ (e : TransferError)
  | Refresh (last : option TransferError) | Exhausted (last : option TransferError).
Arguments Done {A} a. Arguments Fatal_ {A} e. Arguments Refresh {A} last. Arguments Exhausted {A} last.

(** The loop over the requests, with any way to execute one; [X] is what the execution
    carries along. *)
Fixpoint try_requests {X A} (execute : DownloadRequest -> X -> world -> outcome TransferError A * X * world)
    (first : bool) (rqs : list DownloadRequest) (last : option TransferError) (x : X) (s : world)
    : outcome TransferError (Attempt A) * X * world :=
  match rqs with
  | [] => (Ok (Exhausted last), x, s)
  | rq :: rest =>
      match execute rq x s with
      | (Ok a, x, s) => (Ok (Done a), x, s)
      | (Err e, x, s) =>
          if is_auth e || is_not_found e
          then if first then (Ok (Refresh last), x, invalidate_media_conn s) else (Ok (Fatal_ e), x, s)
          else try_requests execute first rest (Some e) x s
      | (Panic, x, s) => (Panic, x, s)
      | (Timeout, x, s) => (Timeout, x, s)
      end
  end.

(** [for attempt in 0..=MEDIA_AUTH_REFRESH_RETRY_ATTEMPTS]; [left_] is what remains of it. *)
Fixpoint retry_attempts {X A} (execute : DownloadRequest -> X -> world -> outcome TransferError A * X * world)
    (d : Downloadable) (first : bool) (left_ : nat) (last : option TransferError) (x : X) (s : world)
    : outcome TransferError A * X * world :=
  let failed last := Err (default TAllFailed last) in
  match prepare_requests d (negb first) s with
  | (Ok rqs, s) =>
      match try_requests execute first rqs last x s with
      | (Ok (Done a), x, s) => (Ok a, x, s)
      | (Ok (Fatal_ e), x, s) => (Err e, x, s)
      | (Ok (Refresh last), x, s) =>
          match left_ with
          | O => (failed last, x, s)
          | S left_ => retry_attempts execute d false left_ last x s
          end
      | (Ok (Exhausted last), x, s) => (failed last, x, s)
      | (Err e, x, s) => (Err e, x, s) | (Panic, x, s) => (Panic, x, s) | (Timeout, x, s) => (Timeout, x, s)
      end
  | (Err e, s) => (Err e, x, s) | (Panic, s) => (Panic, x, s) | (Timeout, s) => (Timeout, x, s)
  end.

Definition download_media_with_retry (d : Downloadable) (s : world) : outcome TransferError bytes * world :=
  let '(r, _, s) := retry_attempts
    (fun rq (x : unit) s => let '(r, s) := download_with_request rq s in (r, x, s))
    d true MEDIA_AUTH_REFRESH_RETRY_ATTEMPTS None tt s in (r, s).
Definition media_download (d : Downloadable) (s : world) : outcome TransferError bytes * world :=
  download_media_with_retry d s.

(** *** To a writer *)

(** [Write + Seek] of a writer that does not fail: what lies before and after the position.
    A write overwrites. *)
Record Cursor : Type := mkCursor { cu_before : bytes; cu_after : bytes }.
Definition cursor_contents (c : Cursor) : bytes := cu_before c ++ cu_after c.
Definition cursor_rewind (c : Cursor) : Cursor := mkCursor [] (cursor_contents c).
#[global] Instance cursor_write : IoSink Cursor := {|
  write_all b c := (true, mkCursor (cu_before c ++ b) (drop (length b) (cu_after c)));
  io_flush c := (true, c);
  written c := cu_before c
|}.

Definition write_media (decryption : MediaDecryption) (r : list (option bytes)) (c : Cursor)
    : outcome MediaError Z * Cursor :=
  match decryption with
  | Encrypted media_key t => decrypt_stream_to_writer r media_key t c
  | Plaintext sha => copy_and_validate_plaintext_to_writer r sha c
  end.

(** The common part: rewind, write, rewind.  The writer is rewound at the end only when all
    went well. *)
Definition write_response (decryption : MediaDecryption) (status : Z) (r : list (option bytes)) (c : Cursor)
    : outcome TransferError unit * Cursor :=
  if 300 <=? status then (Err (status_error status), c)
  else
    match write_media decryption r c with
    | (Ok _, c) => (Ok tt, cursor_rewind c)
    | (Err e, c) => (Err (TMedia e), c) | (Panic, c) => (Panic, c) | (Timeout, c) => (Timeout, c)
    end.

(** The status is looked at before the writer is rewound. *)
Definition buffered_download_and_decrypt (rq : DownloadRequest) (c : Cursor) (s : world)
    : outcome TransferError unit * Cursor * world :=
  let '(cached, w) := s in
  match mh_execute (http_get (rq_url rq)) w with
  | (None, w) => (Err TNoResponse, c, (cached, w))
  | (Some resp, w) =>
      if 300 <=? hs_status_code resp then (Err (status_error (hs_status_code resp)), c, (cached, w))
      else
        let '(r, c) := write_response (rq_decryption rq) (hs_status_code resp) (body_reader (hs_body resp))
                         (cursor_rewind c) in
        (r, c, (cached, w))
  end.

Definition streaming_download_and_decrypt (rq : DownloadRequest) (c : Cursor) (s : world)
    : outcome TransferError unit * Cursor * world :=
  if negb mh_streaming then buffered_download_and_decrypt rq c s
  else
    let '(cached, w) := s in
    let c := cursor_rewind c in
    match mh_execute_streaming (http_get (rq_url rq)) w with
    | (None, w) => (Err TNoResponse, c, (cached, w))
    | (Some (status, body), w) =>
        let '(r, c) := write_response (rq_decryption rq) status body c in (r, c, (cached, w))
    end.

Definition download_to_writer (d : Downloadable) (c : Cursor) (s : world)
    : outcome TransferError unit * Cursor * world :=
  retry_attempts streaming_download_and_decrypt d true MEDIA_AUTH_REFRESH_RETRY_ATTEMPTS None c s.

(** ** Uploading *)

Definition RESUMABLE_UPLOAD_THRESHOLD : Z := 5 * 1024 * 1024.

Inductive UploadExistsResult : Type :=
  | UploadComplete (url direct_path : bytes)
  | UploadResume (byte_offset : Z)
  | UploadNotFound.

Definition parse_upload_progress (resp : HttpResponse) (total_size : Z) : UploadExistsResult :=
  if 400 <=? hs_status_code resp then UploadNotFound
  else
    match mh_json_progress (hs_body resp) with
    | None => UploadNotFound
    | Some (url, direct_path, resume) =>
        match resume with
        | None => UploadNotFound
        | Some text =>
            if bytes_eqb text (str "complete") then
              match url, direct_path with
              | Some url, Some direct_path => UploadComplete url direct_path
              | _, _ => UploadNotFound
              end
            else
              match parse_u64 text with
              | Some offset =>
                  if (0 <? offset) && (offset <? total_size) then UploadResume offset else UploadNotFound
              | None => UploadNotFound
              end
        end
    end.

Definition build_upload_request (hostname upload_path auth token : bytes) (file_offset : option Z) : HttpRequest :=
  let url := str "https://" ++ hostname ++ upload_path ++ str "/" ++ token ++ str "?auth=" ++ auth
             ++ str "&token=" ++ token in
  let url := match file_offset with Some o => url ++ str "&file_offset=" ++ itoa o | None => url end in
  with_header (with_header (http_post url) (str "Content-Type") (str "application/octet-stream"))
    (str "Origin") (str "https://web.whatsapp.com").

Definition build_resume_check_request (hostname upload_path auth token : bytes) : HttpRequest :=
  with_header (http_post (str "https://" ++ hostname ++ upload_path ++ str "/" ++ token ++ str "?auth=" ++ auth
                          ++ str "&token=" ++ token ++ str "&resume=1"))
    (str "Origin") (str "https://web.whatsapp.com").

Record UploadCrypto : Type := mkUploadCrypto {
  uc_media_key : bytes; uc_file_sha256 : bytes; uc_file_enc_sha256 : bytes; uc_streaming_sidecar : option bytes
}.
Record UploadResponse : Type := mkUploadResponse {
  ur_url : bytes; ur_direct_path : bytes; ur_media_key : bytes; ur_file_enc_sha256 : bytes; ur_file_sha256 : bytes;
  ur_file_length : Z; ur_media_key_timestamp : Z; ur_streaming_sidecar : option bytes
}.
Definition crypto_response (c : UploadCrypto) (url direct_path : bytes) (file_length timestamp : Z) : UploadResponse :=
  mkUploadResponse url direct_path (uc_media_key c) (uc_file_enc_sha256 c) (uc_file_sha256 c) file_length timestamp
    (uc_streaming_sidecar c).

Section Upload.
Context (crypto : UploadCrypto) (t : MediaType) (file_length timestamp : Z) (ciphertext : bytes).

Abbreviation respond := (fun url path => crypto_response crypto url path file_length timestamp).
Abbreviation token := (base64_url (uc_file_enc_sha256 crypto)).

(** The progress of an earlier upload, for large files. *)
Definition upload_progress (host auth : bytes) (w : W) : UploadExistsResult * W :=
  if RESUMABLE_UPLOAD_THRESHOLD <=? zlen ciphertext then
    match mh_execute (build_resume_check_request host (upload_path t) auth token) w with
    | (Some resp, w) => (parse_upload_progress resp (zlen ciphertext), w)
    | (None, w) => (UploadNotFound, w)
    end
  else (UploadNotFound, w).

(** [send_body]: the ciphertext from the offset on. *)
Definition send_body (rq : HttpRequest) (offset : Z) (w : W) : option HttpResponse * W :=
  mh_execute (with_body rq (from offset ciphertext)) w.

(** The hosts of one attempt. *)
Fixpoint upload_hosts (auth : bytes) (first : bool) (hosts : list bytes) (last : option TransferError) (s : world)
    : outcome TransferError (Attempt UploadResponse) * world :=
  match hosts with
  | [] => (Ok (Exhausted last), s)
  | host :: rest =>
      let '(cached, w) := s in
      let '(progress, w) := upload_progress host auth w in
      match progress with
      | UploadComplete url direct_path => (Ok (Done (respond url direct_path)), (cached, w))
      | _ =>
          let offset := match progress with
                        | UploadResume o => if zlen ciphertext <=? o then None else Some o
                        | _ => None
                        end in
          let rq := build_upload_request host (upload_path t) auth token offset in
          match send_body rq (default 0 offset) w with
          | (None, w) => upload_hosts auth first rest (Some TNoResponse) (cached, w)
          | (Some resp, w) =>
              if hs_status_code resp <? 400 then
                match mh_json_upload (hs_body resp) with
                | Some (url, direct_path) => (Ok (Done (respond url direct_path)), (cached, w))
                | None => (Ok (Fatal_ TBadJson), (cached, w))
                end
              else if is_media_auth_error (hs_status_code resp) then
                if first then (Ok (Refresh last), invalidate_media_conn (cached, w))
                else (Ok (Fatal_ (TAuth (hs_status_code resp))), (cached, w))
              else upload_hosts auth first rest (Some (TStatus (hs_status_code resp))) (cached, w)
          end
      end
  end.

Fixpoint upload_attempts (first : bool) (left_ : nat) (last : option TransferError) (s : world)
    : outcome TransferError UploadResponse * world :=
  match refresh_media_conn (negb first) s with
  | (Ok conn, s) =>
      match cn_hosts conn with
      | [] => (Err TNoHosts, s)
      | _ =>
          match upload_hosts (cn_auth conn) first (cn_hosts conn) last s with
          | (Ok (Done r), s) => (Ok r, s)
          | (Ok (Fatal_ e), s) => (Err e, s)
          | (Ok (Refresh last), s) =>
              match left_ with
              | O => (Err (default TAllFailed last), s)
              | S left_ => upload_attempts false left_ last s
              end
          | (Ok (Exhausted last), s) => (Err (default TAllFailed last), s)
          | (Err e, s) => (Err e, s) | (Panic, s) => (Panic, s) | (Timeout, s) => (Timeout, s)
          end
      end
  | (Err e, s) => (Err e, s) | (Panic, s) => (Panic, s) | (Timeout, s) => (Timeout, s)
  end.
Definition upload_media_with_retry (s : world) : outcome TransferError UploadResponse * world :=
  upload_attempts true MEDIA_AUTH_REFRESH_RETRY_ATTEMPTS None s.
End Upload.

(** [media_key] is the key of the options, or the random one. *)
Definition upload (data : bytes) (t : MediaType) (media_key : bytes) (sidecar : option bool) (timestamp : Z) (s : world)
    : outcome TransferError UploadResponse * world :=
  match encrypt_media_with_key_and_sidecar data t media_key sidecar with
  | Ok enc =>
      upload_media_with_retry
        (mkUploadCrypto (em_media_key enc) (em_file_sha256 enc) (em_file_enc_sha256 enc) (em_streaming_sidecar enc))
        t (zlen data) timestamp (em_data_to_upload enc) s
  | Err e => (Err (TMedia e), s) | Panic => (Panic, s) | Timeout => (Timeout, s)
  end.

(** An encrypted file in any storage that can be read from an offset; the body is streamed, as
    [execute_upload] promises, with the length that remains. *)
Definition upload_stream (source : bytes) (info : EncryptedMediaInfo) (t : MediaType) (timestamp : Z) (s : world)
    : outcome TransferError UploadResponse * world :=
  upload_media_with_retry
    (mkUploadCrypto (mi_media_key info) (mi_file_sha256 info) (mi_file_enc_sha256 info) (mi_streaming_sidecar info))
    t (mi_file_length info) timestamp source s.

(** [DownloadParams] of what an upload returned. *)
Definition params_encrypted (r : UploadResponse) (t : MediaType) : Downloadable :=
  mkDownloadable (Some (ur_direct_path r)) (Some (ur_media_key r)) (Some (ur_file_enc_sha256 r))
    (Some (ur_file_sha256 r)) (Some (ur_file_length r)) t None.
End Transfer.
Arguments Done {A} a. Arguments Fatal_ {A} e. Arguments Refresh {A} last. Arguments Exhausted {A} last.
