(* ===== verification/MediaDelivery.v ===== *)
(** * Media from one device to another

    The transfers of [MediaTransfer] over the codec: what a download returns was verified,
    whatever the servers do; and a file that was uploaded, through failures, refreshed
    credentials and resumed positions, is the file that other devices download. *)

From stdpp Require Import prelude strings.
From S2P Require Import Prelude Media MediaStream MediaCodec MediaTransfer.

#[local] Open Scope Z_scope.

Section Codec.
Context {MC : MediaCrypto} {ML : MediaLaws}.

Lemma pieces_reader (ps : list bytes) (rest : bytes) : Forall (fun p => p <> []) ps ->
  reader_ends (map Some ps ++ [Some rest]) = true /\ reader_bytes (map Some ps ++ [Some rest]) = concat ps ++ rest.
Proof.
  induction 1 as [|p ps Hp Hps [IHe IHb]]; cbn [map app].
  - destruct rest; [done|]. cbn. by rewrite app_nil_r.
  - destruct p as [|z p]; [done|]. cbn [reader_ends reader_bytes concat]. rewrite IHe, IHb. by rewrite app_assoc.
Qed.

Lemma body_reader_ok body : reader_ends (body_reader body) = true /\ reader_bytes (body_reader body) = body.
Proof.
  unfold body_reader. pose proof (as_chunks_spec READ_CHUNK body) as H. destruct (as_chunks READ_CHUNK body) as [ps r].
  destruct H as (-> & Hps & _); [unfold READ_CHUNK; lia|]. apply pieces_reader.
  eapply Forall_impl; [exact Hps|]. intros p Hp ->. unfold READ_CHUNK in Hp. cbn [length] in Hp. lia.
Qed.

(** A body in memory: the stream decrypts what [verify_and_decrypt] does. *)
Lemma decrypt_body body media_key t :
  match verify_and_decrypt body media_key t with
  | Ok p => decrypt_stream (body_reader body) media_key t = Ok p
  | _ => exists x, decrypt_stream (body_reader body) media_key t = Err x
  end.
Proof.
  pose proof (stream_whole (S := bytes) (body_reader body) media_key t []) as H. unfold decrypt_stream.
  destruct (decrypt_stream_to_writer (body_reader body) media_key t []) as [r s].
  destruct (body_reader_ok body) as [He Hb]. rewrite Hb in H. destruct H as (Hr & Hw & Hok & Hex).
  destruct (verify_and_decrypt body media_key t) as [p|x| |]; try done.
  - destruct (Hex p He eq_refl) as [->|(b & s' & Hu)]; [|discriminate Hu].
    destruct (Hok _ eq_refl) as (_ & q & [= <-] & _ & Hs). cbn in Hs. by rewrite Hs.
  - destruct r as [n|y| |]; try done; [|by exists y]. by destruct (Hok n eq_refl) as (_ & p & ? & _).
Qed.

Lemma validate_ok data sha :
  validate_plaintext_sha256 data sha = (if bytes_eqb (media_sha256 data) sha then Ok tt else Err HashMismatch).
Proof. unfold validate_plaintext_sha256. by destruct (bytes_eqb _ _). Qed.

(** The location of a file on a host. *)
Definition file_url (host path auth token : bytes) : bytes :=
  str "https://" ++ host ++ path ++ str "?auth=" ++ auth ++ str "&token=" ++ token.

(** Where the file of a message may be: at its fixed location, or under its path, with its hash
    as the token, on any host. *)
Definition served_at (d : Downloadable) (url : bytes) : Prop :=
  match dl_static_url d with
  | Some u => url = u
  | None => exists host auth path hash, dl_direct_path d = Some path
      /\ (if dl_is_encrypted d then dl_file_enc_sha256 d else dl_file_sha256 d) = Some hash
      /\ url = file_url host path auth (base64_url hash)
  end.

(** The bytes [body] are the file [data] of the message.  Encrypted: behind the ciphertext come
    the first ten bytes of its HMAC, with the IV before it, under the key that the media key
    gives, and [data] is the decryption.  Else [data] is [body], with the hash of the message. *)
Definition is_file (d : Downloadable) (body data : bytes) : Prop :=
  match dl_media_key d with
  | Some media_key => exists expanded ciphertext mac,
      media_hkdf media_key (media_app_info (dl_app_info d)) 112 = Some expanded
      /\ body = ciphertext ++ mac /\ zlen mac = 10
      /\ mac = upto 10 (media_hmac (upto 32 (from 48 expanded)) (upto 16 expanded ++ ciphertext))
      /\ cbc_decrypt_padded (upto 32 (from 16 expanded)) (upto 16 expanded) ciphertext = Some data
  | None => data = body /\ dl_file_sha256 d = Some (media_sha256 body)
  end.

(** What a download must check. *)
Definition decryption_of (d : Downloadable) : option MediaDecryption :=
  match dl_media_key d with
  | Some k => Some (Encrypted k (dl_app_info d))
  | None => Plaintext <$> dl_file_sha256 d
  end.

Lemma prepare_requests_ok d conn :
  returns (prepare_download_requests d conn)
  /\ forall rqs, prepare_download_requests d conn = Ok rqs ->
     Forall (fun rq => decryption_of d = Some (rq_decryption rq) /\ served_at d (rq_url rq)) rqs.
Proof.
  unfold prepare_download_requests, decryption_of, served_at, dl_is_encrypted.
  destruct (dl_media_key d) as [k|], (dl_file_sha256 d) as [sha|]; cbn [ok_or mbind outcome_bind fmap option_fmap option_map];
    try done; (split; [repeat case_match; cbn; try done; destruct (dl_direct_path d), (dl_file_enc_sha256 d); done|]);
    intros rqs; (destruct (dl_static_url d); [intros [= <-]; by repeat constructor|]);
    destruct (dl_direct_path d) as [path|]; cbn [ok_or mbind outcome_bind]; try done;
    (destruct (dl_file_enc_sha256 d) || idtac); cbn [ok_or mbind outcome_bind]; try done;
    intros [= <-]; apply Forall_map, Forall_true; intros host; (split; [done|]);
    eexists host, (mc_auth conn), path, _; done.
Qed.

(** The checks of the code establish it. *)
Lemma open_is_file d dec body data : decryption_of d = Some dec -> open_download dec body = Ok data ->
  is_file d body data.
Proof.
  unfold decryption_of, is_file. destruct (dl_media_key d) as [k|].
  - intros [= <-]. cbn [open_download]. unfold verify_and_decrypt, get_media_keys.
    destruct (Z.leb_spec (zlen body) 10); [done|]. destruct (media_hkdf _ _ _) as [ex|]; [|done].
    cbn [ok_or mbind outcome_bind]. destruct (bytes_eqb _ _) eqn:Em; [|done]. cbn [negb]. apply bytes_eqb_eq in Em.
    unfold rust_cbc_decrypt. destruct (_ || _); [done|]. destruct (cbc_decrypt_padded _ _ _) as [p|] eqn:Ec; [|done].
    intros [= <-]. eexists ex, _, _. split; [done|]. split; [symmetry; apply upto_from|]. split; [|done].
    unfold from, zlen in *. rewrite length_drop. lia.
  - destruct (dl_file_sha256 d) as [sha|]; [|done]. intros [= <-]. cbn [open_download]. rewrite validate_ok.
    destruct (bytes_eqb _ _) eqn:E; [|done]. apply bytes_eqb_eq in E as <-. by intros [= <-].
Qed.
End Codec.

(** ** The retry loop *)

Section Retry.
Context {MC : MediaCrypto} {W : Type} {MH : MediaHttp W} {X A : Type}.
Context (execute : DownloadRequest -> X -> option MediaConn * W -> outcome TransferError A * X * (option MediaConn * W)).
Context (P : DownloadRequest -> Prop) (I : X -> W -> Prop) (Q : A -> X -> W -> Prop) (E : TransferError -> Prop).
Context (Hexec : forall rq x c w, P rq -> I x w ->
  let '(r, x', (c', w')) := execute rq x (c, w) in
  I x' w' /\ match r with Ok a => Q a x' w' | Err e => E e | _ => False end).
Context (Hfetch : forall x w, I x w -> I x (mh_fetch_conn w).2).

Definition settled (at_ : Attempt A) (x : X) (w : W) : Prop :=
  match at_ with
  | Done a => Q a x w
  | Fatal_ e => E e
  | Refresh last | Exhausted last => from_option E True last
  end.

Lemma try_requests_ok first rqs last x c w :
  Forall P rqs -> from_option E True last -> I x w ->
  let '(r, x', (c', w')) := try_requests execute first rqs last x (c, w) in
  I x' w' /\ exists at_, r = Ok at_ /\ settled at_ x' w'.
Proof.
  intros Hr. revert last x c w. induction Hr as [|rq rqs Hrq Hr IH]; intros last x c w Hl Hi; cbn [try_requests].
  { split; [done|]. by eexists. }
  pose proof (Hexec rq x c w Hrq Hi) as He. destruct (execute rq x (c, w)) as [[r x'] [c' w']].
  destruct He as [Hi' He]. destruct r as [a|e| |]; try done.
  - split; [done|]. by eexists.
  - destruct (is_auth e || is_not_found e); [|by apply IH].
    destruct first; cbn; (split; [done|]); by eexists.
Qed.

Lemma refresh_ok force x c w : I x w ->
  let '(r, (c', w')) := refresh_media_conn force (c, w) in
  I x w' /\ ((exists conn, r = Ok conn) \/ r = Err TConn).
Proof.
  intros Hi. pose proof (Hfetch x w Hi) as Hf. unfold refresh_media_conn.
  destruct (mh_fetch_conn w) as [[[[[auth ttl] at_] hosts]|] w'] eqn:Ef; cbn [snd] in Hf;
    (destruct c as [conn|]; [destruct (_ && _)|]); (split; [done|]); by eauto.
Qed.

Lemma retry_attempts_ok d first left_ last x c w :
  (forall conn rqs, prepare_download_requests d conn = Ok rqs -> Forall P rqs) ->
  (forall conn, returns (prepare_download_requests d conn)) ->
  (forall e, E (TMedia e)) \/ (forall conn, exists rqs, prepare_download_requests d conn = Ok rqs) ->
  E TConn -> E TAllFailed -> from_option E True last -> I x w ->
  let '(r, x', (c', w')) := retry_attempts execute d first left_ last x (c, w) in
  I x' w' /\ match r with Ok a => Q a x' w' | Err e => E e | _ => False end.
Proof.
  intros Hp Hret Herr Hconn Hall. revert first last x c w. induction left_ as [|left_ IH];
    intros first last x c w Hl Hi; cbn [retry_attempts]; unfold prepare_requests;
    pose proof (refresh_ok (negb first) x c w Hi) as Hre;
    (destruct (refresh_media_conn (negb first) (c, w)) as [rc [c1 w1]]);
    (destruct Hre as [Hi1 [[conn ->]| ->]]; [|done]);
    pose proof (Hp (mkMediaConnection (cn_hosts conn) (cn_auth conn))) as Hp';
    pose proof (Hret (mkMediaConnection (cn_hosts conn) (cn_auth conn))) as Hret';
    (destruct (prepare_download_requests d _) as [rqs|e| |] eqn:Eq; try done; cbn [map_err];
      [|split; [done|]; destruct Herr as [Herr|Herr]; [done|destruct (Herr (mkMediaConnection (cn_hosts conn) (cn_auth conn))); congruence]]);
    pose proof (try_requests_ok first rqs last x c1 w1 (Hp' rqs eq_refl) Hl Hi1) as Ht;
    (destruct (try_requests execute first rqs last x (c1, w1)) as [[rt x2] [c2 w2]]);
    (destruct Ht as [Hi2 (at_ & -> & Hs)]); (destruct at_ as [a|e|last'|last']; cbn [settled] in Hs;
      [done|done| |split; [done|]; by destruct last']).
  - split; [done|]. by destruct last'.
  - by apply IH.
Qed.
End Retry.

(** ** What a download returns *)

Section Verified.
Context {MC : MediaCrypto} {ML : MediaLaws} {W : Type} {MH : MediaHttp W}.

(** The calls a download makes: for the connection, and for the file where it may be. *)
Inductive asked (d : Downloadable) (w : W) : W -> Prop :=
  | asked_start : asked d w w
  | asked_conn w1 : asked d w w1 -> asked d w (mh_fetch_conn w1).2
  | asked_get w1 url : asked d w w1 -> served_at d url -> asked d w (mh_execute (http_get url) w1).2
  | asked_stream w1 url : asked d w w1 -> served_at d url -> asked d w (mh_execute_streaming (http_get url) w1).2.

(** The last of them was answered, with a success and these bytes. *)
Definition answered (d : Downloadable) (w w' : W) (body : bytes) : Prop :=
  exists w1 url, asked d w w1 /\ served_at d url
    /\ ((exists resp, mh_execute (http_get url) w1 = (Some resp, w') /\ hs_status_code resp < 300
                      /\ hs_body resp = body)
        \/ exists status rd, mh_execute_streaming (http_get url) w1 = (Some (status, rd), w') /\ status < 300
                             /\ reader_ends rd = true /\ reader_bytes rd = body).

Abbreviation request_of d rq := (decryption_of d = Some (rq_decryption rq) /\ served_at d (rq_url rq)).

Lemma download_request_ok d w0 rq c w : request_of d rq -> asked d w0 w ->
  let '(r, (c', w')) := download_with_request rq (c, w) in
  asked d w0 w' /\ match r with
                   | Ok data => exists body, answered d w0 w' body /\ is_file d body data
                   | Err _ => True
                   | _ => False
                   end.
Proof.
  intros [Hd Hu] Ha. pose proof (asked_get d w0 w _ Ha Hu) as Ha'. unfold download_with_request.
  destruct (mh_execute _ w) as [[resp|] w'] eqn:Ee; cbn [snd] in Ha'; [|done].
  destruct (Z.leb_spec 300 (hs_status_code resp)); (split; [done|]); [done|].
  assert (Hans : answered d w0 w' (hs_body resp)).
  { exists w, (rq_url rq). split; [done|]. split; [done|]. left. by exists resp. }
  pose proof (open_is_file d (rq_decryption rq) (hs_body resp)) as Ho.
  destruct (rq_decryption rq) as [k t|sha]; cbn [open_download] in Ho.
  - pose proof (decrypt_body (hs_body resp) k t) as Hb.
    destruct (verify_and_decrypt (hs_body resp) k t) as [p|e| |]; [|by destruct Hb as [x ->]..].
    rewrite Hb. exists (hs_body resp). split; [done|]. by apply Ho.
  - destruct (validate_plaintext_sha256 (hs_body resp) sha) as [[]|e| |] eqn:Ev; try done.
    + exists (hs_body resp). split; [done|]. by apply Ho.
    + rewrite validate_ok in Ev. by destruct (bytes_eqb _ _).
    + rewrite validate_ok in Ev. by destruct (bytes_eqb _ _).
Qed.

(** A write to the rewound writer leaves the file at its start. *)
Lemma cursor_write_laws : IoSinkLaws Cursor.
Proof. split; [intros b s s' H; by injection H as <-|intros s s' H; by injection H as <-]. Qed.

Lemma copy_reads_ok (rd : Reader) hashed total (c : Cursor) :
  let '(r, c') := copy_reads rd hashed total c in
  match r with
  | Ok (h, n) => reader_ends rd = true /\ h = hashed ++ reader_bytes rd
                 /\ cu_before c' = cu_before c ++ reader_bytes rd
  | Err _ => True
  | _ => False
  end.
Proof.
  revert hashed total c. induction rd as [|[[|z buf]|] rd IH]; intros hashed total c; cbn [copy_reads reader_bytes reader_ends].
  - by rewrite !app_nil_r.
  - by rewrite !app_nil_r.
  - cbn [write_all cursor_write]. match goal with |- context [copy_reads rd ?h ?n ?c1] => specialize (IH h n c1) end.
    destruct (copy_reads rd _ _ _) as [[[h n]|e| |] c']; try done. destruct IH as (Hr & -> & ->).
    split; [done|]. cbn [cu_before]. by rewrite <- !app_assoc.
  - done.
Qed.

Lemma write_media_ok dec (rd : Reader) (c : Cursor) : cu_before c = [] ->
  let '(r, c') := write_media dec rd c in
  match r with
  | Ok _ => reader_ends rd = true /\ exists p, open_download dec (reader_bytes rd) = Ok p /\ cu_before c' = p
  | Err _ => True
  | _ => False
  end.
Proof.
  intros Hc. destruct dec as [k t|sha]; cbn [write_media open_download].
  - pose proof (stream_whole (WL := cursor_write_laws) rd k t c) as Hs.
    destruct (decrypt_stream_to_writer rd k t c) as [r c']. destruct Hs as (Hr & _ & Hok & _).
    destruct r as [n|e| |]; try done. destruct (Hok n eq_refl) as (He & p & Hp & _ & Hw).
    split; [done|]. exists p. split; [done|]. cbn [written cursor_write] in Hw. by rewrite Hw, Hc.
  - unfold copy_and_validate_plaintext_to_writer. pose proof (copy_reads_ok rd [] 0 c) as Hcp.
    destruct (copy_reads rd [] 0 c) as [[[h n]|e| |] c']; try done. destruct Hcp as (He & -> & Hb). cbn [app] in *.
    destruct (bytes_eqb _ sha) eqn:Es; cbn [negb]; [|done]. split; [done|]. exists (reader_bytes rd).
    rewrite validate_ok, Es. split; [done|]. by rewrite Hb, Hc.
Qed.

(** A response is written, and the file it holds lies at the start of the writer. *)
Lemma write_response_ok dec status (rd : Reader) c : cu_before c = [] ->
  let '(r, c') := write_response dec status rd c in
  match r with
  | Ok _ => status < 300 /\ reader_ends rd = true
            /\ exists p, open_download dec (reader_bytes rd) = Ok p /\ p `prefix_of` cursor_contents c'
  | Err _ => True
  | _ => False
  end.
Proof.
  intros Hc. unfold write_response. destruct (Z.leb_spec 300 status); [done|].
  pose proof (write_media_ok dec rd c Hc) as Hw. destruct (write_media dec rd c) as [[n|e| |] c']; try done.
  destruct Hw as (He & p & Hp & Hb). split; [done|]. split; [done|]. exists p. split; [done|].
  exists (cu_after c'). by rewrite <- Hb.
Qed.

Lemma streaming_request_ok d w0 rq (c : Cursor) cn w : request_of d rq -> asked d w0 w ->
  let '(r, c', (cn', w')) := streaming_download_and_decrypt rq c (cn, w) in
  asked d w0 w' /\ match r with
                   | Ok _ => exists body p, answered d w0 w' body /\ is_file d body p
                                           /\ p `prefix_of` cursor_contents c'
                   | Err _ => True
                   | _ => False
                   end.
Proof.
  intros [Hd Hu] Ha. unfold streaming_download_and_decrypt, buffered_download_and_decrypt. destruct mh_streaming; cbn [negb].
  - pose proof (asked_stream d w0 w _ Ha Hu) as Ha'.
    destruct (mh_execute_streaming _ w) as [[[status body]|] w'] eqn:Ee; cbn [snd] in Ha'; [|done].
    pose proof (write_response_ok (rq_decryption rq) status body (cursor_rewind c) eq_refl) as Hw.
    destruct (write_response _ _ _ _) as [[[]|e| |] c']; try done. split; [done|].
    destruct Hw as (Hst & He & p & Hp & Hpre). exists (reader_bytes body), p. split; [|split; [|done]].
    + exists w, (rq_url rq). split; [done|]. split; [done|]. right. by exists status, body.
    + by eapply open_is_file.
  - pose proof (asked_get d w0 w _ Ha Hu) as Ha'.
    destruct (mh_execute _ w) as [[resp|] w'] eqn:Ee; cbn [snd] in Ha'; [|done].
    destruct (Z.leb_spec 300 (hs_status_code resp)); [done|].
    pose proof (write_response_ok (rq_decryption rq) (hs_status_code resp) (body_reader (hs_body resp))
      (cursor_rewind c) eq_refl) as Hw. destruct (write_response _ _ _ _) as [[[]|e| |] c']; try done. split; [done|].
    destruct Hw as (Hst & He & p & Hp & Hpre). destruct (body_reader_ok (hs_body resp)) as [_ Hb]. rewrite Hb in Hp.
    exists (hs_body resp), p. split; [|split; [|done]].
    + exists w, (rq_url rq). split; [done|]. split; [done|]. left. by exists resp.
    + by eapply open_is_file.
Qed.

(** Whatever executes a request, the loop ends with what it gave or with an error. *)
Lemma retry_verified {X A} (d : Downloadable) execute (Q : A -> X -> W -> Prop) (x : X) cn w :
  (forall rq x c w1, request_of d rq -> asked d w w1 ->
     let '(r, x', (c', w')) := execute rq x (c, w1) in
     asked d w w' /\ match r with Ok a => Q a x' w' | Err _ => True | _ => False end) ->
  let '(r, x', (_, w')) := retry_attempts execute d true MEDIA_AUTH_REFRESH_RETRY_ATTEMPTS None x (cn, w) in
  match r with Ok a => Q a x' w' | Err _ => True | _ => False end.
Proof.
  intros Hx. pose proof (retry_attempts_ok execute (fun rq => request_of d rq) (fun _ w1 => asked d w w1) Q (fun _ => True) Hx
    (fun _ w1 => asked_conn d w w1) d true MEDIA_AUTH_REFRESH_RETRY_ATTEMPTS None x cn w) as Hr.
  destruct (retry_attempts execute d true MEDIA_AUTH_REFRESH_RETRY_ATTEMPTS None x (cn, w)) as [[r x'] [c' w']].
  apply Hr; try done.
  - intros conn. apply prepare_requests_ok.
  - intros conn. apply prepare_requests_ok.
  - by left.
  - constructor.
Qed.

(** C39: downloads are verified.  Whatever the servers answer, on whatever hosts and credentials:
    a download ends.  What [download] returns is the file of the last response it got: a
    successful response, to a request of this download for the location that the message names,
    whose bytes are authentic.  For encrypted media they are a ciphertext with the truncated
    HMAC of IV and ciphertext behind it, under the key derived from the message's media key,
    and the result is its decryption; for the rest the result is the body, and its SHA-256 is
    the hash of the message.  A successful [download_to_writer] leaves such a file at the start
    of the writer, also when the response is streamed, and then it was read to its end. *)
Theorem downloads_verified (d : Downloadable) (c : Cursor) (cn : option MediaConn) (w : W) :
  (let '(r, (_, w')) := media_download d (cn, w) in
   returns r /\ forall data, r = Ok data -> exists body, answered d w w' body /\ is_file d body data)
  /\ (let '(r, c', (_, w')) := download_to_writer d c (cn, w) in
      returns r /\ (r = Ok tt -> exists body p, answered d w w' body /\ is_file d body p
                                  /\ p `prefix_of` cursor_contents c')).
Proof.
  split.
  - unfold media_download, download_media_with_retry.
    pose proof (retry_verified d (fun rq (x : unit) s => let '(r, s) := download_with_request rq s in (r, x, s))
      (fun data _ w' => exists body, answered d w w' body /\ is_file d body data) tt cn w) as Hok.
    destruct (retry_attempts _ d true _ None tt (cn, w)) as [[r x] [cn' w']].
    assert (Hx : match r with Ok data => exists body, answered d w w' body /\ is_file d body data
                 | Err _ => True | _ => False end).
    { apply Hok. intros rq x0 c0 w1 Hrq Ha. pose proof (download_request_ok d w rq c0 w1 Hrq Ha) as Hq.
      by destruct (download_with_request rq (c0, w1)) as [r0 [c1 w2]]. }
    destruct r as [a|e| |]; try done. split; [done|]. by intros data [= <-].
  - unfold download_to_writer. pose proof (retry_verified d streaming_download_and_decrypt
      (fun _ c' w' => exists body p, answered d w w' body /\ is_file d body p /\ p `prefix_of` cursor_contents c')
      c cn w) as Hok.
    destruct (retry_attempts _ d true _ None c (cn, w)) as [[r c'] [cn' w']].
    assert (Hx : match r with
                 | Ok _ => exists body p, answered d w w' body /\ is_file d body p /\ p `prefix_of` cursor_contents c'
                 | Err _ => True | _ => False end).
    { apply Hok. intros rq x0 c0 w1 Hrq Ha. exact (streaming_request_ok d w rq x0 c0 w1 Hrq Ha). }
    by destruct r as [[]|e| |].
Qed.
End Verified.

(** ** From upload to download *)

Section Delivered.
Context {MC : MediaCrypto} {ML : MediaLaws} {W : Type} {MH : MediaHttp W}.

(** Servers that keep one file: [has n] says that they hold its first [n] bytes.  They may
    refuse or lose any request.  A progress response names only what they hold; an accepted
    upload completes the file, when it starts where they hold the bytes before; a download
    that succeeds is the file. *)
Record Stores (t : MediaType) (blob token path : bytes) (has : Z -> W -> Prop) : Prop := {
  st_nonneg n w : has n w -> 0 <= n;
  st_fetch n w : has n w -> has n (mh_fetch_conn w).2;
  st_check host auth n w : has n w ->
    let '(r, w') := mh_execute (build_resume_check_request host (upload_path t) auth token) w in
    exists n', has n' w' /\
    match r with
    | Some resp =>
        match parse_upload_progress resp (zlen blob) with
        | UploadComplete _ p => n' = zlen blob /\ p = path
        | UploadResume o => o <= n'
        | UploadNotFound => True
        end
    | None => True
    end;
  st_upload host auth offset n w : has n w -> default 0 offset <= n ->
    let '(r, w') := mh_execute (with_body (build_upload_request host (upload_path t) auth token offset)
                                  (from (default 0 offset) blob)) w in
    exists n', has n' w' /\
    match r with
    | Some resp => hs_status_code resp < 400 ->
        n' = zlen blob /\ forall url p, mh_json_upload (hs_body resp) = Some (url, p) -> p = path
    | None => True
    end;
  st_get host auth w : has (zlen blob) w ->
    let '(r, w') := mh_execute (http_get (file_url host path auth token)) w in
    has (zlen blob) w' /\ match r with Some resp => hs_status_code resp < 300 -> hs_body resp = blob | None => True end
}.

Section Upload.
Context (crypto : UploadCrypto) (t : MediaType) (len ts : Z) (blob path : bytes) (has : Z -> W -> Prop).
Context (Hst : Stores t blob (base64_url (uc_file_enc_sha256 crypto)) path has).

(** The response of an upload, and what the servers then hold. *)
Definition uploaded (r : UploadResponse) (w : W) : Prop :=
  has (zlen blob) w /\ exists url, r = crypto_response crypto url path len ts.

Lemma upload_progress_ok host auth n w : has n w ->
  let '(pr, w') := upload_progress crypto t blob host auth w in
  exists n', has n' w' /\
  match pr with
  | UploadComplete _ p => n' = zlen blob /\ p = path
  | UploadResume o => o <= n'
  | UploadNotFound => True
  end.
Proof.
  intros Hn. unfold upload_progress. destruct (Z.leb_spec RESUMABLE_UPLOAD_THRESHOLD (zlen blob)); [|by exists n].
  pose proof (st_check _ _ _ _ _ Hst host auth n w Hn) as Hc. destruct (mh_execute _ w) as [[resp|] w']; [done|].
  destruct Hc as (n' & Hn' & _). by exists n'.
Qed.

Lemma upload_hosts_ok auth first hosts last cn w n : has n w ->
  let '(r, (cn', w')) := upload_hosts crypto t len ts blob auth first hosts last (cn, w) in
  (exists n', has n' w') /\ exists at_, r = Ok at_ /\ match at_ with Done resp => uploaded resp w' | _ => True end.
Proof.
  revert last w n. induction hosts as [|host hosts IH]; intros last w n Hn; cbn [upload_hosts].
  { split; [by exists n|]. by eexists. }
  pose proof (upload_progress_ok host auth n w Hn) as Hp.
  destruct (upload_progress crypto t blob host auth w) as [pr w1]. destruct Hp as (n1 & Hn1 & Hpr).
  destruct pr as [url p|o|].
  { destruct Hpr as [-> ->]. split; [by eexists|]. eexists. split; [done|]. split; [done|]. by eexists. }
  all: lazymatch goal with |- context [send_body _ _ (default 0 ?off) _] => set (offset := off) end.
  all: assert (Hoff : default 0 offset <= n1) by
    (pose proof (st_nonneg _ _ _ _ _ Hst n1 w1 Hn1); subst offset; try destruct (Z.leb_spec (zlen blob) o); cbn; lia).
  all: pose proof (st_upload _ _ _ _ _ Hst host auth offset n1 w1 Hn1 Hoff) as Hu; unfold send_body;
    destruct (mh_execute (with_body _ _) w1) as [[resp|] w2]; destruct Hu as (n2 & Hn2 & Hu); [|by eapply IH].
  all: destruct (Z.ltb_spec (hs_status_code resp) 400) as [Hs|Hs].
  1, 3: destruct (Hu Hs) as [-> Hj]; destruct (mh_json_upload (hs_body resp)) as [[url p]|] eqn:Ej;
    (split; [by eexists|]); eexists; (split; [done|]); [|done];
    rewrite (Hj url p eq_refl); split; [done|]; by eexists.
  all: destruct (is_media_auth_error _); [|by eapply IH]; destruct first; cbn; (split; [by eexists|]); by eexists.
Qed.

Lemma refresh_has force cn w n : has n w ->
  let '(r, (cn', w')) := refresh_media_conn force (cn, w) in has n w' /\ ((exists conn, r = Ok conn) \/ r = Err TConn).
Proof.
  intros Hn. apply (refresh_ok (fun (_ : unit) w => has n w)); [|exact tt|done].
  intros _ w' Hw. by apply (st_fetch _ _ _ _ _ Hst).
Qed.

Lemma upload_attempts_ok first left_ last cn w n : has n w ->
  let '(r, (cn', w')) := upload_attempts crypto t len ts blob first left_ last (cn, w) in
  (exists n', has n' w') /\ match r with Ok resp => uploaded resp w' | Err _ => True | _ => False end.
Proof.
  revert first last cn w n. induction left_ as [|left_ IH]; intros first last cn w n Hn; cbn [upload_attempts];
    pose proof (refresh_has (negb first) cn w n Hn) as Hre;
    destruct (refresh_media_conn (negb first) (cn, w)) as [rc [cn1 w1]];
    (destruct Hre as [Hn1 [[conn ->]| ->]]; [|by eauto]);
    (destruct (cn_hosts conn) as [|h hs]; [by eauto|]);
    pose proof (upload_hosts_ok (cn_auth conn) first (h :: hs) last cn1 w1 n Hn1) as Hh;
    destruct (upload_hosts crypto t len ts blob (cn_auth conn) first (h :: hs) last (cn1, w1)) as [ra [cn2 w2]];
    destruct Hh as [[n2 Hn2] (at_ & -> & Hat)]; destruct at_ as [resp|e|last'|last'];
    first [by (split; [by eexists|])|by eapply IH].
Qed.
End Upload.

(** A download of the file ends with the file, or with an error of the connection. *)
Definition transport_error (e : TransferError) : Prop := match e with TMedia _ => False | _ => True end.

Lemma stored_download t media_key blob plain (sha token_hash path : bytes) len has cn w :
  verify_and_decrypt blob media_key t = Ok plain -> Stores t blob (base64_url token_hash) path has ->
  has (zlen blob) w ->
  let '(r, _) := media_download (mkDownloadable (Some path) (Some media_key) (Some token_hash) (Some sha) len t None)
                   (cn, w) in
  match r with Ok data => data = plain | Err e => transport_error e | _ => False end.
Proof.
  intros Hv Hst Hw. set (d := mkDownloadable _ _ _ _ _ _ _).
  set (P := fun rq => rq_decryption rq = Encrypted media_key t /\ exists host auth, rq_url rq = file_url host path auth (base64_url token_hash)).
  assert (Hprep : forall conn, prepare_download_requests d conn = Ok (map (fun host => mkDownloadRequest
    (file_url host path (mc_auth conn) (base64_url token_hash)) (Encrypted media_key t)) (mc_hosts conn))).
  { intros conn. done. }
  pose proof (retry_attempts_ok (fun rq (x : unit) s => let '(r, s) := download_with_request rq s in (r, x, s))
    P (fun _ w => has (zlen blob) w) (fun data _ _ => data = plain) transport_error) as Hr.
  assert (Hexec : forall rq x c w, P rq -> has (zlen blob) w ->
    let '(r, x', (c', w')) := (fun rq (x : unit) s => let '(r, s) := download_with_request rq s in (r, x, s)) rq x (c, w) in
    has (zlen blob) w' /\ match r with Ok a => a = plain | Err e => transport_error e | _ => False end).
  { clear Hr. intros rq x c0 w0 [Hd (host & auth & Hu)] Hh. cbv beta. unfold download_with_request. rewrite Hd, Hu.
    pose proof (st_get _ _ _ _ _ Hst host auth w0 Hh) as Hg.
    destruct (mh_execute _ w0) as [[resp|] w1]; destruct Hg as [Hh' Hg]; [|done].
    destruct (Z.leb_spec 300 (hs_status_code resp)) as [H3|H3]; (split; [done|]).
    - unfold status_error. by repeat case_match.
    - rewrite Hg by done. pose proof (decrypt_body blob media_key t) as Hb. rewrite Hv in Hb. by rewrite Hb. }
  specialize (Hr Hexec (fun _ w0 H => st_fetch _ _ _ _ _ Hst _ w0 H) d true MEDIA_AUTH_REFRESH_RETRY_ATTEMPTS None tt cn w).
  unfold media_download, download_media_with_retry.
  destruct (retry_attempts _ d true _ None tt (cn, w)) as [[r x] [cn' w']]. apply Hr; try done.
  - intros conn rqs. rewrite Hprep. intros [= <-]. apply Forall_map, Forall_true. intros host. split; [done|]. by eauto.
  - right. intros conn. eexists. apply Hprep.
Qed.
End Delivered.

(** C7: media is delivered.  A device encrypts and uploads a file to servers that keep what
    they accept, and otherwise fail at will: requests are lost, hosts refuse, credentials
    expire, an earlier upload is found in part or whole.  When [upload] succeeds, the servers
    hold exactly the encrypted file, and its response describes it; and any device that
    downloads with that description gets the plaintext, or an error of the connection. *)
Theorem media_delivered {MC : MediaCrypto} {ML : MediaLaws} {W : Type} {MH : MediaHttp W}
    (data : bytes) (t : MediaType) (media_key : bytes) (sidecar : option bool) (ts : Z) (enc : EncryptedMedia)
    (path : bytes) (has : Z -> W -> Prop) (cn : option MediaConn) (w : W) :
  encrypt_media_with_key_and_sidecar data t media_key sidecar = Ok enc ->
  Stores t (em_data_to_upload enc) (base64_url (em_file_enc_sha256 enc)) path has -> has 0 w ->
  let '(r, (_, w')) := upload data t media_key sidecar ts (cn, w) in
  (exists n, has n w') /\
  match r with
  | Ok resp =>
      has (zlen (em_data_to_upload enc)) w'
      /\ ur_media_key resp = media_key /\ ur_file_sha256 resp = media_sha256 data
      /\ ur_file_enc_sha256 resp = media_sha256 (em_data_to_upload enc) /\ ur_file_length resp = zlen data
      /\ forall cn2 w2, has (zlen (em_data_to_upload enc)) w2 ->
           let '(q, _) := media_download (params_encrypted resp t) (cn2, w2) in
           match q with Ok got => got = data | Err e => transport_error e | _ => False end
  | Err _ => True
  | _ => False
  end.
Proof.
  intros He Hst Hw. unfold upload. rewrite He. unfold upload_media_with_retry.
  destruct (get_media_keys_ok media_key t) as (iv & key & mac_key & Hg & Hk & Hi).
  pose proof (encrypt_media_ok media_key t (default (media_type_uses_sidecar t) sidecar) iv key mac_key Hg Hi data sidecar
    eq_refl) as Henc.
  rewrite He in Henc. injection Henc as ->. cbn [em_data_to_upload em_file_enc_sha256 em_media_key em_file_sha256
    em_streaming_sidecar] in *. set (blob := media_blob key iv mac_key data) in *.
  assert (Hopen : verify_and_decrypt blob media_key t = Ok data).
  { apply (verify_and_decrypt_ok _ _ _ iv key mac_key Hg Hk Hi). by apply media_blob_opens. }
  set (crypto := mkUploadCrypto _ _ _ _).
  pose proof (upload_attempts_ok crypto t (zlen data) ts blob path has Hst true MEDIA_AUTH_REFRESH_RETRY_ATTEMPTS None
    cn w 0 Hw) as Hu.
  destruct (upload_attempts _ _ _ _ _ _ _ _ _) as [r [cn' w']]. destruct Hu as [Hn Hu]. split; [done|].
  destruct r as [resp|e| |]; try done. destruct Hu as [Hfull [url ->]]. split_and!; try done.
  intros cn2 w2 Hw2. exact (stored_download t media_key blob data (media_sha256 data) (media_sha256 blob) path
    (Some (zlen data)) has cn2 w2 Hopen Hst Hw2).
Qed.

(** ** Concrete servers *)

(** A server that knows the length of its one file, and puts a body at the end of it. *)
Definition keep_server (blob path : bytes) : MediaHttp bytes := {|
  mh_execute rq w :=
    match hq_body rq with
    | Some b => (Some (mkHttpResponse 200 []), take (length blob - length b) w ++ b)
    | None => if bytes_eqb (hq_method rq) (str "GET") then (Some (mkHttpResponse 200 w), w)
              else (Some (mkHttpResponse 404 []), w)
    end;
  mh_streaming := false;
  mh_execute_streaming _ w := (None, w);
  mh_fetch_conn w := (Some (str "secret", 1000, None, [str "host1"; str "host2"]), w);
  mh_now _ := 0;
  mh_json_progress _ := None;
  mh_json_upload _ := Some (str "url", path)
|}.

Lemma keep_server_stores t blob token path :
  Stores (MH := keep_server blob path) t blob token path (fun n w => 0 <= n <= zlen blob /\ w = upto n blob).
Proof.
  split.
  - intros n w [? _]. lia.
  - done.
  - intros host auth n w Hn. exists n. split; [exact Hn|]. done.
  - intros host auth offset n w [Hn ->] Ho. exists (zlen blob). split.
    + split; [pose proof (zlen_nonneg blob); lia|]. unfold upto, from, zlen in *. rewrite length_drop, take_take.
      rewrite (take_ge blob (Z.to_nat (Z.of_nat (length blob)))) by lia. replace (_ `min` _)%nat with (Z.to_nat (default 0 offset)) by lia. apply take_drop.
    + intros _. split; [done|]. by intros url p [= _ <-].
  - intros host auth w [Hn ->]. split; [split; [done|done]|]. intros _. cbn. unfold upto, zlen. by rewrite take_ge by lia.
Qed.

Definition demo_media : EncryptedMedia :=
  match encrypt_media_with_key_and_sidecar [1; 2; 3] Image (replicate 32 5) None with
  | Ok enc => enc
  | _ => mkEncryptedMedia [] [] [] [] None
  end.

Lemma demo_media_ok : encrypt_media_with_key_and_sidecar [1; 2; 3] Image (replicate 32 5) None = Ok demo_media.
Proof. vm_compute. reflexivity. Qed.

Definition demo_server : MediaHttp bytes := keep_server (em_data_to_upload demo_media) (str "/path").
Definition demo_has (n : Z) (w : bytes) : Prop :=
  0 <= n <= zlen (em_data_to_upload demo_media) /\ w = upto n (em_data_to_upload demo_media).
Definition demo_upload : outcome TransferError UploadResponse * (option MediaConn * bytes) :=
  upload (MH := demo_server) [1; 2; 3] Image (replicate 32 5) None 0 (None, []).
Lemma demo_upload_ok : exists resp s, demo_upload = (Ok resp, s).
Proof. eexists _, _. vm_compute. reflexivity. Qed.

Lemma media_delivered_witness :
  demo_upload.2.2 = em_data_to_upload demo_media
  /\ exists resp, demo_upload.1 = Ok resp
     /\ match (media_download (MH := demo_server) (params_encrypted resp Image) (None, demo_upload.2.2)).1 with
        | Ok got => got = [1; 2; 3]
        | Err e => transport_error e
        | _ => False
        end.
Proof.
  assert (H0 : demo_has 0 []) by (split; [vm_compute; split; discriminate|reflexivity]).
  pose proof (media_delivered (MH := demo_server) [1; 2; 3] Image (replicate 32 5) None 0 demo_media (str "/path")
    demo_has None [] demo_media_ok (keep_server_stores _ _ _ _) H0) as H.
  fold demo_upload in H. destruct demo_upload_ok as (resp & [c w'] & E). rewrite E in H |- *. cbn [fst snd] in *.
  destruct H as [_ (Hw & _ & _ & _ & _ & Hd)]. split.
  - destruct Hw as [_ ->]. unfold upto, zlen. rewrite Nat2Z.id. apply firstn_all.
  - exists resp. split; [reflexivity|]. specialize (Hd None w' Hw).
    destruct (media_download (params_encrypted resp Image) (None, w')) as [q s]. exact Hd.
Defined.

(** A host that serves a longer file under another MAC, and one that serves the right one. *)
Definition tampering_servers : MediaHttp nat := {|
  mh_execute rq w :=
    (Some (mkHttpResponse 200 (match w with O => replicate 74 0 | S _ => em_data_to_upload demo_media end)), S w);
  mh_streaming := false;
  mh_execute_streaming _ w := (None, w);
  mh_fetch_conn w := (Some (str "secret", 1000, None, [str "host1"; str "host2"]), w);
  mh_now _ := 0;
  mh_json_progress _ := None;
  mh_json_upload _ := None
|}.
Definition tampered_media : Downloadable :=
  mkDownloadable (Some (str "/path")) (Some (replicate 32 5)) (Some [1]) None None Image None.
Definition tampered_download : outcome TransferError unit * Cursor * (option MediaConn * nat) :=
  download_to_writer (MH := tampering_servers) tampered_media (mkCursor [] []) (None, O).

Lemma tampered_download_ok : tampered_download.1.1 = Ok tt.
Proof. vm_compute. reflexivity. Qed.
Lemma downloads_verified_witness :
  exists body p, answered (MH := tampering_servers) tampered_media O tampered_download.2.2 body
  /\ is_file tampered_media body p /\ p `prefix_of` cursor_contents tampered_download.1.2.
Proof.
  pose proof tampered_download_ok as Hr.
  destruct (downloads_verified (MH := tampering_servers) tampered_media (mkCursor [] []) None O) as [_ H].
  fold tampered_download in H. destruct tampered_download as [[r c'] [cn' w']]. cbn [fst snd] in *.
  destruct H as [_ H]. exact (H Hr).
Defined.

(** [download_to_writer] rewinds the writer between two hosts and does not truncate it: what
    the first host made it write stays behind the file, and the result is a success. *)
Lemma writer_not_truncated :
  let '(r, c, _) := tampered_download in
  r = Ok tt /\ upto 3 (cursor_contents c) = [1; 2; 3] /\ zlen (cursor_contents c) = 48
  /\ from 3 (cursor_contents c) <> [].
Proof. vm_compute. repeat split; discriminate. Qed.
