(* ===== verification/Curve.v ===== *)
(** * Curve25519 keys and XEdDSA signatures

    [wacore/libsignal/src/core/curve.rs] and [core/curve/curve25519.rs]: public and private
    keys and their serialized forms, the signing cache filled on first use, the XEdDSA
    signature and its two verifiers, the plain one and the one that keeps its derivations.

    Scalars are integers modulo the group order, clamping and their byte forms are written
    out; the group operations of [curve25519_dalek] and [x25519_dalek] and SHA-512 are the
    class [Dalek], with their documented behaviour in [DalekLaws].  A [OnceLock] is an
    option: a method that may fill it returns the value it leaves. *)

From stdpp Require Import prelude strings.
From S2P Require Import Prelude.

#[local] Open Scope Z_scope.

(** ** Scalars *)

(** The order of the base point. *)
Definition GROUP_ORDER : Z := 2 ^ 252 + 27742317777372353535851937790883648493.

Definition to_le_bytes (n : nat) (z : Z) : bytes := rev (to_be_bytes n z).
Definition from_le_bytes (l : bytes) : Z := from_be_bytes (rev l).

(** [Scalar::from_bytes_mod_order], [.._wide] and [as_bytes]. *)
Definition scalar_from_bytes (b : bytes) : Z := from_le_bytes b mod GROUP_ORDER.
Definition scalar_as_bytes (s : Z) : bytes := to_le_bytes 32 s.

(** [scalar::clamp_integer] *)
Definition clamp_integer (b : bytes) : bytes :=
  alter (fun x => Z.lor (Z.land x 127) 64) 31%nat (alter (fun x => Z.land x 248) 0%nat b).

Class Dalek : Type := {
  Point : Type;
  (** [scalar * ED25519_BASEPOINT_TABLE] *)
  base_mul : Z -> Point;
  point_neg : Point -> Point;
  compress : Point -> bytes;
  (** [vartime_double_scalar_mul_basepoint(h, A, s)], that is [h * A + s * B] *)
  double_mul : Z -> Point -> Z -> Point;
  (** [MontgomeryPoint(bytes).to_edwards(sign)] *)
  to_edwards : bytes -> Z -> option Point;
  (** [x25519_dalek::PublicKey::from(&secret)] *)
  x25519_public : bytes -> bytes;
  (** [StaticSecret::diffie_hellman] *)
  x25519_agree : bytes -> bytes -> bytes;
  sha512 : bytes -> bytes
}.

(** The laws: linearity in the base point, the width of a compressed point, whose last byte
    has the sign of [x] on top, and that the Edwards form of an X25519 public key is, up to
    that sign, the same multiple of the base point; Diffie-Hellman agreement. *)
Class DalekLaws {DK : Dalek} : Prop := {
  double_mul_base h a s :
    double_mul h (point_neg (base_mul a)) s = base_mul ((s - h * a) mod GROUP_ORDER);
  compress_len p : zlen (compress p) = 32;
  compress_bytes p : are_bytes (compress p);
  to_edwards_public k :
    zlen k = 32 -> are_bytes k -> clamp_integer k = k ->
    let a := base_mul (scalar_from_bytes k) in
    to_edwards (x25519_public k) (Z.shiftr (compress a !!! 31%nat) 7) = Some a;
  x25519_len k : zlen (x25519_public k) = 32;
  x25519_comm a b : zlen a = 32 -> zlen b = 32 ->
    x25519_agree a (x25519_public b) = x25519_agree b (x25519_public a);
  x25519_agree_len a p : zlen (x25519_agree a p) = 32
}.

Inductive KeyType : Type := Djb.
Definition key_type_value (t : KeyType) : byte := match t with Djb => 5 end.

Inductive CurveError : Type :=
  | NoKeyTypeIdentifier
  | BadKeyType (t : Z)
  | BadKeyLength (t : KeyType) (len : Z).

Definition key_type_try_from (x : byte) : outcome CurveError KeyType :=
  if x =? 5 then Ok Djb else Err (BadKeyType x).

Definition PUBLIC_KEY_LENGTH : Z := 32.
Definition PRIVATE_KEY_LENGTH : Z := 32.
Definition SIGNATURE_LENGTH : Z := 64.
Definition SIGN_BIT_NOT_INITIALIZED : Z := 255.
Definition XEDDSA_HASH_PREFIX : bytes := 254 :: replicate 31 255.

(** ** Public keys *)

Record PublicKey : Type := mkPublicKey { public_key_bytes : bytes }.
#[global] Instance PublicKey_eq_dec : EqDecision PublicKey.
Proof. solve_decision. Defined.

Definition public_deserialize (value : bytes) : outcome CurveError PublicKey :=
  match value with
  | [] => Err NoKeyTypeIdentifier
  | b :: _ =>
      _ ← key_type_try_from b;
      if zlen value <? PUBLIC_KEY_LENGTH + 1 then Err (BadKeyLength Djb (zlen value))
      else Ok (mkPublicKey (upto PUBLIC_KEY_LENGTH (from 1 value)))
  end.
Definition from_djb_public_key_bytes (b : bytes) : outcome CurveError PublicKey :=
  if zlen b =? PUBLIC_KEY_LENGTH then Ok (mkPublicKey b) else Err (BadKeyLength Djb (zlen b)).
Definition public_serialize (k : PublicKey) : bytes :=
  key_type_value Djb :: public_key_bytes k.

(** A key that fits its array. *)
Definition public_wf (k : PublicKey) : Prop := zlen (public_key_bytes k) = 32.

Lemma public_roundtrip k :
  public_wf k -> public_deserialize (public_serialize k) = Ok k.
Proof.
  destruct k as [b]. unfold public_wf. cbn [public_key_bytes]. intros Hk.
  unfold public_deserialize, public_serialize. cbn [public_key_bytes].
  change (key_type_try_from (key_type_value Djb)) with (@Ok CurveError _ Djb). cbn [mbind outcome_bind].
  rewrite zlen_cons, Hk. change (1 + 32 <? PUBLIC_KEY_LENGTH + 1) with false. cbv iota.
  change (from 1 (key_type_value Djb :: b)) with b.
  unfold upto, PUBLIC_KEY_LENGTH. rewrite take_ge; [done|]. unfold zlen in Hk. lia.
Qed.

Section Curve.
Context {DK : Dalek}.

(** ** The signer of [curve25519.rs] *)

Record XPrivateKey : Type := mkX {
  x_secret : bytes; x_scalar : Z; x_ed_public_key : bytes; x_sign_bit : Z
}.

Definition compute_edwards_cache (secret : bytes) : Z * bytes * Z :=
  let scalar := scalar_from_bytes secret in
  let ed_public_key := compress (base_mul scalar) in
  (scalar, ed_public_key, Z.land (ed_public_key !!! 31%nat) 128).

(** [From<[u8; 32]>] *)
Definition x_from (private_key : bytes) : XPrivateKey :=
  let secret := clamp_integer private_key in
  let '(scalar, ed_public_key, sign_bit) := compute_edwards_cache secret in
  mkX secret scalar ed_public_key sign_bit.
Definition x_from_bytes_with_cache (private_key : bytes) (scalar : Z) (ed_public_key : bytes)
    (sign_bit : Z) : XPrivateKey :=
  mkX (clamp_integer private_key) scalar ed_public_key (Z.land sign_bit 128).
Definition x_from_bytes_without_cache (private_key : bytes) : XPrivateKey :=
  mkX (clamp_integer private_key) 0 (replicate 32 0) SIGN_BIT_NOT_INITIALIZED.
Definition x_calculate_agreement (k : XPrivateKey) (their_public_key : bytes) : bytes :=
  x25519_agree (x_secret k) their_public_key.
(** [random] is what the generator fills in. *)
Definition x_new_without_cache (random : bytes) : XPrivateKey :=
  mkX (clamp_integer random) 0 (replicate 32 0) SIGN_BIT_NOT_INITIALIZED.
Definition x_derive_public_key_bytes (k : XPrivateKey) : bytes := x25519_public (x_secret k).

Definition x_calculate_signature (k : XPrivateKey) (random : bytes) (message : list bytes)
    : outcome CurveError bytes :=
  if x_sign_bit k =? SIGN_BIT_NOT_INITIALIZED then Panic
  else
    let hash1 := sha512 (XEDDSA_HASH_PREFIX ++ x_secret k ++ concat message ++ random) in
    let r := scalar_from_bytes hash1 in
    let cap_r := compress (base_mul r) in
    let h := scalar_from_bytes (sha512 (cap_r ++ x_ed_public_key k ++ concat message)) in
    let s := (h * x_scalar k + r) mod GROUP_ORDER in
    Ok (alter (fun b => Z.lor (Z.land b 127) (x_sign_bit k)) 63%nat (cap_r ++ scalar_as_bytes s)).

(** ** Verification *)

Definition verify_signature_prepared (minus_cap_a : Point) (cap_a_bytes : bytes)
    (message : list bytes) (signature : bytes) : bool :=
  let cap_r := upto 32 signature in
  let s := alter (fun b => Z.land b 127) 31%nat (from 32 signature) in
  if negb (Z.land (s !!! 31%nat) 224 =? 0) then false
  else
    let h := scalar_from_bytes (sha512 (cap_r ++ cap_a_bytes ++ concat message)) in
    bytes_eqb (compress (double_mul h minus_cap_a (scalar_from_bytes s))) cap_r.

(** [(signature[63] & 0x80) >> 7] *)
Definition signature_sign (signature : bytes) : Z :=
  Z.shiftr (Z.land (signature !!! 63%nat) 128) 7.

(** [PrivateKey::verify_signature] of [curve25519.rs] *)
Definition x_verify_signature (their_public_key : bytes) (message : list bytes)
    (signature : bytes) : bool :=
  match to_edwards their_public_key (signature_sign signature) with
  | None => false
  | Some p => verify_signature_prepared (point_neg p) (compress p) message signature
  end.

(** [PublicKey::verify_signature_for_multipart_message]: the signature has 64 bytes. *)
Definition public_verify (k : PublicKey) (message : list bytes) (signature : bytes) : bool :=
  if zlen signature =? SIGNATURE_LENGTH
  then x_verify_signature (public_key_bytes k) message signature else false.

(** The cached verifier: per sign bit, the point negated and its bytes, once derived. *)
Record PreparedVerifyingKey : Type := mkPrepared {
  mont : bytes;
  cached_0 : option (option (Point * bytes)); cached_1 : option (option (Point * bytes))
}.
Definition prepared_new (k : PublicKey) : PreparedVerifyingKey :=
  mkPrepared (public_key_bytes k) None None.
Definition derive_entry (m : bytes) (sign : Z) : option (Point * bytes) :=
  p ← to_edwards m sign; Some (point_neg p, compress p).
Definition entry (k : PreparedVerifyingKey) (sign : Z)
    : PreparedVerifyingKey * option (Point * bytes) :=
  if Z.land sign 1 =? 0 then
    let e := default (derive_entry (mont k) sign) (cached_0 k) in
    (mkPrepared (mont k) (Some e) (cached_1 k), e)
  else
    let e := default (derive_entry (mont k) sign) (cached_1 k) in
    (mkPrepared (mont k) (cached_0 k) (Some e), e).
Definition prepared_precompute (k : PreparedVerifyingKey) : PreparedVerifyingKey :=
  fst (entry (fst (entry k 0)) 1).
Definition prepared_verify (k : PreparedVerifyingKey) (message : list bytes) (signature : bytes)
    : PreparedVerifyingKey * bool :=
  if zlen signature =? SIGNATURE_LENGTH then
    let '(k, e) := entry k (signature_sign signature) in
    (k, match e with
        | None => false
        | Some (minus_cap_a, cap_a_bytes) =>
            verify_signature_prepared minus_cap_a cap_a_bytes message signature
        end)
  else (k, false).

(** ** Private keys *)

Record EdwardsCacheData : Type := mkCache {
  cache_scalar : Z; cache_ed_public_key : bytes; cache_sign_bit : Z
}.
Record PrivateKey : Type := mkPrivateKey {
  private_bytes : bytes; edwards_cache : option EdwardsCacheData
}.

Definition derive_cache (key : bytes) : EdwardsCacheData :=
  let temp := x_from key in
  mkCache (x_scalar temp) (x_ed_public_key temp) (x_sign_bit temp).
Definition get_edwards_cache (k : PrivateKey) : PrivateKey * EdwardsCacheData :=
  let c := default (derive_cache (private_bytes k)) (edwards_cache k) in
  (mkPrivateKey (private_bytes k) (Some c), c).
Definition precompute_signing_cache (k : PrivateKey) : PrivateKey := fst (get_edwards_cache k).

Definition private_deserialize (value : bytes) : outcome CurveError PrivateKey :=
  if zlen value =? PRIVATE_KEY_LENGTH then Ok (mkPrivateKey (clamp_integer value) None)
  else Err (BadKeyLength Djb (zlen value)).
Definition private_serialize (k : PrivateKey) : bytes := private_bytes k.
Definition public_key (k : PrivateKey) : PublicKey :=
  mkPublicKey (x_derive_public_key_bytes (x_from_bytes_without_cache (private_bytes k))).

(** [calculate_signature_for_multipart_message] *)
Definition calculate_signature (k : PrivateKey) (message : list bytes) (random : bytes)
    : PrivateKey * outcome CurveError bytes :=
  let '(k, cache) := get_edwards_cache k in
  let x := x_from_bytes_with_cache (private_bytes k) (cache_scalar cache)
             (cache_ed_public_key cache) (cache_sign_bit cache) in
  (k, x_calculate_signature x random message).

Definition calculate_agreement (k : PrivateKey) (their_key : PublicKey) : bytes :=
  x_calculate_agreement (x_from_bytes_without_cache (private_bytes k)) (public_key_bytes their_key).

Record KeyPair : Type := mkKeyPair { kp_public : PublicKey; kp_private : PrivateKey }.
Definition keypair_generate (random : bytes) : KeyPair :=
  let temp := x_new_without_cache random in
  mkKeyPair (mkPublicKey (x_derive_public_key_bytes temp)) (mkPrivateKey (x_secret temp) None).
Definition keypair_from_public_and_private (public_key private_key : bytes)
    : outcome CurveError KeyPair :=
  p ← public_deserialize public_key;
  k ← private_deserialize private_key;
  Ok (mkKeyPair p k).

(** What every private key satisfies: 32 bytes, clamped, the cache empty or the derived one. *)
Record private_wf (k : PrivateKey) : Prop := {
  wf_len : zlen (private_bytes k) = 32;
  wf_bytes : are_bytes (private_bytes k);
  wf_clamped : clamp_integer (private_bytes k) = private_bytes k;
  wf_cache : edwards_cache k = None \/ edwards_cache k = Some (derive_cache (private_bytes k))
}.
(** What every cached verifier of a key satisfies. *)
Record prepared_wf (k : PublicKey) (v : PreparedVerifyingKey) : Prop := {
  wf_mont : mont v = public_key_bytes k;
  wf_0 : forall e, cached_0 v = Some e -> e = derive_entry (public_key_bytes k) 0;
  wf_1 : forall e, cached_1 v = Some e -> e = derive_entry (public_key_bytes k) 1
}.

(** ** Bytes and scalars *)

Lemma land_128 x : Z.land x 128 = 0 \/ Z.land x 128 = 128.
Proof.
  assert (H : Z.land x 128 = if Z.testbit x 7 then 128 else 0).
  { apply Z.bits_inj'. intros n Hn. rewrite Z.land_spec.
    change 128 with (2 ^ 7) at 1. rewrite Z.pow2_bits_eqb by lia.
    destruct (Z.eqb_spec 7 n) as [<-|Hne]; [by destruct (Z.testbit x 7)|].
    rewrite andb_false_r. destruct (Z.testbit x 7); [|by rewrite Z.bits_0].
    change 128 with (2 ^ 7). rewrite Z.pow2_bits_eqb by lia. symmetry. by apply Z.eqb_neq. }
  rewrite H. destruct (Z.testbit x 7); auto.
Qed.

Lemma clamp_len b : zlen (clamp_integer b) = zlen b.
Proof. unfold clamp_integer, zlen. by rewrite !length_alter. Qed.

Lemma lookup_alter_Forall (P : Z -> Prop) (f : Z -> Z) i l :
  Forall P l -> (forall x, P x -> P (f x)) -> Forall P (alter f i l).
Proof.
  intros Hl Hf. apply Forall_lookup. intros j x. destruct (decide (i = j)) as [<-|Hne].
  - rewrite list_lookup_alter_eq. intros (y & Hy & ->)%fmap_Some_1.
    apply Hf. by eapply Forall_lookup_1.
  - rewrite list_lookup_alter_ne by done. by apply Forall_lookup_1.
Qed.

Lemma clamp_bytes b : are_bytes b -> are_bytes (clamp_integer b).
Proof.
  assert (forall f, forallb (fun x => (0 <=? f x) && (f x <? 256)) all_bytes = true ->
          forall x, is_byte x -> is_byte (f x)) as Hf.
  { intros f H x Hx. pose proof (byte_check _ H x Hx). unfold is_byte in *. cbn in *. lia. }
  intros Hb. apply lookup_alter_Forall; [apply lookup_alter_Forall; [done|]|]; apply Hf;
    by vm_compute.
Qed.

Lemma clamp_idem b : are_bytes b -> clamp_integer (clamp_integer b) = clamp_integer b.
Proof.
  intros Hb. assert (Hget : forall i x, b !! i = Some x -> is_byte x)
    by (intros i x; by apply Forall_lookup_1).
  assert (H31 : forall x, is_byte x ->
    Z.lor (Z.land (Z.lor (Z.land x 127) 64) 127) 64 = Z.lor (Z.land x 127) 64).
  { intros x Hx. apply Z.eqb_eq. revert x Hx. by apply byte_check. }
  assert (H0 : forall x, is_byte x -> Z.land (Z.land x 248) 248 = Z.land x 248).
  { intros x Hx. apply Z.eqb_eq. revert x Hx. by apply byte_check. }
  apply list_eq. intros i. unfold clamp_integer.
  destruct (decide (i = 31%nat)) as [->|H31']; [|destruct (decide (i = 0%nat)) as [->|H0']].
  - rewrite !list_lookup_alter_eq, !(list_lookup_alter_ne _ _ 0 31), list_lookup_alter_eq by done.
    rewrite (list_lookup_alter_ne _ _ 0 31) by done.
    destruct (b !! 31%nat) eqn:E; [|done]. cbn. f_equal. apply H31. by eapply Hget.
  - rewrite !(list_lookup_alter_ne _ _ 31 0), !list_lookup_alter_eq,
      (list_lookup_alter_ne _ _ 31 0), list_lookup_alter_eq by done.
    destruct (b !! 0%nat) eqn:E; [|done]. cbn. f_equal. apply H0. by eapply Hget.
  - by rewrite !list_lookup_alter_ne by done.
Qed.

Lemma group_order_pos : 0 < GROUP_ORDER < 2 ^ 253.
Proof. unfold GROUP_ORDER. lia. Qed.

Lemma scalar_bound b : 0 <= scalar_from_bytes b < GROUP_ORDER.
Proof. apply Z.mod_pos_bound, group_order_pos. Qed.

Lemma scalar_roundtrip s :
  0 <= s < GROUP_ORDER -> scalar_from_bytes (scalar_as_bytes s) = s.
Proof.
  intros Hs. pose proof group_order_pos. unfold scalar_from_bytes, scalar_as_bytes,
    from_le_bytes, to_le_bytes. rewrite rev_involutive, from_to_be_bytes.
  - by apply Z.mod_small.
  - assert (2 ^ 253 < 2 ^ (8 * Z.of_nat 32)) by (apply Z.pow_lt_mono_r; lia). lia.
Qed.

(** The bytes of a reduced scalar: the last one has its top three bits clear. *)
Lemma scalar_bytes_shape s :
  0 <= s < GROUP_ORDER ->
  exists l t, scalar_as_bytes s = l ++ [t] /\ length l = 31%nat /\ 0 <= t < 32.
Proof.
  intros Hs. pose proof group_order_pos.
  exists (rev (to_be_bytes 31 s)), (Z.shiftr s (8 * Z.of_nat 31) mod 256).
  split; [done|]. split; [by rewrite length_rev, to_be_bytes_length|].
  rewrite Z.shiftr_div_pow2 by lia. change (8 * Z.of_nat 31) with 248.
  assert (0 <= s / 2 ^ 248 < 32).
  { split; [apply Z.div_pos; lia|]. apply Z.div_lt_upper_bound; [lia|].
    change (2 ^ 248 * 32) with (2 ^ 253). lia. }
  rewrite Z.mod_small; lia.
Qed.

(** The last byte of a signature: five bits of the scalar and the sign. *)
Lemma top_byte sb t :
  sb = 0 \/ sb = 128 -> 0 <= t < 32 ->
  Z.land t 127 = t /\ Z.land (Z.lor t sb) 127 = t /\ Z.land (Z.lor t sb) 128 = sb
  /\ Z.land t 224 = 0.
Proof.
  intros Hsb Ht. assert (Hb : is_byte t) by (unfold is_byte; lia).
  assert (forall P : Z -> bool, forallb (fun x => implb (x <? 32) (P x)) all_bytes = true ->
          P t = true) as Hcheck.
  { intros P H. pose proof (byte_check _ H t Hb) as Hp. cbn in Hp.
    destruct (Z.ltb_spec t 32); [done|lia]. }
  destruct Hsb as [->| ->]; split_and!; apply Z.eqb_eq;
    match goal with
    | |- ?e = true =>
        let f := eval pattern t in e in
        match f with ?g _ => apply (Hcheck g); by vm_compute end
    end.
Qed.

(** ** Signing and verifying *)

Context {DL : DalekLaws}.

Lemma get_edwards_cache_wf k :
  private_wf k ->
  get_edwards_cache k = (mkPrivateKey (private_bytes k) (Some (derive_cache (private_bytes k))),
                         derive_cache (private_bytes k)).
Proof. intros []. unfold get_edwards_cache. by destruct wf_cache0 as [->| ->]. Qed.

(** The signature of a key whose cache is the derived one, as the code lays it out. *)
Lemma signature_layout k message random :
  private_wf k ->
  let a := scalar_from_bytes (private_bytes k) in
  let ed := compress (base_mul a) in
  exists r h l t,
    0 <= r < GROUP_ORDER
    /\ h = scalar_from_bytes (sha512 (compress (base_mul r) ++ ed ++ concat message))
    /\ scalar_as_bytes ((h * a + r) mod GROUP_ORDER) = l ++ [t]
    /\ length l = 31%nat /\ 0 <= t < 32
    /\ snd (calculate_signature k message random)
       = Ok (compress (base_mul r) ++ l ++ [Z.lor t (Z.land (ed !!! 31%nat) 128)]).
Proof.
  intros Hk a ed. unfold calculate_signature. rewrite get_edwards_cache_wf by done.
  destruct Hk as [Hlen Hb Hc _]. cbn [private_bytes snd].
  unfold derive_cache, x_from. rewrite Hc. cbn [compute_edwards_cache x_scalar x_ed_public_key
    x_sign_bit cache_scalar cache_ed_public_key cache_sign_bit].
  fold a. fold ed. unfold x_from_bytes_with_cache, x_calculate_signature. rewrite Hc.
  cbn [x_secret x_scalar x_ed_public_key x_sign_bit].
  set (r := scalar_from_bytes (sha512 (XEDDSA_HASH_PREFIX ++ _))).
  set (h := scalar_from_bytes (sha512 (compress (base_mul r) ++ _))).
  assert (Hsb : Z.land (Z.land (ed !!! 31%nat) 128) 128 = Z.land (ed !!! 31%nat) 128)
    by (by destruct (land_128 (ed !!! 31%nat)) as [->| ->]).
  rewrite Hsb.
  destruct (scalar_bytes_shape ((h * a + r) mod GROUP_ORDER)) as (l & t & Heq & Hl & Ht);
    [apply Z.mod_pos_bound, group_order_pos|].
  exists r, h, l, t. split; [apply scalar_bound|]. split; [done|]. split; [done|].
  split; [done|]. split; [done|]. rewrite Heq.
  assert (Hne : (Z.land (ed !!! 31%nat) 128 =? SIGN_BIT_NOT_INITIALIZED) = false)
    by (by destruct (land_128 (ed !!! 31%nat)) as [->| ->]).
  rewrite Hne. do 2 f_equal. rewrite app_assoc.
  replace 63%nat with (length (compress (base_mul r) ++ l) + 0)%nat.
  2: { rewrite length_app, Hl. pose proof (compress_len (base_mul r)) as H. unfold zlen in H. lia. }
  rewrite alter_app_r, <- app_assoc. do 2 f_equal. cbn.
  destruct (top_byte 0 t) as [-> _]; auto.
Qed.

(** Both ends read the same sign, and the verifier recovers the scalar. *)
Lemma signature_reads c l t sb :
  zlen c = 32 -> length l = 31%nat -> 0 <= t < 32 -> sb = 0 \/ sb = 128 ->
  let sig := c ++ l ++ [Z.lor t sb] in
  zlen sig = 64 /\ signature_sign sig = Z.shiftr sb 7 /\ upto 32 sig = c
  /\ alter (fun b => Z.land b 127) 31%nat (from 32 sig) = l ++ [t].
Proof.
  intros Hc Hl Ht Hsb sig. destruct (top_byte sb t Hsb Ht) as (_ & Hlow & Hhigh & _).
  assert (Hcn : length c = 32%nat) by (unfold zlen in Hc; lia).
  split_and!.
  - unfold sig. autorewrite with zlen. unfold zlen at 2. rewrite Hl. lia.
  - unfold signature_sign, sig. rewrite lookup_total_app_r, Hcn, lookup_total_app_r, Hl by lia.
    cbn [Nat.sub]. change ([?x] !!! 0%nat) with x. by rewrite Hhigh.
  - unfold sig. rewrite <- Hc. apply upto_app.
  - unfold sig. rewrite <- Hc at 1. rewrite from_app, <- Hl, <- (Nat.add_0_r (length l)), alter_app_r.
    cbn. by rewrite Hlow.
Qed.

Lemma verify_own_equation a r h l t message c ed :
  0 <= r < GROUP_ORDER ->
  c = compress (base_mul r) -> ed = compress (base_mul a) ->
  h = scalar_from_bytes (sha512 (c ++ ed ++ concat message)) ->
  scalar_as_bytes ((h * a + r) mod GROUP_ORDER) = l ++ [t] -> length l = 31%nat -> 0 <= t < 32 ->
  verify_signature_prepared (point_neg (base_mul a)) ed message
    (c ++ l ++ [Z.lor t (Z.land (ed !!! 31%nat) 128)]) = true.
Proof.
  intros Hr -> -> Hh Hs Hl Ht. pose proof group_order_pos as HL.
  destruct (signature_reads (compress (base_mul r)) l t
    (Z.land (compress (base_mul a) !!! 31%nat) 128)) as (_ & _ & Hup & Hfrom);
    [apply compress_len|done..|apply land_128|].
  unfold verify_signature_prepared. rewrite Hup, Hfrom.
  rewrite lookup_total_app_r, Hl by lia. cbn [Nat.sub]. change ([t] !!! 0%nat) with t.
  destruct (top_byte 0 t) as (_ & _ & _ & ->); [by left|done|]. cbn [Z.eqb negb].
  rewrite <- Hh, <- Hs, scalar_roundtrip by (apply Z.mod_pos_bound; lia).
  rewrite double_mul_base, Zminus_mod_idemp_l. replace (h * a + r - h * a) with r by lia.
  rewrite Z.mod_small by lia. apply bytes_eqb_refl.
Qed.

Lemma public_edwards k :
  private_wf k ->
  let a := base_mul (scalar_from_bytes (private_bytes k)) in
  to_edwards (public_key_bytes (public_key k)) (Z.shiftr (Z.land (compress a !!! 31%nat) 128) 7)
  = Some a.
Proof.
  intros [Hlen Hb Hc _] a. unfold public_key, x_derive_public_key_bytes.
  cbn [public_key_bytes x_from_bytes_without_cache x_secret]. rewrite Hc.
  pose proof (to_edwards_public (private_bytes k) Hlen Hb Hc) as Hed. cbn zeta in Hed.
  fold a in Hed. rewrite <- Hed. f_equal.
  assert (Hx : is_byte (compress a !!! 31%nat)).
  { apply Forall_lookup_total_1; [apply compress_bytes|].
    pose proof (compress_len a) as H. unfold zlen in H. lia. }
  apply Z.eqb_eq. revert Hx. generalize (compress a !!! 31%nat). by apply byte_check.
Qed.

Lemma entry_wf k v sign :
  prepared_wf k v -> sign = 0 \/ sign = 1 ->
  snd (entry v sign) = derive_entry (public_key_bytes k) sign
  /\ prepared_wf k (fst (entry v sign)).
Proof.
  intros [Hm H0 H1] [->| ->]; unfold entry; cbn [Z.land Z.eqb fst snd].
  - rewrite Hm. destruct (cached_0 v) as [e|] eqn:E; cbn [default].
    + rewrite (H0 e) by done. split; [done|]. constructor; naive_solver.
    + split; [done|]. constructor; naive_solver.
  - change (1 =? 0) with false. cbv iota. cbn [fst snd].
    rewrite Hm. destruct (cached_1 v) as [e|] eqn:E; cbn [default].
    + rewrite (H1 e) by done. split; [done|]. constructor; naive_solver.
    + split; [done|]. constructor; naive_solver.
Qed.

Lemma signature_sign_bit s : signature_sign s = 0 \/ signature_sign s = 1.
Proof. unfold signature_sign. destruct (land_128 (s !!! 63%nat)) as [->| ->]; auto. Qed.

(** The verifier that keeps its Edwards derivations answers every question as the plain
    one does, for any message pieces and any bytes as the signature, whatever it has derived
    before, and what it keeps stays that of its key. *)
Lemma prepared_verify_plain k v message signature :
  prepared_wf k v ->
  snd (prepared_verify v message signature) = public_verify k message signature
  /\ prepared_wf k (fst (prepared_verify v message signature)).
Proof.
  intros Hv. unfold prepared_verify, public_verify. destruct (_ =? _); [|done].
  destruct (entry_wf k v (signature_sign signature) Hv (signature_sign_bit _)) as [He Hw].
  destruct (entry v (signature_sign signature)) as [v' e]. cbn [fst snd] in *. subst e.
  split; [|done]. unfold x_verify_signature, derive_entry.
  by destruct (to_edwards _ _).
Qed.

(** Signing fills the cache and gives a signature that the public key accepts. *)
Lemma calculate_signature_ok k message random :
  private_wf k ->
  exists signature,
    calculate_signature k message random = (precompute_signing_cache k, Ok signature)
    /\ zlen signature = SIGNATURE_LENGTH
    /\ public_verify (public_key k) message signature = true
    /\ private_wf (precompute_signing_cache k).
Proof.
  intros Hk. destruct (signature_layout k message random Hk)
    as (r & h & l & t & Hr & Hh & Hs & Hl & Ht & Hsig).
  set (ed := compress (base_mul (scalar_from_bytes (private_bytes k)))) in *.
  destruct (signature_reads (compress (base_mul r)) l t (Z.land (ed !!! 31%nat) 128))
    as (Hlen & Hsign & _); [apply compress_len|done..|apply land_128|].
  eexists. split; [|split; [exact Hlen|split]].
  - rewrite <- Hsig. unfold precompute_signing_cache, calculate_signature.
    by destruct (get_edwards_cache k).
  - unfold public_verify, x_verify_signature. rewrite Hlen, Hsign. cbn [SIGNATURE_LENGTH].
    rewrite public_edwards by done. by eapply verify_own_equation.
  - unfold precompute_signing_cache. rewrite get_edwards_cache_wf by done.
    destruct Hk. constructor; cbn; auto.
Qed.

(** A private key that is generated or read from bytes signs every message and its
    public key accepts the signature, with the plain verifier and with any verifier that
    keeps its derivations, whatever it has derived before: the scalar survives its encoding
    in the signature, whose spare top bit carries the sign of the Edwards key.  Signing never
    meets the sentinel of a missing cache, and a second use of the key, with the cache warm,
    gives the same signature. *)
Lemma xeddsa_sign_verify k message random :
  private_wf k ->
  exists signature,
    calculate_signature k message random = (precompute_signing_cache k, Ok signature)
    /\ snd (calculate_signature (precompute_signing_cache k) message random) = Ok signature
    /\ zlen signature = SIGNATURE_LENGTH
    /\ public_verify (public_key k) message signature = true
    /\ forall v, prepared_wf (public_key k) v -> snd (prepared_verify v message signature) = true.
Proof.
  intros Hk. destruct (calculate_signature_ok k message random Hk) as (s & Hs & Hl & Hv & Hw).
  exists s. split_and!; [done| |done..|].
  - assert (Hkk : snd (calculate_signature k message random) = Ok s) by (by rewrite Hs).
    rewrite <- Hkk. unfold precompute_signing_cache, calculate_signature.
    by rewrite (get_edwards_cache_wf k) by done.
  - intros v Hpv. by destruct (prepared_verify_plain _ v message s Hpv) as [-> _].
Qed.

(** ** Where keys come from *)

Lemma keypair_generate_wf random :
  zlen random = 32 -> are_bytes random ->
  private_wf (kp_private (keypair_generate random))
  /\ kp_public (keypair_generate random) = public_key (kp_private (keypair_generate random)).
Proof.
  intros Hr Hb. split.
  - constructor; cbn; [by rewrite clamp_len|by apply clamp_bytes|by apply clamp_idem|by left].
  - unfold public_key, x_derive_public_key_bytes. cbn. by rewrite clamp_idem.
Qed.

Lemma private_deserialize_wf b k :
  are_bytes b -> private_deserialize b = Ok k -> private_wf k.
Proof.
  intros Hb. unfold private_deserialize. destruct (Z.eqb_spec (zlen b) PRIVATE_KEY_LENGTH); [|done].
  intros [= <-].
  constructor; cbn; [by rewrite clamp_len|by apply clamp_bytes|by apply clamp_idem|by left].
Qed.

(** Reading a key back gives the same key, its cache cold. *)
Lemma private_roundtrip k :
  private_wf k ->
  private_deserialize (private_serialize k) = Ok (mkPrivateKey (private_bytes k) None).
Proof.
  intros [Hlen _ Hc _]. unfold private_deserialize, private_serialize.
  rewrite Hlen, Hc. done.
Qed.

Lemma public_key_wf k : public_wf (public_key k).
Proof. apply x25519_len. Qed.

(** Both ends of an exchange get the same secret. *)
Lemma agreement_comm a b :
  private_wf a -> private_wf b ->
  calculate_agreement a (public_key b) = calculate_agreement b (public_key a).
Proof.
  intros [Ha _ Hca _] [Hb _ Hcb _]. unfold calculate_agreement, x_calculate_agreement, public_key,
    x_derive_public_key_bytes, x_from_bytes_without_cache. cbn [x_secret public_key_bytes].
  rewrite Hca, Hcb. by apply x25519_comm.
Qed.
End Curve.

(** ** An instance

    The additive group of scalars, with the scalar itself as the compressed point. *)

#[export] Instance toy_dalek : Dalek := {|
  Point := Z;
  base_mul a := a mod GROUP_ORDER;
  point_neg p := - p mod GROUP_ORDER;
  compress p := scalar_as_bytes (p mod GROUP_ORDER);
  double_mul h p s := (h * p + s) mod GROUP_ORDER;
  to_edwards b sign := if sign =? 0 then Some (scalar_from_bytes b) else None;
  x25519_public k := scalar_as_bytes (scalar_from_bytes k);
  x25519_agree a p := scalar_as_bytes ((scalar_from_bytes a * scalar_from_bytes p) mod GROUP_ORDER);
  sha512 m := take 64 (m ++ replicate 64 0)
|}.

Lemma scalar_as_bytes_bytes s : are_bytes (scalar_as_bytes s).
Proof. apply Forall_rev, to_be_bytes_are_bytes. Qed.
Lemma scalar_as_bytes_zlen s : zlen (scalar_as_bytes s) = 32.
Proof. unfold zlen, scalar_as_bytes, to_le_bytes. by rewrite length_rev, to_be_bytes_length. Qed.

#[export] Instance toy_dalek_laws : DalekLaws (DK := toy_dalek).
Proof.
  pose proof group_order_pos as HL.
  constructor; cbn [base_mul point_neg compress double_mul to_edwards x25519_public x25519_agree toy_dalek].
  - intros h a s. rewrite Zmod_mod, <- Zplus_mod_idemp_l, Zmult_mod_idemp_r, Zplus_mod_idemp_l.
    rewrite <- (Zplus_mod_idemp_l (h * _)), <- Zmult_mod_idemp_r.
    replace (- (a mod GROUP_ORDER)) with (0 - a mod GROUP_ORDER) by lia.
    rewrite Zminus_mod_idemp_r, Zmult_mod_idemp_r, Zplus_mod_idemp_l. f_equal. ring.
  - intros p. apply scalar_as_bytes_zlen.
  - intros p. apply scalar_as_bytes_bytes.
  - intros k _ _ _. rewrite Zmod_mod.
    assert (Hs : 0 <= scalar_from_bytes k mod GROUP_ORDER < GROUP_ORDER)
      by (apply Z.mod_pos_bound; lia).
    destruct (scalar_bytes_shape _ Hs) as (l & t & -> & Hl & Ht).
    rewrite lookup_total_app_r, Hl by lia. change ([t] !!! (31 - 31)%nat) with t.
    rewrite Z.shiftr_div_pow2, Z.div_small by lia. cbn [Z.eqb].
    rewrite scalar_roundtrip by apply scalar_bound.
    by rewrite Z.mod_small by apply scalar_bound.
  - intros k. apply scalar_as_bytes_zlen.
  - intros a b _ _. rewrite !scalar_roundtrip by apply scalar_bound. by rewrite Z.mul_comm.
  - intros a p. apply scalar_as_bytes_zlen.
Qed.

Definition toy_private : PrivateKey := kp_private (keypair_generate (replicate 32 9)).

Lemma xeddsa_sign_verify_witness :
  exists signature,
    calculate_signature toy_private [str "hello"] [] = (precompute_signing_cache toy_private, Ok signature)
    /\ snd (calculate_signature (precompute_signing_cache toy_private) [str "hello"] []) = Ok signature
    /\ zlen signature = SIGNATURE_LENGTH
    /\ public_verify (public_key toy_private) [str "hello"] signature = true
    /\ forall v, prepared_wf (public_key toy_private) v ->
         snd (prepared_verify v [str "hello"] signature) = true.
Proof.
  apply (xeddsa_sign_verify toy_private [str "hello"] []).
  apply keypair_generate_wf; [done|]. apply (bool_decide_unpack _). by vm_compute.
Defined.
