(* ===== verification/SignalBase.v ===== *)
(** * What the Signal files share

    Errors of [protocol/error.rs], the limits of [consts.rs], AES-CBC of [crypto/aes_cbc.rs],
    and the parameters: HMAC, HKDF expansion, the AES provider and the protobuf encoding of
    the messages are the class [SignalCrypto], with their documented behaviour in
    [SignalLaws].  [hkdf_signal] composes HKDF from its two steps as RFC 5869 has it.  Last,
    messages that arrive in any order, for sender-key chains and the chains of a session. *)

From stdpp Require Import prelude strings.
From S2P Require Import Prelude Curve.

#[local] Open Scope Z_scope.

Definition MAX_FORWARD_JUMPS : Z := 25000.
Definition MAX_MESSAGE_KEYS : Z := 2000.
Definition MAX_RECEIVER_CHAINS : Z := 5.
Definition ARCHIVED_STATES_MAX_LENGTH : Z := 40.
Definition MAX_SENDER_KEY_STATES : Z := 5.
Definition MESSAGE_KEY_PRUNE_THRESHOLD : Z := 50.
Definition CIPHERTEXT_MESSAGE_CURRENT_VERSION : Z := 3.
Definition SENDERKEY_MESSAGE_CURRENT_VERSION : Z := 3.
Definition MIN_SUPPORTED_VERSION : Z := 3.
Definition MAX_SUPPORTED_VERSION : Z := 4.

Inductive CiphertextMessageType : Type := Whisper | PreKey | SenderKey | Plaintext.
#[global] Instance CiphertextMessageType_eq_dec : EqDecision CiphertextMessageType.
Proof. solve_decision. Defined.

(** The errors these files return; texts are left out, but for the chain id of a missing
    sender-key state. *)
Inductive SignalProtocolError : Type :=
  | InvalidState
  | BackendError
  | InvalidProtobufEncoding
  | CiphertextMessageTooShort (len : Z)
  | LegacyCiphertextVersion (v : Z)
  | UnrecognizedCiphertextVersion (v : Z)
  | UnrecognizedMessageVersion (v : Z)
  | FromCurve (e : CurveError)
  | SignatureValidationFailed
  | UntrustedIdentity
  | InvalidPreKeyId
  | InvalidSignedPreKeyId
  | InvalidMacKeyLength (len : Z)
  | NoSenderKeyState (chain_id : option Z)
  | SessionNotFound
  | InvalidSessionStructure
  | InvalidSenderKeySession
  | DuplicatedMessage (current iteration : Z)
  | InvalidMessage (ty : CiphertextMessageType)
  | BadMac (ty : CiphertextMessageType).

Inductive DecryptionError : Type := BadKeyOrIv | BadCiphertext.

Class SignalCrypto : Type := {
  hmac_sha256_signal : bytes -> bytes -> bytes;
  (** [Hkdf::from_prk(prk).expand(info, len)] *)
  hkdf_expand_signal : bytes -> bytes -> Z -> bytes;
  (** the provider: key, iv, text *)
  provider_cbc_encrypt : bytes -> bytes -> bytes -> option bytes;
  provider_cbc_decrypt : bytes -> bytes -> bytes -> option bytes;
  (** the protobuf messages of [waproto]: sender-key message and distribution, *)
  encode_skm : Z -> Z -> bytes -> bytes;
  decode_skm : bytes -> option (option Z * option Z * option bytes);
  encode_skdm : Z -> Z -> bytes -> bytes -> bytes;
  decode_skdm : bytes -> option (option Z * option Z * option bytes * option bytes);
  (** Signal message (ratchet key, counter, previous counter, ciphertext), *)
  encode_sm : bytes -> Z -> Z -> bytes -> bytes;
  decode_sm : bytes -> option (option bytes * option Z * option Z * option bytes);
  (** pre-key message (registration id, pre-key id, signed pre-key id, base key, identity
      key, message) *)
  encode_pksm : Z -> option Z -> Z -> bytes -> bytes -> bytes -> bytes;
  decode_pksm : bytes -> option (option Z * option Z * option Z * option bytes * option bytes
                                 * option bytes)
}.

(** The laws: output widths, CBC decryption inverts encryption, decoding inverts encoding
    (on [uint32] fields), and an encoding holds the bytes of its fields. *)
Class SignalLaws {SC : SignalCrypto} : Prop := {
  hmac_signal_len k d : zlen (hmac_sha256_signal k d) = 32;
  hkdf_expand_len k i n : 0 <= n -> zlen (hkdf_expand_signal k i n) = n;
  cbc_signal_inverse key iv p : zlen key = 32 -> zlen iv = 16 ->
    exists c, provider_cbc_encrypt key iv p = Some c /\ provider_cbc_decrypt key iv c = Some p;
  skm_inverse id it c : in_range 32 id -> in_range 32 it ->
    decode_skm (encode_skm id it c) = Some (Some id, Some it, Some c);
  skdm_inverse id it k s : in_range 32 id -> in_range 32 it ->
    decode_skdm (encode_skdm id it k s) = Some (Some id, Some it, Some k, Some s);
  skdm_len id it k s : zlen k + zlen s <= zlen (encode_skdm id it k s);
  sm_inverse rk n pn c : in_range 32 n -> in_range 32 pn ->
    decode_sm (encode_sm rk n pn c) = Some (Some rk, Some n, Some pn, Some c);
  pksm_inverse reg id sid bk ik m :
    in_range 32 reg -> (forall x, id = Some x -> in_range 32 x) -> in_range 32 sid ->
    decode_pksm (encode_pksm reg id sid bk ik m)
    = Some (Some reg, id, Some sid, Some bk, Some ik, Some m)
}.

Section Base.
Context {SC : SignalCrypto}.

(** [Hkdf::new(salt, ikm).expand(info, n)]: without a salt the extraction is keyed by zeros. *)
Definition hkdf_signal (salt : option bytes) (ikm info : bytes) (n : Z) : bytes :=
  hkdf_expand_signal (hmac_sha256_signal (default (replicate 32 0) salt) ikm) info n.

Lemma hkdf_signal_len {SL : SignalLaws} salt k i n : 0 <= n -> zlen (hkdf_signal salt k i n) = n.
Proof. apply hkdf_expand_len. Qed.

(** ** AES-CBC *)

(** The buffer is returned; encryption appends to it, decryption clears it first. *)
Definition aes_256_cbc_encrypt_into (ptext key iv output : bytes) : option bytes :=
  if (zlen key =? 32) && (zlen iv =? 16)
  then c ← provider_cbc_encrypt key iv ptext; Some (output ++ c) else None.
Definition aes_256_cbc_decrypt_into (ctext key iv output : bytes)
    : outcome DecryptionError bytes :=
  if (zlen key =? 32) && (zlen iv =? 16)
  then ok_or (provider_cbc_decrypt key iv ctext) BadCiphertext else Err BadKeyOrIv.

Lemma aes_cbc_roundtrip {SL : SignalLaws} p key iv :
  zlen key = 32 -> zlen iv = 16 ->
  exists c, aes_256_cbc_encrypt_into p key iv [] = Some c
            /\ aes_256_cbc_decrypt_into c key iv [] = Ok p.
Proof.
  intros Hk Hi. destruct (cbc_signal_inverse _ _ p Hk Hi) as (c & He & Hd).
  exists c. unfold aes_256_cbc_encrypt_into, aes_256_cbc_decrypt_into.
  rewrite Hk, Hi. cbn [Z.eqb andb]. by rewrite He, Hd.
Qed.
End Base.

(** [.ok()] *)
Definition ok {E A} (m : outcome E A) : option A := match m with Ok a => Some a | _ => None end.

(** ** An instance: keyed prefixes for ciphertexts, plain lists for protobuf *)

Definition opt_enc (o : option Z) : list Z := match o with Some x => [1; x] | None => [0; 0] end.
Definition opt_dec (a b : Z) : option Z := if a =? 1 then Some b else None.

#[export] Instance toy_signal : SignalCrypto := {|
  hmac_sha256_signal k d := resize 32 0 (d ++ k);
  hkdf_expand_signal k i n := resize (Z.to_nat n) 0 (k ++ i);
  provider_cbc_encrypt key iv p := Some (key ++ iv ++ p);
  provider_cbc_decrypt key iv c :=
    if bytes_eqb (upto 48 c) (key ++ iv) then Some (from 48 c) else None;
  encode_skm id it c := id :: it :: c;
  decode_skm b := match b with id :: it :: c => Some (Some id, Some it, Some c) | _ => None end;
  encode_skdm id it k s := id :: it :: zlen k :: k ++ s;
  decode_skdm b :=
    match b with
    | id :: it :: n :: l => Some (Some id, Some it, Some (upto n l), Some (from n l))
    | _ => None
    end;
  encode_sm rk n pn c := n :: pn :: zlen rk :: rk ++ c;
  decode_sm b :=
    match b with
    | n :: pn :: k :: l => Some (Some (upto k l), Some n, Some pn, Some (from k l))
    | _ => None
    end;
  encode_pksm reg id sid bk ik m :=
    reg :: opt_enc id ++ sid :: zlen bk :: zlen ik :: bk ++ ik ++ m;
  decode_pksm b :=
    match b with
    | reg :: a :: x :: sid :: n :: k :: l =>
        Some (Some reg, opt_dec a x, Some sid, Some (upto n l), Some (upto k (from n l)),
              Some (from k (from n l)))
    | _ => None
    end
|}.
#[export] Instance toy_signal_laws : SignalLaws (SC := toy_signal).
Proof.
  constructor; cbn.
  - intros k d. unfold zlen. by rewrite length_resize.
  - intros k i n Hn. unfold zlen. rewrite length_resize. lia.
  - intros key iv p Hk Hi. exists (key ++ iv ++ p). split; [done|].
    assert (H48 : zlen (key ++ iv) = 48) by (rewrite zlen_app; lia).
    rewrite app_assoc, <- H48, upto_app, from_app, bytes_eqb_refl. done.
  - done.
  - intros id it k s _ _. by rewrite upto_app, from_app.
  - intros id it k s. rewrite !zlen_cons, zlen_app. lia.
  - intros rk n pn c _ _. by rewrite upto_app, from_app.
  - intros reg id sid bk ik m _ _ _. destruct id; cbn; by rewrite upto_app, !from_app, upto_app.
Qed.

(** ** Messages delivered and not delivered

    A receiver of numbered messages that come in any order: [D] lists the numbers delivered,
    [highest D] is the next one in order, and [undelivered D n] are those below [n] still to
    come, whose keys the receiver keeps. *)

Lemma filter_ext_in {A} (P Q : A -> Prop) `{!forall x, Decision (P x), !forall x, Decision (Q x)} (l : list A) :
  (forall x, x ∈ l -> P x <-> Q x) -> filter P l = filter Q l.
Proof.
  induction l as [|x l IH]; intros Hl; [done|]. rewrite !filter_cons, IH.
  - pose proof (Hl x ltac:(left)). repeat case_decide; naive_solver.
  - intros y Hy. apply Hl. by right.
Qed.
Lemma filter_id {A} (P : A -> Prop) `{!forall x, Decision (P x)} (l : list A) :
  (forall x, x ∈ l -> P x) -> filter P l = l.
Proof.
  induction l as [|x l IH]; intros Hl; [done|]. rewrite filter_cons_True by (apply Hl; left).
  f_equal. apply IH. intros y Hy. apply Hl. by right.
Qed.

Definition undelivered (D : list nat) (n : nat) : list nat := filter (fun i => i ∉ D) (seq 0 n).

Lemma undelivered_NoDup D n : NoDup (undelivered D n).
Proof. apply NoDup_filter, NoDup_seq. Qed.
Lemma elem_of_undelivered D n i : i ∈ undelivered D n <-> i ∉ D /\ (i < n)%nat.
Proof. unfold undelivered. rewrite list_elem_of_filter, elem_of_seq. naive_solver lia. Qed.
Lemma undelivered_length D n : (length (undelivered D n) <= n)%nat.
Proof. unfold undelivered. rewrite length_filter, length_seq. done. Qed.
Lemma undelivered_S D n : n ∉ D -> undelivered D (S n) = undelivered D n ++ [n].
Proof.
  intros Hn. unfold undelivered. rewrite seq_S, filter_app, filter_cons_True by done. done.
Qed.
Lemma undelivered_remove D n i :
  filter (fun j => j <> i) (undelivered D n) = undelivered (i :: D) n.
Proof.
  unfold undelivered. rewrite list_filter_filter. apply list_filter_iff.
  intros j. rewrite not_elem_of_cons. naive_solver.
Qed.
Lemma undelivered_next D n : undelivered (n :: D) (S n) = undelivered D n.
Proof.
  unfold undelivered. rewrite seq_S, filter_app, filter_cons_False.
  - rewrite app_nil_r. apply filter_ext_in. intros i Hi%elem_of_seq.
    rewrite not_elem_of_cons. split; [naive_solver|]. intros H. split; [lia|done].
  - rewrite not_elem_of_cons. naive_solver.
Qed.

(** One more than the highest message delivered. *)
Fixpoint highest (D : list nat) : nat :=
  match D with [] => O | i :: D => (highest D `max` S i)%nat end.
Lemma highest_bound D : Forall (fun j => (j < highest D)%nat) D.
Proof.
  induction D as [|i D IH]; cbn [highest]; constructor; [lia|].
  eapply Forall_impl; [done|]. cbn. lia.
Qed.
