(* ===== verification/SenderKeys.v ===== *)
(** * Sender keys

    [wacore/libsignal/src/protocol/sender_keys.rs] and the sender-key messages of
    [protocol.rs]: the hash chain of a group sender, the state a receiver keeps of it with
    the message keys of messages still to come, the record of the last few states, and the
    two messages.  The memo fields of
    a state hold the keys parsed from its bytes ([private_roundtrip], [prepared_verify_plain])
    and are left out. *)

From stdpp Require Import prelude strings.
From S2P Require Import Prelude Noise Curve SignalBase.

#[local] Open Scope Z_scope.

Definition SIGNATURE_LEN : Z := 64.

Section SenderKeys.
Context {DK : Dalek} {SC : SignalCrypto}.

(** ** Chain and message keys *)

Record SenderMessageKey : Type := mkSmk {
  smk_iteration : Z; smk_iv : bytes; smk_cipher_key : bytes; smk_seed : bytes
}.
Definition sender_message_key_new (iteration : Z) (seed : bytes) : SenderMessageKey :=
  let derived := hkdf_signal None seed (str "WhisperGroup") 48 in
  mkSmk iteration (upto 16 derived) (upto 32 (from 16 derived)) seed.

(** The protobuf form, in which states keep the keys. *)
Record SmkProto : Type := mkSmkProto { pb_iteration : option Z; pb_seed : option bytes }.
Definition smk_as_protobuf (k : SenderMessageKey) : SmkProto :=
  mkSmkProto (Some (smk_iteration k)) (Some (smk_seed k)).
(** [from_protobuf] expects a seed of 32 bytes. *)
Definition smk_from_protobuf (p : SmkProto) : outcome SignalProtocolError SenderMessageKey :=
  let seed := default [] (pb_seed p) in
  if zlen seed =? 32 then Ok (sender_message_key_new (default 0 (pb_iteration p)) seed) else Panic.

Record SenderChainKey : Type := mkChain { sck_iteration : Z; sck_chain_key : bytes }.
Definition MESSAGE_KEY_SEED : Z := 1.
Definition CHAIN_KEY_SEED : Z := 2.

Definition get_derivative (c : SenderChainKey) (label : Z) : bytes :=
  hmac_sha256_signal (sck_chain_key c) [label].
Definition sender_chain_next (c : SenderChainKey) : outcome SignalProtocolError SenderChainKey :=
  new_iteration ← ok_or (checked_add_1 (sck_iteration c)) InvalidState;
  Ok (mkChain new_iteration (get_derivative c CHAIN_KEY_SEED)).
Definition sender_message_key (c : SenderChainKey) : SenderMessageKey :=
  sender_message_key_new (sck_iteration c) (get_derivative c MESSAGE_KEY_SEED).
Definition step_with_message_key (c : SenderChainKey)
    : outcome SignalProtocolError (SenderMessageKey * SenderChainKey) :=
  new_iteration ← ok_or (checked_add_1 (sck_iteration c)) InvalidState;
  let message_key_seed := hmac_sha256_signal (sck_chain_key c) [MESSAGE_KEY_SEED] in
  let next_chain_key := hmac_sha256_signal (sck_chain_key c) [CHAIN_KEY_SEED] in
  Ok (sender_message_key_new (sck_iteration c) message_key_seed,
      mkChain new_iteration next_chain_key).

(** ** States *)

Record ChainProto : Type := mkChainProto { cp_iteration : option Z; cp_seed : option bytes }.
Record SigningProto : Type := mkSigning { sp_public : option bytes; sp_private : option bytes }.
Record SenderKeyState : Type := mkState {
  sender_key_id : option Z; chain_proto : option ChainProto; signing_proto : option SigningProto;
  message_keys : list SmkProto
}.

Definition chain_as_protobuf (c : SenderChainKey) : ChainProto :=
  mkChainProto (Some (sck_iteration c)) (Some (sck_chain_key c)).

(** [SenderKeyState::new] expects a chain key of 32 bytes. *)
Definition sender_key_state_new (chain_id iteration : Z) (chain_key : bytes)
    (signature_key : PublicKey) (signature_private_key : option PrivateKey)
    : outcome SignalProtocolError SenderKeyState :=
  if zlen chain_key =? 32 then
    Ok (mkState (Some chain_id) (Some (chain_as_protobuf (mkChain iteration chain_key)))
          (Some (mkSigning (Some (public_serialize signature_key))
                   (private_serialize <$> signature_private_key))) [])
  else Panic.

Definition message_version (s : SenderKeyState) : Z := 3.
Definition chain_id (s : SenderKeyState) : Z := default 0 (sender_key_id s).
Definition sender_chain_key (s : SenderKeyState) : option SenderChainKey :=
  c ← chain_proto s;
  let seed := default [] (cp_seed c) in
  if zlen seed =? 32 then Some (mkChain (default 0 (cp_iteration c)) seed) else None.
Definition set_sender_chain_key (s : SenderKeyState) (c : SenderChainKey) : SenderKeyState :=
  mkState (sender_key_id s) (Some (chain_as_protobuf c)) (signing_proto s) (message_keys s).
Definition set_message_keys (s : SenderKeyState) (l : list SmkProto) : SenderKeyState :=
  mkState (sender_key_id s) (chain_proto s) (signing_proto s) l.

(** [None] is [InvalidSenderKeySessionError]; [signing_key_verifier] prepares the public key. *)
Definition signing_key_public (s : SenderKeyState) : option PublicKey :=
  k ← signing_proto s; p ← sp_public k; ok (public_deserialize p).
Definition signing_key_private (s : SenderKeyState) : option PrivateKey :=
  k ← signing_proto s; p ← sp_private k; ok (private_deserialize p).
Definition signing_key_verifier (s : SenderKeyState) : option PreparedVerifyingKey :=
  prepared_new <$> signing_key_public s.

(** Eviction is amortised: the oldest keys go when the limit is exceeded by the threshold. *)
Definition add_sender_message_key (s : SenderKeyState) (k : SenderMessageKey) : SenderKeyState :=
  let keys := message_keys s ++ [smk_as_protobuf k] in
  let len := zlen keys in
  set_message_keys s
    (if MAX_MESSAGE_KEYS + MESSAGE_KEY_PRUNE_THRESHOLD <? len
     then drop (Z.to_nat (len - MAX_MESSAGE_KEYS)) keys else keys).

Fixpoint remove_first (iteration : Z) (l : list SmkProto) : option (SmkProto * list SmkProto) :=
  match l with
  | [] => None
  | x :: l' =>
      if default 0 (pb_iteration x) =? iteration then Some (x, l')
      else '(k, rest) ← remove_first iteration l'; Some (k, x :: rest)
  end.
Definition remove_sender_message_key (s : SenderKeyState) (iteration : Z)
    : SenderKeyState * outcome SignalProtocolError (option SenderMessageKey) :=
  match remove_first iteration (message_keys s) with
  | None => (s, Ok None)
  | Some (smk, rest) => (set_message_keys s rest, Some <$> smk_from_protobuf smk)
  end.

End SenderKeys.

(** ** Records: the states of the last few chains, newest first *)

Abbreviation SenderKeyRecord := (list SenderKeyState).

Section Records.
Context {DK : Dalek} {SC : SignalCrypto}.

Definition sender_key_state (r : SenderKeyRecord) : option SenderKeyState := head r.

(** The first state of a chain, with what puts it back. *)
Fixpoint sender_key_state_for_chain_id (r : SenderKeyRecord) (id : Z)
    : option (SenderKeyState * (SenderKeyState -> SenderKeyRecord)) :=
  match r with
  | [] => None
  | s :: r' =>
      if chain_id s =? id then Some (s, fun s' => s' :: r')
      else '(x, put) ← sender_key_state_for_chain_id r' id; Some (x, fun s' => s :: put s')
  end.

(** [remove_state]: the first state of this chain and signing key. *)
Fixpoint remove_state (r : SenderKeyRecord) (id : Z) (key : PublicKey)
    : option SenderKeyState * SenderKeyRecord :=
  match r with
  | [] => (None, [])
  | s :: r' =>
      if (chain_id s =? id) && bool_decide (signing_key_public s = Some key) then (Some s, r')
      else let '(x, rest) := remove_state r' id key in (x, s :: rest)
  end.
Definition remove_states_with_chain_id (r : SenderKeyRecord) (id : Z) : SenderKeyRecord :=
  List.filter (fun s => negb (chain_id s =? id)) r.

(** [while len >= MAX { pop_back }] *)
Definition add_sender_key_state (r : SenderKeyRecord) (id iteration : Z) (chain_key : bytes)
    (signature_key : PublicKey) (signature_private_key : option PrivateKey)
    : outcome SignalProtocolError SenderKeyRecord :=
  let '(existing, r) := remove_state r id signature_key in
  let r := remove_states_with_chain_id r id in
  state ← match existing with
          | None => sender_key_state_new id iteration chain_key signature_key signature_private_key
          | Some state => Ok state
          end;
  Ok (state :: take (Z.to_nat (MAX_SENDER_KEY_STATES - 1)) r).

(** ** Messages *)

Record SenderKeyMessage : Type := mkSkm {
  skm_version : Z; skm_chain_id : Z; skm_iteration : Z; skm_serialized : bytes
}.

Definition sender_key_message_new (version chain_id iteration : Z) (ciphertext randomness : bytes)
    (signature_key : PrivateKey) : outcome SignalProtocolError SenderKeyMessage :=
  let shifted_version := Z.lor (wrap 8 (Z.shiftl version 4)) 3 in
  let serialized := shifted_version :: encode_skm chain_id iteration ciphertext in
  signature ← map_err (fun _ => SignatureValidationFailed)
                (snd (calculate_signature signature_key [serialized] randomness));
  Ok (mkSkm version chain_id iteration (serialized ++ signature)).

(** [verify_signature_prepared], on the bytes before the signature. *)
Definition skm_signed (m : SenderKeyMessage) : bytes :=
  upto (zlen (skm_serialized m) - SIGNATURE_LEN) (skm_serialized m).
Definition skm_verify (m : SenderKeyMessage) (key : PreparedVerifyingKey) : bool :=
  snd (prepared_verify key [skm_signed m]
         (from (zlen (skm_serialized m) - SIGNATURE_LEN) (skm_serialized m))).

(** [ciphertext()]: the parse cached by [try_from] is that of [decode_ciphertext]. *)
Definition skm_ciphertext (m : SenderKeyMessage) : outcome SignalProtocolError bytes :=
  '(_, _, c) ← ok_or (decode_skm (from 1 (skm_signed m))) InvalidProtobufEncoding;
  ok_or c InvalidProtobufEncoding.

Definition check_version (v : Z) : outcome SignalProtocolError unit :=
  if v <? SENDERKEY_MESSAGE_CURRENT_VERSION then Err (LegacyCiphertextVersion v)
  else if SENDERKEY_MESSAGE_CURRENT_VERSION <? v then Err (UnrecognizedCiphertextVersion v)
  else Ok tt.

Definition skm_try_from (value : bytes) : outcome SignalProtocolError SenderKeyMessage :=
  if zlen value <? 1 + SIGNATURE_LEN then Err (CiphertextMessageTooShort (zlen value))
  else
    let v := Z.shiftr (hd 0 value) 4 in
    _ ← check_version v;
    '(id, iteration, c) ← ok_or (decode_skm (from 1 (upto (zlen value - SIGNATURE_LEN) value)))
                            InvalidProtobufEncoding;
    id ← ok_or id InvalidProtobufEncoding;
    iteration ← ok_or iteration InvalidProtobufEncoding;
    _ ← ok_or c InvalidProtobufEncoding;
    Ok (mkSkm v id iteration value).

Record SenderKeyDistributionMessage : Type := mkSkdm {
  skdm_version : Z; skdm_chain_id : Z; skdm_iteration : Z; skdm_chain_key : bytes;
  skdm_signing_key : PublicKey; skdm_serialized : bytes
}.
Definition skdm_new (version chain_id iteration : Z) (chain_key : bytes) (signing_key : PublicKey)
    : SenderKeyDistributionMessage :=
  mkSkdm version chain_id iteration chain_key signing_key
    (Z.lor (wrap 8 (Z.shiftl (Z.land version 15) 4)) SENDERKEY_MESSAGE_CURRENT_VERSION
     :: encode_skdm chain_id iteration chain_key (public_serialize signing_key)).
Definition skdm_try_from (value : bytes) : outcome SignalProtocolError SenderKeyDistributionMessage :=
  if zlen value <? 1 + 32 + 32 then Err (CiphertextMessageTooShort (zlen value))
  else
    let v := Z.shiftr (hd 0 value) 4 in
    _ ← check_version v;
    '(id, iteration, k, s) ← ok_or (decode_skdm (from 1 value)) InvalidProtobufEncoding;
    id ← ok_or id InvalidProtobufEncoding;
    iteration ← ok_or iteration InvalidProtobufEncoding;
    k ← ok_or k InvalidProtobufEncoding;
    s ← ok_or s InvalidProtobufEncoding;
    if negb (zlen k =? 32) || negb (zlen s =? 33) then Err InvalidProtobufEncoding
    else
      key ← map_err FromCurve (public_deserialize s);
      Ok (mkSkdm v id iteration k key value).

(** A parsed message keeps its bytes. *)
Lemma skm_try_from_serialized b m : skm_try_from b = Ok m -> skm_serialized m = b.
Proof.
  unfold skm_try_from. destruct (_ <? _); [done|]. intros H.
  apply bind_Ok_inv in H as (_ & _ & H). apply bind_Ok_inv in H as ([[id it] c] & _ & H).
  apply bind_Ok_inv in H as (? & _ & H). apply bind_Ok_inv in H as (? & _ & H).
  apply bind_Ok_inv in H as (? & _ & H). by injection H as <-.
Qed.
End Records.
