(* ===== verification/GroupCipher.v ===== *)
(** * Group messages

    [wacore/libsignal/src/protocol/group_cipher.rs] over the sender keys: a sender announces
    its chain in a distribution message and encrypts under it; a receiver keeps the state of
    the chain, the keys of the messages it has skipped included, and decrypts in any order.

    The record store is the class [SenderKeyStore], with what a working store promises in
    [SenderKeyStoreLaws]; what the random generator yields is an argument.  The thread-local
    buffers start empty at each use and are left out. *)

From stdpp Require Import prelude strings gmap.
From S2P Require Import Prelude Noise Curve SignalBase SenderKeys.

#[local] Open Scope Z_scope.

(** ** Names, [store/sender_key_name.rs] *)

Record SenderKeyName : Type := mkName { name_buf : bytes; group_len : Z }.
#[global] Instance SenderKeyName_eq_dec : EqDecision SenderKeyName.
Proof. solve_decision. Defined.

Definition name_from_parts (group_id sender_id : bytes) : SenderKeyName :=
  mkName (group_id ++ str ":" ++ sender_id) (zlen group_id).
Definition name_group_id (n : SenderKeyName) : bytes := upto (group_len n) (name_buf n).
Definition name_sender_id (n : SenderKeyName) : bytes := from (group_len n + 1) (name_buf n).

Section GroupCipher.
Context {DK : Dalek} {SC : SignalCrypto}.

(** ** The store *)

Class SenderKeyStore (S : Type) : Type := {
  load_sender_key : S -> SenderKeyName -> outcome SignalProtocolError (option SenderKeyRecord);
  store_sender_key : S -> SenderKeyName -> SenderKeyRecord -> S * outcome SignalProtocolError unit
}.
(** A store that works: loading succeeds, storing succeeds and changes one name. *)
Class SenderKeyStoreLaws (S : Type) {ST : SenderKeyStore S} : Prop := {
  load_ok st n : exists r, load_sender_key st n = Ok r;
  store_ok st n r : snd (store_sender_key st n r) = Ok tt;
  load_stored st n r : load_sender_key (fst (store_sender_key st n r)) n = Ok (Some r);
  load_other st n n' r :
    n <> n' -> load_sender_key (fst (store_sender_key st n r)) n' = load_sender_key st n'
}.
End GroupCipher.

Section Operations.
Context {DK : Dalek} {SC : SignalCrypto} {S : Type} {ST : SenderKeyStore S}.

(** Stores and then returns a value, or the error of the store. *)
Definition store_then {A} (st : S) (name : SenderKeyName) (r : SenderKeyRecord) (a : A)
    : S * outcome SignalProtocolError A :=
  let '(st, res) := store_sender_key st name r in (st, _ ← res; Ok a).

(** A result computed without touching the store, then what is done with it. *)
Definition and_then {A B} (st : S) (m : outcome SignalProtocolError A)
    (f : A -> S * outcome SignalProtocolError B) : S * outcome SignalProtocolError B :=
  match m with
  | Ok a => f a
  | Err e => (st, Err e)
  | Panic => (st, Panic)
  | Timeout => (st, Timeout)
  end.

Definition load_existing (st : S) (name : SenderKeyName)
    : outcome SignalProtocolError SenderKeyRecord :=
  r ← load_sender_key st name; ok_or r (NoSenderKeyState None).

(** ** Encryption *)

(** The part of [group_encrypt] between loading and storing. *)
Definition encrypt_with (r : SenderKeyRecord) (plaintext random : bytes)
    : outcome SignalProtocolError (SenderKeyRecord * SenderKeyMessage) :=
  match r with
  | [] => Err InvalidSenderKeySession
  | state :: rest =>
      let version := wrap 8 (message_version state) in
      chain ← ok_or (sender_chain_key state) InvalidSenderKeySession;
      '(keys, next) ← step_with_message_key chain;
      ciphertext ← ok_or (aes_256_cbc_encrypt_into plaintext (smk_cipher_key keys) (smk_iv keys) [])
                     InvalidSenderKeySession;
      signing_key ← ok_or (signing_key_private state) InvalidSenderKeySession;
      skm ← sender_key_message_new version (chain_id state) (smk_iteration keys) ciphertext
              random signing_key;
      Ok (set_sender_chain_key state next :: rest, skm)
  end.
Definition group_encrypt (st : S) (name : SenderKeyName) (plaintext random : bytes)
    : S * outcome SignalProtocolError SenderKeyMessage :=
  and_then st (load_existing st name) (fun r =>
  and_then st (encrypt_with r plaintext random) (fun '(r, skm) =>
  store_then st name r skm)).

(** ** Decryption *)

(** The [while] loop of [get_sender_key] and the step after it. *)
Fixpoint skip_to (fuel : nat) (state : SenderKeyState) (chain : SenderChainKey) (iteration : Z)
    : outcome SignalProtocolError (SenderKeyState * SenderMessageKey) :=
  match fuel with
  | O => Timeout
  | Datatypes.S fuel =>
      if sck_iteration chain <? iteration then
        '(key, next) ← step_with_message_key chain;
        skip_to fuel (add_sender_message_key state key) next iteration
      else
        '(key, next) ← step_with_message_key chain;
        Ok (set_sender_chain_key state next, key)
  end.
Definition get_sender_key (state : SenderKeyState) (iteration : Z)
    : outcome SignalProtocolError (SenderKeyState * SenderMessageKey) :=
  chain ← ok_or (sender_chain_key state) InvalidSenderKeySession;
  let current_iteration := sck_iteration chain in
  if iteration <? current_iteration then
    let '(state, res) := remove_sender_message_key state iteration in
    smk ← res;
    match smk with
    | Some smk => Ok (state, smk)
    | None => Err (DuplicatedMessage current_iteration iteration)
    end
  else
    let jump := iteration - current_iteration in
    if MAX_FORWARD_JUMPS <? jump then Err (InvalidMessage SenderKey)
    else skip_to (Datatypes.S (Z.to_nat jump)) state chain iteration.

Definition decryption_error (e : DecryptionError) : SignalProtocolError :=
  match e with BadKeyOrIv => InvalidSenderKeySession | BadCiphertext => InvalidMessage SenderKey end.

(** The part of [group_decrypt] between loading and storing. *)
Definition decrypt_with (r : SenderKeyRecord) (skm : SenderKeyMessage)
    : outcome SignalProtocolError (SenderKeyRecord * bytes) :=
  match sender_key_state_for_chain_id r (skm_chain_id skm) with
  | None => Err (NoSenderKeyState (Some (skm_chain_id skm)))
  | Some (state, put) =>
      if negb (skm_version skm =? message_version state)
      then Err (UnrecognizedMessageVersion (skm_version skm))
      else
        verifier ← ok_or (signing_key_verifier state) InvalidSenderKeySession;
        if negb (skm_verify skm verifier) then Err SignatureValidationFailed
        else
          '(state, key) ← get_sender_key state (skm_iteration skm);
          ciphertext ← skm_ciphertext skm;
          plaintext ← map_err decryption_error
            (aes_256_cbc_decrypt_into ciphertext (smk_cipher_key key) (smk_iv key) []);
          Ok (put state, plaintext)
  end.
Definition group_decrypt (skm_bytes : bytes) (st : S) (name : SenderKeyName)
    : S * outcome SignalProtocolError bytes :=
  and_then st (skm_try_from skm_bytes) (fun skm =>
  and_then st (load_existing st name) (fun r =>
  and_then st (decrypt_with r skm) (fun '(r, plaintext) =>
  store_then st name r plaintext))).

(** ** Distribution *)

Definition process_sender_key_distribution_message (name : SenderKeyName)
    (skdm : SenderKeyDistributionMessage) (st : S) : S * outcome SignalProtocolError unit :=
  and_then st (load_sender_key st name) (fun r =>
  and_then st (add_sender_key_state (default [] r) (skdm_chain_id skdm) (skdm_iteration skdm)
                 (skdm_chain_key skdm) (skdm_signing_key skdm) None) (fun r =>
  store_then st name r tt)).

Definition build_skdm_from_record (r : SenderKeyRecord)
    : outcome SignalProtocolError SenderKeyDistributionMessage :=
  state ← ok_or (sender_key_state r) InvalidSenderKeySession;
  chain ← ok_or (sender_chain_key state) InvalidSenderKeySession;
  key ← ok_or (signing_key_public state) InvalidSenderKeySession;
  Ok (skdm_new (wrap 8 (message_version state)) (chain_id state) (sck_iteration chain)
        (sck_chain_key chain) key).

(** What the generator yields: a [u32], the chain key, the signing key. *)
Record SkdmRandom : Type := mkSkdmRandom {
  rnd_chain_id : Z; rnd_sender_key : bytes; rnd_signing : bytes
}.
Definition create_sender_key_distribution_message (name : SenderKeyName) (st : S)
    (rnd : SkdmRandom) : S * outcome SignalProtocolError SenderKeyDistributionMessage :=
  and_then st (load_sender_key st name) (fun r =>
  match r with
  | Some r => (st, build_skdm_from_record r)
  | None =>
      let chain_id := Z.shiftr (rnd_chain_id rnd) 1 in
      let signing_key := keypair_generate (rnd_signing rnd) in
      and_then st (add_sender_key_state [] chain_id 0 (rnd_sender_key rnd)
                     (kp_public signing_key) (Some (kp_private signing_key))) (fun r =>
      and_then st (build_skdm_from_record r) (fun skdm =>
      store_then st name r skdm))
  end).
End Operations.

(** ** The chain of a sender

    [chain_at] and [smk_at] are the chain key and the message key after [n] steps. *)

Section Chain.
Context {DK : Dalek} {SC : SignalCrypto} {SL : SignalLaws}.
Variables (i0 : Z) (seed : bytes).

Fixpoint chain_seed (n : nat) : bytes :=
  match n with
  | O => seed
  | S n => hmac_sha256_signal (chain_seed n) [CHAIN_KEY_SEED]
  end.
Definition chain_at (n : nat) : SenderChainKey := mkChain (i0 + Z.of_nat n) (chain_seed n).
Definition smk_at (n : nat) : SenderMessageKey :=
  sender_message_key_new (i0 + Z.of_nat n) (hmac_sha256_signal (chain_seed n) [MESSAGE_KEY_SEED]).

Lemma step_at n :
  i0 + Z.of_nat n < U32_MAX ->
  step_with_message_key (chain_at n) = Ok (smk_at n, chain_at (S n)).
Proof.
  intros Hn. unfold step_with_message_key, checked_add_1. cbn [chain_at sck_iteration].
  destruct (Z.eqb_spec (i0 + Z.of_nat n) U32_MAX); [lia|]. cbn.
  unfold smk_at, chain_at. do 3 f_equal. lia.
Qed.

Lemma chain_seed_len n : zlen seed = 32 -> zlen (chain_seed n) = 32.
Proof. destruct n; [done|intros _; apply hmac_signal_len]. Qed.

(** Keys as a state keeps them: the protobuf forms of some steps. *)
Definition smk_pb (n : nat) : SmkProto := smk_as_protobuf (smk_at n).

Lemma smk_pb_roundtrip n : smk_from_protobuf (smk_pb n) = Ok (smk_at n).
Proof.
  change (smk_from_protobuf (smk_pb n))
    with (if zlen (hmac_sha256_signal (chain_seed n) [MESSAGE_KEY_SEED]) =? 32
          then @Ok SignalProtocolError _ (smk_at n) else Panic).
  by rewrite hmac_signal_len.
Qed.

Lemma remove_first_smk i l :
  NoDup l ->
  remove_first (i0 + Z.of_nat i) (smk_pb <$> l)
  = if decide (i ∈ l) then Some (smk_pb i, smk_pb <$> filter (fun j => j <> i) l) else None.
Proof.
  induction 1 as [|j l Hj Hl IH]; [by rewrite decide_False by apply not_elem_of_nil|].
  cbn [fmap list_fmap remove_first].
  change (default 0 (pb_iteration (smk_pb j))) with (i0 + Z.of_nat j).
  destruct (Z.eqb_spec (i0 + Z.of_nat j) (i0 + Z.of_nat i)) as [Heq|Hne].
  - assert (j = i) as -> by lia. rewrite decide_True by left.
    rewrite filter_cons_False by (intros H; by apply H). do 3 f_equal.
    symmetry. apply filter_id. intros k Hk ->. done.
  - assert (j <> i) by (intros ->; lia). fold (fmap (M := list) smk_pb). rewrite IH.
    rewrite filter_cons_True by done.
    destruct (decide (i ∈ l)) as [Hi|Hi].
    + rewrite decide_True by (by right). done.
    + rewrite decide_False; [done|]. rewrite elem_of_cons. naive_solver.
Qed.

(** ** What a receiver holds after delivering [D] of the first [n] messages *)

Definition recv_state (s : SenderKeyState) (D : list nat) (n : nat) : SenderKeyState :=
  mkState (sender_key_id s) (Some (chain_as_protobuf (chain_at n))) (signing_proto s)
    (smk_pb <$> undelivered D n).

(** Nothing is evicted while fewer keys are kept than the limit. *)
Lemma add_key_small s k :
  zlen (message_keys s) < MAX_MESSAGE_KEYS + MESSAGE_KEY_PRUNE_THRESHOLD ->
  message_keys (add_sender_message_key s k) = message_keys s ++ [smk_as_protobuf k].
Proof.
  intros H. unfold add_sender_message_key. cbn [set_message_keys message_keys].
  rewrite zlen_app, zlen_cons, zlen_nil. destruct (Z.ltb_spec
    (MAX_MESSAGE_KEYS + MESSAGE_KEY_PRUNE_THRESHOLD) (zlen (message_keys s) + (1 + 0))); [lia|done].
Qed.

Lemma skip_to_spec D k : forall n s,
  i0 + Z.of_nat (n + k) < U32_MAX -> (n + k <= 2050)%nat -> Forall (fun j => (j < n)%nat) D ->
  message_keys s = smk_pb <$> undelivered D n ->
  skip_to (S k) s (chain_at n) (i0 + Z.of_nat (n + k))
  = Ok (recv_state s (n + k :: D)%nat (S (n + k)), smk_at (n + k)).
Proof.
  induction k as [|k IH]; intros n s Hmax Hn HD Hkeys; cbn [skip_to];
    cbn [chain_at sck_iteration]; fold (chain_at n).
  - rewrite Nat.add_0_r, Z.ltb_irrefl, step_at by lia. cbn.
    unfold recv_state. by rewrite undelivered_next, <- Hkeys.
  - destruct (Z.ltb_spec (i0 + Z.of_nat n) (i0 + Z.of_nat (n + S k))); [|lia].
    rewrite step_at by lia. cbn [mbind outcome_bind].
    assert (n ∉ D) by (intros H'; rewrite Forall_forall in HD; specialize (HD n H'); lia).
    specialize (IH (S n) (add_sender_message_key s (smk_at n))).
    rewrite Nat.add_succ_comm in IH.
    apply IH; [lia|lia|eapply Forall_impl; [done|]; cbn; lia|].
    rewrite add_key_small, Hkeys, undelivered_S, fmap_app by
      (done || (unfold zlen; rewrite Hkeys, length_fmap;
        pose proof (undelivered_length D n); unfold MAX_MESSAGE_KEYS, MESSAGE_KEY_PRUNE_THRESHOLD; lia)).
    done.
Qed.

Lemma recv_chain s D n : zlen seed = 32 ->
  sender_chain_key (recv_state s D n) = Some (chain_at n).
Proof.
  intros Hs. change (sender_chain_key (recv_state s D n))
    with (if zlen (chain_seed n) =? 32 then Some (chain_at n) else None).
  by rewrite chain_seed_len.
Qed.

(** A message asked for the first time gives its key, later times an error; afterwards the
    state is that of one more message delivered. *)
Lemma get_sender_key_spec s D n i :
  zlen seed = 32 -> i0 + Z.of_nat i < U32_MAX -> (i <= 2050)%nat ->
  Forall (fun j => (j < n)%nat) D ->
  get_sender_key (recv_state s D n) (i0 + Z.of_nat i)
  = if decide (i ∈ D) then Err (DuplicatedMessage (i0 + Z.of_nat n) (i0 + Z.of_nat i))
    else Ok (recv_state s (i :: D) (n `max` S i), smk_at i).
Proof.
  intros Hs Hmax Hi HD. unfold get_sender_key. rewrite recv_chain by done.
  cbn [ok_or mbind outcome_bind chain_at sck_iteration].
  destruct (Z.ltb_spec (i0 + Z.of_nat i) (i0 + Z.of_nat n)) as [Hlt|Hge].
  - unfold remove_sender_message_key. cbn [recv_state message_keys].
    rewrite remove_first_smk by apply undelivered_NoDup.
    destruct (decide (i ∈ undelivered D n)) as [Hin|Hin].
    + rewrite smk_pb_roundtrip, undelivered_remove. apply elem_of_undelivered in Hin as [Hin _].
      rewrite decide_False by done. replace (n `max` S i)%nat with n by lia. done.
    + rewrite elem_of_undelivered in Hin. rewrite decide_True; [done|].
      apply dec_stable. intros H. apply Hin. split; [done|lia].
  - assert (Hnot : i ∉ D) by (intros H; rewrite Forall_forall in HD; specialize (HD i H); lia).
    rewrite decide_False by done.
    replace (i0 + Z.of_nat i - (i0 + Z.of_nat n)) with (Z.of_nat (i - n)) by lia.
    destruct (Z.ltb_spec MAX_FORWARD_JUMPS (Z.of_nat (i - n)));
      [unfold MAX_FORWARD_JUMPS in *; lia|].
    rewrite Nat2Z.id. replace i with (n + (i - n))%nat in * by lia.
    replace (n + (i - n) - n)%nat with (i - n)%nat by lia.
    fold (chain_at n). rewrite (skip_to_spec D) by (done || lia).
    replace (n `max` S (n + (i - n)))%nat with (S (n + (i - n))) by lia. done.
Qed.
End Chain.

(** ** Messages between a sender and a receiver *)

Section EndToEnd.
Context {DK : Dalek} {DL : DalekLaws} {SC : SignalCrypto} {SL : SignalLaws}.
Variables (id i0 : Z) (seed : bytes) (key : PrivateKey).

Definition send_state (n : nat) : SenderKeyState :=
  mkState (Some id) (Some (chain_as_protobuf (chain_at i0 seed n)))
    (Some (mkSigning (Some (public_serialize (public_key key))) (Some (private_serialize key)))) [].

(** What a receiver makes of a message: it is well formed, signed by the sender, and holds
    [p] under the key of step [j]. *)
Record sent (j : nat) (p : bytes) (m : SenderKeyMessage) : Prop := {
  sent_parses : skm_try_from (skm_serialized m) = Ok m;
  sent_version : skm_version m = 3;
  sent_chain : skm_chain_id m = id;
  sent_iteration : skm_iteration m = i0 + Z.of_nat j;
  sent_signed : skm_verify m (prepared_new (public_key key)) = true;
  sent_text : (c ← skm_ciphertext m;
    map_err decryption_error (aes_256_cbc_decrypt_into c (smk_cipher_key (smk_at i0 seed j))
                                (smk_iv (smk_at i0 seed j)) [])) = Ok p
}.

Lemma smk_widths j :
  zlen (smk_cipher_key (smk_at i0 seed j)) = 32 /\ zlen (smk_iv (smk_at i0 seed j)) = 16.
Proof.
  unfold smk_at, sender_message_key_new. cbn [smk_cipher_key smk_iv].
  generalize (hmac_sha256_signal (chain_seed seed j) [MESSAGE_KEY_SEED]). intros k.
  pose proof (hkdf_signal_len None k (str "WhisperGroup") 48 ltac:(lia)) as H.
  unfold zlen, upto, from in *. rewrite !length_take, length_drop. lia.
Qed.

Lemma cbc_roundtrip j p :
  exists c, aes_256_cbc_encrypt_into p (smk_cipher_key (smk_at i0 seed j)) (smk_iv (smk_at i0 seed j)) []
            = Some c
    /\ aes_256_cbc_decrypt_into c (smk_cipher_key (smk_at i0 seed j)) (smk_iv (smk_at i0 seed j)) [] = Ok p.
Proof.
  destruct (smk_widths j) as [Hk Hi]. by apply aes_cbc_roundtrip.
Qed.

(** A message built with a good key parses to itself and verifies. *)
Lemma message_new_ok it c random :
  private_wf key -> in_range 32 id -> in_range 32 it ->
  exists m, sender_key_message_new 3 id it c random (mkPrivateKey (private_bytes key) None) = Ok m
    /\ skm_try_from (skm_serialized m) = Ok m
    /\ skm_version m = 3 /\ skm_chain_id m = id /\ skm_iteration m = it
    /\ skm_verify m (prepared_new (public_key key)) = true /\ skm_ciphertext m = Ok c.
Proof.
  intros Hk Hid Hit. unfold sender_key_message_new.
  change (Z.lor (wrap 8 (Z.shiftl 3 4)) 3) with 51.
  set (msg := 51 :: encode_skm id it c).
  assert (Hk' : private_wf (mkPrivateKey (private_bytes key) None))
    by (destruct Hk; by constructor; [..|left]).
  destruct (calculate_signature_ok _ [msg] random Hk') as (sig & -> & Hl & Hv & _).
  cbn [snd map_err mbind outcome_bind].
  eexists. split; [done|]. cbn [skm_serialized skm_version skm_chain_id skm_iteration].
  change SIGNATURE_LENGTH with 64 in Hl.
  assert (Hpos : zlen (msg ++ sig) - SIGNATURE_LEN = zlen msg)
    by (rewrite zlen_app, Hl; unfold SIGNATURE_LEN; lia).
  assert (Hup : upto (zlen (msg ++ sig) - SIGNATURE_LEN) (msg ++ sig) = msg)
    by (rewrite Hpos; apply upto_app).
  split_and!; [|done..| |].
  - unfold skm_try_from. destruct (Z.ltb_spec (zlen (msg ++ sig)) (1 + SIGNATURE_LEN)) as [Hlt|_].
    { assert (1 <= zlen msg); [|lia]. unfold msg. rewrite zlen_cons.
      pose proof (zlen_nonneg (encode_skm id it c)). lia. }
    rewrite Hup. change (hd 0 (msg ++ sig)) with 51. change (Z.shiftr 51 4) with 3.
    change (check_version 3) with (@Ok SignalProtocolError _ tt). cbn [mbind outcome_bind].
    change (from 1 msg) with (encode_skm id it c). by rewrite skm_inverse by done.
  - unfold skm_verify, skm_signed. cbn [skm_serialized]. rewrite Hup, Hpos, from_app.
    destruct (prepared_verify_plain (public_key key) (prepared_new (public_key key)) [msg] sig)
      as [-> _]; [constructor; done|done].
  - unfold skm_ciphertext, skm_signed. cbn [skm_serialized]. rewrite Hup.
    change (from 1 msg) with (encode_skm id it c). by rewrite skm_inverse by done.
Qed.

Lemma encrypt_with_spec n rest p random :
  private_wf key -> in_range 32 id -> zlen seed = 32 -> 0 <= i0 -> i0 + Z.of_nat n < U32_MAX ->
  exists m, encrypt_with (send_state n :: rest) p random = Ok (send_state (S n) :: rest, m)
            /\ sent n p m.
Proof.
  intros Hk Hid Hs Hi0 Hmax. destruct (cbc_roundtrip n p) as (c & He & Hd).
  destruct (message_new_ok (i0 + Z.of_nat n) c random) as (m & Hm & Hp & Hv & Hc & Hi & Hsig & Ht);
    [done..|unfold in_range, U32_MAX in *; lia|].
  exists m. split.
  - unfold encrypt_with. change (sender_chain_key (send_state n))
      with (sender_chain_key (recv_state i0 seed (send_state n) [] n)).
    rewrite recv_chain by done. cbn [ok_or mbind outcome_bind]. rewrite step_at by done.
    cbn [mbind outcome_bind]. rewrite He. cbn [ok_or mbind outcome_bind].
    unfold signing_key_private. cbn [send_state signing_proto mbind option_bind sp_private].
    rewrite private_roundtrip by done. cbn [ok ok_or mbind outcome_bind].
    change (smk_iteration (smk_at i0 seed n)) with (i0 + Z.of_nat n).
    change (chain_id (send_state n)) with id. change (wrap 8 (message_version (send_state n))) with 3.
    unfold send_state at 1. rewrite Hm. done.
  - constructor; try done. rewrite Ht. cbn [mbind outcome_bind]. by rewrite Hd.
Qed.

(** The state of a receiver that knows the sender's public key. *)
Definition recv_base : SenderKeyState :=
  mkState (Some id) None (Some (mkSigning (Some (public_serialize (public_key key))) None)) [].

Lemma decrypt_with_spec D n i p m rest :
  private_wf key -> zlen seed = 32 -> i0 + Z.of_nat i < U32_MAX -> (i <= 2050)%nat ->
  Forall (fun j => (j < n)%nat) D -> sent i p m ->
  decrypt_with (recv_state i0 seed recv_base D n :: rest) m
  = if decide (i ∈ D) then Err (DuplicatedMessage (i0 + Z.of_nat n) (i0 + Z.of_nat i))
    else Ok (recv_state i0 seed recv_base (i :: D) (n `max` S i) :: rest, p).
Proof.
  intros Hk Hs Hmax Hi HD [Hp Hv Hc Hit Hsig Ht]. unfold decrypt_with.
  cbn [sender_key_state_for_chain_id]. rewrite Hc.
  change (chain_id (recv_state i0 seed recv_base D n)) with id. rewrite Z.eqb_refl.
  rewrite Hv. cbn [message_version Z.eqb negb].
  change (signing_key_verifier (recv_state i0 seed recv_base D n))
    with (prepared_new <$> ok (public_deserialize (public_serialize (public_key key)))).
  rewrite public_roundtrip by apply public_key_wf. cbn [ok fmap option_fmap option_map ok_or mbind outcome_bind].
  rewrite Hsig. cbn [negb]. rewrite Hit, get_sender_key_spec by done.
  destruct (decide (i ∈ D)); [done|]. cbn [mbind outcome_bind].
  destruct (skm_ciphertext m) as [c| | |]; try done. cbn [mbind outcome_bind] in Ht |- *.
  by rewrite Ht.
Qed.
End EndToEnd.

Section Group.
Context {DK : Dalek} {DL : DalekLaws} {SC : SignalCrypto} {SL : SignalLaws}.
Context {S : Type} {ST : SenderKeyStore S} {STL : SenderKeyStoreLaws S}.

(** Every text with its randomness, one after the other. *)
Fixpoint group_encrypt_all (st : S) (name : SenderKeyName) (ps : list (bytes * bytes))
    : S * list (outcome SignalProtocolError SenderKeyMessage) :=
  match ps with
  | [] => (st, [])
  | (p, random) :: ps =>
      let '(st, m) := group_encrypt st name p random in
      let '(st, ms) := group_encrypt_all st name ps in (st, m :: ms)
  end.
Fixpoint group_decrypt_all (l : list bytes) (st : S) (name : SenderKeyName)
    : S * list (outcome SignalProtocolError bytes) :=
  match l with
  | [] => (st, [])
  | b :: l =>
      let '(st, p) := group_decrypt b st name in
      let '(st, ps) := group_decrypt_all l st name in (st, p :: ps)
  end.

(** What deliveries in this order should give: each text once, then the error. *)
Fixpoint received (ps : list (bytes * bytes)) (D deliveries : list nat)
    : list (outcome SignalProtocolError bytes) :=
  match deliveries with
  | [] => []
  | i :: ds =>
      if decide (i ∈ D)
      then Err (DuplicatedMessage (Z.of_nat (highest D)) (Z.of_nat i)) :: received ps D ds
      else Ok (fst (ps !!! i)) :: received ps (i :: D) ds
  end.
(** The bytes delivered: messages of the sender by their position. *)
Definition deliver (ms : list SenderKeyMessage) (deliveries : list nat) : list bytes :=
  (fun i => default [] (skm_serialized <$> ms !! i)) <$> deliveries.

(** Storing with a working store. *)
Lemma store_then_ok {A} st name r (a : A) :
  store_then st name r a = (fst (store_sender_key st name r), Ok a).
Proof.
  unfold store_then. pose proof (store_ok st name r) as H.
  destruct (store_sender_key st name r). cbn in *. by rewrite H.
Qed.

Lemma group_encrypt_all_spec id i0 seed key name ps : forall st n rest,
  private_wf key -> in_range 32 id -> zlen seed = 32 -> 0 <= i0 ->
  i0 + Z.of_nat (n + length ps) <= U32_MAX ->
  load_sender_key st name = Ok (Some (send_state id i0 seed key n :: rest)) ->
  exists ms, snd (group_encrypt_all st name ps) = Ok <$> ms /\ length ms = length ps
    /\ forall j p m, ps !! j = Some p -> ms !! j = Some m ->
         sent id i0 seed key (n + j) (fst p) m.
Proof.
  induction ps as [|[p rnd] ps IH]; intros st n rest Hk Hid Hs Hi0 Hmax Hload; cbn [group_encrypt_all].
  { by exists []. }
  cbn [length] in Hmax.
  destruct (encrypt_with_spec id i0 seed key n rest p rnd) as (m & He & Hm); [done..|lia|].
  unfold group_encrypt, load_existing. rewrite Hload. cbn [ok_or mbind outcome_bind and_then].
  rewrite He. cbn [and_then]. rewrite store_then_ok.
  set (st' := fst _).
  destruct (IH st' (Datatypes.S n) rest) as (ms & Hms & Hl & Hall); [done..|lia| |].
  { apply load_stored. }
  destruct (group_encrypt_all st' name ps) as [st'' l]. cbn [snd] in *. subst l.
  exists (m :: ms). split; [done|]. split; [cbn; by rewrite Hl|].
  intros [|j] q m'; cbn.
  - intros [= <-] [= <-]. by rewrite Nat.add_0_r.
  - intros Hq Hm'. rewrite <- Nat.add_succ_comm. by apply Hall.
Qed.

Lemma group_decrypt_all_spec id seed key name (ps : list (bytes * bytes)) ms ds : forall st D rest,
  private_wf key -> zlen seed = 32 -> (length ps <= 2051)%nat -> length ms = length ps ->
  (forall j p m, ps !! j = Some p -> ms !! j = Some m -> sent id 0 seed key j (fst p) m) ->
  Forall (fun i => (i < length ps)%nat) ds ->
  load_sender_key st name = Ok (Some (recv_state 0 seed (recv_base id key) D (highest D) :: rest)) ->
  snd (group_decrypt_all (deliver ms ds) st name) = received ps D ds.
Proof.
  induction ds as [|i ds IH]; intros st D rest Hk Hs Hps Hlen Hall Hds Hload; [done|].
  apply Forall_cons in Hds as [Hi Hds].
  destruct (lookup_lt_is_Some_2 ps i Hi) as [p Hp].
  destruct (lookup_lt_is_Some_2 ms i) as [m Hm]; [lia|].
  pose proof (Hall i p m Hp Hm) as Hsent.
  change (deliver ms (i :: ds)) with (default [] (skm_serialized <$> ms !! i) :: deliver ms ds).
  rewrite Hm. cbn [group_decrypt_all received]. change (default [] (skm_serialized <$> Some m)) with (skm_serialized m).
  unfold group_decrypt. rewrite (sent_parses _ _ _ _ _ _ _ Hsent).
  unfold load_existing. rewrite Hload. cbn [ok_or mbind outcome_bind and_then].
  rewrite (decrypt_with_spec id 0 seed key D (highest D) i (fst p) m rest)
    by (done || lia || apply highest_bound || (unfold U32_MAX; lia)).
  rewrite (list_lookup_total_correct _ _ _ Hp).
  destruct (decide (i ∈ D)) as [Hin|Hin]; cbn [and_then].
  - specialize (IH st D rest). destruct (group_decrypt_all (deliver ms ds) st name). cbn [snd] in *.
    f_equal. by apply IH.
  - rewrite store_then_ok. set (st' := fst _).
    specialize (IH st' (i :: D) rest). destruct (group_decrypt_all (deliver ms ds) st' name).
    cbn [snd] in *. f_equal. apply IH; [done..|]. apply load_stored.
Qed.

(** A chain id nobody uses yet: the new state goes in front, and a record keeps five. *)
Lemma add_new_state (r : list SenderKeyState) id it seed pk sk :
  Forall (fun s => chain_id s <> id) r -> zlen seed = 32 ->
  add_sender_key_state r id it seed pk sk
  = s ← sender_key_state_new id it seed pk sk; Ok (s :: take 4 r).
Proof.
  intros Hr Hs. unfold add_sender_key_state.
  assert (Hrem : remove_state r id pk = (None, r)).
  { induction Hr as [|s r Hs' Hr IH]; [done|]. cbn [remove_state].
    destruct (Z.eqb_spec (chain_id s) id); [done|]. cbn [andb]. by rewrite IH. }
  rewrite Hrem. assert (Hfil : remove_states_with_chain_id r id = r).
  { induction Hr as [|s r Hs' Hr IH]; [done|]. unfold remove_states_with_chain_id. cbn [List.filter].
    destruct (Z.eqb_spec (chain_id s) id); [done|]. cbn [negb]. f_equal.
    apply IH. cbn [remove_state] in Hrem. destruct (Z.eqb_spec (chain_id s) id); [done|].
    cbn [andb] in Hrem. destruct (remove_state r id pk). by inversion Hrem. }
  by rewrite Hfil.
Qed.

Lemma skdm_roundtrip id it seed pk :
  in_range 32 id -> in_range 32 it -> zlen seed = 32 -> public_wf pk ->
  skdm_try_from (skdm_serialized (skdm_new 3 id it seed pk)) = Ok (skdm_new 3 id it seed pk).
Proof.
  intros Hid Hit Hs Hpk. unfold skdm_new at 1. cbn [skdm_serialized].
  change (Z.lor _ SENDERKEY_MESSAGE_CURRENT_VERSION) with 51.
  unfold skdm_try_from. rewrite zlen_cons.
  pose proof (skdm_len id it seed (public_serialize pk)) as Hlen.
  assert (Hpl : zlen (public_serialize pk) = 33)
    by (unfold public_serialize; rewrite zlen_cons; unfold public_wf in Hpk; lia).
  destruct (Z.ltb_spec (1 + zlen (encode_skdm id it seed (public_serialize pk))) (1 + 32 + 32));
    [lia|].
  cbn [hd]. change (check_version (Z.shiftr 51 4)) with (@Ok SignalProtocolError _ tt).
  cbn [mbind outcome_bind]. change (from 1 (51 :: ?x)) with x. rewrite skdm_inverse by done.
  cbn [ok_or mbind outcome_bind]. rewrite Hs, Hpl. cbn [Z.eqb Pos.eqb negb orb].
  rewrite public_roundtrip by done. done.
Qed.

(** The sender's first distribution message, and what each end stores of it. *)
Lemma create_fresh name st rnd :
  let id := Z.shiftr (rnd_chain_id rnd) 1 in
  let key := kp_private (keypair_generate (rnd_signing rnd)) in
  zlen (rnd_sender_key rnd) = 32 ->
  kp_public (keypair_generate (rnd_signing rnd)) = public_key key ->
  load_sender_key st name = Ok None ->
  create_sender_key_distribution_message name st rnd
  = (fst (store_sender_key st name [send_state id 0 (rnd_sender_key rnd) key 0]),
     Ok (skdm_new 3 id 0 (rnd_sender_key rnd) (public_key key))).
Proof.
  intros id key Hsk Hpub Hload. unfold create_sender_key_distribution_message.
  rewrite Hload. cbn [and_then]. fold id. rewrite Hpub. fold key.
  rewrite add_new_state by done. unfold sender_key_state_new.
  rewrite Hsk. cbn [Z.eqb Pos.eqb mbind outcome_bind and_then take].
  unfold build_skdm_from_record. cbn [sender_key_state head ok_or mbind outcome_bind].
  change (sender_chain_key _)
    with (sender_chain_key (recv_state 0 (rnd_sender_key rnd) (recv_base id key) [] 0)).
  rewrite recv_chain by done. cbn [ok_or mbind outcome_bind].
  unfold signing_key_public. cbn [signing_proto sp_public mbind option_bind].
  rewrite public_roundtrip by apply public_key_wf. cbn [ok ok_or mbind outcome_bind and_then].
  by rewrite store_then_ok.
Qed.

Lemma process_fresh name st id seed key r :
  zlen seed = 32 -> load_sender_key st name = Ok r ->
  Forall (fun s => chain_id s <> id) (default [] r) ->
  process_sender_key_distribution_message name (skdm_new 3 id 0 seed (public_key key)) st
  = (fst (store_sender_key st name
            (recv_state 0 seed (recv_base id key) [] 0 :: take 4 (default [] r))), Ok tt).
Proof.
  intros Hs Hload Hr. unfold process_sender_key_distribution_message. rewrite Hload.
  cbn [and_then]. rewrite add_new_state by done. unfold sender_key_state_new.
  cbn [skdm_new skdm_chain_key]. rewrite Hs. cbn [Z.eqb Pos.eqb mbind outcome_bind and_then].
  by rewrite store_then_ok.
Qed.

(** C31: a group conversation.  A sender without a record creates its chain; its distribution
    message survives the wire and is accepted by a receiver that has no state of this chain
    id.  Of up to 2051 messages encrypted in sequence, delivered in any order, with any of
    them lost and any repeated, each gives its own text the first time it is delivered, and
    every later time [DuplicatedMessage] with the receiver's position. *)
Theorem group_end_to_end name (alice bob : S) rnd (ps : list (bytes * bytes)) deliveries r :
  in_range 32 (rnd_chain_id rnd) -> zlen (rnd_sender_key rnd) = 32 ->
  zlen (rnd_signing rnd) = 32 -> are_bytes (rnd_signing rnd) ->
  load_sender_key alice name = Ok None -> load_sender_key bob name = Ok r ->
  Forall (fun s => chain_id s <> Z.shiftr (rnd_chain_id rnd) 1) (default [] r) ->
  (length ps <= 2051)%nat -> Forall (fun i => (i < length ps)%nat) deliveries ->
  exists alice' skdm bob' ms,
    create_sender_key_distribution_message name alice rnd = (alice', Ok skdm)
    /\ skdm_try_from (skdm_serialized skdm) = Ok skdm
    /\ process_sender_key_distribution_message name skdm bob = (bob', Ok tt)
    /\ snd (group_encrypt_all alice' name ps) = Ok <$> ms
    /\ snd (group_decrypt_all (deliver ms deliveries) bob' name) = received ps [] deliveries.
Proof.
  intros Hrid Hsk Hsg Hsb Ha Hb Hr Hps Hds.
  set (id := Z.shiftr (rnd_chain_id rnd) 1) in *.
  destruct (keypair_generate_wf (rnd_signing rnd) Hsg Hsb) as [Hk Hpub].
  set (key := kp_private (keypair_generate (rnd_signing rnd))) in *.
  set (seed := rnd_sender_key rnd) in *.
  assert (Hid : in_range 32 id).
  { unfold id, in_range in *. rewrite Z.shiftr_div_pow2 by lia. change (2 ^ 1) with 2.
    split; [apply Z.div_pos; lia|]. apply Z.div_lt_upper_bound; lia. }
  pose proof (create_fresh name alice rnd Hsk Hpub Ha) as Hcreate.
  pose proof (process_fresh name bob id seed key r Hsk Hb Hr) as Hproc.
  fold id key seed in Hcreate. set (alice' := fst _) in Hcreate. set (bob' := fst _) in Hproc.
  destruct (group_encrypt_all_spec id 0 seed key name ps alice' 0 []) as (ms & Hms & Hl & Hall);
    [done..|unfold U32_MAX; lia|apply load_stored|].
  eexists alice', _, bob', ms. split; [exact Hcreate|]. split_and!; [|done..|].
  - apply skdm_roundtrip; [done|unfold in_range; lia|done|apply public_key_wf].
  - eapply (group_decrypt_all_spec id seed key name ps ms); [done..|exact Hall|done|apply load_stored].
Qed.
End Group.

(** ** Any state: keys are used once, and nothing grows without bound *)

Lemma Forall_sublist {A} (P : A -> Prop) l k : sublist k l -> Forall P l -> Forall P k.
Proof. rewrite !Forall_forall. intros H Hl x Hx. apply Hl. by eapply elem_of_sublist. Qed.
Lemma sublist_fmap {A B} (f : A -> B) l k : sublist k l -> sublist (f <$> k) (f <$> l).
Proof. induction 1; by constructor. Qed.

Section Invariant.
Context {DK : Dalek} {SC : SignalCrypto} {SL : SignalLaws}.

Definition pb_iter (k : SmkProto) : Z := default 0 (pb_iteration k).

(** The keys kept for a chain at position [it]: of distinct earlier messages, of the right
    width, and not many. *)
Record keys_ok (it : Z) (l : list SmkProto) : Prop := {
  keys_before : Forall (fun k => pb_iter k < it) l;
  keys_distinct : NoDup (pb_iter <$> l);
  keys_seeds : Forall (fun k => zlen (default [] (pb_seed k)) = 32) l;
  keys_few : zlen l <= MAX_MESSAGE_KEYS + MESSAGE_KEY_PRUNE_THRESHOLD
}.
Definition state_ok (s : SenderKeyState) : Prop :=
  forall c, sender_chain_key s = Some c -> keys_ok (sck_iteration c) (message_keys s).
(** The message [j] has been asked for: its key is in no state to come. *)
Definition used (j : Z) (s : SenderKeyState) : Prop :=
  exists c, sender_chain_key s = Some c /\ j < sck_iteration c /\ j ∉ pb_iter <$> message_keys s.

Lemma keys_ok_mono it it' l : it <= it' -> keys_ok it l -> keys_ok it' l.
Proof. intros H [Hb]. constructor; try done. eapply Forall_impl; [exact Hb|]. cbn. lia. Qed.

Lemma keys_ok_sublist it l k : sublist k l -> keys_ok it l -> keys_ok it k.
Proof.
  intros H [H1 H2 H3 H4]. constructor.
  - by eapply Forall_sublist.
  - eapply sublist_NoDup; [done|]. by apply sublist_fmap.
  - by eapply Forall_sublist.
  - apply sublist_length in H. unfold zlen in *. lia.
Qed.

Lemma remove_first_Some i l x rest :
  remove_first i l = Some (x, rest) ->
  exists pre post, l = pre ++ x :: post /\ rest = pre ++ post /\ pb_iter x = i.
Proof.
  revert x rest. induction l as [|y l IH]; intros x rest; cbn [remove_first]; [done|].
  fold (pb_iter y). destruct (Z.eqb_spec (pb_iter y) i) as [Heq|_].
  - intros [= <- <-]. by exists [], l.
  - destruct (remove_first i l) as [[k r]|]; [|done]. cbn. intros [= <- <-].
    destruct (IH k r eq_refl) as (pre & post & -> & -> & H). by exists (y :: pre), post.
Qed.
Lemma remove_first_None i l : i ∉ pb_iter <$> l -> remove_first i l = None.
Proof.
  induction l as [|y l IH]; cbn [remove_first]; [done|].
  rewrite fmap_cons, not_elem_of_cons. intros [Hne H]. fold (pb_iter y).
  destruct (Z.eqb_spec (pb_iter y) i); [done|]. by rewrite IH.
Qed.

(** Caching the key of the current position. *)
Lemma add_key_ok it s k :
  smk_iteration k = it -> zlen (smk_seed k) = 32 -> keys_ok it (message_keys s) ->
  let l := message_keys (add_sender_message_key s k) in
  keys_ok (it + 1) l /\ (forall j, j ∉ pb_iter <$> message_keys s -> j <> it -> j ∉ pb_iter <$> l).
Proof.
  intros Hit Hseed [H1 H2 H3 H4]. cbv zeta. unfold add_sender_message_key.
  cbn [set_message_keys message_keys]. set (l := message_keys s ++ [smk_as_protobuf k]).
  assert (Hk : pb_iter (smk_as_protobuf k) = it) by done.
  assert (Hb : Forall (fun x => pb_iter x < it + 1) l).
  { apply Forall_app. split; [eapply Forall_impl; [exact H1|]; cbn; lia|]. repeat constructor. lia. }
  assert (Hd : NoDup (pb_iter <$> l)).
  { unfold l. rewrite fmap_app. apply NoDup_app. split_and!; [done| |apply NoDup_singleton].
    intros x (y & -> & Hy)%list_elem_of_fmap Hx%list_elem_of_singleton.
    rewrite Forall_forall in H1. specialize (H1 y Hy). cbn beta in H1. lia. }
  assert (Hs : Forall (fun x => zlen (default [] (pb_seed x)) = 32) l)
    by (apply Forall_app; split; [done|by repeat constructor]).
  assert (Hn : forall j, j ∉ pb_iter <$> message_keys s -> j <> it -> j ∉ pb_iter <$> l).
  { intros j Hj Hne. unfold l. rewrite fmap_app, not_elem_of_app. split; [done|].
    intros Hx%list_elem_of_singleton. congruence. }
  destruct (Z.ltb_spec (MAX_MESSAGE_KEYS + MESSAGE_KEY_PRUNE_THRESHOLD) (zlen l)) as [Hlt|Hge];
    [|split; [by constructor|done]].
  split.
  - constructor; [by apply Forall_drop| |by apply Forall_drop|].
    + rewrite fmap_drop. eapply sublist_NoDup; [done|]. apply sublist_drop.
    + unfold zlen, MAX_MESSAGE_KEYS, MESSAGE_KEY_PRUNE_THRESHOLD in *. rewrite length_drop. lia.
  - intros j Hj Hne Hin. apply (Hn j Hj Hne). rewrite fmap_drop in Hin.
    eapply elem_of_sublist; [done|]. apply sublist_drop.
Qed.

Lemma step_inv c k c' :
  step_with_message_key c = Ok (k, c') ->
  smk_iteration k = sck_iteration c /\ zlen (smk_seed k) = 32
  /\ sck_iteration c' = sck_iteration c + 1 /\ zlen (sck_chain_key c') = 32.
Proof.
  unfold step_with_message_key, checked_add_1. destruct (_ =? _); [done|]. cbn.
  intros [= <- <-]. cbn. split_and!; [done|apply hmac_signal_len|done|apply hmac_signal_len].
Qed.

Lemma chain_after_set s c :
  zlen (sck_chain_key c) = 32 -> sender_chain_key (set_sender_chain_key s c) = Some c.
Proof.
  intros H. destruct c as [it ck]. change (sender_chain_key _)
    with (if zlen ck =? 32 then Some (mkChain it ck) else None). cbn in H. by rewrite H.
Qed.

Lemma skip_to_ok fuel : forall s c i s' k,
  keys_ok (sck_iteration c) (message_keys s) -> sck_iteration c <= i ->
  skip_to fuel s c i = Ok (s', k) ->
  sender_key_id s' = sender_key_id s /\ keys_ok (i + 1) (message_keys s')
  /\ exists c', sender_chain_key s' = Some c' /\ sck_iteration c' = i + 1
     /\ forall j, j ∉ pb_iter <$> message_keys s -> j < sck_iteration c \/ j = i ->
                  j ∉ pb_iter <$> message_keys s'.
Proof.
  induction fuel as [|fuel IH]; intros s c i s' k Hk Hle; cbn [skip_to]; [done|].
  destruct (Z.ltb_spec (sck_iteration c) i) as [Hlt|Hge];
    destruct (step_with_message_key c) as [[k1 c1]| | |] eqn:Hstep; try done;
    cbn [mbind outcome_bind]; apply step_inv in Hstep as (Hi & Hseed & Hn & Hlen).
  - destruct (add_key_ok _ s k1 Hi Hseed Hk) as [Hk1 Hj1]. rewrite <- Hn in Hk1.
    intros H. destruct (IH _ c1 i s' k Hk1 ltac:(lia) H) as (Hid & Hk' & c' & Hc' & Hit & Hj').
    split; [done|]. split; [done|]. exists c'. split_and!; [done..|].
    intros j Hj Hb. apply Hj'; [apply Hj1; [done|lia]|lia].
  - assert (i = sck_iteration c) as -> by lia. intros [= <- <-].
    split; [done|]. cbn [set_sender_chain_key message_keys]. split.
    + eapply keys_ok_mono; [|done]. lia.
    + exists c1. split_and!; [by apply chain_after_set|done|by intros].
Qed.

(** Every request keeps the state well formed, marks its message as used, and leaves the
    used messages used. *)
Lemma get_sender_key_ok s i s' k :
  state_ok s -> get_sender_key s i = Ok (s', k) ->
  sender_key_id s' = sender_key_id s /\ state_ok s' /\ used i s'
  /\ forall j, used j s -> used j s'.
Proof.
  intros Hok. unfold get_sender_key. destruct (sender_chain_key s) as [c|] eqn:Hc; [|done].
  cbn [ok_or mbind outcome_bind]. specialize (Hok c Hc).
  destruct (Z.ltb_spec i (sck_iteration c)) as [Hlt|Hge].
  - unfold remove_sender_message_key.
    destruct (remove_first i (message_keys s)) as [[x rest]|] eqn:Hr; [|done].
    apply remove_first_Some in Hr as (pre & post & Hl & -> & Hx).
    destruct (smk_from_protobuf x) as [smk| | |]; try done. cbn. intros [= <- <-].
    assert (Hsub : sublist (pre ++ post) (message_keys s)).
    { rewrite Hl. apply sublist_app; [done|]. by apply sublist_cons. }
    assert (Hc' : sender_chain_key (set_message_keys s (pre ++ post)) = Some c) by exact Hc.
    split; [done|]. split_and!.
    + intros c2. rewrite Hc'. intros [= <-]. by eapply keys_ok_sublist.
    + exists c. split_and!; [done..|]. cbn [set_message_keys message_keys].
      destruct Hok as [_ Hd _ _]. rewrite Hl, fmap_app, fmap_cons, Hx in Hd.
      apply NoDup_app in Hd as (_ & Hd1 & [Hd2 _]%NoDup_cons). rewrite fmap_app, not_elem_of_app.
      split; [|done]. intros Hin. eapply Hd1; [done|left].
    + intros j (c2 & Hc2 & Hj & Hn). exists c. rewrite Hc in Hc2. injection Hc2 as <-.
      split_and!; [done..|]. intros Hin. apply Hn. eapply elem_of_sublist; [done|].
      by apply sublist_fmap.
  - destruct (_ <? _); [done|]. intros H.
    destruct (skip_to_ok _ _ _ _ _ _ Hok Hge H) as (Hid & Hk & c' & Hc' & Hit & Hj).
    assert (Hnew : i ∉ pb_iter <$> message_keys s).
    { intros (y & -> & Hy)%list_elem_of_fmap. destruct Hok as [Hb _ _ _].
      rewrite Forall_forall in Hb. specialize (Hb y Hy). lia. }
    split; [done|]. split_and!.
    + intros c2. rewrite Hc'. intros [= <-]. by rewrite Hit.
    + exists c'. split_and!; [done|lia|]. apply Hj; [done|by right].
    + intros j (c2 & Hc2 & Hlt & Hn). rewrite Hc in Hc2. injection Hc2 as <-.
      exists c'. split_and!; [done|lia|]. apply Hj; [done|by left].
Qed.

(** The states a state can become by further requests. *)
Inductive advance : SenderKeyState -> SenderKeyState -> Prop :=
  | advance_refl s : advance s s
  | advance_get s j s1 k s2 : get_sender_key s j = Ok (s1, k) -> advance s1 s2 -> advance s s2.

Lemma advance_used s s' : advance s s' -> forall j, state_ok s -> used j s -> state_ok s' /\ used j s'.
Proof.
  induction 1 as [s|s j' s1 k s2 Hget Hadv IH]; intros j Hok Hu; [done|].
  destruct (get_sender_key_ok _ _ _ _ Hok Hget) as (_ & Hok1 & _ & Hkeep).
  apply IH; [done|]. by apply Hkeep.
Qed.

(** A message key is handed out once.  After a state has given the key of a message, no
    further requests, of whatever messages in whatever number, make it give a key for that
    message again: the request is refused as a duplicate. *)
Lemma message_key_once s i s1 k s2 :
  state_ok s -> get_sender_key s i = Ok (s1, k) -> advance s1 s2 ->
  exists current, i < current /\ get_sender_key s2 i = Err (DuplicatedMessage current i).
Proof.
  intros Hok Hget Hadv. destruct (get_sender_key_ok _ _ _ _ Hok Hget) as (_ & Hok1 & Hu & _).
  destruct (advance_used _ _ Hadv i Hok1 Hu) as [_ (c & Hc & Hlt & Hn)].
  exists (sck_iteration c). split; [done|]. unfold get_sender_key. rewrite Hc.
  cbn [ok_or mbind outcome_bind]. destruct (Z.ltb_spec i (sck_iteration c)); [|lia].
  unfold remove_sender_message_key. by rewrite remove_first_None.
Qed.
End Invariant.

Section Bounded.
Context {DK : Dalek} {SC : SignalCrypto} {SL : SignalLaws}.
Context {S : Type} {ST : SenderKeyStore S} {STL : SenderKeyStoreLaws S}.

(** At most five chains, of different ids, each with few keys. *)
Record record_ok (r : list SenderKeyState) : Prop := {
  record_few : zlen r <= MAX_SENDER_KEY_STATES;
  record_distinct : NoDup (chain_id <$> r);
  record_states : Forall state_ok r
}.

Lemma encrypt_with_ok r p random r' m :
  record_ok r -> encrypt_with r p random = Ok (r', m) -> record_ok r'.
Proof.
  intros [Hf Hd Hs] H. destruct r as [|s r]; [done|]. cbn [encrypt_with] in H.
  destruct (sender_chain_key s) as [c|] eqn:Hc; [|done]. cbn [ok_or mbind outcome_bind] in H.
  destruct (step_with_message_key c) as [[k c']| | |] eqn:Hstep; try done. cbn [mbind outcome_bind] in H.
  destruct (ok_or (aes_256_cbc_encrypt_into _ _ _ _) _) as [ct| | |]; try done. cbn [mbind outcome_bind] in H.
  destruct (ok_or (signing_key_private s) _) as [sk| | |]; try done. cbn [mbind outcome_bind] in H.
  destruct (sender_key_message_new _ _ _ _ _ _); try done. cbn [mbind outcome_bind] in H.
  injection H as <- _. apply step_inv in Hstep as (_ & _ & Hn & Hl).
  apply Forall_cons in Hs as [Hs Hr]. constructor; [done..|]. constructor; [|done].
  intros c2. rewrite chain_after_set by done. intros [= <-]. cbn [set_sender_chain_key message_keys].
  eapply keys_ok_mono; [|by apply Hs]. lia.
Qed.

Lemma state_for_chain_put r id s put s' :
  sender_key_state_for_chain_id r id = Some (s, put) ->
  s ∈ r /\ zlen (put s') = zlen r
  /\ (chain_id s' = chain_id s -> chain_id <$> put s' = chain_id <$> r)
  /\ (state_ok s' -> Forall state_ok r -> Forall state_ok (put s')).
Proof.
  revert put. induction r as [|x r IH]; intros put; cbn [sender_key_state_for_chain_id]; [done|].
  destruct (chain_id x =? id).
  - intros [= <- <-]. split_and!; [left|done| |].
    + intros Heq. rewrite !fmap_cons. by rewrite Heq.
    + intros Hs [_ Hr]%Forall_cons. by constructor.
  - destruct (sender_key_state_for_chain_id r id) as [[y put']|]; [|done]. cbn.
    intros [= -> <-]. destruct (IH put' eq_refl) as (Hin & Hl & Hc & Hf). split_and!.
    + by right.
    + rewrite !zlen_cons. by rewrite Hl.
    + intros Heq. rewrite fmap_cons. by rewrite Hc.
    + intros Hs [Hx Hr]%Forall_cons. constructor; [done|]. by apply Hf.
Qed.

Lemma decrypt_with_ok r m r' p :
  record_ok r -> decrypt_with r m = Ok (r', p) -> record_ok r'.
Proof.
  intros [Hf Hd Hs]. unfold decrypt_with.
  destruct (sender_key_state_for_chain_id r (skm_chain_id m)) as [[s put]|] eqn:Hfor; [|done].
  destruct (negb _); [done|]. destruct (ok_or (signing_key_verifier s) _); try done.
  cbn [mbind outcome_bind]. destruct (negb _); [done|].
  destruct (get_sender_key s (skm_iteration m)) as [[s' k]| | |] eqn:Hget; try done.
  cbn [mbind outcome_bind]. destruct (skm_ciphertext m); try done. cbn [mbind outcome_bind].
  destruct (map_err _ _); try done. cbn [mbind outcome_bind]. intros [= <- <-].
  destruct (state_for_chain_put _ _ _ _ s' Hfor) as (Hin & Hl & Hc & Hput).
  rewrite Forall_forall in Hs. destruct (get_sender_key_ok _ _ _ _ (Hs s Hin) Hget) as (Hid & Hok & _).
  constructor; [by rewrite Hl| |].
  - rewrite Hc; [done|]. unfold chain_id. by rewrite Hid.
  - apply Hput; [done|]. by apply Forall_forall.
Qed.

Lemma remove_state_spec r id pk :
  let '(x, rest) := remove_state r id pk in
  sublist rest r /\ (forall s, x = Some s -> s ∈ r /\ chain_id s = id).
Proof.
  induction r as [|s r IH]; cbn [remove_state]; [done|].
  destruct (Z.eqb_spec (chain_id s) id) as [Hid|]; cbn [andb].
  - destruct (bool_decide _).
    + split; [by constructor|]. intros x [= <-]. split; [left|done].
    + destruct (remove_state r id pk) as [x rest]. destruct IH as [Hsub Hx].
      split; [by constructor|]. intros y Hy. destruct (Hx y Hy). split; [by right|done].
  - destruct (remove_state r id pk) as [x rest]. destruct IH as [Hsub Hx].
    split; [by constructor|]. intros y Hy. destruct (Hx y Hy). split; [by right|done].
Qed.

Lemma remove_states_spec r id :
  sublist (remove_states_with_chain_id r id) r
  /\ id ∉ chain_id <$> remove_states_with_chain_id r id.
Proof.
  unfold remove_states_with_chain_id. induction r as [|s r [Hsub Hn]]; cbn [List.filter].
  { split; [done|]. apply not_elem_of_nil. }
  destruct (Z.eqb_spec (chain_id s) id); cbn [negb].
  - split; [by constructor|done].
  - split; [by constructor|]. rewrite fmap_cons, not_elem_of_cons. done.
Qed.

Lemma new_state_ok id it ck pk sk s :
  sender_key_state_new id it ck pk sk = Ok s -> chain_id s = id /\ state_ok s.
Proof.
  unfold sender_key_state_new. destruct (_ =? _); [|done]. intros [= <-]. split; [done|].
  intros c _. by constructor; [..|constructor|constructor|].
Qed.

Lemma add_sender_key_state_ok r id it ck pk sk r' :
  record_ok r -> add_sender_key_state r id it ck pk sk = Ok r' -> record_ok r'.
Proof.
  intros [Hf Hd Hs]. unfold add_sender_key_state.
  pose proof (remove_state_spec r id pk) as Hrem.
  destruct (remove_state r id pk) as [x rest]. destruct Hrem as [Hsub Hx].
  destruct (remove_states_spec rest id) as [Hsub2 Hn].
  set (r2 := remove_states_with_chain_id rest id) in *.
  assert (Hsub3 : sublist (take (Z.to_nat (MAX_SENDER_KEY_STATES - 1)) r2) r)
    by (etrans; [apply sublist_take|]; by etrans).
  intros H. apply bind_Ok_inv in H as (s & Hnew & [= <-]).
  assert (Hs' : chain_id s = id /\ state_ok s).
  { destruct x as [y|]; [|by eapply new_state_ok]. injection Hnew as <-.
    destruct (Hx y eq_refl) as [Hin Hid]. split; [done|]. rewrite Forall_forall in Hs. by apply Hs. }
  destruct Hs' as [Hid Hok]. constructor.
  - rewrite zlen_cons. unfold zlen, MAX_SENDER_KEY_STATES. rewrite length_take. lia.
  - rewrite fmap_cons. apply NoDup_cons. split.
    + rewrite Hid. intros Hin. apply Hn. rewrite fmap_take in Hin.
      eapply elem_of_sublist; [exact Hin|]. apply sublist_take.
    + eapply sublist_NoDup; [exact Hd|]. by apply sublist_fmap.
  - constructor; [done|]. by eapply Forall_sublist.
Qed.

(** What can happen to a store. *)
Inductive group_op : Type :=
  | OpEncrypt (plaintext random : bytes)
  | OpDecrypt (skm_bytes : bytes)
  | OpProcess (skdm : SenderKeyDistributionMessage)
  | OpCreate (rnd : SkdmRandom).
Definition run_op (st : S) (name : SenderKeyName) (op : group_op) : S :=
  match op with
  | OpEncrypt p random => fst (group_encrypt st name p random)
  | OpDecrypt b => fst (group_decrypt b st name)
  | OpProcess skdm => fst (process_sender_key_distribution_message name skdm st)
  | OpCreate rnd => fst (create_sender_key_distribution_message name st rnd)
  end.
Definition run_ops (st : S) (ops : list (SenderKeyName * group_op)) : S :=
  fold_left (fun st o => run_op st (fst o) (snd o)) ops st.

(** An operation leaves the store or stores one record made from the one loaded. *)
Definition touches (st st' : S) (name : SenderKeyName) : Prop :=
  st' = st
  \/ exists r, st' = fst (store_sender_key st name r)
     /\ (forall r0, load_sender_key st name = Ok r0 -> record_ok (default [] r0) -> record_ok r).

Lemma touches_store {A} st name r (a : A) :
  (forall r0, load_sender_key st name = Ok r0 -> record_ok (default [] r0) -> record_ok r) ->
  touches st (fst (store_then st name r a)) name.
Proof.
  intros H. right. exists r. split; [|done]. unfold store_then.
  by destruct (store_sender_key st name r).
Qed.
Lemma touches_and_then {A B} st (m : outcome SignalProtocolError A)
    (f : A -> S * outcome SignalProtocolError B) name :
  (forall a, m = Ok a -> touches st (fst (f a)) name) -> touches st (fst (and_then st m f)) name.
Proof. intros H. destruct m; [by apply H|by left..]. Qed.

Lemma run_op_touches st name op : touches st (run_op st name op) name.
Proof.
  assert (Hld : forall r r0, load_existing st name = Ok r -> load_sender_key st name = Ok r0 ->
                r0 = Some r).
  { intros r r0. unfold load_existing. destruct (load_sender_key st name) as [[x|]| | |]; try done.
    cbn. congruence. }
  destruct op as [p random|b|skdm|rnd]; cbn [run_op].
  - apply touches_and_then. intros r Hr. apply touches_and_then. intros [r' m] He.
    apply touches_store. intros r0 H0 Hok. rewrite (Hld _ _ Hr H0) in Hok.
    by eapply encrypt_with_ok.
  - apply touches_and_then. intros m _. apply touches_and_then. intros r Hr.
    apply touches_and_then. intros [r' p] He. apply touches_store. intros r0 H0 Hok.
    rewrite (Hld _ _ Hr H0) in Hok. by eapply decrypt_with_ok.
  - apply touches_and_then. intros r Hr. apply touches_and_then. intros r' He.
    apply touches_store. intros r0 H0 Hok. rewrite Hr in H0. injection H0 as <-.
    by eapply add_sender_key_state_ok.
  - apply touches_and_then. intros [r|] Hr; [by left|]. apply touches_and_then. intros r' He.
    apply touches_and_then. intros skdm _. apply touches_store. intros r0 H0 Hok.
    rewrite Hr in H0. injection H0 as <-. by eapply add_sender_key_state_ok.
Qed.

(** Every record of a store is well formed. *)
Definition store_wf (st : S) : Prop :=
  forall name r, load_sender_key st name = Ok (Some r) -> record_ok r.

Lemma record_ok_nil : record_ok [].
Proof. constructor; [done|constructor|constructor]. Qed.

(** Records stay small.  Whatever sequence of messages, distribution messages and own
    operations a store sees, genuine or forged, every record keeps at most five chains, of
    distinct ids, and each chain at most 2050 message keys, of distinct messages before the
    chain's position. *)
Lemma records_bounded st ops : store_wf st -> store_wf (run_ops st ops).
Proof.
  revert st. induction ops as [|[name op] ops IH]; intros st Hst; [done|]. apply IH. cbn [fst snd].
  destruct (run_op_touches st name op) as [->|(r & -> & Hr)]; [done|].
  intros name' r'. destruct (decide (name = name')) as [<-|Hne].
  - rewrite load_stored. intros [= <-]. destruct (load_ok st name) as [r0 H0].
    apply (Hr r0 H0). destruct r0 as [r0|]; [by apply (Hst name)|apply record_ok_nil].
  - rewrite load_other by done. apply Hst.
Qed.
End Bounded.

Section Authentic.
Context {DK : Dalek} {SC : SignalCrypto} {S : Type} {ST : SenderKeyStore S}.
Context {STL : SenderKeyStoreLaws S}.

Lemma state_for_chain_id_In r id s put :
  sender_key_state_for_chain_id r id = Some (s, put) -> s ∈ r /\ chain_id s = id.
Proof.
  revert put. induction r as [|x r IH]; intros put; cbn [sender_key_state_for_chain_id]; [done|].
  destruct (Z.eqb_spec (chain_id x) id) as [Heq|].
  - intros [= <- _]. split; [left|done].
  - destruct (sender_key_state_for_chain_id r id) as [[y put']|]; [|done]. cbn.
    intros [= -> _]. destruct (IH put' eq_refl). split; [by right|done].
Qed.

(** A text is only returned for a message that parses, whose chain the record knows and
    whose signature the plain verifier accepts under that chain's key; every refusal leaves
    the store as it was, whatever keys were derived on the way. *)
Lemma group_decrypt_authentic b (st : S) name :
  match group_decrypt b st name with
  | (_, Ok _) =>
      exists skm r s pk, skm_try_from b = Ok skm /\ load_sender_key st name = Ok (Some r)
        /\ s ∈ r /\ chain_id s = skm_chain_id skm /\ signing_key_public s = Some pk
        /\ public_verify pk [upto (zlen b - SIGNATURE_LEN) b] (from (zlen b - SIGNATURE_LEN) b) = true
  | (st', _) => st' = st
  end.
Proof.
  unfold group_decrypt. destruct (skm_try_from b) as [skm| | |] eqn:Hb; try done.
  cbn [and_then]. unfold load_existing.
  destruct (load_sender_key st name) as [[r|]| | |] eqn:Hload; try done.
  cbn [ok_or mbind outcome_bind and_then].
  destruct (decrypt_with r skm) as [[r' p]| | |] eqn:Hd; try done. cbn [and_then].
  rewrite store_then_ok. revert Hd. unfold decrypt_with.
  destruct (sender_key_state_for_chain_id r (skm_chain_id skm)) as [[s put]|] eqn:Hfor; [|done].
  apply state_for_chain_id_In in Hfor as [Hin Hid].
  destruct (negb _); [done|]. unfold signing_key_verifier.
  destruct (signing_key_public s) as [pk|] eqn:Hpk; [|done]. cbn [fmap option_fmap option_map ok_or mbind outcome_bind].
  destruct (skm_verify skm (prepared_new pk)) eqn:Hv; [|done]. intros _.
  exists skm, r, s, pk. split_and!; try done.
  assert (Hser : skm_serialized skm = b) by (by apply skm_try_from_serialized).
  rewrite <- Hv. unfold skm_verify, skm_signed. rewrite Hser.
  destruct (prepared_verify_plain pk (prepared_new pk)
    [upto (zlen b - SIGNATURE_LEN) b] (from (zlen b - SIGNATURE_LEN) b)) as [-> _];
    [by constructor|done].
Qed.
End Authentic.

(** ** An instance *)

Definition ToyStore : Type := SenderKeyName -> option SenderKeyRecord.
#[export] Instance toy_store : SenderKeyStore ToyStore := {|
  load_sender_key st n := Ok (st n);
  store_sender_key st n r := (fun n' => if decide (n = n') then Some r else st n', Ok tt)
|}.
#[export] Instance toy_store_laws : SenderKeyStoreLaws ToyStore.
Proof.
  constructor; cbn.
  - eauto.
  - done.
  - intros. by rewrite decide_True.
  - intros. by rewrite decide_False.
Qed.

Definition toy_name : SenderKeyName := name_from_parts (str "1@g.us") (str "2.0").
Definition toy_random : SkdmRandom := mkSkdmRandom 10 (replicate 32 7) (replicate 32 9).
Definition toy_texts : list (bytes * bytes) :=
  [(str "one", []); (str "two", []); (str "three", [])].
Definition empty_store : ToyStore := fun _ => None.

Lemma group_end_to_end_witness :
  exists (alice' : ToyStore) skdm bob' ms,
    create_sender_key_distribution_message toy_name empty_store toy_random = (alice', Ok skdm)
    /\ skdm_try_from (skdm_serialized skdm) = Ok skdm
    /\ process_sender_key_distribution_message toy_name skdm empty_store = (bob', Ok tt)
    /\ snd (group_encrypt_all alice' toy_name toy_texts) = Ok <$> ms
    /\ snd (group_decrypt_all (deliver ms [2; 0; 2; 1]%nat) bob' toy_name)
       = [Ok (str "three"); Ok (str "one"); Err (DuplicatedMessage 3 2); Ok (str "two")].
Proof.
  apply (group_end_to_end toy_name empty_store empty_store toy_random toy_texts [2; 0; 2; 1]%nat None);
    [|done|done| |done|done|constructor| |]; apply (bool_decide_unpack _); by vm_compute.
Defined.

Definition toy_recv : SenderKeyState := recv_state 0 (replicate 32 7) (recv_base 5 toy_private) [] 0.

Lemma message_key_once_witness :
  match get_sender_key toy_recv 3 with
  | Ok (s1, _) => match get_sender_key s1 1 with
                  | Ok (s2, _) => exists current, 3 < current
                      /\ get_sender_key s2 3 = Err (DuplicatedMessage current 3)
                  | _ => False
                  end
  | _ => False
  end.
Proof.
  destruct (get_sender_key toy_recv 3) as [[s1 k1]| | |] eqn:H1; [|by vm_compute in H1..].
  destruct (get_sender_key s1 1) as [[s2 k2]| | |] eqn:H2.
  - apply (message_key_once toy_recv 3 s1 k1 s2); [|done|].
    + intros c _. by constructor; [..|constructor|constructor|].
    + eapply advance_get; [exact H2|apply advance_refl].
  - vm_compute in H1. injection H1 as <- <-. by vm_compute in H2.
  - vm_compute in H1. injection H1 as <- <-. by vm_compute in H2.
  - vm_compute in H1. injection H1 as <- <-. by vm_compute in H2.
Defined.

Lemma records_bounded_witness :
  store_wf (run_ops empty_store [(toy_name, OpCreate toy_random); (toy_name, OpEncrypt (str "one") [])]).
Proof. apply records_bounded. by intros name r. Defined.

Lemma group_decrypt_authentic_witness :
  match group_decrypt (str "noise") empty_store toy_name with
  | (_, Ok _) =>
      exists skm r s pk, skm_try_from (str "noise") = Ok skm
        /\ load_sender_key empty_store toy_name = Ok (Some r)
        /\ s ∈ r /\ chain_id s = skm_chain_id skm /\ signing_key_public s = Some pk
        /\ public_verify pk [upto (zlen (str "noise") - SIGNATURE_LEN) (str "noise")]
             (from (zlen (str "noise") - SIGNATURE_LEN) (str "noise")) = true
  | (st', _) => st' = empty_store
  end.
Proof. apply (group_decrypt_authentic (str "noise") empty_store toy_name). Defined.
