(* ===== verification/Ratchet.v ===== *)
(** * Ratchet keys

    [wacore/libsignal/src/protocol/ratchet/keys.rs]: message keys and their lazy generator,
    the symmetric chain, the root key that a Diffie-Hellman step turns into a new chain; and
    the derivation of [ratchet.rs]. *)

From stdpp Require Import prelude strings.
From S2P Require Import Prelude Noise Curve SignalBase.

#[local] Open Scope Z_scope.

(** [<[u8; N]>::try_from(slice).ok()] *)
Definition array (n : Z) (b : bytes) : option bytes := if zlen b =? n then Some b else None.

(** ** Message keys *)

Record MessageKeys : Type := mkKeys {
  cipher_key : bytes; mac_key : bytes; keys_iv : bytes; keys_counter : Z
}.
(** The protobuf form. *)
Record MessageKeyPb : Type := mkKeyPb {
  pb_cipher_key : option bytes; pb_mac_key : option bytes; pb_iv : option bytes;
  pb_index : option Z
}.
Inductive MessageKeyGenerator : Type :=
  | Keys (k : MessageKeys)
  | Seed (seed : bytes) (counter : Z)
  | Serialized (pb : MessageKeyPb).

Record ChainKey : Type := mkChainKey { chain_key_bytes : bytes; chain_index : Z }.
Record RootKey : Type := mkRootKey { root_key_bytes : bytes }.

Section Ratchet.
Context {DK : Dalek} {SC : SignalCrypto}.

Definition derive_keys (input_key_material : bytes) (optional_salt : option bytes) (counter : Z)
    : MessageKeys :=
  let okm :=
    match optional_salt with
    | None =>
        (** the extraction of the cached, zero-keyed HMAC *)
        let prk := hmac_sha256_signal (replicate 32 0) input_key_material in
        hkdf_expand_signal prk (str "WhisperMessageKeys") 80
    | Some salt => hkdf_signal (Some salt) input_key_material (str "WhisperMessageKeys") 80
    end in
  mkKeys (upto 32 okm) (upto 32 (from 32 okm)) (upto 16 (from 64 okm)) counter.

Definition generate_keys (g : MessageKeyGenerator) : MessageKeys :=
  match g with
  | Seed seed counter => derive_keys seed None counter
  | Keys k => k
  | Serialized pb =>
      mkKeys (default (replicate 32 0) (pb_cipher_key pb ≫= array 32))
        (default (replicate 32 0) (pb_mac_key pb ≫= array 32))
        (default (replicate 16 0) (pb_iv pb ≫= array 16))
        (default 0 (pb_index pb))
  end.
Definition into_pb (g : MessageKeyGenerator) : MessageKeyPb :=
  match g with
  | Serialized pb => pb
  | Seed _ _ | Keys _ =>
      let keys := generate_keys g in
      mkKeyPb (Some (cipher_key keys)) (Some (mac_key keys)) (Some (keys_iv keys))
        (Some (keys_counter keys))
  end.
Definition is_some_len (n : Z) (o : option bytes) : bool :=
  match o with Some b => zlen b =? n | None => false end.
(** [None] is the error "invalid message key format". *)
Definition from_pb (pb : MessageKeyPb) : option MessageKeyGenerator :=
  if is_some_len 32 (pb_cipher_key pb) && is_some_len 32 (pb_mac_key pb)
     && is_some_len 16 (pb_iv pb)
  then Some (Serialized pb) else None.
Definition generator_counter (g : MessageKeyGenerator) : Z :=
  match g with
  | Keys k => keys_counter k
  | Seed _ counter => counter
  | Serialized pb => default 0 (pb_index pb)
  end.

(** ** Chains *)

Definition MESSAGE_SEED : bytes := [1].
Definition CHAIN_SEED : bytes := [2].

Definition calculate_base_material (c : ChainKey) (seed : bytes) : bytes :=
  hmac_sha256_signal (chain_key_bytes c) seed.
Definition next_chain_key (c : ChainKey) : outcome SignalProtocolError ChainKey :=
  index ← ok_or (checked_add_1 (chain_index c)) InvalidState;
  Ok (mkChainKey (calculate_base_material c CHAIN_SEED) index).
Definition message_keys_of (c : ChainKey) : MessageKeyGenerator :=
  Seed (calculate_base_material c MESSAGE_SEED) (chain_index c).
Definition step_with_message_keys (c : ChainKey)
    : outcome SignalProtocolError (MessageKeyGenerator * ChainKey) :=
  let message_key_seed := hmac_sha256_signal (chain_key_bytes c) MESSAGE_SEED in
  let next_key := hmac_sha256_signal (chain_key_bytes c) CHAIN_SEED in
  index ← ok_or (checked_add_1 (chain_index c)) InvalidState;
  Ok (Seed message_key_seed (chain_index c), mkChainKey next_key index).

(** ** Root keys *)

Definition create_chain (r : RootKey) (their_ratchet_key : PublicKey) (our_ratchet_key : PrivateKey)
    : RootKey * ChainKey :=
  let shared_secret := calculate_agreement our_ratchet_key their_ratchet_key in
  let derived := hkdf_signal (Some (root_key_bytes r)) shared_secret (str "WhisperRatchet") 64 in
  (mkRootKey (upto 32 derived), mkChainKey (upto 32 (from 32 derived)) 0).

(** [derive_keys_with_label]; the third part, for post-quantum keys, is not used. *)
Definition derive_root_keys (label secret_input : bytes) : RootKey * ChainKey * bytes :=
  let secrets := hkdf_signal None secret_input label 96 in
  (mkRootKey (upto 32 secrets), mkChainKey (upto 32 (from 32 secrets)) 0,
   upto 32 (from 64 secrets)).

(** ** Lemmas *)

(** The combined step is the two single ones. *)
Lemma step_is_both c :
  step_with_message_keys c = (fun n => (message_keys_of c, n)) <$> next_chain_key c.
Proof.
  unfold step_with_message_keys, next_chain_key, checked_add_1.
  by destruct (chain_index c =? U32_MAX).
Qed.

(** Without a salt, the cached extraction is that of HKDF. *)
Lemma derive_keys_no_salt ikm counter :
  let okm := hkdf_signal None ikm (str "WhisperMessageKeys") 80 in
  derive_keys ikm None counter
  = mkKeys (upto 32 okm) (upto 32 (from 32 okm)) (upto 16 (from 64 okm)) counter.
Proof. done. Qed.

Context {SL : SignalLaws}.

Definition keys_wf (k : MessageKeys) : Prop :=
  zlen (cipher_key k) = 32 /\ zlen (mac_key k) = 32 /\ zlen (keys_iv k) = 16.

Lemma window_len n i l (b : bytes) : 0 <= i -> 0 <= n -> zlen b = l -> i + n <= l ->
  zlen (upto n (from i b)) = n.
Proof.
  intros Hi Hn Hb Hle. unfold zlen, upto, from in *. rewrite length_take, length_drop. lia.
Qed.
Lemma prefix_len n l (b : bytes) : 0 <= n -> zlen b = l -> n <= l -> zlen (upto n b) = n.
Proof. intros Hn Hb Hle. unfold zlen, upto in *. rewrite length_take. lia. Qed.

Lemma derive_keys_wf ikm salt counter : keys_wf (derive_keys ikm salt counter).
Proof.
  assert (H : forall okm : bytes, zlen okm = 80 ->
    zlen (upto 32 okm) = 32 /\ zlen (upto 32 (from 32 okm)) = 32 /\ zlen (upto 16 (from 64 okm)) = 16).
  { intros okm Hl. split_and!; [by eapply prefix_len|by eapply window_len..]. }
  destruct salt; apply H; [by apply hkdf_signal_len|by apply hkdf_expand_len].
Qed.

(** A key that is stored and read back is the same key, whatever form it had. *)
Lemma generator_roundtrip g :
  keys_wf (generate_keys g) -> (forall pb, g <> Serialized pb) ->
  exists g', from_pb (into_pb g) = Some g' /\ generate_keys g' = generate_keys g
             /\ generator_counter g' = generator_counter g.
Proof.
  intros (Hc & Hm & Hi) Hg. exists (Serialized (into_pb g)).
  assert (Hpb : into_pb g = mkKeyPb (Some (cipher_key (generate_keys g)))
    (Some (mac_key (generate_keys g))) (Some (keys_iv (generate_keys g)))
    (Some (keys_counter (generate_keys g)))) by (destruct g; [done|done|by destruct (Hg pb)]).
  rewrite Hpb. unfold from_pb. cbn [is_some_len pb_cipher_key pb_mac_key pb_iv].
  rewrite Hc, Hm, Hi. split_and!; [done| |by destruct g].
  cbn [generate_keys pb_cipher_key pb_mac_key pb_iv pb_index mbind option_bind].
  unfold array. rewrite Hc, Hm, Hi. cbn. by destruct (generate_keys g).
Qed.

Lemma create_chain_wf r pk k :
  zlen (root_key_bytes (fst (create_chain r pk k))) = 32
  /\ zlen (chain_key_bytes (snd (create_chain r pk k))) = 32.
Proof.
  unfold create_chain. cbn [fst snd root_key_bytes chain_key_bytes].
  split; [eapply prefix_len|eapply window_len]; (lia || apply hkdf_signal_len; lia || done).
Qed.

Lemma derive_root_keys_wf label s :
  zlen (root_key_bytes (fst (fst (derive_root_keys label s)))) = 32
  /\ zlen (chain_key_bytes (snd (fst (derive_root_keys label s)))) = 32.
Proof.
  unfold derive_root_keys. cbn [fst snd root_key_bytes chain_key_bytes].
  split; [eapply prefix_len|eapply window_len]; (lia || apply hkdf_signal_len; lia || done).
Qed.

Lemma step_wf c g c' :
  step_with_message_keys c = Ok (g, c') ->
  zlen (chain_key_bytes c') = 32 /\ chain_index c' = chain_index c + 1
  /\ generator_counter g = chain_index c.
Proof.
  unfold step_with_message_keys, checked_add_1. destruct (_ =? _); [done|]. cbn.
  intros [= <- <-]. cbn. split_and!; [apply hmac_signal_len|done..].
Qed.

(** Both ends of a ratchet step derive the same chain. *)
Lemma create_chain_comm {DL : DalekLaws} r a b :
  private_wf a -> private_wf b -> create_chain r (public_key a) b = create_chain r (public_key b) a.
Proof. intros Ha Hb. unfold create_chain. by rewrite agreement_comm. Qed.
End Ratchet.
