(* ===== verification/Session.v ===== *)
(** * Session states and records

    [wacore/libsignal/src/protocol/state/session.rs]: a session state is the protobuf
    structure of a double-ratchet session, a record holds the current state and the archived
    ones.  Every accessor checks the structure it reads, since it comes from storage; its
    error is [InvalidSessionStructure].  The two fields of the structure that no code reads
    ([needs_refresh], [pending_key_exchange]) and [Arc] sharing are left out. *)

From stdpp Require Import prelude strings.
From S2P Require Import Prelude Noise Curve SignalBase Ratchet.

#[local] Open Scope Z_scope.

Abbreviation result := (outcome SignalProtocolError).

Record ChainKeyPb : Type := mkChainKeyPb { ck_index : option Z; ck_key : option bytes }.
Record Chain : Type := mkChain {
  sender_ratchet_pub : option bytes; sender_ratchet_priv : option bytes;
  chain_key : option ChainKeyPb; message_keys : list MessageKeyPb
}.
Record PendingPreKey : Type := mkPending {
  pp_pre_key_id : option Z; pp_signed_pre_key_id : option Z; pp_base_key : option bytes
}.
Record SessionState : Type := mkSession {
  s_version : option Z;
  s_local_identity : option bytes;
  s_remote_identity : option bytes;
  s_root_key : option bytes;
  s_previous_counter : option Z;
  s_sender_chain : option Chain;
  s_receiver_chains : list Chain;
  s_pending_pre_key : option PendingPreKey;
  s_remote_registration_id : option Z;
  s_local_registration_id : option Z;
  s_alice_base_key : option bytes
}.

(** Field updates. *)
Definition with_root_key (s : SessionState) (k : option bytes) : SessionState :=
  mkSession (s_version s) (s_local_identity s) (s_remote_identity s) k (s_previous_counter s)
    (s_sender_chain s) (s_receiver_chains s) (s_pending_pre_key s) (s_remote_registration_id s)
    (s_local_registration_id s) (s_alice_base_key s).
Definition with_previous_counter (s : SessionState) (c : option Z) : SessionState :=
  mkSession (s_version s) (s_local_identity s) (s_remote_identity s) (s_root_key s) c
    (s_sender_chain s) (s_receiver_chains s) (s_pending_pre_key s) (s_remote_registration_id s)
    (s_local_registration_id s) (s_alice_base_key s).
Definition put_sender_chain (s : SessionState) (c : option Chain) : SessionState :=
  mkSession (s_version s) (s_local_identity s) (s_remote_identity s) (s_root_key s)
    (s_previous_counter s) c (s_receiver_chains s) (s_pending_pre_key s)
    (s_remote_registration_id s) (s_local_registration_id s) (s_alice_base_key s).
Definition with_receiver_chains (s : SessionState) (l : list Chain) : SessionState :=
  mkSession (s_version s) (s_local_identity s) (s_remote_identity s) (s_root_key s)
    (s_previous_counter s) (s_sender_chain s) l (s_pending_pre_key s)
    (s_remote_registration_id s) (s_local_registration_id s) (s_alice_base_key s).
Definition with_pending (s : SessionState) (p : option PendingPreKey) : SessionState :=
  mkSession (s_version s) (s_local_identity s) (s_remote_identity s) (s_root_key s)
    (s_previous_counter s) (s_sender_chain s) (s_receiver_chains s) p
    (s_remote_registration_id s) (s_local_registration_id s) (s_alice_base_key s).
Definition set_remote_registration_id (s : SessionState) (id : Z) : SessionState :=
  mkSession (s_version s) (s_local_identity s) (s_remote_identity s) (s_root_key s)
    (s_previous_counter s) (s_sender_chain s) (s_receiver_chains s) (s_pending_pre_key s)
    (Some id) (s_local_registration_id s) (s_alice_base_key s).
Definition set_local_registration_id (s : SessionState) (id : Z) : SessionState :=
  mkSession (s_version s) (s_local_identity s) (s_remote_identity s) (s_root_key s)
    (s_previous_counter s) (s_sender_chain s) (s_receiver_chains s) (s_pending_pre_key s)
    (s_remote_registration_id s) (Some id) (s_alice_base_key s).

Section Session.
Context {DK : Dalek} {SC : SignalCrypto}.

Abbreviation invalid := InvalidSessionStructure.

(** ** Session states *)

(** [SessionState::new]; an identity key is a public key. *)
Definition session_new (version : Z) (our_identity their_identity : PublicKey) (root_key : RootKey)
    (alice_base_key : PublicKey) : SessionState :=
  mkSession (Some version) (Some (public_serialize our_identity))
    (Some (public_serialize their_identity)) (Some (root_key_bytes root_key)) (Some 0) None []
    None (Some 0) (Some 0) (Some (public_serialize alice_base_key)).

(** What a failed decryption is rolled back to. *)
Record DecryptSnapshot : Type := mkSnapshot {
  snap_receiver_chains : list Chain; snap_root_key : option bytes;
  snap_previous_counter : option Z; snap_sender_chain : option Chain
}.
Definition decrypt_snapshot (s : SessionState) : DecryptSnapshot :=
  mkSnapshot (s_receiver_chains s) (s_root_key s) (s_previous_counter s) (s_sender_chain s).
Definition restore_decrypt_snapshot (s : SessionState) (snap : DecryptSnapshot) : SessionState :=
  put_sender_chain
    (with_previous_counter
       (with_root_key (with_receiver_chains s (snap_receiver_chains snap)) (snap_root_key snap))
       (snap_previous_counter snap))
    (snap_sender_chain snap).

Definition alice_base_key (s : SessionState) : bytes := default [] (s_alice_base_key s).
Definition session_version (s : SessionState) : Z :=
  let v := default 0 (s_version s) in if v =? 0 then 2 else v.
(** An invalid key is an error, an absent one is [None]. *)
Definition remote_identity_key (s : SessionState) : result (option PublicKey) :=
  let b := default [] (s_remote_identity s) in
  if zlen b =? 0 then Ok None else Some <$> map_err (fun _ => invalid) (public_deserialize b).
Definition local_identity_key (s : SessionState) : result PublicKey :=
  map_err (fun _ => invalid) (public_deserialize (default [] (s_local_identity s))).
Definition session_with_self (s : SessionState) : result bool :=
  remote ← remote_identity_key s;
  match remote with
  | Some r => l ← local_identity_key s; Ok (bytes_eqb (public_serialize r) (public_serialize l))
  | None => Ok false
  end.

Definition previous_counter (s : SessionState) : Z := default 0 (s_previous_counter s).
Definition root_key (s : SessionState) : result RootKey :=
  mkRootKey <$> ok_or (array 32 (default [] (s_root_key s))) invalid.
Definition set_root_key (s : SessionState) (k : RootKey) : SessionState :=
  with_root_key s (Some (root_key_bytes k)).

Definition sender_ratchet_key (s : SessionState) : result PublicKey :=
  c ← ok_or (s_sender_chain s) invalid;
  b ← ok_or (sender_ratchet_pub c) invalid;
  map_err (fun _ => invalid) (public_deserialize b).
Definition sender_ratchet_private_key (s : SessionState) : result PrivateKey :=
  c ← ok_or (s_sender_chain s) invalid;
  b ← ok_or (sender_ratchet_priv c) invalid;
  map_err (fun _ => invalid) (private_deserialize b).
Definition has_usable_sender_chain (s : SessionState) : bool :=
  match s_sender_chain s with None => false | Some _ => true end.

(** The checks of a stored chain key. *)
Definition read_chain_key (c : Chain) : result ChainKey :=
  k ← ok_or (chain_key c) invalid;
  b ← ok_or (ck_key k) invalid;
  b ← ok_or (array 32 b) invalid;
  i ← ok_or (ck_index k) invalid;
  Ok (mkChainKey b i).
Definition chain_key_pb (k : ChainKey) : ChainKeyPb :=
  mkChainKeyPb (Some (chain_index k)) (Some (chain_key_bytes k)).

(** *** Receiver chains *)

Definition SERIALIZED_PUBLIC_KEY_LEN : Z := 33.
(** The loop of [get_receiver_chain_index], from position [i]. *)
Fixpoint find_chain (sender_bytes : bytes) (l : list Chain) (i : nat) : result (option nat) :=
  match l with
  | [] => Ok None
  | c :: l =>
      key_bytes ← ok_or (sender_ratchet_pub c) invalid;
      if negb (zlen key_bytes =? SERIALIZED_PUBLIC_KEY_LEN)
         || negb (bool_decide (head key_bytes = Some (key_type_value Djb)))
      then Err invalid
      else if bytes_eqb key_bytes sender_bytes then Ok (Some i)
      else find_chain sender_bytes l (S i)
  end.
Definition get_receiver_chain_index (s : SessionState) (sender : PublicKey) : result (option nat) :=
  find_chain (public_serialize sender) (s_receiver_chains s) 0.

Definition get_receiver_chain_key (s : SessionState) (sender : PublicKey)
    : result (option ChainKey) :=
  idx ← get_receiver_chain_index s sender;
  match idx with
  | None => Ok None
  | Some idx =>
      match s_receiver_chains s !! idx with
      | None => Panic
      | Some c => Some <$> read_chain_key c
      end
  end.
Definition add_receiver_chain (s : SessionState) (sender : PublicKey) (k : ChainKey)
    : SessionState :=
  let chain := mkChain (Some (public_serialize sender)) (Some []) (Some (chain_key_pb k)) [] in
  let l := s_receiver_chains s ++ [chain] in
  let len := zlen l in
  with_receiver_chains s
    (if MAX_RECEIVER_CHAINS <? len then drop (Z.to_nat (len - MAX_RECEIVER_CHAINS)) l else l).

(** *** The sender chain *)

Definition set_sender_chain (s : SessionState) (sender : KeyPair) (next : ChainKey)
    : SessionState :=
  put_sender_chain s
    (Some (mkChain (Some (public_serialize (kp_public sender)))
             (Some (private_serialize (kp_private sender))) (Some (chain_key_pb next)) [])).
Definition get_sender_chain_key (s : SessionState) : result ChainKey :=
  c ← ok_or (s_sender_chain s) invalid; read_chain_key c.
Definition set_sender_chain_key (s : SessionState) (next : ChainKey) : SessionState :=
  put_sender_chain s
    (Some match s_sender_chain s with
          | None => mkChain (Some []) (Some []) (Some (chain_key_pb next)) []
          | Some c =>
              mkChain (sender_ratchet_pub c) (sender_ratchet_priv c) (Some (chain_key_pb next))
                (message_keys c)
          end).

(** *** Skipped message keys *)

Definition update_chain (s : SessionState) (idx : nat) (f : Chain -> Chain) : SessionState :=
  with_receiver_chains s (alter f idx (s_receiver_chains s)).
Definition put_message_keys (l : list MessageKeyPb) (c : Chain) : Chain :=
  mkChain (sender_ratchet_pub c) (sender_ratchet_priv c) (chain_key c) l.
Definition put_chain_key (k : ChainKey) (c : Chain) : Chain :=
  mkChain (sender_ratchet_pub c) (sender_ratchet_priv c) (Some (chain_key_pb k)) (message_keys c).

(** The position of a counter; a key without an index on the way is an error. *)
Fixpoint find_key (counter : Z) (l : list MessageKeyPb) (i : nat) : result (option nat) :=
  match l with
  | [] => Ok None
  | m :: l =>
      idx ← ok_or (pb_index m) invalid;
      if idx =? counter then Ok (Some i) else find_key counter l (S i)
  end.
(** The key is taken out before it is checked. *)
Definition get_message_keys (s : SessionState) (sender : PublicKey) (counter : Z)
    : SessionState * result (option MessageKeyGenerator) :=
  match get_receiver_chain_index s sender with
  | Ok None => (s, Ok None)
  | Ok (Some idx) =>
      match s_receiver_chains s !! idx with
      | None => (s, Panic)
      | Some c =>
          match find_key counter (message_keys c) 0 with
          | Ok None => (s, Ok None)
          | Ok (Some pos) =>
              match message_keys c !! pos with
              | None => (s, Panic)
              | Some m =>
                  (update_chain s idx (put_message_keys (delete pos (message_keys c))),
                   Some <$> ok_or (from_pb m) invalid)
              end
          | Err e => (s, Err e) | Panic => (s, Panic) | Timeout => (s, Timeout)
          end
      end
  | Err e => (s, Err e) | Panic => (s, Panic) | Timeout => (s, Timeout)
  end.
(** [expect]s the chain to exist; the oldest keys go when the limit is exceeded by the
    threshold, before the new one is added. *)
Definition set_message_keys (s : SessionState) (sender : PublicKey) (g : MessageKeyGenerator)
    : SessionState * result unit :=
  match get_receiver_chain_index s sender with
  | Ok (Some idx) =>
      (update_chain s idx (fun c =>
         let l := message_keys c in
         let len := zlen l in
         put_message_keys
           ((if MAX_MESSAGE_KEYS + MESSAGE_KEY_PRUNE_THRESHOLD <? len
             then drop (Z.to_nat (len - MAX_MESSAGE_KEYS)) l else l) ++ [into_pb g]) c), Ok tt)
  | Ok None => (s, Panic)
  | Err e => (s, Err e) | Panic => (s, Panic) | Timeout => (s, Timeout)
  end.
Definition set_receiver_chain_key (s : SessionState) (sender : PublicKey) (k : ChainKey)
    : SessionState * result unit :=
  match get_receiver_chain_index s sender with
  | Ok (Some idx) => (update_chain s idx (put_chain_key k), Ok tt)
  | Ok None => (s, Panic)
  | Err e => (s, Err e) | Panic => (s, Panic) | Timeout => (s, Timeout)
  end.

(** *** The unacknowledged pre-key message *)

Record UnacknowledgedPreKeyMessageItems : Type := mkItems {
  items_pre_key_id : option Z; items_signed_pre_key_id : Z; items_base_key : PublicKey
}.
(** The signed id is stored as an [i32]. *)
Definition as_i32 (z : Z) : Z := if wrap 32 z <? 2 ^ 31 then wrap 32 z else wrap 32 z - 2 ^ 32.
Definition set_unacknowledged_pre_key_message (s : SessionState) (pre_key_id : option Z)
    (signed_pre_key_id : Z) (base_key : PublicKey) : SessionState :=
  with_pending s (Some (mkPending pre_key_id (Some (as_i32 signed_pre_key_id))
                          (Some (public_serialize base_key)))).
Definition unacknowledged_pre_key_message_items (s : SessionState)
    : result (option UnacknowledgedPreKeyMessageItems) :=
  match s_pending_pre_key s with
  | Some p =>
      b ← ok_or (pp_base_key p) invalid;
      key ← map_err (fun _ => invalid) (public_deserialize b);
      Ok (Some (mkItems (pp_pre_key_id p) (wrap 32 (default 0 (pp_signed_pre_key_id p))) key))
  | None => Ok None
  end.
Definition clear_unacknowledged_pre_key_message (s : SessionState) : SessionState :=
  with_pending s None.
Definition local_registration_id (s : SessionState) : Z := default 0 (s_local_registration_id s).

(** ** Records *)

Record SessionRecord : Type := mkRecord {
  current_session : option SessionState; previous_sessions : list SessionState
}.
Definition record_new_fresh : SessionRecord := mkRecord None [].

Definition archive_current_state_inner (r : SessionRecord) : SessionRecord * bool :=
  match current_session r with
  | Some current =>
      let sessions := previous_sessions r in
      let sessions :=
        if ARCHIVED_STATES_MAX_LENGTH <=? zlen sessions then removelast sessions else sessions in
      (mkRecord None (clear_unacknowledged_pre_key_message current :: sessions), true)
  | None => (r, false)
  end.
Definition promote_state (r : SessionRecord) (new_state : SessionState) : SessionRecord :=
  let r := fst (archive_current_state_inner r) in mkRecord (Some new_state) (previous_sessions r).
(** [Vec::remove] panics out of range. *)
Definition promote_old_session (r : SessionRecord) (i : nat) (s : SessionState)
    : SessionRecord * result unit :=
  match previous_sessions r !! i with
  | Some _ => (promote_state (mkRecord (current_session r) (delete i (previous_sessions r))) s, Ok tt)
  | None => (r, Panic)
  end.
Definition archive_current_state (r : SessionRecord) : SessionRecord * result unit :=
  (fst (archive_current_state_inner r), Ok tt).
Definition set_session_state (r : SessionRecord) (s : SessionState) : SessionRecord :=
  mkRecord (Some s) (previous_sessions r).
Definition take_session_state (r : SessionRecord) : SessionRecord * option SessionState :=
  (mkRecord None (previous_sessions r), current_session r).
Definition take_previous_session (r : SessionRecord) (i : nat)
    : SessionRecord * option SessionState :=
  match previous_sessions r !! i with
  | Some s => (mkRecord (current_session r) (delete i (previous_sessions r)), Some s)
  | None => (r, None)
  end.
Definition restore_previous_session (r : SessionRecord) (i : nat) (s : SessionState)
    : SessionRecord :=
  let l := previous_sessions r in
  mkRecord (current_session r)
    (if (i <=? length l)%nat then take i l ++ s :: drop i l else l ++ [s]).

Fixpoint find_matching (version : Z) (base_key : bytes) (l : list SessionState) (i : nat)
    : option nat :=
  match l with
  | [] => None
  | s :: l =>
      if negb (session_version s =? version) then find_matching version base_key l (S i)
      else if bytes_eqb base_key (alice_base_key s) then Some i
      else find_matching version base_key l (S i)
  end.
Definition promote_previous (r : SessionRecord) (version : Z) (base_key : bytes)
    : SessionRecord * result bool :=
  match find_matching version base_key (previous_sessions r) 0 with
  | Some i =>
      match take_previous_session r i with
      | (r, Some state) => (promote_state r state, Ok true)
      | (r, None) => (r, Panic)
      end
  | None => (r, Ok false)
  end.
Definition promote_matching_session (r : SessionRecord) (version : Z) (base_key : bytes)
    : SessionRecord * result bool :=
  match current_session r with
  | Some current =>
      if (session_version current =? version) && bytes_eqb base_key (alice_base_key current)
      then (r, Ok true) else promote_previous r version base_key
  | None => promote_previous r version base_key
  end.
End Session.
