(* ===== verification/SignalMessages.v ===== *)
(** * Signal messages

    [SignalMessage] and [PreKeySignalMessage] of [wacore/libsignal/src/protocol/protocol.rs]:
    their serialized forms, the truncated MAC over both identities, and the parsers. *)

From stdpp Require Import prelude strings.
From S2P Require Import Prelude Curve SignalBase Session.

#[local] Open Scope Z_scope.

Definition MAC_LENGTH : Z := 8.

Record SignalMessage : Type := mkSm {
  sm_version : Z; sm_ratchet_key : PublicKey; sm_counter : Z; sm_previous_counter : Z;
  sm_serialized : bytes
}.
Record PreKeySignalMessage : Type := mkPksm {
  pk_version : Z; pk_registration_id : Z; pk_pre_key_id : option Z; pk_signed_pre_key_id : Z;
  pk_base_key : PublicKey; pk_identity_key : PublicKey; pk_message : SignalMessage;
  pk_serialized : bytes
}.
(** The other two kinds are not used between two devices. *)
Inductive CiphertextMessage : Type :=
  | CSignal (m : SignalMessage)
  | CPreKey (m : PreKeySignalMessage).

Section Messages.
Context {DK : Dalek} {SC : SignalCrypto}.

Definition compute_mac (sender_identity receiver_identity : PublicKey) (mac_key message : bytes)
    : result bytes :=
  if negb (zlen mac_key =? 32) then Err (InvalidMacKeyLength (zlen mac_key))
  else Ok (upto MAC_LENGTH
             (hmac_sha256_signal mac_key
                (public_serialize sender_identity ++ public_serialize receiver_identity
                 ++ message))).

(** [((version & 0xF) << 4) | CURRENT] in a [u8] *)
Definition version_byte (version : Z) : Z :=
  Z.lor (wrap 8 (Z.shiftl (Z.land version 15) 4)) CIPHERTEXT_MESSAGE_CURRENT_VERSION.

Definition signal_message_new (version : Z) (mac_key : bytes) (ratchet_key : PublicKey)
    (counter previous_counter : Z) (ciphertext : bytes)
    (sender_identity receiver_identity : PublicKey) : result SignalMessage :=
  let serialized := version_byte version
                    :: encode_sm (public_serialize ratchet_key) counter previous_counter ciphertext in
  mac ← compute_mac sender_identity receiver_identity mac_key serialized;
  Ok (mkSm version ratchet_key counter previous_counter (serialized ++ mac)).

Definition sm_signed (m : SignalMessage) : bytes :=
  upto (zlen (sm_serialized m) - MAC_LENGTH) (sm_serialized m).
(** [body()]: the parse cached by [try_from] is that of [decode_ciphertext]. *)
Definition sm_body (m : SignalMessage) : result bytes :=
  '(_, _, _, c) ← ok_or (decode_sm (from 1 (sm_signed m))) InvalidProtobufEncoding;
  ok_or c InvalidProtobufEncoding.
Definition verify_mac (m : SignalMessage) (sender_identity receiver_identity : PublicKey)
    (mac_key : bytes) : result bool :=
  our_mac ← compute_mac sender_identity receiver_identity mac_key (sm_signed m);
  Ok (bytes_eqb our_mac (from (zlen (sm_serialized m) - MAC_LENGTH) (sm_serialized m))).

Definition check_supported (v : Z) : result unit :=
  if (MIN_SUPPORTED_VERSION <=? v) && (v <=? MAX_SUPPORTED_VERSION) then Ok tt
  else Err (UnrecognizedCiphertextVersion v).

Definition sm_try_from (value : bytes) : result SignalMessage :=
  if zlen value <? MAC_LENGTH + 1 then Err (CiphertextMessageTooShort (zlen value))
  else
    let v := Z.shiftr (hd 0 value) 4 in
    _ ← check_supported v;
    '(rk, n, pn, c) ← ok_or (decode_sm (from 1 (upto (zlen value - MAC_LENGTH) value)))
                         InvalidProtobufEncoding;
    rk ← ok_or rk InvalidProtobufEncoding;
    key ← map_err FromCurve (public_deserialize rk);
    n ← ok_or n InvalidProtobufEncoding;
    let pn := default 0 pn in
    _ ← ok_or c InvalidProtobufEncoding;
    Ok (mkSm v key n pn value).

Definition pre_key_message_new (version registration_id : Z) (pre_key_id : option Z)
    (signed_pre_key_id : Z) (base_key identity_key : PublicKey) (message : SignalMessage)
    : PreKeySignalMessage :=
  mkPksm version registration_id pre_key_id signed_pre_key_id base_key identity_key message
    (version_byte version
     :: encode_pksm registration_id pre_key_id signed_pre_key_id (public_serialize base_key)
          (public_serialize identity_key) (sm_serialized message)).

Definition pksm_try_from (value : bytes) : result PreKeySignalMessage :=
  match value with
  | [] => Err (CiphertextMessageTooShort 0)
  | b :: _ =>
      let v := Z.shiftr b 4 in
      _ ← check_supported v;
      '(reg, id, sid, bk, ik, m) ← ok_or (decode_pksm (from 1 value)) InvalidProtobufEncoding;
      bk ← ok_or bk InvalidProtobufEncoding;
      ik ← ok_or ik InvalidProtobufEncoding;
      m ← ok_or m InvalidProtobufEncoding;
      sid ← ok_or sid InvalidProtobufEncoding;
      base_key ← map_err FromCurve (public_deserialize bk);
      identity_key ← map_err FromCurve (public_deserialize ik);
      message ← sm_try_from m;
      Ok (mkPksm v (default 0 reg) id sid base_key identity_key message value)
  end.

(** ** Building and parsing are inverse *)

Context {SL : SignalLaws}.

Lemma version_byte_3 : version_byte 3 = 51.
Proof. done. Qed.

Lemma compute_mac_ok a b k m : zlen k = 32 ->
  exists mac, compute_mac a b k m = Ok mac /\ zlen mac = MAC_LENGTH.
Proof.
  intros Hk. unfold compute_mac. rewrite Hk. cbn [Z.eqb Pos.eqb negb]. eexists. split; [done|].
  unfold zlen, upto. rewrite length_take.
  pose proof (hmac_signal_len k (public_serialize a ++ public_serialize b ++ m)) as H.
  unfold zlen in H. unfold MAC_LENGTH. lia.
Qed.

(** A message of the current version: it parses to itself, holds its text, and its MAC is
    accepted by the holder of the MAC key for the same two identities. *)
Lemma signal_message_ok mac_key rk n pn c a b :
  zlen mac_key = 32 -> public_wf rk -> in_range 32 n -> in_range 32 pn ->
  exists m, signal_message_new 3 mac_key rk n pn c a b = Ok m
    /\ sm_try_from (sm_serialized m) = Ok m
    /\ sm_version m = 3 /\ sm_ratchet_key m = rk /\ sm_counter m = n /\ sm_previous_counter m = pn
    /\ sm_body m = Ok c /\ verify_mac m a b mac_key = Ok true.
Proof.
  intros Hk Hrk Hn Hpn. unfold signal_message_new. rewrite version_byte_3.
  set (msg := 51 :: encode_sm (public_serialize rk) n pn c).
  destruct (compute_mac_ok a b mac_key msg Hk) as (mac & Hmac & Hlen). rewrite Hmac.
  cbn [mbind outcome_bind]. eexists. split; [done|].
  assert (Hpos : zlen (msg ++ mac) - MAC_LENGTH = zlen msg) by (rewrite zlen_app; lia).
  assert (Hup : upto (zlen (msg ++ mac) - MAC_LENGTH) (msg ++ mac) = msg)
    by (rewrite Hpos; apply upto_app).
  assert (Hdec : decode_sm (from 1 msg) = Some (Some (public_serialize rk), Some n, Some pn, Some c))
    by (by apply sm_inverse).
  cbn [sm_version sm_ratchet_key sm_counter sm_previous_counter sm_serialized].
  split; [|split_and!; try done].
  - unfold sm_try_from. destruct (Z.ltb_spec (zlen (msg ++ mac)) (MAC_LENGTH + 1)) as [Hlt|_].
    { assert (1 <= zlen msg); [|lia]. unfold msg. rewrite zlen_cons.
      pose proof (zlen_nonneg (encode_sm (public_serialize rk) n pn c)). lia. }
    rewrite Hup. change (hd 0 (msg ++ mac)) with 51. change (Z.shiftr 51 4) with 3.
    change (check_supported 3) with (@Ok SignalProtocolError _ tt). cbn [mbind outcome_bind].
    rewrite Hdec. cbn [ok_or mbind outcome_bind]. by rewrite public_roundtrip.
  - unfold sm_body, sm_signed. cbn [sm_serialized]. by rewrite Hup, Hdec.
  - unfold verify_mac, sm_signed. cbn [sm_serialized]. rewrite Hup, Hpos, from_app, Hmac.
    cbn [mbind outcome_bind]. by rewrite bytes_eqb_refl.
Qed.

Lemma pre_key_message_ok reg id sid bk ik m :
  in_range 32 reg -> (forall x, id = Some x -> in_range 32 x) -> in_range 32 sid ->
  public_wf bk -> public_wf ik -> sm_try_from (sm_serialized m) = Ok m ->
  pksm_try_from (pk_serialized (pre_key_message_new 3 reg id sid bk ik m))
  = Ok (pre_key_message_new 3 reg id sid bk ik m).
Proof.
  intros Hr Hid Hsid Hbk Hik Hm. unfold pre_key_message_new at 1. rewrite version_byte_3.
  cbn [pk_serialized pksm_try_from]. change (Z.shiftr 51 4) with 3.
  change (check_supported 3) with (@Ok SignalProtocolError _ tt). cbn [mbind outcome_bind].
  change (from 1 (51 :: ?x)) with x. rewrite pksm_inverse by done.
  cbn [ok_or mbind outcome_bind]. rewrite !public_roundtrip by done.
  cbn [map_err mbind outcome_bind]. rewrite Hm. done.
Qed.
End Messages.
