(* ===== verification/SessionCipher.v ===== *)
(** * The session cipher

    [wacore/libsignal/src/protocol/session_cipher.rs] and [session.rs], with [ratchet.rs]:
    setting up a session from a pre-key bundle or a pre-key message, encrypting under the
    sending chain, and decrypting with the ratchet, archived sessions included.

    Code on [&mut SessionState] or on a record is in the monad [M] of functions that return
    the state they leave with their result, so what an error leaves behind is visible.  The
    four stores are one class [SignalStores]; the randomness of a key is an argument; thread
    local buffers are left out, and logging but for what it can do to the result: with the
    level [debug] on, a successful decryption [expect]s the sending key it prints. *)

From stdpp Require Import prelude strings.
From S2P Require Import Prelude Noise Curve SignalBase Ratchet Session SignalMessages.

#[local] Open Scope Z_scope.

(** ** State and errors *)

Definition M (S A : Type) : Type := S -> S * result A.
#[global] Instance M_ret {S} : MRet (M S) := fun A a s => (s, Ok a).
#[global] Instance M_bind {S} : MBind (M S) := fun A B f m s =>
  match m s with
  | (s, Ok a) => f a s
  | (s, Err e) => (s, Err e)
  | (s, Panic) => (s, Panic)
  | (s, Timeout) => (s, Timeout)
  end.
Definition lift {S A} (o : result A) : M S A := fun s => (s, o).
Definition gets {S A} (f : S -> result A) : M S A := fun s => (s, f s).
Definition modify {S} (f : S -> S) : M S unit := fun s => (f s, Ok tt).
(** A method on [&mut self]. *)
Definition state {S A} (f : S -> S * result A) : M S A := f.
Definition fail {S A} (e : SignalProtocolError) : M S A := fun s => (s, Err e).

Record IdentityKeyPair : Type := mkIdentity { id_public : PublicKey; id_private : PrivateKey }.
(** [PreKeyRecord] and [SignedPreKeyRecord], as far as they are used here. *)
Record KeyRecord : Type := mkKeyRecord { kr_public : option bytes; kr_private : option bytes }.
Inductive Direction : Type := Sending | Receiving.
Inductive IdentityChange : Type := NewOrUnchanged | ReplacedExisting.
Abbreviation ProtocolAddress := bytes.

(** Whether the logger takes messages of level [debug]. *)
Class Logging : Type := debug_enabled : bool.

Section SessionCipher.
Context {DK : Dalek} {SC : SignalCrypto} {LG : Logging}.

Definition key_record_new (k : KeyPair) : KeyRecord :=
  mkKeyRecord (Some (public_serialize (kp_public k))) (Some (private_serialize (kp_private k))).
Definition record_key_pair (r : KeyRecord) : result KeyPair :=
  p ← ok_or (kr_public r) InvalidProtobufEncoding;
  k ← ok_or (kr_private r) InvalidProtobufEncoding;
  map_err FromCurve (keypair_from_public_and_private p k).

(** ** Decrypting with a session state *)

Definition get_or_create_chain_key (their_ephemeral : PublicKey) (random : bytes)
    : M SessionState ChainKey :=
  existing ← gets (fun s => get_receiver_chain_key s their_ephemeral);
  match existing with
  | Some chain => mret chain
  | None =>
      root ← gets root_key;
      our_ephemeral ← gets sender_ratchet_private_key;
      let receiver_chain := create_chain root their_ephemeral our_ephemeral in
      let our_new_ephemeral := keypair_generate random in
      let sender_chain :=
        create_chain (fst receiver_chain) their_ephemeral (kp_private our_new_ephemeral) in
      _ ← modify (fun s => set_root_key s (fst sender_chain));
      _ ← modify (fun s => add_receiver_chain s their_ephemeral (snd receiver_chain));
      current ← gets get_sender_chain_key;
      let current_index := chain_index current in
      let previous_index := if 0 <? current_index then current_index - 1 else 0 in
      _ ← modify (fun s => with_previous_counter s (Some previous_index));
      _ ← modify (fun s => set_sender_chain s our_new_ephemeral (snd sender_chain));
      mret (snd receiver_chain)
  end.

(** The [while] loop of [get_or_create_message_key] and the step after it. *)
Fixpoint ratchet_to (fuel : nat) (their_ephemeral : PublicKey) (chain : ChainKey) (counter : Z)
    : M SessionState MessageKeyGenerator :=
  match fuel with
  | O => fun s => (s, Timeout)
  | S fuel =>
      if chain_index chain <? counter then
        '(keys, next) ← lift (step_with_message_keys chain);
        _ ← state (fun s => set_message_keys s their_ephemeral keys);
        ratchet_to fuel their_ephemeral next counter
      else
        '(keys, next) ← lift (step_with_message_keys chain);
        _ ← state (fun s => set_receiver_chain_key s their_ephemeral next);
        mret keys
  end.
Definition get_or_create_message_key (their_ephemeral : PublicKey) (ty : CiphertextMessageType)
    (chain : ChainKey) (counter : Z) : M SessionState MessageKeyGenerator :=
  let index := chain_index chain in
  if counter <? index then
    keys ← state (fun s => get_message_keys s their_ephemeral counter);
    match keys with
    | Some keys => mret keys
    | None => fail (DuplicatedMessage index counter)
    end
  else
    let jump := counter - index in
    _ ← (if MAX_FORWARD_JUMPS <? jump then
           self ← gets session_with_self;
           if self : bool then mret tt else fail (InvalidMessage ty)
         else mret tt);
    ratchet_to (S (Z.to_nat jump)) their_ephemeral chain counter.

Definition cbc_error (ty : CiphertextMessageType) (e : DecryptionError) : SignalProtocolError :=
  match e with BadKeyOrIv => InvalidSessionStructure | BadCiphertext => InvalidMessage ty end.

Definition decrypt_with_pending_state (m : SignalMessage) (ty : CiphertextMessageType)
    (random : bytes) : M SessionState bytes :=
  chain ← get_or_create_chain_key (sm_ratchet_key m) random;
  gen ← get_or_create_message_key (sm_ratchet_key m) ty chain (sm_counter m);
  let keys := generate_keys gen in
  their_identity ← gets remote_identity_key;
  their_identity ← lift (ok_or their_identity InvalidSessionStructure);
  local_identity ← gets local_identity_key;
  mac_valid ← lift (verify_mac m their_identity local_identity (mac_key keys));
  if negb mac_valid then fail (BadMac ty)
  else
    body ← lift (sm_body m);
    lift (map_err (cbc_error ty)
            (aes_256_cbc_decrypt_into body (cipher_key keys) (keys_iv keys) [])).

(** What the pending changes are undone with: the chain key of an in-order message, or the
    whole snapshot. *)
Definition fast_rollback (s : SessionState) (m : SignalMessage) : option ChainKey :=
  match get_receiver_chain_key s (sm_ratchet_key m) with
  | Ok (Some c) => if chain_index c =? sm_counter m then Some c else None
  | _ => None
  end.
Definition decrypt_message_with_state (m : SignalMessage) (ty : CiphertextMessageType)
    (random : bytes) : M SessionState bytes := fun s =>
  match root_key s with
  | Ok _ =>
      if negb (sm_version m =? session_version s)
      then (s, Err (UnrecognizedMessageVersion (sm_version m)))
      else
        let rollback := fast_rollback s m in
        let snapshot := decrypt_snapshot s in
        match decrypt_with_pending_state m ty random s with
        | (s, Ok ptext) => (clear_unacknowledged_pre_key_message s, Ok ptext)
        | (s, Err e) =>
            (match rollback with
             | Some c => fst (set_receiver_chain_key s (sm_ratchet_key m) c)
             | None => restore_decrypt_snapshot s snapshot
             end, Err e)
        | (s, r) => (s, r)
        end
  | _ => (s, Err (InvalidMessage ty))
  end.

(** ** Decrypting with a record *)

Definition has_bad_mac (errs : list SignalProtocolError) : bool :=
  existsb (fun e => match e with BadMac _ => true | _ => false end) errs.
Definition decryption_failure (ty : CiphertextMessageType) (errs : list SignalProtocolError)
    : SignalProtocolError := if has_bad_mac errs then BadMac ty else InvalidMessage ty.

(** [log::debug!] of a successful decryption: its argument is evaluated at that level only. *)
Definition log_success (s : SessionState) : result unit :=
  if debug_enabled
  then match sender_ratchet_key s with Ok _ => Ok tt | _ => Panic end
  else Ok tt.

(** The archived sessions from index [idx], [n] of them to go; [random] gives the randomness
    of each attempt. *)
Fixpoint try_previous (n : nat) (idx : nat) (m : SignalMessage) (ty : CiphertextMessageType)
    (random : nat -> bytes) (errs : list SignalProtocolError) (r : SessionRecord)
    : SessionRecord * result (bytes * bool) :=
  match n with
  | O => (r, Err (decryption_failure ty errs))
  | S n =>
      match take_previous_session r idx with
      | (r, None) => (r, Err (decryption_failure ty errs))
      | (r, Some previous) =>
          match decrypt_message_with_state m ty (random (S idx)) previous with
          | (previous, Ok ptext) =>
              match log_success previous with
              | Ok _ => (promote_state r previous, Ok (ptext, true))
              | _ => (r, Panic)
              end
          | (previous, Err (DuplicatedMessage chain counter)) =>
              (restore_previous_session r idx previous, Err (DuplicatedMessage chain counter))
          | (previous, Err e) =>
              try_previous n (S idx) m ty random (errs ++ [e])
                (restore_previous_session r idx previous)
          | (_, Panic) => (r, Panic)
          | (_, Timeout) => (r, Timeout)
          end
      end
  end.
(** The result says whether an archived session was used. *)
Definition decrypt_message_with_record (m : SignalMessage) (ty : CiphertextMessageType)
    (random : nat -> bytes) (r : SessionRecord) : SessionRecord * result (bytes * bool) :=
  match take_session_state r with
  | (r', Some current) =>
      match decrypt_message_with_state m ty (random O) current with
      | (current, Ok ptext) =>
          match log_success current with
          | Ok _ => (set_session_state r' current, Ok (ptext, false))
          | _ => (r', Panic)
          end
      | (current, Err (DuplicatedMessage chain counter)) =>
          (set_session_state r' current, Err (DuplicatedMessage chain counter))
      | (current, Err e) =>
          let r' := set_session_state r' current in
          match ty with
          | PreKey => (r', Err (decryption_failure ty [e]))
          | Whisper => try_previous (length (previous_sessions r')) 0 m ty random [e] r'
          | SenderKey | Plaintext => (r', Panic)
          end
      | (_, Panic) => (r', Panic)
      | (_, Timeout) => (r', Timeout)
      end
  | (r', None) => try_previous (length (previous_sessions r')) 0 m ty random [] r'
  end.
End SessionCipher.

(** ** The stores *)

Class SignalStores {DK : Dalek} (W : Type) : Type := {
  load_session : W -> ProtocolAddress -> result (option SessionRecord);
  store_session : ProtocolAddress -> SessionRecord -> M W unit;
  get_identity_key_pair : W -> result IdentityKeyPair;
  get_local_registration_id : W -> result Z;
  save_identity : ProtocolAddress -> PublicKey -> M W IdentityChange;
  is_trusted_identity : W -> ProtocolAddress -> PublicKey -> Direction -> result bool;
  get_pre_key : W -> Z -> result KeyRecord;
  get_signed_pre_key : W -> Z -> result KeyRecord
}.

Section Stores.
Context {DK : Dalek} {SC : SignalCrypto} {LG : Logging} {W : Type} {SS : SignalStores W}.

(** A computation on the stores and a record, with the record kept apart. *)
Abbreviation MR := (M (W * SessionRecord)).
Definition on_world {A} (m : M W A) : MR A := fun '(w, r) =>
  let '(w, a) := m w in ((w, r), a).
Definition on_record {A} (m : M SessionRecord A) : MR A := fun '(w, r) =>
  let '(r, a) := m r in ((w, r), a).

(** ** Encryption *)

Definition message_encrypt_inner (ptext : bytes) (address : ProtocolAddress)
    : MR CiphertextMessage :=
  s ← gets (fun '(_, r) => ok_or (current_session r) SessionNotFound);
  chain ← lift (get_sender_chain_key s);
  '(gen, next) ← lift (step_with_message_keys chain);
  let keys := generate_keys gen in
  sender_ephemeral ← lift (sender_ratchet_key s);
  version ← lift (if session_version s <? 256 then Ok (session_version s)
                  else Err InvalidSessionStructure);
  local_identity ← lift (local_identity_key s);
  their_identity ← lift (remote_identity_key s);
  their_identity ← lift (ok_or their_identity InvalidState);
  trusted ← gets (fun '(w, _) => is_trusted_identity w address their_identity Sending);
  if negb trusted then fail UntrustedIdentity
  else
    ctext ← lift (ok_or (aes_256_cbc_encrypt_into ptext (cipher_key keys) (keys_iv keys) [])
                    InvalidSessionStructure);
    items ← lift (unacknowledged_pre_key_message_items s);
    message ← lift (signal_message_new version (mac_key keys) sender_ephemeral (chain_index chain)
                      (previous_counter s) ctext local_identity their_identity);
    let message :=
      match items with
      | Some items =>
          CPreKey (pre_key_message_new version (local_registration_id s) (items_pre_key_id items)
                     (items_signed_pre_key_id items) (items_base_key items) local_identity message)
      | None => CSignal message
      end in
    _ ← on_world (save_identity address their_identity);
    _ ← on_record (modify (fun r => set_session_state r (set_sender_chain_key s next)));
    mret message.

(** Loads the record, runs, and stores what it left, also after an error. *)
Definition with_record {A} (address : ProtocolAddress) (r : SessionRecord) (m : MR A) : M W A :=
  fun w =>
  match m (w, r) with
  | ((w, _), Panic) => (w, Panic)
  | ((w, _), Timeout) => (w, Timeout)
  | ((w, r), res) => (_ ← store_session address r; lift res) w
  end.
Definition message_encrypt (ptext : bytes) (address : ProtocolAddress) : M W CiphertextMessage :=
  r ← gets (fun w => load_session w address);
  r ← lift (ok_or r SessionNotFound);
  with_record address r (message_encrypt_inner ptext address).

(** ** Session setup *)

(** [ratchet.rs] *)
Record AliceSignalProtocolParameters : Type := mkAlice {
  a_our_identity : IdentityKeyPair; a_our_base : KeyPair; a_their_identity : PublicKey;
  a_their_signed_pre_key : PublicKey; a_their_one_time : option PublicKey;
  a_their_ratchet : PublicKey
}.
Record BobSignalProtocolParameters : Type := mkBob {
  b_our_identity : IdentityKeyPair; b_our_signed_pre_key : KeyPair;
  b_our_one_time : option KeyPair; b_our_ratchet : KeyPair; b_their_identity : PublicKey;
  b_their_base : PublicKey
}.
Definition initialize_alice_session (p : AliceSignalProtocolParameters) (random : bytes)
    : SessionState :=
  let sending_ratchet := keypair_generate random in
  let our_base := kp_private (a_our_base p) in
  let secrets :=
    replicate 32 255
    ++ calculate_agreement (id_private (a_our_identity p)) (a_their_signed_pre_key p)
    ++ calculate_agreement our_base (a_their_identity p)
    ++ calculate_agreement our_base (a_their_signed_pre_key p)
    ++ match a_their_one_time p with
       | Some k => calculate_agreement our_base k
       | None => []
       end in
  let '(root, chain, _) := derive_root_keys (str "WhisperText") secrets in
  let '(sending_root, sending_chain) :=
    create_chain root (a_their_ratchet p) (kp_private sending_ratchet) in
  set_sender_chain
    (add_receiver_chain
       (session_new 3 (id_public (a_our_identity p)) (a_their_identity p) sending_root
          (kp_public (a_our_base p)))
       (a_their_ratchet p) chain)
    sending_ratchet sending_chain.
Definition initialize_bob_session (p : BobSignalProtocolParameters) : SessionState :=
  let signed := kp_private (b_our_signed_pre_key p) in
  let secrets :=
    replicate 32 255
    ++ calculate_agreement signed (b_their_identity p)
    ++ calculate_agreement (id_private (b_our_identity p)) (b_their_base p)
    ++ calculate_agreement signed (b_their_base p)
    ++ match b_our_one_time p with
       | Some k => calculate_agreement (kp_private k) (b_their_base p)
       | None => []
       end in
  let '(root, chain, _) := derive_root_keys (str "WhisperText") secrets in
  set_sender_chain
    (session_new 3 (id_public (b_our_identity p)) (b_their_identity p) root (b_their_base p))
    (b_our_ratchet p) chain.

(** The result says which one-time key was used and whether the session was already there. *)
Definition process_prekey_impl (m : PreKeySignalMessage) : MR (option Z * bool) :=
  found ← on_record (fun r => promote_matching_session r (pk_version m)
                                (public_serialize (pk_base_key m)));
  if found : bool then mret (None, true)
  else
    signed ← gets (fun '(w, _) => get_signed_pre_key w (pk_signed_pre_key_id m));
    signed ← lift (record_key_pair signed);
    one_time ← match pk_pre_key_id m with
               | Some id =>
                   k ← gets (fun '(w, _) => get_pre_key w id);
                   k ← lift (record_key_pair k);
                   mret (Some k)
               | None => mret None
               end;
    identity ← gets (fun '(w, _) => get_identity_key_pair w);
    let session := initialize_bob_session
                     (mkBob identity signed one_time signed (pk_identity_key m) (pk_base_key m)) in
    local_id ← gets (fun '(w, _) => get_local_registration_id w);
    let session := set_remote_registration_id (set_local_registration_id session local_id)
                     (pk_registration_id m) in
    _ ← on_record (modify (fun r => promote_state r session));
    mret (pk_pre_key_id m, false).
Definition process_prekey (m : PreKeySignalMessage) (address : ProtocolAddress)
    : MR (option Z * bool) :=
  trusted ← gets (fun '(w, _) => is_trusted_identity w address (pk_identity_key m) Receiving);
  if negb trusted then fail UntrustedIdentity else process_prekey_impl m.

Record PreKeyBundle : Type := mkBundle {
  bundle_registration_id : Z; bundle_device_id : Z; bundle_pre_key : option (Z * PublicKey);
  bundle_signed_id : Z; bundle_signed_public : PublicKey; bundle_signature : bytes;
  bundle_identity : PublicKey
}.
(** [random] for the base key and for the first sending ratchet key. *)
Definition process_prekey_bundle_inner (address : ProtocolAddress) (bundle : PreKeyBundle)
    (random_base random_ratchet : bytes) : MR IdentityChange :=
  let our_base := keypair_generate random_base in
  identity ← gets (fun '(w, _) => get_identity_key_pair w);
  let session :=
    initialize_alice_session
      (mkAlice identity our_base (bundle_identity bundle) (bundle_signed_public bundle)
         (snd <$> bundle_pre_key bundle) (bundle_signed_public bundle)) random_ratchet in
  let session := set_unacknowledged_pre_key_message session (fst <$> bundle_pre_key bundle)
                   (bundle_signed_id bundle) (kp_public our_base) in
  local_id ← gets (fun '(w, _) => get_local_registration_id w);
  let session := set_remote_registration_id (set_local_registration_id session local_id)
                   (bundle_registration_id bundle) in
  change ← on_world (save_identity address (bundle_identity bundle));
  _ ← on_record (modify (fun r => promote_state r session));
  mret change.
Definition process_prekey_bundle (address : ProtocolAddress) (bundle : PreKeyBundle)
    (random_base random_ratchet : bytes) : M W IdentityChange :=
  trusted ← gets (fun w => is_trusted_identity w address (bundle_identity bundle) Sending);
  if negb trusted then fail UntrustedIdentity
  else if negb (public_verify (bundle_identity bundle)
                  [public_serialize (bundle_signed_public bundle)] (bundle_signature bundle))
  then fail SignatureValidationFailed
  else
    existing ← gets (fun w => load_session w address);
    state (fun w =>
    match process_prekey_bundle_inner address bundle random_base random_ratchet
            (w, default record_new_fresh existing) with
    | ((w, _), Panic) => (w, Panic)
    | ((w, _), Timeout) => (w, Timeout)
    | ((w, r), res) =>
        if bool_decide (is_Some existing) || negb (is_err res)
        then (_ ← store_session address r; lift res) w else (w, res)
    end).

(** ** Decryption *)

Record DecryptionResult : Type := mkDecryption {
  plaintext : bytes; identity_change : IdentityChange; consumed_prekey_id : option Z
}.

Definition message_decrypt_signal_inner (m : SignalMessage) (address : ProtocolAddress)
    (random : nat -> bytes) : MR (bytes * IdentityChange) :=
  degenerate ← gets (fun '(_, r) =>
    Ok (match current_session r with None => true | _ => false end
        && (length (previous_sessions r) =? 0)%nat));
  if degenerate : bool then fail SessionNotFound
  else
    '(ptext, used_previous) ← on_record (decrypt_message_with_record m Whisper random);
    their_identity ← gets (fun '(_, r) =>
      match s ← current_session r; ok (remote_identity_key s) with
      | Some (Some k) => Ok k
      | _ => Panic
      end);
    if used_previous : bool then
      _ ← on_world (save_identity address their_identity);
      mret (ptext, NewOrUnchanged)
    else
      trusted ← gets (fun '(w, _) => is_trusted_identity w address their_identity Receiving);
      if negb trusted then fail UntrustedIdentity
      else
        change ← on_world (save_identity address their_identity);
        mret (ptext, change).
Definition message_decrypt_signal (m : SignalMessage) (address : ProtocolAddress)
    (random : nat -> bytes) : M W DecryptionResult :=
  r ← gets (fun w => load_session w address);
  r ← lift (ok_or r SessionNotFound);
  '(ptext, change) ← with_record address r (message_decrypt_signal_inner m address random);
  mret (mkDecryption ptext change None).

Definition message_decrypt_prekey_inner (m : PreKeySignalMessage) (address : ProtocolAddress)
    (random : nat -> bytes) : MR (bytes * option Z * IdentityChange) :=
  '(pre_key_used, reused) ← process_prekey m address;
  '(ptext, _) ← on_record (decrypt_message_with_record (pk_message m) PreKey random);
  saved ← on_world (save_identity address (pk_identity_key m));
  mret (ptext, pre_key_used, if reused : bool then NewOrUnchanged else saved).
(** After an error the record is put back as it was, if there was one. *)
Definition message_decrypt_prekey (m : PreKeySignalMessage) (address : ProtocolAddress)
    (random : nat -> bytes) : M W DecryptionResult :=
  existing ← gets (fun w => load_session w address);
  '(ptext, used, change) ← state (fun w =>
    match message_decrypt_prekey_inner m address random (w, default record_new_fresh existing) with
    | ((w, _), Panic) => (w, Panic)
    | ((w, _), Timeout) => (w, Timeout)
    | ((w, r), Ok a) =>
        if bool_decide (is_Some existing) || bool_decide (is_Some (current_session r))
        then (_ ← store_session address r; mret a) w else (w, Ok a)
    | ((w, _), Err e) =>
        match existing with
        | Some snapshot => (_ ← store_session address snapshot; fail e) w
        | None => (w, Err e)
        end
    end);
  mret (mkDecryption ptext change used).
Definition message_decrypt (m : CiphertextMessage) (address : ProtocolAddress)
    (random : nat -> bytes) : M W DecryptionResult :=
  match m with
  | CSignal m => message_decrypt_signal m address random
  | CPreKey m => message_decrypt_prekey m address random
  end.
End Stores.
