(* ===== verification/SessionSafety.v ===== *)
(** * Decryption is transactional and total

    What [session_cipher.rs] promises whatever it is fed: a failed decryption leaves the
    session state, and the record with its archived sessions, exactly as they were; no
    message makes it panic; and what it keeps is bounded. *)

From stdpp Require Import prelude strings.
From S2P Require Import Prelude Noise Curve SignalBase Ratchet Session SignalMessages SessionCipher.

#[local] Open Scope Z_scope.

(** ** A small program logic for [M] *)

(** What a computation leaves, also after an error, is related to what it was given. *)
Definition keeps {S A} (R : S -> S -> Prop) (m : M S A) : Prop := forall s, R s (fst (m s)).
(** From [P] it neither panics nor diverges; a success leaves [Q], an error [E]. *)
Definition hoare {S A} (P : S -> Prop) (m : M S A) (Q : A -> S -> Prop) (E : S -> Prop) : Prop :=
  forall s, P s ->
  match m s with
  | (s', Ok a) => Q a s'
  | (s', Err _) => E s'
  | (_, Panic) | (_, Timeout) => False
  end.

Lemma keeps_bind {S A B} (R : S -> S -> Prop) `{!PreOrder R} (m : M S A) (f : A -> M S B) :
  keeps R m -> (forall a, keeps R (f a)) -> keeps R (m ≫= f).
Proof.
  intros Hm Hf s. unfold mbind, M_bind. specialize (Hm s). destruct (m s) as [s' [a| | |]]; try done.
  etrans; [exact Hm|apply Hf].
Qed.
Lemma keeps_lift {S A} (R : S -> S -> Prop) `{!Reflexive R} (o : result A) : keeps R (lift o).
Proof. intros s. done. Qed.
Lemma keeps_gets {S A} (R : S -> S -> Prop) `{!Reflexive R} (f : S -> result A) : keeps R (gets f).
Proof. intros s. done. Qed.
Lemma keeps_ret {S A} (R : S -> S -> Prop) `{!Reflexive R} (a : A) : keeps R (mret (M := M S) a).
Proof. intros s. done. Qed.
Lemma keeps_fail {S A} (R : S -> S -> Prop) `{!Reflexive R} e : keeps R (fail (S := S) (A := A) e).
Proof. intros s. done. Qed.
Lemma keeps_modify {S} (R : S -> S -> Prop) (f : S -> S) : (forall s, R s (f s)) -> keeps R (modify f).
Proof. intros H s. apply H. Qed.

Lemma hoare_bind {S A B} P (m : M S A) Q (f : A -> M S B) T E :
  hoare P m Q E -> (forall a, hoare (Q a) (f a) T E) -> hoare P (m ≫= f) T E.
Proof.
  intros Hm Hf s Hs. unfold mbind, M_bind. specialize (Hm s Hs).
  destruct (m s) as [s' [a| | |]]; try done. by apply Hf.
Qed.
(** The state is not changed, so what held of it still holds. *)
Lemma hoare_lift {S A} (P E : S -> Prop) (o : result A) :
  returns o -> (forall s, P s -> E s) -> hoare P (lift o) (fun a s => P s /\ o = Ok a) E.
Proof. intros Ho HE s Hs. cbn. destruct o; try done. by apply HE. Qed.
Lemma hoare_gets {S A} (P E : S -> Prop) (f : S -> result A) :
  (forall s, P s -> returns (f s)) -> (forall s, P s -> E s) ->
  hoare P (gets f) (fun a s => P s /\ f s = Ok a) E.
Proof. intros Hf HE s Hs. cbn. specialize (Hf s Hs). destruct (f s) eqn:Hfs; try done. by apply HE. Qed.
Lemma hoare_ret {S A} (P : S -> Prop) (Q : A -> S -> Prop) E a :
  (forall s, P s -> Q a s) -> hoare P (mret (M := M S) a) Q E.
Proof. intros H s Hs. by apply H. Qed.
Lemma hoare_fail {S A} (P E : S -> Prop) (Q : A -> S -> Prop) e :
  (forall s, P s -> E s) -> hoare P (fail e) Q E.
Proof. intros H s Hs. by apply H. Qed.
Lemma hoare_modify {S} (P : S -> Prop) f (Q E : S -> Prop) :
  (forall s, P s -> Q (f s)) -> hoare P (modify f) (fun _ => Q) E.
Proof. intros H s Hs. by apply H. Qed.
Lemma hoare_pre {S A} (P P' : S -> Prop) (m : M S A) Q E :
  hoare P m Q E -> (forall s, P' s -> P s) -> hoare P' m Q E.
Proof. intros H HP s Hs. apply H, HP, Hs. Qed.
Lemma hoare_post {S A} (P : S -> Prop) (m : M S A) (Q Q' : A -> S -> Prop) (E E' : S -> Prop) :
  hoare P m Q E -> (forall a s, Q a s -> Q' a s) -> (forall s, E s -> E' s) -> hoare P m Q' E'.
Proof. intros H HQ HE s Hs. specialize (H s Hs). destruct (m s) as [s' []]; eauto. Qed.
(** A fact that does not depend on the state is known for the rest. *)
Lemma hoare_pure {S A} (P : S -> Prop) (F : Prop) (m : M S A) Q E :
  (F -> hoare P m Q E) -> hoare (fun s => P s /\ F) m Q E.
Proof. intros H s [Hs HF]. by apply H. Qed.

Section Safety.
Context {DK : Dalek} {SC : SignalCrypto} {LG : Logging}.

(** ** Frame: the fields decryption never writes *)

Definition static (s : SessionState) :=
  (s_version s, s_local_identity s, s_remote_identity s, s_pending_pre_key s,
   s_remote_registration_id s, s_local_registration_id s, s_alice_base_key s).
Definition frame (s s' : SessionState) : Prop := static s' = static s.
#[local] Instance frame_preorder : PreOrder frame.
Proof. unfold frame. split; [done|]. intros x y z -> ->. done. Qed.

Lemma restore_snapshot s s' : frame s s' -> restore_decrypt_snapshot s' (decrypt_snapshot s) = s.
Proof. destruct s, s'. unfold frame, static. cbn. intros [= -> -> -> -> -> -> ->]. done. Qed.

Lemma set_message_keys_frame sender g : keeps frame (fun s => set_message_keys s sender g).
Proof. intros s. unfold set_message_keys. by destruct (get_receiver_chain_index s sender) as [[]| | |]. Qed.
Lemma set_receiver_chain_key_frame sender k : keeps frame (fun s => set_receiver_chain_key s sender k).
Proof.
  intros s. unfold set_receiver_chain_key. by destruct (get_receiver_chain_index s sender) as [[]| | |].
Qed.
Lemma get_message_keys_frame sender n : keeps frame (fun s => get_message_keys s sender n).
Proof.
  intros s. unfold get_message_keys. destruct (get_receiver_chain_index s sender) as [[i|]| | |]; try done.
  destruct (s_receiver_chains s !! i) as [c|]; [|done].
  destruct (find_key n (message_keys c) 0) as [[p|]| | |]; try done. by destruct (message_keys c !! p).
Qed.

Lemma ratchet_to_frame fuel their chain counter : keeps frame (ratchet_to fuel their chain counter).
Proof.
  revert chain. induction fuel as [|fuel IH]; intros chain; [by intros s|]. cbn [ratchet_to].
  destruct (_ <? _); (apply keeps_bind; [apply _|apply keeps_lift, _|]); intros [g c].
  - apply keeps_bind; [apply _|apply set_message_keys_frame|]. intros _. apply IH.
  - apply keeps_bind; [apply _|apply set_receiver_chain_key_frame|]. intros _. apply keeps_ret, _.
Qed.

Lemma pending_frame m ty random : keeps frame (decrypt_with_pending_state m ty random).
Proof.
  unfold decrypt_with_pending_state. apply keeps_bind; [apply _| |intros chain].
  - unfold get_or_create_chain_key. apply keeps_bind; [apply _|apply keeps_gets, _|]. intros [c|].
    { apply keeps_ret, _. }
    repeat (apply keeps_bind; [apply _|first [apply keeps_gets, _|by apply keeps_modify]|intros ?]).
    apply keeps_ret, _.
  - apply keeps_bind; [apply _| |intros gen].
    { unfold get_or_create_message_key. destruct (_ <? _).
      - apply keeps_bind; [apply _|apply get_message_keys_frame|].
        intros [g|]; [apply keeps_ret, _|apply keeps_fail, _].
      - apply keeps_bind; [apply _| |intros _; apply ratchet_to_frame].
        destruct (_ <? _); [|apply keeps_ret, _]. apply keeps_bind; [apply _|apply keeps_gets, _|].
        intros []; [apply keeps_ret, _|apply keeps_fail, _]. }
    repeat (apply keeps_bind; [apply _|first [apply keeps_gets, _|apply keeps_lift, _]|intros ?]).
    destruct (negb _); [apply keeps_fail, _|].
    apply keeps_bind; [apply _|apply keeps_lift, _|intros ?]. apply keeps_lift, _.
Qed.

(** ** Receiver chains *)

Lemma find_chain_Some b l i j :
  find_chain b l i = Ok (Some j) ->
  exists n c, j = (i + n)%nat /\ l !! n = Some c /\ sender_ratchet_pub c = Some b.
Proof.
  revert i. induction l as [|c l IH]; intros i; cbn [find_chain]; [done|].
  destruct (sender_ratchet_pub c) as [k|] eqn:Hk; [|done]. cbn [ok_or mbind outcome_bind].
  destruct (_ || _); [done|]. destruct (bytes_eqb k b) eqn:Hb.
  - intros [= <-]. exists 0%nat, c. apply bytes_eqb_eq in Hb as ->. by rewrite Nat.add_0_r.
  - intros H. destruct (IH _ H) as (n & c' & -> & Hn & Hp). exists (S n), c'.
    split_and!; [lia|done..].
Qed.

(** The search only looks at the ratchet keys. *)
Lemma find_chain_pubs b l l' i :
  sender_ratchet_pub <$> l = sender_ratchet_pub <$> l' -> find_chain b l i = find_chain b l' i.
Proof.
  revert l' i. induction l as [|c l IH]; intros [|c' l'] i; try done.
  rewrite !fmap_cons. intros [= Hc Hl]. cbn [find_chain]. rewrite Hc.
  destruct (sender_ratchet_pub c'); [|done]. cbn [ok_or mbind outcome_bind].
  destruct (_ || _); [done|]. destruct (bytes_eqb _ _); [done|]. by apply IH.
Qed.

Lemma alter_pubs f (i : nat) (l : list Chain) :
  (forall c, sender_ratchet_pub (f c) = sender_ratchet_pub c) ->
  sender_ratchet_pub <$> alter f i l = sender_ratchet_pub <$> l.
Proof.
  intros Hf. apply list_eq. intros j. rewrite !list_lookup_fmap.
  destruct (decide (i = j)) as [<-|Hne].
  - rewrite list_lookup_alter_eq. destruct (l !! i); [|done]. cbn. by rewrite Hf.
  - by rewrite list_lookup_alter_ne.
Qed.

Lemma index_update s idx f sender :
  (forall c, sender_ratchet_pub (f c) = sender_ratchet_pub c) ->
  get_receiver_chain_index (update_chain s idx f) sender = get_receiver_chain_index s sender.
Proof. intros Hf. apply find_chain_pubs. cbn. by apply alter_pubs. Qed.

Lemma put_same_key c k : read_chain_key c = Ok k -> put_chain_key k c = c.
Proof.
  destruct c as [p pr [[i b]|] l]; [|done]. unfold read_chain_key. cbn.
  destruct b as [b|]; [|done]. cbn. unfold array. destruct (zlen b =? 32); [|done]. cbn.
  destruct i; [|done]. intros [= <-]. done.
Qed.

Lemma get_chain_inv s sender c :
  get_receiver_chain_key s sender = Ok (Some c) ->
  exists idx ch, get_receiver_chain_index s sender = Ok (Some idx)
    /\ s_receiver_chains s !! idx = Some ch /\ read_chain_key ch = Ok c.
Proof.
  unfold get_receiver_chain_key. destruct (get_receiver_chain_index s sender) as [[i|]| | |]; try done.
  cbn. destruct (s_receiver_chains s !! i) as [ch|] eqn:Hch; [|done].
  destruct (read_chain_key ch) as [k| | |] eqn:Hr; try done. cbn. intros [= <-].
  exists i, ch. by rewrite Hch.
Qed.

Lemma alter_fix f (i : nat) (l : list Chain) c :
  l !! i = Some c -> f c = c -> alter f i l = l.
Proof.
  intros Hc Hf. apply list_eq. intros j. destruct (decide (i = j)) as [<-|Hne].
  - rewrite list_lookup_alter_eq, Hc. cbn. by rewrite Hf.
  - by rewrite list_lookup_alter_ne.
Qed.
Lemma alter_undo f g (i : nat) (l : list Chain) c :
  l !! i = Some c -> f (g c) = c -> alter f i (alter g i l) = l.
Proof. intros Hc Hf. rewrite list_alter_alter_eq. by eapply alter_fix. Qed.

(** ** Rollback of an in-order message: setting the chain key back is enough *)

Lemma fast_rollback_undoes s m ty random c :
  fast_rollback s m = Some c ->
  fst (set_receiver_chain_key (fst (decrypt_with_pending_state m ty random s)) (sm_ratchet_key m) c)
  = s.
Proof.
  unfold fast_rollback. destruct (get_receiver_chain_key s (sm_ratchet_key m)) as [[c'|]| | |] eqn:Hg;
    try done. destruct (Z.eqb_spec (chain_index c') (sm_counter m)) as [Hi|]; [|done]. intros [= ->].
  destruct (get_chain_inv _ _ _ Hg) as (idx & ch & Hidx & Hch & Hread).
  pose (near s' := s' = s \/ exists k, s' = update_chain s idx (put_chain_key k)).
  assert (Hundo : forall s', near s' -> fst (set_receiver_chain_key s' (sm_ratchet_key m) c) = s).
  { intros s' [->|[k ->]]; unfold set_receiver_chain_key.
    - rewrite Hidx. cbn [fst]. destruct s. unfold update_chain. cbn in *. unfold with_receiver_chains. cbn.
      f_equal. eapply alter_fix; [done|]. by apply put_same_key.
    - rewrite index_update, Hidx by done. cbn [fst]. destruct s. unfold update_chain. cbn in *.
      unfold with_receiver_chains. cbn. f_equal.
      eapply alter_undo; [done|].
      change (put_chain_key c (put_chain_key k ch)) with (put_chain_key c ch). exact (put_same_key ch c Hread). }
  apply Hundo. unfold decrypt_with_pending_state. unfold mbind at 1, M_bind at 1.
  assert (Hchain : get_or_create_chain_key (sm_ratchet_key m) random s = (s, Ok c)).
  { unfold get_or_create_chain_key, mbind, M_bind, gets. by rewrite Hg. }
  rewrite Hchain. unfold mbind at 1, M_bind at 1.
  assert (Hkey : let '(s', _) := get_or_create_message_key (sm_ratchet_key m) ty c (sm_counter m) s in
                 near s').
  { unfold get_or_create_message_key. rewrite <- Hi, Z.ltb_irrefl, Z.sub_diag.
    cbn [Z.to_nat ratchet_to]. rewrite Z.ltb_irrefl. change (MAX_FORWARD_JUMPS <? 0) with false. cbv iota.
    unfold mbind, M_bind, mret, M_ret, lift, state.
    destruct (step_with_message_keys c) as [[g next]| | |]; [|by left..].
    unfold set_receiver_chain_key. rewrite Hidx. right. by exists next. }
  destruct (get_or_create_message_key _ _ _ _ s) as [s' [gen| | |]]; try done.
  match goal with |- context [fst (?f s')] => assert (Hk : keeps eq f) end.
  { repeat (apply keeps_bind; [apply _|first [apply keeps_gets, _|apply keeps_lift, _]|intros ?]).
    destruct (negb _); [apply keeps_fail, _|].
    apply keeps_bind; [apply _|apply keeps_lift, _|intros ?]. apply keeps_lift, _. }
  specialize (Hk s'). cbn beta in Hk. rewrite <- Hk. exact Hkey.
Qed.

Lemma decrypt_state_rollback m ty random s s' e :
  decrypt_message_with_state m ty random s = (s', Err e) -> s' = s.
Proof.
  unfold decrypt_message_with_state. destruct (root_key s); try congruence.
  destruct (negb _); [congruence|].
  pose proof (pending_frame m ty random s) as Hf.
  pose proof (fast_rollback_undoes s m ty random) as Hfast.
  destruct (decrypt_with_pending_state m ty random s) as [s1 [p|e1| |]]; try discriminate.
  cbn [fst] in *. intros [= <- _]. destruct (fast_rollback s m) as [c|]; [by apply Hfast|].
  by apply restore_snapshot.
Qed.

(** ** Rollback of a record *)

Lemma take_restore r i r1 x :
  take_previous_session r i = (r1, Some x) -> restore_previous_session r1 i x = r.
Proof.
  unfold take_previous_session, restore_previous_session. destruct r as [c l]. cbn.
  destruct (l !! i) as [y|] eqn:Hi; [|done]. intros [= <- ->]. cbn. f_equal.
  rewrite delete_take_drop. pose proof (lookup_lt_Some _ _ _ Hi).
  assert (Hl : length (take i l) = i) by (rewrite length_take; lia).
  rewrite length_app, Hl. destruct (Nat.leb_spec i (i + length (drop (S i) l))); [|lia].
  rewrite take_app_le, drop_app_ge by lia. rewrite Hl, Nat.sub_diag, drop_0, firstn_all2 by lia.
  by apply take_drop_middle.
Qed.

Lemma try_previous_rollback n idx m ty random errs r r' e :
  try_previous n idx m ty random errs r = (r', Err e) -> r' = r.
Proof.
  revert idx errs. induction n as [|n IH]; intros idx errs; cbn [try_previous]; [congruence|].
  destruct (take_previous_session r idx) as [r1 [x|]] eqn:Ht.
  2: { intros [= <- _]. unfold take_previous_session in Ht. by destruct (_ !! _); simplify_eq. }
  pose proof (take_restore _ _ _ _ Ht) as Hr.
  destruct (decrypt_message_with_state m ty (random (S idx)) x) as [x' [p|e'| |]] eqn:Hd; try done.
  { by destruct (log_success x'). }
  apply decrypt_state_rollback in Hd as ->. rewrite Hr. destruct e'; try congruence; apply IH.
Qed.

(** A failed decryption leaves the record as it was: no chain is advanced, no skipped key is
    taken, and the archived sessions taken out to be tried are back in their places. *)
Lemma decrypt_record_rollback m ty random r r' e :
  decrypt_message_with_record m ty random r = (r', Err e) -> r' = r.
Proof.
  unfold decrypt_message_with_record, take_session_state. destruct r as [[x|] l]; cbn.
  - destruct (decrypt_message_with_state m ty (random O) x) as [x' [p|e'| |]] eqn:Hd; try done.
    { by destruct (log_success x'). }
    apply decrypt_state_rollback in Hd as ->. cbn.
    destruct e'; first [by intros [= <- _]
      | destruct ty; [apply try_previous_rollback|by intros [= <- _]|done|done]].
  - apply try_previous_rollback.
Qed.

(** ** The readers return *)

Lemma public_deserialize_returns b : returns (public_deserialize b).
Proof.
  unfold public_deserialize. destruct b; [done|]. apply bind_returns; [|intros ? _; by case_match].
  unfold key_type_try_from. by repeat case_match.
Qed.
Lemma private_deserialize_returns b : returns (private_deserialize b).
Proof. unfold private_deserialize. by repeat case_match. Qed.
Lemma root_key_returns s : returns (root_key s).
Proof. apply fmap_returns, ok_or_returns. Qed.
Lemma remote_identity_returns s : returns (remote_identity_key s).
Proof.
  unfold remote_identity_key. case_match; [done|].
  apply fmap_returns, map_err_returns, public_deserialize_returns.
Qed.
Lemma local_identity_returns s : returns (local_identity_key s).
Proof. apply map_err_returns, public_deserialize_returns. Qed.
Lemma session_with_self_returns s : returns (session_with_self s).
Proof.
  apply bind_returns; [apply remote_identity_returns|]. intros [r|] _; [|done].
  apply bind_returns; [apply local_identity_returns|done].
Qed.
Lemma read_chain_key_returns c : returns (read_chain_key c).
Proof. unfold read_chain_key. by repeat (apply bind_returns; [apply ok_or_returns|intros ? _]). Qed.
Lemma sender_chain_key_returns s : returns (get_sender_chain_key s).
Proof. apply bind_returns; [apply ok_or_returns|]. intros ? _. apply read_chain_key_returns. Qed.
Lemma ratchet_private_returns s : returns (sender_ratchet_private_key s).
Proof.
  apply bind_returns; [apply ok_or_returns|intros ? _]. apply bind_returns; [apply ok_or_returns|intros ? _].
  apply map_err_returns, private_deserialize_returns.
Qed.
Lemma ratchet_key_returns s : returns (sender_ratchet_key s).
Proof.
  apply bind_returns; [apply ok_or_returns|intros ? _]. apply bind_returns; [apply ok_or_returns|intros ? _].
  apply map_err_returns, public_deserialize_returns.
Qed.
Lemma step_returns c : returns (step_with_message_keys c).
Proof. apply bind_returns; [apply ok_or_returns|done]. Qed.
Lemma compute_mac_returns a b k m : returns (compute_mac a b k m).
Proof. unfold compute_mac. by case_match. Qed.
Lemma verify_mac_returns m a b k : returns (verify_mac m a b k).
Proof. apply bind_returns; [apply compute_mac_returns|done]. Qed.
Lemma sm_body_returns m : returns (sm_body m).
Proof. apply bind_returns; [apply ok_or_returns|]. intros [[[]]] _. apply ok_or_returns. Qed.
Lemma cbc_decrypt_returns c k iv o : returns (aes_256_cbc_decrypt_into c k iv o).
Proof. unfold aes_256_cbc_decrypt_into. case_match; [apply ok_or_returns|done]. Qed.
Lemma find_chain_returns b l i : returns (find_chain b l i).
Proof.
  revert i. induction l as [|c l IH]; intros i; cbn [find_chain]; [done|].
  apply bind_returns; [apply ok_or_returns|intros ? _]. case_match; [done|]. case_match; [done|apply IH].
Qed.
Lemma find_key_lookup n l i j :
  find_key n l i = Ok (Some j) -> exists k, j = (i + k)%nat /\ is_Some (l !! k).
Proof.
  revert i. induction l as [|m l IH]; intros i; cbn [find_key]; [done|].
  destruct (pb_index m) as [x|]; [|done]. cbn [ok_or mbind outcome_bind]. destruct (x =? n).
  - intros [= <-]. exists 0%nat. rewrite Nat.add_0_r. by eexists.
  - intros H. destruct (IH _ H) as (k & -> & Hk). exists (S k). split; [lia|done].
Qed.
Lemma find_key_returns n l i : returns (find_key n l i).
Proof.
  revert i. induction l as [|m l IH]; intros i; cbn [find_key]; [done|].
  apply bind_returns; [apply ok_or_returns|intros ? _]. case_match; [done|apply IH].
Qed.
Lemma receiver_chain_key_returns s sender : returns (get_receiver_chain_key s sender).
Proof.
  apply bind_returns; [apply find_chain_returns|]. intros [i|] Hi; [|done].
  apply find_chain_Some in Hi as (n & c & -> & Hc & _). cbn. rewrite Hc.
  apply fmap_returns, read_chain_key_returns.
Qed.

(** ** What a session keeps is bounded *)

Definition chain_bounded (c : Chain) : Prop :=
  zlen (message_keys c) <= MAX_MESSAGE_KEYS + MESSAGE_KEY_PRUNE_THRESHOLD + 1.
Definition state_bounded (s : SessionState) : Prop :=
  zlen (s_receiver_chains s) <= MAX_RECEIVER_CHAINS /\ Forall chain_bounded (s_receiver_chains s).

Lemma update_bounded s idx f :
  (forall c, chain_bounded c -> chain_bounded (f c)) -> state_bounded s ->
  state_bounded (update_chain s idx f).
Proof.
  intros Hf [Hl Hc]. split; cbn; [unfold zlen in *; by rewrite length_alter|].
  by apply Forall_alter; [|naive_solver].
Qed.
Lemma add_chain_bounded s sender k : state_bounded s -> state_bounded (add_receiver_chain s sender k).
Proof.
  intros [Hl Hc]. unfold add_receiver_chain. set (c := mkChain _ _ _ _). unfold with_receiver_chains.
  assert (Hcs : Forall chain_bounded (s_receiver_chains s ++ [c]))
    by (apply Forall_app; split; [done|]; by apply Forall_singleton).
  split; cbn [s_receiver_chains]; (destruct (Z.ltb_spec MAX_RECEIVER_CHAINS
    (zlen (s_receiver_chains s ++ [c]))); [|done]).
  - unfold zlen in *. rewrite length_drop. unfold MAX_RECEIVER_CHAINS in *. lia.
  - by apply Forall_drop.
Qed.

(** While a message is decrypted its chain is there. *)
Definition has_chain (sender : PublicKey) (s : SessionState) : Prop :=
  Some (public_serialize sender) ∈ sender_ratchet_pub <$> s_receiver_chains s.
Definition holds (sender : PublicKey) (s : SessionState) : Prop :=
  state_bounded s /\ has_chain sender s.
Abbreviation any := (fun _ => True).

Lemma find_chain_present b l i : Some b ∈ sender_ratchet_pub <$> l -> find_chain b l i <> Ok None.
Proof.
  revert i. induction l as [|c l IH]; intros i; [by intros ?%elem_of_nil|].
  rewrite fmap_cons, elem_of_cons. cbn [find_chain].
  destruct (sender_ratchet_pub c) as [k|]; [|done]. cbn [ok_or mbind outcome_bind].
  destruct (_ || _); [done|]. destruct (bytes_eqb k b) eqn:Hb; [done|].
  intros [[= ->]|Hin]; [by rewrite bytes_eqb_refl in Hb|by apply IH].
Qed.
Lemma index_present s sender : has_chain sender s ->
  (exists i, get_receiver_chain_index s sender = Ok (Some i))
  \/ (exists e, get_receiver_chain_index s sender = Err e).
Proof.
  intros H. pose proof (find_chain_present _ _ 0 H) as Hn.
  pose proof (find_chain_returns (public_serialize sender) (s_receiver_chains s) 0) as Hr.
  fold (get_receiver_chain_index s sender) in Hn, Hr.
  destruct (get_receiver_chain_index s sender) as [[i|]|e| |]; eauto; done.
Qed.
Lemma update_holds sender s idx f :
  (forall c, chain_bounded c -> chain_bounded (f c)) ->
  (forall c, sender_ratchet_pub (f c) = sender_ratchet_pub c) ->
  holds sender s -> holds sender (update_chain s idx f).
Proof.
  intros Hb Hp [Hs Hc]. split; [by apply update_bounded|].
  unfold has_chain. cbn. by rewrite alter_pubs.
Qed.
Lemma put_key_bounded l g :
  let len := zlen l in
  zlen ((if MAX_MESSAGE_KEYS + MESSAGE_KEY_PRUNE_THRESHOLD <? len
         then drop (Z.to_nat (len - MAX_MESSAGE_KEYS)) l else l) ++ [into_pb g])
  <= MAX_MESSAGE_KEYS + MESSAGE_KEY_PRUNE_THRESHOLD + 1.
Proof.
  intros len. rewrite zlen_app. change (zlen [into_pb g]) with 1.
  destruct (Z.ltb_spec (MAX_MESSAGE_KEYS + MESSAGE_KEY_PRUNE_THRESHOLD) len); [|fold len; lia].
  unfold zlen at 1. rewrite length_drop. unfold len, zlen in *.
  unfold MAX_MESSAGE_KEYS, MESSAGE_KEY_PRUNE_THRESHOLD in *. lia.
Qed.

Lemma hoare_set_message_keys sender g :
  hoare (holds sender) (fun s => set_message_keys s sender g) (fun _ => holds sender) any.
Proof.
  intros s Hs. unfold set_message_keys.
  destruct (index_present s sender (proj2 Hs)) as [[i ->]|[e ->]]; [|done].
  apply update_holds; [|done|done]. intros c _. apply put_key_bounded.
Qed.
Lemma hoare_set_receiver_chain_key sender k :
  hoare (holds sender) (fun s => set_receiver_chain_key s sender k) (fun _ => holds sender) any.
Proof.
  intros s Hs. unfold set_receiver_chain_key.
  destruct (index_present s sender (proj2 Hs)) as [[i ->]|[e ->]]; [|done]. by apply update_holds.
Qed.
Lemma hoare_get_message_keys sender n :
  hoare (holds sender) (fun s => get_message_keys s sender n) (fun _ => holds sender) any.
Proof.
  intros s Hs. unfold get_message_keys.
  destruct (index_present s sender (proj2 Hs)) as [[i Hi]|[e ->]]; [|done]. rewrite Hi.
  apply find_chain_Some in Hi as (j & c & -> & Hc & _). cbn [Nat.add]. rewrite Hc.
  pose proof (find_key_returns n (message_keys c) 0) as Hr.
  destruct (find_key n (message_keys c) 0) as [[p|]|e| |] eqn:Hp; try done.
  apply find_key_lookup in Hp as (k & -> & [mk Hk]). cbn [Nat.add]. rewrite Hk.
  assert (Hb : holds sender (update_chain s j (put_message_keys (delete k (message_keys c))))).
  { apply update_holds; [|done|done]. intros c' _. unfold chain_bounded. cbn.
    assert (Hcb : chain_bounded c) by (eapply Forall_lookup_1; [exact (proj2 (proj1 Hs))|exact Hc]).
    unfold chain_bounded, zlen in *. rewrite length_delete by (by exists mk). lia. }
  by destruct (from_pb mk).
Qed.

(** The loop has enough fuel: the chain is one step closer to the counter every time. *)
Lemma hoare_ratchet_to fuel their chain counter :
  counter - chain_index chain < Z.of_nat fuel ->
  0 < Z.of_nat fuel ->
  hoare (holds their) (ratchet_to fuel their chain counter) (fun _ => holds their) any.
Proof.
  revert chain. induction fuel as [|fuel IH]; intros chain Hf Hpos; [lia|]. cbn [ratchet_to].
  destruct (Z.ltb_spec (chain_index chain) counter).
  - eapply hoare_bind; [apply hoare_lift; [apply step_returns|done]|]. intros [g next].
    apply hoare_pure. intros Hstep.
    assert (Hi : chain_index next = chain_index chain + 1).
    { unfold step_with_message_keys, checked_add_1 in Hstep. destruct (_ =? _); [done|].
      by injection Hstep as _ <-. }
    eapply hoare_bind; [apply hoare_set_message_keys|]. intros []. apply IH; lia.
  - eapply hoare_bind; [apply hoare_lift; [apply step_returns|done]|]. intros [g next].
    apply hoare_pure. intros _. eapply hoare_bind; [apply hoare_set_receiver_chain_key|]. intros [].
    by apply hoare_ret.
Qed.

Lemma add_chain_present s sender k : has_chain sender (add_receiver_chain s sender k).
Proof.
  unfold has_chain, add_receiver_chain. cbn [s_receiver_chains with_receiver_chains].
  set (c := mkChain _ _ _ _). destruct (Z.ltb_spec MAX_RECEIVER_CHAINS (zlen (s_receiver_chains s ++ [c]))).
  - rewrite drop_app_le, fmap_app; [apply elem_of_app; right; by left|].
    unfold zlen in *. rewrite length_app in *. unfold MAX_RECEIVER_CHAINS in *. cbn in *. lia.
  - rewrite fmap_app. apply elem_of_app. right. by left.
Qed.
Lemma chain_key_present s sender c :
  get_receiver_chain_key s sender = Ok (Some c) -> has_chain sender s.
Proof.
  intros (i & ch & Hi & _)%get_chain_inv. apply find_chain_Some in Hi as (n & c' & -> & Hn & Hp).
  apply list_elem_of_fmap. exists c'. split; [done|]. by eapply list_elem_of_lookup_2.
Qed.

Lemma hoare_chain_key their random :
  hoare state_bounded (get_or_create_chain_key their random) (fun _ => holds their) any.
Proof.
  unfold get_or_create_chain_key.
  eapply hoare_bind; [apply hoare_gets; [intros; apply receiver_chain_key_returns|done]|].
  intros [c|].
  { apply hoare_ret. intros s [Hb Hk]. split; [done|]. by eapply chain_key_present. }
  eapply hoare_bind; [apply hoare_gets; [intros; apply root_key_returns|done]|]. intros root.
  eapply hoare_bind; [apply hoare_gets; [intros; apply ratchet_private_returns|done]|]. intros ours.
  eapply hoare_bind; [eapply (hoare_modify _ _ state_bounded); by intros s [[[? _] _] _]|]. intros [].
  eapply hoare_bind; [eapply (hoare_modify _ _ (holds their))|].
  { intros s Hs. split; [by apply add_chain_bounded|apply add_chain_present]. }
  intros []. eapply hoare_bind; [apply hoare_gets; [intros; apply sender_chain_key_returns|done]|].
  intros current.
  eapply hoare_bind; [by eapply (hoare_modify _ _ (holds their)); intros s [? _]|]. intros [].
  eapply hoare_bind; [by eapply (hoare_modify _ _ (holds their))|]. intros []. by apply hoare_ret.
Qed.

Lemma hoare_message_key their ty chain counter :
  hoare (holds their) (get_or_create_message_key their ty chain counter) (fun _ => holds their) any.
Proof.
  unfold get_or_create_message_key. destruct (Z.ltb_spec counter (chain_index chain)).
  - eapply hoare_bind; [apply hoare_get_message_keys|]. intros [g|]; [by apply hoare_ret|by apply hoare_fail].
  - eapply (hoare_bind _ _ (fun _ => holds their)); [|intros _; apply hoare_ratchet_to; lia].
    destruct (_ <? _); [|by apply hoare_ret].
    eapply hoare_bind; [apply hoare_gets; [intros; apply session_with_self_returns|done]|].
    intros []; [by apply hoare_ret; intros s [? _]|by apply hoare_fail].
Qed.

Definition identified (s : SessionState) : Prop := exists k, remote_identity_key s = Ok (Some k).

Lemma hoare_pending m ty random :
  hoare state_bounded (decrypt_with_pending_state m ty random)
    (fun _ s => state_bounded s /\ identified s) any.
Proof.
  unfold decrypt_with_pending_state.
  eapply hoare_bind; [apply hoare_chain_key|]. intros chain.
  eapply hoare_bind; [apply hoare_message_key|]. intros gen.
  eapply hoare_bind; [apply hoare_gets; [intros; apply remote_identity_returns|done]|]. intros o.
  eapply hoare_bind; [apply hoare_lift; [apply ok_or_returns|done]|]. intros their. apply hoare_pure.
  intros Ho. eapply hoare_bind; [apply hoare_gets; [intros; apply local_identity_returns|done]|].
  intros local. eapply hoare_bind; [apply hoare_lift; [apply verify_mac_returns|done]|]. intros valid.
  destruct (negb valid); [by apply hoare_fail|].
  eapply hoare_bind; [apply hoare_lift; [apply sm_body_returns|done]|]. intros body.
  eapply (hoare_post _ _ _ _ any); [apply hoare_lift; [apply map_err_returns, cbc_decrypt_returns|done]| |done].
  intros p s ([[[[[Hb _] Hid] _] _] _] & _). split; [done|]. destruct o as [k|]; [|done]. by exists k.
Qed.

(** A session that can send: its ratchet key is there and reads.  Receiving keeps it so. *)
Definition can_send (s : SessionState) : Prop := exists k, sender_ratchet_key s = Ok k.
Definition sends_on (s s' : SessionState) : Prop := can_send s -> can_send s'.
#[local] Instance sends_on_preorder : PreOrder sends_on.
Proof. unfold sends_on. split; [intros ? ?; done|]. intros x y z Hxy Hyz Hx. by apply Hyz, Hxy. Qed.

Lemma same_sender s s' : s_sender_chain s' = s_sender_chain s -> sends_on s s'.
Proof. unfold sends_on, can_send, sender_ratchet_key. by intros ->. Qed.
Lemma log_success_ok s : can_send s -> log_success s = Ok tt.
Proof. intros [k Hk]. unfold log_success. rewrite Hk. by destruct debug_enabled. Qed.

Context {DL : DalekLaws}.
Lemma new_sender s random k : can_send (set_sender_chain s (keypair_generate random) k).
Proof.
  eexists. unfold sender_ratchet_key. cbn [set_sender_chain put_sender_chain s_sender_chain ok_or
    mbind outcome_bind sender_ratchet_pub]. by rewrite public_roundtrip by apply x25519_len.
Qed.
Lemma ratchet_to_sends fuel their chain counter : keeps sends_on (ratchet_to fuel their chain counter).
Proof.
  revert chain. induction fuel as [|fuel IH]; intros chain; [by intros s|]. cbn [ratchet_to].
  destruct (_ <? _); (apply keeps_bind; [apply _|apply keeps_lift, _|]); intros [g c];
    (apply keeps_bind; [apply _| |intros _; apply IH || apply keeps_ret, _]); intros s; apply same_sender;
    unfold state, set_message_keys, set_receiver_chain_key; by destruct (get_receiver_chain_index s their) as [[]| | |].
Qed.
Lemma pending_sends m ty random : keeps sends_on (decrypt_with_pending_state m ty random).
Proof.
  unfold decrypt_with_pending_state. apply keeps_bind; [apply _| |intros chain].
  - unfold get_or_create_chain_key. apply keeps_bind; [apply _|apply keeps_gets, _|]. intros [c|].
    { apply keeps_ret, _. }
    repeat (apply keeps_bind; [apply _|first [apply keeps_gets, _|apply keeps_modify]|intros ?]);
      [by intros s; apply same_sender..|intros s _; apply new_sender|apply keeps_ret, _].
  - apply keeps_bind; [apply _| |intros gen].
    { unfold get_or_create_message_key. destruct (_ <? _).
      - apply keeps_bind; [apply _| |intros [g|]; [apply keeps_ret, _|apply keeps_fail, _]].
        intros s. apply same_sender. unfold state, get_message_keys.
        destruct (get_receiver_chain_index s _) as [[i|]| | |]; try done.
        destruct (s_receiver_chains s !! i) as [c|]; [|done].
        destruct (find_key _ (message_keys c) 0) as [[p|]| | |]; try done. by destruct (message_keys c !! p).
      - apply keeps_bind; [apply _| |intros _; apply ratchet_to_sends].
        destruct (_ <? _); [|apply keeps_ret, _]. apply keeps_bind; [apply _|apply keeps_gets, _|].
        intros []; [apply keeps_ret, _|apply keeps_fail, _]. }
    repeat (apply keeps_bind; [apply _|first [apply keeps_gets, _|apply keeps_lift, _]|intros ?]).
    destruct (negb _); [apply keeps_fail, _|].
    apply keeps_bind; [apply _|apply keeps_lift, _|intros ?]. apply keeps_lift, _.
Qed.

(** What every stored session satisfies. *)
Definition state_sound (s : SessionState) : Prop := state_bounded s /\ can_send s.

Lemma hoare_state m ty random s :
  state_sound s ->
  match decrypt_message_with_state m ty random s with
  | (s', Ok _) => state_sound s' /\ identified s'
  | (s', Err _) => s' = s
  | _ => False
  end.
Proof.
  intros [Hs Hsend]. destruct (decrypt_message_with_state m ty random s) as [s' o] eqn:Hd.
  destruct o as [p|e| |]; [|by eapply decrypt_state_rollback|..]; revert Hd;
    unfold decrypt_message_with_state; (destruct (root_key s); try congruence);
    (destruct (negb _); [congruence|]); pose proof (hoare_pending m ty random s Hs) as H;
    pose proof (pending_sends m ty random s Hsend) as Hs1;
    destruct (decrypt_with_pending_state m ty random s) as [s1 [p1|e1| |]]; try congruence.
  intros [= <- _]. destruct H as [Hb Hid]. split; [by split|done].
Qed.

(** ** Records *)

Definition record_bounded (r : SessionRecord) : Prop :=
  (forall s, current_session r = Some s -> state_sound s)
  /\ Forall state_sound (previous_sessions r)
  /\ zlen (previous_sessions r) <= ARCHIVED_STATES_MAX_LENGTH.

Lemma promote_bounded r s : record_bounded r -> state_sound s -> record_bounded (promote_state r s).
Proof.
  intros (Hc & Hp & Hl) Hs. unfold promote_state, archive_current_state_inner.
  destruct (current_session r) as [c|]; (split; [by intros ? [= <-]|]); cbn; [|done].
  assert (Hcc : state_sound (clear_unacknowledged_pre_key_message c)) by (by apply (Hc c)).
  destruct (Z.leb_spec ARCHIVED_STATES_MAX_LENGTH (zlen (previous_sessions r))) as [Hfull|].
  - destruct (previous_sessions r) as [|x l] using rev_ind.
    { by unfold ARCHIVED_STATES_MAX_LENGTH, zlen in Hfull. }
    rewrite removelast_last, zlen_cons. rewrite zlen_app in Hl. change (zlen [x]) with 1 in Hl.
    apply Forall_app in Hp as [Hp _]. split; [by constructor|lia].
  - rewrite zlen_cons. split; [by constructor|lia].
Qed.
Lemma take_bounded r i r1 s :
  record_bounded r -> take_previous_session r i = (r1, Some s) -> record_bounded r1 /\ state_sound s.
Proof.
  intros (Hc & Hp & Hl). unfold take_previous_session.
  destruct (previous_sessions r !! i) as [x|] eqn:Hi; [|done]. intros [= <- <-].
  split; [|by eapply Forall_lookup_1]. split; [done|]. cbn. split; [by apply Forall_delete|].
  unfold zlen in *. rewrite length_delete by (by rewrite Hi). lia.
Qed.
Definition settled (r : SessionRecord) : Prop :=
  record_bounded r /\ exists s, current_session r = Some s /\ identified s.

Lemma hoare_try_previous n idx m ty random errs :
  hoare record_bounded (try_previous n idx m ty random errs) (fun _ => settled) record_bounded.
Proof.
  revert idx errs. induction n as [|n IH]; intros idx errs r Hr; cbn [try_previous]; [done|].
  destruct (take_previous_session r idx) as [r1 [x|]] eqn:Ht.
  2: { unfold take_previous_session in Ht. by destruct (_ !! _); simplify_eq. }
  pose proof (take_restore _ _ _ _ Ht) as Hback. destruct (take_bounded _ _ _ _ Hr Ht) as [Hr1 Hx].
  pose proof (hoare_state m ty (random (S idx)) x Hx) as Hd.
  destruct (decrypt_message_with_state m ty (random (S idx)) x) as [x' [p|e| |]]; try done.
  - destruct Hd as [Hb Hid]. rewrite log_success_ok by apply Hb. split; [by apply promote_bounded|]. by exists x'.
  - subst x'. rewrite Hback. destruct e; try apply IH, Hr. done.
Qed.

(** Decrypting with a bounded record returns, and leaves a bounded record. *)
Lemma hoare_record m ty random :
  ty = Whisper \/ ty = PreKey ->
  hoare record_bounded (decrypt_message_with_record m ty random) (fun _ => settled) record_bounded.
Proof.
  intros Hty r Hr. unfold decrypt_message_with_record, take_session_state. destruct r as [[x|] l].
  2: { by apply hoare_try_previous. }
  cbn [current_session previous_sessions].
  assert (Hx : state_sound x) by (by apply (proj1 Hr)).
  pose proof (hoare_state m ty (random O) x Hx) as Hd.
  destruct (decrypt_message_with_state m ty (random O) x) as [x' [p|e| |]]; try done.
  - destruct Hd as [Hb Hid]. rewrite log_success_ok by apply Hb. split; [|by exists x']. destruct Hr as (_ & Hp). split; [|done].
    by intros ? [= <-].
  - subst x'. unfold set_session_state. cbn [current_session previous_sessions].
    destruct e; first [done|destruct Hty as [-> | ->]; [by apply hoare_try_previous|done]].
Qed.
End Safety.

(** The examples run with the logger fully on. *)
Definition verbose : Logging := true.
