(* ===== verification/SessionWorld.v ===== *)
(** * Sessions in their stores

    The entry points of [session_cipher.rs] and [session.rs] on the stores: [message_encrypt],
    [message_decrypt] and [process_prekey_bundle].  What the code relies on of the stores is
    [StoreLaws]; in any sequence of calls every stored record stays within the limits of
    [consts.rs] and no call panics. *)

From stdpp Require Import prelude strings gmap.
From S2P Require Import Prelude Noise Curve SignalBase Ratchet Session SignalMessages SessionCipher.
From S2P Require Import SessionSafety.

#[local] Open Scope Z_scope.

(** The store methods return; what is stored at an address is the last record stored there,
    and a failed [store_session] has stored it or not; identities are kept apart from
    sessions. *)
Class StoreLaws {DK : Dalek} {W : Type} {SS : SignalStores W} : Prop := {
  load_session_returns w a : returns (load_session w a);
  store_session_returns a r w : returns (snd (store_session a r w));
  get_identity_key_pair_returns w : returns (get_identity_key_pair w);
  get_local_registration_id_returns w : returns (get_local_registration_id w);
  save_identity_returns a k w : returns (snd (save_identity a k w));
  is_trusted_identity_returns w a k d : returns (is_trusted_identity w a k d);
  get_pre_key_returns w id : returns (get_pre_key w id);
  get_signed_pre_key_returns w id : returns (get_signed_pre_key w id);
  store_session_load a r w a' :
    load_session (fst (store_session a r w)) a' = load_session w a'
    \/ (a' = a /\ load_session (fst (store_session a r w)) a' = Ok (Some r));
  store_session_done a r w :
    snd (store_session a r w) = Ok tt ->
    load_session (fst (store_session a r w)) a = Ok (Some r);
  save_identity_load a k w a' : load_session (fst (save_identity a k w)) a' = load_session w a'
}.

Section World.
Context {DK : Dalek} {DL : DalekLaws} {SC : SignalCrypto} {LG : Logging} {W : Type} {SS : SignalStores W} {SL : StoreLaws}.

Definition world_bounded (w : W) : Prop :=
  forall a r, load_session w a = Ok (Some r) -> record_bounded r.
Definition both_bounded (x : W * SessionRecord) : Prop :=
  world_bounded (fst x) /\ record_bounded (snd x).

Lemma record_fresh_bounded : record_bounded record_new_fresh.
Proof. split_and!; done. Qed.

Lemma hoare_store a r :
  record_bounded r -> hoare world_bounded (store_session a r) (fun _ => world_bounded) world_bounded.
Proof.
  intros Hr w Hw. pose proof (store_session_returns a r w) as Hret.
  assert (Hw' : world_bounded (fst (store_session a r w))).
  { intros a' r' Hl. destruct (store_session_load a r w a') as [Hs|[_ Hs]]; rewrite Hs in Hl.
    - by apply (Hw a').
    - by injection Hl as <-. }
  by destruct (store_session a r w) as [w' []].
Qed.
Lemma hoare_save a k :
  hoare world_bounded (save_identity a k) (fun _ => world_bounded) world_bounded.
Proof.
  intros w Hw. pose proof (save_identity_returns a k w) as Hret.
  assert (Hw' : world_bounded (fst (save_identity a k w))).
  { intros a' r'. rewrite save_identity_load. apply Hw. }
  by destruct (save_identity a k w) as [w' []].
Qed.

(** Lifting to the pair of the stores and the record; [F] is a fact about the record. *)
Lemma hoare_on_world {A} (F : SessionRecord -> Prop) (m : M W A) :
  hoare world_bounded m (fun _ => world_bounded) world_bounded ->
  (forall r, F r -> record_bounded r) ->
  hoare (fun x => world_bounded (fst x) /\ F (snd x)) (on_world m)
    (fun _ x => world_bounded (fst x) /\ F (snd x)) both_bounded.
Proof.
  intros Hm HF [w r] [Hw Hr]. cbn in *. specialize (Hm w Hw). destruct (m w) as [w' []]; try done.
  split; [done|by apply HF].
Qed.
Lemma hoare_on_record {A} (F : SessionRecord -> Prop) (Q : A -> SessionRecord -> Prop)
    (m : M SessionRecord A) :
  hoare F m Q record_bounded ->
  hoare (fun x => world_bounded (fst x) /\ F (snd x)) (on_record m)
    (fun a x => world_bounded (fst x) /\ Q a (snd x)) both_bounded.
Proof.
  intros Hm [w r] [Hw Hr]. cbn in *. specialize (Hm r Hr). by destruct (m r) as [r' []].
Qed.

Abbreviation safe m := (hoare both_bounded m (fun _ => both_bounded) both_bounded).

(** The steps that only read. *)
Lemma safe_gets {A B} (f : W * SessionRecord -> result A) (k : A -> M (W * SessionRecord) B) :
  (forall x, returns (f x)) -> (forall a, safe (k a)) -> safe (gets f ≫= k).
Proof.
  intros Hf Hk. eapply hoare_bind; [apply hoare_gets; [intros; apply Hf|done]|]. intros a.
  eapply hoare_pre; [apply Hk|]. by intros s [? _].
Qed.
Lemma safe_lift {A B} (o : result A) (k : A -> M (W * SessionRecord) B) :
  returns o -> (forall a, safe (k a)) -> safe (lift o ≫= k).
Proof.
  intros Hf Hk. eapply hoare_bind; [by apply hoare_lift|]. intros a.
  eapply hoare_pre; [apply Hk|]. by intros s [? _].
Qed.
Lemma safe_save {B} a key (k : IdentityChange -> M (W * SessionRecord) B) :
  (forall c, safe (k c)) -> safe (on_world (save_identity a key) ≫= k).
Proof.
  intros Hk. eapply hoare_bind; [|exact Hk]. apply (hoare_on_world record_bounded); [apply hoare_save|done].
Qed.
Lemma safe_modify {B} f (k : unit -> M (W * SessionRecord) B) :
  (forall r, record_bounded r -> record_bounded (f r)) -> (forall u, safe (k u)) ->
  safe (on_record (modify f) ≫= k).
Proof.
  intros Hf Hk. eapply hoare_bind; [|exact Hk].
  by apply (hoare_on_record record_bounded (fun _ => record_bounded)), hoare_modify.
Qed.
Lemma safe_ret {A} (a : A) : safe (mret (M := M (W * SessionRecord)) a).
Proof. by apply hoare_ret. Qed.
Lemma safe_fail {A} e : safe (fail (S := W * SessionRecord) (A := A) e).
Proof. by apply hoare_fail. Qed.

(** ** The operations on a record *)

Lemma set_state_bounded r s : record_bounded r -> state_sound s -> record_bounded (set_session_state r s).
Proof. intros (_ & Hp) Hs. split; [|done]. by intros ? [= <-]. Qed.

Lemma items_returns s : returns (unacknowledged_pre_key_message_items s).
Proof.
  unfold unacknowledged_pre_key_message_items. case_match; [|done].
  apply bind_returns; [apply ok_or_returns|intros ? _].
  apply bind_returns; [apply map_err_returns, public_deserialize_returns|done].
Qed.
Lemma signal_message_returns v k rk n pn c a b : returns (signal_message_new v k rk n pn c a b).
Proof. apply bind_returns; [apply compute_mac_returns|done]. Qed.
Lemma record_key_pair_returns r : returns (record_key_pair r).
Proof.
  apply bind_returns; [apply ok_or_returns|intros ? _]. apply bind_returns; [apply ok_or_returns|intros ? _].
  apply map_err_returns. apply bind_returns; [apply public_deserialize_returns|intros ? _].
  apply bind_returns; [apply private_deserialize_returns|done].
Qed.

Lemma advanced_sound s k : state_sound s -> state_sound (set_sender_chain_key s k).
Proof.
  intros [Hb [key Hk]]. split; [done|]. exists key. revert Hk.
  unfold sender_ratchet_key, set_sender_chain_key. cbn [put_sender_chain s_sender_chain].
  by destruct (s_sender_chain s).
Qed.

Lemma safe_encrypt ptext address : safe (message_encrypt_inner ptext address).
Proof.
  unfold message_encrypt_inner.
  apply (hoare_bind _ _ (fun s x => both_bounded x /\ state_sound s)).
  { intros [w [[s|] l]] Hx; cbn; [|done]. split; [done|]. by apply (proj1 (proj2 Hx)). }
  intros s. apply hoare_pure. intros Hs.
  apply safe_lift; [apply sender_chain_key_returns|intros chain].
  apply safe_lift; [apply step_returns|intros [gen next]].
  apply safe_lift; [apply ratchet_key_returns|intros ephemeral].
  apply safe_lift; [by case_match|intros version].
  apply safe_lift; [apply local_identity_returns|intros local].
  apply safe_lift; [apply remote_identity_returns|intros remote].
  apply safe_lift; [apply ok_or_returns|intros their].
  apply safe_gets; [intros [w r]; apply is_trusted_identity_returns|intros trusted].
  destruct (negb trusted); [apply safe_fail|].
  apply safe_lift; [apply ok_or_returns|intros ctext].
  apply safe_lift; [apply items_returns|intros items].
  apply safe_lift; [apply signal_message_returns|intros message].
  apply safe_save. intros _. apply safe_modify; [|intros _; apply safe_ret].
  intros r Hr. apply set_state_bounded; [done|]. by apply advanced_sound.
Qed.

Lemma find_matching_lookup v b l i j :
  find_matching v b l i = Some j -> exists k, j = (i + k)%nat /\ is_Some (l !! k).
Proof.
  revert i. induction l as [|x l IH]; intros i; cbn [find_matching]; [done|].
  assert (Hrec : find_matching v b l (S i) = Some j -> exists k, j = (i + k)%nat /\ is_Some ((x :: l) !! k)).
  { intros H. destruct (IH _ H) as (k & -> & Hk). exists (S k). split; [lia|done]. }
  case_match; [done|]. case_match; [|done]. intros [= <-]. exists 0%nat. split; [lia|by eexists].
Qed.
Lemma promote_matching_safe v b :
  hoare record_bounded (fun r => promote_matching_session r v b) (fun _ => record_bounded) record_bounded.
Proof.
  intros r Hr.
  assert (Hp : match promote_previous r v b with
               | (r', Ok _) => record_bounded r' | (r', Err _) => record_bounded r' | _ => False end).
  { unfold promote_previous. destruct (find_matching v b (previous_sessions r) 0) as [i|] eqn:Hi; [|done].
    apply find_matching_lookup in Hi as (k & -> & [x Hk]). cbn [Nat.add].
    destruct (take_previous_session r k) as [r1 [y|]] eqn:Ht.
    - destruct (take_bounded _ _ _ _ Hr Ht). by apply promote_bounded.
    - unfold take_previous_session in Ht. by rewrite Hk in Ht. }
  unfold promote_matching_session. destruct (current_session r); [|done]. by destruct (_ && _).
Qed.

Lemma add_one_bounded s sender k :
  s_receiver_chains s = [] -> state_bounded (add_receiver_chain s sender k).
Proof. intros H. apply add_chain_bounded. split; by rewrite H. Qed.
Lemma alice_sound p random : state_sound (initialize_alice_session p random).
Proof.
  unfold initialize_alice_session. destruct (derive_root_keys _ _) as [[root chain] pq].
  destruct (create_chain _ _ _) as [sroot schain]. split; [|apply new_sender].
  apply (add_one_bounded (session_new 3 (id_public (a_our_identity p)) (a_their_identity p) sroot
    (kp_public (a_our_base p))) (a_their_ratchet p) chain). done.
Qed.
Lemma bob_sound p : public_wf (kp_public (b_our_ratchet p)) -> state_sound (initialize_bob_session p).
Proof.
  intros Hp. unfold initialize_bob_session. destruct (derive_root_keys _ _) as [[root chain] pq].
  split; [split; [by vm_compute|by constructor]|]. exists (kp_public (b_our_ratchet p)).
  unfold sender_ratchet_key. cbn [set_sender_chain put_sender_chain s_sender_chain ok_or mbind outcome_bind
    sender_ratchet_pub]. by rewrite public_roundtrip.
Qed.
Lemma public_deserialize_wf b k : public_deserialize b = Ok k -> public_wf k.
Proof.
  unfold public_deserialize. destruct b as [|x b]; [done|]. destruct (key_type_try_from x); try done.
  cbn [mbind outcome_bind]. destruct (Z.ltb_spec (zlen (x :: b)) (PUBLIC_KEY_LENGTH + 1)); [done|].
  intros [= <-]. unfold public_wf. cbn [public_key_bytes]. unfold zlen, upto, from, PUBLIC_KEY_LENGTH in *.
  rewrite length_take, length_drop. cbn [length] in *. lia.
Qed.
Lemma record_key_pair_wf r k : record_key_pair r = Ok k -> public_wf (kp_public k).
Proof.
  unfold record_key_pair, keypair_from_public_and_private.
  destruct (kr_public r), (kr_private r); try done. cbn [ok_or mbind outcome_bind].
  destruct (public_deserialize _) eqn:Hp; try done. cbn [mbind outcome_bind].
  destruct (private_deserialize _); try done. cbn. intros [= <-]. by apply public_deserialize_wf in Hp.
Qed.

Lemma safe_process_prekey m address : safe (process_prekey m address).
Proof.
  apply safe_gets; [intros [w r]; apply is_trusted_identity_returns|intros trusted].
  destruct (negb trusted); [apply safe_fail|]. unfold process_prekey_impl.
  eapply hoare_bind; [apply (hoare_on_record record_bounded (fun _ => record_bounded)),
    promote_matching_safe|]. intros [].
  { by apply safe_ret. }
  apply safe_gets; [intros [w r]; apply get_signed_pre_key_returns|intros signed].
  eapply hoare_bind; [apply hoare_lift; [apply record_key_pair_returns|done]|]. intros key.
  apply hoare_pure. intros Hkey%record_key_pair_wf.
  apply (hoare_bind _ _ (fun _ => both_bounded)).
  { destruct (pk_pre_key_id m) as [id|]; [|apply safe_ret].
    apply safe_gets; [intros [w r]; apply get_pre_key_returns|intros one].
    apply safe_lift; [apply record_key_pair_returns|intros ?]. apply safe_ret. }
  intros one. apply safe_gets; [intros [w r]; apply get_identity_key_pair_returns|intros identity].
  apply safe_gets; [intros [w r]; apply get_local_registration_id_returns|intros id].
  apply safe_modify; [|intros _; apply safe_ret]. intros r Hr. apply promote_bounded; [done|].
  exact (bob_sound (mkBob identity key one key (pk_identity_key m) (pk_base_key m)) Hkey).
Qed.

Lemma safe_bundle address bundle rb rr : safe (process_prekey_bundle_inner address bundle rb rr).
Proof.
  unfold process_prekey_bundle_inner.
  apply safe_gets; [intros [w r]; apply get_identity_key_pair_returns|intros identity].
  apply safe_gets; [intros [w r]; apply get_local_registration_id_returns|intros id].
  apply safe_save. intros change. apply safe_modify; [|intros _; apply safe_ret].
  intros r Hr. apply promote_bounded; [done|].
  exact (alice_sound (mkAlice identity (keypair_generate rb) (bundle_identity bundle)
    (bundle_signed_public bundle) (snd <$> bundle_pre_key bundle) (bundle_signed_public bundle)) rr).
Qed.

Lemma safe_decrypt_prekey m address random : safe (message_decrypt_prekey_inner m address random).
Proof.
  unfold message_decrypt_prekey_inner. eapply hoare_bind; [apply safe_process_prekey|]. intros [used reused].
  eapply hoare_bind; [apply (hoare_on_record record_bounded (fun _ => settled)), hoare_record; by right|].
  intros [ptext prev]. apply (hoare_pre both_bounded); [|by intros [w r] (? & ? & _)].
  apply safe_save. intros change. apply safe_ret.
Qed.

Lemma safe_decrypt_signal m address random : safe (message_decrypt_signal_inner m address random).
Proof.
  unfold message_decrypt_signal_inner. apply safe_gets; [by intros [w r]|]. intros [].
  { apply safe_fail. }
  eapply hoare_bind; [apply (hoare_on_record record_bounded (fun _ => settled)), hoare_record; by left|].
  intros [ptext prev]. apply (hoare_bind _ _ (fun _ => both_bounded)).
  { intros [w r] (Hw & Hr & s & Hs & k & Hk). cbn in *. rewrite Hs. cbn. by rewrite Hk. }
  intros their. destruct prev.
  { apply safe_save. intros _. apply safe_ret. }
  apply safe_gets; [intros [w r]; apply is_trusted_identity_returns|intros trusted].
  destruct (negb trusted); [apply safe_fail|]. apply safe_save. intros c. apply safe_ret.
Qed.

(** ** The entry points *)

Abbreviation whole m := (hoare world_bounded m (fun _ => world_bounded) world_bounded).

Lemma whole_load {A} address (k : option SessionRecord -> M W A) :
  (forall o, (forall r, o = Some r -> record_bounded r) -> whole (k o)) ->
  whole (gets (fun w => load_session w address) ≫= k).
Proof.
  intros Hk. apply (hoare_bind _ _ (fun o w => world_bounded w /\ forall r, o = Some r -> record_bounded r)).
  - intros w Hw. cbn. pose proof (load_session_returns w address) as Hr.
    destruct (load_session w address) as [o| | |] eqn:Hl; try done. split; [done|].
    intros r ->. by apply (Hw address).
  - intros o. apply hoare_pure, Hk.
Qed.
Lemma whole_found {A} (o : option SessionRecord) (k : SessionRecord -> M W A) :
  (forall r, o = Some r -> whole (k r)) -> whole (lift (ok_or o SessionNotFound) ≫= k).
Proof.
  intros Hk. eapply hoare_bind; [apply hoare_lift; [apply ok_or_returns|done]|]. intros r.
  apply hoare_pure. intros Ho. apply Hk. destruct o; [by injection Ho as ->|done].
Qed.
Lemma whole_with_record {A} address r (m : M (W * SessionRecord) A) :
  record_bounded r -> safe m -> whole (with_record address r m).
Proof.
  intros Hr Hm w Hw. unfold with_record. specialize (Hm (w, r) (conj Hw Hr)).
  destruct (m (w, r)) as [[w' r'] o]. destruct o; try done; destruct Hm as [Hw' Hr'];
    (eapply hoare_bind; [by apply hoare_store| |exact Hw']; intros []; by intros ?).
Qed.
Lemma whole_store_then {A} address r (o : result A) :
  record_bounded r -> returns o -> whole (_ ← store_session address r; lift o).
Proof.
  intros Hr Ho. eapply hoare_bind; [by apply hoare_store|]. intros [] w Hw. cbn. by destruct o.
Qed.

Lemma whole_encrypt ptext address : whole (message_encrypt ptext address).
Proof.
  apply whole_load. intros o Ho. apply whole_found. intros r Hr.
  apply whole_with_record; [by apply Ho|apply safe_encrypt].
Qed.
Lemma whole_decrypt_signal m address random : whole (message_decrypt_signal m address random).
Proof.
  apply whole_load. intros o Ho. apply whole_found. intros r Hr.
  eapply hoare_bind; [apply whole_with_record; [by apply Ho|apply safe_decrypt_signal]|].
  intros [p c]. by apply hoare_ret.
Qed.
Lemma default_bounded o : (forall r, o = Some r -> record_bounded r) ->
  record_bounded (default record_new_fresh o).
Proof. destruct o; [intros H; by apply H|intros _; apply record_fresh_bounded]. Qed.

Lemma whole_decrypt_prekey m address random : whole (message_decrypt_prekey m address random).
Proof.
  apply whole_load. intros o Ho.
  eapply (hoare_bind _ _ (fun _ => world_bounded)); [|intros [[p u] c]; by apply hoare_ret].
  intros w Hw. unfold state.
  pose proof (safe_decrypt_prekey m address random (w, default record_new_fresh o)
    (conj Hw (default_bounded o Ho))) as H.
  destruct (message_decrypt_prekey_inner m address random _) as [[w' r'] [a|e| |]]; try done;
    destruct H as [Hw' Hr'].
  - destruct (_ || _); [|done]. by apply (whole_store_then address r' (Ok a)).
  - destruct o as [r|]; [|done]. apply (whole_store_then address r (Err e)); [by apply Ho|done|done].
Qed.
Lemma whole_bundle address bundle rb rr : whole (process_prekey_bundle address bundle rb rr).
Proof.
  unfold process_prekey_bundle.
  eapply hoare_bind; [apply hoare_gets; [intros; apply is_trusted_identity_returns|done]|].
  intros trusted. eapply hoare_pre; [|by intros w [? _]].
  destruct (negb trusted); [by apply hoare_fail|]. destruct (negb _); [by apply hoare_fail|].
  apply whole_load. intros o Ho w Hw. unfold state.
  pose proof (safe_bundle address bundle rb rr (w, default record_new_fresh o)
    (conj Hw (default_bounded o Ho))) as H.
  destruct (process_prekey_bundle_inner address bundle rb rr _) as [[w' r'] res].
  destruct res; try done; destruct H as [Hw' Hr']; (destruct (_ || _); [|done]);
    by apply (whole_store_then address r').
Qed.

(** A message whose sender is not trusted is refused, but the session that decrypted it is
    stored: its key is used up, and the same message is a duplicate when it comes again after
    the identity has been accepted. *)
Lemma untrusted_message_consumed m address random w r s s' p k :
  load_session w address = Ok (Some r) -> current_session r = Some s ->
  decrypt_message_with_state m Whisper (random O) s = (s', Ok p) ->
  remote_identity_key s' = Ok (Some k) -> can_send s' ->
  is_trusted_identity w address k Receiving = Ok false ->
  snd (store_session address (set_session_state r s') w) = Ok tt ->
  exists w', message_decrypt_signal m address random w = (w', Err UntrustedIdentity)
    /\ load_session w' address = Ok (Some (set_session_state r s')).
Proof.
  intros Hl Hs Hd Hk Hc Ht Hst. unfold message_decrypt_signal, mbind, M_bind, gets, lift. rewrite Hl.
  cbn [ok_or]. unfold with_record.
  assert (Hin : message_decrypt_signal_inner m address random (w, r)
    = ((w, set_session_state r s'), Err UntrustedIdentity)).
  { unfold message_decrypt_signal_inner, mbind, M_bind, gets. rewrite Hs. cbn [andb]. unfold on_record.
    unfold decrypt_message_with_record, take_session_state. rewrite Hs, Hd.
    rewrite log_success_ok by done.
    cbn [set_session_state current_session mbind option_bind]. rewrite Hk. cbn [ok]. by rewrite Ht. }
  rewrite Hin. unfold mbind, M_bind. pose proof (store_session_done _ _ _ Hst) as Hdone.
  destruct (store_session address (set_session_state r s') w) as [w' o]. cbn in *. subst o. by exists w'.
Qed.

(** ** Any sequence of calls *)

Inductive call : Type :=
  | Encrypt (ptext : bytes) (address : ProtocolAddress)
  | Decrypt (m : CiphertextMessage) (address : ProtocolAddress) (random : nat -> bytes)
  | Establish (address : ProtocolAddress) (bundle : PreKeyBundle) (random_base random_ratchet : bytes).
Definition run_call (c : call) : M W unit :=
  match c with
  | Encrypt ptext address => _ ← message_encrypt ptext address; mret tt
  | Decrypt m address random => _ ← message_decrypt m address random; mret tt
  | Establish address bundle rb rr => _ ← process_prekey_bundle address bundle rb rr; mret tt
  end.
(** The callers go on after an error. *)
Fixpoint run_calls (l : list call) (w : W) : W * list (result unit) :=
  match l with
  | [] => (w, [])
  | c :: l => let '(w, o) := run_call c w in let '(w, os) := run_calls l w in (w, o :: os)
  end.

Lemma whole_call c : whole (run_call c).
Proof.
  destruct c as [p a|[m|m] a random|a b rb rr]; cbn [run_call message_decrypt];
    (eapply (hoare_bind _ _ (fun _ => world_bounded)); [|intros ?; by apply hoare_ret]);
    [apply whole_encrypt|apply whole_decrypt_signal|apply whole_decrypt_prekey|apply whole_bundle].
Qed.

(** C36: Whatever sequence of encryptions, decryptions and session set-ups a client runs, and
    whatever the messages and bundles it is given, every call returns a value or an error -
    none of the [expect]s (those of the log included), the unreachable arm or an index fires,
    and the ratchet loop ends - and every stored record stays within the limits: at most five
    receiver chains, 2051 kept message keys in each, forty archived sessions, a sending key in
    every session. *)
Theorem sessions_safe calls w :
  world_bounded w ->
  world_bounded (fst (run_calls calls w)) /\ Forall returns (snd (run_calls calls w)).
Proof.
  revert w. induction calls as [|c calls IH]; intros w Hw; cbn [run_calls]; [done|].
  pose proof (whole_call c w Hw) as Hc. destruct (run_call c w) as [w1 o].
  assert (Hw1 : world_bounded w1) by (by destruct o).
  specialize (IH w1 Hw1). destruct (run_calls calls w1) as [w2 os]. destruct IH as [Hw2 Hos].
  split; [done|]. constructor; [by destruct o|done].
Qed.
End World.

(** ** An instance: stores in memory *)

Record MemStores {DK : Dalek} : Type := mkMem {
  mem_sessions : gmap bytes SessionRecord; mem_identities : gmap bytes bytes;
  mem_identity : IdentityKeyPair; mem_registration_id : Z;
  mem_pre_keys : gmap Z KeyRecord; mem_signed_pre_keys : gmap Z KeyRecord
}.
#[export] Instance mem_stores {DK : Dalek} : SignalStores MemStores := {|
  load_session w a := Ok (mem_sessions w !! a);
  store_session a r w :=
    (mkMem _ (<[a := r]> (mem_sessions w)) (mem_identities w) (mem_identity w)
       (mem_registration_id w) (mem_pre_keys w) (mem_signed_pre_keys w), Ok tt);
  get_identity_key_pair w := Ok (mem_identity w);
  get_local_registration_id w := Ok (mem_registration_id w);
  save_identity a k w :=
    (mkMem _ (mem_sessions w) (<[a := public_key_bytes k]> (mem_identities w)) (mem_identity w)
       (mem_registration_id w) (mem_pre_keys w) (mem_signed_pre_keys w),
     Ok match mem_identities w !! a with
        | Some old => if bytes_eqb old (public_key_bytes k) then NewOrUnchanged else ReplacedExisting
        | None => NewOrUnchanged
        end);
  is_trusted_identity _ _ _ _ := Ok true;
  get_pre_key w id := ok_or (mem_pre_keys w !! id) InvalidPreKeyId;
  get_signed_pre_key w id := ok_or (mem_signed_pre_keys w !! id) InvalidSignedPreKeyId
|}.
#[export] Instance mem_stores_laws {DK : Dalek} : StoreLaws (SS := mem_stores).
Proof.
  constructor; cbn; try done; try (intros; apply ok_or_returns).
  - intros a r w a'. destruct (decide (a' = a)) as [->|Hne].
    + right. by rewrite lookup_insert_eq.
    + left. by rewrite lookup_insert_ne.
  - intros a r w _. by rewrite lookup_insert_eq.
Qed.

(** Two devices of the examples, each with a signed and a one-time pre-key. *)
Definition toy_pair (n : Z) : KeyPair := keypair_generate (replicate 32 n).
Definition toy_device (n : Z) : MemStores :=
  mkMem _ ∅ ∅ (mkIdentity (kp_public (toy_pair n)) (kp_private (toy_pair n))) n
    {[ 5 := key_record_new (toy_pair (n + 1)) ]} {[ 7 := key_record_new (toy_pair (n + 2)) ]}.
Definition toy_bundle (n : Z) : PreKeyBundle :=
  mkBundle n 1 (Some (5, kp_public (toy_pair (n + 1)))) 7 (kp_public (toy_pair (n + 2)))
    (default [] (ok (snd (calculate_signature (kp_private (toy_pair n))
                            [public_serialize (kp_public (toy_pair (n + 2)))] []))))
    (kp_public (toy_pair n)).

#[local] Existing Instance verbose.
Lemma sessions_safe_witness :
  let calls := [Establish (str "bob") (toy_bundle 20) (replicate 32 1) (replicate 32 2);
                Encrypt (str "hello") (str "bob"); Encrypt (str "hello") (str "carol")] in
  snd (run_calls calls (toy_device 10)) = [Ok tt; Ok tt; Err SessionNotFound]
  /\ world_bounded (fst (run_calls calls (toy_device 10)))
  /\ Forall returns (snd (run_calls calls (toy_device 10))).
Proof.
  split; [by vm_compute|]. apply sessions_safe. intros a r. cbn. by rewrite lookup_empty.
Defined.
