(* ===== verification/Epochs.v ===== *)
(** * The double ratchet as its two parties see it

    The ideal picture that the session states are compared with.  The ratchet keys of a
    session come in turn, one per epoch: epoch 0 is the receiver's signed pre-key, odd epochs
    are the initiator's and even ones the receiver's.  Each epoch has a root key and a chain;
    [kept k] are the epochs whose chains the party with ratchet key [k] keeps to decrypt with.
    [party] says that a session state is that of a party, and the lemmas say what decrypting
    does to it. *)

From stdpp Require Import functions prelude strings list.
From S2P Require Import Prelude Noise Curve SignalBase Ratchet Session SignalMessages.
From S2P Require Import SessionCipher SessionSafety.

#[local] Open Scope Z_scope.

(** The epochs received from, oldest first: five at most. *)
Fixpoint kept (k : nat) : list nat :=
  match k with
  | O => []
  | S O => [O]
  | S (S k) => let l := kept k ++ [S k] in drop (length l - 5) l
  end.

Lemma kept_facts k :
  (length (kept k) <= 5)%nat /\ NoDup (kept k) /\ Forall (fun e => (e < k)%nat) (kept k).
Proof.
  induction k as [k IH] using lt_wf_ind. destruct k as [|[|k]]; cbn [kept].
  - split_and!; [cbn; lia|constructor|constructor].
  - split_and!; [cbn; lia|apply NoDup_singleton|by apply Forall_singleton; lia].
  - destruct (IH k) as (Hl & Hn & Hf); [lia|]. set (l := kept k ++ [S k]).
    assert (Hln : NoDup l).
    { apply NoDup_app. split_and!; [done| |apply NoDup_singleton]. intros e He ->%list_elem_of_singleton.
      rewrite Forall_forall in Hf. specialize (Hf _ He). lia. }
    split_and!.
    + rewrite length_drop. lia.
    + eapply sublist_NoDup; [exact Hln|apply sublist_drop].
    + apply Forall_drop, Forall_app. split; [eapply Forall_impl; [exact Hf|cbn; lia]|].
      apply Forall_singleton. lia.
Qed.
Lemma kept_last k : S k ∈ kept (S (S k)).
Proof.
  cbn [kept]. destruct (kept_facts k) as (Hl & _). rewrite length_app. cbn [length].
  rewrite drop_app_le by lia. apply elem_of_app. right. by left.
Qed.

Section Epochs.
Context {DK : Dalek} {DL : DalekLaws} {SC : SignalCrypto} {SL : SignalLaws}.
(** The outcome of the key agreement, and the randomness of each ratchet key. *)
Variables (root0 : RootKey) (chain0 : bytes) (secret : nat -> bytes) (last : nat).
Hypothesis root0_len : zlen (root_key_bytes root0) = 32.
Hypothesis chain0_len : zlen chain0 = 32.
Hypothesis secret_wf : forall k, zlen (secret k) = 32 /\ are_bytes (secret k).
(** The ratchet keys up to [last] are all different. *)
Hypothesis fresh : forall i j, (i <= last)%nat -> (j <= last)%nat ->
  kp_public (keypair_generate (secret i)) = kp_public (keypair_generate (secret j)) -> i = j.

Definition pair (k : nat) : KeyPair := keypair_generate (secret k).
Definition pub (k : nat) : PublicKey := kp_public (pair k).
Definition priv (k : nat) : PrivateKey := kp_private (pair k).

Fixpoint epoch (k : nat) : RootKey * ChainKey :=
  match k with
  | O => (root0, mkChainKey chain0 0)
  | S k => create_chain (fst (epoch k)) (pub k) (priv (S k))
  end.
Fixpoint seed_at (j n : nat) : bytes :=
  match n with
  | O => chain_key_bytes (snd (epoch j))
  | S n => hmac_sha256_signal (seed_at j n) CHAIN_SEED
  end.
Definition key_at (j n : nat) : ChainKey := mkChainKey (seed_at j n) (Z.of_nat n).
Definition gen_at (j n : nat) : MessageKeyGenerator :=
  Seed (hmac_sha256_signal (seed_at j n) MESSAGE_SEED) (Z.of_nat n).

(** ** Keys *)

Lemma priv_wf k : private_wf (priv k) /\ pub k = public_key (priv k).
Proof. destruct (secret_wf k). by apply keypair_generate_wf. Qed.
Lemma pub_wf k : public_wf (pub k).
Proof. destruct (priv_wf k) as [_ ->]. apply public_key_wf. Qed.
Lemma pub_bytes_inj i j : (i <= last)%nat -> (j <= last)%nat ->
  public_serialize (pub i) = public_serialize (pub j) -> i = j.
Proof.
  intros Hi Hj H. apply fresh; [done..|]. apply (f_equal (drop 1)) in H.
  change (public_key_bytes (pub i) = public_key_bytes (pub j)) in H. fold (pair i) (pair j) (pub i) (pub j).
  destruct (pub i), (pub j). cbn in H. by subst.
Qed.
Lemma priv_read k : private_deserialize (private_serialize (priv k)) = Ok (priv k).
Proof. destruct (priv_wf k) as [Hw _]. rewrite private_roundtrip by done. done. Qed.

Lemma epoch_len k :
  zlen (root_key_bytes (fst (epoch k))) = 32 /\ zlen (chain_key_bytes (snd (epoch k))) = 32.
Proof. destruct k; [done|]. apply create_chain_wf. Qed.
Lemma seed_len j n : zlen (seed_at j n) = 32.
Proof. destruct n; [apply epoch_len|apply hmac_signal_len]. Qed.
Lemma epoch_key k : snd (epoch k) = key_at k 0.
Proof. by destruct k. Qed.
(** The receiver of the key of the next epoch derives that epoch. *)
Lemma epoch_received k : create_chain (fst (epoch k)) (pub (S k)) (priv k) = epoch (S k).
Proof.
  cbn [epoch]. destruct (priv_wf k) as [Hk Hpk], (priv_wf (S k)) as [Hs Hps].
  rewrite Hps, Hpk. by apply create_chain_comm.
Qed.

Lemma step_key j n : Z.of_nat n < U32_MAX ->
  step_with_message_keys (key_at j n) = Ok (gen_at j n, key_at j (S n)).
Proof.
  intros Hn. unfold step_with_message_keys, checked_add_1. cbn [key_at chain_index].
  destruct (Z.eqb_spec (Z.of_nat n) U32_MAX); [lia|]. cbn. unfold key_at. do 3 f_equal. lia.
Qed.
Lemma gen_roundtrip j n : exists g,
  from_pb (into_pb (gen_at j n)) = Some g /\ generate_keys g = generate_keys (gen_at j n).
Proof.
  destruct (generator_roundtrip (gen_at j n)) as (g & Hf & Hg & _); [apply derive_keys_wf|done|].
  by exists g.
Qed.
Lemma read_key p q j n l :
  read_chain_key (mkChain p q (Some (chain_key_pb (key_at j n))) l) = Ok (key_at j n).
Proof.
  unfold read_chain_key. cbn [chain_key ok_or mbind outcome_bind chain_key_pb ck_key chain_key_bytes key_at].
  unfold array. rewrite seed_len. done.
Qed.

(** ** Receiver chains *)

Definition gen_pb (j n : nat) : MessageKeyPb := into_pb (gen_at j n).
(** The chain of epoch [j] when [D] of its messages have been delivered. *)
Definition recv_chain (j : nat) (D : list nat) : Chain :=
  mkChain (Some (public_serialize (pub j))) (Some []) (Some (chain_key_pb (key_at j (highest D))))
    (gen_pb j <$> undelivered D (highest D)).
Definition chains (l : list nat) (D : nat -> list nat) : list Chain :=
  (fun j => recv_chain j (D j)) <$> l.

Lemma pub_check j :
  negb (zlen (public_serialize (pub j)) =? SERIALIZED_PUBLIC_KEY_LEN)
  || negb (bool_decide (head (public_serialize (pub j)) = Some (key_type_value Djb))) = false.
Proof.
  pose proof (pub_wf j) as Hw. unfold public_wf in Hw.
  assert (Hl : zlen (public_serialize (pub j)) = 33).
  { unfold public_serialize. rewrite zlen_cons. lia. }
  rewrite Hl. cbn [Z.eqb Pos.eqb negb orb]. rewrite bool_decide_eq_true_2 by done. done.
Qed.
Lemma find_epoch_none l D j i0 :
  (j <= last)%nat -> Forall (fun e => (e <= last)%nat) l -> j ∉ l ->
  find_chain (public_serialize (pub j)) (chains l D) i0 = Ok None.
Proof.
  intros Hj Hl. revert i0. induction Hl as [|e l He Hl IH]; intros i0; [done|].
  intros [Hne Hin]%not_elem_of_cons. cbn [chains fmap list_fmap find_chain recv_chain sender_ratchet_pub].
  cbn [ok_or mbind outcome_bind]. rewrite pub_check.
  destruct (bytes_eqb (public_serialize (pub e)) (public_serialize (pub j))) eqn:Hb; [|by apply IH].
  apply bytes_eqb_eq, pub_bytes_inj in Hb; [|done..]. congruence.
Qed.
Lemma find_epoch_some l D j i i0 :
  Forall (fun e => (e <= last)%nat) l -> NoDup l -> l !! i = Some j ->
  find_chain (public_serialize (pub j)) (chains l D) i0 = Ok (Some (i0 + i)%nat).
Proof.
  intros Hl. revert i i0. induction Hl as [|e l He Hl IH]; intros i i0 Hn Hi; [done|].
  apply NoDup_cons in Hn as [Hin Hn].
  cbn [chains fmap list_fmap find_chain recv_chain sender_ratchet_pub].
  cbn [ok_or mbind outcome_bind]. rewrite pub_check. destruct i as [|i]; cbn in Hi.
  - injection Hi as ->. by rewrite bytes_eqb_refl, Nat.add_0_r.
  - pose proof (list_elem_of_lookup_2 _ _ _ Hi) as Hj.
    destruct (bytes_eqb (public_serialize (pub e)) (public_serialize (pub j))) eqn:Hb.
    + apply bytes_eqb_eq, pub_bytes_inj in Hb; [by subst|done|].
      rewrite Forall_forall in Hl. by apply Hl.
    + rewrite <- Nat.add_succ_comm. by apply IH.
Qed.

(** ** Message keys *)

(** Updating a chain that is there. *)
Lemma update_at s idx f c :
  s_receiver_chains s !! idx = Some c ->
  update_chain s idx f = with_receiver_chains s (<[idx := f c]> (s_receiver_chains s)).
Proof.
  intros Hc. unfold update_chain. f_equal. apply list_eq. intros i. destruct (decide (i = idx)) as [->|Hne].
  - rewrite list_lookup_alter_eq, Hc, list_lookup_insert_eq by (by eapply lookup_lt_Some). done.
  - by rewrite list_lookup_alter_ne, list_lookup_insert_ne.
Qed.

Lemma put_key_small j D n :
  (n <= 2050)%nat -> n ∉ D ->
  let l := gen_pb j <$> undelivered D n in
  (if MAX_MESSAGE_KEYS + MESSAGE_KEY_PRUNE_THRESHOLD <? zlen l
   then drop (Z.to_nat (zlen l - MAX_MESSAGE_KEYS)) l else l) ++ [into_pb (gen_at j n)]
  = gen_pb j <$> undelivered D (S n).
Proof.
  intros Hn HD l. rewrite undelivered_S, fmap_app by done.
  destruct (Z.ltb_spec (MAX_MESSAGE_KEYS + MESSAGE_KEY_PRUNE_THRESHOLD) (zlen l)); [|done].
  unfold l, zlen in *. rewrite length_fmap in *. pose proof (undelivered_length D n).
  unfold MAX_MESSAGE_KEYS, MESSAGE_KEY_PRUNE_THRESHOLD in *. lia.
Qed.

Lemma ratchet_to_S fuel their c n :
  ratchet_to (S fuel) their c n
  = if chain_index c <? n then
      '(keys, next) ← lift (step_with_message_keys c);
      _ ← state (fun s => set_message_keys s their keys);
      ratchet_to fuel their next n
    else
      '(keys, next) ← lift (step_with_message_keys c);
      _ ← state (fun s => set_receiver_chain_key s their next);
      mret keys.
Proof. done. Qed.

(** The loop, from [n] to [n + k]: the keys on the way are kept, the chain moves past. *)
Lemma ratchet_to_spec j D k : forall n s idx c,
  (n + k <= 2050)%nat -> Forall (fun i => (i < n)%nat) D ->
  get_receiver_chain_index s (pub j) = Ok (Some idx) ->
  s_receiver_chains s !! idx = Some c -> message_keys c = gen_pb j <$> undelivered D n ->
  ratchet_to (S k) (pub j) (key_at j n) (Z.of_nat (n + k)) s
  = (with_receiver_chains s
       (<[idx := mkChain (sender_ratchet_pub c) (sender_ratchet_priv c)
                   (Some (chain_key_pb (key_at j (S (n + k)))))
                   (gen_pb j <$> undelivered (n + k :: D)%nat (S (n + k)))]>
          (s_receiver_chains s)),
     Ok (gen_at j (n + k))).
Proof.
  induction k as [|k IH]; intros n s idx c Hn HD Hidx Hc Hl; rewrite ratchet_to_S;
    change (chain_index (key_at j n)) with (Z.of_nat n).
  - rewrite Nat.add_0_r, Z.ltb_irrefl, step_key by (unfold U32_MAX; lia).
    unfold lift, state, mbind, M_bind, mret, M_ret, set_receiver_chain_key. rewrite Hidx.
    rewrite (update_at _ _ _ _ Hc). unfold put_chain_key. by rewrite undelivered_next, Hl.
  - destruct (Z.ltb_spec (Z.of_nat n) (Z.of_nat (n + S k))); [|lia].
    rewrite step_key by (unfold U32_MAX; lia).
    unfold lift, state, mbind, M_bind. unfold set_message_keys at 1. rewrite Hidx.
    rewrite (update_at _ _ _ _ Hc). cbv beta zeta. rewrite Hl.
    assert (Hin : n ∉ D) by (intros H'; rewrite Forall_forall in HD; specialize (HD n H'); lia).
    rewrite (put_key_small j D n) by (done || lia).
    pose proof (lookup_lt_Some _ _ _ Hc).
    rewrite <- Nat.add_succ_comm.
    set (c1 := put_message_keys (gen_pb j <$> undelivered D (S n)) c).
    set (s1 := with_receiver_chains s (<[idx := c1]> (s_receiver_chains s))).
    rewrite (IH (S n) s1 idx c1); [|lia|eapply Forall_impl; [exact HD|cbn; lia]| |by apply list_lookup_insert_eq|done].
    + cbn [s1 s_receiver_chains with_receiver_chains]. by rewrite list_insert_insert_eq.
    + assert (Hs1 : s1 = update_chain s idx (put_message_keys (gen_pb j <$> undelivered D (S n))))
        by (symmetry; by apply update_at).
      rewrite Hs1, index_update by done. done.
Qed.

Lemma find_gen j i l i0 :
  NoDup l ->
  (i ∉ l -> find_key (Z.of_nat i) (gen_pb j <$> l) i0 = Ok None)
  /\ (forall p, l !! p = Some i -> find_key (Z.of_nat i) (gen_pb j <$> l) i0 = Ok (Some (i0 + p)%nat)).
Proof.
  intros Hn. revert i0. induction Hn as [|e l He Hn IH]; intros i0; [done|].
  cbn [fmap list_fmap find_key gen_pb gen_at into_pb pb_index keys_counter generate_keys derive_keys].
  cbn [ok_or mbind outcome_bind].
  destruct (Z.eqb_spec (Z.of_nat e) (Z.of_nat i)) as [Heq|Hne].
  - assert (e = i) as -> by lia. split; [intros H; by destruct H; left|].
    intros [|p]; [by rewrite Nat.add_0_r|]. intros Hp. cbn in Hp.
    apply list_elem_of_lookup_2 in Hp. done.
  - destruct (IH (S i0)) as [IH1 IH2]. split.
    + intros [_ Hi]%not_elem_of_cons. by apply IH1.
    + intros [|p] Hp; cbn in Hp; [by simplify_eq|]. rewrite <- Nat.add_succ_comm. by apply IH2.
Qed.
Lemma delete_filter (l : list nat) p i :
  NoDup l -> l !! p = Some i -> delete p l = filter (fun j => j <> i) l.
Proof.
  intros Hn. revert p. induction Hn as [|e l He Hn IH]; intros p Hp; [done|].
  destruct p as [|p]; cbn in Hp.
  - injection Hp as ->. rewrite filter_cons_False by (intros H; by apply H). symmetry.
    apply filter_id. intros k Hk ->. done.
  - rewrite filter_cons_True; [cbn; f_equal; by apply IH|]. intros ->.
    apply He. by eapply list_elem_of_lookup_2.
Qed.

Lemma chains_lookup l D idx j :
  l !! idx = Some j -> chains l D !! idx = Some (recv_chain j (D j)).
Proof. intros H. unfold chains. by rewrite list_lookup_fmap, H. Qed.
Lemma chains_insert l D idx j x :
  NoDup l -> l !! idx = Some j ->
  <[idx := recv_chain j x]> (chains l D) = chains l (<[j := x]> D).
Proof.
  intros Hn Hj. apply list_eq. intros i. unfold chains.
  destruct (decide (i = idx)) as [->|Hne].
  - rewrite list_lookup_insert_eq by (rewrite length_fmap; by eapply lookup_lt_Some).
    rewrite list_lookup_fmap, Hj. cbn. by rewrite fn_lookup_insert.
  - rewrite list_lookup_insert_ne, !list_lookup_fmap by done. destruct (l !! i) as [e|] eqn:He; [|done].
    cbn. rewrite fn_lookup_insert_ne; [done|]. intros ->. apply Hne. by eapply NoDup_lookup.
Qed.

Section Receive.
Variables (s : SessionState) (l : list nat) (D : nat -> list nat) (idx j : nat).
Hypothesis chains_s : s_receiver_chains s = chains l D.
Hypothesis l_range : Forall (fun e => (e <= last)%nat) l.
Hypothesis l_nodup : NoDup l.
Hypothesis l_at : l !! idx = Some j.

Lemma index_spec : get_receiver_chain_index s (pub j) = Ok (Some idx).
Proof. unfold get_receiver_chain_index. rewrite chains_s. by apply (find_epoch_some l D j idx 0). Qed.
Lemma chain_key_spec :
  get_receiver_chain_key s (pub j) = Ok (Some (key_at j (highest (D j)))).
Proof.
  unfold get_receiver_chain_key. rewrite index_spec. cbn [mbind outcome_bind].
  rewrite chains_s, (chains_lookup _ _ _ _ l_at). unfold recv_chain. rewrite read_key. done.
Qed.

(** A message asked for the first time gives its key, later times an error; afterwards the
    chains are those of one more message delivered. *)
Lemma message_key_spec ty i :
  (i <= 2050)%nat ->
  if decide (i ∈ D j)
  then get_or_create_message_key (pub j) ty (key_at j (highest (D j))) (Z.of_nat i) s
       = (s, Err (DuplicatedMessage (Z.of_nat (highest (D j))) (Z.of_nat i)))
  else exists g, generate_keys g = generate_keys (gen_at j i)
       /\ get_or_create_message_key (pub j) ty (key_at j (highest (D j))) (Z.of_nat i) s
          = (with_receiver_chains s (chains l (<[j := i :: D j]> D)), Ok g).
Proof.
  intros Hi. pose proof (highest_bound (D j)) as HD. set (n := highest (D j)) in *.
  assert (Hc : s_receiver_chains s !! idx = Some (recv_chain j (D j)))
    by (rewrite chains_s; by apply chains_lookup).
  unfold get_or_create_message_key. change (chain_index (key_at j n)) with (Z.of_nat n).
  destruct (Z.ltb_spec (Z.of_nat i) (Z.of_nat n)) as [Hlt|Hge].
  - unfold mbind, M_bind, mret, M_ret, state, get_message_keys. rewrite index_spec, Hc.
    change (message_keys (recv_chain j (D j))) with (gen_pb j <$> undelivered (D j) n).
    destruct (find_gen j i (undelivered (D j) n) 0 (undelivered_NoDup _ _)) as [Hnone Hsome].
    case_decide as Hin.
    + rewrite Hnone; [done|]. rewrite elem_of_undelivered. naive_solver.
    + assert (Hu : i ∈ undelivered (D j) n) by (apply elem_of_undelivered; split; [done|lia]).
      apply list_elem_of_lookup_1 in Hu as [p Hp]. rewrite (Hsome p Hp). cbn [Nat.add].
      rewrite list_lookup_fmap, Hp. cbn [fmap option_fmap option_map].
      destruct (gen_roundtrip j i) as (g & Hg & Hk). exists g. split; [done|].
      change (from_pb (gen_pb j i)) with (from_pb (into_pb (gen_at j i))). rewrite Hg.
      cbn [ok_or fmap outcome_fmap].
      rewrite (update_at _ _ _ _ Hc), chains_s. do 2 f_equal. rewrite <- (chains_insert l D idx j) by done.
      f_equal. unfold put_message_keys, recv_chain. cbn [sender_ratchet_pub sender_ratchet_priv chain_key].
      cbn [highest]. fold n. replace (n `max` S i)%nat with n by lia. f_equal.
      rewrite <- undelivered_remove, <- (delete_filter _ p i) by (done || apply undelivered_NoDup).
      apply list_eq. intros q. rewrite list_lookup_fmap. destruct (decide (q < p)%nat).
      * by rewrite !list_lookup_delete_lt, list_lookup_fmap.
      * by rewrite !list_lookup_delete_ge, list_lookup_fmap by lia.
  - assert (Hin : i ∉ D j) by (intros H; rewrite Forall_forall in HD; specialize (HD i H); lia).
    rewrite decide_False by done. exists (gen_at j i). split; [done|].
    replace (Z.of_nat i - Z.of_nat n) with (Z.of_nat (i - n)) by lia.
    destruct (Z.ltb_spec MAX_FORWARD_JUMPS (Z.of_nat (i - n))); [unfold MAX_FORWARD_JUMPS in *; lia|].
    unfold mbind at 1, M_bind at 1, mret, M_ret. rewrite Nat2Z.id.
    replace i with (n + (i - n))%nat at 2 by lia.
    rewrite (ratchet_to_spec j (D j) (i - n) n s idx _ ltac:(lia) HD index_spec Hc eq_refl).
    replace (n + (i - n))%nat with i by lia. rewrite chains_s. do 2 f_equal.
    rewrite <- (chains_insert l D idx j) by done. f_equal. unfold recv_chain. cbn [highest]. fold n.
    replace (n `max` S i)%nat with (S i) by lia. done.
Qed.
End Receive.

(** ** Messages and states *)

(** What the sender of message [n] of epoch [j] puts on the wire. *)
Record sealed (sender receiver : PublicKey) (j n : nat) (p : bytes) (m : SignalMessage) : Prop := {
  sealed_version : sm_version m = 3;
  sealed_key : sm_ratchet_key m = pub j;
  sealed_counter : sm_counter m = Z.of_nat n;
  sealed_mac : verify_mac m sender receiver (mac_key (generate_keys (gen_at j n))) = Ok true;
  sealed_text : (c ← sm_body m;
                 map_err (cbc_error Whisper)
                   (aes_256_cbc_decrypt_into c (cipher_key (generate_keys (gen_at j n)))
                      (keys_iv (generate_keys (gen_at j n))) [])) = Ok p;
  sealed_parses : sm_try_from (sm_serialized m) = Ok m
}.

Variables (me them : PublicKey) (base : bytes) (reg : Z).
Hypothesis me_wf : public_wf me.
Hypothesis them_wf : public_wf them.

(** The state of a party whose ratchet key is that of epoch [k], having sent [n] messages
    with it, and received [D j] of those of epoch [j]. *)
Record party (pending : option PendingPreKey) (k n : nat) (D : nat -> list nat) (s : SessionState)
    : Prop := {
  party_version : s_version s = Some 3;
  party_local : s_local_identity s = Some (public_serialize me);
  party_remote : s_remote_identity s = Some (public_serialize them);
  party_root : s_root_key s = Some (root_key_bytes (fst (epoch k)));
  party_sender : s_sender_chain s
    = Some (mkChain (Some (public_serialize (pub k))) (Some (private_serialize (priv k)))
              (Some (chain_key_pb (key_at k n))) []);
  party_chains : s_receiver_chains s = chains (kept k) D;
  party_pending : s_pending_pre_key s = pending;
  party_previous : in_range 32 (previous_counter s);
  party_base : s_alice_base_key s = Some base;
  party_registration : local_registration_id s = reg
}.

Lemma party_ext pending k n D D' s :
  (forall j, D j = D' j) -> party pending k n D s -> party pending k n D' s.
Proof.
  intros HD [H1 H2 H3 H4 H5 H6 H7 H8 H9 H10]. constructor; try done. rewrite H6. unfold chains.
  apply list_fmap_ext. intros i j Hj. by rewrite HD.
Qed.
Lemma party_root_ok pending k n D s : party pending k n D s -> root_key s = Ok (fst (epoch k)).
Proof.
  intros Hs. unfold root_key. rewrite (party_root _ _ _ _ _ Hs). cbn [from_option id].
  unfold array. rewrite (proj1 (epoch_len k)). cbn. by destruct (fst (epoch k)).
Qed.
Lemma party_version_ok pending k n D s : party pending k n D s -> session_version s = 3.
Proof. intros Hs. unfold session_version. by rewrite (party_version _ _ _ _ _ Hs). Qed.
Lemma party_identities pending k n D s :
  party pending k n D s ->
  remote_identity_key s = Ok (Some them) /\ local_identity_key s = Ok me.
Proof.
  intros Hs. unfold remote_identity_key, local_identity_key.
  rewrite (party_remote _ _ _ _ _ Hs), (party_local _ _ _ _ _ Hs). cbn [from_option id].
  rewrite !public_roundtrip by done. split; [|done].
  destruct (Z.eqb_spec (zlen (public_serialize them)) 0) as [H0|]; [|done].
  unfold public_serialize in H0. rewrite zlen_cons in H0.
  pose proof (zlen_nonneg (public_key_bytes them)). lia.
Qed.

(** With the right keys the text comes out, whatever form they are in. *)
Lemma opens ty random s s1 s2 c g j i p m :
  sealed them me j i p m ->
  get_or_create_chain_key (pub j) random s = (s1, Ok c) ->
  get_or_create_message_key (pub j) ty c (Z.of_nat i) s1 = (s2, Ok g) ->
  generate_keys g = generate_keys (gen_at j i) ->
  remote_identity_key s2 = Ok (Some them) -> local_identity_key s2 = Ok me ->
  decrypt_with_pending_state m ty random s = (s2, Ok p).
Proof.
  intros [_ Hj Hi Hmac Htext _] Hc Hk Hg Hr Hl. unfold decrypt_with_pending_state. rewrite Hj, Hi.
  unfold mbind, M_bind, gets, lift. rewrite Hc, Hk, Hr. cbn [ok_or]. rewrite Hl, Hg, Hmac. cbn [negb].
  destruct (sm_body m) as [b| | |]; try done. cbn [mbind outcome_bind] in Htext.
  destruct (aes_256_cbc_decrypt_into b _ _ []); try done. cbn in Htext |- *. by injection Htext as ->.
Qed.
Lemma opens_state pending k n D s j i p m ty random s2 :
  party pending k n D s -> sealed them me j i p m ->
  decrypt_with_pending_state m ty random s = (s2, Ok p) ->
  decrypt_message_with_state m ty random s = (clear_unacknowledged_pre_key_message s2, Ok p).
Proof.
  intros Hs Hm Hp. unfold decrypt_message_with_state.
  rewrite (party_root_ok _ _ _ _ _ Hs), (party_version_ok _ _ _ _ _ Hs), (sealed_version _ _ _ _ _ _ Hm).
  cbn [Z.eqb Pos.eqb negb]. by rewrite Hp.
Qed.
Lemma refuses_state pending k n D s j i p m ty random c e :
  party pending k n D s -> sealed them me j i p m ->
  get_or_create_chain_key (pub j) random s = (s, Ok c) ->
  get_or_create_message_key (pub j) ty c (Z.of_nat i) s = (s, Err e) ->
  decrypt_message_with_state m ty random s = (s, Err e).
Proof.
  intros Hs Hm Hc Hk.
  assert (Hd : exists s', decrypt_message_with_state m ty random s = (s', Err e)).
  { unfold decrypt_message_with_state.
    rewrite (party_root_ok _ _ _ _ _ Hs), (party_version_ok _ _ _ _ _ Hs), (sealed_version _ _ _ _ _ _ Hm).
    cbn [Z.eqb Pos.eqb negb]. unfold decrypt_with_pending_state, mbind, M_bind.
    rewrite (sealed_key _ _ _ _ _ _ Hm), (sealed_counter _ _ _ _ _ _ Hm), Hc, Hk. by eexists. }
  destruct Hd as [s' Hd]. rewrite Hd. by apply decrypt_state_rollback in Hd as ->.
Qed.

(** A message of an epoch whose chain is there. *)
Lemma party_known pending k n D s j i p m ty random :
  party pending k n D s -> sealed them me j i p m -> j ∈ kept k -> (k <= last)%nat -> (i <= 2050)%nat ->
  if decide (i ∈ D j)
  then decrypt_message_with_state m ty random s
       = (s, Err (DuplicatedMessage (Z.of_nat (highest (D j))) (Z.of_nat i)))
  else exists s', decrypt_message_with_state m ty random s = (s', Ok p)
       /\ party None k n (<[j := i :: D j]> D) s'.
Proof.
  intros Hs Hm Hj Hk Hi. apply list_elem_of_lookup_1 in Hj as [idx Hidx].
  destruct (kept_facts k) as (_ & Hnd & Hlt).
  assert (Hrange : Forall (fun e => (e <= last)%nat) (kept k))
    by (eapply Forall_impl; [exact Hlt|cbn; lia]).
  pose proof (message_key_spec s (kept k) D idx j (party_chains _ _ _ _ _ Hs) Hrange Hnd Hidx ty i Hi) as Hkey.
  assert (Hc : get_or_create_chain_key (pub j) random s = (s, Ok (key_at j (highest (D j))))).
  { unfold get_or_create_chain_key, mbind, M_bind, gets, mret, M_ret.
    by rewrite (chain_key_spec s (kept k) D idx j (party_chains _ _ _ _ _ Hs) Hrange Hnd Hidx). }
  case_decide; [by eapply refuses_state|].
  destruct Hkey as (g & Hg & Hkey). destruct (party_identities _ _ _ _ _ Hs) as [Hr Hl].
  eexists. split; [eapply opens_state; [done..|]; eapply opens; done|]. destruct Hs. by constructor.
Qed.

(** ** The ratchet step *)

Lemma chains_add k D :
  D (S k) = [] ->
  (let l := chains (kept k) D ++ [mkChain (Some (public_serialize (pub (S k)))) (Some [])
                                   (Some (chain_key_pb (key_at (S k) 0))) []] in
   if MAX_RECEIVER_CHAINS <? zlen l then drop (Z.to_nat (zlen l - MAX_RECEIVER_CHAINS)) l else l)
  = chains (kept (S (S k))) D.
Proof.
  intros HD. cbn [kept]. set (l := chains (kept k) D ++ _).
  assert (Hl : l = chains (kept k ++ [S k]) D).
  { unfold l, chains. rewrite fmap_app. cbn [fmap list_fmap]. by rewrite HD. }
  rewrite Hl. unfold chains, zlen. rewrite length_fmap, fmap_drop.
  destruct (Z.ltb_spec MAX_RECEIVER_CHAINS (Z.of_nat (length (kept k ++ [S k])))) as [H|H];
    unfold MAX_RECEIVER_CHAINS in *.
  - f_equal. lia.
  - by replace (length (kept k ++ [S k]) - 5)%nat with 0%nat by lia.
Qed.

(** A message of the next epoch: its chain is derived, and a new ratchet key starts the
    epoch after it. *)
Lemma party_ratchet pending k n D s :
  party pending k n D s -> D (S k) = [] -> (S (S k) <= last)%nat -> Z.of_nat n < U32_MAX ->
  exists s1, get_or_create_chain_key (pub (S k)) (secret (S (S k))) s = (s1, Ok (key_at (S k) 0))
    /\ party pending (S (S k)) 0 D s1.
Proof.
  intros Hs HD Hlast Hn. destruct (kept_facts k) as (_ & Hnd & Hlt).
  assert (Hnone : get_receiver_chain_key s (pub (S k)) = Ok None).
  { unfold get_receiver_chain_key, get_receiver_chain_index. rewrite (party_chains _ _ _ _ _ Hs).
    rewrite find_epoch_none; [done|lia|eapply Forall_impl; [exact Hlt|cbn; lia]|].
    intros H. rewrite Forall_forall in Hlt. specialize (Hlt _ H). lia. }
  assert (Hpriv : sender_ratchet_private_key s = Ok (priv k)).
  { unfold sender_ratchet_private_key. rewrite (party_sender _ _ _ _ _ Hs). cbn [ok_or mbind outcome_bind].
    cbn [sender_ratchet_priv ok_or mbind outcome_bind]. by rewrite priv_read. }
  unfold get_or_create_chain_key, mbind, M_bind, gets, modify, mret, M_ret.
  rewrite Hnone, (party_root_ok _ _ _ _ _ Hs), Hpriv, epoch_received. fold (pair (S (S k))).
  fold (priv (S (S k))). change (create_chain (fst (epoch (S k))) (pub (S k)) (priv (S (S k))))
    with (epoch (S (S k))).
  rewrite !epoch_key.
  assert (Hcur : get_sender_chain_key (add_receiver_chain (set_root_key s (fst (epoch (S (S k)))))
    (pub (S k)) (key_at (S k) 0)) = Ok (key_at k n)).
  { change (get_sender_chain_key s = Ok (key_at k n)). unfold get_sender_chain_key.
    rewrite (party_sender _ _ _ _ _ Hs). cbn [ok_or mbind outcome_bind]. apply read_key. }
  rewrite Hcur. eexists. split; [done|].
  destruct Hs as [H1 H2 H3 H4 H5 H6 H7 H8 H9 H10]. constructor; try done.
  - cbn [s_receiver_chains set_sender_chain put_sender_chain with_previous_counter add_receiver_chain
      with_receiver_chains set_root_key with_root_key]. rewrite H6. by apply chains_add.
  - unfold previous_counter. cbn [s_previous_counter set_sender_chain put_sender_chain with_previous_counter
      from_option id key_at chain_index]. unfold in_range, U32_MAX in *. destruct (Z.ltb_spec 0 (Z.of_nat n)); lia.
Qed.
Lemma party_next pending k n D s i p m ty :
  party pending k n D s -> sealed them me (S k) i p m -> D (S k) = [] -> (S (S k) <= last)%nat ->
  Z.of_nat n < U32_MAX -> (i <= 2050)%nat ->
  exists s', decrypt_message_with_state m ty (secret (S (S k))) s = (s', Ok p)
    /\ party None (S (S k)) 0 (<[S k := [i]]> D) s'.
Proof.
  intros Hs Hm HD Hlast Hn Hi. destruct (party_ratchet _ _ _ _ _ Hs HD Hlast Hn) as (s1 & Hc & Hs1).
  pose proof (kept_last k) as [idx Hidx]%list_elem_of_lookup_1.
  destruct (kept_facts (S (S k))) as (_ & Hnd & Hlt).
  assert (Hrange : Forall (fun e => (e <= last)%nat) (kept (S (S k))))
    by (eapply Forall_impl; [exact Hlt|cbn; lia]).
  pose proof (message_key_spec s1 (kept (S (S k))) D idx (S k) (party_chains _ _ _ _ _ Hs1) Hrange Hnd Hidx
    ty i Hi) as Hkey.
  rewrite HD in Hkey. rewrite decide_False in Hkey by apply not_elem_of_nil. cbn [highest] in Hkey.
  destruct Hkey as (g & Hg & Hkey). destruct (party_identities _ _ _ _ _ Hs1) as [Hr Hl].
  eexists. split; [eapply opens_state; [done..|]; eapply opens; done|]. destruct Hs1. by constructor.
Qed.
End Epochs.
