(* ===== verification/Conversation.v ===== *)
(** * A conversation

    Two devices with working stores: one sets up a session from the other's pre-key bundle,
    and both send; the network delivers in any order, loses and repeats.  The calls are those
    of the code - [process_prekey_bundle], [message_encrypt] and [message_decrypt] on the
    serialized messages - and the ideal conversation says what each should give. *)

From stdpp Require Import functions prelude strings list gmap.
From S2P Require Import Prelude Noise Curve SignalBase Ratchet Session SignalMessages.
From S2P Require Import SessionCipher SessionSafety SessionWorld Epochs.

#[local] Open Scope Z_scope.

(** Stores whose methods succeed and that trust every identity, as the stores of the client
    do. *)
Class WorkingStores {DK : Dalek} {W : Type} {SS : SignalStores W} : Prop := {
  working_laws : StoreLaws;
  store_works a r w : snd (store_session a r w) = Ok tt;
  save_works a k w : exists change, snd (save_identity a k w) = Ok change;
  trusts w a k d : is_trusted_identity w a k d = Ok true
}.
#[global] Existing Instance working_laws.

Section Calls.
Context {DK : Dalek} {DL : DalekLaws} {SC : SignalCrypto} {SL : SignalLaws} {LG : Logging}.
Context {W : Type} {SS : SignalStores W} {WS : WorkingStores}.

Lemma store_step a r w :
  exists w', store_session a r w = (w', Ok tt) /\ load_session w' a = Ok (Some r).
Proof.
  pose proof (store_session_done a r w (store_works a r w)) as Hl.
  pose proof (store_works a r w) as Hs. destruct (store_session a r w) as [w' o]. cbn in *.
  exists w'. by subst.
Qed.
Lemma save_step a k w :
  exists w' change, save_identity a k w = (w', Ok change)
    /\ forall a', load_session w' a' = load_session w a'.
Proof.
  pose proof (save_identity_load a k w) as Hl. destruct (save_works a k w) as [change Hs].
  destruct (save_identity a k w) as [w' o]. cbn in *. exists w', change. by subst.
Qed.

(** ** Decryption with a session in place *)

Lemma record_current r s : current_session r = Some s ->
  set_session_state (fst (take_session_state r)) s = r.
Proof. destruct r. cbn. by intros ->. Qed.
Lemma record_opens m ty random r s s' p :
  current_session r = Some s -> decrypt_message_with_state m ty (random O) s = (s', Ok p) ->
  can_send s' ->
  decrypt_message_with_record m ty random r = (set_session_state r s', Ok (p, false)).
Proof.
  intros Hs Hd Hc. unfold decrypt_message_with_record, take_session_state.
  by rewrite Hs, Hd, log_success_ok.
Qed.
Lemma record_duplicate m ty random r s a b :
  current_session r = Some s ->
  decrypt_message_with_state m ty (random O) s = (s, Err (DuplicatedMessage a b)) ->
  decrypt_message_with_record m ty random r = (r, Err (DuplicatedMessage a b)).
Proof.
  intros Hs Hd. unfold decrypt_message_with_record, take_session_state. rewrite Hs, Hd.
  by rewrite <- (record_current r s Hs) at 2.
Qed.

Lemma signal_opens m a random w r s s' p k :
  load_session w a = Ok (Some r) -> current_session r = Some s ->
  decrypt_message_with_state m Whisper (random O) s = (s', Ok p) ->
  can_send s' -> remote_identity_key s' = Ok (Some k) ->
  exists w' change, message_decrypt (CSignal m) a random w = (w', Ok (mkDecryption p change None))
    /\ load_session w' a = Ok (Some (set_session_state r s')).
Proof.
  intros Hl Hs Hd Hc Hk. cbn [message_decrypt]. unfold message_decrypt_signal, mbind, M_bind, gets, lift.
  rewrite Hl. cbn [ok_or]. unfold with_record.
  assert (Hin : exists w1 change, message_decrypt_signal_inner m a random (w, r)
    = ((w1, set_session_state r s'), Ok (p, change))).
  { unfold message_decrypt_signal_inner, mbind, M_bind, gets. rewrite Hs. cbn [andb].
    unfold on_record. rewrite (record_opens _ _ _ _ _ _ _ Hs Hd Hc).
    cbn [set_session_state current_session mbind option_bind]. rewrite Hk. cbn [ok]. rewrite trusts.
    cbn [negb]. unfold on_world. destruct (save_step a k w) as (w1 & change & -> & _).
    by exists w1, change. }
  destruct Hin as (w1 & change & ->). unfold mbind, M_bind.
  destruct (store_step a (set_session_state r s') w1) as (w2 & -> & Hw2). by exists w2, change.
Qed.
Lemma signal_duplicate m a random w r s x y :
  load_session w a = Ok (Some r) -> current_session r = Some s ->
  decrypt_message_with_state m Whisper (random O) s = (s, Err (DuplicatedMessage x y)) ->
  exists w', message_decrypt (CSignal m) a random w = (w', Err (DuplicatedMessage x y))
    /\ load_session w' a = Ok (Some r).
Proof.
  intros Hl Hs Hd. cbn [message_decrypt]. unfold message_decrypt_signal, mbind, M_bind, gets, lift.
  rewrite Hl. cbn [ok_or]. unfold with_record.
  assert (Hin : message_decrypt_signal_inner m a random (w, r) = ((w, r), Err (DuplicatedMessage x y))).
  { unfold message_decrypt_signal_inner, mbind, M_bind, gets. rewrite Hs. cbn [andb].
    unfold on_record. by rewrite (record_duplicate _ _ _ _ _ _ _ Hs Hd). }
  rewrite Hin. unfold mbind, M_bind. destruct (store_step a r w) as (w2 & -> & Hw2). by exists w2.
Qed.

(** A pre-key message of the session in place: only its inner message counts. *)
Lemma matching_current r s v b :
  current_session r = Some s -> session_version s = v -> alice_base_key s = b ->
  promote_matching_session r v b = (r, Ok true).
Proof.
  intros Hs <- <-. unfold promote_matching_session. by rewrite Hs, Z.eqb_refl, bytes_eqb_refl.
Qed.
Lemma prekey_reuses m a w r s :
  current_session r = Some s -> session_version s = pk_version m ->
  alice_base_key s = public_serialize (pk_base_key m) ->
  process_prekey m a (w, r) = ((w, r), Ok (None, true)).
Proof.
  intros Hs Hv Hb. unfold process_prekey, process_prekey_impl, mbind, M_bind, gets. rewrite trusts.
  cbn [negb]. unfold on_record. by rewrite (matching_current _ _ _ _ Hs Hv Hb).
Qed.

(** What is known of the record after its session was found or made. *)
Lemma prekey_opens m a random w o w1 r s s' p used reused :
  load_session w a = Ok o ->
  process_prekey m a (w, default record_new_fresh o) = ((w1, r), Ok (used, reused)) ->
  current_session r = Some s ->
  decrypt_message_with_state (pk_message m) PreKey (random O) s = (s', Ok p) -> can_send s' ->
  exists w' change, message_decrypt (CPreKey m) a random w = (w', Ok (mkDecryption p change used))
    /\ load_session w' a = Ok (Some (set_session_state r s')).
Proof.
  intros Hl Hp Hs Hd Hc. cbn [message_decrypt]. unfold message_decrypt_prekey.
  unfold mbind at 1, M_bind at 1. unfold gets at 1. rewrite Hl. unfold mbind at 1, M_bind at 1, state.
  assert (Hin : exists w2 change, message_decrypt_prekey_inner m a random (w, default record_new_fresh o)
    = ((w2, set_session_state r s'), Ok (p, used, change))).
  { unfold message_decrypt_prekey_inner. unfold mbind, M_bind. rewrite Hp.
    unfold on_record. rewrite (record_opens _ _ _ _ _ _ _ Hs Hd Hc). unfold on_world.
    destruct (save_step a (pk_identity_key m) w1) as (w2 & change & -> & _). by eexists w2, _. }
  destruct Hin as (w2 & change & ->). cbn [set_session_state current_session].
  rewrite (bool_decide_eq_true_2 (is_Some (Some s'))), orb_true_r by (by eexists).
  unfold mbind at 1, M_bind at 1. fold (set_session_state r s').
  destruct (store_step a (set_session_state r s') w2) as (w3 & Hst & Hw3).
  unfold set_session_state in *. rewrite Hst. by exists w3, change.
Qed.
Lemma prekey_duplicate m a random w r s x y :
  load_session w a = Ok (Some r) -> current_session r = Some s -> session_version s = pk_version m ->
  alice_base_key s = public_serialize (pk_base_key m) ->
  decrypt_message_with_state (pk_message m) PreKey (random O) s = (s, Err (DuplicatedMessage x y)) ->
  exists w', message_decrypt (CPreKey m) a random w = (w', Err (DuplicatedMessage x y))
    /\ load_session w' a = Ok (Some r).
Proof.
  intros Hl Hs Hv Hb Hd. cbn [message_decrypt]. unfold message_decrypt_prekey.
  unfold mbind at 1, M_bind at 1. unfold gets at 1. rewrite Hl. unfold mbind at 1, M_bind at 1, state.
  assert (Hin : message_decrypt_prekey_inner m a random (w, r) = ((w, r), Err (DuplicatedMessage x y))).
  { unfold message_decrypt_prekey_inner, mbind, M_bind. rewrite (prekey_reuses _ _ _ _ _ Hs Hv Hb).
    unfold on_record. by rewrite (record_duplicate _ _ _ _ _ _ _ Hs Hd). }
  cbn [from_option id]. rewrite Hin. unfold mbind at 1, M_bind at 1.
  destruct (store_step a r w) as (w2 & -> & Hw2). by exists w2.
Qed.

(** ** Failure *)

(** The sessions in the stores are the same. *)
Definition same_sessions (w w' : W) : Prop := forall a, load_session w' a = load_session w a.
#[local] Instance same_sessions_preorder : PreOrder same_sessions.
Proof. split; [done|]. intros x y z Hxy Hyz a. by rewrite Hyz. Qed.
Definition same_world (x y : W * SessionRecord) : Prop := same_sessions (fst x) (fst y).
#[local] Instance same_world_preorder : PreOrder same_world.
Proof. split; [done|]. intros x y z Hxy Hyz a. by rewrite Hyz. Qed.

Lemma keeps_on_record {A} (m : M SessionRecord A) : keeps same_world (on_record m).
Proof. intros [w r]. unfold on_record. by destruct (m r). Qed.
Lemma keeps_save a k : keeps same_world (on_world (save_identity a k)).
Proof.
  intros [w r] a'. unfold on_world. destruct (save_step a k w) as (w' & change & -> & Hl). apply Hl.
Qed.
Lemma keeps_process_prekey m a : keeps same_world (process_prekey m a).
Proof.
  unfold process_prekey, process_prekey_impl. apply keeps_bind; [apply _|apply keeps_gets, _|intros []].
  2: { apply keeps_fail, _. }
  apply keeps_bind; [apply _|apply keeps_on_record|intros []]; [apply keeps_ret, _|].
  do 2 (apply keeps_bind; [apply _|first [apply keeps_gets, _|apply keeps_lift, _]|intros ?]).
  apply keeps_bind; [apply _| |intros one].
  { destruct (pk_pre_key_id m); [|apply keeps_ret, _].
    do 2 (apply keeps_bind; [apply _|first [apply keeps_gets, _|apply keeps_lift, _]|intros ?]).
    apply keeps_ret, _. }
  do 2 (apply keeps_bind; [apply _|apply keeps_gets, _|intros ?]).
  apply keeps_bind; [apply _|apply keeps_on_record|intros ?]. apply keeps_ret, _.
Qed.
Lemma keeps_prekey_inner m a random : keeps same_world (message_decrypt_prekey_inner m a random).
Proof.
  apply keeps_bind; [apply _|apply keeps_process_prekey|]. intros [used reused].
  apply keeps_bind; [apply _|apply keeps_on_record|]. intros [p prev].
  apply keeps_bind; [apply _|apply keeps_save|]. intros change. apply keeps_ret, _.
Qed.

(** Putting a record back where it was loaded from. *)
Lemma put_back a r w w1 :
  load_session w a = Ok (Some r) -> same_sessions w w1 -> same_sessions w (fst (store_session a r w1)).
Proof.
  intros Hl Hw a'. destruct (store_session_load a r w1 a') as [-> | [-> ->]]; [apply Hw|done].
Qed.
Lemma signal_inner_failed m a random w r x e :
  message_decrypt_signal_inner m a random (w, r) = (x, Err e) -> x = (w, r).
Proof.
  unfold message_decrypt_signal_inner. unfold mbind at 1, M_bind at 1. unfold gets at 1.
  destruct (_ && _); [by intros [= <- _]|]. unfold mbind at 1, M_bind at 1, on_record.
  destruct (decrypt_message_with_record m Whisper random r) as [r' [[p prev]|e'| |]] eqn:Hd; try done.
  2: { intros [= <- _]. by rewrite (decrypt_record_rollback _ _ _ _ _ _ Hd). }
  unfold mbind at 1, M_bind at 1. unfold gets at 1.
  destruct (_ ≫= _) as [[k|]|]; try done. destruct prev.
  - unfold mbind, M_bind, on_world. by destruct (save_step a k w) as (w' & change & -> & _).
  - unfold mbind, M_bind, gets, on_world. rewrite trusts. cbn [negb].
    by destruct (save_step a k w) as (w' & change & -> & _).
Qed.

(** C35: A message that cannot be decrypted - forged, corrupted, replayed, of an unknown
    session, with a pre-key header that is valid and a body that is not - changes no stored
    session: the record of its sender and all others are afterwards what they were, so the
    conversation goes on as if it had not come. *)
Theorem failed_decrypt_preserves_sessions c a random w w' e :
  message_decrypt c a random w = (w', Err e) -> same_sessions w w'.
Proof.
  destruct c as [m|m]; cbn [message_decrypt].
  - unfold message_decrypt_signal, mbind, M_bind, gets, lift.
    destruct (load_session w a) as [[r|]| | |] eqn:Hl; cbn [ok_or];
      try by intros [= <- _].
    unfold with_record. destruct (message_decrypt_signal_inner m a random (w, r)) as [[w1 r1] o] eqn:Hi.
    destruct o as [[p change]|e'| |]; try congruence.
    + unfold mbind, M_bind. by destruct (store_step a r1 w1) as (w2 & -> & _).
    + apply signal_inner_failed in Hi as [= -> ->]. unfold mbind, M_bind.
      pose proof (put_back a r w w Hl (reflexivity w)) as Hp.
      destruct (store_step a r w) as (w2 & Hs & _). rewrite Hs in Hp |- *. by intros [= <- _].
  - unfold message_decrypt_prekey. unfold mbind at 1, M_bind at 1. unfold gets at 1.
    destruct (load_session w a) as [o| | |] eqn:Hl; try by intros [= <- _].
    unfold mbind at 1, M_bind at 1, state.
    pose proof (keeps_prekey_inner m a random (w, default record_new_fresh o)) as Hk.
    destruct (message_decrypt_prekey_inner m a random _) as [[w1 r1] [[[p u] change]|e'| |]]; try congruence.
    + unfold mbind, M_bind. destruct (_ || _); [|done].
      by destruct (store_step a r1 w1) as (w2 & -> & _).
    + destruct o as [r|]; [|by intros [= <- _]]. pose proof (put_back a r w w1 Hl Hk) as Hp.
      unfold mbind, M_bind. destruct (store_step a r w1) as (w2 & Hs & _). rewrite Hs in Hp |- *.
      by intros [= <- _].
Qed.
End Calls.

(** ** Encryption *)

Section Encryption.
Context {DK : Dalek} {DL : DalekLaws} {SC : SignalCrypto} {SL : SignalLaws} {LG : Logging}.
Context {W : Type} {SS : SignalStores W} {WS : WorkingStores}.
Variables (root0 : RootKey) (chain0 : bytes) (secret : nat -> bytes).
Hypothesis root0_len : zlen (root_key_bytes root0) = 32.
Hypothesis chain0_len : zlen chain0 = 32.
Hypothesis secret_wf : forall k, zlen (secret k) = 32 /\ are_bytes (secret k).
Variables (me them : PublicKey) (base : bytes) (reg : Z).
Hypothesis me_wf : public_wf me.
Hypothesis them_wf : public_wf them.

Abbreviation Party := (party root0 chain0 secret me them base reg).
Abbreviation Sealed := (sealed root0 chain0 secret).

(** The message, wrapped while the pre-key is not acknowledged. *)
Definition wrapped (items : option UnacknowledgedPreKeyMessageItems) (m : SignalMessage)
    : CiphertextMessage :=
  match items with
  | Some i => CPreKey (pre_key_message_new 3 reg (items_pre_key_id i) (items_signed_pre_key_id i)
                         (items_base_key i) me m)
  | None => CSignal m
  end.

Lemma party_sends pending k n D s :
  Party pending k n D s ->
  get_sender_chain_key s = Ok (key_at root0 chain0 secret k n)
  /\ sender_ratchet_key s = Ok (pub secret k).
Proof.
  intros Hs. unfold get_sender_chain_key, sender_ratchet_key.
  rewrite (party_sender _ _ _ _ _ _ _ _ _ _ _ _ Hs). cbn [ok_or mbind outcome_bind sender_ratchet_pub].
  split; [by apply read_key|]. rewrite public_roundtrip by (by apply pub_wf). done.
Qed.
Lemma party_sent pending k n D s :
  Party pending k n D s ->
  Party pending k (S n) D (set_sender_chain_key s (key_at root0 chain0 secret k (S n))).
Proof.
  intros [H1 H2 H3 H4 H5 H6 H7 H8 H9 H10]. constructor; try done.
  unfold set_sender_chain_key. cbn [s_sender_chain put_sender_chain]. by rewrite H5.
Qed.

Lemma encrypts p a w r s pending items k n D :
  load_session w a = Ok (Some r) -> current_session r = Some s -> Party pending k n D s ->
  unacknowledged_pre_key_message_items s = Ok items -> Z.of_nat n < U32_MAX ->
  exists w' s' m, message_encrypt p a w = (w', Ok (wrapped items m))
    /\ load_session w' a = Ok (Some (set_session_state r s'))
    /\ Party pending k (S n) D s' /\ Sealed me them k n p m.
Proof.
  intros Hl Hs HP Hitems Hn. destruct (party_sends _ _ _ _ _ HP) as [Hchain Hkey].
  assert (Hr : remote_identity_key s = Ok (Some them) /\ local_identity_key s = Ok me)
    by (by eapply party_identities).
  destruct Hr as [Hremote Hlocal].
  destruct (aes_cbc_roundtrip p (cipher_key (generate_keys (gen_at root0 chain0 secret k n)))
    (keys_iv (generate_keys (gen_at root0 chain0 secret k n)))) as (c & Henc & Hdec);
    [apply derive_keys_wf..|].
  destruct (signal_message_ok (mac_key (generate_keys (gen_at root0 chain0 secret k n))) (pub secret k)
    (Z.of_nat n) (previous_counter s) c me them) as (m & Hm & Hparse & Hv & Hrk & Hctr & _ & Hbody & Hmac).
  { apply derive_keys_wf. } { by apply pub_wf. } { unfold in_range, U32_MAX in *. lia. }
  { by eapply party_previous. }
  assert (Hin : exists w1, message_encrypt_inner p a (w, r)
    = ((w1, set_session_state r (set_sender_chain_key s (key_at root0 chain0 secret k (S n)))),
       Ok (wrapped items m))).
  { unfold message_encrypt_inner. unfold mbind, M_bind, gets, lift. rewrite Hs. cbn [ok_or].
    rewrite Hchain, step_key, Hkey by done.
    assert (Hver : session_version s = 3) by (by eapply party_version_ok).
    rewrite Hver. cbn [Z.ltb Z.compare Pos.compare Pos.compare_cont].
    rewrite Hlocal, Hremote. cbn [ok_or]. rewrite trusts. cbn [negb]. rewrite Henc. cbn [ok_or].
    rewrite Hitems. cbn [key_at chain_index]. rewrite Hm. unfold on_world.
    destruct (save_step a them w) as (w1 & change & -> & _). unfold on_record, modify, mret, M_ret.
    exists w1. do 2 f_equal. destruct items as [i|]; [|done]. cbn [wrapped]. do 2 f_equal.
    by eapply party_registration. }
  destruct Hin as [w1 Hin].
  unfold message_encrypt, mbind, M_bind, gets, lift. rewrite Hl. cbn [ok_or]. unfold with_record.
  rewrite Hin. unfold mbind, M_bind.
  destruct (store_step a (set_session_state r (set_sender_chain_key s (key_at root0 chain0 secret k (S n)))) w1)
    as (w2 & -> & Hw2). eexists w2, _, m. split; [done|]. split; [exact Hw2|].
  split; [by apply party_sent|]. constructor; try done.
  rewrite Hbody. cbn [mbind outcome_bind]. by rewrite Hdec.
Qed.
End Encryption.

(** ** The key agreement *)

Section Agreement.
Context {DK : Dalek} {DL : DalekLaws} {SC : SignalCrypto} {SL : SignalLaws} {LG : Logging}.
Context {W : Type} {SS : SignalStores W} {WS : WorkingStores}.
(** The two identities; the randomness of the initiator's base key, of the ratchet keys (the
    first is the receiver's signed pre-key) and of the one-time pre-key if there is one. *)
Variables (ia ib : IdentityKeyPair) (base_random : bytes) (secret : nat -> bytes).
Variable one_time : option (Z * bytes).
Definition identity_wf (i : IdentityKeyPair) : Prop :=
  private_wf (id_private i) /\ id_public i = public_key (id_private i).
Definition random_wf (b : bytes) : Prop := zlen b = 32 /\ are_bytes b.
Hypothesis ia_wf : identity_wf ia.
Hypothesis ib_wf : identity_wf ib.
Hypothesis base_wf : random_wf base_random.
Hypothesis secret_wf : forall k, random_wf (secret k).
Hypothesis one_time_wf : forall id b, one_time = Some (id, b) -> random_wf b.

Definition base_pair : KeyPair := keypair_generate base_random.
Definition one_time_pair : option KeyPair := keypair_generate ∘ snd <$> one_time.

(** What the initiator derives from its private keys. *)
Definition agreement : bytes :=
  replicate 32 255
  ++ calculate_agreement (id_private ia) (pub secret 0)
  ++ calculate_agreement (kp_private base_pair) (id_public ib)
  ++ calculate_agreement (kp_private base_pair) (pub secret 0)
  ++ match one_time_pair with
     | Some k => calculate_agreement (kp_private base_pair) (kp_public k)
     | None => []
     end.
Definition agreed_root : RootKey := fst (fst (derive_root_keys (str "WhisperText") agreement)).
Definition agreed_chain : bytes :=
  chain_key_bytes (snd (fst (derive_root_keys (str "WhisperText") agreement))).

Lemma agreed_len : zlen (root_key_bytes agreed_root) = 32 /\ zlen agreed_chain = 32.
Proof. apply derive_root_keys_wf. Qed.
Lemma agreed_eq : derive_root_keys (str "WhisperText") agreement
  = (agreed_root, mkChainKey agreed_chain 0, snd (derive_root_keys (str "WhisperText") agreement)).
Proof. done. Qed.

(** The receiver derives the same from its own. *)
Lemma agreement_received :
  replicate 32 255
  ++ calculate_agreement (priv secret 0) (id_public ia)
  ++ calculate_agreement (id_private ib) (kp_public base_pair)
  ++ calculate_agreement (priv secret 0) (kp_public base_pair)
  ++ match one_time_pair with
     | Some k => calculate_agreement (kp_private k) (kp_public base_pair)
     | None => []
     end
  = agreement.
Proof.
  destruct ia_wf as [Hia Hpa], ib_wf as [Hib Hpb].
  destruct (keypair_generate_wf base_random) as [Hb Hpub]; [by destruct base_wf..|].
  destruct (priv_wf secret secret_wf 0) as [H0 Hp0]. fold base_pair in Hb, Hpub.
  unfold agreement. rewrite Hpa, Hpb, Hp0, Hpub. do 2 f_equal; [by apply agreement_comm|].
  f_equal; [by apply agreement_comm|]. f_equal; [by apply agreement_comm|].
  unfold one_time_pair. destruct one_time as [[id b]|]; [|done].
  destruct (one_time_wf id b eq_refl) as [Hl Hby].
  destruct (keypair_generate_wf b Hl Hby) as [Hk Hpk]. cbn [fmap option_fmap option_map compose snd].
  rewrite Hpk. by apply agreement_comm.
Qed.

Abbreviation Party := (party agreed_root agreed_chain secret).
Abbreviation base := (public_serialize (kp_public base_pair)).

Definition alice_session : SessionState :=
  initialize_alice_session
    (mkAlice ia base_pair (id_public ib) (pub secret 0) (kp_public <$> one_time_pair) (pub secret 0))
    (secret 1).
Definition bob_session : SessionState :=
  initialize_bob_session
    (mkBob ib (pair secret 0) one_time_pair (pair secret 0) (id_public ia) (kp_public base_pair)).

Lemma alice_starts pending local remote :
  Party (id_public ia) (id_public ib) base local pending 1 0 (fun _ => [])
    (set_remote_registration_id (set_local_registration_id (with_pending alice_session pending) local)
       remote).
Proof.
  assert (Ha : alice_session = set_sender_chain
    (add_receiver_chain
       (session_new 3 (id_public ia) (id_public ib) (fst (epoch agreed_root agreed_chain secret 1))
          (kp_public base_pair)) (pub secret 0) (mkChainKey agreed_chain 0))
    (pair secret 1) (snd (epoch agreed_root agreed_chain secret 1))).
  { unfold alice_session, initialize_alice_session.
    cbn [a_our_identity a_our_base a_their_identity a_their_signed_pre_key a_their_one_time a_their_ratchet].
    assert (Hm : match kp_public <$> one_time_pair with
                 | Some k => calculate_agreement (kp_private base_pair) k
                 | None => [] end
               = match one_time_pair with
                 | Some k => calculate_agreement (kp_private base_pair) (kp_public k)
                 | None => [] end) by (by destruct one_time_pair).
    rewrite Hm. fold agreement. rewrite agreed_eq. done. }
  rewrite Ha. by constructor.
Qed.
Lemma bob_starts local remote :
  Party (id_public ib) (id_public ia) base local None 0 0 (fun _ => [])
    (set_remote_registration_id (set_local_registration_id bob_session local) remote).
Proof.
  assert (Hb : bob_session = set_sender_chain
    (session_new 3 (id_public ib) (id_public ia) agreed_root (kp_public base_pair)) (pair secret 0)
    (mkChainKey agreed_chain 0)).
  { unfold bob_session, initialize_bob_session.
    cbn [b_our_identity b_our_signed_pre_key b_our_one_time b_our_ratchet b_their_identity b_their_base].
    fold (priv secret 0). rewrite agreement_received, agreed_eq. done. }
  rewrite Hb. by constructor.
Qed.

(** ** The first calls *)

Variables (alice_address bob_address : ProtocolAddress) (alice_reg bob_reg signed_id : Z).
Hypothesis signed_id_range : in_range 32 signed_id.

Definition bundle (device_id : Z) (signature : bytes) : PreKeyBundle :=
  mkBundle bob_reg device_id
    ((fun '(id, b) => (id, kp_public (keypair_generate b))) <$> one_time)
    signed_id (pub secret 0) signature (id_public ib).
Definition items : UnacknowledgedPreKeyMessageItems :=
  mkItems (fst <$> one_time) signed_id (kp_public base_pair).
Definition pending : PendingPreKey :=
  mkPending (fst <$> one_time) (Some (as_i32 signed_id)) (Some base).

Lemma wrap_as_i32 z : in_range 32 z -> wrap 32 (as_i32 z) = z.
Proof.
  unfold in_range, as_i32, wrap. intros H. rewrite (Z.mod_small z) by lia.
  destruct (Z.ltb_spec z (2 ^ 31)); [by apply Z.mod_small|].
  replace (z - 2 ^ 32) with (z + (-1) * 2 ^ 32) by lia. rewrite Z_mod_plus_full. by apply Z.mod_small.
Qed.
Lemma pending_items s : s_pending_pre_key s = Some pending ->
  unacknowledged_pre_key_message_items s = Ok (Some items).
Proof.
  intros Hp. unfold unacknowledged_pre_key_message_items. rewrite Hp.
  cbn [pending pp_base_key pp_pre_key_id pp_signed_pre_key_id ok_or mbind outcome_bind from_option].
  destruct (keypair_generate_wf base_random) as [_ Hpub]; [by destruct base_wf..|].
  rewrite public_roundtrip by (unfold base_pair; rewrite Hpub; apply public_key_wf).
  cbn [map_err mbind outcome_bind id]. by rewrite wrap_as_i32.
Qed.

Lemma establishes device_id signature w o :
  get_identity_key_pair w = Ok ia -> get_local_registration_id w = Ok alice_reg ->
  load_session w bob_address = Ok o ->
  public_verify (id_public ib) [public_serialize (pub secret 0)] signature = true ->
  exists w' change r s,
    process_prekey_bundle bob_address (bundle device_id signature) base_random (secret 1) w = (w', Ok change)
    /\ load_session w' bob_address = Ok (Some r) /\ current_session r = Some s
    /\ Party (id_public ia) (id_public ib) base alice_reg (Some pending) 1 0 (fun _ => []) s.
Proof.
  intros Hid Hreg Hl Hsig. unfold process_prekey_bundle, mbind, M_bind. unfold gets at 1. rewrite trusts.
  cbn [negb bundle bundle_identity bundle_signed_public bundle_signature]. rewrite Hsig. cbn [negb].
  unfold gets at 1. rewrite Hl. unfold state.
  set (s := set_remote_registration_id
    (set_local_registration_id (with_pending alice_session (Some pending)) alice_reg) bob_reg).
  assert (Hin : exists w1 change, process_prekey_bundle_inner bob_address (bundle device_id signature) base_random
    (secret 1) (w, default record_new_fresh o)
    = ((w1, promote_state (default record_new_fresh o) s), Ok change)).
  { unfold process_prekey_bundle_inner, mbind, M_bind, gets. rewrite Hid, Hreg. unfold on_world.
    cbn [bundle bundle_identity bundle_signed_public bundle_pre_key bundle_signed_id bundle_registration_id].
    destruct (save_step bob_address (id_public ib) w) as (w1 & change & -> & _).
    unfold on_record, modify, mret, M_ret. exists w1, change. do 3 f_equal. unfold s, alice_session.
    unfold one_time_pair, pending. by destruct one_time as [[id b]|]. }
  destruct Hin as (w1 & change & Hin). rewrite Hin. cbn [is_err negb].
  rewrite orb_true_r. unfold mbind, M_bind.
  destruct (store_step bob_address (promote_state (default record_new_fresh o) s) w1) as (w2 & -> & Hw2).
  exists w2, change. eexists _, s. split; [done|]. split; [exact Hw2|]. split; [done|].
  apply alice_starts.
Qed.

Definition first_message (m : SignalMessage) : PreKeySignalMessage :=
  pre_key_message_new 3 alice_reg (fst <$> one_time) signed_id (kp_public base_pair) (id_public ia) m.

Lemma record_pair_read random : random_wf random ->
  record_key_pair (key_record_new (keypair_generate random)) = Ok (keypair_generate random).
Proof.
  intros [Hl Hb]. destruct (keypair_generate_wf random Hl Hb) as [Hk Hp].
  unfold record_key_pair, key_record_new. cbn [kr_public kr_private ok_or mbind outcome_bind].
  unfold keypair_from_public_and_private. rewrite public_roundtrip by (rewrite Hp; apply public_key_wf).
  cbn [mbind outcome_bind]. rewrite private_roundtrip by done. done.
Qed.

(** What the receiver's stores hold: its identity, and the pre-keys of the bundle. *)
Record publishes (w : W) : Prop := {
  publishes_identity : get_identity_key_pair w = Ok ib;
  publishes_registration : get_local_registration_id w = Ok bob_reg;
  publishes_signed : get_signed_pre_key w signed_id = Ok (key_record_new (pair secret 0));
  publishes_one_time id b :
    one_time = Some (id, b) -> get_pre_key w id = Ok (key_record_new (keypair_generate b))
}.

Lemma accepts m w r :
  publishes w -> promote_matching_session r 3 base = (r, Ok false) ->
  exists s, process_prekey (first_message m) alice_address (w, r)
            = ((w, promote_state r s), Ok (fst <$> one_time, false))
    /\ Party (id_public ib) (id_public ia) base bob_reg None 0 0 (fun _ => []) s.
Proof.
  intros [Hid Hreg Hsig Hone] Hmatch. eexists. split; [|apply bob_starts].
  unfold process_prekey, process_prekey_impl, mbind, M_bind. unfold gets at 1. rewrite trusts. cbn [negb].
  unfold on_record at 1. cbn [first_message pre_key_message_new pk_version pk_base_key
    pk_signed_pre_key_id pk_pre_key_id pk_identity_key pk_registration_id].
  rewrite Hmatch. unfold gets at 1. rewrite Hsig. unfold lift at 1. unfold pair at 1.
  rewrite record_pair_read by done. unfold bob_session, one_time_pair.
  destruct one_time as [[id b]|]; cbn [fmap option_fmap option_map fst snd compose];
    unfold gets, lift, mret, M_ret.
  - rewrite (Hone id b eq_refl), record_pair_read by (by eapply one_time_wf). rewrite Hid, Hreg. done.
  - rewrite Hid, Hreg. done.
Qed.
End Agreement.

(** ** An instance *)

#[export] Instance mem_stores_work {DK : Dalek} : WorkingStores (SS := mem_stores).
Proof. split; [apply _|done| |done]. intros a k w. by eexists. Qed.

#[local] Existing Instance verbose.

(** A forged message on an established session, which takes a ratchet step and skips four
    keys before its MAC is rejected. *)
Definition toy_established : MemStores :=
  fst (run_calls [Establish (str "bob") (toy_bundle 20) (replicate 32 1) (replicate 32 2)] (toy_device 10)).
Definition toy_forgery : SignalMessage :=
  mkSm 3 (kp_public (keypair_generate (replicate 32 5))) 4 0
    (51 :: encode_sm (str "key") 4 0 (str "text") ++ replicate 8 0).

Lemma failed_decrypt_preserves_sessions_witness :
  let '(w, o) := message_decrypt (CSignal toy_forgery) (str "bob") (fun _ => replicate 32 6) toy_established in
  o = Err (BadMac Whisper) /\ same_sessions toy_established w.
Proof.
  destruct (message_decrypt (CSignal toy_forgery) (str "bob") (fun _ => replicate 32 6) toy_established)
    as [w o] eqn:Hd.
  assert (Ho : o = Err (BadMac Whisper)).
  { change o with (snd (w, o)). rewrite <- Hd. by vm_compute. }
  split; [exact Ho|]. subst o. apply (failed_decrypt_preserves_sessions _ _ _ _ _ _ Hd).
Defined.
