(* ===== verification/Dialogue.v ===== *)
(** * The ideal conversation, and that sessions implement it

    [ideal] is what two people expect of an encrypted channel: each says things, and what is
    delivered is what was said, once.  [net] is two devices running the code, and a network
    that delivers what it likes.  Sessions refine the ideal: run on the same events they give
    the same reports. *)

From stdpp Require Import functions prelude strings list gmap.
From S2P Require Import Prelude Noise Curve SignalBase Ratchet Session SignalMessages.
From S2P Require Import SessionCipher SessionSafety SessionWorld Epochs Conversation.

#[local] Open Scope Z_scope.

Inductive side : Type := Alice | Bob.
#[global] Instance side_eq_dec : EqDecision side.
Proof. solve_decision. Defined.
Definition other (x : side) : side := match x with Alice => Bob | Bob => Alice end.
(** Who sends in an epoch. *)
Definition owner (j : nat) : side := if Nat.odd j then Alice else Bob.

(** The network may deliver any message said so far, again and again; [random] is what the
    receiver would draw for a new ratchet key. *)
Inductive event : Type :=
  | Say (x : side) (text : bytes)
  | Deliver (i : nat) (random : bytes).
Inductive report : Type := Sent | Got (o : result bytes) | Failed.

(** ** The ideal *)

Record seat : Type := mkSeat { turn : nat; got : nat -> list nat }.
Record utterance : Type := mkUtterance { e_epoch : nat; e_index : nat; e_text : bytes }.
Record ideal : Type := mkIdeal {
  seat_of : side -> seat; said : nat -> nat; entries : list utterance
}.
Definition ideal_start : ideal :=
  mkIdeal (fun x => mkSeat (match x with Alice => 1 | Bob => 0 end) (fun _ => [])) (fun _ => 0%nat) [].

Section Ideal.
Variables (secret : nat -> bytes) (last : nat).

(** [None] is an event outside the contract: the receiver speaks before it has heard
    anything, an epoch has more than 2051 messages, a message is from before the last five
    epochs received, or the randomness is not the next to draw. *)
Definition ideal_step (ev : event) (st : ideal) : option (ideal * report) :=
  match ev with
  | Say x text =>
      let k := turn (seat_of st x) in
      if decide (k <> 0%nat /\ (said st k < 2051)%nat)
      then Some (mkIdeal (seat_of st) (<[k := S (said st k)]> (said st))
                   (entries st ++ [mkUtterance k (said st k) text]), Sent)
      else None
  | Deliver i random =>
      e ← entries st !! i;
      let j := e_epoch e in
      let x := other (owner j) in
      let '(mkSeat k D) := seat_of st x in
      if decide (j = S k) then
        if decide ((S (S k) <= last)%nat /\ random = secret (S (S k)))
        then Some (mkIdeal (<[x := mkSeat (S (S k)) (<[j := [e_index e]]> D)]> (seat_of st))
                     (said st) (entries st), Got (Ok (e_text e)))
        else None
      else if decide (j ∈ kept k) then
        if decide (e_index e ∈ D j)
        then Some (st, Got (Err (DuplicatedMessage (Z.of_nat (highest (D j))) (Z.of_nat (e_index e)))))
        else Some (mkIdeal (<[x := mkSeat k (<[j := e_index e :: D j]> D)]> (seat_of st))
                     (said st) (entries st), Got (Ok (e_text e)))
      else None
  end.
Fixpoint ideal_run (evs : list event) (st : ideal) : option (list report) :=
  match evs with
  | [] => Some []
  | ev :: evs =>
      '(st, r) ← ideal_step ev st;
      rs ← ideal_run evs st; Some (r :: rs)
  end.
End Ideal.

(** ** Two devices *)

Section Net.
Context {DK : Dalek} {SC : SignalCrypto} {LG : Logging} {W : Type} {SS : SignalStores W}.
(** Under which address each side knows the other. *)
Variable peer : side -> ProtocolAddress.

Record net : Type := mkNet { world : side -> W; log : list (side * CiphertextMessage) }.

(** A message is serialized and parsed on its way. *)
Definition transmit (c : CiphertextMessage) : result CiphertextMessage :=
  match c with
  | CSignal m => CSignal <$> sm_try_from (sm_serialized m)
  | CPreKey m => CPreKey <$> pksm_try_from (pk_serialized m)
  end.
Definition net_step (ev : event) (n : net) : net * report :=
  match ev with
  | Say x text =>
      match message_encrypt text (peer x) (world n x) with
      | (w, Ok c) => (mkNet (<[x := w]> (world n)) (log n ++ [(other x, c)]), Sent)
      | (w, _) => (mkNet (<[x := w]> (world n)) (log n), Failed)
      end
  | Deliver i random =>
      match log n !! i with
      | Some (y, c) =>
          match transmit c with
          | Ok c =>
              let '(w, o) := message_decrypt c (peer y) (fun _ => random) (world n y) in
              (mkNet (<[y := w]> (world n)) (log n), Got (plaintext <$> o))
          | _ => (n, Failed)
          end
      | None => (n, Failed)
      end
  end.
Fixpoint net_run (evs : list event) (n : net) : list report :=
  match evs with
  | [] => []
  | ev :: evs => let '(n, r) := net_step ev n in r :: net_run evs n
  end.
End Net.

(** ** The refinement *)

Section Refinement.
Context {DK : Dalek} {DL : DalekLaws} {SC : SignalCrypto} {SL : SignalLaws} {LG : Logging}.
Context {W : Type} {SS : SignalStores W} {WS : WorkingStores}.
Variables (peer : side -> ProtocolAddress) (ia ib : IdentityKeyPair) (base_random : bytes).
Variables (secret : nat -> bytes) (last : nat) (one_time : option (Z * bytes)).
Variables (alice_reg bob_reg signed_id : Z) (wb : W).

(** What both sides bring: well-formed keys, ids of 32 bits, ratchet keys that do not
    collide; the receiver has published its pre-keys and has no session with this base key. *)
Record ready : Prop := {
  ready_alice : identity_wf ia;
  ready_bob : identity_wf ib;
  ready_base : random_wf base_random;
  ready_secret k : random_wf (secret k);
  ready_fresh i j : (i <= last)%nat -> (j <= last)%nat ->
    kp_public (keypair_generate (secret i)) = kp_public (keypair_generate (secret j)) -> i = j;
  ready_one_time id b : one_time = Some (id, b) -> random_wf b /\ in_range 32 id;
  ready_alice_reg : in_range 32 alice_reg;
  ready_signed_id : in_range 32 signed_id;
  ready_published : publishes ib secret one_time bob_reg signed_id wb;
  ready_unknown : exists o, load_session wb (peer Bob) = Ok o
    /\ promote_matching_session (default record_new_fresh o) 3
         (public_serialize (kp_public (base_pair base_random)))
       = (default record_new_fresh o, Ok false)
}.
Hypothesis rdy : ready.

Definition ident (x : side) : IdentityKeyPair := match x with Alice => ia | Bob => ib end.
Definition registration (x : side) : Z := match x with Alice => alice_reg | Bob => bob_reg end.
Abbreviation root0 := (agreed_root ia ib base_random secret one_time).
Abbreviation chain0 := (agreed_chain ia ib base_random secret one_time).
Abbreviation base := (public_serialize (kp_public (base_pair base_random))).
Abbreviation Party x := (party root0 chain0 secret (id_public (ident x)) (id_public (ident (other x)))
                           base (registration x)).
Abbreviation Sealed x := (sealed root0 chain0 secret (id_public (ident x)) (id_public (ident (other x)))).
Abbreviation To x := (sealed root0 chain0 secret (id_public (ident (other x))) (id_public (ident x))).
Abbreviation first_of m := (first_message ia base_random one_time alice_reg signed_id m).

(** The wire form of a message of epoch [j]: the first epoch is wrapped. *)
Definition wire (j : nat) (m : SignalMessage) : CiphertextMessage :=
  if decide (j = 1%nat) then CPreKey (first_of m) else CSignal m.
Definition wire_type (j : nat) : CiphertextMessageType := if decide (j = 1%nat) then PreKey else Whisper.
Definition pending_at (k : nat) : option PendingPreKey :=
  if decide (k = 1%nat) then Some (pending base_random one_time signed_id) else None.

(** A side that has a session with the other. *)
Definition seated (x : side) (w : W) (k n : nat) (D : nat -> list nat) : Prop :=
  exists r s, load_session w (peer x) = Ok (Some r) /\ current_session r = Some s
    /\ Party x (pending_at k) k n D s.

Definition logged (st : ideal) (e : utterance) (l : side * CiphertextMessage) : Prop :=
  fst l = other (owner (e_epoch e)) /\ e_epoch e <> 0%nat /\ (e_index e < said st (e_epoch e))%nat
  /\ exists m, snd l = wire (e_epoch e) m /\ Sealed (owner (e_epoch e)) (e_epoch e) (e_index e) (e_text e) m.

Record related (st : ideal) (n : net (W := W)) : Prop := {
  rel_owner x : owner (turn (seat_of st x)) = x;
  rel_turns : turn (seat_of st Bob) = 0%nat -> turn (seat_of st Alice) = 1%nat;
  rel_said j : (turn (seat_of st (owner j)) < j)%nat -> said st j = 0%nat;
  rel_said_zero : said st 0 = 0%nat;
  rel_said_bound j : (said st j <= 2051)%nat;
  rel_got x j : (turn (seat_of st x) <= j)%nat -> got (seat_of st x) j = [];
  rel_last x : turn (seat_of st x) <> 1%nat -> (turn (seat_of st x) <= last)%nat;
  rel_session x : turn (seat_of st x) <> 0%nat ->
    seated x (world n x) (turn (seat_of st x)) (said st (turn (seat_of st x))) (got (seat_of st x));
  rel_waiting : turn (seat_of st Bob) = 0%nat -> world n Bob = wb;
  rel_log : Forall2 (logged st) (entries st) (log n)
}.

Lemma ident_wf x : identity_wf (ident x).
Proof. destruct x; [exact (ready_alice rdy)|exact (ready_bob rdy)]. Qed.
Lemma ident_public_wf x : public_wf (id_public (ident x)).
Proof. destruct (ident_wf x) as [_ ->]. apply public_key_wf. Qed.
Lemma one_time_random id b : one_time = Some (id, b) -> random_wf b.
Proof. intros H. by apply (ready_one_time rdy id). Qed.
Lemma base_public_wf : public_wf (kp_public (base_pair base_random)).
Proof.
  destruct (ready_base rdy) as [Hl Hb]. destruct (keypair_generate_wf base_random Hl Hb) as [_ Hp].
  unfold base_pair. rewrite Hp. apply public_key_wf.
Qed.
Lemma owner_other_ne j k : owner j = other (owner k) -> j <> k.
Proof. intros H ->. by destruct (owner k). Qed.
Lemma other_other x : other (other x) = x.
Proof. by destruct x. Qed.
Lemma owner_S k : owner (S k) = other (owner k).
Proof. unfold owner. rewrite Nat.odd_succ, <- Nat.negb_odd. by destruct (Nat.odd k). Qed.

Lemma transmits j m x p i : Sealed x j i p m -> transmit (wire j m) = Ok (wire j m).
Proof.
  intros Hm. unfold wire. case_decide; cbn [transmit].
  - unfold first_message. rewrite pre_key_message_ok; [done|exact (ready_alice_reg rdy)| |
      exact (ready_signed_id rdy)|apply base_public_wf|exact (ident_public_wf Alice)|by eapply sealed_parses].
    intros id Hid. destruct one_time as [[id' b]|] eqn:Ho; [|done].
    injection Hid as <-. by apply (ready_one_time rdy id' b).
  - by erewrite sealed_parses.
Qed.

(** ** Delivery to a side with a session *)

Lemma party_matches x pend k n D s :
  Party x pend k n D s -> session_version s = 3 /\ alice_base_key s = base.
Proof.
  intros Hs. split; [by eapply party_version_ok|]. unfold alice_base_key.
  by rewrite (party_base _ _ _ _ _ _ _ _ _ _ _ _ Hs).
Qed.
Lemma party_can_send x pend k n D s : Party x pend k n D s -> can_send s.
Proof.
  intros Hs. exists (pub secret k). unfold sender_ratchet_key.
  rewrite (party_sender _ _ _ _ _ _ _ _ _ _ _ _ Hs). cbn [ok_or mbind outcome_bind sender_ratchet_pub].
  by rewrite public_roundtrip by (apply pub_wf, (ready_secret rdy)).
Qed.
Lemma seat_opens x j m random w r s s' p pend k n D k' n' D' :
  load_session w (peer x) = Ok (Some r) -> current_session r = Some s -> Party x pend k n D s ->
  decrypt_message_with_state m (wire_type j) random s = (s', Ok p) -> Party x None k' n' D' s' ->
  exists w' d, message_decrypt (wire j m) (peer x) (fun _ => random) w = (w', Ok d)
    /\ plaintext d = p /\ load_session w' (peer x) = Ok (Some (set_session_state r s')).
Proof.
  intros Hl Hs Hp Hd Hp'. unfold wire, wire_type in *. destruct (party_matches _ _ _ _ _ _ Hp) as [Hv Hb]. case_decide.
  - destruct (prekey_opens (first_of m) (peer x) (fun _ => random) w (Some r) w r s s' p None true)
      as (w' & change & -> & Hw'); [done| |done|done|by eapply party_can_send|by eexists _, _].
    by eapply prekey_reuses.
  - destruct (signal_opens m (peer x) (fun _ => random) w r s s' p (id_public (ident (other x))))
      as (w' & change & -> & Hw'); [done..|by eapply party_can_send| |by eexists _, _].
    eapply party_identities; [apply ident_public_wf..|exact Hp'].
Qed.
Lemma seat_duplicate x j m random w r s a b pend k n D :
  load_session w (peer x) = Ok (Some r) -> current_session r = Some s -> Party x pend k n D s ->
  decrypt_message_with_state m (wire_type j) random s = (s, Err (DuplicatedMessage a b)) ->
  exists w', message_decrypt (wire j m) (peer x) (fun _ => random) w = (w', Err (DuplicatedMessage a b))
    /\ load_session w' (peer x) = Ok (Some r).
Proof.
  intros Hl Hs Hp Hd. unfold wire, wire_type in *. destruct (party_matches _ _ _ _ _ _ Hp) as [Hv Hb]. case_decide.
  - by eapply prekey_duplicate.
  - by eapply signal_duplicate.
Qed.

(** ** The relation is kept *)

Lemma related_update st n x k D w :
  related st n -> owner k = x -> (turn (seat_of st x) <= k)%nat -> k <> 0%nat ->
  (x = Alice -> k <> 1%nat -> turn (seat_of st Bob) <> 0%nat) ->
  (k <> 1%nat -> (k <= last)%nat) -> (forall j, (k <= j)%nat -> D j = []) ->
  seated x w k (said st k) D ->
  related (mkIdeal (<[x := mkSeat k D]> (seat_of st)) (said st) (entries st))
    (mkNet (<[x := w]> (world n)) (log n)).
Proof.
  intros [H1 H2 H3 H4 H5 H6 H7 H8 H9 H10] Hown Hle Hk Hbob Hlast HD Hw. constructor; cbn; try done.
  - intros y. by destruct (decide (x = y)) as [<-|Hy]; [rewrite fn_lookup_insert|rewrite fn_lookup_insert_ne].
  - destruct x.
    + rewrite fn_lookup_insert, fn_lookup_insert_ne by done. cbn. intros Hb.
      destruct (decide (k = 1%nat)); [done|]. by destruct (Hbob eq_refl).
    + rewrite fn_lookup_insert. done.
  - intros j Hj. apply H3. destruct (decide (x = owner j)) as [Hx|Hy].
    + rewrite <- Hx in *. rewrite fn_lookup_insert in Hj. cbn in Hj. lia.
    + by rewrite fn_lookup_insert_ne in Hj.
  - intros y j. destruct (decide (x = y)) as [<-|Hy]; [rewrite fn_lookup_insert; apply HD|].
    rewrite fn_lookup_insert_ne by done. apply H6.
  - intros y. destruct (decide (x = y)) as [<-|Hy]; [rewrite fn_lookup_insert; apply Hlast|].
    rewrite fn_lookup_insert_ne by done. apply H7.
  - intros y. destruct (decide (x = y)) as [<-|Hy]; [by rewrite !fn_lookup_insert|].
    rewrite !fn_lookup_insert_ne by done. apply H8.
  - destruct x; [by rewrite !fn_lookup_insert_ne|by rewrite fn_lookup_insert].
Qed.

(** Speaking. *)
Lemma related_say st n x text st' r :
  related st n -> ideal_step secret last (Say x text) st = Some (st', r) ->
  exists n', net_step peer (Say x text) n = (n', r) /\ related st' n'.
Proof.
  intros Hrel. cbn [ideal_step]. set (k := turn (seat_of st x)). case_decide as Hk; [|done].
  destruct Hk as [Hk Hsaid]. intros [= <- <-].
  destruct (rel_session _ _ Hrel x Hk) as (r & s & Hl & Hs & Hp). fold k in Hp.
  assert (Hx : owner k = x) by apply (rel_owner _ _ Hrel).
  assert (Hitems : unacknowledged_pre_key_message_items s
    = Ok (if decide (k = 1%nat) then Some (items base_random one_time signed_id) else None)).
  { pose proof (party_pending _ _ _ _ _ _ _ _ _ _ _ _ Hp) as Hpend. unfold pending_at in Hpend.
    case_decide; [apply pending_items; [exact (ready_base rdy)|exact (ready_signed_id rdy)|done]|].
    unfold unacknowledged_pre_key_message_items. by rewrite Hpend. }
  destruct (encrypts root0 chain0 secret (proj1 (agreed_len _ _ _ _ _)) (proj2 (agreed_len _ _ _ _ _))
    (ready_secret rdy) _ _ _ _ (ident_public_wf x) (ident_public_wf (other x)) text (peer x) (world n x)
    r s _ _ k (said st k) (got (seat_of st x)) Hl Hs Hp Hitems) as (w' & s' & m & He & Hl' & Hp' & Hm).
  { pose proof (rel_said_bound _ _ Hrel k). unfold U32_MAX. lia. }
  assert (Hwire : wrapped (id_public (ident x)) (registration x)
    (if decide (k = 1%nat) then Some (items base_random one_time signed_id) else None) m = wire k m).
  { unfold wire. case_decide as H1; [|done]. assert (x = Alice) as -> by (by rewrite <- Hx, H1). done. }
  rewrite Hwire in He. cbn [net_step]. rewrite He. eexists. split; [done|].
  destruct Hrel as [H1 H2 H3 H4 H5 H6 H7 H8 H9 H10]. constructor; cbn; try done.
  - intros j Hj. rewrite fn_lookup_insert_ne; [by apply H3|]. intros Hjk.
    rewrite <- Hjk, Hx in Hj. unfold k in Hj. lia.
  - by rewrite fn_lookup_insert_ne.
  - intros j. destruct (decide (k = j)) as [<-|]; [rewrite fn_lookup_insert; lia|by rewrite fn_lookup_insert_ne].
  - intros y Hy. destruct (decide (x = y)) as [<-|Hne].
    + fold k. rewrite !fn_lookup_insert. by exists (set_session_state r s'), s'.
    + rewrite fn_lookup_insert_ne by done. rewrite fn_lookup_insert_ne; [by apply H8|].
      intros Heq. apply Hne. by rewrite <- Hx, Heq, H1.
  - intros Hb. rewrite fn_lookup_insert_ne; [by apply H9|]. intros ->. fold k in Hb. done.
  - apply Forall2_app.
    + eapply Forall2_impl; [exact H10|]. intros e [y c] (Hy & He0 & Hlt & Hex). split; [done|]. split; [done|].
      split; [|done]. cbn. destruct (decide (k = e_epoch e)) as [Hke|].
      { rewrite <- Hke in Hlt |- *. rewrite fn_lookup_insert. lia. }
      by rewrite fn_lookup_insert_ne.
    + constructor; [|constructor]. unfold logged. cbn [fst snd e_epoch e_index e_text].
      rewrite Hx. split_and!; [done|done|cbn; rewrite fn_lookup_insert; lia|]. by exists m.
Qed.

(** Hearing. *)
Lemma related_world st n x w :
  related st n -> turn (seat_of st x) <> 0%nat ->
  seated x w (turn (seat_of st x)) (said st (turn (seat_of st x))) (got (seat_of st x)) ->
  related st (mkNet (<[x := w]> (world n)) (log n)).
Proof.
  intros [H1 H2 H3 H4 H5 H6 H7 H8 H9 H10] Hk Hw. constructor; cbn; try done.
  - intros y Hy. destruct (decide (x = y)) as [<-|Hne]; [by rewrite fn_lookup_insert|].
    rewrite fn_lookup_insert_ne by done. by apply H8.
  - intros Hb. rewrite fn_lookup_insert_ne; [by apply H9|]. intros ->. done.
Qed.

Lemma next_turn st n x k D i m p :
  related st n -> seat_of st x = mkSeat k D -> (S (S k) <= last)%nat ->
  (i < said st (S k))%nat -> To x (S k) i p m ->
  exists w' d,
    message_decrypt (wire (S k) m) (peer x) (fun _ => secret (S (S k))) (world n x) = (w', Ok d)
    /\ plaintext d = p
    /\ seated x w' (S (S k)) (said st (S (S k))) (<[S k := [i]]> D).
Proof.
  intros Hrel Hseat Hlast Hi Hm.
  assert (Hown : owner k = x) by (by rewrite <- (rel_owner _ _ Hrel x), Hseat).
  assert (Hzero : said st (S (S k)) = 0%nat).
  { apply (rel_said _ _ Hrel). rewrite !owner_S, Hown, other_other, Hseat. cbn. lia. }
  assert (HD : D (S k) = []).
  { pose proof (rel_got _ _ Hrel x (S k)) as H. rewrite Hseat in H. apply H. cbn. lia. }
  pose proof (rel_said_bound _ _ Hrel (S k)) as Hb. rewrite Hzero.
  pose proof (party_next root0 chain0 secret last (proj1 (agreed_len _ _ _ _ _)) (proj2 (agreed_len _ _ _ _ _))
    (ready_secret rdy) (ready_fresh rdy) _ _ base (registration x) (ident_public_wf x)
    (ident_public_wf (other x))) as Hnext.
  destruct (decide (k = 0%nat)) as [->|Hk].
  - subst x. change (owner 0) with Bob in *. pose proof (rel_waiting _ _ Hrel) as Hw.
    rewrite Hseat in Hw. rewrite (Hw eq_refl).
    destruct (ready_unknown rdy) as (o & Ho & Hnone).
    destruct (accepts ia ib base_random secret one_time (ready_alice rdy) (ready_bob rdy) (ready_base rdy)
      (ready_secret rdy) one_time_random (peer Bob) alice_reg bob_reg signed_id m wb _
      (ready_published rdy) Hnone) as (s & Hproc & Hp).
    destruct (Hnext None 0%nat 0%nat (fun _ => []) s i p m PreKey Hp Hm eq_refl Hlast ltac:(done) ltac:(lia))
      as (s' & Hd & Hp').
    destruct (prekey_opens (first_of m) (peer Bob) (fun _ => secret 2) wb o wb _ s s' p _ _ Ho Hproc eq_refl Hd
      (party_can_send Bob _ _ _ _ _ Hp'))
      as (w' & change & Hdec & Hw').
    eexists w', _. split; [exact Hdec|]. split; [done|]. eexists _, s'. split; [exact Hw'|]. split; [done|].
    pose proof (rel_got _ _ Hrel Bob) as Hgot. rewrite Hseat in Hgot.
    eapply party_ext; [|exact Hp']. intros j. destruct (decide (1 = j)%nat) as [<-|Hne].
    + by rewrite !fn_lookup_insert.
    + rewrite !fn_lookup_insert_ne by done. symmetry. apply Hgot. cbn. lia.
  - pose proof (rel_session _ _ Hrel x) as Hses. rewrite Hseat in Hses. cbn [turn got] in Hses.
    destruct (Hses Hk) as (r & s & Hl & Hs & Hp).
    pose proof (rel_said_bound _ _ Hrel k) as Hbk.
    destruct (Hnext _ k (said st k) D s i p m (wire_type (S k)) Hp Hm HD Hlast ltac:(unfold U32_MAX; lia)
      ltac:(lia)) as (s' & Hd & Hp').
    destruct (seat_opens x (S k) m _ _ _ _ _ _ _ _ _ _ _ _ _ Hl Hs Hp Hd Hp') as (w' & d & Hdec & Hd' & Hw').
    exists w', d. split; [done|]. split; [done|]. eexists _, s'. split; [exact Hw'|]. split; [done|].
    unfold pending_at. rewrite decide_False by done. exact Hp'.
Qed.

Lemma known_turn st n x k D j i m p random st' r :
  related st n -> seat_of st x = mkSeat k D -> j <> 0%nat -> j ∈ kept k ->
  (i < said st j)%nat -> To x j i p m ->
  (if decide (i ∈ D j)
   then Some (st, Got (Err (DuplicatedMessage (Z.of_nat (highest (D j))) (Z.of_nat i))))
   else Some (mkIdeal (<[x := mkSeat k (<[j := i :: D j]> D)]> (seat_of st)) (said st) (entries st),
              Got (Ok p))) = Some (st', r) ->
  exists n', (let '(w, o) := message_decrypt (wire j m) (peer x) (fun _ => random) (world n x) in
              (mkNet (<[x := w]> (world n)) (log n), Got (plaintext <$> o))) = (n', r)
    /\ related st' n'.
Proof.
  intros Hrel Hseat Hj Hkept Hi Hto.
  assert (Hown : owner k = x) by (by rewrite <- (rel_owner _ _ Hrel x), Hseat).
  assert (Hk : k <> 0%nat /\ k <> 1%nat).
  { split; intros ->; [by apply elem_of_nil in Hkept|]. by apply list_elem_of_singleton in Hkept. }
  pose proof (rel_session _ _ Hrel x) as Hses. pose proof (rel_last _ _ Hrel x) as Hlast.
  pose proof (rel_got _ _ Hrel x) as Hgot.
  rewrite Hseat in Hses, Hlast, Hgot. cbn [turn got] in Hses, Hlast, Hgot.
  destruct (Hses (proj1 Hk)) as (r0 & s & Hl & Hs & Hp). pose proof (rel_said_bound _ _ Hrel j) as Hb.
  pose proof (party_known root0 chain0 secret last (proj1 (agreed_len _ _ _ _ _))
    (proj2 (agreed_len _ _ _ _ _)) (ready_secret rdy) (ready_fresh rdy) _ _ base (registration x)
    (ident_public_wf x) (ident_public_wf (other x)) _ k (said st k) D s j i p m
    (wire_type j) random Hp Hto Hkept (Hlast (proj2 Hk)) ltac:(lia)) as Hknown.
  case_decide as Hdup; intros [= <- <-].
  - destruct (seat_duplicate x j m _ _ _ _ _ _ _ _ _ _ Hl Hs Hp Hknown) as (w' & -> & Hw').
    eexists. split; [done|]. apply related_world; [done|rewrite Hseat; cbn; lia|]. rewrite Hseat. by exists r0, s.
  - destruct Hknown as (s' & Hd & Hp').
    destruct (seat_opens x j m _ _ _ _ _ _ _ _ _ _ _ _ _ Hl Hs Hp Hd Hp') as (w' & d & -> & <- & Hw').
    eexists. split; [done|].
    apply related_update; [done|done|rewrite Hseat; cbn; lia|tauto| |done| |].
    + intros Hx _ Hbz. destruct (proj2 Hk). pose proof (rel_turns _ _ Hrel Hbz) as H1.
      rewrite Hx in Hseat. by rewrite Hseat in H1.
    + intros q Hq. rewrite fn_lookup_insert_ne; [by apply Hgot|]. intros <-.
      destruct (kept_facts k) as (_ & _ & Hf). rewrite Forall_forall in Hf. specialize (Hf _ Hkept). lia.
    + exists (set_session_state r0 s'), s'. split; [done|]. split; [done|].
      unfold pending_at. rewrite decide_False by tauto. exact Hp'.
Qed.

Lemma related_deliver st n i random st' r :
  related st n -> ideal_step secret last (Deliver i random) st = Some (st', r) ->
  exists n', net_step peer (Deliver i random) n = (n', r) /\ related st' n'.
Proof.
  intros Hrel. cbn [ideal_step net_step].
  destruct (entries st !! i) as [e|] eqn:He; [|done]. cbn [mbind option_bind].
  destruct (Forall2_lookup_l _ _ _ _ _ (rel_log _ _ Hrel) He) as ([y c] & Hlog & Hy & Hj0 & Hlt & m & Hc & Hm).
  rewrite Hlog. cbn [fst snd] in Hy, Hc. subst y c. rewrite (transmits _ _ _ _ _ Hm).
  set (j := e_epoch e) in *. set (x := other (owner j)) in *.
  assert (Hto : To x j (e_index e) (e_text e) m) by (unfold x; by rewrite other_other).
  destruct (seat_of st x) as [k D] eqn:Hseat.
  assert (Hown : owner k = x) by (by rewrite <- (rel_owner _ _ Hrel x), Hseat).
  pose proof (rel_got _ _ Hrel x) as Hgot. rewrite Hseat in Hgot. cbn [turn got] in Hgot.
  case_decide as Hnext; [case_decide as Hguard; [|done]|case_decide as Hkept; [|done]].
  - destruct Hguard as [Hlast ->]. intros [= <- <-]. rewrite Hnext in Hlt, Hto |- *.
    destruct (next_turn _ _ _ _ _ _ _ _ Hrel Hseat Hlast Hlt Hto) as (w' & d & -> & <- & Hw').
    eexists. split; [done|]. apply related_update; [done|by rewrite !owner_S, Hown, other_other| |done| |done| |done].
    + rewrite Hseat. cbn. lia.
    + intros Hx _ Hb. assert (said st (S k) = 0%nat); [|lia]. apply (rel_said _ _ Hrel).
      rewrite owner_S, Hown, Hx. cbn [other]. rewrite Hb. lia.
    + intros q Hq. rewrite fn_lookup_insert_ne by lia. apply Hgot. lia.
  - by apply (known_turn st n x k D).
Qed.

Lemma related_run evs : forall st n rs,
  related st n -> ideal_run secret last evs st = Some rs -> net_run peer evs n = rs.
Proof.
  induction evs as [|ev evs IH]; intros st n rs Hrel; cbn [ideal_run net_run]; [congruence|].
  destruct (ideal_step secret last ev st) as [[st' r]|] eqn:Hstep; [|done]. cbn [mbind option_bind].
  destruct (ideal_run secret last evs st') as [rs'|] eqn:Hrun; [|done]. intros [= <-].
  assert (Hn : exists n', net_step peer ev n = (n', r) /\ related st' n').
  { destruct ev; [by eapply related_say|by eapply related_deliver]. }
  destruct Hn as (n' & -> & Hrel'). f_equal. by eapply IH.
Qed.

Lemma related_start w r s :
  load_session w (peer Alice) = Ok (Some r) -> current_session r = Some s ->
  Party Alice (Some (pending base_random one_time signed_id)) 1 0 (fun _ => []) s ->
  related ideal_start (mkNet (fun x => match x with Alice => w | Bob => wb end) []).
Proof.
  intros Hl Hs Hp. constructor; cbn [seat_of said entries ideal_start turn got world log]; try done.
  - by intros [].
  - lia.
  - intros []; [done|]. intros _. lia.
  - intros []; [|done]. intros _. by exists r, s.
Qed.

(** C1: Sessions implement the ideal conversation.  One side sets up a session from the
    other's signed bundle; from then on, whatever is said by either side and however the
    network delays, reorders, repeats or loses messages, as long as the ideal allows it each
    call gives the ideal's report: a message said can be sent, the first delivery of a
    message gives exactly the text that was said - also when it overtakes others, also across
    up to five changes of ratchet key - and any later delivery of it is refused as a
    duplicate. *)
Theorem dialogue wa o device_id signature evs reports :
  get_identity_key_pair wa = Ok ia -> get_local_registration_id wa = Ok alice_reg ->
  load_session wa (peer Alice) = Ok o ->
  public_verify (id_public ib) [public_serialize (pub secret 0)] signature = true ->
  ideal_run secret last evs ideal_start = Some reports ->
  exists wa' change,
    process_prekey_bundle (peer Alice) (bundle ib secret one_time bob_reg signed_id device_id signature) base_random
      (secret 1) wa = (wa', Ok change)
    /\ net_run peer evs (mkNet (fun x => match x with Alice => wa' | Bob => wb end) []) = reports.
Proof.
  intros Hid Hreg Hl Hsig Hrun.
  destruct (establishes ia ib base_random secret one_time one_time_random
    (peer Alice) alice_reg bob_reg signed_id device_id signature wa o Hid Hreg Hl Hsig)
    as (wa' & change & r & s & He & Hl' & Hs & Hp).
  exists wa', change. split; [exact He|]. eapply related_run; [|exact Hrun]. by eapply related_start.
Qed.
End Refinement.

(** ** An instance *)

Definition toy_secret (k : nat) : bytes := replicate 32 (Z.of_nat k mod 256).
Definition toy_peer (x : side) : ProtocolAddress := match x with Alice => str "bob" | Bob => str "alice" end.
Definition toy_identity (n : Z) : IdentityKeyPair :=
  mkIdentity (kp_public (toy_pair n)) (kp_private (toy_pair n)).
Definition toy_bob : MemStores :=
  mkMem _ ∅ ∅ (toy_identity 90) 90 {[ 5 := key_record_new (toy_pair 91) ]}
    {[ 7 := key_record_new (pair toy_secret 0) ]}.
Definition toy_one_time : option (Z * bytes) := Some (5, replicate 32 91).
Definition toy_signature : bytes :=
  default [] (ok (snd (calculate_signature (id_private (toy_identity 90))
                         [public_serialize (pub toy_secret 0)] []))).

Lemma toy_random_wf n : 0 <= n < 256 -> random_wf (replicate 32 n).
Proof. intros Hn. split; [done|]. by apply Forall_replicate. Qed.
Lemma toy_identity_wf n : 0 <= n < 256 -> identity_wf (toy_identity n).
Proof. intros Hn. destruct (toy_random_wf n Hn). by apply keypair_generate_wf. Qed.
Lemma toy_ready :
  ready toy_peer (toy_identity 80) (toy_identity 90) (replicate 32 70) toy_secret 9 toy_one_time 80 90 7
    toy_bob.
Proof.
  constructor.
  - by apply toy_identity_wf.
  - by apply toy_identity_wf.
  - by apply toy_random_wf.
  - intros k. apply toy_random_wf. by apply Z.mod_pos_bound.
  - assert (Hn : NoDup ((fun i => kp_public (keypair_generate (toy_secret i))) <$> seq 0 10))
      by (apply (bool_decide_unpack _); by vm_compute).
    intros i j Hi Hj Heq.
    apply (NoDup_lookup _ i j (kp_public (keypair_generate (toy_secret i))) Hn);
      rewrite list_lookup_fmap, lookup_seq_lt by lia; [done|].
    rewrite Heq. done.
  - intros id b [= <- <-]. split; [by apply toy_random_wf|done].
  - done.
  - done.
  - split; [done|done|done|]. intros id b [= <- <-]. done.
  - exists None. split; [done|]. done.
Qed.

(** Two messages that change places on the way, a reply, and a repetition. *)
Definition toy_events : list event :=
  [Say Alice (str "hello"); Say Alice (str "are you there"); Deliver 1 (toy_secret 2);
   Say Bob (str "yes"); Deliver 2 (toy_secret 3); Deliver 0 (toy_secret 4); Say Alice (str "good");
   Deliver 1 (toy_secret 4); Deliver 3 (toy_secret 4)].

#[local] Existing Instance verbose.
Lemma dialogue_witness :
  exists wa' change,
    process_prekey_bundle (toy_peer Alice)
      (bundle (toy_identity 90) toy_secret toy_one_time 90 7 1 toy_signature) (replicate 32 70) (toy_secret 1)
      (toy_device 80) = (wa', Ok change)
    /\ net_run toy_peer toy_events (mkNet (fun x => match x with Alice => wa' | Bob => toy_bob end) [])
       = [Sent; Sent; Got (Ok (str "are you there")); Sent; Got (Ok (str "yes")); Got (Ok (str "hello"));
          Sent; Got (Err (DuplicatedMessage 2 1)); Got (Ok (str "good"))].
Proof.
  apply (dialogue toy_peer (toy_identity 80) (toy_identity 90) (replicate 32 70) toy_secret 9 toy_one_time
    80 90 7 toy_bob toy_ready (toy_device 80) None 1 toy_signature); [done|done|done|by vm_compute|by vm_compute].
Defined.
