(* ===== verification/SignalCache.v ===== *)
(** * The write-back cache of Signal state

    [wacore/src/store/signal_cache.rs] over the backend trait [SignalStore] of
    [store/traits.rs].  Sessions are taken out of the cache to be used and put back; a flush
    writes what is dirty, and deletes a consumed one-time pre-key only once the session it
    made is in the backend.

    The backend is the Signal part of [store/in_memory.rs], with the default batch methods of
    the trait; every operation on it may fail, as the list [faults] says (a failed one may
    have happened all the same), and every state it goes through is in [history], so that a
    crash at any point can be talked about.  The locks make each method one step, but for the
    reads that release the lock while the backend is asked:
    their second half is a definition of its own.  Records are opaque, with their codec in
    the class [Codec]; the order in which a hash table is listed is the class [HashOrder]. *)

From stdpp Require Import prelude gmap.
From S2P Require Import Prelude.

#[local] Open Scope Z_scope.

Class Codec (R : Type) : Type := {
  serialize : R -> bytes;
  deserialize : bytes -> option R;
  (** what the code stores: within the limits that the decoder enforces *)
  storable : R -> Prop
}.
Class CodecLaws (R : Type) {C : Codec R} : Prop :=
  codec_inverse : forall r, storable r -> deserialize (serialize r) = Some r.

Class HashOrder : Type := {
  iter : gset bytes -> list bytes;
  iter_prekeys : gmap Z bytes -> list (Z * bytes)
}.
Class HashOrderLaws {H : HashOrder} : Prop := {
  iter_perm : forall s, iter s ≡ₚ elements s;
  iter_prekeys_perm : forall m, iter_prekeys m ≡ₚ map_to_list m
}.

(** ** The backend *)

Record Backend : Type := mkBackend {
  b_sessions : gmap bytes bytes; b_identities : gmap bytes bytes;
  b_sender_keys : gmap bytes bytes; b_prekeys : gmap Z bytes
}.
(** What becomes of an operation: it happens; it fails; it happens, and fails to say so. *)
Inductive Fault : Type := Fine | Refused | Unconfirmed.

(** ** The states of the cache *)

Inductive SessionEntry (R : Type) : Type := Present (r : R) | Absent | CheckedOut.
Arguments Present {R} r.
Arguments Absent {R}.
Arguments CheckedOut {R}.

Record SessionStoreState (R : Type) : Type := mkSessions {
  s_cache : gmap bytes (SessionEntry R); s_dirty : gset bytes; s_deleted : gset bytes
}.
Record SenderKeyStoreState (K : Type) : Type := mkSenderKeys {
  k_cache : gmap bytes (option K); k_dirty : gset bytes
}.
Record ByteStoreState : Type := mkByteStore {
  i_cache : gmap bytes (option bytes); i_dirty : gset bytes; i_deleted : gset bytes
}.
Arguments mkSessions {R} _ _ _.
Arguments s_cache {R} _.
Arguments s_dirty {R} _.
Arguments s_deleted {R} _.
Arguments mkSenderKeys {K} _ _.
Arguments k_cache {K} _.
Arguments k_dirty {K} _.

Definition EVICTION_SLACK_DIVISOR : Z := 8.
Definition EVICTION_SLACK_FLOOR : Z := 16.
Definition DEFAULT_MAX_CACHE_ENTRIES : Z := 2000.
(** [saturating_add] of [usize]. *)
Definition high_watermark (max_entries : Z) : Z :=
  Z.min (max_entries + Z.max (max_entries / EVICTION_SLACK_DIVISOR) EVICTION_SLACK_FLOOR) (2 ^ 64 - 1).

Section Cache.
Context {R K : Type} {CR : Codec R} {CK : Codec K} {HO : HashOrder}.

Definition msize {V} (m : gmap bytes V) : Z := Z.of_nat (size m).

(** *** Eviction: clean entries, negative ones first *)

Definition remove_all {V} (keys : list bytes) (m : gmap bytes V) : gmap bytes V :=
  foldr delete m keys.
(** The keys of the cache, in the order of the table, for which [p] holds of the value. *)
Definition keys_where {V} (p : V -> bool) (keys : list bytes) (m : gmap bytes V) : list bytes :=
  filter (fun k => from_option p false (m !! k) = true) keys.

Definition evict_clean_entries {V} (cache : gmap bytes (option V)) (dirty : gset bytes)
    (deleted : option (gset bytes)) (max_entries : Z) : gmap bytes (option V) :=
  if msize cache <=? high_watermark max_entries then cache
  else
    let overflow := Z.to_nat (msize cache - max_entries) in
    let clean := filter (fun k => k ∉ dirty /\ k ∉ default ∅ deleted) (iter (dom cache)) in
    let negative := keys_where (fun v => match v with None => true | Some _ => false end) clean cache in
    let positive := keys_where (fun v => match v with None => false | Some _ => true end) clean cache in
    remove_all (take overflow (negative ++ positive)) cache.

Definition session_evict_if_needed (st : SessionStoreState R) (max_entries : Z) : SessionStoreState R :=
  let cache := s_cache st in
  if msize cache <=? high_watermark max_entries then st
  else
    let overflow := Z.to_nat (msize cache - max_entries) in
    let clean := filter (fun k => k ∉ s_dirty st /\ k ∉ s_deleted st) (iter (dom cache)) in
    let negative := keys_where (fun v => match v with Absent => true | _ => false end) clean cache in
    let positive := keys_where (fun v => match v with Present _ => true | _ => false end) clean cache in
    mkSessions (remove_all (take overflow (negative ++ positive)) cache) (s_dirty st) (s_deleted st).

(** *** The methods of the three states *)

Definition session_put (st : SessionStoreState R) (a : bytes) (r : R) : SessionStoreState R :=
  mkSessions (<[a := Present r]> (s_cache st)) ({[a]} ∪ s_dirty st) (s_deleted st ∖ {[a]}).
Definition session_delete (st : SessionStoreState R) (a : bytes) : SessionStoreState R :=
  mkSessions (<[a := Absent]> (s_cache st)) (s_dirty st ∖ {[a]}) ({[a]} ∪ s_deleted st).
Definition set_entry (st : SessionStoreState R) (a : bytes) (e : SessionEntry R) : SessionStoreState R :=
  mkSessions (<[a := e]> (s_cache st)) (s_dirty st) (s_deleted st).

Definition sender_put (st : SenderKeyStoreState K) (a : bytes) (r : K) : SenderKeyStoreState K :=
  mkSenderKeys (<[a := Some r]> (k_cache st)) ({[a]} ∪ k_dirty st).
Definition sender_delete (st : SenderKeyStoreState K) (a : bytes) : SenderKeyStoreState K :=
  mkSenderKeys (<[a := None]> (k_cache st)) ({[a]} ∪ k_dirty st).
Definition sender_evict_if_needed (st : SenderKeyStoreState K) (max_entries : Z) : SenderKeyStoreState K :=
  mkSenderKeys (evict_clean_entries (k_cache st) (k_dirty st) None max_entries) (k_dirty st).

Definition byte_put (st : ByteStoreState) (a data : bytes) : ByteStoreState :=
  mkByteStore (<[a := Some data]> (i_cache st)) ({[a]} ∪ i_dirty st) (i_deleted st ∖ {[a]}).
Definition byte_put_dedup (st : ByteStoreState) (a data : bytes) : ByteStoreState :=
  match i_cache st !! a with
  | Some (Some existing) => if bytes_eqb existing data then st else byte_put st a data
  | _ => byte_put st a data
  end.
Definition byte_delete (st : ByteStoreState) (a : bytes) : ByteStoreState :=
  mkByteStore (<[a := None]> (i_cache st)) (i_dirty st ∖ {[a]}) ({[a]} ∪ i_deleted st).
Definition byte_evict_if_needed (st : ByteStoreState) (max_entries : Z) : ByteStoreState :=
  mkByteStore (evict_clean_entries (i_cache st) (i_dirty st) (Some (i_deleted st)) max_entries)
    (i_dirty st) (i_deleted st).

(** ** The cache with its backend *)

Record Env : Type := mkEnv {
  sessions : SessionStoreState R; identities : ByteStoreState; sender_keys : SenderKeyStoreState K;
  removed_prekeys : gmap Z bytes; max_entries : Z;
  backend : Backend; history : list Backend; faults : list Fault
}.
(** [None] is an error that the method returns. *)
Definition Task (A : Type) : Type := Env -> Env * option A.
#[global] Instance Task_ret : MRet Task := fun A a e => (e, Some a).
#[global] Instance Task_bind : MBind Task := fun A B f m e =>
  match m e with (e, Some a) => f a e | (e, None) => (e, None) end.
Definition get_env {A} (f : Env -> A) : Task A := fun e => (e, Some (f e)).
Definition fail_task {A} : Task A := fun e => (e, None).
Definition of_option {A} (o : option A) : Task A := fun e => (e, o).

Definition set_sessions (f : SessionStoreState R -> SessionStoreState R) : Task unit := fun e =>
  (mkEnv (f (sessions e)) (identities e) (sender_keys e) (removed_prekeys e) (max_entries e)
     (backend e) (history e) (faults e), Some tt).
Definition set_identities (f : ByteStoreState -> ByteStoreState) : Task unit := fun e =>
  (mkEnv (sessions e) (f (identities e)) (sender_keys e) (removed_prekeys e) (max_entries e)
     (backend e) (history e) (faults e), Some tt).
Definition set_sender_keys (f : SenderKeyStoreState K -> SenderKeyStoreState K) : Task unit := fun e =>
  (mkEnv (sessions e) (identities e) (f (sender_keys e)) (removed_prekeys e) (max_entries e)
     (backend e) (history e) (faults e), Some tt).
Definition set_removed (f : gmap Z bytes -> gmap Z bytes) : Task unit := fun e =>
  (mkEnv (sessions e) (identities e) (sender_keys e) (f (removed_prekeys e)) (max_entries e)
     (backend e) (history e) (faults e), Some tt).

(** One operation of the backend. *)
Definition with_backend (e : Env) (b : Backend) (h : list Backend) (fs : list Fault) : Env :=
  mkEnv (sessions e) (identities e) (sender_keys e) (removed_prekeys e) (max_entries e) b h fs.
Definition backend_op {A} (f : Backend -> Backend * A) : Task A := fun e =>
  let '(fault, rest) := match faults e with x :: l => (x, l) | [] => (Fine, []) end in
  let '(b, a) := f (backend e) in
  match fault with
  | Fine => (with_backend e b (history e ++ [b]) rest, Some a)
  | Refused => (with_backend e (backend e) (history e) rest, None)
  | Unconfirmed => (with_backend e b (history e ++ [b]) rest, None)
  end.

Definition put_session_row (a v : bytes) (b : Backend) : Backend :=
  mkBackend (<[a := v]> (b_sessions b)) (b_identities b) (b_sender_keys b) (b_prekeys b).
Definition delete_session_row (a : bytes) (b : Backend) : Backend :=
  mkBackend (delete a (b_sessions b)) (b_identities b) (b_sender_keys b) (b_prekeys b).
Definition put_identity_row (a v : bytes) (b : Backend) : Backend :=
  mkBackend (b_sessions b) (<[a := v]> (b_identities b)) (b_sender_keys b) (b_prekeys b).
Definition delete_identity_row (a : bytes) (b : Backend) : Backend :=
  mkBackend (b_sessions b) (delete a (b_identities b)) (b_sender_keys b) (b_prekeys b).
Definition put_sender_key_row (a v : bytes) (b : Backend) : Backend :=
  mkBackend (b_sessions b) (b_identities b) (<[a := v]> (b_sender_keys b)) (b_prekeys b).
Definition delete_sender_key_row (a : bytes) (b : Backend) : Backend :=
  mkBackend (b_sessions b) (b_identities b) (delete a (b_sender_keys b)) (b_prekeys b).
Definition remove_prekey_row (id : Z) (b : Backend) : Backend :=
  mkBackend (b_sessions b) (b_identities b) (b_sender_keys b) (delete id (b_prekeys b)).

Definition write (f : Backend -> Backend) : Task unit := backend_op (fun b => (f b, tt)).
Definition read {A} (f : Backend -> A) : Task A := backend_op (fun b => (b, f b)).
(** The loop of the default batch methods, and of the deletions. *)
Fixpoint each {A} (f : A -> Task unit) (l : list A) : Task unit :=
  match l with [] => mret tt | a :: l => _ ← f a; each f l end.

(** *** Sessions *)

Definition evict_sessions : Task unit := fun e =>
  set_sessions (fun st => session_evict_if_needed st (max_entries e)) e.
(** The second half of [get_session], with what the backend has answered. *)
Definition get_session_populate (a : bytes) (found : option bytes) : Task (option R) :=
  present ← get_env (fun e => bool_decide (is_Some (s_cache (sessions e) !! a)));
  match found with
  | Some v =>
      record ← of_option (deserialize v);
      if present : bool then mret (Some record)
      else
        _ ← set_sessions (fun st => set_entry st a CheckedOut);
        _ ← evict_sessions;
        mret (Some record)
  | None =>
      if present : bool then mret None
      else
        _ ← set_sessions (fun st => set_entry st a Absent);
        _ ← evict_sessions;
        mret None
  end.
Definition get_session (a : bytes) : Task (option R) :=
  entry ← get_env (fun e => s_cache (sessions e) !! a);
  match entry with
  | Some (Present r) =>
      _ ← set_sessions (fun st => set_entry st a CheckedOut);
      mret (Some r)
  | Some _ => mret None
  | None =>
      found ← read (fun b => b_sessions b !! a);
      get_session_populate a found
  end.
Definition peek_session_populate (a : bytes) (found : option bytes) : Task (option R) :=
  present ← get_env (fun e => bool_decide (is_Some (s_cache (sessions e) !! a)));
  match found with
  | Some v =>
      record ← of_option (deserialize v);
      if present : bool then mret (Some record)
      else
        _ ← set_sessions (fun st => set_entry st a (Present record));
        _ ← evict_sessions;
        mret (Some record)
  | None =>
      if present : bool then mret None
      else
        _ ← set_sessions (fun st => set_entry st a Absent);
        _ ← evict_sessions;
        mret None
  end.
Definition peek_session (a : bytes) : Task (option R) :=
  entry ← get_env (fun e => s_cache (sessions e) !! a);
  match entry with
  | Some (Present r) => mret (Some r)
  | Some _ => mret None
  | None =>
      found ← read (fun b => b_sessions b !! a);
      peek_session_populate a found
  end.
Definition put_session (a : bytes) (r : R) : Task unit :=
  _ ← set_sessions (fun st => session_put st a r);
  evict_sessions.
Definition delete_session (a : bytes) : Task unit := set_sessions (fun st => session_delete st a).
Definition has_session (a : bytes) : Task bool :=
  entry ← get_env (fun e => s_cache (sessions e) !! a);
  match entry with
  | Some Absent => mret false
  | Some _ => mret true
  | None =>
      exists_ ← read (fun b => bool_decide (is_Some (b_sessions b !! a)));
      if exists_ : bool then mret true
      else
        present ← get_env (fun e => bool_decide (is_Some (s_cache (sessions e) !! a)));
        if present : bool then mret false
        else
          _ ← set_sessions (fun st => set_entry st a Absent);
          _ ← evict_sessions;
          mret false
  end.

(** *** Identities and sender keys *)

Definition evict_identities : Task unit := fun e =>
  set_identities (fun st => byte_evict_if_needed st (max_entries e)) e.
Definition evict_sender_keys : Task unit := fun e =>
  set_sender_keys (fun st => sender_evict_if_needed st (max_entries e)) e.

Definition get_identity_populate (a : bytes) (found : option bytes) : Task (option bytes) :=
  cached ← get_env (fun e => i_cache (identities e) !! a);
  match cached with
  | Some v => mret v
  | None =>
      _ ← set_identities (fun st => mkByteStore (<[a := found]> (i_cache st)) (i_dirty st) (i_deleted st));
      _ ← evict_identities;
      mret found
  end.
Definition get_identity (a : bytes) : Task (option bytes) :=
  cached ← get_env (fun e => i_cache (identities e) !! a);
  match cached with
  | Some v => mret v
  | None => found ← read (fun b => b_identities b !! a); get_identity_populate a found
  end.
Definition put_identity (a data : bytes) : Task unit :=
  _ ← set_identities (fun st => byte_put_dedup st a data); evict_identities.
Definition delete_identity (a : bytes) : Task unit := set_identities (fun st => byte_delete st a).

Definition get_sender_key (a : bytes) : Task (option K) :=
  cached ← get_env (fun e => k_cache (sender_keys e) !! a);
  match cached with
  | Some v => mret v
  | None =>
      found ← read (fun b => b_sender_keys b !! a);
      record ← match found with
               | Some v => r ← of_option (deserialize v); mret (Some r)
               | None => mret None
               end;
      _ ← set_sender_keys (fun st => mkSenderKeys (<[a := record]> (k_cache st)) (k_dirty st));
      _ ← evict_sender_keys;
      mret record
  end.
Definition put_sender_key (a : bytes) (r : K) : Task unit :=
  _ ← set_sender_keys (fun st => sender_put st a r); evict_sender_keys.
Definition delete_sender_key (a : bytes) : Task unit := set_sender_keys (fun st => sender_delete st a).

(** *** Pre-keys, flush, clear *)

Definition remove_prekey (id : Z) (session_address : bytes) : Task unit :=
  set_removed (fun m => <[id := session_address]> m).

(** Which consumed pre-keys can go, in the order of the table. *)
Fixpoint deletable (l : list (Z * bytes)) : Task (list Z) :=
  match l with
  | [] => mret []
  | (id, a) :: l =>
      entry ← get_env (fun e => s_cache (sessions e) !! a);
      durable ← match entry with
                | Some (Present _) => mret true
                | Some CheckedOut => mret false
                | Some Absent | None => read (fun b => bool_decide (is_Some (b_sessions b !! a)))
                end;
      ids ← deletable l;
      mret (if durable : bool then id :: ids else ids)
  end.
Definition session_batch (st : SessionStoreState R) (dirty : list bytes) : list (bytes * bytes) :=
  omap (fun a => match s_cache st !! a with
                 | Some (Present r) => Some (a, serialize r)
                 | _ => None
                 end) dirty.
Definition is_checked_out (o : option (SessionEntry R)) : bool :=
  match o with Some CheckedOut => true | _ => false end.
Definition flush_sessions : Task unit :=
  st ← get_env sessions;
  let dirty := iter (s_dirty st) in
  let deleted := iter (s_deleted st) in
  _ ← each (fun '(a, v) => write (put_session_row a v)) (session_batch st dirty);
  _ ← each (fun a => write (delete_session_row a)) deleted;
  let done := filter (fun a => is_checked_out (s_cache st !! a) = false) dirty in
  _ ← set_sessions (fun st => mkSessions (s_cache st) (s_dirty st ∖ list_to_set done)
                                (s_deleted st ∖ list_to_set deleted));
  _ ← evict_sessions;
  removed ← get_env removed_prekeys;
  ids ← deletable (iter_prekeys removed);
  _ ← each (fun id => write (remove_prekey_row id)) ids;
  set_removed (fun m => foldr delete m ids).

Definition identity_batch (st : ByteStoreState) (dirty : list bytes) : option (list (bytes * bytes)) :=
  foldr (fun a acc =>
    match i_cache st !! a with
    | Some (Some data) => if zlen data =? 32 then cons (a, data) <$> acc else None
    | _ => acc
    end) (Some []) dirty.
Definition flush_identities : Task unit :=
  st ← get_env identities;
  let dirty := iter (i_dirty st) in
  let deleted := iter (i_deleted st) in
  batch ← of_option (identity_batch st dirty);
  _ ← each (fun '(a, v) => write (put_identity_row a v)) batch;
  _ ← each (fun a => write (delete_identity_row a)) deleted;
  _ ← set_identities (fun st => mkByteStore (i_cache st) (i_dirty st ∖ list_to_set dirty)
                                  (i_deleted st ∖ list_to_set deleted));
  evict_identities.

(** Deletions happen while the batch is put together. *)
Fixpoint sender_key_batch (st : SenderKeyStoreState K) (dirty : list bytes) : Task (list (bytes * bytes)) :=
  match dirty with
  | [] => mret []
  | a :: l =>
      match k_cache st !! a with
      | Some (Some r) => rest ← sender_key_batch st l; mret ((a, serialize r) :: rest)
      | Some None => _ ← write (delete_sender_key_row a); sender_key_batch st l
      | None => sender_key_batch st l
      end
  end.
Definition flush_sender_keys : Task unit :=
  st ← get_env sender_keys;
  let dirty := iter (k_dirty st) in
  batch ← sender_key_batch st dirty;
  _ ← each (fun '(a, v) => write (put_sender_key_row a v)) batch;
  _ ← set_sender_keys (fun st => mkSenderKeys (k_cache st) (k_dirty st ∖ list_to_set dirty));
  evict_sender_keys.

Definition flush : Task unit := _ ← flush_sessions; _ ← flush_identities; flush_sender_keys.

Definition clear : Task unit :=
  _ ← set_sessions (fun _ => mkSessions ∅ ∅ ∅);
  _ ← set_identities (fun _ => mkByteStore ∅ ∅ ∅);
  _ ← set_sender_keys (fun _ => mkSenderKeys ∅ ∅);
  set_removed (fun _ => ∅).
End Cache.
