(* ===== verification/CacheCoherence.v ===== *)
(** * The cache is coherent

    Whatever is cached, evicted, flushed half-way or flushed, the cache and its backend
    together behave as a plain ledger: one map per kind of state, and the set of sessions
    that are checked out.  And a consumed pre-key leaves the backend only after the session
    it made has reached it, at every point where the process may die. *)

From stdpp Require Import prelude gmap.
From S2P Require Import Prelude SignalCache.

#[local] Open Scope Z_scope.

#[global] Instance Fault_eq_dec : EqDecision Fault.
Proof. solve_decision. Defined.

Section Coherence.
Context {R K : Type} {CR : Codec R} {CK : Codec K} {HO : HashOrder}.
Context {LR : CodecLaws R} {LK : CodecLaws K} {HL : HashOrderLaws}.

Abbreviation Env := (@Env R K).
Abbreviation Task := (@Task R K).

(** ** A program logic for tasks *)

(** A success leaves [Q], an error [E]. *)
Definition triple {A} (P : Env -> Prop) (m : Task A) (Q : A -> Env -> Prop) (E : Env -> Prop) : Prop :=
  forall e, P e -> match m e with (e', Some a) => Q a e' | (e', None) => E e' end.

Lemma triple_bind {A B} P (m : Task A) Q (f : A -> Task B) T E :
  triple P m Q E -> (forall a, triple (Q a) (f a) T E) -> triple P (m ≫= f) T E.
Proof.
  intros Hm Hf e He. unfold mbind, Task_bind. specialize (Hm e He). destruct (m e) as [e' [a|]]; [|done].
  by apply Hf.
Qed.
Lemma triple_ret {A} (P : Env -> Prop) (a : A) Q E : (forall e, P e -> Q a e) -> triple P (mret a) Q E.
Proof. intros H e He. by apply H. Qed.
Lemma triple_get {A} (P : Env -> Prop) (f : Env -> A) E :
  triple P (get_env f) (fun a e => P e /\ f e = a) E.
Proof. intros e He. done. Qed.
Lemma triple_option {A} (P E : Env -> Prop) (o : option A) :
  (o = None -> forall e, P e -> E e) -> triple P (of_option o) (fun a e => P e /\ o = Some a) E.
Proof. intros HE e He. cbn. destruct o; [done|]. by apply HE. Qed.
Lemma triple_pre {A} (P P' : Env -> Prop) (m : Task A) Q E :
  triple P m Q E -> (forall e, P' e -> P e) -> triple P' m Q E.
Proof. intros H HP e He. by apply H, HP. Qed.
Lemma triple_post {A} (P : Env -> Prop) (m : Task A) (Q Q' : A -> Env -> Prop) (E E' : Env -> Prop) :
  triple P m Q E -> (forall a e, Q a e -> Q' a e) -> (forall e, E e -> E' e) -> triple P m Q' E'.
Proof. intros H HQ HE e He. specialize (H e He). destruct (m e) as [e' []]; eauto. Qed.
Lemma triple_pure {A} (P : Env -> Prop) (F : Prop) (m : Task A) Q E :
  (F -> triple P m Q E) -> triple (fun e => P e /\ F) m Q E.
Proof. intros H e [He HF]. by apply H. Qed.
(** How many operations are still to fail. *)
Definition bad (fs : list Fault) : nat := length (filter (fun x => x <> Fine) fs).

Lemma triple_write (f : Backend -> Backend) (P Q E : Env -> Prop) :
  (forall e fs, P e -> (bad fs <= bad (faults e))%nat ->
     Q (with_backend e (f (backend e)) (history e ++ [f (backend e)]) fs)) ->
  (forall e b h fs, P e -> (bad fs < bad (faults e))%nat ->
     (b = backend e /\ h = history e) \/ (b = f (backend e) /\ h = history e ++ [b]) ->
     E (with_backend e b h fs)) ->
  triple P (write f) (fun _ => Q) E.
Proof.
  intros HQ HE e He. unfold write, backend_op. pose proof (HQ e) as HQe. pose proof (HE e) as HEe.
  destruct (faults e) as [|[] fs]; cbn in *; eauto.
Qed.
Lemma triple_read {A} (f : Backend -> A) (P E : Env -> Prop) :
  (forall e fs, P e -> (bad fs <= bad (faults e))%nat ->
     P (with_backend e (backend e) (history e ++ [backend e]) fs)) ->
  (forall e h fs, P e -> (bad fs < bad (faults e))%nat -> h = history e \/ h = history e ++ [backend e] ->
     E (with_backend e (backend e) h fs)) ->
  triple P (read f) (fun a e => P e /\ f (backend e) = a) E.
Proof.
  intros HQ HE e He. unfold read, backend_op. pose proof (HQ e) as HQe. pose proof (HE e) as HEe.
  destruct (faults e) as [|[] fs]; cbn in *; eauto.
Qed.
(** A loop, with what is known after the first of its elements. *)
Lemma triple_each {A} (g : A -> Task unit) l (J : list A -> Env -> Prop) E :
  (forall l1 x l2, l = l1 ++ x :: l2 -> triple (J l1) (g x) (fun _ => J (l1 ++ [x])) E) ->
  triple (J []) (each g l) (fun _ => J l) E.
Proof.
  intros H. enough (Hgen : forall l1 l2, l = l1 ++ l2 -> triple (J l1) (each g l2) (fun _ => J l) E)
    by by apply Hgen.
  intros l1 l2. revert l1. induction l2 as [|x l2 IH]; intros l1 Hl; cbn [each].
  - apply triple_ret. rewrite app_nil_r in Hl. by subst.
  - eapply triple_bind; [by eapply H|]. intros []. apply IH. by rewrite <- app_assoc.
Qed.

(** ** Sessions *)

Definition durable (b : Backend) (a : bytes) : option R := b_sessions b !! a ≫= deserialize.

Lemma durable_row b (a v : bytes) : b_sessions b !! a = Some v -> durable b a = deserialize v.
Proof. unfold durable. by intros ->. Qed.

(** What the ledger [A] with the sessions [O] checked out says of one address. *)
Definition entry_ok (st : SessionStoreState R) (b : Backend) (A : gmap bytes R) (O : gset bytes)
    (a : bytes) : Prop :=
  match s_cache st !! a with
  | Some (Present r) =>
      a ∉ O /\ A !! a = Some r /\ a ∉ s_deleted st /\ storable r
      /\ (a ∉ s_dirty st -> durable b a = Some r)
  | Some Absent =>
      a ∉ O /\ A !! a = None /\ a ∉ s_dirty st /\ (a ∉ s_deleted st -> b_sessions b !! a = None)
  | Some CheckedOut =>
      a ∈ O /\ is_Some (A !! a) /\ a ∉ s_deleted st /\ (a ∉ s_dirty st -> durable b a = A !! a)
  | None => a ∉ O /\ A !! a = durable b a /\ a ∉ s_dirty st /\ a ∉ s_deleted st
  end.
(** Every row can be read. *)
Definition readable (b : Backend) : Prop :=
  forall a v, b_sessions b !! a = Some v -> exists r : R, deserialize v = Some r /\ storable r.
Definition sessions_ok (st : SessionStoreState R) (b : Backend) (A : gmap bytes R) (O : gset bytes) : Prop :=
  readable b /\ forall a, entry_ok st b A O a.

(** *** Eviction takes clean entries only *)

Lemma remove_all_lookup {V} (keys : list bytes) (m : gmap bytes V) (a : bytes) :
  remove_all keys m !! a = if decide (a ∈ keys) then None else m !! a.
Proof.
  induction keys as [|k keys IH]; cbn [remove_all foldr]; [by rewrite decide_False by apply not_elem_of_nil|].
  fold (remove_all keys m). destruct (decide (k = a)) as [->|Hne].
  - rewrite lookup_delete_eq, decide_True by left. done.
  - rewrite lookup_delete_ne, IH by done. destruct (decide (a ∈ keys)).
    + by rewrite decide_True by (by right).
    + rewrite decide_False; [done|]. rewrite elem_of_cons. naive_solver.
Qed.
Lemma keys_where_elem {V} (p : V -> bool) (keys : list bytes) (m : gmap bytes V) (a : bytes) :
  a ∈ keys_where p keys m <-> a ∈ keys /\ exists v, m !! a = Some v /\ p v = true.
Proof.
  unfold keys_where. rewrite list_elem_of_filter. destruct (m !! a) as [v|]; cbn; naive_solver.
Qed.
Lemma elem_of_iter a s : a ∈ iter s <-> a ∈ s.
Proof. rewrite iter_perm. apply elem_of_elements. Qed.
Lemma iter_nodup s : NoDup (iter s).
Proof. rewrite iter_perm. apply NoDup_elements. Qed.

Lemma session_evicted (st : SessionStoreState R) n (a : bytes) :
  s_cache (session_evict_if_needed st n) !! a = s_cache st !! a
  \/ (s_cache (session_evict_if_needed st n) !! a = None /\ a ∉ s_dirty st /\ a ∉ s_deleted st
      /\ (s_cache st !! a = Some Absent \/ exists r, s_cache st !! a = Some (Present r))).
Proof.
  unfold session_evict_if_needed. case_match; [by left|]. cbn [s_cache].
  rewrite remove_all_lookup. case_decide as Hin; [|by left]. right. split; [done|].
  eapply elem_of_sublist in Hin; [|apply sublist_take].
  apply elem_of_app in Hin as [Hin|Hin];
    apply keys_where_elem in Hin as [Hc (v & Hv & Hp)]; apply list_elem_of_filter in Hc as [[Hd Hdel] _];
    (split; [done|]); (split; [done|]); destruct v; try done; eauto.
Qed.

Lemma session_evict_sets (st : SessionStoreState R) n :
  s_dirty (session_evict_if_needed st n) = s_dirty st
  /\ s_deleted (session_evict_if_needed st n) = s_deleted st.
Proof. unfold session_evict_if_needed. by case_match. Qed.
Lemma evict_ok (st : SessionStoreState R) n b A O :
  sessions_ok st b A O -> sessions_ok (session_evict_if_needed st n) b A O.
Proof.
  intros [Hr Ha]. split; [done|]. intros a. specialize (Ha a). unfold entry_ok in *.
  destruct (session_evict_sets st n) as [-> ->].
  destruct (session_evicted st n a) as [->|(-> & Hd & Hdel & Hc)]; [done|].
  destruct Hc as [Hc|[r Hc]]; rewrite Hc in Ha.
  - destruct Ha as (? & -> & _ & Hb). split_and!; [done| |done|done]. unfold durable. by rewrite (Hb Hdel).
  - destruct Ha as (? & -> & _ & _ & Hb). split_and!; [done|by rewrite Hb|done|done].
Qed.

(** *** The other changes of a state *)

Lemma put_ok (st : SessionStoreState R) b A O (a : bytes) r :
  storable r -> sessions_ok st b A O -> sessions_ok (session_put st a r) b (<[a := r]> A) (O ∖ {[a]}).
Proof.
  intros Hs [Hr Ha]. split; [done|]. intros a'. unfold entry_ok, session_put. cbn [s_cache s_dirty s_deleted].
  destruct (decide (a = a')) as [<-|Hne].
  - rewrite !lookup_insert_eq. split_and!; [set_solver|done|set_solver|done|set_solver].
  - rewrite !lookup_insert_ne by done. specialize (Ha a'). unfold entry_ok in Ha.
    destruct (s_cache st !! a') as [[]|]; set_solver.
Qed.
Lemma delete_ok (st : SessionStoreState R) b A O (a : bytes) :
  sessions_ok st b A O -> sessions_ok (session_delete st a) b (delete a A) (O ∖ {[a]}).
Proof.
  intros [Hr Ha]. split; [done|]. intros a'. unfold entry_ok, session_delete. cbn [s_cache s_dirty s_deleted].
  destruct (decide (a = a')) as [<-|Hne].
  - rewrite lookup_insert_eq, lookup_delete_eq. split_and!; [set_solver|done|set_solver|set_solver].
  - rewrite lookup_insert_ne, lookup_delete_ne by done. specialize (Ha a'). unfold entry_ok in Ha.
    destruct (s_cache st !! a') as [[]|]; set_solver.
Qed.
(** Changing one entry and, perhaps, whether it is checked out. *)
Lemma set_entry_ok (st : SessionStoreState R) b A O O' (a : bytes) x :
  sessions_ok st b A O -> (forall a', a' <> a -> a' ∈ O' <-> a' ∈ O) ->
  entry_ok (set_entry st a x) b A O' a -> sessions_ok (set_entry st a x) b A O'.
Proof.
  intros [Hr Ha] HO' Hx. split; [done|]. intros a'. destruct (decide (a' = a)) as [->|Hne]; [done|].
  specialize (Ha a'). specialize (HO' a' Hne). unfold entry_ok, set_entry in *. cbn [s_cache s_dirty s_deleted].
  rewrite lookup_insert_ne by done. destruct (s_cache st !! a') as [[]|]; naive_solver.
Qed.
Lemma check_out_present (st : SessionStoreState R) b A O (a : bytes) r :
  sessions_ok st b A O -> s_cache st !! a = Some (Present r) ->
  A !! a = Some r /\ a ∉ O /\ sessions_ok (set_entry st a CheckedOut) b A ({[a]} ∪ O).
Proof.
  intros Hok Hc. pose proof (proj2 Hok a) as Ha. unfold entry_ok in Ha. rewrite Hc in Ha.
  destruct Ha as (Hout & HA & Hdel & _ & Hb). split; [done|]. split; [done|].
  eapply set_entry_ok; [done|set_solver|]. unfold entry_ok, set_entry. cbn [s_cache s_dirty s_deleted].
  rewrite lookup_insert_eq, HA. split_and!; [set_solver|by eexists|done|done].
Qed.
(** What a miss finds, and what the cache may record about it. *)
Lemma miss_ok (st : SessionStoreState R) b A O (a : bytes) :
  sessions_ok st b A O -> s_cache st !! a = None ->
  a ∉ O /\ A !! a = durable b a
  /\ match b_sessions b !! a with
     | Some v => exists r : R, deserialize v = Some r /\ A !! a = Some r
         /\ sessions_ok (set_entry st a CheckedOut) b A ({[a]} ∪ O)
         /\ sessions_ok (set_entry st a (Present r)) b A O
     | None => A !! a = None /\ sessions_ok (set_entry st a Absent) b A O
     end.
Proof.
  intros Hok Hc. pose proof (proj2 Hok a) as Ha. unfold entry_ok in Ha. rewrite Hc in Ha.
  destruct Ha as (Hout & HA & Hd & Hdel). split; [done|]. split; [done|].
  destruct (b_sessions b !! a) as [v|] eqn:Hv.
  - destruct (proj1 Hok a v Hv) as (r & Hr & Hs). rewrite (durable_row b a v Hv), Hr in HA. exists r.
    split; [done|]. split; [done|].
    split; (eapply set_entry_ok; [done|set_solver|]); unfold entry_ok, set_entry;
      cbn [s_cache s_dirty s_deleted]; rewrite lookup_insert_eq, HA, (durable_row b a v Hv), Hr;
      split_and!; (set_solver || done || by eexists).
  - unfold durable in HA. rewrite Hv in HA. split; [done|].
    eapply set_entry_ok; [done|set_solver|]. unfold entry_ok, set_entry.
    cbn [s_cache s_dirty s_deleted]. by rewrite lookup_insert_eq.
Qed.

(** *** Writing rows *)

(** The row of a cached session can be written at any time. *)
Lemma put_row_ok (st : SessionStoreState R) b A O (a : bytes) r :
  sessions_ok st b A O -> s_cache st !! a = Some (Present r) ->
  sessions_ok st (put_session_row a (serialize r) b) A O
  /\ durable (put_session_row a (serialize r) b) a = Some r.
Proof.
  intros [Hr Ha] Hc. pose proof (Ha a) as Haa. unfold entry_ok in Haa. rewrite Hc in Haa.
  destruct Haa as (Hout & HA & Hdel & Hs & _).
  assert (Hd : durable (put_session_row a (serialize r) b) a = Some r).
  { erewrite durable_row; [by apply codec_inverse|]. apply lookup_insert_eq. }
  split; [|done]. split.
  - intros a' v. cbn [b_sessions put_session_row]. destruct (decide (a = a')) as [<-|Hne].
    + rewrite lookup_insert_eq. intros [= <-]. exists r. split; [by apply codec_inverse|done].
    + rewrite lookup_insert_ne by done. apply Hr.
  - intros a'. specialize (Ha a'). unfold entry_ok in *. destruct (decide (a = a')) as [<-|Hne].
    + rewrite Hc in *. done.
    + unfold durable in *. cbn [b_sessions put_session_row]. by rewrite lookup_insert_ne.
Qed.
(** And the row of a deleted one can go. *)
Lemma delete_row_ok (st : SessionStoreState R) b A O (a : bytes) :
  sessions_ok st b A O -> a ∈ s_deleted st -> sessions_ok st (delete_session_row a b) A O.
Proof.
  intros [Hr Ha] Hdel. split.
  - intros a' v. cbn [b_sessions delete_session_row]. rewrite lookup_delete_Some. intros [_ Hv]. eauto.
  - intros a'. specialize (Ha a'). unfold entry_ok in *. destruct (decide (a = a')) as [<-|Hne].
    + destruct (s_cache st !! a) as [[]|]; try naive_solver.
    + unfold durable in *. cbn [b_sessions delete_session_row]. by rewrite lookup_delete_ne.
Qed.
(** Once the rows are written, the marks can go. *)
Lemma unmark_ok (st : SessionStoreState R) b A O dirty :
  sessions_ok st b A O ->
  (forall a r, s_cache st !! a = Some (Present r) -> durable b a = Some r) ->
  (forall a, a ∈ s_deleted st -> b_sessions b !! a = None) ->
  (forall a, a ∉ dirty -> a ∈ s_dirty st -> s_cache st !! a = Some CheckedOut) ->
  (forall a, a ∈ dirty -> s_cache st !! a <> Some CheckedOut) ->
  sessions_ok (mkSessions (s_cache st) (s_dirty st ∖ dirty) ∅) b A O.
Proof.
  intros [Hr Ha] Hput Hdel Hout Hin. split; [done|]. intros a. specialize (Ha a). unfold entry_ok in *.
  cbn [s_cache s_dirty s_deleted]. destruct (s_cache st !! a) as [[r| |]|] eqn:Hc.
  - set_solver.
  - destruct Ha as (? & ? & ? & Hb). split_and!; [done|done|set_solver|]. intros _.
    destruct (decide (a ∈ s_deleted st)); auto.
  - destruct Ha as (? & ? & ? & Hb). split_and!; [done|done|set_solver|]. intros Hd. apply Hb.
    intros Hd'. apply Hd. set_solver.
  - set_solver.
Qed.
End Coherence.
