(* ===== verification/CacheSlots.v ===== *)
(** * Identities and sender keys in the cache

    The two stores whose entries are a value or a known absence: what they hold and what the
    backend holds agree with a plain map [A], entry by entry, and every operation and every
    write of a flush keeps it so. *)

From stdpp Require Import prelude gmap.
From S2P Require Import Prelude SignalCache CacheCoherence.

#[local] Open Scope Z_scope.

(** A cached entry with a change pending or not, the map's value and the backend's. *)
Definition slot_ok {V} (c : option (option V)) (pending : Prop) (A b : option V) : Prop :=
  match c with
  | Some v => A = v /\ (~ pending -> b = v)
  | None => A = b /\ ~ pending
  end.

Section Slots.
Context {K : Type} {CK : Codec K} {LK : CodecLaws K} {HO : HashOrder} {HL : HashOrderLaws}.

Lemma slot_evicted {V} (cache : gmap bytes (option V)) dirty deleted n (a : bytes) :
  evict_clean_entries cache dirty deleted n !! a = cache !! a
  \/ (evict_clean_entries cache dirty deleted n !! a = None /\ a ∉ dirty /\ a ∉ default ∅ deleted).
Proof.
  unfold evict_clean_entries. case_match; [by left|]. rewrite remove_all_lookup.
  case_decide as Hin; [|by left]. right. split; [done|]. eapply elem_of_sublist in Hin; [|apply sublist_take].
  apply elem_of_app in Hin as [Hin|Hin]; apply keys_where_elem in Hin as [Hc _];
    by apply list_elem_of_filter in Hc as [? _].
Qed.
Lemma slot_evict {V} (c c' : option (option V)) (P : Prop) A b :
  c' = c \/ (c' = None /\ ~ P) -> slot_ok c P A b -> slot_ok c' P A b.
Proof. intros [->|[-> HP]]; [done|]. destruct c; cbn; naive_solver. Qed.

(** ** Identities *)

Definition identities_ok (st : ByteStoreState) (rows A : gmap bytes bytes) : Prop :=
  forall a : bytes, slot_ok (i_cache st !! a) (a ∈ i_dirty st \/ a ∈ i_deleted st) (A !! a) (rows !! a)
    /\ (a ∈ i_dirty st -> exists d, i_cache st !! a = Some (Some d))
    /\ (a ∈ i_deleted st -> i_cache st !! a = Some None).

Lemma identity_evict_ok st rows A n :
  identities_ok st rows A -> identities_ok (byte_evict_if_needed st n) rows A.
Proof.
  intros H a. destruct (H a) as (Hs & Hd & Hx). cbn [i_cache i_dirty i_deleted byte_evict_if_needed].
  destruct (slot_evicted (i_cache st) (i_dirty st) (Some (i_deleted st)) n a) as [->|(-> & Hnd & Hnx)]; [done|].
  cbn in Hnx. split; [|naive_solver]. eapply slot_evict; [|exact Hs]. right. naive_solver.
Qed.
Lemma identity_put_ok st rows A (a d : bytes) :
  identities_ok st rows A -> identities_ok (byte_put_dedup st a d) rows (<[a := d]> A).
Proof.
  intros H. assert (Hput : identities_ok (byte_put st a d) rows (<[a := d]> A)).
  { intros a'. destruct (H a') as (Hs & Hd & Hx). cbn [i_cache i_dirty i_deleted byte_put].
    destruct (decide (a = a')) as [<-|Hne].
    - rewrite !lookup_insert_eq. split_and!; [split; [done|set_solver]|eauto|set_solver].
    - rewrite !lookup_insert_ne by done. unfold slot_ok in *. destruct (i_cache st !! a'); set_solver. }
  unfold byte_put_dedup. destruct (i_cache st !! a) as [[e|]|] eqn:Hc; [|done|done].
  destruct (bytes_eqb e d) eqn:Heq; [|done]. apply bytes_eqb_eq in Heq as ->.
  rewrite insert_id; [done|]. destruct (H a) as [Hs _]. rewrite Hc in Hs. apply Hs.
Qed.
Lemma identity_delete_ok st rows A (a : bytes) :
  identities_ok st rows A -> identities_ok (byte_delete st a) rows (delete a A).
Proof.
  intros H a'. destruct (H a') as (Hs & Hd & Hx). cbn [i_cache i_dirty i_deleted byte_delete].
  destruct (decide (a = a')) as [<-|Hne].
  - rewrite lookup_insert_eq, lookup_delete_eq. split_and!; [split; [done|set_solver]|set_solver|done].
  - rewrite lookup_insert_ne, lookup_delete_ne by done. unfold slot_ok in *. destruct (i_cache st !! a'); set_solver.
Qed.
Lemma identity_miss_ok st rows A (a : bytes) :
  identities_ok st rows A -> i_cache st !! a = None ->
  A !! a = rows !! a
  /\ identities_ok (mkByteStore (<[a := rows !! a]> (i_cache st)) (i_dirty st) (i_deleted st)) rows A.
Proof.
  intros H Hc. destruct (H a) as (Hs & Hd & Hx). rewrite Hc in *. destruct Hs as [HA Hp]. split; [done|].
  intros a'. cbn [i_cache i_dirty i_deleted]. destruct (decide (a = a')) as [<-|Hne].
  - rewrite lookup_insert_eq. split_and!; [done|naive_solver|naive_solver].
  - rewrite lookup_insert_ne by done. apply H.
Qed.
Lemma identity_put_row_ok st rows A (a d : bytes) :
  identities_ok st rows A -> i_cache st !! a = Some (Some d) -> identities_ok st (<[a := d]> rows) A.
Proof.
  intros H Hc a'. destruct (H a') as (Hs & Hd & Hx). destruct (decide (a = a')) as [<-|Hne].
  - rewrite Hc in *. rewrite lookup_insert_eq. split_and!; [|done|done]. split; [apply Hs|done].
  - by rewrite lookup_insert_ne.
Qed.
Lemma identity_delete_row_ok st rows A (a : bytes) :
  identities_ok st rows A -> a ∈ i_deleted st -> identities_ok st (delete a rows) A.
Proof.
  intros H Hc a'. destruct (H a') as (Hs & Hd & Hx). destruct (decide (a = a')) as [<-|Hne].
  - rewrite lookup_delete_eq. split_and!; [|done|done]. rewrite (Hx Hc) in *. split; [apply Hs|done].
  - by rewrite lookup_delete_ne.
Qed.
Lemma identity_unmark_ok st rows A :
  identities_ok st rows A ->
  (forall (a d : bytes), a ∈ i_dirty st -> i_cache st !! a = Some (Some d) -> rows !! a = Some d) ->
  (forall a : bytes, a ∈ i_deleted st -> rows !! a = None) ->
  identities_ok (mkByteStore (i_cache st) ∅ ∅) rows A /\ rows = A.
Proof.
  intros H Hput Hdel.
  assert (Hrow : forall a : bytes, A !! a = rows !! a /\ forall v, i_cache st !! a = Some v -> rows !! a = v).
  { intros a. destruct (H a) as (Hs & Hd & Hx). unfold slot_ok in Hs.
    destruct (decide (a ∈ i_dirty st)) as [Hin|Hni].
    - destruct (Hd Hin) as [d Hc]. rewrite Hc in *. rewrite (Hput a d Hin Hc). naive_solver.
    - destruct (decide (a ∈ i_deleted st)) as [Hin|Hni'].
      + rewrite (Hx Hin) in *. rewrite (Hdel a Hin). naive_solver.
      + destruct (i_cache st !! a); naive_solver. }
  split.
  - intros a. destruct (Hrow a) as [HA Hv]. cbn [i_cache i_dirty i_deleted]. unfold slot_ok.
    split; [|set_solver]. destruct (i_cache st !! a) as [v|]; [|set_solver].
    rewrite HA, (Hv v eq_refl). done.
  - apply map_eq. intros a. symmetry. apply Hrow.
Qed.

(** ** Sender keys *)

Definition durable_key (rows : gmap bytes bytes) (a : bytes) : option K := rows !! a ≫= deserialize.
Definition sender_keys_ok (st : SenderKeyStoreState K) (rows : gmap bytes bytes) (A : gmap bytes K) : Prop :=
  (forall (a v : bytes), rows !! a = Some v -> exists r : K, deserialize v = Some r /\ storable r)
  /\ forall a : bytes, slot_ok (k_cache st !! a) (a ∈ k_dirty st) (A !! a) (durable_key rows a)
    /\ (forall r, k_cache st !! a = Some (Some r) -> storable r).

Lemma sender_evict_ok st rows A n :
  sender_keys_ok st rows A -> sender_keys_ok (sender_evict_if_needed st n) rows A.
Proof.
  intros [Hr H]. split; [done|]. intros a. destruct (H a) as (Hs & Hst).
  cbn [k_cache k_dirty sender_evict_if_needed].
  destruct (slot_evicted (k_cache st) (k_dirty st) None n a) as [->|(-> & Hnd & _)]; [done|].
  split; [|done]. eapply slot_evict; [|exact Hs]. by right.
Qed.
(** A change of one entry, which marks it. *)
Lemma sender_change_ok (st : SenderKeyStoreState K) rows A (a : bytes) (o : option K) :
  (forall r, o = Some r -> storable r) -> sender_keys_ok st rows A ->
  sender_keys_ok (mkSenderKeys (<[a := o]> (k_cache st)) ({[a]} ∪ k_dirty st)) rows
    (partial_alter (fun _ => o) a A).
Proof.
  intros Ho [Hr H]. split; [done|]. intros a'. destruct (H a') as (Hs & Hst). cbn [k_cache k_dirty].
  destruct (decide (a = a')) as [<-|Hne].
  - rewrite lookup_insert_eq, lookup_partial_alter_eq. split; [split; [done|set_solver]|naive_solver].
  - rewrite lookup_insert_ne, lookup_partial_alter_ne by done. split; [|done].
    unfold slot_ok in *. destruct (k_cache st !! a'); set_solver.
Qed.
Lemma sender_miss_ok (st : SenderKeyStoreState K) rows A (a : bytes) :
  sender_keys_ok st rows A -> k_cache st !! a = None ->
  A !! a = durable_key rows a
  /\ sender_keys_ok (mkSenderKeys (<[a := durable_key rows a]> (k_cache st)) (k_dirty st)) rows A.
Proof.
  intros [Hr H] Hc. destruct (H a) as (Hs & Hst). rewrite Hc in *. destruct Hs as [HA Hp]. split; [done|].
  split; [done|]. intros a'. cbn [k_cache k_dirty]. destruct (decide (a = a')) as [<-|Hne].
  - rewrite lookup_insert_eq. split; [done|]. intros r [= Hd]. unfold durable_key in Hd.
    destruct (rows !! a) as [v|] eqn:Hv; [|done]. destruct (Hr a v Hv) as (r' & Hr' & Hs').
    cbn in Hd. rewrite Hr' in Hd. by simplify_eq.
  - rewrite lookup_insert_ne by done. apply H.
Qed.
Lemma sender_put_row_ok (st : SenderKeyStoreState K) rows A (a : bytes) (r : K) :
  sender_keys_ok st rows A -> k_cache st !! a = Some (Some r) ->
  sender_keys_ok st (<[a := serialize r]> rows) A /\ durable_key (<[a := serialize r]> rows) a = Some r.
Proof.
  intros [Hr H] Hc. assert (Hs : storable r) by by apply (H a).
  assert (Hd : durable_key (<[a := serialize r]> rows) a = Some r).
  { unfold durable_key. rewrite lookup_insert_eq. by apply codec_inverse. }
  split; [|done]. split.
  - intros a' v. rewrite lookup_insert_Some. intros [[<- <-]|[_ Hv]]; [|eauto].
    exists r. split; [by apply codec_inverse|done].
  - intros a'. destruct (H a') as (Hs' & Hst). split; [|done]. destruct (decide (a = a')) as [<-|Hne].
    + rewrite Hc in *. split; [apply Hs'|done].
    + unfold durable_key in *. by rewrite lookup_insert_ne.
Qed.
Lemma sender_delete_row_ok (st : SenderKeyStoreState K) rows A (a : bytes) :
  sender_keys_ok st rows A -> k_cache st !! a = Some None -> sender_keys_ok st (delete a rows) A.
Proof.
  intros [Hr H] Hc. split.
  - intros a' v. rewrite lookup_delete_Some. intros [_ Hv]. eauto.
  - intros a'. destruct (H a') as (Hs' & Hst). split; [|done]. unfold durable_key in *.
    destruct (decide (a = a')) as [<-|Hne].
    + rewrite Hc in *. rewrite lookup_delete_eq. split; [apply Hs'|done].
    + by rewrite lookup_delete_ne.
Qed.
Lemma sender_unmark_ok (st : SenderKeyStoreState K) rows A :
  sender_keys_ok st rows A ->
  (forall (a : bytes) v, a ∈ k_dirty st -> k_cache st !! a = Some v -> durable_key rows a = v) ->
  sender_keys_ok (mkSenderKeys (k_cache st) ∅) rows A /\ forall a, A !! a = durable_key rows a.
Proof.
  intros [Hr H] Hput.
  assert (Hrow : forall a v, k_cache st !! a = Some v -> durable_key rows a = v).
  { intros a v Hc. destruct (decide (a ∈ k_dirty st)) as [Hin|Hni]; [by eapply Hput|].
    destruct (H a) as [Hs _]. rewrite Hc in Hs. by apply Hs. }
  assert (HA : forall a, A !! a = durable_key rows a).
  { intros a. destruct (H a) as [Hs _]. destruct (k_cache st !! a) as [v|] eqn:Hc; cbn in Hs; [|by apply Hs].
    by rewrite (Hrow a v Hc), (proj1 Hs). }
  split; [|done]. split; [done|]. intros a. destruct (H a) as [Hs Hst]. split; [|done].
  cbn [k_cache k_dirty]. unfold slot_ok in *. destruct (k_cache st !! a) as [v|] eqn:Hc; [|set_solver].
  split; [apply Hs|]. intros _. by apply Hrow.
Qed.
End Slots.
