(* ===== verification/CacheLedger.v ===== *)
(** * The cache refines a ledger

    The reference is a [Ledger]: a map of sessions and the set of those that are checked out,
    a map of identities, a map of sender keys.  Whatever sequence of operations is performed,
    and however the backend fails, the cache answers as the ledger does; an operation that
    fails leaves the ledger alone; a flush that succeeds makes the backend the ledger, but
    for the sessions that are checked out; and a one-time pre-key leaves the backend only
    when the session that consumed it is there. *)

From stdpp Require Import prelude gmap.
From S2P Require Import Prelude SignalCache CacheCoherence CacheSlots.

#[local] Open Scope Z_scope.

(** ** The reference *)

Record Ledger (R K : Type) : Type := mkLedger {
  l_sessions : gmap bytes R; l_out : gset bytes;
  l_identities : gmap bytes bytes; l_sender_keys : gmap bytes K
}.
Arguments mkLedger {R K} _ _ _ _.
Arguments l_sessions {R K} _.
Arguments l_out {R K} _.
Arguments l_identities {R K} _.
Arguments l_sender_keys {R K} _.

Inductive Op (R K : Type) : Type :=
  | GetSession (a : bytes) | PeekSession (a : bytes) | HasSession (a : bytes)
  | PutSession (a : bytes) (r : R) | DeleteSession (a : bytes)
  | GetIdentity (a : bytes) | PutIdentity (a data : bytes) | DeleteIdentity (a : bytes)
  | GetSenderKey (a : bytes) | PutSenderKey (a : bytes) (r : K) | DeleteSenderKey (a : bytes)
  | RemovePrekey (id : Z) (a : bytes) | Flush | Clear.
Arguments GetSession {R K} a.
Arguments PeekSession {R K} a.
Arguments HasSession {R K} a.
Arguments PutSession {R K} a r.
Arguments DeleteSession {R K} a.
Arguments GetIdentity {R K} a.
Arguments PutIdentity {R K} a data.
Arguments DeleteIdentity {R K} a.
Arguments GetSenderKey {R K} a.
Arguments PutSenderKey {R K} a r.
Arguments DeleteSenderKey {R K} a.
Arguments RemovePrekey {R K} id a.
Arguments Flush {R K}.
Arguments Clear {R K}.

Inductive Answer (R K : Type) : Type :=
  | Session (o : option R) | Exists (b : bool) | Identity (o : option bytes)
  | SenderKey (o : option K) | Done.
Arguments Session {R K} o.
Arguments Exists {R K} b.
Arguments Identity {R K} o.
Arguments SenderKey {R K} o.
Arguments Done {R K}.

Section Reference.
Context {R K : Type}.

Definition with_sessions (L : Ledger R K) (A : gmap bytes R) (O : gset bytes) : Ledger R K :=
  mkLedger A O (l_identities L) (l_sender_keys L).
Definition with_identities (L : Ledger R K) (A : gmap bytes bytes) : Ledger R K :=
  mkLedger (l_sessions L) (l_out L) A (l_sender_keys L).
Definition with_sender_keys (L : Ledger R K) (A : gmap bytes K) : Ledger R K :=
  mkLedger (l_sessions L) (l_out L) (l_identities L) A.
(** A session that is checked out cannot be seen. *)
Definition look (L : Ledger R K) (a : bytes) : option R :=
  if decide (a ∈ l_out L) then None else l_sessions L !! a.
Definition take_out (L : Ledger R K) (a : bytes) : Ledger R K :=
  match look L a with
  | Some _ => with_sessions L (l_sessions L) ({[a]} ∪ l_out L)
  | None => L
  end.

(** [durable] is what the backend holds: all that a [Clear] leaves. *)
Definition ledger_step (durable : Ledger R K) (op : Op R K) (L : Ledger R K) : Ledger R K * Answer R K :=
  match op with
  | GetSession a => (take_out L a, Session (look L a))
  | PeekSession a => (L, Session (look L a))
  | HasSession a => (L, Exists (bool_decide (is_Some (l_sessions L !! a))))
  | PutSession a r => (with_sessions L (<[a := r]> (l_sessions L)) (l_out L ∖ {[a]}), Done)
  | DeleteSession a => (with_sessions L (delete a (l_sessions L)) (l_out L ∖ {[a]}), Done)
  | GetIdentity a => (L, Identity (l_identities L !! a))
  | PutIdentity a d => (with_identities L (<[a := d]> (l_identities L)), Done)
  | DeleteIdentity a => (with_identities L (delete a (l_identities L)), Done)
  | GetSenderKey a => (L, SenderKey (l_sender_keys L !! a))
  | PutSenderKey a r => (with_sender_keys L (<[a := r]> (l_sender_keys L)), Done)
  | DeleteSenderKey a => (with_sender_keys L (delete a (l_sender_keys L)), Done)
  | RemovePrekey _ _ => (L, Done)
  | Flush => (L, Done)
  | Clear => (durable, Done)
  end.
(** A flush refuses an identity key that is not 32 bytes long. *)
Definition sized (L : Ledger R K) : Prop :=
  map_Forall (fun _ d => zlen d = 32) (l_identities L).
#[global] Instance sized_dec (L : Ledger R K) : Decision (sized L).
Proof. unfold sized. apply _. Defined.
End Reference.

(** ** The cache, one operation after the other *)

Section Performing.
Context {R K : Type} {CR : Codec R} {CK : Codec K} {HO : HashOrder}.

Definition perform (op : Op R K) : @Task R K (Answer R K) :=
  match op with
  | GetSession a => o ← get_session a; mret (Session o)
  | PeekSession a => o ← peek_session a; mret (Session o)
  | HasSession a => b ← has_session a; mret (Exists b)
  | PutSession a r => _ ← put_session a r; mret Done
  | DeleteSession a => _ ← delete_session a; mret Done
  | GetIdentity a => o ← get_identity a; mret (Identity o)
  | PutIdentity a d => _ ← put_identity a d; mret Done
  | DeleteIdentity a => _ ← delete_identity a; mret Done
  | GetSenderKey a => o ← get_sender_key a; mret (SenderKey o)
  | PutSenderKey a r => _ ← put_sender_key a r; mret Done
  | DeleteSenderKey a => _ ← delete_sender_key a; mret Done
  | RemovePrekey id a => _ ← remove_prekey id a; mret Done
  | Flush => _ ← flush; mret Done
  | Clear => _ ← clear; mret Done
  end.

(** What a process that starts on the backend finds. *)
Definition ledger_of (b : Backend) : Ledger R K :=
  mkLedger (omap deserialize (b_sessions b)) ∅ (b_identities b) (omap deserialize (b_sender_keys b)).
Definition fresh (b : Backend) (max_entries : Z) (faults : list Fault) : @Env R K :=
  mkEnv (mkSessions ∅ ∅ ∅) (mkByteStore ∅ ∅ ∅) (mkSenderKeys ∅ ∅) ∅ max_entries b [] faults.

(** Both, side by side; the ledger moves only when the operation succeeds. *)
Definition both_step (op : Op R K) (s : Ledger R K * @Env R K) : Ledger R K * @Env R K :=
  match perform op (snd s) with
  | (e', Some _) => (fst (ledger_step (ledger_of (backend (snd s))) op (fst s)), e')
  | (e', None) => (fst s, e')
  end.
Definition both (ops : list (Op R K)) (s : Ledger R K * @Env R K) : Ledger R K * @Env R K :=
  fold_left (fun s op => both_step op s) ops s.

(** Each answer is the ledger's; each error is a fault of the backend. *)
Fixpoint follows (ops : list (Op R K)) (L : Ledger R K) (e : @Env R K) : Prop :=
  match ops with
  | [] => True
  | op :: ops =>
      match perform op e with
      | (e', Some ans) =>
          let '(L', ans') := ledger_step (ledger_of (backend e)) op L in
          ans = ans' /\ follows ops L' e'
      | (e', None) => (sized L -> (bad (faults e') < bad (faults e))%nat) /\ follows ops L e'
      end
  end.

(** The rows of a backend can be read; what is stored can be stored. *)
Definition sound (b : Backend) : Prop :=
  map_Forall (fun _ v => exists r : R, deserialize v = Some r /\ storable r) (b_sessions b)
  /\ map_Forall (fun _ v => exists r : K, deserialize v = Some r /\ storable r) (b_sender_keys b).
Definition storable_op (op : Op R K) : Prop :=
  match op with PutSession _ r => storable r | PutSenderKey _ r => storable r | _ => True end.
End Performing.

(** ** The invariant *)

(** Consecutive states, from [b] on. *)
Fixpoint chained {B} (P : B -> B -> Prop) (b : B) (l : list B) : Prop :=
  match l with [] => True | b' :: l => P b b' /\ chained P b' l end.
Lemma chained_app {B} (P : B -> B -> Prop) b l b1 b2 :
  last (b :: l) = Some b1 -> P b1 b2 -> chained P b l -> chained P b (l ++ [b2]).
Proof.
  revert b. induction l as [|b' l IH]; intros b Hl HP Hc; cbn in *.
  - by simplify_eq.
  - destruct Hc as [H Hc]. split; [done|]. by apply IH.
Qed.

(** A pre-key that goes was consumed for a session that is there; [reg] is which pre-keys
    were consumed, and for which address. *)
Definition handed_over (reg : gset (Z * bytes)) (b b' : Backend) : Prop :=
  forall id, is_Some (b_prekeys b !! id) -> b_prekeys b' !! id = None ->
    exists a, (id, a) ∈ reg /\ is_Some (b_sessions b' !! a).
Lemma handed_over_same reg b b' : b_prekeys b' = b_prekeys b -> handed_over reg b b'.
Proof. intros Heq id [v Hv]. rewrite Heq, Hv. done. Qed.

Section Invariant.
Context {R K : Type} {CR : Codec R} {CK : Codec K} {HO : HashOrder}.
Context {LR : CodecLaws R} {LK : CodecLaws K} {HL : HashOrderLaws}.
Context (reg : gset (Z * bytes)) (b0 : Backend).

Abbreviation Env := (@Env R K).
Abbreviation Task := (@Task R K).
Abbreviation Ledger := (Ledger R K).

Definition coherent (L : Ledger) (e : Env) : Prop :=
  sessions_ok (sessions e) (backend e) (l_sessions L) (l_out L)
  /\ identities_ok (identities e) (b_identities (backend e)) (l_identities L)
  /\ sender_keys_ok (sender_keys e) (b_sender_keys (backend e)) (l_sender_keys L).
Definition crash_ok (e : Env) : Prop :=
  chained (handed_over reg) b0 (history e) /\ last (b0 :: history e) = Some (backend e)
  /\ forall (id : Z) (a : bytes), removed_prekeys e !! id = Some a -> (id, a) ∈ reg.
Definition Inv (L : Ledger) (n : nat) (e : Env) : Prop :=
  coherent L e /\ crash_ok e /\ (bad (faults e) <= n)%nat.
(** After an error: the ledger is what it was, and a fault has been used up. *)
Definition Err (L : Ledger) (n : nat) (e : Env) : Prop :=
  coherent L e /\ crash_ok e /\ (sized L -> (bad (faults e) < n)%nat).

Lemma crash_push e b fs :
  crash_ok e -> handed_over reg (backend e) b -> crash_ok (with_backend e b (history e ++ [b]) fs).
Proof.
  intros (Hc & Hl & Hr) Hh. split; [|split; [|done]]; cbn [history with_backend backend].
  - by eapply chained_app.
  - by rewrite app_comm_cons, last_snoc.
Qed.
Lemma crash_stay e b h fs :
  crash_ok e -> (b = backend e /\ h = history e) \/ (handed_over reg (backend e) b /\ h = history e ++ [b]) ->
  crash_ok (with_backend e b h fs).
Proof. intros Hc [[-> ->]|[Hh ->]]; [|by apply crash_push]. destruct Hc as (?&?&?). done. Qed.

Lemma inv_read {A} L n (f : Backend -> A) (F : Env -> Prop) :
  (forall e h fs, F e -> F (with_backend e (backend e) h fs)) ->
  triple (fun e => Inv L n e /\ F e) (read f) (fun a e => (Inv L n e /\ F e) /\ f (backend e) = a) (Err L n).
Proof.
  intros HF. apply triple_read.
  - intros e fs [(Hco & Hcr & Hb) Hf] Hfs. split; [|by apply HF]. split; [done|]. split; [|cbn [faults with_backend]; lia].
    by apply crash_push, handed_over_same.
  - intros e h fs [(Hco & Hcr & Hb) Hf] Hfs Hh. split; [done|]. split; [|intros _; cbn [faults with_backend]; lia].
    apply crash_stay; [done|]. destruct Hh as [->| ->]; [by left|right]. split; [by apply handed_over_same|done].
Qed.
Lemma inv_write L n (f : Backend -> Backend) (F G : Env -> Prop) :
  (forall e h fs, coherent L e -> F e ->
     coherent L (with_backend e (f (backend e)) h fs) /\ G (with_backend e (f (backend e)) h fs)) ->
  (forall e, F e -> handed_over reg (backend e) (f (backend e))) ->
  triple (fun e => Inv L n e /\ F e) (write f) (fun _ e => Inv L n e /\ G e) (Err L n).
Proof.
  intros Hco Hh. apply triple_write.
  - intros e fs [(Hc & Hcr & Hb) Hf] Hfs.
    destruct (Hco e (history e ++ [f (backend e)]) fs Hc Hf) as [Hc' HG].
    split; [|done]. split; [done|]. split; [|cbn [faults with_backend]; lia]. by apply crash_push, Hh.
  - intros e b h fs [(Hc & Hcr & Hb) Hf] Hfs Hbh. destruct Hbh as [[-> ->]|[-> ->]].
    + split; [done|]. split; [|intros _; cbn [faults with_backend]; lia]. apply crash_stay; [done|by left].
    + split; [by apply Hco|]. split; [|intros _; cbn [faults with_backend]; lia]. by apply crash_push, Hh.
Qed.
End Invariant.
