(* ===== verification/CacheRefines.v ===== *)
(** * Every operation of the cache follows the ledger *)

From stdpp Require Import prelude gmap.
From S2P Require Import Prelude SignalCache CacheCoherence CacheSlots CacheLedger.

#[local] Open Scope Z_scope.

Section Operations.
Context {R K : Type} {CR : Codec R} {CK : Codec K} {HO : HashOrder}.
Context {LR : CodecLaws R} {LK : CodecLaws K} {HL : HashOrderLaws}.
Context (reg : gset (Z * bytes)) (b0 : Backend).

Abbreviation Env := (@Env R K).
Abbreviation Task := (@Task R K).
Abbreviation Ledger := (Ledger R K).
Abbreviation Inv := (@Inv R K CR CK reg b0).
Abbreviation Err := (@Err R K CR CK reg b0).

(** ** Changes that only touch the cache *)

Definition env_sessions (e : Env) (st : SessionStoreState R) : Env :=
  mkEnv st (identities e) (sender_keys e) (removed_prekeys e) (max_entries e) (backend e) (history e) (faults e).
Lemma inv_sessions L n e st A O :
  Inv L n e -> sessions_ok st (backend e) A O -> Inv (with_sessions L A O) n (env_sessions e st).
Proof. intros ((_ & Hi & Hk) & Hcr & Hb) Hs. done. Qed.
Lemma with_sessions_id (L : Ledger) : with_sessions L (l_sessions L) (l_out L) = L.
Proof. by destruct L. Qed.
Lemma inv_sessions_same L n e st :
  Inv L n e -> sessions_ok st (backend e) (l_sessions L) (l_out L) -> Inv L n (env_sessions e st).
Proof. intros HI Hs. rewrite <- (with_sessions_id L). by apply inv_sessions. Qed.

Definition env_identities (e : Env) (st : ByteStoreState) : Env :=
  mkEnv (sessions e) st (sender_keys e) (removed_prekeys e) (max_entries e) (backend e) (history e) (faults e).
Lemma inv_identities L n e st A :
  Inv L n e -> identities_ok st (b_identities (backend e)) A ->
  Inv (with_identities L A) n (env_identities e st).
Proof. intros ((Hs & _ & Hk) & Hcr & Hb) Hi. done. Qed.
Definition env_sender_keys (e : Env) (st : SenderKeyStoreState K) : Env :=
  mkEnv (sessions e) (identities e) st (removed_prekeys e) (max_entries e) (backend e) (history e) (faults e).
Lemma inv_sender_keys L n e st A :
  Inv L n e -> sender_keys_ok st (b_sender_keys (backend e)) A ->
  Inv (with_sender_keys L A) n (env_sender_keys e st).
Proof. intros ((Hs & Hi & _) & Hcr & Hb) Hk. done. Qed.

(** ** Sessions *)

Lemma look_out (L : Ledger) a : a ∈ l_out L -> look L a = None.
Proof. unfold look. intros H. by rewrite decide_True. Qed.
Lemma look_in (L : Ledger) a : a ∉ l_out L -> look L a = l_sessions L !! a.
Proof. unfold look. intros H. by rewrite decide_False. Qed.
(** What an entry of the cache says. *)
Lemma look_cached L n e a :
  Inv L n e ->
  match s_cache (sessions e) !! a with
  | Some (Present r) => look L a = Some r
  | Some _ => look L a = None
  | None => look L a = durable (backend e) a
  end.
Proof.
  intros ((Hs & _) & _). pose proof (proj2 Hs a) as Ha. unfold entry_ok in Ha.
  destruct (s_cache (sessions e) !! a) as [[]|]; destruct Ha as (Hout & Ha & _);
    [by rewrite look_in|by rewrite look_in|by apply look_out|by rewrite look_in].
Qed.

Definition missing (a : bytes) (e : Env) : Prop := s_cache (sessions e) !! a = None.
(** The read of a miss. *)
Lemma read_session_ok L n a :
  triple (fun e => Inv L n e /\ missing a e) (read (fun b => b_sessions b !! a))
    (fun o e => (Inv L n e /\ missing a e) /\ b_sessions (backend e) !! a = o) (Err L n).
Proof. exact (inv_read reg b0 L n _ (missing a) (fun _ _ _ H => H)). Qed.

Lemma get_session_ok L n a :
  triple (Inv L n) (get_session a) (fun o e => o = look L a /\ Inv (take_out L a) n e) (Err L n).
Proof.
  eapply triple_bind; [apply triple_get|]. intros entry. destruct entry as [[r| |]|].
  - intros e [HI Hc]. pose proof (look_cached L n e a HI) as Hl. rewrite Hc in Hl.
    destruct (check_out_present _ _ _ _ _ _ (proj1 (proj1 HI)) Hc) as (_ & _ & Hok).
    split; [done|]. unfold take_out. rewrite Hl. by apply (inv_sessions L n e).
  - intros e [HI Hc]. pose proof (look_cached L n e a HI) as Hl. rewrite Hc in Hl.
    unfold take_out. by rewrite Hl.
  - intros e [HI Hc]. pose proof (look_cached L n e a HI) as Hl. rewrite Hc in Hl.
    unfold take_out. by rewrite Hl.
  - eapply triple_bind; [apply read_session_ok|]. intros found e [[HI Hc] Hf].
    pose proof (look_cached L n e a HI) as Hl. rewrite Hc in Hl.
    destruct (miss_ok _ _ _ _ _ (proj1 (proj1 HI)) Hc) as (_ & _ & Hm). rewrite Hf in Hm.
    unfold get_session_populate, mbind, Task_bind, get_env. rewrite bool_decide_false by (by rewrite Hc; intros []).
    destruct found as [v|].
    + destruct Hm as (r & Hd & HA & Hok & _). unfold of_option at 1. rewrite Hd.
      rewrite (durable_row _ _ _ Hf), Hd in Hl. split; [done|]. unfold take_out. rewrite Hl.
      apply (inv_sessions L n e); [done|]. by apply evict_ok.
    + destruct Hm as [HA Hok]. unfold durable in Hl. rewrite Hf in Hl. split; [done|].
      unfold take_out. rewrite Hl. apply (inv_sessions_same L n e); [done|]. by apply evict_ok.
Qed.
Lemma peek_session_ok L n a :
  triple (Inv L n) (peek_session a) (fun o e => o = look L a /\ Inv L n e) (Err L n).
Proof.
  eapply triple_bind; [apply triple_get|]. intros entry. destruct entry as [[r| |]|];
    try (intros e [HI Hc]; pose proof (look_cached L n e a HI) as Hl; by rewrite Hc in Hl).
  eapply triple_bind; [apply read_session_ok|]. intros found e [[HI Hc] Hf].
  pose proof (look_cached L n e a HI) as Hl. rewrite Hc in Hl.
  destruct (miss_ok _ _ _ _ _ (proj1 (proj1 HI)) Hc) as (_ & _ & Hm). rewrite Hf in Hm.
  unfold peek_session_populate, mbind, Task_bind, get_env. rewrite bool_decide_false by (by rewrite Hc; intros []).
  destruct found as [v|].
  - destruct Hm as (r & Hd & HA & _ & Hok). unfold of_option at 1. rewrite Hd.
    rewrite (durable_row _ _ _ Hf), Hd in Hl. split; [done|].
    apply (inv_sessions_same L n e); [done|]. by apply evict_ok.
  - destruct Hm as [HA Hok]. unfold durable in Hl. rewrite Hf in Hl. split; [done|].
    apply (inv_sessions_same L n e); [done|]. by apply evict_ok.
Qed.
Lemma has_session_ok L n a :
  triple (Inv L n) (has_session a)
    (fun o e => o = bool_decide (is_Some (l_sessions L !! a)) /\ Inv L n e) (Err L n).
Proof.
  eapply triple_bind; [apply triple_get|]. intros entry. destruct entry as [[r| |]|];
    try (intros e [HI Hc]; pose proof (proj2 (proj1 (proj1 HI)) a) as Ha; unfold entry_ok in Ha; rewrite Hc in Ha;
         destruct Ha as (_ & HA & _); rewrite ?HA; split; [|done]; symmetry;
         (by apply bool_decide_true; eauto) || (by apply bool_decide_false; intros [])).
  eapply triple_bind; [exact (inv_read reg b0 L n _ (missing a) (fun _ _ _ H => H))|].
  intros found e [[HI Hc] Hf]. destruct (miss_ok _ _ _ _ _ (proj1 (proj1 HI)) Hc) as (_ & _ & Hm).
  destruct (b_sessions (backend e) !! a) as [v|].
  - rewrite bool_decide_true in Hf by eauto. subst found. destruct Hm as (r & _ & HA & _). split; [|done].
    rewrite HA. symmetry. apply bool_decide_true. eauto.
  - rewrite bool_decide_false in Hf by (by intros []). subst found. destruct Hm as [HA Hok].
    unfold mbind, Task_bind, get_env. rewrite bool_decide_false by (by rewrite Hc; intros []).
    split; [rewrite HA; symmetry; apply bool_decide_false; by intros []|].
    apply (inv_sessions_same L n e); [done|]. by apply evict_ok.
Qed.
Lemma put_session_ok L n a r :
  storable r ->
  triple (Inv L n) (put_session a r)
    (fun _ => Inv (with_sessions L (<[a := r]> (l_sessions L)) (l_out L ∖ {[a]})) n) (Err L n).
Proof. intros Hr e HI. apply (inv_sessions L n e); [done|]. apply evict_ok, put_ok, HI. done. Qed.
Lemma delete_session_ok L n a :
  triple (Inv L n) (delete_session a)
    (fun _ => Inv (with_sessions L (delete a (l_sessions L)) (l_out L ∖ {[a]})) n) (Err L n).
Proof. intros e HI. apply (inv_sessions L n e); [done|]. apply delete_ok, HI. Qed.

(** ** Identities and sender keys *)

Definition identity_missing (a : bytes) (e : Env) : Prop := i_cache (identities e) !! a = None.
Definition sender_missing (a : bytes) (e : Env) : Prop := k_cache (sender_keys e) !! a = None.
Lemma with_identities_id (L : Ledger) : with_identities L (l_identities L) = L.
Proof. by destruct L. Qed.
Lemma with_sender_keys_id (L : Ledger) : with_sender_keys L (l_sender_keys L) = L.
Proof. by destruct L. Qed.

Lemma get_identity_ok L n a :
  triple (Inv L n) (get_identity a) (fun o e => o = l_identities L !! a /\ Inv L n e) (Err L n).
Proof.
  eapply triple_bind; [apply triple_get|]. intros [v|].
  - intros e [HI Hc]. destruct (proj1 (proj2 (proj1 HI)) a) as [Hs _]. rewrite Hc in Hs. by destruct Hs as [-> _].
  - eapply triple_bind; [exact (inv_read reg b0 L n _ (identity_missing a) (fun _ _ _ H => H))|].
    intros found e [[HI Hc] Hf]. destruct (identity_miss_ok _ _ _ _ (proj1 (proj2 (proj1 HI))) Hc) as [HA Hok].
    unfold get_identity_populate, mbind, Task_bind, get_env. rewrite Hc. split; [by rewrite HA|].
    rewrite <- (with_identities_id L). apply (inv_identities L n e); [done|].
    rewrite <- Hf. by apply (identity_evict_ok _ _ _ (max_entries e)) in Hok.
Qed.
Lemma put_identity_ok L n a d :
  triple (Inv L n) (put_identity a d)
    (fun _ => Inv (with_identities L (<[a := d]> (l_identities L))) n) (Err L n).
Proof. intros e HI. apply (inv_identities L n e); [done|]. apply identity_evict_ok, identity_put_ok, HI. Qed.
Lemma delete_identity_ok L n a :
  triple (Inv L n) (delete_identity a)
    (fun _ => Inv (with_identities L (delete a (l_identities L))) n) (Err L n).
Proof. intros e HI. apply (inv_identities L n e); [done|]. apply identity_delete_ok, HI. Qed.

Lemma read_sender_key_ok L n a :
  triple (Inv L n) (get_sender_key a) (fun o e => o = l_sender_keys L !! a /\ Inv L n e) (Err L n).
Proof.
  eapply triple_bind; [apply triple_get|]. intros [v|].
  - intros e [HI Hc]. destruct (proj2 (proj2 (proj2 (proj1 HI))) a) as [Hs _]. rewrite Hc in Hs.
    by destruct Hs as [-> _].
  - eapply triple_bind; [exact (inv_read reg b0 L n _ (sender_missing a) (fun _ _ _ H => H))|].
    intros found e [[HI Hc] Hf].
    pose proof (proj2 (proj2 (proj1 HI))) as Hk. destruct (sender_miss_ok _ _ _ _ Hk Hc) as [HA Hok].
    assert (HI' : Inv L n (env_sender_keys e (sender_evict_if_needed
      (mkSenderKeys (<[a := l_sender_keys L !! a]> (k_cache (sender_keys e))) (k_dirty (sender_keys e)))
      (max_entries e)))).
    { rewrite <- (with_sender_keys_id L) at 1. apply inv_sender_keys; [done|].
      apply sender_evict_ok. by rewrite HA. }
    unfold durable_key in HA. rewrite Hf in HA. unfold mbind, Task_bind. destruct found as [v|].
    + destruct (proj1 Hk a v Hf) as (r & Hd & _). change (l_sender_keys L !! a = deserialize v) in HA.
      rewrite Hd in HA. unfold of_option at 1. rewrite Hd. cbn [mret Task_ret]. rewrite HA in HI'. by rewrite HA.
    + change (l_sender_keys L !! a = None) in HA. rewrite HA in HI'. by rewrite HA.
Qed.
Lemma put_sender_key_ok L n a r :
  storable r ->
  triple (Inv L n) (put_sender_key a r)
    (fun _ => Inv (with_sender_keys L (<[a := r]> (l_sender_keys L))) n) (Err L n).
Proof.
  intros Hr e HI. apply (inv_sender_keys L n e); [done|]. apply sender_evict_ok.
  apply (sender_change_ok _ _ _ a (Some r)); [by intros ? [= <-]|]. apply HI.
Qed.
Lemma delete_sender_key_ok L n a :
  triple (Inv L n) (delete_sender_key a)
    (fun _ => Inv (with_sender_keys L (delete a (l_sender_keys L))) n) (Err L n).
Proof.
  intros e HI. apply (inv_sender_keys L n e); [done|].
  apply (sender_change_ok _ _ _ a None); [done|]. apply HI.
Qed.
End Operations.
