(* ===== verification/CacheFlush.v ===== *)
(** * The flush

    Each write of a flush keeps the cache coherent, so that a flush cut short anywhere is
    harmless; a flush that ends leaves the backend equal to the ledger, but for the sessions
    that are checked out. *)

From stdpp Require Import prelude gmap.
From S2P Require Import Prelude SignalCache CacheCoherence CacheSlots CacheLedger CacheRefines.

#[local] Open Scope Z_scope.

Section Flush.
Context {R K : Type} {CR : Codec R} {CK : Codec K} {HO : HashOrder}.
Context {LR : CodecLaws R} {LK : CodecLaws K} {HL : HashOrderLaws}.
Context (reg : gset (Z * bytes)) (b0 : Backend).

Abbreviation Env := (@Env R K).
Abbreviation Task := (@Task R K).
Abbreviation Ledger := (Ledger R K).
Abbreviation Inv := (@Inv R K CR CK reg b0).
Abbreviation Err := (@Err R K CR CK reg b0).

Lemma unmarked (s : gset bytes) : s ∖ list_to_set (iter s) = ∅.
Proof. apply set_eq. intros a. rewrite elem_of_difference, elem_of_list_to_set, elem_of_iter. set_solver. Qed.

(** ** Sessions *)

(** What is cached has a row. *)
Definition cached_durable (st : SessionStoreState R) (b : Backend) : Prop :=
  forall (a : bytes) r, s_cache st !! a = Some (Present r) -> durable b a = Some r.
(** The sessions are flushed. *)
Definition flushed_sessions (L : Ledger) (b : Backend) : Prop :=
  forall a : bytes, a ∉ l_out L -> durable b a = l_sessions L !! a.

Lemma session_batch_elem (st : SessionStoreState R) l (a v : bytes) :
  (a, v) ∈ session_batch st l <-> a ∈ l /\ exists r, s_cache st !! a = Some (Present r) /\ v = serialize r.
Proof.
  unfold session_batch. rewrite list_elem_of_omap. split.
  - intros (a' & Hin & Heq). destruct (s_cache st !! a') as [[r| |]|] eqn:Hc; simplify_eq. eauto.
  - intros (Hin & r & Hc & ->). exists a. split; [done|]. by rewrite Hc.
Qed.

Lemma write_sessions_ok L n st l :
  triple (fun e => Inv L n e /\ sessions e = st)
    (each (fun '(a, v) => write (put_session_row a v)) (session_batch st l))
    (fun _ e => Inv L n e /\ sessions e = st
       /\ forall a r, a ∈ l -> s_cache st !! a = Some (Present r) -> durable (backend e) a = Some r)
    (Err L n).
Proof.
  set (J := fun (l1 : list (bytes * bytes)) e => Inv L n e /\ (sessions e = st
    /\ forall a r, a ∈ l1.*1 -> s_cache st !! a = Some (Present r) -> durable (backend e) a = Some r)).
  eapply triple_pre; [eapply triple_post; [apply (triple_each _ _ J)| |done]|].
  - intros l1 [a v] l2 Hl. assert (Hin : (a, v) ∈ session_batch st l) by (rewrite Hl; set_solver).
    apply session_batch_elem in Hin as (_ & r & Hc & ->). apply inv_write.
    + intros e h fs (Hs & Hi & Hk) [Hst Hd]. rewrite <- Hst in Hc.
      destruct (put_row_ok _ _ _ _ _ _ Hs Hc) as [Hok Hda]. split; [done|]. split; [done|].
      intros a' r' Hin' Hc'. cbn [backend with_backend]. destruct (decide (a = a')) as [<-|Hne].
      * rewrite Hst in Hc. rewrite Hc in Hc'. by simplify_eq.
      * unfold durable. cbn [b_sessions put_session_row]. rewrite lookup_insert_ne by done.
        apply Hd; [|done]. rewrite fmap_app in Hin'. cbn in Hin'. set_solver.
    + intros e _. by apply handed_over_same.
  - intros [] e (HI & Hst & Hd). split; [done|]. split; [done|]. intros a r Ha Hc. apply Hd; [|done].
    apply list_elem_of_fmap. exists (a, serialize r). split; [done|]. apply session_batch_elem. eauto.
  - intros e [HI Hst]. split; [done|]. split; [done|]. intros a r Hin. by apply elem_of_nil in Hin.
Qed.
Lemma delete_sessions_ok L n st l :
  (forall a, a ∈ l -> a ∈ s_deleted st) ->
  triple (fun e => Inv L n e /\ sessions e = st /\ cached_durable st (backend e))
    (each (fun a => write (delete_session_row a)) l)
    (fun _ e => Inv L n e /\ sessions e = st /\ cached_durable st (backend e)
       /\ forall a, a ∈ l -> b_sessions (backend e) !! a = None)
    (Err L n).
Proof.
  intros Hsub. set (J := fun (l1 : list bytes) e => Inv L n e /\ (sessions e = st /\ cached_durable st (backend e)
    /\ forall a, a ∈ l1 -> b_sessions (backend e) !! a = None)).
  eapply triple_pre; [apply (triple_each _ _ J)|].
  - intros l1 a l2 Hl. assert (Hin : a ∈ s_deleted st) by (apply Hsub; rewrite Hl; set_solver).
    apply inv_write.
    + intros e h fs (Hs & Hi & Hk) (Hst & Hd & Hx). rewrite <- Hst in Hin.
      pose proof (delete_row_ok _ _ _ _ _ Hs Hin) as Hok. split; [done|]. split; [done|]. split.
      * intros a' r Hc. specialize (Hd a' r Hc). cbn [backend with_backend].
        unfold durable. cbn [b_sessions delete_session_row]. destruct (decide (a = a')) as [<-|Hne].
        -- pose proof (proj2 Hs a) as Ha. unfold entry_ok in Ha. rewrite Hst, Hc in Ha. rewrite Hst in Hin. naive_solver.
        -- by rewrite lookup_delete_ne.
      * intros a' Ha'. cbn [backend with_backend b_sessions delete_session_row].
        rewrite lookup_delete_None. set_solver.
    + intros e _. by apply handed_over_same.
  - intros e (HI & Hst & Hd). split; [done|]. split; [done|]. split; [done|]. intros a Hin. by apply elem_of_nil in Hin.
Qed.
(** With no change pending but for sessions that are out, the ledger can be read off the rows. *)
Lemma flushed_when_clean (st : SessionStoreState R) b A O :
  sessions_ok st b A O -> s_deleted st = ∅ -> (forall a, a ∈ s_dirty st -> s_cache st !! a = Some CheckedOut) ->
  cached_durable st b /\ forall a : bytes, a ∉ O -> durable b a = A !! a.
Proof.
  intros [_ Ha] Hx Hd. split.
  - intros a r Hc. specialize (Ha a). specialize (Hd a). unfold entry_ok in Ha. rewrite Hc in *. apply Ha.
    intros Hin. by specialize (Hd Hin).
  - intros a Hout. specialize (Ha a). specialize (Hd a). unfold entry_ok in Ha. rewrite Hx in Ha.
    destruct (s_cache st !! a) as [[r| |]|].
    + destruct Ha as (_ & -> & _ & _ & Hda). apply Hda. intros Hin. by specialize (Hd Hin).
    + destruct Ha as (_ & -> & _ & Hb). unfold durable. rewrite Hb; [done|set_solver].
    + naive_solver.
    + destruct Ha as (_ & -> & _). done.
Qed.

(** The marks go, and then the entries that are too many. *)
Definition drained (st : SessionStoreState R) (n : Z) : SessionStoreState R :=
  session_evict_if_needed
    (mkSessions (s_cache st)
       (s_dirty st ∖ list_to_set (filter (fun a => is_checked_out (s_cache st !! a) = false) (iter (s_dirty st))))
       (s_deleted st ∖ list_to_set (iter (s_deleted st)))) n.
Lemma drained_ok (st : SessionStoreState R) n b A O :
  sessions_ok st b A O -> cached_durable st b ->
  (forall a, a ∈ iter (s_deleted st) -> b_sessions b !! a = None) ->
  sessions_ok (drained st n) b A O
  /\ cached_durable (drained st n) b /\ forall a : bytes, a ∉ O -> durable b a = A !! a.
Proof.
  intros Hok Hd Hx. unfold drained.
  rewrite unmarked.
  set (done := list_to_set (filter _ _) : gset bytes).
  assert (Hdone : forall a, a ∈ done <-> a ∈ s_dirty st /\ s_cache st !! a <> Some CheckedOut).
  { intros a. unfold done. rewrite elem_of_list_to_set, list_elem_of_filter, elem_of_iter.
    destruct (s_cache st !! a) as [[]|]; cbn; naive_solver. }
  assert (Hok' : sessions_ok (mkSessions (s_cache st) (s_dirty st ∖ done) ∅) b A O).
  { apply unmark_ok; [done|done| | |].
    - intros a Ha. apply Hx. by rewrite elem_of_iter.
    - intros a Hn Hin. rewrite Hdone in Hn. destruct (s_cache st !! a) as [[]|]; naive_solver.
    - intros a Ha. by apply Hdone in Ha as [_ Ha]. }
  pose proof (evict_ok _ n _ _ _ Hok') as Hev. split; [done|].
  destruct (session_evict_sets (mkSessions (s_cache st) (s_dirty st ∖ done) ∅) n) as [Hed Hex].
  apply (flushed_when_clean _ _ _ _ Hev); [done|]. intros a Ha. rewrite Hed in Ha. cbn in Ha.
  rewrite elem_of_difference, Hdone in Ha.
  destruct (session_evicted (mkSessions (s_cache st) (s_dirty st ∖ done) ∅) n a) as [->|(_ & Hnd & _)]; cbn in *.
  - destruct (s_cache st !! a) as [[]|]; naive_solver.
  - exfalso. apply Hnd. rewrite elem_of_difference, Hdone. done.
Qed.

(** ** The pre-keys that go *)

(** Flushed, and with [l] among the consumed pre-keys. *)
Definition ready (L : Ledger) (st : SessionStoreState R) (e : Env) : Prop :=
  sessions e = st /\ cached_durable st (backend e) /\ flushed_sessions L (backend e).
Definition has_row (b : Backend) (a : bytes) : Prop := is_Some (b_sessions b !! a).
Lemma durable_has_row b a (r : R) : durable b a = Some r -> has_row b a.
Proof. unfold durable, has_row. destruct (b_sessions b !! a); [eauto|done]. Qed.

Lemma deletable_ok L n st l (F : Env -> Prop) :
  (forall e h fs, F e -> F (with_backend e (backend e) h fs)) ->
  triple (fun e => Inv L n e /\ (ready L st e /\ F e)) (deletable l)
    (fun ids e => (Inv L n e /\ (ready L st e /\ F e))
       /\ forall id, id ∈ ids -> exists a, (id, a) ∈ l /\ has_row (backend e) a) (Err L n).
Proof.
  intros HF. set (J := fun e => ready L st e /\ F e).
  assert (HJ : forall e h fs, J e -> J (with_backend e (backend e) h fs)) by (intros e h fs [? ?]; split; [done|auto]).
  revert F HF J HJ. induction l as [|[id a] l IH]; intros F HF J HJ; cbn [deletable].
  - apply triple_ret. intros e HI. split; [done|]. intros id Hin. by apply elem_of_nil in Hin.
  - eapply triple_bind; [apply triple_get|]. intros entry.
    eapply (triple_bind _ _ (fun (d : bool) e => (Inv L n e /\ J e) /\ (d = true -> has_row (backend e) a))).
    { destruct entry as [[r| |]|].
      - apply triple_ret. intros e [[HI [(Hst & Hcd & Hfl) Hf]] Hc]. split; [done|]. intros _.
        rewrite Hst in Hc. by eapply durable_has_row, Hcd.
      - eapply triple_pre; [eapply triple_post; [apply (inv_read reg b0 L n _ J HJ)| |done]|by intros e [? ?]].
        intros d e [HI Hd]. split; [done|]. intros ->. by apply bool_decide_eq_true in Hd.
      - apply triple_ret. intros e [HI _]. done.
      - eapply triple_pre; [eapply triple_post; [apply (inv_read reg b0 L n _ J HJ)| |done]|by intros e [? ?]].
        intros d e [HI Hd]. split; [done|]. intros ->. by apply bool_decide_eq_true in Hd. }
    intros d. eapply triple_bind.
    { eapply triple_pre; [apply (IH (fun e => F e /\ (d = true -> has_row (backend e) a)))|].
      - intros e h fs [? ?]. split; [auto|done].
      - intros e h fs [? [? ?]]. split; [done|]. split; [auto|done].
      - intros e [[? [? ?]] ?]. done. }
    intros ids. apply triple_ret. intros e [[HI [Hr [Hf Hd]]] Hids]. split; [done|].
    destruct d; [|by intros id' Hin; destruct (Hids id' Hin) as (a' & ? & ?); exists a'; split; [right|]].
    intros id' Hin. apply elem_of_cons in Hin as [->|Hin].
    + exists a. split; [left|]. by apply Hd.
    + destruct (Hids id' Hin) as (a' & ? & ?). exists a'. split; [by right|done].
Qed.
Lemma remove_prekeys_ok L n (ids : list Z) (S : Env -> Prop) :
  (forall e b h fs, S e -> b_sessions b = b_sessions (backend e) -> S (with_backend e b h fs)) ->
  triple (fun e => Inv L n e /\ (S e
       /\ forall id, id ∈ ids -> exists a, (id, a) ∈ reg /\ has_row (backend e) a))
    (each (fun id => write (remove_prekey_row id)) ids)
    (fun _ e => Inv L n e /\ S e) (Err L n).
Proof.
  intros HS. set (F := fun e => S e /\ forall id, id ∈ ids -> exists a, (id, a) ∈ reg /\ has_row (backend e) a).
  eapply triple_post; [apply (triple_each _ ids (fun _ e => Inv L n e /\ F e))| |done].
  - intros l1 id l2 Hl. apply (inv_write _ _ _ _ _ F F).
    + intros e h fs Hco [HSe Hids]. split; [done|]. split; [by apply HS|done].
    + intros e [_ Hids] id' [v Hv] Hn. cbn [b_prekeys remove_prekey_row] in Hn.
      apply lookup_delete_None in Hn as [<-|Hn]; [|by rewrite Hv in Hn].
      apply Hids. rewrite Hl. set_solver.
  - intros [] e (HI & HSe & _). done.
Qed.

Lemma triple_exists {A X} (P : X -> Env -> Prop) (m : Task A) Q E :
  (forall x, triple (P x) m Q E) -> triple (fun e => exists x, P x e) m Q E.
Proof. intros H e [x Hx]. by apply (H x). Qed.
(** A change of the sessions and the eviction after it. *)
Lemma triple_update {A} f (P P' : Env -> Prop) (m : Task A) Q E :
  (forall e, P e -> P' (env_sessions e (session_evict_if_needed (f (sessions e)) (max_entries e)))) ->
  triple P' m Q E -> triple P (_ ← set_sessions f; _ ← evict_sessions; m) Q E.
Proof. intros HP Hm e He. by apply (Hm _ (HP e He)). Qed.
Lemma remove_all_ids_sub (ids : list Z) (m : gmap Z bytes) (id : Z) (a : bytes) :
  foldr delete m ids !! id = Some a -> m !! id = Some a.
Proof.
  induction ids as [|i ids IH]; cbn [foldr]; [done|]. rewrite lookup_delete_Some. intros [_ H]. by apply IH.
Qed.

Lemma flush_sessions_ok L n :
  triple (Inv L n) flush_sessions (fun _ e => Inv L n e /\ flushed_sessions L (backend e)) (Err L n).
Proof.
  eapply triple_bind; [apply triple_get|]. intros st.
  eapply triple_bind; [apply write_sessions_ok|]. intros [].
  eapply triple_bind.
  { eapply triple_pre; [apply (delete_sessions_ok L n st)|].
    - intros a. by rewrite elem_of_iter.
    - intros e (HI & Hst & Hd). split; [done|]. split; [done|]. intros a r Hc.
      destruct (decide (a ∈ s_dirty st)) as [Hin|Hni]; [apply Hd; [by rewrite elem_of_iter|done]|].
      pose proof (proj2 (proj1 (proj1 HI)) a) as Ha. unfold entry_ok in Ha. rewrite Hst, Hc in Ha. by apply Ha. }
  intros []. apply (triple_update _ _ (fun e => exists st', Inv L n e /\ ready L st' e)).
  { intros e ([(Hs & Hi & Hk) HI] & Hst & Hd & Hx). rewrite Hst in Hs |- *.
    destruct (drained_ok st (max_entries e) _ _ _ Hs Hd Hx) as (Hok & Hcd & Hfl).
    exists (drained st (max_entries e)). done. }
  apply triple_exists. intros st'. eapply triple_bind; [apply triple_get|]. intros removed.
  set (F := fun e : Env => removed_prekeys e = removed).
  eapply triple_bind.
  { eapply triple_pre; [apply (deletable_ok L n st' _ F); by intros|]. by intros e [[HI Hr] Hrem]. }
  intros ids. eapply triple_bind.
  { eapply triple_pre; [apply (remove_prekeys_ok L n ids (fun e => flushed_sessions L (backend e)))|].
    - intros e b h fs Hfl Heq a Ha. cbn [backend with_backend]. unfold durable. rewrite Heq. by apply Hfl.
    - intros e [(HI & (Hst & Hcd & Hfl) & Hrem) Hids]. split; [done|]. split; [done|].
      intros id Hin. destruct (Hids id Hin) as (a & Ha & Hrow). exists a. split; [|done].
      rewrite iter_prekeys_perm in Ha. apply elem_of_map_to_list in Ha. rewrite <- Hrem in Ha. by apply HI. }
  intros [] e [(Hco & (Hch & Hla & Hreg) & Hb) Hfl]. split; [|done]. split; [done|]. split; [|done].
  split; [done|]. split; [done|]. intros id a Hin. apply Hreg. by apply remove_all_ids_sub in Hin.
Qed.

(** ** Identities *)

Definition flushed_identities (L : Ledger) (b : Backend) : Prop := b_identities b = l_identities L.

Lemma identity_batch_elem (st : ByteStoreState) l batch (a d : bytes) :
  identity_batch st l = Some batch -> (a, d) ∈ batch <-> a ∈ l /\ i_cache st !! a = Some (Some d).
Proof.
  revert batch. induction l as [|x l IH]; intros batch; cbn [identity_batch foldr].
  - intros [= <-]. split; [by intros ?%elem_of_nil|]. by intros [?%elem_of_nil _].
  - fold (identity_batch st l). intros Hb. rewrite elem_of_cons.
    destruct (i_cache st !! x) as [[dx|]|] eqn:Hx.
    + destruct (zlen dx =? 32); [|done]. destruct (identity_batch st l) as [batch'|]; [|done].
      cbn in Hb. simplify_eq. rewrite elem_of_cons, (IH _ eq_refl). naive_solver.
    + rewrite (IH _ Hb). naive_solver.
    + rewrite (IH _ Hb). naive_solver.
Qed.
Lemma identity_batch_sized L n e :
  Inv L n e -> sized L -> identity_batch (identities e) (iter (i_dirty (identities e))) <> None.
Proof.
  intros ((_ & Hi & _) & _) Hsz. generalize (iter (i_dirty (identities e))). intros l.
  induction l as [|x l IH]; cbn [identity_batch foldr]; [done|]. fold (identity_batch (identities e) l).
  destruct (i_cache (identities e) !! x) as [[d|]|] eqn:Hx; [|done|done].
  destruct (Hi x) as [Hs _]. rewrite Hx in Hs. destruct Hs as [HA _].
  rewrite (Hsz x d HA), Z.eqb_refl. by destruct (identity_batch (identities e) l).
Qed.
Definition cached_identity_rows (st : ByteStoreState) (l : list bytes) (b : Backend) : Prop :=
  forall a d : bytes, a ∈ l -> i_cache st !! a = Some (Some d) -> b_identities b !! a = Some d.

Lemma write_identities_ok L n st l batch :
  identity_batch st l = Some batch ->
  triple (fun e => Inv L n e /\ (identities e = st /\ flushed_sessions L (backend e)))
    (each (fun '(a, v) => write (put_identity_row a v)) batch)
    (fun _ e => Inv L n e /\ (identities e = st /\ flushed_sessions L (backend e)
       /\ cached_identity_rows st l (backend e)))
    (Err L n).
Proof.
  intros Hb. set (J := fun (l1 : list (bytes * bytes)) e => Inv L n e /\ (identities e = st
    /\ flushed_sessions L (backend e) /\ cached_identity_rows st l1.*1 (backend e))).
  eapply triple_pre; [eapply triple_post; [apply (triple_each _ _ J)| |done]|].
  - intros l1 [a v] l2 Hl. assert (Hin : (a, v) ∈ batch) by (rewrite Hl; set_solver).
    apply (identity_batch_elem _ _ _ _ _ Hb) in Hin as [_ Hc]. apply inv_write.
    + intros e h fs (Hs & Hi & Hk) (Hst & Hfl & Hd). rewrite <- Hst in Hc.
      pose proof (identity_put_row_ok _ _ _ _ _ Hi Hc) as Hok. split; [done|]. split; [done|]. split; [done|].
      intros a' d' Hin' Hc'. cbn [backend with_backend b_identities put_identity_row].
      destruct (decide (a = a')) as [<-|Hne].
      * rewrite <- Hst, Hc in Hc'. simplify_eq. apply lookup_insert_eq.
      * rewrite lookup_insert_ne by done. apply Hd; [|done]. rewrite fmap_app in Hin'. cbn in Hin'. set_solver.
    + intros e _. by apply handed_over_same.
  - intros [] e (HI & Hst & Hfl & Hd). split; [done|]. split; [done|]. split; [done|].
    intros a d Ha Hc. apply Hd; [|done]. apply list_elem_of_fmap. exists (a, d). split; [done|].
    by apply (identity_batch_elem _ _ _ _ _ Hb).
  - intros e (HI & Hst & Hfl). split; [done|]. split; [done|]. split; [done|].
    intros a r Hin. by apply elem_of_nil in Hin.
Qed.
Lemma delete_identities_ok L n st l l' :
  (forall a, a ∈ l -> a ∈ i_deleted st) ->
  triple (fun e => Inv L n e /\ (identities e = st /\ flushed_sessions L (backend e)
       /\ cached_identity_rows st l' (backend e)))
    (each (fun a => write (delete_identity_row a)) l)
    (fun _ e => Inv L n e /\ (identities e = st /\ flushed_sessions L (backend e)
       /\ cached_identity_rows st l' (backend e) /\ forall a, a ∈ l -> b_identities (backend e) !! a = None))
    (Err L n).
Proof.
  intros Hsub. set (J := fun (l1 : list bytes) e => Inv L n e /\ (identities e = st
    /\ flushed_sessions L (backend e) /\ cached_identity_rows st l' (backend e)
    /\ forall a, a ∈ l1 -> b_identities (backend e) !! a = None)).
  eapply triple_pre; [apply (triple_each _ _ J)|].
  - intros l1 a l2 Hl. assert (Hin : a ∈ i_deleted st) by (apply Hsub; rewrite Hl; set_solver).
    apply inv_write.
    + intros e h fs (Hs & Hi & Hk) (Hst & Hfl & Hd & Hx). rewrite <- Hst in Hin.
      pose proof (identity_delete_row_ok _ _ _ _ Hi Hin) as Hok. split; [done|]. split; [done|]. split; [done|].
      cbn [backend with_backend b_identities delete_identity_row]. split.
      * intros a' d Hin' Hc. cbn [b_identities delete_identity_row]. destruct (decide (a = a')) as [<-|Hne].
        -- destruct (Hi a) as (_ & _ & Hx'). specialize (Hx' Hin). rewrite Hst, Hc in Hx'. done.
        -- rewrite lookup_delete_ne by done. by apply Hd.
      * intros a' Ha'. rewrite lookup_delete_None. set_solver.
    + intros e _. by apply handed_over_same.
  - intros e (HI & Hst & Hfl & Hd). split; [done|]. split; [done|]. split; [done|]. split; [done|].
    intros a Hin. by apply elem_of_nil in Hin.
Qed.

Lemma flush_identities_ok L n :
  triple (fun e => Inv L n e /\ flushed_sessions L (backend e)) flush_identities
    (fun _ e => Inv L n e /\ (flushed_sessions L (backend e) /\ flushed_identities L (backend e))) (Err L n).
Proof.
  eapply triple_bind; [apply triple_get|]. intros st. eapply triple_bind.
  { apply triple_option. intros Hnone e [[HI _] Hst]. split; [apply HI|]. split; [apply HI|].
    intros Hsz. subst st. by apply (identity_batch_sized L n e HI Hsz) in Hnone. }
  intros batch. apply triple_pure. intros Hb. eapply triple_bind.
  { eapply triple_pre; [by apply (write_identities_ok L n st)|]. by intros e [[HI Hfl] Hst]. }
  intros []. eapply triple_bind.
  { apply (delete_identities_ok L n st). intros a. by rewrite elem_of_iter. }
  intros [] e ([(Hs & Hi & Hk) HI] & Hst & Hfl & Hd & Hx). rewrite Hst in Hi.
  destruct (identity_unmark_ok _ _ _ Hi) as [Hok Heq].
  { intros a d Hin. apply Hd. by rewrite elem_of_iter. }
  { intros a Hin. apply Hx. by rewrite elem_of_iter. }
  split; [|done]. split; [|done]. split; [done|]. split; [|done].
  apply (identity_evict_ok _ _ _ (max_entries e)) in Hok.
  cbn [identities set_identities evict_identities fst backend]. rewrite Hst.
  by rewrite !unmarked.
Qed.

(** ** Sender keys *)

Definition flushed_sender_keys (L : Ledger) (b : Backend) : Prop :=
  forall a : bytes, durable_key (b_sender_keys b) a = l_sender_keys L !! a.
(** The other two stores are flushed, and the sender keys are [st]. *)
Definition others_flushed (L : Ledger) (st : SenderKeyStoreState K) (e : Env) : Prop :=
  sender_keys e = st /\ flushed_sessions L (backend e) /\ flushed_identities L (backend e).
(** The absences among [l] have no row. *)
Definition absent_rows (st : SenderKeyStoreState K) (l : list bytes) (b : Backend) : Prop :=
  forall a : bytes, a ∈ l -> k_cache st !! a = Some None -> b_sender_keys b !! a = None.
Definition is_sender_batch (st : SenderKeyStoreState K) (l : list bytes) (batch : list (bytes * bytes)) : Prop :=
  forall a v : bytes, (a, v) ∈ batch <-> a ∈ l /\ exists r : K, k_cache st !! a = Some (Some r) /\ v = serialize r.

Lemma delete_sender_row_ok L n st l (a : bytes) :
  k_cache st !! a = Some None ->
  triple (fun e => Inv L n e /\ (others_flushed L st e /\ absent_rows st l (backend e)))
    (write (delete_sender_key_row a))
    (fun _ e => Inv L n e /\ (others_flushed L st e /\ absent_rows st (l ++ [a]) (backend e))) (Err L n).
Proof.
  intros Hc. apply inv_write.
  - intros e h fs (Hs & Hi & Hk) [(Hst & Hfl) Habs]. pose proof Hc as Hc'. rewrite <- Hst in Hc'.
    pose proof (sender_delete_row_ok _ _ _ _ Hk Hc') as Hok. split; [done|]. split; [done|].
    intros a' Hin Hca. cbn [backend with_backend b_sender_keys delete_sender_key_row].
    rewrite lookup_delete_None. apply elem_of_app in Hin as [Hin|Hin]; [right; by apply Habs|left; set_solver].
  - intros e _. by apply handed_over_same.
Qed.
Lemma absent_skip st l (a : bytes) b :
  k_cache st !! a <> Some None -> absent_rows st l b -> absent_rows st (l ++ [a]) b.
Proof.
  intros Hn H a' Hin Hc. apply elem_of_app in Hin as [Hin|Hin]; [by apply H|].
  apply list_elem_of_singleton in Hin as ->. done.
Qed.
Lemma sender_key_batch_ok L n st l2 l1 :
  triple (fun e => Inv L n e /\ (others_flushed L st e /\ absent_rows st l1 (backend e)))
    (sender_key_batch st l2)
    (fun batch e => (Inv L n e /\ (others_flushed L st e /\ absent_rows st (l1 ++ l2) (backend e)))
       /\ is_sender_batch st l2 batch) (Err L n).
Proof.
  revert l1. induction l2 as [|a l2 IH]; intros l1; cbn [sender_key_batch].
  - apply triple_ret. intros e HI. rewrite app_nil_r. split; [done|].
    intros a v. split; [by intros ?%elem_of_nil|]. by intros [?%elem_of_nil _].
  - specialize (IH (l1 ++ [a])). rewrite <- app_assoc in IH. cbn [app] in IH.
    destruct (k_cache st !! a) as [[r|]|] eqn:Hc.
    + eapply triple_bind.
      { eapply triple_pre; [exact IH|]. intros e (HI & Ho & Habs). split; [done|]. split; [done|].
        apply absent_skip; [by rewrite Hc|done]. }
      intros rest. apply triple_ret. intros e [HI Hb]. split; [done|].
      intros a' v. rewrite !elem_of_cons, (Hb a' v). naive_solver.
    + eapply triple_bind; [by apply (delete_sender_row_ok L n st l1 a)|]. intros [].
      eapply triple_post; [exact IH| |done]. intros batch e [HI Hb]. split; [done|].
      intros a' v. rewrite elem_of_cons, (Hb a' v). naive_solver.
    + eapply triple_pre; [eapply triple_post; [exact IH| |done]|].
      * intros batch e [HI Hb]. split; [done|]. intros a' v. rewrite elem_of_cons, (Hb a' v). naive_solver.
      * intros e (HI & Ho & Habs). split; [done|]. split; [done|]. apply absent_skip; [by rewrite Hc|done].
Qed.
Lemma write_sender_keys_ok L n st l batch :
  is_sender_batch st l batch ->
  triple (fun e => Inv L n e /\ (others_flushed L st e /\ absent_rows st l (backend e)))
    (each (fun '(a, v) => write (put_sender_key_row a v)) batch)
    (fun _ e => Inv L n e /\ (others_flushed L st e
       /\ forall a v, a ∈ l -> k_cache st !! a = Some v -> durable_key (b_sender_keys (backend e)) a = v))
    (Err L n).
Proof.
  intros Hb. set (J := fun (l1 : list (bytes * bytes)) e => Inv L n e /\ (others_flushed L st e
    /\ absent_rows st l (backend e)
    /\ forall a r, a ∈ l1.*1 -> k_cache st !! a = Some (Some r) ->
         durable_key (b_sender_keys (backend e)) a = Some r)).
  eapply triple_pre; [eapply triple_post; [apply (triple_each _ _ J)| |done]|].
  - intros l1 [a v] l2 Hl. assert (Hin : (a, v) ∈ batch) by (rewrite Hl; set_solver).
    apply Hb in Hin as (_ & r & Hc & ->). apply inv_write.
    + intros e h fs (Hs & Hi & Hk) ((Hst & Hfl) & Habs & Hd). pose proof Hc as Hc0. rewrite <- Hst in Hc0.
      destruct (sender_put_row_ok _ _ _ _ _ Hk Hc0) as [Hok Hda]. split; [done|]. split; [done|].
      cbn [backend with_backend]. split; [|intros a' r' Hin' Hc'; destruct (decide (a = a')) as [<-|Hne]].
      * intros a' Hin' Hc'. cbn [b_sender_keys put_sender_key_row].
        rewrite lookup_insert_ne; [by apply Habs|]. intros <-. by rewrite Hc in Hc'.
      * rewrite Hc in Hc'. simplify_eq. done.
      * unfold durable_key. cbn [b_sender_keys put_sender_key_row]. rewrite lookup_insert_ne by done.
        apply Hd; [|done]. rewrite fmap_app in Hin'. cbn in Hin'. set_solver.
    + intros e _. by apply handed_over_same.
  - intros [] e (HI & Ho & Habs & Hd). split; [done|]. split; [done|]. intros a [r|] Hin Hc.
    + apply Hd; [|done]. apply list_elem_of_fmap. exists (a, serialize r). split; [done|]. apply Hb. eauto.
    + unfold durable_key. by rewrite Habs.
  - intros e (HI & Ho & Habs). split; [done|]. split; [done|]. split; [done|].
    intros a r Hin. by apply elem_of_nil in Hin.
Qed.

(** What a flush that ends leaves. *)
Definition flushed (L : Ledger) (b : Backend) : Prop :=
  flushed_sessions L b /\ flushed_identities L b /\ flushed_sender_keys L b.

Lemma flush_sender_keys_ok L n :
  triple (fun e => Inv L n e /\ (flushed_sessions L (backend e) /\ flushed_identities L (backend e)))
    flush_sender_keys (fun _ e => Inv L n e /\ flushed L (backend e)) (Err L n).
Proof.
  eapply triple_bind; [apply triple_get|]. intros st. eapply triple_bind.
  { eapply triple_pre; [apply (sender_key_batch_ok L n st _ [])|]. intros e [[HI Hfl] Hst].
    split; [done|]. split; [done|]. by intros a ?%elem_of_nil. }
  intros batch. apply triple_pure. intros Hb. eapply triple_bind; [by apply write_sender_keys_ok|].
  intros [] e ([(Hs & Hi & Hk) HI] & (Hst & Hfl) & Hd). rewrite Hst in Hk.
  destruct (sender_unmark_ok _ _ _ Hk) as [Hok Heq].
  { intros a v Hin. apply Hd. cbn [app]. by rewrite elem_of_iter. }
  split; [|split; [apply Hfl|split; [apply Hfl|intros a; symmetry; apply Heq]]]. split; [|done]. split; [done|]. split; [done|].
  apply (sender_evict_ok _ _ _ (max_entries e)) in Hok.
  cbn [sender_keys set_sender_keys evict_sender_keys fst backend]. rewrite Hst. by rewrite unmarked.
Qed.
Lemma flush_ok L n : triple (Inv L n) flush (fun _ e => Inv L n e /\ flushed L (backend e)) (Err L n).
Proof.
  eapply triple_bind; [apply flush_sessions_ok|]. intros [].
  eapply triple_bind; [apply flush_identities_ok|]. intros []. apply flush_sender_keys_ok.
Qed.
End Flush.
