(* ===== verification/CacheRun.v ===== *)
(** * Runs of the cache

    What the operations of the cache promise together, from a process that starts on a
    backend it can read. *)

From stdpp Require Import prelude gmap.
From S2P Require Import Prelude SignalCache CacheCoherence CacheSlots CacheLedger CacheRefines CacheFlush.

#[local] Open Scope Z_scope.

(** The pre-keys that a sequence of operations consumes, with the address of the session. *)
Definition registered {R K} (ops : list (Op R K)) : gset (Z * bytes) :=
  list_to_set (omap (fun op => match op with RemovePrekey id a => Some (id, a) | _ => None end) ops).

(** The flush, tried again after each failure. *)
Fixpoint flush_until {R K} {CR : Codec R} {CK : Codec K} {HO : HashOrder} (k : nat) (e : @Env R K)
    : @Env R K * bool :=
  match flush e, k with
  | (e', Some _), _ => (e', true)
  | (e', None), O => (e', false)
  | (e', None), S k => flush_until k e'
  end.

Section Runs.
Context {R K : Type} {CR : Codec R} {CK : Codec K} {HO : HashOrder}.
Context {LR : CodecLaws R} {LK : CodecLaws K} {HL : HashOrderLaws}.

Abbreviation Env := (@Env R K).
Abbreviation Ledger := (Ledger R K).
Abbreviation Inv := (@Inv R K CR CK).
Abbreviation Err := (@Err R K CR CK).

Lemma triple_answer {A B} (P : Env -> Prop) (m : @Task R K A) (g : A -> B) Q Q' E :
  triple P m Q E -> (forall a e, Q a e -> Q' (g a) e) -> triple P (a ← m; mret (g a)) Q' E.
Proof. intros Hm HQ. eapply triple_bind; [done|]. intros a. apply triple_ret. auto. Qed.

(** With nothing cached, the ledger is what the backend holds. *)
Lemma empty_coherent (e : Env) :
  sessions e = mkSessions ∅ ∅ ∅ -> identities e = mkByteStore ∅ ∅ ∅ -> sender_keys e = mkSenderKeys ∅ ∅ ->
  @sound R K CR CK (backend e) -> coherent (ledger_of (backend e)) e.
Proof.
  intros Hs Hi Hk [Hr Hrk]. unfold coherent. rewrite Hs, Hi, Hk.
  split; [split; [done|]|split; [|split; [done|]]]; intros a;
    cbn [ledger_of l_sessions l_out l_identities l_sender_keys].
  - unfold entry_ok. cbn [s_cache s_dirty s_deleted]. rewrite lookup_empty, lookup_omap. set_solver.
  - cbn [i_cache i_dirty i_deleted]. rewrite lookup_empty. split; [|set_solver]. split; [done|set_solver].
  - cbn [k_cache k_dirty]. rewrite lookup_empty, lookup_omap. split; [|done]. split; [done|set_solver].
Qed.
Lemma coherent_sound L (e : Env) : coherent L e -> @sound R K CR CK (backend e).
Proof. intros ((Hr & _) & _ & Hrk & _). done. Qed.

Lemma clear_ok reg b0 L n (e : Env) : Inv reg b0 L n e -> Inv reg b0 (ledger_of (backend e)) n (fst (clear e)).
Proof.
  intros (Hco & (Hch & Hl & _) & Hb). split; [|split; [|done]].
  - apply (empty_coherent (fst (clear e))); [done|done|done|]. exact (coherent_sound L e Hco).
  - split; [done|]. split; [done|]. intros id a Hin.
    change ((∅ : gmap Z bytes) !! id = Some a) in Hin. by rewrite lookup_empty in Hin.
Qed.
Definition consumes (reg : gset (Z * bytes)) (op : Op R K) : Prop :=
  match op with RemovePrekey id a => (id, a) ∈ reg | _ => True end.

(** An operation answers as the ledger does, or fails and leaves it alone. *)
Lemma perform_ok reg b0 L n op (e : Env) :
  storable_op op -> consumes reg op -> Inv reg b0 L n e ->
  match perform op e with
  | (e', Some ans) => ans = snd (ledger_step (ledger_of (backend e)) op L)
      /\ Inv reg b0 (fst (ledger_step (ledger_of (backend e)) op L)) n e'
  | (e', None) => Err reg b0 L n e'
  end.
Proof.
  intros Hs Hreg HI. set (D := ledger_of (backend e)).
  enough (Ht : triple (fun e1 => e1 = e) (perform op) (fun ans e' => ans = snd (ledger_step D op L)
    /\ Inv reg b0 (fst (ledger_step D op L)) n e') (Err reg b0 L n)) by exact (Ht e eq_refl).
  destruct op; cbn [perform ledger_step fst snd];
    try (eapply triple_answer;
      [eapply triple_pre; [first
         [apply (get_session_ok reg b0)|apply (peek_session_ok reg b0)|apply (has_session_ok reg b0)
         |apply (put_session_ok reg b0); done|apply (delete_session_ok reg b0)
         |apply (get_identity_ok reg b0)|apply (put_identity_ok reg b0)|apply (delete_identity_ok reg b0)
         |apply (read_sender_key_ok reg b0)|apply (put_sender_key_ok reg b0); done|apply (delete_sender_key_ok reg b0)]
       |by intros ? ->]
      |cbn; naive_solver]).
  - intros ? ->. destruct HI as (Hco & (Hch & Hl & Hr) & Hb). split; [done|]. split; [done|]. split; [|done].
    split; [done|]. split; [done|]. intros id' a'. cbn. rewrite lookup_insert_Some. naive_solver.
  - eapply triple_answer; [eapply triple_pre; [apply (flush_ok reg b0)|by intros ? ->]|]. by intros [] e' [? _].
  - intros ? ->. split; [done|]. by apply (clear_ok _ _ L).
Qed.
Lemma fresh_ok reg b n fs :
  @sound R K CR CK b -> Inv reg b (ledger_of b) (bad fs) (fresh b n fs).
Proof.
  intros Hs. split; [|split; [|done]].
  - by apply (empty_coherent (fresh b n fs)).
  - split; [done|]. split; [done|]. intros id a Hin.
    change ((∅ : gmap Z bytes) !! id = Some a) in Hin. by rewrite lookup_empty in Hin.
Qed.
Lemma inv_faults reg b0 L n (e : Env) : Inv reg b0 L n e -> Inv reg b0 L (bad (faults e)) e.
Proof. intros (?&?&?). done. Qed.
Lemma err_inv reg b0 L n (e : Env) : Err reg b0 L n e -> Inv reg b0 L (bad (faults e)) e.
Proof. intros (?&?&?). done. Qed.

Lemma both_ok reg b0 ops : forall L n (e : Env),
  Forall storable_op ops -> Forall (consumes reg) ops -> Inv reg b0 L n e ->
  let s := both ops (L, e) in Inv reg b0 (fst s) (bad (faults (snd s))) (snd s).
Proof.
  induction ops as [|op ops IH]; intros L n e Hs Hreg HI; cbv zeta; [by eapply inv_faults|].
  apply Forall_cons in Hs as [Hop Hs]. apply Forall_cons in Hreg as [Hr Hreg].
  pose proof (perform_ok reg b0 L n op e Hop Hr HI) as Hp.
  change (both (op :: ops) (L, e)) with (both ops (both_step op (L, e))). unfold both_step. cbn [fst snd].
  destruct (perform op e) as [e' [ans|]].
  - apply (IH _ n); [done|done|]. apply Hp.
  - apply (IH _ (bad (faults e'))); [done|done|]. by eapply err_inv.
Qed.
Lemma consumes_registered (ops : list (Op R K)) : Forall (consumes (registered ops)) ops.
Proof.
  apply Forall_forall. intros op Hin. destruct op; try done. unfold consumes, registered.
  rewrite elem_of_list_to_set, list_elem_of_omap. by exists (RemovePrekey id a).
Qed.
Lemma follows_ok reg b0 ops : forall L (e : Env),
  Forall storable_op ops -> Forall (consumes reg) ops -> Inv reg b0 L (bad (faults e)) e -> follows ops L e.
Proof.
  induction ops as [|op ops IH]; intros L e Hs Hreg HI; cbn [follows]; [done|].
  apply Forall_cons in Hs as [Hop Hs]. apply Forall_cons in Hreg as [Hr Hreg].
  pose proof (perform_ok reg b0 L _ op e Hop Hr HI) as Hp. destruct (perform op e) as [e' [ans|]].
  - destruct (ledger_step (ledger_of (backend e)) op L) as [L' ans']. destruct Hp as [-> HI'].
    split; [done|]. apply IH; [done|done|]. by eapply inv_faults.
  - split; [apply Hp|]. apply IH; [done|done|]. by eapply err_inv.
Qed.
Lemma flush_until_ok reg b0 L k (e : Env) :
  sized L -> Inv reg b0 L (bad (faults e)) e -> (bad (faults e) <= k)%nat ->
  snd (flush_until k e) = true /\ flushed L (backend (fst (flush_until k e))).
Proof.
  intros Hsz. revert e. induction k as [|k IH]; intros e HI Hk;
    pose proof (flush_ok reg b0 L (bad (faults e)) e HI) as Hf; cbn [flush_until];
    destruct (flush e) as [e' [[]|]]; [split; [done|apply Hf]| |split; [done|apply Hf]|];
    destruct Hf as (Hco & Hcr & Hlt); specialize (Hlt Hsz); [lia|].
  apply IH; [done|lia].
Qed.

(** C5: whatever operations are performed and however the backend fails (refusing, or doing
    what it says it did not), the cache answers as the ledger does: a session that was put is
    the one found again, in the cache, evicted or flushed; one that is checked out is found
    by nobody else; an operation that fails changes nothing, and fails only because the
    backend did (or for an identity key of a wrong size); a cleared cache is what the backend
    holds. *)
Theorem cache_refines b n fs (ops : list (Op R K)) :
  @sound R K CR CK b -> Forall storable_op ops -> follows ops (ledger_of b) (fresh b n fs).
Proof.
  intros Hb Hops. apply (follows_ok (registered ops) b); [done|apply consumes_registered|]. by apply fresh_ok.
Qed.

(** C6: at every moment of every run, whether the operations fail or not, a one-time pre-key
    that leaves the backend had been consumed for some address, and the session of that
    address is in the backend already: the process may die at any point without losing the
    pre-key and the session both. *)
Theorem prekeys_handed_over b n fs (ops : list (Op R K)) :
  @sound R K CR CK b -> Forall storable_op ops ->
  chained (handed_over (registered ops)) b (history (snd (both ops (ledger_of b, fresh b n fs)))).
Proof.
  intros Hb Hops. apply (both_ok (registered ops) b ops (ledger_of b) (bad fs) (fresh b n fs));
    [done|apply consumes_registered|by apply fresh_ok].
Qed.

(** C37: as long as the identity keys have their size, a flush that is tried again after each
    failure succeeds, after no more failures than the backend has left; and then the backend
    holds the ledger: all but the sessions that are checked out survive the process. *)
Theorem flush_eventually b n fs (ops : list (Op R K)) :
  @sound R K CR CK b -> Forall storable_op ops ->
  let '(L, e) := both ops (ledger_of b, fresh b n fs) in
  sized L ->
  let '(e', ok) := flush_until (bad (faults e)) e in ok = true /\ flushed L (backend e').
Proof.
  intros Hb Hops. pose proof (both_ok (registered ops) b ops (ledger_of b) (bad fs) (fresh b n fs) Hops
    (consumes_registered ops) (fresh_ok _ b n fs Hb)) as HI. cbn zeta in HI.
  destruct (both ops (ledger_of b, fresh b n fs)) as [L e]. intros Hsz.
  pose proof (flush_until_ok _ _ L (bad (faults e)) e Hsz HI (le_n _)) as Hf.
  by destruct (flush_until (bad (faults e)) e).
Qed.
End Runs.

(** ** A concrete cache *)

#[local] Instance tiny_codec : Codec Z := {|
  serialize := fun r => [r];
  deserialize := fun v => match v with [r] => Some r | _ => None end;
  storable := fun _ => True
|}.
#[local] Instance tiny_codec_laws : CodecLaws Z.
Proof. intros r _. done. Qed.
#[local] Instance sorted_order : HashOrder := {| iter := elements; iter_prekeys := map_to_list |}.
#[local] Instance sorted_order_laws : HashOrderLaws.
Proof. by split. Qed.

(** A pre-key message makes the session of address [1] with pre-key [7]; the session is out
    during a flush, which defers the pre-key; the backend fails four times. *)
Definition tiny_backend : Backend := mkBackend {[ [2] := [20] ]} ∅ ∅ {[ 7 := [70] ]}.
Definition tiny_ops : list (Op Z Z) :=
  [HasSession [1]; PutSession [1] 10; RemovePrekey 7 [1]; GetSession [1]; Flush; PeekSession [1];
   PutSession [1] 11; PutIdentity [1] (replicate 32 5); Flush; GetSession [2]; PutSenderKey [3] 30].
Definition tiny_faults : list Fault := [Fine; Fine; Unconfirmed; Refused; Refused; Unconfirmed].

Lemma tiny_sound : @sound Z Z tiny_codec tiny_codec tiny_backend.
Proof. split; [|apply map_Forall_empty]. apply map_Forall_singleton. by exists 20. Qed.
Lemma tiny_storable : Forall storable_op tiny_ops.
Proof. by repeat constructor. Qed.

Lemma cache_refines_witness :
  Forall storable_op tiny_ops /\ follows tiny_ops (ledger_of tiny_backend) (fresh tiny_backend 2 tiny_faults).
Proof.
  split; [exact tiny_storable|].
  exact (cache_refines tiny_backend 2 tiny_faults tiny_ops tiny_sound tiny_storable).
Defined.
(** The pre-key is still there after the first flush and gone after the second. *)
Lemma prekeys_handed_over_witness :
  b_prekeys (backend (snd (both (take 5 tiny_ops) (ledger_of tiny_backend, fresh tiny_backend 2 [])))) !! 7 = Some [70]
  /\ b_prekeys (backend (snd (both tiny_ops (ledger_of tiny_backend, fresh tiny_backend 2 [])))) !! 7 = None
  /\ chained (handed_over (registered tiny_ops)) tiny_backend
       (history (snd (both tiny_ops (ledger_of tiny_backend, fresh tiny_backend 2 [])))).
Proof.
  split; [by vm_compute|]. split; [by vm_compute|].
  exact (prekeys_handed_over tiny_backend 2 [] tiny_ops tiny_sound tiny_storable).
Defined.

(** Two failures are left: the third flush succeeds. *)
Lemma flush_eventually_witness :
  bad (faults (snd (both tiny_ops (ledger_of tiny_backend, fresh tiny_backend 2 tiny_faults)))) = 2%nat
  /\ let '(L, e) := both tiny_ops (ledger_of tiny_backend, fresh tiny_backend 2 tiny_faults) in
     sized L /\ let '(e', ok) := flush_until (bad (faults e)) e in ok = true /\ flushed L (backend e').
Proof.
  split; [by vm_compute|].
  pose proof (flush_eventually tiny_backend 2 tiny_faults tiny_ops tiny_sound tiny_storable) as H.
  assert (Hsz : sized (fst (both tiny_ops (ledger_of tiny_backend, fresh tiny_backend 2 tiny_faults)))).
  { apply (bool_decide_eq_true_1 (sized _)). by vm_compute. }
  destruct (both tiny_ops (ledger_of tiny_backend, fresh tiny_backend 2 tiny_faults)) as [L e].
  split; [exact Hsz|exact (H Hsz)].
Defined.

(** ** A read that comes late

    A peek that misses asks the backend with no lock held.  Before it records what it was
    told, another task may have used the session, put it back and flushed it, and the cache
    may have been cleared: the peek then caches the session of before, as clean. *)
Definition late_ops : list (Op Z Z) := [GetSession [2]; PutSession [2] 21; Flush; Clear].
Definition late_peek : @Env Z Z :=
  let e := snd (both late_ops (ledger_of tiny_backend, fresh tiny_backend 2 [])) in
  fst (peek_session_populate [2] (b_sessions tiny_backend !! ([2] : bytes)) e).
Example late_peek_is_stale :
  snd (peek_session [2] late_peek) = Some (Some 20) /\ durable (backend late_peek) [2] = Some 21.
Proof. split; by vm_compute. Qed.
