(* ===== verification/CacheBounds.v ===== *)
(** * The cache stays small

    Entries that a flush still has to write, and sessions that are checked out, cannot be
    evicted.  All the others are at most [high_watermark max_entries] in each store, at every
    moment of every run. *)

From stdpp Require Import prelude gmap.
From S2P Require Import Prelude SignalCache CacheCoherence CacheLedger CacheRun.

#[local] Open Scope Z_scope.

Section Bounds.
Context {R K : Type} {CR : Codec R} {CK : Codec K} {HO : HashOrder} {HL : HashOrderLaws}.

Abbreviation Env := (@Env R K).
Abbreviation Task := (@Task R K).

(** ** What can be evicted *)

Definition evictable_sessions (st : SessionStoreState R) : gmap bytes (SessionEntry R) :=
  filter (fun kv => kv.1 ∉ s_dirty st /\ kv.1 ∉ s_deleted st /\ is_checked_out (Some kv.2) = false) (s_cache st).
Definition evictable_slots {V} (cache : gmap bytes (option V)) (dirty deleted : gset bytes)
    : gmap bytes (option V) :=
  filter (fun kv => kv.1 ∉ dirty /\ kv.1 ∉ deleted) cache.
Definition bounded (e : Env) : Prop :=
  let limit := high_watermark (max_entries e) in
  msize (evictable_sessions (sessions e)) <= limit
  /\ msize (evictable_slots (i_cache (identities e)) (i_dirty (identities e)) (i_deleted (identities e))) <= limit
  /\ msize (evictable_slots (k_cache (sender_keys e)) (k_dirty (sender_keys e)) ∅) <= limit.

(** ** Eviction *)

Lemma msize_sub {V} (m m' : gmap bytes V) : (forall a : bytes, is_Some (m !! a) -> is_Some (m' !! a)) -> msize m <= msize m'.
Proof.
  intros H. unfold msize. rewrite <- !size_dom. apply Nat2Z.inj_le, subseteq_size.
  intros a. rewrite !elem_of_dom. apply H.
Qed.
Lemma high_watermark_ge n : 0 <= n < 2 ^ 64 -> n <= high_watermark n.
Proof. unfold high_watermark, EVICTION_SLACK_DIVISOR, EVICTION_SLACK_FLOOR. lia. Qed.
(** Of the keys [l] of the cache, all but the first are left. *)
Lemma trimmed {V} (cache left : gmap bytes V) (l : list bytes) (n : Z) :
  NoDup l -> (forall a, a ∈ l -> is_Some (cache !! a)) -> 0 <= n <= msize cache ->
  (forall a : bytes, is_Some (left !! a) -> a ∈ drop (Z.to_nat (msize cache - n)) l) -> msize left <= n.
Proof.
  intros Hl Hin Hn Hleft. set (k := Z.to_nat (msize cache - n)) in *.
  assert (H1 : (length l <= size cache)%nat).
  { rewrite <- size_dom, <- (size_list_to_set (C := gset bytes) l Hl). apply subseteq_size.
    intros a. rewrite elem_of_list_to_set, elem_of_dom. apply Hin. }
  assert (H2 : (size left <= length (drop k l))%nat).
  { rewrite <- size_dom. rewrite <- (size_list_to_set (C := gset bytes) (drop k l)).
    - apply subseteq_size. intros a. rewrite elem_of_list_to_set, elem_of_dom. apply Hleft.
    - eapply sublist_NoDup; [exact Hl|apply sublist_drop]. }
  rewrite length_drop in H2. unfold msize in *. lia.
Qed.
(** The keys that hold and those that do not, one after the other. *)
Lemma keys_split_nodup {V} (p q : V -> bool) (keys : list bytes) (m : gmap bytes V) :
  NoDup keys -> (forall v, p v = true -> q v = true -> False) -> NoDup (keys_where p keys m ++ keys_where q keys m).
Proof.
  intros Hk Hpq. apply NoDup_app. split; [by apply NoDup_filter|]. split; [|by apply NoDup_filter].
  intros a. rewrite !keys_where_elem. intros [_ (v & Hv & Hp)] [_ (v' & Hv' & Hq)]. simplify_eq. eauto.
Qed.
Lemma removed_left {V} (m : gmap bytes V) (l : list bytes) k (a : bytes) :
  a ∈ l -> is_Some (remove_all (take k l) m !! a) -> a ∈ drop k l.
Proof.
  rewrite remove_all_lookup. intros Hin Hs. rewrite <- (take_drop k l) in Hin.
  apply elem_of_app in Hin as [Hin|Hin]; [|done]. rewrite decide_True in Hs by done. by destruct Hs.
Qed.

Lemma session_evict_bound (st : SessionStoreState R) n :
  0 <= n < 2 ^ 64 -> msize (evictable_sessions (session_evict_if_needed st n)) <= high_watermark n.
Proof.
  intros Hn. pose proof (high_watermark_ge n Hn). unfold session_evict_if_needed. destruct (_ <=? _) eqn:Hle.
  - apply Z.leb_le in Hle. etrans; [|exact Hle]. apply msize_sub. intros a [v Hv].
    apply map_lookup_filter_Some in Hv as [Hv _]. eauto.
  - apply Z.leb_gt in Hle. etrans; [|eassumption]. unfold evictable_sessions. cbn [s_cache s_dirty s_deleted].
    set (clean := filter _ (iter _)). set (l := _ ++ _).
    assert (Hclean : NoDup clean) by apply NoDup_filter, iter_nodup.
    apply (trimmed (s_cache st) _ l n); [| |lia|].
    + apply keys_split_nodup; [done|]. by intros [].
    + intros a Hin. apply elem_of_app in Hin as [Hin|Hin]; apply keys_where_elem in Hin as [_ (v & Hv & _)]; eauto.
    + intros a [v Hv]. apply map_lookup_filter_Some in Hv as [Hv (Hd & Hx & Hc)]. cbn in Hd, Hx, Hc.
      eapply removed_left; [|eauto]. rewrite remove_all_lookup in Hv. case_decide; [done|].
      assert (Hin : a ∈ clean).
      { apply list_elem_of_filter. split; [done|]. rewrite elem_of_iter, elem_of_dom. eauto. }
      apply elem_of_app. rewrite !keys_where_elem. destruct v; [right|left|done]; eauto.
Qed.
Lemma slot_evict_bound {V} (cache : gmap bytes (option V)) dirty deleted n :
  0 <= n < 2 ^ 64 ->
  msize (evictable_slots (evict_clean_entries cache dirty deleted n) dirty (default ∅ deleted)) <= high_watermark n.
Proof.
  intros Hn. pose proof (high_watermark_ge n Hn). unfold evict_clean_entries. destruct (_ <=? _) eqn:Hle.
  - apply Z.leb_le in Hle. etrans; [|exact Hle]. apply msize_sub. intros a [v Hv].
    apply map_lookup_filter_Some in Hv as [Hv _]. eauto.
  - apply Z.leb_gt in Hle. etrans; [|eassumption]. unfold evictable_slots.
    set (clean := filter _ (iter _)). set (l := _ ++ _).
    assert (Hclean : NoDup clean) by apply NoDup_filter, iter_nodup.
    apply (trimmed cache _ l n); [| |lia|].
    + apply keys_split_nodup; [done|]. by intros [].
    + intros a Hin. apply elem_of_app in Hin as [Hin|Hin]; apply keys_where_elem in Hin as [_ (v & Hv & _)]; eauto.
    + intros a [v Hv]. apply map_lookup_filter_Some in Hv as [Hv (Hd & Hx)]. cbn in Hd, Hx.
      eapply removed_left; [|eauto]. rewrite remove_all_lookup in Hv. case_decide; [done|].
      assert (Hin : a ∈ clean).
      { apply list_elem_of_filter. split; [done|]. rewrite elem_of_iter, elem_of_dom. eauto. }
      apply elem_of_app. rewrite !keys_where_elem. destruct v; [right|left]; eauto.
Qed.

(** ** Every operation *)

Definition small (n : Z) (e : Env) : Prop := max_entries e = n /\ bounded e.
Definition stays (n : Z) {A} (m : Task A) : Prop := triple (small n) m (fun _ => small n) (small n).

Section Stays.
Context (n : Z) (Hn : 0 <= n < 2 ^ 64).

Lemma stays_bind {A B} (m : Task A) (f : A -> Task B) : stays n m -> (forall a, stays n (f a)) -> stays n (m ≫= f).
Proof. intros Hm Hf. by eapply triple_bind. Qed.
Lemma stays_ret {A} (a : A) : stays n (mret a).
Proof. by apply triple_ret. Qed.
Lemma stays_get {A} (f : Env -> A) : stays n (get_env f).
Proof. by intros e He. Qed.
Lemma stays_option {A} (o : option A) : stays n (of_option o).
Proof. intros e He. by destruct o. Qed.
Lemma stays_op {A} (f : Backend -> Backend * A) : stays n (backend_op f).
Proof.
  intros e He. unfold backend_op. destruct (faults e) as [|[] fs], (f (backend e)); exact He.
Qed.
Lemma stays_each {A} (f : A -> Task unit) l : (forall a, stays n (f a)) -> stays n (each f l).
Proof.
  intros Hf. induction l as [|a l IH]; cbn [each]; [apply stays_ret|]. apply stays_bind; [apply Hf|]. by intros [].
Qed.
(** A change of a store followed by an eviction. *)
Lemma stays_sessions {A} f (m : Task A) : stays n m -> stays n (_ ← set_sessions f; _ ← evict_sessions; m).
Proof.
  intros Hm e [He (Hs & Hi & Hk)]. apply Hm. split; [done|]. split; [|done].
  cbn [sessions max_entries]. rewrite He. by apply session_evict_bound.
Qed.
Lemma stays_identities {A} f (m : Task A) : stays n m -> stays n (_ ← set_identities f; _ ← evict_identities; m).
Proof.
  intros Hm e [He (Hs & Hi & Hk)]. apply Hm. split; [done|]. split; [done|]. split; [|done].
  cbn [identities max_entries]. rewrite He.
  apply (slot_evict_bound _ _ (Some (i_deleted (f (identities e))))). done.
Qed.
Lemma stays_sender_keys {A} f (m : Task A) : stays n m -> stays n (_ ← set_sender_keys f; _ ← evict_sender_keys; m).
Proof.
  intros Hm e [He (Hs & Hi & Hk)]. apply Hm. split; [done|]. split; [done|]. split; [done|].
  cbn [sender_keys max_entries]. rewrite He. by apply (slot_evict_bound _ _ None).
Qed.
(** The same, with nothing after it. *)
Lemma stays_sessions_end f : stays n (_ ← set_sessions f; evict_sessions).
Proof. exact (stays_sessions f (mret tt) (stays_ret tt)). Qed.
Lemma stays_identities_end f : stays n (_ ← set_identities f; evict_identities).
Proof. exact (stays_identities f (mret tt) (stays_ret tt)). Qed.
Lemma stays_sender_keys_end f : stays n (_ ← set_sender_keys f; evict_sender_keys).
Proof. exact (stays_sender_keys f (mret tt) (stays_ret tt)). Qed.
Lemma stays_check_out a : stays n (set_sessions (fun st => set_entry st a CheckedOut)).
Proof.
  intros e [He (Hs & Hi & Hk)]. split; [done|]. split; [|done]. etrans; [|exact Hs].
  apply msize_sub. intros a' [v Hv]. unfold evictable_sessions in *. cbn in Hv.
  apply map_lookup_filter_Some in Hv as [Hv (? & ? & Hc)]. cbn in *.
  apply lookup_insert_Some in Hv as [[<- <-]|[_ Hv]]; [done|].
  exists v. by apply map_lookup_filter_Some.
Qed.
Lemma stays_delete_session a : stays n (delete_session a).
Proof.
  intros e [He (Hs & Hi & Hk)]. split; [done|]. split; [|done]. etrans; [|exact Hs].
  apply msize_sub. intros a' [v Hv]. unfold evictable_sessions in *. cbn in Hv.
  apply map_lookup_filter_Some in Hv as [Hv (? & ? & Hc)]. cbn in *.
  apply lookup_insert_Some in Hv as [[<- <-]|[Hne Hv]]; [set_solver|].
  exists v. apply map_lookup_filter_Some. set_solver.
Qed.
Lemma stays_delete_identity a : stays n (delete_identity a).
Proof.
  intros e [He (Hs & Hi & Hk)]. split; [done|]. split; [done|]. split; [|done]. etrans; [|exact Hi].
  apply msize_sub. intros a' [v Hv]. unfold evictable_slots in *. cbn in Hv.
  apply map_lookup_filter_Some in Hv as [Hv (? & ?)]. cbn in *.
  apply lookup_insert_Some in Hv as [[<- <-]|[Hne Hv]]; [set_solver|].
  exists v. apply map_lookup_filter_Some. set_solver.
Qed.
Lemma stays_delete_sender_key a : stays n (delete_sender_key a).
Proof.
  intros e [He (Hs & Hi & Hk)]. split; [done|]. split; [done|]. split; [done|]. etrans; [|exact Hk].
  apply msize_sub. intros a' [v Hv]. unfold evictable_slots in *. cbn in Hv.
  apply map_lookup_filter_Some in Hv as [Hv (? & ?)]. cbn in *.
  apply lookup_insert_Some in Hv as [[<- <-]|[Hne Hv]]; [set_solver|].
  exists v. apply map_lookup_filter_Some. set_solver.
Qed.
Lemma stays_removed f : stays n (set_removed f).
Proof. by intros e He. Qed.
Lemma empty_small removed b h fs :
  small n (mkEnv (mkSessions ∅ ∅ ∅) (mkByteStore ∅ ∅ ∅) (mkSenderKeys ∅ ∅) removed n b h fs).
Proof.
  split; [done|]. pose proof (high_watermark_ge n Hn). unfold bounded, evictable_sessions, evictable_slots.
  cbn [max_entries sessions identities sender_keys s_cache i_cache k_cache]. rewrite !map_filter_empty.
  unfold msize. rewrite !map_size_empty. lia.
Qed.
Lemma stays_clear : stays n clear.
Proof. intros e [He _]. pose proof (empty_small ∅ (backend e) (history e) (faults e)) as H. by rewrite <- He in H |- *. Qed.

Ltac stays :=
  repeat (cbv zeta; lazymatch goal with
  | |- stays _ (mret _) => apply stays_ret
  | |- stays _ (get_env _) => apply stays_get
  | |- stays _ (of_option _) => apply stays_option
  | |- stays _ (read _) => apply stays_op
  | |- stays _ (write _) => apply stays_op
  | |- stays _ (set_removed _) => apply stays_removed
  | |- stays _ (mbind (fun _ => evict_sessions) (set_sessions _)) => apply stays_sessions_end
  | |- stays _ (mbind (fun _ => evict_identities) (set_identities _)) => apply stays_identities_end
  | |- stays _ (mbind (fun _ => evict_sender_keys) (set_sender_keys _)) => apply stays_sender_keys_end
  | |- stays _ (mbind (fun _ => mbind _ evict_sessions) (set_sessions _)) => apply stays_sessions
  | |- stays _ (mbind (fun _ => mbind _ evict_identities) (set_identities _)) => apply stays_identities
  | |- stays _ (mbind (fun _ => mbind _ evict_sender_keys) (set_sender_keys _)) => apply stays_sender_keys
  | |- stays _ (set_sessions (fun st => set_entry st _ CheckedOut)) => apply stays_check_out
  | |- stays _ (each _ _) => apply stays_each; intros
  | |- stays _ (mbind _ _) => apply stays_bind; [|intros]
  | |- stays _ (match ?x with _ => _ end) => destruct x
  end).

Lemma stays_deletable l : stays n (deletable l).
Proof. induction l as [|[id a] l IH]; cbn [deletable]; stays; exact IH. Qed.
Lemma stays_sender_key_batch st l : stays n (sender_key_batch st l).
Proof. induction l as [|a l IH]; cbn [sender_key_batch]; stays; exact IH. Qed.
Lemma stays_flush : stays n flush.
Proof.
  unfold flush, flush_sessions, flush_identities, flush_sender_keys.
  stays; (apply stays_deletable || apply stays_sender_key_batch).
Qed.
Lemma stays_perform op : stays n (perform op).
Proof.
  destruct op; cbn [perform]; (apply stays_bind; [|intros; apply stays_ret]);
    unfold get_session, get_session_populate, peek_session, peek_session_populate, has_session, put_session,
      get_identity, get_identity_populate, put_identity, get_sender_key, put_sender_key, remove_prekey;
    stays; auto using stays_delete_session, stays_delete_identity, stays_delete_sender_key, stays_flush, stays_clear.
Qed.
Lemma small_both ops : forall L (e : Env), small n e -> small n (snd (both ops (L, e))).
Proof.
  induction ops as [|op ops IH]; intros L e He; [done|].
  change (both (op :: ops) (L, e)) with (both ops (both_step op (L, e))). unfold both_step. cbn [fst snd].
  pose proof (stays_perform op e He) as Hp. destruct (perform op e) as [e' []]; by apply IH.
Qed.
End Stays.

(** C38: at every moment of every run, and whichever operations fail, at most
    [high_watermark max_entries] entries of each store are clean, that is neither waiting for
    a flush nor checked out: the cache does not grow with the number of addresses it has been
    asked about. *)
Theorem cache_bounded b n fs (ops : list (Op R K)) :
  0 <= n < 2 ^ 64 -> bounded (snd (both ops (ledger_of b, fresh b n fs))).
Proof.
  intros Hn. apply (small_both n Hn). by apply empty_small.
Qed.
End Bounds.

(** Forty addresses asked about, with room for one and the slack: five are cached in the end. *)
#[local] Existing Instance tiny_codec.
#[local] Existing Instance sorted_order.
Definition many_ops : list (Op Z Z) := (fun i => HasSession [Z.of_nat i]) <$> seq 0 40.
Lemma cache_bounded_witness :
  let e := snd (both many_ops (ledger_of tiny_backend, fresh tiny_backend 1 [])) in
  high_watermark 1 = 17 /\ msize (evictable_sessions (sessions e)) = 5 /\ bounded e.
Proof.
  split; [done|]. split; [by vm_compute|].
  apply (cache_bounded (HL := sorted_order_laws) tiny_backend 1 [] many_ops). lia.
Defined.
