(* ===== verification/NamedLocks.v ===== *)
(** * The locks of the sender-key chains

    [shared_named_lock] of [wacore/src/store/signal_cache.rs] and its two users.  A lock is
    known by the number of its allocation; [handles] is who holds an [Arc] of it besides the
    table, each with the name it was asked under, so that [Arc::strong_count] is one more than
    the handles of the lock.  The table drops the locks nobody holds once it is large. *)

From stdpp Require Import prelude gmap.
From S2P Require Import Prelude SignalCache.

#[local] Open Scope Z_scope.

Record LockTable : Type := mkLocks {
  table : gmap bytes Z; handles : list (bytes * Z); allocated : Z
}.
Definition no_locks : LockTable := mkLocks ∅ [] 0.

Definition strong_count (t : LockTable) (lock : Z) : Z :=
  1 + Z.of_nat (length (filter (fun h => h.2 = lock) (handles t))).
Definition shared_named_lock (max_entries : Z) (key : bytes) (t : LockTable) : LockTable * Z :=
  match table t !! key with
  | Some lock => (mkLocks (table t) ((key, lock) :: handles t) (allocated t), lock)
  | None =>
      let kept :=
        if max_entries <=? msize (table t)
        then filter (fun kv => 1 < strong_count t kv.2) (table t)
        else table t in
      let lock := allocated t in
      (mkLocks (<[key := lock]> kept) ((key, lock) :: handles t) (allocated t + 1), lock)
  end.
Definition sender_key_lock (max_entries : Z) (cache_key : bytes) (t : LockTable) : LockTable * Z :=
  shared_named_lock max_entries cache_key t.
(** ["::setup"] *)
Definition setup_suffix : bytes := [58; 58; 115; 101; 116; 117; 112].
Definition session_setup_lock (max_entries : Z) (cache_key : bytes) (t : LockTable) : LockTable * Z :=
  shared_named_lock max_entries (cache_key ++ setup_suffix) t.

(** What the tasks do: ask for a lock, let go of a handle. *)
Inductive LockOp : Type := ChainLock (cache_key : bytes) | SetupLock (cache_key : bytes) | DropHandle (i : nat).
Definition lock_step (max_entries : Z) (op : LockOp) (t : LockTable) : LockTable :=
  match op with
  | ChainLock k => fst (sender_key_lock max_entries k t)
  | SetupLock k => fst (session_setup_lock max_entries k t)
  | DropHandle i => mkLocks (table t) (take i (handles t) ++ drop (S i) (handles t)) (allocated t)
  end.
Definition lock_run (max_entries : Z) (ops : list LockOp) : LockTable :=
  fold_left (fun t op => lock_step max_entries op t) ops no_locks.

(** ** What is held is in the table *)

Definition locks_ok (t : LockTable) : Prop :=
  (forall (k : bytes) i, (k, i) ∈ handles t -> table t !! k = Some i)
  /\ (forall (k k' : bytes) i, table t !! k = Some i -> table t !! k' = Some i -> k = k')
  /\ (forall (k : bytes) i, table t !! k = Some i -> i < allocated t).

Lemma held_counts t k i : (k, i) ∈ handles t -> 1 < strong_count t i.
Proof.
  intros Hin. unfold strong_count.
  assert (H : (k, i) ∈ filter (fun h => h.2 = i) (handles t)) by by apply list_elem_of_filter.
  destruct (filter _ _); [by apply elem_of_nil in H|]. cbn [length]. lia.
Qed.
Lemma shared_named_lock_ok n key t : locks_ok t -> locks_ok (fst (shared_named_lock n key t)).
Proof.
  intros (Hh & Hi & Ha). unfold shared_named_lock. destruct (table t !! key) as [lock|] eqn:Hk; cbn [fst].
  - split; [|done]. intros k i Hin. cbn in Hin. apply elem_of_cons in Hin as [[= -> ->]|Hin]; [done|by apply Hh].
  - set (kept := if _ : bool then _ else _).
    assert (Hkept : forall (k : bytes) i, kept !! k = Some i -> table t !! k = Some i).
    { intros k i. unfold kept. destruct (_ <=? _); [|done]. by intros [? _]%map_lookup_filter_Some. }
    assert (Hheld : forall (k : bytes) i, (k, i) ∈ handles t -> kept !! k = Some i).
    { intros k i Hin. unfold kept. destruct (_ <=? _); [|by apply Hh]. apply map_lookup_filter_Some.
      split; [by apply Hh|]. by eapply held_counts. }
    split; [|split]; cbn [table handles allocated].
    + intros k i Hin. apply elem_of_cons in Hin as [[= -> ->]|Hin]; [apply lookup_insert_eq|].
      rewrite lookup_insert_ne; [by apply Hheld|]. intros ->. apply Hh in Hin. by rewrite Hk in Hin.
    + intros k k' i Hki Hki'. apply lookup_insert_Some in Hki as [[<- <-]|[Hne Hki]];
        apply lookup_insert_Some in Hki' as [[<- Heq]|[Hne' Hki']]; [done| | |by eapply Hi; apply Hkept].
      * apply Hkept, Ha in Hki'. lia.
      * apply Hkept, Ha in Hki. lia.
    + intros k i Hki. apply lookup_insert_Some in Hki as [[<- <-]|[_ Hki]]; [lia|]. apply Hkept, Ha in Hki. lia.
Qed.
Lemma lock_step_ok n op t : locks_ok t -> locks_ok (lock_step n op t).
Proof.
  intros Ht. destruct op; [by apply shared_named_lock_ok|by apply shared_named_lock_ok|].
  destruct Ht as [Hh Ht]. split; [|done]. intros k i' Hin. apply Hh. cbn in Hin.
  apply elem_of_app in Hin as [Hin|Hin]; [eapply elem_of_sublist; [exact Hin|apply sublist_take]|].
  eapply elem_of_sublist; [exact Hin|apply sublist_drop].
Qed.
Lemma lock_run_ok n ops : locks_ok (lock_run n ops).
Proof.
  unfold lock_run. assert (H0 : locks_ok no_locks).
  { split; [|split]; cbn; [by intros k i ?%elem_of_nil| |]; intros k; by rewrite lookup_empty. }
  revert H0. generalize no_locks. induction ops as [|op ops IH]; intros t Ht; [done|]. cbn.
  by apply IH, lock_step_ok.
Qed.

(** Whatever is asked for and let go, and however often the table drops its idle locks,
    two tasks that hold a lock hold the same one exactly when they asked under the same name:
    no two tasks are ever inside one chain, and no chain waits for another. *)
Lemma named_locks_exclusive n ops (k k' : bytes) i i' :
  (k, i) ∈ handles (lock_run n ops) -> (k', i') ∈ handles (lock_run n ops) -> k = k' <-> i = i'.
Proof.
  destruct (lock_run_ok n ops) as (Hh & Hi & _). intros H H'. apply Hh in H, H'. split.
  - intros <-. rewrite H in H'. by simplify_eq.
  - intros <-. by eapply Hi.
Qed.
Lemma named_locks_exclusive_witness :
  let ops := [ChainLock [1]; ChainLock [2]; DropHandle 0; SetupLock [1]; ChainLock [1]] in
  table (lock_run 1 ops) !! ([2] : bytes) = None
  /\ handles (lock_run 1 ops) = [([1], 0); ([1] ++ setup_suffix, 2); ([1], 0)]
  /\ (([1] : bytes) = [1] ++ setup_suffix <-> 0 = 2).
Proof.
  split; [by vm_compute|]. split; [by vm_compute|].
  apply (named_locks_exclusive 1 [ChainLock [1]; ChainLock [2]; DropHandle 0; SetupLock [1]; ChainLock [1]]);
    vm_compute; [left|right; left].
Defined.
