(* ===== verification/Handshake.v ===== *)
(** * The Noise handshakes

    [wacore/noise/src/handshake.rs]: the client's side of XX (first connection), IK
    (reconnection with a cached key of the server) and XXfallback (a rejected IK that goes on
    as XX), and the check of the server's certificate chain.  The other side is the responder
    of the file's own tests, which completes each pattern as the server does.

    Protobuf is the class [HandshakeProto].  The texts of errors are left out.  A method that
    fails keeps the state it has reached; [unwrap] and [expect] are [Panic]. *)

From stdpp Require Import prelude strings.
From S2P Require Import Prelude Noise Curve.

#[local] Open Scope Z_scope.

(** ** Messages *)

Record ClientHello : Type := mkClientHello {
  ch_ephemeral : option bytes; ch_static : option bytes; ch_payload : option bytes
}.
Record ServerHello : Type := mkServerHello {
  sh_ephemeral : option bytes; sh_static : option bytes; sh_payload : option bytes
}.
Record ClientFinish : Type := mkClientFinish { cf_static : option bytes; cf_payload : option bytes }.
Record HandshakeMessage : Type := mkHandshakeMessage {
  client_hello : option ClientHello; server_hello : option ServerHello; client_finish : option ClientFinish
}.
Record NoiseCertificate : Type := mkCertificate { cert_details : option bytes; cert_signature : option bytes }.
Record CertChain : Type := mkCertChain {
  cc_leaf : option NoiseCertificate; cc_intermediate : option NoiseCertificate
}.
Record Details : Type := mkDetails {
  d_serial : option Z; d_issuer_serial : option Z; d_key : option bytes;
  d_not_before : option Z; d_not_after : option Z
}.

Class HandshakeProto : Type := {
  handshake_encode : HandshakeMessage -> bytes;
  handshake_decode : bytes -> option HandshakeMessage;
  cert_chain_encode : CertChain -> bytes;
  cert_chain_decode : bytes -> option CertChain;
  details_encode : Details -> bytes;
  details_decode : bytes -> option Details
}.
(** The bytes that a message carries. *)
Definition field_size (f : option bytes) : Z := match f with Some b => zlen b | None => 0 end.
Definition message_size (m : HandshakeMessage) : Z :=
  match client_hello m with
  | Some h => field_size (ch_ephemeral h) + field_size (ch_static h) + field_size (ch_payload h)
  | None => 0
  end
  + match server_hello m with
    | Some h => field_size (sh_ephemeral h) + field_size (sh_static h) + field_size (sh_payload h)
    | None => 0
    end
  + match client_finish m with Some f => field_size (cf_static f) + field_size (cf_payload f) | None => 0 end.
(** Decoding inverts encoding; a field costs its bytes, a tag and a length. *)
Class HandshakeProtoLaws {HP : HandshakeProto} : Prop := {
  handshake_roundtrip m : handshake_decode (handshake_encode m) = Some m;
  handshake_size m : zlen (handshake_encode m) <= message_size m + 64;
  cert_chain_roundtrip c : cert_chain_decode (cert_chain_encode c) = Some c;
  details_roundtrip d : details_decode (details_encode d) = Some d
}.
(** [cfg!(test) || cfg!(feature = "danger-skip-cert-chain-verify")] *)
Class BuildConfig : Type := skip_cert_chain_verify : bool.

(** ** Constants *)

(** A name padded with four zero bytes. *)
Definition NOISE_PATTERN_XX : bytes := str "Noise_XX_25519_AESGCM_SHA256" ++ replicate 4 0.
Definition NOISE_PATTERN_IK : bytes := str "Noise_IK_25519_AESGCM_SHA256" ++ replicate 4 0.
Definition NOISE_PATTERN_XXFALLBACK : bytes := str "Noise_XXfallback_25519_AESGCM_SHA256".
Definition WA_CERT_ISSUER_SERIAL : Z := 0.
Definition WA_CERT_PUB_KEY : bytes := [
  0x14; 0x23; 0x75; 0x57; 0x4d; 0x0a; 0x58; 0x71; 0x66; 0xaa; 0xe7; 0x1e; 0xbe; 0x51; 0x64; 0x37;
  0xc4; 0xa2; 0x8b; 0x73; 0xe3; 0x69; 0x5c; 0x6c; 0xe1; 0xf7; 0xf9; 0x54; 0x5d; 0xa8; 0xee; 0x6b].

Record VerifiedServerCertChain : Type := mkVerified {
  intermediate_key : bytes; intermediate_not_before : Z; intermediate_not_after : Z;
  leaf_key : bytes; leaf_not_before : Z; leaf_not_after : Z
}.

(** [u64 as i64] *)
Definition as_i64 (z : Z) : Z := if z <? 2 ^ 63 then z else z - 2 ^ 64.

Section Handshake.
Context {C : Crypto} {DK : Dalek} {HP : HandshakeProto} {BC : BuildConfig}.

Inductive HandshakeError : Type :=
  | ProtoDecode
  | IncompleteResponse
  | CryptoFailed
  | CertVerification
  | InvalidLength (expected got : Z)
  | InvalidKeyLength
  | NoiseFailed (e : NoiseError).

(** [try_into::<[u8; 32]>] *)
Definition array32 {E} (b : bytes) (e : E) : outcome E bytes :=
  if zlen b =? 32 then Ok b else Err e.

(** ** Messages and certificates *)

Definition build_client_hello (ephemeral_key : bytes) : HandshakeMessage :=
  mkHandshakeMessage (Some (mkClientHello (Some ephemeral_key) None None)) None None.
Definition build_ik_client_hello (ephemeral_key encrypted_static encrypted_payload : bytes) : HandshakeMessage :=
  mkHandshakeMessage
    (Some (mkClientHello (Some ephemeral_key) (Some encrypted_static) (Some encrypted_payload))) None None.
Definition build_client_finish (encrypted_pubkey encrypted_payload : bytes) : HandshakeMessage :=
  mkHandshakeMessage None None (Some (mkClientFinish (Some encrypted_pubkey) (Some encrypted_payload))).

Definition parse_server_hello_body (response_bytes : bytes) : outcome HandshakeError ServerHello :=
  handshake_response ← ok_or (handshake_decode response_bytes) ProtoDecode;
  hello ← ok_or (server_hello handshake_response) IncompleteResponse;
  match sh_ephemeral hello with
  | Some ephemeral => if zlen ephemeral =? 32 then Ok hello else Err (InvalidLength 32 (zlen ephemeral))
  | None => Ok hello
  end.
Definition parse_server_hello (response_bytes : bytes) : outcome HandshakeError (bytes * bytes * bytes) :=
  hello ← parse_server_hello_body response_bytes;
  ephemeral ← ok_or (sh_ephemeral hello) IncompleteResponse;
  static_ciphertext ← ok_or (sh_static hello) IncompleteResponse;
  certificate_ciphertext ← ok_or (sh_payload hello) IncompleteResponse;
  Ok (ephemeral, static_ciphertext, certificate_ciphertext).

Definition verify_cert_step (issuer_key details : bytes) (signature : option bytes)
    : outcome HandshakeError unit :=
  if skip_cert_chain_verify then Ok tt
  else
    signature ← ok_or signature CertVerification;
    pk ← map_err (fun _ => CertVerification) (from_djb_public_key_bytes issuer_key);
    if public_verify pk [details] signature then Ok tt else Err CertVerification.

Definition verify_server_cert (cert_decrypted static_decrypted : bytes)
    : outcome HandshakeError VerifiedServerCertChain :=
  chain ← ok_or (cert_chain_decode cert_decrypted) ProtoDecode;
  intermediate ← ok_or (cc_intermediate chain) CertVerification;
  leaf ← ok_or (cc_leaf chain) CertVerification;
  intermediate_bytes ← ok_or (cert_details intermediate) CertVerification;
  intermediate_details ← ok_or (details_decode intermediate_bytes) ProtoDecode;
  if negb (default 0 (d_issuer_serial intermediate_details) =? WA_CERT_ISSUER_SERIAL) then Err CertVerification
  else
    let pk := default [] (d_key intermediate_details) in
    if bytes_eqb pk [] then Err CertVerification
    else
      key ← array32 pk CertVerification;
      _ ← verify_cert_step WA_CERT_PUB_KEY intermediate_bytes (cert_signature intermediate);
      leaf_bytes ← ok_or (cert_details leaf) CertVerification;
      leaf_details ← ok_or (details_decode leaf_bytes) ProtoDecode;
      if negb (default 0 (d_issuer_serial leaf_details) =? default 0 (d_serial intermediate_details))
      then Err CertVerification
      else if negb (bytes_eqb (default [] (d_key leaf_details)) static_decrypted) then Err CertVerification
      else
        _ ← verify_cert_step key leaf_bytes (cert_signature leaf);
        Ok (mkVerified key
              (as_i64 (default 0 (d_not_before intermediate_details)))
              (as_i64 (default 0 (d_not_after intermediate_details)))
              static_decrypted
              (as_i64 (default 0 (d_not_before leaf_details)))
              (as_i64 (default 0 (d_not_after leaf_details)))).

(** ** [NoiseHandshake] *)

(** The Noise state and the chain that [process_xx_server_hello_into] writes out. *)
Record Hand : Type := mkHand { h_noise : NoiseState; h_chain : option VerifiedServerCertChain }.
Definition HS (A : Type) : Type := Hand -> Hand * outcome HandshakeError A.
#[global] Instance HS_ret : MRet HS := fun A a h => (h, Ok a).
#[global] Instance HS_bind : MBind HS := fun A B f m h =>
  match m h with
  | (h, Ok a) => f a h
  | (h, Err e) => (h, Err e)
  | (h, Panic) => (h, Panic)
  | (h, Timeout) => (h, Timeout)
  end.
Definition h_pure {A} (o : outcome HandshakeError A) : HS A := fun h => (h, o).
Definition h_lift {A} (f : NoiseState -> NoiseState * outcome NoiseError A) : HS A := fun h =>
  let '(st, o) := f (h_noise h) in (mkHand st (h_chain h), map_err NoiseFailed o).
Definition h_authenticate (data : bytes) : HS unit := fun h =>
  (mkHand (authenticate (h_noise h) data) (h_chain h), Ok tt).
Definition h_encrypt (plaintext : bytes) : HS bytes := h_lift (fun st => encrypt st plaintext).
Definition h_decrypt (ciphertext : bytes) : HS bytes := h_lift (fun st => decrypt st ciphertext).
Definition h_set_chain (c : VerifiedServerCertChain) : HS unit := fun h => (mkHand (h_noise h) (Some c), Ok tt).

Definition mix_shared_secret (priv_key_bytes pub_key_bytes : bytes) : HS unit :=
  our_private_key ← h_pure (map_err (fun _ => CryptoFailed) (private_deserialize priv_key_bytes));
  their_public_key ← h_pure (map_err (fun _ => CryptoFailed) (from_djb_public_key_bytes pub_key_bytes));
  h_lift (fun st => mix_key st (calculate_agreement our_private_key their_public_key)).

(** The write key and the read key. *)
Definition noise_finish (st : NoiseState) : outcome HandshakeError (NoiseCipher * NoiseCipher) :=
  keys ← map_err NoiseFailed (split st);
  Ok (nk_write keys, nk_read keys).

(** ** XX *)

Record XxHandshakeOutcome : Type := mkXxOutcome {
  xo_write : NoiseCipher; xo_read : NoiseCipher; xo_chain : VerifiedServerCertChain
}.
Record XxHandshakeState : Type := mkXx {
  xx_hand : Hand; xx_ephemeral : KeyPair; xx_static : KeyPair; xx_payload : bytes
}.

Definition process_xx_server_hello_into (ephemeral_kp static_kp : KeyPair) (payload server_ephemeral
    server_static_ciphertext certificate_ciphertext : bytes) : HS bytes :=
  _ ← h_authenticate server_ephemeral;
  _ ← mix_shared_secret (private_serialize (kp_private ephemeral_kp)) server_ephemeral;
  static_decrypted ← h_decrypt server_static_ciphertext;
  static_decrypted_arr ← h_pure (array32 static_decrypted InvalidKeyLength);
  _ ← mix_shared_secret (private_serialize (kp_private ephemeral_kp)) static_decrypted_arr;
  cert_decrypted ← h_decrypt certificate_ciphertext;
  chain ← h_pure (map_err (fun _ => CertVerification) (verify_server_cert cert_decrypted static_decrypted_arr));
  _ ← h_set_chain chain;
  encrypted_pubkey ← h_encrypt (public_key_bytes (kp_public static_kp));
  _ ← mix_shared_secret (private_serialize (kp_private static_kp)) server_ephemeral;
  encrypted_payload ← h_encrypt payload;
  mret (handshake_encode (build_client_finish encrypted_pubkey encrypted_payload)).

(** [random] is what the generator gives the ephemeral key. *)
Definition xx_new (random : bytes) (static_kp : KeyPair) (client_payload prologue : bytes) : XxHandshakeState :=
  let ephemeral_kp := keypair_generate random in
  let noise := noise_new NOISE_PATTERN_XX prologue in
  let noise := authenticate noise (public_key_bytes (kp_public ephemeral_kp)) in
  mkXx (mkHand noise None) ephemeral_kp static_kp client_payload.
Definition xx_build_client_hello (s : XxHandshakeState) : bytes :=
  handshake_encode (build_client_hello (public_key_bytes (kp_public (xx_ephemeral s)))).

(** What XX and the fallback do with a ServerHello. *)
Definition read_xx_server_hello (ephemeral_kp static_kp : KeyPair) (payload response_bytes : bytes) : HS bytes :=
  '(server_ephemeral_raw, server_static_ciphertext, certificate_ciphertext) ←
    h_pure (map_err (fun _ => CertVerification) (parse_server_hello response_bytes));
  server_ephemeral ← h_pure (array32 server_ephemeral_raw InvalidKeyLength);
  process_xx_server_hello_into ephemeral_kp static_kp payload server_ephemeral
    server_static_ciphertext certificate_ciphertext.
Definition xx_finish_of (h : Hand) : outcome HandshakeError XxHandshakeOutcome :=
  cert_chain ← ok_or (h_chain h) IncompleteResponse;
  '(w, r) ← noise_finish (h_noise h);
  Ok (mkXxOutcome w r cert_chain).

Definition read_server_hello_and_build_client_finish (s : XxHandshakeState) (response_bytes : bytes)
    : XxHandshakeState * outcome HandshakeError bytes :=
  let '(h, o) := read_xx_server_hello (xx_ephemeral s) (xx_static s) (xx_payload s) response_bytes (xx_hand s) in
  (mkXx h (xx_ephemeral s) (xx_static s) (xx_payload s), o).
Definition xx_finish (s : XxHandshakeState) : outcome HandshakeError XxHandshakeOutcome :=
  xx_finish_of (xx_hand s).

(** ** IK *)

Record IkHandshakeOutcome : Type := mkIkOutcome { io_write : NoiseCipher; io_read : NoiseCipher }.
Record IkFallbackInputs : Type := mkFallbackInputs {
  fi_ephemeral : KeyPair; fi_static : KeyPair; fi_payload : bytes; fi_server_hello_bytes : bytes
}.
Inductive IkServerHelloOutcome : Type :=
  | Continue (o : IkHandshakeOutcome)
  | Fallback (i : IkFallbackInputs).
Record IkHandshakeState : Type := mkIk {
  ik_hand : Hand; ik_ephemeral : KeyPair; ik_static : KeyPair; ik_server_static_pub : bytes; ik_payload : bytes
}.

Definition ik_new (random : bytes) (static_kp : KeyPair) (server_static_pub client_payload prologue : bytes)
    : IkHandshakeState :=
  let ephemeral_kp := keypair_generate random in
  mkIk (mkHand (noise_new NOISE_PATTERN_IK prologue) None) ephemeral_kp static_kp server_static_pub client_payload.

Definition ik_client_hello (ephemeral_kp static_kp : KeyPair) (server_static_pub payload : bytes) : HS bytes :=
  _ ← h_authenticate server_static_pub;
  let ephemeral_pub_bytes := public_key_bytes (kp_public ephemeral_kp) in
  _ ← h_authenticate ephemeral_pub_bytes;
  _ ← mix_shared_secret (private_serialize (kp_private ephemeral_kp)) server_static_pub;
  encrypted_static ← h_encrypt (public_key_bytes (kp_public static_kp));
  _ ← mix_shared_secret (private_serialize (kp_private static_kp)) server_static_pub;
  encrypted_payload ← h_encrypt payload;
  mret (handshake_encode (build_ik_client_hello ephemeral_pub_bytes encrypted_static encrypted_payload)).
Definition ik_build_client_hello (s : IkHandshakeState) : IkHandshakeState * outcome HandshakeError bytes :=
  let '(h, o) := ik_client_hello (ik_ephemeral s) (ik_static s) (ik_server_static_pub s) (ik_payload s) (ik_hand s) in
  (mkIk h (ik_ephemeral s) (ik_static s) (ik_server_static_pub s) (ik_payload s), o).

(** The part after the keys of the ServerHello are known. *)
Definition ik_process (ephemeral_kp static_kp : KeyPair) (server_ephemeral cert_payload : bytes) : HS bytes :=
  _ ← h_authenticate server_ephemeral;
  _ ← mix_shared_secret (private_serialize (kp_private ephemeral_kp)) server_ephemeral;
  _ ← mix_shared_secret (private_serialize (kp_private static_kp)) server_ephemeral;
  h_decrypt cert_payload.
Definition ik_read_server_hello (s : IkHandshakeState) (response_bytes : bytes)
    : outcome HandshakeError IkServerHelloOutcome :=
  hello ← parse_server_hello_body response_bytes;
  match sh_static hello with
  | Some _ => Ok (Fallback (mkFallbackInputs (ik_ephemeral s) (ik_static s) (ik_payload s) response_bytes))
  | None =>
      server_ephemeral ← ok_or (sh_ephemeral hello) IncompleteResponse;
      cert_payload ← ok_or (sh_payload hello) IncompleteResponse;
      server_ephemeral ← array32 server_ephemeral InvalidKeyLength;
      let '(h, o) := ik_process (ik_ephemeral s) (ik_static s) server_ephemeral cert_payload (ik_hand s) in
      _ ← o;
      '(w, r) ← noise_finish (h_noise h);
      Ok (Continue (mkIkOutcome w r))
  end.

(** ** XXfallback *)

Record XxFallbackHandshakeState : Type := mkFb {
  fb_hand : Hand; fb_ephemeral : KeyPair; fb_static : KeyPair; fb_payload : bytes; fb_server_hello_bytes : bytes
}.
Definition from_ik_failure (inputs : IkFallbackInputs) (prologue : bytes) : XxFallbackHandshakeState :=
  let noise := noise_new NOISE_PATTERN_XXFALLBACK prologue in
  let noise := authenticate noise (public_key_bytes (kp_public (fi_ephemeral inputs))) in
  mkFb (mkHand noise None) (fi_ephemeral inputs) (fi_static inputs) (fi_payload inputs)
    (fi_server_hello_bytes inputs).
Definition fb_build_client_finish (s : XxFallbackHandshakeState)
    : XxFallbackHandshakeState * outcome HandshakeError bytes :=
  let '(h, o) := read_xx_server_hello (fb_ephemeral s) (fb_static s) (fb_payload s) (fb_server_hello_bytes s)
                   (fb_hand s) in
  (mkFb h (fb_ephemeral s) (fb_static s) (fb_payload s) (fb_server_hello_bytes s), o).
Definition fb_finish (s : XxFallbackHandshakeState) : outcome HandshakeError XxHandshakeOutcome :=
  xx_finish_of (fb_hand s).

(** ** The responder of the tests *)

Record TestResponder : Type := mkResponder { identity_kp : KeyPair; cert_chain_bytes : bytes }.
Definition server_static_pub (r : TestResponder) : bytes := public_key_bytes (kp_public (identity_kp r)).

Definition expect {E A} (o : option A) : outcome E A := match o with Some a => Ok a | None => Panic end.
Definition array32_unwrap (b : bytes) : outcome HandshakeError bytes := if zlen b =? 32 then Ok b else Panic.
Definition h_expect {A} (m : HS A) : HS A := fun h =>
  match m h with (h, Err _) => (h, Panic) | r => r end.

(** A ServerHello of XX shape, for the ephemeral key of a ClientHello. *)
Definition serve_static (r : TestResponder) (client_eph_pub : bytes) (server_eph : KeyPair) : HS bytes :=
  _ ← h_authenticate client_eph_pub;
  let server_eph_pub := public_key_bytes (kp_public server_eph) in
  _ ← h_authenticate server_eph_pub;
  _ ← h_expect (mix_shared_secret (private_serialize (kp_private server_eph)) client_eph_pub);
  encrypted_static ← h_expect (h_encrypt (server_static_pub r));
  _ ← h_expect (mix_shared_secret (private_serialize (kp_private (identity_kp r))) client_eph_pub);
  encrypted_payload ← h_expect (h_encrypt (cert_chain_bytes r));
  mret (handshake_encode (mkHandshakeMessage None
    (Some (mkServerHello (Some server_eph_pub) (Some encrypted_static) (Some encrypted_payload))) None)).
(** [pattern] is XX, or XXfallback in [ik_serve_force_fallback]. *)
Definition xx_serve_ext (r : TestResponder) (client_hello_bytes pattern prologue random : bytes)
    : Hand * outcome HandshakeError bytes :=
  let h := mkHand (noise_new pattern prologue) None in
  (msg ← h_pure (expect (handshake_decode client_hello_bytes));
   hello ← h_pure (expect (client_hello msg));
   client_eph_pub ← h_pure (expect (ch_ephemeral hello));
   client_eph_pub ← h_pure (array32_unwrap client_eph_pub);
   serve_static r client_eph_pub (keypair_generate random)) h.

(** The client's static key and payload, and the responder's write and read keys. *)
Record Served : Type := mkServed {
  sv_client_static : bytes; sv_payload : bytes; sv_write : NoiseCipher; sv_read : NoiseCipher
}.
Definition finish_with (server_eph : KeyPair) (noise : NoiseState) (client_finish_bytes : bytes)
    : Hand * outcome HandshakeError (bytes * bytes) :=
  (msg ← h_pure (expect (handshake_decode client_finish_bytes));
   cf ← h_pure (expect (client_finish msg));
   s ← h_pure (expect (cf_static cf));
   client_static ← h_expect (h_decrypt s);
   client_static ← h_pure (array32_unwrap client_static);
   _ ← h_expect (mix_shared_secret (private_serialize (kp_private server_eph)) client_static);
   p ← h_pure (expect (cf_payload cf));
   payload ← h_expect (h_decrypt p);
   mret (client_static, payload)) (mkHand noise None).
Definition xx_finish_ext (noise : NoiseState) (random client_finish_bytes : bytes) : outcome HandshakeError Served :=
  let '(h, o) := finish_with (keypair_generate random) noise client_finish_bytes in
  '(client_static, payload) ← o;
  '(w, r) ← noise_finish (h_noise h);
  Ok (mkServed client_static payload r w).

(** The responder that accepts IK. *)
Definition ik_serve (r : TestResponder) (ch : ClientHello) (server_eph : KeyPair) : HS (bytes * bytes * bytes) :=
  client_eph_pub ← h_pure (expect (ch_ephemeral ch));
  client_eph_pub ← h_pure (array32_unwrap client_eph_pub);
  encrypted_static ← h_pure (expect (ch_static ch));
  encrypted_payload ← h_pure (expect (ch_payload ch));
  _ ← h_authenticate (server_static_pub r);
  _ ← h_authenticate client_eph_pub;
  _ ← h_expect (mix_shared_secret (private_serialize (kp_private (identity_kp r))) client_eph_pub);
  client_static ← h_expect (h_decrypt encrypted_static);
  client_static ← h_pure (array32_unwrap client_static);
  _ ← h_expect (mix_shared_secret (private_serialize (kp_private (identity_kp r))) client_static);
  payload ← h_expect (h_decrypt encrypted_payload);
  let server_eph_pub := public_key_bytes (kp_public server_eph) in
  _ ← h_authenticate server_eph_pub;
  _ ← h_expect (mix_shared_secret (private_serialize (kp_private server_eph)) client_eph_pub);
  _ ← h_expect (mix_shared_secret (private_serialize (kp_private server_eph)) client_static);
  encrypted_cert ← h_expect (h_encrypt (cert_chain_bytes r));
  mret (handshake_encode (mkHandshakeMessage None
    (Some (mkServerHello (Some server_eph_pub) None (Some encrypted_cert))) None), client_static, payload).
Definition ik_serve_accept (r : TestResponder) (client_hello_bytes prologue random : bytes)
    : outcome HandshakeError (bytes * Served) :=
  let '(h, o) :=
    (msg ← h_pure (expect (handshake_decode client_hello_bytes));
     ch ← h_pure (expect (client_hello msg));
     ik_serve r ch (keypair_generate random)) (mkHand (noise_new NOISE_PATTERN_IK prologue) None) in
  '(reply, client_static, payload) ← o;
  '(w, r) ← noise_finish (h_noise h);
  Ok (reply, mkServed client_static payload r w).
End Handshake.
