(* ===== verification/HandshakeSync.v ===== *)
(** * Handshakes complete

    With the responder of the tests at the other end, each of the three patterns ends with
    both sides holding the same two keys, the client with the verified chain, and the
    responder with the client's static key and payload. *)

From stdpp Require Import prelude strings.
From S2P Require Import Prelude Noise Curve Handshake.

#[local] Open Scope Z_scope.

(** AES-GCM seals with a key of 32 and a nonce of 12 bytes; HKDF gives 64 bytes. *)
Class CryptoTotal {C : Crypto} : Prop := {
  gcm_seals k iv aad p : zlen k = 32 -> zlen iv = 12 -> exists c, gcm_encrypt k iv aad p = Ok c;
  hkdf_expands salt ikm info : exists okm, hkdf_sha256 salt ikm info 64 = Some okm
}.

Definition kp_wf {DK : Dalek} (k : KeyPair) : Prop :=
  private_wf (kp_private k) /\ kp_public k = public_key (kp_private k).

(** ** Whole handshakes *)

Section Runs.
Context {C : Crypto} {DK : Dalek} {HP : HandshakeProto} {BC : BuildConfig}.

(** The client's keys and chain, its ClientFinish if there is one, what the responder knows. *)
Record Connected : Type := mkConnected {
  cn_write : NoiseCipher; cn_read : NoiseCipher; cn_chain : option VerifiedServerCertChain;
  cn_finish : option bytes; cn_served : Served
}.

Definition run_xx (rc rs : bytes) (static_kp : KeyPair) (payload prologue : bytes) (r : TestResponder)
    : outcome HandshakeError Connected :=
  let c := xx_new rc static_kp payload prologue in
  let '(server, reply) := xx_serve_ext r (xx_build_client_hello c) NOISE_PATTERN_XX prologue rs in
  reply ← reply;
  let '(c, finish) := read_server_hello_and_build_client_finish c reply in
  finish ← finish;
  out ← xx_finish c;
  served ← xx_finish_ext (h_noise server) rs finish;
  Ok (mkConnected (xo_write out) (xo_read out) (Some (xo_chain out)) (Some finish) served).
Definition run_ik (rc rs : bytes) (static_kp : KeyPair) (payload prologue : bytes) (r : TestResponder)
    : outcome HandshakeError Connected :=
  let c := ik_new rc static_kp (server_static_pub r) payload prologue in
  let '(c, hello) := ik_build_client_hello c in
  hello ← hello;
  '(reply, served) ← ik_serve_accept r hello prologue rs;
  o ← ik_read_server_hello c reply;
  match o with
  | Continue out => Ok (mkConnected (io_write out) (io_read out) None None served)
  | Fallback _ => Err IncompleteResponse
  end.
(** [stale] is the key of the server that the client remembers. *)
Definition run_ik_rejected (rc rs : bytes) (static_kp : KeyPair) (stale payload prologue : bytes)
    (r : TestResponder) : outcome HandshakeError Connected :=
  let c := ik_new rc static_kp stale payload prologue in
  let '(c, hello) := ik_build_client_hello c in
  hello ← hello;
  let '(server, reply) := xx_serve_ext r hello NOISE_PATTERN_XXFALLBACK prologue rs in
  reply ← reply;
  o ← ik_read_server_hello c reply;
  match o with
  | Continue _ => Err IncompleteResponse
  | Fallback inputs =>
      let f := from_ik_failure inputs prologue in
      let '(f, finish) := fb_build_client_finish f in
      finish ← finish;
      out ← fb_finish f;
      served ← xx_finish_ext (h_noise server) rs finish;
      Ok (mkConnected (xo_write out) (xo_read out) (Some (xo_chain out)) (Some finish) served)
  end.
End Runs.

Section Sync.
Context {C : Crypto} {DK : Dalek} {HP : HandshakeProto} {BC : BuildConfig}.
Context {LC : CryptoLaws} {TC : CryptoTotal} {LD : DalekLaws} {LP : HandshakeProtoLaws}.

(** ** One step *)

Lemma hs_bind {A B} (m : HS A) (f : A -> HS B) h h' a : m h = (h', Ok a) -> (m ≫= f) h = f a h'.
Proof. unfold mbind, HS_bind. by intros ->. Qed.
Lemma hs_pure {A B} (a : A) (f : A -> HS B) h : (h_pure (Ok a) ≫= f) h = f a h.
Proof. done. Qed.
Lemma hs_expect {A} (m : HS A) h h' a : m h = (h', Ok a) -> h_expect m h = (h', Ok a).
Proof. unfold h_expect. by intros ->. Qed.

(** A state with a derived key and [n] messages sealed since. *)
Definition keyed (n : Z) (st : NoiseState) : Prop := zlen (ns_key st) = 32 /\ ns_counter st = n.

Lemma mix_key_ok st ikm : exists st', mix_key st ikm = (st', Ok tt) /\ keyed 0 st'.
Proof.
  unfold mix_key, extract_and_expand. destruct (hkdf_expands (ns_salt (set_counter st 0)) (default [] (Some ikm)) [])
    as [okm Hokm]. rewrite Hokm. eexists. split; [done|]. split; [|done]. cbn [ns_key].
  pose proof (hkdf_length _ _ _ _ _ Hokm) as Hl. unfold from, zlen in *. rewrite length_drop. lia.
Qed.
Lemma kp_public_len k : kp_wf k -> zlen (public_key_bytes (kp_public k)) = 32.
Proof. intros [_ ->]. apply public_key_wf. Qed.
Lemma mix_shared_secret_eq k pub h :
  private_wf k -> zlen pub = 32 ->
  mix_shared_secret (private_serialize k) pub h
  = h_lift (fun st => mix_key st (calculate_agreement k (mkPublicKey pub))) h.
Proof.
  intros Hk Hp. unfold mix_shared_secret. erewrite hs_bind by (by rewrite (private_roundtrip k Hk)).
  erewrite hs_bind by (by unfold from_djb_public_key_bytes; rewrite Hp). done.
Qed.
(** Two sides in the same state mix in the secret of their keys and are in the same state. *)
Lemma mix_both a b st :
  kp_wf a -> kp_wf b ->
  exists st', keyed 0 st'
    /\ (forall c, mix_shared_secret (private_serialize (kp_private a)) (public_key_bytes (kp_public b)) (mkHand st c)
                  = (mkHand st' c, Ok tt))
    /\ (forall c, mix_shared_secret (private_serialize (kp_private b)) (public_key_bytes (kp_public a)) (mkHand st c)
                  = (mkHand st' c, Ok tt)).
Proof.
  intros Ha Hb. destruct (mix_key_ok st (calculate_agreement (kp_private a) (kp_public b))) as (st' & Hm & Hk).
  exists st'. split; [done|]. split; intros c; rewrite mix_shared_secret_eq by (apply Ha || apply Hb || by apply kp_public_len);
    unfold h_lift; cbn [h_noise h_chain].
  - replace (mkPublicKey _) with (kp_public b) by by destruct (kp_public b). by rewrite Hm.
  - replace (mkPublicKey _) with (kp_public a) by by destruct (kp_public a).
    rewrite (proj2 Ha), (agreement_comm _ _ (proj1 Hb) (proj1 Ha)), <- (proj2 Hb). by rewrite Hm.
Qed.
Lemma mix_any a pub st :
  kp_wf a -> zlen pub = 32 ->
  exists st', keyed 0 st' /\ forall c,
    mix_shared_secret (private_serialize (kp_private a)) pub (mkHand st c) = (mkHand st' c, Ok tt).
Proof.
  intros Ha Hp. destruct (mix_key_ok st (calculate_agreement (kp_private a) (mkPublicKey pub))) as (st' & Hm & Hk).
  exists st'. split; [done|]. intros c. rewrite mix_shared_secret_eq by (done || apply Ha).
  unfold h_lift. cbn [h_noise h_chain]. by rewrite Hm.
Qed.
Lemma seal_both n st p :
  keyed n st -> 0 <= n < 100 ->
  exists st' ct, keyed (n + 1) st' /\ zlen ct = zlen p + 16
    /\ (forall c, h_encrypt p (mkHand st c) = (mkHand st' c, Ok ct))
    /\ (forall c, h_decrypt ct (mkHand st c) = (mkHand st' c, Ok p)).
Proof.
  intros [Hk Hn] Hr. destruct (gcm_seals (ns_key st) (generate_iv n) (ns_hash st) p Hk (generate_iv_length n)) as [ct Hct].
  assert (He : encrypt st p = (authenticate (set_counter st (n + 1)) ct, Ok ct)).
  { unfold encrypt, encrypt_into, post_increment_counter, checked_add_1. rewrite Hn.
    destruct (Z.eqb_spec n U32_MAX); [unfold U32_MAX in *; lia|]. cbn [ns_key ns_hash set_counter]. by rewrite Hct. }
  exists (authenticate (set_counter st (n + 1)) ct), ct. split; [done|].
  split; [by eapply gcm_seal_length|]. unfold h_encrypt, h_decrypt, h_lift.
  split; intros c; cbn [h_noise h_chain]; [by rewrite He|by rewrite (decrypt_encrypt _ _ _ _ He)].
Qed.
Lemma finish_ok st : exists w r, noise_finish st = Ok (w, r).
Proof.
  unfold noise_finish, split, extract_and_expand. destruct (hkdf_expands (ns_salt st) (default [] None) []) as [okm Hokm].
  rewrite Hokm. cbn. eauto.
Qed.
Lemma array32_ok {E} b (e : E) : zlen b = 32 -> array32 b e = Ok b.
Proof. unfold array32. by intros ->. Qed.
Lemma array32_unwrap_ok b : zlen b = 32 -> array32_unwrap b = Ok b.
Proof. unfold array32_unwrap. by intros ->. Qed.

(** ** XX and the fallback *)

Definition server_hello_bytes (ephemeral : bytes) (static : option bytes) (payload : bytes) : bytes :=
  handshake_encode (mkHandshakeMessage None (Some (mkServerHello (Some ephemeral) static (Some payload))) None).
Lemma parse_body_ok ephemeral static payload :
  zlen ephemeral = 32 ->
  parse_server_hello_body (server_hello_bytes ephemeral static payload)
  = Ok (mkServerHello (Some ephemeral) static (Some payload)).
Proof.
  intros He. unfold parse_server_hello_body, server_hello_bytes. rewrite handshake_roundtrip. cbn. by rewrite He.
Qed.

Section Exchange.
Context (e s static_kp : KeyPair) (r : TestResponder) (payload : bytes) (chain : VerifiedServerCertChain).
Context (He : kp_wf e) (Hs : kp_wf s) (Hst : kp_wf static_kp) (Hr : kp_wf (identity_kp r)).

(** The responder's part: a ServerHello, with the states that the client goes through. *)
Lemma serve_ok st0 :
  exists st2 st3 st4 st5 c1 c2, keyed 1 st5
    /\ serve_static r (public_key_bytes (kp_public e)) s (mkHand st0 None)
       = (mkHand st5 None, Ok (server_hello_bytes (public_key_bytes (kp_public s)) (Some c1) c2))
    /\ (forall c, mix_shared_secret (private_serialize (kp_private e)) (public_key_bytes (kp_public s))
          (mkHand (authenticate (authenticate st0 (public_key_bytes (kp_public e))) (public_key_bytes (kp_public s))) c)
          = (mkHand st2 c, Ok tt))
    /\ (forall c, h_decrypt c1 (mkHand st2 c) = (mkHand st3 c, Ok (server_static_pub r)))
    /\ (forall c, mix_shared_secret (private_serialize (kp_private e)) (server_static_pub r) (mkHand st3 c)
          = (mkHand st4 c, Ok tt))
    /\ (forall c, h_decrypt c2 (mkHand st4 c) = (mkHand st5 c, Ok (cert_chain_bytes r))).
Proof.
  destruct (mix_both s e (authenticate (authenticate st0 (public_key_bytes (kp_public e)))
    (public_key_bytes (kp_public s))) Hs He) as (st2 & Hk2 & Hm2 & Hm2').
  destruct (seal_both 0 st2 (server_static_pub r) Hk2) as (st3 & c1 & Hk3 & Hz1 & He1 & Hd1); [lia|].
  destruct (mix_both (identity_kp r) e st3 Hr He) as (st4 & Hk4 & Hm4 & Hm4').
  destruct (seal_both 0 st4 (cert_chain_bytes r) Hk4) as (st5 & c2 & Hk5 & Hz2 & He2 & Hd2); [lia|].
  exists st2, st3, st4, st5, c1, c2. split; [done|]. split; [|done]. unfold serve_static.
  erewrite hs_bind by done. cbv zeta. erewrite hs_bind by done. cbn [h_noise h_chain].
  erewrite hs_bind by (apply hs_expect, Hm2). erewrite hs_bind by (apply hs_expect, He1).
  erewrite hs_bind by (apply hs_expect, Hm4). erewrite hs_bind by (apply hs_expect, He2). done.
Qed.

(** Both parts. *)
Lemma xx_exchange st0 :
  verify_server_cert (cert_chain_bytes r) (server_static_pub r) = Ok chain ->
  exists c1 c2 st5 st8 finish,
    serve_static r (public_key_bytes (kp_public e)) s (mkHand st0 None)
      = (mkHand st5 None, Ok (server_hello_bytes (public_key_bytes (kp_public s)) (Some c1) c2))
    /\ read_xx_server_hello e static_kp payload (server_hello_bytes (public_key_bytes (kp_public s)) (Some c1) c2)
         (mkHand (authenticate st0 (public_key_bytes (kp_public e))) None)
       = (mkHand st8 (Some chain), Ok finish)
    /\ finish_with s st5 finish = (mkHand st8 None, Ok (public_key_bytes (kp_public static_kp), payload))
    /\ zlen finish <= zlen payload + 200.
Proof.
  intros Hcert. destruct (serve_ok st0) as (st2 & st3 & st4 & st5 & c1 & c2 & Hk5 & Hserve & Hm2 & Hd1 & Hm4 & Hd2).
  destruct (seal_both 1 st5 (public_key_bytes (kp_public static_kp)) Hk5) as (st6 & c3 & Hk6 & Hz3 & He3 & Hd3); [lia|].
  destruct (mix_both static_kp s st6 Hst Hs) as (st7 & Hk7 & Hm7 & Hm7').
  destruct (seal_both 0 st7 payload Hk7) as (st8 & c4 & Hk8 & Hz4 & He4 & Hd4); [lia|].
  pose proof (kp_public_len s Hs) as Hls. pose proof (kp_public_len _ Hr) as Hlr.
  exists c1, c2, st5, st8, (handshake_encode (build_client_finish c3 c4)). split; [done|]. split_and!.
  - unfold read_xx_server_hello, parse_server_hello. rewrite (parse_body_ok _ _ _ Hls).
    erewrite hs_bind by done. cbv iota. erewrite hs_bind by (by rewrite array32_ok).
    unfold process_xx_server_hello_into. erewrite hs_bind by done. cbn [h_noise h_chain].
    erewrite hs_bind by apply Hm2. erewrite hs_bind by apply Hd1.
    erewrite hs_bind by (by rewrite array32_ok). erewrite hs_bind by apply Hm4. erewrite hs_bind by apply Hd2.
    erewrite hs_bind by (by rewrite Hcert). erewrite hs_bind by done. cbn [h_noise].
    erewrite hs_bind by apply He3. erewrite hs_bind by apply Hm7. by erewrite hs_bind by apply He4.
  - unfold finish_with. erewrite hs_bind by (by rewrite handshake_roundtrip). erewrite hs_bind by done.
    erewrite hs_bind by done. erewrite hs_bind by (apply hs_expect, Hd3).
    erewrite hs_bind by (by rewrite array32_unwrap_ok by by apply kp_public_len).
    erewrite hs_bind by (apply hs_expect, Hm7'). erewrite hs_bind by done.
    by erewrite hs_bind by (apply hs_expect, Hd4).
  - pose proof (handshake_size (build_client_finish c3 c4)) as Hz. pose proof (kp_public_len _ Hst) as Hlst.
    unfold message_size in Hz. cbn in Hz. lia.
Qed.

(** ** IK *)

(** The ClientHello of IK can be built for any key. *)
Lemma ik_hello_any key st0 :
  zlen key = 32 ->
  exists st4 hello, ch_ephemeral hello = Some (public_key_bytes (kp_public e))
    /\ ik_client_hello e static_kp key payload (mkHand st0 None)
       = (mkHand st4 None, Ok (handshake_encode (mkHandshakeMessage (Some hello) None None)))
    /\ zlen (handshake_encode (mkHandshakeMessage (Some hello) None None)) <= zlen payload + 200.
Proof.
  intros Hkey. destruct (mix_any e key (authenticate (authenticate st0 key) (public_key_bytes (kp_public e))) He Hkey)
    as (st1 & Hk1 & Hm1).
  destruct (seal_both 0 st1 (public_key_bytes (kp_public static_kp)) Hk1) as (st2 & c1 & Hk2 & Hz1 & He1 & _); [lia|].
  destruct (mix_any static_kp key st2 Hst Hkey) as (st3 & Hk3 & Hm3).
  destruct (seal_both 0 st3 payload Hk3) as (st4 & c2 & Hk4 & Hz2 & He2 & _); [lia|].
  exists st4, (mkClientHello (Some (public_key_bytes (kp_public e))) (Some c1) (Some c2)). split; [done|]. split.
  - unfold ik_client_hello. erewrite hs_bind by done. cbv zeta. erewrite hs_bind by done. cbn [h_noise h_chain].
    erewrite hs_bind by apply Hm1. erewrite hs_bind by apply He1. erewrite hs_bind by apply Hm3.
    by erewrite hs_bind by apply He2.
  - pose proof (handshake_size (build_ik_client_hello (public_key_bytes (kp_public e)) c1 c2)) as Hz.
    pose proof (kp_public_len _ Hst) as Hlst. pose proof (kp_public_len _ He) as Hle.
    unfold message_size in Hz. cbn in Hz. change (mkHandshakeMessage _ None None) with
      (build_ik_client_hello (public_key_bytes (kp_public e)) c1 c2). lia.
Qed.
(** The ClientHello of IK, for the key of a server. *)
Lemma ik_hello_ok sv st0 :
  kp_wf sv ->
  exists st1 st2 st3 st4 c1 c2, keyed 1 st4
    /\ ik_client_hello e static_kp (public_key_bytes (kp_public sv)) payload (mkHand st0 None)
       = (mkHand st4 None, Ok (handshake_encode (build_ik_client_hello (public_key_bytes (kp_public e)) c1 c2)))
    /\ (forall c, mix_shared_secret (private_serialize (kp_private sv)) (public_key_bytes (kp_public e))
          (mkHand (authenticate (authenticate st0 (public_key_bytes (kp_public sv))) (public_key_bytes (kp_public e))) c)
          = (mkHand st1 c, Ok tt))
    /\ (forall c, h_decrypt c1 (mkHand st1 c) = (mkHand st2 c, Ok (public_key_bytes (kp_public static_kp))))
    /\ (forall c, mix_shared_secret (private_serialize (kp_private sv)) (public_key_bytes (kp_public static_kp))
          (mkHand st2 c) = (mkHand st3 c, Ok tt))
    /\ (forall c, h_decrypt c2 (mkHand st3 c) = (mkHand st4 c, Ok payload)).
Proof.
  intros Hsv. destruct (mix_both e sv (authenticate (authenticate st0 (public_key_bytes (kp_public sv)))
    (public_key_bytes (kp_public e))) He Hsv) as (st1 & Hk1 & Hm1 & Hm1').
  destruct (seal_both 0 st1 (public_key_bytes (kp_public static_kp)) Hk1) as (st2 & c1 & Hk2 & Hz1 & He1 & Hd1); [lia|].
  destruct (mix_both static_kp sv st2 Hst Hsv) as (st3 & Hk3 & Hm3 & Hm3').
  destruct (seal_both 0 st3 payload Hk3) as (st4 & c2 & Hk4 & Hz2 & He2 & Hd2); [lia|].
  exists st1, st2, st3, st4, c1, c2. split; [done|]. split; [|done]. unfold ik_client_hello.
  erewrite hs_bind by done. cbv zeta. erewrite hs_bind by done. cbn [h_noise h_chain].
  erewrite hs_bind by apply Hm1. erewrite hs_bind by apply He1. erewrite hs_bind by apply Hm3.
  by erewrite hs_bind by apply He2.
Qed.
Lemma ik_exchange st0 :
  exists hello st4 c3 st7,
    ik_client_hello e static_kp (server_static_pub r) payload (mkHand st0 None)
      = (mkHand st4 None, Ok (handshake_encode (mkHandshakeMessage (Some hello) None None)))
    /\ ik_serve r hello s (mkHand st0 None)
       = (mkHand st7 None, Ok (server_hello_bytes (public_key_bytes (kp_public s)) None c3,
            public_key_bytes (kp_public static_kp), payload))
    /\ ik_process e static_kp (public_key_bytes (kp_public s)) c3 (mkHand st4 None)
       = (mkHand st7 None, Ok (cert_chain_bytes r)).
Proof.
  destruct (ik_hello_ok (identity_kp r) st0 Hr) as (st1 & st2 & st3 & st4 & c1 & c2 & Hk4 & Hhello & Hm1 & Hd1 & Hm3 & Hd2).
  destruct (mix_both s e (authenticate st4 (public_key_bytes (kp_public s))) Hs He) as (st5 & Hk5 & Hm5 & Hm5').
  destruct (mix_both s static_kp st5 Hs Hst) as (st6 & Hk6 & Hm6 & Hm6').
  destruct (seal_both 0 st6 (cert_chain_bytes r) Hk6) as (st7 & c3 & Hk7 & Hz3 & He3 & Hd3); [lia|].
  eexists _, st4, c3, st7. split; [exact Hhello|]. split.
  - unfold ik_serve. erewrite hs_bind by done. erewrite hs_bind by (by rewrite array32_unwrap_ok by by apply kp_public_len).
    erewrite hs_bind by done. erewrite hs_bind by done. erewrite hs_bind by done. erewrite hs_bind by done.
    cbn [h_noise h_chain]. erewrite hs_bind by (apply hs_expect, Hm1). erewrite hs_bind by (apply hs_expect, Hd1).
    erewrite hs_bind by (by rewrite array32_unwrap_ok by by apply kp_public_len).
    erewrite hs_bind by (apply hs_expect, Hm3). erewrite hs_bind by (apply hs_expect, Hd2). cbv zeta.
    erewrite hs_bind by done. cbn [h_noise h_chain].
    erewrite hs_bind by (apply hs_expect, Hm5). erewrite hs_bind by (apply hs_expect, Hm6).
    by erewrite hs_bind by (apply hs_expect, He3).
  - unfold ik_process. erewrite hs_bind by done. cbn [h_noise h_chain].
    erewrite hs_bind by apply Hm5'. erewrite hs_bind by apply Hm6'. apply Hd3.
Qed.
End Exchange.

(** ** Whole handshakes *)

(** What a completed handshake gives. *)
Definition agreed (static_kp : KeyPair) (payload : bytes) (chain : option VerifiedServerCertChain)
    (cn : Connected) : Prop :=
  cn_chain cn = chain /\ zlen (default [] (cn_finish cn)) <= zlen payload + 200
  /\ sv_client_static (cn_served cn) = public_key_bytes (kp_public static_kp) /\ sv_payload (cn_served cn) = payload
  /\ sv_read (cn_served cn) = cn_write cn /\ sv_write (cn_served cn) = cn_read cn.
Definition fine_random (random : bytes) : Prop := zlen random = 32 /\ are_bytes random.

Lemma generated_wf random : fine_random random -> kp_wf (keypair_generate random).
Proof. intros [Hl Hb]. by apply keypair_generate_wf. Qed.
Lemma xx_serve_hello r s hello pattern prologue rs :
  ch_ephemeral hello = Some s -> zlen s = 32 ->
  xx_serve_ext r (handshake_encode (mkHandshakeMessage (Some hello) None None)) pattern prologue rs
  = serve_static r s (keypair_generate rs) (mkHand (noise_new pattern prologue) None).
Proof.
  intros Hh Hl. unfold xx_serve_ext. cbv zeta. erewrite hs_bind by (by rewrite handshake_roundtrip).
  erewrite hs_bind by done. erewrite hs_bind by (by rewrite Hh). by erewrite hs_bind by (by rewrite array32_unwrap_ok).
Qed.
Lemma xx_completes rc rs static_kp payload prologue r chain :
  fine_random rc -> fine_random rs -> kp_wf static_kp -> kp_wf (identity_kp r) ->
  verify_server_cert (cert_chain_bytes r) (server_static_pub r) = Ok chain ->
  exists cn, run_xx rc rs static_kp payload prologue r = Ok cn /\ agreed static_kp payload (Some chain) cn.
Proof.
  intros Hrc Hrs Hst Hr Hcert. apply generated_wf in Hrc, Hrs.
  destruct (xx_exchange _ _ static_kp r payload chain Hrc Hrs Hst Hr (noise_new NOISE_PATTERN_XX prologue) Hcert)
    as (c1 & c2 & st5 & st8 & finish & Hserve & Hread & Hfin & Hz).
  destruct (finish_ok st8) as (w & rd & Hw). unfold run_xx. cbv zeta.
  change (xx_build_client_hello _) with (handshake_encode (mkHandshakeMessage
    (Some (mkClientHello (Some (public_key_bytes (kp_public (keypair_generate rc)))) None None)) None None)).
  erewrite xx_serve_hello by (done || by apply kp_public_len). rewrite Hserve. cbn [mbind outcome_bind].
  unfold read_server_hello_and_build_client_finish, xx_new. cbn [xx_ephemeral xx_static xx_payload xx_hand].
  rewrite Hread. cbn [mbind outcome_bind]. unfold xx_finish, xx_finish_of. cbn [xx_hand h_chain h_noise ok_or].
  cbn [mbind outcome_bind]. rewrite Hw. cbn [mbind outcome_bind]. unfold xx_finish_ext. rewrite Hfin.
  cbn [mbind outcome_bind h_noise]. rewrite Hw. cbn [mbind outcome_bind]. eexists. split; [reflexivity|]. done.
Qed.
Lemma ik_completes rc rs static_kp payload prologue r :
  fine_random rc -> fine_random rs -> kp_wf static_kp -> kp_wf (identity_kp r) ->
  exists cn, run_ik rc rs static_kp payload prologue r = Ok cn /\ agreed static_kp payload None cn.
Proof.
  intros Hrc Hrs Hst Hr. apply generated_wf in Hrc, Hrs.
  destruct (ik_exchange _ _ static_kp r payload Hrc Hrs Hst Hr (noise_new NOISE_PATTERN_IK prologue))
    as (hello & st4 & c3 & st7 & Hhello & Hserve & Hproc).
  destruct (finish_ok st7) as (w & rd & Hw). unfold run_ik, ik_new, ik_build_client_hello.
  cbn [ik_hand ik_ephemeral ik_static ik_server_static_pub ik_payload]. rewrite Hhello. cbn [mbind outcome_bind].
  unfold ik_serve_accept. erewrite hs_bind by (by rewrite handshake_roundtrip). erewrite hs_bind by done.
  rewrite Hserve. cbn [mbind outcome_bind h_noise]. rewrite Hw. cbn [mbind outcome_bind].
  unfold ik_read_server_hello. rewrite parse_body_ok by by apply kp_public_len.
  cbn [mbind outcome_bind sh_static sh_ephemeral sh_payload ok_or].
  rewrite array32_ok by by apply kp_public_len. cbn [mbind outcome_bind ik_ephemeral ik_static ik_hand].
  rewrite Hproc. cbn [mbind outcome_bind h_noise]. rewrite Hw. cbn [mbind outcome_bind].
  eexists. split; [reflexivity|]. split; [done|]. split; [|done].
  pose proof (zlen_nonneg payload). change (0 <= zlen payload + 200). lia.
Qed.
Lemma fallback_completes rc rs static_kp stale payload prologue r chain :
  fine_random rc -> fine_random rs -> kp_wf static_kp -> zlen stale = 32 -> kp_wf (identity_kp r) ->
  verify_server_cert (cert_chain_bytes r) (server_static_pub r) = Ok chain ->
  exists cn, run_ik_rejected rc rs static_kp stale payload prologue r = Ok cn
    /\ agreed static_kp payload (Some chain) cn.
Proof.
  intros Hrc Hrs Hst Hstale Hr Hcert. apply generated_wf in Hrc, Hrs.
  destruct (ik_hello_any _ static_kp payload Hrc Hst stale (noise_new NOISE_PATTERN_IK prologue) Hstale)
    as (st4 & hello & Heph & Hhello & _).
  destruct (xx_exchange _ _ static_kp r payload chain Hrc Hrs Hst Hr (noise_new NOISE_PATTERN_XXFALLBACK prologue) Hcert)
    as (c1 & c2 & st5 & st8 & finish & Hserve & Hread & Hfin & Hz).
  destruct (finish_ok st8) as (w & rd & Hw). unfold run_ik_rejected, ik_new, ik_build_client_hello.
  cbn [ik_hand ik_ephemeral ik_static ik_server_static_pub ik_payload]. rewrite Hhello. cbn [mbind outcome_bind].
  erewrite xx_serve_hello by (exact Heph || by apply kp_public_len). rewrite Hserve.
  cbn [mbind outcome_bind]. unfold ik_read_server_hello. rewrite parse_body_ok by by apply kp_public_len.
  cbn [mbind outcome_bind sh_static ik_ephemeral ik_static ik_payload].
  unfold fb_build_client_finish, from_ik_failure.
  cbn [fb_ephemeral fb_static fb_payload fb_server_hello_bytes fb_hand fi_ephemeral fi_static fi_payload fi_server_hello_bytes].
  rewrite Hread. cbn [mbind outcome_bind]. unfold fb_finish, xx_finish_of. cbn [fb_hand h_chain h_noise ok_or].
  cbn [mbind outcome_bind]. rewrite Hw. cbn [mbind outcome_bind]. unfold xx_finish_ext. rewrite Hfin.
  cbn [mbind outcome_bind h_noise]. rewrite Hw. cbn [mbind outcome_bind]. eexists. split; [reflexivity|]. done.
Qed.
End Sync.
