(* ===== verification/Connect.v ===== *)
(** * Connecting

    [src/handshake.rs]: the choice of the pattern from the cached certificate chain, the
    messages over the transport, what is cached after a success and forgotten after a failure.

    The transport is a [Wire]: what [transport_events.recv()] gives, one after the other (the
    end of the list is a closed channel), whether each send succeeds, and what was sent.  The
    device is the part of [Device] that a handshake reads; the encoded client payload is part
    of it. *)

From stdpp Require Import prelude strings.
From S2P Require Import Prelude Framing Noise Curve Handshake.

#[local] Open Scope Z_scope.

(** ** The cached chain *)

Record CachedNoiseCert : Type := mkCachedCert { c_key : bytes; c_not_before : Z; c_not_after : Z }.
Record CachedServerCertChain : Type := mkCachedChain { c_intermediate : CachedNoiseCert; c_leaf : CachedNoiseCert }.
(** [From<VerifiedServerCertChain>] *)
Definition cached_from (v : VerifiedServerCertChain) : CachedServerCertChain :=
  mkCachedChain (mkCachedCert (intermediate_key v) (intermediate_not_before v) (intermediate_not_after v))
    (mkCachedCert (leaf_key v) (leaf_not_before v) (leaf_not_after v)).

Record Device : Type := mkDevice {
  is_registered : bool; noise_key : KeyPair; client_payload : bytes;
  edge_routing_info : option bytes; server_cert_chain : option CachedServerCertChain
}.
(** [DeviceCommand::SetServerCertChain] and [ClearServerCertChain] *)
Definition set_server_cert_chain (d : Device) (c : option CachedServerCertChain) : Device :=
  mkDevice (is_registered d) (noise_key d) (client_payload d) (edge_routing_info d) c.

Definition IK_FAILURE_THRESHOLD : Z := 1.
Inductive HandshakePattern : Type := PatternXx | PatternIk (server_static : bytes).

Definition select_pattern (device : Device) (ik_failures now_secs : Z) : HandshakePattern :=
  if negb (is_registered device) then PatternXx
  else if IK_FAILURE_THRESHOLD <=? ik_failures then PatternXx
  else
    match server_cert_chain device with
    | None => PatternXx
    | Some chain =>
        if (now_secs <? c_not_before (c_leaf chain)) || (now_secs <? c_not_before (c_intermediate chain))
           || (c_not_after (c_leaf chain) <=? now_secs) || (c_not_after (c_intermediate chain) <=? now_secs)
        then PatternXx
        else PatternIk (c_key (c_leaf chain))
    end.

(** ** The transport *)

Inductive TransportEvent : Type := EConnected | EData (data : bytes) | EDisconnected.
(** An event in time, or [NOISE_HANDSHAKE_RESPONSE_TIMEOUT] without one. *)
Inductive Recv : Type := Received (e : TransportEvent) | TimedOut.
Record Wire : Type := mkWire {
  w_events : list Recv; w_answers : list bool; w_sent : list bytes; w_fallback : bool
}.

Section Connect.
Context {C : Crypto} {DK : Dalek} {HP : HandshakeProto} {BC : BuildConfig}.

Inductive ConnectError : Type :=
  | Transport
  | Core (e : HandshakeError)
  | ResponseTimeout
  | StreamClosed
  | Disconnected.

Definition is_transient (e : ConnectError) : bool :=
  match e with Transport | ResponseTimeout | Disconnected | StreamClosed => true | Core _ => false end.
Definition is_crypto_fatal (e : ConnectError) : bool :=
  match e with
  | Core (NoiseFailed (Decrypt _)) | Core (NoiseFailed CiphertextTooShort) => true
  | Core CertVerification => true
  | Core IncompleteResponse | Core (InvalidLength _ _) | Core InvalidKeyLength | Core ProtoDecode => true
  | Core CryptoFailed | Core (NoiseFailed (Encrypt _)) | Core (NoiseFailed HkdfExpandFailed)
  | Core (NoiseFailed CounterExhausted) => false
  | _ => false
  end.

Definition IO (A : Type) : Type := Wire -> Wire * outcome ConnectError A.
#[global] Instance IO_ret : MRet IO := fun A a w => (w, Ok a).
#[global] Instance IO_bind : MBind IO := fun A B f m w =>
  match m w with
  | (w, Ok a) => f a w
  | (w, Err e) => (w, Err e)
  | (w, Panic) => (w, Panic)
  | (w, Timeout) => (w, Timeout)
  end.
Definition io_core {A} (o : outcome HandshakeError A) : IO A := fun w => (w, map_err Core o).
Definition io_frame (o : outcome FrameError bytes) : IO bytes := fun w => (w, map_err (fun _ => Transport) o).
(** A send that fails may have sent. *)
Definition send (data : bytes) : IO unit := fun w =>
  match w_answers w with
  | false :: l => (mkWire (w_events w) l (w_sent w ++ [data]) (w_fallback w), Err Transport)
  | true :: l => (mkWire (w_events w) l (w_sent w ++ [data]) (w_fallback w), Ok tt)
  | [] => (mkWire (w_events w) [] (w_sent w ++ [data]) (w_fallback w), Ok tt)
  end.
Definition set_fallback_taken : IO unit := fun w =>
  (mkWire (w_events w) (w_answers w) (w_sent w) true, Ok tt).

(** The loop of [recv_frame], over what is still to come. *)
Fixpoint recv_loop (events : list Recv) (d : FrameDecoder) : list Recv * outcome ConnectError bytes :=
  match events with
  | [] => ([], Err StreamClosed)
  | TimedOut :: l => (l, Err ResponseTimeout)
  | Received EConnected :: l => recv_loop l d
  | Received EDisconnected :: l => (l, Err Disconnected)
  | Received (EData data) :: l =>
      match decode_frame (feed d data) with
      | Ok (Some frame, _) => (l, Ok frame)
      | Ok (None, d) => recv_loop l d
      | Err _ => (l, Err Transport)
      | Panic => (l, Panic)
      | Timeout => (l, Timeout)
      end
  end.
(** The decoder is dropped with what it still holds. *)
Definition recv_frame (d : FrameDecoder) : IO bytes := fun w =>
  let '(l, o) := recv_loop (w_events w) d in
  (mkWire l (w_answers w) (w_sent w) (w_fallback w), o).

Definition send_first_handshake_message (device : Device) (payload_bytes : bytes) : IO unit :=
  let '(header, _) := build_handshake_header (edge_routing_info device) in
  framed ← io_frame (encode_frame payload_bytes (Some header));
  send framed.

(** ** The handshakes over the transport *)

Record HandshakeSuccess : Type := mkSuccess {
  hs_write : NoiseCipher; hs_read : NoiseCipher; hs_chain : option VerifiedServerCertChain
}.

Definition run_xx_handshake (random : bytes) (device : Device) : IO HandshakeSuccess :=
  let state := xx_new random (noise_key device) (client_payload device) WA_CONN_HEADER in
  let frame_decoder := frame_decoder_new in
  let client_hello_bytes := xx_build_client_hello state in
  _ ← send_first_handshake_message device client_hello_bytes;
  resp_frame ← recv_frame frame_decoder;
  let '(state, client_finish) := read_server_hello_and_build_client_finish state resp_frame in
  client_finish_bytes ← io_core client_finish;
  framed ← io_frame (encode_frame client_finish_bytes None);
  _ ← send framed;
  out ← io_core (xx_finish state);
  mret (mkSuccess (xo_write out) (xo_read out) (Some (xo_chain out))).

Definition run_ik_handshake (random : bytes) (device : Device) (server_static : bytes) : IO HandshakeSuccess :=
  let ik := ik_new random (noise_key device) server_static (client_payload device) WA_CONN_HEADER in
  let frame_decoder := frame_decoder_new in
  let '(ik, client_hello) := ik_build_client_hello ik in
  client_hello_bytes ← io_core client_hello;
  _ ← send_first_handshake_message device client_hello_bytes;
  resp_frame ← recv_frame frame_decoder;
  o ← io_core (ik_read_server_hello ik resp_frame);
  match o with
  | Continue out => mret (mkSuccess (io_write out) (io_read out) None)
  | Fallback inputs =>
      _ ← set_fallback_taken;
      let fb := from_ik_failure inputs WA_CONN_HEADER in
      let '(fb, client_finish) := fb_build_client_finish fb in
      client_finish_bytes ← io_core client_finish;
      framed ← io_frame (encode_frame client_finish_bytes None);
      _ ← send framed;
      out ← io_core (fb_finish fb);
      mret (mkSuccess (xo_write out) (xo_read out) (Some (xo_chain out)))
  end.

(** The device that is stored, and the failures of IK counted by the process. *)
Record Conn : Type := mkConn { conn_device : Device; ik_handshake_failures : Z }.

Definition run_pattern (random : bytes) (device : Device) (p : HandshakePattern) : IO HandshakeSuccess :=
  match p with
  | PatternXx => run_xx_handshake random device
  | PatternIk server_static => run_ik_handshake random device server_static
  end.
Definition do_handshake (random : bytes) (now_secs : Z) (cn : Conn) (w : Wire)
    : Conn * Wire * outcome ConnectError (NoiseCipher * NoiseCipher) :=
  let device := conn_device cn in
  let pattern := select_pattern device (ik_handshake_failures cn) now_secs in
  let w := mkWire (w_events w) (w_answers w) (w_sent w) false in
  match run_pattern random device pattern w with
  | (w, Ok success) =>
      let device :=
        match hs_chain success with
        | Some chain => if is_registered device then set_server_cert_chain device (Some (cached_from chain)) else device
        | None => device
        end in
      (mkConn device 0, w, Ok (hs_write success, hs_read success))
  | (w, Err e) =>
      let fatal :=
        match pattern with PatternIk _ => negb (w_fallback w) && is_crypto_fatal e | PatternXx => false end in
      (if fatal
       then mkConn (set_server_cert_chain device None) (wrap 32 (ik_handshake_failures cn + 1))
       else cn, w, Err e)
  | (w, Panic) => (cn, w, Panic)
  | (w, Timeout) => (cn, w, Timeout)
  end.
End Connect.
