(* ===== verification/Connections.v ===== *)
(** * Connections

    Over any sequence of connections, with whatever the network does: the certificate chain
    that is cached is one that the root key has certified, and IK only goes to its key, within
    its validity.  With an honest server at the other end, a connection succeeds from any
    state of the cache. *)

From stdpp Require Import prelude strings.
From S2P Require Import Prelude Framing Noise Curve Handshake HandshakeSync Connect.

#[local] Open Scope Z_scope.

(** ** Certificates *)

Section Certified.
Context {C : Crypto} {DK : Dalek} {HP : HandshakeProto}.

Definition signed_by (issuer details signature : bytes) : Prop :=
  public_verify (mkPublicKey issuer) [details] signature = true.
(** The root key has signed the intermediate certificate and that one the leaf; the keys and
    the validity are theirs. *)
Definition certified (v : VerifiedServerCertChain) : Prop :=
  exists bi si i bl sl l,
    details_decode bi = Some i /\ signed_by WA_CERT_PUB_KEY bi si
    /\ default 0 (d_issuer_serial i) = WA_CERT_ISSUER_SERIAL /\ d_key i = Some (intermediate_key v)
    /\ details_decode bl = Some l /\ signed_by (intermediate_key v) bl sl
    /\ default 0 (d_issuer_serial l) = default 0 (d_serial i) /\ d_key l = Some (leaf_key v)
    /\ intermediate_not_before v = as_i64 (default 0 (d_not_before i))
    /\ intermediate_not_after v = as_i64 (default 0 (d_not_after i))
    /\ leaf_not_before v = as_i64 (default 0 (d_not_before l))
    /\ leaf_not_after v = as_i64 (default 0 (d_not_after l))
    /\ zlen (leaf_key v) = 32.
End Certified.

Section Safety.
Context {C : Crypto} {DK : Dalek} {HP : HandshakeProto} {BC : BuildConfig}.
Context (Hverify : skip_cert_chain_verify = false).

Lemma bind_ok {E A B} (m : outcome E A) (f : A -> outcome E B) b :
  m ≫= f = Ok b -> exists a, m = Ok a /\ f a = Ok b.
Proof. destruct m; [eauto|done|done|done]. Qed.
Lemma ok_or_ok {E A} (o : option A) (e : E) a : ok_or o e = Ok a -> o = Some a.
Proof. by destruct o; intros [= ->]. Qed.
Lemma verify_cert_step_ok issuer details sig u :
  zlen issuer = 32 -> verify_cert_step issuer details sig = Ok u -> exists s, signed_by issuer details s.
Proof.
  intros Hl. unfold verify_cert_step. rewrite Hverify. intros (s & _ & H)%bind_ok.
  unfold from_djb_public_key_bytes in H. rewrite Hl in H. cbn in H.
  exists s. unfold signed_by. by destruct (public_verify _ _ _).
Qed.
Lemma array32_inv {E} b (e : E) a : array32 b e = Ok a -> a = b /\ zlen b = 32.
Proof. unfold array32. destruct (Z.eqb_spec (zlen b) 32); [|done]. by intros [= <-]. Qed.
Lemma verify_server_cert_ok cert static v :
  zlen static = 32 -> verify_server_cert cert static = Ok v -> certified v /\ leaf_key v = static.
Proof.
  intros Hst. unfold verify_server_cert. intros (chain & _ & H)%bind_ok. apply bind_ok in H as (im & _ & H).
  apply bind_ok in H as (leaf & _ & H). apply bind_ok in H as (bi & _ & H). apply bind_ok in H as (i & Hi & H).
  apply ok_or_ok in Hi. destruct (Z.eqb_spec (default 0 (d_issuer_serial i)) WA_CERT_ISSUER_SERIAL) as [Hser|]; [|done].
  cbn [negb] in H. destruct (bytes_eqb (default [] (d_key i)) []) eqn:Hk; [done|].
  apply bind_ok in H as (key & Hkey & H). apply array32_inv in Hkey as [-> Hkl].
  apply bind_ok in H as ([] & Hv1 & H). apply verify_cert_step_ok in Hv1 as [s1 Hv1]; [|done].
  apply bind_ok in H as (bl & _ & H). apply bind_ok in H as (l & Hl & H). apply ok_or_ok in Hl.
  destruct (Z.eqb_spec (default 0 (d_issuer_serial l)) (default 0 (d_serial i))) as [Hser'|]; [|done].
  cbn [negb] in H. destruct (bytes_eqb (default [] (d_key l)) static) eqn:Hlk; [|done]. cbn [negb] in H.
  apply bytes_eqb_eq in Hlk. apply bind_ok in H as ([] & Hv2 & H). apply verify_cert_step_ok in Hv2 as [s2 Hv2]; [|done].
  injection H as <-. split; [|done]. exists bi, s1, i, bl, s2, l.
  cbn [intermediate_key leaf_key intermediate_not_before intermediate_not_after leaf_not_before leaf_not_after].
  split_and!; try done.
  - destruct (d_key i); [done|]. by apply bytes_eqb_neq in Hk.
  - destruct (d_key l); cbn in Hlk; [by rewrite Hlk|]. by subst static.
Qed.

(** ** The chain of a handshake *)

(** Nothing or a certified chain. *)
Definition chain_ok (o : option VerifiedServerCertChain) : Prop := forall v, o = Some v -> certified v.
Definition keeps_chain {A} (m : HS A) : Prop := forall h, chain_ok (h_chain h) -> chain_ok (h_chain (fst (m h))).

Lemma keeps_chain_bind {A B} (m : HS A) (f : A -> HS B) :
  keeps_chain m -> (forall a, keeps_chain (f a)) -> keeps_chain (m ≫= f).
Proof.
  intros Hm Hf h Hh. unfold mbind, HS_bind. specialize (Hm h Hh). destruct (m h) as [h' [a| | |]]; try done.
  by apply Hf.
Qed.
Lemma keeps_chain_lift {A} (f : NoiseState -> NoiseState * outcome NoiseError A) : keeps_chain (h_lift f).
Proof. intros h Hh. unfold h_lift. by destruct (f (h_noise h)). Qed.
Lemma keeps_chain_pure {A} (o : outcome HandshakeError A) : keeps_chain (h_pure o).
Proof. by intros h Hh. Qed.
Lemma keeps_chain_mix a b : keeps_chain (mix_shared_secret a b).
Proof.
  apply keeps_chain_bind; [apply keeps_chain_pure|]. intros k. apply keeps_chain_bind; [apply keeps_chain_pure|].
  intros p. apply keeps_chain_lift.
Qed.
Lemma keeps_chain_if_ok {A B} (o : outcome HandshakeError A) (f : A -> HS B) :
  (forall a, o = Ok a -> keeps_chain (f a)) -> keeps_chain (h_pure o ≫= f).
Proof. intros Hf h Hh. unfold mbind, HS_bind, h_pure. destruct o; [by apply Hf|done|done|done]. Qed.
Lemma read_keeps_chain e s payload resp : keeps_chain (read_xx_server_hello e s payload resp).
Proof.
  apply keeps_chain_bind; [apply keeps_chain_pure|]. intros [[eph sc] cc].
  apply keeps_chain_bind; [apply keeps_chain_pure|]. intros server_eph. unfold process_xx_server_hello_into.
  apply keeps_chain_bind; [by intros h Hh|]. intros []. apply keeps_chain_bind; [apply keeps_chain_mix|]. intros [].
  apply keeps_chain_bind; [apply keeps_chain_lift|]. intros st. apply keeps_chain_if_ok. intros key [-> Hl]%array32_inv.
  apply keeps_chain_bind; [apply keeps_chain_mix|]. intros []. apply keeps_chain_bind; [apply keeps_chain_lift|].
  intros cert. apply keeps_chain_if_ok. intros chain Hchain.
  assert (Hc : certified chain).
  { destruct (verify_server_cert cert st) as [v| | |] eqn:Hv; try done. injection Hchain as <-.
    by apply (verify_server_cert_ok _ _ _ Hl Hv). }
  apply keeps_chain_bind; [by intros h _ v [= <-]|]. intros [].
  apply keeps_chain_bind; [apply keeps_chain_lift|]. intros pk. apply keeps_chain_bind; [apply keeps_chain_mix|].
  intros []. apply keeps_chain_bind; [apply keeps_chain_lift|]. intros ep. by intros h Hh.
Qed.
Lemma finish_chain_ok h out : chain_ok (h_chain h) -> xx_finish_of h = Ok out -> certified (xo_chain out).
Proof.
  intros Hh. unfold xx_finish_of. intros (c & Hc & H)%bind_ok. apply ok_or_ok in Hc.
  apply bind_ok in H as ([w r] & _ & H). injection H as <-. by apply Hh.
Qed.

Lemma io_bind_ok {A B} (m : IO A) (f : A -> IO B) w w' b :
  (m ≫= f) w = (w', Ok b) -> exists a w1, m w = (w1, Ok a) /\ f a w1 = (w', Ok b).
Proof. unfold mbind, IO_bind. destruct (m w) as [w1 [a| | |]]; try done. eauto. Qed.
Lemma io_core_ok {A} (o : outcome HandshakeError A) w w' a : io_core o w = (w', Ok a) -> w' = w /\ o = Ok a.
Proof. unfold io_core. by destruct o; intros [= <- <-]. Qed.

(** The end that XX and the fallback have in common. *)
Lemma xx_end_ok h o w w' out :
  chain_ok (h_chain h) ->
  (client_finish_bytes ← io_core o; framed ← io_frame (encode_frame client_finish_bytes None); _ ← send framed;
   out ← io_core (xx_finish_of h); mret (mkSuccess (xo_write out) (xo_read out) (Some (xo_chain out)))) w
  = (w', Ok out) -> chain_ok (hs_chain out) /\ hs_chain out <> None.
Proof.
  intros Hh (? & ? & _ & H)%io_bind_ok. apply io_bind_ok in H as (? & ? & _ & H).
  apply io_bind_ok in H as (? & ? & _ & H). apply io_bind_ok in H as (res & ? & Hx & H).
  apply io_core_ok in Hx as [-> Hx]. injection H as <- <-. split; [|done]. intros v [= <-]. by eapply finish_chain_ok.
Qed.
Lemma run_pattern_certified random d p w w' out :
  run_pattern random d p w = (w', Ok out) ->
  chain_ok (hs_chain out) /\ (p = PatternXx -> hs_chain out <> None).
Proof.
  assert (Hread : forall e s payload resp st h o,
    read_xx_server_hello e s payload resp (mkHand st None) = (h, o) -> chain_ok (h_chain h)).
  { intros e s payload resp st h o Hr. pose proof (read_keeps_chain e s payload resp (mkHand st None)) as Hk.
    rewrite Hr in Hk. by apply Hk. }
  destruct p as [|key]; cbn [run_pattern].
  - unfold run_xx_handshake. cbv zeta. intros (? & ? & _ & H)%io_bind_ok. apply io_bind_ok in H as (resp & ? & _ & H).
    unfold read_server_hello_and_build_client_finish, xx_new in H. cbn [xx_hand xx_ephemeral xx_static xx_payload] in H.
    destruct (read_xx_server_hello _ _ _ _ _) as [h o] eqn:Hr. apply (xx_end_ok h) in H; [|by eapply Hread].
    by destruct H.
  - unfold run_ik_handshake. cbv zeta. destruct (ik_build_client_hello _) as [ik hello].
    intros (? & ? & _ & H)%io_bind_ok. apply io_bind_ok in H as (? & ? & _ & H).
    apply io_bind_ok in H as (resp & ? & _ & H). apply io_bind_ok in H as (o & ? & _ & H).
    split; [|done]. destruct o as [out'|inputs]; [injection H as <- <-; done|].
    apply io_bind_ok in H as (? & ? & _ & H). unfold fb_build_client_finish, from_ik_failure in H.
    cbn [fb_hand fb_ephemeral fb_static fb_payload fb_server_hello_bytes] in H.
    destruct (read_xx_server_hello _ _ _ _ _) as [h o] eqn:Hr. apply (xx_end_ok h) in H; [|by eapply Hread].
    by destruct H.
Qed.

(** ** The cache *)

(** What is cached was certified. *)
Definition trusted (cn : Conn) : Prop :=
  forall c, Connect.server_cert_chain (conn_device cn) = Some c -> exists v, certified v /\ c = cached_from v.
(** The attempts of a process, with their randomness, their times and what the network does. *)
Definition attempts (l : list (bytes * Z * Wire)) (cn : Conn) : Conn :=
  fold_left (fun cn '(random, now, w) => fst (fst (do_handshake random now cn w))) l cn.

Lemma do_handshake_trusted random now cn w : trusted cn -> trusted (fst (fst (do_handshake random now cn w))).
Proof.
  intros Ht. unfold do_handshake. cbv zeta.
  destruct (run_pattern _ _ _ _) as [w' [out|e| |]] eqn:Hr;
    [|cbn [fst]; match goal with |- context [if ?b then _ else _] => by destruct b end|done|done].
  apply run_pattern_certified in Hr as [Hc _]. destruct (hs_chain out) as [v|]; [|done].
  destruct (is_registered (conn_device cn)); [|done]. intros c [= <-]. exists v. split; [by apply Hc|done].
Qed.
Lemma attempts_trusted l cn : trusted cn -> trusted (attempts l cn).
Proof.
  revert cn. induction l as [|[[random now] w] l IH]; intros cn Ht; [done|]. cbn. by apply IH, do_handshake_trusted.
Qed.
(** The pattern of the next attempt, from what is cached. *)
Lemma select_ik d failures now key :
  select_pattern d failures now = PatternIk key ->
  exists c, Connect.server_cert_chain d = Some c /\ c_key (c_leaf c) = key /\ failures < IK_FAILURE_THRESHOLD
    /\ c_not_before (c_leaf c) <= now < c_not_after (c_leaf c)
    /\ c_not_before (c_intermediate c) <= now < c_not_after (c_intermediate c).
Proof.
  unfold select_pattern. destruct (is_registered d); [|done]. cbn [negb].
  destruct (Z.leb_spec IK_FAILURE_THRESHOLD failures); [done|].
  destruct (Connect.server_cert_chain d) as [c|]; [|done]. destruct (_ || _) eqn:Hw; [done|]. intros [= <-].
  exists c. split; [done|]. split; [done|]. split; [done|]. lia.
Qed.

(** C24: after any sequence of connections, whatever the network and the server did, a client
    whose cached chain was certified (or that had none) attempts IK only with a key that the
    root key certifies, through the intermediate one, at a time when both certificates are
    valid; and a handshake that ends with a chain ends with a certified one - always, in XX.
    No server without such a certificate completes XX, and no answer of any server can place
    its key in the cache. *)
Theorem connections_certified l cn random now w :
  trusted cn ->
  let cn' := attempts l cn in
  let p := select_pattern (conn_device cn') (ik_handshake_failures cn') now in
  (forall key, p = PatternIk key ->
     exists v, certified v /\ leaf_key v = key /\ leaf_not_before v <= now < leaf_not_after v
       /\ intermediate_not_before v <= now < intermediate_not_after v)
  /\ (forall w' out, run_pattern random (conn_device cn') p w = (w', Ok out) ->
        (forall v, hs_chain out = Some v -> certified v) /\ (p = PatternXx -> hs_chain out <> None)).
Proof.
  intros Ht. cbv zeta. split.
  - intros key Hp. apply select_ik in Hp as (c & Hc & Hk & _ & Hl & Hi).
    destruct (attempts_trusted l cn Ht c Hc) as (v & Hv & ->). by exists v.
  - intros w' out Hr. by apply run_pattern_certified in Hr.
Qed.
End Safety.

(** ** An honest server *)

(** The bytes arrive, cut anywhere, perhaps with more after them. *)
Inductive delivers : bytes -> list Recv -> Prop :=
  | delivers_done l : delivers [] l
  | delivers_connected b l : delivers b l -> delivers b (Received EConnected :: l)
  | delivers_data d b l : delivers b l -> delivers (d ++ b) (Received (EData d) :: l).

Definition framed (payload : bytes) : bytes := to_be_bytes 3 (zlen payload) ++ payload.
Lemma frame_head (payload : bytes) :
  zlen payload < 2 ^ 24 ->
  exists b0 b1 b2, framed payload = b0 :: b1 :: b2 :: payload /\ frame_length b0 b1 b2 = zlen payload.
Proof.
  intros Hp. pose proof (zlen_nonneg payload) as Hn. pose proof (to_be_bytes_length 3 (zlen payload)) as Hl.
  pose proof (to_be_bytes_are_bytes 3 (zlen payload)) as Hb.
  pose proof (from_to_be_bytes 3 (zlen payload)) as Hf. unfold framed.
  destruct (to_be_bytes 3 (zlen payload)) as [|b0 [|b1 [|b2 []]]]; try done. exists b0, b1, b2. split; [done|].
  apply Forall_cons in Hb as [? Hb]. apply Forall_cons in Hb as [? Hb]. apply Forall_cons in Hb as [? _].
  rewrite frame_length_be by done. apply Hf. change (2 ^ (8 * Z.of_nat 3)) with (2 ^ 24). lia.
Qed.

Section Honest.
Context {C : Crypto} {DK : Dalek} {HP : HandshakeProto} {BC : BuildConfig}.
Context {LC : CryptoLaws} {TC : CryptoTotal} {LD : DalekLaws} {LP : HandshakeProtoLaws}.

Lemma decode_frame_part payload buf rest :
  zlen payload < 2 ^ 24 -> buf ++ rest = framed payload ->
  decode_frame (mkFrameDecoder buf)
  = match rest with [] => Ok (Some payload, mkFrameDecoder []) | _ => Ok (None, mkFrameDecoder buf) end.
Proof.
  intros Hp Heq. destruct (frame_head payload Hp) as (b0 & b1 & b2 & Hh & Hn). rewrite Hh in Heq.
  assert (Hlen : zlen buf + zlen rest = 3 + zlen payload)
    by (rewrite <- zlen_app, Heq, !zlen_cons; lia).
  destruct (short_cases buf) as [Hs|(c0 & c1 & c2 & r & ->)].
  - rewrite decode_frame_short by done. pose proof (zlen_nonneg payload). destruct rest; [rewrite zlen_nil in Hlen; lia|done].
  - injection Heq as -> -> -> Heq. rewrite decode_frame_cons, Hn. cbv zeta. subst payload.
    rewrite zlen_app. destruct rest as [|x rest].
    + rewrite app_nil_r, zlen_nil, Z.add_0_r, Z.leb_refl.
      unfold upto, from, zlen. by rewrite Nat2Z.id, take_ge, drop_ge by lia.
    + rewrite zlen_cons. pose proof (zlen_nonneg rest). by destruct (Z.leb_spec (zlen r + (1 + zlen rest)) (zlen r)); [lia|].
Qed.
Lemma recv_delivered b l :
  delivers b l -> forall payload buf, zlen payload < 2 ^ 24 -> b <> [] -> buf ++ b = framed payload ->
  exists l', recv_loop l (mkFrameDecoder buf) = (l', Ok payload).
Proof.
  induction 1 as [l|b l _ IH|d b l Hd IH]; intros payload buf Hp Hb Heq; [done|by apply IH|].
  cbn [recv_loop]. unfold feed. cbn [fd_buffer]. rewrite app_assoc in Heq.
  rewrite (decode_frame_part payload (buf ++ d) b Hp Heq). destruct b as [|x b]; [by exists l|].
  by apply IH.
Qed.

(** *** The client's messages go out *)

Definition answers_ok (w : Wire) : Prop := Forall (fun b => b = true) (w_answers w).
Lemma io_bind_step {A B} (m : IO A) (f : A -> IO B) w w1 a : m w = (w1, Ok a) -> (m ≫= f) w = f a w1.
Proof. unfold mbind, IO_bind. by intros ->. Qed.
Lemma send_ok data w :
  answers_ok w -> exists l, send data w = (mkWire (w_events w) l (w_sent w ++ [data]) (w_fallback w), Ok tt)
    /\ Forall (fun b => b = true) l.
Proof.
  unfold answers_ok, send. destruct (w_answers w) as [|b l]; intros H; [by exists []|].
  apply Forall_cons in H as [-> H]. eauto.
Qed.
Lemma frame_ok payload header w :
  zlen payload < 2 ^ 24 -> io_frame (encode_frame payload header) w = (w, Ok (default [] header ++ framed payload)).
Proof.
  intros Hp. unfold io_frame, encode_frame. rewrite encode_frame_bounds.
  by destruct (Z.ltb_spec (zlen payload) (2 ^ 24)); [|lia].
Qed.
Lemma send_first_ok device payload w :
  zlen payload < 2 ^ 24 -> answers_ok w ->
  exists w1, send_first_handshake_message device payload w = (w1, Ok tt)
    /\ w_events w1 = w_events w /\ answers_ok w1 /\ w_fallback w1 = w_fallback w
    /\ w_sent w1 = w_sent w ++ [fst (build_handshake_header (edge_routing_info device)) ++ framed payload].
Proof.
  intros Hp Hw. unfold send_first_handshake_message. destruct (build_handshake_header _) as [header used].
  erewrite io_bind_step by by apply frame_ok. destruct (send_ok ((default [] (Some header)) ++ framed payload) w Hw)
    as (l & Hs & Hl). rewrite Hs. by eexists.
Qed.
Lemma recv_ok reply w :
  zlen reply < 2 ^ 24 -> delivers (framed reply) (w_events w) ->
  exists l, recv_frame frame_decoder_new w = (mkWire l (w_answers w) (w_sent w) (w_fallback w), Ok reply).
Proof.
  intros Hr Hd. destruct (recv_delivered _ _ Hd reply [] Hr) as [l Hl]; [|done|].
  - destruct (frame_head reply Hr) as (? & ? & ? & -> & _). done.
  - exists l. unfold recv_frame, frame_decoder_new. by rewrite Hl.
Qed.

(** *** The server's side *)

Definition hello_of (random : bytes) (device : Device) (p : HandshakePattern) : outcome HandshakeError bytes :=
  match p with
  | PatternXx => Ok (xx_build_client_hello (xx_new random (noise_key device) (client_payload device) WA_CONN_HEADER))
  | PatternIk key =>
      snd (ik_build_client_hello (ik_new random (noise_key device) key (client_payload device) WA_CONN_HEADER))
  end.
(** [accept]: whether an IK hello is accepted or answered in the fallback pattern. *)
Definition honest_reply (r : TestResponder) (rs : bytes) (p : HandshakePattern) (accept : bool) (hello : bytes)
    : outcome HandshakeError bytes :=
  match p, accept with
  | PatternXx, _ => snd (xx_serve_ext r hello NOISE_PATTERN_XX WA_CONN_HEADER rs)
  | PatternIk _, true => fst <$> ik_serve_accept r hello WA_CONN_HEADER rs
  | PatternIk _, false => snd (xx_serve_ext r hello NOISE_PATTERN_XXFALLBACK WA_CONN_HEADER rs)
  end.
Definition honest_run (random rs : bytes) (device : Device) (p : HandshakePattern) (accept : bool)
    (r : TestResponder) : outcome HandshakeError Connected :=
  match p, accept with
  | PatternXx, _ => run_xx random rs (noise_key device) (client_payload device) WA_CONN_HEADER r
  | PatternIk _, true => run_ik random rs (noise_key device) (client_payload device) WA_CONN_HEADER r
  | PatternIk key, false => run_ik_rejected random rs (noise_key device) key (client_payload device) WA_CONN_HEADER r
  end.

(** The end that XX and the fallback have in common. *)
Lemma xx_end_step h finish w out :
  xx_finish_of h = Ok out -> zlen finish < 2 ^ 24 -> answers_ok w ->
  exists w',
    (client_finish_bytes ← io_core (Ok finish); framed ← io_frame (encode_frame client_finish_bytes None);
     _ ← send framed; out ← io_core (xx_finish_of h);
     mret (mkSuccess (xo_write out) (xo_read out) (Some (xo_chain out)))) w
    = (w', Ok (mkSuccess (xo_write out) (xo_read out) (Some (xo_chain out)))).
Proof.
  intros Hout Hz Hw. erewrite io_bind_step by done. erewrite io_bind_step by by apply frame_ok.
  destruct (send_ok (default [] None ++ framed finish) w Hw) as (l & Hs & _). erewrite io_bind_step by exact Hs.
  erewrite io_bind_step by (unfold io_core; by rewrite Hout). by eexists.
Qed.
Lemma drive_xx random rs device r k reply w :
  run_xx random rs (noise_key device) (client_payload device) WA_CONN_HEADER r = Ok k ->
  snd (xx_serve_ext r (xx_build_client_hello (xx_new random (noise_key device) (client_payload device) WA_CONN_HEADER))
         NOISE_PATTERN_XX WA_CONN_HEADER rs) = Ok reply ->
  zlen (xx_build_client_hello (xx_new random (noise_key device) (client_payload device) WA_CONN_HEADER)) < 2 ^ 24 ->
  zlen reply < 2 ^ 24 -> zlen (default [] (cn_finish k)) < 2 ^ 24 ->
  delivers (framed reply) (w_events w) -> answers_ok w ->
  exists w', run_xx_handshake random device w = (w', Ok (mkSuccess (cn_write k) (cn_read k) (cn_chain k))).
Proof.
  intros Hrun Hreply Hz1 Hz2 Hz3 Hd Hw. unfold run_xx in Hrun. cbv zeta in Hrun.
  unfold run_xx_handshake. cbv zeta. set (c := xx_new _ _ _ _) in *.
  destruct (xx_serve_ext _ _ _ _ _) as [srv rep]. cbn [snd] in Hreply. subst rep. cbn [mbind outcome_bind] in Hrun.
  destruct (send_first_ok device _ w Hz1 Hw) as (w1 & Hs & He & Hw1 & _). erewrite io_bind_step by exact Hs.
  rewrite <- He in Hd. destruct (recv_ok reply w1 Hz2 Hd) as [l Hl]. erewrite io_bind_step by exact Hl.
  destruct (read_server_hello_and_build_client_finish c reply) as [c' fin]. apply bind_ok in Hrun as (finish & -> & Hrun).
  apply bind_ok in Hrun as (out & Hout & Hrun). apply bind_ok in Hrun as (served & _ & Hrun). injection Hrun as <-.
  cbn [cn_finish default from_option id] in Hz3. by apply (xx_end_step (xx_hand c')).
Qed.
Lemma drive_ik random rs device r k hello reply w :
  run_ik random rs (noise_key device) (client_payload device) WA_CONN_HEADER r = Ok k ->
  hello_of random device (PatternIk (server_static_pub r)) = Ok hello ->
  fst <$> ik_serve_accept r hello WA_CONN_HEADER rs = Ok reply ->
  zlen hello < 2 ^ 24 -> zlen reply < 2 ^ 24 -> delivers (framed reply) (w_events w) -> answers_ok w ->
  exists w', run_ik_handshake random device (server_static_pub r) w
    = (w', Ok (mkSuccess (cn_write k) (cn_read k) (cn_chain k))).
Proof.
  intros Hrun Hhello Hreply Hz1 Hz2 Hd Hw. unfold run_ik in Hrun. unfold hello_of in Hhello. unfold run_ik_handshake. cbv zeta.
  destruct (ik_build_client_hello _) as [ik o]. cbn [snd] in Hhello. subst o. cbn [mbind outcome_bind] in Hrun.
  destruct (ik_serve_accept r hello WA_CONN_HEADER rs) as [[rep served]| | |]; try done. cbn in Hreply. injection Hreply as ->.
  cbn [mbind outcome_bind] in Hrun. erewrite io_bind_step by done.
  destruct (send_first_ok device _ w Hz1 Hw) as (w1 & Hs & He & Hw1 & _). erewrite io_bind_step by exact Hs.
  rewrite <- He in Hd. destruct (recv_ok reply w1 Hz2 Hd) as [l Hl]. erewrite io_bind_step by exact Hl.
  apply bind_ok in Hrun as (o & Ho & Hrun). erewrite io_bind_step by (unfold io_core; by rewrite Ho).
  destruct o as [out|]; [|done]. injection Hrun as <-. by eexists.
Qed.
Lemma drive_fallback random rs device r key k hello reply w :
  run_ik_rejected random rs (noise_key device) key (client_payload device) WA_CONN_HEADER r = Ok k ->
  hello_of random device (PatternIk key) = Ok hello ->
  snd (xx_serve_ext r hello NOISE_PATTERN_XXFALLBACK WA_CONN_HEADER rs) = Ok reply ->
  zlen hello < 2 ^ 24 -> zlen reply < 2 ^ 24 -> zlen (default [] (cn_finish k)) < 2 ^ 24 ->
  delivers (framed reply) (w_events w) -> answers_ok w ->
  exists w', run_ik_handshake random device key w = (w', Ok (mkSuccess (cn_write k) (cn_read k) (cn_chain k))).
Proof.
  intros Hrun Hhello Hreply Hz1 Hz2 Hz3 Hd Hw. unfold run_ik_rejected in Hrun. unfold hello_of in Hhello.
  unfold run_ik_handshake. cbv zeta. destruct (ik_build_client_hello _) as [ik o]. cbn [snd] in Hhello. subst o.
  cbn [mbind outcome_bind] in Hrun. destruct (xx_serve_ext _ _ _ _ _) as [srv rep]. cbn [snd] in Hreply. subst rep.
  cbn [mbind outcome_bind] in Hrun. erewrite io_bind_step by done.
  destruct (send_first_ok device _ w Hz1 Hw) as (w1 & Hs & He & Hw1 & _). erewrite io_bind_step by exact Hs.
  rewrite <- He in Hd. destruct (recv_ok reply w1 Hz2 Hd) as [l Hl]. erewrite io_bind_step by exact Hl.
  apply bind_ok in Hrun as (o & Ho & Hrun). erewrite io_bind_step by (unfold io_core; by rewrite Ho).
  destruct o as [|inputs]; [done|]. erewrite io_bind_step by done. cbv zeta in Hrun.
  destruct (fb_build_client_finish _) as [f fin]. apply bind_ok in Hrun as (finish & -> & Hrun).
  apply bind_ok in Hrun as (out & Hout & Hrun). apply bind_ok in Hrun as (served & _ & Hrun). injection Hrun as <-.
  cbn [cn_finish default from_option id] in Hz3. by apply (xx_end_step (fb_hand f)).
Qed.

(** The messages exist, and the ClientHello fits a frame. *)
Lemma xx_messages random rs device r k :
  run_xx random rs (noise_key device) (client_payload device) WA_CONN_HEADER r = Ok k ->
  exists hello reply, hello_of random device PatternXx = Ok hello
    /\ snd (xx_serve_ext r hello NOISE_PATTERN_XX WA_CONN_HEADER rs) = Ok reply.
Proof.
  unfold run_xx. cbv zeta. intros Hrun. eexists. destruct (xx_serve_ext _ _ _ _ _) as [srv rep] eqn:Hs.
  apply bind_ok in Hrun as (reply & -> & _). exists reply. split; [reflexivity|]. by rewrite Hs.
Qed.
Lemma ik_messages random rs device r k :
  run_ik random rs (noise_key device) (client_payload device) WA_CONN_HEADER r = Ok k ->
  exists hello reply, hello_of random device (PatternIk (server_static_pub r)) = Ok hello
    /\ fst <$> ik_serve_accept r hello WA_CONN_HEADER rs = Ok reply.
Proof.
  unfold run_ik, hello_of. intros Hrun. destruct (ik_build_client_hello _) as [ik o].
  apply bind_ok in Hrun as (hello & -> & Hrun). apply bind_ok in Hrun as ([reply served] & Hs & _).
  exists hello, reply. split; [done|]. by rewrite Hs.
Qed.
Lemma fallback_messages random rs device key r k :
  run_ik_rejected random rs (noise_key device) key (client_payload device) WA_CONN_HEADER r = Ok k ->
  exists hello reply, hello_of random device (PatternIk key) = Ok hello
    /\ snd (xx_serve_ext r hello NOISE_PATTERN_XXFALLBACK WA_CONN_HEADER rs) = Ok reply.
Proof.
  unfold run_ik_rejected, hello_of. intros Hrun. destruct (ik_build_client_hello _) as [ik o].
  apply bind_ok in Hrun as (hello & -> & Hrun). destruct (xx_serve_ext _ _ _ _ _) as [srv rep] eqn:Hs.
  apply bind_ok in Hrun as (reply & -> & _). exists hello, reply. split; [done|]. by rewrite Hs.
Qed.
Lemma hello_small random device p hello :
  fine_random random -> kp_wf (noise_key device) -> (forall key, p = PatternIk key -> zlen key = 32) ->
  hello_of random device p = Ok hello -> zlen hello <= zlen (client_payload device) + 200.
Proof.
  intros Hr Hk Hkey Hh. apply generated_wf in Hr. pose proof (zlen_nonneg (client_payload device)).
  destruct p as [|key]; cbn [hello_of] in Hh.
  - injection Hh as <-. pose proof (handshake_size (build_client_hello (public_key_bytes (kp_public (keypair_generate random))))) as Hz.
    unfold message_size in Hz.
    cbn [client_hello server_hello client_finish build_client_hello ch_ephemeral ch_static ch_payload field_size] in Hz.
    pose proof (kp_public_len _ Hr) as Hl.
    unfold xx_build_client_hello, xx_new. cbn [xx_ephemeral]. lia.
  - destruct (ik_hello_any _ (noise_key device) (client_payload device) Hr Hk key (noise_new NOISE_PATTERN_IK WA_CONN_HEADER)
      (Hkey key eq_refl)) as (st4 & ch & _ & Hhello & Hz).
    unfold ik_build_client_hello, ik_new in Hh. cbn [ik_hand ik_ephemeral ik_static ik_server_static_pub ik_payload] in Hh.
    rewrite Hhello in Hh. by injection Hh as <-.
Qed.

(** What the client remembers after a success. *)
Definition remembered (d : Device) (chain : option VerifiedServerCertChain) : Device :=
  match chain with
  | Some v => if is_registered d then set_server_cert_chain d (Some (cached_from v)) else d
  | None => d
  end.
Lemma do_handshake_ok random now cn w w' out :
  let p := select_pattern (conn_device cn) (ik_handshake_failures cn) now in
  run_pattern random (conn_device cn) p (mkWire (w_events w) (w_answers w) (w_sent w) false) = (w', Ok out) ->
  do_handshake random now cn w = (mkConn (remembered (conn_device cn) (hs_chain out)) 0, w', Ok (hs_write out, hs_read out)).
Proof. cbv zeta. intros Hr. unfold do_handshake. cbv zeta. by rewrite Hr. Qed.

(** The chain that the client stores after a handshake with a server of this chain: after XX or a
    fallback that of the server, if the client is registered; an accepted IK stores nothing, and
    the chain cached before stays, whose leaf has the server's key. *)
Definition stored_chain (r : TestResponder) (chain : VerifiedServerCertChain) (d : Device) (p : HandshakePattern)
    (accept : bool) (stored : option CachedServerCertChain) : Prop :=
  match p, accept with
  | PatternIk _, true => stored = server_cert_chain d
      /\ exists c, stored = Some c /\ c_key (c_leaf c) = server_static_pub r
  | _, _ => stored = if is_registered d then Some (cached_from chain) else server_cert_chain d
  end.
Lemma remembered_stored r chain d failures now accept :
  let p := select_pattern d failures now in
  (accept = true -> forall key, p = PatternIk key -> key = server_static_pub r) ->
  exists stored, stored_chain r chain d p accept stored
    /\ remembered d (match p, accept with PatternIk _, true => None | _, _ => Some chain end)
       = set_server_cert_chain d stored.
Proof.
  cbv zeta. intros Hacc. unfold stored_chain. destruct (select_pattern d failures now) as [|key] eqn:Hp; [|destruct accept].
  - eexists. split; [done|]. unfold remembered. by destruct d as [[] ? ? ? ?].
  - exists (server_cert_chain d). split; [|by destruct d]. split; [done|].
    specialize (Hacc eq_refl key eq_refl). unfold select_pattern in Hp.
    destruct (negb (is_registered d)); [done|]. destruct (IK_FAILURE_THRESHOLD <=? failures); [done|].
    destruct (server_cert_chain d) as [c|]; [|done].
    destruct (_ || _); [done|]. injection Hp as Hp. exists c. by rewrite Hp.
  - eexists. split; [done|]. unfold remembered. by destruct d as [[] ? ? ? ?].
Qed.

(** C23: with an honest server a connection succeeds.  Let the keys of the client and the server
    be well formed, the random bytes 32 each, the client's payload below 8 MiB, the server's
    certificate chain one that verifies for its key, and the leaf key of the cached chain, if IK
    is selected with it, 32 bytes.  Whichever pattern the cached chain and the failures of before
    select, the client's hello can be built and answered: in XX, or in IK accepted by the
    server whose key is cached, or in IK rejected by any other and continued as XX.  When the
    answer, below 16 MiB, arrives, cut anywhere, and the client's messages go out, the
    handshake ends with the keys that the server ends with; the server has the client's static key and payload; the
    failures are forgotten.  Of the device nothing changes but the stored chain: after XX and
    after a fallback a registered client has stored the chain that the server sent; an
    accepted IK carries no chain, and leaves the cached one, whose leaf key is the server's. *)
Theorem connect_honest random rs now cn r chain (accept : bool) :
  let d := conn_device cn in
  let p := select_pattern d (ik_handshake_failures cn) now in
  fine_random random -> fine_random rs -> kp_wf (noise_key d) -> kp_wf (identity_kp r) ->
  verify_server_cert (cert_chain_bytes r) (server_static_pub r) = Ok chain ->
  zlen (client_payload d) < 2 ^ 23 ->
  (forall key, p = PatternIk key -> zlen key = 32) ->
  (accept = true -> forall key, p = PatternIk key -> key = server_static_pub r) ->
  exists hello reply k stored,
    hello_of random d p = Ok hello /\ honest_reply r rs p accept hello = Ok reply
    /\ honest_run random rs d p accept r = Ok k
    /\ agreed (noise_key d) (client_payload d)
         (match p, accept with PatternIk _, true => None | _, _ => Some chain end) k
    /\ stored_chain r chain d p accept stored
    /\ (zlen reply < 2 ^ 24 -> forall w, delivers (framed reply) (w_events w) -> answers_ok w ->
        exists w', do_handshake random now cn w
                   = (mkConn (set_server_cert_chain d stored) 0, w', Ok (cn_write k, cn_read k))).
Proof.
  cbv zeta. intros Hr Hrs Hk Hid Hcert Hpay Hkey Hacc.
  destruct (remembered_stored r chain (conn_device cn) (ik_handshake_failures cn) now accept Hacc) as (stored & Hst & Hrem).
  pose proof (hello_small random (conn_device cn) (select_pattern (conn_device cn) (ik_handshake_failures cn) now)) as Hsmall.
  pose proof (do_handshake_ok random now cn) as Hdo. cbv zeta in Hdo.
  destruct (select_pattern _ _ _) as [|key]; [|destruct accept].
  - destruct (xx_completes random rs _ (client_payload (conn_device cn)) WA_CONN_HEADER r chain Hr Hrs Hk Hid Hcert) as (k & Hrun & Hag).
    destruct (xx_messages random rs _ r k Hrun) as (hello & reply & Hhello & Hreply).
    specialize (Hsmall hello Hr Hk Hkey Hhello). exists hello, reply, k, stored. split_and!; try done.
    rewrite <- Hrem, <- (proj1 Hag).
    intros Hz w Hd Hw. injection Hhello as <-. destruct (drive_xx random rs _ r k reply
      (mkWire (w_events w) (w_answers w) (w_sent w) false) Hrun Hreply) as [w' Hw']; try done; [lia| |].
    { destruct Hag as (_ & Hf & _). lia. }
    exists w'. exact (Hdo _ _ _ Hw').
  - pose proof (Hacc eq_refl key eq_refl) as ->.
    destruct (ik_completes random rs _ (client_payload (conn_device cn)) WA_CONN_HEADER r Hr Hrs Hk Hid) as (k & Hrun & Hag).
    destruct (ik_messages random rs _ r k Hrun) as (hello & reply & Hhello & Hreply).
    specialize (Hsmall hello Hr Hk Hkey Hhello). exists hello, reply, k, stored. split_and!; try done.
    rewrite <- Hrem, <- (proj1 Hag).
    intros Hz w Hd Hw. destruct (drive_ik random rs _ r k hello reply
      (mkWire (w_events w) (w_answers w) (w_sent w) false) Hrun Hhello Hreply) as [w' Hw']; try done; [lia|].
    exists w'. exact (Hdo _ _ _ Hw').
  - destruct (fallback_completes random rs _ key (client_payload (conn_device cn)) WA_CONN_HEADER r chain Hr Hrs Hk
      (Hkey key eq_refl) Hid Hcert) as (k & Hrun & Hag).
    destruct (fallback_messages random rs _ key r k Hrun) as (hello & reply & Hhello & Hreply).
    specialize (Hsmall hello Hr Hk Hkey Hhello). exists hello, reply, k, stored. split_and!; try done.
    rewrite <- Hrem, <- (proj1 Hag).
    intros Hz w Hd Hw. destruct (drive_fallback random rs _ r key k hello reply
      (mkWire (w_events w) (w_answers w) (w_sent w) false) Hrun Hhello Hreply) as [w' Hw']; try done; [lia| |].
    { destruct Hag as (_ & Hf & _). lia. }
    exists w'. exact (Hdo _ _ _ Hw').
Qed.

(** *** Bytes behind the ServerHello

    What arrives in one delivery with the ServerHello, behind it, is left in the decoder that
    the handshake drops: whatever it is, the connection goes on as if it had not come. *)
Lemma coalesced_bytes_lost reply extra l answers sent fallback :
  zlen reply < 2 ^ 24 ->
  recv_frame frame_decoder_new (mkWire (Received (EData (framed reply ++ extra)) :: l) answers sent fallback)
  = (mkWire l answers sent fallback, Ok reply).
Proof.
  intros Hr. destruct (frame_head reply Hr) as (b0 & b1 & b2 & Hh & Hn). unfold recv_frame, frame_decoder_new.
  cbn [w_events recv_loop]. unfold feed. cbn [fd_buffer app]. rewrite Hh. cbn [app]. rewrite decode_frame_cons, Hn.
  cbv zeta. rewrite zlen_app. pose proof (zlen_nonneg extra). destruct (Z.leb_spec (zlen reply) (zlen reply + zlen extra)); [|lia].
  by rewrite upto_app.
Qed.
End Honest.

(** ** An instance

    A field is a flag, a length and its bytes; signatures are made for the root key itself,
    which the toy group allows. *)

Definition enc_field (o : option bytes) : bytes := match o with None => [0] | Some b => 1 :: zlen b :: b end.
Definition dec_field (l : bytes) : option (option bytes * bytes) :=
  match l with
  | 0 :: r => Some (None, r)
  | 1 :: n :: r => Some (Some (upto n r), from n r)
  | _ => None
  end.
Fixpoint dec_fields (n : nat) (l : bytes) : option (list (option bytes)) :=
  match n with
  | O => Some []
  | S n => '(f, r) ← dec_field l; fs ← dec_fields n r; Some (f :: fs)
  end.
Lemma dec_enc_field o rest : dec_field (enc_field o ++ rest) = Some (o, rest).
Proof. destruct o as [b|]; [|done]. cbn. by rewrite upto_app, from_app. Qed.
Lemma dec_enc_fields fs : dec_fields (length fs) (concat (enc_field <$> fs)) = Some fs.
Proof.
  induction fs as [|f fs IH]; [done|]. cbn [length dec_fields fmap list_fmap concat]. rewrite dec_enc_field.
  cbn [mbind option_bind]. by rewrite IH.
Qed.
Lemma enc_field_size o : zlen (enc_field o) <= field_size o + 2.
Proof. destruct o as [b|]; cbn [enc_field field_size]; rewrite !zlen_cons, ?zlen_nil; lia. Qed.

Lemma fields_size fs :
  zlen (concat (enc_field <$> fs)) <= foldr Z.add 0 (field_size <$> fs) + 2 * Z.of_nat (length fs).
Proof.
  induction fs as [|f fs IH]; [done|]. cbn [fmap list_fmap concat foldr length]. rewrite zlen_app.
  pose proof (enc_field_size f). lia.
Qed.

Definition put_if {A B} (b : B) (o : option A) : option B := match o with Some _ => Some b | None => None end.
Definition flag {A} (o : option A) : option bytes := put_if [] o.
Definition message_fields (m : HandshakeMessage) : list (option bytes) :=
  [flag (client_hello m); client_hello m ≫= ch_ephemeral; client_hello m ≫= ch_static; client_hello m ≫= ch_payload;
   flag (server_hello m); server_hello m ≫= sh_ephemeral; server_hello m ≫= sh_static; server_hello m ≫= sh_payload;
   flag (client_finish m); client_finish m ≫= cf_static; client_finish m ≫= cf_payload].
Definition message_of (l : list (option bytes)) : option HandshakeMessage :=
  match l with
  | [c; c1; c2; c3; s; s1; s2; s3; f; f1; f2] =>
      Some (mkHandshakeMessage (put_if (mkClientHello c1 c2 c3) c) (put_if (mkServerHello s1 s2 s3) s) (put_if (mkClientFinish f1 f2) f))
  | _ => None
  end.
Definition chain_fields (c : CertChain) : list (option bytes) :=
  [flag (cc_leaf c); cc_leaf c ≫= cert_details; cc_leaf c ≫= cert_signature;
   flag (cc_intermediate c); cc_intermediate c ≫= cert_details; cc_intermediate c ≫= cert_signature].
Definition chain_of (l : list (option bytes)) : option CertChain :=
  match l with
  | [a; a1; a2; b; b1; b2] => Some (mkCertChain (put_if (mkCertificate a1 a2) a) (put_if (mkCertificate b1 b2) b))
  | _ => None
  end.
Definition details_fields (d : Details) : list (option bytes) :=
  [(fun z => [z]) <$> d_serial d; (fun z => [z]) <$> d_issuer_serial d; d_key d;
   (fun z => [z]) <$> d_not_before d; (fun z => [z]) <$> d_not_after d].
Definition details_of (l : list (option bytes)) : option Details :=
  match l with
  | [a; b; k; n; m] => Some (mkDetails (hd 0 <$> a) (hd 0 <$> b) k (hd 0 <$> n) (hd 0 <$> m))
  | _ => None
  end.

#[local] Instance toy_proto : HandshakeProto := {|
  handshake_encode m := concat (enc_field <$> message_fields m);
  handshake_decode b := dec_fields 11 b ≫= message_of;
  cert_chain_encode c := concat (enc_field <$> chain_fields c);
  cert_chain_decode b := dec_fields 6 b ≫= chain_of;
  details_encode d := concat (enc_field <$> details_fields d);
  details_decode b := dec_fields 5 b ≫= details_of
|}.
#[local] Instance toy_proto_laws : HandshakeProtoLaws.
Proof.
  split.
  - intros m. cbn [handshake_encode handshake_decode toy_proto]. change (dec_fields 11) with (dec_fields (length (message_fields m))).
    rewrite dec_enc_fields.
    by destruct m as [[[]|] [[]|] [[]|]].
  - intros m. cbn [handshake_encode toy_proto]. etrans; [apply fields_size|]. unfold message_size, message_fields.
    destruct m as [[[]|] [[]|] [[]|]]; cbn -[zlen field_size Z.add Z.mul Z.of_nat];
      rewrite ?(eq_refl : field_size (Some []) = 0), ?(eq_refl : field_size None = 0); lia.
  - intros c. cbn [cert_chain_encode cert_chain_decode toy_proto]. change (dec_fields 6) with (dec_fields (length (chain_fields c))).
    rewrite dec_enc_fields.
    by destruct c as [[[]|] [[]|]].
  - intros d. cbn [details_encode details_decode toy_proto]. change (dec_fields 5) with (dec_fields (length (details_fields d))).
    rewrite dec_enc_fields.
    by destruct d as [[] [] [] [] []].
Qed.
#[local] Instance checked : BuildConfig := false.
#[local] Instance toy_total : CryptoTotal (C := toy_crypto).
Proof.
  split.
  - intros k iv aad p _ Hiv. cbn [gcm_encrypt toy_crypto]. rewrite Hiv. by eexists.
  - intros salt ikm info. by eexists.
Qed.

Definition toy_sign (issuer details : bytes) : bytes :=
  let cap_r := compress (base_mul 1) in
  let a := scalar_from_bytes issuer in
  let h := scalar_from_bytes (sha512 (cap_r ++ compress a ++ details)) in
  cap_r ++ scalar_as_bytes ((h * a + 1) mod GROUP_ORDER).
Definition toy_server : KeyPair := keypair_generate (replicate 32 7).
Definition toy_cert (issuer : bytes) (d : Details) : NoiseCertificate :=
  mkCertificate (Some (details_encode d)) (Some (toy_sign issuer (details_encode d))).
Definition toy_chain : CertChain :=
  let issuer := replicate 32 3 in
  mkCertChain
    (Some (toy_cert issuer (mkDetails (Some 2) (Some 1) (Some (public_key_bytes (kp_public toy_server))) (Some 100) (Some 900))))
    (Some (toy_cert WA_CERT_PUB_KEY (mkDetails (Some 1) None (Some issuer) (Some 50) (Some 1000)))).
Definition toy_responder : TestResponder := mkResponder toy_server (cert_chain_encode toy_chain).
Definition toy_device : Device := mkDevice true (keypair_generate (replicate 32 11)) (str "login") None None.
Example toy_chain_verifies :
  exists v, verify_server_cert (cert_chain_bytes toy_responder) (server_static_pub toy_responder) = Ok v.
Proof. eexists. vm_compute. reflexivity. Qed.

Lemma toy_random n : 0 <= n < 256 -> fine_random (replicate 32 n).
Proof. intros Hn. split; [done|]. apply Forall_replicate. unfold is_byte. lia. Qed.

(** A client that remembers another key: IK is rejected, and the connection succeeds. *)
Definition toy_stale : Conn :=
  mkConn (set_server_cert_chain toy_device
    (Some (mkCachedChain (mkCachedCert (replicate 32 3) 50 1000) (mkCachedCert (replicate 32 8) 100 900)))) 0.
Lemma connect_honest_witness :
  exists chain hello reply k stored,
    let p := PatternIk (replicate 32 8) in
    let d := conn_device toy_stale in
    select_pattern d 0 500 = p
    /\ hello_of (replicate 32 21) d p = Ok hello /\ honest_reply toy_responder (replicate 32 22) p false hello = Ok reply
    /\ honest_run (replicate 32 21) (replicate 32 22) d p false toy_responder = Ok k
    /\ agreed (noise_key d) (client_payload d) (Some chain) k
    /\ stored_chain toy_responder chain d p false stored
    /\ (zlen reply < 2 ^ 24 -> forall w, delivers (framed reply) (w_events w) -> answers_ok w ->
        exists w', do_handshake (replicate 32 21) 500 toy_stale w
                   = (mkConn (set_server_cert_chain d stored) 0, w', Ok (cn_write k, cn_read k))).
Proof.
  destruct toy_chain_verifies as [chain Hchain]. exists chain.
  destruct (connect_honest (replicate 32 21) (replicate 32 22) 500 toy_stale toy_responder chain false)
    as (hello & reply & k & stored & H).
  - exact (toy_random 21 ltac:(lia)).
  - exact (toy_random 22 ltac:(lia)).
  - exact (generated_wf _ (toy_random 11 ltac:(lia))).
  - exact (generated_wf _ (toy_random 7 ltac:(lia))).
  - exact Hchain.
  - done.
  - intros key [= <-]. done.
  - done.
  - exists hello, reply, k, stored. split; [done|]. exact H.
Defined.

(** A first connection, and the next one with what it has cached. *)
Definition toy_wire : Wire :=
  let hello := xx_build_client_hello (xx_new (replicate 32 21) (noise_key toy_device) (client_payload toy_device) WA_CONN_HEADER) in
  match snd (xx_serve_ext toy_responder hello NOISE_PATTERN_XX WA_CONN_HEADER (replicate 32 22)) with
  | Ok reply => mkWire [Received (EData (upto 9 (framed reply))); Received (EData (from 9 (framed reply)))] [] [] false
  | _ => mkWire [] [] [] false
  end.
Lemma connections_certified_witness :
  let l := [(replicate 32 21, 500, toy_wire)] in
  let cn' := attempts l (mkConn toy_device 0) in
  let p := select_pattern (conn_device cn') (ik_handshake_failures cn') 600 in
  p = PatternIk (server_static_pub toy_responder)
  /\ exists v, certified v /\ leaf_key v = server_static_pub toy_responder /\ leaf_not_before v <= 600 < leaf_not_after v
       /\ intermediate_not_before v <= 600 < intermediate_not_after v.
Proof.
  assert (Hp : let cn' := attempts [(replicate 32 21, 500, toy_wire)] (mkConn toy_device 0) in
    select_pattern (conn_device cn') (ik_handshake_failures cn') 600 = PatternIk (server_static_pub toy_responder))
    by (vm_compute; reflexivity).
  split; [exact Hp|].
  apply (connections_certified (eq_refl : skip_cert_chain_verify = false) [(replicate 32 21, 500, toy_wire)]
    (mkConn toy_device 0) (replicate 32 23) 600 toy_wire); [|exact Hp].
  intros c Hc. done.
Defined.
