(* ===== verification/PortableCache.v ===== *)
(** * The in-process cache

    [src/portable_cache.rs]: a map with a capacity, a time to live and a time to idle.  The
    entries are in a hash map; their order of insertion is in a second map from sequence
    numbers to keys, kept sorted, whose first element is the next to evict.  Instants are
    nanoseconds of the monotonic clock, read by each call before it takes the lock, so that the
    instants of successive operations need not increase.

    The specification is a queue: the entries from the oldest to the newest, without sequence
    numbers.  The cache answers as the queue does; a value it returns is the one inserted last,
    not expired and not removed since; an entry is evicted only by as many newer ones as the
    capacity allows. *)

From stdpp Require Import prelude gmap sorting.
From S2P Require Import Prelude.

#[local] Open Scope Z_scope.

Section Cache.
Context {K V : Type} `{Countable K}.

Record CacheEntry : Type := mkEntry {
  en_value : V; en_inserted_at : Z; en_last_accessed_at : Z; en_seq : Z
}.
Record CacheInner : Type := mkInner {
  ci_map : gmap K CacheEntry; ci_order : list (Z * K); ci_next_seq : Z
}.
Record CacheConfig : Type := mkCacheConfig {
  max_capacity : option Z; time_to_live : option Z; time_to_idle : option Z
}.

Definition inner_new : CacheInner := mkInner ∅ [] 0.

(** [BTreeMap]: the pairs in increasing order of their keys. *)
Fixpoint btree_insert (seq : Z) (key : K) (order : list (Z * K)) : list (Z * K) :=
  match order with
  | [] => [(seq, key)]
  | (s, k) :: rest =>
      if seq <? s then (seq, key) :: order
      else if seq =? s then (seq, key) :: rest
      else (s, k) :: btree_insert seq key rest
  end.
Definition btree_remove (seq : Z) (order : list (Z * K)) : list (Z * K) :=
  filter (fun sk => sk.1 ≠ seq) order.

Definition remove_key (key : K) (c : CacheInner) : option CacheEntry * CacheInner :=
  match ci_map c !! key with
  | None => (None, c)
  | Some entry =>
      (Some entry, mkInner (delete key (ci_map c)) (btree_remove (en_seq entry) (ci_order c)) (ci_next_seq c))
  end.

(** The [while] loop pops the first of the order until there is room, or nothing to pop. *)
Fixpoint evict (cap : Z) (map : gmap K CacheEntry) (order : list (Z * K)) : gmap K CacheEntry * list (Z * K) :=
  if cap <=? Z.of_nat (size map) then
    match order with
    | (_, oldest_key) :: order => evict cap (delete oldest_key map) order
    | [] => (map, [])
    end
  else (map, order).

Definition insert_new (key : K) (value : V) (now : Z) (cap : option Z) (c : CacheInner) : CacheInner :=
  let '(map, order) := match cap with
                       | Some cap => evict cap (ci_map c) (ci_order c)
                       | None => (ci_map c, ci_order c)
                       end in
  let seq := ci_next_seq c in
  mkInner (<[key := mkEntry value now now seq]> map) (btree_insert seq key order) (wrap 64 (seq + 1)).

Definition saturating_since (now t : Z) : Z := Z.max 0 (now - t).

Section Operations.
Context (cfg : CacheConfig).

Definition times_expired (now inserted_at last_accessed_at : Z) : bool :=
  match time_to_live cfg with Some ttl => ttl <=? saturating_since now inserted_at | None => false end
  || match time_to_idle cfg with Some tti => tti <=? saturating_since now last_accessed_at | None => false end.
Definition entry_expired (e : CacheEntry) (now : Z) : bool :=
  times_expired now (en_inserted_at e) (en_last_accessed_at e).

(** [get] up to the release of its first lock.  Without a time to idle it only reads, and an
    expired entry is left to a second half that takes the write lock; the flag says that it is
    due. *)
Definition get_first (key : K) (now : Z) (c : CacheInner) : option V * bool * CacheInner :=
  match ci_map c !! key with
  | None => (None, false, c)
  | Some e =>
      match time_to_idle cfg with
      | None => if entry_expired e now then (None, true, c) else (Some (en_value e), false, c)
      | Some _ =>
          if entry_expired e now then (None, false, snd (remove_key key c))
          else
            (Some (en_value e), false,
             mkInner (<[key := mkEntry (en_value e) (en_inserted_at e) now (en_seq e)]> (ci_map c))
               (ci_order c) (ci_next_seq c))
      end
  end.
Definition get_reap (key : K) (now : Z) (c : CacheInner) : CacheInner :=
  match ci_map c !! key with
  | Some e => if entry_expired e now then snd (remove_key key c) else c
  | None => c
  end.
Definition pc_get (key : K) (now : Z) (c : CacheInner) : option V * CacheInner :=
  let '(r, reap, c) := get_first key now c in (r, if reap : bool then get_reap key now c else c).

Definition pc_insert (key : K) (value : V) (now : Z) (c : CacheInner) : CacheInner :=
  match ci_map c !! key with
  | Some e => mkInner (<[key := mkEntry value now now (en_seq e)]> (ci_map c)) (ci_order c) (ci_next_seq c)
  | None => if bool_decide (max_capacity cfg = Some 0) then c else insert_new key value now (max_capacity cfg) c
  end.
Definition insert_and_return (key : K) (value : V) (now : Z) (c : CacheInner) : V * CacheInner :=
  (value, pc_insert key value now c).

Definition pc_remove (key : K) (now : Z) (c : CacheInner) : option V * CacheInner :=
  match remove_key key c with
  | (None, c) => (None, c)
  | (Some e, c) => (if entry_expired e now then None else Some (en_value e), c)
  end.
Definition pc_invalidate (key : K) (c : CacheInner) : CacheInner := snd (remove_key key c).
Definition pc_clear (c : CacheInner) : CacheInner := mkInner ∅ [] (ci_next_seq c).
Definition entry_count (c : CacheInner) : Z := Z.of_nat (size (ci_map c)).
Definition snapshot_entries (c : CacheInner) : list (K * V) := prod_map id en_value <$> map_to_list (ci_map c).

(** The part of [run_pending_tasks] on the entries. *)
Definition evict_expired (now : Z) (c : CacheInner) : CacheInner :=
  let map := filter (fun ke => entry_expired ke.2 now = false) (ci_map c) in
  mkInner map (filter (fun sk => is_Some (map !! sk.2)) (ci_order c)) (ci_next_seq c).

(** ** Runs *)

Inductive CacheOp : Type :=
  | CGet (key : K) | CReap (key : K) | CInsert (key : K) (value : V) | CRemove (key : K)
  | CInvalidate (key : K) | CClear | CPending.

(** One operation, or one half of a [get], at the instant it has read. *)
Definition cache_step (op : CacheOp) (now : Z) (c : CacheInner) : option V * CacheInner :=
  match op with
  | CGet k => let '(r, _, c) := get_first k now c in (r, c)
  | CReap k => (None, get_reap k now c)
  | CInsert k v => (None, pc_insert k v now c)
  | CRemove k => pc_remove k now c
  | CInvalidate k => (None, pc_invalidate k c)
  | CClear => (None, pc_clear c)
  | CPending => (None, evict_expired now c)
  end.
Fixpoint cache_run (ops : list (CacheOp * Z)) (c : CacheInner) : list (option V) * CacheInner :=
  match ops with
  | [] => ([], c)
  | (op, now) :: ops =>
      let '(r, c) := cache_step op now c in let '(rs, c) := cache_run ops c in (r :: rs, c)
  end.
End Operations.

(** ** The queue it implements *)

Record Stamped : Type := mkStamped { st_value : V; st_inserted : Z; st_accessed : Z }.
Abbreviation Queue := (list (K * Stamped)).

Fixpoint assoc {A} (key : K) (l : list (K * A)) : option A :=
  match l with
  | [] => None
  | (k, a) :: l => if decide (k = key) then Some a else assoc key l
  end.
Definition without {A} (key : K) (l : list (K * A)) : list (K * A) := filter (fun ka => ka.1 ≠ key) l.
Definition update {A} (key : K) (a : A) (l : list (K * A)) : list (K * A) :=
  (fun kb => if decide (kb.1 = key) then (key, a) else kb) <$> l.
(** The newest [n]. *)
Definition newest {A} (n : Z) (l : list A) : list A := drop (length l - Z.to_nat n) l.

Section Specification.
Context (cfg : CacheConfig).

Definition stale (now : Z) (x : Stamped) : bool := times_expired cfg now (st_inserted x) (st_accessed x).
Definition queue_step (op : CacheOp) (now : Z) (q : Queue) : option V * Queue :=
  let idle := bool_decide (is_Some (time_to_idle cfg)) in
  match op with
  | CGet k =>
      match assoc k q with
      | None => (None, q)
      | Some x =>
          if stale now x then (None, if idle then without k q else q)
          else (Some (st_value x), if idle then update k (mkStamped (st_value x) (st_inserted x) now) q else q)
      end
  | CReap k => (None, match assoc k q with Some x => if stale now x then without k q else q | None => q end)
  | CInsert k v =>
      let x := mkStamped v now now in
      (None, match assoc k q, max_capacity cfg with
             | Some _, _ => update k x q
             | None, None => q ++ [(k, x)]
             | None, Some cap => if cap =? 0 then q else newest (cap - 1) q ++ [(k, x)]
             end)
  | CRemove k =>
      (match assoc k q with Some x => if stale now x then None else Some (st_value x) | None => None end,
       without k q)
  | CInvalidate k => (None, without k q)
  | CClear => (None, [])
  | CPending => (None, filter (fun kx => stale now kx.2 = false) q)
  end.
Fixpoint queue_run (ops : list (CacheOp * Z)) (q : Queue) : list (option V) * Queue :=
  match ops with
  | [] => ([], q)
  | (op, now) :: ops =>
      let '(r, q) := queue_step op now q in let '(rs, q) := queue_run ops q in (r :: rs, q)
  end.
End Specification.

(** ** Association lists *)

Lemma assoc_map {A} (l : list (K * A)) k : (list_to_map l : gmap K A) !! k = assoc k l.
Proof.
  induction l as [|[k' a] l IH]; [apply lookup_empty|]. cbn. destruct (decide (k' = k)) as [->|Hne].
  - by rewrite lookup_insert_eq.
  - by rewrite lookup_insert_ne.
Qed.
Lemma assoc_in {A} (l : list (K * A)) k a : assoc k l = Some a -> (k, a) ∈ l.
Proof.
  induction l as [|[k' b] l IH]; [done|]. cbn. destruct (decide (k' = k)) as [->|].
  - intros [= ->]. by left.
  - intros Ha. right. by apply IH.
Qed.
Lemma assoc_none {A} (l : list (K * A)) k : assoc k l = None <-> k ∉ l.*1.
Proof.
  induction l as [|[k' b] l IH]; cbn; [split; [intros _; apply not_elem_of_nil|done]|].
  rewrite not_elem_of_cons. destruct (decide (k' = k)) as [->|]; [split; [done|by intros [? _]]|].
  rewrite IH. split; [by split|by intros [_ ?]].
Qed.
Lemma assoc_unique {A} (l : list (K * A)) k a : NoDup l.*1 -> (k, a) ∈ l -> assoc k l = Some a.
Proof.
  induction l as [|[k' b] l IH]; cbn; [by intros _ ?%elem_of_nil|]. intros [Hk' Hnd]%NoDup_cons Hin.
  apply elem_of_cons in Hin as [[= <- <-]|Hin]; [by rewrite decide_True by done|].
  rewrite decide_False by (intros ->; by apply Hk', (list_elem_of_fmap_2 fst _ (k, a))). by apply IH.
Qed.
Lemma assoc_without {A} (l : list (K * A)) k j : assoc j (without k l) = if decide (j = k) then None else assoc j l.
Proof.
  induction l as [|[k' b] l IH]; [by destruct (decide _)|]. unfold without in *. rewrite filter_cons. cbn.
  destruct (decide (k' = k)) as [->|Hk'].
  - rewrite decide_False by (cbn; intros Hx; by apply Hx). rewrite IH.
    destruct (decide (j = k)) as [->|]; [done|]. by rewrite decide_False.
  - rewrite decide_True by done. cbn. rewrite IH.
    destruct (decide (k' = j)) as [->|]; [by rewrite decide_False|done].
Qed.
Lemma assoc_update {A} (l : list (K * A)) k a b j :
  assoc k l = Some b -> assoc j (update k a l) = if decide (j = k) then Some a else assoc j l.
Proof.
  induction l as [|[k' c] l IH]; [done|]. cbn. destruct (decide (k' = k)) as [->|Hk'].
  - intros _. destruct (decide (k = j)) as [->|]; [by rewrite decide_True|]. rewrite decide_False by done.
    clear IH. induction l as [|[k' d] l IH]; [done|]. cbn. destruct (decide (k' = k)) as [->|]; cbn.
    + rewrite !decide_False by done. exact IH.
    + destruct (decide (k' = j)); [done|exact IH].
  - intros Hb. cbn. unfold update in IH. rewrite (IH Hb). destruct (decide (k' = j)) as [->|]; [by rewrite decide_False|done].
Qed.
Lemma assoc_app {A} (l l' : list (K * A)) k : assoc k (l ++ l') = match assoc k l with Some a => Some a | None => assoc k l' end.
Proof. induction l as [|[k' b] l IH]; [done|]. cbn. by destruct (decide _). Qed.
Lemma without_keys {A} (l : list (K * A)) k : (without k l).*1 = filter (.≠ k) l.*1.
Proof.
  induction l as [|[k' b] l IH]; [done|]. unfold without in *. rewrite fmap_cons, !filter_cons. cbn [fst].
  destruct (decide (k' ≠ k)); cbn; [f_equal|]; exact IH.
Qed.
Lemma update_keys {A} (l : list (K * A)) k a : (update k a l).*1 = l.*1.
Proof. unfold update. rewrite <- list_fmap_compose. apply list_fmap_ext. intros i [k' b] _. cbn. by destruct (decide (k' = k)) as [->|]. Qed.

(** ** What the two maps of the cache hold *)

Definition seq_of (ke : K * CacheEntry) : Z := en_seq ke.2.
Definition order_of (l : list (K * CacheEntry)) : list (Z * K) := (fun ke => (seq_of ke, ke.1)) <$> l.
Definition strip (ke : K * CacheEntry) : K * Stamped :=
  (ke.1, mkStamped (en_value ke.2) (en_inserted_at ke.2) (en_last_accessed_at ke.2)).

(** The entries from the oldest to the newest: each is in the map once, and in the order under
    its own sequence number. *)
Record represents (c : CacheInner) (l : list (K * CacheEntry)) : Prop := {
  rep_map : ci_map c = list_to_map l;
  rep_order : ci_order c = order_of l;
  rep_keys : NoDup l.*1;
  rep_seqs : StronglySorted Z.lt (seq_of <$> l);
  rep_next : Forall (fun ke => seq_of ke < ci_next_seq c) l
}.

Lemma filter_in {A} (P Q : A -> Prop) `{!forall x, Decision (P x)} `{!forall x, Decision (Q x)} (l : list A) :
  (forall x, x ∈ l -> P x <-> Q x) -> filter P l = filter Q l.
Proof.
  induction l as [|x l IH]; [done|]. intros Hl. rewrite !filter_cons.
  rewrite IH by (intros y Hy; apply Hl; by right).
  destruct (decide (P x)) as [Hp|Hp], (decide (Q x)) as [Hq|Hq]; [done| | |done];
    exfalso; pose proof (Hl x (list_elem_of_here _ _)); tauto.
Qed.
Lemma filter_fmap_list {A B} (f : A -> B) (P : B -> Prop) `{!forall x, Decision (P x)} (l : list A) :
  filter P (f <$> l) = f <$> filter (fun x => P (f x)) l.
Proof. induction l as [|x l IH]; [done|]. rewrite fmap_cons, !filter_cons, IH. by destruct (decide _). Qed.

Lemma seqs_inj l ke ke' :
  StronglySorted Z.lt (seq_of <$> l) -> ke ∈ l -> ke' ∈ l -> seq_of ke = seq_of ke' -> ke = ke'.
Proof.
  induction l as [|x l IH]; [by intros _ ?%elem_of_nil|]. rewrite fmap_cons.
  intros [Hs Hx]%StronglySorted_inv Hin Hin' Heq. rewrite Forall_fmap, Forall_forall in Hx.
  apply elem_of_cons in Hin as [->|Hin], Hin' as [->|Hin']; [done| | |by apply IH].
  - specialize (Hx _ Hin'). cbn in Hx. lia.
  - specialize (Hx _ Hin). cbn in Hx. lia.
Qed.
Lemma sorted_filter (P : K * CacheEntry -> Prop) `{!forall x, Decision (P x)} l :
  StronglySorted Z.lt (seq_of <$> l) -> StronglySorted Z.lt (seq_of <$> filter P l).
Proof.
  induction l as [|x l IH]; [done|]. rewrite fmap_cons, filter_cons. intros [Hs Hx]%StronglySorted_inv.
  destruct (decide (P x)); [|by apply IH]. rewrite fmap_cons. constructor; [by apply IH|].
  rewrite Forall_fmap, Forall_forall in *. intros y [_ Hy]%list_elem_of_filter. by apply Hx.
Qed.
Lemma nodup_filter_keys {A} (P : K * A -> Prop) `{!forall x, Decision (P x)} (l : list (K * A)) :
  NoDup l.*1 -> NoDup (filter P l).*1.
Proof. intros Hl. eapply sublist_NoDup; [exact Hl|]. apply fmap_sublist, sublist_filter. Qed.

(** A part of the entries, in both maps. *)
Lemma represents_filter c l (P : K * CacheEntry -> Prop) `{!forall x, Decision (P x)} map' order' :
  represents c l -> map' = list_to_map (filter P l) -> order' = order_of (filter P l) ->
  represents (mkInner map' order' (ci_next_seq c)) (filter P l).
Proof.
  intros [Hm Ho Hk Hs Hn] -> ->. split; cbn; [done|done|by apply nodup_filter_keys|by apply sorted_filter|].
  rewrite Forall_forall in *. intros x [_ Hx]%list_elem_of_filter. by apply Hn.
Qed.
Lemma remove_key_represents c l k :
  represents c l ->
  fst (remove_key k c) = assoc k l /\ represents (snd (remove_key k c)) (without k l).
Proof.
  intros Hr. pose proof Hr as [Hm Ho Hk Hs Hn]. unfold remove_key. rewrite Hm, assoc_map.
  destruct (assoc k l) as [e|] eqn:He; cbn [fst snd]; (split; [done|]).
  - apply represents_filter; [done| |].
    + apply map_eq. intros j. rewrite assoc_map.
      change (filter _ l) with (without k l). rewrite assoc_without.
      destruct (decide (j = k)) as [->|]; [apply lookup_delete_eq|]. by rewrite lookup_delete_ne, assoc_map.
    + rewrite Ho. unfold btree_remove, order_of. rewrite filter_fmap_list. f_equal. apply filter_in.
      intros [k' e'] Hin. unfold seq_of. cbn. apply assoc_in in He. split; [|].
      * intros Hne ->. apply Hne. pose proof (assoc_unique _ _ _ Hk Hin) as H1.
        by rewrite (assoc_unique _ _ _ Hk He) in H1; simplify_eq.
      * intros Hne Hsq. apply Hne. by pose proof (seqs_inj _ _ _ Hs Hin He Hsq); simplify_eq.
  - assert (without k l = l) as ->; [|done]. unfold without. apply assoc_none in He.
    clear -He. induction l as [|[k' e] l IH]; [done|]. rewrite filter_cons. cbn in *.
    apply not_elem_of_cons in He as [? ?]. rewrite decide_True by done. f_equal. by apply IH.
Qed.
Lemma update_represents c l k e e' :
  represents c l -> assoc k l = Some e -> en_seq e' = en_seq e ->
  represents (mkInner (<[k := e']> (ci_map c)) (ci_order c) (ci_next_seq c)) (update k e' l).
Proof.
  intros [Hm Ho Hk Hs Hn] He Hsq.
  assert (Hpt : forall ke, ke ∈ l -> seq_of (if decide (ke.1 = k) then (k, e') else ke) = seq_of ke
                               /\ (if decide (ke.1 = k) then (k, e') else ke).1 = ke.1).
  { intros [k' e0] Hin. cbn. destruct (decide (k' = k)) as [->|]; [|done].
    pose proof (assoc_unique _ _ _ Hk Hin) as H1. rewrite He in H1. simplify_eq. split; [|done]. exact Hsq. }
  assert (Hq : seq_of <$> update k e' l = seq_of <$> l).
  { unfold update. rewrite <- list_fmap_compose. apply list_fmap_ext. intros i x Hx.
    cbn. by apply Hpt, list_elem_of_lookup_2 with i. }
  split; cbn [ci_map ci_order ci_next_seq].
  - apply map_eq. intros j. rewrite assoc_map, (assoc_update _ _ _ _ _ He).
    destruct (decide (j = k)) as [->|]; [apply lookup_insert_eq|]. by rewrite lookup_insert_ne, Hm, assoc_map.
  - rewrite Ho. unfold order_of, update. rewrite <- list_fmap_compose. apply list_fmap_ext. intros i x Hx.
    apply list_elem_of_lookup_2 in Hx. cbn. destruct (Hpt x Hx) as [H1 H2]. f_equal; [by rewrite H1|by rewrite H2].
  - by rewrite update_keys.
  - by rewrite Hq.
  - assert (Hall : Forall (fun s => s < ci_next_seq c) (seq_of <$> update k e' l)).
    { rewrite Hq. by apply Forall_fmap. }
    by apply Forall_fmap in Hall.
Qed.

(** *** Insertion *)

Lemma size_represents (l : list (K * CacheEntry)) :
  NoDup l.*1 -> size (list_to_map l : gmap K CacheEntry) = length l.
Proof. intros Hl. by rewrite map_size_list_to_map. Qed.
Lemma newest_all {A} n (l : list A) : Z.of_nat (length l) <= n -> newest n l = l.
Proof. intros Hl. unfold newest. replace (length l - Z.to_nat n)%nat with 0%nat by lia. done. Qed.
Lemma newest_cons {A} n x (l : list A) : 0 <= n <= Z.of_nat (length l) -> newest n (x :: l) = newest n l.
Proof.
  intros Hl. unfold newest. cbn [length].
  replace (S (length l) - Z.to_nat n)%nat with (S (length l - Z.to_nat n)) by lia. done.
Qed.
Lemma newest_fmap {A B} (f : A -> B) n l : newest n (f <$> l) = f <$> newest n l.
Proof. unfold newest. by rewrite length_fmap, fmap_drop. Qed.
Lemma newest_length {A} n (l : list A) : 0 <= n -> Z.of_nat (length (newest n l)) <= n.
Proof. intros Hn. unfold newest. rewrite length_drop. lia. Qed.

Lemma evict_represents cap l :
  1 <= cap -> NoDup l.*1 ->
  evict cap (list_to_map l) (order_of l)
  = (list_to_map (newest (cap - 1) l), order_of (newest (cap - 1) l)).
Proof.
  intros Hcap. induction l as [|[k e] l IH]; intros Hnd.
  - unfold newest. rewrite drop_nil. cbn. by destruct (cap <=? _).
  - unfold order_of. rewrite fmap_cons. cbn [evict fst]. rewrite size_represents by done.
    destruct (Z.leb_spec cap (Z.of_nat (length ((k, e) :: l)))) as [Hle|Hgt]; cbn [length] in *.
    + cbn in Hnd. apply NoDup_cons in Hnd as [Hk Hnd]. rewrite newest_cons by lia.
      cbn [list_to_map foldr fst snd]. rewrite delete_insert_id; [by apply IH|].
      apply assoc_none in Hk. by rewrite assoc_map.
    + by rewrite newest_all by (cbn [length]; lia).
Qed.
Lemma btree_insert_last seq k l :
  Forall (fun ke => seq_of ke < seq) l -> btree_insert seq k (order_of l) = order_of l ++ [(seq, k)].
Proof.
  induction l as [|ke l IH]; [done|]. intros [Hke Hl]%Forall_cons. unfold order_of in *. rewrite fmap_cons.
  cbn [btree_insert app]. rewrite (proj2 (Z.ltb_ge _ _)) by lia. rewrite (proj2 (Z.eqb_neq _ _)) by lia.
  f_equal. by apply IH.
Qed.
Lemma drop_represents c l n map' order' :
  represents c l -> map' = list_to_map (drop n l) -> order' = order_of (drop n l) ->
  represents (mkInner map' order' (ci_next_seq c)) (drop n l).
Proof.
  intros [Hm Ho Hk Hs Hn] -> ->. split; cbn; [done|done| | |by apply Forall_drop].
  - rewrite fmap_drop. eapply sublist_NoDup; [exact Hk|apply sublist_drop].
  - rewrite fmap_drop. clear -Hs. revert n. induction (seq_of <$> l) as [|x t IH]; intros n; [by rewrite drop_nil|].
    destruct n; [done|]. apply StronglySorted_inv in Hs as [Hs _]. by apply IH.
Qed.
Lemma append_represents c l k v now :
  represents c l -> assoc k l = None -> 0 <= ci_next_seq c -> ci_next_seq c + 1 < 2 ^ 64 ->
  represents
    (mkInner (<[k := mkEntry v now now (ci_next_seq c)]> (ci_map c))
       (btree_insert (ci_next_seq c) k (ci_order c)) (wrap 64 (ci_next_seq c + 1)))
    (l ++ [(k, mkEntry v now now (ci_next_seq c))]).
Proof.
  intros [Hm Ho Hk Hs Hn] Ha H0 Hw.
  assert (Hwrap : wrap 64 (ci_next_seq c + 1) = ci_next_seq c + 1) by (unfold wrap; apply Z.mod_small; lia).
  split; cbn [ci_map ci_order ci_next_seq].
  - apply map_eq. intros j. rewrite assoc_map, assoc_app, Hm. cbn. destruct (decide (k = j)) as [->|].
    + by rewrite Ha, lookup_insert_eq.
    + rewrite lookup_insert_ne, assoc_map by done. by destruct (assoc j l).
  - rewrite Ho, btree_insert_last by done. unfold order_of. by rewrite fmap_app.
  - rewrite fmap_app. apply NoDup_app. split; [done|]. split; [|apply NoDup_singleton].
    intros x Hx Hin. cbn in Hin. apply list_elem_of_singleton in Hin as ->. by apply assoc_none in Ha.
  - rewrite fmap_app. cbn. apply StronglySorted_app_2; [|done|repeat constructor].
    intros x y Hx Hy. cbn in Hy. apply list_elem_of_singleton in Hy as ->.
    apply list_elem_of_fmap in Hx as (ke & -> & Hin). rewrite Forall_forall in Hn. by apply Hn.
  - rewrite Hwrap. apply Forall_app. split; [|repeat constructor; unfold seq_of; cbn; lia].
    eapply Forall_impl; [exact Hn|]. cbn. lia.
Qed.

(** *** One operation *)

Section Refinement.
Context (cfg : CacheConfig).

(** A capacity is a [u64]. *)
Definition capacity_ok : Prop := match max_capacity cfg with Some cap => 0 <= cap | None => True end.

Lemma strip_assoc l k :
  assoc k (strip <$> l)
  = (fun e => mkStamped (en_value e) (en_inserted_at e) (en_last_accessed_at e)) <$> assoc k l.
Proof. induction l as [|[k' e] l IH]; [done|]. cbn. by destruct (decide (k' = k)). Qed.
Lemma strip_without l k : strip <$> without k l = without k (strip <$> l).
Proof. unfold without. by rewrite filter_fmap_list. Qed.
Lemma strip_update l k e : strip <$> update k e l = update k (strip (k, e)).2 (strip <$> l).
Proof.
  unfold update. rewrite <- !list_fmap_compose. apply list_fmap_ext. intros i [k' x] _. cbn.
  by destruct (decide (k' = k)) as [->|].
Qed.

(** The state after an operation stands for the queue after it. *)
Definition refines (r : option V * CacheInner) (s : option V * Queue) : Prop :=
  r.1 = s.1 /\ exists l, represents r.2 l /\ s.2 = strip <$> l.

Lemma refines_same r c l : represents c l -> refines (r, c) (r, strip <$> l).
Proof. intros Hr. split; [done|]. by exists l. Qed.
Lemma refines_remove r c l k : represents c l -> refines (r, snd (remove_key k c)) (r, without k (strip <$> l)).
Proof.
  intros Hr. split; [done|]. exists (without k l). split; [by apply remove_key_represents|].
  by rewrite strip_without.
Qed.
Lemma refines_update r c l k e v t1 t2 :
  represents c l -> assoc k l = Some e ->
  refines (r, mkInner (<[k := mkEntry v t1 t2 (en_seq e)]> (ci_map c)) (ci_order c) (ci_next_seq c))
          (r, update k (mkStamped v t1 t2) (strip <$> l)).
Proof.
  intros Hr He. split; [done|]. exists (update k (mkEntry v t1 t2 (en_seq e)) l).
  split; [by apply update_represents with e|]. by rewrite strip_update.
Qed.
Lemma refines_append r c l k v now :
  represents c l -> assoc k l = None -> 0 <= ci_next_seq c -> ci_next_seq c + 1 < 2 ^ 64 ->
  refines (r, mkInner (<[k := mkEntry v now now (ci_next_seq c)]> (ci_map c))
                (btree_insert (ci_next_seq c) k (ci_order c)) (wrap 64 (ci_next_seq c + 1)))
          (r, (strip <$> l) ++ [(k, mkStamped v now now)]).
Proof.
  intros Hr Ha H0 H1. split; [done|]. eexists. split; [by apply append_represents|]. by rewrite fmap_app.
Qed.

Lemma insert_refines c l k v now :
  capacity_ok -> represents c l -> 0 <= ci_next_seq c -> ci_next_seq c + 1 < 2 ^ 64 ->
  refines (None, pc_insert cfg k v now c) (queue_step cfg (CInsert k v) now (strip <$> l)).
Proof.
  intros Hcap Hr H0 H1. unfold queue_step, pc_insert. rewrite (rep_map _ _ Hr), assoc_map, strip_assoc.
  rewrite <- (rep_map _ _ Hr).
  destruct (assoc k l) as [e|] eqn:He; cbn [fmap option_fmap option_map]; [by apply refines_update|].
  unfold capacity_ok in Hcap. unfold insert_new. destruct (max_capacity cfg) as [cap|] eqn:Ecap.
  2:{ by apply refines_append. }
  destruct (Z.eqb_spec cap 0) as [->|Hne]; [by apply refines_same|].
  rewrite bool_decide_eq_false_2 by congruence.
  rewrite (rep_map _ _ Hr), (rep_order _ _ Hr), evict_represents by (lia || apply Hr).
  rewrite newest_fmap.
  eapply (drop_represents c l) in Hr; [|reflexivity..].
  apply (refines_append None _ _ k v now) in Hr; [exact Hr| |done|done].
  apply assoc_none. apply assoc_none in He. rewrite fmap_drop. intros Hin. apply He.
  eapply elem_of_sublist; [exact Hin|apply sublist_drop].
Qed.
Lemma pending_refines c l now :
  represents c l -> refines (None, evict_expired cfg now c) (queue_step cfg CPending now (strip <$> l)).
Proof.
  intros Hr. split; [done|]. cbn [fst snd queue_step].
  exists (filter (fun ke => entry_expired cfg ke.2 now = false) l). split; [|by rewrite filter_fmap_list].
  pose proof (rep_keys _ _ Hr) as Hk. unfold evict_expired. rewrite (rep_map _ _ Hr), (rep_order _ _ Hr).
  assert (Hmap : filter (fun ke : K * CacheEntry => entry_expired cfg ke.2 now = false) (list_to_map l : gmap K CacheEntry)
                 = list_to_map (filter (fun ke => entry_expired cfg ke.2 now = false) l)).
  { apply map_eq. intros j. rewrite assoc_map. apply option_eq. intros e.
    rewrite map_lookup_filter_Some, assoc_map. cbn. split.
    - intros [Ha He]. apply assoc_unique; [by apply nodup_filter_keys|].
      apply list_elem_of_filter. by split; [|apply assoc_in].
    - intros Ha. apply assoc_in, list_elem_of_filter in Ha as [He Hin]. by split; [apply assoc_unique|]. }
  apply represents_filter; [done|exact Hmap|].
  rewrite Hmap. unfold order_of. rewrite filter_fmap_list. f_equal. apply filter_in. intros [k e] Hin. cbn.
  rewrite assoc_map. split.
  - intros [e' [He' Hin']%assoc_in%list_elem_of_filter].
    pose proof (assoc_unique _ _ _ Hk Hin) as E1. rewrite (assoc_unique _ _ _ Hk Hin') in E1. by simplify_eq.
  - intros He. exists e. apply assoc_unique; [by apply nodup_filter_keys|]. by apply list_elem_of_filter.
Qed.
Lemma step_refines op now c l :
  capacity_ok -> represents c l -> 0 <= ci_next_seq c -> ci_next_seq c + 1 < 2 ^ 64 ->
  refines (cache_step cfg op now c) (queue_step cfg op now (strip <$> l)).
Proof.
  intros Hcap Hr H0 H1. pose proof (rep_map _ _ Hr) as Hm.
  destruct op as [k|k|k v|k|k| |]; cbn [cache_step].
  - unfold get_first, queue_step. rewrite Hm, assoc_map, strip_assoc, <- Hm.
    destruct (assoc k l) as [e|] eqn:He; cbn [fmap option_fmap option_map]; [|by apply refines_same].
    unfold stale, entry_expired. cbn [st_inserted st_accessed st_value].
    destruct (time_to_idle cfg); cbn [bool_decide]; destruct (times_expired _ _ _ _);
      [by apply refines_remove|by apply refines_update|by apply refines_same|by apply refines_same].
  - unfold get_reap, queue_step. rewrite Hm, assoc_map, strip_assoc.
    destruct (assoc k l) as [e|] eqn:He; cbn [fmap option_fmap option_map]; [|by apply refines_same].
    unfold stale, entry_expired. cbn [st_inserted st_accessed].
    destruct (times_expired _ _ _ _); [by apply refines_remove|by apply refines_same].
  - by apply insert_refines.
  - unfold pc_remove, queue_step. destruct (remove_key_represents c l k Hr) as [Hf Hs].
    rewrite strip_assoc. destruct (remove_key k c) as [r c']. cbn [fst snd] in *. subst r.
    destruct (assoc k l) as [e|] eqn:He; cbn [fmap option_fmap option_map];
      (split; [done|]; exists (without k l); by rewrite strip_without).
  - by apply refines_remove.
  - split; [done|]. exists []. split; [|done]. split; cbn; [done|done|constructor|constructor|constructor].
  - by apply pending_refines.
Qed.

Lemma remove_key_next k c : ci_next_seq (snd (remove_key k c)) = ci_next_seq c.
Proof. unfold remove_key. by destruct (_ !! _). Qed.
Lemma step_next op now c :
  0 <= ci_next_seq c -> ci_next_seq c + 1 < 2 ^ 64 ->
  ci_next_seq c <= ci_next_seq (snd (cache_step cfg op now c)) <= ci_next_seq c + 1.
Proof.
  intros H0 H1. assert (Hw : wrap 64 (ci_next_seq c + 1) = ci_next_seq c + 1) by (unfold wrap; apply Z.mod_small; lia).
  destruct op as [k|k|k v|k|k| |]; cbn [cache_step].
  - unfold get_first. destruct (_ !! _) as [e|]; [|cbn; lia].
    destruct (time_to_idle cfg), (entry_expired _ _ _); cbn; rewrite ?remove_key_next; lia.
  - cbn. unfold get_reap. destruct (_ !! _) as [e|]; [|lia]. destruct (entry_expired _ _ _); rewrite ?remove_key_next; lia.
  - cbn. unfold pc_insert. destruct (_ !! _) as [e|]; [cbn; lia|]. destruct (bool_decide _); [lia|].
    unfold insert_new. destruct (max_capacity cfg); [destruct (evict _ _ _)|]; cbn; lia.
  - unfold pc_remove. pose proof (remove_key_next k c) as Hr. destruct (remove_key k c) as [[e|] c']; cbn in *; lia.
  - cbn. unfold pc_invalidate. rewrite remove_key_next. lia.
  - cbn. lia.
  - cbn. lia.
Qed.
Lemma run_refines ops c l :
  capacity_ok -> represents c l -> 0 <= ci_next_seq c -> ci_next_seq c + Z.of_nat (length ops) < 2 ^ 64 ->
  (cache_run cfg ops c).1 = (queue_run cfg ops (strip <$> l)).1
  /\ exists l', represents (cache_run cfg ops c).2 l' /\ (queue_run cfg ops (strip <$> l)).2 = strip <$> l'.
Proof.
  intros Hcap. revert c l. induction ops as [|[op now] ops IH]; intros c l Hr H0 H1; [split; [done|by exists l]|].
  cbn [length] in H1. cbn [cache_run queue_run].
  destruct (step_refines op now c l Hcap Hr H0 ltac:(lia)) as [Ha (l' & Hr' & Hs')].
  pose proof (step_next op now c H0 ltac:(lia)) as Hn.
  destruct (cache_step cfg op now c) as [r c'], (queue_step cfg op now (strip <$> l)) as [r' q'].
  cbn [fst snd] in *. subst r' q'. specialize (IH c' l' Hr' ltac:(lia) ltac:(lia)) as [Ha' (l2 & Hr2 & Hs2)].
  destruct (cache_run cfg ops c') as [rs c2], (queue_run cfg ops (strip <$> l')) as [rs' q2].
  cbn [fst snd] in *. subst. split; [done|]. by exists l2.
Qed.

(** *** The capacity of the queue *)

Definition within (q : Queue) : Prop :=
  match max_capacity cfg with Some cap => Z.of_nat (length q) <= cap | None => True end.
Lemma within_length q q' : (length q' <= length q)%nat -> within q -> within q'.
Proof. unfold within. destruct (max_capacity cfg); [lia|done]. Qed.
Lemma without_length {A} k (l : list (K * A)) : (length (without k l) <= length l)%nat.
Proof. apply length_filter. Qed.
Lemma update_length {A} k a (l : list (K * A)) : length (update k a l) = length l.
Proof. apply length_fmap. Qed.
Lemma queue_step_within op now q : capacity_ok -> within q -> within (queue_step cfg op now q).2.
Proof.
  intros Hcap Hq. destruct op as [k|k|k v|k|k| |]; cbn [queue_step snd]; try done.
  - destruct (assoc k q) as [x|]; [|done]. destruct (stale _ _ _), (bool_decide _); cbn [snd]; try done.
    + by eapply within_length; [apply without_length|].
    + by eapply within_length; [rewrite update_length|].
  - destruct (assoc k q) as [x|]; [|done]. destruct (stale _ _ _); [|done].
    by eapply within_length; [apply without_length|].
  - destruct (assoc k q) as [x|]; [by eapply within_length; [rewrite update_length|]|].
    unfold within, capacity_ok in *. destruct (max_capacity cfg) as [cap|] eqn:Ec; [|done].
    destruct (Z.eqb_spec cap 0); [done|]. rewrite length_app. cbn.
    pose proof (newest_length (cap - 1) q ltac:(lia)). lia.
  - by eapply within_length; [apply without_length|].
  - by eapply within_length; [apply without_length|].
  - eapply within_length; [apply length_filter|done].
Qed.
Lemma queue_run_within ops q : capacity_ok -> within q -> within (queue_run cfg ops q).2.
Proof.
  intros Hcap. revert q. induction ops as [|[op now] ops IH]; intros q Hq; [done|]. cbn [queue_run].
  pose proof (queue_step_within op now q Hcap Hq) as Hs. destruct (queue_step cfg op now q) as [r q1].
  specialize (IH q1 Hs). by destruct (queue_run cfg ops q1).
Qed.

Lemma new_represents : represents inner_new [].
Proof. split; cbn; [done|done|constructor|constructor|constructor]. Qed.

(** C21: the cache is the queue.  Whatever operations run on a new cache, at whatever instants and
    with the two halves of a [get] anywhere between the others, every answer is that of the
    plain FIFO queue; the snapshot lists what the queue holds, each key once, the count is its
    length, and neither exceeds the capacity. *)
Theorem portable_cache_refines ops :
  capacity_ok -> Z.of_nat (length ops) < 2 ^ 64 ->
  let '(answers, c) := cache_run cfg ops inner_new in
  let '(expected, q) := queue_run cfg ops [] in
  answers = expected
  /\ snapshot_entries c ≡ₚ (prod_map id st_value <$> q)
  /\ NoDup (snapshot_entries c).*1
  /\ entry_count c = Z.of_nat (length q)
  /\ (forall cap, max_capacity cfg = Some cap -> entry_count c <= cap).
Proof.
  intros Hcap Hlen. pose proof (run_refines ops inner_new [] Hcap new_represents ltac:(done) Hlen) as [Ha (l & Hr & Hs)].
  cbn [fmap list_fmap] in *. assert (Hw0 : within []).
  { unfold within, capacity_ok in *. destruct (max_capacity cfg); [cbn; lia|done]. }
  pose proof (queue_run_within ops [] Hcap Hw0) as Hw.
  destruct (cache_run cfg ops inner_new) as [rs c], (queue_run cfg ops []) as [rs' q]. cbn [fst snd] in *. subst.
  assert (Hsnap : snapshot_entries c ≡ₚ (prod_map id st_value <$> (strip <$> l))).
  { unfold snapshot_entries. rewrite (rep_map _ _ Hr), map_to_list_to_map by apply Hr.
    by rewrite <- list_fmap_compose. }
  assert (Hcount : entry_count c = Z.of_nat (length (strip <$> l))).
  { unfold entry_count. by rewrite (rep_map _ _ Hr), size_represents, length_fmap by apply Hr. }
  split_and!; [done|done| |done|].
  - rewrite Hsnap, <- !list_fmap_compose. exact (rep_keys _ _ Hr).
  - intros cap Hc. unfold within in Hw. rewrite Hc in Hw. lia.
Qed.
End Refinement.
End Cache.
Arguments CacheEntry V : clear implicits.
Arguments CacheInner K V {_ _}.
Arguments CacheOp K V : clear implicits.
Arguments Stamped V : clear implicits.

Definition example_config : CacheConfig := mkCacheConfig (Some 2) (Some 100) (Some 50).
Definition example_run : list (CacheOp Z Z * Z) :=
  [(CInsert 1 10, 0); (CInsert 2 20, 5); (CGet 1, 40); (CInsert 3 30, 45); (CGet 1, 46); (CGet 2, 47);
   (CInsert 2 21, 48); (CRemove 3, 60); (CPending, 120); (CGet 2, 121)].
Lemma portable_cache_refines_witness :
  (cache_run example_config example_run inner_new).1
  = [None; None; Some 10; None; None; Some 20; None; Some 30; None; None]
  /\ (cache_run example_config example_run inner_new).1 = (queue_run example_config example_run []).1.
Proof.
  split; [by vm_compute|].
  pose proof (portable_cache_refines example_config example_run ltac:(cbn; lia) ltac:(cbn; lia)) as Hp.
  destruct (cache_run _ _ _), (queue_run _ _ _). exact (proj1 Hp).
Defined.
