(* ===== verification/PortableRuns.v ===== *)
(** * What a reader of the cache can rely on

    Over the runs of [PortableCache]: where a value comes from, and when it is certainly still
    there. *)

From stdpp Require Import prelude gmap.
From S2P Require Import Prelude PortableCache.

#[local] Open Scope Z_scope.

Section Runs.
Context {K V : Type} `{Countable K} (cfg : CacheConfig).
Implicit Types (ops : list (CacheOp K V * Z)) (q : list (K * Stamped V)).

(** ** The history of a key *)

(** The operation leaves the value of [k] alone. *)
Definition spares (k : K) (op : CacheOp K V) : bool :=
  match op with
  | CInsert j _ | CRemove j | CInvalidate j => bool_decide (j ≠ k)
  | CClear => false
  | CGet _ | CReap _ | CPending => true
  end.
(** When [k] was last accessed, if it was inserted at [t]: successful reads count when there
    is a time to idle. *)
Definition last_access (k : K) (t : Z) ops : Z :=
  fold_left (fun t on => match on.1 with
                         | CGet j => if bool_decide (j = k /\ is_Some (time_to_idle cfg)) then on.2 else t
                         | _ => t
                         end) ops t.

(** An entry was put there by an insertion, and nothing has touched it since. *)
Definition stems ops (k : K) (x : Stamped V) : Prop :=
  exists pre post t, ops = pre ++ (CInsert k (st_value x), t) :: post
  /\ Forall (fun on => spares k on.1 = true) post
  /\ st_inserted x = t /\ st_accessed x = last_access k t post.

Lemma stems_spared ops k x op now :
  stems ops k x -> spares k op = true -> (forall j, op = CGet j -> j = k -> time_to_idle cfg = None) ->
  stems (ops ++ [(op, now)]) k x.
Proof.
  intros (pre & post & t & -> & Hp & Hi & Ha) Hs Hg. exists pre, (post ++ [(op, now)]), t.
  split_and!; [by rewrite <- app_assoc|apply Forall_app; split; [done|by repeat constructor]|done|].
  unfold last_access in *. rewrite fold_left_app. cbn. rewrite <- Ha. destruct op as [j| | | | | |]; try done.
  rewrite bool_decide_eq_false_2; [done|]. intros [-> [z Hz]]. by rewrite (Hg k eq_refl eq_refl) in Hz.
Qed.
Lemma stems_read ops k x now :
  stems ops k x -> is_Some (time_to_idle cfg) ->
  stems (ops ++ [(CGet k, now)]) k (mkStamped (st_value x) (st_inserted x) now).
Proof.
  intros (pre & post & t & -> & Hp & Hi & Ha) Hs. exists pre, (post ++ [(CGet k, now)]), t.
  split_and!; [by rewrite <- app_assoc|apply Forall_app; split; [done|by repeat constructor]|done|].
  unfold last_access. rewrite fold_left_app. cbn. by rewrite bool_decide_eq_true_2.
Qed.
Lemma stems_insert ops k v now : stems (ops ++ [(CInsert k v, now)]) k (mkStamped v now now).
Proof. by exists ops, [], now. Qed.

Definition traced ops q : Prop := forall k x, (k, x) ∈ q -> stems ops k x.

Lemma elem_of_without {A} k (q : list (K * A)) j x : (j, x) ∈ without k q -> j ≠ k /\ (j, x) ∈ q.
Proof. unfold without. by intros [? ?]%list_elem_of_filter. Qed.
Lemma elem_of_update {A} k a (q : list (K * A)) j x : (j, x) ∈ update k a q -> (j = k /\ x = a) \/ (j ≠ k /\ (j, x) ∈ q).
Proof.
  unfold update. intros ([j' y] & Heq & Hin)%list_elem_of_fmap. cbn in Heq.
  destruct (decide (j' = k)) as [->|]; simplify_eq; [by left|by right].
Qed.
Lemma elem_of_newest {A} n (l : list A) x : x ∈ newest n l -> x ∈ l.
Proof. intros Hx. eapply elem_of_sublist; [exact Hx|apply sublist_drop]. Qed.

Lemma traced_sub ops q q' op now :
  traced ops q -> (forall k x, (k, x) ∈ q' -> (k, x) ∈ q /\ spares k op = true) ->
  (forall j, op = CGet j -> time_to_idle cfg = None \/ j ∉ q'.*1) ->
  traced (ops ++ [(op, now)]) q'.
Proof.
  intros Ht Hs Hg k x Hin. destruct (Hs k x Hin) as [Hq Hsp]. apply stems_spared; [by apply Ht|done|].
  intros j Hop ->. destruct (Hg k Hop) as [?|Hn]; [done|]. exfalso. apply Hn. by apply (list_elem_of_fmap_2 fst _ (k, x)).
Qed.
Lemma traced_insert ops q q' k v now :
  traced ops q -> (forall j x, (j, x) ∈ q' -> (j = k /\ x = mkStamped v now now) \/ (j ≠ k /\ (j, x) ∈ q)) ->
  traced (ops ++ [(CInsert k v, now)]) q'.
Proof.
  intros Ht Hq j x Hin. destruct (Hq j x Hin) as [[-> ->]|[Hne Hx]]; [apply stems_insert|].
  apply stems_spared; [by apply Ht| |done]. cbn. by rewrite bool_decide_eq_true_2 by congruence.
Qed.
Lemma traced_get ops q k now : traced ops q -> traced (ops ++ [(CGet k, now)]) (queue_step cfg (CGet k) now q).2.
Proof.
  intros Ht. cbn [queue_step].
  assert (Hsame : assoc k q = None \/ time_to_idle cfg = None -> traced (ops ++ [(CGet k, now)]) q).
  { intros Hor. apply (traced_sub ops q); [done|done|]. intros j [= ->].
    destruct Hor as [Hn|?]; [right; by apply assoc_none|by left]. }
  destruct (assoc k q) as [x|] eqn:Hx; [|by apply Hsame; left].
  destruct (decide (is_Some (time_to_idle cfg))) as [Hi|Hi].
  2:{ rewrite bool_decide_eq_false_2 by done. destruct (stale cfg now x); apply Hsame; right; by apply eq_None_not_Some. }
  rewrite bool_decide_eq_true_2 by done. destruct (stale cfg now x); cbn [snd].
  - apply (traced_sub ops q); [done|by intros j y [_ ?]%elem_of_without|]. intros j [= ->]. right.
    intros ([j' y] & -> & [Hne _]%elem_of_without)%list_elem_of_fmap. by apply Hne.
  - intros j y [[-> ->]|[Hne Hin]]%elem_of_update; [apply stems_read; [by apply Ht, assoc_in|done]|].
    apply stems_spared; [by apply Ht|done|]. intros j' [= ->] ->. congruence.
Qed.
Lemma queue_step_traced op now ops q : traced ops q -> traced (ops ++ [(op, now)]) (queue_step cfg op now q).2.
Proof.
  intros Ht. destruct op as [k|k|k v|k|k| |]; [by apply traced_get|..]; cbn [queue_step snd].
  - apply (traced_sub ops q); [done| |done]. intros j y Hin. split; [|done].
    destruct (assoc k q) as [x|]; [|done]. destruct (stale cfg now x); [|done]. by apply elem_of_without in Hin as [_ ?].
  - apply (traced_insert ops q); [done|]. intros j x Hin. destruct (assoc k q) as [y|] eqn:Hy; [by apply elem_of_update|].
    assert (Hfresh : forall q', (forall z, z ∈ q' -> z ∈ q) -> (j, x) ∈ q' ++ [(k, mkStamped v now now)] ->
              (j = k /\ x = mkStamped v now now) \/ (j ≠ k /\ (j, x) ∈ q)).
    { intros q' Hq' [Hx|Hx]%elem_of_app; [|apply list_elem_of_singleton in Hx; simplify_eq; by left]. apply Hq' in Hx.
      right. split; [|done]. intros ->. apply assoc_none in Hy. apply Hy. by apply (list_elem_of_fmap_2 fst _ (k, x)). }
    destruct (max_capacity cfg) as [cap|]; [|by apply (Hfresh q)]. destruct (Z.eqb_spec cap 0); [|by apply (Hfresh (newest (cap - 1) q)); [intros z; apply elem_of_newest|]].
    right. split; [|done]. intros ->. apply assoc_none in Hy. apply Hy. by apply (list_elem_of_fmap_2 fst _ (k, x)).
  - apply (traced_sub ops q); [done| |done]. intros j y [Hne Hin]%elem_of_without. split; [done|]. cbn.
    by rewrite bool_decide_eq_true_2 by congruence.
  - apply (traced_sub ops q); [done| |done]. intros j y [Hne Hin]%elem_of_without. split; [done|]. cbn.
    by rewrite bool_decide_eq_true_2 by congruence.
  - by intros j y ?%elem_of_nil.
  - apply (traced_sub ops q); [done| |done]. by intros j y [_ ?]%list_elem_of_filter.
Qed.
Lemma queue_run_traced ops q done_ : traced done_ q -> traced (done_ ++ ops) (queue_run cfg ops q).2.
Proof.
  revert q done_. induction ops as [|[op now] ops IH]; intros q done_ Ht; [by rewrite app_nil_r|]. cbn [queue_run].
  pose proof (queue_step_traced op now done_ q Ht) as Hs. destruct (queue_step cfg op now q) as [r q1].
  specialize (IH q1 _ Hs). rewrite <- app_assoc in IH. by destruct (queue_run cfg ops q1).
Qed.

(** ** When a value is still there *)

(** [k] is in the queue with the value it got at [t], and at most [n] entries are newer. *)
Definition kept (k : K) (v : V) (t n : Z) q : Prop :=
  exists old newer x, q = old ++ (k, x) :: newer /\ k ∉ old.*1
  /\ st_value x = v /\ st_inserted x = t /\ t <= st_accessed x /\ Z.of_nat (length newer) <= n.

Lemma kept_assoc k v t n q :
  kept k v t n q -> exists x, assoc k q = Some x /\ st_value x = v /\ st_inserted x = t /\ t <= st_accessed x.
Proof.
  intros (old & newer & x & -> & Ho & Hx). exists x. split; [|tauto]. apply assoc_none in Ho.
  rewrite assoc_app, Ho. cbn. by rewrite decide_True.
Qed.
Lemma kept_more k v t n n' q : kept k v t n q -> n <= n' -> kept k v t n' q.
Proof. intros (old & newer & x & Hq) Hn. exists old, newer, x. destruct_and!. split_and!; try done. lia. Qed.
Lemma kept_filter k v t n q (P : K * Stamped V -> Prop) `{!forall x, Decision (P x)} :
  kept k v t n q -> (forall x, (k, x) ∈ q -> st_inserted x = t -> t <= st_accessed x -> P (k, x)) ->
  kept k v t n (filter P q).
Proof.
  intros (old & newer & x & -> & Ho & Hv & Hi & Ha & Hn) HP. exists (filter P old), (filter P newer), x.
  rewrite filter_app, filter_cons.
  rewrite decide_True by (apply HP; [|done|done]; apply elem_of_app; right; left).
  split_and!; try done; [|pose proof (length_filter P newer); lia].
  intros Hin. apply Ho. eapply elem_of_sublist; [exact Hin|]. apply fmap_sublist, sublist_filter.
Qed.
Lemma kept_without k v t n q j : kept k v t n q -> j ≠ k -> kept k v t n (without j q).
Proof. intros Hk Hj. apply kept_filter; [done|]. cbn. by intros x _ _ _. Qed.
Lemma kept_update k v t n q j a :
  kept k v t n q -> (j = k -> st_value a = v /\ st_inserted a = t /\ t <= st_accessed a) ->
  kept k v t n (update j a q).
Proof.
  intros (old & newer & x & -> & Ho & Hv & Hi & Ha & Hn) Hj.
  exists (update j a old), (update j a newer), (if decide (k = j) then a else x).
  split; [unfold update; rewrite fmap_app, fmap_cons; cbn; destruct (decide (k = j)) as [->|]; done|].
  rewrite update_keys, update_length. split; [done|].
  destruct (decide (k = j)) as [->|]; [destruct (Hj eq_refl) as (? & ? & ?)|]; by split_and!.
Qed.
Lemma kept_append k v t n q cap j y :
  kept k v t n q -> (forall c, cap = Some c -> n + 1 < c) ->
  kept k v t (n + 1) (match cap with Some c => newest (c - 1) q | None => q end ++ [(j, y)]).
Proof.
  intros (old & newer & x & -> & Ho & Hv & Hi & Ha & Hn) Hc.
  assert (Hall : exists old', k ∉ old'.*1 /\
    match cap with Some c => newest (c - 1) (old ++ (k, x) :: newer) | None => old ++ (k, x) :: newer end
    = old' ++ (k, x) :: newer).
  { destruct cap as [c|]; [|by exists old]. specialize (Hc c eq_refl). unfold newest.
    rewrite drop_app_le by (rewrite length_app; cbn; lia). eexists. split; [|reflexivity].
    intros Hin. apply Ho. eapply elem_of_sublist; [exact Hin|]. apply fmap_sublist, sublist_drop. }
  destruct Hall as (old' & Ho' & ->). exists old', (newer ++ [(j, y)]), x.
  rewrite <- app_assoc. split_and!; try done. rewrite length_app. cbn. lia.
Qed.
Lemma kept_insert k v t q (cap : option Z) : assoc k q = None ->
  kept k v t 0 (match cap with Some c => newest (c - 1) q | None => q end ++ [(k, mkStamped v t t)]).
Proof.
  intros Hk. eexists _, [], _. split; [reflexivity|]. cbn. split_and!; try done.
  apply assoc_none in Hk. destruct cap as [c|]; [|done]. intros Hin. apply Hk.
  eapply elem_of_sublist; [exact Hin|]. apply fmap_sublist, sublist_drop.
Qed.

Lemma not_stale now t (x : Stamped V) : times_expired cfg now t t = false -> st_inserted x = t -> t <= st_accessed x -> stale cfg now x = false.
Proof.
  unfold stale, times_expired, saturating_since. intros Hex -> Ha. apply orb_false_iff in Hex as [-> Hi].
  destruct (time_to_idle cfg) as [tti|]; [|done]. cbn. apply Z.leb_gt in Hi. apply Z.leb_gt. lia.
Qed.
(** How many insertions there are. *)
Definition adds (op : CacheOp K V) : Z := match op with CInsert _ _ => 1 | _ => 0 end.
Fixpoint insertions ops : Z := match ops with [] => 0 | (op, _) :: ops => adds op + insertions ops end.
Lemma adds_nonneg op : 0 <= adds op.
Proof. by destruct op. Qed.
Lemma insertions_nonneg ops : 0 <= insertions ops.
Proof. induction ops as [|[op now] ops IH]; [done|]. cbn. pose proof (adds_nonneg op). lia. Qed.

Lemma queue_step_kept op now k v t n q :
  kept k v t n q -> spares k op = true -> t <= now -> times_expired cfg now t t = false ->
  (forall c, max_capacity cfg = Some c -> n + adds op < c) ->
  kept k v t (n + adds op) (queue_step cfg op now q).2.
Proof.
  intros Hk Hs Ht Hex Hc. destruct (kept_assoc _ _ _ _ _ Hk) as (x & Hx & Hv & Hi & Ha).
  pose proof (not_stale now t x Hex Hi Ha) as Hst.
  destruct op as [j|j|j w|j|j| |]; cbn [queue_step adds snd] in *; rewrite ?Z.add_0_r; cbn in Hs.
  - destruct (assoc j q) as [y|] eqn:Hy; [|done]. destruct (decide (j = k)) as [->|Hj].
    + simplify_eq. rewrite Hst. destruct (bool_decide _); [|done]. by apply kept_update.
    + destruct (stale cfg now y), (bool_decide _); cbn [snd]; [by apply kept_without|done|by apply kept_update|done].
  - destruct (assoc j q) as [y|] eqn:Hy; [|done]. destruct (decide (j = k)) as [->|Hj].
    + simplify_eq. by rewrite Hst.
    + destruct (stale cfg now y); [by apply kept_without|done].
  - apply bool_decide_eq_true_1 in Hs. destruct (assoc j q) as [y|] eqn:Hy.
    + eapply kept_more; [by apply kept_update|lia].
    + pose proof (kept_append k v t n q (max_capacity cfg) j (mkStamped w now now) Hk Hc) as Hka.
      destruct (max_capacity cfg) as [c|]; [|done]. destruct (Z.eqb_spec c 0); [|done]. eapply kept_more; [done|lia].
  - apply bool_decide_eq_true_1 in Hs. by apply kept_without.
  - apply bool_decide_eq_true_1 in Hs. by apply kept_without.
  - done.
  - apply kept_filter; [done|]. intros y _ Hyi Hya. by apply (not_stale now t y).
Qed.
Lemma queue_run_kept ops k v t n q :
  kept k v t n q -> Forall (fun on => spares k on.1 = true /\ t <= on.2 /\ times_expired cfg on.2 t t = false) ops ->
  (forall c, max_capacity cfg = Some c -> n + insertions ops < c) ->
  kept k v t (n + insertions ops) (queue_run cfg ops q).2.
Proof.
  revert n q. induction ops as [|[op now] ops IH]; intros n q Hk Hops Hc.
  - cbn. by rewrite Z.add_0_r.
  - apply Forall_cons in Hops as [(Hs & Ht & Hex) Hops]. cbn [insertions] in *. cbn in Hs, Ht, Hex.
    pose proof (insertions_nonneg ops). pose proof (adds_nonneg op). cbn [queue_run].
    pose proof (queue_step_kept op now k v t n q Hk Hs Ht Hex ltac:(intros c Hcap; specialize (Hc c Hcap); lia)) as Hk'.
    destruct (queue_step cfg op now q) as [r q']. cbn [snd] in Hk'.
    specialize (IH _ _ Hk' Hops ltac:(intros c Hcap; specialize (Hc c Hcap); lia)).
    destruct (queue_run cfg ops q') as [rs q2]. cbn [snd] in *. by rewrite Z.add_assoc.
Qed.

(** ** Reads *)

(** What [get k] answers at [now] after [ops]. *)
Definition read_after ops (k : K) (now : Z) : option V := (pc_get cfg k now (cache_run cfg ops inner_new).2).1.

Lemma read_after_queue ops k now :
  capacity_ok cfg -> Z.of_nat (length ops) < 2 ^ 64 - 1 ->
  read_after ops k now = (queue_step cfg (CGet k) now (queue_run cfg ops []).2).1.
Proof.
  intros Hcap Hlen.
  destruct (run_refines cfg ops inner_new [] Hcap new_represents) as [_ (l & Hr & Hs)]; [done|cbn; lia|].
  cbn [fmap list_fmap] in Hs. rewrite Hs. unfold read_after, pc_get, get_first, queue_step.
  rewrite (rep_map _ _ Hr), assoc_map, strip_assoc, <- (rep_map _ _ Hr).
  destruct (assoc k l) as [e|]; cbn [fmap option_fmap option_map]; [|done].
  unfold stale, entry_expired. cbn [st_inserted st_accessed st_value].
  by destruct (time_to_idle cfg), (times_expired _ _ _ _).
Qed.
Lemma queue_run_app ops1 ops2 q : (queue_run cfg (ops1 ++ ops2) q).2 = (queue_run cfg ops2 (queue_run cfg ops1 q).2).2.
Proof.
  revert q. induction ops1 as [|[op now] ops1 IH]; intros q; [done|]. cbn.
  destruct (queue_step cfg op now q) as [r q1]. specialize (IH q1).
  destruct (queue_run cfg ops1 q1), (queue_run cfg (ops1 ++ ops2) q1). exact IH.
Qed.

(** Reads are fresh and entries last.  A value read from the cache is the one its key was
    given last, with no removal since, and neither its time to live nor its time to idle is
    over.  Conversely a new key is readable until it expires, is overwritten or removed, or as
    many insertions have followed as the capacity allows. *)
Lemma portable_cache_reads ops k now :
  capacity_ok cfg -> Z.of_nat (length ops) < 2 ^ 64 - 1 ->
  (forall v, read_after ops k now = Some v ->
     exists pre post t, ops = pre ++ (CInsert k v, t) :: post
     /\ Forall (fun on => spares k on.1 = true) post
     /\ times_expired cfg now t (last_access k t post) = false)
  /\ (forall pre v t post, ops = pre ++ (CInsert k v, t) :: post ->
        ci_map (cache_run cfg pre inner_new).2 !! k = None ->
        max_capacity cfg ≠ Some 0 ->
        (forall cap, max_capacity cfg = Some cap -> insertions post < cap) ->
        Forall (fun on => spares k on.1 = true /\ t <= on.2 /\ times_expired cfg on.2 t t = false) post ->
        t <= now -> times_expired cfg now t t = false ->
        read_after ops k now = Some v).
Proof.
  intros Hcap Hlen. rewrite read_after_queue by done. split.
  - intros v. cbn [queue_step]. pose proof (queue_run_traced ops [] [] (fun k x Hin => False_ind _ (not_elem_of_nil _ Hin))) as Ht.
    destruct (assoc k _) as [x|] eqn:Hx; [|done]. destruct (stale cfg now x) eqn:Hst; [done|]. intros [= <-].
    destruct (Ht k x (assoc_in _ _ _ Hx)) as (pre & post & t & Hops & Hsp & Hi & Ha).
    exists pre, post, t. split_and!; [done|done|]. by rewrite <- Ha, <- Hi.
  - intros pre v t post -> Hnone H0 Hins Hpost Hnow Hex. rewrite length_app in Hlen. cbn in Hlen.
    destruct (run_refines cfg pre inner_new [] Hcap new_represents) as [_ (l & Hr & Hs)]; [done|cbn; lia|].
    cbn [fmap list_fmap] in Hs. rewrite queue_run_app, Hs. cbn [queue_run].
    rewrite (rep_map _ _ Hr), assoc_map in Hnone.
    assert (Hk : kept k v t 0 (queue_step cfg (CInsert k v) t (strip <$> l)).2).
    { cbn [queue_step snd]. rewrite strip_assoc, Hnone. cbn [fmap option_fmap option_map].
      pose proof (kept_insert k v t (strip <$> l) (max_capacity cfg)) as Hki. rewrite strip_assoc, Hnone in Hki.
      specialize (Hki eq_refl). destruct (max_capacity cfg) as [c|]; [|done]. destruct (Z.eqb_spec c 0); [by subst|done]. }
    destruct (queue_step cfg (CInsert k v) t (strip <$> l)) as [r q1]. cbn [snd] in Hk.
    apply (queue_run_kept post) in Hk; [|done|done]. destruct (queue_run cfg post q1) as [rs q2]. cbn [snd] in *.
    apply kept_assoc in Hk as (x & Hx & Hv & Hi & Ha). cbn [queue_step]. rewrite Hx.
    rewrite (not_stale now t x) by done. cbn. by rewrite Hv.
Qed.
End Runs.

Lemma portable_cache_reads_witness :
  let ops := [(CInsert 1 10, 0); (CInsert 2 20, 5); (CGet 1, 40); (CInsert 2 21, 41)] in
  read_after example_config ops 1 80 = Some 10
  /\ exists pre post t, ops = pre ++ (CInsert (1 : Z) (10 : Z), t) :: post
     /\ Forall (fun on => spares 1 on.1 = true) post
     /\ times_expired example_config 80 t (last_access example_config 1 t post) = false.
Proof.
  intros ops. assert (Hr : read_after example_config ops 1 80 = Some 10) by by vm_compute.
  split; [done|]. by apply (portable_cache_reads example_config ops 1 80); [cbn; lia|cbn; lia|].
Defined.
