(* ===== verification/SingleFlight.v ===== *)
(** * Single-flight initialisation

    [get_with], [get_with_by_ref], [reclaim_init_lock] and the lock part of [run_pending_tasks]
    of [src/portable_cache.rs].  A task is a call of [get_with]; its phases are the points where
    it may wait, so that the steps of all tasks interleave freely with each other and with any
    other operation on the cache.  A lock is known by the number of its allocation; who holds an
    [Arc] of it follows from the phases, and [strong_count] counts them with the table. *)

From stdpp Require Import prelude gmap.
From S2P Require Import Prelude PortableCache.

#[local] Open Scope Z_scope.

Section Flight.
Context {K V : Type} `{Countable K} (cfg : CacheConfig).

Inductive Phase : Type :=
  | Called                          (** before the first [get] *)
  | Expired (now : Z)               (** the first [get] met an expired entry; before its write lock *)
  | Missed                          (** before the table of locks *)
  | Waiting (lock : Z)              (** for the lock of the key *)
  | Entered (lock : Z)              (** with the lock, before the second [get] *)
  | Stale (lock : Z) (now : Z)      (** the second [get] met an expired entry; before its write lock *)
  | Initializing (lock : Z)         (** awaiting [init] *)
  | Inserting (lock : Z) (v : V) (now : Z)  (** the value is there; awaiting the write lock of the cache *)
  | Leaving (lock : Z) (v : V)      (** before the guard is dropped *)
  | Reclaiming (lock : Z) (v : V)   (** before [reclaim_init_lock] *)
  | Returning (lock : Z) (v : V)    (** after it; the [Arc] goes with the frame *)
  | Returned (v : V)
  | Cancelled.

Record Flight : Type := mkFlight {
  fl_cache : CacheInner K V;
  fl_locks : gmap K Z;              (** [init_locks] *)
  fl_held : gmap Z nat;             (** the task inside each lock *)
  fl_tasks : list (K * Phase);
  fl_allocated : Z;
  fl_inits : list (K * V)           (** the initialisations that have completed *)
}.
Definition flight_new : Flight := mkFlight inner_new ∅ ∅ [] 0 [].

(** The [Arc] a task holds, and the lock it is inside. *)
Definition lock_of (p : Phase) : option Z :=
  match p with
  | Waiting l | Entered l | Stale l _ | Initializing l | Inserting l _ _ | Leaving l _ | Reclaiming l _ | Returning l _ => Some l
  | _ => None
  end.
Definition inside (p : Phase) : option Z :=
  match p with
  | Entered l | Stale l _ | Initializing l | Inserting l _ _ | Leaving l _ => Some l
  | _ => None
  end.

Definition strong_count (lock : Z) (s : Flight) : Z :=
  Z.of_nat (size (filter (fun kl => kl.2 = lock) (fl_locks s)))
  + Z.of_nat (length (filter (fun kp => lock_of kp.2 = Some lock) (fl_tasks s))).

Inductive Action : Type :=
  | Call (key : K)
  | Look (i : nat) (now : Z)
  | TakeLock (i : nat)
  | Enter (i : nat)
  | Recheck (i : nat) (now : Z)
  | Reap (i : nat)
  | FinishInit (i : nat) (v : V) (now : Z)
  | Insert (i : nat)
  | Leave (i : nat)
  | ReclaimLock (i : nat)
  | Return (i : nat)
  | Cancel (i : nat)
  | Other (op : CacheOp K V) (now : Z)
  | CleanLocks.

Definition set_phase (i : nat) (k : K) (p : Phase) (s : Flight) : Flight :=
  mkFlight (fl_cache s) (fl_locks s) (fl_held s) (<[i := (k, p)]> (fl_tasks s)) (fl_allocated s) (fl_inits s).
Definition set_cache (c : CacheInner K V) (s : Flight) : Flight :=
  mkFlight c (fl_locks s) (fl_held s) (fl_tasks s) (fl_allocated s) (fl_inits s).
Definition set_held (h : gmap Z nat) (s : Flight) : Flight :=
  mkFlight (fl_cache s) (fl_locks s) h (fl_tasks s) (fl_allocated s) (fl_inits s).
Definition set_locks (t : gmap K Z) (s : Flight) : Flight :=
  mkFlight (fl_cache s) t (fl_held s) (fl_tasks s) (fl_allocated s) (fl_inits s).

(** [entry(key).or_insert_with(..).clone()] *)
Definition take_init_lock (k : K) (s : Flight) : Z * Flight :=
  match fl_locks s !! k with
  | Some l => (l, s)
  | None =>
      let l := fl_allocated s in
      (l, mkFlight (fl_cache s) (<[k := l]> (fl_locks s)) (fl_held s) (fl_tasks s) (l + 1) (fl_inits s))
  end.
Definition reclaim_init_lock (k : K) (l : Z) (s : Flight) : Flight :=
  if (strong_count l s <=? 2) && bool_decide (fl_locks s !! k = Some l)
  then set_locks (delete k (fl_locks s)) s else s.
Definition clean_locks (s : Flight) : Flight :=
  set_locks (filter (fun kl => 1 < strong_count kl.2 s) (fl_locks s)) s.

(** Each step ends where the call may next be suspended or dropped.  The instants are read
    before the locks are awaited: the one of the insertion when [init] has completed. *)
Definition flight_step (a : Action) (s : Flight) : option Flight :=
  match a with
  | Call k => Some (mkFlight (fl_cache s) (fl_locks s) (fl_held s) (fl_tasks s ++ [(k, Called)]) (fl_allocated s) (fl_inits s))
  | Look i now =>
      match fl_tasks s !! i with
      | Some (k, Called) =>
          let '(r, reap, c) := get_first cfg k now (fl_cache s) in
          Some (set_phase i k (match r with Some v => Returned v | None => if reap then Expired now else Missed end)
                  (set_cache c s))
      | _ => None
      end
  | TakeLock i =>
      match fl_tasks s !! i with
      | Some (k, Missed) => let '(l, s) := take_init_lock k s in Some (set_phase i k (Waiting l) s)
      | _ => None
      end
  | Enter i =>
      match fl_tasks s !! i with
      | Some (k, Waiting l) =>
          match fl_held s !! l with
          | None => Some (set_phase i k (Entered l) (set_held (<[l := i]> (fl_held s)) s))
          | Some _ => None
          end
      | _ => None
      end
  | Recheck i now =>
      match fl_tasks s !! i with
      | Some (k, Entered l) =>
          let '(r, reap, c) := get_first cfg k now (fl_cache s) in
          Some (set_phase i k
                  (match r with Some v => Leaving l v | None => if reap then Stale l now else Initializing l end)
                  (set_cache c s))
      | _ => None
      end
  | Reap i =>
      match fl_tasks s !! i with
      | Some (k, Expired now) => Some (set_phase i k Missed (set_cache (get_reap cfg k now (fl_cache s)) s))
      | Some (k, Stale l now) => Some (set_phase i k (Initializing l) (set_cache (get_reap cfg k now (fl_cache s)) s))
      | _ => None
      end
  | FinishInit i v now =>
      match fl_tasks s !! i with
      | Some (k, Initializing l) =>
          Some (set_phase i k (Inserting l v now)
                  (mkFlight (fl_cache s) (fl_locks s) (fl_held s) (fl_tasks s) (fl_allocated s) (fl_inits s ++ [(k, v)])))
      | _ => None
      end
  | Insert i =>
      match fl_tasks s !! i with
      | Some (k, Inserting l v now) =>
          let '(ret, c) := insert_and_return cfg k v now (fl_cache s) in
          Some (set_phase i k (Leaving l ret) (set_cache c s))
      | _ => None
      end
  | Leave i =>
      match fl_tasks s !! i with
      | Some (k, Leaving l v) => Some (set_phase i k (Reclaiming l v) (set_held (delete l (fl_held s)) s))
      | _ => None
      end
  | ReclaimLock i =>
      match fl_tasks s !! i with
      | Some (k, Reclaiming l v) => Some (set_phase i k (Returning l v) (reclaim_init_lock k l s))
      | _ => None
      end
  | Return i =>
      match fl_tasks s !! i with
      | Some (k, Returning l v) => Some (set_phase i k (Returned v) s)
      | _ => None
      end
  | Cancel i =>
      match fl_tasks s !! i with
      | Some (_, Returned _) | Some (_, Cancelled) | None => None
      | Some (k, p) =>
          Some (set_phase i k Cancelled
                  (match inside p with Some l => set_held (delete l (fl_held s)) s | None => s end))
      end
  | Other op now => Some (set_cache (cache_step cfg op now (fl_cache s)).2 s)
  | CleanLocks => Some (clean_locks s)
  end.
Fixpoint flight_run (acts : list Action) (s : Flight) : option Flight :=
  match acts with
  | [] => Some s
  | a :: acts => match flight_step a s with Some s => flight_run acts s | None => None end
  end.

(** What can happen, when the other operations are restricted to some. *)
Inductive reachable (others : CacheOp K V -> bool) : Flight -> Prop :=
  | reach_new : reachable others flight_new
  | reach_step s a s' :
      reachable others s -> flight_step a s = Some s' ->
      match a with Other op _ => others op = true | _ => True end ->
      reachable others s'.

(** ** Who holds which lock *)

(** The lock a task still relies on. *)
Definition needs (p : Phase) : option Z := match p with Returning _ _ => None | p => lock_of p end.

(** The lock a task relies on is the one of its key in the table; different keys have
    different locks; a lock is held by the task that is inside it. *)
Record flight_ok (t : gmap K Z) (h : gmap Z nat) (ts : list (K * Phase)) (n : Z) : Prop := {
  ok_needs i k p l : ts !! i = Some (k, p) -> needs p = Some l -> t !! k = Some l;
  ok_distinct k k' l : t !! k = Some l -> t !! k' = Some l -> k = k';
  ok_allocated k l : t !! k = Some l -> l < n;
  ok_inside i k p l : ts !! i = Some (k, p) -> inside p = Some l -> h !! l = Some i;
  ok_held l i : h !! l = Some i -> exists k p, ts !! i = Some (k, p) /\ inside p = Some l
}.
Abbreviation state_ok s := (flight_ok (fl_locks s) (fl_held s) (fl_tasks s) (fl_allocated s)).

Lemma inside_needs p l : inside p = Some l -> needs p = Some l.
Proof. by destruct p. Qed.
Lemma needs_lock p l : needs p = Some l -> lock_of p = Some l.
Proof. by destruct p. Qed.

Lemma phase_ok t h ts n i k p p' :
  flight_ok t h ts n -> ts !! i = Some (k, p) ->
  (forall l, needs p' = Some l -> t !! k = Some l) -> inside p' = inside p ->
  flight_ok t h (<[i := (k, p')]> ts) n.
Proof.
  intros [Hn Hd Ha Hi Hh] Hp Hnp Hip. split; [|done|done| |].
  - intros j k' q l Hq. apply list_lookup_insert_Some in Hq as [(-> & [= <- <-] & _)|[_ Hq]]; [apply Hnp|by eapply Hn].
  - intros j k' q l Hq. apply list_lookup_insert_Some in Hq as [(-> & [= <- <-] & _)|[_ Hq]]; [|by eapply Hi].
    rewrite Hip. by eapply Hi.
  - intros l j Hl. destruct (Hh l j Hl) as (k' & q & Hq & Hql). destruct (decide (i = j)) as [->|Hne].
    + exists k, p'. rewrite list_lookup_insert_eq by (by eapply lookup_lt_Some). rewrite Hp in Hq. simplify_eq.
      by split; [|rewrite Hip].
    + exists k', q. by rewrite list_lookup_insert_ne.
Qed.
Lemma call_ok t h ts n k : flight_ok t h ts n -> flight_ok t h (ts ++ [(k, Called)]) n.
Proof.
  intros [Hn Hd Ha Hi Hh]. split; [|done|done| |].
  - intros i k' p l Hp. apply lookup_app_Some in Hp as [Hp|[_ Hp]]; [by eapply Hn|].
    apply list_lookup_singleton_Some in Hp as [_ [= <- <-]]. done.
  - intros i k' p l Hp. apply lookup_app_Some in Hp as [Hp|[_ Hp]]; [by eapply Hi|].
    apply list_lookup_singleton_Some in Hp as [_ [= <- <-]]. done.
  - intros l i Hl. destruct (Hh l i Hl) as (k' & p & Hp & Hpl). exists k', p. split; [|done]. by apply lookup_app_l_Some.
Qed.
Lemma take_ok k s : state_ok s -> let '(l, s') := take_init_lock k s in
  state_ok s' /\ fl_locks s' !! k = Some l /\ fl_tasks s' = fl_tasks s.
Proof.
  intros Hok. unfold take_init_lock. destruct (fl_locks s !! k) as [l|] eqn:Hl; [done|]. cbn.
  split; [|split; [apply lookup_insert_eq|done]]. destruct Hok as [Hn Hd Ha Hi Hh].
  assert (Hkeep : forall k' l, fl_locks s !! k' = Some l -> <[k := fl_allocated s]> (fl_locks s) !! k' = Some l).
  { intros k' l Hk. rewrite lookup_insert_ne; [done|]. intros ->. congruence. }
  split; [|intros k1 k2 l H1 H2| |done|done].
  - intros i k' p l Hp Hpl. by eapply Hkeep, Hn.
  - apply lookup_insert_Some in H1 as [[<- <-]|[? H1]], H2 as [[<- Hl2]|[? H2]]; [done| | |by eapply Hd].
    + apply Ha in H2. lia.
    + apply Ha in H1. lia.
  - intros k' l Hk. apply lookup_insert_Some in Hk as [[<- <-]|[_ Hk]]; [lia|]. apply Ha in Hk. lia.
Qed.
Lemma enter_ok t h ts n i k l :
  flight_ok t h ts n -> ts !! i = Some (k, Waiting l) -> h !! l = None ->
  flight_ok t (<[l := i]> h) (<[i := (k, Entered l)]> ts) n.
Proof.
  intros [Hn Hd Ha Hi Hh] Hp Hl. pose proof (Hn i k _ l Hp eq_refl) as Hk.
  pose proof (lookup_lt_Some _ _ _ Hp) as Hlt. split; [|done|done| |].
  - intros j k' q m Hq. apply list_lookup_insert_Some in Hq as [(-> & [= <- <-] & _)|[_ Hq]]; [|by eapply Hn].
    cbn. by intros [= <-].
  - intros j k' q m Hq Hqm. apply list_lookup_insert_Some in Hq as [(<- & [= <- <-] & _)|[Hne Hq]].
    + injection Hqm as <-. apply lookup_insert_eq.
    + pose proof (Hi j k' q m Hq Hqm) as Hm. rewrite lookup_insert_ne; [done|]. intros ->. congruence.
  - intros m j Hm. apply lookup_insert_Some in Hm as [[<- <-]|[Hne Hm]].
    + exists k, (Entered l). by rewrite list_lookup_insert_eq.
    + destruct (Hh m j Hm) as (k' & q & Hq & Hqm). exists k', q. split; [|done].
      rewrite list_lookup_insert_ne; [done|]. intros ->. rewrite Hp in Hq. simplify_eq.
Qed.
Lemma leave_ok t h ts n i k p p' l :
  flight_ok t h ts n -> ts !! i = Some (k, p) -> inside p = Some l -> inside p' = None ->
  (forall m, needs p' = Some m -> m = l) ->
  flight_ok t (delete l h) (<[i := (k, p')]> ts) n.
Proof.
  intros [Hn Hd Ha Hi Hh] Hp Hpl Hp' Hnp. pose proof (Hi i k p l Hp Hpl) as Hhl. split; [|done|done| |].
  - intros j k' q m Hq Hqm. apply list_lookup_insert_Some in Hq as [(-> & [= <- <-] & _)|[_ Hq]]; [|by eapply Hn].
    apply Hnp in Hqm as ->. eapply Hn; [exact Hp|by apply inside_needs].
  - intros j k' q m Hq Hqm. apply list_lookup_insert_Some in Hq as [(-> & [= <- <-] & _)|[Hne Hq]]; [congruence|].
    pose proof (Hi j k' q m Hq Hqm) as Hm. rewrite lookup_delete_ne; [done|]. intros ->. congruence.
  - intros m j [Hne Hm]%lookup_delete_Some. destruct (Hh m j Hm) as (k' & q & Hq & Hqm). exists k', q. split; [|done].
    rewrite list_lookup_insert_ne; [done|]. intros ->. rewrite Hp in Hq. congruence.
Qed.
Lemma shrink_ok t t' h ts n :
  flight_ok t h ts n -> t' ⊆ t ->
  (forall i k p l, ts !! i = Some (k, p) -> needs p = Some l -> t' !! k = Some l) -> flight_ok t' h ts n.
Proof.
  intros [Hn Hd Ha Hi Hh] Hsub Hn'. split; [done| | |done|done].
  - intros k k' l H1 H2. by eapply Hd; eapply lookup_weaken.
  - intros k l H1. by eapply Ha, lookup_weaken.
Qed.

(** *** Counting *)

Lemma count_one (ts : list (K * Phase)) i k p l :
  ts !! i = Some (k, p) -> lock_of p = Some l -> (1 <= length (filter (fun kp => lock_of kp.2 = Some l) ts))%nat.
Proof.
  intros Hp Hl. assert (Hin : (k, p) ∈ filter (fun kp => lock_of kp.2 = Some l) ts).
  { apply list_elem_of_filter. split; [done|]. by eapply list_elem_of_lookup_2. }
  destruct (filter _ ts); [by apply elem_of_nil in Hin|cbn; lia].
Qed.
Lemma count_two (ts : list (K * Phase)) i j kp kp' l :
  ts !! i = Some kp -> ts !! j = Some kp' -> i ≠ j -> lock_of kp.2 = Some l -> lock_of kp'.2 = Some l ->
  (2 <= length (filter (fun kp => lock_of kp.2 = Some l) ts))%nat.
Proof.
  revert i j kp kp'. induction ts as [|x ts IH]; [done|]. intros i j [k p] [k' p'] Hi Hj Hne Hl Hl'. cbn in Hl, Hl'.
  rewrite filter_cons. destruct i as [|i], j as [|j]; cbn in Hi, Hj; [done| | |].
  - simplify_eq. rewrite decide_True by done. cbn. pose proof (count_one ts j k' p' l Hj Hl'). lia.
  - simplify_eq. rewrite decide_True by done. cbn. pose proof (count_one ts i k p l Hi Hl). lia.
  - pose proof (IH i j _ _ Hi Hj ltac:(lia) Hl Hl'). destruct (decide _); cbn; lia.
Qed.
Lemma count_table (t : gmap K Z) k l : t !! k = Some l -> (1 <= size (filter (fun kl => kl.2 = l) t))%nat.
Proof.
  intros Hk. assert (Hf : filter (fun kl : K * Z => kl.2 = l) t !! k = Some l) by by apply map_lookup_filter_Some.
  destruct (decide (size (filter (fun kl : K * Z => kl.2 = l) t) = 0%nat)) as [E|]; [|lia].
  apply map_size_empty_inv in E. by rewrite E, lookup_empty in Hf.
Qed.

Lemma reclaim_ok s i k l v :
  state_ok s -> fl_tasks s !! i = Some (k, Reclaiming l v) ->
  state_ok (set_phase i k (Returning l v) (reclaim_init_lock k l s)).
Proof.
  intros Hok Hi. pose proof (phase_ok _ _ _ _ i k _ (Returning l v) Hok Hi) as Hret.
  unfold reclaim_init_lock. destruct (Z.leb_spec (strong_count l s) 2) as [Hc|]; cbn [andb]; [|by apply Hret].
  destruct (bool_decide_reflect (fl_locks s !! k = Some l)) as [Hk|]; [|by apply Hret]. cbn.
  eapply shrink_ok; [by apply Hret|apply delete_subseteq|]. intros j k' p m Hj Hm.
  apply list_lookup_insert_Some in Hj as [(-> & [= <- <-] & _)|[Hne Hj]]; [done|].
  pose proof (ok_needs _ _ _ _ Hok j k' p m Hj Hm) as Hk'.
  rewrite lookup_delete_ne; [done|]. intros <-. rewrite Hk in Hk'. injection Hk' as <-.
  pose proof (count_two _ i j _ _ l Hi Hj Hne eq_refl (needs_lock _ _ Hm)).
  pose proof (count_table _ _ _ Hk). unfold strong_count in Hc. lia.
Qed.
Lemma clean_ok s : state_ok s -> state_ok (clean_locks s).
Proof.
  intros Hok. eapply shrink_ok; [exact Hok|apply map_filter_subseteq|].
  change (fl_tasks (clean_locks s)) with (fl_tasks s). intros i k p l Hi Hl.
  pose proof (ok_needs _ _ _ _ Hok i k p l Hi Hl) as Hk. apply map_lookup_filter_Some. split; [done|].
  change (1 < strong_count l s).
  pose proof (count_one _ i k p l Hi (needs_lock _ _ Hl)). pose proof (count_table _ _ _ Hk).
  unfold strong_count. lia.
Qed.
Lemma flight_step_ok a s s' : state_ok s -> flight_step a s = Some s' -> state_ok s'.
Proof.
  intros Hok. destruct a as [k|i now|i|i|i now|i|i v now|i|i|i|i|i|op now|]; cbn [flight_step].
  - intros [= <-]. by apply call_ok.
  - destruct (fl_tasks s !! i) as [[k []]|] eqn:Hi; try done. destruct (get_first cfg k now (fl_cache s)) as [[r b] c].
    intros [= <-]. apply (phase_ok _ _ _ _ i k Called); [done|done| |]; by destruct r, b.
  - destruct (fl_tasks s !! i) as [[k []]|] eqn:Hi; try done. pose proof (take_ok k s Hok) as Ht.
    destruct (take_init_lock k s) as [l s1]. destruct Ht as (Hok1 & Hl & Hts). intros [= <-].
    apply (phase_ok _ _ _ _ i k Missed); [done|by rewrite Hts| |done]. cbn. by intros m [= <-].
  - destruct (fl_tasks s !! i) as [[k []]|] eqn:Hi; try done. destruct (fl_held s !! lock) eqn:Hl; [done|].
    intros [= <-]. by apply enter_ok.
  - destruct (fl_tasks s !! i) as [[k []]|] eqn:Hi; try done. destruct (get_first cfg k now (fl_cache s)) as [[r b] c].
    intros [= <-]. apply (phase_ok _ _ _ _ i k (Entered lock)); [done|done| |by destruct r, b].
    pose proof (ok_needs _ _ _ _ Hok i k _ lock Hi eq_refl) as Hk. intros m Hm. by destruct r, b; cbn in Hm; simplify_eq.
  - destruct (fl_tasks s !! i) as [[k p]|] eqn:Hi; [|done]. destruct p; try done; intros [= <-];
      (eapply phase_ok; [done|exact Hi| |done]); [done|].
    pose proof (ok_needs _ _ _ _ Hok i k _ lock Hi eq_refl) as Hk. cbn. by intros m [= <-].
  - destruct (fl_tasks s !! i) as [[k []]|] eqn:Hi; try done. intros [= <-].
    apply (phase_ok _ _ _ _ i k (Initializing lock)); [done|done| |done].
    pose proof (ok_needs _ _ _ _ Hok i k _ lock Hi eq_refl) as Hk. cbn. by intros m [= <-].
  - destruct (fl_tasks s !! i) as [[k []]|] eqn:Hi; try done. intros [= <-].
    apply (phase_ok _ _ _ _ i k (Inserting lock v now)); [done|done| |done].
    pose proof (ok_needs _ _ _ _ Hok i k _ lock Hi eq_refl) as Hk. cbn. by intros m [= <-].
  - destruct (fl_tasks s !! i) as [[k []]|] eqn:Hi; try done. intros [= <-].
    apply (leave_ok _ _ _ _ i k (Leaving lock v)); try done. cbn. by intros m [= <-].
  - destruct (fl_tasks s !! i) as [[k []]|] eqn:Hi; try done. intros [= <-]. by apply reclaim_ok.
  - destruct (fl_tasks s !! i) as [[k []]|] eqn:Hi; try done. intros [= <-].
    by apply (phase_ok _ _ _ _ i k (Returning lock v)).
  - destruct (fl_tasks s !! i) as [[k p]|] eqn:Hi; [|done]. intros Hs.
    assert (Hs' : s' = set_phase i k Cancelled
                         (match inside p with Some l => set_held (delete l (fl_held s)) s | None => s end))
      by (by destruct p; simplify_eq). subst s'. destruct (inside p) as [l|] eqn:Hp.
    + by apply (leave_ok _ _ _ _ i k p).
    + by apply (phase_ok _ _ _ _ i k p).
  - by intros [= <-].
  - intros [= <-]. by apply clean_ok.
Qed.
Lemma reachable_ok others s : reachable others s -> state_ok s.
Proof.
  induction 1 as [|s a s' _ IH Hs _]; [|by eapply flight_step_ok].
  split; cbn; [done| | |done|]; intros *; by rewrite lookup_empty.
Qed.
Lemma ok_exclusive s i j k p p' l l' :
  state_ok s -> fl_tasks s !! i = Some (k, p) -> fl_tasks s !! j = Some (k, p') ->
  inside p = Some l -> inside p' = Some l' -> i = j.
Proof.
  intros Hr Hi Hj Hl Hl'.
  pose proof (ok_needs _ _ _ _ Hr _ _ _ _ Hi (inside_needs _ _ Hl)).
  pose proof (ok_needs _ _ _ _ Hr _ _ _ _ Hj (inside_needs _ _ Hl')). simplify_eq.
  pose proof (ok_inside _ _ _ _ Hr _ _ _ _ Hi Hl). pose proof (ok_inside _ _ _ _ Hr _ _ _ _ Hj Hl'). congruence.
Qed.

(** ** Once *)

(** Entries do not disappear by themselves. *)
Definition unlimited : Prop := max_capacity cfg = None /\ time_to_live cfg = None /\ time_to_idle cfg = None.
Definition reading (op : CacheOp K V) : bool := match op with CGet _ | CReap _ | CPending => true | _ => false end.

Lemma unlimited_fresh (e : CacheEntry V) now : unlimited -> entry_expired cfg e now = false.
Proof. intros (_ & Ht & Hi). unfold entry_expired, times_expired. by rewrite Ht, Hi. Qed.
Lemma unlimited_get k now (c : CacheInner K V) : unlimited -> get_first cfg k now c = (en_value <$> ci_map c !! k, false, c).
Proof.
  intros Hu. pose proof Hu as (_ & _ & Hi). unfold get_first. destruct (ci_map c !! k) as [e|]; [|done].
  rewrite Hi. by rewrite unlimited_fresh.
Qed.
Lemma unlimited_read op now (c : CacheInner K V) :
  unlimited -> reading op = true -> ci_map (cache_step cfg op now c).2 = ci_map c.
Proof.
  intros Hu. destruct op; try done; intros _; cbn [cache_step].
  - by rewrite unlimited_get.
  - cbn. unfold get_reap. destruct (_ !! _) as [e|]; [|done]. by rewrite unlimited_fresh.
  - cbn. apply map_filter_id. intros k e _. by apply unlimited_fresh.
Qed.
Lemma unlimited_insert k v now (c : CacheInner K V) :
  unlimited -> ci_map c !! k = None ->
  exists e, ci_map (pc_insert cfg k v now c) = <[k := e]> (ci_map c) /\ en_value e = v.
Proof.
  intros (Hm & _) Hk. unfold pc_insert, insert_new. rewrite Hk, Hm. cbn. by eexists.
Qed.

Definition value_of (p : Phase) : option V :=
  match p with Leaving _ v | Reclaiming _ v | Returning _ v | Returned v => Some v | _ => None end.
(** Between the second [get] and the insertion the key is not in the cache. *)
Definition absent (p : Phase) : bool := match p with Initializing _ | Inserting _ _ _ => true | _ => false end.
Definition met_expired (p : Phase) : bool := match p with Expired _ | Stale _ _ => true | _ => false end.
(** [ins] is what was initialised and inserted. *)
Record once_ok (m : gmap K (CacheEntry V)) (ins : list (K * V)) (ts : list (K * Phase)) : Prop := {
  once_cached k v : (k, v) ∈ ins <-> exists e, m !! k = Some e /\ en_value e = v;
  once_keys : NoDup ins.*1;
  once_value i k p v : ts !! i = Some (k, p) -> value_of p = Some v -> (k, v) ∈ ins;
  once_absent i k p : ts !! i = Some (k, p) -> absent p = true -> m !! k = None;
  once_fresh i k p : ts !! i = Some (k, p) -> met_expired p = false
}.

Lemma phase_once m ins ts i k p :
  once_ok m ins ts -> (forall v, value_of p = Some v -> (k, v) ∈ ins) -> (absent p = true -> m !! k = None) ->
  met_expired p = false -> once_ok m ins (<[i := (k, p)]> ts).
Proof.
  intros [Hc Hk Hv Ha Hf] Hp Hi Hm. split; [done|done| | |].
  - intros j k' q v Hq. apply list_lookup_insert_Some in Hq as [(_ & [= <- <-] & _)|[_ Hq]]; [apply Hp|by eapply Hv].
  - intros j k' q Hq. apply list_lookup_insert_Some in Hq as [(_ & [= <- <-] & _)|[_ Hq]]; [by eapply Hi|by eapply Ha].
  - intros j k' q Hq. apply list_lookup_insert_Some in Hq as [(_ & [= <- <-] & _)|[_ Hq]]; [done|by eapply Hf].
Qed.
Lemma look_once m ins ts i k (c : CacheInner K V) now (f : option V -> Phase) :
  unlimited -> once_ok m ins ts -> ci_map c = m ->
  (forall v, value_of (f (Some v)) = Some v) -> value_of (f None) = None -> (forall v, absent (f (Some v)) = false) ->
  (forall r, met_expired (f r) = false) ->
  once_ok m ins (<[i := (k, f (get_first cfg k now c).1.1)]> ts).
Proof.
  intros Hu Ho Hm Hf Hn Hl He'. rewrite unlimited_get by done. cbn [fst].
  destruct (ci_map c !! k) as [e|] eqn:He; cbn [fmap option_fmap option_map]; apply phase_once; try done.
  - intros v. rewrite Hf. intros [= <-]. apply (once_cached _ _ _ Ho). exists e. by rewrite <- Hm.
  - by rewrite Hl.
  - intros v. by rewrite Hn.
  - intros _. by rewrite <- Hm.
Qed.
Lemma insert_once s ins i k l v now :
  unlimited -> state_ok s -> once_ok (ci_map (fl_cache s)) ins (fl_tasks s) ->
  fl_tasks s !! i = Some (k, Inserting l v now) ->
  once_ok (ci_map (pc_insert cfg k v now (fl_cache s))) (ins ++ [(k, v)]) (<[i := (k, Leaving l v)]> (fl_tasks s)).
Proof.
  intros Hu Hok Ho Hi. pose proof (once_absent _ _ _ Ho i k _ Hi eq_refl) as Hnone.
  destruct (unlimited_insert k v now (fl_cache s) Hu Hnone) as (e & -> & He).
  assert (Hfresh : k ∉ ins.*1).
  { intros ([k' v'] & -> & Hin)%list_elem_of_fmap. apply (once_cached _ _ _ Ho) in Hin as (e' & He' & _). cbn in Hnone. congruence. }
  split.
  - intros k' v'. rewrite elem_of_app, list_elem_of_singleton, (once_cached _ _ _ Ho). split.
    + intros [(e' & He' & Hv')|[= -> ->]]; [|exists e; by rewrite lookup_insert_eq].
      exists e'. rewrite lookup_insert_ne; [done|]. intros ->. congruence.
    + intros (e' & He' & Hv'). apply lookup_insert_Some in He' as [[<- <-]|[_ He']]; [right; by subst|left; by exists e'].
  - rewrite fmap_app. apply NoDup_app. split; [apply Ho|]. split; [|apply NoDup_singleton].
    intros x Hx Hin. cbn in Hin. apply list_elem_of_singleton in Hin as ->. done.
  - intros j k' p v' Hj Hv'. apply elem_of_app. apply list_lookup_insert_Some in Hj as [(_ & [= <- <-] & _)|[_ Hj]].
    + injection Hv' as <-. right. left.
    + left. by eapply (once_value _ _ _ Ho).
  - intros j k' p Hj Hp. apply list_lookup_insert_Some in Hj as [(_ & [= <- <-] & _)|[Hne Hj]]; [done|].
    rewrite lookup_insert_ne; [by eapply (once_absent _ _ _ Ho)|]. intros <-. apply Hne.
    assert (Hl' : exists l', inside p = Some l') by (destruct p; try done; by eexists). destruct Hl' as [l' Hl'].
    by eapply (ok_exclusive s i j k).
  - intros j k' p Hj. apply list_lookup_insert_Some in Hj as [(_ & [= <- <-] & _)|[_ Hj]]; [done|].
    by eapply (once_fresh _ _ _ Ho).
Qed.

(** The values that wait for their insertion, and the keys of the calls that were dropped. *)
Definition pending (ts : list (K * Phase)) : list (K * V) :=
  omap (fun kp => match kp.2 with Inserting _ v _ => Some (kp.1, v) | _ => None end) ts.
Definition cancelled (ts : list (K * Phase)) : list K :=
  omap (fun kp => match kp.2 with Cancelled => Some kp.1 | _ => None end) ts.

Lemma omap_insert {A B} (f : A -> option B) (ts : list A) i x y : ts !! i = Some x ->
  exists rest, omap f ts ≡ₚ option_list (f x) ++ rest /\ omap f (<[i := y]> ts) ≡ₚ option_list (f y) ++ rest.
Proof.
  intros Hi. exists (omap f (take i ts) ++ omap f (drop (S i) ts)).
  assert (Hone : forall z, omap f (take i ts ++ z :: drop (S i) ts)
    ≡ₚ option_list (f z) ++ omap f (take i ts) ++ omap f (drop (S i) ts)).
  { intros z. rewrite omap_app. cbn [omap list_omap]. destruct (f z); cbn [option_list app]; [|done].
    by rewrite <- Permutation_middle. }
  split; [rewrite <- (take_drop_middle ts i x Hi) at 1; apply Hone|].
  rewrite insert_take_drop by (by eapply lookup_lt_Some). apply Hone.
Qed.
Lemma omap_same {A B} (f : A -> option B) (ts : list A) i x y : ts !! i = Some x -> f y = f x ->
  omap f (<[i := y]> ts) ≡ₚ omap f ts.
Proof. intros Hi Hf. destruct (omap_insert f ts i x y Hi) as (rest & -> & ->). by rewrite Hf. Qed.

(** Every initialisation that completed is inserted, waits to be, or belongs to a call that
    was dropped. *)
Definition accounted (inits ins : list (K * V)) (ts : list (K * Phase)) : Prop :=
  exists lost, inits ≡ₚ ins ++ pending ts ++ lost /\ lost.*1 ⊆+ cancelled ts.
Definition state_once (s : Flight) : Prop :=
  exists ins, once_ok (ci_map (fl_cache s)) ins (fl_tasks s) /\ accounted (fl_inits s) ins (fl_tasks s).

(** A step that neither completes an initialisation nor inserts nor drops a value. *)
Definition quiet (p : Phase) : bool := match p with Inserting _ _ _ | Cancelled => false | _ => true end.
Lemma accounted_phase inits ins ts i k p p' : accounted inits ins ts -> ts !! i = Some (k, p) ->
  quiet p = true -> quiet p' = true -> accounted inits ins (<[i := (k, p')]> ts).
Proof.
  intros (lost & Hi & Hl) Hp Hq Hq'. exists lost. unfold pending, cancelled in *.
  rewrite !(omap_same _ ts i (k, p)) by (done || by destruct p, p'). done.
Qed.
Lemma accounted_finish inits ins ts i k l v now : accounted inits ins ts -> ts !! i = Some (k, Initializing l) ->
  accounted (inits ++ [(k, v)]) ins (<[i := (k, Inserting l v now)]> ts).
Proof.
  intros (lost & Hi & Hl) Hp. exists lost. unfold pending, cancelled in *. split.
  - destruct (omap_insert (fun kp => match kp.2 with Inserting _ v _ => Some (kp.1, v) | _ => None end) ts i _
      (k, Inserting l v now) Hp) as (rest & Hr & ->). rewrite Hi, Hr. cbn.
    rewrite (Permutation_app_comm _ [(k, v)]). by rewrite <- Permutation_middle.
  - by rewrite (omap_same _ ts i (k, Initializing l)).
Qed.
Lemma accounted_insert inits ins ts i k l v now : accounted inits ins ts -> ts !! i = Some (k, Inserting l v now) ->
  accounted inits (ins ++ [(k, v)]) (<[i := (k, Leaving l v)]> ts).
Proof.
  intros (lost & Hi & Hl) Hp. exists lost. unfold pending, cancelled in *. split.
  - destruct (omap_insert (fun kp => match kp.2 with Inserting _ v _ => Some (kp.1, v) | _ => None end) ts i _
      (k, Leaving l v) Hp) as (rest & Hr & ->). rewrite Hi, Hr. cbn.
    by rewrite <- app_assoc.
  - by rewrite (omap_same _ ts i (k, Inserting l v now)).
Qed.
Lemma accounted_cancel inits ins ts i k p : accounted inits ins ts -> ts !! i = Some (k, p) ->
  p <> Cancelled -> accounted inits ins (<[i := (k, Cancelled)]> ts).
Proof.
  intros (lost & Hi & Hl) Hp Hne. unfold accounted, pending, cancelled in *.
  destruct (omap_insert (fun kp => match kp.2 with Inserting _ v _ => Some (kp.1, v) | _ => None end) ts i _
    (k, Cancelled) Hp) as (rest & Hr & Hr').
  destruct (omap_insert (fun kp => match kp.2 with Cancelled => Some kp.1 | _ => None end) ts i _
    (k, Cancelled) Hp) as (rest' & Hc & Hc').
  assert (Hcp : forall l : list K, lost.*1 ⊆+ rest' -> l ⊆+ [k] -> l ++ lost.*1 ⊆+ [k] ++ rest')
    by (intros; by apply submseteq_app).
  rewrite Hc in Hl. replace (option_list _) with (@nil K) in Hl by (by destruct p). cbn [app] in Hl.
  exists (match p with Inserting _ v _ => [(k, v)] | _ => [] end ++ lost). rewrite Hr', Hc', fmap_app. split.
  - rewrite Hi, Hr. destruct p; cbn; try done. apply Permutation_app_head, Permutation_middle.
  - apply Hcp; [done|]. destruct p; cbn; (done || apply submseteq_nil_l).
Qed.
Lemma set_phase_once s i k p p' :
  state_once s -> fl_tasks s !! i = Some (k, p) -> value_of p' = value_of p \/ value_of p' = None ->
  absent p' = false -> met_expired p' = false -> quiet p = true -> quiet p' = true ->
  exists ins, once_ok (ci_map (fl_cache s)) ins (<[i := (k, p')]> (fl_tasks s))
    /\ accounted (fl_inits s) ins (<[i := (k, p')]> (fl_tasks s)).
Proof.
  intros (ins & Ho & Hacc) Hi Hv Ha Hm Hq Hq'. exists ins. split; [|by eapply accounted_phase].
  apply phase_once; [done| |by rewrite Ha|done].
  intros v Hv'. destruct Hv as [Hv|Hv]; [|congruence]. rewrite Hv in Hv'. by eapply (once_value _ _ _ Ho).
Qed.

Lemma call_once s k : state_once s ->
  exists ins, once_ok (ci_map (fl_cache s)) ins (fl_tasks s ++ [(k, Called)])
    /\ accounted (fl_inits s) ins (fl_tasks s ++ [(k, Called)]).
Proof.
  intros (ins & Ho & lost & Hi & Hl). exists ins. split.
  - split; try apply Ho; intros j k' q.
    + intros v Hj Hq. apply lookup_app_Some in Hj as [Hj|[_ Hj]]; [by eapply (once_value _ _ _ Ho)|].
      by apply list_lookup_singleton_Some in Hj as [_ [= <- <-]].
    + intros Hj Hq. apply lookup_app_Some in Hj as [Hj|[_ Hj]]; [by eapply (once_absent _ _ _ Ho)|].
      by apply list_lookup_singleton_Some in Hj as [_ [= <- <-]].
    + intros Hj. apply lookup_app_Some in Hj as [Hj|[_ Hj]]; [by eapply (once_fresh _ _ _ Ho)|].
      by apply list_lookup_singleton_Some in Hj as [_ [= <- <-]].
  - exists lost. unfold pending, cancelled in *. rewrite !omap_app. cbn [omap list_omap snd]. by rewrite !app_nil_r.
Qed.
Lemma look_state_once s i k p (f : option V -> Phase) :
  unlimited -> state_once s -> fl_tasks s !! i = Some (k, p) ->
  (forall v, value_of (f (Some v)) = Some v) -> value_of (f None) = None -> (forall v, absent (f (Some v)) = false) ->
  (forall r, met_expired (f r) = false) -> quiet p = true -> (forall r, quiet (f r) = true) ->
  state_once (set_phase i k (f (en_value <$> ci_map (fl_cache s) !! k)) (set_cache (fl_cache s) s)).
Proof.
  intros Hu (ins & Ho & Hacc) Hi ? ? ? ? ? ?. exists ins. split; [|by eapply accounted_phase].
  pose proof (look_once _ _ _ i k (fl_cache s) 0 f Hu Ho eq_refl) as Hl. rewrite unlimited_get in Hl by done. by apply Hl.
Qed.

Lemma flight_step_once a s s' :
  unlimited -> state_ok s -> state_once s -> flight_step a s = Some s' ->
  match a with Other op _ => reading op = true | _ => True end -> state_once s'.
Proof.
  intros Hu Hok Hs. destruct a as [k|i now|i|i|i now|i|i v now|i|i|i|i|i|op now|]; cbn [flight_step];
    try (destruct (fl_tasks s !! i) as [[k p]|] eqn:Hi; [|done]).
  - intros [= <-] _. exact (call_once s k Hs).
  - destruct p; try done. rewrite unlimited_get by done. intros [= <-] _.
    apply (look_state_once s i k Called (fun r => match r with Some v => Returned v | None => Missed end)); try done; by intros [].
  - destruct p; try done. unfold take_init_lock. destruct (fl_locks s !! k); intros [= <-] _; unfold state_once; cbn;
      (apply (set_phase_once s i k Missed); [done|done|by right|done..]).
  - destruct p; try done. destruct (fl_held s !! lock); [done|]. intros [= <-] _. unfold state_once. cbn.
    apply (set_phase_once s i k (Waiting lock)); [done|done|by right|done..].
  - destruct p; try done. rewrite unlimited_get by done. intros [= <-] _.
    apply (look_state_once s i k (Entered lock)
      (fun r => match r with Some v => Leaving lock v | None => Initializing lock end)); try done; by intros [].
  - destruct Hs as (ins & Ho & _). pose proof (once_fresh _ _ _ Ho i k p Hi). by destruct p.
  - destruct p; try done. intros [= <-] _. destruct Hs as (ins & Ho & Hacc). exists ins.
    split; [|by apply accounted_finish]. apply phase_once; [done|done| |done]. intros _. by eapply (once_absent _ _ _ Ho).
  - destruct p; try done. intros [= <-] _. destruct Hs as (ins & Ho & Hacc). exists (ins ++ [(k, v)]).
    split; [exact (insert_once s ins i k lock v now Hu Hok Ho Hi)|by eapply accounted_insert].
  - destruct p; try done. intros [= <-] _. unfold state_once. cbn. apply (set_phase_once s i k (Leaving lock v)); [done|done|by left|done..].
  - destruct p; try done. intros [= <-] _. unfold reclaim_init_lock. destruct (_ && _); unfold state_once; cbn;
      (apply (set_phase_once s i k (Reclaiming lock v)); [done|done|by left|done..]).
  - destruct p; try done. intros [= <-] _. unfold state_once. cbn. apply (set_phase_once s i k (Returning lock v)); [done|done|by left|done..].
  - intros Hc _. destruct Hs as (ins & Ho & Hacc).
    assert (Hs' : s' = set_phase i k Cancelled
                         (match inside p with Some l => set_held (delete l (fl_held s)) s | None => s end))
      by (by destruct p; simplify_eq).
    exists ins. replace (fl_tasks s') with (<[i := (k, Cancelled)]> (fl_tasks s)) by (subst s'; by destruct (inside p)).
    replace (fl_cache s') with (fl_cache s) by (subst s'; by destruct (inside p)).
    replace (fl_inits s') with (fl_inits s) by (subst s'; by destruct (inside p)).
    split; [by apply phase_once|]. eapply accounted_cancel; [done|exact Hi|]. by intros ->.
  - intros [= <-] Hr. unfold state_once. cbn. by rewrite unlimited_read.
  - by intros [= <-] _.
Qed.
Lemma reachable_once others s :
  unlimited -> (forall op, others op = true -> reading op = true) -> reachable others s -> state_once s.
Proof.
  intros Hu Hr. induction 1 as [|s a s' Hreach IH Hs Ha].
  - exists []. split; [split; cbn; [|constructor|done|done|done]|by exists []].
    intros k v. rewrite lookup_empty. split; [by intros ?%elem_of_nil|by intros (? & ? & _)].
  - eapply flight_step_once; [done|by eapply reachable_ok|exact IH|exact Hs|]. destruct a; try done. by apply Hr.
Qed.

(** What is inserted or about to be has one value per key. *)
Lemma omap_keys_NoDup {A B} (f : A -> option (K * B)) (ts : list A) :
  (forall i j x y k v v', ts !! i = Some x -> ts !! j = Some y -> f x = Some (k, v) -> f y = Some (k, v') -> i = j) ->
  NoDup (omap f ts).*1.
Proof.
  induction ts as [|x ts IH]; intros Huniq; [constructor|]. cbn [omap list_omap].
  assert (Hrest : NoDup (omap f ts).*1).
  { apply IH. intros i j y z k v v' Hi Hj Hy Hz. pose proof (Huniq (S i) (S j) y z k v v' Hi Hj Hy Hz). lia. }
  destruct (f x) as [[k v]|] eqn:Ex; [|done]. rewrite fmap_cons. constructor; [|done].
  intros ([k' v'] & E & Hin)%list_elem_of_fmap. cbn in E. subst k'. apply list_elem_of_omap in Hin as (y & Hy & Ey).
  apply list_elem_of_lookup in Hy as [j Hj]. pose proof (Huniq 0%nat (S j) x y k v v' eq_refl Hj Ex Ey). lia.
Qed.
Lemma kept_keys s ins : state_ok s -> once_ok (ci_map (fl_cache s)) ins (fl_tasks s) ->
  NoDup (ins ++ pending (fl_tasks s)).*1.
Proof.
  intros Hok Ho. rewrite fmap_app. apply NoDup_app. split; [apply Ho|]. split.
  - intros k ([k' v] & -> & Hin)%list_elem_of_fmap ([k2 v2] & E & Hp)%list_elem_of_fmap. cbn in E. subst k2.
    apply (once_cached _ _ _ Ho) in Hin as (e & He & _).
    apply list_elem_of_omap in Hp as ([k2 p] & Hp & Ep). apply list_elem_of_lookup in Hp as [i Hi].
    destruct p; try done. injection Ep as -> ->. pose proof (once_absent _ _ _ Ho i _ _ Hi eq_refl). congruence.
  - apply omap_keys_NoDup. intros i j [k1 p1] [k2 p2] k v v' Hi Hj E1 E2.
    destruct p1, p2; try done. cbn in E1, E2. simplify_eq. by eapply (ok_exclusive s i j k).
Qed.

(** ** Progress *)

Definition rank (p : Phase) : nat :=
  match p with
  | Called => 11 | Expired _ => 10 | Missed => 9 | Waiting _ => 8 | Entered _ => 7 | Stale _ _ => 6
  | Initializing _ => 5 | Inserting _ _ _ => 4
  | Leaving _ _ => 3 | Reclaiming _ _ => 2 | Returning _ _ => 1 | Returned _ | Cancelled => 0
  end.
Definition remaining (s : Flight) : nat := sum_list ((rank ∘ snd) <$> fl_tasks s).
(** The steps of the tasks themselves. *)
Definition task_action (a : Action) : bool :=
  match a with Call _ | Cancel _ | Other _ _ | CleanLocks => false | _ => true end.

Lemma remaining_insert (ts : list (K * Phase)) i k p p' :
  ts !! i = Some (k, p) -> (rank p' < rank p)%nat ->
  (sum_list ((rank ∘ snd) <$> <[i := (k, p')]> ts) < sum_list ((rank ∘ snd) <$> ts))%nat.
Proof.
  revert i. induction ts as [|x ts IH]; [done|]. intros [|i] Hi Hlt.
  - injection Hi as ->. cbn [insert list_insert]. rewrite !fmap_cons. cbn [sum_list foldr]. unfold id, compose. cbn [snd]. lia.
  - specialize (IH i Hi Hlt). cbn [insert list_insert]. rewrite !fmap_cons. cbn [sum_list foldr]. unfold id, insert in *. lia.
Qed.
Lemma task_action_decreases a s s' :
  task_action a = true -> flight_step a s = Some s' -> (remaining s' < remaining s)%nat.
Proof.
  unfold remaining. destruct a as [k|i now|i|i|i now|i|i v now|i|i|i|i|i|op now|]; try done; intros _; cbn [flight_step];
    (destruct (fl_tasks s !! i) as [[k p]|] eqn:Hi; [|done]); destruct p; try done.
  - destruct (get_first cfg k now (fl_cache s)) as [[[v|] []] c]; intros [= <-]; (eapply remaining_insert; [exact Hi|cbn; lia]).
  - unfold take_init_lock. destruct (fl_locks s !! k); intros [= <-]; (eapply remaining_insert; [exact Hi|cbn; lia]).
  - destruct (fl_held s !! lock); [done|]. intros [= <-]. eapply remaining_insert; [exact Hi|cbn; lia].
  - destruct (get_first cfg k now (fl_cache s)) as [[[v|] []] c]; intros [= <-]; (eapply remaining_insert; [exact Hi|cbn; lia]).
  - intros [= <-]. eapply remaining_insert; [exact Hi|cbn; lia].
  - intros [= <-]. eapply remaining_insert; [exact Hi|cbn; lia].
  - intros [= <-]. eapply remaining_insert; [exact Hi|cbn; lia].
  - intros [= <-]. eapply remaining_insert; [exact Hi|cbn; lia].
  - intros [= <-]. eapply remaining_insert; [exact Hi|cbn; lia].
  - intros [= <-]. unfold reclaim_init_lock. destruct (_ && _); (eapply remaining_insert; [exact Hi|cbn; lia]).
  - intros [= <-]. eapply remaining_insert; [exact Hi|cbn; lia].
Qed.
(** A task inside a lock can go on. *)
Lemma inside_steps s i k p l (v : V) :
  fl_tasks s !! i = Some (k, p) -> inside p = Some l ->
  exists a s', task_action a = true /\ flight_step a s = Some s'.
Proof.
  intros Hi Hl. destruct p; try done.
  - exists (Recheck i 0). cbn. rewrite Hi. destruct (get_first _ _ _ _) as [[r b] c]. by eexists.
  - exists (Reap i). cbn. rewrite Hi. by eexists.
  - exists (FinishInit i v 0). cbn. rewrite Hi. by eexists.
  - exists (Insert i). cbn. rewrite Hi. by eexists.
  - exists (Leave i). cbn. rewrite Hi. by eexists.
Qed.
Lemma task_steps s i k p (v : V) :
  state_ok s -> fl_tasks s !! i = Some (k, p) -> (0 < rank p)%nat ->
  exists a s', task_action a = true /\ flight_step a s = Some s'.
Proof.
  intros Hok Hi Hp. destruct p; cbn in Hp; try lia; try (by eapply inside_steps).
  - exists (Look i 0). cbn. rewrite Hi. destruct (get_first _ _ _ _) as [[r b] c]. by eexists.
  - exists (Reap i). cbn. rewrite Hi. by eexists.
  - exists (TakeLock i). cbn. rewrite Hi. destruct (take_init_lock _ _). by eexists.
  - destruct (fl_held s !! lock) as [j|] eqn:Hj.
    + destruct (ok_held _ _ _ _ Hok lock j Hj) as (k' & q & Hq & Hql). by eapply inside_steps.
    + exists (Enter i). cbn. rewrite Hi, Hj. by eexists.
  - exists (ReclaimLock i). cbn. rewrite Hi. by eexists.
  - exists (Return i). cbn. rewrite Hi. by eexists.
Qed.

(** C22: initialisation is single-flight.  Whatever calls of [get_with] run at the same time, with
    cancellations at every point where a call may wait, other operations on the cache and the
    cleaning of the locks in between: two tasks never initialise one key at the same time; as
    long as a call has not returned some task can take a step, and every step brings the calls
    closer to their end; and in a cache without limits, as long as nobody overwrites or removes,
    the initialisations that completed are, but for one per call that was cancelled (which may
    happen between the initialiser and the insertion, where its value is lost), at most one per
    key, and every call that returns gets the value of that one; so two calls of one key
    return the same value. *)
Theorem get_with_single_flight others s :
  reachable others s ->
  (forall i j k p p' l l', fl_tasks s !! i = Some (k, p) -> fl_tasks s !! j = Some (k, p') ->
     inside p = Some l -> inside p' = Some l' -> i = j)
  /\ (forall (v : V) i k p, fl_tasks s !! i = Some (k, p) -> (0 < rank p)%nat ->
        exists a s', task_action a = true /\ flight_step a s = Some s')
  /\ (forall a s', task_action a = true -> flight_step a s = Some s' -> (remaining s' < remaining s)%nat)
  /\ (unlimited -> (forall op, others op = true -> reading op = true) ->
      exists kept lost, fl_inits s ≡ₚ kept ++ lost /\ NoDup kept.*1 /\ lost.*1 ⊆+ cancelled (fl_tasks s)
      /\ forall i k v, fl_tasks s !! i = Some (k, Returned v) -> (k, v) ∈ kept).
Proof.
  intros Hr. pose proof (reachable_ok others s Hr) as Hok. split_and!.
  - intros i j k p p' l l'. by apply (ok_exclusive s).
  - intros v i k p Hi Hp. by apply (task_steps s i k p v).
  - intros a s'. apply task_action_decreases.
  - intros Hu Ho. destruct (reachable_once others s Hu Ho Hr) as (ins & Hs & lost & Hi & Hl).
    exists (ins ++ pending (fl_tasks s)), lost. split; [by rewrite <- app_assoc|]. split; [by apply kept_keys|].
    split; [done|]. intros i k v Hv. apply elem_of_app. left. by eapply (once_value _ _ _ Hs).
Qed.
End Flight.
Arguments Phase V : clear implicits.
Arguments Action K V : clear implicits.
Arguments Flight K V {_ _}.

Lemma flight_run_reachable {K V} `{Countable K} cfg (others : CacheOp K V -> bool) acts s s' :
  reachable cfg others s -> forallb (fun a => match a with Other op _ => others op | _ => true end) acts = true ->
  flight_run cfg acts s = Some s' -> reachable cfg others s'.
Proof.
  revert s. induction acts as [|a acts IH]; intros s Hs; [by intros _ [= <-]|]. cbn.
  intros [Ha Hacts]%andb_true_iff. destruct (flight_step cfg a s) as [s1|] eqn:Hs1; [|done].
  apply IH; [|done]. eapply reach_step; [exact Hs|exact Hs1|]. by destruct a.
Qed.

Definition no_limits : CacheConfig := mkCacheConfig None None None.
(** Two calls for one key: the second waits for the first and finds its value. *)
Definition two_calls : list (Action Z Z) :=
  [Call 1; Call 1; Look 0 0; Look 1 1; TakeLock 0; TakeLock 1; Enter 1; Recheck 1 2; FinishInit 1 42 3; Insert 1;
   Leave 1;
   Enter 0; Recheck 0 4; Leave 0].
(** Both leave before either has dropped its [Arc]. *)
Definition both_leave : list (Action Z Z) := two_calls ++ [ReclaimLock 1; ReclaimLock 0; Return 1; Return 0].
Definition after (acts : list (Action Z Z)) : Flight Z Z := default flight_new (flight_run no_limits acts flight_new).

Lemma both_leave_reachable : reachable no_limits reading (after both_leave).
Proof. apply (flight_run_reachable _ _ both_leave flight_new); [constructor|reflexivity|vm_compute; reflexivity]. Qed.
Lemma get_with_single_flight_witness :
  fl_tasks (after both_leave) = [(1, Returned 42); (1, Returned 42)]
  /\ fl_inits (after both_leave) = [(1, 42)]
  /\ exists kept lost, fl_inits (after both_leave) ≡ₚ kept ++ lost /\ NoDup kept.*1
     /\ lost.*1 ⊆+ cancelled (fl_tasks (after both_leave))
     /\ forall i k v, fl_tasks (after both_leave) !! i = Some (k, Returned v) -> (k, v) ∈ kept.
Proof.
  split; [vm_compute; reflexivity|]. split; [vm_compute; reflexivity|].
  destruct (get_with_single_flight no_limits reading (after both_leave) both_leave_reachable) as (_ & _ & _ & Honce).
  by apply Honce.
Defined.

(** A call that is dropped while it waits to insert loses its value, and the next one
    initialises the key again. *)
Definition dropped_call : list (Action Z Z) :=
  [Call 1; Look 0 0; TakeLock 0; Enter 0; Recheck 0 0; FinishInit 0 42 1; Cancel 0;
   Call 1; Look 1 2; TakeLock 1; Enter 1; Recheck 1 2; FinishInit 1 43 3; Insert 1; Leave 1; ReclaimLock 1; Return 1].
Lemma dropped_initialises_twice :
  reachable no_limits reading (after dropped_call) /\ fl_inits (after dropped_call) = [(1, 42); (1, 43)]
  /\ fl_tasks (after dropped_call) = [(1, Cancelled); (1, Returned 43)].
Proof.
  split; [|split; vm_compute; reflexivity].
  apply (flight_run_reachable _ _ dropped_call flight_new); [constructor|reflexivity|vm_compute; reflexivity].
Qed.

(** [reclaim_init_lock] counts on the last caller to drop the lock; two callers that both pass
    it before either has dropped its own [Arc] each see the other, and the lock stays. *)
Lemma init_lock_leaked :
  reachable no_limits reading (after both_leave)
  /\ Forall (fun kp => match kp.2 with Returned _ => True | _ => False end) (fl_tasks (after both_leave))
  /\ fl_locks (after both_leave) !! 1 = Some 0.
Proof.
  split; [exact both_leave_reachable|]. split; [vm_compute; repeat constructor|vm_compute; reflexivity].
Qed.
