(* ===== verification/InflateReader.v ===== *)
(** * The streaming inflater

    [InflateReader] of [wacore/binary/src/zlib_pool.rs]: a window over the output of a zlib
    decompressor that is filled on demand, and the varints and field framing that
    [wacore/src/history_sync.rs] reads from it.

    The decompressor is a parameter.  Its state stands for [Decompress] and for the spare room
    the buffer happens to have, so that a call may produce any number of bytes.  A decompressor
    taken from the pool is reset, and is as a new one.

    What a reader has delivered and will deliver does not depend on how it is asked: [delivers]
    says what is still to come and how it ends, and [ensure] is specified by it. *)

From stdpp Require Import prelude.
From S2P Require Import Prelude.

#[local] Open Scope Z_scope.

(** ** Loops *)

(** A loop of at most [2 ^ n] rounds: a round goes on or breaks.  The rounds are counted in
    binary, so that a large bound costs nothing. *)
Fixpoint rounds {A B} (n : nat) (f : A -> A + B) (a : A) : A + B :=
  match n with
  | O => f a
  | S n => match rounds n f a with inl a => rounds n f a | inr b => inr b end
  end.
(** A loop of at most [bound] rounds, or a few more. *)
Definition loop_ {E A B} (bound : Z) (f : A -> A + outcome E B) (a : A) : outcome E B :=
  match rounds (Z.to_nat (Z.log2_up bound)) f a with inl _ => Timeout | inr b => b end.
Arguments loop_ : simpl never.

(** The loop breaks with [b] in its [k]-th round. *)
Inductive breaks {A B} (f : A -> A + B) : nat -> A -> B -> Prop :=
  | breaks_now a b : f a = inr b -> breaks f 1 a b
  | breaks_later k a a' b : f a = inl a' -> breaks f k a' b -> breaks f (S k) a b.

Lemma rounds_breaks {A B} (f : A -> A + B) n k a b :
  breaks f k a b ->
  if decide (Z.of_nat k <= 2 ^ Z.of_nat n) then rounds n f a = inr b
  else exists a', rounds n f a = inl a' /\ exists k', breaks f k' a' b /\ Z.of_nat k = Z.of_nat k' + 2 ^ Z.of_nat n.
Proof.
  revert k a. induction n as [|n IH]; intros k a Hb.
  - cbn [rounds]. destruct Hb as [a b Hf|k a a' b Hf Hb].
    + by rewrite decide_True by lia.
    + assert (0 < k)%nat by (destruct Hb; lia). rewrite decide_False by lia. exists a'. split; [done|].
      exists k. split; [done|]. lia.
  - cbn [rounds]. replace (Z.of_nat (S n)) with (Z.of_nat n + 1) by lia. rewrite Z.pow_add_r by lia.
    pose proof (IH k a Hb) as H1. destruct (decide (Z.of_nat k <= 2 ^ Z.of_nat n)) as [Hle|Hgt].
    + rewrite decide_True by lia. by rewrite H1.
    + destruct H1 as (a' & -> & k' & Hb' & Hk). specialize (IH k' a' Hb').
      destruct (decide (Z.of_nat k' <= 2 ^ Z.of_nat n)) as [Hle'|Hgt'].
      * by rewrite decide_True by lia.
      * rewrite decide_False by lia. destruct IH as (a2 & -> & k2 & Hb2 & Hk2). exists a2. split; [done|].
        exists k2. split; [done|]. lia.
Qed.
Lemma loop_breaks {E A B} bound (f : A -> A + outcome E B) k a b :
  breaks f k a b -> 1 <= bound -> Z.of_nat k <= bound -> loop_ bound f a = b.
Proof.
  intros Hb H1 Hk. pose proof (rounds_breaks f (Z.to_nat (Z.log2_up bound)) k a b Hb) as Hr.
  pose proof (Z.log2_up_nonneg bound). pose proof (Z.log2_log2_up_spec bound ltac:(lia)).
  rewrite decide_True in Hr by (rewrite Z2Nat.id by lia; lia). unfold loop_. by rewrite Hr.
Qed.

(** ** The reader *)

Inductive ZStatus : Type := ZOk | ZBufError | ZStreamEnd.

(** [decompress_vec] with the input that is left: the status, how much input it took, and what
    it appended; or an error. *)
Class Inflater : Type := {
  decomp : Type;
  decomp_new : decomp;
  decompress_vec : bytes -> decomp -> option (ZStatus * Z * bytes * decomp)
}.
Class InflaterLaws {IN : Inflater} : Prop := {
  takes_input input d st n out d' : decompress_vec input d = Some (st, n, out, d') -> 0 <= n <= zlen input;
  gives_bytes input d st n out d' : decompress_vec input d = Some (st, n, out, d') -> are_bytes out
}.

Inductive IoError : Type := CorruptStream | PayloadTooLarge | StreamStalled.

Section Reader.
Context {IN : Inflater}.

Record InflateReader : Type := mkReader {
  ir_input : bytes; ir_in_pos : Z; ir_decomp : decomp; ir_buf : bytes; ir_cursor : Z;
  ir_total_out : Z; ir_max : Z; ir_eof : bool; ir_stream_end : bool
}.

Definition INFLATE_CHUNK : Z := 64 * 1024.

Definition reader_new (input : bytes) (max : Z) : InflateReader :=
  mkReader input 0 decomp_new [] 0 0 max false false.
Definition available (r : InflateReader) : bytes := from (ir_cursor r) (ir_buf r).
Definition consume (n : Z) (r : InflateReader) : InflateReader :=
  mkReader (ir_input r) (ir_in_pos r) (ir_decomp r) (ir_buf r) (Z.min (ir_cursor r + n) (zlen (ir_buf r)))
    (ir_total_out r) (ir_max r) (ir_eof r) (ir_stream_end r).

Definition pump (r : InflateReader) : outcome IoError InflateReader :=
  let compact := (INFLATE_CHUNK <=? ir_cursor r) || (ir_cursor r =? zlen (ir_buf r)) in
  let buf := if compact then from (ir_cursor r) (ir_buf r) else ir_buf r in
  let cursor := if compact then 0 else ir_cursor r in
  match decompress_vec (from (ir_in_pos r) (ir_input r)) (ir_decomp r) with
  | None => Err CorruptStream
  | Some (status, consumed, out, d) =>
      let in_pos := ir_in_pos r + consumed in
      let total_out := ir_total_out r + zlen out in
      let next eof stream_end :=
        Ok (mkReader (ir_input r) in_pos d (buf ++ out) cursor total_out (ir_max r) eof stream_end) in
      if ir_max r <? total_out then Err PayloadTooLarge
      else
        match status with
        | ZStreamEnd => next true true
        | _ =>
            if zlen out =? 0 then
              if zlen (ir_input r) <=? in_pos then next true (ir_stream_end r)
              else if consumed =? 0 then Err StreamStalled
              else next (ir_eof r) (ir_stream_end r)
            else next (ir_eof r) (ir_stream_end r)
        end
  end.

(** One round of the loop of [ensure]. *)
Definition ensure_round (need : Z) (r : InflateReader) : InflateReader + outcome IoError (bool * InflateReader) :=
  if zlen (ir_buf r) - ir_cursor r <? need then
    if ir_eof r then inr (Ok (false, r))
    else match pump r with Ok r => inl r | Err e => inr (Err e) | Panic => inr Panic | Timeout => inr Timeout end
  else inr (Ok (true, r)).
(** Every call but the last adds output, of which there is at most [max], or takes input. *)
Definition calls_left (r : InflateReader) : Z := Z.max 0 (ir_max r) + zlen (ir_input r) + 2.
Definition ensure (need : Z) (r : InflateReader) : outcome IoError (bool * InflateReader) :=
  loop_ (calls_left r + 1) (ensure_round need) r.

(** ** What is still to come *)

(** The state of a reader but for its window. *)
Record Core : Type := mkCore {
  co_input : bytes; co_in_pos : Z; co_decomp : decomp; co_total_out : Z; co_max : Z; co_eof : bool; co_end : bool
}.
Definition core (r : InflateReader) : Core :=
  mkCore (ir_input r) (ir_in_pos r) (ir_decomp r) (ir_total_out r) (ir_max r) (ir_eof r) (ir_stream_end r).
Definition pump_core (c : Core) : outcome IoError (Core * bytes) :=
  match decompress_vec (from (co_in_pos c) (co_input c)) (co_decomp c) with
  | None => Err CorruptStream
  | Some (status, consumed, out, d) =>
      let in_pos := co_in_pos c + consumed in
      let total_out := co_total_out c + zlen out in
      let next eof stream_end := Ok (mkCore (co_input c) in_pos d total_out (co_max c) eof stream_end, out) in
      if co_max c <? total_out then Err PayloadTooLarge
      else
        match status with
        | ZStreamEnd => next true true
        | _ =>
            if zlen out =? 0 then
              if zlen (co_input c) <=? in_pos then next true (co_end c)
              else if consumed =? 0 then Err StreamStalled
              else next (co_eof c) (co_end c)
            else next (co_eof c) (co_end c)
        end
  end.

(** A stream ends at its terminator, is cut off before it, or breaks with an error. *)
Inductive Ending : Type := Ended | Truncated | Broken (e : IoError).

(** [k] more calls deliver [rest], and then the stream ends as [e] with [total] bytes in all. *)
Inductive delivers : nat -> Core -> bytes -> Ending -> Z -> Prop :=
  | del_eof c : co_eof c = true -> delivers 0 c [] (if co_end c then Ended else Truncated) (co_total_out c)
  | del_broken c e : co_eof c = false -> pump_core c = Err e -> delivers 1 c [] (Broken e) (co_total_out c)
  | del_pump k c c' out rest e t :
      co_eof c = false -> pump_core c = Ok (c', out) -> delivers k c' rest e t -> delivers (S k) c (out ++ rest) e t.

Definition window_ok (r : InflateReader) : Prop := 0 <= ir_cursor r <= zlen (ir_buf r).

Lemma available_length r : window_ok r -> zlen (available r) = zlen (ir_buf r) - ir_cursor r.
Proof. intros Hw. unfold window_ok, available, from, zlen in *. rewrite length_drop. lia. Qed.
Lemma consume_available n r :
  window_ok r -> 0 <= n <= zlen (available r) ->
  available (consume n r) = from n (available r) /\ core (consume n r) = core r /\ window_ok (consume n r).
Proof.
  intros Hw Hn. rewrite available_length in Hn by done. unfold window_ok in *. split; [|split; [done|cbn; lia]].
  unfold available, from. cbn. rewrite drop_drop. f_equal. lia.
Qed.
(** A call of the window is one of its core. *)
Lemma pump_spec r :
  window_ok r ->
  match pump_core (core r) with
  | Ok (c, out) => exists r', pump r = Ok r' /\ core r' = c /\ available r' = available r ++ out /\ window_ok r'
                 /\ calls_left r' = calls_left r
  | Err e => pump r = Err e
  | Panic | Timeout => False
  end.
Proof.
  intros Hw. unfold pump, pump_core. cbn [core co_in_pos co_input co_decomp co_total_out co_max co_eof co_end].
  destruct (decompress_vec _ _) as [[[[st n] out] d]|]; [|done]. destruct (_ <? _); [done|].
  generalize ((INFLATE_CHUNK <=? ir_cursor r) || (ir_cursor r =? zlen (ir_buf r))) as compact. intros compact.
  assert (Hnext : forall eof se, exists r',
    Ok (E := IoError) (mkReader (ir_input r) (ir_in_pos r + n) d
      ((if compact then from (ir_cursor r) (ir_buf r) else ir_buf r) ++ out) (if compact then 0 else ir_cursor r)
      (ir_total_out r + zlen out) (ir_max r) eof se) = Ok r'
    /\ core r' = mkCore (ir_input r) (ir_in_pos r + n) d (ir_total_out r + zlen out) (ir_max r) eof se
    /\ available r' = available r ++ out /\ window_ok r' /\ calls_left r' = calls_left r).
  { intros eof se. eexists. split; [reflexivity|]. split; [done|].
    unfold window_ok, available, from, zlen in *. cbn. destruct compact.
    - change (Z.to_nat 0) with 0%nat. rewrite drop_0. split; [done|]. split; [lia|done].
    - rewrite drop_app_le by lia. split; [done|]. rewrite length_app. split; [lia|done]. }
  destruct st; [| |apply Hnext]; destruct (zlen out =? 0); try apply Hnext;
    (destruct (_ <=? _); [apply Hnext|]; destruct (n =? 0); [done|apply Hnext]).
Qed.

(** [ensure] fills the window up to [need] bytes, or with all there is. *)
Definition fills (need : Z) (r : InflateReader) (k : nat) (rest : bytes) (e : Ending) (t : Z)
    (P : outcome IoError (bool * InflateReader) -> Prop) : Prop :=
  let all := available r ++ rest in
  if need <=? zlen all then
    exists r' k' rest', P (Ok (true, r')) /\ window_ok r' /\ available r' ++ rest' = all
    /\ need <= zlen (available r') /\ delivers k' (core r') rest' e t /\ (k' <= k)%nat /\ calls_left r' = calls_left r
  else
    match e with
    | Broken err => P (Err err)
    | _ => exists r', P (Ok (false, r')) /\ window_ok r' /\ available r' = all /\ delivers 0 (core r') [] e t
           /\ calls_left r' = calls_left r
    end.
Lemma fills_impl need r k rest e t (P Q : outcome IoError (bool * InflateReader) -> Prop) :
  (forall x, P x -> Q x) -> fills need r k rest e t P -> fills need r k rest e t Q.
Proof.
  intros HPQ. unfold fills. destruct (_ <=? _); [intros (r' & k' & rest' & Hp & Hr); exists r', k', rest'; auto|].
  destruct e; [intros (r' & Hp & Hr); exists r'; auto..|auto].
Qed.
Lemma ensure_breaks need k c rest e t :
  delivers k c rest e t -> forall r, core r = c -> window_ok r ->
  fills need r k rest e t (fun x => exists n, breaks (ensure_round need) n r x /\ (n <= S k)%nat).
Proof.
  induction 1 as [c Heof|c err Heof Hp|k c c' out rest e t Heof Hp Hd IH]; intros r <- Hw;
    unfold fills; rewrite ?app_nil_r; pose proof (available_length r Hw) as Ha.
  - destruct (Z.leb_spec need (zlen (available r))) as [Hle|Hgt].
    + exists r, 0%nat, []. rewrite app_nil_r. split_and!; try done; [|by constructor].
      exists 1%nat. split; [|lia]. constructor. unfold ensure_round. by rewrite (proj2 (Z.ltb_ge _ _)) by lia.
    + assert (Hb : exists r', (exists n, breaks (ensure_round need) n r (Ok (false, r')) /\ (n <= 1)%nat)
        /\ window_ok r' /\ available r' = available r
        /\ delivers 0 (core r') [] (if co_end (core r) then Ended else Truncated) (co_total_out (core r))
        /\ calls_left r' = calls_left r).
      { exists r. split_and!; try done; [|by constructor]. exists 1%nat. split; [|lia]. constructor. unfold ensure_round.
        rewrite (proj2 (Z.ltb_lt _ _)) by lia. cbn in Heof. by rewrite Heof. }
      by destruct (co_end (core r)).
  - cbn in Heof. pose proof (pump_spec r Hw) as Hs. rewrite Hp in Hs. destruct (Z.leb_spec need (zlen (available r))) as [Hle|Hgt].
    + exists r, 1%nat, []. rewrite app_nil_r. split_and!; try done; [|by constructor].
      exists 1%nat. split; [|lia]. constructor. unfold ensure_round. by rewrite (proj2 (Z.ltb_ge _ _)) by lia.
    + exists 1%nat. split; [|lia]. constructor. unfold ensure_round.
      rewrite (proj2 (Z.ltb_lt _ _)) by lia. by rewrite Heof, Hs.
  - cbn in Heof. destruct (Z.leb_spec need (zlen (available r))) as [Hle|Hgt].
    + pose proof (zlen_nonneg (out ++ rest)). rewrite (proj2 (Z.leb_le _ _)) by (rewrite zlen_app; lia).
      exists r, (S k), (out ++ rest). split_and!; try done; [|by econstructor].
      exists 1%nat. split; [|lia]. constructor. unfold ensure_round. by rewrite (proj2 (Z.ltb_ge _ _)) by lia.
    + pose proof (pump_spec r Hw) as Hs. rewrite Hp in Hs. destruct Hs as (r' & Hpr & Hc & Hav & Hw' & Hcl).
      specialize (IH r' Hc Hw'). unfold fills in IH. rewrite Hav, <- app_assoc in IH.
      assert (Hround : ensure_round need r = inl r').
      { unfold ensure_round. rewrite (proj2 (Z.ltb_lt _ _)) by lia. by rewrite Heof, Hpr. }
      assert (Hlift : forall x, (exists n, breaks (ensure_round need) n r' x /\ (n <= S k)%nat) ->
        exists n, breaks (ensure_round need) n r x /\ (n <= S (S k))%nat).
      { intros x (n & Hb & Hn). exists (S n). split; [by eapply breaks_later|lia]. }
      destruct (_ <=? _).
      * destruct IH as (r2 & k2 & rest2 & Hx & H1 & H2 & H3 & H4 & H5 & H6). exists r2, k2, rest2.
        split_and!; [by apply Hlift|done|done|done|done|lia|congruence].
      * rewrite Hcl in IH. destruct e; [destruct IH as (r2 & Hx & Hr); exists r2; by split; [apply Hlift|]..|by apply Hlift].
Qed.
Lemma ensure_spec need r k rest e t :
  window_ok r -> delivers k (core r) rest e t -> Z.of_nat k <= calls_left r ->
  fills need r k rest e t (fun x => ensure need r = x).
Proof.
  intros Hw Hd Hk. eapply fills_impl; [|by apply (ensure_breaks need k (core r))].
  intros x (n & Hb & Hn). eapply loop_breaks; [exact Hb|lia|lia].
Qed.

(** ** Every stream ends *)

Definition core_ok (c : Core) : Prop := 0 <= co_in_pos c <= zlen (co_input c) /\ co_total_out c <= co_max c.
Definition to_come (c : Core) : Z := (co_max c - co_total_out c) + (zlen (co_input c) - co_in_pos c).

Lemma pump_core_ok {IL : InflaterLaws} c c' out :
  core_ok c -> pump_core c = Ok (c', out) ->
  core_ok c' /\ co_total_out c' = co_total_out c + zlen out /\ co_max c' = co_max c /\ co_input c' = co_input c
  /\ (co_eof c' = true \/ (co_eof c' = co_eof c /\ to_come c' < to_come c)).
Proof.
  intros [Hin Hout] Hp. unfold pump_core in Hp. unfold core_ok, to_come.
  destruct (decompress_vec _ _) as [[[[st n] o] d]|] eqn:Hd; [|done]. apply takes_input in Hd.
  unfold zlen at 1 in Hd. unfold from in Hd. rewrite length_drop in Hd. pose proof (zlen_nonneg o).
  destruct (Z.ltb_spec (co_max c) (co_total_out c + zlen o)) as [|Hmax]; [done|].
  unfold zlen in Hin, Hd |- *.
  destruct st; [| |injection Hp as <- <-; cbn; repeat split; try lia; by left];
    (destruct (Z.eqb_spec (zlen o) 0) as [Ho|Ho];
      [destruct (_ <=? _); [|destruct (Z.eqb_spec n 0); [done|]]|];
      injection Hp as <- <-; cbn; unfold zlen in *; repeat split; try lia; first [by left|right; split; [done|lia]]).
Qed.
(** How a stream goes on is determined, takes finitely many calls, and stays below the limit. *)
Lemma delivers_exists {IL : InflaterLaws} c :
  core_ok c -> exists k rest e t, delivers k c rest e t /\ Z.of_nat k <= to_come c + 2
  /\ t = co_total_out c + zlen rest /\ t <= co_max c.
Proof.
  remember (Z.to_nat (to_come c)) as n eqn:Hn. revert c Hn.
  induction (lt_wf n) as [n _ IH]. intros c -> Hok. pose proof Hok as [Hin Hout].
  assert (0 <= to_come c) by (unfold to_come; lia).
  destruct (co_eof c) eqn:Heof.
  { exists 0%nat, [], (if co_end c then Ended else Truncated), (co_total_out c). split; [by constructor|]. change (zlen (@nil byte)) with 0. lia. }
  assert (Hret : (exists c' out, pump_core c = Ok (c', out)) \/ exists e, pump_core c = Err e).
  { unfold pump_core. destruct (decompress_vec _ _) as [[[[st m] o] d]|]; [|by right; eexists].
    destruct (_ <? _); [by right; eexists|]. destruct st; [| |left; by eexists _, _];
      (destruct (_ =? _); [|left; by eexists _, _]; destruct (_ <=? _); [left; by eexists _, _|];
       destruct (_ =? _); [by right; eexists|left; by eexists _, _]). }
  destruct Hret as [(c' & out & Hp)|[e Hp]].
  2:{ exists 1%nat, [], (Broken e), (co_total_out c). split; [by constructor|]. change (zlen (@nil byte)) with 0. lia. }
  destruct (pump_core_ok c c' out Hok Hp) as (Hok' & Ht & Hm & Hi & Hor). destruct Hor as [He|[He Hlt]].
  - exists 1%nat, (out ++ []), (if co_end c' then Ended else Truncated), (co_total_out c'). split; [by econstructor; [..|by constructor]|].
    rewrite app_nil_r. destruct Hok' as [_ ?]. lia.
  - assert (0 <= to_come c') by (destruct Hok'; unfold to_come; lia).
    destruct (IH (Z.to_nat (to_come c')) ltac:(lia) c' eq_refl Hok') as (k & rest & e & t & Hd & Hk & Htt & Htm).
    exists (S k), (out ++ rest), e, t. split; [by econstructor|]. rewrite zlen_app. lia.
Qed.
Lemma pump_core_bytes {IL : InflaterLaws} c c' out : pump_core c = Ok (c', out) -> are_bytes out.
Proof.
  unfold pump_core. destruct (decompress_vec _ _) as [[[[st n] o] d]|] eqn:Hd; [|done]. apply gives_bytes in Hd.
  destruct (_ <? _); [done|]. destruct st; [| |by intros [= _ <-]];
    (destruct (_ =? _); [destruct (_ <=? _); [|destruct (_ =? _); [done|]]|]; by intros [= _ <-]).
Qed.
Lemma delivers_bytes {IL : InflaterLaws} k c rest e t : delivers k c rest e t -> are_bytes rest.
Proof.
  induction 1 as [| |k c c' out rest e t _ Hp _ IH]; [constructor..|]. apply Forall_app. split; [by eapply pump_core_bytes|done].
Qed.
Lemma delivers_unique k c rest e t k' rest' e' t' :
  delivers k c rest e t -> delivers k' c rest' e' t' -> rest' = rest /\ e' = e /\ t' = t.
Proof.
  intros Hd. revert k' rest' e' t'. induction Hd as [c He|c err He Hp|k c c' out rest e t He Hp Hd IH]; intros k' rest' e' t' Hd';
    inversion Hd'; subst; try congruence; try done.
  - rewrite Hp in *. by simplify_eq.
  - rewrite Hp in *. simplify_eq.
    match goal with Hx : delivers _ _ ?rest0 e' t' |- _ ++ ?rest0 = _ /\ _ => destruct (IH _ _ _ _ Hx) as (-> & -> & ->) end.
    done.
Qed.
End Reader.
Arguments ensure : simpl never.
