(* ===== verification/HistoryWire.v ===== *)
(** * The wire walk of a history blob

    The protobuf framing of [wacore/src/history_sync.rs]: [read_varint], [checked_end],
    [skip_field], and [FieldWalker], which cuts the top-level fields out of the inflater's
    window.  [frame] cuts the first field of a whole buffer; the walk over any stream is
    [frame] on what the stream delivers. *)

From stdpp Require Import prelude.
From S2P Require Import Prelude InflateReader.

#[local] Open Scope Z_scope.

Inductive HistorySyncError : Type :=
  | DecompressionError (e : IoError) | ProtobufDecodeError | MalformedProtobuf | UnreadConversations.

(** [mod wire_type] *)
Definition VARINT : Z := 0.
Definition FIXED64 : Z := 1.
Definition LENGTH_DELIMITED : Z := 2.
Definition START_GROUP : Z := 3.
Definition END_GROUP : Z := 4.
Definition FIXED32 : Z := 5.

(** [&s[i..]] *)
Definition slice_from {E} (i : Z) (s : bytes) : outcome E bytes :=
  if (0 <=? i) && (i <=? zlen s) then Ok (from i s) else Panic.

(** ** Varints *)

(** The loop over the bytes after the first; [i] is how many it has passed. *)
Fixpoint varint_loop (value shift i : Z) (data : bytes) : outcome HistorySyncError (Z * Z) :=
  match data with
  | [] => Err MalformedProtobuf
  | byte :: rest =>
      if (shift =? 63) && (1 <? byte) then Err MalformedProtobuf
      else
        let value := Z.lor value (wrap 64 (Z.shiftl (Z.land byte 127) shift)) in
        if Z.land byte 128 =? 0 then Ok (value, i + 2)
        else
          let shift := shift + 7 in
          if 64 <=? shift then Err MalformedProtobuf else varint_loop value shift (i + 1) rest
  end.
Definition read_varint (data : bytes) : outcome HistorySyncError (Z * Z) :=
  match data with
  | [] => Err MalformedProtobuf
  | first :: rest => if first <? 128 then Ok (first, 1) else varint_loop (Z.land first 127) 7 0 rest
  end.

(** [usize] has 64 bits, so that a length always fits. *)
Definition checked_end (pos len buf_len : Z) : outcome HistorySyncError Z :=
  let end_ := pos + len in
  if 2 ^ 64 <=? end_ then Err MalformedProtobuf
  else if buf_len <? end_ then Err MalformedProtobuf
  else Ok end_.

Definition skip_field (wt : Z) (buf : bytes) (pos : Z) : outcome HistorySyncError Z :=
  if wt =? VARINT then
    data ← slice_from pos buf;
    '(_, vlen) ← read_varint data;
    Ok (pos + vlen)
  else if wt =? FIXED64 then checked_end pos 8 (zlen buf)
  else if wt =? LENGTH_DELIMITED then
    data ← slice_from pos buf;
    '(len, vlen) ← read_varint data;
    checked_end (pos + vlen) len (zlen buf)
  else if wt =? FIXED32 then checked_end pos 4 (zlen buf)
  else Err MalformedProtobuf.

(** ** The walker *)

Record RawField : Type := mkRawField {
  rf_field_number : Z; rf_wire_type : Z; rf_raw : bytes; rf_payload_start : Z
}.

Section Walker.
Context {IN : Inflater}.

Record FieldWalker : Type := mkWalker { fw_reader : InflateReader; fw_pending : Z }.

Definition walker_new (compressed : bytes) (max_decompressed : Z) : FieldWalker :=
  mkWalker (reader_new compressed max_decompressed) 0.
Definition need (n : Z) (r : InflateReader) : outcome HistorySyncError (bool * InflateReader) :=
  map_err DecompressionError (ensure n r).
Definition pending_payload (payload_start : Z) (w : FieldWalker) : bytes :=
  from payload_start (upto (fw_pending w) (available (fw_reader w))).

(** The span and the start of the payload, by wire type. *)
Definition field_span (wt tlen : Z) (r : InflateReader) : outcome HistorySyncError (Z * Z * InflateReader) :=
  if wt =? LENGTH_DELIMITED then
    '(_, r) ← need (tlen + 10) r;
    data ← slice_from tlen (available r);
    '(len, vlen) ← read_varint data;
    let payload_start := tlen + vlen in
    let span := payload_start + len in
    if 2 ^ 64 <=? span then Err MalformedProtobuf
    else
      '(full, r) ← need span r;
      if full : bool then Ok (span, payload_start, r) else Err MalformedProtobuf
  else if wt =? VARINT then
    '(_, r) ← need (tlen + 10) r;
    data ← slice_from tlen (available r);
    '(_, vlen) ← read_varint data;
    Ok (tlen + vlen, tlen, r)
  else if wt =? FIXED64 then
    '(full, r) ← need (tlen + 8) r;
    if full : bool then Ok (tlen + 8, tlen, r) else Err MalformedProtobuf
  else if wt =? FIXED32 then
    '(full, r) ← need (tlen + 4) r;
    if full : bool then Ok (tlen + 4, tlen, r) else Err MalformedProtobuf
  else Err MalformedProtobuf.

Definition next_field (w : FieldWalker) : outcome HistorySyncError (option RawField * FieldWalker) :=
  let r := consume (fw_pending w) (fw_reader w) in
  '(more, r) ← need 1 r;
  if negb more then
    if ir_stream_end r then Ok (None, mkWalker r 0) else Err MalformedProtobuf
  else
    '(_, r) ← need 10 r;
    '(tag, tlen) ← read_varint (available r);
    let field_number := wrap 32 (Z.shiftr tag 3) in
    let wire_type_raw := Z.land tag 7 in
    '(span, payload_start, r) ← field_span wire_type_raw tlen r;
    Ok (Some (mkRawField field_number wire_type_raw (upto span (available r)) payload_start), mkWalker r span).
End Walker.
Arguments need : simpl never.

(** ** The first field of a buffer *)

Definition frame_span (wt tlen : Z) (all : bytes) : outcome HistorySyncError (Z * Z) :=
  if wt =? LENGTH_DELIMITED then
    '(len, vlen) ← read_varint (from tlen all);
    if tlen + vlen + len <=? zlen all then Ok (tlen + vlen + len, tlen + vlen) else Err MalformedProtobuf
  else if wt =? VARINT then '(_, vlen) ← read_varint (from tlen all); Ok (tlen + vlen, tlen)
  else if wt =? FIXED64 then if tlen + 8 <=? zlen all then Ok (tlen + 8, tlen) else Err MalformedProtobuf
  else if wt =? FIXED32 then if tlen + 4 <=? zlen all then Ok (tlen + 4, tlen) else Err MalformedProtobuf
  else Err MalformedProtobuf.
Definition frame (all : bytes) : outcome HistorySyncError RawField :=
  '(tag, tlen) ← read_varint all;
  '(span, payload_start) ← frame_span (Z.land tag 7) tlen all;
  Ok (mkRawField (wrap 32 (Z.shiftr tag 3)) (Z.land tag 7) (upto span all) payload_start).

(** *** Varints are decided by their first ten bytes *)

Lemma varint_loop_app value shift i p q :
  shift < 64 -> 64 <= shift + 7 * zlen p ->
  varint_loop value shift i (p ++ q) = varint_loop value shift i p.
Proof.
  revert value shift i. induction p as [|b p IH]; intros value shift i Hs Hp; [change (zlen (@nil byte)) with 0 in Hp; lia|].
  rewrite zlen_cons in Hp. cbn [app varint_loop]. destruct (_ && _); [done|]. destruct (_ =? 0); [done|].
  destruct (Z.leb_spec 64 (shift + 7)); [done|]. apply IH; lia.
Qed.
(** [p] is a prefix of [all] with at least [n] bytes, or all of it. *)
Definition covers (n : Z) (p all : bytes) : Prop := exists q, all = p ++ q /\ (n <= zlen p \/ q = []).

Lemma read_varint_covers p all : covers 10 p all -> read_varint p = read_varint all.
Proof.
  intros (q & -> & [Hp| ->]); [|by rewrite app_nil_r]. destruct p as [|b p]; [change (zlen (@nil byte)) with 0 in Hp; lia|].
  cbn [app read_varint]. destruct (_ <? _); [done|]. rewrite zlen_cons in Hp. symmetry. apply varint_loop_app; lia.
Qed.
Lemma varint_loop_bounds value shift i data v n :
  0 <= value -> varint_loop value shift i data = Ok (v, n) -> i + 2 <= n <= i + 1 + zlen data /\ 0 <= v.
Proof.
  revert value shift i. induction data as [|b data IH]; intros value shift i Hv; [done|].
  rewrite zlen_cons. pose proof (zlen_nonneg data). cbn [varint_loop]. destruct (_ && _); [done|].
  assert (Hl : 0 <= Z.lor value (wrap 64 (Z.shiftl (Z.land b 127) shift))).
  { apply Z.lor_nonneg. split; [done|]. unfold wrap. apply Z.mod_pos_bound. lia. }
  destruct (_ =? 0); [intros [= <- <-]; lia|]. destruct (_ <=? _); [done|]. intros Hr. apply IH in Hr; [lia|done].
Qed.
Lemma read_varint_bounds data v n : are_bytes data -> read_varint data = Ok (v, n) -> 1 <= n <= zlen data /\ 0 <= v.
Proof.
  destruct data as [|b data]; [done|]. intros [Hb _]%Forall_cons. rewrite zlen_cons. pose proof (zlen_nonneg data).
  cbn [read_varint]. destruct (_ <? _); [intros [= <- <-]; unfold is_byte in Hb; lia|].
  intros Hr. apply varint_loop_bounds in Hr; [lia|]. apply Z.land_nonneg. lia.
Qed.
Lemma read_varint_returns data : match read_varint data with Ok _ | Err MalformedProtobuf => True | _ => False end.
Proof.
  destruct data as [|b data]; [done|]. cbn [read_varint]. destruct (_ <? _); [done|]. generalize (Z.land b 127) 7 0.
  induction data as [|c data IH]; intros v s i; [done|]. cbn [varint_loop]. destruct (_ && _); [done|].
  destruct (_ =? 0); [done|]. destruct (_ <=? _); [done|]. apply IH.
Qed.
Lemma covers_from n i p all : 0 <= i <= zlen p -> covers (i + n) p all -> covers n (from i p) (from i all).
Proof.
  intros Hi (q & -> & Hq). exists q. unfold from, zlen in *. split; [apply drop_app_le; lia|].
  destruct Hq as [Hq| ->]; [left; rewrite length_drop; lia|by right].
Qed.
Lemma covers_upto n p all : covers n p all -> n <= zlen all -> upto n p = upto n all.
Proof.
  intros (q & -> & [Hp| ->]) Hn; [|by rewrite app_nil_r]. unfold upto, zlen in *. symmetry. apply take_app_le. lia.
Qed.
Lemma covers_length n p all : covers n p all -> zlen p <= zlen all.
Proof. intros (q & -> & _). rewrite zlen_app. pose proof (zlen_nonneg q). lia. Qed.

Lemma frame_span_bounds wt tlen all span start :
  are_bytes all -> 1 <= tlen <= zlen all -> frame_span wt tlen all = Ok (span, start) ->
  1 <= span <= zlen all /\ tlen <= start <= span.
Proof.
  intros Hb Ht. unfold frame_span.
  assert (Hlen : zlen (from tlen all) = zlen all - tlen) by (unfold from, zlen in *; rewrite length_drop; lia).
  assert (Hbf : are_bytes (from tlen all)) by (by apply Forall_drop).
  destruct (wt =? LENGTH_DELIMITED).
  { destruct (read_varint (from tlen all)) as [[len vlen]|e| |] eqn:Hv; try done. cbn.
    apply read_varint_bounds in Hv; [|done]. destruct (Z.leb_spec (tlen + vlen + len) (zlen all)); [|done].
    intros [= <- <-]. lia. }
  destruct (wt =? VARINT).
  { destruct (read_varint (from tlen all)) as [[len vlen]|e| |] eqn:Hv; try done. cbn.
    apply read_varint_bounds in Hv; [|done]. intros [= <- <-]. lia. }
  destruct (wt =? FIXED64); [destruct (Z.leb_spec (tlen + 8) (zlen all)); [|done]; intros [= <- <-]; lia|].
  destruct (wt =? FIXED32); [destruct (Z.leb_spec (tlen + 4) (zlen all)); [|done]; intros [= <- <-]; lia|done].
Qed.

(** ** The walk over a stream is the walk over what it delivers *)

Section WalkerSpec.
Context {IN : Inflater} {IL : InflaterLaws}.

(** [all] is what the window holds and what is still to come, [e] how it ends. *)
Definition views (r : InflateReader) (all : bytes) (e : Ending) (t : Z) : Prop :=
  window_ok r /\ are_bytes all /\ (zlen all < 2 ^ 64 /\ zlen all + 1 <= calls_left r)
  /\ exists k rest, available r ++ rest = all /\ delivers k (core r) rest e t /\ Z.of_nat k <= calls_left r.

Lemma need_spec n r all e t :
  views r all e t ->
  (exists err, e = Broken err /\ zlen all < n /\ need n r = Err (DecompressionError err))
  \/ (exists r', need n r = Ok (n <=? zlen all, r') /\ views r' all e t /\ covers n (available r') all
      /\ (zlen all < n -> available r' = all /\ e = (if ir_stream_end r' then Ended else Truncated)
                          /\ t = ir_total_out r')).
Proof.
  intros (Hw & Hby & [Hlen Hcalls] & k & rest & <- & Hd & Hk). pose proof (ensure_spec n r k rest e t Hw Hd Hk) as Hs.
  unfold fills, need in *. destruct (Z.leb_spec n (zlen (available r ++ rest))) as [Hle|Hgt].
  - destruct Hs as (r' & k' & rest' & -> & Hw' & Hall & Hn & Hd' & Hk' & Hcl). right. exists r'. split; [done|].
    split; [|split; [|lia]].
    + split_and!; try done; [lia|]. exists k', rest'. split_and!; [done|done|lia].
    + exists rest'. by split; [|left].
  - destruct e as [| |err]; [| |left; exists err; split_and!; [done|lia|by rewrite Hs]];
      (destruct Hs as (r' & -> & Hw' & Hall & Hd' & Hcl); right; exists r'; split; [done|]; split; [|split];
       [split_and!; try done; [lia|]; exists 0%nat, []; rewrite app_nil_r; split_and!; [done|done|unfold calls_left; pose proof (zlen_nonneg (ir_input r')); lia]
       |exists []; rewrite app_nil_r; by split; [|right]
       |intros _; split; [done|]; inversion Hd'; subst; cbn in *; by destruct (ir_stream_end r')]).
Qed.

(** The result of a step agrees with that on the whole buffer, unless the stream breaks. *)
Definition agrees {A B} (e : Ending) (x : outcome HistorySyncError A) (y : outcome HistorySyncError B)
    (P : A -> B -> Prop) : Prop :=
  (exists err x', e = Broken err /\ x = Err x')
  \/ match y with
     | Ok b => exists a, x = Ok a /\ P a b
     | Err er => x = Err er
     | Panic | Timeout => False
     end.

Lemma covers_head n m p all : covers n p all -> 0 <= m <= n -> m <= zlen all -> m <= zlen p.
Proof. intros (q & -> & [Hp| ->]); [lia|]. by rewrite app_nil_r. Qed.
Lemma slice_covers {E} n i p all : 0 <= i <= zlen all -> covers (i + n) p all -> 0 <= n ->
  slice_from (E := E) i p = Ok (from i p) /\ covers n (from i p) (from i all).
Proof.
  intros Hi Hc Hn. pose proof (covers_head (i + n) i p all Hc ltac:(lia) ltac:(lia)).
  split; [|by apply covers_from; [lia|]]. unfold slice_from. by rewrite (proj2 (Z.leb_le 0 i)), (proj2 (Z.leb_le i _)) by lia.
Qed.
Lemma field_span_spec wt tlen r all e t :
  views r all e t -> 1 <= tlen <= zlen all ->
  agrees e (field_span wt tlen r) (frame_span wt tlen all)
    (fun x y => x.1 = y /\ views x.2 all e t /\ covers y.1 (available x.2) all).
Proof.
  intros Hv Ht. pose proof Hv as (_ & Hby & [Hlen _] & _). unfold field_span, frame_span.
  assert (Hbf : are_bytes (from tlen all)) by (by apply Forall_drop).
  assert (Hfix : forall n, 0 <= n -> agrees e
    ('(full, r) ← need (tlen + n) r; if full : bool then Ok (tlen + n, tlen, r) else Err MalformedProtobuf)
    (if tlen + n <=? zlen all then Ok (tlen + n, tlen) else Err MalformedProtobuf)
    (fun x y => x.1 = y /\ views x.2 all e t /\ covers y.1 (available x.2) all)).
  { intros n Hn. destruct (need_spec (tlen + n) r all e t Hv) as [(err & -> & _ & ->)|(r' & -> & Hv' & Hc & _)]; cbn.
    - left. by exists err, (DecompressionError err).
    - right. destruct (_ <=? _); [|done]. by eexists. }
  destruct (wt =? LENGTH_DELIMITED); [|destruct (wt =? VARINT)].
  - destruct (need_spec (tlen + 10) r all e t Hv) as [(err & -> & _ & ->)|(r' & -> & Hv' & Hc & _)]; cbn.
    { left. by exists err, (DecompressionError err). }
    destruct (slice_covers (E := HistorySyncError) 10 tlen _ _ (conj (Z.le_trans 0 1 tlen ltac:(lia) (proj1 Ht)) (proj2 Ht)) Hc ltac:(lia)) as [-> Hc']. cbn.
    rewrite (read_varint_covers _ _ Hc'). pose proof (read_varint_returns (from tlen all)) as Hret.
    destruct (read_varint (from tlen all)) as [[len vlen]|[]| |] eqn:Hvar; try done; cbn; [|by right].
    apply read_varint_bounds in Hvar; [|done].
    destruct (Z.leb_spec (2 ^ 64) (tlen + vlen + len)); [right; by rewrite (proj2 (Z.leb_gt _ _)) by lia|].
    destruct (need_spec (tlen + vlen + len) r' all e t Hv') as [(err & -> & _ & ->)|(r2 & -> & Hv2 & Hc2 & _)]; cbn.
    { left. by exists err, (DecompressionError err). }
    right. destruct (_ <=? _); [|done]. by eexists.
  - destruct (need_spec (tlen + 10) r all e t Hv) as [(err & -> & _ & ->)|(r' & -> & Hv' & Hc & _)]; cbn.
    { left. by exists err, (DecompressionError err). }
    destruct (slice_covers (E := HistorySyncError) 10 tlen _ _ (conj (Z.le_trans 0 1 tlen ltac:(lia) (proj1 Ht)) (proj2 Ht)) Hc ltac:(lia)) as [-> Hc']. cbn.
    rewrite (read_varint_covers _ _ Hc'). pose proof (read_varint_returns (from tlen all)) as Hret.
    destruct (read_varint (from tlen all)) as [[len vlen]|[]| |] eqn:Hvar; try done; cbn; [|by right].
    right. eexists. split; [done|]. split; [done|]. split; [done|]. cbn.
    destruct Hc as (q & Hq & Hor). exists q. split; [done|]. destruct Hor as [Hor|Hor]; [left|by right].
    rewrite <- (read_varint_covers _ _ Hc') in Hvar. destruct Hc' as (q' & Hq' & _).
    assert (Hb' : are_bytes (from tlen (available r'))) by (rewrite Hq' in Hbf; by apply Forall_app in Hbf as [? _]).
    apply read_varint_bounds in Hvar; [|done].
    unfold from, zlen in *. rewrite length_drop in Hvar. lia.
  - destruct (wt =? FIXED64); [apply Hfix; lia|]. destruct (wt =? FIXED32); [apply Hfix; lia|]. by right.
Qed.

(** What a walker has not yielded yet. *)
Definition walker_views (w : FieldWalker) (all : bytes) (e : Ending) (t : Z) : Prop :=
  0 <= fw_pending w <= zlen (available (fw_reader w))
  /\ exists buffered, views (fw_reader w) buffered e t /\ all = from (fw_pending w) buffered.

Lemma consume_views w all e t : walker_views w all e t -> views (consume (fw_pending w) (fw_reader w)) all e t.
Proof.
  intros (Hp & b & (Hw & Hby & Hlen & k & rest & <- & Hd & Hk) & ->).
  destruct (consume_available _ _ Hw Hp) as (Ha & Hc & Hw'). split; [done|]. split; [by apply Forall_drop|].
  assert (Hdrop : zlen (from (fw_pending w) (available (fw_reader w) ++ rest)) <= zlen (available (fw_reader w) ++ rest))
    by (unfold from, zlen; rewrite length_drop; lia).
  split; [change (calls_left (consume (fw_pending w) (fw_reader w))) with (calls_left (fw_reader w)); lia|].
  exists k, rest. rewrite Ha, Hc. split; [|done]. unfold from, zlen in *. rewrite drop_app_le by lia. done.
Qed.
Lemma walker_views_new compressed max :
  0 <= max < 2 ^ 64 ->
  exists all e, zlen all <= max /\ walker_views (walker_new compressed max) all e (zlen all)
  /\ forall all' e' t', walker_views (walker_new compressed max) all' e' t' -> all' = all /\ e' = e /\ t' = zlen all.
Proof.
  intros Hm. pose proof (zlen_nonneg compressed).
  destruct (delivers_exists (core (reader_new compressed max))) as (k & rest & e & t & Hd & Hk & Ht & Htm).
  { split; cbn; lia. }
  cbn in Ht, Htm. unfold to_come in Hk. cbn in Hk. rewrite Z.add_0_l in Ht. subst t.
  exists rest, e. split; [done|]. split.
  - split; [done|]. exists rest. split; [|done]. split; [done|]. split; [by eapply delivers_bytes|]. split; [unfold calls_left; cbn; lia|].
    exists k, rest. split; [done|]. split; [done|]. unfold calls_left. cbn. lia.
  - intros all' e' t' (_ & b & (_ & _ & _ & k' & rest' & <- & Hd' & _) & ->). cbn.
    by destruct (delivers_unique _ _ _ _ _ _ _ _ _ Hd Hd') as (-> & -> & ->).
Qed.
Lemma next_field_end w e t :
  walker_views w [] e t ->
  match e with
  | Ended => exists w', next_field w = Ok (None, w') /\ walker_views w' [] e t /\ ir_total_out (fw_reader w') = t
  | Truncated => next_field w = Err MalformedProtobuf
  | Broken err => next_field w = Err (DecompressionError err)
  end.
Proof.
  intros Hv. apply consume_views in Hv. unfold next_field.
  destruct (need_spec 1 _ _ _ _ Hv) as [(err & -> & _ & ->)|(r' & -> & Hv' & _ & Hend)]; [done|].
  destruct (Hend ltac:(done)) as (Ha & -> & ->). cbn. destruct (ir_stream_end r'); [|done].
  eexists. split; [done|]. split; [|done]. split; [cbn; pose proof (zlen_nonneg (available r')); lia|].
  exists []. by split.
Qed.
Lemma next_field_spec w all e t :
  walker_views w all e t -> all <> [] ->
  agrees e (next_field w) (frame all)
    (fun x f => x.1 = Some f /\ walker_views x.2 (from (zlen (rf_raw f)) all) e t
      /\ pending_payload (rf_payload_start f) x.2 = from (rf_payload_start f) (rf_raw f)).
Proof.
  intros Hv Hne. apply consume_views in Hv. pose proof Hv as (_ & Hby & _). unfold next_field, frame.
  assert (H1 : 1 <= zlen all) by (destruct all; [done|rewrite zlen_cons; pose proof (zlen_nonneg all); lia]).
  destruct (need_spec 1 _ _ _ _ Hv) as [(err & -> & ? & _)|(r1 & -> & Hv1 & _)]; [lia|].
  assert (Hle : (1 <=? zlen all) = true) by (by apply Z.leb_le). rewrite Hle. cbn [negb mbind outcome_bind].
  destruct (need_spec 10 _ _ _ _ Hv1) as [(err & -> & _ & ->)|(r2 & -> & Hv2 & Hc & _)]; cbn [mbind outcome_bind].
  { left. by exists err, (DecompressionError err). }
  rewrite (read_varint_covers _ _ Hc). pose proof (read_varint_returns all) as Hret.
  destruct (read_varint all) as [[tag tlen]|[]| |] eqn:Hvar; try done; cbn [mbind outcome_bind]; [|by right].
  apply read_varint_bounds in Hvar as [Ht _]; [|done].
  destruct (field_span_spec (Z.land tag 7) tlen r2 all e t Hv2 Ht) as [(err & x' & -> & ->)|Hs].
  { left. by exists err, x'. }
  destruct (frame_span (Z.land tag 7) tlen all) as [[span start]|er| |] eqn:Hf; cbn [mbind outcome_bind]; [|right; by rewrite Hs|done..].
  destruct Hs as ([[span' start'] r3] & -> & [= -> ->] & Hv3 & Hc3). cbn [fst snd mbind outcome_bind] in *.
  apply frame_span_bounds in Hf as [Hsp Hst]; [|done|done].
  right. eexists. split; [done|]. cbn [fst snd rf_raw rf_payload_start]. rewrite (covers_upto _ _ _ Hc3) by lia. split; [done|].
  assert (Hup : zlen (upto span all) = span) by (unfold upto, zlen in *; rewrite length_take; lia). rewrite Hup.
  split; [|unfold pending_payload; cbn [fw_pending fw_reader]; by rewrite (covers_upto _ _ _ Hc3) by lia].
  split; [cbn [fw_pending fw_reader]; split; [lia|]; by eapply covers_head; [exact Hc3|lia|lia]|]. exists all. by split.
Qed.

(** ** All the fields of a buffer *)

Fixpoint frames_fuel (n : nat) (all : bytes) : outcome HistorySyncError (list RawField) :=
  match all with
  | [] => Ok []
  | _ =>
      match n with
      | O => Timeout
      | S n =>
          f ← frame all;
          fs ← frames_fuel n (from (zlen (rf_raw f)) all);
          Ok (f :: fs)
      end
  end.
Definition frames (all : bytes) : outcome HistorySyncError (list RawField) := frames_fuel (length all) all.

Lemma frame_bounds all f :
  are_bytes all -> frame all = Ok f ->
  1 <= zlen (rf_raw f) <= zlen all /\ rf_raw f = upto (zlen (rf_raw f)) all
  /\ 1 <= rf_payload_start f <= zlen (rf_raw f) /\ are_bytes (rf_raw f).
Proof.
  intros Hb. unfold frame. destruct (read_varint all) as [[tag tlen]|e| |] eqn:Hv; try done. cbn.
  apply read_varint_bounds in Hv as [Ht _]; [|done].
  destruct (frame_span _ _ _) as [[span start]|er| |] eqn:Hf; try done. cbn. intros [= <-]. cbn.
  apply frame_span_bounds in Hf as [Hsp Hst]; [|done|done].
  assert (Hup : zlen (upto span all) = span) by (unfold upto, zlen in *; rewrite length_take; lia).
  rewrite Hup. split_and!; try lia; [done|]. by apply Forall_take.
Qed.
Lemma frame_returns all : match frame all with Ok _ | Err MalformedProtobuf => True | _ => False end.
Proof.
  unfold frame. pose proof (read_varint_returns all) as H1. destruct (read_varint all) as [[tag tlen]|[]| |]; try done. cbn.
  assert (H2 : match frame_span (Z.land tag 7) tlen all with Ok _ | Err MalformedProtobuf => True | _ => False end).
  { unfold frame_span. pose proof (read_varint_returns (from tlen all)) as H2.
    destruct (_ =? LENGTH_DELIMITED);
      [destruct (read_varint _) as [[? ?]|[]| |]; try done; cbn; by destruct (_ <=? _)|].
    destruct (_ =? VARINT); [by destruct (read_varint _) as [[? ?]|[]| |]|].
    destruct (_ =? FIXED64); [by destruct (_ <=? _)|]. destruct (_ =? FIXED32); [by destruct (_ <=? _)|done]. }
  by destruct (frame_span _ _ _) as [[? ?]|[]| |].
Qed.
Lemma frames_returns n all :
  (length all <= n)%nat -> are_bytes all -> match frames_fuel n all with Ok _ | Err MalformedProtobuf => True | _ => False end.
Proof.
  revert all. induction n as [|n IH]; intros all Hn Hb; [by destruct all; [|cbn in Hn; lia]|]. destruct all as [|b all]; [done|].
  cbn [frames_fuel]. pose proof (frame_returns (b :: all)) as Hf.
  destruct (frame (b :: all)) as [f|[]| |] eqn:Ef; try done. cbn [mbind outcome_bind].
  apply frame_bounds in Ef as (Hl & _); [|done].
  assert (Hlen : (length (from (zlen (rf_raw f)) (b :: all)) <= n)%nat).
  { unfold from, zlen in *. rewrite length_drop. cbn [length] in *. lia. }
  specialize (IH _ Hlen ltac:(by apply Forall_drop)). by destruct (frames_fuel n _) as [|[]| |].
Qed.

(** [while let Some(field) = walker.next_field()?] *)
Definition walk_round {A} (body : RawField -> A -> A) (wa : FieldWalker * A)
    : FieldWalker * A + outcome HistorySyncError (FieldWalker * A) :=
  match next_field wa.1 with
  | Ok (Some f, w) => inl (w, body f wa.2)
  | Ok (None, w) => inr (Ok (w, wa.2))
  | Err e => inr (Err e)
  | Panic => inr Panic
  | Timeout => inr Timeout
  end.
(** A field takes a byte, and there are at most [max]. *)
Definition fields_left (w : FieldWalker) : Z := calls_left (fw_reader w).
Definition walk_fields {A} (body : RawField -> A -> A) (w : FieldWalker) (a : A)
    : outcome HistorySyncError (FieldWalker * A) :=
  loop_ (fields_left w) (walk_round body) (w, a).

Definition walked {A} (body : RawField -> A -> A) (fs : outcome HistorySyncError (list RawField)) (e : Ending) (t : Z) (a : A)
    (x : outcome HistorySyncError (FieldWalker * A)) : Prop :=
  match e with
  | Ended =>
      match fs with
      | Ok fs => exists w', x = Ok (w', fold_left (fun a f => body f a) fs a) /\ ir_total_out (fw_reader w') = t
      | Err er => x = Err er
      | Panic | Timeout => False
      end
  | _ => exists er, x = Err er
  end.
Lemma walk_breaks {A} (body : RawField -> A -> A) e t n all w a :
  (length all <= n)%nat -> walker_views w all e t ->
  exists k x, breaks (walk_round body) k (w, a) x /\ (k <= S n)%nat /\ walked body (frames_fuel n all) e t a x.
Proof.
  revert all w a. induction n as [|n IH]; intros all w a Hn Hv;
    [assert (all = []) as -> by (by destruct all; [|cbn in Hn; lia])|destruct all as [|b all]];
    try (pose proof (next_field_end w e t Hv) as He;
         destruct e as [| |err]; [destruct He as (w' & He & _ & Ht)|..]; (exists 1%nat; eexists; split; [constructor; unfold walk_round; cbn [fst snd]; by rewrite He|]; split; [lia|]; cbn; by eexists)).
  destruct (next_field_spec w (b :: all) e t Hv ltac:(done)) as [(err & x' & -> & Hx)|Hs].
  { exists 1%nat, (Err x'). split; [constructor; unfold walk_round; cbn [fst snd]; by rewrite Hx|]. split; [lia|]. by exists x'. }
  assert (Hby : are_bytes (b :: all)) by (destruct (consume_views _ _ _ _ Hv) as (_ & H & _); exact H).
  pose proof (frame_returns (b :: all)) as Hret. cbn [frames_fuel].
  destruct (frame (b :: all)) as [f|er| |] eqn:Ef; try done; cbn [mbind outcome_bind].
  - destruct Hs as ([o w'] & Hx & Ho & Hv' & _). cbn [fst snd] in Ho, Hv'. subst o. apply frame_bounds in Ef as (Hl & _); [|done].
    assert (Hlen : (length (from (zlen (rf_raw f)) (b :: all)) <= n)%nat).
    { unfold from, zlen in *. rewrite length_drop. cbn [length] in *. lia. }
    destruct (IH _ w' (body f a) Hlen Hv') as (k & x & Hb & Hk & Hw). exists (S k), x.
    split; [eapply breaks_later; [|exact Hb]; unfold walk_round; cbn [fst snd]; by rewrite Hx|]. split; [lia|].
    unfold walked in *. destruct e; try done. by destruct (frames_fuel n _).
  - exists 1%nat, (Err er). split; [constructor; unfold walk_round; cbn [fst snd]; by rewrite Hs|]. split; [lia|].
    unfold walked. destruct e; try done; by eexists.
Qed.
(** The walk over the stream is the fold over the fields of what it delivers; a stream that is
    cut off or breaks is refused. *)
Lemma fields_left_ok w all e t : walker_views w all e t -> zlen all + 1 <= fields_left w.
Proof. intros Hv. apply consume_views in Hv as (_ & _ & [_ Hc] & _). exact Hc. Qed.
Lemma walk_fields_spec {A} (body : RawField -> A -> A) w all e t a :
  walker_views w all e t -> walked body (frames all) e t a (walk_fields body w a).
Proof.
  intros Hv. destruct (walk_breaks body e t (length all) all w a ltac:(done) Hv) as (k & x & Hbr & Hk & Hw).
  pose proof (fields_left_ok _ _ _ _ Hv). pose proof (zlen_nonneg all).
  unfold walk_fields. rewrite (loop_breaks _ _ k (w, a) x Hbr); [done|lia|unfold zlen in *; lia].
Qed.
End WalkerSpec.
