(* ===== verification/HistorySync.v ===== *)
(** * What the client takes out of a history blob

    [wacore/src/history_sync.rs] above the wire walk: the message secrets, the trusted-contact
    tokens, the user's own push name and the NCT salt, extracted while the blob is inflated,
    and [HistorySyncStream], which hands out the conversations one by one.

    [prost]'s decoding of the mirror structs, which [fast_extract] falls back to, of a
    conversation and of the remaining fields are parameters. *)

From stdpp Require Import prelude strings.
From S2P Require Import Prelude Jid InflateReader HistoryWire.

#[local] Open Scope Z_scope.

(** ** Secrets *)

Definition SECRET_INLINE_CAP : Z := 32.
Inductive SecretBytes : Type := SecretInline (len : Z) (buf : bytes) | SecretHeap (v : bytes).
Definition secret_as_slice (s : SecretBytes) : bytes :=
  match s with SecretInline len buf => upto len buf | SecretHeap v => v end.
Definition secret_from (b : bytes) : SecretBytes :=
  if zlen b <=? SECRET_INLINE_CAP
  then SecretInline (wrap 8 (zlen b)) (b ++ replicate (Z.to_nat (SECRET_INLINE_CAP - zlen b)) 0)
  else SecretHeap b.
(** Equality is that of the bytes. *)
Definition secret_eqb (a b : SecretBytes) : bool := bytes_eqb (secret_as_slice a) (secret_as_slice b).

Record HistoryMsgSecretRecord : Type := mkSecretRecord {
  hr_chat_id : bytes; hr_from_me : bool; hr_key_participant : option bytes; hr_web_msg_participant : option bytes;
  hr_msg_id : bytes; hr_secret : SecretBytes; hr_timestamp : option Z; hr_is_poll_or_event : bool;
  hr_is_bot_invocation : bool
}.
Record TcTokenCandidate : Type := mkCandidate {
  tc_id : bytes; tc_token : bytes; tc_token_timestamp : Z; tc_token_sender_timestamp : option Z
}.

(** ** Fields of one level *)

Inductive WalkStop : Type := WMalformed | WFallback.
Record WireField : Type := mkWireField { wf_field : Z; wf_wt : Z; wf_value : option bytes; wf_varint : Z }.

(** [FieldIter::next]; after an error the iterator is at its end. *)
Definition field_iter_next (data : bytes) (pos : Z) : outcome WalkStop (option (WireField * Z)) :=
  let malformed {A} (x : outcome HistorySyncError A) := map_err (fun _ => WMalformed) x in
  if zlen data <=? pos then Ok None
  else
    here ← slice_from pos data;
    '(tag, br) ← malformed (read_varint here);
    if (2 ^ 32 - 1 <? tag) || (Z.shiftr tag 3 =? 0) then Err WMalformed
    else
      let pos := pos + br in
      let field := wrap 32 (Z.shiftr tag 3) in
      let wt := Z.land tag 7 in
      if wt =? LENGTH_DELIMITED then
        here ← slice_from pos data;
        '(len, vl) ← malformed (read_varint here);
        let pos := pos + vl in
        end_ ← malformed (checked_end pos len (zlen data));
        Ok (Some (mkWireField field wt (Some (upto (end_ - pos) (from pos data))) 0, end_))
      else if wt =? VARINT then
        here ← slice_from pos data;
        '(v, vl) ← malformed (read_varint here);
        Ok (Some (mkWireField field wt None v, pos + vl))
      else if (wt =? START_GROUP) || (wt =? END_GROUP) then Err WFallback
      else
        np ← malformed (skip_field wt data pos);
        Ok (Some (mkWireField field wt None 0, np)).

(** [for item in FieldIter::new(data)] whose body may stop; every field takes a byte. *)
Fixpoint fields_loop {A} (n : nat) (data : bytes) (pos : Z) (body : WireField -> A -> outcome WalkStop A) (a : A)
    : outcome WalkStop A :=
  match n with
  | O => Timeout
  | S n =>
      item ← field_iter_next data pos;
      match item with
      | None => Ok a
      | Some (f, pos) => a ← body f a; fields_loop n data pos body a
      end
  end.
Definition each_field {A} (data : bytes) (body : WireField -> A -> outcome WalkStop A) (a : A) : outcome WalkStop A :=
  fields_loop (S (length data)) data 0 body a.

(** A mirrored field with the wrong wire type, or a string that is not UTF-8, is malformed. *)
Definition value_of (f : WireField) : outcome WalkStop bytes := ok_or (wf_value f) WMalformed.
Definition str_of (f : WireField) : outcome WalkStop bytes :=
  match wf_value f with
  | Some s => if utf8_valid s then Ok s else Err WMalformed
  | None => Err WMalformed
  end.
Definition varint_of (f : WireField) : outcome WalkStop Z :=
  if negb (wf_wt f =? VARINT) then Err WMalformed else Ok (wf_varint f).

(** ** One level of a message *)

(** The carriers of a [contextInfo], by field: their slot, and the tag inside. *)
Definition carriers : list (Z * Z) :=
  [(6, 17); (3, 17); (9, 17); (8, 17); (7, 17); (26, 17); (5, 17); (18, 17); (4, 17); (13, 17); (42, 8); (43, 3);
   (36, 8); (39, 4); (25, 3); (29, 3); (45, 15); (48, 15); (49, 5); (60, 5); (64, 5); (30, 17); (38, 17); (28, 7);
   (75, 1); (86, 11); (78, 6)].
Definition N_CARRIERS : nat := 27.
Definition carrier_slot (field : Z) : option (nat * Z) :=
  match list_find (fun ct => ct.1 = field) carriers with
  | Some (i, ct) => Some (i, ct.2)
  | None => None
  end.
Definition N_WRAPPERS : nat := 6.
Definition WRAPPER_INNER_TAGS : list Z := [2; 1; 1; 1; 1; 1].
Definition wrapper_slot (field : Z) : option nat :=
  if field =? 31 then Some 0%nat else if field =? 40 then Some 1%nat else if field =? 37 then Some 2%nat
  else if field =? 55 then Some 3%nat else if field =? 53 then Some 4%nat else if field =? 58 then Some 5%nat
  else None.
Definition is_poll_field (field : Z) : bool := (field =? 49) || (field =? 60) || (field =? 64) || (field =? 75).

Record MsgLevel : Type := mkLevel {
  ml_context_secret : option bytes; ml_has_bot_metadata : bool; ml_is_poll_or_event : bool;
  ml_forwarded : list (option bool); ml_wrappers : list (option bytes)
}.
Definition empty_level : MsgLevel := mkLevel None false false (replicate N_CARRIERS None) (replicate N_WRAPPERS None).

Definition scan_context_info (mci : bytes) : outcome WalkStop (option bytes * bool) :=
  each_field mci (fun f acc =>
    if wf_field f =? 3 then v ← value_of f; Ok (Some v, acc.2)
    else if wf_field f =? 7 then _ ← value_of f; Ok (acc.1, true)
    else Ok acc) (None, false).

(** [isForwarded] of one occurrence of a carrier, over what earlier ones said. *)
Definition scan_carrier (ctx_tag : Z) (carrier : bytes) (acc : option bool) : outcome WalkStop (option bool) :=
  each_field carrier (fun f acc =>
    if wf_field f =? ctx_tag then
      ctx ← value_of f;
      each_field ctx (fun f acc =>
        if wf_field f =? 22 then v ← varint_of f; Ok (Some (negb (v =? 0))) else Ok acc) acc
    else Ok acc) acc.

Definition scan_field (f : WireField) (l : MsgLevel) : outcome WalkStop MsgLevel :=
  l ← (if wf_field f =? 35 then
         mci ← value_of f;
         '(secret, bot) ← scan_context_info mci;
         Ok (mkLevel (match secret with Some s => Some s | None => ml_context_secret l end)
               (ml_has_bot_metadata l || bot) (ml_is_poll_or_event l) (ml_forwarded l) (ml_wrappers l))
       else if is_poll_field (wf_field f) then
         _ ← value_of f;
         Ok (mkLevel (ml_context_secret l) (ml_has_bot_metadata l) true (ml_forwarded l) (ml_wrappers l))
       else Ok l);
  match wrapper_slot (wf_field f) with
  | Some slot =>
      v ← value_of f;
      match ml_wrappers l !! slot with
      | Some (Some _) => Err WFallback
      | _ => Ok (mkLevel (ml_context_secret l) (ml_has_bot_metadata l) (ml_is_poll_or_event l) (ml_forwarded l)
                   (<[slot := Some v]> (ml_wrappers l)))
      end
  | None =>
      match carrier_slot (wf_field f) with
      | Some (slot, ctx_tag) =>
          carrier ← value_of f;
          fwd ← scan_carrier ctx_tag carrier (default None (ml_forwarded l !! slot));
          Ok (mkLevel (ml_context_secret l) (ml_has_bot_metadata l) (ml_is_poll_or_event l)
                (<[slot := fwd]> (ml_forwarded l)) (ml_wrappers l))
      | None => Ok l
      end
  end.
Definition scan_message_level (msg : bytes) : outcome WalkStop MsgLevel := each_field msg scan_field empty_level.

(** The inner message of a wrapper; two of them merge in [prost]. *)
Definition wrapper_inner (inner_tag : Z) (wrapper : bytes) : outcome WalkStop (option bytes) :=
  each_field wrapper (fun f inner =>
    if wf_field f =? inner_tag then
      v ← value_of f;
      match inner with Some _ => Err WFallback | None => Ok (Some v) end
    else Ok inner) None.
(** The first wrapper, in the order of the slots, that has an inner message. *)
Fixpoint first_inner (ws : list (Z * option bytes)) : outcome WalkStop (option bytes) :=
  match ws with
  | [] => Ok None
  | (_, None) :: ws => first_inner ws
  | (tag, Some wrapper) :: ws =>
      inner ← wrapper_inner tag wrapper;
      match inner with Some m => Ok (Some m) | None => first_inner ws end
  end.
Definition MAX_UNWRAPS : nat := 40.
Fixpoint unwrap_levels (n : nat) (level : MsgLevel) : outcome WalkStop MsgLevel :=
  match n with
  | O => Err WFallback
  | S n =>
      next ← first_inner (zip WRAPPER_INNER_TAGS (ml_wrappers level));
      match next with
      | Some inner => level ← scan_message_level inner; unwrap_levels n level
      | None => Ok level
      end
  end.
Definition unwrap_to_base (level : MsgLevel) : outcome WalkStop MsgLevel := unwrap_levels MAX_UNWRAPS level.

(** ** One message *)

Record FastRecord : Type := mkFastRecord {
  fr_from_me : bool; fr_msg_id : bytes; fr_key_participant : option bytes; fr_web_msg_participant : option bytes;
  fr_timestamp : option Z; fr_secret : bytes; fr_is_poll_or_event : bool; fr_is_bot_invocation : bool
}.
Inductive FastExtract : Type := NoRecord | Record_ (r : FastRecord) | Fallback.

(** The variables of [fast_extract]. *)
Record FastState : Type := mkFast {
  ft_from_me : bool; ft_msg_id : option bytes; ft_key_participant : option bytes; ft_web_msg_participant : option bytes;
  ft_timestamp : option Z; ft_top_secret : option bytes; ft_msg_slice : option bytes
}.
Definition fast_new : FastState := mkFast false None None None None None None.

Definition key_field (f : WireField) (s : FastState) : outcome WalkStop FastState :=
  if wf_field f =? 2 then
    v ← varint_of f;
    Ok (mkFast (negb (v =? 0)) (ft_msg_id s) (ft_key_participant s) (ft_web_msg_participant s) (ft_timestamp s)
          (ft_top_secret s) (ft_msg_slice s))
  else if wf_field f =? 3 then
    v ← str_of f;
    Ok (mkFast (ft_from_me s) (Some v) (ft_key_participant s) (ft_web_msg_participant s) (ft_timestamp s)
          (ft_top_secret s) (ft_msg_slice s))
  else if wf_field f =? 4 then
    v ← str_of f;
    Ok (mkFast (ft_from_me s) (ft_msg_id s) (Some v) (ft_web_msg_participant s) (ft_timestamp s)
          (ft_top_secret s) (ft_msg_slice s))
  else Ok s.
Definition web_field (f : WireField) (s : FastState) : outcome WalkStop FastState :=
  if wf_field f =? 1 then key ← value_of f; each_field key key_field s
  else if wf_field f =? 2 then
    msg ← value_of f;
    match ft_msg_slice s with
    | Some _ => Err WFallback
    | None =>
        Ok (mkFast (ft_from_me s) (ft_msg_id s) (ft_key_participant s) (ft_web_msg_participant s) (ft_timestamp s)
              (ft_top_secret s) (Some msg))
    end
  else if wf_field f =? 3 then
    v ← varint_of f;
    Ok (mkFast (ft_from_me s) (ft_msg_id s) (ft_key_participant s) (ft_web_msg_participant s) (Some v)
          (ft_top_secret s) (ft_msg_slice s))
  else if wf_field f =? 5 then
    v ← str_of f;
    Ok (mkFast (ft_from_me s) (ft_msg_id s) (ft_key_participant s) (Some v) (ft_timestamp s)
          (ft_top_secret s) (ft_msg_slice s))
  else if wf_field f =? 49 then
    v ← value_of f;
    Ok (mkFast (ft_from_me s) (ft_msg_id s) (ft_key_participant s) (ft_web_msg_participant s) (ft_timestamp s)
          (Some v) (ft_msg_slice s))
  else Ok s.
Definition history_field (f : WireField) (s : FastState) : outcome WalkStop FastState :=
  if wf_field f =? 1 then web_msg ← value_of f; each_field web_msg web_field s else Ok s.

(** After the walk: [None] is the lack of a record. *)
Definition fast_record (s : FastState) : outcome WalkStop (option FastRecord) :=
  outer ← match ft_msg_slice s with
          | None => Ok None
          | Some m => l ← scan_message_level m; Ok (Some l)
          end;
  let context_secret := match outer with Some l => ml_context_secret l | None => None end in
  match (match ft_top_secret s with Some t => Some t | None => context_secret end) with
  | None => Ok None
  | Some secret =>
      match ft_msg_id s with
      | None => Ok None
      | Some msg_id =>
          let record poll bot :=
            Some (mkFastRecord (ft_from_me s) msg_id (ft_key_participant s) (ft_web_msg_participant s)
                    (ft_timestamp s) secret poll bot) in
          match outer with
          | None => Ok (record false false)
          | Some outer =>
              base ← unwrap_to_base outer;
              if existsb (fun x => bool_decide (x = Some true)) (ml_forwarded base) then Ok None
              else Ok (record (ml_is_poll_or_event base) (ml_has_bot_metadata outer || ml_has_bot_metadata base))
          end
      end
  end.
(** [From<WalkStop>]: malformed bytes give no record. *)
Definition fast_extract (history_msg : bytes) : outcome HistorySyncError FastExtract :=
  match (s ← each_field history_msg history_field fast_new; fast_record s) with
  | Ok (Some r) => Ok (Record_ r)
  | Ok None | Err WMalformed => Ok NoRecord
  | Err WFallback => Ok Fallback
  | Panic => Panic
  | Timeout => Timeout
  end.

(** ** The mirror structs *)

(** The fields of a [MessageInternalFields]: the [contextInfo.isForwarded] of each carrier that
    is present, in the order of [is_forwarded]; the wrappers that are present, in the order of
    [base_message], with their inner message; the message context info. *)
Inductive MessageFields : Type := mkMessageFields {
  mf_carriers : list (option (option bool));
  mf_wrappers : list (option (option MessageFields));
  mf_context : option (option bytes * option bytes)
}.
Record KeyFields : Type := mkKeyFields { kf_from_me : option bool; kf_id : option bytes; kf_participant : option bytes }.
Record WebFields : Type := mkWebFields {
  wm_key : option KeyFields; wm_message : option MessageFields; wm_timestamp : option Z;
  wm_participant : option bytes; wm_secret : option bytes
}.

(** [base_message]; the nesting of a message bounds the loop. *)
Fixpoint base_message (m : MessageFields) : MessageFields :=
  (fix first (ws : list (option (option MessageFields))) : MessageFields :=
     match ws with
     | [] => m
     | Some (Some inner) :: _ => base_message inner
     | _ :: ws => first ws
     end) (mf_wrappers m).
Definition has_bot (m : MessageFields) : bool :=
  match mf_context m with Some (_, Some _) => true | _ => false end.
Definition invokes_bot (m : MessageFields) : bool := has_bot m || has_bot (base_message m).
(** The slots of the poll creations and of the event. *)
Definition poll_slots : list nat := [18; 19; 20; 24]%nat.
Definition is_poll_or_event (m : MessageFields) : bool :=
  existsb (fun i => match mf_carriers (base_message m) !! i with Some (Some _) => true | _ => false end) poll_slots.
Definition is_forwarded (m : MessageFields) : bool :=
  existsb (fun c => match c with Some (Some b) => b | _ => false end) (mf_carriers (base_message m)).

Definition push_secret_record (chat_id : bytes) (history_msg : option WebFields) (out : list HistoryMsgSecretRecord)
    : list HistoryMsgSecretRecord :=
  match history_msg with
  | None => out
  | Some web_msg =>
      match wm_key web_msg with
      | None => out
      | Some key =>
          match kf_id key with
          | None => out
          | Some msg_id =>
              if match wm_message web_msg with Some m => is_forwarded m | None => false end then out
              else
                let poll := match wm_message web_msg with Some m => is_poll_or_event m | None => false end in
                let bot := match wm_message web_msg with Some m => invokes_bot m | None => false end in
                let secret :=
                  match wm_secret web_msg with
                  | Some s => Some s
                  | None =>
                      match wm_message web_msg with
                      | Some m => match mf_context m with Some (s, _) => s | None => None end
                      | None => None
                      end
                  end in
                match secret with
                | None => out
                | Some secret =>
                    out ++ [mkSecretRecord chat_id (bool_decide (kf_from_me key = Some true)) (kf_participant key)
                              (wm_participant web_msg) msg_id (secret_from secret) (wm_timestamp web_msg) poll bot]
                end
          end
      end
  end.

Class HistoryCodec : Type := {
  (** [HistorySyncMsgInternalFields::decode] *)
  mirror_decode : bytes -> option (option WebFields);
  (** a [wa::Conversation] and a [wa::HistorySync] without conversations *)
  Conversation : Type;
  conversation_decode : bytes -> option Conversation;
  HistoryRemainder : Type;
  history_sync_decode : bytes -> option HistoryRemainder
}.

(** ** One conversation *)

Section Extraction.
Context {HC : HistoryCodec}.

Record ConvState : Type := mkConv {
  cv_chat_id : bytes; cv_tc_token : bytes; cv_tc_timestamp : option Z; cv_tc_sender_timestamp : option Z;
  cv_secrets : list HistoryMsgSecretRecord
}.

(** A length and as many bytes: the payload and the position behind it. *)
Definition read_payload (data : bytes) (pos : Z) : outcome HistorySyncError (bytes * Z) :=
  here ← slice_from pos data;
  '(len, vl) ← read_varint here;
  let pos := pos + vl in
  end_ ← checked_end pos len (zlen data);
  Ok (upto (end_ - pos) (from pos data), end_).
Definition read_number (data : bytes) (pos : Z) : outcome HistorySyncError (Z * Z) :=
  here ← slice_from pos data;
  '(v, vl) ← read_varint here;
  Ok (v, pos + vl).

Definition record_of (chat_id : bytes) (r : FastRecord) : HistoryMsgSecretRecord :=
  mkSecretRecord chat_id (fr_from_me r) (fr_key_participant r) (fr_web_msg_participant r) (fr_msg_id r)
    (secret_from (fr_secret r)) (fr_timestamp r) (fr_is_poll_or_event r) (fr_is_bot_invocation r).
Definition extract_message (chat_id msg : bytes) (out : list HistoryMsgSecretRecord)
    : outcome HistorySyncError (list HistoryMsgSecretRecord) :=
  x ← fast_extract msg;
  match x with
  | NoRecord => Ok out
  | Record_ r => Ok (out ++ [record_of chat_id r])
  | Fallback =>
      match mirror_decode msg with
      | Some m => Ok (push_secret_record chat_id m out)
      | None => Ok out
      end
  end.

(** One field: the next position and state, or [None] for an id that is not UTF-8.  An error
    breaks the loop. *)
Definition conv_field (data : bytes) (field wt pos : Z) (s : ConvState)
    : outcome HistorySyncError (option (Z * ConvState)) :=
  if (field =? 1) && (wt =? LENGTH_DELIMITED) then
    '(id, end_) ← read_payload data pos;
    if utf8_valid id
    then Ok (Some (end_, mkConv id (cv_tc_token s) (cv_tc_timestamp s) (cv_tc_sender_timestamp s) (cv_secrets s)))
    else Ok None
  else if (field =? 2) && (wt =? LENGTH_DELIMITED) then
    '(msg, end_) ← read_payload data pos;
    out ← (if bool_decide (cv_chat_id s = []) then Ok (cv_secrets s)
           else extract_message (cv_chat_id s) msg (cv_secrets s));
    Ok (Some (end_, mkConv (cv_chat_id s) (cv_tc_token s) (cv_tc_timestamp s) (cv_tc_sender_timestamp s) out))
  else if (field =? 21) && (wt =? LENGTH_DELIMITED) then
    '(tok, end_) ← read_payload data pos;
    Ok (Some (end_, mkConv (cv_chat_id s) tok (cv_tc_timestamp s) (cv_tc_sender_timestamp s) (cv_secrets s)))
  else if (field =? 22) && (wt =? VARINT) then
    '(v, pos) ← read_number data pos;
    Ok (Some (pos, mkConv (cv_chat_id s) (cv_tc_token s) (Some v) (cv_tc_sender_timestamp s) (cv_secrets s)))
  else if (field =? 28) && (wt =? VARINT) then
    '(v, pos) ← read_number data pos;
    Ok (Some (pos, mkConv (cv_chat_id s) (cv_tc_token s) (cv_tc_timestamp s) (Some v) (cv_secrets s)))
  else
    np ← skip_field wt data pos;
    Ok (Some (np, s)).
(** The loop; the flag says that it ended or broke, and did not return. *)
Fixpoint conv_loop (n : nat) (data : bytes) (pos : Z) (s : ConvState) : outcome HistorySyncError (bool * ConvState) :=
  match n with
  | O => Timeout
  | S n =>
      if zlen data <=? pos then Ok (true, s)
      else
        match (here ← slice_from pos data; read_varint here) with
        | Ok (tag, br) =>
            match conv_field data (wrap 32 (Z.shiftr tag 3)) (Z.land tag 7) (pos + br) s with
            | Ok (Some (pos, s)) => conv_loop n data pos s
            | Ok None => Ok (false, s)
            | Err _ => Ok (true, s)
            | Panic => Panic
            | Timeout => Timeout
            end
        | Err _ => Ok (true, s)
        | Panic => Panic
        | Timeout => Timeout
        end
  end.
Definition extract_conversation_fields (data : bytes) (secrets_out : list HistoryMsgSecretRecord)
    : outcome HistorySyncError (option TcTokenCandidate * list HistoryMsgSecretRecord) :=
  '(went_on, s) ← conv_loop (S (length data)) data 0 (mkConv [] [] None None secrets_out);
  let candidate :=
    if negb went_on || bool_decide (cv_chat_id s = []) || bool_decide (cv_tc_token s = []) then None
    else
      match parse_jid_fast (cv_chat_id s) with
      | Some p =>
          if bytes_eqb (p_server p) (str "g.us") || bytes_eqb (p_server p) (str "newsletter")
             || bytes_eqb (p_server p) (str "bot")
          then None
          else match cv_tc_timestamp s with
               | Some ts => Some (mkCandidate (cv_chat_id s) (cv_tc_token s) ts (cv_tc_sender_timestamp s))
               | None => None
               end
      | None =>
          match cv_tc_timestamp s with
          | Some ts => Some (mkCandidate (cv_chat_id s) (cv_tc_token s) ts (cv_tc_sender_timestamp s))
          | None => None
          end
      end in
  Ok (candidate, cv_secrets s).

(** ** The own push name *)

(** [data.get(pos..)?] and a payload; what is out of range ends the search. *)
Definition get_from (pos : Z) (data : bytes) : outcome HistorySyncError bytes :=
  if (0 <=? pos) && (pos <=? zlen data) then Ok (from pos data) else Err MalformedProtobuf.
Definition get_payload (data : bytes) (pos : Z) : outcome HistorySyncError (bytes * Z) :=
  here ← get_from pos data;
  '(len, vl) ← read_varint here;
  let pos := pos + vl in
  end_ ← checked_end pos len (zlen data);
  Ok (upto (end_ - pos) (from pos data), end_).

(** [None] when the loop returns early. *)
Fixpoint pushname_loop (n : nat) (data : bytes) (own_user : bytes) (pos : Z) (id_match : bool) (pushname : option bytes)
    : outcome HistorySyncError (option bytes) :=
  match n with
  | O => Timeout
  | S n =>
      if zlen data <=? pos then Ok (if id_match then pushname else None)
      else
        here ← get_from pos data;
        '(tag, br) ← read_varint here;
        let pos := pos + br in
        let field := wrap 32 (Z.shiftr tag 3) in
        let wt := Z.land tag 7 in
        if (field =? 1) && (wt =? LENGTH_DELIMITED) then
          '(id, end_) ← get_payload data pos;
          if negb (utf8_valid id) then Ok None
          else if bytes_eqb id own_user then pushname_loop n data own_user end_ true pushname
          else Ok None
        else if (field =? 2) && (wt =? LENGTH_DELIMITED) then
          '(name, end_) ← get_payload data pos;
          if negb (utf8_valid name) then Ok None
          else pushname_loop n data own_user end_ id_match (Some name)
        else
          np ← skip_field wt data pos;
          pushname_loop n data own_user np id_match pushname
  end.
Definition extract_own_pushname (data own_user : bytes) : outcome HistorySyncError (option bytes) :=
  match pushname_loop (S (length data)) data own_user 0 false None with
  | Err _ => Ok None
  | r => r
  end.

(** ** The extraction pass *)

Record HistorySyncResult : Type := mkResult {
  hs_own_pushname : option bytes; hs_nct_salt : option bytes; hs_conversations_processed : Z;
  hs_tc_token_candidates : list TcTokenCandidate; hs_msg_secret_records : list HistoryMsgSecretRecord;
  hs_compressed_bytes : option bytes; hs_decompressed_size : Z
}.
Definition result_new : HistorySyncResult := mkResult None None 0 [] [] None 0.

Definition take_conversation (value : bytes) (r : HistorySyncResult) : outcome HistorySyncError HistorySyncResult :=
  '(candidate, secrets) ← extract_conversation_fields value (hs_msg_secret_records r);
  Ok (mkResult (hs_own_pushname r) (hs_nct_salt r) (hs_conversations_processed r + 1)
        (match candidate with Some c => hs_tc_token_candidates r ++ [c] | None => hs_tc_token_candidates r end)
        secrets (hs_compressed_bytes r) (hs_decompressed_size r)).
Definition take_pushname (own_user : option bytes) (value : bytes) (r : HistorySyncResult)
    : outcome HistorySyncError HistorySyncResult :=
  match hs_own_pushname r, own_user with
  | None, Some own =>
      name ← extract_own_pushname value own;
      Ok (match name with
          | Some n => mkResult (Some n) (hs_nct_salt r) (hs_conversations_processed r) (hs_tc_token_candidates r)
                        (hs_msg_secret_records r) (hs_compressed_bytes r) (hs_decompressed_size r)
          | None => r
          end)
  | _, _ => Ok r
  end.
Definition take_salt (value : bytes) (r : HistorySyncResult) : HistorySyncResult :=
  mkResult (hs_own_pushname r) (Some value) (hs_conversations_processed r) (hs_tc_token_candidates r)
    (hs_msg_secret_records r) (hs_compressed_bytes r) (hs_decompressed_size r).
Definition set_size (n : Z) (r : HistorySyncResult) : HistorySyncResult :=
  mkResult (hs_own_pushname r) (hs_nct_salt r) (hs_conversations_processed r) (hs_tc_token_candidates r)
    (hs_msg_secret_records r) (hs_compressed_bytes r) n.

Definition process_field (own_user : option bytes) (f : RawField) (r : outcome HistorySyncError HistorySyncResult)
    : outcome HistorySyncError HistorySyncResult :=
  r ← r;
  if negb (rf_wire_type f =? LENGTH_DELIMITED) then Ok r
  else
    value ← slice_from (rf_payload_start f) (rf_raw f);
    if rf_field_number f =? 2 then take_conversation value r
    else if rf_field_number f =? 7 then take_pushname own_user value r
    else if (rf_field_number f =? 19) && negb (bool_decide (value = [])) then Ok (take_salt value r)
    else Ok r.

Context {IN : Inflater}.

Definition process_history_sync_streaming (compressed_data : bytes) (own_user : option bytes) (max_decompressed : Z)
    : outcome HistorySyncError HistorySyncResult :=
  '(w, r) ← walk_fields (process_field own_user) (walker_new compressed_data max_decompressed) (Ok result_new);
  r ← r;
  Ok (set_size (ir_total_out (fw_reader w)) r).
Definition MAX_DECOMPRESSED : Z := 64 * 1024 * 1024.
Definition process_history_sync (compressed_data : bytes) (own_user : option bytes) (retain_blob : bool)
    : outcome HistorySyncError HistorySyncResult :=
  r ← process_history_sync_streaming compressed_data own_user MAX_DECOMPRESSED;
  Ok (if retain_blob
      then mkResult (hs_own_pushname r) (hs_nct_salt r) (hs_conversations_processed r) (hs_tc_token_candidates r)
             (hs_msg_secret_records r) (Some compressed_data) (hs_decompressed_size r)
      else r).

(** ** The stream of conversations *)

Record HistorySyncStream : Type := mkStream {
  hss_walker : FieldWalker; hss_remainder : bytes; hss_skipped : Z
}.
Definition stream_new (compressed : bytes) (max_decompressed : Z) : HistorySyncStream :=
  mkStream (walker_new compressed max_decompressed) [] 0.

Definition is_conversation (f : RawField) : bool := (rf_field_number f =? 2) && (rf_wire_type f =? LENGTH_DELIMITED).
Definition conversation_round (ws : FieldWalker * bytes)
    : FieldWalker * bytes + outcome HistorySyncError (option Z * FieldWalker * bytes) :=
  match next_field ws.1 with
  | Ok (None, w) => inr (Ok (None, w, ws.2))
  | Ok (Some f, w) =>
      if is_conversation f then inr (Ok (Some (rf_payload_start f), w, ws.2)) else inl (w, ws.2 ++ rf_raw f)
  | Err e => inr (Err e)
  | Panic => inr Panic
  | Timeout => inr Timeout
  end.
Definition next_conversation_bytes (s : HistorySyncStream)
    : outcome HistorySyncError (option bytes * HistorySyncStream) :=
  '(start, w, rem) ← loop_ (fields_left (hss_walker s)) conversation_round (hss_walker s, hss_remainder s);
  let s := mkStream w rem (hss_skipped s) in
  Ok (match start with Some i => Some (pending_payload i w) | None => None end, s).

Definition decoded_round (s : HistorySyncStream)
    : HistorySyncStream + outcome HistorySyncError (option Conversation * HistorySyncStream) :=
  match next_conversation_bytes s with
  | Ok (None, s) => inr (Ok (None, s))
  | Ok (Some b, s) =>
      match conversation_decode b with
      | Some c => inr (Ok (Some c, s))
      | None => inl (mkStream (hss_walker s) (hss_remainder s) (hss_skipped s + 1))
      end
  | Err e => inr (Err e)
  | Panic => inr Panic
  | Timeout => inr Timeout
  end.
Definition next_conversation (s : HistorySyncStream)
    : outcome HistorySyncError (option Conversation * HistorySyncStream) :=
  loop_ (fields_left (hss_walker s)) decoded_round s.

Definition stream_remainder (s : HistorySyncStream) : outcome HistorySyncError HistoryRemainder :=
  '(start, w, rem) ← loop_ (fields_left (hss_walker s)) conversation_round (hss_walker s, hss_remainder s);
  match start with
  | Some _ => Err UnreadConversations
  | None => ok_or (history_sync_decode rem) ProtobufDecodeError
  end.
End Extraction.
