(* ===== verification/HistoryStream.v ===== *)
(** * The stream is the blob

    The extraction never panics and always ends; on any stream it gives what the walk over the
    whole inflated buffer gives ([reference_full_walk], the reference of the tests of
    [wacore/src/history_sync.rs]), or an error; and [HistorySyncStream] hands out exactly the
    conversations of the blob, in order, and keeps exactly the rest. *)

From stdpp Require Import prelude.
From S2P Require Import Prelude Jid InflateReader HistoryWire HistorySync.

#[local] Open Scope Z_scope.

(** ** Positions *)

Lemma from_length i (s : bytes) : 0 <= i <= zlen s -> zlen (from i s) = zlen s - i.
Proof. intros Hi. unfold from, zlen in *. rewrite length_drop. lia. Qed.
Lemma upto_length i (s : bytes) : 0 <= i <= zlen s -> zlen (upto i s) = i.
Proof. intros Hi. unfold upto, zlen in *. rewrite length_take. lia. Qed.
Lemma from_twice i j (s : bytes) : 0 <= i -> 0 <= j -> from j (from i s) = from (i + j) s.
Proof. intros Hi Hj. unfold from. rewrite drop_drop. f_equal. lia. Qed.
Lemma are_bytes_from i s : are_bytes s -> are_bytes (from i s).
Proof. apply Forall_drop. Qed.
Lemma are_bytes_upto i s : are_bytes s -> are_bytes (upto i s).
Proof. apply Forall_take. Qed.
Lemma slice_from_ok {E} pos data : 0 <= pos <= zlen data -> slice_from (E := E) pos data = Ok (from pos data).
Proof. intros Hp. unfold slice_from. by rewrite (proj2 (Z.leb_le 0 pos)), (proj2 (Z.leb_le pos _)) by lia. Qed.
Lemma checked_end_spec pos len n :
  checked_end pos len n = if (pos + len <? 2 ^ 64) && (pos + len <=? n) then Ok (pos + len) else Err MalformedProtobuf.
Proof.
  unfold checked_end. rewrite !Z.ltb_antisym. destruct (2 ^ 64 <=? pos + len), (pos + len <=? n); done.
Qed.

(** The outcome is a result satisfying [P], or an error. *)
Definition ends {E A} (P : A -> Prop) (x : outcome E A) : Prop :=
  match x with Ok a => P a | Err _ => True | Panic | Timeout => False end.
Lemma ends_bind {E A B} (P : A -> Prop) (Q : B -> Prop) (x : outcome E A) (f : A -> outcome E B) :
  ends P x -> (forall a, P a -> ends Q (f a)) -> ends Q (x ≫= f).
Proof. intros Hx Hf. destruct x; try done. by apply Hf. Qed.
Lemma ends_impl {E A} (P Q : A -> Prop) (x : outcome E A) : ends P x -> (forall a, P a -> Q a) -> ends Q x.
Proof. intros Hx Hi. destruct x; try done. by apply Hi. Qed.
Lemma ends_map_err {E F A} (P : A -> Prop) (g : E -> F) (x : outcome E A) : ends P x -> ends P (map_err g x).
Proof. by destruct x. Qed.

Lemma read_varint_ends data : are_bytes data -> ends (fun vn => 1 <= vn.2 <= zlen data /\ 0 <= vn.1) (read_varint data).
Proof.
  intros Hb. pose proof (read_varint_returns data) as Hr.
  destruct (read_varint data) as [[v n]|e| |] eqn:E; try done. by apply read_varint_bounds in E.
Qed.
Lemma varint_at pos data :
  are_bytes data -> 0 <= pos <= zlen data ->
  ends (fun vn => 1 <= vn.2 /\ pos + vn.2 <= zlen data /\ 0 <= vn.1) (here ← slice_from pos data; read_varint here).
Proof.
  intros Hb Hp. rewrite slice_from_ok by done. cbn [mbind outcome_bind].
  eapply ends_impl; [by apply read_varint_ends, are_bytes_from|]. intros [v n]. cbn. rewrite from_length by done. lia.
Qed.
Lemma checked_end_ends pos len n : ends (fun e => e = pos + len /\ e <= n) (checked_end pos len n).
Proof. rewrite checked_end_spec. destruct (_ && _) eqn:E; [|done]. cbn. apply andb_true_iff in E as [_ E%Z.leb_le]. lia. Qed.

Lemma read_payload_ends data pos :
  are_bytes data -> 0 <= pos <= zlen data ->
  ends (fun be => are_bytes be.1 /\ pos < be.2 <= zlen data) (read_payload data pos).
Proof.
  intros Hb Hp. unfold read_payload. rewrite slice_from_ok by done. cbn [mbind outcome_bind].
  eapply ends_bind; [by apply read_varint_ends, are_bytes_from|]. intros [len vl]. cbn [fst snd].
  rewrite from_length by done. intros [Hv Hl].
  eapply ends_bind; [apply checked_end_ends|]. intros e [-> He]. cbn.
  split; [by apply are_bytes_upto, are_bytes_from|lia].
Qed.
Lemma read_number_ends data pos :
  are_bytes data -> 0 <= pos <= zlen data -> ends (fun ve => pos < ve.2 <= zlen data) (read_number data pos).
Proof.
  intros Hb Hp. unfold read_number. rewrite slice_from_ok by done. cbn [mbind outcome_bind].
  eapply ends_bind; [by apply read_varint_ends, are_bytes_from|]. intros [v vl]. cbn [fst snd].
  rewrite from_length by done. cbn. lia.
Qed.
Lemma skip_field_ends wt data pos :
  are_bytes data -> 0 <= pos <= zlen data -> ends (fun np => pos <= np <= zlen data) (skip_field wt data pos).
Proof.
  intros Hb Hp. unfold skip_field. rewrite slice_from_ok by done. cbn [mbind outcome_bind].
  assert (Hv : ends (fun vn => 1 <= vn.2 <= zlen data - pos /\ 0 <= vn.1) (read_varint (from pos data))).
  { rewrite <- from_length by done. by apply read_varint_ends, are_bytes_from. }
  destruct (wt =? VARINT).
  { eapply ends_bind; [exact Hv|]. intros [v n]. cbn. lia. }
  destruct (wt =? FIXED64); [eapply ends_impl; [apply checked_end_ends|]; cbn; lia|].
  destruct (wt =? LENGTH_DELIMITED).
  { eapply ends_bind; [exact Hv|]. intros [v n]. cbn [fst snd]. intros [Hn Hvv].
    eapply ends_impl; [apply checked_end_ends|]. cbn. lia. }
  destruct (wt =? FIXED32); [eapply ends_impl; [apply checked_end_ends|]; cbn; lia|done].
Qed.

(** ** Loops over fields end *)

(** A value that the iterator yields is made of bytes, and a varint is not negative. *)
Definition field_ok (f : WireField) : Prop := match wf_value f with Some v => are_bytes v | None => True end.

Lemma field_iter_next_ends data pos :
  are_bytes data -> 0 <= pos <= zlen data ->
  ends (fun o => match o with Some (f, p) => field_ok f /\ pos < p <= zlen data | None => pos = zlen data end)
    (field_iter_next data pos).
Proof.
  intros Hb Hp. unfold field_iter_next. destruct (Z.leb_spec (zlen data) pos); [cbn; lia|].
  rewrite slice_from_ok by done. cbn [mbind outcome_bind].
  eapply ends_bind; [by apply ends_map_err, read_varint_ends, are_bytes_from|]. intros [tag br]. cbn [fst snd].
  rewrite from_length by done. intros [Hbr _]. destruct (_ || _); [done|].
  assert (Hp' : 0 <= pos + br <= zlen data) by lia. rewrite slice_from_ok by done. cbn [mbind outcome_bind].
  destruct (_ =? LENGTH_DELIMITED).
  { eapply ends_bind; [by apply ends_map_err, read_varint_ends, are_bytes_from|]. intros [len vl]. cbn [fst snd].
    rewrite from_length by done. intros [Hvl Hlen]. eapply ends_bind; [apply ends_map_err, checked_end_ends|].
    intros e [-> He]. cbn. split; [by apply are_bytes_upto, are_bytes_from|lia]. }
  destruct (_ =? VARINT).
  { eapply ends_bind; [by apply ends_map_err, read_varint_ends, are_bytes_from|]. intros [v vl]. cbn [fst snd].
    rewrite from_length by done. cbn. intros [Hvl _]. split; [done|lia]. }
  destruct (_ || _); [done|]. eapply ends_bind; [by apply ends_map_err, skip_field_ends|]. cbn. intros np Hnp. split; [done|lia].
Qed.
Lemma fields_loop_ends {A} (P : A -> Prop) (body : WireField -> A -> outcome WalkStop A) n data pos a :
  are_bytes data -> 0 <= pos <= zlen data -> zlen data - pos < Z.of_nat n -> P a ->
  (forall f a, field_ok f -> P a -> ends P (body f a)) -> ends P (fields_loop n data pos body a).
Proof.
  intros Hb. revert pos a. induction n as [|n IH]; intros pos a Hp Hn Ha Hbody; [lia|]. cbn [fields_loop].
  eapply ends_bind; [by apply field_iter_next_ends|]. intros [[f p]|]; [|done]. intros [Hf Hpp].
  eapply ends_bind; [by apply Hbody|]. intros a' Ha'. apply IH; [lia|lia|done|done].
Qed.
Lemma each_field_ends {A} (P : A -> Prop) (body : WireField -> A -> outcome WalkStop A) data a :
  are_bytes data -> P a -> (forall f a, field_ok f -> P a -> ends P (body f a)) -> ends P (each_field data body a).
Proof.
  intros Hb Ha Hbody. pose proof (zlen_nonneg data).
  apply fields_loop_ends; [done|lia|unfold zlen; lia|done|done].
Qed.

Lemma value_of_ends f : field_ok f -> ends are_bytes (value_of f).
Proof. unfold field_ok, value_of. by destruct (wf_value f). Qed.
Lemma str_of_ends f : ends (fun _ => True) (str_of f).
Proof. unfold str_of. destruct (wf_value f); [|done]. by destruct (utf8_valid _). Qed.
Lemma varint_of_ends f : ends (fun _ => True) (varint_of f).
Proof. unfold varint_of. by destruct (negb _). Qed.

Definition opt_bytes (o : option bytes) : Prop := match o with Some b => are_bytes b | None => True end.
Definition level_ok (l : MsgLevel) : Prop := Forall opt_bytes (ml_wrappers l).
Definition fast_ok (s : FastState) : Prop := opt_bytes (ft_msg_slice s).

Lemma scan_context_info_ends mci : are_bytes mci -> ends (fun _ => True) (scan_context_info mci).
Proof.
  intros Hb. apply (each_field_ends (fun _ => True)); [done|done|]. intros f a Hf _.
  destruct (_ =? 3); [eapply ends_bind; [by apply value_of_ends|done]|].
  destruct (_ =? 7); [eapply ends_bind; [by apply value_of_ends|done]|done].
Qed.
Lemma scan_carrier_ends tag carrier acc : are_bytes carrier -> ends (fun _ => True) (scan_carrier tag carrier acc).
Proof.
  intros Hb. apply (each_field_ends (fun _ => True)); [done|done|]. intros f a Hf _.
  destruct (_ =? tag); [|done]. eapply ends_bind; [by apply value_of_ends|]. intros ctx Hctx.
  apply (each_field_ends (fun _ => True)); [done|done|]. intros g b Hg _.
  destruct (_ =? 22); [|done]. by eapply ends_bind; [apply varint_of_ends|].
Qed.
Lemma scan_field_ends f l : field_ok f -> level_ok l -> ends level_ok (scan_field f l).
Proof.
  intros Hf Hl. unfold scan_field. eapply (ends_bind level_ok).
  - destruct (_ =? 35).
    { eapply ends_bind; [by apply value_of_ends|]. intros mci Hmci.
      eapply ends_bind; [by apply scan_context_info_ends|]. by intros [secret bot] _. }
    destruct (is_poll_field _); [|done]. by eapply ends_bind; [apply value_of_ends|].
  - clear Hl. intros l' Hl. destruct (wrapper_slot _) as [slot|].
    { eapply ends_bind; [by apply value_of_ends|]. intros v Hv.
      destruct (ml_wrappers l' !! slot) as [[w|]|]; [done|..]; cbn; unfold level_ok in *; cbn; by apply Forall_insert. }
    destruct (carrier_slot _) as [[slot tag]|]; [|done]. eapply ends_bind; [by apply value_of_ends|]. intros c Hc.
    by eapply ends_bind; [apply scan_carrier_ends|].
Qed.
Lemma scan_message_level_ends msg : are_bytes msg -> ends level_ok (scan_message_level msg).
Proof.
  intros Hb. apply each_field_ends; [done| |intros f l; apply scan_field_ends].
  unfold level_ok. cbn. repeat constructor.
Qed.
Lemma wrapper_inner_ends tag w : are_bytes w -> ends opt_bytes (wrapper_inner tag w).
Proof.
  intros Hb. apply each_field_ends; [done|done|]. intros f a Hf Ha. destruct (_ =? tag); [|done].
  eapply ends_bind; [by apply value_of_ends|]. intros v Hv. by destruct a.
Qed.
Lemma first_inner_ends ws : Forall (fun tw => opt_bytes tw.2) ws -> ends opt_bytes (first_inner ws).
Proof.
  induction 1 as [|[tag [w|]] ws Hw _ IH]; [done| |done]. cbn [first_inner].
  eapply ends_bind; [by apply wrapper_inner_ends|]. intros [m|] Hm; [done|exact IH].
Qed.
Lemma unwrap_levels_ends n l : level_ok l -> ends level_ok (unwrap_levels n l).
Proof.
  revert l. induction n as [|n IH]; intros l Hl; [done|]. cbn [unwrap_levels].
  eapply ends_bind.
  - apply first_inner_ends. apply Forall_forall. intros [tag w] Hin. cbn.
    apply elem_of_zip_r in Hin. unfold level_ok in Hl. rewrite Forall_forall in Hl. by apply Hl.
  - intros [m|] Hm; [|done]. eapply ends_bind; [by apply scan_message_level_ends|]. intros l' Hl'. by apply IH.
Qed.
Lemma key_field_ends f s : field_ok f -> fast_ok s -> ends fast_ok (key_field f s).
Proof.
  intros Hf Hs. unfold key_field.
  destruct (_ =? 2); [by eapply ends_bind; [apply varint_of_ends|]|].
  destruct (_ =? 3); [by eapply ends_bind; [apply str_of_ends|]|].
  destruct (_ =? 4); [by eapply ends_bind; [apply str_of_ends|]|done].
Qed.
Lemma web_field_ends f s : field_ok f -> fast_ok s -> ends fast_ok (web_field f s).
Proof.
  intros Hf Hs. unfold web_field.
  destruct (_ =? 1).
  { eapply ends_bind; [by apply value_of_ends|]. intros key Hk. apply each_field_ends; [done|done|apply key_field_ends]. }
  destruct (_ =? 2); [eapply ends_bind; [by apply value_of_ends|]; intros m Hm; by destruct (ft_msg_slice s)|].
  destruct (_ =? 3); [by eapply ends_bind; [apply varint_of_ends|]|].
  destruct (_ =? 5); [by eapply ends_bind; [apply str_of_ends|]|].
  destruct (_ =? 49); [by eapply ends_bind; [by apply value_of_ends|]|done].
Qed.
Lemma history_field_ends f s : field_ok f -> fast_ok s -> ends fast_ok (history_field f s).
Proof.
  intros Hf Hs. unfold history_field. destruct (_ =? 1); [|done].
  eapply ends_bind; [by apply value_of_ends|]. intros w Hw. apply each_field_ends; [done|done|apply web_field_ends].
Qed.
Lemma fast_record_ends s : fast_ok s -> ends (fun _ => True) (fast_record s).
Proof.
  intros Hs. unfold fast_record, fast_ok in *.
  eapply (ends_bind (fun o => match o with Some l => level_ok l | None => True end)).
  - destruct (ft_msg_slice s) as [m|]; [|done]. by eapply ends_bind; [apply scan_message_level_ends|].
  - intros outer Ho. destruct (match ft_top_secret s with Some t => _ | None => _ end); [|done].
    destruct (ft_msg_id s); [|done]. destruct outer as [lvl|]; [|done].
    eapply ends_bind; [by apply unwrap_levels_ends|]. intros b Hb. by destruct (existsb _ _).
Qed.
(** A message gives a record, none, or the fallback. *)
Lemma fast_extract_ok msg : are_bytes msg -> exists x, fast_extract msg = Ok x.
Proof.
  intros Hb. unfold fast_extract.
  assert (He : ends (fun _ => True) (s ← each_field msg history_field fast_new; fast_record s)).
  { eapply ends_bind; [by apply (each_field_ends fast_ok); [| |apply history_field_ends]|]. apply fast_record_ends. }
  destruct (s ← each_field msg history_field fast_new; fast_record s) as [[r|]|[]| |]; try done; by eexists.
Qed.

Section Stream.
Context {HC : HistoryCodec}.

Lemma extract_message_ok chat msg out : are_bytes msg -> exists out', extract_message chat msg out = Ok out'.
Proof.
  intros Hb. unfold extract_message. destruct (fast_extract_ok msg Hb) as [x ->]. cbn [mbind outcome_bind].
  destruct x; [by eexists..|]. destruct (mirror_decode msg); by eexists.
Qed.
Lemma conv_field_ends data field wt pos s :
  are_bytes data -> 0 <= pos <= zlen data ->
  ends (fun o => match o with Some (p, _) => pos <= p <= zlen data | None => True end) (conv_field data field wt pos s).
Proof.
  intros Hb Hp. unfold conv_field.
  destruct (_ && _).
  { eapply ends_bind; [by apply read_payload_ends|]. intros [id e] [_ He]. destruct (utf8_valid id); [cbn in *; lia|done]. }
  destruct (_ && _).
  { eapply ends_bind; [by apply read_payload_ends|]. intros [msg e] [Hm He]. cbn [fst snd] in *.
    destruct (bool_decide _); [cbn; lia|]. destruct (extract_message_ok (cv_chat_id s) msg (cv_secrets s) Hm) as [o ->]. cbn. lia. }
  destruct (_ && _); [eapply ends_bind; [by apply read_payload_ends|]; intros [tok e] [_ He]; cbn in *; lia|].
  destruct (_ && _); [eapply ends_bind; [by apply read_number_ends|]; intros [v e] He; cbn in *; lia|].
  destruct (_ && _); [eapply ends_bind; [by apply read_number_ends|]; intros [v e] He; cbn in *; lia|].
  eapply ends_bind; [by apply skip_field_ends|]. intros np Hnp. cbn in *. lia.
Qed.
Lemma conv_loop_ok n data pos s :
  are_bytes data -> 0 <= pos <= zlen data -> zlen data - pos < Z.of_nat n -> exists r, conv_loop n data pos s = Ok r.
Proof.
  intros Hb. revert pos s. induction n as [|n IH]; intros pos s Hp Hn; [lia|]. cbn [conv_loop].
  destruct (Z.leb_spec (zlen data) pos); [by eexists|]. pose proof (varint_at pos data Hb Hp) as Hv.
  destruct (here ← slice_from pos data; read_varint here) as [[tag br]|e| |]; try done; [|by eexists]. cbn [ends fst snd] in Hv.
  pose proof (conv_field_ends data (wrap 32 (Z.shiftr tag 3)) (Z.land tag 7) (pos + br) s Hb ltac:(lia)) as Hc.
  destruct (conv_field _ _ _ _ _) as [[[p s']|]|e| |]; try done; [|by eexists..]. cbn [ends] in Hc. apply IH; lia.
Qed.
Lemma extract_conversation_ok data out : are_bytes data -> exists r, extract_conversation_fields data out = Ok r.
Proof.
  intros Hb. unfold extract_conversation_fields. pose proof (zlen_nonneg data).
  destruct (conv_loop_ok (S (length data)) data 0 (mkConv [] [] None None out) Hb) as [[b s] ->]; [lia|unfold zlen; lia|].
  by eexists.
Qed.
Lemma get_from_slice pos data : 0 <= pos <= zlen data -> get_from pos data = slice_from pos data.
Proof. intros Hp. unfold get_from. rewrite slice_from_ok by done. by rewrite (proj2 (Z.leb_le 0 pos)), (proj2 (Z.leb_le pos _)) by lia. Qed.
Lemma get_payload_read data pos : 0 <= pos <= zlen data -> get_payload data pos = read_payload data pos.
Proof. intros Hp. unfold get_payload, read_payload. by rewrite get_from_slice. Qed.
Lemma pushname_loop_ends n data own pos m name :
  are_bytes data -> 0 <= pos <= zlen data -> zlen data - pos < Z.of_nat n ->
  ends (fun _ => True) (pushname_loop n data own pos m name).
Proof.
  intros Hb. revert pos m name. induction n as [|n IH]; intros pos m name Hp Hn; [lia|]. cbn [pushname_loop].
  destruct (Z.leb_spec (zlen data) pos); [done|]. rewrite get_from_slice, slice_from_ok by done. cbn [mbind outcome_bind].
  eapply ends_bind; [by apply read_varint_ends, are_bytes_from|]. intros [tag br]. cbn [fst snd].
  rewrite from_length by done. intros [Hbr _]. rewrite get_payload_read by lia.
  assert (Hpay : ends (fun be => are_bytes be.1 /\ pos + br < be.2 <= zlen data) (read_payload data (pos + br)))
    by (apply read_payload_ends; [done|lia]).
  destruct (_ && _).
  { eapply ends_bind; [exact Hpay|]. intros [id e] [_ He]. cbn [fst snd] in *. destruct (negb _); [done|].
    destruct (bytes_eqb id own); [|done]. apply IH; lia. }
  destruct (_ && _).
  { eapply ends_bind; [exact Hpay|]. intros [nm e] [_ He]. cbn [fst snd] in *. destruct (negb _); [done|]. apply IH; lia. }
  eapply ends_bind; [apply skip_field_ends; [done|lia]|]. intros np Hnp. cbn in Hnp. apply IH; lia.
Qed.
Lemma extract_own_pushname_ok data own : are_bytes data -> exists r, extract_own_pushname data own = Ok r.
Proof.
  intros Hb. unfold extract_own_pushname. pose proof (zlen_nonneg data).
  pose proof (pushname_loop_ends (S (length data)) data own 0 false None Hb ltac:(lia) ltac:(unfold zlen; lia)) as Hl.
  destruct (pushname_loop _ _ _ _ _ _); try done; by eexists.
Qed.
Lemma take_conversation_ok v r : are_bytes v -> exists r', take_conversation v r = Ok r'.
Proof.
  intros Hb. unfold take_conversation. destruct (extract_conversation_ok v (hs_msg_secret_records r) Hb) as [[c o] ->]. by eexists.
Qed.
Lemma take_pushname_ok own v r : are_bytes v -> exists r', take_pushname own v r = Ok r'.
Proof.
  intros Hb. unfold take_pushname. destruct (hs_own_pushname r), own as [o|]; try by eexists.
  destruct (extract_own_pushname_ok v o Hb) as [x ->]. by eexists.
Qed.
Lemma process_field_ok own f r :
  are_bytes (rf_raw f) -> 0 <= rf_payload_start f <= zlen (rf_raw f) -> exists r', process_field own f (Ok r) = Ok r'.
Proof.
  intros Hb Hs. unfold process_field. cbn [mbind outcome_bind]. destruct (negb _); [by eexists|].
  rewrite slice_from_ok by done. cbn [mbind outcome_bind].
  destruct (_ =? 2); [by apply take_conversation_ok, are_bytes_from|].
  destruct (_ =? 7); [by apply take_pushname_ok, are_bytes_from|]. destruct (_ && _); by eexists.
Qed.

(** ** The reference *)

(** [unwrap] *)
Definition unwrap {A} (x : outcome HistorySyncError A) : outcome HistorySyncError A :=
  match x with Err _ => Panic | x => x end.
Fixpoint reference_loop (n : nat) (all : bytes) (own_user : option bytes) (pos : Z) (r : HistorySyncResult)
    : outcome HistorySyncError HistorySyncResult :=
  match n with
  | O => Timeout
  | S n =>
      if zlen all <=? pos then Ok r
      else
        here ← slice_from pos all;
        '(tag, br) ← unwrap (read_varint here);
        let pos := pos + br in
        let field := wrap 32 (Z.shiftr tag 3) in
        let wt := Z.land tag 7 in
        if (field =? 2) && (wt =? LENGTH_DELIMITED) then
          '(value, end_) ← unwrap (read_payload all pos);
          r ← take_conversation value r;
          reference_loop n all own_user end_ r
        else if (field =? 7) && bool_decide (is_Some own_user) && bool_decide (hs_own_pushname r = None)
                && (wt =? LENGTH_DELIMITED) then
          '(value, end_) ← unwrap (read_payload all pos);
          r ← take_pushname own_user value r;
          reference_loop n all own_user end_ r
        else if (field =? 19) && (wt =? LENGTH_DELIMITED) then
          '(value, end_) ← unwrap (read_payload all pos);
          reference_loop n all own_user end_ (if bool_decide (value = []) then r else take_salt value r)
        else
          np ← unwrap (skip_field wt all pos);
          reference_loop n all own_user np r
  end.
Definition reference_full_walk (all : bytes) (own_user : option bytes) : outcome HistorySyncError HistorySyncResult :=
  reference_loop (S (length all)) all own_user 0 (set_size (zlen all) result_new).

(** A field of the rest of the buffer, in terms of positions. *)
Lemma span_at wt tlen all pos :
  are_bytes all -> zlen all < 2 ^ 64 -> 0 <= pos -> 1 <= tlen -> pos + tlen <= zlen all ->
  match frame_span wt tlen (from pos all) with
  | Ok (span, start) =>
      skip_field wt all (pos + tlen) = Ok (pos + span)
      /\ (wt = LENGTH_DELIMITED ->
          read_payload all (pos + tlen) = Ok (from start (upto span (from pos all)), pos + span))
  | _ => is_err (skip_field wt all (pos + tlen)) = true
         /\ (wt = LENGTH_DELIMITED -> is_err (read_payload all (pos + tlen)) = true)
  end.
Proof.
  intros Hb Hall Hp Ht Hpt. unfold frame_span, skip_field, read_payload.
  assert (Hf : from tlen (from pos all) = from (pos + tlen) all) by (apply from_twice; lia). rewrite Hf.
  assert (Hl : zlen (from pos all) = zlen all - pos) by (apply from_length; lia).
  rewrite !slice_from_ok by lia. cbn [mbind outcome_bind].
  assert (Hfix : forall n, 0 <= n -> checked_end (pos + tlen) n (zlen all)
    = if tlen + n <=? zlen (from pos all) then Ok (pos + (tlen + n)) else Err MalformedProtobuf).
  { intros n Hn. rewrite checked_end_spec, Hl. destruct (Z.leb_spec (tlen + n) (zlen all - pos)).
    - rewrite (proj2 (Z.ltb_lt _ _)), (proj2 (Z.leb_le _ _)) by lia. cbn. f_equal. lia.
    - rewrite (proj2 (Z.leb_gt _ _)), andb_false_r by lia. done. }
  assert (Hv : ends (fun vn => 1 <= vn.2 <= zlen all - (pos + tlen) /\ 0 <= vn.1) (read_varint (from (pos + tlen) all))).
  { rewrite <- from_length by lia. by apply read_varint_ends, are_bytes_from. }
  destruct (Z.eqb_spec wt LENGTH_DELIMITED) as [->|Hne].
  { change (LENGTH_DELIMITED =? VARINT) with false. change (LENGTH_DELIMITED =? FIXED64) with false. cbn [negb].
    destruct (read_varint (from (pos + tlen) all)) as [[len vl]|e| |]; try done. cbn [mbind outcome_bind]. destruct Hv as [Hv1 Hv2].
    cbn [fst snd] in Hv1, Hv2. rewrite checked_end_spec. destruct (Z.leb_spec (tlen + vl + len) (zlen (from pos all))).
    - rewrite (proj2 (Z.ltb_lt _ _)), (proj2 (Z.leb_le _ _)) by lia. cbn. split; [f_equal; lia|]. intros _. f_equal.
      f_equal; [|lia]. unfold upto, from. rewrite skipn_firstn_comm, drop_drop. f_equal; [lia|f_equal; lia].
    - rewrite (proj2 (Z.leb_gt _ _)), andb_false_r by lia. done. }
  destruct (Z.eqb_spec wt VARINT).
  { destruct (read_varint (from (pos + tlen) all)) as [[len vl]|er| |]; try done. cbn. split; [f_equal; lia|done]. }
  destruct (wt =? FIXED64); [rewrite Hfix by lia; destruct (_ <=? _); by split|].
  destruct (wt =? FIXED32); [rewrite Hfix by lia; destruct (_ <=? _); by split|]. by split.
Qed.

(** One round of the reference is one field of the walk. *)
Lemma reference_step n all own pos r tag br span start :
  are_bytes all -> zlen all < 2 ^ 64 -> 0 <= pos < zlen all ->
  read_varint (from pos all) = Ok (tag, br) ->
  frame_span (Z.land tag 7) br (from pos all) = Ok (span, start) ->
  let f := mkRawField (wrap 32 (Z.shiftr tag 3)) (Z.land tag 7) (upto span (from pos all)) start in
  reference_loop (S n) all own pos r = (r ← process_field own f (Ok r); reference_loop n all own (pos + span) r).
Proof.
  intros Hb Hall Hp Hv Hs f. assert (Hbr : 1 <= br <= zlen all - pos).
  { apply read_varint_bounds in Hv as [Hbr _]; [|by apply are_bytes_from]. rewrite from_length in Hbr by lia. lia. }
  pose proof (span_at (Z.land tag 7) br all pos Hb Hall ltac:(lia) ltac:(lia) ltac:(lia)) as Hat. rewrite Hs in Hat.
  destruct Hat as [Hskip Hpay].
  apply frame_span_bounds in Hs as [Hsp Hst]; [|by apply are_bytes_from|rewrite from_length by lia; lia].
  cbn [reference_loop]. rewrite (proj2 (Z.leb_gt _ _)) by lia. rewrite slice_from_ok by lia. cbn [mbind outcome_bind].
  rewrite Hv. cbn [unwrap mbind outcome_bind]. unfold process_field. subst f. cbn [mbind outcome_bind rf_wire_type rf_field_number rf_raw rf_payload_start].
  rewrite Hskip. destruct (Z.eqb_spec (Z.land tag 7) LENGTH_DELIMITED) as [E|E]; cbn [negb].
  2:{ rewrite !andb_false_r. cbn [unwrap mbind outcome_bind]. done. }
  rewrite (Hpay E). rewrite !andb_true_r. cbn [unwrap mbind outcome_bind].
  rewrite slice_from_ok by (rewrite upto_length by lia; lia). cbn [mbind outcome_bind].
  destruct (wrap 32 (Z.shiftr tag 3) =? 2); [done|]. destruct (Z.eqb_spec (wrap 32 (Z.shiftr tag 3)) 7) as [->|]; cbn [andb].
  - unfold take_pushname. destruct own as [o|], (hs_own_pushname r); cbn; done.
  - destruct (_ =? 19); cbn [andb]; [|done]. by destruct (bool_decide _).
Qed.
Lemma reference_frames n all own pos r :
  are_bytes all -> zlen all < 2 ^ 64 -> 0 <= pos <= zlen all -> zlen all - pos < Z.of_nat n ->
  match frames_fuel n (from pos all) with
  | Ok fs => reference_loop n all own pos r = fold_left (fun a f => process_field own f a) fs (Ok r)
  | Err _ => reference_loop n all own pos r = Panic
  | _ => False
  end.
Proof.
  intros Hb Hall. revert pos r. induction n as [|n IH]; intros pos r Hp Hn; [lia|].
  destruct (decide (pos = zlen all)) as [->|Hne].
  { assert (from (zlen all) all = []) as -> by (apply nil_length_inv; pose proof (from_length (zlen all) all ltac:(lia)); unfold zlen in *; lia).
    cbn. by rewrite (proj2 (Z.leb_le _ _)) by lia. }
  destruct (from pos all) as [|b rest] eqn:Hrest.
  { pose proof (from_length pos all ltac:(lia)) as Hl. rewrite Hrest in Hl. change (zlen (@nil byte)) with 0 in Hl. lia. }
  cbn [frames_fuel]. rewrite <- Hrest in *. clear b rest Hrest.
  pose proof (frame_returns (from pos all)) as Hret. unfold frame in *.
  destruct (read_varint (from pos all)) as [[tag br]|e| |] eqn:Hv; try done; cbn [mbind outcome_bind] in *.
  2:{ cbn [reference_loop]. rewrite (proj2 (Z.leb_gt _ _)) by lia. rewrite slice_from_ok by lia. cbn. by rewrite Hv. }
  assert (Hbr : 1 <= br <= zlen all - pos).
  { apply read_varint_bounds in Hv as [Hbr _]; [|by apply are_bytes_from]. rewrite from_length in Hbr by lia. lia. }
  destruct (frame_span (Z.land tag 7) br (from pos all)) as [[span start]|e| |] eqn:Hs; try done; cbn [mbind outcome_bind] in *.
  - set (f := mkRawField _ _ _ _).
    assert (Hf : frame (from pos all) = Ok f) by (unfold frame; rewrite Hv; cbn [mbind outcome_bind]; by rewrite Hs).
    apply frame_bounds in Hf as (Hl & _ & Hst & Hby); [|by apply are_bytes_from]. rewrite from_length in Hl by lia.
    rewrite (reference_step n all own pos r tag br span start) by (done || lia). fold f.
    destruct (process_field_ok own f r Hby ltac:(lia)) as [r' Hr']. rewrite Hr'. cbn [mbind outcome_bind].
    assert (Hspan : zlen (rf_raw f) = span).
    { apply frame_span_bounds in Hs as [Hsp _]; [|by apply are_bytes_from|rewrite from_length by lia; lia].
      apply upto_length. lia. }
    rewrite Hspan in *. rewrite from_twice by lia. specialize (IH (pos + span) r' ltac:(lia) ltac:(lia)).
    destruct (frames_fuel n (from (pos + span) all)) as [fs|e| |]; try done; cbn [mbind outcome_bind fold_left]. by rewrite Hr'.
  - pose proof (span_at (Z.land tag 7) br all pos Hb Hall ltac:(lia) ltac:(lia) ltac:(lia)) as Hat. rewrite Hs in Hat.
    destruct Hat as [Hskip Hpay]. cbn [reference_loop]. rewrite (proj2 (Z.leb_gt _ _)) by lia. rewrite slice_from_ok by lia.
    cbn [mbind outcome_bind]. rewrite Hv. cbn [unwrap mbind outcome_bind].
    destruct (skip_field _ _ _); try done. cbn [unwrap mbind outcome_bind].
    destruct (Z.eqb_spec (Z.land tag 7) LENGTH_DELIMITED) as [E|E]; [|by rewrite !andb_false_r].
    specialize (Hpay E). destruct (read_payload _ _); try done. cbn [unwrap mbind outcome_bind].
    repeat (destruct (_ && _); [done|]). done.
Qed.

Lemma frames_fuel_enough n m all :
  are_bytes all -> (length all <= n)%nat -> (length all <= m)%nat -> frames_fuel n all = frames_fuel m all.
Proof.
  revert m all. induction n as [|n IH]; intros m all Hb Hn Hm.
  { destruct all; [by destruct m|cbn in Hn; lia]. }
  destruct all as [|b all]; [by destruct m|]. destruct m as [|m]; [cbn in Hm; lia|]. cbn [frames_fuel].
  destruct (frame (b :: all)) as [f|e| |] eqn:Hf; try done. cbn [mbind outcome_bind].
  apply frame_bounds in Hf as (Hl & _); [|done].
  assert (Hlen : (length (from (zlen (rf_raw f)) (b :: all)) < length (b :: all))%nat).
  { unfold from, zlen in *. rewrite length_drop. lia. }
  rewrite (IH m) by (lia || by apply are_bytes_from). done.
Qed.
Lemma frames_all n all : are_bytes all -> (length all <= n)%nat -> frames_fuel n all = frames all.
Proof. intros Hb Hn. by apply frames_fuel_enough. Qed.

(** The size is not read on the way. *)
Lemma process_field_size own f n r :
  process_field own f (Ok (set_size n r)) = (r ← process_field own f (Ok r); Ok (set_size n r)).
Proof.
  unfold process_field. cbn [mbind outcome_bind]. destruct (negb _); [done|].
  destruct (slice_from _ _) as [v|e| |]; try done. cbn [mbind outcome_bind].
  destruct (_ =? 2).
  { unfold take_conversation. cbn [set_size hs_msg_secret_records]. by destruct (extract_conversation_fields v (hs_msg_secret_records r)) as [[c s]|e| |]. }
  destruct (_ =? 7).
  { unfold take_pushname. cbn. destruct (hs_own_pushname r), own as [o|]; try done.
    by destruct (extract_own_pushname v o) as [[x|]|e| |]. }
  by destruct (_ && _).
Qed.
Lemma process_fields_size own fs n r :
  fold_left (fun a f => process_field own f a) fs (Ok (set_size n r))
  = (r ← fold_left (fun a f => process_field own f a) fs (Ok r); Ok (set_size n r)).
Proof.
  revert r. induction fs as [|f fs IH]; intros r; [done|]. cbn [fold_left]. rewrite process_field_size.
  assert (Hstuck : forall x : outcome HistorySyncError HistorySyncResult, (forall r, x <> Ok r) ->
    fold_left (fun a f => process_field own f a) fs x = x).
  { intros x Hx. clear IH. induction fs as [|g fs IH]; [done|]. cbn [fold_left].
    assert (process_field own g x = x) as -> by (unfold process_field; destruct x as [y|e| |]; try done; by destruct (Hx y)).
    done. }
  destruct (process_field own f (Ok r)) as [r'|e| |]; cbn [mbind outcome_bind]; [apply IH|by rewrite Hstuck..].
Qed.

Definition raw_ok (f : RawField) : Prop := are_bytes (rf_raw f) /\ 1 <= rf_payload_start f <= zlen (rf_raw f).
Lemma frames_ok n all fs : are_bytes all -> frames_fuel n all = Ok fs -> Forall raw_ok fs.
Proof.
  revert all fs. induction n as [|n IH]; intros all fs Hb; [by destruct all as [|b all]; [intros [= <-]|]|].
  destruct all as [|b all]; [by intros [= <-]|]. cbn [frames_fuel].
  destruct (frame (b :: all)) as [f|e| |] eqn:Hf; try done. cbn [mbind outcome_bind].
  apply frame_bounds in Hf as (_ & _ & Hs & Hr); [|done].
  destruct (frames_fuel n _) as [fs'|e| |] eqn:Hfs; try done. intros [= <-]. constructor; [done|].
  eapply IH; [|exact Hfs]. by apply are_bytes_from.
Qed.
Lemma process_fields_ok own fs r :
  Forall raw_ok fs -> exists r', fold_left (fun a f => process_field own f a) fs (Ok r) = Ok r'.
Proof.
  intros Hfs. revert r. induction Hfs as [|f fs [Hb Hs] _ IH]; intros r; [by exists r|]. cbn [fold_left].
  destruct (process_field_ok own f r Hb ltac:(lia)) as [r' ->]. apply IH.
Qed.

Context {IN : Inflater} {IL : InflaterLaws}.

(** The blob inflates to [all], and then ends as [e]; past [max] bytes it breaks. *)
Definition inflates (compressed : bytes) (max : Z) (all : bytes) (e : Ending) : Prop :=
  exists k, delivers k (core (reader_new compressed max)) all e (zlen all).

Lemma inflates_views compressed max :
  0 <= max < 2 ^ 64 ->
  exists all e, inflates compressed max all e /\ zlen all <= max /\ are_bytes all
  /\ walker_views (walker_new compressed max) all e (zlen all).
Proof.
  intros Hm. destruct (walker_views_new compressed max Hm) as (all & e & Hl & Hv & _). exists all, e.
  pose proof Hv as (_ & b & (_ & Hb & _ & k & rest & Hr & Hd & _) & Ha).
  assert (Hb' : b = all) by (rewrite Ha; done). rewrite Hb' in *. assert (Hrest : rest = all) by exact Hr. rewrite Hrest in *.
  split_and!; try done. by exists k.
Qed.

(** C19: the streaming extraction is the walk over the whole blob.  For every zlib decompressor, in
    whatever pieces it delivers: the pass ends; when the blob inflates to its end within the
    limit, the result is that of the reference on the inflated bytes, and an error exactly when
    the reference rejects them; a blob that is cut off, corrupt or too large is an error. *)
Theorem history_sync_streams compressed own max :
  0 <= max < 2 ^ 64 ->
  exists all e, inflates compressed max all e /\ zlen all <= max
  /\ match e with
     | Ended =>
         match reference_full_walk all own with
         | Ok r => process_history_sync_streaming compressed own max = Ok r
         | Panic => process_history_sync_streaming compressed own max = Err MalformedProtobuf
         | Err _ | Timeout => False
         end
     | _ => exists er, process_history_sync_streaming compressed own max = Err er
     end.
Proof.
  intros Hm. destruct (inflates_views compressed max Hm) as (all & e & Hi & Hl & Hb & Hv). exists all, e.
  split; [done|]. split; [done|].
  pose proof (walk_fields_spec (process_field own) _ all e _ (Ok result_new) Hv) as Hw.
  unfold process_history_sync_streaming. unfold walked in Hw.
  destruct e; [|destruct Hw as [er ->]; by exists er..].
  pose proof (reference_frames (S (length all)) all own 0 (set_size (zlen all) result_new) Hb ltac:(lia)
    ltac:(pose proof (zlen_nonneg all); lia) ltac:(unfold zlen; lia)) as Href.
  change (from 0 all) with all in Href. rewrite frames_all in Href by (done || lia).
  pose proof (frames_returns (length all) all ltac:(done) Hb) as Hret. fold (frames all) in Hret.
  fold (reference_full_walk all own) in Href.
  destruct (frames all) as [fs|[]| |] eqn:Hfs; try done; [|by rewrite Href, Hw]. destruct Hw as (w' & -> & Ht).
  cbn [mbind outcome_bind]. rewrite Href, process_fields_size, Ht.
  by destruct (process_fields_ok own fs result_new (frames_ok _ _ _ Hb Hfs)) as [r ->].
Qed.

(** ** The stream of conversations *)

Definition payload (f : RawField) : bytes := from (rf_payload_start f) (rf_raw f).
Definition conversations (fs : list RawField) : list bytes := payload <$> filter (fun f => is_conversation f = true) fs.
Definition other_bytes (fs : list RawField) : bytes := concat (rf_raw <$> filter (fun f => is_conversation f = false) fs).

Lemma conversations_app fs fs' : conversations (fs ++ fs') = conversations fs ++ conversations fs'.
Proof. unfold conversations. by rewrite filter_app, fmap_app. Qed.
Lemma other_bytes_app fs fs' : other_bytes (fs ++ fs') = other_bytes fs ++ other_bytes fs'.
Proof. unfold other_bytes. by rewrite filter_app, fmap_app, concat_app. Qed.
Lemma conversations_cons f fs :
  conversations (f :: fs) = (if is_conversation f then [payload f] else []) ++ conversations fs.
Proof. unfold conversations. rewrite filter_cons. by destruct (is_conversation f). Qed.
Lemma other_bytes_cons f fs : other_bytes (f :: fs) = (if is_conversation f then [] else rf_raw f) ++ other_bytes fs.
Proof. unfold other_bytes. rewrite filter_cons. by destruct (is_conversation f). Qed.

(** The walker is before the fields [fs] of a stream that ends properly. *)
Definition at_fields (w : FieldWalker) (fs : list RawField) (t : Z) : Prop :=
  exists all, walker_views w all Ended t /\ frames all = Ok fs.

(** The first conversation of [fs] with what is before and after it, or that there is none. *)
Definition next_found (fs : list RawField) (t : Z) (rem : bytes)
    (P : outcome HistorySyncError (option Z * FieldWalker * bytes) -> Prop) : Prop :=
  (exists c before after w', conversations fs = payload c :: conversations after
     /\ P (Ok (Some (rf_payload_start c), w', rem ++ before)) /\ other_bytes fs = before ++ other_bytes after
     /\ at_fields w' after t /\ pending_payload (rf_payload_start c) w' = payload c /\ (length after < length fs)%nat)
  \/ (conversations fs = [] /\ exists w', P (Ok (None, w', rem ++ other_bytes fs)) /\ at_fields w' [] t).

Lemma frames_cons all f fs :
  are_bytes all -> frames all = Ok (f :: fs) ->
  all <> [] /\ frame all = Ok f /\ frames (from (zlen (rf_raw f)) all) = Ok fs.
Proof.
  intros Hb Hf. unfold frames in *. destruct all as [|b all]; [done|]. split; [done|]. cbn [length frames_fuel] in Hf.
  destruct (frame (b :: all)) as [g|e| |] eqn:Hg; try done. cbn [mbind outcome_bind] in Hf.
  destruct (frames_fuel (length all) _) as [gs|e| |] eqn:Hgs; try done. injection Hf as -> ->.
  split; [done|]. rewrite <- Hgs. symmetry.
  pose proof Hg as (Hl & _)%frame_bounds; [|done]. apply frames_fuel_enough; [by apply are_bytes_from| |done].
  unfold from, zlen in *. rewrite length_drop. cbn [length] in *. lia.
Qed.
Lemma frames_nil all : are_bytes all -> frames all = Ok [] -> all = [].
Proof.
  intros Hb Hf. unfold frames in *. destruct all as [|b all]; [done|]. cbn [length frames_fuel] in Hf.
  destruct (frame (b :: all)) as [g|e| |]; try done. cbn [mbind outcome_bind] in Hf. by destruct (frames_fuel _ _).
Qed.
Lemma next_found_breaks fs t w rem :
  at_fields w fs t ->
  next_found fs t rem (fun x => exists k, breaks conversation_round k (w, rem) x /\ (k <= S (length fs))%nat).
Proof.
  revert w rem. induction fs as [|f fs IH]; intros w rem (all & Hv & Hf);
    (assert (Hby : are_bytes all) by (destruct (consume_views _ _ _ _ Hv) as (_ & Hx & _); exact Hx)).
  - apply frames_nil in Hf as ->; [|done]. destruct (next_field_end w Ended t Hv) as (w' & Hn & Hv' & _).
    right. split; [done|]. exists w'. split; [|by exists []]. exists 1%nat. split; [|lia]. constructor.
    unfold conversation_round. cbn [fst snd]. rewrite Hn. cbn. by rewrite app_nil_r.
  - apply frames_cons in Hf as (Hne & Hf & Hfs); [|done].
    destruct (next_field_spec w all Ended t Hv Hne) as [(err & ? & [=] & _)|Hs]. rewrite Hf in Hs.
    destruct Hs as ([o w'] & Hn & Ho & Hv' & Hpp). cbn [fst snd] in Ho, Hv', Hpp. subst o.
    destruct (is_conversation f) eqn:Hc.
    + left. exists f, [], fs, w'. rewrite conversations_cons, other_bytes_cons, Hc. cbn [app].
      split_and!; try done; [|by eexists|cbn; lia]. exists 1%nat. split; [|lia]. constructor.
      unfold conversation_round. cbn [fst snd]. rewrite Hn, Hc. by rewrite app_nil_r.
    + specialize (IH w' (rem ++ rf_raw f) ltac:(by eexists)).
      assert (Hr : conversation_round (w, rem) = inl (w', rem ++ rf_raw f)) by (unfold conversation_round; cbn [fst snd]; by rewrite Hn, Hc).
      unfold next_found in *. rewrite conversations_cons, other_bytes_cons, Hc. cbn [app].
      destruct IH as [(c & before & after & w2 & H1 & (k & Hb & Hk) & H3 & H4 & H5 & H6)|(H1 & w2 & (k & Hb & Hk) & H3)].
      * left. exists c, (rf_raw f ++ before), after, w2. split_and!; try done; [|by rewrite H3, app_assoc|cbn; lia].
        exists (S k). split; [|cbn; lia]. eapply breaks_later; [exact Hr|]. by rewrite app_assoc.
      * right. split; [done|]. exists w2. split; [|done]. exists (S k). split; [|cbn; lia].
        eapply breaks_later; [exact Hr|]. by rewrite app_assoc.
Qed.

Lemma frames_length all fs : are_bytes all -> frames all = Ok fs -> Z.of_nat (length fs) <= zlen all.
Proof.
  revert all. induction fs as [|f fs IH]; intros all Hb Hf; [cbn; pose proof (zlen_nonneg all); lia|].
  apply frames_cons in Hf as (Hne & Hf & Hfs); [|done]. apply IH in Hfs; [|by apply are_bytes_from].
  apply frame_bounds in Hf as (Hl & _); [|done]. rewrite from_length in Hfs by lia. cbn [length]. lia.
Qed.
Lemma at_fields_left w fs t : at_fields w fs t -> Z.of_nat (length fs) + 1 <= fields_left w.
Proof.
  intros (all & Hv & Hf). pose proof (fields_left_ok _ _ _ _ Hv).
  assert (Hby : are_bytes all) by (destruct (consume_views _ _ _ _ Hv) as (_ & Hx & _); exact Hx).
  pose proof (frames_length _ _ Hby Hf). lia.
Qed.
Lemma conversation_loop_spec w rem fs t :
  at_fields w fs t -> next_found fs t rem (fun x => loop_ (fields_left w) conversation_round (w, rem) = x).
Proof.
  intros Ha. pose proof (at_fields_left _ _ _ Ha) as Hl.
  assert (Hloop : forall x, (exists k, breaks conversation_round k (w, rem) x /\ (k <= S (length fs))%nat) ->
    loop_ (fields_left w) conversation_round (w, rem) = x).
  { intros x (k & Hb & Hk). eapply loop_breaks; [exact Hb|lia|lia]. }
  destruct (next_found_breaks fs t w rem Ha) as [(c & before & after & w' & H1 & H2 & H3)|(H1 & w' & H2 & H3)].
  - left. exists c, before, after, w'. split; [done|]. split; [by apply Hloop|done].
  - right. split; [done|]. exists w'. split; [by apply Hloop|done].
Qed.

(** The stream has [fs] before it and holds [rem]. *)
Definition stream_at (s : HistorySyncStream) (fs : list RawField) (rem : bytes) (skipped : Z) : Prop :=
  (exists t, at_fields (hss_walker s) fs t) /\ hss_remainder s = rem /\ hss_skipped s = skipped.

Lemma next_bytes_spec s fs rem sk :
  stream_at s fs rem sk ->
  (exists c before after s', conversations fs = c :: conversations after /\ other_bytes fs = before ++ other_bytes after
     /\ next_conversation_bytes s = Ok (Some c, s') /\ stream_at s' after (rem ++ before) sk
     /\ (length after < length fs)%nat)
  \/ (conversations fs = [] /\ exists s', next_conversation_bytes s = Ok (None, s')
      /\ stream_at s' [] (rem ++ other_bytes fs) sk).
Proof.
  intros ((t & Ha) & <- & <-). unfold next_conversation_bytes.
  destruct (conversation_loop_spec _ (hss_remainder s) _ _ Ha) as [(c & b & af & w' & H1 & -> & H3 & H4 & H5 & H6)|(H1 & w' & -> & H3)];
    cbn [mbind outcome_bind].
  - left. exists (payload c), b, af. eexists. rewrite H5. split_and!; try done. split; [by exists t|done].
  - right. split; [done|]. eexists. split; [done|]. split; [by exists t|done].
Qed.

(** Calls of an iterator up to its end. *)
Inductive yields {S A} (next : S -> outcome HistorySyncError (option A * S)) : S -> list A -> S -> Prop :=
  | yields_end s s' : next s = Ok (None, s') -> yields next s [] s'
  | yields_next s s1 s' a l : next s = Ok (Some a, s1) -> yields next s1 l s' -> yields next s (a :: l) s'.

Lemma yields_bytes n s fs rem sk :
  (length fs < n)%nat -> stream_at s fs rem sk ->
  exists s', yields next_conversation_bytes s (conversations fs) s' /\ stream_at s' [] (rem ++ other_bytes fs) sk.
Proof.
  revert s fs rem. induction n as [|n IH]; intros s fs rem Hn Hs; [lia|].
  destruct (next_bytes_spec _ _ _ _ Hs) as [(c & b & af & s1 & H1 & H2 & H3 & H4 & H5)|(H1 & s' & H2 & H3)].
  - destruct (IH s1 af _ ltac:(lia) H4) as (s' & Hy & Ha). exists s'. rewrite H1, H2, app_assoc. split; [|done].
    by eapply yields_next.
  - exists s'. rewrite H1. split; [by constructor|done].
Qed.

(** The conversations that decode, and how many do not. *)
Definition decoded (cs : list bytes) : list Conversation := omap conversation_decode cs.
Definition undecodable (cs : list bytes) : Z := zlen (filter (fun c => is_Some (conversation_decode c) -> False) cs).

Lemma decoded_cons c cs :
  decoded (c :: cs) = match conversation_decode c with Some x => x :: decoded cs | None => decoded cs end
  /\ undecodable (c :: cs) = (match conversation_decode c with Some _ => 0 | None => 1 end) + undecodable cs.
Proof.
  unfold decoded, undecodable. rewrite filter_cons. cbn [omap list_omap]. destruct (conversation_decode c) as [x|].
  - split; [done|]. rewrite decide_False by (intros Hx; apply Hx; by eexists). lia.
  - split; [done|]. rewrite decide_True by (by intros [? ?]). by rewrite zlen_cons.
Qed.

Definition decoded_found (s : HistorySyncStream) (fs : list RawField) (rem : bytes) (sk : Z)
    (P : outcome HistorySyncError (option Conversation * HistorySyncStream) -> Prop) : Prop :=
  (exists x before after m s', decoded (conversations fs) = x :: decoded (conversations after)
     /\ undecodable (conversations fs) = m + undecodable (conversations after)
     /\ other_bytes fs = before ++ other_bytes after /\ P (Ok (Some x, s'))
     /\ stream_at s' after (rem ++ before) (sk + m) /\ (length after < length fs)%nat)
  \/ (decoded (conversations fs) = [] /\ exists s', P (Ok (None, s'))
      /\ stream_at s' [] (rem ++ other_bytes fs) (sk + undecodable (conversations fs))).

Lemma decoded_breaks n s fs rem sk :
  (length fs < n)%nat -> stream_at s fs rem sk ->
  decoded_found s fs rem sk (fun x => exists k, breaks decoded_round k s x /\ (k <= S (length fs))%nat).
Proof.
  revert s fs rem sk. induction n as [|n IH]; intros s fs rem sk Hn Hs; [lia|]. unfold decoded_found.
  destruct (next_bytes_spec _ _ _ _ Hs) as [(c & b & af & s1 & H1 & H2 & H3 & H4 & H5)|(H1 & s' & H2 & H3)]; rewrite H1.
  2:{ right. split; [done|]. exists s'. split; [|unfold undecodable; cbn; by rewrite Z.add_0_r]. exists 1%nat. split; [|lia].
      constructor. unfold decoded_round. by rewrite H2. }
  destruct (decoded_cons c (conversations af)) as [-> ->]. destruct (conversation_decode c) as [x|] eqn:Hx.
  { left. exists x, b, af, 0, s1. rewrite Z.add_0_r. split_and!; try done. exists 1%nat. split; [|lia]. constructor.
    unfold decoded_round. by rewrite H3, Hx. }
  set (s2 := mkStream (hss_walker s1) (hss_remainder s1) (hss_skipped s1 + 1)).
  assert (Hs2 : stream_at s2 af (rem ++ b) (sk + 1)) by (destruct H4 as (Ha & Hr & Hk); split; [exact Ha|split; [exact Hr|cbn; by rewrite Hk]]).
  assert (Hround : decoded_round s = inl s2) by (unfold decoded_round; by rewrite H3, Hx).
  destruct (IH s2 af _ _ ltac:(lia) Hs2) as [(x & b' & af' & m & s' & G1 & G2 & G3 & (k & G4 & Gk) & G5 & G6)|(G1 & s' & (k & G2 & Gk) & G3)].
  - left. exists x, (b ++ b'), af', (1 + m), s'. rewrite G1, G2, H2, G3, !app_assoc. rewrite <- (Z.add_assoc sk 1 m), <- !app_assoc in G5.
    rewrite <- !app_assoc. split_and!; try done; [lia| |lia]. exists (S k). split; [|lia]. by eapply breaks_later.
  - right. split; [done|]. exists s'. split; [exists (S k); split; [by eapply breaks_later|lia]|].
    rewrite H2, app_assoc, Z.add_assoc. done.
Qed.
Lemma yields_decoded n s fs rem sk :
  (length fs < n)%nat -> stream_at s fs rem sk ->
  exists s', yields next_conversation s (decoded (conversations fs)) s'
  /\ stream_at s' [] (rem ++ other_bytes fs) (sk + undecodable (conversations fs)).
Proof.
  revert s fs rem sk. induction n as [|n IH]; intros s fs rem sk Hn Hs; [lia|].
  pose proof Hs as ((t & Ha) & _). pose proof (at_fields_left _ _ _ Ha) as Hl.
  assert (Hloop : forall x, (exists k, breaks decoded_round k s x /\ (k <= S (length fs))%nat) -> next_conversation s = x).
  { intros x (k & Hb & Hk). eapply loop_breaks; [exact Hb|lia|lia]. }
  destruct (decoded_breaks (S (length fs)) s fs rem sk ltac:(lia) Hs) as [(x & b & af & m & s1 & G1 & G2 & G3 & G4 & G5 & G6)|(G1 & s' & G2 & G3)].
  - destruct (IH s1 af _ _ ltac:(lia) G5) as (s' & Hy & Hs'). exists s'. rewrite G1, G2, G3, app_assoc, Z.add_assoc.
    split; [|done]. eapply yields_next; [by apply Hloop|done].
  - exists s'. rewrite G1. split; [|done]. constructor. by apply Hloop.
Qed.

(** C20: the stream hands out the blob.  On a blob that inflates to well-formed fields, in whatever
    pieces: the calls of [next_conversation_bytes] yield the payloads of the conversations, in
    order, and end; those of [next_conversation] yield the ones that decode and count the
    others; and then [remainder] decodes exactly the bytes of all the other fields.  Asked
    for the remainder before that, it refuses. *)
Theorem history_stream_conversations compressed max all fs :
  0 <= max < 2 ^ 64 -> inflates compressed max all Ended -> frames all = Ok fs ->
  (exists s, yields next_conversation_bytes (stream_new compressed max) (conversations fs) s
     /\ stream_remainder s = ok_or (history_sync_decode (other_bytes fs)) ProtobufDecodeError)
  /\ (exists s, yields next_conversation (stream_new compressed max) (decoded (conversations fs)) s
       /\ hss_skipped s = undecodable (conversations fs)
       /\ stream_remainder s = ok_or (history_sync_decode (other_bytes fs)) ProtobufDecodeError)
  /\ (conversations fs <> [] -> stream_remainder (stream_new compressed max) = Err UnreadConversations).
Proof.
  intros Hm (k & Hd) Hf. destruct (inflates_views compressed max Hm) as (all' & e & (k' & Hd') & _ & _ & Hv).
  destruct (delivers_unique _ _ _ _ _ _ _ _ _ Hd Hd') as (-> & -> & _).
  assert (Hs : stream_at (stream_new compressed max) fs [] 0) by (split; [exists (zlen all); by exists all|done]).
  assert (Hrem : forall s rem sk, stream_at s [] rem sk -> stream_remainder s = ok_or (history_sync_decode rem) ProtobufDecodeError).
  { intros s rem sk ((t & Ha) & <- & _). unfold stream_remainder.
    destruct (conversation_loop_spec _ (hss_remainder s) _ _ Ha) as [(c & ? & ? & ? & [=] & _)|(_ & w' & -> & _)].
    cbn [mbind outcome_bind]. cbn. by rewrite app_nil_r. }
  split; [|split].
  - destruct (yields_bytes (S (length fs)) (stream_new compressed max) fs [] 0 ltac:(lia) Hs) as (s & Hy & Hs'). exists s. split; [done|]. by eapply Hrem.
  - destruct (yields_decoded (S (length fs)) (stream_new compressed max) fs [] 0 ltac:(lia) Hs) as (s & Hy & Hs'). exists s. split; [done|].
    split; [by destruct Hs' as (_ & _ & ->)|]. by eapply Hrem.
  - intros Hne. destruct Hs as ((t & Ha) & _). unfold stream_remainder.
    destruct (conversation_loop_spec _ (hss_remainder (stream_new compressed max)) _ _ Ha) as [(c & ? & ? & w' & _ & -> & _)|(H1 & _)]; [done|congruence].
Qed.
End Stream.

(** ** A concrete blob *)

(** Stored data, delivered three bytes at a time. *)
#[export] Instance stored : Inflater := {|
  decomp := unit;
  decomp_new := tt;
  decompress_vec input _ :=
    match input with
    | [] => Some (ZStreamEnd, 0, [], tt)
    | _ => Some (ZOk, Z.min 3 (zlen input), map (fun b => b mod 256) (take 3 input), tt)
    end
|}.
#[export] Instance stored_laws : InflaterLaws.
Proof.
  split; intros [|b input] [] st n out []; cbn [decompress_vec stored]; intros [= <- <- <-].
  - done.
  - rewrite zlen_cons. pose proof (zlen_nonneg input). lia.
  - constructor.
  - apply (Forall_fmap (fun b => b mod 256) is_byte (take 3 (b :: input))). apply Forall_forall. intros x _.
    unfold is_byte. apply Z.mod_pos_bound. lia.
Qed.
Lemma stored_delivers n s p max :
  are_bytes s -> zlen s <= max -> 0 <= p <= zlen s -> zlen s - p < Z.of_nat n ->
  exists k, delivers k (mkCore s p tt p max false false) (from p s) Ended (zlen s).
Proof.
  intros Hb Hm. revert p. induction n as [|n IH]; intros p Hp Hn; [lia|]. pose proof (from_length p s Hp) as Hl.
  assert (Hbf : are_bytes (from p s)) by (by apply are_bytes_from). destruct (from p s) as [|b t] eqn:Hf.
  - change (zlen (@nil byte)) with 0 in Hl. exists 1%nat. replace (zlen s) with p by lia. change (@nil byte) with ([] ++ @nil byte).
    apply (del_pump 0 _ (@mkCore stored s (p + 0) tt p max true true)); [done| |exact (del_eof (@mkCore stored s (p + 0) tt p max true true) eq_refl)].
    unfold pump_core. cbn [co_in_pos co_input co_decomp co_total_out co_max co_eof co_end]. rewrite Hf. cbn [decompress_vec stored].
    change (zlen (@nil byte)) with 0. rewrite (Z.add_0_r p). by rewrite (proj2 (Z.ltb_ge max p)) by lia.
  - set (q := Z.min 3 (zlen (b :: t))). assert (Hq : 0 < q <= zlen s - p) by (subst q; rewrite <- Hl, zlen_cons in *; pose proof (zlen_nonneg t); lia).
    destruct (IH (p + q) ltac:(lia) ltac:(lia)) as (k & Hk). exists (S k).
    assert (Htake : map (fun b => b mod 256) (take 3 (b :: t)) = upto q (from p s)).
    { rewrite <- (take_drop 3 (b :: t)) in Hbf. apply Forall_app in Hbf as [Hbf _]. rewrite Hf. unfold upto.
      replace (take (Z.to_nat q) (b :: t)) with (take 3 (b :: t)) by (subst q; unfold zlen; destruct (decide (length (b :: t) <= 3)%nat);
        [rewrite !take_ge by lia; done|f_equal; lia]).
      etransitivity; [|apply list_fmap_id]. apply list_fmap_ext. intros i x Hx. cbn. apply Z.mod_small.
      exact (Forall_lookup_1 _ _ _ _ Hbf Hx). }
    rewrite <- Hf. rewrite <- (take_drop (Z.to_nat q) (from p s)). change (drop (Z.to_nat q) (from p s)) with (from q (from p s)).
    rewrite from_twice by lia. eapply del_pump; [done| |exact Hk]. unfold pump_core.
    cbn [co_in_pos co_input co_decomp co_total_out co_max co_eof co_end]. rewrite Hf. cbn [decompress_vec stored]. fold q.
    rewrite Htake, upto_length by (rewrite Hf; lia). rewrite (proj2 (Z.ltb_ge max _)), (proj2 (Z.eqb_neq q 0)) by lia. by rewrite Hf.
Qed.
Lemma stored_inflates s max : are_bytes s -> zlen s <= max -> inflates s max s Ended.
Proof. intros Hb Hm. apply (stored_delivers (S (length s)) s 0); [done..|pose proof (zlen_nonneg s); lia|unfold zlen; lia]. Qed.
#[export] Instance plain_codec : HistoryCodec := {|
  mirror_decode _ := None;
  Conversation := bytes;
  conversation_decode b := match b with 10 :: _ => Some b | _ => None end;
  HistoryRemainder := bytes;
  history_sync_decode b := Some b
|}.

(** The user's push name, a conversation with one secret and a token, a conversation that does
    not decode, and a salt. *)
Definition demo_message : bytes := [10; 20; 10; 3; 26; 1; 77; 24; 5; 18; 6; 154; 2; 3; 26; 1; 9; 138; 3; 2; 8; 8].
Definition demo_conversation : bytes := [10; 3; 97; 64; 98] ++ [18; 22] ++ demo_message ++ [170; 1; 1; 4; 176; 1; 50].
Definition demo_blob : bytes :=
  [58; 6; 10; 1; 109; 18; 1; 110] ++ [18; 36] ++ demo_conversation ++ [18; 2; 80; 1] ++ [154; 1; 2; 6; 6].
Definition demo_result : HistorySyncResult :=
  mkResult (Some [110]) (Some [6; 6]) 2 [mkCandidate [97; 64; 98] [4] 50 None]
    [mkSecretRecord [97; 64; 98] false None None [77] (secret_from [8; 8]) (Some 5) false false] None 55.

Lemma demo_extracted : process_history_sync_streaming demo_blob (Some [109]) 1000 = Ok demo_result.
Proof. vm_compute. reflexivity. Qed.
Lemma demo_inflates : inflates demo_blob 1000 demo_blob Ended.
Proof.
  apply stored_inflates; [|done]. apply (bool_decide_unpack _). vm_compute. exact I.
Qed.
Definition demo_frames : list RawField := match frames demo_blob with Ok fs => fs | _ => [] end.
Lemma demo_framed :
  frames demo_blob = Ok demo_frames /\ conversations demo_frames = [demo_conversation; [80; 1]]
  /\ other_bytes demo_frames = [58; 6; 10; 1; 109; 18; 1; 110; 154; 1; 2; 6; 6].
Proof. vm_compute. done. Qed.

Lemma history_sync_streams_witness :
  process_history_sync_streaming demo_blob (Some [109]) 1000 = Ok demo_result
  /\ exists all e, inflates demo_blob 1000 all e /\ zlen all <= 1000
     /\ match e with
        | Ended =>
            match reference_full_walk all (Some [109]) with
            | Ok r => process_history_sync_streaming demo_blob (Some [109]) 1000 = Ok r
            | Panic => process_history_sync_streaming demo_blob (Some [109]) 1000 = Err MalformedProtobuf
            | Err _ | Timeout => False
            end
        | _ => exists er, process_history_sync_streaming demo_blob (Some [109]) 1000 = Err er
        end.
Proof. split; [exact demo_extracted|]. apply (history_sync_streams demo_blob (Some [109]) 1000). lia. Defined.
Lemma history_stream_conversations_witness :
  (exists s, yields next_conversation_bytes (stream_new demo_blob 1000) (conversations demo_frames) s
     /\ stream_remainder s = ok_or (history_sync_decode (other_bytes demo_frames)) ProtobufDecodeError)
  /\ (exists s, yields next_conversation (stream_new demo_blob 1000) (decoded (conversations demo_frames)) s
       /\ hss_skipped s = undecodable (conversations demo_frames)
       /\ stream_remainder s = ok_or (history_sync_decode (other_bytes demo_frames)) ProtobufDecodeError)
  /\ (conversations demo_frames <> [] -> stream_remainder (stream_new demo_blob 1000) = Err UnreadConversations).
Proof.
  apply (history_stream_conversations demo_blob 1000 demo_blob demo_frames); [lia|exact demo_inflates|exact (proj1 demo_framed)].
Defined.

(** A message with two wrappers: the first leads to the base message, and the second is not
    well-formed.  Only wrappers on the way to the base are ever read, so the fast pass gives a
    record; decoding the whole message, which the contract of [fast_extract] is stated against,
    fails. *)
Definition unread_wrapper : bytes :=
  [10; 21] ++ [10; 3; 26; 1; 77] ++ [18; 9] ++ [250; 1; 2; 18; 0; 194; 2; 1; 255] ++ [138; 3; 2; 8; 8].
Lemma unread_wrapper_accepted :
  fast_extract unread_wrapper = Ok (Record_ (mkFastRecord false [77] None None None [8; 8] false false))
  /\ each_field (A := unit) [255] (fun _ _ => Ok tt) tt = Err WMalformed.
Proof. split; vm_compute; reflexivity. Qed.
