(* ===== verification/Companion.v ===== *)
(** * The platform a companion device reports

    [wacore/src/companion_reg.rs]: the one-byte id and the display name that a device being
    linked announces, from the platform type of its properties. *)

From stdpp Require Import prelude strings.
From S2P Require Import Prelude.

#[local] Open Scope Z_scope.

Definition NATIVE_CAMERA_DEEP_LINK_PREFIX : bytes := str "https://wa.me/settings/linked_devices#".

Inductive CompanionWebClientType : Type :=
  | CChrome | CEdge | CFirefox | CIe | COpera | CSafari | CElectron | CUwp | COtherWebClient
  | CAndroidTablet | CAndroidPhone | CAndroidAmbiguous.
#[export] Instance CompanionWebClientType_eq_dec : EqDecision CompanionWebClientType.
Proof. solve_decision. Defined.

Definition wire_byte (t : CompanionWebClientType) : byte :=
  match t with
  | CChrome => 49 | CEdge => 50 | CFirefox => 51 | CIe => 52 | COpera => 53 | CSafari => 54 | CElectron => 55
  | CUwp => 56 | COtherWebClient => 57 | CAndroidTablet => 100 | CAndroidPhone => 101 | CAndroidAmbiguous => 102
  end.
(** [Display] *)
Definition client_type_fmt (t : CompanionWebClientType) : bytes := [wire_byte t].

Definition companion_browser_name (t : CompanionWebClientType) : bytes :=
  match t with
  | CChrome => str "Chrome" | CEdge => str "Edge" | CFirefox => str "Firefox" | CIe => str "IE"
  | COpera => str "Opera" | CSafari => str "Safari"
  | CElectron | CUwp | COtherWebClient | CAndroidTablet | CAndroidPhone | CAndroidAmbiguous => str "Chrome"
  end.

(** [DeviceProps::PlatformType], by its number on the wire. *)
Inductive PlatformType : Type :=
  | PUnknown | PChrome | PFirefox | PIe | POpera | PSafari | PEdge | PDesktop | PIpad | PAndroidTablet | POhana
  | PAloha | PCatalina | PTclTv | PIosPhone | PIosCatalyst | PAndroidPhone | PAndroidAmbiguous | PWearOs
  | PArWrist | PArDevice | PUwp | PVr | PCloudApi | PSmartglasses.
Definition platform_types : list PlatformType :=
  [PUnknown; PChrome; PFirefox; PIe; POpera; PSafari; PEdge; PDesktop; PIpad; PAndroidTablet; POhana; PAloha; PCatalina;
   PTclTv; PIosPhone; PIosCatalyst; PAndroidPhone; PAndroidAmbiguous; PWearOs; PArWrist; PArDevice; PUwp; PVr;
   PCloudApi; PSmartglasses].
Definition platform_try_from (v : Z) : option PlatformType :=
  if 0 <=? v then platform_types !! Z.to_nat v else None.

Definition companion_web_client_type_for_platform (p : PlatformType) : CompanionWebClientType :=
  match p with
  | PChrome => CChrome | PFirefox => CFirefox | PIe => CIe | POpera => COpera | PSafari => CSafari | PEdge => CEdge
  | PDesktop => CElectron | PUwp => CUwp
  | PAndroidPhone | PAndroidTablet | PAndroidAmbiguous => CChrome
  | PUnknown | PIpad | POhana | PAloha | PCatalina | PTclTv | PIosPhone | PIosCatalyst | PWearOs | PArWrist
  | PArDevice | PVr | PCloudApi | PSmartglasses => COtherWebClient
  end.

Record DeviceProps : Type := mkProps { dp_os : option bytes; dp_platform_type : option Z }.
Definition companion_web_client_type_for_props (props : DeviceProps) : CompanionWebClientType :=
  match dp_platform_type props ≫= platform_try_from with
  | Some p => companion_web_client_type_for_platform p
  | None => COtherWebClient
  end.

(** ** [str::trim] *)

(** The characters of Unicode's [White_Space], in UTF-8. *)
Definition white_space : list bytes :=
  [[9]; [10]; [11]; [12]; [13]; [32]; [194; 133]; [194; 160]; [225; 154; 128]]
  ++ ((fun b => [226; 128; b]) <$> [128; 129; 130; 131; 132; 133; 134; 135; 136; 137; 138; 168; 169; 175])
  ++ [[226; 129; 159]; [227; 128; 128]].
Fixpoint strip_one (ws : list bytes) (s : bytes) : option bytes :=
  match ws with
  | [] => None
  | w :: ws => if bytes_eqb (take (length w) s) w then Some (drop (length w) s) else strip_one ws s
  end.
Fixpoint strip_all (n : nat) (ws : list bytes) (s : bytes) : bytes :=
  match n with
  | O => s
  | S n => match strip_one ws s with Some s => strip_all n ws s | None => s end
  end.
Definition trim_start (ws : list bytes) (s : bytes) : bytes := strip_all (length s) ws s.
Definition str_trim (s : bytes) : bytes :=
  rev (trim_start (@rev _ <$> white_space) (rev (trim_start white_space s))).

Definition companion_platform_display (t : CompanionWebClientType) (os : bytes) : bytes :=
  let os := str_trim os in
  let os := if bool_decide (os = []) then str "Linux" else os in
  match t with
  | CAndroidPhone | CAndroidTablet | CAndroidAmbiguous => str "Android (" ++ os ++ str ")"
  | _ => companion_browser_name t ++ str " (" ++ os ++ str ")"
  end.

(** ** What the server sees *)

Lemma wire_byte_inj a b : wire_byte a = wire_byte b -> a = b.
Proof. by destruct a, b. Qed.
Lemma wire_byte_plain t : wire_byte t <> 44 /\ wire_byte t <> 48 /\ is_byte (wire_byte t).
Proof. unfold is_byte. by destruct t. Qed.
(** No property leads to an id that needs attestation. *)
Lemma derived_type_web props :
  companion_web_client_type_for_props props ∉ [CAndroidTablet; CAndroidPhone; CAndroidAmbiguous].
Proof.
  unfold companion_web_client_type_for_props. destruct (_ ≫= _) as [[]|]; apply (bool_decide_unpack _); vm_compute; exact I.
Qed.
Lemma strip_one_shorter ws s s' : Forall (fun w => w <> []) ws -> strip_one ws s = Some s' -> (length s' < length s)%nat.
Proof.
  induction 1 as [|w ws Hw _ IH]; cbn; [done|]. destruct (bytes_eqb _ _) eqn:Hb; [|done]. intros [= <-].
  apply bytes_eqb_eq in Hb. assert (length w <= length s)%nat by (rewrite <- Hb, length_take; lia).
  rewrite length_drop. destruct w; [done|]. cbn in *. lia.
Qed.
(** The loop of [trim_start] has enough rounds: nothing is left to strip. *)
Lemma trim_start_done ws s : Forall (fun w => w <> []) ws -> strip_one ws (trim_start ws s) = None.
Proof.
  intros Hws. unfold trim_start. remember (length s) as n eqn:Hn. assert (Hle : (length s <= n)%nat) by lia. clear Hn.
  revert s Hle. induction n as [|n IH]; intros s Hle; cbn [strip_all].
  - destruct (strip_one ws s) as [s'|] eqn:Hs; [|done]. pose proof (strip_one_shorter _ _ _ Hws Hs). lia.
  - destruct (strip_one ws s) as [s'|] eqn:Hs; [|done]. pose proof (strip_one_shorter _ _ _ Hws Hs). apply IH. lia.
Qed.
