(* ===== verification/Pairing.v ===== *)
(** * Pairing and device verification

    [wacore/src/pair.rs] and [wacore/src/adv.rs]: the QR code of a device that wants to be
    linked, the check of the signed identity the phone answers with and the counter-signature,
    the check of that identity by other devices, and the key-index list that says which devices
    of an account are still valid.  The phone is the one of the tests.

    Messages of prost, base64 and AES-CTR are parameters; HMAC, HKDF and AES-GCM are those of
    the Signal and Noise files.  Random bytes are arguments.  Of an error only the code and the
    text that is sent are kept. *)

From stdpp Require Import prelude strings countable.
From S2P Require Import Prelude Jid Node Noise Curve SignalBase Companion.

#[local] Open Scope Z_scope.

(** ** Messages *)

Record SignedDeviceIdentity : Type := mkSigned {
  sd_details : option bytes; sd_account_signature_key : option bytes; sd_account_signature : option bytes;
  sd_device_signature : option bytes
}.
Record SignedIdentityHmac : Type := mkHmac {
  sh_details : option bytes; sh_hmac : option bytes; sh_account_type : option Z
}.
Record DeviceIdentity : Type := mkIdentity {
  di_raw_id : option Z; di_timestamp : option Z; di_key_index : option Z; di_account_type : option Z; di_device_type : option Z
}.
Record SignedKeyIndexList : Type := mkSignedList {
  sk_details : option bytes; sk_account_signature : option bytes; sk_account_signature_key : option bytes
}.
Record KeyIndexList : Type := mkIndexList {
  ki_raw_id : option Z; ki_timestamp : option Z; ki_current_index : option Z; ki_valid_indexes : list Z;
  ki_account_type : option Z
}.
(** [AdvEncryptionType::Hosted] *)
Definition HOSTED : Z := 1.

Class PairCodec : Type := {
  base64_encode : bytes -> bytes;
  base64_decode : bytes -> option bytes;
  encode_signed : SignedDeviceIdentity -> bytes;
  decode_signed : bytes -> option SignedDeviceIdentity;
  encode_hmac : SignedIdentityHmac -> bytes;
  decode_hmac : bytes -> option SignedIdentityHmac;
  decode_identity : bytes -> option DeviceIdentity;
  decode_signed_list : bytes -> option SignedKeyIndexList;
  decode_index_list : bytes -> option KeyIndexList;
  (** [Aes256Ctr::new(key, iv).apply_keystream(text)] *)
  ctr_apply : bytes -> bytes -> bytes -> bytes
}.
(** Decoding inverts encoding; a base64 text has no comma and is empty for no input only; the
    keystream is an involution that keeps the length. *)
Class PairCodecLaws {PC : PairCodec} : Prop := {
  base64_inverse b : base64_decode (base64_encode b) = Some b;
  base64_plain b : 44 ∉ base64_encode b;
  base64_nonempty b : b <> [] -> base64_encode b <> [];
  signed_inverse s : decode_signed (encode_signed s) = Some s;
  hmac_inverse s : decode_hmac (encode_hmac s) = Some s;
  ctr_involutive k iv b : ctr_apply k iv (ctr_apply k iv b) = b;
  ctr_length k iv b : zlen (ctr_apply k iv b) = zlen b
}.

(** ** [str::split] *)

Fixpoint split_go (c : byte) (s acc : bytes) : list bytes :=
  match s with
  | [] => [rev acc]
  | x :: s => if x =? c then rev acc :: split_go c s [] else split_go c s (x :: acc)
  end.
Definition str_split (c : byte) (s : bytes) : list bytes := split_go c s [].
Definition strip_prefix (p s : bytes) : option bytes :=
  if bytes_eqb (take (length p) s) p then Some (drop (length p) s) else None.

(** ** [PairUtils] *)

Record DeviceState : Type := mkState { ds_identity_key : KeyPair; ds_noise_key : KeyPair; ds_adv_secret_key : bytes }.
Record PairCryptoError : Type := mkPairError { pe_code : Z; pe_text : bytes }.
Definition internal_error : PairCryptoError := mkPairError 500 (str "internal-error").
Inductive QrError : Type := QrFields | QrEmptyField | QrBase64 | QrKeyLength.

Definition ADV_PREFIX_ACCOUNT_SIGNATURE : bytes := [6; 0].
Definition ADV_PREFIX_DEVICE_SIGNATURE : bytes := [6; 1].
Definition ADV_HOSTED_PREFIX_ACCOUNT_SIGNATURE : bytes := [6; 5].
Definition ADV_HOSTED_PREFIX_DEVICE_SIGNATURE : bytes := [6; 6].
Definition account_prefix (hosted : bool) : bytes :=
  if hosted then ADV_HOSTED_PREFIX_ACCOUNT_SIGNATURE else ADV_PREFIX_ACCOUNT_SIGNATURE.
Definition device_prefix (hosted : bool) : bytes :=
  if hosted then ADV_HOSTED_PREFIX_DEVICE_SIGNATURE else ADV_PREFIX_DEVICE_SIGNATURE.

Definition build_ack_node (request_node : Node) : option Node :=
  match attrs_get (node_attrs request_node) (str "from"), attrs_get (node_attrs request_node) (str "id") with
  | Some to, Some id =>
      Some (builder_build (builder_attrs (builder_new (str "iq"))
              [(str "to", VString (value_as_str to)); (str "id", VString (value_as_str id));
               (str "type", VString (str "result"))]))
  | _, _ => None
  end.
Definition build_ack_node_ref (request_node : NodeRef) : option Node :=
  to ← get_attr request_node (str "from");
  id ← get_attr request_node (str "id");
  Some (builder_build (builder_attrs (builder_new (str "iq"))
          [(str "to", VString (value_ref_as_str to)); (str "id", VString (value_ref_as_str id));
           (str "type", VString (str "result"))])).
Definition SERVER_JID : bytes := str "s.whatsapp.net".
Definition build_pair_error_node (req_id : bytes) (code : Z) (text : bytes) : Node :=
  let error_node :=
    builder_build (builder_attrs (builder_new (str "error"))
      [(str "code", VString (itoa code)); (str "text", VString text)]) in
  builder_build (builder_children (builder_attrs (builder_new (str "iq"))
    [(str "to", VString SERVER_JID); (str "type", VString (str "error")); (str "id", VString req_id)]) [error_node]).
Definition build_pair_success_response (req_id self_signed_identity_bytes : bytes) (key_index : Z) : Node :=
  let response_content :=
    builder_build (builder_children (builder_new (str "pair-device-sign"))
      [builder_build (builder_bytes (builder_attr (builder_new (str "device-identity"))
         (str "key-index") (VString (itoa key_index))) self_signed_identity_bytes)]) in
  builder_build (builder_children (builder_attrs (builder_new (str "iq"))
    [(str "to", VString SERVER_JID); (str "id", VString req_id); (str "type", VString (str "result"))])
    [response_content]).
Definition build_master_pair_iq (master_jid : Jid) (encrypted_message req_id : bytes) : Node :=
  let response_content :=
    builder_build (builder_bytes (builder_attr (builder_new (str "pair-device-sign"))
      (str "jid") (VJid master_jid)) encrypted_message) in
  builder_build (builder_children (builder_attrs (builder_new (str "iq"))
    [(str "to", VString SERVER_JID); (str "type", VString (str "set")); (str "id", VString req_id);
     (str "xmlns", VString (str "md"))]) [response_content]).

Section Pairing.
Context {DK : Dalek} {SC : SignalCrypto} {C : Crypto} {PC : PairCodec}.

Definition make_qr_data (st : DeviceState) (ref_str : bytes) (client_type : CompanionWebClientType) : bytes :=
  let noise_b64 := base64_encode (public_key_bytes (kp_public (ds_noise_key st))) in
  let identity_b64 := base64_encode (public_key_bytes (kp_public (ds_identity_key st))) in
  let adv_b64 := base64_encode (ds_adv_secret_key st) in
  ref_str ++ [44] ++ noise_b64 ++ [44] ++ identity_b64 ++ [44] ++ adv_b64 ++ [44] ++ client_type_fmt client_type.

Definition key32 (b : bytes) : outcome QrError bytes := if zlen b =? 32 then Ok b else Err QrKeyLength.
Definition parse_qr_code (qr_code : bytes) : outcome QrError (bytes * bytes * bytes) :=
  let body := default qr_code (strip_prefix NATIVE_CAMERA_DEEP_LINK_PREFIX qr_code) in
  match str_split 44 body with
  | pairing_ref :: noise_b64 :: identity_b64 :: adv :: rest =>
      if bool_decide (pairing_ref = []) || bool_decide (noise_b64 = []) || bool_decide (identity_b64 = [])
         || bool_decide (adv = []) || existsb (fun p => bool_decide (p = [])) rest
      then Err QrEmptyField
      else
        noise ← ok_or (base64_decode noise_b64) QrBase64;
        identity ← ok_or (base64_decode identity_b64) QrBase64;
        noise ← key32 noise;
        identity ← key32 identity;
        Ok (pairing_ref, noise, identity)
  | _ => Err QrFields
  end.

(** The bytes a signature is over. *)
Definition account_message (hosted : bool) (details identity : bytes) : bytes :=
  account_prefix hosted ++ details ++ identity.
Definition device_message (hosted : bool) (details identity account_key : bytes) : bytes :=
  device_prefix hosted ++ details ++ identity ++ account_key.
(** The HMAC of the container; the prefix is there for hosted accounts only. *)
Definition container_mac (adv_secret : bytes) (hosted : bool) (details : bytes) : bytes :=
  hmac_sha256_signal adv_secret ((if hosted then ADV_HOSTED_PREFIX_ACCOUNT_SIGNATURE else []) ++ details).

Definition do_pair_crypto (st : DeviceState) (device_identity_bytes random : bytes)
    : outcome PairCryptoError (bytes * Z) :=
  container ← ok_or (decode_hmac device_identity_bytes) internal_error;
  let hosted := bool_decide (sh_account_type container = Some HOSTED) in
  details_bytes ← ok_or (sh_details container) internal_error;
  hmac_bytes ← ok_or (sh_hmac container) internal_error;
  if negb (bytes_eqb (container_mac (ds_adv_secret_key st) hosted details_bytes) hmac_bytes)
  then Err (mkPairError 401 (str "hmac-mismatch"))
  else
    signed ← ok_or (decode_signed details_bytes) internal_error;
    let account_key := default [] (sd_account_signature_key signed) in
    let account_sig := default [] (sd_account_signature signed) in
    let inner := default [] (sd_details signed) in
    let identity := public_key_bytes (kp_public (ds_identity_key st)) in
    account_public_key ← map_err (fun _ => mkPairError 401 (str "invalid-key")) (from_djb_public_key_bytes account_key);
    if negb (public_verify account_public_key [account_message hosted inner identity] account_sig)
    then Err (mkPairError 401 (str "signature-mismatch"))
    else
      signature ← map_err (fun _ => internal_error)
        (snd (calculate_signature (kp_private (ds_identity_key st)) [device_message hosted inner identity account_key] random));
      let signed := mkSigned (sd_details signed) (sd_account_signature_key signed) (sd_account_signature signed)
                      (Some signature) in
      identity_details ← ok_or (decode_identity inner) internal_error;
      Ok (encode_signed signed, default 0 (di_key_index identity_details)).

(** The phone simulation: the adv secret is that of the master itself. *)
Definition prepare_master_pairing_message (st : DeviceState) (pairing_ref dut_noise_pub dut_identity_pub : bytes)
    (master_ephemeral : KeyPair) : outcome unit bytes :=
  let ephemeral_pub := public_key_bytes (kp_public master_ephemeral) in
  let account_signature :=
    hmac_sha256_signal (ds_adv_secret_key st) (ADV_PREFIX_ACCOUNT_SIGNATURE ++ dut_identity_pub ++ ephemeral_pub) in
  their_public_key ← map_err (fun _ => tt) (from_djb_public_key_bytes dut_noise_pub);
  let shared_secret := calculate_agreement (kp_private master_ephemeral) their_public_key in
  let final_message := account_signature ++ ephemeral_pub ++ public_key_bytes (kp_public (ds_identity_key st)) in
  let encryption_key := hkdf_signal None shared_secret (str "WA-Ads-Key") 32 in
  map_err (fun _ => tt) (gcm_encrypt encryption_key (replicate 12 0) pairing_ref final_message).

(** ** [adv.rs] *)

Inductive AdvValidation : Type := AdvValid | AdvInvalid | AdvNoAccountKey.
#[export] Instance AdvValidation_eq_dec : EqDecision AdvValidation.
Proof. solve_decision. Defined.

(** The account key: that of the blob if there is one, else the one the caller trusts. *)
Definition adv_account_key (signed : SignedDeviceIdentity) (fallback : option bytes) : option bytes :=
  match sd_account_signature_key signed with
  | Some (b :: k) => Some (b :: k)
  | _ => fallback
  end.
Definition validate_adv_with_identity_key (device_identity_bytes fetched_identity_key : bytes)
    (account_identity_fallback : option bytes) : AdvValidation :=
  match decode_signed device_identity_bytes with
  | None => AdvInvalid
  | Some signed =>
      match sd_details signed, sd_account_signature signed, sd_device_signature signed with
      | Some details, Some account_sig, Some device_sig =>
          match adv_account_key signed account_identity_fallback with
          | None => AdvNoAccountKey
          | Some account_key =>
              match from_djb_public_key_bytes account_key, from_djb_public_key_bytes fetched_identity_key with
              | Ok account_pub, Ok device_pub =>
                  if existsb (fun hosted =>
                       public_verify account_pub [account_message hosted details fetched_identity_key] account_sig
                       && public_verify device_pub [device_message hosted details fetched_identity_key account_key] device_sig)
                     [false; true]
                  then AdvValid else AdvInvalid
              | _, _ => AdvInvalid
              end
          end
      | _, _, _ => AdvInvalid
      end
  end.

Record DecodedKeyIndex : Type := mkDecodedIndex {
  dk_raw_id : Z; dk_timestamp : Z; dk_current_index : Z; dk_valid_indexes : list Z
}.
Definition decode_key_index_list (signed_bytes : bytes) : option DecodedKeyIndex :=
  signed ← decode_signed_list signed_bytes;
  details_bytes ← sk_details signed;
  key_index ← decode_index_list details_bytes;
  raw_id ← ki_raw_id key_index;
  timestamp ← ki_timestamp key_index;
  Some (mkDecodedIndex raw_id timestamp (default 0 (ki_current_index key_index)) (ki_valid_indexes key_index)).

Record DeviceInfo : Type := mkDeviceInfo { dev_device_id : Z; dev_key_index : option Z }.
#[export] Instance DeviceInfo_eq_dec : EqDecision DeviceInfo.
Proof. solve_decision. Defined.
Definition is_key_index_valid (key_index : option Z) (decoded : DecodedKeyIndex) : bool :=
  match key_index with
  | Some ki => bool_decide (ki ∈ dk_valid_indexes decoded) || (dk_current_index decoded <? ki)
  | None => false
  end.
Definition keeps_device (decoded : DecodedKeyIndex) (d : DeviceInfo) : bool :=
  if dev_device_id d =? 0 then true
  else match dev_key_index d with
       | Some ki => bool_decide (ki ∈ dk_valid_indexes decoded) || (dk_current_index decoded <? ki)
       | None => false
       end.
Definition filter_devices_by_key_index (devices : list DeviceInfo) (decoded : DecodedKeyIndex) : list DeviceInfo :=
  filter (fun d => keeps_device decoded d = true) devices.

(** ** The phone of the tests *)

(** [build_pair_success_payload]: an account signs the details with the identity of the device
    and seals the result under the adv secret. *)
Definition build_pair_success_payload (identity : bytes) (account : KeyPair) (inner adv_secret : bytes)
    (hosted : bool) (random : bytes) : outcome CurveError bytes :=
  sig ← snd (calculate_signature (kp_private account) [account_message hosted inner identity] random);
  let signed := encode_signed (mkSigned (Some inner) (Some (public_key_bytes (kp_public account))) (Some sig) None) in
  Ok (encode_hmac (mkHmac (Some signed) (Some (container_mac adv_secret hosted signed)) (Some (if hosted then 1 else 0)))).

(** [signed_identity_opts]: what a companion publishes, with or without the account key. *)
Definition signed_identity_opts (account device : KeyPair) (details : bytes) (hosted include_account_key : bool)
    (random1 random2 : bytes) : outcome CurveError bytes :=
  let identity := public_key_bytes (kp_public device) in
  let account_key := public_key_bytes (kp_public account) in
  account_sig ← snd (calculate_signature (kp_private account) [account_message hosted details identity] random1);
  device_sig ← snd (calculate_signature (kp_private device) [device_message hosted details identity account_key] random2);
  Ok (encode_signed (mkSigned (Some details) (if include_account_key then Some account_key else None)
                       (Some account_sig) (Some device_sig))).
End Pairing.

(** ** Splitting *)

Lemma split_go_end c s acc : c ∉ s -> split_go c s acc = [rev acc ++ s].
Proof.
  revert acc. induction s as [|x s IH]; intros acc Hc; cbn [split_go]; [by rewrite app_nil_r|].
  apply not_elem_of_cons in Hc as [Hx Hc]. rewrite (proj2 (Z.eqb_neq x c)) by done.
  rewrite IH by done. cbn. by rewrite <- app_assoc.
Qed.
Lemma split_go_field c a s acc : c ∉ a -> split_go c (a ++ [c] ++ s) acc = (rev acc ++ a) :: split_go c s [].
Proof.
  revert acc. induction a as [|x a IH]; intros acc Hc; cbn [app split_go].
  - by rewrite Z.eqb_refl, app_nil_r.
  - apply not_elem_of_cons in Hc as [Hx Hc]. rewrite (proj2 (Z.eqb_neq x c)) by done.
    cbn [app] in IH. rewrite IH by done. cbn. by rewrite <- app_assoc.
Qed.
Lemma str_split_end c s : c ∉ s -> str_split c s = [s].
Proof. apply (split_go_end c s []). Qed.
Lemma str_split_field c a s : c ∉ a -> str_split c (a ++ [c] ++ s) = a :: str_split c s.
Proof. apply (split_go_field c a s []). Qed.
Lemma strip_prefix_app p s : strip_prefix p (p ++ s) = Some s.
Proof. unfold strip_prefix. by rewrite take_app_length, bytes_eqb_refl, drop_app_length. Qed.

(** ** What pairing promises *)

Section Theorems.
Context {DK : Dalek} {DL : DalekLaws} {SC : SignalCrypto} {C : Crypto} {PC : PairCodec} {PL : PairCodecLaws}.

(** What [KeyPair::generate] gives. *)
Definition keypair_wf (kp : KeyPair) : Prop :=
  private_wf (kp_private kp) /\ kp_public kp = public_key (kp_private kp).
Lemma keypair_public_len kp : keypair_wf kp -> zlen (public_key_bytes (kp_public kp)) = 32.
Proof. intros [_ ->]. apply public_key_wf. Qed.
Lemma keypair_djb kp : keypair_wf kp -> from_djb_public_key_bytes (public_key_bytes (kp_public kp)) = Ok (kp_public kp).
Proof.
  intros Hk. unfold from_djb_public_key_bytes. rewrite keypair_public_len by done. by destruct (kp_public kp).
Qed.
Lemma keypair_signs kp message random :
  keypair_wf kp ->
  exists sig, snd (calculate_signature (kp_private kp) message random) = Ok sig
  /\ public_verify (kp_public kp) message sig = true.
Proof.
  intros [Hk ->]. destruct (calculate_signature_ok _ message random Hk) as (sig & Hs & _ & Hv & _).
  exists sig. by rewrite Hs.
Qed.
Lemma djb_key b k : from_djb_public_key_bytes b = Ok k -> k = mkPublicKey b /\ zlen b = 32.
Proof.
  unfold from_djb_public_key_bytes. destruct (Z.eqb_spec (zlen b) PUBLIC_KEY_LENGTH); [|done]. by intros [= <-].
Qed.
Lemma public_eta k : mkPublicKey (public_key_bytes k) = k.
Proof. by destruct k. Qed.
Lemma verify_nonempty k m s : public_verify k m s = true -> s <> [].
Proof. by intros Hv ->. Qed.

(** A blob whose two signatures verify under one prefix family is valid, whatever key the
    caller holds; with the key left out it is valid for that key. *)
Lemma validate_signed details account_key account_sig device_sig identity hosted key fallback :
  zlen account_key = 32 -> zlen identity = 32 ->
  (key = Some account_key \/ (key = None /\ fallback = Some account_key)) ->
  public_verify (mkPublicKey account_key) [account_message hosted details identity] account_sig = true ->
  public_verify (mkPublicKey identity) [device_message hosted details identity account_key] device_sig = true ->
  validate_adv_with_identity_key
    (encode_signed (mkSigned (Some details) key (Some account_sig) (Some device_sig))) identity fallback = AdvValid.
Proof.
  intros Hak Hid Hkey Hacc Hdev. unfold validate_adv_with_identity_key. rewrite signed_inverse.
  cbn [sd_details sd_account_signature sd_device_signature].
  replace (adv_account_key _ _) with (Some account_key)
    by (unfold adv_account_key; cbn; destruct Hkey as [-> | [-> ->]]; [by destruct account_key|done]).
  unfold from_djb_public_key_bytes. rewrite Hak, Hid. cbn [PUBLIC_KEY_LENGTH Z.eqb Pos.eqb existsb].
  destruct hosted; rewrite Hacc, Hdev; cbn; by rewrite ?orb_true_r.
Qed.

(** Acceptance is authenticated, and what is returned is a valid identity.  If [do_pair_crypto]
    accepts a container, its HMAC is that of the secret the device has shown in its QR code, and
    the account has signed the details together with the identity key of this very device.  The
    identity it returns keeps the account's part and carries a signature that any device accepts:
    with its account key in it, or without it by those that know the account key. *)
Lemma pairing_sound st blob random out key_index :
  keypair_wf (ds_identity_key st) ->
  do_pair_crypto st blob random = Ok (out, key_index) ->
  let identity := public_key_bytes (kp_public (ds_identity_key st)) in
  exists container body hosted signed account_key account_sig device_sig,
    decode_hmac blob = Some container /\ sh_details container = Some body
    /\ hosted = bool_decide (sh_account_type container = Some HOSTED)
    /\ sh_hmac container = Some (container_mac (ds_adv_secret_key st) hosted body)
    /\ decode_signed body = Some signed
    /\ sd_account_signature_key signed = Some account_key /\ sd_account_signature signed = Some account_sig
    /\ public_verify (mkPublicKey account_key)
         [account_message hosted (default [] (sd_details signed)) identity] account_sig = true
    /\ out = encode_signed (mkSigned (sd_details signed) (Some account_key) (Some account_sig) (Some device_sig))
    /\ public_verify (kp_public (ds_identity_key st))
         [device_message hosted (default [] (sd_details signed)) identity account_key] device_sig = true
    /\ forall details, sd_details signed = Some details ->
         (forall fallback, validate_adv_with_identity_key out identity fallback = AdvValid)
         /\ validate_adv_with_identity_key
              (encode_signed (mkSigned (Some details) None (Some account_sig) (Some device_sig)))
              identity (Some account_key) = AdvValid.
Proof.
  intros Hid. unfold do_pair_crypto. cbn [mbind outcome_bind].
  destruct (decode_hmac blob) as [container|] eqn:Hc; [|done]. cbn [ok_or mbind outcome_bind].
  destruct (sh_details container) as [body|] eqn:Hbody; [|done]. cbn [ok_or mbind outcome_bind].
  destruct (sh_hmac container) as [mac|] eqn:Hmac; [|done]. cbn [ok_or mbind outcome_bind].
  set (hosted := bool_decide _). destruct (bytes_eqb _ _) eqn:Heq; cbn [negb]; [|done]. apply bytes_eqb_eq in Heq.
  destruct (decode_signed body) as [signed|] eqn:Hsd; [|done]. cbn [ok_or mbind outcome_bind].
  set (ak := default [] (sd_account_signature_key signed)). set (asig := default [] (sd_account_signature signed)).
  destruct (from_djb_public_key_bytes ak) as [ap|e| |] eqn:Hap; try done. cbn [map_err mbind outcome_bind].
  apply djb_key in Hap as [-> Hakl]. destruct (public_verify _ _ asig) eqn:Hv; cbn [negb]; [|done].
  destruct (keypair_signs (ds_identity_key st)
    [device_message hosted (default [] (sd_details signed)) (public_key_bytes (kp_public (ds_identity_key st))) ak] random Hid)
    as (dsig & Hds & Hdv). rewrite Hds. cbn [map_err mbind outcome_bind].
  destruct (decode_identity _) as [di|]; [|done]. cbn [ok_or mbind outcome_bind]. intros [= <- <-].
  assert (Hak : sd_account_signature_key signed = Some ak).
  { subst ak. destruct (sd_account_signature_key signed); [done|]. by cbn in Hakl. }
  assert (Has : sd_account_signature signed = Some asig).
  { subst asig. destruct (sd_account_signature signed); [done|]. by apply verify_nonempty in Hv. }
  exists container, body, hosted, signed, ak, asig, dsig. rewrite Hak, Has, Hmac, Heq. split_and!; try done.
  intros details Hdet. rewrite Hdet in *. cbn [default from_option id] in Hv, Hdv.
  pose proof (keypair_public_len _ Hid) as Hidl.
  split; [intros fallback|]; (eapply validate_signed; [exact Hakl|exact Hidl| |exact Hv|by rewrite public_eta]); [by left|by right].
Qed.

(** The phone's answer is accepted, and gives the key index of its details. *)
Lemma honest_phone_accepted st account inner hosted r1 r2 d :
  keypair_wf (ds_identity_key st) -> keypair_wf account -> decode_identity inner = Some d ->
  exists payload out,
    build_pair_success_payload (public_key_bytes (kp_public (ds_identity_key st))) account inner
      (ds_adv_secret_key st) hosted r1 = Ok payload
    /\ do_pair_crypto st payload r2 = Ok (out, default 0 (di_key_index d))
    /\ (exists signed, decode_signed out = Some signed)
    /\ forall fallback,
         validate_adv_with_identity_key out (public_key_bytes (kp_public (ds_identity_key st))) fallback = AdvValid.
Proof.
  intros Hid Hacc Hd. unfold build_pair_success_payload.
  destruct (keypair_signs account [account_message hosted inner (public_key_bytes (kp_public (ds_identity_key st)))] r1 Hacc)
    as (sig & -> & Hv).
  destruct (keypair_signs (ds_identity_key st) [device_message hosted inner (public_key_bytes (kp_public (ds_identity_key st)))
    (public_key_bytes (kp_public account))] r2 Hid) as (dsig & Hds & Hdv).
  eexists _, (encode_signed (mkSigned (Some inner) (Some (public_key_bytes (kp_public account))) (Some sig) (Some dsig))).
  split; [reflexivity|]. split; [|split; [by rewrite signed_inverse; eexists|]].
  2:{ intros fallback. apply (validate_signed _ (public_key_bytes (kp_public account)) _ _ _ hosted);
        [by apply keypair_public_len..|by left| |]; by rewrite public_eta. }
  unfold do_pair_crypto. rewrite hmac_inverse. cbn [ok_or mbind outcome_bind sh_details sh_hmac sh_account_type].
  replace (bool_decide (Some (if hosted then 1 else 0) = Some HOSTED)) with hosted by (by destruct hosted).
  rewrite bytes_eqb_refl, signed_inverse. cbn [negb ok_or mbind outcome_bind sd_details sd_account_signature_key sd_account_signature default from_option id].
  rewrite keypair_djb by done. cbn [map_err mbind outcome_bind]. rewrite Hv, Hds. cbn [negb map_err mbind outcome_bind].
  by rewrite Hd.
Qed.
(** A container sealed under another secret is refused, when the HMACs differ. *)
Lemma other_secret_refused st identity account inner adv hosted r1 r2 payload :
  build_pair_success_payload identity account inner adv hosted r1 = Ok payload ->
  (forall m, hmac_sha256_signal adv m <> hmac_sha256_signal (ds_adv_secret_key st) m) ->
  do_pair_crypto st payload r2 = Err (mkPairError 401 (str "hmac-mismatch")).
Proof.
  unfold build_pair_success_payload. destruct (snd (calculate_signature _ _ _)) as [sig|e| |]; try done. intros [= <-] Hne.
  unfold do_pair_crypto. rewrite hmac_inverse. cbn [ok_or mbind outcome_bind sh_details sh_hmac sh_account_type].
  replace (bool_decide (Some (if hosted then 1 else 0) = Some HOSTED)) with hosted by (by destruct hosted).
  unfold container_mac. rewrite (proj2 (bytes_eqb_neq _ _)) by (intros He; by eapply Hne). done.
Qed.

(** The key in a blob wins over the key the caller trusts, so a blob that is signed throughout
    with keys of the sender's own choice is valid for every caller. *)
Lemma self_signed_valid account device details hosted r1 r2 fallback :
  keypair_wf account -> keypair_wf device ->
  exists blob, signed_identity_opts account device details hosted true r1 r2 = Ok blob
  /\ validate_adv_with_identity_key blob (public_key_bytes (kp_public device)) fallback = AdvValid.
Proof.
  intros Ha Hd. unfold signed_identity_opts.
  destruct (keypair_signs account [account_message hosted details (public_key_bytes (kp_public device))] r1 Ha) as (s1 & -> & Hv1).
  destruct (keypair_signs device [device_message hosted details (public_key_bytes (kp_public device))
    (public_key_bytes (kp_public account))] r2 Hd) as (s2 & -> & Hv2).
  eexists. split; [reflexivity|].
  apply (validate_signed _ (public_key_bytes (kp_public account)) _ _ _ hosted); [by apply keypair_public_len..|by left| |];
    by rewrite public_eta.
Qed.

(** ** The QR code *)

Lemma strip_prefix_spec p s r : strip_prefix p s = Some r <-> s = p ++ r.
Proof.
  split; [|intros ->; apply strip_prefix_app]. unfold strip_prefix. destruct (bytes_eqb _ _) eqn:Hb; [|done].
  intros [= <-]. apply bytes_eqb_eq in Hb. rewrite <- Hb at 1. by rewrite take_drop.
Qed.
(** A prefix without the separator is one of the first field. *)
Lemma prefix_in_field c (p a s r : bytes) : c ∉ p -> a ++ [c] ++ s = p ++ r -> exists r', a = p ++ r'.
Proof.
  revert p. induction a as [|x a IH]; intros [|y p] Hc; cbn; [by exists []| |by eexists|].
  - intros [= <- _]. by apply not_elem_of_cons in Hc as [? _].
  - intros [= <- He]. apply not_elem_of_cons in Hc as [_ Hc]. destruct (IH p Hc He) as (r' & ->). by exists r'.
Qed.
Lemma link_prefix_plain : 44 ∉ NATIVE_CAMERA_DEEP_LINK_PREFIX.
Proof. apply (bool_decide_unpack _). vm_compute. exact I. Qed.

(** Fields after the last, each behind a comma. *)
Definition more_fields (fs : list bytes) : bytes := concat (cons 44 <$> fs).
Lemma str_split_more a fs :
  44 ∉ a -> Forall (fun f => 44 ∉ f) fs -> str_split 44 (a ++ more_fields fs) = a :: fs.
Proof.
  intros Ha Hfs. revert a Ha. induction Hfs as [|f fs Hf _ IH]; intros a Ha.
  - unfold more_fields. cbn. rewrite app_nil_r. by apply str_split_end.
  - change (more_fields (f :: fs)) with ([44] ++ f ++ more_fields fs). by rewrite str_split_field, IH.
Qed.
Lemma key_nonempty kp : keypair_wf kp -> base64_encode (public_key_bytes (kp_public kp)) <> [].
Proof.
  intros Hk. apply base64_nonempty. intros He. pose proof (keypair_public_len kp Hk) as Hl. by rewrite He in Hl.
Qed.

(** A QR code is read back.  With the link of the native camera in front of it or not, and
    with further fields behind it, the reference and both public keys come out as they went in;
    the reference may be any text without a comma that is not itself such a link. *)
Lemma qr_roundtrip st ref_str client_type (link : bool) (more : list bytes) :
  keypair_wf (ds_identity_key st) -> keypair_wf (ds_noise_key st) -> ds_adv_secret_key st <> [] ->
  ref_str <> [] -> 44 ∉ ref_str ->
  (forall r, ref_str <> NATIVE_CAMERA_DEEP_LINK_PREFIX ++ r) ->
  Forall (fun f => f <> [] /\ 44 ∉ f) more ->
  parse_qr_code ((if link then NATIVE_CAMERA_DEEP_LINK_PREFIX else []) ++ make_qr_data st ref_str client_type ++ more_fields more)
  = Ok (ref_str, public_key_bytes (kp_public (ds_noise_key st)), public_key_bytes (kp_public (ds_identity_key st))).
Proof.
  intros Hid Hno Hadv Href Hcomma Hlink Hmore.
  assert (Hbody : default ((if link then NATIVE_CAMERA_DEEP_LINK_PREFIX else []) ++ make_qr_data st ref_str client_type ++ more_fields more)
    (strip_prefix NATIVE_CAMERA_DEEP_LINK_PREFIX ((if link then NATIVE_CAMERA_DEEP_LINK_PREFIX else []) ++ make_qr_data st ref_str client_type ++ more_fields more))
    = make_qr_data st ref_str client_type ++ more_fields more).
  { destruct link; [by rewrite strip_prefix_app|]. cbn [app]. destruct (strip_prefix _ _) as [r|] eqn:Hs; [|done].
    exfalso. apply strip_prefix_spec in Hs. unfold make_qr_data in Hs. rewrite <- app_assoc in Hs.
    destruct (prefix_in_field 44 _ ref_str _ r link_prefix_plain Hs) as (r' & He). by eapply Hlink. }
  unfold parse_qr_code. rewrite Hbody. unfold make_qr_data. rewrite <- !app_assoc.
  rewrite !str_split_field by (done || apply base64_plain).
  rewrite str_split_more; [|unfold client_type_fmt; pose proof (wire_byte_plain client_type); intros ?%list_elem_of_singleton; lia
    |eapply List.Forall_impl; [|exact Hmore]; by intros ? []].
  rewrite !bool_decide_eq_false_2 by (done || by apply key_nonempty || by apply base64_nonempty).
  cbn [orb existsb]. rewrite bool_decide_eq_false_2 by done. cbn [orb].
  assert (He : existsb (fun p => bool_decide (p = [])) more = false).
  { clear Hbody. induction Hmore as [|f fs [Hf _] _ IH]; [done|]. cbn. by rewrite bool_decide_eq_false_2, IH. }
  rewrite He, !base64_inverse. cbn [ok_or mbind outcome_bind]. unfold key32.
  by rewrite !keypair_public_len.
Qed.

(** ** Key indexes *)

(** The filter keeps the primary device and, of the others, those that would be added now. *)
Lemma filter_devices_spec devices decoded d :
  d ∈ filter_devices_by_key_index devices decoded
  <-> d ∈ devices /\ (dev_device_id d = 0 \/ is_key_index_valid (dev_key_index d) decoded = true).
Proof.
  unfold filter_devices_by_key_index, keeps_device, is_key_index_valid. rewrite list_elem_of_filter.
  destruct (Z.eqb_spec (dev_device_id d) 0); naive_solver.
Qed.
Lemma filter_devices_idem devices decoded :
  filter_devices_by_key_index (filter_devices_by_key_index devices decoded) decoded
  = filter_devices_by_key_index devices decoded.
Proof.
  unfold filter_devices_by_key_index. induction devices as [|d ds IH]; [done|]. rewrite !filter_cons.
  destruct (decide (keeps_device decoded d = true)); [|done]. rewrite filter_cons, decide_True by done. by rewrite IH.
Qed.
End Theorems.

(** ** An instance *)

(** Messages are numbered; a text shifts the characters from the comma on. *)
Definition numbered_encode {A} `{Countable A} (a : A) : bytes := [Zpos (encode a)].
Definition numbered_decode {A} `{Countable A} (b : bytes) : option A :=
  match b with [Zpos p] => decode p | _ => None end.
Lemma numbered_inverse {A} `{Countable A} (a : A) : numbered_decode (numbered_encode a) = Some a.
Proof. apply decode_encode. Qed.

Definition signed_tuple (s : SignedDeviceIdentity) :=
  (sd_details s, sd_account_signature_key s, sd_account_signature s, sd_device_signature s).
Definition hmac_tuple (s : SignedIdentityHmac) := (sh_details s, sh_hmac s, sh_account_type s).

#[export] Instance toy_pair_codec : PairCodec := {|
  base64_encode b := (fun x => if x <? 44 then x else x + 1) <$> b;
  base64_decode b := Some ((fun x => if x <? 44 then x else x - 1) <$> b);
  encode_signed s := numbered_encode (signed_tuple s);
  decode_signed b := '(d, k, a, g) ← numbered_decode b; Some (mkSigned d k a g);
  encode_hmac s := numbered_encode (hmac_tuple s);
  decode_hmac b := '(d, h, t) ← numbered_decode b; Some (mkHmac d h t);
  decode_identity b := match b with [i] => Some (mkIdentity None None (Some i) None None) | _ => None end;
  decode_signed_list b := Some (mkSignedList (Some b) None None);
  decode_index_list b := match b with r :: t :: c :: l => Some (mkIndexList (Some r) (Some t) (Some c) l None) | _ => None end;
  ctr_apply k iv b := b
|}.
#[export] Instance toy_pair_laws : PairCodecLaws (PC := toy_pair_codec).
Proof.
  split; cbn [base64_encode base64_decode encode_signed decode_signed encode_hmac decode_hmac ctr_apply toy_pair_codec]; try done.
  - intros b. f_equal. rewrite <- list_fmap_compose. etransitivity; [|apply list_fmap_id]. apply list_fmap_ext. intros _ x _.
    cbn. destruct (Z.ltb_spec x 44); [by rewrite (proj2 (Z.ltb_lt x 44))|]. rewrite (proj2 (Z.ltb_ge (x + 1) 44)); lia.
  - intros b (x & He & _)%list_elem_of_fmap. destruct (Z.ltb_spec x 44); lia.
  - by intros [|x b].
  - intros s. rewrite numbered_inverse. by destruct s.
  - intros s. rewrite numbered_inverse. by destruct s.
Qed.

Definition demo_keys (n : Z) : KeyPair := keypair_generate (replicate 32 n).
Lemma demo_keys_wf n : is_byte n -> keypair_wf (demo_keys n).
Proof. intros Hn. apply keypair_generate_wf; [done|]. by apply Forall_replicate. Qed.
Definition demo_state : DeviceState := mkState (demo_keys 9) (demo_keys 11) (replicate 32 1).

Lemma qr_roundtrip_witness :
  parse_qr_code (NATIVE_CAMERA_DEEP_LINK_PREFIX ++ make_qr_data demo_state (str "2@ref") CFirefox
    ++ more_fields [str "https://faq.whatsapp.com/r/ld"])
  = Ok (str "2@ref", public_key_bytes (kp_public (demo_keys 11)), public_key_bytes (kp_public (demo_keys 9))).
Proof.
  apply (qr_roundtrip demo_state (str "2@ref") CFirefox true [str "https://faq.whatsapp.com/r/ld"]);
    [by apply demo_keys_wf|by apply demo_keys_wf|done|done|apply (bool_decide_unpack _); vm_compute; exact I|done|].
  constructor; [|constructor]. split; [done|]. apply (bool_decide_unpack _); vm_compute; exact I.
Defined.

Lemma pairing_sound_witness :
  exists blob out, do_pair_crypto demo_state blob [] = Ok (out, 5)
  /\ let identity := public_key_bytes (kp_public (ds_identity_key demo_state)) in
     exists container body hosted signed account_key account_sig device_sig,
       decode_hmac blob = Some container /\ sh_details container = Some body
       /\ hosted = bool_decide (sh_account_type container = Some HOSTED)
       /\ sh_hmac container = Some (container_mac (ds_adv_secret_key demo_state) hosted body)
       /\ decode_signed body = Some signed
       /\ sd_account_signature_key signed = Some account_key /\ sd_account_signature signed = Some account_sig
       /\ public_verify (mkPublicKey account_key)
            [account_message hosted (default [] (sd_details signed)) identity] account_sig = true
       /\ out = encode_signed (mkSigned (sd_details signed) (Some account_key) (Some account_sig) (Some device_sig))
       /\ public_verify (kp_public (ds_identity_key demo_state))
            [device_message hosted (default [] (sd_details signed)) identity account_key] device_sig = true
       /\ forall details, sd_details signed = Some details ->
            (forall fallback, validate_adv_with_identity_key out identity fallback = AdvValid)
            /\ validate_adv_with_identity_key
                 (encode_signed (mkSigned (Some details) None (Some account_sig) (Some device_sig)))
                 identity (Some account_key) = AdvValid.
Proof.
  destruct (honest_phone_accepted demo_state (demo_keys 13) [5] true [] [] (mkIdentity None None (Some 5) None None))
    as (blob & out & _ & Hp & _); [by apply demo_keys_wf|by apply demo_keys_wf|reflexivity|].
  exists blob, out. split; [exact Hp|]. apply (pairing_sound demo_state blob [] out 5); [by apply demo_keys_wf|exact Hp].
Defined.
