(* ===== verification/PairCode.v ===== *)
(** * Linking with a code

    [wacore/src/pair_code.rs]: the eight characters a user types on the phone, the keys derived
    from them, and the key bundle by which both sides agree on a new adv secret.

    Random bytes are arguments.  HKDF expands to 32 bytes, which never fails.  [open_bundle] and
    [primary_adv_secret] are not code of the repository: they say what a phone that holds the
    private keys finds in a bundle. *)

From stdpp Require Import prelude strings.
From S2P Require Import Prelude Jid Node Noise Curve SignalBase Companion Pairing.

#[local] Open Scope Z_scope.

Definition PAIR_CODE_PBKDF2_ITERATIONS : Z := 131072.
Definition PAIR_CODE_VALIDITY_SECS : Z := 180.
Definition CROCKFORD_ALPHABET : bytes := str "123456789ABCDEFGHJKLMNPQRSTVWXYZ".

(** The reference, the number, the code and the key pair wait for the phone. *)
Inductive PairCodeState : Type :=
  | PairIdle
  | PairWaiting (pairing_ref phone_jid pair_code : bytes) (ephemeral_keypair : KeyPair)
  | PairCompleted.

Inductive PairCodeError : Type :=
  | PhoneNumberRequired | PhoneNumberTooShort | PhoneNumberNotInternational | InvalidCustomCode
  | InvalidWrappedData (expected got : Z)
  | InvalidPrimaryEphemeralKey (e : CurveError) | InvalidPrimaryIdentityKey (e : CurveError)
  | BundleAead | NotWaiting | MissingPairingRef.

Record PairCodeOptions : Type := mkOptions {
  po_phone_number : bytes; po_show_push_notification : bool; po_custom_code : option bytes;
  po_platform_id : option CompanionWebClientType
}.
Definition for_phone (phone_number : bytes) : PairCodeOptions := mkOptions phone_number true None None.

Definition build_id_and_display (id : CompanionWebClientType) (props : DeviceProps) : CompanionWebClientType * bytes :=
  (id, companion_platform_display id (default [] (dp_os props))).
Definition derive_companion_platform (props : DeviceProps) : CompanionWebClientType * bytes :=
  build_id_and_display (companion_web_client_type_for_props props) props.
Definition resolve_companion_platform (options : PairCodeOptions) (props : DeviceProps) : CompanionWebClientType * bytes :=
  build_id_and_display (default (companion_web_client_type_for_props props) (po_platform_id options)) props.

(** ** The code *)

Definition to_ascii_uppercase (b : byte) : byte := if (97 <=? b) && (b <=? 122) then b - 32 else b.
Definition validate_code (code : bytes) : bool :=
  (zlen code =? 8) && forallb (fun b => bool_decide (to_ascii_uppercase b ∈ CROCKFORD_ALPHABET)) code.

Definition accumulate (l : bytes) : Z := fold_left (fun acc b => Z.lor (wrap 64 (Z.shiftl acc 8)) b) l 0.
Definition crockford_digit (acc i : Z) : byte :=
  nth (Z.to_nat (Z.land (Z.shiftr acc (i * 5)) 31)) CROCKFORD_ALPHABET 0.
Definition encode_crockford (l : bytes) : bytes := crockford_digit (accumulate l) <$> [7; 6; 5; 4; 3; 2; 1; 0].
Definition generate_code (random : bytes) : bytes := encode_crockford random.

(** ** Nodes *)

Definition bytes_node (tag content : bytes) : Node := builder_build (builder_bytes (builder_new tag) content).
Definition link_code_iq (reg : Node) (req_id : bytes) : Node :=
  builder_build (builder_children (builder_attrs (builder_new (str "iq"))
    [(str "xmlns", VString (str "md")); (str "type", VString (str "set")); (str "to", VString SERVER_JID);
     (str "id", VString req_id)]) [reg]).
Definition bool_text (b : bool) : bytes := if b then str "true" else str "false".
Definition build_companion_hello_iq (phone_number noise_static_pub wrapped_ephemeral platform_id platform_display : bytes)
    (show_push_notification : bool) (req_id : bytes) : Node :=
  link_code_iq (builder_build (builder_children (builder_attrs (builder_new (str "link_code_companion_reg"))
    [(str "jid", VString (phone_number ++ str "@s.whatsapp.net")); (str "stage", VString (str "companion_hello"));
     (str "should_show_push_notification", VString (bool_text show_push_notification))])
    [bytes_node (str "link_code_pairing_wrapped_companion_ephemeral_pub") wrapped_ephemeral;
     bytes_node (str "companion_server_auth_key_pub") noise_static_pub;
     bytes_node (str "companion_platform_id") platform_id;
     bytes_node (str "companion_platform_display") platform_display;
     bytes_node (str "link_code_pairing_nonce") (str "0")])) req_id.
Definition build_companion_finish_iq (phone_number wrapped_key_bundle identity_pub pairing_ref req_id : bytes) : Node :=
  link_code_iq (builder_build (builder_children (builder_attrs (builder_new (str "link_code_companion_reg"))
    [(str "jid", VString (phone_number ++ str "@s.whatsapp.net")); (str "stage", VString (str "companion_finish"))])
    [bytes_node (str "link_code_pairing_wrapped_key_bundle") wrapped_key_bundle;
     bytes_node (str "companion_identity_public") identity_pub;
     bytes_node (str "link_code_pairing_ref") pairing_ref])) req_id.
Definition parse_companion_hello_response (node : NodeRef) : option bytes :=
  reg ← get_optional_child_by_tag node [str "link_code_companion_reg"];
  n ← get_optional_child_by_tag reg [str "link_code_pairing_ref"];
  content_bytes n.

Section PairCode.
Context {DK : Dalek} {SC : SignalCrypto} {C : Crypto} {PC : PairCodec}.

(** ** Keys *)

Definition xor_into (acc u : bytes) : bytes := zip_with Z.lxor acc u.
(** One chunk of the output, [len] bytes at most 32. *)
Definition pbkdf2_chunk (password salt : bytes) (rounds i : Z) (len : nat) : bytes :=
  let u := hmac_sha256_signal password (salt ++ to_be_bytes 4 (wrap 32 (i + 1))) in
  snd (Z.iter (rounds - 1)
    (fun '(u, chunk) => let u := hmac_sha256_signal password u in (u, xor_into chunk u)) (u, take len u)).
Fixpoint pbkdf2_chunks (n : nat) (password salt : bytes) (rounds i len : Z) : bytes :=
  match n with
  | O => []
  | S n =>
      if len <=? 0 then []
      else pbkdf2_chunk password salt rounds i (Z.to_nat (Z.min 32 len))
           ++ pbkdf2_chunks n password salt rounds (i + 1) (len - 32)
  end.
Definition pbkdf2_hmac_sha256 (password salt : bytes) (rounds len : Z) : bytes :=
  pbkdf2_chunks (Z.to_nat len) password salt rounds 0 len.

Definition derive_key (code salt : bytes) : bytes := pbkdf2_hmac_sha256 code salt PAIR_CODE_PBKDF2_ITERATIONS 32.

Definition encrypt_ephemeral_pub (ephemeral_pub code salt iv : bytes) : bytes :=
  salt ++ iv ++ ctr_apply (derive_key code salt) iv ephemeral_pub.
Definition decrypt_primary_ephemeral_pub (wrapped pair_code : bytes) : outcome PairCodeError bytes :=
  if negb (zlen wrapped =? 80) then Err (InvalidWrappedData 80 (zlen wrapped))
  else
    let salt := upto 32 wrapped in
    let iv := upto 16 (from 32 wrapped) in
    let ciphertext := from 48 wrapped in
    Ok (ctr_apply (derive_key pair_code salt) iv ciphertext).

Definition bundle_key (salt ephemeral_shared : bytes) : bytes :=
  hkdf_signal (Some salt) ephemeral_shared (str "link_code_pairing_key_bundle_encryption_key") 32.
Definition adv_secret_of (ephemeral_shared identity_shared random : bytes) : bytes :=
  hkdf_signal None (ephemeral_shared ++ identity_shared ++ random) (str "adv_secret") 32.

Definition prepare_key_bundle (ephemeral_keypair : KeyPair) (primary_ephemeral_pub primary_identity_pub : bytes)
    (identity_key : KeyPair) (random_bytes key_bundle_salt iv : bytes) : outcome PairCodeError (bytes * bytes) :=
  primary_eph_pub ← map_err InvalidPrimaryEphemeralKey (from_djb_public_key_bytes primary_ephemeral_pub);
  primary_id_pub ← map_err InvalidPrimaryIdentityKey (from_djb_public_key_bytes primary_identity_pub);
  let ephemeral_shared := calculate_agreement (kp_private ephemeral_keypair) primary_eph_pub in
  let identity_shared := calculate_agreement (kp_private identity_key) primary_id_pub in
  let new_adv_secret := adv_secret_of ephemeral_shared identity_shared random_bytes in
  let bundle := public_key_bytes (kp_public identity_key) ++ primary_identity_pub ++ random_bytes in
  sealed ← map_err (fun _ => BundleAead) (gcm_encrypt (bundle_key key_bundle_salt ephemeral_shared) iv [] bundle);
  Ok (key_bundle_salt ++ iv ++ sealed, new_adv_secret).

(** ** What the phone can do *)

(** The identity of the companion and the random bytes in a bundle. *)
Definition open_bundle (primary_ephemeral : KeyPair) (companion_ephemeral_pub : PublicKey) (wrapped : bytes)
    : option (bytes * bytes) :=
  let shared := calculate_agreement (kp_private primary_ephemeral) companion_ephemeral_pub in
  match gcm_decrypt (bundle_key (upto 32 wrapped) shared) (upto 12 (from 32 wrapped)) [] (from 44 wrapped) with
  | Ok bundle => Some (upto 32 bundle, from 64 bundle)
  | _ => None
  end.
Definition primary_adv_secret (primary_ephemeral primary_identity : KeyPair) (companion_ephemeral_pub companion_identity : PublicKey)
    (random : bytes) : bytes :=
  adv_secret_of (calculate_agreement (kp_private primary_ephemeral) companion_ephemeral_pub)
    (calculate_agreement (kp_private primary_identity) companion_identity) random.
End PairCode.

(** ** Codes *)

Lemma accumulate_step acc b : 0 <= acc < 2 ^ 56 -> is_byte b -> Z.lor (wrap 64 (Z.shiftl acc 8)) b = acc * 256 + b.
Proof.
  intros Ha Hb. unfold wrap. rewrite Z.mod_small by (rewrite Z.shiftl_mul_pow2; lia).
  by rewrite lor_shiftl by (unfold is_byte in Hb; lia).
Qed.
Lemma accumulate_five a b c d e :
  are_bytes [a; b; c; d; e] -> accumulate [a; b; c; d; e] = a * 2 ^ 32 + b * 2 ^ 24 + c * 2 ^ 16 + d * 2 ^ 8 + e.
Proof.
  intros Hb. unfold are_bytes in Hb. rewrite !Forall_cons in Hb. destruct Hb as (Ha & Hb & Hc & Hd & He & _).
  unfold accumulate. cbn [fold_left]. unfold is_byte in *.
  rewrite (accumulate_step 0 a), (accumulate_step (0 * 256 + a) b), (accumulate_step ((0 * 256 + a) * 256 + b) c),
    (accumulate_step (((0 * 256 + a) * 256 + b) * 256 + c) d),
    (accumulate_step ((((0 * 256 + a) * 256 + b) * 256 + c) * 256 + d) e) by (unfold is_byte; lia). lia.
Qed.
Definition group (acc i : Z) : Z := (acc / 32 ^ i) mod 32.
Lemma crockford_group acc i : 0 <= i -> crockford_digit acc i = nth (Z.to_nat (group acc i)) CROCKFORD_ALPHABET 0.
Proof.
  intros Hi. unfold crockford_digit, group. do 2 f_equal. change 31 with (Z.ones 5). rewrite Z.land_ones by lia.
  rewrite Z.shiftr_div_pow2 by lia. change 32 with (2 ^ 5). rewrite <- Z.pow_mul_r by lia. by rewrite (Z.mul_comm 5 i).
Qed.
Lemma group_range acc i : 0 <= group acc i < 32.
Proof. apply Z.mod_pos_bound. lia. Qed.
Lemma alphabet_digit n : 0 <= n < 32 -> nth (Z.to_nat n) CROCKFORD_ALPHABET 0 ∈ CROCKFORD_ALPHABET.
Proof. intros Hn. apply list_elem_of_In, nth_In. change (length CROCKFORD_ALPHABET) with 32%nat. lia. Qed.
Lemma alphabet_upper b : b ∈ CROCKFORD_ALPHABET -> to_ascii_uppercase b = b.
Proof.
  assert (H : Forall (fun b => to_ascii_uppercase b = b) CROCKFORD_ALPHABET)
    by (apply (bool_decide_unpack _); vm_compute; exact I).
  rewrite Forall_forall in H. apply H.
Qed.
Lemma alphabet_inj n m :
  0 <= n < 32 -> 0 <= m < 32 -> nth (Z.to_nat n) CROCKFORD_ALPHABET 0 = nth (Z.to_nat m) CROCKFORD_ALPHABET 0 -> n = m.
Proof.
  intros Hn Hm He. assert (Hd : NoDup CROCKFORD_ALPHABET) by (apply (bool_decide_unpack _); vm_compute; exact I).
  apply NoDup_ListNoDup in Hd. rewrite (NoDup_nth _ 0) in Hd.
  assert (Z.to_nat n = Z.to_nat m) by (apply Hd; [change (length CROCKFORD_ALPHABET) with 32%nat; lia..|done]). lia.
Qed.
(** A number below [2 ^ 40] is its eight groups. *)
Lemma groups_value acc :
  0 <= acc < 2 ^ 40 ->
  acc = group acc 0 + 32 * group acc 1 + 32 ^ 2 * group acc 2 + 32 ^ 3 * group acc 3 + 32 ^ 4 * group acc 4
        + 32 ^ 5 * group acc 5 + 32 ^ 6 * group acc 6 + 32 ^ 7 * group acc 7.
Proof. intros Ha. unfold group. Z.div_mod_to_equations. lia. Qed.

(** Every code that is generated passes the check for custom codes, and no two are the same. *)
Lemma generate_code_valid l : are_bytes l -> length l = 5%nat -> validate_code (generate_code l) = true.
Proof.
  intros _ _. unfold validate_code, generate_code, encode_crockford. cbn [fmap list_fmap forallb].
  rewrite !crockford_group by lia. change (zlen _ =? 8) with true. cbn [andb].
  rewrite !bool_decide_eq_true_2 by (rewrite alphabet_upper; apply alphabet_digit; apply group_range). done.
Qed.
Lemma generate_code_inj l l' :
  are_bytes l -> length l = 5%nat -> are_bytes l' -> length l' = 5%nat -> generate_code l = generate_code l' -> l = l'.
Proof.
  destruct l as [|a [|b [|c [|d [|e [|]]]]]]; try done. destruct l' as [|a' [|b' [|c' [|d' [|e' [|]]]]]]; try done.
  intros Hl _ Hl' _ He. unfold generate_code, encode_crockford in He. cbn [fmap list_fmap] in He.
  rewrite !crockford_group in He by lia. injection He as H7 H6 H5 H4 H3 H2 H1 H0.
  apply alphabet_inj in H7, H6, H5, H4, H3, H2, H1, H0; try apply group_range.
  pose proof (accumulate_five _ _ _ _ _ Hl) as Hacc. pose proof (accumulate_five _ _ _ _ _ Hl') as Hacc'.
  unfold are_bytes in Hl, Hl'. rewrite !Forall_cons in Hl, Hl'. unfold is_byte in *.
  assert (Heq : accumulate [a; b; c; d; e] = accumulate [a'; b'; c'; d'; e']).
  { rewrite (groups_value (accumulate [a; b; c; d; e])), (groups_value (accumulate [a'; b'; c'; d'; e'])) by lia. congruence. }
  rewrite Hacc, Hacc' in Heq. repeat f_equal; lia.
Qed.

(** ** PBKDF2 as the RFC defines it *)

Section Rfc.
Context {SC : SignalCrypto} {SL : SignalLaws}.

(** The [n] values after [u], each the HMAC of the one before. *)
Fixpoint u_after (password : bytes) (n : nat) (u : bytes) : list bytes :=
  match n with
  | O => []
  | S n => let u := hmac_sha256_signal password u in u :: u_after password n u
  end.
(** Block [i], from 1: the exclusive or of [c] values. *)
Definition rfc_block (password salt : bytes) (c i : Z) : bytes :=
  let u := hmac_sha256_signal password (salt ++ to_be_bytes 4 i) in
  fold_left xor_into (u_after password (Z.to_nat (c - 1)) u) u.
Definition rfc_pbkdf2 (password salt : bytes) (c len : Z) : bytes :=
  take (Z.to_nat len) (concat (rfc_block password salt c <$> seqZ 1 ((len + 31) / 32))).

Lemma xor_into_take n a b : xor_into (take n a) b = take n (xor_into a b).
Proof. revert a b. induction n as [|n IH]; intros [|x a] [|y b]; cbn; [done..|]. f_equal. apply IH. Qed.
Lemma xor_into_length a b : length b = 32%nat -> length a = 32%nat -> length (xor_into a b) = 32%nat.
Proof. intros Hb Ha. unfold xor_into. rewrite length_zip_with. lia. Qed.
Lemma hmac_length p m : length (hmac_sha256_signal p m) = 32%nat.
Proof. pose proof (hmac_signal_len p m) as Hl. unfold zlen in Hl. lia. Qed.
Lemma rfc_block_length p s c i : length (rfc_block p s c i) = 32%nat.
Proof.
  unfold rfc_block. generalize (hmac_length p (s ++ to_be_bytes 4 i)). generalize (Z.to_nat (c - 1)) as n.
  generalize (hmac_sha256_signal p (s ++ to_be_bytes 4 i)) at 2 as v.
  generalize (hmac_sha256_signal p (s ++ to_be_bytes 4 i)) as acc. intros acc v n. revert acc v.
  induction n as [|n IH]; intros acc v Hl; cbn [u_after fold_left]; [done|]. apply IH. apply xor_into_length; [apply hmac_length|done].
Qed.
Lemma iter_xor p n u acc len :
  snd (Nat.iter n (fun '(u, chunk) => let u := hmac_sha256_signal p u in (u, xor_into chunk u)) (u, take len acc))
  = take len (fold_left xor_into (u_after p n u) acc).
Proof.
  revert u acc. induction n as [|n IH]; intros u acc; [done|]. rewrite Nat.iter_succ_r. cbn [u_after fold_left].
  by rewrite xor_into_take, IH.
Qed.
Lemma pbkdf2_chunk_spec p s rounds i len :
  1 <= rounds -> 0 <= i < 2 ^ 32 - 1 -> pbkdf2_chunk p s rounds i len = take len (rfc_block p s rounds (i + 1)).
Proof.
  intros Hr Hi. unfold pbkdf2_chunk, rfc_block, wrap. rewrite Z.mod_small by lia.
  rewrite iter_nat_of_Z, Zabs2Nat.abs_nat_nonneg by lia. apply iter_xor.
Qed.
Lemma pbkdf2_chunks_spec n p s rounds i len :
  1 <= rounds -> 0 <= i -> len < Z.of_nat n + 1 -> 0 <= len -> i + len < 2 ^ 32 - 1 ->
  pbkdf2_chunks n p s rounds i len
  = take (Z.to_nat len) (concat (rfc_block p s rounds <$> seqZ (i + 1) ((len + 31) / 32))).
Proof.
  intros Hr. revert i len. induction n as [|n IH]; intros i len Hi Hn Hl Hb; cbn [pbkdf2_chunks].
  { by replace len with 0 by lia. }
  destruct (Z.leb_spec len 0); [by replace len with 0 by lia|].
  rewrite seqZ_cons by (Z.div_mod_to_equations; lia). cbn [fmap list_fmap concat].
  rewrite take_app, rfc_block_length, pbkdf2_chunk_spec by lia.
  destruct (Z.leb_spec len 32) as [H32|H32].
  - replace (pbkdf2_chunks n p s rounds (i + 1) (len - 32)) with (@nil byte)
      by (destruct n; cbn; [done|]; by rewrite (proj2 (Z.leb_le (len - 32) 0)) by lia).
    replace (Z.to_nat len - 32)%nat with O by lia. rewrite take_0. by rewrite Z.min_r by lia.
  - rewrite IH by lia. rewrite Z.min_l by lia. f_equal; [by rewrite !take_ge by (rewrite rfc_block_length; lia)|].
    replace (Z.to_nat len - 32)%nat with (Z.to_nat (len - 32)) by lia. unfold Z.succ.
    by replace (Z.pred ((len + 31) / 32)) with ((len - 32 + 31) / 32) by (Z.div_mod_to_equations; lia).
Qed.
(** The chunked loop over a keyed state is the function of RFC 2898. *)
Lemma pbkdf2_rfc p s rounds len :
  1 <= rounds -> 0 <= len < 2 ^ 32 - 1 -> pbkdf2_hmac_sha256 p s rounds len = rfc_pbkdf2 p s rounds len.
Proof. intros Hr Hl. unfold pbkdf2_hmac_sha256. rewrite pbkdf2_chunks_spec by lia. done. Qed.
End Rfc.
Arguments derive_key : simpl never.

(** ** Agreement *)

Section Agreement.
Context {DK : Dalek} {DL : DalekLaws} {SC : SignalCrypto} {SL : SignalLaws} {C : Crypto} {CL : CryptoLaws}
  {PC : PairCodec} {PL : PairCodecLaws}.

(** What one side wraps under the code, the other unwraps with it. *)
Lemma ephemeral_roundtrip pub code salt iv :
  zlen pub = 32 -> zlen salt = 32 -> zlen iv = 16 ->
  decrypt_primary_ephemeral_pub (encrypt_ephemeral_pub pub code salt iv) code = Ok pub.
Proof.
  intros Hp Hs Hi. unfold decrypt_primary_ephemeral_pub, encrypt_ephemeral_pub.
  set (ct := ctr_apply _ iv pub). assert (Hct : zlen ct = 32) by (subst ct; by rewrite ctr_length).
  rewrite !zlen_app, Hs, Hi, Hct. cbn [Z.add Pos.add Z.eqb Pos.eqb negb Pos.succ].
  replace (upto 32 (salt ++ iv ++ ct)) with salt by (rewrite <- Hs; by rewrite upto_app).
  replace (from 32 (salt ++ iv ++ ct)) with (iv ++ ct) by (rewrite <- Hs; by rewrite from_app).
  replace (upto 16 (iv ++ ct)) with iv by (rewrite <- Hi; by rewrite upto_app).
  replace (from 48 (salt ++ iv ++ ct)) with ct.
  2:{ replace 48 with (zlen (salt ++ iv)) by (rewrite zlen_app; lia). by rewrite app_assoc, from_app. }
  subst ct. by rewrite ctr_involutive.
Qed.
Lemma encrypt_ephemeral_length pub code salt iv :
  zlen pub = 32 -> zlen salt = 32 -> zlen iv = 16 -> zlen (encrypt_ephemeral_pub pub code salt iv) = 80.
Proof. intros Hp Hs Hi. unfold encrypt_ephemeral_pub. rewrite !zlen_app, ctr_length. lia. Qed.

Lemma agreement_keys a b :
  keypair_wf a -> keypair_wf b -> calculate_agreement (kp_private a) (kp_public b) = calculate_agreement (kp_private b) (kp_public a).
Proof. intros [Ha ->] [Hb ->]. by apply agreement_comm. Qed.

(** A phone that holds the private keys opens the bundle, finds the identity of the companion
    in it, and derives the secret that the companion has derived. *)
Lemma bundle_agreement eph identity primary_eph primary_id random salt iv wrapped adv :
  keypair_wf eph -> keypair_wf identity -> keypair_wf primary_eph -> keypair_wf primary_id ->
  zlen salt = 32 -> zlen iv = 12 ->
  prepare_key_bundle eph (public_key_bytes (kp_public primary_eph)) (public_key_bytes (kp_public primary_id))
    identity random salt iv = Ok (wrapped, adv) ->
  open_bundle primary_eph (kp_public eph) wrapped = Some (public_key_bytes (kp_public identity), random)
  /\ adv = primary_adv_secret primary_eph primary_id (kp_public eph) (kp_public identity) random.
Proof.
  intros He Hi Hpe Hpi Hs Hiv. unfold prepare_key_bundle. rewrite !keypair_djb by done. cbn [map_err mbind outcome_bind].
  destruct (gcm_encrypt _ iv [] _) as [sealed|e| |] eqn:Hg; try done. cbn [map_err mbind outcome_bind]. intros [= <- <-].
  unfold open_bundle, primary_adv_secret. rewrite (agreement_keys primary_eph eph), (agreement_keys primary_id identity) by done.
  split; [|done].
  replace (upto 32 (salt ++ iv ++ sealed)) with salt by (rewrite <- Hs; by rewrite upto_app).
  replace (from 32 (salt ++ iv ++ sealed)) with (iv ++ sealed) by (rewrite <- Hs; by rewrite from_app).
  replace (upto 12 (iv ++ sealed)) with iv by (rewrite <- Hiv; by rewrite upto_app).
  replace (from 44 (salt ++ iv ++ sealed)) with sealed.
  2:{ replace 44 with (zlen (salt ++ iv)) by (rewrite zlen_app; lia). by rewrite app_assoc, from_app. }
  rewrite (gcm_open_seal _ _ _ _ _ Hg). pose proof (keypair_public_len _ Hi) as Hil. pose proof (keypair_public_len _ Hpi) as Hpl.
  do 2 f_equal; [rewrite <- Hil; by rewrite upto_app|].
  rewrite app_assoc. replace 64 with (zlen (public_key_bytes (kp_public identity) ++ public_key_bytes (kp_public primary_id)))
    by (rewrite zlen_app; lia). by rewrite from_app.
Qed.
(** Nothing that comes from the phone makes it fail: only the sealing of the bundle can. *)
Lemma prepare_bundle_total eph identity pe pi random salt iv :
  zlen pe = 32 -> zlen pi = 32 ->
  (exists wrapped adv, prepare_key_bundle eph pe pi identity random salt iv = Ok (wrapped, adv))
  \/ prepare_key_bundle eph pe pi identity random salt iv = Err BundleAead.
Proof.
  intros Hpe Hpi. unfold prepare_key_bundle, from_djb_public_key_bytes. rewrite Hpe, Hpi. cbn [PUBLIC_KEY_LENGTH Z.eqb Pos.eqb map_err mbind outcome_bind].
  match goal with |- context [gcm_encrypt ?k ?i ?a ?p] => pose proof (gcm_encrypt_returns k i a p) as Hr; destruct (gcm_encrypt k i a p) end;
    try done; [left; eauto|by right].
Qed.
End Agreement.

(** The example of the crate's documentation is not a valid code: it has an O. *)
Lemma documented_code_invalid : validate_code (str "MYCODE12") = false.
Proof. reflexivity. Qed.
