(* ===== verification/PairFlow.v ===== *)
(** * Linking a device

    [src/pair.rs] and [src/pair_code.rs]: what the client does with a [pair-device] request, a
    [pair-success], the notification that a code was typed on the phone, and a request for a
    code.  The client is the part these handlers touch, with a log of what they cause outside:
    stanzas and queries sent, events, mappings learned, tasks started.

    Whether a send succeeds, the answer to a query, random bytes, request ids and the clock are
    arguments.  A handler runs without interruption.  The task that shows the QR codes is
    [qr_rotation]; texts of errors are left out. *)

From stdpp Require Import prelude strings.
From S2P Require Import Prelude Jid Node Noise Curve SignalBase Attrs Companion Pairing PairCode.

#[local] Open Scope Z_scope.

(** ** The client *)

(** The part of [Device]. *)
Record PairDevice : Type := mkPairDevice {
  pd_identity_key : KeyPair; pd_noise_key : KeyPair; pd_adv_secret_key : bytes; pd_pn : option Jid; pd_lid : option Jid;
  pd_account : option SignedDeviceIdentity; pd_server_has_prekeys : bool; pd_push_name : bytes; pd_device_props : DeviceProps
}.
Inductive PairCommand : Type :=
  | SetId (id : option Jid) | SetLid (lid : option Jid) | SetPushName (name : bytes)
  | SetAccount (account : option SignedDeviceIdentity) | SetAdvSecretKey (key : bytes).
Definition apply_pair_command (d : PairDevice) (cmd : PairCommand) : PairDevice :=
  let '(mkPairDevice ik nk adv pn lid acc pre name props) := d in
  match cmd with
  | SetId id => mkPairDevice ik nk adv id lid acc pre name props
  | SetLid lid => mkPairDevice ik nk adv pn lid acc pre name props
  | SetPushName name => mkPairDevice ik nk adv pn lid acc pre name props
  | SetAccount acc => mkPairDevice ik nk adv pn lid acc pre name props
  | SetAdvSecretKey adv => mkPairDevice ik nk adv pn lid acc pre name props
  end.
Definition clear_server_prekeys (d : PairDevice) : PairDevice :=
  mkPairDevice (pd_identity_key d) (pd_noise_key d) (pd_adv_secret_key d) (pd_pn d) (pd_lid d) (pd_account d) false
    (pd_push_name d) (pd_device_props d).

Record PairInfo : Type := mkPairInfo { pi_id : Jid; pi_lid : Jid; pi_business_name : bytes; pi_platform : bytes }.
Inductive PairEffect : Type :=
  | Sent (node : Node)
  | SendFailed (node : Node)
  | Queried (content : list Node) (id : bytes)
  | QrStopped
  | RotationStarted (codes : list bytes)
  | LearnedMapping (lid pn : bytes)
  | UnifiedSession
  | EventPairSuccess (info : PairInfo)
  | EventPairError (info : PairInfo)
  | EventPairingCode (code : bytes) (timeout : Z).

Record PairClient : Type := mkClient {
  pl_device : PairDevice; pl_code_state : PairCodeState; pl_cancellation : bool; pl_full_sync : bool;
  pl_expected_disconnect : bool; pl_time_offset : Z; pl_log : list PairEffect
}.
Definition set_device (d : PairDevice) (c : PairClient) : PairClient :=
  mkClient d (pl_code_state c) (pl_cancellation c) (pl_full_sync c) (pl_expected_disconnect c) (pl_time_offset c) (pl_log c).
Definition set_code_state (s : PairCodeState) (c : PairClient) : PairClient :=
  mkClient (pl_device c) s (pl_cancellation c) (pl_full_sync c) (pl_expected_disconnect c) (pl_time_offset c) (pl_log c).
Definition set_cancellation (b : bool) (c : PairClient) : PairClient :=
  mkClient (pl_device c) (pl_code_state c) b (pl_full_sync c) (pl_expected_disconnect c) (pl_time_offset c) (pl_log c).
Definition set_paired_flags (c : PairClient) : PairClient :=
  mkClient (pl_device c) (pl_code_state c) (pl_cancellation c) true true (pl_time_offset c) (pl_log c).
Definition set_time_offset (z : Z) (c : PairClient) : PairClient :=
  mkClient (pl_device c) (pl_code_state c) (pl_cancellation c) (pl_full_sync c) (pl_expected_disconnect c) z (pl_log c).
Definition emit (e : PairEffect) (c : PairClient) : PairClient :=
  mkClient (pl_device c) (pl_code_state c) (pl_cancellation c) (pl_full_sync c) (pl_expected_disconnect c) (pl_time_offset c)
    (pl_log c ++ [e]).
Definition process_command (cmd : PairCommand) (c : PairClient) : PairClient :=
  set_device (apply_pair_command (pl_device c) cmd) c.
Definition send_node (ok : bool) (n : Node) (c : PairClient) : PairClient := emit (if ok then Sent n else SendFailed n) c.

Definition device_state (c : PairClient) : DeviceState :=
  mkState (pd_identity_key (pl_device c)) (pd_noise_key (pl_device c)) (pd_adv_secret_key (pl_device c)).

(** An [i64] after wrapping. *)
Definition to_i64 (z : Z) : Z := let w := wrap 64 z in if 2 ^ 63 <=? w then w - 2 ^ 64 else w.
Definition update_server_time_offset (now_secs : Z) (node : NodeRef) (c : PairClient) : PairClient :=
  match get_attr node (str "t") with
  | Some v =>
      match parse_i64 (value_ref_as_str v) with
      | Some server_time =>
          if 0 <? server_time then set_time_offset (to_i64 ((server_time - now_secs) * 1000)) c else c
      | None => c
      end
  | None => c
  end.

(** ** A QR code at a time *)

(** The end of a wait: its time is up (and whether the client is then logged in), or it was
    told to stop. *)
Inductive Wait : Type := WTimeout (logged_in : bool) | WStop.
Inductive RotationEnd : Type := AlreadyLoggedIn | PairingComplete | AllExpired (disconnects : bool) | StillWaiting.
(** Per code, whether the client is logged in before it is shown, and how the wait ends. *)
Fixpoint qr_rotation (is_first : bool) (codes : list bytes) (world : list (bool * Wait)) (logged_in_at_end : bool)
    : list (bytes * Z) * RotationEnd :=
  match codes with
  | [] => ([], AllExpired (negb logged_in_at_end))
  | code :: codes =>
      match world with
      | [] => ([], StillWaiting)
      | (true, _) :: _ => ([], AlreadyLoggedIn)
      | (false, w) :: world =>
          let shown := (code, if is_first then 60 else 20) in
          match w with
          | WStop => ([shown], PairingComplete)
          | WTimeout true => ([shown], AlreadyLoggedIn)
          | WTimeout false =>
              let '(rest, e) := qr_rotation false codes world logged_in_at_end in (shown :: rest, e)
          end
      end
  end.

Section Flow.
Context {DK : Dalek} {SC : SignalCrypto} {C : Crypto} {PC : PairCodec}.
Context {IqError : Type}.

(** ** [pair-success] *)

Definition name_of (n : option NodeRef) : bytes :=
  match n with
  | Some n => match get_attr n (str "name") with Some v => value_ref_as_str v | None => [] end
  | None => []
  end.
Definition pair_info (success_node : NodeRef) : PairInfo :=
  let '(jid, lid) :=
    match get_optional_child_by_tag success_node [str "device"] with
    | Some device_node =>
        let '(j, p) := optional_jid (str "jid") (attr_parser_ref device_node) in
        let '(l, _) := optional_jid (str "lid") p in
        (default jid_default j, default jid_default l)
    | None => (jid_default, jid_default)
    end in
  mkPairInfo jid lid (name_of (get_optional_child_by_tag success_node [str "biz"]))
    (name_of (get_optional_child_by_tag success_node [str "platform"])).

(** The branch where the container was accepted. *)
Definition pair_accepted (send_ok : bool) (req_id : bytes) (info : PairInfo) (self_signed : bytes) (key_index : Z)
    (c : PairClient) : PairClient :=
  match decode_signed self_signed with
  | None => emit (EventPairError info) c
  | Some identity =>
      let c := process_command (SetId (Some (pi_id info))) c in
      let c := process_command (SetAccount (Some identity)) c in
      let c := process_command (SetLid (Some (pi_lid info))) c in
      let c := set_device (clear_server_prekeys (pl_device c)) c in
      let c :=
        if negb (bool_decide (j_user (pi_id info) = [])) && negb (bool_decide (j_user (pi_lid info) = []))
        then emit (LearnedMapping (j_user (pi_lid info)) (j_user (pi_id info))) c else c in
      let c :=
        if bool_decide (pi_business_name info = []) then c
        else process_command (SetPushName (pi_business_name info)) c in
      let c := send_node send_ok (build_pair_success_response req_id self_signed key_index) c in
      if send_ok then emit (EventPairSuccess info) (set_paired_flags (emit UnifiedSession c)) else c
  end.

Definition handle_pair_success (now_secs : Z) (random : bytes) (send_ok : bool) (request_node success_node : NodeRef)
    (c : PairClient) : PairClient :=
  let c := if pl_cancellation c then emit QrStopped (set_cancellation false c) else c in
  let c := set_code_state PairCompleted c in
  let c := update_server_time_offset now_secs request_node c in
  match get_attr request_node (str "id") with
  | None => c
  | Some id =>
      let req_id := value_ref_as_str id in
      match get_optional_child_by_tag success_node [str "device-identity"] ≫= content_bytes with
      | None => send_node send_ok (build_pair_error_node req_id 500 (str "internal-error")) c
      | Some device_identity_bytes =>
          let info := pair_info success_node in
          match do_pair_crypto (device_state c) device_identity_bytes random with
          | Ok (self_signed, key_index) => pair_accepted send_ok req_id info self_signed key_index c
          | Err e => emit (EventPairError info) (send_node send_ok (build_pair_error_node req_id (pe_code e) (pe_text e)) c)
          | _ => c
          end
      end
  end.

(** ** [pair-device] and the dispatch *)

Definition handle_pair_device (send_ok : bool) (node child : NodeRef) (c : PairClient) : PairClient :=
  let c := match build_ack_node_ref node with Some ack => send_node send_ok ack c | None => c end in
  let client_type := companion_web_client_type_for_props (pd_device_props (pl_device c)) in
  let code (g : NodeRef) :=
    r ← content_bytes g; if utf8_valid r then Some (make_qr_data (device_state c) r client_type) else None in
  set_cancellation true (emit (RotationStarted (omap code (get_children_by_tag child (str "ref")))) c).

Fixpoint handle_children (now_secs : Z) (random : bytes) (send_ok : bool) (node : NodeRef) (cs : list NodeRef) (c : PairClient)
    : bool * PairClient :=
  match cs with
  | [] => (false, c)
  | child :: cs =>
      if bytes_eqb (ref_tag child) (str "pair-device") then (true, handle_pair_device send_ok node child c)
      else if bytes_eqb (ref_tag child) (str "pair-success") then (true, handle_pair_success now_secs random send_ok node child c)
      else handle_children now_secs random send_ok node cs c
  end.
Definition handle_iq (now_secs : Z) (random : bytes) (send_ok : bool) (node : NodeRef) (c : PairClient) : bool * PairClient :=
  match get_attr node (str "from") with
  | Some v =>
      if bytes_eqb (value_ref_as_str v) SERVER_JID then
        match children node with
        | Some cs => handle_children now_secs random send_ok node cs c
        | None => (false, c)
        end
      else (false, c)
  | None => (false, c)
  end.

(** ** Codes *)

Inductive PairError : Type := PairCodeFailed (e : PairCodeError) | RequestFailed (e : IqError).

(** [PairCodeUtils] takes the random bytes of the code, of the key pair, the salt and the iv. *)
Record CodeRandom : Type := mkCodeRandom { cr_code : bytes; cr_keypair : bytes; cr_salt : bytes; cr_iv : bytes }.

Definition check_phone_number (digits : bytes) : outcome PairError unit :=
  if bool_decide (digits = []) then Err (PairCodeFailed PhoneNumberRequired)
  else if zlen digits <? 7 then Err (PairCodeFailed PhoneNumberTooShort)
  else match digits with 48 :: _ => Err (PairCodeFailed PhoneNumberNotInternational) | _ => Ok tt end.
Definition choose_code (custom : option bytes) (random : bytes) : outcome PairError bytes :=
  match custom with
  | Some custom =>
      if validate_code custom then Ok (to_ascii_uppercase <$> custom) else Err (PairCodeFailed InvalidCustomCode)
  | None => Ok (generate_code random)
  end.

Definition pair_with_code (options : PairCodeOptions) (r : CodeRandom) (req_id : bytes)
    (response : outcome IqError NodeRef) (c : PairClient) : outcome PairError bytes * PairClient :=
  let phone_number := filter (fun b => is_ascii_digit b = true) (po_phone_number options) in
  match (_ ← check_phone_number phone_number; choose_code (po_custom_code options) (cr_code r)) with
  | Ok code =>
      let ephemeral_keypair := keypair_generate (cr_keypair r) in
      let noise_static_pub := public_key_bytes (kp_public (pd_noise_key (pl_device c))) in
      let wrapped := encrypt_ephemeral_pub (public_key_bytes (kp_public ephemeral_keypair)) code (cr_salt r) (cr_iv r) in
      let '(platform_id, platform_display) := resolve_companion_platform options (pd_device_props (pl_device c)) in
      let iq := build_companion_hello_iq phone_number noise_static_pub wrapped (client_type_fmt platform_id) platform_display
                  (po_show_push_notification options) req_id in
      let content := match node_content iq with Some (NNodes ns) => ns | _ => [] end in
      let c := emit (Queried content req_id) c in
      match response with
      | Ok node =>
          match parse_companion_hello_response node with
          | Some pairing_ref =>
              let c := set_code_state (PairWaiting pairing_ref phone_number code ephemeral_keypair) c in
              (Ok code, emit (EventPairingCode code PAIR_CODE_VALIDITY_SECS) c)
          | None => (Err (PairCodeFailed MissingPairingRef), c)
          end
      | Err e => (Err (RequestFailed e), c)
      | Panic => (Panic, c)
      | Timeout => (Timeout, c)
      end
  | Err e => (Err e, c)
  | Panic => (Panic, c)
  | Timeout => (Timeout, c)
  end.

Definition content_of_length (n : Z) (node : NodeRef) : option bytes :=
  b ← content_bytes node; if zlen b =? n then Some b else None.
Record BundleRandom : Type := mkBundleRandom { br_random : bytes; br_salt : bytes; br_iv : bytes }.

Definition handle_pair_code_notification (r : BundleRandom) (req_id : bytes) (send_ok : bool) (node : NodeRef) (c : PairClient)
    : bool * PairClient :=
  match get_optional_child_by_tag node [str "link_code_companion_reg"] with
  | None => (false, c)
  | Some reg_node =>
      match get_optional_child_by_tag reg_node [str "link_code_pairing_wrapped_primary_ephemeral_pub"] ≫= content_of_length 80 with
      | None => (false, c)
      | Some wrapped_ephemeral =>
          match get_optional_child_by_tag reg_node [str "primary_identity_pub"] ≫= content_of_length 32 with
          | None => (false, c)
          | Some primary_identity_pub =>
              let state := pl_code_state c in
              let c := set_code_state PairIdle c in
              match state with
              | PairWaiting pairing_ref phone_jid pair_code ephemeral_keypair =>
                  match
                    (pub ← decrypt_primary_ephemeral_pub wrapped_ephemeral pair_code;
                     prepare_key_bundle ephemeral_keypair pub primary_identity_pub (pd_identity_key (pl_device c))
                       (br_random r) (br_salt r) (br_iv r))
                  with
                  | Ok (wrapped_bundle, new_adv_secret) =>
                      let c := process_command (SetAdvSecretKey new_adv_secret) c in
                      let iq := build_companion_finish_iq phone_jid wrapped_bundle
                                  (public_key_bytes (kp_public (pd_identity_key (pl_device c)))) pairing_ref req_id in
                      let c := send_node send_ok iq c in
                      if send_ok then (true, set_code_state PairCompleted c) else (false, c)
                  | _ => (false, c)
                  end
              | _ => (false, c)
              end
          end
      end
  end.

(** ** The phone simulation *)

Inductive MasterError : Type := MasterQr (e : QrError) | MasterMessage | MasterNoNumber | MasterSend.
Definition pair_with_qr_code (qr_code random req_id : bytes) (send_ok : bool) (c : PairClient)
    : outcome MasterError unit * PairClient :=
  match
    ('(pairing_ref, dut_noise_pub, dut_identity_pub) ← map_err MasterQr (parse_qr_code qr_code);
     encrypted ← map_err (fun _ => MasterMessage)
       (prepare_master_pairing_message (device_state c) pairing_ref dut_noise_pub dut_identity_pub (keypair_generate random));
     master_jid ← ok_or (pd_pn (pl_device c)) MasterNoNumber;
     Ok (build_master_pair_iq master_jid encrypted req_id))
  with
  | Ok iq => (if send_ok then Ok tt else Err MasterSend, send_node send_ok iq c)
  | Err e => (Err e, c)
  | Panic => (Panic, c)
  | Timeout => (Timeout, c)
  end.
End Flow.

(** ** The phone *)

(** The stanzas that reach the device when the code has been typed, and when it is linked. *)
Definition phone_notification (wrapped_ephemeral identity_pub : bytes) : Node :=
  builder_build (builder_children (builder_new (str "notification"))
    [builder_build (builder_children (builder_new (str "link_code_companion_reg"))
      [bytes_node (str "link_code_pairing_wrapped_primary_ephemeral_pub") wrapped_ephemeral;
       bytes_node (str "primary_identity_pub") identity_pub])]).
Definition phone_pair_success (req_id payload : bytes) (info : PairInfo) : Node :=
  builder_build (builder_children (builder_attrs (builder_new (str "iq"))
    [(str "from", VString SERVER_JID); (str "id", VString req_id)])
    [builder_build (builder_children (builder_new (str "pair-success"))
      [bytes_node (str "device-identity") payload;
       builder_build (builder_attrs (builder_new (str "device"))
         [(str "jid", VJid (pi_id info)); (str "lid", VJid (pi_lid info))]);
       builder_build (builder_attr (builder_new (str "biz")) (str "name") (VString (pi_business_name info)));
       builder_build (builder_attr (builder_new (str "platform")) (str "name") (VString (pi_platform info)))])]).
(** The wrapped key in the query of the first stage. *)
Definition hello_ephemeral (content : list Node) : option bytes :=
  match content with
  | [reg] => get_optional_child_by_tag (as_node_ref reg) [str "link_code_pairing_wrapped_companion_ephemeral_pub"] ≫= content_bytes
  | _ => None
  end.
(** The bundle in the stanza of the second. *)
Definition finish_bundle (iq : Node) : option bytes :=
  get_optional_child_by_tag (as_node_ref iq) [str "link_code_companion_reg"; str "link_code_pairing_wrapped_key_bundle"] ≫= content_bytes.

Section Linking.
Context {DK : Dalek} {DL : DalekLaws} {SC : SignalCrypto} {SL : SignalLaws} {C : Crypto} {CL : CryptoLaws}
  {PC : PairCodec} {PL : PairCodecLaws}.
Context {IqError : Type}.

Definition identity_of (c : PairClient) : KeyPair := pd_identity_key (pl_device c).
Definition digits_of (options : PairCodeOptions) : bytes := filter (fun b => is_ascii_digit b = true) (po_phone_number options).

Lemma pair_with_code_ok options r req_id resp pairing_ref code (c : PairClient) :
  check_phone_number (IqError := IqError) (digits_of options) = Ok tt ->
  choose_code (IqError := IqError) (po_custom_code options) (cr_code r) = Ok code ->
  zlen (cr_salt r) = 32 -> zlen (cr_iv r) = 16 ->
  parse_companion_hello_response resp = Some pairing_ref ->
  exists content c1, pair_with_code (IqError := IqError) options r req_id (Ok resp) c = (Ok code, c1)
  /\ pl_log c1 = pl_log c ++ [Queried content req_id; EventPairingCode code PAIR_CODE_VALIDITY_SECS]
  /\ (exists wrapped, hello_ephemeral content = Some wrapped
      /\ decrypt_primary_ephemeral_pub wrapped code = Ok (public_key_bytes (kp_public (keypair_generate (cr_keypair r)))))
  /\ pl_code_state c1 = PairWaiting pairing_ref (digits_of options) code (keypair_generate (cr_keypair r))
  /\ pl_device c1 = pl_device c /\ pl_cancellation c1 = pl_cancellation c.
Proof.
  intros Hnum Hcode Hs Hi Hresp. unfold pair_with_code. fold (digits_of options). rewrite Hnum. cbn [mbind outcome_bind].
  rewrite Hcode. destruct (resolve_companion_platform _ _) as [pid display]. rewrite Hresp.
  eexists _, _. split; [reflexivity|]. split; [cbn [pl_log emit set_code_state]; by rewrite <- app_assoc|].
  split; [|done]. eexists. split; [reflexivity|]. apply ephemeral_roundtrip; [|done..].
  cbn. apply x25519_len.
Qed.

Lemma notification_ok br req_id primary_eph primary_id psalt piv code pairing_ref phone eph (c : PairClient) :
  pl_code_state c = PairWaiting pairing_ref phone code eph ->
  keypair_wf eph -> keypair_wf (identity_of c) -> keypair_wf primary_eph -> keypair_wf primary_id ->
  zlen psalt = 32 -> zlen piv = 16 -> zlen (br_salt br) = 32 -> zlen (br_iv br) = 12 ->
  (forall k p, exists s, gcm_encrypt k (br_iv br) [] p = Ok s) ->
  exists iq wrapped adv,
    handle_pair_code_notification br req_id true
      (as_node_ref (phone_notification (encrypt_ephemeral_pub (public_key_bytes (kp_public primary_eph)) code psalt piv)
        (public_key_bytes (kp_public primary_id)))) c
    = (true, set_code_state PairCompleted (emit (Sent iq) (process_command (SetAdvSecretKey adv) (set_code_state PairIdle c))))
    /\ finish_bundle iq = Some wrapped
    /\ open_bundle primary_eph (kp_public eph) wrapped = Some (public_key_bytes (kp_public (identity_of c)), br_random br)
    /\ adv = primary_adv_secret primary_eph primary_id (kp_public eph) (kp_public (identity_of c)) (br_random br).
Proof.
  intros Hst Heph Hid Hpe Hpi Hps Hpiv Hbs Hbi Hseal.
  set (we := encrypt_ephemeral_pub (public_key_bytes (kp_public primary_eph)) code psalt piv).
  assert (Hwe : zlen we = 80) by (apply encrypt_ephemeral_length; [by apply keypair_public_len|done..]).
  unfold handle_pair_code_notification.
  change (get_optional_child_by_tag (as_node_ref (phone_notification we (public_key_bytes (kp_public primary_id)))) [str "link_code_companion_reg"])
    with (Some (as_node_ref (builder_build (builder_children (builder_new (str "link_code_companion_reg"))
      [bytes_node (str "link_code_pairing_wrapped_primary_ephemeral_pub") we;
       bytes_node (str "primary_identity_pub") (public_key_bytes (kp_public primary_id))])))). cbv iota.
  match goal with |- context [get_optional_child_by_tag ?n [str "link_code_pairing_wrapped_primary_ephemeral_pub"] ≫= _] =>
    change (get_optional_child_by_tag n [str "link_code_pairing_wrapped_primary_ephemeral_pub"] ≫= content_of_length 80)
      with (if zlen we =? 80 then Some we else None);
    change (get_optional_child_by_tag n [str "primary_identity_pub"] ≫= content_of_length 32)
      with (if zlen (public_key_bytes (kp_public primary_id)) =? 32 then Some (public_key_bytes (kp_public primary_id)) else None)
  end.
  rewrite Hwe, keypair_public_len by done. cbn [Z.eqb Pos.eqb]. rewrite Hst. subst we.
  rewrite ephemeral_roundtrip by (done || by apply keypair_public_len). cbn [mbind outcome_bind].
  change (pd_identity_key (pl_device (set_code_state PairIdle c))) with (identity_of c).
  destruct (prepare_key_bundle eph _ _ _ _ _ _) as [[wrapped adv]|e| |] eqn:Hb.
  2-4: exfalso; unfold prepare_key_bundle in Hb; rewrite !keypair_djb in Hb by done; cbn [map_err mbind outcome_bind] in Hb;
    match type of Hb with context [gcm_encrypt ?k ?i ?a ?p] => destruct (Hseal k p) as [s Hs]; rewrite Hs in Hb end; done.
  destruct (bundle_agreement _ _ _ _ _ _ _ _ _ Heph Hid Hpe Hpi Hbs Hbi Hb) as [Ho Ha].
  eexists _, wrapped, adv. split; [reflexivity|]. by split_and!.
Qed.

Lemma pair_info_phone req_id payload info :
  exists success, children (as_node_ref (phone_pair_success req_id payload info)) = Some [success]
  /\ ref_tag success = str "pair-success"
  /\ (get_optional_child_by_tag success [str "device-identity"] ≫= content_bytes) = Some payload
  /\ pair_info success = info.
Proof. eexists. split; [reflexivity|]. split; [reflexivity|]. split; [reflexivity|]. by destruct info. Qed.

#[local] Arguments build_pair_success_response : simpl never.

(** The client after an accepted [pair-success]: what it has stored, sent and said. *)
Record linked (req_id out : bytes) (key_index : Z) (info : PairInfo) (c c' : PairClient) : Prop := {
  ln_pn : pd_pn (pl_device c') = Some (pi_id info);
  ln_lid : pd_lid (pl_device c') = Some (pi_lid info);
  ln_account : pd_account (pl_device c') = decode_signed out;
  ln_prekeys : pd_server_has_prekeys (pl_device c') = false;
  ln_identity : identity_of c' = identity_of c;
  ln_state : pl_code_state c' = PairCompleted;
  ln_flags : pl_full_sync c' = true /\ pl_expected_disconnect c' = true;
  ln_log : exists l, pl_log c'
    = l ++ [Sent (build_pair_success_response req_id out key_index); UnifiedSession; EventPairSuccess info]
}.
Lemma pair_accepted_linked req_id info out identity key_index c :
  decode_signed out = Some identity -> pl_code_state c = PairCompleted ->
  linked req_id out key_index info c (pair_accepted true req_id info out key_index c).
Proof.
  intros Hd Hs. unfold pair_accepted. rewrite Hd.
  destruct c as [[ik nk adv pn lid acc pre name props] st cancel sync disc off log]. cbn in Hs. subst st.
  destruct (negb _ && negb _), (bool_decide (pi_business_name info = [])); (split; [done|done|by rewrite Hd|done|done|done|done|]);
    cbn [pl_log emit send_node set_paired_flags process_command set_device];
    [exists (log ++ [LearnedMapping (j_user (pi_lid info)) (j_user (pi_id info))])
    |exists (log ++ [LearnedMapping (j_user (pi_lid info)) (j_user (pi_id info))])|exists log|exists log]; by rewrite <- !app_assoc.
Qed.
Lemma pair_success_linked now r req_id payload info out key_index c :
  do_pair_crypto (device_state c) payload r = Ok (out, key_index) -> (exists s, decode_signed out = Some s) ->
  exists c', handle_iq now r true (as_node_ref (phone_pair_success req_id payload info)) c = (true, c')
  /\ linked req_id out key_index info c c'.
Proof.
  intros Hp [s Hs]. destruct (pair_info_phone req_id payload info) as (success & Hch & Htag & Hpay & Hinfo).
  unfold handle_iq. rewrite Hch. change (get_attr (as_node_ref (phone_pair_success req_id payload info)) (str "from"))
    with (Some (VRString SERVER_JID)). cbn [value_ref_as_str]. rewrite bytes_eqb_refl. cbn [handle_children].
  rewrite Htag. change (bytes_eqb (str "pair-success") (str "pair-device")) with false. rewrite bytes_eqb_refl. cbv iota.
  eexists. split; [reflexivity|]. unfold handle_pair_success.
  change (get_attr (as_node_ref (phone_pair_success req_id payload info)) (str "id")) with (Some (VRString req_id)).
  unfold update_server_time_offset.
  change (get_attr (as_node_ref (phone_pair_success req_id payload info)) (str "t")) with (@None ValueRef).
  cbv iota. rewrite Hpay, Hinfo. cbv iota. cbn [value_ref_as_str].
  set (c0 := set_code_state PairCompleted _). assert (H0 : device_state c0 = device_state c /\ identity_of c0 = identity_of c)
    by (subst c0; by destruct (pl_cancellation c)). destruct H0 as [-> Hid0]. rewrite Hp.
  destruct (pair_accepted_linked req_id info out s key_index c0 Hs eq_refl). split; try done. by rewrite <- Hid0.
Qed.

(** C9: a code links the device.  The client asks for a code; the query it sends carries its
    ephemeral key under that code.  A phone that was given the code sends back its own, opens
    the key bundle of the answer, finds the identity of the device in it and derives the adv
    secret that the device has stored; the [pair-success] it seals under that secret is
    accepted.  The device then has its numbers and its account, and the identity it has sent
    is valid for every other device. *)
Theorem code_links_device options r br req1 req2 req3 resp pairing_ref code primary_eph account psalt piv
    inner d hosted info now r1 r2 (c : PairClient) :
  check_phone_number (IqError := IqError) (digits_of options) = Ok tt ->
  choose_code (IqError := IqError) (po_custom_code options) (cr_code r) = Ok code ->
  zlen (cr_keypair r) = 32 -> are_bytes (cr_keypair r) -> zlen (cr_salt r) = 32 -> zlen (cr_iv r) = 16 ->
  zlen psalt = 32 -> zlen piv = 16 -> zlen (br_salt br) = 32 -> zlen (br_iv br) = 12 ->
  (forall k p, exists s, gcm_encrypt k (br_iv br) [] p = Ok s) ->
  keypair_wf (identity_of c) -> keypair_wf primary_eph -> keypair_wf account ->
  parse_companion_hello_response resp = Some pairing_ref -> decode_identity inner = Some d ->
  let eph := kp_public (keypair_generate (cr_keypair r)) in
  let identity := kp_public (identity_of c) in
  exists content c1, pair_with_code (IqError := IqError) options r req1 (Ok resp) c = (Ok code, c1)
  /\ pl_log c1 = pl_log c ++ [Queried content req1; EventPairingCode code PAIR_CODE_VALIDITY_SECS]
  /\ (exists wrapped, hello_ephemeral content = Some wrapped /\ decrypt_primary_ephemeral_pub wrapped code = Ok (public_key_bytes eph))
  /\ exists iq bundle random c2,
       handle_pair_code_notification br req2 true
         (as_node_ref (phone_notification (encrypt_ephemeral_pub (public_key_bytes (kp_public primary_eph)) code psalt piv)
           (public_key_bytes (kp_public account)))) c1 = (true, c2)
       /\ pl_log c2 = pl_log c1 ++ [Sent iq] /\ finish_bundle iq = Some bundle
       /\ open_bundle primary_eph eph bundle = Some (public_key_bytes identity, random)
       /\ let adv := primary_adv_secret primary_eph account eph identity random in
          pd_adv_secret_key (pl_device c2) = adv
          /\ exists payload out c3,
               build_pair_success_payload (public_key_bytes identity) account inner adv hosted r1 = Ok payload
               /\ handle_iq now r2 true (as_node_ref (phone_pair_success req3 payload info)) c2 = (true, c3)
               /\ linked req3 out (default 0 (di_key_index d)) info c2 c3
               /\ forall fallback, validate_adv_with_identity_key out (public_key_bytes identity) fallback = AdvValid.
Proof.
  intros Hnum Hcode Hkl Hkb Hs Hi Hps Hpiv Hbs Hbi Hseal Hid Hpe Hacc Hresp Hd eph identity.
  destruct (pair_with_code_ok options r req1 resp pairing_ref code c Hnum Hcode Hs Hi Hresp)
    as (content & c1 & H1 & Hl1 & Hw & Hst & Hdev & _).
  exists content, c1. split; [exact H1|]. split; [exact Hl1|]. split; [exact Hw|].
  assert (Heph : keypair_wf (keypair_generate (cr_keypair r))) by (by apply keypair_generate_wf).
  assert (Hid1 : identity_of c1 = identity_of c) by (unfold identity_of; by rewrite Hdev).
  destruct (notification_ok br req2 primary_eph account psalt piv code pairing_ref (digits_of options) _ c1 Hst Heph
    ltac:(by rewrite Hid1) Hpe Hacc Hps Hpiv Hbs Hbi Hseal) as (iq & bundle & adv & H2 & Hf & Ho & Ha).
  rewrite Hid1 in Ho, Ha. fold eph identity in Ho, Ha.
  set (c2 := set_code_state PairCompleted _) in H2. exists iq, bundle, (br_random br), c2.
  assert (Hadv : pd_adv_secret_key (pl_device c2) = adv /\ identity_of c2 = identity_of c).
  { rewrite <- Hid1. subst c2. destruct c1 as [[]]. done. }
  destruct Hadv as [Hadv Hid2]. split; [exact H2|]. split; [done|]. split; [exact Hf|]. split; [exact Ho|].
  cbv zeta. rewrite <- Ha. split; [exact Hadv|].
  destruct (honest_phone_accepted (device_state c2) account inner hosted r1 r2 d) as (payload & out & Hp & Hx & Hs' & Hv);
    [change (ds_identity_key (device_state c2)) with (identity_of c2); by rewrite Hid2|done|done|].
  change (ds_identity_key (device_state c2)) with (identity_of c2) in Hp. rewrite Hid2 in Hp.
  change (ds_adv_secret_key (device_state c2)) with (pd_adv_secret_key (pl_device c2)) in Hp. rewrite Hadv in Hp.
  destruct (pair_success_linked now r2 req3 payload info out _ c2 Hx Hs') as (c3 & H3 & Hln).
  exists payload, out, c3. split_and!; [done..|]. change (ds_identity_key (device_state c2)) with (identity_of c2) in Hv.
  rewrite Hid2 in Hv. intros fallback. apply Hv.
Qed.

(** ** Any sequence of calls *)

Inductive PairCall : Type :=
  | CallIq (now : Z) (random : bytes) (send_ok : bool) (node : NodeRef)
  | CallCode (options : PairCodeOptions) (r : CodeRandom) (req_id : bytes) (response : outcome IqError NodeRef)
  | CallNotification (r : BundleRandom) (req_id : bytes) (send_ok : bool) (node : NodeRef).
Definition pair_call (call : PairCall) (c : PairClient) : PairClient :=
  match call with
  | CallIq now random ok node => snd (handle_iq now random ok node c)
  | CallCode options r req_id response => snd (pair_with_code options r req_id response c)
  | CallNotification r req_id ok node => snd (handle_pair_code_notification r req_id ok node c)
  end.
Definition pair_calls (calls : list PairCall) (c : PairClient) : PairClient := fold_left (fun c x => pair_call x c) calls c.

(** The bytes of a device identity that the server delivers: the content of [device-identity] in
    a [pair-success] of the stanza. *)
Definition delivered (call : PairCall) (blob : bytes) : Prop :=
  exists now random ok node success cs,
    call = CallIq now random ok node /\ (value_ref_as_str <$> get_attr node (str "from")) = Some SERVER_JID
    /\ children node = Some cs /\ success ∈ cs /\ ref_tag success = str "pair-success"
    /\ (get_optional_child_by_tag success [str "device-identity"] ≫= content_bytes) = Some blob.

(** A delivered container that the code accepts with the secret of the moment. *)
Definition accepts (call : PairCall) (c : PairClient) (out : bytes) (key_index : Z) : Prop :=
  exists blob random, delivered call blob /\ do_pair_crypto (device_state c) blob random = Ok (out, key_index).

(** What a call may do to the device: nothing, a new adv secret, or the link. *)
Inductive device_change (call : PairCall) (c : PairClient) : PairDevice -> Prop :=
  | change_none : device_change call c (pl_device c)
  | change_adv adv : (exists r i k e, pl_code_state c = PairWaiting r i k e) ->
      device_change call c (apply_pair_command (pl_device c) (SetAdvSecretKey adv))
  | change_link out key_index d : accepts call c out key_index ->
      pd_account d = decode_signed out -> is_Some (pd_account d) -> pd_identity_key d = pd_identity_key (pl_device c) ->
      pd_adv_secret_key d = pd_adv_secret_key (pl_device c) -> device_change call c d.

Lemma update_offset_device now n c : pl_device (update_server_time_offset now n c) = pl_device c.
Proof. unfold update_server_time_offset. repeat case_match; done. Qed.
Lemma pair_accepted_device ok req_id info out key_index c :
  let d := pl_device (pair_accepted ok req_id info out key_index c) in
  (decode_signed out = None /\ d = pl_device c)
  \/ (pd_account d = decode_signed out /\ is_Some (pd_account d) /\ pd_identity_key d = pd_identity_key (pl_device c)
      /\ pd_adv_secret_key d = pd_adv_secret_key (pl_device c)).
Proof.
  unfold pair_accepted. destruct (decode_signed out) as [s|]; [right|by left].
  destruct c as [[ik nk adv pn lid acc pre name props] st cancel sync disc off log].
  destruct ok, (negb _ && negb _), (bool_decide (pi_business_name info = [])); (split_and!; [done|by eexists|done|done]).
Qed.
Lemma handle_pair_success_device now random ok request success c call :
  (forall blob out ki, (get_optional_child_by_tag success [str "device-identity"] ≫= content_bytes) = Some blob ->
     do_pair_crypto (device_state c) blob random = Ok (out, ki) -> accepts call c out ki) ->
  device_change call c (pl_device (handle_pair_success now random ok request success c)).
Proof.
  intros Hacc. unfold handle_pair_success.
  set (c0 := update_server_time_offset now request _).
  assert (H0 : pl_device c0 = pl_device c) by (subst c0; rewrite update_offset_device; by destruct (pl_cancellation c)).
  assert (Hst : device_state c0 = device_state c) by (unfold device_state; by rewrite H0).
  assert (Hn : forall c', pl_device c' = pl_device c -> device_change call c (pl_device c')) by (intros c' ->; apply change_none).
  destruct (get_attr request _) as [id|]; [|by apply Hn].
  destruct (_ ≫= _) as [blob|] eqn:Hb; [|apply Hn; exact H0].
  rewrite Hst. destruct (do_pair_crypto _ _ _) as [[out ki]|e| |] eqn:Hp; [|apply Hn; exact H0..].
  destruct (pair_accepted_device ok (value_ref_as_str id) (pair_info success) out ki c0) as [[_ Hd]|(H1 & H2 & H3 & H4)];
    [apply Hn; by rewrite Hd|]. rewrite H0 in H3, H4. eapply change_link; eauto.
Qed.
Lemma handle_children_device now random ok node cs c :
  (value_ref_as_str <$> get_attr node (str "from")) = Some SERVER_JID ->
  (exists all, children node = Some all /\ cs ⊆ all) ->
  device_change (CallIq now random ok node) c (pl_device (snd (handle_children now random ok node cs c))).
Proof.
  intros Hfrom (all & Hall & Hsub). induction cs as [|child cs IH]; cbn [handle_children]; [constructor|].
  destruct (bytes_eqb (ref_tag child) (str "pair-device")).
  { unfold handle_pair_device. destruct (build_ack_node_ref node), ok; cbn [snd pl_device set_cancellation emit send_node]; apply change_none. }
  destruct (bytes_eqb (ref_tag child) (str "pair-success")) eqn:Htag.
  - apply bytes_eqb_eq in Htag. apply handle_pair_success_device. intros blob out ki Hb Hp.
    exists blob, random. split; [|done]. exists now, random, ok, node, child, all. split_and!; try done. apply Hsub. left.
  - apply IH. etransitivity; [|exact Hsub]. by apply list_subseteq_cons.
Qed.
Lemma notification_device r req_id ok node c :
  device_change (CallNotification r req_id ok node) c (pl_device (snd (handle_pair_code_notification r req_id ok node c))).
Proof.
  assert (Hn : forall x, pl_device (snd x) = pl_device c -> device_change (CallNotification r req_id ok node) c (pl_device (snd (A := bool) x)))
    by (intros x ->; apply change_none).
  unfold handle_pair_code_notification. destruct (get_optional_child_by_tag node _); [|by apply Hn].
  destruct (_ ≫= _); [|by apply Hn]. destruct (_ ≫= _); [|by apply Hn].
  destruct (pl_code_state c) as [|pref phone code eph|] eqn:Hst; [by apply Hn| |by apply Hn].
  destruct (_ ← _; _) as [[w adv]|e| |]; [|by apply Hn..].
  assert (device_change (CallNotification r req_id ok node) c (apply_pair_command (pl_device c) (SetAdvSecretKey adv)))
    by (apply change_adv; eauto). by destruct ok.
Qed.
Lemma pair_with_code_device options r req_id response c :
  pl_device (snd (pair_with_code (IqError := IqError) options r req_id response c)) = pl_device c.
Proof.
  unfold pair_with_code. destruct (_ ← _; _); try done. destruct (resolve_companion_platform _ _).
  destruct response; try done. by destruct (parse_companion_hello_response _).
Qed.
Lemma pair_call_change call c : device_change call c (pl_device (pair_call call c)).
Proof.
  destruct call as [now random ok node|options r req_id response|r req_id ok node]; cbn [pair_call].
  - unfold handle_iq. destruct (get_attr node _) as [from|] eqn:Hf; [|constructor].
    destruct (bytes_eqb _ _) eqn:Hs; [|constructor]. apply bytes_eqb_eq in Hs.
    destruct (children node) as [cs|] eqn:Hc; [|constructor]. apply handle_children_device; [|by exists cs].
    rewrite Hf. cbn. by rewrite Hs.
  - rewrite pair_with_code_device. constructor.
  - apply notification_device.
Qed.

(** The bytes [blob] make [s] the account of a device with this identity and this adv secret: they
    are a container whose HMAC is that of its body under the secret; the body is an identity
    that the account signs together with the key of the device; and [s] is that identity with
    a signature of the device over it, its own key and the account's. *)
Definition authentic (identity : KeyPair) (adv_secret blob : bytes) (s : SignedDeviceIdentity) : Prop :=
  let key := public_key_bytes (kp_public identity) in
  exists container body hosted signed account_key account_sig device_sig,
    decode_hmac blob = Some container /\ sh_details container = Some body
    /\ hosted = bool_decide (sh_account_type container = Some HOSTED)
    /\ sh_hmac container = Some (container_mac adv_secret hosted body)
    /\ decode_signed body = Some signed
    /\ sd_account_signature_key signed = Some account_key /\ sd_account_signature signed = Some account_sig
    /\ public_verify (mkPublicKey account_key) [account_message hosted (default [] (sd_details signed)) key] account_sig = true
    /\ s = mkSigned (sd_details signed) (Some account_key) (Some account_sig) (Some device_sig)
    /\ public_verify (kp_public identity) [device_message hosted (default [] (sd_details signed)) key account_key] device_sig
       = true.

Lemma accepts_authentic call c out key_index s :
  keypair_wf (identity_of c) -> accepts call c out key_index -> decode_signed out = Some s ->
  exists blob, delivered call blob /\ authentic (identity_of c) (pd_adv_secret_key (pl_device c)) blob s.
Proof.
  intros Hid (blob & random & Hdel & Hp) Hs. exists blob. split; [done|].
  destruct (pairing_sound (device_state c) blob random out key_index Hid Hp)
    as (container & body & hosted & signed & ak & asig & dsig & H1 & H2 & H3 & H4 & H5 & H6 & H7 & H8 & -> & H9 & _).
  rewrite signed_inverse in Hs. injection Hs as <-. by exists container, body, hosted, signed, ak, asig, dsig.
Qed.

(** C10: only an authenticated container links the device.  Take a device without an account, with
    a well-formed identity key.  Whatever stanzas arrive, whatever is
    asked for and whatever fails in between: the identity key never changes, and if an account
    is stored at the end, then one of the calls was a stanza of the server with a
    [pair-success], and the bytes of its [device-identity] authenticate that account: they are a
    container whose HMAC is the one under the adv secret that the device held at that moment,
    over a body in which the account key signs the identity key of this device; and the
    account stored is that body with a valid signature of this device added. *)
Theorem pairing_authenticated (calls : list PairCall) (c : PairClient) :
  keypair_wf (identity_of c) -> pd_account (pl_device c) = None ->
  identity_of (pair_calls calls c) = identity_of c
  /\ forall s, pd_account (pl_device (pair_calls calls c)) = Some s ->
     exists before call after blob,
       calls = before ++ call :: after /\ delivered call blob
       /\ authentic (identity_of c) (pd_adv_secret_key (pl_device (pair_calls before c))) blob s.
Proof.
  intros Hid Hnone. induction calls as [|call calls IH] using rev_ind; [split; [done|]; cbn; congruence|].
  destruct IH as [IHid IHacc]. unfold pair_calls in *. rewrite fold_left_app. cbn [fold_left].
  fold (pair_calls calls c) in *. assert (Hid' : keypair_wf (identity_of (pair_calls calls c))) by (by rewrite IHid).
  pose proof (pair_call_change call (pair_calls calls c)) as Hch.
  assert (Hkeep : forall s, pd_account (pl_device (pair_calls calls c)) = Some s ->
    exists before call' after blob, calls ++ [call] = before ++ call' :: after /\ delivered call' blob
      /\ authentic (identity_of c) (pd_adv_secret_key (pl_device (pair_calls before c))) blob s).
  { intros s Hs. destruct (IHacc s Hs) as (before & call' & after & blob & -> & H1 & H2).
    exists before, call', (after ++ [call]), blob. by rewrite <- app_assoc. }
  inversion Hch as [Hd|adv Hw Hd|out ki d Hacc Hd Hsome Hik Hadv Heq].
  - unfold identity_of. rewrite <- Hd. split; [exact IHid|exact Hkeep].
  - unfold identity_of. rewrite <- Hd. destruct (pl_device (pair_calls calls c)) eqn:Hdev. cbn in *.
    split; [by unfold identity_of in IHid; rewrite Hdev in IHid|exact Hkeep].
  - unfold identity_of. subst d. rewrite Hik. split; [exact IHid|]. intros s Hs. rewrite Hd in Hs.
    destruct (accepts_authentic call (pair_calls calls c) out ki s Hid' Hacc Hs) as (blob & Hdel & Hau).
    exists calls, call, [], blob. split_and!; try done. fold (identity_of c). by rewrite <- IHid.
Qed.

(** ** Where the code falls short *)

(** A bundle whose sending fails has already replaced the adv secret: the QR codes on the
    screen carry the old one, and the phone that scans one is refused; the code is gone too. *)
Lemma failed_finish_breaks_qr br req_id pub node pairing_ref phone code eph wrapped adv c account inner hosted r1 r2 payload :
  pl_code_state c = PairWaiting pairing_ref phone code eph ->
  get_optional_child_by_tag node [str "link_code_companion_reg"] = Some pub ->
  (exists we pid, (get_optional_child_by_tag pub [str "link_code_pairing_wrapped_primary_ephemeral_pub"] ≫= content_of_length 80) = Some we
     /\ (get_optional_child_by_tag pub [str "primary_identity_pub"] ≫= content_of_length 32) = Some pid
     /\ (x ← decrypt_primary_ephemeral_pub we code;
         prepare_key_bundle eph x pid (identity_of c) (br_random br) (br_salt br) (br_iv br)) = Ok (wrapped, adv)) ->
  (forall m, hmac_sha256_signal (pd_adv_secret_key (pl_device c)) m <> hmac_sha256_signal adv m) ->
  build_pair_success_payload (public_key_bytes (kp_public (identity_of c))) account inner (pd_adv_secret_key (pl_device c)) hosted r1
    = Ok payload ->
  let '(done, c') := handle_pair_code_notification br req_id false node c in
  done = false /\ pl_code_state c' = PairIdle
  /\ do_pair_crypto (device_state c') payload r2 = Err (mkPairError 401 (str "hmac-mismatch")).
Proof.
  intros Hst Hreg (we & pid & Hwe & Hpid & Hb) Hne Hpay. unfold handle_pair_code_notification. rewrite Hreg, Hwe, Hpid, Hst.
  change (pd_identity_key (pl_device (set_code_state PairIdle c))) with (identity_of c). rewrite Hb.
  split; [done|]. split; [done|]. eapply other_secret_refused; [exact Hpay|].
  intros m. cbn. destruct (pl_device c). cbn in *. apply Hne.
Qed.

(** A [pair-success] without a device links the client to an empty number. *)
Lemma link_without_device ok req_id success out signed key_index c :
  get_optional_child_by_tag success [str "device"] = None -> decode_signed out = Some signed ->
  pd_pn (pl_device (pair_accepted ok req_id (pair_info success) out key_index c)) = Some jid_default.
Proof.
  intros Hd Ho. unfold pair_info. rewrite Hd. unfold pair_accepted. rewrite Ho.
  destruct c as [[ik nk adv pn lid acc pre name props] st cancel sync disc off log].
  cbn [pi_id pi_lid pi_business_name]. destruct ok, (negb _ && negb _), (bool_decide _); done.
Qed.
End Linking.

(** The codes are shown in order, the first for a minute, and nothing is shown once the client
    is logged in. *)
Lemma qr_rotation_shows first codes world fin :
  exists n, fst (qr_rotation first codes world fin)
  = zip_with pair (take n codes) (take n ((if first : bool then 60 else 20) :: replicate (length codes) 20)).
Proof.
  revert first world. induction codes as [|code codes IH]; intros first world; cbn [qr_rotation]; [by exists O|].
  destruct world as [|[[] w] world]; [by exists O|by exists O|].
  destruct w as [[]|]; [by exists 1%nat| |by exists 1%nat].
  destruct (IH false world) as [n Hn]. destruct (qr_rotation false codes world fin) as [rest e]. cbn [fst] in *. subst rest.
  exists (S n). destruct n; cbn; [by rewrite take_0|]. by rewrite take_0 || done.
Qed.

(** ** A device and a phone *)

Definition demo_client : PairClient :=
  mkClient (mkPairDevice (demo_keys 9) (demo_keys 11) (replicate 32 1) None None None true [] (mkProps (Some (str "Linux")) (Some 1)))
    PairIdle true false false 0 [].
Definition demo_options : PairCodeOptions := for_phone (str "+1 (555) 123-4567").
Definition demo_random : CodeRandom := mkCodeRandom [1; 2; 3; 4; 5] (replicate 32 21) (replicate 32 22) (replicate 16 23).
Definition demo_bundle : BundleRandom := mkBundleRandom (replicate 32 24) (replicate 32 25) (replicate 12 26).
Definition demo_response : NodeRef :=
  as_node_ref (builder_build (builder_children (builder_new (str "iq"))
    [builder_build (builder_children (builder_new (str "link_code_companion_reg")) [bytes_node (str "link_code_pairing_ref") [7; 7]])])).
Definition demo_info : PairInfo := mkPairInfo (mkJid (str "15551234567") Pn 0 3 0) (mkJid (str "100") Lid 0 3 0) (str "Ada") (str "iphone").

Lemma demo_seals k p : exists s, gcm_encrypt k (br_iv demo_bundle) [] p = Ok s.
Proof. by eexists. Qed.

Lemma code_links_device_witness :
  let eph := kp_public (keypair_generate (cr_keypair demo_random)) in
  let identity := kp_public (identity_of demo_client) in
  let code := generate_code [1; 2; 3; 4; 5] in
  exists content c1, pair_with_code (IqError := unit) demo_options demo_random [1] (Ok demo_response) demo_client = (Ok code, c1)
  /\ pl_log c1 = pl_log demo_client ++ [Queried content [1]; EventPairingCode code PAIR_CODE_VALIDITY_SECS]
  /\ (exists wrapped, hello_ephemeral content = Some wrapped /\ decrypt_primary_ephemeral_pub wrapped code = Ok (public_key_bytes eph))
  /\ exists iq bundle random c2,
       handle_pair_code_notification demo_bundle [2] true
         (as_node_ref (phone_notification (encrypt_ephemeral_pub (public_key_bytes (kp_public (demo_keys 31))) code (replicate 32 33) (replicate 16 34))
           (public_key_bytes (kp_public (demo_keys 32))))) c1 = (true, c2)
       /\ pl_log c2 = pl_log c1 ++ [Sent iq] /\ finish_bundle iq = Some bundle
       /\ open_bundle (demo_keys 31) eph bundle = Some (public_key_bytes identity, random)
       /\ let adv := primary_adv_secret (demo_keys 31) (demo_keys 32) eph identity random in
          pd_adv_secret_key (pl_device c2) = adv
          /\ exists payload out c3,
               build_pair_success_payload (public_key_bytes identity) (demo_keys 32) [4] adv false [] = Ok payload
               /\ handle_iq 100 [] true (as_node_ref (phone_pair_success [3] payload demo_info)) c2 = (true, c3)
               /\ linked [3] out 4 demo_info c2 c3
               /\ forall fallback, validate_adv_with_identity_key out (public_key_bytes identity) fallback = AdvValid.
Proof.
  apply (code_links_device demo_options demo_random demo_bundle [1] [2] [3] demo_response [7; 7] (generate_code [1; 2; 3; 4; 5])
    (demo_keys 31) (demo_keys 32) (replicate 32 33) (replicate 16 34) [4] (mkIdentity None None (Some 4) None None) false demo_info 100 [] [] demo_client);
    try reflexivity; try (by apply demo_keys_wf); [by apply Forall_replicate|apply demo_seals].
Defined.

Lemma pairing_authenticated_witness :
  exists payload out c',
    do_pair_crypto (device_state demo_client) payload [] = Ok (out, 4)
    /\ handle_iq 100 [] true (as_node_ref (phone_pair_success [3] payload demo_info)) demo_client = (true, c')
    /\ is_Some (pd_account (pl_device c'))
    /\ let calls := [CallIq (IqError := unit) 100 [] true (as_node_ref (phone_pair_success [3] payload demo_info))] in
       identity_of (pair_calls calls demo_client) = identity_of demo_client
       /\ forall s, pd_account (pl_device (pair_calls calls demo_client)) = Some s ->
          exists before call after blob,
            calls = before ++ call :: after /\ delivered call blob
            /\ authentic (identity_of demo_client) (pd_adv_secret_key (pl_device (pair_calls before demo_client))) blob s.
Proof.
  destruct (honest_phone_accepted (device_state demo_client) (demo_keys 32) [4] false [] [] (mkIdentity None None (Some 4) None None))
    as (payload & out & _ & Hp & Hs & _); [by apply demo_keys_wf|by apply demo_keys_wf|reflexivity|].
  destruct (pair_success_linked 100 [] [3] payload demo_info out 4 demo_client Hp Hs) as (c' & Hc & Hl).
  exists payload, out, c'. split; [exact Hp|]. split; [exact Hc|].
  split; [destruct Hs as [s Hs]; rewrite (ln_account _ _ _ _ _ _ Hl), Hs; by eexists|].
  apply (pairing_authenticated _ demo_client); [by apply demo_keys_wf|reflexivity].
Defined.
