(* ===== verification/LidMigrate.v ===== *)
(** * Sessions move from the phone number to the linked id

    [migrate_signal_sessions_on_lid_discovery] of [src/client/lid_pn.rs], with the addresses of
    [wacore/src/types/jid.rs] and [has_state_for_user] of [store/signal_cache.rs], over the
    cache of Signal state.  A device's step runs under the locks of its two addresses and is
    one step here; a failed read skips it, as the code does. *)

From stdpp Require Import prelude gmap strings.
From S2P Require Import Prelude Jid SignalCache CacheCoherence CacheSlots CacheLedger CacheRefines CacheFlush CacheRun.

#[local] Open Scope Z_scope.

(** ** Addresses *)

Definition LEGACY_USER_SERVER : bytes := str "c.us".
Definition mapped_server (s : bytes) : bytes := if bytes_eqb s DEFAULT_USER_SERVER then LEGACY_USER_SERVER else s.
Definition write_signal_address_to (jid : Jid) : bytes :=
  j_user jid ++ (if j_device jid =? 0 then [] else 58 :: itoa (j_device jid)) ++ [64] ++ mapped_server (server_as_str (j_server jid)).
(** [ProtocolAddress::as_str]: the device id of Signal is always 0. *)
Definition to_protocol_address (jid : Jid) : bytes := write_signal_address_to jid ++ str ".0".

Definition pn_device (user : bytes) (device : Z) : Jid := mkJid user Pn 0 device 0.
Definition lid_device (user : bytes) (device : Z) : Jid := mkJid user Lid 0 device 0.
Definition pn_address (pn : bytes) (d : Z) : bytes := to_protocol_address (pn_device pn d).
Definition lid_address (lid : bytes) (d : Z) : bytes := to_protocol_address (lid_device lid d).

Definition address_matches (addr user : bytes) : bool :=
  bytes_eqb (take (length user) addr) user
  && match drop (length user) addr with c :: _ => (c =? 64) || (c =? 58) | [] => false end.

Definition MIGRATION_DEVICE_RANGE : Z := 100.

(** ** The migration *)

Section Migration.
Context {R K : Type} {CR : Codec R} {CK : Codec K} {HO : HashOrder}.

Abbreviation Env := (@Env R K).
Abbreviation Task := (@Task R K).

(** The caller looks at an error and goes on. *)
Definition try_task {A} (m : Task A) : Task (option A) := fun e => let '(e', o) := m e in (e', Some o).

Definition any_key {V} (user : bytes) (m : gmap bytes V) : bool :=
  existsb (fun k => address_matches k user) (elements (dom m : gset bytes)).
(** [InMemoryBackend::has_signal_state_for_user] *)
Definition has_signal_state_for_user (user : bytes) (b : Backend) : bool :=
  any_key user (b_sessions b) || any_key user (b_identities b).
Definition has_state_for_user (user : bytes) : Task bool :=
  cached ← get_env (fun e => any_key user (s_cache (sessions e)));
  if cached : bool then mret true
  else
    cached ← get_env (fun e => any_key user (i_cache (identities e)));
    if cached : bool then mret true else read (has_signal_state_for_user user).

(** The phone number wins. *)
Definition migrate_session (pn_proto lid_proto : bytes) : Task bool :=
  found ← try_task (get_session pn_proto);
  match found with
  | Some (Some session) =>
      _ ← put_session lid_proto session;
      _ ← delete_session pn_proto;
      mret true
  | _ => mret false
  end.
(** The linked id wins. *)
Definition migrate_identity (pn_proto lid_proto : bytes) : Task bool :=
  found ← try_task (get_identity pn_proto);
  match found with
  | Some (Some identity_data) =>
      there ← try_task (get_identity lid_proto);
      match there with
      | Some None =>
          _ ← put_identity lid_proto identity_data;
          _ ← delete_identity pn_proto;
          mret true
      | Some (Some _) => _ ← delete_identity pn_proto; mret false
      | None => mret false
      end
  | _ => mret false
  end.
Fixpoint migrate_devices (pn lid : bytes) (ds : list Z) (migrated : bool) : Task bool :=
  match ds with
  | [] => mret migrated
  | d :: ds =>
      s ← migrate_session (pn_address pn d) (lid_address lid d);
      i ← migrate_identity (pn_address pn d) (lid_address lid d);
      migrate_devices pn lid ds (migrated || s || i)
  end.
Definition migrate_signal_sessions_on_lid_discovery (pn lid : bytes) : Task bool :=
  known ← try_task (has_state_for_user pn);
  match known with
  | Some false => mret false
  | _ =>
      migrated ← migrate_devices pn lid (seqZ 0 MIGRATION_DEVICE_RANGE) false;
      _ ← try_task flush;
      mret migrated
  end.
End Migration.

(** ** Addresses do not collide *)

Lemma itoa_inj a b : 0 <= a <= 65535 -> 0 <= b <= 65535 -> itoa a = itoa b -> a = b.
Proof.
  intros Ha Hb H. pose proof (parse_uint_itoa 65535 a Ha ltac:(lia)) as H1.
  pose proof (parse_uint_itoa 65535 b Hb ltac:(lia)) as H2. congruence.
Qed.
(** The name of a device after the user, and the server. *)
Definition device_part (d : Z) : bytes := if d =? 0 then [] else 58 :: itoa d.
Lemma device_part_inj (d d' : Z) (r : bytes) :
  0 <= d <= 65535 -> 0 <= d' <= 65535 -> device_part d ++ r = device_part d' ++ r -> d = d'.
Proof.
  intros Hd Hd' Heq%app_inv_tail. unfold device_part in Heq.
  destruct (Z.eqb_spec d 0), (Z.eqb_spec d' 0); try done; [lia|]. injection Heq as Heq. by apply itoa_inj.
Qed.
Lemma pn_address_eq pn d : pn_address pn d = pn ++ device_part d ++ str "@c.us.0".
Proof. unfold pn_address, to_protocol_address, write_signal_address_to. cbn [j_user j_device j_server pn_device]. by rewrite <- !app_assoc. Qed.
Lemma lid_address_eq lid d : lid_address lid d = lid ++ device_part d ++ str "@lid.0".
Proof. unfold lid_address, to_protocol_address, write_signal_address_to. cbn [j_user j_device j_server lid_device]. by rewrite <- !app_assoc. Qed.
Lemma pn_address_inj pn d d' : 0 <= d <= 65535 -> 0 <= d' <= 65535 -> pn_address pn d = pn_address pn d' -> d = d'.
Proof. rewrite !pn_address_eq. intros Hd Hd' Heq%app_inv_head. by eapply device_part_inj. Qed.
Lemma lid_address_inj lid d d' : 0 <= d <= 65535 -> 0 <= d' <= 65535 -> lid_address lid d = lid_address lid d' -> d = d'.
Proof. rewrite !lid_address_eq. intros Hd Hd' Heq%app_inv_head. by eapply device_part_inj. Qed.
Lemma pn_lid_address pn lid d d' : pn_address pn d <> lid_address lid d'.
Proof.
  rewrite pn_address_eq, lid_address_eq, !app_assoc. intros Heq%(f_equal (fun l => take 3 (reverse l))).
  rewrite !reverse_app in Heq. done.
Qed.
Lemma pn_address_matches pn d : address_matches (pn_address pn d) pn = true.
Proof.
  unfold address_matches. rewrite pn_address_eq, take_app_length, drop_app_length, bytes_eqb_refl.
  unfold device_part. by destruct (d =? 0).
Qed.

(** ** What the ledger says *)

Section Moves.
Context {R K : Type}.

Abbreviation Ledger := (Ledger R K).

Definition move_session (L : Ledger) (p l : bytes) : Ledger :=
  match look L p with
  | Some r => with_sessions L (delete p (<[l := r]> (l_sessions L))) (l_out L ∖ {[l]})
  | None => L
  end.
Definition move_identity (L : Ledger) (p l : bytes) : Ledger :=
  match l_identities L !! p with
  | Some i =>
      match l_identities L !! l with
      | Some _ => with_identities L (delete p (l_identities L))
      | None => with_identities L (delete p (<[l := i]> (l_identities L)))
      end
  | None => L
  end.
(** Something comes to the slot of the linked id. *)
Definition identity_moves (L : Ledger) (p l : bytes) : bool :=
  bool_decide (is_Some (l_identities L !! p)) && bool_decide (l_identities L !! l = None).

(** Which steps of which devices have gone through. *)
Definition Plan : Type := list (Z * (bool * bool)).
Fixpoint migrate_ledger (pn lid : bytes) (plan : Plan) (L : Ledger) : Ledger * bool :=
  match plan with
  | [] => (L, false)
  | (d, (s, i)) :: plan =>
      let p := pn_address pn d in
      let l := lid_address lid d in
      let L1 := if s : bool then move_session L p l else L in
      let L2 := if i : bool then move_identity L1 p l else L1 in
      let '(L', m) := migrate_ledger pn lid plan L2 in
      (L', (s && bool_decide (is_Some (look L p))) || (i && identity_moves L1 p l) || m)
  end.
Fixpoint skipped (plan : Plan) : nat :=
  match plan with
  | [] => 0
  | (_, (s, i)) :: plan => (if s then 0 else 1) + (if i then 0 else 1) + skipped plan
  end.

(** What one device has under its two addresses, before and after. *)
Record settled (s i : bool) (L L' : Ledger) (p l : bytes) : Prop := {
  st_lid_session : l_sessions L' !! l = match (if s then look L p else None) with Some r => Some r | None => l_sessions L !! l end;
  st_pn_session : l_sessions L' !! p = match (if s then look L p else None) with Some _ => None | None => l_sessions L !! p end;
  st_lid_identity : l_identities L' !! l = match l_identities L !! l with Some x => Some x | None => if i then l_identities L !! p else None end;
  st_pn_identity : l_identities L' !! p = if i then None else l_identities L !! p;
  st_out : (p ∈ l_out L' <-> p ∈ l_out L) /\ ((if s then look L p else None) <> None -> l ∉ l_out L')
}.
(** Nothing has changed under [a]. *)
Record untouched (L L' : Ledger) (a : bytes) : Prop := {
  ut_session : l_sessions L' !! a = l_sessions L !! a;
  ut_identity : l_identities L' !! a = l_identities L !! a;
  ut_out : a ∈ l_out L' <-> a ∈ l_out L
}.
Lemma untouched_trans L1 L2 L3 a : untouched L1 L2 a -> untouched L2 L3 a -> untouched L1 L3 a.
Proof. intros [H1 H2 H3] [H4 H5 H6]. split; [by rewrite H4|by rewrite H5|by rewrite H6]. Qed.
Lemma untouched_look L L' a : untouched L L' a -> look L' a = look L a.
Proof. intros [H1 _ H3]. unfold look. rewrite H1. by rewrite (decide_ext _ _ _ _ H3). Qed.

Lemma move_session_frame L p l a : a <> p -> a <> l -> untouched L (move_session L p l) a.
Proof.
  intros Hp Hl. unfold move_session. destruct (look L p) as [r|]; [|done]. split; cbn; [|done|set_solver].
  by rewrite lookup_delete_ne, lookup_insert_ne by done.
Qed.
Lemma move_identity_frame L p l a : a <> p -> a <> l -> untouched L (move_identity L p l) a.
Proof.
  intros Hp Hl. unfold move_identity. destruct (l_identities L !! p); [|done].
  destruct (l_identities L !! l); split; cbn; try done; by rewrite lookup_delete_ne, ?lookup_insert_ne by done.
Qed.
Lemma device_settled (s i : bool) L p l :
  p <> l ->
  let L1 := if s then move_session L p l else L in
  settled s i L (if i then move_identity L1 p l else L1) p l.
Proof.
  intros Hne L1.
  assert (H1 : l_identities L1 = l_identities L /\ settled s false L L1 p l).
  { subst L1. destruct s; [|split; [done|]; split; try done; by destruct (l_identities L !! l)].
    unfold move_session. destruct (look L p) as [r|] eqn:Hl.
    - assert (p ∉ l_out L) by (unfold look in Hl; by destruct (decide (p ∈ l_out L))).
      split; [done|]. split; cbn; rewrite ?Hl.
      + by rewrite lookup_delete_ne, lookup_insert_eq by done.
      + by rewrite lookup_delete_eq.
      + by destruct (l_identities L !! l).
      + done.
      + set_solver.
    - split; [done|]. split; rewrite ?Hl; try done. by destruct (l_identities L !! l). }
  destruct H1 as [Hid [S1 S2 S3 S4 S5]]. destruct i; [|done]. unfold move_identity. rewrite Hid.
  destruct (l_identities L !! p) as [x|] eqn:Hp, (l_identities L !! l) as [y|] eqn:Hl;
    split; cbn; rewrite ?Hl, ?Hp, ?Hid; try done; rewrite ?lookup_delete_eq; try done;
    by rewrite lookup_delete_ne, ?lookup_insert_eq by done.
Qed.

Lemma migrate_ledger_frame pn lid plan L a :
  (forall d, d ∈ plan.*1 -> a <> pn_address pn d /\ a <> lid_address lid d) -> untouched L (fst (migrate_ledger pn lid plan L)) a.
Proof.
  revert L. induction plan as [|[d [s i]] plan IH]; intros L Ha; cbn [migrate_ledger]; [done|].
  destruct (Ha d) as [Hp Hl]; [set_solver|].
  set (L1 := if s then _ else L). set (L2 := if i then _ else L1).
  specialize (IH L2). destruct (migrate_ledger pn lid plan L2) as [L' m]. cbn [fst] in *.
  apply (untouched_trans L L1); [subst L1; destruct s; [by apply move_session_frame|done]|].
  apply (untouched_trans L1 L2); [subst L2; destruct i; [by apply move_identity_frame|done]|].
  apply IH. intros d' Hd'. apply Ha. set_solver.
Qed.
Lemma settled_before s i L0 L L' p l : untouched L0 L p -> untouched L0 L l -> settled s i L L' p l -> settled s i L0 L' p l.
Proof.
  intros Hp Hl [S1 S2 S3 S4 S5]. rewrite (untouched_look _ _ _ Hp) in *. destruct Hp as [P1 P2 P3], Hl as [Q1 Q2 Q3].
  split; rewrite ?S1, ?S2, ?S3, ?S4, ?P1, ?P2, ?Q1, ?Q2; try done. by rewrite <- P3.
Qed.
Lemma settled_after s i L L' L'' p l : untouched L' L'' p -> untouched L' L'' l -> settled s i L L' p l -> settled s i L L'' p l.
Proof.
  intros [P1 P2 P3] [Q1 Q2 Q3] [S1 S2 S3 S4 [S5 S6]].
  split; rewrite ?P1, ?P2, ?Q1, ?Q2; try done. by rewrite P3, Q3.
Qed.
(** Each device is settled on its own. *)
Lemma migrate_ledger_settled pn lid plan L d s i :
  NoDup plan.*1 -> Forall (fun d => 0 <= d <= 65535) plan.*1 -> (d, (s, i)) ∈ plan ->
  settled s i L (fst (migrate_ledger pn lid plan L)) (pn_address pn d) (lid_address lid d).
Proof.
  revert L. induction plan as [|[d' [s' i']] plan IH]; intros L Hnd Hr Hin; [by apply elem_of_nil in Hin|].
  cbn [migrate_ledger]. cbn in Hnd, Hr. apply NoDup_cons in Hnd as [Hni Hnd]. apply Forall_cons in Hr as [Hd' Hr].
  set (L1 := if s' then _ else L). set (L2 := if i' then _ else L1).
  assert (Hrange : forall x, x ∈ plan.*1 -> 0 <= x <= 65535) by (by apply Forall_forall).
  assert (Hne : forall x, x ∈ plan.*1 -> pn_address pn d' <> pn_address pn x /\ lid_address lid d' <> lid_address lid x).
  { intros x Hx. split; intros Heq; [apply pn_address_inj in Heq|apply lid_address_inj in Heq]; subst; auto. }
  apply elem_of_cons in Hin as [[= -> -> ->]|Hin].
  - pose proof (migrate_ledger_frame pn lid plan L2) as Hf. destruct (migrate_ledger pn lid plan L2) as [L' m]. cbn [fst] in *.
    apply (settled_after s' i' L L2); [apply Hf|apply Hf|apply device_settled, pn_lid_address];
      intros x Hx; destruct (Hne x Hx); split; try done; [apply pn_lid_address|apply not_eq_sym, pn_lid_address].
  - specialize (IH L2 Hnd Hr Hin). destruct (migrate_ledger pn lid plan L2) as [L' m]. cbn [fst] in *.
    destruct (Hne d) as [Hp Hl]; [apply list_elem_of_fmap; by exists (d, (s, i))|].
    assert (Hu : forall a, a <> pn_address pn d' -> a <> lid_address lid d' -> untouched L L2 a).
    { intros a H1 H2. apply (untouched_trans L L1); [subst L1; destruct s'; [by apply move_session_frame|done]|].
      subst L2; destruct i'; [by apply move_identity_frame|done]. }
    apply (settled_before s i L L2); [apply Hu|apply Hu|done];
      try done; try (by apply not_eq_sym); [apply pn_lid_address|apply not_eq_sym, pn_lid_address].
Qed.
End Moves.

(** ** The migration follows the ledger *)

Section Follows.
Context {R K : Type} {CR : Codec R} {CK : Codec K} {HO : HashOrder}.
Context {LR : CodecLaws R} {LK : CodecLaws K} {HL : HashOrderLaws}.
Context (reg : gset (Z * bytes)) (b0 : Backend).

Abbreviation Env := (@Env R K).
Abbreviation Task := (@Task R K).
Abbreviation Ledger := (Ledger R K).
Abbreviation Inv := (@Inv R K CR CK reg b0).
Abbreviation Err := (@Err R K CR CK reg b0).

(** An error that is looked at leaves one fault less. *)
Lemma triple_try {A} L n (m : Task A) Q :
  sized L -> triple (Inv L n) m Q (Err L n) ->
  triple (Inv L n) (try_task m)
    (fun o e => match o with Some a => Q a e | None => exists n', n = S n' /\ Inv L n' e end) (fun _ => False).
Proof.
  intros Hs Hm e HI. specialize (Hm e HI). unfold try_task. destruct (m e) as [e' [a|]]; [done|].
  destruct Hm as (Hc & Hcr & Hb). specialize (Hb Hs). destruct n as [|n']; [lia|]. exists n'. split; [done|]. split; [done|].
  split; [done|lia].
Qed.
Lemma look_storable L n e a r : Inv L n e -> look L a = Some r -> storable r.
Proof.
  intros HI Hl. pose proof (look_cached reg b0 L n e a HI) as Hc. destruct HI as (((Hr & Hs) & _) & _).
  specialize (Hs a). unfold entry_ok in Hs. destruct (s_cache (sessions e) !! a) as [[r'| |]|].
  - rewrite Hl in Hc. injection Hc as <-. by destruct Hs as (_ & _ & _ & ? & _).
  - congruence.
  - congruence.
  - rewrite Hl in Hc. unfold durable in Hc. destruct (b_sessions (backend e) !! a) as [v|] eqn:Hv; [|done].
    destruct (Hr a v Hv) as (r' & Hd & Hst). cbn in Hc. rewrite Hd in Hc. by injection Hc as ->.
Qed.
Lemma sized_move_session (L : Ledger) p l : sized L -> sized (move_session L p l).
Proof. intros Hs. unfold move_session. by destruct (look L p). Qed.
Lemma sized_move_identity (L : Ledger) p l : sized L -> sized (move_identity L p l).
Proof.
  intros Hs. unfold move_identity. destruct (l_identities L !! p) as [x|] eqn:Hp; [|done].
  assert (zlen x = 32) by (by eapply Hs). unfold sized in *.
  destruct (l_identities L !! l); cbn; apply map_Forall_delete; [done|]. by apply map_Forall_insert_2.
Qed.

Lemma migrate_session_ok L n p l :
  p <> l -> sized L ->
  triple (Inv L n) (migrate_session p l)
    (fun m e => (m = bool_decide (is_Some (look L p)) /\ Inv (move_session L p l) n e)
      \/ (m = false /\ exists n', n = S n' /\ Inv L n' e)) (fun _ => False).
Proof.
  intros Hne Hs. intros e0 HI0. assert (Hst : forall r, look L p = Some r -> storable r) by (intros; by eapply look_storable).
  revert e0 HI0. eapply triple_bind; [eapply triple_try; [done|apply get_session_ok]|]. intros [o|].
  - unfold move_session. destruct o as [r|].
    + intros e [Hl HI]. rewrite <- Hl. assert (Hr : storable r) by (by apply Hst). unfold take_out in HI. rewrite <- Hl in HI.
      pose proof (put_session_ok reg b0 _ n l r Hr e HI) as Hput.
      unfold mbind, Task_bind. destruct (put_session l r e) as [e1 [[]|]] eqn:E1; [|done].
      pose proof (delete_session_ok reg b0 _ n p e1 Hput) as Hdel. left. split; [done|].
      cbn in Hdel. cbn. unfold with_sessions in *. cbn in Hdel.
      replace (l_out L ∖ {[l]}) with ((({[p]} ∪ l_out L) ∖ {[l]}) ∖ {[p]}); [exact Hdel|].
      assert (p ∉ l_out L) by (symmetry in Hl; unfold look in Hl; by destruct (decide (p ∈ l_out L))). set_solver.
    + intros e [Hl HI]. rewrite <- Hl. unfold take_out in HI. rewrite <- Hl in HI. by left.
  - intros e HI. by right.
Qed.
Lemma migrate_identity_ok L n p l :
  p <> l -> sized L ->
  triple (Inv L n) (migrate_identity p l)
    (fun m e => (m = identity_moves L p l /\ Inv (move_identity L p l) n e)
      \/ (m = false /\ exists n', n = S n' /\ Inv L n' e)) (fun _ => False).
Proof.
  intros Hne Hs. eapply triple_bind; [eapply triple_try; [done|apply get_identity_ok]|].
  unfold identity_moves, move_identity. intros [o|]; [|intros e HI; by right]. destruct o as [x|].
  - intros e [Hp HI]. rewrite <- Hp. revert e HI. eapply triple_bind; [eapply triple_try; [done|apply get_identity_ok]|].
    intros [[y|]|]; [| |intros e HI; by right].
    + intros e [Hl HI]. rewrite <- Hl. left. split; [by rewrite (bool_decide_false (Some y = None)), andb_false_r|].
      exact (delete_identity_ok reg b0 L n p e HI).
    + intros e [Hl HI]. rewrite <- Hl. pose proof (put_identity_ok reg b0 L n l x e HI) as Hput.
      unfold mbind, Task_bind. destruct (put_identity l x e) as [e1 [[]|]] eqn:E1; [|done].
      left. split; [done|]. exact (delete_identity_ok reg b0 _ n p e1 Hput).
  - intros e [Hp HI]. rewrite <- Hp. by left.
Qed.
Lemma migrate_devices_ok pn lid ds : forall L n m0, sized L ->
  triple (Inv L n) (migrate_devices pn lid ds m0)
    (fun m e => exists plan, plan.*1 = ds /\ (skipped plan <= n)%nat
       /\ m = m0 || snd (migrate_ledger pn lid plan L)
       /\ sized (fst (migrate_ledger pn lid plan L)) /\ Inv (fst (migrate_ledger pn lid plan L)) (n - skipped plan) e) (fun _ => False).
Proof.
  induction ds as [|d ds IH]; intros L n m0 Hs; cbn [migrate_devices].
  { intros e HI. exists []. cbn. rewrite Nat.sub_0_r, orb_false_r. split_and!; [done|lia|done|done|done]. }
  pose proof (pn_lid_address pn lid d d) as Hne. set (p := pn_address pn d) in *. set (l := lid_address lid d) in *.
  eapply triple_bind; [by apply migrate_session_ok|]. intros s e1 H1.
  assert (exists n1 (s' : bool), Inv (if s' then move_session L p l else L) n1 e1 /\ n = ((if s' then 0 else 1) + n1)%nat
    /\ s = s' && bool_decide (is_Some (look L p))) as (n1 & s' & HI1 & -> & ->).
  { destruct H1 as [[-> HI]|[-> (n' & -> & HI)]]; [by exists n, true|by exists n', false]. }
  assert (Hs1 : sized (if s' then move_session L p l else L)) by (destruct s'; [by apply sized_move_session|done]).
  set (L1 := if s' then move_session L p l else L) in *.
  revert e1 HI1 H1. enough (Ht : triple (Inv L1 n1) (i ← migrate_identity p l;
      migrate_devices pn lid ds (m0 || (s' && bool_decide (is_Some (look L p))) || i))
    (fun m e => exists plan, plan.*1 = d :: ds /\ (skipped plan <= (if s' then 0 else 1) + n1)%nat
       /\ m = m0 || snd (migrate_ledger pn lid plan L) /\ sized (fst (migrate_ledger pn lid plan L))
       /\ Inv (fst (migrate_ledger pn lid plan L)) ((if s' then 0 else 1) + n1 - skipped plan) e) (fun _ => False))
    by (intros e1 HI1 _; exact (Ht e1 HI1)).
  eapply triple_bind; [by apply migrate_identity_ok|]. intros i e2 H2.
  assert (exists n2 (i' : bool), Inv (if i' then move_identity L1 p l else L1) n2 e2 /\ n1 = ((if i' then 0 else 1) + n2)%nat
    /\ i = i' && identity_moves L1 p l) as (n2 & i' & HI2 & -> & ->).
  { destruct H2 as [[-> HI]|[-> (n' & -> & HI)]]; [by exists n1, true|by exists n', false]. }
  assert (Hs2 : sized (if i' then move_identity L1 p l else L1)) by (destruct i'; [by apply sized_move_identity|done]).
  pose proof (IH _ n2 (m0 || (s' && bool_decide (is_Some (look L p))) || (i' && identity_moves L1 p l)) Hs2 e2 HI2) as Hrec.
  destruct (migrate_devices _ _ _ _ e2) as [e3 [m|]]; [|done]. destruct Hrec as (plan & Hds & Hk & Hm & Hs3 & HI3).
  exists ((d, (s', i')) :: plan). cbn [migrate_ledger fst snd fmap list_fmap skipped].
  fold p l L1. destruct (migrate_ledger pn lid plan _) as [L' m']. cbn [fst snd] in *.
  split_and!; [by rewrite Hds|lia|by rewrite Hm, !orb_assoc|done|].
  replace (_ - _)%nat with (n2 - skipped plan)%nat by lia. done.
Qed.

(** ** Nothing to move *)

Lemma any_key_none {V} (user : bytes) (m : gmap bytes V) (d : Z) : any_key user m = false -> m !! pn_address user d = None.
Proof.
  intros Ha. apply not_elem_of_dom. intros Hin. enough (any_key user m = true) by congruence.
  apply existsb_exists. exists (pn_address user d). split; [|apply pn_address_matches].
  by apply list_elem_of_In, elem_of_elements.
Qed.
Definition stateless (L : Ledger) (pn : bytes) : Prop :=
  forall d, look L (pn_address pn d) = None /\ l_identities L !! pn_address pn d = None.
Lemma has_state_ok L n pn :
  triple (Inv L n) (has_state_for_user pn) (fun b e => Inv L n e /\ (b = false -> stateless L pn)) (Err L n).
Proof.
  eapply triple_bind; [apply triple_get|]. intros [|]; [by intros e [HI _]|].
  eapply triple_bind; [apply triple_get|]. intros [|]; [by intros e [[HI _] _]|].
  set (F := fun e : Env => any_key pn (s_cache (sessions e)) = false /\ any_key pn (i_cache (identities e)) = false).
  eapply triple_pre; [eapply triple_post; [apply (inv_read reg b0 L n _ F); by intros ???|intros b e [[HI [Hs Hi]] Hb]|done]|].
  - split; [done|]. intros ->. apply orb_false_iff in Hb as [Hbs Hbi]. intros d. split.
    + pose proof (look_cached reg b0 L n e (pn_address pn d) HI) as Hl. rewrite (any_key_none _ _ d Hs) in Hl.
      rewrite Hl. unfold durable. by rewrite (any_key_none _ _ d Hbs).
    + destruct HI as ((_ & Hid & _) & _). destruct (Hid (pn_address pn d)) as [Hslot _].
      rewrite (any_key_none _ _ d Hi) in Hslot. destruct Hslot as [-> _]. by apply any_key_none.
  - intros e [[HI Hs] Hi]. done.
Qed.
Definition everything (ds : list Z) : Plan := (fun d => (d, (true, true))) <$> ds.
Lemma everything_devices ds : (everything ds).*1 = ds /\ skipped (everything ds) = 0%nat.
Proof.
  induction ds as [|d ds [IH1 IH2]]; [done|]. split; [|exact IH2].
  change ((everything (d :: ds)).*1) with (d :: (everything ds).*1). by rewrite IH1.
Qed.
Lemma migrate_nothing pn lid ds (L : Ledger) : stateless L pn -> migrate_ledger pn lid (everything ds) L = (L, false).
Proof.
  intros Hn. induction ds as [|d ds IH]; [done|]. destruct (Hn d) as [Hs Hi].
  change (everything (d :: ds)) with ((d, (true, true)) :: everything ds). cbn [migrate_ledger].
  assert (Hm1 : move_session L (pn_address pn d) (lid_address lid d) = L) by (unfold move_session; by rewrite Hs).
  assert (Hm2 : move_identity L (pn_address pn d) (lid_address lid d) = L) by (unfold move_identity; by rewrite Hi).
  rewrite Hm1, Hm2. rewrite IH. unfold identity_moves. by rewrite Hs, Hi.
Qed.

Lemma migrate_ok L n pn lid :
  sized L ->
  triple (Inv L n) (migrate_signal_sessions_on_lid_discovery pn lid)
    (fun m e => exists plan n', plan.*1 = seqZ 0 MIGRATION_DEVICE_RANGE /\ (skipped plan + n' <= n)%nat
       /\ m = snd (migrate_ledger pn lid plan L)
       /\ let L' := fst (migrate_ledger pn lid plan L) in
          Inv L' n' e /\ (n = 0%nat -> L' = L \/ flushed L' (backend e))) (fun _ => False).
Proof.
  intros Hs. eapply triple_bind; [eapply triple_try; [done|apply has_state_ok]|]. intros known.
  assert (Hmain : forall n0, (n0 <= n)%nat -> triple (Inv L n0)
    (m ← migrate_devices pn lid (seqZ 0 MIGRATION_DEVICE_RANGE) false; _ ← try_task flush; mret m)
    (fun m e => exists plan n', plan.*1 = seqZ 0 MIGRATION_DEVICE_RANGE /\ (skipped plan + n' <= n)%nat
       /\ m = snd (migrate_ledger pn lid plan L)
       /\ let L' := fst (migrate_ledger pn lid plan L) in
          Inv L' n' e /\ (n = 0%nat -> L' = L \/ flushed L' (backend e))) (fun _ => False)).
  { intros n0 Hn0. eapply triple_bind; [by apply migrate_devices_ok|]. intros m e (plan & Hds & Hk & -> & Hs' & HI).
    set (L' := fst (migrate_ledger pn lid plan L)) in *.
    pose proof (triple_try L' _ flush _ Hs' (flush_ok reg b0 L' (n0 - skipped plan)) e HI) as Hf.
    unfold mbind, Task_bind. destruct (try_task flush e) as [e' [o|]]; [|done]. exists plan.
    destruct o as [[]|].
    - destruct Hf as [HI' Hfl]. exists (n0 - skipped plan)%nat. split_and!; [done|lia|done|done|by right].
    - destruct Hf as (n' & Hn' & HI'). exists n'. split_and!; [done|lia|done|done|lia]. }
  destruct known as [[|]|].
  - intros e [HI _]. by apply (Hmain n).
  - intros e [HI Hn]. specialize (Hn eq_refl). exists (everything (seqZ 0 MIGRATION_DEVICE_RANGE)), n.
    destruct (everything_devices (seqZ 0 MIGRATION_DEVICE_RANGE)) as [H1 H2]. rewrite H2, (migrate_nothing _ _ _ _ Hn).
    cbn [fst snd]. split_and!; [done|lia|done|done|by left].
  - intros e (n0 & -> & HI). apply (Hmain n0); [lia|done].
Qed.
End Follows.

(** ** A crash at any point *)

Section Crash.
Context {R K : Type} {CR : Codec R} {CK : Codec K} {HO : HashOrder}.
Context (h0 : list Backend) (good : Backend -> Prop).

Abbreviation Env := (@Env R K).
Abbreviation Task := (@Task R K).

(** Every state of the backend since [h0] is good, and the last one satisfies [X]. *)
Definition since (X : Backend -> Prop) (e : Env) : Prop :=
  (exists new, history e = h0 ++ new /\ Forall good new) /\ X (backend e).
(** A task that only leaves states in [X] behind. *)
Definition keeps {A} (X : Backend -> Prop) (m : Task A) : Prop := triple (since X) m (fun _ => since X) (since X).

Lemma since_push X (e : Env) b fs :
  (exists new, history e = h0 ++ new /\ Forall good new) -> good b -> X b -> since X (with_backend e b (history e ++ [b]) fs).
Proof.
  intros (new & Hh & Hg) Hb HX. split; [|done]. exists (new ++ [b]). cbn [history with_backend]. rewrite Hh, app_assoc.
  split; [done|]. apply Forall_app. by split; [|apply Forall_singleton].
Qed.
Lemma since_weaken X Y (e : Env) : (forall b, X b -> Y b) -> since X e -> since Y e.
Proof. intros H [Hh HX]. split; [done|]. by apply H. Qed.

Section Tasks.
Context (X : Backend -> Prop) (HX : forall b, X b -> good b).

Lemma keeps_write (f : Backend -> Backend) : (forall b, X b -> X (f b)) -> keeps X (write f).
Proof.
  intros Hf. apply triple_write.
  - intros e fs [Hh Hx] _. apply since_push; [done|by apply HX, Hf|by apply Hf].
  - intros e b h fs [Hh Hx] _ [[-> ->]|[-> ->]]; [done|]. apply since_push; [done|by apply HX, Hf|by apply Hf].
Qed.
Lemma keeps_read {A} (f : Backend -> A) : keeps X (read f).
Proof.
  eapply triple_post; [apply triple_read| |done].
  - intros e fs [Hh Hx] _. apply since_push; [done|by apply HX|done].
  - intros e h fs [Hh Hx] _ [-> | ->]; [done|]. apply since_push; [done|by apply HX|done].
  - by intros a e [H _].
Qed.
Lemma keeps_then {A B} (m : Task A) (f : A -> Task B) : keeps X m -> (forall a, keeps X (f a)) -> keeps X (m ≫= f).
Proof. intros Hm Hf. by eapply triple_bind. Qed.
Lemma keeps_try {A} (m : Task A) : keeps X m -> keeps X (try_task m).
Proof. intros Hm e He. specialize (Hm e He). unfold try_task. by destruct (m e) as [e' []]. Qed.
Lemma keeps_each {A} (f : A -> Task unit) l : (forall a, a ∈ l -> keeps X (f a)) -> keeps X (each f l).
Proof.
  intros Hf. apply (triple_each f l (fun _ => since X)). intros l1 a l2 ->.
  apply Hf, elem_of_app. right. left.
Qed.
Lemma keeps_option {A} (o : option A) : keeps X (of_option o : Task A).
Proof. intros e He. by destruct o. Qed.
Lemma keeps_mret {A} (a : A) : keeps X (mret a : Task A).
Proof. by intros e He. Qed.
Lemma keeps_get {A} (f : Env -> A) : keeps X (get_env f).
Proof. by intros e He. Qed.
(** The cache itself is not in the backend. *)
Lemma keeps_sessions f : keeps X (set_sessions f).
Proof. by intros e He. Qed.
Lemma keeps_identities f : keeps X (set_identities f).
Proof. by intros e He. Qed.
Lemma keeps_sender_keys f : keeps X (set_sender_keys f).
Proof. by intros e He. Qed.
Lemma keeps_removed f : keeps X (set_removed f).
Proof. by intros e He. Qed.
Lemma keeps_evict : keeps X evict_sessions /\ keeps X evict_identities /\ keeps X evict_sender_keys.
Proof. split_and!; by intros e He. Qed.
End Tasks.
End Crash.

Ltac keeps_step :=
  first
    [ apply keeps_then; [|intros ?]
    | apply keeps_try
    | apply keeps_read; solve [auto]
    | apply keeps_get | apply keeps_mret | apply keeps_option
    | apply keeps_sessions | apply keeps_identities | apply keeps_sender_keys | apply keeps_removed | apply keeps_evict
    | case_match ].

Section CrashSafety.
Context {R K : Type} {CR : Codec R} {CK : Codec K} {HO : HashOrder}.
Context {LR : CodecLaws R} {LK : CodecLaws K} {HL : HashOrderLaws}.
Context (reg : gset (Z * bytes)) (b0 : Backend) (h0 : list Backend) (good : Backend -> Prop).

Abbreviation Env := (@Env R K).
Abbreviation Task := (@Task R K).
Abbreviation Ledger := (Ledger R K).
Abbreviation Inv := (@Inv R K CR CK reg b0).
Abbreviation Err := (@Err R K CR CK reg b0).
Abbreviation since := (since h0 good).
Abbreviation keeps := (keeps h0 good).

(** The devices' steps only read. *)
Lemma keeps_devices X pn lid ds m : (forall b, X b -> good b) -> keeps X (migrate_devices (R := R) (K := K) pn lid ds m).
Proof.
  intros HX. revert m. induction ds as [|d ds IH]; intros m; cbn [migrate_devices]; [apply keeps_mret|].
  apply keeps_then; [|intros s; apply keeps_then; [|intros i; apply IH]].
  - unfold migrate_session, get_session, get_session_populate, put_session, delete_session. repeat keeps_step.
  - unfold migrate_identity, get_identity, get_identity_populate, put_identity, delete_identity. repeat keeps_step.
Qed.
Lemma keeps_has_state X pn : (forall b, X b -> good b) -> keeps X (has_state_for_user (R := R) (K := K) pn).
Proof. intros HX. unfold has_state_for_user. repeat keeps_step. Qed.

(** [X] says something of the row of [x] only. *)
Definition about_row (x : bytes) (X : Backend -> Prop) : Prop :=
  forall b b', b_sessions b' !! x = b_sessions b !! x -> X b -> X b'.

Section Rest.
Context (x : bytes) (X : Backend -> Prop) (HX : forall b, X b -> good b) (Hx : about_row x X).

Lemma keeps_deletable l : keeps X (deletable (R := R) (K := K) l).
Proof. induction l as [|[id a] l IH]; cbn [deletable]; repeat (apply IH || keeps_step). Qed.
Lemma keeps_sender_batch st l : keeps X (sender_key_batch (R := R) st l).
Proof.
  induction l as [|a l IH]; cbn [sender_key_batch]; [apply keeps_mret|]. destruct (k_cache st !! a) as [[r|]|]; [| |done].
  - apply keeps_then; [done|]. intros rest. apply keeps_mret.
  - apply keeps_then; [|done]. apply keeps_write; [done|]. intros b. by apply Hx.
Qed.
(** After the sessions have been written. *)
Definition sessions_rest (st : SessionStoreState R) : Task unit :=
  _ ← each (fun a => write (delete_session_row a)) (iter (s_deleted st));
  let done := filter (fun a => is_checked_out (s_cache st !! a) = false) (iter (s_dirty st)) in
  _ ← set_sessions (fun st' => mkSessions (s_cache st') (s_dirty st' ∖ list_to_set done)
                                 (s_deleted st' ∖ list_to_set (iter (s_deleted st))));
  _ ← evict_sessions;
  removed ← get_env removed_prekeys;
  ids ← deletable (iter_prekeys removed);
  _ ← each (fun id => write (remove_prekey_row id)) ids;
  set_removed (fun m => foldr delete m ids).
Lemma keeps_sessions_rest st : x ∉ s_deleted st -> keeps X (sessions_rest st).
Proof.
  intros Hdel. unfold sessions_rest. apply keeps_then.
  { apply keeps_each. intros a Ha. apply keeps_write; [done|]. intros b. apply Hx. cbn.
    apply lookup_delete_ne. intros ->. by apply Hdel, elem_of_iter. }
  intros _. cbv zeta. do 4 (apply keeps_then; [repeat (apply keeps_deletable || keeps_step)|intros ?]).
  apply keeps_then; [|intros _; repeat keeps_step]. apply keeps_each. intros id _. apply keeps_write; [done|]. intros b. by apply Hx.
Qed.
Lemma keeps_flush_others : keeps X (_ ← flush_identities; flush_sender_keys : Task unit).
Proof.
  apply keeps_then; [|intros _].
  - unfold flush_identities. apply keeps_then; [keeps_step|]. intros st. cbv zeta. apply keeps_then; [keeps_step|]. intros batch.
    apply keeps_then; [|intros _; apply keeps_then; [|intros _; repeat keeps_step]];
      apply keeps_each; [intros [a v] _|intros a _]; (apply keeps_write; [done|]); intros b; by apply Hx.
  - unfold flush_sender_keys. apply keeps_then; [keeps_step|]. intros st. cbv zeta. apply keeps_then; [apply keeps_sender_batch|].
    intros batch. apply keeps_then; [|intros _; repeat keeps_step]. apply keeps_each. intros [a v] _.
    apply keeps_write; [done|]. intros b. by apply Hx.
Qed.
End Rest.

Lemma triple_both {A} (P P' : Env -> Prop) (m : Task A) (Q Q' : A -> Env -> Prop) (E E' : Env -> Prop) :
  triple P m Q E -> triple P' m Q' E' ->
  triple (fun e => P e /\ P' e) m (fun a e => Q a e /\ Q' a e) (fun e => E e /\ E' e).
Proof. intros H H' e [He He']. specialize (H e He). specialize (H' e He'). by destruct (m e) as [e' []]. Qed.

(** A flush: the writes keep [X0], what they leave is [X], and the deletions spare [x]. *)
Lemma flush_since L n x (X0 X : Backend -> Prop) (e : Env) :
  Inv L n e -> since X0 e -> (forall b, X0 b -> good b) -> (forall b, X b -> good b) -> about_row x X ->
  x ∉ s_deleted (sessions e) ->
  (forall a v, (a, v) ∈ session_batch (sessions e) (iter (s_dirty (sessions e))) -> forall b, X0 b -> X0 (put_session_row a v b)) ->
  (forall e', Inv L n e' -> sessions e' = sessions e ->
     (forall a r, a ∈ iter (s_dirty (sessions e)) -> s_cache (sessions e) !! a = Some (Present r) -> durable (backend e') a = Some r) ->
     X0 (backend e') -> X (backend e')) ->
  since good (fst (flush e)).
Proof.
  intros HI H0 HX0 HX Hx Hdel Hputs Hafter. set (st := sessions e) in *.
  set (m := ((_ ← each (fun '(a, v) => write (put_session_row a v)) (session_batch st (iter (s_dirty st))); sessions_rest st) ≫=
    fun _ => (_ ← flush_identities; flush_sender_keys)) : Task unit).
  assert (Hm : flush e = m e) by reflexivity.
  enough (Ht : triple (fun e1 => (Inv L n e1 /\ sessions e1 = st) /\ since X0 e1) m (fun _ => since good) (since good)).
  { specialize (Ht e (conj (conj HI eq_refl) H0)). rewrite Hm. by destruct (m e) as [e' []]. }
  clear Hm. subst m.
  assert (Hk : forall (m : Task unit), keeps X m -> triple (since X) m (fun _ => since X) (since good))
    by (intros m Hm; eapply triple_post; [exact Hm|done|]; intros e1; by apply since_weaken).
  assert (Hw : keeps X0 (each (fun '(a, v) => write (put_session_row a v)) (session_batch st (iter (s_dirty st))) : Task unit)).
  { apply keeps_each. intros [a v] Ha. apply keeps_write; [done|]. by apply Hputs. }
  eapply triple_bind; [eapply triple_bind|].
  - eapply triple_post; [exact (triple_both _ _ _ _ _ _ _ (write_sessions_ok reg b0 L n st (iter (s_dirty st))) Hw)| |].
    + intros a e1 H. exact H.
    + intros e1 [_ H]. revert H. by apply since_weaken.
  - intros []. eapply triple_pre; [apply Hk, (keeps_sessions_rest x X HX Hx st Hdel)|].
    intros e1 [(HI1 & Hst1 & Hd) [Hh Hx1]]. split; [done|]. by apply Hafter.
  - intros []. eapply triple_post; [apply Hk, (keeps_flush_others x X HX Hx)|intros ? e1; by apply since_weaken|done].
Qed.
End CrashSafety.

(** ** What the migration promises *)

Section Promises.
Context {R K : Type} {CR : Codec R} {CK : Codec K} {HO : HashOrder}.
Context {LR : CodecLaws R} {LK : CodecLaws K} {HL : HashOrderLaws}.

Abbreviation Env := (@Env R K).
Abbreviation Ledger := (Ledger R K).
Abbreviation Inv := (@Inv R K CR CK).

(** The session [r] of a device is under the linked id, or it is still under the phone number. *)
Definition has_row (p : bytes) (b : Backend) : Prop := is_Some (b_sessions b !! p).
Definition one_of (p l : bytes) (r : R) (b : Backend) : Prop := durable b l = Some r \/ has_row p b.

Lemma flush_moved reg b0 h0 L n p l r (e : Env) :
  Inv reg b0 L n e -> since h0 (one_of p l r) (has_row p) e -> l_sessions L !! l = Some r -> l ∉ l_out L ->
  since h0 (one_of p l r) (one_of p l r) (fst (flush e)).
Proof.
  intros HI H0 Hl Hout.
  assert (Hent : forall e', Inv reg b0 L n e' -> entry_ok (sessions e') (backend e') (l_sessions L) (l_out L) l)
    by (intros e' (((_ & Ha) & _) & _); apply Ha).
  pose proof (Hent e HI) as Hl0. unfold entry_ok in Hl0.
  assert (Hdel : l ∉ s_deleted (sessions e)) by (destruct (s_cache (sessions e) !! l) as [[]|]; naive_solver).
  apply (flush_since reg b0 h0 (one_of p l r) L n l (one_of p l r) (fun b => durable b l = Some r)); try done.
  - revert H0. apply since_weaken. by right.
  - by left.
  - intros b b' Hb. unfold durable. by rewrite Hb.
  - intros a v Hin b [Hb|Hb].
    + left. apply session_batch_elem in Hin as (_ & r' & Hc & ->). unfold durable. cbn.
      destruct (decide (a = l)) as [->|Hne]; [|by rewrite lookup_insert_ne].
      rewrite Hc in Hl0. rewrite lookup_insert_eq. destruct Hl0 as (_ & HA & _ & Hst & _). rewrite Hl in HA. injection HA as <-.
      by apply codec_inverse.
    + right. unfold has_row. cbn. destruct (decide (a = p)) as [->|Hne]; [by rewrite lookup_insert_eq|by rewrite lookup_insert_ne].
  - intros e' HI' Hst Hd _. specialize (Hent e' HI'). unfold entry_ok in Hent. rewrite Hst in Hent.
    destruct (s_cache (sessions e) !! l) as [[r'| |]|] eqn:Hc.
    + destruct Hent as (_ & HA & _ & _ & Hcl). rewrite Hl in HA. injection HA as <-.
      destruct (decide (l ∈ s_dirty (sessions e))) as [Hdy|Hdy]; [|by apply Hcl].
      apply Hd; [by apply elem_of_iter|done].
    + destruct Hent as (_ & HA & _). congruence.
    + by destruct Hent as (Ho & _).
    + destruct Hent as (_ & HA & _). by rewrite <- HA.
Qed.
Lemma flush_unmoved reg b0 h0 L n p l r (e : Env) :
  Inv reg b0 L n e -> since h0 (one_of p l r) (has_row p) e -> is_Some (l_sessions L !! p) -> p ∉ l_out L ->
  since h0 (one_of p l r) (one_of p l r) (fst (flush e)).
Proof.
  intros HI H0 [r' Hp] Hout. pose proof HI as (((_ & Ha) & _) & _). specialize (Ha p). unfold entry_ok in Ha.
  assert (Hdel : p ∉ s_deleted (sessions e)) by (destruct (s_cache (sessions e) !! p) as [[]|]; naive_solver).
  apply (flush_since reg b0 h0 (one_of p l r) L n p (has_row p) (has_row p)); try done.
  - by right.
  - by right.
  - intros b b' Hb. unfold has_row. by rewrite Hb.
  - intros a v _ b Hb. unfold has_row. cbn. destruct (decide (a = p)) as [->|Hne]; [by rewrite lookup_insert_eq|by rewrite lookup_insert_ne].
Qed.
Lemma look_some (L : Ledger) a r : look L a = Some r -> l_sessions L !! a = Some r /\ a ∉ l_out L.
Proof. unfold look. by destruct (decide (a ∈ l_out L)). Qed.
Lemma range_ok (plan : Plan) : plan.*1 = seqZ 0 MIGRATION_DEVICE_RANGE -> NoDup plan.*1 /\ Forall (fun d => 0 <= d <= 65535) plan.*1.
Proof.
  intros ->. split; [apply NoDup_seqZ|]. apply Forall_forall. intros d Hd%elem_of_seqZ. unfold MIGRATION_DEVICE_RANGE in Hd. lia.
Qed.
Lemma plan_elem (plan : Plan) d : d ∈ plan.*1 -> exists s i, (d, (s, i)) ∈ plan.
Proof. intros ([d' [s i]] & -> & Hin)%list_elem_of_fmap. eauto. Qed.

Lemma migrate_since reg b0 L n pn lid d r (e : Env) :
  Inv reg b0 L n e -> sized L -> 0 <= d < MIGRATION_DEVICE_RANGE ->
  look L (pn_address pn d) = Some r -> has_row (pn_address pn d) (backend e) ->
  let good := one_of (pn_address pn d) (lid_address lid d) r in
  since (history e) good good (fst (migrate_signal_sessions_on_lid_discovery pn lid e)).
Proof.
  intros HI Hs Hd Hl Hrow good. set (p := pn_address pn d) in *. set (l := lid_address lid d) in *. set (h0 := history e).
  assert (Hsub : forall b, has_row p b -> good b) by (by right).
  assert (H0 : since h0 good (has_row p) e) by (split; [exists []; by rewrite app_nil_r|done]).
  unfold migrate_signal_sessions_on_lid_discovery, mbind, Task_bind.
  pose proof (keeps_try h0 good (has_row p) _ (keeps_has_state h0 good (has_row p) pn Hsub) e H0) as Hk.
  pose proof (triple_try reg b0 L n _ _ Hs (has_state_ok reg b0 L n pn) e HI) as Ht.
  destruct (try_task (has_state_for_user pn) e) as [e1 [known|]]; [|done].
  assert (Hmain : forall n1, Inv reg b0 L n1 e1 ->
    since h0 good good (fst ((m ← migrate_devices pn lid (seqZ 0 MIGRATION_DEVICE_RANGE) false; _ ← try_task flush; mret m) e1))).
  { intros n1 HI1. pose proof (migrate_devices_ok reg b0 pn lid (seqZ 0 MIGRATION_DEVICE_RANGE) L n1 false Hs e1 HI1) as Hm.
    pose proof (keeps_devices h0 good (has_row p) pn lid (seqZ 0 MIGRATION_DEVICE_RANGE) false Hsub e1 Hk) as Hk2.
    unfold mbind, Task_bind. destruct (migrate_devices _ _ _ _ e1) as [e2 [m|]]; [|done]. destruct Hm as (plan & Hds & _ & _ & _ & HI2).
    destruct (range_ok plan Hds) as [Hnd Hr]. destruct (plan_elem plan d) as (s & i & Hin); [rewrite Hds; by apply elem_of_seqZ|].
    pose proof (migrate_ledger_settled pn lid plan L d s i Hnd Hr Hin) as [S1 S2 _ _ [S5 S6]]. fold p l in S1, S2, S5, S6.
    apply look_some in Hl as Hl'. destruct Hl' as [Hp Hout]. rewrite Hl in *.
    assert (Hf : since h0 good good (fst (flush e2))).
    { destruct s; [eapply flush_moved; [exact HI2|done|done|by apply S6]|].
      eapply flush_unmoved; [exact HI2|done|rewrite S2; eauto|by rewrite S5]. }
    unfold try_task. destruct (flush e2) as [e3 o3]. exact Hf. }
  destruct known as [[|]|].
  - exact (Hmain n (proj1 Ht)).
  - cbn. revert Hk. by apply since_weaken.
  - destruct Ht as (n' & _ & HI1). exact (Hmain n' HI1).
Qed.

Lemma migrate_ledger_quiet pn lid plan : forall L : Ledger,
  l_sender_keys (fst (migrate_ledger pn lid plan L)) = l_sender_keys L
  /\ (snd (migrate_ledger pn lid plan L) = false ->
      l_sessions (fst (migrate_ledger pn lid plan L)) = l_sessions L
      /\ forall d, l_identities (fst (migrate_ledger pn lid plan L)) !! lid_address lid d = l_identities L !! lid_address lid d).
Proof.
  induction plan as [|[d [s i]] plan IH]; intros L; [done|]. cbn [migrate_ledger].
  set (p := pn_address pn d). set (l := lid_address lid d). set (L1 := if s then _ else L). set (L2 := if i then _ else L1).
  destruct (IH L2) as [IHk IHq]. destruct (migrate_ledger pn lid plan L2) as [L' m]. cbn [fst snd] in *.
  assert (Hk : l_sender_keys L2 = l_sender_keys L).
  { subst L2 L1. unfold move_identity, move_session. by repeat case_match. }
  split; [by rewrite IHk|]. intros Hq. rewrite !orb_false_iff in Hq. destruct Hq as [[H1 H2] H3].
  destruct (IHq H3) as [IHs IHi]. assert (HL1 : L1 = L).
  { subst L1. destruct s; [|done]. unfold move_session. destruct (look L p); [|done]. by rewrite bool_decide_true in H1. }
  assert (HL2 : L2 = if i then move_identity L p l else L) by (subst L2; by rewrite HL1).
  rewrite HL1 in H2. clearbody L2. subst L2. rewrite IHs. split.
  - destruct i; [|done]. unfold move_identity. by repeat case_match.
  - intros d'. rewrite IHi. destruct i; [|done]. unfold move_identity, identity_moves in *.
    destruct (l_identities L !! p); [|done]. destruct (l_identities L !! l); [cbn|by rewrite !bool_decide_true in H2].
    apply lookup_delete_ne, pn_lid_address.
Qed.

(** C16: a linked id takes over the Signal state of its phone number.  In any state the cache has
    come to, and however the backend fails meanwhile, the migration ends.  The cache then
    answers as a ledger in which each device is settled on its own: its session has moved, in
    the place of what the linked id had, or its step was skipped and the session is where it
    was; the identity has moved unless the linked id had one, or was skipped.  All else is
    as before; each skipped step has used up a fault; nothing has come to the linked id when
    the answer is no; without faults every device is moved and the backend holds the outcome. *)
Theorem sessions_migrated b n fs (ops : list (Op R K)) pn lid :
  @sound R K CR CK b -> Forall storable_op ops ->
  let '(L, e) := both ops (ledger_of b, fresh b n fs) in
  sized L ->
  exists e' moved L' plan,
    migrate_signal_sessions_on_lid_discovery pn lid e = (e', Some moved) /\ coherent L' e'
    /\ plan.*1 = seqZ 0 MIGRATION_DEVICE_RANGE
    /\ (forall d s i, (d, (s, i)) ∈ plan -> settled s i L L' (pn_address pn d) (lid_address lid d))
    /\ (forall a, (forall d, 0 <= d < MIGRATION_DEVICE_RANGE -> a <> pn_address pn d /\ a <> lid_address lid d) -> untouched L L' a)
    /\ l_sender_keys L' = l_sender_keys L
    /\ (skipped plan + bad (faults e') <= bad (faults e))%nat
    /\ (moved = false -> l_sessions L' = l_sessions L
        /\ forall d, l_identities L' !! lid_address lid d = l_identities L !! lid_address lid d)
    /\ (bad (faults e) = 0%nat -> L' = L \/ flushed L' (backend e')).
Proof.
  intros Hb Hops. pose proof (both_ok (registered ops) b ops (ledger_of b) (bad fs) (fresh b n fs) Hops
    (consumes_registered ops) (fresh_ok _ b n fs Hb)) as HI. cbn zeta in HI.
  destruct (both ops (ledger_of b, fresh b n fs)) as [L e]. cbn [fst snd] in HI. intros Hs.
  pose proof (migrate_ok _ _ L _ pn lid Hs e HI) as Hm.
  destruct (migrate_signal_sessions_on_lid_discovery pn lid e) as [e' [moved|]]; [|done].
  destruct Hm as (plan & n' & Hds & Hk & -> & HI' & Hfl). destruct (range_ok plan Hds) as [Hnd Hr].
  destruct (migrate_ledger_quiet pn lid plan L) as [Hsk Hq].
  exists e', (snd (migrate_ledger pn lid plan L)), (fst (migrate_ledger pn lid plan L)), plan.
  split_and!; [done|apply HI'|done| | |done| |done|done].
  - intros d s i Hin. by apply migrate_ledger_settled.
  - intros a Ha. apply migrate_ledger_frame. intros d. rewrite Hds. intros Hd%elem_of_seqZ. apply Ha. lia.
  - destruct HI' as (_ & _ & Hf). lia.
Qed.

(** C17: a migration may be cut short.  For a device whose session is in the backend under the
    phone number, in every state the backend goes through from the first step of the migration
    to the last, the session as it was last used is there under the linked id, or a session is
    there under the phone number: wherever the process dies, the conversation goes on. *)
Theorem migration_crash_safe b n fs (ops : list (Op R K)) pn lid d :
  @sound R K CR CK b -> Forall storable_op ops -> 0 <= d < MIGRATION_DEVICE_RANGE ->
  let '(L, e) := both ops (ledger_of b, fresh b n fs) in
  sized L -> forall r, look L (pn_address pn d) = Some r -> is_Some (b_sessions (backend e) !! pn_address pn d) ->
  exists new, history (fst (migrate_signal_sessions_on_lid_discovery pn lid e)) = history e ++ new
  /\ Forall (fun b => durable b (lid_address lid d) = Some r \/ is_Some (b_sessions b !! pn_address pn d)) new.
Proof.
  intros Hb Hops Hd. pose proof (both_ok (registered ops) b ops (ledger_of b) (bad fs) (fresh b n fs) Hops
    (consumes_registered ops) (fresh_ok _ b n fs Hb)) as HI. cbn zeta in HI.
  destruct (both ops (ledger_of b, fresh b n fs)) as [L e]. cbn [fst snd] in HI. intros Hs r Hl Hrow.
  exact (proj1 (migrate_since _ _ L _ pn lid d r e HI Hs Hd Hl Hrow)).
Qed.
End Promises.

(** ** A contact with two devices *)

#[local] Existing Instances tiny_codec tiny_codec_laws sorted_order sorted_order_laws.

(** Devices 0 and 3 under the number [15]; device 3 has been used, and has a session under the
    linked id [77] already. *)
Definition two_devices : Backend :=
  mkBackend {[ pn_address (str "15") 0 := [20]; pn_address (str "15") 3 := [23]; lid_address (str "77") 3 := [30] ]}
    {[ pn_address (str "15") 0 := replicate 32 5 ]} ∅ ∅.
Definition device_used : list (Op Z Z) := [GetSession (pn_address (str "15") 3); PutSession (pn_address (str "15") 3) 24].
Lemma two_devices_sound : @sound Z Z tiny_codec tiny_codec two_devices.
Proof.
  split; [|apply map_Forall_empty]. repeat (apply map_Forall_insert_2; [by eexists|]). apply map_Forall_empty.
Qed.
Lemma device_used_storable : Forall storable_op device_used.
Proof. by repeat constructor. Qed.
Lemma device_used_sized : sized (fst (both device_used (ledger_of two_devices, fresh two_devices 2 [Fine; Refused; Fine; Unconfirmed]))).
Proof. apply (bool_decide_unpack _). vm_compute. exact I. Qed.

Lemma sessions_migrated_witness :
  let '(L, e) := both device_used (ledger_of two_devices, fresh two_devices 2 [Fine; Refused; Fine; Unconfirmed]) in
  exists e' moved L' plan, migrate_signal_sessions_on_lid_discovery (str "15") (str "77") e = (e', Some moved)
  /\ coherent L' e' /\ (skipped plan + bad (faults e') <= bad (faults e))%nat.
Proof.
  pose proof (sessions_migrated two_devices 2 [Fine; Refused; Fine; Unconfirmed] device_used (str "15") (str "77")
    two_devices_sound device_used_storable) as H. pose proof device_used_sized as Hs.
  destruct (both device_used (ledger_of two_devices, fresh two_devices 2 [Fine; Refused; Fine; Unconfirmed])) as [L e].
  destruct (H Hs) as (e' & moved & L' & plan & H1 & H2 & _ & _ & _ & _ & H3 & _). exists e', moved, L', plan. by split_and!.
Defined.

(** The devices after a run without faults, and what a process that starts then finds. *)
Example two_devices_moved :
  let e := snd (both device_used (ledger_of two_devices, fresh two_devices 2 [])) in
  let b := backend (fst (migrate_signal_sessions_on_lid_discovery (str "15") (str "77") e)) in
  b_sessions b = {[ lid_address (str "77") 0 := [20]; lid_address (str "77") 3 := [24] ]}
  /\ b_identities b = {[ lid_address (str "77") 0 := replicate 32 5 ]}.
Proof. split; apply (bool_decide_unpack _); vm_compute; exact I. Qed.
Lemma migration_crash_safe_witness :
  let '(L, e) := both device_used (ledger_of two_devices, fresh two_devices 2 [Fine; Refused; Fine; Unconfirmed]) in
  exists r new, history (fst (migrate_signal_sessions_on_lid_discovery (str "15") (str "77") e)) = history e ++ new
  /\ Forall (fun b => durable b (lid_address (str "77") 3) = Some r \/ is_Some (b_sessions b !! pn_address (str "15") 3)) new.
Proof.
  pose proof (migration_crash_safe two_devices 2 [Fine; Refused; Fine; Unconfirmed] device_used (str "15") (str "77") 3
    two_devices_sound device_used_storable) as H. pose proof device_used_sized as Hs.
  assert (Hl : let '(L, e) := both device_used (ledger_of two_devices, fresh two_devices 2 [Fine; Refused; Fine; Unconfirmed]) in
    look L (pn_address (str "15") 3) = Some 24 /\ is_Some (b_sessions (backend e) !! pn_address (str "15") 3))
    by (split; apply (bool_decide_unpack _); vm_compute; exact I).
  destruct (both device_used (ledger_of two_devices, fresh two_devices 2 [Fine; Refused; Fine; Unconfirmed])) as [L e].
  destruct Hl as [Hl Hr]. exists 24. apply (H ltac:(by unfold MIGRATION_DEVICE_RANGE) Hs 24 Hl Hr).
Defined.
