(* ===== verification/LidPn.v ===== *)
(** * Linked ids and phone numbers

    [src/lid_pn_cache.rs], [src/client/lid_pn.rs] and [wacore/src/types/lid_pn.rs], over the
    mappings of [store/in_memory.rs].  A mapping is learned, kept in memory under both of its
    names, written by a task that runs later, and read back when the process starts again.

    The three maps of the cache do not expire by default; what a configured limit drops is a
    step of its own.  Writes may fail, as a list of faults says.  The migration of the device
    registry is a mark in a log, that of the Signal state is the one of [LidMigrate]. *)

From stdpp Require Import prelude gmap strings.
From S2P Require Import Prelude Jid SignalCache CacheLedger CacheRun LidMigrate.

#[local] Open Scope Z_scope.

Inductive LearningSource : Type :=
  | Usync | PeerPnMessage | PeerLidMessage | RecipientLatestLid | MigrationSyncLatest | MigrationSyncOld
  | BlocklistActive | BlocklistInactive | SrcPairing | DeviceNotification | SrcOther.
#[export] Instance LearningSource_eq_dec : EqDecision LearningSource.
Proof. solve_decision. Defined.
Definition learning_sources : list LearningSource :=
  [Usync; PeerPnMessage; PeerLidMessage; RecipientLatestLid; MigrationSyncLatest; MigrationSyncOld; BlocklistActive;
   BlocklistInactive; SrcPairing; DeviceNotification; SrcOther].
Definition source_as_str (s : LearningSource) : bytes :=
  match s with
  | Usync => str "usync" | PeerPnMessage => str "peer_pn_message" | PeerLidMessage => str "peer_lid_message"
  | RecipientLatestLid => str "recipient_latest_lid" | MigrationSyncLatest => str "migration_sync_latest"
  | MigrationSyncOld => str "migration_sync_old" | BlocklistActive => str "blocklist_active"
  | BlocklistInactive => str "blocklist_inactive" | SrcPairing => str "pairing"
  | DeviceNotification => str "device_notification" | SrcOther => str "other"
  end.
Definition source_parse (s : bytes) : LearningSource :=
  default SrcOther (List.find (fun x => bytes_eqb (source_as_str x) s) learning_sources).

Record LidPnEntry : Type := mkLidEntry { le_lid : bytes; le_phone_number : bytes; le_created_at : Z; le_source : LearningSource }.
Record LidPnMappingEntry : Type := mkMapping {
  lm_lid : bytes; lm_phone_number : bytes; lm_created_at : Z; lm_updated_at : Z; lm_learning_source : bytes
}.
Definition mapping_to_entry (m : LidPnMappingEntry) : LidPnEntry :=
  mkLidEntry (lm_lid m) (lm_phone_number m) (lm_created_at m) (source_parse (lm_learning_source m)).
Definition storage_entry (e : LidPnEntry) : LidPnMappingEntry :=
  mkMapping (le_lid e) (le_phone_number e) (le_created_at e) (le_created_at e) (source_as_str (le_source e)).

(** ** The cache *)

(** What the tracker of device topology is told. *)
Inductive TopologyMark : Type := RecordUsers (lid pn : bytes) | RecordGlobal.
Record LidPnCache : Type := mkLidCache {
  lid_to_entry : gmap bytes LidPnEntry; pn_to_entry : gmap bytes LidPnEntry; persisted : gmap bytes bytes;
  topology : list TopologyMark
}.
Definition lid_cache_new : LidPnCache := mkLidCache ∅ ∅ ∅ [].

Definition get_current_lid (phone : bytes) (c : LidPnCache) : option bytes := le_lid <$> pn_to_entry c !! phone.
Definition get_phone_number (lid : bytes) (c : LidPnCache) : option bytes := le_phone_number <$> lid_to_entry c !! lid.
Definition is_persisted (phone lid : bytes) (c : LidPnCache) : bool := bool_decide (persisted c !! phone = Some lid).
Definition can_skip_relearn (phone lid : bytes) (c : LidPnCache) : bool :=
  is_persisted phone lid c && bool_decide (get_current_lid phone c = Some lid) && bool_decide (get_phone_number lid c = Some phone).
Definition should_update_pn (entry : LidPnEntry) (c : LidPnCache) : bool :=
  match pn_to_entry c !! le_phone_number entry with
  | Some existing => le_created_at existing <=? le_created_at entry
  | None => true
  end.
Definition cache_add (entry : LidPnEntry) (c : LidPnCache) : LidPnCache :=
  mkLidCache (<[le_lid entry := entry]> (lid_to_entry c))
    (if should_update_pn entry c then <[le_phone_number entry := entry]> (pn_to_entry c) else pn_to_entry c)
    (persisted c) (topology c ++ [RecordUsers (le_lid entry) (le_phone_number entry)]).
Definition mark_persisted (phone lid : bytes) (c : LidPnCache) : LidPnCache :=
  mkLidCache (lid_to_entry c) (pn_to_entry c) (<[phone := lid]> (persisted c)) (topology c).
Definition warm_up (entries : list LidPnEntry) (c : LidPnCache) : LidPnCache := fold_left (fun c e => cache_add e c) entries c.
Definition cache_clear (c : LidPnCache) : LidPnCache := mkLidCache ∅ ∅ ∅ (topology c ++ [RecordGlobal]).
(** What a limit on the maps drops. *)
Definition cache_drop (lids phones marks : list bytes) (c : LidPnCache) : LidPnCache :=
  mkLidCache (foldr delete (lid_to_entry c) lids) (foldr delete (pn_to_entry c) phones) (foldr delete (persisted c) marks) (topology c).

(** ** The store *)

Record LidStore : Type := mkLidStore { lid_mappings : gmap bytes LidPnMappingEntry; pn_to_lid : gmap bytes bytes }.
Definition get_lid_mapping (lid : bytes) (s : LidStore) : option LidPnMappingEntry := lid_mappings s !! lid.
Definition get_pn_mapping (phone : bytes) (s : LidStore) : option LidPnMappingEntry :=
  lid ← pn_to_lid s !! phone; lid_mappings s !! lid.
Definition put_lid_mapping (m : LidPnMappingEntry) (s : LidStore) : LidStore :=
  let index :=
    match lid_mappings s !! lm_lid m with
    | Some old => if bytes_eqb (lm_phone_number old) (lm_phone_number m) then pn_to_lid s else delete (lm_phone_number old) (pn_to_lid s)
    | None => pn_to_lid s
    end in
  mkLidStore (<[lm_lid m := m]> (lid_mappings s)) (<[lm_phone_number m := lm_lid m]> index).

(** ** The client *)

Section Client.
Context {R K : Type} {CR : Codec R} {CK : Codec K} {HO : HashOrder}.

Definition get_all_lid_mappings (s : LidStore) : list LidPnMappingEntry :=
  omap (fun l => lid_mappings s !! l) (iter (dom (lid_mappings s))).

(** The tasks that are still to run. *)
Inductive LidTask : Type :=
  | PersistOne (entry : LidPnEntry) (is_new : bool)
  | PersistBatch (entries : list (LidPnEntry * bool)).
Record LidClient : Type := mkLidClient {
  lc_cache : LidPnCache; lc_store : LidStore; lc_faults : list Fault; lc_signal : @Env R K;
  lc_tasks : list LidTask; lc_registry : list (bytes * bytes)
}.
Definition on_cache (f : LidPnCache -> LidPnCache) (c : LidClient) : LidClient :=
  mkLidClient (f (lc_cache c)) (lc_store c) (lc_faults c) (lc_signal c) (lc_tasks c) (lc_registry c).
Definition on_signal (f : @Env R K -> @Env R K) (c : LidClient) : LidClient :=
  mkLidClient (lc_cache c) (lc_store c) (lc_faults c) (f (lc_signal c)) (lc_tasks c) (lc_registry c).
Definition spawn (t : LidTask) (c : LidClient) : LidClient :=
  mkLidClient (lc_cache c) (lc_store c) (lc_faults c) (lc_signal c) (lc_tasks c ++ [t]) (lc_registry c).
Definition next_fault (c : LidClient) : Fault := default Fine (head (lc_faults c)).
Definition store_op {A} (f : LidStore -> LidStore * A) (c : LidClient) : LidClient * option A :=
  let '(s, a) := f (lc_store c) in
  let s := match next_fault c with Refused => lc_store c | _ => s end in
  (mkLidClient (lc_cache c) s (tail (lc_faults c)) (lc_signal c) (lc_tasks c) (lc_registry c),
   match next_fault c with Fine => Some a | _ => None end).

(** Both migrations. *)
Definition migrate_on_discovery (pn lid : bytes) (c : LidClient) : LidClient :=
  on_signal (fun e => fst (migrate_signal_sessions_on_lid_discovery pn lid e))
    (mkLidClient (lc_cache c) (lc_store c) (lc_faults c) (lc_signal c) (lc_tasks c) (lc_registry c ++ [(pn, lid)])).
Definition persisted_one (entry : LidPnEntry) (is_new : bool) (c : LidClient) : LidClient :=
  let c := on_cache (mark_persisted (le_phone_number entry) (le_lid entry)) c in
  if is_new then migrate_on_discovery (le_phone_number entry) (le_lid entry) c else c.
Definition persist_and_migrate_lid_pn (entry : LidPnEntry) (is_new : bool) (c : LidClient) : LidClient * bool :=
  match store_op (fun s => (put_lid_mapping (storage_entry entry) s, tt)) c with
  | (c, Some _) => (persisted_one entry is_new c, true)
  | (c, None) => (c, false)
  end.
(** The default of the trait. *)
Fixpoint put_lid_mappings (ms : list LidPnMappingEntry) (c : LidClient) : LidClient * bool :=
  match ms with
  | [] => (c, true)
  | m :: ms =>
      match store_op (fun s => (put_lid_mapping m s, tt)) c with
      | (c, Some _) => put_lid_mappings ms c
      | (c, None) => (c, false)
      end
  end.
Definition persist_and_migrate_lid_pn_batch (entries : list (LidPnEntry * bool)) (c : LidClient) : LidClient * bool :=
  match put_lid_mappings (storage_entry <$> entries.*1) c with
  | (c, true) => (fold_left (fun c '(e, is_new) => persisted_one e is_new c) entries c, true)
  | (c, false) => (c, false)
  end.
Definition run_task (t : LidTask) (c : LidClient) : LidClient :=
  match t with
  | PersistOne e is_new => fst (persist_and_migrate_lid_pn e is_new c)
  | PersistBatch es => fst (persist_and_migrate_lid_pn_batch es c)
  end.

(** *** Learning *)

Definition record_lid_pn_in_memory (now : Z) (lid phone : bytes) (source : LearningSource) (c : LidClient)
    : LidClient * (LidPnEntry * bool) :=
  let is_new := bool_decide (get_current_lid phone (lc_cache c) = None) in
  let entry := mkLidEntry lid phone now source in
  (on_cache (cache_add entry) c, (entry, is_new)).
Definition add_lid_pn_mapping (now : Z) (lid phone : bytes) (source : LearningSource) (c : LidClient) : LidClient * bool :=
  let '(c, (entry, is_new)) := record_lid_pn_in_memory now lid phone source c in
  persist_and_migrate_lid_pn entry is_new c.
Definition learn_lid_pn_mapping_fast (now : Z) (lid phone : bytes) (source : LearningSource) (is_offline : bool) (c : LidClient)
    : LidClient :=
  if can_skip_relearn phone lid (lc_cache c) then c
  else
    let '(c, (entry, is_new)) := record_lid_pn_in_memory now lid phone source c in
    if is_offline then c else spawn (PersistOne entry is_new) c.

(** The last linked id of each number. *)
Definition dedup_mappings (mappings : list (bytes * bytes)) : gmap bytes bytes :=
  fold_left (fun m '(lid, phone) => <[phone := lid]> m) mappings ∅.
Definition learn_round (now : bytes -> Z) (source : LearningSource) (acc : LidClient * list (LidPnEntry * bool)) (pair : bytes * bytes)
    : LidClient * list (LidPnEntry * bool) :=
  let '(c, entries) := acc in
  let '(phone, lid) := pair in
  if can_skip_relearn phone lid (lc_cache c) then (c, entries)
  else let '(c, entry) := record_lid_pn_in_memory (now phone) lid phone source c in (c, entries ++ [entry]).
Definition learn_lid_pn_mappings_batch (now : bytes -> Z) (mappings : list (bytes * bytes)) (source : LearningSource) (is_offline : bool)
    (c : LidClient) : LidClient :=
  match mappings with
  | [] => c
  | _ =>
      let deduped := dedup_mappings mappings in
      let pairs := omap (fun phone => pair phone <$> deduped !! phone) (iter (dom deduped)) in
      let '(c, entries) := fold_left (learn_round now source) pairs (c, []) in
      if is_offline || match entries with [] => true | _ => false end then c else spawn (PersistBatch entries) c
  end.

(** *** Looking up *)

Definition jid_is (s : Server) (j : Jid) : bool := server_eqb (j_server j) s.
Definition resolve_lid_mappings (jids : list Jid) (c : LidPnCache) : list Jid :=
  (fun jid =>
     if negb (jid_is Pn jid) && negb (jid_is Lid jid) then jid
     else if jid_is Lid jid then jid
     else match get_current_lid (j_user jid) c with
          | Some lid_user => lid_device lid_user (j_device jid)
          | None => jid
          end) <$> jids.
Definition resolve_encryption_jid (target : Jid) (c : LidPnCache) : Jid :=
  match (match j_server target with Pn => Some Lid | Hosted => Some HostedLid | _ => None end) with
  | None => target
  | Some lid_server =>
      match get_current_lid (j_user target) c with
      | Some lid_user => mkJid lid_user lid_server (j_agent target) (j_device target) (j_integrator target)
      | None => target
      end
  end.
Definition swap_pn_lid_namespace (jid : Jid) (c : LidPnCache) : option Jid :=
  if jid_is Lid jid then
    pn_user ← get_phone_number (j_user jid) c;
    Some (mkJid pn_user Pn (j_agent jid) (j_device jid) (j_integrator jid))
  else if jid_is Pn jid then
    lid_user ← get_current_lid (j_user jid) c;
    Some (mkJid lid_user Lid (j_agent jid) (j_device jid) (j_integrator jid))
  else None.
Definition stored_mapping (jid : Jid) (s : LidStore) : option LidPnMappingEntry :=
  if jid_is Lid jid then get_lid_mapping (j_user jid) s else get_pn_mapping (j_user jid) s.
(** [None] is the error. *)
Definition get_lid_pn_entry (jid : Jid) (c : LidClient) : LidClient * option (option LidPnEntry) :=
  if negb (jid_is Lid jid) && negb (jid_is Pn jid) then (c, Some None)
  else
    let hit := if jid_is Lid jid then lid_to_entry (lc_cache c) !! j_user jid else pn_to_entry (lc_cache c) !! j_user jid in
    match hit with
    | Some entry => (c, Some (Some entry))
    | None =>
        match store_op (fun s => (s, stored_mapping jid s)) c with
        | (c, Some (Some mapping)) =>
            let entry := mapping_to_entry mapping in
            (on_cache (cache_add entry) c, Some (Some entry))
        | (c, Some None) => (c, Some None)
        | (c, None) => (c, None)
        end
    end.
Definition resolve_recipient_to_lid (jid : Jid) (c : LidClient) : LidClient * option Jid :=
  if jid_is Lid jid then (c, Some (to_non_ad jid))
  else if negb (jid_is Pn jid) then (c, None)
  else
    match get_lid_pn_entry jid c with
    | (c, Some (Some entry)) => (c, Some (jid_new (le_lid entry) Lid))
    | (c, _) => (c, None)
    end.
Definition warm_up_lid_pn_cache (c : LidClient) : LidClient * bool :=
  match store_op (fun s => (s, get_all_lid_mappings s)) c with
  | (c, Some []) => (c, true)
  | (c, Some entries) => (on_cache (warm_up (mapping_to_entry <$> entries)) c, true)
  | (c, None) => (c, false)
  end.
End Client.
Arguments LidClient : clear implicits.

(** ** The newest mapping *)

(** Of the entries of [p], none before [e] is newer, and all after it are older. *)
Definition newest (es : list LidPnEntry) (p : bytes) (e : LidPnEntry) : Prop :=
  exists pre post, es = pre ++ e :: post /\ le_phone_number e = p
  /\ (forall x, x ∈ pre -> le_phone_number x = p -> le_created_at x <= le_created_at e)
  /\ (forall x, x ∈ post -> le_phone_number x = p -> le_created_at x < le_created_at e).
Lemma newest_snoc es p e x : newest es p e -> (le_phone_number x = p -> le_created_at x < le_created_at e) -> newest (es ++ [x]) p e.
Proof.
  intros (pre & post & -> & Hp & H1 & H2) Hx. exists pre, (post ++ [x]). split_and!; [by rewrite <- app_assoc|done|done|].
  intros y [Hy| ->%list_elem_of_singleton]%elem_of_app; auto.
Qed.
Lemma newest_max es p e x : newest es p e -> x ∈ es -> le_phone_number x = p -> le_created_at x <= le_created_at e.
Proof.
  intros (pre & post & -> & _ & H1 & H2) [Hx|[->|Hx]%elem_of_cons]%elem_of_app Hp; [by apply H1|lia|].
  specialize (H2 x Hx Hp). lia.
Qed.
Lemma newest_elem es p e : newest es p e -> e ∈ es /\ le_phone_number e = p.
Proof. intros (pre & post & -> & Hp & _). split; [set_solver|done]. Qed.

(** The number leads to the newest of its entries, the last of them when several are. *)
Lemma warm_up_newest es p :
  match pn_to_entry (warm_up es lid_cache_new) !! p with
  | Some e => newest es p e
  | None => forall x, x ∈ es -> le_phone_number x <> p
  end.
Proof.
  induction es as [|x es IH] using rev_ind.
  { change (pn_to_entry (warm_up [] lid_cache_new)) with (∅ : gmap bytes LidPnEntry). rewrite lookup_empty.
    intros x Hx. by apply elem_of_nil in Hx. }
  unfold warm_up in *. rewrite fold_left_app. cbn [fold_left]. set (c := fold_left _ es lid_cache_new) in *.
  cbn [cache_add pn_to_entry]. destruct (decide (le_phone_number x = p)) as [<-|Hne].
  - unfold should_update_pn. destruct (pn_to_entry c !! le_phone_number x) as [e|] eqn:He.
    + destruct (Z.leb_spec (le_created_at e) (le_created_at x)).
      * rewrite lookup_insert_eq. exists es, []. split_and!; [done|done| |intros y Hy; by apply elem_of_nil in Hy].
        intros y Hy Hp. pose proof (newest_max _ _ _ _ IH Hy Hp). lia.
      * rewrite He. apply newest_snoc; [done|]. lia.
    + rewrite lookup_insert_eq. exists es, []. split_and!; [done|done| |intros y Hy; by apply elem_of_nil in Hy].
      intros y Hy Hp. by destruct (IH y Hy).
  - assert (Hsame : (if should_update_pn x c then <[le_phone_number x := x]> (pn_to_entry c) else pn_to_entry c) !! p = pn_to_entry c !! p)
      by (destruct (should_update_pn x c); [by rewrite lookup_insert_ne|done]).
    rewrite Hsame.
    destruct (pn_to_entry c !! p) as [e|].
    + apply newest_snoc; [done|]. intros H. congruence.
    + intros y [Hy| ->%list_elem_of_singleton]%elem_of_app; auto.
Qed.
Lemma warm_up_lids es l :
  match lid_to_entry (warm_up es lid_cache_new) !! l with
  | Some e => e ∈ es /\ le_lid e = l
  | None => forall x, x ∈ es -> le_lid x <> l
  end.
Proof.
  induction es as [|x es IH] using rev_ind.
  { change (lid_to_entry (warm_up [] lid_cache_new)) with (∅ : gmap bytes LidPnEntry). rewrite lookup_empty.
    intros x Hx. by apply elem_of_nil in Hx. }
  unfold warm_up in *. rewrite fold_left_app. cbn [fold_left]. set (c := fold_left _ es lid_cache_new) in *.
  cbn [cache_add lid_to_entry]. destruct (decide (le_lid x = l)) as [<-|Hne].
  - rewrite lookup_insert_eq. split; [set_solver|done].
  - rewrite lookup_insert_ne by done. destruct (lid_to_entry c !! l) as [e|]; [split; [set_solver|naive_solver]|].
    intros y [Hy| ->%list_elem_of_singleton]%elem_of_app; auto.
Qed.

(** ** Runs of the client *)

Section Runs.
Context {R K : Type} {CR : Codec R} {CK : Codec K} {HO : HashOrder} {HL : HashOrderLaws}.

Abbreviation LidClient := (LidClient R K).

(** A process that starts on the store. *)
Definition lid_client_new (s : LidStore) (b : Backend) (max_entries : Z) (faults : list Fault) : LidClient :=
  mkLidClient lid_cache_new s faults (fresh b max_entries []) [] [].
Definition restart (c : LidClient) : LidClient :=
  fst (warm_up_lid_pn_cache (lid_client_new (lc_store c) (backend (lc_signal c)) (max_entries (lc_signal c)) [])).

Inductive LidOp : Type :=
  | OpAdd (now : Z) (lid phone : bytes) (source : LearningSource)
  | OpLearn (now : Z) (lid phone : bytes) (source : LearningSource) (is_offline : bool)
  | OpBatch (now : bytes -> Z) (mappings : list (bytes * bytes)) (source : LearningSource) (is_offline : bool)
  | OpRun (i : nat)
  | OpLookup (jid : Jid)
  | OpDrop (lids phones marks : list bytes)
  | OpClear
  | OpRestart (faults : list Fault).
Definition lid_op (op : LidOp) (c : LidClient) : LidClient :=
  match op with
  | OpAdd now lid phone source => fst (add_lid_pn_mapping now lid phone source c)
  | OpLearn now lid phone source off => learn_lid_pn_mapping_fast now lid phone source off c
  | OpBatch now mappings source off => learn_lid_pn_mappings_batch now mappings source off c
  | OpRun i =>
      match lc_tasks c !! i with
      | Some t => run_task t (mkLidClient (lc_cache c) (lc_store c) (lc_faults c) (lc_signal c) (delete i (lc_tasks c)) (lc_registry c))
      | None => c
      end
  | OpLookup jid => fst (get_lid_pn_entry jid c)
  | OpDrop lids phones marks => on_cache (cache_drop lids phones marks) c
  | OpClear => on_cache cache_clear c
  | OpRestart faults => fst (warm_up_lid_pn_cache (lid_client_new (lc_store c) (backend (lc_signal c)) (max_entries (lc_signal c)) faults))
  end.
Definition lid_run (ops : list LidOp) (c : LidClient) : LidClient := fold_left (fun c op => lid_op op c) ops c.

(** What an operation learns: linked ids with their numbers. *)
Definition learned (op : LidOp) : list (bytes * bytes) :=
  match op with
  | OpAdd _ lid phone _ | OpLearn _ lid phone _ _ => [(lid, phone)]
  | OpBatch _ mappings _ _ => mappings
  | _ => []
  end.

(** *** With one number to a linked id *)

Section OneNumber.
Context (phone_of : bytes -> bytes).

Definition entry_true (e : LidPnEntry) : Prop := phone_of (le_lid e) = le_phone_number e.
Record cache_true (s : LidStore) (c : LidPnCache) : Prop := {
  ct_lid l e : lid_to_entry c !! l = Some e -> le_lid e = l /\ entry_true e;
  ct_pn p e : pn_to_entry c !! p = Some e -> le_phone_number e = p /\ entry_true e;
  ct_persisted p l : persisted c !! p = Some l -> is_Some (lid_mappings s !! l) /\ phone_of l = p
}.
Record store_true (s : LidStore) : Prop := {
  sr_row l m : lid_mappings s !! l = Some m -> lm_lid m = l /\ phone_of l = lm_phone_number m;
  sr_index p l : pn_to_lid s !! p = Some l -> is_Some (lid_mappings s !! l) /\ phone_of l = p
}.
Definition task_true (t : LidTask) : Prop :=
  match t with PersistOne e _ => entry_true e | PersistBatch es => Forall entry_true es.*1 end.
Definition client_true (c : LidClient) : Prop :=
  cache_true (lc_store c) (lc_cache c) /\ store_true (lc_store c) /\ Forall task_true (lc_tasks c).

Lemma cache_add_true s c e : cache_true s c -> entry_true e -> cache_true s (cache_add e c).
Proof.
  intros [H1 H2 H3] He. split; [|intros p x|done].
  - intros l x. cbn. destruct (decide (le_lid e = l)) as [<-|Hne]; [|rewrite lookup_insert_ne by done; apply H1].
    rewrite lookup_insert_eq. by intros [= <-].
  - cbn. destruct (should_update_pn e c); [|apply H2].
    destruct (decide (le_phone_number e = p)) as [<-|Hne]; [|rewrite lookup_insert_ne by done; apply H2].
    rewrite lookup_insert_eq. by intros [= <-].
Qed.
Lemma mark_true s c e :
  cache_true s c -> is_Some (lid_mappings s !! le_lid e) -> entry_true e -> cache_true s (mark_persisted (le_phone_number e) (le_lid e) c).
Proof.
  intros [H1 H2 H3] Hr He. split; [done|done|]. intros p l. cbn.
  destruct (decide (le_phone_number e = p)) as [<-|Hne]; [|rewrite lookup_insert_ne by done; apply H3].
  rewrite lookup_insert_eq. by intros [= <-].
Qed.
Lemma put_true s e : store_true s -> entry_true e -> store_true (put_lid_mapping (storage_entry e) s).
Proof.
  intros [H1 H2] He. split.
  - intros l m. cbn. destruct (decide (le_lid e = l)) as [<-|Hne]; [|rewrite lookup_insert_ne by done; apply H1].
    rewrite lookup_insert_eq. by intros [= <-].
  - intros p l. cbn. destruct (decide (le_phone_number e = p)) as [<-|Hne].
    + rewrite lookup_insert_eq. intros [= <-]. rewrite lookup_insert_eq. by eauto.
    + rewrite lookup_insert_ne by done. intros Hidx.
      assert (Hl : pn_to_lid s !! p = Some l).
      { destruct (lid_mappings s !! le_lid e) as [old|]; [|done]. destruct (bytes_eqb _ _); [done|].
        by apply lookup_delete_Some in Hidx as [_ Hidx]. }
      destruct (H2 p l Hl) as [Hr Hp]. split; [|done]. rewrite lookup_insert_is_Some. by destruct (decide (le_lid e = l)); [left|right].
Qed.
(** Rows are never taken away. *)
Lemma put_rows s m l : is_Some (lid_mappings s !! l) -> is_Some (lid_mappings (put_lid_mapping m s) !! l).
Proof. intros H. cbn. rewrite lookup_insert_is_Some. destruct (decide (lm_lid m = l)); [by left|by right]. Qed.
Lemma cache_true_put s c m : cache_true s c -> cache_true (put_lid_mapping m s) c.
Proof. intros [H1 H2 H3]. split; [done|done|]. intros p l H. destruct (H3 p l H) as [Hr Hp]. split; [by apply put_rows|done]. Qed.

Lemma store_op_true {A} (f : LidStore -> LidStore * A) (c : LidClient) :
  client_true c -> (f (lc_store c)).1 = lc_store c \/ (exists e, entry_true e /\ (f (lc_store c)).1 = put_lid_mapping (storage_entry e) (lc_store c)) ->
  client_true (store_op f c).1
  /\ (forall a, (store_op f c).2 = Some a -> lc_store (store_op f c).1 = (f (lc_store c)).1 /\ a = (f (lc_store c)).2)
  /\ (forall l, is_Some (lid_mappings (lc_store c) !! l) -> is_Some (lid_mappings (lc_store (store_op f c).1) !! l))
  /\ lc_cache (store_op f c).1 = lc_cache c.
Proof.
  intros (Hc & Hs & Ht) Hf. unfold store_op. destruct (f (lc_store c)) as [s a]. cbn [fst snd] in *.
  assert (Htrue : cache_true s (lc_cache c) /\ store_true s /\ forall l, is_Some (lid_mappings (lc_store c) !! l) -> is_Some (lid_mappings s !! l)).
  { destruct Hf as [->|(e & He & ->)]; [done|]. split_and!; [by apply cache_true_put|by apply put_true|]. intros l. apply put_rows. }
  destruct Htrue as (Hc' & Hs' & Hr). destruct (next_fault c); (split_and!; [by split_and!| |done|done]); by intros ? [= <-].
Qed.
Lemma persisted_one_true c e (is_new : bool) :
  client_true c -> entry_true e -> is_Some (lid_mappings (lc_store c) !! le_lid e) ->
  client_true (persisted_one e is_new c) /\ lc_store (persisted_one e is_new c) = lc_store c.
Proof.
  intros (Hc & Hs & Ht) He Hr. pose proof (mark_true _ _ e Hc Hr He) as Hm. unfold persisted_one. by destruct is_new.
Qed.
Lemma persist_true c e is_new :
  client_true c -> entry_true e ->
  client_true (persist_and_migrate_lid_pn e is_new c).1
  /\ ((persist_and_migrate_lid_pn e is_new c).2 = true -> is_Some (lid_mappings (lc_store (persist_and_migrate_lid_pn e is_new c).1) !! le_lid e)).
Proof.
  intros Hc He. unfold persist_and_migrate_lid_pn.
  destruct (store_op_true (fun s => (put_lid_mapping (storage_entry e) s, tt)) c Hc) as (H1 & H2 & _ & _); [right; by exists e|].
  destruct (store_op _ c) as [c' [[]|]]; [|done]. cbn [fst snd] in *. destruct (H2 tt eq_refl) as [Hst _].
  assert (Hr : is_Some (lid_mappings (lc_store c') !! le_lid e)) by (rewrite Hst; cbn; rewrite lookup_insert_eq; eauto).
  destruct (persisted_one_true c' e is_new H1 He Hr) as [H3 H4]. split; [done|]. intros _. by rewrite H4.
Qed.
Lemma put_all_true es : forall c, client_true c -> Forall entry_true es ->
  client_true (put_lid_mappings (storage_entry <$> es) c).1
  /\ (forall l, is_Some (lid_mappings (lc_store c) !! l) -> is_Some (lid_mappings (lc_store (put_lid_mappings (storage_entry <$> es) c).1) !! l))
  /\ ((put_lid_mappings (storage_entry <$> es) c).2 = true -> forall e, e ∈ es ->
      is_Some (lid_mappings (lc_store (put_lid_mappings (storage_entry <$> es) c).1) !! le_lid e)).
Proof.
  induction es as [|e es IH]; intros c Hc Hes; [split_and!; [done|done|]; intros _ e He; by apply elem_of_nil in He|].
  apply Forall_cons in Hes as [He Hes]. cbn [fmap list_fmap put_lid_mappings].
  destruct (store_op_true (fun s => (put_lid_mapping (storage_entry e) s, tt)) c Hc) as (H1 & H2 & H3 & _); [right; by exists e|].
  destruct (store_op _ c) as [c' [[]|]]; cbn [fst snd] in *; [|split_and!; [done|done|done]].
  destruct (H2 tt eq_refl) as [Hst _]. destruct (IH c' H1 Hes) as (I1 & I2 & I3). split_and!; [done|by auto|].
  intros Hok x [->|Hx]%elem_of_cons; [|by apply I3]. apply I2. rewrite Hst. cbn. rewrite lookup_insert_eq. eauto.
Qed.
Lemma persisted_all_true (es : list (LidPnEntry * bool)) : forall c, client_true c -> Forall entry_true es.*1 ->
  (forall e, e ∈ es.*1 -> is_Some (lid_mappings (lc_store c) !! le_lid e)) ->
  client_true (fold_left (fun c '(e, is_new) => persisted_one e is_new c) es c).
Proof.
  induction es as [|[e b] es IH]; intros c Hc Hes Hr; [done|]. cbn in Hes. apply Forall_cons in Hes as [He Hes]. cbn [fold_left].
  destruct (persisted_one_true c e b Hc He) as [H1 H2]; [apply Hr; left|]. apply IH; [done|done|].
  intros x Hx. rewrite H2. apply Hr. by right.
Qed.
Lemma run_task_true t c : client_true c -> task_true t -> client_true (run_task t c).
Proof.
  intros Hc Ht. destruct t as [e b|es]; cbn [run_task task_true] in *; [by apply persist_true|].
  unfold persist_and_migrate_lid_pn_batch. destruct (put_all_true es.*1 c Hc Ht) as (H1 & _ & H3).
  destruct (put_lid_mappings _ c) as [c' [|]]; [|done]. apply persisted_all_true; [done|done|]. by apply H3.
Qed.

Lemma record_true now lid phone source c :
  client_true c -> phone_of lid = phone ->
  client_true (record_lid_pn_in_memory now lid phone source c).1 /\ entry_true (record_lid_pn_in_memory now lid phone source c).2.1.
Proof. intros (Hc & Hs & Ht) He. split; [|done]. split_and!; [by apply cache_add_true|done|done]. Qed.
Lemma spawn_true t c : client_true c -> task_true t -> client_true (spawn t c).
Proof. intros (Hc & Hs & Ht) H. split_and!; [done|done|]. apply Forall_app. by split; [|apply Forall_singleton]. Qed.
Lemma batch_true now source pairs : forall c entries,
  client_true c -> Forall entry_true (entries : list (LidPnEntry * bool)).*1 -> Forall (fun '(phone, lid) => phone_of lid = phone) pairs ->
  client_true (fold_left (learn_round now source) pairs (c, entries)).1
  /\ Forall entry_true (fold_left (learn_round now source) pairs (c, entries)).2.*1.
Proof.
  induction pairs as [|[phone lid] pairs IH]; intros c entries Hc He Hp; [done|]. apply Forall_cons in Hp as [Hp Hps].
  cbn [fold_left learn_round]. destruct (can_skip_relearn phone lid (lc_cache c)); [by apply IH|].
  destruct (record_true (now phone) lid phone source c Hc Hp) as [H1 H2].
  destruct (record_lid_pn_in_memory _ _ _ _ c) as [c' e]. apply IH; [done| |done]. rewrite fmap_app. apply Forall_app. split; [done|].
  by apply Forall_singleton.
Qed.
Lemma dedup_elem mappings p l : dedup_mappings mappings !! p = Some l -> (l, p) ∈ mappings.
Proof.
  induction mappings as [|[lid phone] ms IH] using rev_ind; [done|]. unfold dedup_mappings in *. rewrite fold_left_app. cbn [fold_left].
  destruct (decide (phone = p)) as [->|Hne]; [rewrite lookup_insert_eq; intros [= ->]; set_solver|].
  rewrite lookup_insert_ne by done. intros H. apply elem_of_app. left. by apply IH.
Qed.
Lemma lookup_true jid c : client_true c -> client_true (get_lid_pn_entry jid c).1.
Proof.
  intros Hc. unfold get_lid_pn_entry. destruct (negb _ && negb _); [done|]. destruct (if jid_is Lid jid then _ else _); [done|].
  destruct (store_op_true (fun s => (s, stored_mapping jid s)) c Hc) as (H1 & H2 & _ & _); [by left|].
  destruct (store_op _ c) as [c' [[m|]|]]; [|done|done]. cbn [fst snd] in *. destruct (H2 _ eq_refl) as [Hst Hm].
  destruct H1 as (H1 & H3 & H4). split_and!; [|done|done]. apply cache_add_true; [done|].
  enough (Hrow : exists l, lid_mappings (lc_store c) !! l = Some m).
  { destruct Hrow as [l Hl]. cbn in Hst. rewrite <- Hst in Hl. by destruct (sr_row _ H3 l m Hl) as [<- ?]. }
  symmetry in Hm. unfold stored_mapping in Hm. destruct (jid_is Lid jid); [by eexists|].
  unfold get_pn_mapping in Hm. apply bind_Some in Hm as (l & _ & Hl). by exists l.
Qed.

Lemma all_mappings_elem (s : LidStore) m : m ∈ get_all_lid_mappings s <-> exists l, lid_mappings s !! l = Some m.
Proof.
  unfold get_all_lid_mappings. rewrite list_elem_of_omap. split; [intros (l & _ & Hl); by exists l|].
  intros [l Hl]. exists l. split; [|done]. rewrite iter_perm. apply elem_of_elements, elem_of_dom. eauto.
Qed.
Lemma mapping_true s m : store_true s -> m ∈ get_all_lid_mappings s -> entry_true (mapping_to_entry m).
Proof. intros Hs [l Hl]%all_mappings_elem. by destruct (sr_row _ Hs l m Hl) as [<- ?]. Qed.
Lemma warm_up_true s es : forall c, cache_true s c -> Forall entry_true es -> cache_true s (warm_up es c).
Proof.
  induction es as [|e es IH]; intros c Hc Hes; [done|]. apply Forall_cons in Hes as [He Hes]. apply (IH (cache_add e c)); [|done].
  by apply cache_add_true.
Qed.
Lemma empty_cache_true s marks : cache_true s (mkLidCache ∅ ∅ ∅ marks).
Proof. split; cbn; intros ?? H; by rewrite lookup_empty in H. Qed.
Lemma restart_true s b n fs : store_true s -> client_true (warm_up_lid_pn_cache (lid_client_new s b n fs)).1.
Proof.
  intros Hs. unfold warm_up_lid_pn_cache.
  assert (Hc : client_true (lid_client_new s b n fs)) by (split_and!; [apply empty_cache_true|done|done]).
  destruct (store_op_true (fun s => (s, get_all_lid_mappings s)) _ Hc) as (H1 & H2 & _ & _); [by left|].
  destruct (store_op _ _) as [c' [[|m ms]|]]; [done| |done]. cbn [fst snd] in *. destruct (H2 _ eq_refl) as [_ Hms].
  destruct H1 as (H1 & H3 & H4). split_and!; [|done|done]. apply warm_up_true; [done|].
  apply Forall_fmap, Forall_forall. intros x Hx. rewrite Hms in Hx. exact (mapping_true s x Hs Hx).
Qed.
Lemma lid_op_true op c : client_true c -> Forall (fun '(lid, phone) => phone_of lid = phone) (learned op) -> client_true (lid_op op c).
Proof.
  intros Hc Hl. destruct op as [now lid phone src|now lid phone src off|now ms src off|i|jid|ls ps marks| |fs]; cbn [lid_op learned] in *.
  - apply Forall_inv in Hl. destruct (record_true now lid phone src c Hc Hl) as [H1 H2].
    unfold add_lid_pn_mapping. destruct (record_lid_pn_in_memory _ _ _ _ c) as [c' [e b]]. by apply persist_true.
  - apply Forall_inv in Hl. unfold learn_lid_pn_mapping_fast. destruct (can_skip_relearn _ _ _); [done|].
    destruct (record_true now lid phone src c Hc Hl) as [H1 H2].
    destruct (record_lid_pn_in_memory _ _ _ _ c) as [c' [e b]]. destruct off; [done|]. by apply spawn_true.
  - unfold learn_lid_pn_mappings_batch. destruct ms as [|m0 ms']; [done|]. set (ms := m0 :: ms') in *.
    set (pairs := omap _ _). destruct (batch_true now src pairs c []) as [H1 H2]; [done|done| |].
    { apply Forall_forall. intros [phone lid] (p & _ & Hp)%list_elem_of_omap.
      apply fmap_Some in Hp as (l & Hl' & [= -> ->]). apply dedup_elem in Hl'.
      rewrite Forall_forall in Hl. exact (Hl _ Hl'). }
    destruct (fold_left _ pairs _) as [c' entries]. destruct (off || _); [done|]. by apply spawn_true.
  - destruct (lc_tasks c !! i) as [t|] eqn:Ht; [|done]. destruct Hc as (H1 & H2 & H3). apply run_task_true.
    + split_and!; [done|done|]. by apply Forall_delete.
    + by eapply Forall_lookup_1.
  - by apply lookup_true.
  - destruct Hc as ([H1 H2 H3] & Hs & Ht). split_and!; [|done|done].
    assert (Hd : forall {V} (m : gmap bytes V) ks k v, foldr delete m ks !! k = Some v -> m !! k = Some v).
    { intros V m ks k v. induction ks as [|x ks IH]; [done|]. cbn. intros [_ H]%lookup_delete_Some. by apply IH. }
    split; cbn; intros ?? ?%Hd; eauto.
  - destruct Hc as (_ & Hs & Ht). split_and!; [apply empty_cache_true|done|done].
  - by apply restart_true, Hc.
Qed.
Lemma lid_run_true ops : forall c, client_true c ->
  (forall op, op ∈ ops -> Forall (fun '(lid, phone) => phone_of lid = phone) (learned op)) -> client_true (lid_run ops c).
Proof.
  induction ops as [|op ops IH]; intros c Hc Hl; [done|]. apply (IH (lid_op op c)).
  - apply lid_op_true; [done|]. apply Hl. left.
  - intros x Hx. apply Hl. by right.
Qed.

(** The mapping is there after a restart, and its number leads to the newest of its linked ids. *)
Definition survives (c : LidClient) (lid p : bytes) : Prop :=
  get_phone_number lid (lc_cache (restart c)) = Some p
  /\ exists l m, get_current_lid p (lc_cache (restart c)) = Some l /\ get_lid_mapping l (lc_store c) = Some m /\ lm_phone_number m = p
     /\ forall l' m', get_lid_mapping l' (lc_store c) = Some m' -> lm_phone_number m' = p -> lm_created_at m' <= lm_created_at m.
Lemma restart_cache c : lc_cache (restart c) = warm_up (mapping_to_entry <$> get_all_lid_mappings (lc_store c)) lid_cache_new.
Proof. unfold restart, warm_up_lid_pn_cache, store_op. cbn. by destruct (get_all_lid_mappings (lc_store c)). Qed.
Lemma restart_survives c lid : client_true c -> is_Some (get_lid_mapping lid (lc_store c)) -> survives c lid (phone_of lid).
Proof.
  intros (_ & Hs & _) [m0 Hm0]. unfold survives, get_phone_number, get_current_lid. rewrite restart_cache.
  set (es := mapping_to_entry <$> _).
  assert (Hes : forall x, x ∈ es <-> exists l m, lid_mappings (lc_store c) !! l = Some m /\ x = mapping_to_entry m).
  { intros x. unfold es. rewrite list_elem_of_fmap. split.
    - intros (m & -> & [l Hl]%all_mappings_elem). eauto.
    - intros (l & m & Hl & ->). exists m. split; [done|]. apply all_mappings_elem. eauto. }
  destruct (sr_row _ Hs lid m0 Hm0) as [Hlid Hphone]. split.
  - pose proof (warm_up_lids es lid) as H. destruct (lid_to_entry _ !! lid) as [e|].
    + destruct H as [Hin Hel]. apply Hes in Hin as (l & m & Hl & ->). destruct (sr_row _ Hs l m Hl) as [Hml Hmp].
      cbn in *. by rewrite <- Hel, Hml, Hmp.
    + destruct (H (mapping_to_entry m0)); [apply Hes; eauto|done].
  - pose proof (warm_up_newest es (phone_of lid)) as H. destruct (pn_to_entry _ !! phone_of lid) as [e|].
    + destruct (newest_elem _ _ _ H) as [Hin Hp]. apply Hes in Hin as (l & m & Hl & ->). destruct (sr_row _ Hs l m Hl) as [Hml Hmp].
      exists l, m. cbn. rewrite Hml. split_and!; [done|done|done|]. intros l' m' Hl' Hp'.
      apply (newest_max _ _ _ (mapping_to_entry m') H); [apply Hes; eauto|done].
    + destruct (H (mapping_to_entry m0)); [apply Hes; eauto|done].
Qed.
End OneNumber.

(** C18: learned mappings are true, and durable when the client takes them to be.  As long as a
    linked id belongs to one number, whatever is learned, in batches, offline or not, whatever
    tasks have run in whatever order, whatever writes fail, whatever the cache drops, and over
    restarts: a linked id leads to its number and a number to one of its linked ids.  A mapping
    that the fast path skips, and one that [add_lid_pn_mapping] reports as stored, is found
    again after a restart, where the number leads to the newest linked id of those stored. *)
Theorem lid_mappings_durable (phone_of : bytes -> bytes) (s : LidStore) b n fs (ops : list LidOp) :
  store_true phone_of s -> (forall op, op ∈ ops -> Forall (fun '(lid, phone) => phone_of lid = phone) (learned op)) ->
  let c := lid_run ops (lid_client_new s b n fs) in
  (forall lid p, get_phone_number lid (lc_cache c) = Some p -> p = phone_of lid)
  /\ (forall p lid, get_current_lid p (lc_cache c) = Some lid -> phone_of lid = p)
  /\ (forall lid p, can_skip_relearn p lid (lc_cache c) = true -> survives c lid p)
  /\ (forall now source lid, let '(c', ok) := add_lid_pn_mapping now lid (phone_of lid) source c in
        ok = true -> survives c' lid (phone_of lid)).
Proof.
  intros Hs Hops c. assert (Hc : client_true phone_of c) by (apply lid_run_true; [split_and!; [apply empty_cache_true|done|done]|done]).
  pose proof Hc as ([H1 H2 H3] & _ & _). split_and!.
  - intros lid p (e & He & ->)%fmap_Some. by destruct (H1 lid e He) as [<- ?].
  - intros p lid (e & He & ->)%fmap_Some. by destruct (H2 p e He) as [<- ?].
  - intros lid p Hskip. unfold can_skip_relearn, is_persisted in Hskip. rewrite !andb_true_iff, !bool_decide_eq_true in Hskip.
    destruct Hskip as [[Hp _] _]. destruct (H3 p lid Hp) as [Hr <-]. by apply restart_survives.
  - intros now source lid. destruct (record_true phone_of now lid (phone_of lid) source c Hc eq_refl) as [Hr He].
    unfold add_lid_pn_mapping. destruct (record_lid_pn_in_memory _ _ _ _ c) as [c1 [e b']] eqn:Hrec.
    assert (le_lid e = lid) as <- by (by inversion Hrec).
    destruct (persist_true phone_of c1 e b' Hr He) as [H4 H5]. destruct (persist_and_migrate_lid_pn e b' c1) as [c' ok].
    intros ->. apply (restart_survives phone_of); [done|]. by apply H5.
Qed.
End Runs.

(** ** Addresses *)

#[local] Arguments get_current_lid : simpl never.
#[local] Arguments get_phone_number : simpl never.

Lemma resolve_idem j c : resolve_encryption_jid (resolve_encryption_jid j c) c = resolve_encryption_jid j c.
Proof.
  unfold resolve_encryption_jid. destruct j as [user [] agent device integrator]; cbn; try done;
    destruct (get_current_lid user c) eqn:E; cbn; by rewrite ?E.
Qed.
(** A mapping that is known both ways takes an address there and back. *)
Lemma swap_there_and_back j lid c :
  get_current_lid (j_user j) c = Some lid -> get_phone_number lid c = Some (j_user j) -> j_server j = Pn ->
  (swap_pn_lid_namespace j c ≫= fun j' => swap_pn_lid_namespace j' c) = Some j.
Proof.
  intros H1 H2 Hs. destruct j as [user server agent device integrator]. cbn in *. subst server.
  unfold swap_pn_lid_namespace at 2. change (jid_is Lid (mkJid user Pn agent device integrator)) with false.
  change (jid_is Pn (mkJid user Pn agent device integrator)) with true. cbn. rewrite H1. cbn [mbind option_bind].
  unfold swap_pn_lid_namespace. change (jid_is Lid (mkJid lid Lid agent device integrator)) with true. cbn. by rewrite H2.
Qed.

(** ** Concrete runs *)

#[local] Existing Instances tiny_codec tiny_codec_laws sorted_order sorted_order_laws.

Definition demo_phone_of (lid : bytes) : bytes := if bytes_eqb lid (str "99") then str "16" else str "15".
Definition lid_demo_ops : list LidOp :=
  [OpLearn 5 (str "77") (str "15") PeerLidMessage true; OpBatch (fun _ => 6) [(str "78", str "15"); (str "99", str "16")] Usync false;
   OpRun 0; OpAdd 7 (str "77") (str "15") Usync; OpDrop [str "77"] [] []; OpLookup (lid_device (str "77") 2)].
Definition lid_demo : LidClient Z Z := lid_client_new (mkLidStore ∅ ∅) two_devices 2 [Fine; Fine; Unconfirmed].

Lemma lid_mappings_durable_witness :
  let c := lid_run lid_demo_ops lid_demo in
  can_skip_relearn (str "16") (str "99") (lc_cache c) = true /\ survives c (str "99") (str "16")
  /\ get_current_lid (str "15") (lc_cache c) = Some (str "77").
Proof.
  assert (Hs : store_true demo_phone_of (mkLidStore ∅ ∅)) by (split; cbn; intros ?? H; by rewrite lookup_empty in H).
  assert (Hops : forall op, op ∈ lid_demo_ops -> Forall (fun '(lid, phone) => demo_phone_of lid = phone) (learned op)).
  { apply Forall_forall. repeat constructor. }
  destruct (lid_mappings_durable demo_phone_of (mkLidStore ∅ ∅) two_devices 2 [Fine; Fine; Unconfirmed] lid_demo_ops Hs Hops)
    as (_ & _ & H & _).
  assert (Hk : can_skip_relearn (str "16") (str "99") (lc_cache (lid_run lid_demo_ops lid_demo)) = true) by (by vm_compute).
  split; [exact Hk|]. split; [exact (H _ _ Hk)|]. by vm_compute.
Defined.

(** A mapping that was first seen in an offline message is known when a live one brings it
    again: the sessions of the number are never moved, and stay where nobody looks for them. *)
Definition live_only : list LidOp := [OpLearn 2 (str "77") (str "15") PeerLidMessage false; OpRun 0].
Definition offline_first : list LidOp := OpLearn 1 (str "77") (str "15") PeerLidMessage true :: live_only.
Example offline_learn_never_migrates :
  let c := lid_run offline_first lid_demo in
  let c' := lid_run live_only lid_demo in
  lc_tasks c = [] /\ lc_registry c = [] /\ b_sessions (backend (lc_signal c)) = b_sessions two_devices
  /\ resolve_encryption_jid (pn_device (str "15") 0) (lc_cache c) = lid_device (str "77") 0
  /\ can_skip_relearn (str "15") (str "77") (lc_cache c) = true
  /\ lc_registry c' = [(str "15", str "77")] /\ b_sessions (backend (lc_signal c')) !! lid_address (str "77") 0 = Some [20].
Proof. split_and!; apply (bool_decide_unpack _); vm_compute; exact I. Qed.

(** A linked id goes to another number and comes back in an offline message: the mark of its
    first write makes the fast path skip it, and the store keeps the other number. *)
Example returned_lid_not_durable :
  let c := lid_run [OpAdd 1 (str "77") (str "15") Usync; OpAdd 2 (str "77") (str "16") Usync;
                    OpLearn 3 (str "77") (str "15") PeerLidMessage true] lid_demo in
  can_skip_relearn (str "15") (str "77") (lc_cache c) = true
  /\ lm_phone_number <$> get_lid_mapping (str "77") (lc_store c) = Some (str "16")
  /\ get_phone_number (str "77") (lc_cache (restart c)) = Some (str "16").
Proof. split_and!; apply (bool_decide_unpack _); vm_compute; exact I. Qed.

(** In the memory store, a linked id that moves takes the index of its old number with it, also
    when that number has another linked id by then. *)
Example reverse_index_dropped :
  let row lid phone := storage_entry (mkLidEntry lid phone 1 Usync) in
  let s := put_lid_mapping (row (str "77") (str "16")) (put_lid_mapping (row (str "78") (str "15"))
             (put_lid_mapping (row (str "77") (str "15")) (mkLidStore ∅ ∅))) in
  get_pn_mapping (str "15") s = None /\ lm_phone_number <$> get_lid_mapping (str "78") s = Some (str "15").
Proof. split; vm_compute; reflexivity. Qed.
