(* ===== verification/PreKeyUpload.v ===== *)
(** * One-time pre-keys: planning, generating and uploading them

    [src/prekeys.rs] over the device of [store/persistence_manager.rs] and the pre-key
    methods of the trait [SignalStore].  The device keeps two watermarks: ids from
    [next_pre_key_id] on were never generated, ids below [first_unupload_pre_key_id] were
    offered to the server or given up.  A change of the device is first made in memory; a
    flush, or the background saver, writes it.

    A run of the code meets a script: at every point where it waits, other tasks act (an
    incoming message consumes a key, the saver saves, the process is killed), and then the
    operation that it waited for happens, fails, or happens and fails to say so. *)

From stdpp Require Import prelude gmap sorting.
From S2P Require Import Prelude Curve SignalCache.

#[local] Open Scope Z_scope.

(** ** The plan *)

Definition MIN_PRE_KEY_COUNT : Z := 5.
Definition MAX_PREKEY_ID : Z := 16777215.
Definition MAX_PRE_KEY_UPLOAD_BATCH : Z := 65535.
Definition DEFAULT_WANTED_PRE_KEY_COUNT : Z := 812.

Definition should_upload_pre_keys (force : bool) (server_count : Z) : bool :=
  force || (server_count <? MIN_PRE_KEY_COUNT).
Definition clamp_wanted_pre_key_count (n : Z) : Z :=
  Z.min (Z.max n MIN_PRE_KEY_COUNT) MAX_PRE_KEY_UPLOAD_BATCH.
Definition start_prekey_id (next_pre_key_id max_store_id : Z) : Z :=
  let raw := if 0 <? next_pre_key_id then Z.max next_pre_key_id (max_store_id + 1) else max_store_id + 1 in
  wrap 32 ((raw - 1) mod MAX_PREKEY_ID) + 1.

Record PreKeyUploadPlan : Type := mkPlan {
  window_start : Z; available : Z; gen_count : Z; gen_start : Z; new_next : Z
}.
Definition fresh_window (wanted start : Z) : PreKeyUploadPlan :=
  let start := if MAX_PREKEY_ID <? start + wanted - 1 then 1 else start in
  mkPlan (wrap 32 start) 0 (wrap 32 wanted) (wrap 32 start) (wrap 32 (start + wanted)).
Definition plan_prekey_upload (first_unupload next max_store_id wanted : Z) : PreKeyUploadPlan :=
  if (first_unupload =? 0) || (next <? first_unupload) then fresh_window wanted (start_prekey_id next max_store_id)
  else
    let available := Z.min (next - first_unupload) wanted in
    let gen_count := wanted - available in
    if (MAX_PREKEY_ID <? first_unupload + wanted - 1) || ((0 <? gen_count) && (MAX_PREKEY_ID <? next + gen_count - 1))
    then fresh_window wanted 1
    else mkPlan (wrap 32 first_unupload) (wrap 32 available) (wrap 32 gen_count) (wrap 32 next) (wrap 32 (next + gen_count)).

(** ** Records *)

(** [PreKeyRecordStructure] *)
Record PreKeyStructure : Type := mkStructure {
  ps_id : option Z; ps_public_key : option bytes; ps_private_key : option bytes
}.
(** Its protobuf codec. *)
Class PreKeyCodec : Type := {
  encode_structure : PreKeyStructure -> bytes;
  decode_structure : bytes -> option PreKeyStructure
}.
Class PreKeyCodecLaws {PC : PreKeyCodec} : Prop :=
  decode_encode_structure : forall id pub priv, 0 <= id < 2 ^ 32 ->
    decode_structure (encode_structure (mkStructure (Some id) (Some pub) (Some priv)))
    = Some (mkStructure (Some id) (Some pub) (Some priv)).

(** ** The world *)

(** The device, as far as pre-keys go. *)
Record PreKeyDevice : Type := mkPreKeyDevice {
  next_pre_key_id : Z; first_unupload_pre_key_id : Z; server_has_prekeys : bool
}.
Record DeviceKeys : Type := mkDeviceKeys {
  dk_registration_id : Z; dk_identity : PublicKey; dk_signed_id : Z; dk_signed : PublicKey; dk_signature : bytes
}.
Record PreKeyUploadSpec : Type := mkUploadSpec {
  us_registration_id : Z; us_identity_key : PublicKey; us_signed_pre_key_id : Z;
  us_signed_pre_key_public : PublicKey; us_signed_pre_key_signature : bytes; us_pre_keys : list (Z * PublicKey)
}.

(** What other tasks do while the code waits.  [SaverSaves] is a save of the background
    saver from beginning to end, [SaverBegins] and [SaverEnds] are its two halves. *)
Inductive Event : Type :=
  | Consumed (id : Z) | SaverSaves (f : Fault) | SaverBegins | SaverEnds (f : Fault)
  | PreKeysLow | SetWanted (n : Z) | LoggedIn (b : bool) | Crash.
Record Moment : Type := mkMoment { m_events : list Event; m_fault : Fault; m_count : Z }.

Inductive PreKeyError : Type :=
  | EStore | EFlush | ENoPreKey | ENoDecodable | EIq | ERecord | EConnectionLost.

Record PreKeyWorld : Type := mkPreKeyWorld {
  pw_device : PreKeyDevice; pw_dirty : bool; pw_saving : option PreKeyDevice; pw_disk : PreKeyDevice;
  pw_store : gmap Z bytes; pw_wanted : Z; pw_logged_in : bool;
  (** the keys drawn from the generator, and how many were drawn *)
  pw_generated : nat;
  (** the upload requests handed to the socket; the keys given out in retry receipts; the
      keys that messages have consumed; the waits between attempts *)
  pw_sent : list PreKeyUploadSpec; pw_handed : list (Z * PublicKey); pw_consumed : gset Z; pw_delays : list Z;
  pw_script : list Moment
}.
Definition set_device (d : PreKeyDevice) (dirty : bool) (w : PreKeyWorld) : PreKeyWorld :=
  mkPreKeyWorld d dirty (pw_saving w) (pw_disk w) (pw_store w) (pw_wanted w) (pw_logged_in w) (pw_generated w)
    (pw_sent w) (pw_handed w) (pw_consumed w) (pw_delays w) (pw_script w).
Definition set_disk (d : PreKeyDevice) (dirty : bool) (saving : option PreKeyDevice) (w : PreKeyWorld) : PreKeyWorld :=
  mkPreKeyWorld (pw_device w) dirty saving d (pw_store w) (pw_wanted w) (pw_logged_in w) (pw_generated w)
    (pw_sent w) (pw_handed w) (pw_consumed w) (pw_delays w) (pw_script w).
Definition set_store (s : gmap Z bytes) (consumed : gset Z) (w : PreKeyWorld) : PreKeyWorld :=
  mkPreKeyWorld (pw_device w) (pw_dirty w) (pw_saving w) (pw_disk w) s (pw_wanted w) (pw_logged_in w) (pw_generated w)
    (pw_sent w) (pw_handed w) consumed (pw_delays w) (pw_script w).
Definition set_flags (wanted : Z) (logged_in : bool) (script : list Moment) (w : PreKeyWorld) : PreKeyWorld :=
  mkPreKeyWorld (pw_device w) (pw_dirty w) (pw_saving w) (pw_disk w) (pw_store w) wanted logged_in (pw_generated w)
    (pw_sent w) (pw_handed w) (pw_consumed w) (pw_delays w) script.
Definition set_logs (generated : nat) (sent : list PreKeyUploadSpec) (handed : list (Z * PublicKey)) (delays : list Z)
    (w : PreKeyWorld) : PreKeyWorld :=
  mkPreKeyWorld (pw_device w) (pw_dirty w) (pw_saving w) (pw_disk w) (pw_store w) (pw_wanted w) (pw_logged_in w) generated
    sent handed (pw_consumed w) delays (pw_script w).

(** *** Tasks *)

(** A task returns, fails, is killed with its process, or is still retrying. *)
Inductive Ended (A : Type) : Type := Done (a : A) | Fails (e : PreKeyError) | Killed | Retrying.
Arguments Done {A} a.
Arguments Fails {A} e.
Arguments Killed {A}.
Arguments Retrying {A}.
Definition Task (A : Type) : Type := PreKeyWorld -> PreKeyWorld * Ended A.
#[global] Instance task_ret : MRet Task := fun A a w => (w, Done a).
#[global] Instance task_bind : MBind Task := fun A B f t w =>
  match t w with
  | (w, Done a) => f a w
  | (w, Fails e) => (w, Fails e)
  | (w, Killed) => (w, Killed)
  | (w, Retrying) => (w, Retrying)
  end.
Definition fails {A} (e : PreKeyError) : Task A := fun w => (w, Fails e).
Definition get {A} (f : PreKeyWorld -> A) : Task A := fun w => (w, Done (f w)).
Definition put (f : PreKeyWorld -> PreKeyWorld) : Task unit := fun w => (f w, Done tt).

(** *** The persistence manager *)

(** What is written, and whether the device is dirty afterwards. *)
Definition save_result (f : Fault) (d : PreKeyDevice) (w : PreKeyWorld) : PreKeyWorld :=
  set_disk (match f with Refused => pw_disk w | _ => d end)
    (match f with Fine => pw_dirty w | _ => true end) (pw_saving w) w.
Definition with_server_has (b : bool) (d : PreKeyDevice) : PreKeyDevice :=
  mkPreKeyDevice (next_pre_key_id d) (first_unupload_pre_key_id d) b.
Definition modify_device (f : PreKeyDevice -> PreKeyDevice) (w : PreKeyWorld) : PreKeyWorld :=
  set_device (f (pw_device w)) true w.

Definition saver_saves (f : Fault) (w : PreKeyWorld) : PreKeyWorld :=
  if pw_dirty w then save_result f (pw_device w) (set_device (pw_device w) false w) else w.
Definition saver_begins (w : PreKeyWorld) : PreKeyWorld :=
  if pw_dirty w && bool_decide (pw_saving w = None)
  then set_disk (pw_disk w) false (Some (pw_device w)) w else w.
Definition saver_ends (f : Fault) (w : PreKeyWorld) : PreKeyWorld :=
  match pw_saving w with
  | Some d => save_result f d (set_disk (pw_disk w) (pw_dirty w) None w)
  | None => w
  end.
(** A new process reads the device from the store. *)
Definition restart_device (w : PreKeyWorld) : PreKeyWorld :=
  set_disk (pw_disk w) false None (set_device (pw_disk w) false w).

Definition happen (ev : Event) (w : PreKeyWorld) : PreKeyWorld :=
  match ev with
  | Consumed id => set_store (delete id (pw_store w)) ({[id]} ∪ pw_consumed w) w
  | SaverSaves f => saver_saves f w
  | SaverBegins => saver_begins w
  | SaverEnds f => saver_ends f w
  | PreKeysLow => modify_device (with_server_has false) w
  | SetWanted n => set_flags n (pw_logged_in w) (pw_script w) w
  | LoggedIn b => set_flags (pw_wanted w) b (pw_script w) w
  | Crash => restart_device w
  end.
(** The events up to a crash. *)
Fixpoint happens (evs : list Event) (w : PreKeyWorld) : PreKeyWorld * bool :=
  match evs with
  | [] => (w, false)
  | Crash :: _ => (happen Crash w, true)
  | ev :: evs => happens evs (happen ev w)
  end.
(** A point where the code waits: for a moment of the script, or when it has run out for
    nothing. *)
Definition await : Task Moment := fun w =>
  match pw_script w with
  | [] => (w, Done (mkMoment [] Fine 0))
  | m :: script =>
      let '(w, killed) := happens (m_events m) (set_flags (pw_wanted w) (pw_logged_in w) script w) in
      (w, if killed then Killed else Done m)
  end.

Definition process_command (f : PreKeyDevice -> PreKeyDevice) : Task unit :=
  _ ← await; put (modify_device f).
Definition set_watermarks (next first : Z) (d : PreKeyDevice) : PreKeyDevice :=
  mkPreKeyDevice next first (server_has_prekeys d).
(** [save_to_disk]: the flag is taken first, and nothing is done when it was not set. *)
Definition flush_device : Task unit :=
  _ ← await;
  dirty ← get pw_dirty;
  if dirty : bool then
    device ← get pw_device;
    _ ← put (set_device device false);
    m ← await;
    _ ← put (save_result (m_fault m) device);
    match m_fault m with Fine => mret tt | _ => fails EFlush end
  else mret tt.

(** *** The backend *)

Definition backend {A} (write : gmap Z bytes -> gmap Z bytes) (read : gmap Z bytes -> A) : Task A :=
  m ← await;
  a ← get (fun w => read (pw_store w));
  match m_fault m with
  | Fine => _ ← put (fun w => set_store (write (pw_store w)) (pw_consumed w) w); mret a
  | Refused => fails EStore
  | Unconfirmed => _ ← put (fun w => set_store (write (pw_store w)) (pw_consumed w) w); fails EStore
  end.
Definition store_prekey (id : Z) (record : bytes) : Task unit := backend <[id := record]> (fun _ => tt).
Fixpoint store_prekeys_batch (keys : list (Z * bytes)) : Task unit :=
  match keys with
  | [] => mret tt
  | (id, record) :: keys => _ ← store_prekey id record; store_prekeys_batch keys
  end.
Definition load_prekey (id : Z) : Task (option bytes) := backend (fun s => s) (fun s => s !! id).
Fixpoint load_prekeys_batch (ids : list Z) : Task (list (Z * bytes)) :=
  match ids with
  | [] => mret []
  | id :: ids =>
      record ← load_prekey id;
      rows ← load_prekeys_batch ids;
      mret (match record with Some r => (id, r) :: rows | None => rows end)
  end.
Definition max_id (s : gmap Z bytes) : Z := foldr Z.max 0 (map_to_list s).*1.
Definition get_max_prekey_id : Task Z := backend (fun s => s) max_id.

(** [start .. start + count] *)
Definition ids_from (start count : Z) : list Z := seqZ start count.
Definition by_id (a b : Z * bytes) : Prop := a.1 <= b.1.
#[global] Instance by_id_dec a b : Decision (by_id a b).
Proof. unfold by_id. apply _. Defined.
Definition sort_rows (rows : list (Z * bytes)) : list (Z * bytes) := merge_sort by_id rows.

Section Upload.
Context {DK : Dalek} {PC : PreKeyCodec}.
(** The seeds of the random generator, and the rest of the device. *)
Variable seed : nat -> bytes.
Variable keys : DeviceKeys.

Definition new_pre_key_record (id : Z) (key_pair : KeyPair) : PreKeyStructure :=
  mkStructure (Some id) (Some (public_key_bytes (kp_public key_pair))) (Some (private_serialize (kp_private key_pair))).
Definition generate_key_pair : Task KeyPair :=
  n ← get pw_generated;
  _ ← put (fun w => set_logs (S n) (pw_sent w) (pw_handed w) (pw_delays w) w);
  mret (keypair_generate (seed n)).
Fixpoint generate_batch (ids : list Z) : Task (list (Z * bytes)) :=
  match ids with
  | [] => mret []
  | id :: ids =>
      kp ← generate_key_pair;
      rest ← generate_batch ids;
      mret ((id, encode_structure (new_pre_key_record id kp)) :: rest)
  end.

(** The public key of a stored record, as the upload reads it. *)
Definition row_public_key (record : bytes) : option PublicKey :=
  s ← decode_structure record;
  raw ← ps_public_key s;
  match from_djb_public_key_bytes raw with Ok k => Some k | _ => None end.
Definition decode_rows (rows : list (Z * bytes)) : list (Z * PublicKey) :=
  omap (fun '(id, record) => pair id <$> row_public_key record) rows.
(** [prekey_structure_to_record] and [key_pair], for the public half. *)
Definition record_public_key (record : bytes) : option PublicKey :=
  s ← decode_structure record;
  raw ← ps_public_key s;
  k ← (match from_djb_public_key_bytes raw with Ok k => Some k | _ => None end);
  priv ← ps_private_key s;
  match private_deserialize priv with Ok _ => Some k | _ => None end.

(** ** One key for a retry receipt *)

Definition hand_out (id : Z) (k : PublicKey) : Task (Z * PublicKey) :=
  _ ← put (fun w => set_logs (pw_generated w) (pw_sent w) (pw_handed w ++ [(id, k)]) (pw_delays w) w); mret (id, k).
Definition generate_single (snapshot : PreKeyDevice) (plan : PreKeyUploadPlan) : Task (Z * PublicKey) :=
  let id :=
    if 0 <? gen_count plan then gen_start plan
    else
      let raw := Z.max (next_pre_key_id snapshot) (Z.min (window_start plan + 1) (2 ^ 32 - 1)) in
      if MAX_PREKEY_ID <? raw then 1 else raw in
  key_pair ← generate_key_pair;
  _ ← store_prekey id (encode_structure (new_pre_key_record id key_pair));
  _ ← process_command (set_watermarks (Z.min (id + 1) (2 ^ 32 - 1)) (if 0 <? gen_count plan then window_start plan else id));
  _ ← flush_device;
  hand_out id (kp_public key_pair).
Definition get_or_gen_single_pre_key : Task (Z * PublicKey) :=
  snapshot ← get pw_device;
  max_id ← get_max_prekey_id;
  let plan := plan_prekey_upload (first_unupload_pre_key_id snapshot) (next_pre_key_id snapshot) max_id 1 in
  if gen_count plan =? 0 then
    rows ← load_prekeys_batch (ids_from (window_start plan) (next_pre_key_id snapshot - window_start plan));
    match sort_rows rows with
    | (id, record) :: _ =>
        _ ← (if negb (id =? window_start plan)
             then process_command (set_watermarks (next_pre_key_id snapshot) id) else mret tt);
        match record_public_key record with
        | Some k => hand_out id k
        | None => fails ERecord
        end
    | [] => generate_single snapshot plan
    end
  else generate_single snapshot plan.

(** ** The upload *)

Definition upload_spec (pairs : list (Z * PublicKey)) : PreKeyUploadSpec :=
  mkUploadSpec (dk_registration_id keys) (dk_identity keys) (dk_signed_id keys) (dk_signed keys) (dk_signature keys) pairs.
(** The request leaves, and an answer comes or does not. *)
Definition execute_upload (spec : PreKeyUploadSpec) : Task unit :=
  _ ← put (fun w => set_logs (pw_generated w) (pw_sent w ++ [spec]) (pw_handed w) (pw_delays w) w);
  m ← await;
  match m_fault m with Fine => mret tt | _ => fails EIq end.
(** The result is only logged. *)
Definition mark_prekeys_uploaded (ids : list Z) : Task unit := _ ← await; mret tt.

Definition generate_window (plan : PreKeyUploadPlan) : Task unit :=
  if 0 <? gen_count plan then
    batch ← generate_batch (ids_from (gen_start plan) (gen_count plan));
    store_prekeys_batch batch
  else mret tt.
Definition last_id (pairs : list (Z * PublicKey)) : Z := from_option fst 0 (last pairs).
Definition send_window (plan : PreKeyUploadPlan) (pairs : list (Z * PublicKey)) : Task unit :=
  _ ← process_command
        (set_watermarks (new_next plan) (Z.max (window_start plan) (Z.min (last_id pairs + 1) (2 ^ 32 - 1))));
  _ ← flush_device;
  _ ← execute_upload (upload_spec pairs);
  _ ← mark_prekeys_uploaded pairs.*1;
  process_command (with_server_has true).
Definition offer_window (plan : PreKeyUploadPlan) (rows : list (Z * bytes)) : Task unit :=
  match decode_rows (sort_rows rows) with
  | [] => fails ENoDecodable
  | pairs => send_window plan pairs
  end.
(** [rerun] is the pass that follows a collapse, when there may be one. *)
Definition upload_pass (rerun : option (Task unit)) : Task unit :=
  snapshot ← get pw_device;
  wanted ← get (fun w => clamp_wanted_pre_key_count (pw_wanted w));
  max_id ← get_max_prekey_id;
  let plan := plan_prekey_upload (first_unupload_pre_key_id snapshot) (next_pre_key_id snapshot) max_id wanted in
  _ ← generate_window plan;
  _ ← process_command (set_watermarks (new_next plan) (window_start plan));
  _ ← flush_device;
  rows ← load_prekeys_batch (ids_from (window_start plan) wanted);
  match rows with
  | [] =>
      if gen_count plan =? 0 then
        _ ← process_command (set_watermarks (new_next plan) (new_next plan));
        match rerun with Some pass => pass | None => fails ENoPreKey end
      else fails ENoPreKey
  | _ => offer_window plan rows
  end.
Definition upload_pre_keys_pass (allow_collapse_retry : bool) : Task unit :=
  upload_pass (if allow_collapse_retry then Some (upload_pass None) else None).
Definition upload_pre_keys_inner : Task unit := upload_pre_keys_pass true.

Definition upload_pre_keys_at_login : Task unit :=
  has ← get (fun w => server_has_prekeys (pw_device w));
  if has : bool then mret tt
  else
    _ ← await;
    has ← get (fun w => server_has_prekeys (pw_device w));
    if has : bool then mret tt else upload_pre_keys_inner.
Definition get_server_pre_key_count : Task Z :=
  m ← await; match m_fault m with Fine => mret (m_count m) | _ => fails EIq end.
Definition upload_pre_keys (force : bool) : Task unit :=
  if force then upload_pre_keys_inner
  else
    server_count ← get_server_pre_key_count;
    if should_upload_pre_keys force server_count then upload_pre_keys_inner else mret tt.

(** ** Retrying *)

Definition MAX_DELAY_SECS : Z := 610.
Definition retry_sleep (delay_a : Z) : Task unit :=
  _ ← put (fun w => set_logs (pw_generated w) (pw_sent w) (pw_handed w) (pw_delays w ++ [Z.min delay_a MAX_DELAY_SECS]) w);
  _ ← await;
  logged_in ← get pw_logged_in;
  if logged_in : bool then mret tt else fails EConnectionLost.
(** The loop, for at most [attempts] rounds. *)
Fixpoint retry_upload (attempts : nat) (force : bool) (delay_a delay_b : Z) : Task unit := fun w =>
  match attempts with
  | O => (w, Retrying)
  | S attempts =>
      match upload_pre_keys force w with
      | (w, Fails _) =>
          (_ ← retry_sleep delay_a; retry_upload attempts force delay_b (wrap 64 (delay_a + delay_b))) w
      | (w, r) => (w, r)
      end
  end.
Definition upload_pre_keys_with_retry (attempts : nat) (force : bool) : Task unit := retry_upload attempts force 1 2.
Definition refresh_pre_keys (attempts : nat) : Task unit := _ ← await; upload_pre_keys_with_retry attempts true.
(** The notification that the server is short of keys. *)
Definition handle_prekey_low (attempts : nat) : Task unit :=
  _ ← put (modify_device (with_server_has false));
  _ ← await;
  logged_in ← get pw_logged_in;
  if logged_in : bool then
    _ ← await;
    has ← get (fun w => server_has_prekeys (pw_device w));
    if has : bool then mret tt else upload_pre_keys_with_retry attempts true
  else mret tt.

(** ** Runs *)

(** Each holds the lock of the uploads to its end. *)
Inductive PreKeyOp : Type :=
  | OpLogin | OpUpload (force : bool) | OpRefresh (attempts : nat) | OpLow (attempts : nat) | OpSingle | OpIdle.
Definition run_op (w : PreKeyWorld) (op : PreKeyOp) : PreKeyWorld :=
  match op with
  | OpLogin => fst (upload_pre_keys_at_login w)
  | OpUpload force => fst (upload_pre_keys force w)
  | OpRefresh n => fst (refresh_pre_keys n w)
  | OpLow n => fst (handle_prekey_low n w)
  | OpSingle => fst (get_or_gen_single_pre_key w)
  | OpIdle => fst (await w)
  end.
Definition run_ops (ops : list PreKeyOp) (w : PreKeyWorld) : PreKeyWorld := fold_left run_op ops w.
End Upload.

(** A device that has just been made. *)
Definition new_device : PreKeyDevice := mkPreKeyDevice 1 0 false.
Definition new_world (wanted : Z) (script : list Moment) : PreKeyWorld :=
  mkPreKeyWorld new_device false None new_device ∅ wanted true 0 [] [] ∅ [] script.
(** The keys offered to the server, in the order they were sent. *)
Definition offered (w : PreKeyWorld) : list (Z * PublicKey) := concat (us_pre_keys <$> pw_sent w).
