(* ===== verification/PreKeySafe.v ===== *)
(** * Offering each one-time pre-key once

    The invariant of [PreKeyUpload]: whatever fails, and wherever the process is killed, the
    watermarks of the device, in memory and on disk, stay above every id that was ever
    offered, so that no id is offered twice and the record of an offered key stays in the
    store until a message consumes it. *)

From stdpp Require Import prelude gmap sorting.
From S2P Require Import Prelude Curve SignalCache PreKeyUpload.

#[local] Open Scope Z_scope.

(** ** The plan *)

Lemma clamp_bounds n : 5 <= clamp_wanted_pre_key_count n <= 65535.
Proof. unfold clamp_wanted_pre_key_count, MIN_PRE_KEY_COUNT, MAX_PRE_KEY_UPLOAD_BATCH. lia. Qed.
Lemma wrap32_small z : 0 <= z < 2 ^ 32 -> wrap 32 z = z.
Proof. apply Z.mod_small. Qed.
Lemma start_prekey_id_bounds next m B :
  0 <= next <= B -> 0 <= m < B -> B <= MAX_PREKEY_ID ->
  1 <= start_prekey_id next m <= B /\ next <= start_prekey_id next m /\ m < start_prekey_id next m.
Proof.
  unfold start_prekey_id, MAX_PREKEY_ID. intros Hn Hm HB.
  destruct (Z.ltb_spec 0 next); rewrite Z.mod_small by lia; rewrite wrap32_small by lia; lia.
Qed.

(** What a plan promises, for a device whose ids are all below [B]. *)
Record plan_sound (first next wanted B : Z) (p : PreKeyUploadPlan) : Prop := {
  ps_first : first <= window_start p; ps_pos : 1 <= window_start p;
  ps_gen : window_start p <= gen_start p; ps_top : gen_start p <= B;
  ps_count : 0 <= gen_count p <= wanted; ps_next : new_next p = gen_start p + gen_count p;
  ps_window : window_start p + wanted <= new_next p;
  ps_reuse : gen_count p = 0 -> new_next p = next /\ window_start p = first;
  ps_fresh : 0 < gen_count p -> new_next p = window_start p + wanted;
  ps_empty : first = next -> 0 < gen_count p
}.
Lemma plan_is_sound first next m wanted B :
  0 <= first <= next -> next <= B -> 0 <= m < B -> 1 <= wanted <= 65535 -> B + wanted - 1 <= MAX_PREKEY_ID ->
  plan_sound first next wanted B (plan_prekey_upload first next m wanted).
Proof.
  intros Hf Hn Hm Hw HB. pose proof HB as HB'. unfold MAX_PREKEY_ID in HB'.
  destruct (start_prekey_id_bounds next m B) as (Hs & Hs1 & Hs2); [lia|lia|lia|].
  unfold plan_prekey_upload. rewrite (proj2 (Z.ltb_ge next first)) by lia. rewrite orb_false_r.
  destruct (Z.eqb_spec first 0) as [->|Hne].
  - unfold fresh_window. rewrite (proj2 (Z.ltb_ge _ _)) by lia. rewrite !wrap32_small by lia. split; cbn; lia.
  - rewrite (proj2 (Z.ltb_ge _ (first + wanted - 1))) by lia. rewrite (proj2 (Z.ltb_ge _ (next + _ - 1))) by lia.
    rewrite andb_false_r. cbn [orb]. rewrite !wrap32_small by lia. split; cbn; lia.
Qed.

(** ** A logic for tasks *)

(** [Q] of what is returned; [E] of the world when the task does not return. *)
Definition safely {A} (P : PreKeyWorld -> Prop) (t : Task A) (Q : A -> PreKeyWorld -> Prop) (E : PreKeyWorld -> Prop) : Prop :=
  forall w, P w -> match t w with (w', Done a) => Q a w' | (w', _) => E w' end.

Lemma safely_bind {A B} P (t : Task A) (f : A -> Task B) Q R E :
  safely P t Q E -> (forall a, safely (Q a) (f a) R E) -> safely P (t ≫= f) R E.
Proof.
  intros Ht Hf w HP. specialize (Ht w HP). unfold mbind, task_bind.
  destruct (t w) as [w' [a|e| |]]; [by apply Hf|done..].
Qed.
Lemma safely_ret {A} (P : PreKeyWorld -> Prop) (a : A) Q E : (forall w, P w -> Q a w) -> safely P (mret a) Q E.
Proof. intros H w HP. by apply H. Qed.
Lemma safely_fails {A} P e (Q : A -> PreKeyWorld -> Prop) (E : PreKeyWorld -> Prop) : (forall w, P w -> E w) -> safely P (fails e) Q E.
Proof. intros H w HP. by apply H. Qed.
Lemma safely_get {A} P (f : PreKeyWorld -> A) (Q : A -> PreKeyWorld -> Prop) E : (forall w, P w -> Q (f w) w) -> safely P (get f) Q E.
Proof. intros H w HP. by apply H. Qed.
Lemma safely_put P f (Q : unit -> PreKeyWorld -> Prop) E : (forall w, P w -> Q tt (f w)) -> safely P (put f) Q E.
Proof. intros H w HP. by apply H. Qed.
Lemma safely_conseq {A} P P' (t : Task A) (Q Q' : A -> PreKeyWorld -> Prop) (E E' : PreKeyWorld -> Prop) :
  safely P' t Q' E' -> (forall w, P w -> P' w) -> (forall a w, Q' a w -> Q a w) -> (forall w, E' w -> E w) -> safely P t Q E.
Proof.
  intros Ht HP HQ HE w Hw. specialize (Ht w (HP w Hw)). destruct (t w) as [w' [a|e| |]]; auto.
Qed.
Lemma safely_pre {A} (P P' : PreKeyWorld -> Prop) (t : Task A) Q E : safely P' t Q E -> (forall w, P w -> P' w) -> safely P t Q E.
Proof. intros Ht HP. by eapply safely_conseq. Qed.
Lemma safely_err {A} P (t : Task A) Q (E E' : PreKeyWorld -> Prop) : safely P t Q E' -> (forall w, E' w -> E w) -> safely P t Q E.
Proof. intros Ht HE. by eapply safely_conseq. Qed.
(** A fact that holds of the world at the start. *)
Lemma safely_fact {A} (P : PreKeyWorld -> Prop) (F : Prop) (t : Task A) Q E :
  (forall w, P w -> F) -> (F -> safely P t Q E) -> safely P t Q E.
Proof. intros HF Ht w HP. exact (Ht (HF w HP) w HP). Qed.
Lemma safely_run {A} P (t : Task A) Q (I : PreKeyWorld -> Prop) w :
  safely P t Q I -> (forall a w, Q a w -> I w) -> P w -> I (fst (t w)).
Proof. intros Ht HQ HP. specialize (Ht w HP). destruct (t w) as [w' [a|e| |]]; cbn; eauto. Qed.

(** ** The invariant *)

Section Safe.
Context {DK : Dalek} {PC : PreKeyCodec}.

(** The saver saves in one go, and no batch is larger than [W]. *)
Definition tame (W : Z) (ev : Event) : Prop :=
  match ev with
  | SaverBegins => False
  | SetWanted n => clamp_wanted_pre_key_count n <= W
  | _ => True
  end.
Definition tame_script (W : Z) (script : list Moment) : Prop := Forall (fun m => Forall (tame W) (m_events m)) script.

Definition marks (d : PreKeyDevice) : Z * Z := (next_pre_key_id d, first_unupload_pre_key_id d).
Definition offered_below (lo : Z) (w : PreKeyWorld) : Prop := forall id k, (id, k) ∈ offered w -> 1 <= id < lo.
Definition marks_sound (B : Z) (m : Z * Z) (w : PreKeyWorld) : Prop :=
  0 <= m.2 <= m.1 /\ m.1 <= B /\ offered_below m.2 w.
Definition good_record (r : bytes) : Prop :=
  exists k, (row_public_key r = Some k /\ record_public_key r = Some k)
    /\ exists id priv, 0 <= id < 2 ^ 32 /\ zlen (public_key_bytes k) = 32 /\ zlen priv = 32
         /\ r = encode_structure (mkStructure (Some id) (Some (public_key_bytes k)) (Some priv)).
Definition in_store (w : PreKeyWorld) (id : Z) (r : bytes) : Prop := pw_store w !! id = Some r \/ id ∈ pw_consumed w.
Definition kept (id : Z) (k : PublicKey) (w : PreKeyWorld) : Prop := exists r, in_store w id r /\ row_public_key r = Some k.

(** What holds at every moment. *)
Record Core (W B : Z) (w : PreKeyWorld) : Prop := {
  inv_script : tame_script W (pw_script w);
  inv_wanted : clamp_wanted_pre_key_count (pw_wanted w) <= W;
  inv_saving : pw_saving w = None;
  inv_device : marks_sound B (marks (pw_device w)) w;
  inv_disk : marks_sound B (marks (pw_disk w)) w;
  inv_top : 1 <= B;
  inv_store : forall id r, pw_store w !! id = Some r -> 1 <= id < B /\ good_record r;
  inv_sorted : StronglySorted Z.lt (offered w).*1;
  inv_kept : forall id k, (id, k) ∈ offered w -> kept id k w
}.
(** The watermarks on disk: anything, while the task saves; those in memory, if the device is
    not dirty; those in memory. *)
Inductive Mode : Type := Saving | Plain | Synced.
Definition mode_ok (mode : Mode) (w : PreKeyWorld) : Prop :=
  match mode with
  | Saving => True
  | Plain => pw_dirty w = false -> marks (pw_disk w) = marks (pw_device w)
  | Synced => marks (pw_disk w) = marks (pw_device w)
  end.
Definition Inv (W B : Z) (w : PreKeyWorld) : Prop := Core W B w /\ mode_ok Plain w.

(** The invariant while a task runs: the watermarks of the device are [m]; the ids offered are
    below [lo]; the rows that were read are still there or consumed. *)
Record St (W B : Z) (m : Z * Z) (lo : Z) (mode : Mode) (rows : list (Z * bytes)) (w : PreKeyWorld) : Prop := {
  st_core : Core W B w;
  st_marks : marks (pw_device w) = m;
  st_lo : offered_below lo w;
  st_mode : mode_ok mode w;
  st_rows : forall id r, (id, r) ∈ rows -> in_store w id r
}.

Lemma marks_sound_mono B B' m w : B <= B' -> marks_sound B m w -> marks_sound B' m w.
Proof. intros HB (H1 & H2 & H3). split_and!; [lia|lia|lia|done]. Qed.
Lemma Core_mono W B B' w : B <= B' -> Core W B w -> Core W B' w.
Proof.
  intros HB []. split; try done; [by eapply marks_sound_mono|by eapply marks_sound_mono|lia|].
  intros id r Hr. destruct (inv_store0 id r Hr). split; [lia|done].
Qed.
Lemma Inv_mono W B B' w : B <= B' -> Inv W B w -> Inv W B' w.
Proof. intros HB [H1 H2]. split; [by eapply Core_mono|done]. Qed.
Lemma St_mono W B B' m lo s rows w : B <= B' -> St W B m lo s rows w -> St W B' m lo s rows w.
Proof. intros HB []. split; try done. by eapply Core_mono. Qed.
Lemma St_plain W B m lo rows w : St W B m lo Synced rows w -> St W B m lo Plain rows w.
Proof. intros [? ? ? H ?]. split; [done|done|done|by intros _|done]. Qed.
Lemma St_Inv W B m lo s rows w : s <> Saving -> St W B m lo s rows w -> Inv W B w.
Proof. intros Hn []. split; [done|]. destruct s; [done|done|by intros _]. Qed.
Ltac inv_of_st :=
  cbv beta in *; match goal with H : St _ _ _ _ ?s _ ?w |- Inv _ _ ?w => by apply (fun Hs => St_Inv _ _ _ _ s _ w Hs H) end.
Lemma Inv_St W B w : Inv W B w -> St W B (marks (pw_device w)) (first_unupload_pre_key_id (pw_device w)) Plain [] w.
Proof.
  intros [Hi Hp]. split; [done|done| |done|intros ? ? []%elem_of_nil]. by destruct (inv_device _ _ _ Hi) as (_ & _ & ?).
Qed.

(** *** Events *)

Lemma in_store_consume w id c r : in_store w id r -> in_store (happen (Consumed c) w) id r.
Proof.
  intros [Hs|Hs]; unfold in_store; cbn; [|set_solver].
  destruct (decide (c = id)) as [->|Hne]; [right; set_solver|left; by rewrite lookup_delete_ne].
Qed.
Lemma kept_impl w w' id k : (forall id r, in_store w id r -> in_store w' id r) -> kept id k w -> kept id k w'.
Proof. intros H (r & Hr & Hk). exists r. auto. Qed.

Lemma St_consumed W B m lo s rows c w : St W B m lo s rows w -> St W B m lo s rows (happen (Consumed c) w).
Proof.
  intros [[] Hm Hlo Hs Hr]. split; [split|..]; try done.
  - intros id r. cbn. intros [_ H]%lookup_delete_Some. eauto.
  - intros id k H. apply (kept_impl w); [intros; by apply in_store_consume|]. by apply inv_kept0.
  - intros id r H. apply in_store_consume. auto.
Qed.
(** A save of a device that has the watermarks of the one in memory. *)
Lemma St_save_result W B m lo s rows f d w :
  marks d = m -> St W B m lo s rows w ->
  St W B m lo s rows (save_result f d w) /\ (f = Fine -> St W B m lo Synced rows (save_result f d w)).
Proof.
  intros Hd [[] Hm Hlo Hs Hr].
  assert (Hc : Core W B (save_result f d w)).
  { split; try done; cbn. destruct f; [rewrite Hd, <- Hm|done|rewrite Hd, <- Hm]; done. }
  split; [|intros ->]; (split; [done|done|done| |done]); [|cbn in *; congruence].
  destruct s; [done|..]; destruct f; cbn in *; try done; intros; congruence.
Qed.
Lemma St_dirty W B m lo s rows b w : s <> Plain -> St W B m lo s rows w -> St W B m lo s rows (set_device (pw_device w) b w).
Proof. intros Hp [[] Hm Hlo Hs Hr]. split; [split|..]; try done. by destruct s. Qed.
Lemma St_saved W B m lo s rows f w : St W B m lo s rows w -> St W B m lo s rows (saver_saves f w).
Proof.
  intros [Hc Hm Hlo Hs Hr]. unfold saver_saves. destruct (pw_dirty w) eqn:Hd; [|by split].
  destruct s.
  1, 3: apply St_save_result; [done|]; by apply St_dirty.
  destruct (St_save_result W B m lo Saving rows f (pw_device w) (set_device (pw_device w) false w)) as [H1 H2]; [done|by destruct Hc|].
  destruct f; [by apply St_plain, H2|..]; destruct H1; by split.
Qed.
Lemma St_low W B m lo s rows b w : St W B m lo s rows w -> St W B m lo s rows (modify_device (with_server_has b) w).
Proof. intros [[] Hm Hlo Hs Hr]. split; [split|..]; try done. by destruct s. Qed.
Lemma St_flags W B m lo s rows wanted logged script w :
  clamp_wanted_pre_key_count wanted <= W -> tame_script W script ->
  St W B m lo s rows w -> St W B m lo s rows (set_flags wanted logged script w).
Proof. intros H1 H2 [[] Hm Hlo Hs Hr]. split; [split|..]; done. Qed.
Lemma Inv_restart W B w : Core W B w -> Inv W B (restart_device w).
Proof. intros []. split; [split|]; done. Qed.
Lemma St_happen W B m lo s rows ev w :
  tame W ev -> ev <> Crash -> St W B m lo s rows w -> St W B m lo s rows (happen ev w).
Proof.
  intros Ht Hc Hs. pose proof (st_core _ _ _ _ _ _ _ Hs) as Hi. destruct ev; cbn [happen].
  - by apply St_consumed.
  - by apply St_saved.
  - done.
  - unfold saver_ends. by rewrite (inv_saving _ _ _ Hi).
  - by apply St_low.
  - apply St_flags; [done|apply Hi|done].
  - apply St_flags; [apply Hi|apply Hi|done].
  - done.
Qed.
Lemma St_happens W B m lo s rows evs w :
  Forall (tame W) evs -> St W B m lo s rows w ->
  if snd (happens evs w) then Inv W B (fst (happens evs w)) else St W B m lo s rows (fst (happens evs w)).
Proof.
  intros Ht. revert w. induction Ht as [|ev evs Hev Ht IH]; intros w Hs; cbn [happens fst snd]; [done|].
  assert (Hc : ev = Crash \/ ev <> Crash) by (destruct ev; auto; by right).
  destruct Hc as [->|Hc]; [cbn [fst snd]; apply Inv_restart, Hs|].
  pose proof (St_happen _ _ _ _ _ _ _ _ Hev Hc Hs) as Hs'. destruct ev; try done; by apply IH.
Qed.
Lemma await_St W B m lo s rows : safely (St W B m lo s rows) await (fun _ => St W B m lo s rows) (Inv W B).
Proof.
  intros w Hs. unfold await. destruct (pw_script w) as [|mo script] eqn:He; [done|].
  pose proof (st_core _ _ _ _ _ _ _ Hs) as Hi. pose proof (inv_script _ _ _ Hi) as Ht. rewrite He in Ht.
  apply Forall_cons in Ht as [Ht1 Ht2].
  assert (Hs' : St W B m lo s rows (set_flags (pw_wanted w) (pw_logged_in w) script w)) by (apply St_flags; [apply Hi|done|done]).
  pose proof (St_happens _ _ _ _ _ _ _ _ Ht1 Hs') as H.
  destruct (happens (m_events mo) _) as [w' [|]]; done.
Qed.

(** *** The device *)

Lemma process_marks W B m lo s rows n f :
  0 <= f <= n -> n <= B -> lo <= f ->
  safely (St W B m lo s rows) (process_command (set_watermarks n f)) (fun _ => St W B (n, f) lo Plain rows) (Inv W B).
Proof.
  intros Hf Hn Hlo. eapply safely_bind; [apply await_St|]. intros ?. apply safely_put. intros w [[] Hm Hb Hs Hr].
  split; [split|..]; try done. split_and!; cbn; [lia|lia|lia|]. intros id k H. specialize (Hb id k H). lia.
Qed.
Lemma process_flag W B m lo s rows b :
  safely (St W B m lo s rows) (process_command (with_server_has b)) (fun _ => St W B m lo s rows) (Inv W B).
Proof.
  eapply safely_bind; [apply await_St|]. intros ?. apply safely_put. intros w. apply St_low.
Qed.
Lemma flush_St W B m lo rows :
  safely (St W B m lo Plain rows) flush_device (fun _ => St W B m lo Synced rows) (Inv W B).
Proof.
  eapply safely_bind; [apply await_St|]. intros ?.
  eapply (safely_bind _ _ _ (fun b w => St W B m lo Plain rows w /\ pw_dirty w = b)); [by apply safely_get|].
  intros [|]; [|apply safely_ret; intros w [Hs Hd]; destruct Hs; split; try done; by apply st_mode0].
  eapply (safely_bind _ _ _ (fun d w => (St W B m lo Saving rows w /\ pw_device w = d) /\ marks d = m)).
  { apply safely_get. intros w [Hs _]. destruct Hs. split_and!; try done. }
  intros d. apply (safely_fact _ (marks d = m)); [by intros w [_ ?]|]. intros Hd.
  eapply (safely_bind _ _ _ (fun _ => St W B m lo Saving rows)).
  { apply safely_put. intros w [[Hs <-] _]. by apply St_dirty. }
  intros ?. eapply safely_bind; [apply await_St|]. intros mo. eapply (safely_bind _ _ _ (fun _ w => (m_fault mo = Fine -> St W B m lo Synced rows w) /\ (m_fault mo <> Fine -> Inv W B w))).
  { apply safely_put. intros w Hs. destruct (St_save_result W B m lo Saving rows (m_fault mo) d w Hd Hs) as [H1 H2].
    split; [exact H2|]. intros Hf. split; [apply H1|]. by destruct (m_fault mo). }
  intros ?. destruct (m_fault mo); [apply safely_ret; intros w [H _]; by apply H|..]; apply safely_fails; intros w [_ H]; by apply H.
Qed.

(** *** The store *)

Lemma set_store_same w : set_store (pw_store w) (pw_consumed w) w = w.
Proof. by destruct w. Qed.
Lemma read_St {A} W B m lo s rows (read : gmap Z bytes -> A) :
  s <> Saving ->
  safely (St W B m lo s rows) (backend (fun s => s) read)
    (fun a w => St W B m lo s rows w /\ a = read (pw_store w)) (Inv W B).
Proof.
  intros Hm.   eapply safely_bind; [apply await_St|]. intros mo.
  eapply (safely_bind _ _ _ (fun a w => St W B m lo s rows w /\ a = read (pw_store w))); [by apply safely_get|].
  intros a. assert (He : forall w, St W B m lo s rows w /\ a = read (pw_store w) -> Inv W B w) by (intros w [H _]; inv_of_st).
  destruct (m_fault mo); [|by apply safely_fails|].
  - eapply (safely_bind _ _ _ (fun _ w => St W B m lo s rows w /\ a = read (pw_store w))); [|intros ?; by apply safely_ret].
    apply safely_put. intros w. by rewrite set_store_same.
  - eapply (safely_bind _ _ _ (fun _ w => St W B m lo s rows w /\ a = read (pw_store w))); [|intros ?; by apply safely_fails].
    apply safely_put. intros w. by rewrite set_store_same.
Qed.
Definition storable_key (B lo : Z) (row : Z * bytes) : Prop := (1 <= row.1 < B /\ lo <= row.1) /\ good_record row.2.
Lemma St_insert W B m lo id r w :
  storable_key B lo (id, r) -> St W B m lo Plain [] w -> St W B m lo Plain [] (set_store (<[id := r]> (pw_store w)) (pw_consumed w) w).
Proof.
  intros [[Hid Hlo] Hg] [[] Hm Hb Hs Hr]. cbn [fst snd] in *. split; [split|..]; try done.
  - intros id' r'. cbn. intros [[<- <-]|[_ H]]%lookup_insert_Some; [done|eauto].
  - intros id' k H. destruct (inv_kept0 id' k H) as (r' & Hin & Hk). exists r'. split; [|done].
    destruct Hin as [Hin|Hin]; [|by right]. left. cbn. specialize (Hb id' k H). rewrite lookup_insert_ne by lia. done.
  - intros ? ? []%elem_of_nil.
Qed.
Lemma store_St W B m lo id r :
  storable_key B lo (id, r) -> safely (St W B m lo Plain []) (store_prekey id r) (fun _ => St W B m lo Plain []) (Inv W B).
Proof.
  intros Hk. eapply safely_bind; [apply await_St|]. intros mo.
  eapply (safely_bind _ _ _ (fun _ => St W B m lo Plain [])); [by apply safely_get|]. intros [].
  assert (Hp : safely (St W B m lo Plain []) (put (fun w => set_store (<[id := r]> (pw_store w)) (pw_consumed w) w)) (fun _ => St W B m lo Plain []) (Inv W B)).
  { apply safely_put. intros w. by apply St_insert. }
  assert (He : forall w, St W B m lo Plain [] w -> Inv W B w) by (intros w; by apply St_Inv).
  destruct (m_fault mo); [|by apply safely_fails|]; (eapply safely_bind; [exact Hp|]); intros ?; [by apply safely_ret|by apply safely_fails].
Qed.
Lemma store_batch_St W B m lo batch :
  Forall (storable_key B lo) batch ->
  safely (St W B m lo Plain []) (store_prekeys_batch batch) (fun _ => St W B m lo Plain []) (Inv W B).
Proof.
  induction 1 as [|[id r] batch Hk Hb IH]; cbn [store_prekeys_batch]; [by apply safely_ret|].
  eapply safely_bind; [by apply store_St|]. by intros ?.
Qed.
Lemma load_St W B m lo s rows0 ids :
  s <> Saving ->
  safely (St W B m lo s rows0) (load_prekeys_batch ids)
    (fun rows w => St W B m lo s (rows0 ++ rows) w /\ rows.*1 `sublist_of` ids /\ Forall (fun row => good_record row.2) rows) (Inv W B).
Proof.
  intros Hm.   revert rows0. induction ids as [|id ids IH]; intros rows0; cbn [load_prekeys_batch].
  { apply safely_ret. intros w. rewrite app_nil_r. done. }
  eapply safely_bind; [by apply read_St|]. intros [r|].
  - apply (safely_fact _ (good_record r)); [intros w [Hs Hr]; symmetry in Hr; by apply (inv_store _ _ _ (st_core _ _ _ _ _ _ _ Hs) id)|]. intros Hg.
    eapply safely_bind.
    { eapply safely_pre; [apply (IH (rows0 ++ [(id, r)]))|]. intros w [Hs Hr]. destruct Hs. split; try done.
      intros id' r' [H|Hx%list_elem_of_singleton]%elem_of_app; [auto|]. simplify_eq. by left. }
    intros rows. apply safely_ret. intros w (H1 & H2 & H3). rewrite <- app_assoc in H1. split_and!; [done|cbn; by constructor|by constructor].
  - eapply safely_bind; [eapply safely_pre; [apply (IH rows0)|by intros w [? _]]|]. intros rows. apply safely_ret.
    intros w (H1 & H2 & H3). split_and!; [done|by constructor|done].
Qed.

(** *** Generating keys *)

Context {DL : DalekLaws} {PL : PreKeyCodecLaws}.
Variable seed : nat -> bytes.
Variable keys : DeviceKeys.
Hypothesis seed_len : forall n, zlen (seed n) = 32.

Lemma generated_good id n :
  0 <= id < 2 ^ 32 -> good_record (encode_structure (new_pre_key_record id (keypair_generate (seed n)))).
Proof.
  intros Hid. exists (kp_public (keypair_generate (seed n))).
  assert (Hl : zlen (public_key_bytes (kp_public (keypair_generate (seed n)))) = 32) by apply x25519_len.
  assert (Hs : zlen (private_serialize (kp_private (keypair_generate (seed n)))) = 32).
  { cbn. unfold clamp_integer, zlen. rewrite !length_alter. exact (seed_len n). }
  split; [|by eexists id, _].
  unfold row_public_key, record_public_key, new_pre_key_record. rewrite decode_encode_structure by done. cbn [mbind option_bind ps_public_key ps_private_key].
  assert (Hp : from_djb_public_key_bytes (public_key_bytes (kp_public (keypair_generate (seed n)))) = Ok (kp_public (keypair_generate (seed n)))).
  { unfold from_djb_public_key_bytes. rewrite Hl. by destruct (kp_public _). }
  rewrite Hp. split; [done|]. cbn [mbind option_bind]. unfold private_deserialize. by rewrite Hs.
Qed.
Lemma St_logs W B m lo s rows g h dl w : St W B m lo s rows w -> St W B m lo s rows (set_logs g (pw_sent w) h dl w).
Proof. intros [[] Hm Hb Hs Hr]. split; [split|..]; done. Qed.
Lemma generate_St W B m lo s rows id :
  0 <= id < 2 ^ 32 ->
  safely (St W B m lo s rows) (generate_key_pair seed)
    (fun kp w => St W B m lo s rows w /\ good_record (encode_structure (new_pre_key_record id kp))) (Inv W B).
Proof.
  intros Hid. eapply (safely_bind _ _ _ (fun _ => St W B m lo s rows)); [by apply safely_get|]. intros n.
  eapply (safely_bind _ _ _ (fun _ => St W B m lo s rows)); [apply safely_put; intros w; apply St_logs|].
  intros ?. apply safely_ret. intros w Hs. split; [done|]. by apply generated_good.
Qed.
Lemma generate_batch_St W B m lo ids :
  Forall (fun id => 1 <= id < B /\ lo <= id) ids -> B <= 2 ^ 32 ->
  safely (St W B m lo Plain []) (generate_batch seed ids)
    (fun batch w => St W B m lo Plain [] w /\ Forall (storable_key B lo) batch) (Inv W B).
Proof.
  intros Hi HB. induction Hi as [|id ids Hid Hi IH]; cbn [generate_batch]; [by apply safely_ret|].
  eapply safely_bind; [apply (generate_St _ _ _ _ _ _ id); lia|]. intros kp.
  apply (safely_fact _ (good_record (encode_structure (new_pre_key_record id kp)))); [by intros w [_ ?]|]. intros Hg.
  eapply safely_bind; [eapply safely_pre; [exact IH|by intros w [? _]]|].
  intros batch. apply safely_ret. intros w [Hs Hb]. split; [done|]. by constructor.
Qed.
Lemma ids_from_range start count id : id ∈ ids_from start count <-> start <= id < start + count.
Proof. apply elem_of_seqZ. Qed.
Lemma generate_window_St W B B' m lo p :
  lo <= gen_start p -> 1 <= gen_start p -> 0 <= gen_count p -> gen_start p + gen_count p <= B' -> B <= B' <= 2 ^ 32 ->
  safely (St W B m lo Plain []) (generate_window seed p)
    (fun _ => St W (if 0 <? gen_count p then B' else B) m lo Plain []) (Inv W (if 0 <? gen_count p then B' else B)).
Proof.
  intros Hlo H1 Hc HB HB'. unfold generate_window. destruct (0 <? gen_count p); [|by apply safely_ret].
  eapply safely_bind.
  - eapply (safely_pre _ (St W B' m lo Plain [])); [apply generate_batch_St; [|lia]|intros w; apply St_mono; lia].
    apply Forall_forall. intros id Hid%ids_from_range. lia.
  - intros batch. apply (safely_fact _ (Forall (storable_key B' lo) batch)); [by intros w [_ ?]|]. intros Hb.
    eapply safely_pre; [by apply store_batch_St|by intros w [? _]].
Qed.

(** *** Rows and offers *)

Lemma sort_rows_perm rows : sort_rows rows ≡ₚ rows.
Proof. apply merge_sort_Permutation. Qed.
#[local] Instance by_id_total : Total by_id.
Proof. intros a b. unfold by_id. lia. Qed.
#[local] Instance by_id_trans : Transitive by_id.
Proof. intros a b c. unfold by_id. lia. Qed.
Lemma sorted_ids (rows : list (Z * bytes)) : StronglySorted by_id rows -> NoDup rows.*1 -> StronglySorted Z.lt rows.*1.
Proof.
  induction 1 as [|[id r] rows Hs IH Hf]; intros Hn; cbn; [constructor|].
  cbn in Hn. apply NoDup_cons in Hn as [Hni Hn]. constructor; [auto|].
  apply Forall_forall. intros id' ([id2 r'] & -> & Hin)%list_elem_of_fmap. rewrite Forall_forall in Hf. specialize (Hf _ Hin).
  unfold by_id in Hf. cbn in *. assert (id2 <> id); [|lia]. intros ->. apply Hni, list_elem_of_fmap. by exists (id, r').
Qed.
Lemma sort_rows_sorted rows : NoDup rows.*1 -> StronglySorted Z.lt (sort_rows rows).*1.
Proof.
  intros Hn. apply sorted_ids; [apply StronglySorted_merge_sort; apply _|].
  by rewrite sort_rows_perm.
Qed.
Lemma sublist_sorted (l l' : list Z) : l `sublist_of` l' -> StronglySorted Z.lt l' -> StronglySorted Z.lt l.
Proof.
  induction 1 as [|x l l' Hl IH|x l l' Hl IH]; [done|..]; intros Hs; apply StronglySorted_inv in Hs as [Hs Hf]; [|auto].
  constructor; [auto|]. apply Forall_forall. intros y Hy. rewrite Forall_forall in Hf. apply Hf. by eapply elem_of_sublist.
Qed.
Lemma decode_rows_elem rows id k : (id, k) ∈ decode_rows rows <-> exists r, (id, r) ∈ rows /\ row_public_key r = Some k.
Proof.
  unfold decode_rows. rewrite list_elem_of_omap. split.
  - intros ([id' r] & Hin & H). destruct (row_public_key r) as [k'|] eqn:Hk; simplify_eq/=. by exists r.
  - intros (r & Hin & Hk). exists (id, r). cbn. by rewrite Hk.
Qed.
Lemma decode_rows_sublist rows : (decode_rows rows).*1 `sublist_of` rows.*1.
Proof.
  induction rows as [|[id r] rows IH]; cbn; [done|]. destruct (row_public_key r); cbn; by constructor.
Qed.
Lemma last_id_max (pairs : list (Z * PublicKey)) id k :
  StronglySorted Z.lt pairs.*1 -> (id, k) ∈ pairs -> id <= last_id pairs.
Proof.
  unfold last_id. induction pairs as [|[id' k'] pairs IH]; [by intros _ ?%elem_of_nil|].
  intros [Hs Hf]%StronglySorted_inv [H|H]%elem_of_cons.
  - simplify_eq. destruct pairs as [|x pairs] using rev_ind; [cbn; lia|]. rewrite app_comm_cons, last_snoc. cbn.
    rewrite Forall_forall in Hf. enough (id' < x.1) by lia. apply Hf, list_elem_of_fmap. exists x. set_solver.
  - specialize (IH Hs H). destruct pairs as [|x pairs] using rev_ind; [by apply elem_of_nil in H|].
    rewrite app_comm_cons, last_snoc. by rewrite last_snoc in IH.
Qed.
Lemma last_id_elem pairs : pairs <> [] -> exists k, (last_id pairs, k) ∈ pairs.
Proof.
  unfold last_id. destruct pairs as [|[id k] pairs _] using rev_ind; [done|]. intros _. rewrite last_snoc. cbn. exists k. set_solver.
Qed.

Lemma offered_send w spec g h dl : offered (set_logs g (pw_sent w ++ [spec]) h dl w) = offered w ++ us_pre_keys spec.
Proof. unfold offered. cbn. rewrite fmap_app, concat_app. cbn. by rewrite app_nil_r. Qed.
Lemma sorted_app (l1 l2 : list Z) lo :
  StronglySorted Z.lt l1 -> StronglySorted Z.lt l2 -> Forall (fun x => x < lo) l1 -> Forall (fun x => lo <= x) l2 ->
  StronglySorted Z.lt (l1 ++ l2).
Proof.
  intros H1 H2 Hlo Hhi. induction H1 as [|x l1 H1 IH Hf]; cbn; [done|].
  apply Forall_cons in Hlo as [Hx Hlo]. constructor; [auto|]. apply Forall_app. split; [done|].
  eapply Forall_impl; [exact Hhi|]. cbn. lia.
Qed.
(** Offering keys that lie between the old watermark and the new. *)
Lemma St_send W B n f lo rows pairs w g h dl :
  StronglySorted Z.lt pairs.*1 ->
  (forall id k, (id, k) ∈ pairs -> (lo <= id < f /\ 1 <= id) /\ exists r, (id, r) ∈ rows /\ row_public_key r = Some k) ->
  lo <= f -> St W B (n, f) lo Synced rows w ->
  St W B (n, f) f Synced rows (set_logs g (pw_sent w ++ [upload_spec keys pairs]) h dl w).
Proof.
  intros Hsort Hp Hlo [[] Hm Hb Hs Hr].
  assert (Hoff : offered_below f (set_logs g (pw_sent w ++ [upload_spec keys pairs]) h dl w)).
  { intros id k. rewrite offered_send. intros [H|H]%elem_of_app; [specialize (Hb id k H); lia|]. destruct (Hp id k H). lia. }
  assert (Hsound : forall d, marks d = (n, f) -> marks_sound B (marks d) w -> marks_sound B (marks d) (set_logs g (pw_sent w ++ [upload_spec keys pairs]) h dl w)).
  { intros d -> (H1 & H2 & _). split_and!; [lia|lia|lia|done]. }
  split; [split|..]; try done.
  - by apply Hsound.
  - apply Hsound; [|done]. cbn in Hs |- *. congruence.
  - rewrite offered_send, fmap_app. apply (sorted_app _ _ lo); [done|done|..]; apply Forall_forall.
    + intros id ([id' k] & -> & H)%list_elem_of_fmap. specialize (Hb id' k H). cbn. lia.
    + intros id ([id' k] & -> & H)%list_elem_of_fmap. destruct (Hp id' k H). cbn. lia.
  - intros id k. rewrite offered_send. intros [H|H]%elem_of_app; [by apply inv_kept0|].
    destruct (Hp id k H) as (_ & r & Hin & Hk). exists r. split; [by apply Hr|done].
Qed.
Lemma send_St W B n lo rows p pairs wanted :
  pairs <> [] -> StronglySorted Z.lt pairs.*1 ->
  (forall id k, (id, k) ∈ pairs -> (window_start p <= id < window_start p + wanted) /\ exists r, (id, r) ∈ rows /\ row_public_key r = Some k) ->
  1 <= window_start p -> lo <= window_start p -> 0 <= wanted -> window_start p + wanted <= new_next p -> new_next p <= B -> B <= 2 ^ 31 ->
  safely (St W B n lo Synced rows) (send_window keys p pairs) (fun _ => Inv W B) (Inv W B).
Proof.
  intros Hne Hsort Hp H1 Hlo Hw Hwin HB HB2. destruct (last_id_elem pairs Hne) as (kl & Hl).
  destruct (Hp _ _ Hl) as [Hlast _]. unfold send_window. rewrite (Z.min_l (last_id pairs + 1)) by lia.
  eapply safely_bind; [apply process_marks; [lia|done|lia]|]. intros ?.
  eapply safely_bind; [apply flush_St|]. intros ?.
  pose (f := Z.max (window_start p) (last_id pairs + 1)). assert (Hf : f = Z.max (window_start p) (last_id pairs + 1)) by done.
  rewrite <- Hf. clearbody f.
  eapply (safely_bind _ _ _ (fun _ => St W B (new_next p, f) f Synced rows)).
  - eapply (safely_bind _ _ _ (fun _ => St W B (new_next p, f) f Synced rows)).
    { apply safely_put. intros w Hs. apply (St_send W B _ _ lo rows); [done| |lia|done].
      intros id k Hin. destruct (Hp id k Hin) as [Hr Hex]. pose proof (last_id_max pairs id k Hsort Hin). split; [lia|done]. }
    intros ?. eapply safely_bind; [apply await_St|]. intros mo.
    destruct (m_fault mo); [by apply safely_ret|..]; apply safely_fails; intros w Hs; inv_of_st.
  - intros ?. eapply (safely_bind _ _ _ (fun _ => St W B (new_next p, f) f Synced rows)).
    { eapply safely_bind; [apply await_St|]. intros ?. by apply safely_ret. }
    intros ?. eapply safely_conseq; [apply process_flag|done| |done]. intros ? w Hs. inv_of_st.
Qed.
Lemma offer_St W B n lo p rows wanted :
  rows.*1 `sublist_of` ids_from (window_start p) wanted ->
  1 <= window_start p -> lo <= window_start p -> 0 <= wanted -> window_start p + wanted <= new_next p -> new_next p <= B -> B <= 2 ^ 31 ->
  safely (St W B n lo Synced rows) (offer_window keys p rows) (fun _ => Inv W B) (Inv W B).
Proof.
  intros Hsub H1 Hlo Hw Hwin HB HB2. unfold offer_window.
  assert (Hn : NoDup rows.*1) by (eapply sublist_NoDup; [apply NoDup_seqZ|done]).
  destruct (decode_rows (sort_rows rows)) as [|x pairs] eqn:Hd.
  { apply safely_fails. intros w Hs. inv_of_st. }
  eapply (send_St _ _ _ _ _ _ _ wanted); try done; rewrite <- Hd.
  - eapply sublist_sorted; [apply decode_rows_sublist|by apply sort_rows_sorted].
  - intros id k (r & Hin & Hk)%decode_rows_elem. rewrite sort_rows_perm in Hin. split; [|by exists r].
    apply ids_from_range. eapply elem_of_sublist; [|done]. apply list_elem_of_fmap. by exists (id, r).
Qed.

(** *** The pass *)

Lemma max_id_below (s : gmap Z bytes) B : 1 <= B -> (forall id r, s !! id = Some r -> id < B) -> 0 <= max_id s < B.
Proof.
  intros HB Hs. unfold max_id.
  assert (Hf : Forall (fun id => id < B) (map_to_list s).*1).
  { apply Forall_forall. intros id ([id' r] & -> & H%elem_of_map_to_list)%list_elem_of_fmap. by eapply Hs. }
  induction Hf; cbn; lia.
Qed.
Lemma St_facts W B m lo s rows w : St W B m lo s rows w -> (0 <= m.2 <= m.1 /\ m.1 <= B) /\ 1 <= B /\ 0 <= max_id (pw_store w) < B.
Proof.
  intros [[] Hm _ _ _]. rewrite Hm in inv_device0. destruct inv_device0 as (H1 & H2 & _). split; [done|]. split; [done|].
  apply max_id_below; [done|]. intros id r Hr. destruct (inv_store0 id r Hr). lia.
Qed.
Lemma safely_top {A} W B B' P (t : Task A) (Q : A -> PreKeyWorld -> Prop) : B <= B' -> safely P t Q (Inv W B) -> safely P t Q (Inv W B').
Proof. intros HB Ht. eapply safely_conseq; [exact Ht|done|done|]. intros w. by apply Inv_mono. Qed.

(** From the device to the plan. *)
Lemma plan_St W B wanted d :
  1 <= wanted <= 65535 -> B + wanted - 1 <= MAX_PREKEY_ID ->
  safely (St W B (marks d) (first_unupload_pre_key_id d) Plain []) get_max_prekey_id
    (fun mx w => St W B (marks d) (first_unupload_pre_key_id d) Plain [] w
       /\ plan_sound (first_unupload_pre_key_id d) (next_pre_key_id d) wanted B
            (plan_prekey_upload (first_unupload_pre_key_id d) (next_pre_key_id d) mx wanted)
       /\ 0 <= first_unupload_pre_key_id d <= next_pre_key_id d /\ next_pre_key_id d <= B /\ 1 <= B) (Inv W B).
Proof.
  intros Hw HB. eapply safely_conseq; [by apply (read_St W B (marks d) (first_unupload_pre_key_id d) Plain [])|done| |done].
  intros mx w [Hs ->]. split; [done|]. apply St_facts in Hs. cbn [marks fst snd] in Hs. split; [apply plan_is_sound; lia|lia].
Qed.
Lemma upload_pass_St W B rerun :
  B + W - 1 <= MAX_PREKEY_ID ->
  (forall pass, rerun = Some pass -> safely (Inv W B) pass (fun _ => Inv W (B + W)) (Inv W (B + W))) ->
  safely (Inv W B) (upload_pass seed keys rerun) (fun _ => Inv W (B + W)) (Inv W (B + W)).
Proof.
  intros HB Hre. unfold upload_pass.
  eapply (safely_bind _ _ _ (fun d w => St W B (marks d) (first_unupload_pre_key_id d) Plain [] w)); [apply safely_get; intros w; apply Inv_St|].
  intros d. eapply (safely_bind _ _ _ (fun n w => St W B (marks d) (first_unupload_pre_key_id d) Plain [] w /\ (5 <= n <= 65535 /\ n <= W))).
  { apply safely_get. intros w Hs. split; [done|]. split; [apply clamp_bounds|apply Hs]. }
  intros wanted. apply (safely_fact _ (5 <= wanted <= 65535 /\ wanted <= W)); [by intros w [_ ?]|]. intros Hw.
  eapply safely_bind; [eapply safely_pre; [apply (safely_top W B); [lia|]; apply (plan_St W B wanted d); lia|by intros w [? _]]|].
  intros mx. set (p := plan_prekey_upload _ _ mx wanted).
  apply (safely_fact _ (plan_sound (first_unupload_pre_key_id d) (next_pre_key_id d) wanted B p
    /\ 0 <= first_unupload_pre_key_id d <= next_pre_key_id d /\ next_pre_key_id d <= B /\ 1 <= B)); [by intros w [_ ?]|].
  intros [[] Hd]. clearbody p. set (T := if 0 <? gen_count p then B + W else B).
  assert (HT : B <= T <= B + W) by (unfold T; destruct (0 <? gen_count p); lia).
  assert (Hnext : new_next p <= T) by (unfold T; destruct (Z.ltb_spec 0 (gen_count p)); [lia|destruct ps_reuse0; lia]).
  unfold MAX_PREKEY_ID in HB.
  eapply safely_bind.
  { eapply safely_pre; [eapply (safely_top W T); [lia|]; apply (generate_window_St W B (B + W) (marks d) (first_unupload_pre_key_id d)); lia|by intros w [? _]]. }
  intros ?. fold T. eapply safely_bind; [eapply (safely_top W T); [lia|]; apply process_marks; lia|].
  intros ?. eapply safely_bind; [eapply (safely_top W T); [lia|]; apply flush_St|].
  intros ?. eapply safely_bind; [eapply (safely_top W T); [lia|]; by apply load_St|]. cbn [app]. intros rows.
  apply (safely_fact _ (rows.*1 `sublist_of` ids_from (window_start p) wanted)); [by intros w (_ & ? & _)|]. intros Hsub.
  destruct rows as [|x rows].
  - destruct (Z.eqb_spec (gen_count p) 0) as [He|He].
    + assert (HTB : T = B) by (unfold T; by rewrite He). rewrite HTB in *.
      eapply safely_bind; [eapply safely_conseq; [apply (process_marks W B (new_next p, window_start p) (first_unupload_pre_key_id d) Synced [] (new_next p) (new_next p)); lia|by intros w (? & _)|intros ? ? H; exact H|]|].
      { intros w. apply Inv_mono. lia. }
      intros ?. destruct rerun as [pass|].
      * eapply safely_pre; [by apply Hre|]. intros w Hs. inv_of_st.
      * apply safely_fails. intros w Hs. eapply Inv_mono; [|inv_of_st]. lia.
    + apply safely_fails. intros w (Hs & _). eapply (Inv_mono W T); [lia|]. inv_of_st.
  - eapply safely_conseq; [apply (offer_St W T (new_next p, window_start p) (first_unupload_pre_key_id d) p (x :: rows) wanted); [exact Hsub|lia..]|by intros w (? & _)|..]; intros; (eapply (Inv_mono W T); [lia|done]).
Qed.

(** *** A single key *)

Lemma hand_out_St W B B' m lo s rows id k :
  s <> Saving -> B <= B' -> safely (St W B m lo s rows) (hand_out id k) (fun _ => Inv W B') (Inv W B').
Proof.
  intros Hm HB. eapply (safely_bind _ _ _ (fun _ => St W B m lo s rows)).
  - apply safely_put. intros w. apply St_logs.
  - intros ?. apply safely_ret. intros w Hs. eapply (Inv_mono W B); [lia|]. inv_of_st.
Qed.
Lemma generate_single_St W B d p :
  plan_sound (first_unupload_pre_key_id d) (next_pre_key_id d) 1 B p ->
  0 <= first_unupload_pre_key_id d <= next_pre_key_id d -> next_pre_key_id d <= B -> B <= MAX_PREKEY_ID ->
  safely (St W B (marks d) (first_unupload_pre_key_id d) Plain []) (generate_single seed d p) (fun _ => Inv W (B + 1)) (Inv W (B + 1)).
Proof.
  intros [] Hd Hn HB. unfold MAX_PREKEY_ID in HB. unfold generate_single.
  set (id := if 0 <? gen_count p then gen_start p else _). set (f := if 0 <? gen_count p then window_start p else id).
  assert (Hid : (1 <= id <= B /\ 0 <= f <= id) /\ first_unupload_pre_key_id d <= f).
  { unfold f, id, MAX_PREKEY_ID. destruct (Z.ltb_spec 0 (gen_count p)); [lia|]. destruct ps_reuse0; [lia|].
    rewrite (proj2 (Z.ltb_ge _ _)); lia. }
  clearbody id f. rewrite (Z.min_l (id + 1)) by lia.
  eapply safely_bind.
  { eapply (safely_pre _ (St W (B + 1) (marks d) (first_unupload_pre_key_id d) Plain [])); [apply (generate_St _ _ _ _ _ _ id); lia|intros w; apply St_mono; lia]. }
  intros kp. apply (safely_fact _ (good_record (encode_structure (new_pre_key_record id kp)))); [by intros w [_ ?]|]. intros Hg.
  eapply safely_bind; [eapply safely_pre; [apply (store_St W (B + 1) (marks d) (first_unupload_pre_key_id d)); split; [cbn; lia|exact Hg]|by intros w [? _]]|].
  intros ?. eapply safely_bind; [apply process_marks; lia|]. intros ?.
  eapply safely_bind; [apply flush_St|]. intros ?. by apply (hand_out_St W (B + 1)).
Qed.
Lemma single_St W B :
  1 <= W -> B + W - 1 <= MAX_PREKEY_ID ->
  safely (Inv W B) (get_or_gen_single_pre_key seed) (fun _ => Inv W (B + W)) (Inv W (B + W)).
Proof.
  intros HW HB. eapply (safely_conseq _ (Inv W B) _ _ (fun _ => Inv W (B + 1)) _ (Inv W (B + 1)));
    [|done|intros ? w; apply Inv_mono; lia|intros w; apply Inv_mono; lia].
  unfold get_or_gen_single_pre_key.
  eapply (safely_bind _ _ _ (fun d w => St W B (marks d) (first_unupload_pre_key_id d) Plain [] w)); [apply safely_get; intros w; apply Inv_St|].
  intros d. eapply safely_bind; [apply (safely_top W B); [lia|]; apply (plan_St W B 1 d); lia|].
  intros mx. set (p := plan_prekey_upload _ _ mx 1).
  apply (safely_fact _ (plan_sound (first_unupload_pre_key_id d) (next_pre_key_id d) 1 B p
    /\ 0 <= first_unupload_pre_key_id d <= next_pre_key_id d /\ next_pre_key_id d <= B /\ 1 <= B)); [by intros w [_ ?]|].
  intros [Hp Hd]. clearbody p.
  assert (Hgen : safely (St W B (marks d) (first_unupload_pre_key_id d) Plain []) (generate_single seed d p) (fun _ => Inv W (B + 1)) (Inv W (B + 1)))
    by (apply generate_single_St; [done|lia..]).
  destruct (gen_count p =? 0); [|eapply safely_pre; [exact Hgen|by intros w [? _]]].
  eapply safely_bind; [eapply safely_pre; [apply (safely_top W B); [lia|]; by apply (load_St W B (marks d) (first_unupload_pre_key_id d) Plain [])|by intros w [? _]]|].
  cbn [app]. intros rows. apply (safely_fact _ (rows.*1 `sublist_of` ids_from (window_start p) (next_pre_key_id d - window_start p))); [by intros w (_ & ? & _)|].
  intros Hsub. destruct (sort_rows rows) as [|[id r] rest] eqn:Hsort.
  { eapply safely_pre; [exact Hgen|]. intros w ([] & _). split; try done. intros ? ? []%elem_of_nil. }
  assert (Hid : window_start p <= id < next_pre_key_id d).
  { assert (Hin : (id, r) ∈ rows) by (rewrite <- sort_rows_perm, Hsort; set_solver).
    enough (id ∈ ids_from (window_start p) (next_pre_key_id d - window_start p)) as ?%ids_from_range by lia.
    eapply elem_of_sublist; [|exact Hsub]. apply list_elem_of_fmap. by exists (id, r). }
  destruct Hp.
  eapply (safely_bind _ _ _ (fun _ w => exists m, St W B m (first_unupload_pre_key_id d) Plain rows w)).
  { destruct (negb (id =? window_start p)).
    - eapply safely_conseq; [apply (safely_top W B (B + 1)); [lia|]; apply (process_marks W B (marks d) (first_unupload_pre_key_id d) Plain rows (next_pre_key_id d) id); lia
        |by intros w (? & _)|intros ? w H; eexists; exact H|done].
    - apply safely_ret. intros w (? & _). by eexists. }
  intros ?. destruct (record_public_key r) as [k|].
  - intros w (m & Hs). by apply (hand_out_St W B (B + 1) m (first_unupload_pre_key_id d) Plain rows id k); [|lia|].
  - apply safely_fails. intros w (m & Hs). eapply (Inv_mono W B); [lia|]. inv_of_st.
Qed.

(** *** Callers *)

Lemma await_Inv W B : safely (Inv W B) await (fun _ => Inv W B) (Inv W B).
Proof.
  intros w Hi. pose proof (await_St W B _ _ _ _ w (Inv_St W B w Hi)) as H.
  destruct (await w) as [w' [a|e| |]]; [inv_of_st|done..].
Qed.
Lemma inner_St W B :
  B + W - 1 <= MAX_PREKEY_ID -> safely (Inv W B) (upload_pre_keys_inner seed keys) (fun _ => Inv W (B + W)) (Inv W (B + W)).
Proof. intros HB. apply upload_pass_St; [done|]. intros pass [= <-]. apply upload_pass_St; [done|]. by intros pass [=]. Qed.
Lemma upload_St W B force :
  0 <= W -> B + W - 1 <= MAX_PREKEY_ID -> safely (Inv W B) (upload_pre_keys seed keys force) (fun _ => Inv W (B + W)) (Inv W (B + W)).
Proof.
  intros HW HB. unfold upload_pre_keys. destruct force; [by apply inner_St|].
  assert (Hm : forall w, Inv W B w -> Inv W (B + W) w) by (intros w; apply Inv_mono; lia).
  eapply (safely_bind _ _ _ (fun _ => Inv W B)).
  - eapply safely_bind; [eapply safely_err; [apply await_Inv|done]|]. intros mo. destruct (m_fault mo); [by apply safely_ret|by apply safely_fails..].
  - intros n. destruct (should_upload_pre_keys false n); [by apply inner_St|by apply safely_ret].
Qed.
Lemma retry_St W attempts : forall B force a b,
  0 <= W -> B + W * Z.of_nat attempts - 1 <= MAX_PREKEY_ID ->
  safely (Inv W B) (retry_upload seed keys attempts force a b) (fun _ => Inv W (B + W * Z.of_nat attempts)) (Inv W (B + W * Z.of_nat attempts)).
Proof.
  induction attempts as [|n IH]; intros B force a b HW HB w Hi; cbn [retry_upload].
  { eapply Inv_mono; [|done]. lia. }
  assert (Hmul : W * Z.of_nat (S n) = W + W * Z.of_nat n) by lia. rewrite Hmul in *. rewrite Z.add_assoc in *.
  assert (Hn : 0 <= W * Z.of_nat n) by (apply Z.mul_nonneg_nonneg; lia).
  pose proof (upload_St W B force HW ltac:(lia) w Hi) as Hu.
  assert (Hm : forall w, Inv W (B + W) w -> Inv W (B + W + W * Z.of_nat n) w) by (intros w'; apply Inv_mono; lia).
  destruct (upload_pre_keys seed keys force w) as [w' [[]|e| |]]; [by apply Hm| |by apply Hm..].
  refine (safely_bind (Inv W (B + W)) _ _ (fun _ => Inv W (B + W)) _ _ _ _ w' Hu); [|intros ?; by apply IH].
  eapply (safely_bind _ _ _ (fun _ => Inv W (B + W))).
  { apply safely_put. intros w2 Hi2. pose proof (St_logs W (B + W) _ _ _ _ (pw_generated w2) (pw_handed w2) (pw_delays w2 ++ [Z.min a MAX_DELAY_SECS]) w2 (Inv_St _ _ _ Hi2)) as Hs. inv_of_st. }
  intros ?. eapply safely_bind; [eapply safely_err; [apply await_Inv|done]|]. intros ?.
  eapply (safely_bind _ _ _ (fun _ => Inv W (B + W))); [by apply safely_get|]. intros [|]; [by apply safely_ret|by apply safely_fails].
Qed.

(** *** Runs *)

(** How many batches an operation may begin. *)
Definition op_cost (op : PreKeyOp) : Z :=
  match op with
  | OpLogin | OpUpload _ | OpSingle => 1
  | OpRefresh n | OpLow n => Z.of_nat n
  | OpIdle => 0
  end.
Definition ops_cost (ops : list PreKeyOp) : Z := foldr Z.add 0 (op_cost <$> ops).

Lemma retried_St W B n force : 0 <= W -> B + W * Z.of_nat n - 1 <= MAX_PREKEY_ID ->
  safely (Inv W B) (upload_pre_keys_with_retry seed keys n force) (fun _ => Inv W (B + W * Z.of_nat n)) (Inv W (B + W * Z.of_nat n)).
Proof. intros. by apply retry_St. Qed.
Lemma run_op_Inv W B op w :
  1 <= W -> B + W * op_cost op - 1 <= MAX_PREKEY_ID -> Inv W B w -> Inv W (B + W * op_cost op) (run_op seed keys w op).
Proof.
  intros HW HB Hi.
  assert (Hm : forall n w, 0 <= n -> Inv W B w -> Inv W (B + W * n) w) by (intros n w' Hn; apply Inv_mono; pose proof (Z.mul_nonneg_nonneg W n); lia).
  destruct op; cbn [op_cost run_op] in *; rewrite ?Z.mul_1_r in *.
  - eapply (safely_run (Inv W B) _ (fun _ => Inv W (B + W))); [|done|done].
    eapply (safely_bind _ _ _ (fun _ => Inv W B)); [by apply safely_get|]. intros [|]; [apply safely_ret; intros w'; apply Inv_mono; lia|].
    eapply safely_bind; [apply (safely_top W B); [lia|]; apply await_Inv|]. intros ?.
    eapply (safely_bind _ _ _ (fun _ => Inv W B)); [by apply safely_get|]. intros [|]; [apply safely_ret; intros w'; apply Inv_mono; lia|by apply inner_St].
  - eapply (safely_run (Inv W B) _ (fun _ => Inv W (B + W))); [|done|done]. apply upload_St; lia.
  - eapply (safely_run (Inv W B)); [|intros ? ? H; exact H|done].
    eapply safely_bind; [eapply safely_err; [apply await_Inv|intros w'; apply Hm; lia]|]. intros ?. apply retried_St; lia.
  - eapply (safely_run (Inv W B)); [|intros ? ? H; exact H|done].
    eapply (safely_bind _ _ _ (fun _ => Inv W B)).
    { apply safely_put. intros w' Hw. pose proof (St_low W B _ _ _ _ false w' (Inv_St _ _ _ Hw)). inv_of_st. }
    intros ?. eapply safely_bind; [eapply safely_err; [apply await_Inv|intros w'; apply Hm; lia]|]. intros ?.
    eapply (safely_bind _ _ _ (fun _ => Inv W B)); [by apply safely_get|]. intros [|]; [|apply safely_ret; intros w'; apply Hm; lia].
    eapply safely_bind; [eapply safely_err; [apply await_Inv|intros w'; apply Hm; lia]|]. intros ?.
    eapply (safely_bind _ _ _ (fun _ => Inv W B)); [by apply safely_get|]. intros [|]; [apply safely_ret; intros w'; apply Hm; lia|apply retried_St; lia].
  - eapply (safely_run (Inv W B) _ (fun _ => Inv W (B + W))); [|done|done]. by apply single_St.
  - apply Hm; [done|]. eapply (safely_run (Inv W B)); [apply await_Inv|done|done].
Qed.
Lemma op_cost_nonneg op : 0 <= op_cost op.
Proof. destruct op; cbn; lia. Qed.
Lemma run_ops_Inv W ops : forall B w,
  1 <= W -> B + W * ops_cost ops - 1 <= MAX_PREKEY_ID -> Inv W B w -> Inv W (B + W * ops_cost ops) (run_ops seed keys ops w).
Proof.
  induction ops as [|op ops IH]; intros B w HW HB Hi.
  { unfold ops_cost. cbn. by rewrite Z.mul_0_r, Z.add_0_r. }
  assert (Hc : 0 <= ops_cost ops) by (clear; induction ops as [|o ops IH]; cbn; [done|]; pose proof (op_cost_nonneg o); unfold ops_cost in IH; lia).
  unfold ops_cost in *. cbn [fmap list_fmap foldr run_ops fold_left] in *. rewrite Z.mul_add_distr_l, Z.add_assoc in *.
  pose proof (Z.mul_nonneg_nonneg W _ ltac:(lia) Hc).
  apply IH; [done|done|]. apply run_op_Inv; [done|lia|done].
Qed.
Lemma new_world_Inv W wanted script :
  clamp_wanted_pre_key_count wanted <= W -> tame_script W script -> Inv W 1 (new_world wanted script).
Proof.
  intros Hw Hs. split; [|done].
  assert (Hn : marks_sound 1 (marks new_device) (new_world wanted script)) by (split_and!; [done|done|done|intros id k H; by apply elem_of_nil in H]).
  split; try done; [constructor|intros id k H; by apply elem_of_nil in H].
Qed.
End Safe.
