(* ===== verification/PreKeyRuns.v ===== *)
(** * Runs of the pre-key code

    What a run offers to the server, that uploads get through once nothing fails any more,
    and two runs in which the code does less than its comments promise. *)

From stdpp Require Import prelude gmap sorting.
From S2P Require Import Prelude Curve SignalCache PreKeyUpload PreKeySafe.

#[local] Open Scope Z_scope.

(** ** The script runs out *)

(** A task ends, and uses up moments of the script, at least one if there is any. *)
Definition shrinks {A} (t : Task A) : Prop :=
  forall w, (length (pw_script (fst (t w))) <= length (pw_script w))%nat /\ snd (t w) <> Retrying.
Definition consumes {A} (t : Task A) : Prop :=
  forall w, pw_script w <> [] -> (length (pw_script (fst (t w))) < length (pw_script w))%nat.

Lemma happen_script ev w : pw_script (happen ev w) = pw_script w.
Proof.
  destruct ev; try done; cbn [happen].
  - unfold saver_saves. by destruct (pw_dirty w).
  - unfold saver_begins. by destruct (pw_dirty w && _).
  - unfold saver_ends. by destruct (pw_saving w).
Qed.
Lemma happens_script evs w : pw_script (fst (happens evs w)) = pw_script w.
Proof.
  revert w. induction evs as [|ev evs IH]; intros w; [done|].
  destruct ev; cbn [happens]; try (rewrite IH; apply happen_script). done.
Qed.
Lemma await_script w : pw_script (fst (await w)) = tail (pw_script w).
Proof.
  unfold await. destruct (pw_script w) as [|m script] eqn:He; [done|].
  pose proof (happens_script (m_events m) (set_flags (pw_wanted w) (pw_logged_in w) script w)) as H.
  destruct (happens _ _) as [w' killed]. exact H.
Qed.
Lemma shrinks_await : shrinks await.
Proof.
  intros w. rewrite await_script. split; [destruct (pw_script w); cbn; lia|].
  unfold await. destruct (pw_script w); [done|]. by destruct (happens _ _) as [w' [|]].
Qed.
Lemma consumes_await : consumes await.
Proof. intros w Hn. rewrite await_script. destruct (pw_script w); [done|cbn; lia]. Qed.
Lemma shrinks_ret {A} (a : A) : shrinks (mret a).
Proof. intros w. by split. Qed.
Lemma shrinks_fails {A} e : shrinks (A := A) (fails e).
Proof. intros w. by split. Qed.
Lemma shrinks_get {A} (f : PreKeyWorld -> A) : shrinks (get f).
Proof. intros w. by split. Qed.
Lemma shrinks_put f : (forall w, pw_script (f w) = pw_script w) -> shrinks (put f).
Proof. intros H w. cbn. by rewrite H. Qed.
Lemma shrinks_bind {A B} (t : Task A) (f : A -> Task B) : shrinks t -> (forall a, shrinks (f a)) -> shrinks (t ≫= f).
Proof.
  intros Ht Hf w. unfold mbind, task_bind. destruct (Ht w) as [H1 H2]. destruct (t w) as [w' [a|e| |]]; cbn in *; [|done..].
  destruct (Hf a w'). split; [lia|done].
Qed.
Lemma consumes_bind {A B} (t : Task A) (f : A -> Task B) : consumes t -> (forall a, shrinks (f a)) -> consumes (t ≫= f).
Proof.
  intros Ht Hf w Hn. unfold mbind, task_bind. specialize (Ht w Hn). destruct (t w) as [w' [a|e| |]]; cbn in *; [|lia..].
  destruct (Hf a w'). lia.
Qed.
Lemma consumes_get {A B} (g : PreKeyWorld -> A) (f : A -> Task B) : (forall a, consumes (f a)) -> consumes (get g ≫= f).
Proof. intros Hf w Hn. by apply Hf. Qed.

Create HintDb moments.
#[local] Hint Resolve shrinks_await consumes_await shrinks_ret shrinks_fails shrinks_get : moments.
#[local] Hint Extern 1 (shrinks (put _)) => apply shrinks_put; done : moments.
#[local] Hint Extern 2 (shrinks (_ ≫= _)) => apply shrinks_bind; [|intros ?] : moments.

Section Shrinks.
Context {DK : Dalek} {PC : PreKeyCodec}.
Variable seed : nat -> bytes.
Variable keys : DeviceKeys.

Lemma shrinks_process f : shrinks (process_command f).
Proof. unfold process_command. eauto with moments. Qed.
Lemma shrinks_flush : shrinks flush_device.
Proof.
  unfold flush_device. apply shrinks_bind; [eauto with moments|]. intros ?. apply shrinks_bind; [eauto with moments|].
  intros [|]; [|eauto with moments]. do 3 (apply shrinks_bind; [eauto with moments|]; intros ?).
  apply shrinks_bind; [by apply shrinks_put|]. intros ?. destruct (m_fault _); eauto with moments.
Qed.
Lemma shrinks_backend {A} wr (rd : gmap Z bytes -> A) : shrinks (backend wr rd).
Proof.
  unfold backend. apply shrinks_bind; [eauto with moments|]. intros m. apply shrinks_bind; [eauto with moments|]. intros ?.
  destruct (m_fault m); eauto with moments.
Qed.
Lemma consumes_backend {A} wr (rd : gmap Z bytes -> A) : consumes (backend wr rd).
Proof.
  unfold backend. apply consumes_bind; [eauto with moments|]. intros m. apply shrinks_bind; [eauto with moments|]. intros ?.
  destruct (m_fault m); eauto with moments.
Qed.
Lemma shrinks_store batch : shrinks (store_prekeys_batch batch).
Proof. induction batch as [|[id r] batch IH]; cbn; [apply shrinks_ret|]. apply shrinks_bind; [apply shrinks_backend|done]. Qed.
Lemma shrinks_load ids : shrinks (load_prekeys_batch ids).
Proof.
  induction ids as [|id ids IH]; cbn; [apply shrinks_ret|]. apply shrinks_bind; [apply shrinks_backend|]. intros r.
  apply shrinks_bind; [done|]. intros ?. apply shrinks_ret.
Qed.
Lemma shrinks_generate ids : shrinks (generate_batch seed ids).
Proof.
  induction ids as [|id ids IH]; cbn; [apply shrinks_ret|]. apply shrinks_bind; [unfold generate_key_pair; eauto with moments|]. intros r.
  apply shrinks_bind; [done|]. intros ?. apply shrinks_ret.
Qed.
Lemma shrinks_window p : shrinks (generate_window seed p).
Proof. unfold generate_window. destruct (0 <? _); [|apply shrinks_ret]. apply shrinks_bind; [apply shrinks_generate|]. intros ?. apply shrinks_store. Qed.
#[local] Hint Resolve shrinks_process shrinks_flush shrinks_load shrinks_window : moments.
Lemma shrinks_send p pairs : shrinks (send_window keys p pairs).
Proof.
  unfold send_window. do 2 (apply shrinks_bind; [eauto with moments|]; intros ?). apply shrinks_bind.
  - unfold execute_upload. do 2 (apply shrinks_bind; [eauto with moments|]; intros ?). destruct (m_fault _); eauto with moments.
  - intros ?. unfold mark_prekeys_uploaded. eauto with moments.
Qed.
Ltac rest_of_pass Hr :=
  do 3 (apply shrinks_bind; [eauto with moments|]; intros ?); apply shrinks_bind; [eauto with moments|]; intros [|row rows];
  [destruct (_ =? 0); [|eauto with moments]; apply shrinks_bind; [eauto with moments|]; intros ?;
   case_match; [by apply Hr|eauto with moments]
  |unfold offer_window; destruct (decode_rows _); [eauto with moments|apply shrinks_send]].
Lemma shrinks_pass rerun : (forall pass, rerun = Some pass -> shrinks pass) -> shrinks (upload_pass seed keys rerun).
Proof.
  intros Hr. unfold upload_pass. do 2 (apply shrinks_bind; [eauto with moments|]; intros ?).
  apply shrinks_bind; [apply shrinks_backend|]. intros ?. rest_of_pass Hr.
Qed.
Lemma consumes_pass rerun : (forall pass, rerun = Some pass -> shrinks pass) -> consumes (upload_pass seed keys rerun).
Proof.
  intros Hr. unfold upload_pass. do 2 (apply consumes_get; intros ?).
  apply consumes_bind; [apply consumes_backend|]. intros ?. rest_of_pass Hr.
Qed.
Lemma shrinks_inner : shrinks (upload_pre_keys_inner seed keys).
Proof. apply shrinks_pass. intros pass [= <-]. apply shrinks_pass. by intros ? [=]. Qed.
Lemma consumes_inner : consumes (upload_pre_keys_inner seed keys).
Proof. apply consumes_pass. intros pass [= <-]. apply shrinks_pass. by intros ? [=]. Qed.
End Shrinks.

(** ** When nothing fails *)

Section Calm.
Context {DK : Dalek} {PC : PreKeyCodec} {DL : DalekLaws} {PL : PreKeyCodecLaws}.
Variable seed : nat -> bytes.
Variable keys : DeviceKeys.
Hypothesis seed_len : forall n, zlen (seed n) = 32.

(** The task returns, in a world whose script is still empty and that has sent the same
    requests, for which [Q] holds. *)
Definition calm {A} (t : Task A) (w : PreKeyWorld) (Q : A -> PreKeyWorld -> Prop) : Prop :=
  pw_script w = [] ->
  exists a w', t w = (w', Done a) /\ pw_script w' = [] /\ pw_sent w' = pw_sent w /\ Q a w'.
Lemma calm_await w : pw_script w = [] -> await w = (w, Done (mkMoment [] Fine 0)).
Proof. unfold await. by intros ->. Qed.
Lemma calm_process f w : pw_script w = [] -> process_command f w = (modify_device f w, Done tt).
Proof. intros H. unfold process_command, mbind, task_bind. by rewrite calm_await. Qed.
Lemma calm_flush w : calm flush_device w (fun _ w' => pw_store w' = pw_store w /\ pw_device w' = pw_device w).
Proof.
  intros H. unfold flush_device, mbind, task_bind. rewrite calm_await by done. cbn [get].
  destruct (pw_dirty w) eqn:Hd; [|by exists tt, w]. cbn [get put]. rewrite calm_await by done. cbn. by eexists tt, _.
Qed.
Lemma calm_backend {A} wr (rd : gmap Z bytes -> A) w :
  pw_script w = [] -> backend wr rd w = (set_store (wr (pw_store w)) (pw_consumed w) w, Done (rd (pw_store w))).
Proof. intros H. unfold backend, mbind, task_bind. by rewrite calm_await. Qed.
Lemma calm_load ids w :
  pw_script w = [] -> load_prekeys_batch ids w = (w, Done (omap (fun id => pair id <$> pw_store w !! id) ids)).
Proof.
  intros H. induction ids as [|id ids IH]; [done|]. cbn [load_prekeys_batch]. unfold load_prekey, mbind, task_bind.
  rewrite calm_backend by done. rewrite set_store_same, IH. cbn. by destruct (pw_store w !! id).
Qed.
Lemma calm_store batch w :
  calm (store_prekeys_batch batch) w (fun _ w' => pw_device w' = pw_device w /\ dom (pw_store w) ⊆ dom (pw_store w') /\ list_to_set batch.*1 ⊆ dom (pw_store w')).
Proof.
  revert w. induction batch as [|[id r] batch IH]; intros w H; [exists tt, w; split_and!; [done..|set_solver]|].
  cbn [store_prekeys_batch]. unfold store_prekey, mbind, task_bind. rewrite calm_backend by done.
  destruct (IH (set_store (<[id := r]> (pw_store w)) (pw_consumed w) w) H) as (a & w' & -> & H1 & H2 & H3 & H4 & H5). cbn in *.
  exists a, w'. rewrite dom_insert_L in H4. split_and!; [done..|set_solver|set_solver].
Qed.
Lemma calm_generate ids w :
  calm (generate_batch seed ids) w (fun batch w' => batch.*1 = ids /\ pw_device w' = pw_device w /\ pw_store w' = pw_store w).
Proof.
  revert w. induction ids as [|id ids IH]; intros w H; [by exists [], w|].
  cbn [generate_batch]. unfold generate_key_pair, mbind, task_bind. cbn [get put mret task_ret].
  destruct (IH (set_logs (S (pw_generated w)) (pw_sent w) (pw_handed w) (pw_delays w) w) H) as (b & w' & -> & H1 & H2 & H3 & H4 & H5).
  eexists _, w'. split_and!; [done|done|done|cbn; by rewrite H3|done|done].
Qed.
Lemma calm_window p w :
  calm (generate_window seed p) w (fun _ w' => pw_device w' = pw_device w /\ (0 < gen_count p -> gen_start p ∈ dom (pw_store w'))).
Proof.
  intros H. unfold generate_window. destruct (Z.ltb_spec 0 (gen_count p)) as [Hg|Hg]; [|exists tt, w; split_and!; [done..|lia]].
  unfold mbind, task_bind.
  destruct (calm_generate (ids_from (gen_start p) (gen_count p)) w H) as (b & w1 & -> & H1 & H2 & H3 & H4 & H5).
  destruct (calm_store b w1 H1) as (a & w2 & -> & G1 & G2 & G3 & G4 & G5). exists a, w2.
  split_and!; [done|done|congruence|congruence|]. intros _. apply G5. rewrite H3. apply elem_of_list_to_set, ids_from_range. lia.
Qed.

Lemma bind_done {A B} (t : Task A) (f : A -> Task B) w w' a : t w = (w', Done a) -> (t ≫= f) w = f a w'.
Proof. intros H. unfold mbind, task_bind. by rewrite H. Qed.
(** A request leaves with at least one key, and the device remembers that the server has keys. *)
Definition uploads (t : Task unit) (w : PreKeyWorld) : Prop :=
  exists w' pairs, t w = (w', Done tt) /\ pw_sent w' = pw_sent w ++ [upload_spec keys pairs]
    /\ pairs <> [] /\ server_has_prekeys (pw_device w') = true.
Lemma safely_at {A} P (t : Task A) Q E w w' a : safely P t Q E -> P w -> t w = (w', Done a) -> Q a w'.
Proof. intros Ht HP He. specialize (Ht w HP). by rewrite He in Ht. Qed.
Lemma calm_send p pairs w : pw_script w = [] -> pairs <> [] -> uploads (send_window keys p pairs) w.
Proof.
  intros H Hp. unfold uploads, send_window. rewrite (bind_done _ _ _ _ _ (calm_process _ w H)). set (w1 := modify_device _ w).
  destruct (calm_flush w1 H) as (a & w2 & Hf & H1 & H2 & H3 & H4). rewrite (bind_done _ _ _ _ _ Hf).
  set (w3 := set_logs (pw_generated w2) (pw_sent w2 ++ [upload_spec keys pairs]) (pw_handed w2) (pw_delays w2) w2).
  assert (He : execute_upload (upload_spec keys pairs) w2 = (w3, Done tt)) by (unfold execute_upload, mbind, task_bind; cbn [put]; by rewrite calm_await).
  assert (Hm : mark_prekeys_uploaded pairs.*1 w3 = (w3, Done tt)) by (unfold mark_prekeys_uploaded, mbind, task_bind; by rewrite calm_await).
  rewrite (bind_done _ _ _ _ _ He), (bind_done _ _ _ _ _ Hm), (calm_process _ w3 H1).
  eexists _, pairs. split; [done|]. cbn. by rewrite H2.
Qed.
Lemma rows_decoded (rows : list (Z * bytes)) :
  rows <> [] -> Forall (fun row => good_record row.2) rows -> decode_rows (sort_rows rows) <> [].
Proof.
  intros Hne Hg Hd. destruct rows as [|[id r] rows]; [done|]. apply Forall_cons in Hg as [(k & [Hk _] & _) _]. cbn in Hk.
  assert (Hin : (id, k) ∈ decode_rows (sort_rows ((id, r) :: rows))).
  { apply decode_rows_elem. exists r. split; [|done]. rewrite sort_rows_perm. set_solver. }
  rewrite Hd in Hin. by apply elem_of_nil in Hin.
Qed.
Lemma loaded_nonempty (s : gmap Z bytes) ids id : id ∈ ids -> id ∈ dom s -> omap (fun id => pair id <$> s !! id) ids <> [].
Proof.
  intros Hid [r Hr]%elem_of_dom He. assert (Hin : (id, r) ∈ omap (fun id => pair id <$> s !! id) ids).
  { apply list_elem_of_omap. exists id. by rewrite Hr. }
  rewrite He in Hin. by apply elem_of_nil in Hin.
Qed.
Lemma calm_pass W B rerun w :
  B + W - 1 <= MAX_PREKEY_ID -> Inv W B w -> pw_script w = [] ->
  (rerun = None -> first_unupload_pre_key_id (pw_device w) = next_pre_key_id (pw_device w)) ->
  (forall pass, rerun = Some pass -> forall w', Inv W B w' -> pw_script w' = [] ->
     first_unupload_pre_key_id (pw_device w') = next_pre_key_id (pw_device w') -> pw_sent w' = pw_sent w -> uploads pass w') ->
  uploads (upload_pass seed keys rerun) w.
Proof.
  intros HB Hi Hc Hnone Hsome. pose proof (Inv_St _ _ _ Hi) as Hs. destruct (St_facts _ _ _ _ _ _ _ Hs) as (Hd & HB1 & Hmx).
  cbn [marks fst snd] in Hd.
  assert (Hw : clamp_wanted_pre_key_count (pw_wanted w) <= W) by apply Hi. pose proof (clamp_bounds (pw_wanted w)) as Hw5.
  unfold uploads, upload_pass, get_max_prekey_id.
  rewrite (bind_done _ _ w w (pw_device w)), (bind_done _ _ w w (clamp_wanted_pre_key_count (pw_wanted w))) by done.
  rewrite (bind_done _ _ _ _ _ (calm_backend _ _ w Hc)), set_store_same. cbv beta zeta.
  set (wanted := clamp_wanted_pre_key_count (pw_wanted w)) in *. set (d := pw_device w) in *.
  pose proof (plan_is_sound (first_unupload_pre_key_id d) (next_pre_key_id d) (max_id (pw_store w)) wanted B
    ltac:(lia) ltac:(lia) ltac:(lia) ltac:(lia) ltac:(lia)) as Hplan.
  set (p := plan_prekey_upload _ _ _ _) in *. clearbody p. destruct Hplan as [Pfirst Ppos Pgen Ptop Pcount Pnext Pwindow Preuse Pfresh Pempty]. unfold MAX_PREKEY_ID in HB.
  set (T := if 0 <? gen_count p then B + W else B).
  assert (HT : B <= T <= B + W) by (unfold T; destruct (0 <? gen_count p); lia).
  assert (Hnext : new_next p <= T) by (unfold T; destruct (Z.ltb_spec 0 (gen_count p)); [lia|destruct Preuse; lia]).
  destruct (calm_window p w Hc) as ([] & w1 & Hw1 & Hc1 & Hs1 & Hd1 & Hgen). rewrite (bind_done _ _ _ _ _ Hw1).
  eapply safely_at in Hw1 as St1; [|apply (generate_window_St seed seed_len W B (B + W) (marks d) (first_unupload_pre_key_id d) p); lia|exact Hs]. fold T in St1.
  pose proof (calm_process (set_watermarks (new_next p) (window_start p)) w1 Hc1) as Hw2. rewrite (bind_done _ _ _ _ _ Hw2).
  eapply safely_at in Hw2 as St2; [|apply process_marks; [lia|exact Hnext|]|exact St1]; [|lia].
  set (w2 := modify_device _ w1) in *.
  destruct (calm_flush w2 Hc1) as ([] & w3 & Hw3 & Hc3 & Hs3 & Hst3 & Hd3). rewrite (bind_done _ _ _ _ _ Hw3).
  eapply safely_at in Hw3 as St3; [|apply flush_St|exact St2].
  pose proof (calm_load (ids_from (window_start p) wanted) w3 Hc3) as Hl. rewrite (bind_done _ _ _ _ _ Hl).
  eapply safely_at in Hl as Hld; [|apply (load_St W T (new_next p, window_start p) (first_unupload_pre_key_id d) Synced []); done|exact St3].
  cbn [app] in Hld. destruct Hld as (St4 & _ & Hgood).
  set (rows := omap _ _) in *.
  assert (Hrows : 0 < gen_count p -> rows <> []).
  { intros Hg. apply (loaded_nonempty _ _ (gen_start p)); [apply ids_from_range; specialize (Pfresh Hg); lia|]. rewrite Hst3. by apply Hgen. }
  assert (Hsent : pw_sent w3 = pw_sent w) by (rewrite Hs3; exact Hs1).
  clearbody rows. destruct rows as [|x rows].
  - assert (Hg0 : gen_count p = 0) by (destruct (decide (0 < gen_count p)) as [Hg|Hg]; [by destruct (Hrows Hg)|lia]).
    rewrite (proj2 (Z.eqb_eq _ _) Hg0).
    pose proof (calm_process (set_watermarks (new_next p) (new_next p)) w3 Hc3) as Hw4. rewrite (bind_done _ _ _ _ _ Hw4).
    assert (HTB : T = B) by (unfold T; by rewrite Hg0). rewrite HTB in *.
    eapply safely_at in Hw4 as St5; [|apply process_marks; [lia|exact Hnext|]|exact St3]; [|lia].
    destruct rerun as [pass|]; [|specialize (Pempty (Hnone eq_refl)); lia].
    rewrite <- Hsent. apply (Hsome pass eq_refl (modify_device (set_watermarks (new_next p) (new_next p)) w3)); [|done|done|done].
    by apply (St_Inv _ _ _ _ Plain _ _ ltac:(done) St5).
  - unfold offer_window. pose proof (rows_decoded (x :: rows) ltac:(done) Hgood) as Hdec.
    destruct (decode_rows _) as [|y pairs] eqn:Hde; [done|]. rewrite <- Hsent. by apply calm_send.
Qed.
Lemma calm_inner W B w :
  B + W - 1 <= MAX_PREKEY_ID -> Inv W B w -> pw_script w = [] -> uploads (upload_pre_keys_inner seed keys) w.
Proof.
  intros HB Hi Hc. apply (calm_pass W B); [done|done|done|by intros [=]|]. intros pass [= <-] w' Hi' Hc' He _.
  apply (calm_pass W B); [done|done|done|done|by intros ? [=]].
Qed.

(** ** When it says that it is done *)

Lemma happen_sent ev w : pw_sent (happen ev w) = pw_sent w.
Proof.
  destruct ev; try done; cbn [happen].
  - unfold saver_saves. by destruct (pw_dirty w).
  - unfold saver_begins. by destruct (pw_dirty w && _).
  - unfold saver_ends. by destruct (pw_saving w).
Qed.
Lemma happens_sent evs w : pw_sent (fst (happens evs w)) = pw_sent w.
Proof.
  revert w. induction evs as [|ev evs IH]; intros w; [done|].
  destruct ev; cbn [happens]; try (rewrite IH; apply happen_sent). done.
Qed.
Definition sent_last (w : PreKeyWorld) : Prop := exists pairs, pairs <> [] /\ last (pw_sent w) = Some (upload_spec keys pairs).
Lemma await_sent : safely sent_last await (fun _ => sent_last) (fun _ => True).
Proof.
  intros w H. unfold await. destruct (pw_script w) as [|m script]; [done|].
  pose proof (happens_sent (m_events m) (set_flags (pw_wanted w) (pw_logged_in w) script w)) as He.
  destruct (happens _ _) as [w' [|]]; [done|]. unfold sent_last in *. cbn in He. by rewrite He.
Qed.
Lemma safely_any {A} P (t : Task A) : safely P t (fun _ _ => True) (fun _ => True).
Proof. intros w _. by destruct (t w) as [w' [a|e| |]]. Qed.
Definition told (w : PreKeyWorld) : Prop := sent_last w /\ server_has_prekeys (pw_device w) = true.
Lemma send_told p pairs : pairs <> [] -> safely (fun _ => True) (send_window keys p pairs) (fun _ => told) (fun _ => True).
Proof.
  intros Hp. do 2 (eapply safely_bind; [apply safely_any|]; intros ?).
  eapply (safely_bind _ _ _ (fun _ => sent_last)).
  - eapply (safely_bind _ _ _ (fun _ => sent_last)); [apply safely_put; intros w _; exists pairs; cbn; by rewrite last_snoc|].
    intros ?. eapply safely_bind; [apply await_sent|]. intros mo. destruct (m_fault mo); [by apply safely_ret|by apply safely_fails..].
  - intros ?. eapply (safely_bind _ _ _ (fun _ => sent_last)); [eapply safely_bind; [apply await_sent|]; intros ?; by apply safely_ret|].
    intros ?. eapply safely_bind; [apply await_sent|]. intros ?. apply safely_put. intros w H. by split.
Qed.
Lemma pass_told rerun :
  (forall pass, rerun = Some pass -> safely (fun _ => True) pass (fun _ => told) (fun _ => True)) ->
  safely (fun _ => True) (upload_pass seed keys rerun) (fun _ => told) (fun _ => True).
Proof.
  intros Hr. unfold upload_pass. do 7 (eapply safely_bind; [apply safely_any|]; intros ?). case_match.
  - destruct (_ =? 0); [|by apply safely_fails]. eapply safely_bind; [apply safely_any|]. intros ?.
    destruct rerun as [pass|]; [by apply Hr|by apply safely_fails].
  - unfold offer_window. destruct (decode_rows _); [by apply safely_fails|]. by apply send_told.
Qed.
Lemma inner_told : safely (fun _ => True) (upload_pre_keys_inner seed keys) (fun _ => told) (fun _ => True).
Proof. apply pass_told. intros pass [= <-]. apply pass_told. by intros ? [=]. Qed.

(** ** Retrying to the end *)

(** The ways in which the retrying ends. *)
Definition retry_outcome (r : PreKeyWorld * Ended unit) : Prop :=
  match r with
  | (w, Done _) => told w
  | (w, Fails e) => e = EConnectionLost /\ pw_logged_in w = false
  | (w, Killed) => True
  | (w, Retrying) => False
  end.
Lemma slept W B a w :
  Inv W B w ->
  match retry_sleep a w with
  | (w', Done _) => Inv W B w' /\ (length (pw_script w') <= length (pw_script w))%nat
  | r => retry_outcome r
  end.
Proof.
  intros Hi. unfold retry_sleep, mbind, task_bind. cbn [put].
  set (w1 := set_logs _ _ _ _ w).
  assert (Hi1 : Inv W B w1) by exact (St_Inv W B _ _ Plain [] w1 ltac:(done) (St_logs W B _ _ Plain [] _ _ _ w (Inv_St W B w Hi))).
  pose proof (await_Inv W B w1 Hi1) as Ha. destruct (shrinks_await w1) as [Hl Hr].
  destruct (await w1) as [w2 [m|e| |]] eqn:Ew; cbn in *; try done.
  - destruct (pw_logged_in w2) eqn:Hlog; cbn; [|done]. split; [done|]. exact Hl.
  - exfalso. revert Ew. unfold await. destruct (pw_script w1); [done|]. by destruct (happens _ _) as [? [|]].
Qed.
Lemma retry_ends W attempts : forall B a b w,
  0 <= W -> B + W * Z.of_nat attempts - 1 <= MAX_PREKEY_ID -> Inv W B w -> (length (pw_script w) < attempts)%nat ->
  retry_outcome (retry_upload seed keys attempts true a b w).
Proof.
  induction attempts as [|n IH]; intros B a b w HW HB Hi Hl; [lia|]. cbn [retry_upload upload_pre_keys].
  assert (Hn : 0 <= W * Z.of_nat n) by (apply Z.mul_nonneg_nonneg; lia).
  pose proof (inner_St seed keys seed_len W B ltac:(lia) w Hi) as Hsafe. pose proof (inner_told w I) as Htold.
  destruct (shrinks_inner seed keys w) as [_ Hend]. pose proof (consumes_inner seed keys w) as Hcon.
  pose proof (calm_inner W B w ltac:(lia) Hi) as Hcalm.
  destruct (upload_pre_keys_inner seed keys w) as [w1 [[]|e| |]] eqn:Ew; [done| |done|done].
  destruct (pw_script w) as [|m s] eqn:Hs; [destruct (Hcalm eq_refl) as (? & ? & ? & _); congruence|]. specialize (Hcon ltac:(done)).
  pose proof (slept W (B + W) a w1 Hsafe) as Hsl. unfold mbind, task_bind.
  destruct (retry_sleep a w1) as [w2 [[]|e2| |]]; cbn in *; [|done|done|done].
  destruct Hsl as [Hi2 Hl2]. apply (IH (B + W)); [done|lia|done|lia].
Qed.
End Calm.

(** ** The theorems *)

(** C11: whatever fails (writes refused or not confirmed, requests lost), whenever messages
    consume keys and wherever the process is killed, the ids offered to the server go up, so
    that no id is offered twice, and stay in the 24-bit range; the record of every offered
    key is in the store, with the public key that was offered, until a message consumes it.
    This for the logins, uploads, refreshes, low-key notifications and single keys of a
    device from its first start, as long as they begin no more batches than the ids last
    for, and with a saver whose saves do not overlap the uploads'. *)
Theorem prekeys_offered_once {DK : Dalek} {PC : PreKeyCodec} {DL : DalekLaws} {PL : PreKeyCodecLaws}
    (seed : nat -> bytes) (keys : DeviceKeys) (wanted W : Z) (script : list Moment) (ops : list PreKeyOp) :
  (forall n, zlen (seed n) = 32) ->
  clamp_wanted_pre_key_count wanted <= W -> tame_script W script -> W * ops_cost ops <= MAX_PREKEY_ID ->
  let w := run_ops seed keys ops (new_world wanted script) in
  StronglySorted Z.lt (offered w).*1
  /\ forall id k, (id, k) ∈ offered w ->
       1 <= id <= MAX_PREKEY_ID
       /\ (id ∈ pw_consumed w \/ exists r, pw_store w !! id = Some r /\ row_public_key r = Some k).
Proof.
  intros Hseed Hw Hs Hc w. pose proof (clamp_bounds wanted).
  assert (Hi : Inv W (1 + W * ops_cost ops) w) by (apply run_ops_Inv; [done|lia|lia|by apply new_world_Inv]).
  destruct Hi as [[_ _ _ Hd _ _ _ Hsort Hk] _]. split; [done|]. intros id k Hin. split.
  - destruct Hd as (H1 & H2 & H3). specialize (H3 id k Hin). lia.
  - destruct (Hk id k Hin) as (r & [Hr|Hr] & Hrk); [right; by exists r|by left].
Qed.

(** C12: the retrying upload ends.  Take a device from its first start, with key pairs from seeds
    of 32 bytes, after any logins, uploads, refreshes, low-key notifications and single keys,
    with failures, consumed keys and kills among them; let each save of the background saver
    happen in one go, let no batch be wanted above [W] keys, and let the operations and the
    attempts together begin no more batches of [W] than the 24-bit ids last for.  Then the upload with
    [force = true], after more attempts than there are moments left in which something can go
    wrong, has returned, and then a request with at least one key was sent last and the device
    knows that the server has keys; or the client was logged out while it waited; or the
    process was killed.  It never gives up for another reason and is never still retrying. *)
Theorem prekey_retry_ends {DK : Dalek} {PC : PreKeyCodec} {DL : DalekLaws} {PL : PreKeyCodecLaws}
    (seed : nat -> bytes) (keys : DeviceKeys) (wanted W : Z) (script : list Moment) (ops : list PreKeyOp) (attempts : nat) :
  (forall n, zlen (seed n) = 32) ->
  clamp_wanted_pre_key_count wanted <= W -> tame_script W script ->
  W * (ops_cost ops + Z.of_nat attempts) <= MAX_PREKEY_ID ->
  let w := run_ops seed keys ops (new_world wanted script) in
  (length (pw_script w) < attempts)%nat ->
  retry_outcome keys (upload_pre_keys_with_retry seed keys attempts true w).
Proof.
  intros Hseed Hw Hs Hc w Hl. pose proof (clamp_bounds wanted). rewrite Z.mul_add_distr_l in Hc.
  assert (Hn : 0 <= W * Z.of_nat attempts) by (apply Z.mul_nonneg_nonneg; lia).
  apply (retry_ends seed keys Hseed W attempts (1 + W * ops_cost ops)); [lia|lia| |done].
  apply run_ops_Inv; [done|lia|lia|by apply new_world_Inv].
Qed.

(** ** Instances *)

#[local] Instance tiny_prekeys : PreKeyCodec := {|
  encode_structure s := default 0 (ps_id s) :: zlen (default [] (ps_public_key s)) :: default [] (ps_public_key s) ++ default [] (ps_private_key s);
  decode_structure b :=
    match b with
    | id :: n :: rest => Some (mkStructure (Some id) (Some (take (Z.to_nat n) rest)) (Some (drop (Z.to_nat n) rest)))
    | _ => None
    end
|}.
#[local] Instance tiny_prekeys_laws : PreKeyCodecLaws (PC := tiny_prekeys).
Proof.
  intros id pub priv _. cbn. unfold zlen. rewrite Nat2Z.id, take_app_length, drop_app_length. done.
Qed.
Definition tiny_seed (n : nat) : bytes := Z.of_nat (8 + 8 * n) :: replicate 31 0.
Definition tiny_keys : DeviceKeys := mkDeviceKeys 7 (mkPublicKey [1]) 1 (mkPublicKey [2]) [3].
Lemma tiny_seed_len n : zlen (tiny_seed n) = 32.
Proof. unfold tiny_seed. by rewrite zlen_cons. Qed.

(** The second upload is not answered, a key is consumed meanwhile, and after a crash a third
    takes the keys that come next. *)
Definition tiny_script : list Moment :=
  replicate 40 (mkMoment [] Fine 0) ++ [mkMoment [Consumed 2] Unconfirmed 0] ++ replicate 14 (mkMoment [SaverSaves Refused] Refused 0)
  ++ [mkMoment [Crash] Fine 0].
Definition tiny_ops : list PreKeyOp := [OpLogin; OpUpload true; OpSingle; OpIdle; OpRefresh 20; OpLow 3].
Lemma prekeys_offered_once_witness :
  (8 < length (offered (run_ops tiny_seed tiny_keys tiny_ops (new_world 5 tiny_script))))%nat
  /\ StronglySorted Z.lt (offered (run_ops tiny_seed tiny_keys tiny_ops (new_world 5 tiny_script))).*1.
Proof.
  split; [apply (bool_decide_unpack _); vm_compute; exact I|].
  refine (proj1 (prekeys_offered_once tiny_seed tiny_keys 5 5 tiny_script tiny_ops tiny_seed_len _ _ _)).
  - apply (bool_decide_unpack _). vm_compute. exact I.
  - unfold tame_script, tiny_script. rewrite !Forall_app. split_and!; [apply Forall_replicate; done|by repeat constructor|apply Forall_replicate; by repeat constructor|by repeat constructor].
  - apply (bool_decide_unpack _). vm_compute. exact I.
Defined.

Lemma prekey_retry_ends_witness :
  retry_outcome tiny_keys (upload_pre_keys_with_retry tiny_seed tiny_keys 60 true (run_ops tiny_seed tiny_keys [OpLogin] (new_world 5 tiny_script)))
  /\ pw_script (run_ops tiny_seed tiny_keys [OpLogin] (new_world 5 tiny_script)) <> [].
Proof.
  split; [|by vm_compute].
  refine (prekey_retry_ends tiny_seed tiny_keys 5 5 tiny_script [OpLogin] 60 tiny_seed_len _ _ _ _).
  - apply (bool_decide_unpack _). vm_compute. exact I.
  - unfold tame_script, tiny_script. rewrite !Forall_app. split_and!; [apply Forall_replicate; done|by repeat constructor|apply Forall_replicate; by repeat constructor|by repeat constructor].
  - apply (bool_decide_unpack _). vm_compute. exact I.
  - apply (bool_decide_unpack _). vm_compute. exact I.
Defined.

(** ** Two runs that fall short *)

(** The saver takes the dirty flag while the upload is about to flush: the flush finds nothing
    to write and lets the request go, the process dies before the saver has written, and the
    same ids are offered again. *)
Definition quiet (n : nat) : list Moment := replicate n (mkMoment [] Fine 0).
Lemma saver_race_reoffers :
  let script := quiet 15 ++ [mkMoment [SaverBegins] Fine 0; mkMoment [Crash] Fine 0] in
  (offered (run_ops tiny_seed tiny_keys [OpUpload true; OpUpload true] (new_world 5 script))).*1 = [1; 2; 3; 4; 5; 1; 2; 3; 4; 5].
Proof. by vm_compute. Qed.

(** A window whose watermarks could not be written still serves retry receipts: the key is
    handed out, and after a crash another key is generated over its record. *)
Lemma handed_key_regenerated :
  let script := quiet 28 ++ [mkMoment [] Refused 0] ++ quiet 6 ++ [mkMoment [Crash] Fine 0] in
  let w := run_ops tiny_seed tiny_keys [OpUpload true; OpUpload true; OpSingle; OpIdle; OpSingle] (new_world 5 script) in
  exists k k', pw_handed w = [(6, k); (6, k')] /\ k <> k'
    /\ 6 ∉ pw_consumed w /\ (pw_store w !! 6) ≫= row_public_key = Some k'.
Proof.
  cbv zeta. set (w := run_ops _ _ _ _).
  assert (H : pw_handed w = [(6, kp_public (keypair_generate (tiny_seed 5))); (6, kp_public (keypair_generate (tiny_seed 10)))]) by (vm_compute; reflexivity).
  rewrite H. eexists _, _. split; [done|]. split; [by vm_compute|]. split; [apply (bool_decide_unpack _); vm_compute; exact I|vm_compute; reflexivity].
Qed.
