(* ===== verification/PreKeyNodes.v ===== *)
(** * Pre-keys on the wire

    [wacore/src/prekeys.rs] and [wacore/src/iq/prekeys.rs]: the requests for the count, for
    the bundles of other devices and for the digest, the upload of one's own keys, by way of
    a node tree and directly into the encoder, and the answers.  Bundles of companion devices
    are checked against their signed device identity. *)

From stdpp Require Import prelude strings.
From S2P Require Import Prelude Curve Jid Token Node Attrs Writer Encoder Marshal SessionCipher Pairing PreKeyUpload.

#[local] Open Scope Z_scope.

(** ** Queries ([request.rs]) *)

Inductive InfoQueryType : Type := IqGet | IqSet.
Definition query_type_str (t : InfoQueryType) : bytes := match t with IqGet => str "get" | IqSet => str "set" end.
Record InfoQuery : Type := mkInfoQuery {
  iq_namespace : bytes; iq_type : InfoQueryType; iq_to : Jid; iq_target : option Jid; iq_content : option NodeContent
}.
Definition info_query_get (namespace : bytes) (to : Jid) (content : option NodeContent) : InfoQuery :=
  mkInfoQuery namespace IqGet to None content.
Definition info_query_set (namespace : bytes) (to : Jid) (content : option NodeContent) : InfoQuery :=
  mkInfoQuery namespace IqSet to None content.
Definition with_target (target : Jid) (q : InfoQuery) : InfoQuery :=
  mkInfoQuery (iq_namespace q) (iq_type q) (iq_to q) (Some target) (iq_content q).
(** [NodeBuilder::apply_content] *)
Definition apply_content (content : option NodeContent) (b : NodeBuilder) : NodeBuilder := mkBuilder (nb_tag b) (nb_attrs b) content.
(** [Jid::is_empty] *)
Definition jid_is_empty (j : Jid) : bool := bool_decide (j_user j = []).
Definition build_iq_node (query : InfoQuery) (id : bytes) : Node :=
  let b := builder_new (str "iq") in
  let b := builder_attr b (str "id") (VString id) in
  let b := builder_attr b (str "xmlns") (VString (iq_namespace query)) in
  let b := builder_attr b (str "type") (VString (query_type_str (iq_type query))) in
  let b := builder_attr b (str "to") (VJid (iq_to query)) in
  let b := match iq_target query with
           | Some target => if jid_is_empty target then b else builder_attr b (str "target") (VJid target)
           | None => b
           end in
  builder_build (apply_content (iq_content query) b).

(** ** Helpers *)

Definition leaf (tag content : bytes) : Node := builder_build (builder_bytes (builder_new tag) content).
Definition branch (tag : bytes) (ns : list Node) : Node := builder_build (builder_children (builder_new tag) ns).
(** [id.to_be_bytes()[1..]] *)
Definition truncate_to_3bytes (id : Z) : bytes := from 1 (to_be_bytes 4 id).
Inductive NodeError : Type := ENode.
Definition expand_from_3bytes (b : bytes) : outcome NodeError Z :=
  if zlen b =? 3 then Ok (from_be_bytes (0 :: b)) else Err ENode.
Definition required_child (n : NodeRef) (tag : bytes) : outcome NodeError NodeRef := ok_or (get_optional_child n tag) ENode.
Definition extract_content_bytes (n : option NodeRef) : bytes := default [] (n ≫= content_bytes).
(** At most four bytes, at the end of a buffer of four. *)
Definition extract_content_uint (n : option NodeRef) : Z :=
  default 0 ((fun b => from_be_bytes (replicate (4 - length (take 4 b)) 0 ++ take 4 b)) <$> (n ≫= content_bytes)).
Definition bytes_of (n : NodeRef) : outcome NodeError bytes := ok_or (content_bytes n) ENode.
Definition sized (len : Z) (b : bytes) : outcome NodeError bytes := if zlen b =? len then Ok b else Err ENode.

(** ** The count, the digest and the fetch *)

Definition to_server : Jid := jid_new [] Pn.
Definition count_iq : InfoQuery := info_query_get (str "encrypt") to_server (Some (NNodes [builder_build (builder_new (str "count"))])).
Definition parse_count (response : NodeRef) : outcome NodeError Z :=
  count_node ← ok_or (get_optional_child response (str "count")) ENode;
  let count_str := default (str "0") (fst (optional_string (str "value") (attr_parser_ref count_node))) in
  Ok (default 0 (parse_u64 count_str)).

Inductive PreKeyFetchReason : Type := ReasonIdentity | ReasonRetry | ReasonOther (s : bytes).
Definition reason_str (r : PreKeyFetchReason) : bytes :=
  match r with ReasonIdentity => str "identity" | ReasonRetry => str "retry" | ReasonOther s => s end.
Definition build_fetch_prekeys_request (jids : list Jid) (reason : option bytes) : Node :=
  branch (str "key")
    ((fun jid =>
        let b := builder_attr (builder_new (str "user")) (str "jid") (VJid jid) in
        builder_build (match reason with Some r => builder_attr b (str "reason") (VString r) | None => b end)) <$> jids).
Definition fetch_iq (jids : list Jid) (reason : option PreKeyFetchReason) : InfoQuery :=
  info_query_get (str "encrypt") to_server (Some (NNodes [build_fetch_prekeys_request jids (reason_str <$> reason)])).

Definition digest_iq : InfoQuery := info_query_get (str "encrypt") to_server (Some (NNodes [builder_build (builder_new (str "digest"))])).
Record DigestKeyBundleResponse : Type := mkDigest {
  dg_reg_id : Z; dg_identity : bytes; dg_skey_id : Z; dg_skey_pubkey : bytes; dg_skey_signature : bytes;
  dg_prekey_ids : list Z; dg_hash : bytes
}.
Definition nonempty_bytes (n : NodeRef) : outcome NodeError bytes :=
  match content_bytes n with Some (b :: bs) => Ok (b :: bs) | _ => Err ENode end.
Definition digest_skey (digest_node : NodeRef) : Z * bytes * bytes :=
  match get_optional_child digest_node (str "skey") with
  | Some skey => (extract_content_uint (get_optional_child skey (str "id")),
                  extract_content_bytes (get_optional_child skey (str "value")),
                  extract_content_bytes (get_optional_child skey (str "signature")))
  | None => (0, [], [])
  end.
Definition digest_prekey_ids (digest_node : NodeRef) : list Z :=
  match get_optional_child digest_node (str "list") ≫= children with
  | Some l => (fun child => extract_content_uint (Some child)) <$> l
  | None => []
  end.
Definition parse_digest (response : NodeRef) : outcome NodeError DigestKeyBundleResponse :=
  digest_node ← ok_or (get_optional_child response (str "digest")) ENode;
  reg_node ← required_child digest_node (str "registration");
  let reg_id := extract_content_uint (Some reg_node) in
  identity_node ← required_child digest_node (str "identity");
  identity ← nonempty_bytes identity_node;
  hash_node ← required_child digest_node (str "hash");
  hash ← nonempty_bytes hash_node;
  let skey := digest_skey digest_node in
  Ok (mkDigest reg_id identity (fst (fst skey)) (snd (fst skey)) (snd skey) (digest_prekey_ids digest_node) hash).

(** ** The upload *)

Definition build_upload_prekeys_request (registration_id : Z) (identity_key : bytes) (signed_pre_key_id : Z)
    (signed_pre_key_public signed_pre_key_signature : bytes) (pre_keys : list (Z * bytes)) : list Node :=
  let pre_key_nodes := (fun '(id, public) => branch (str "key") [leaf (str "id") (truncate_to_3bytes id); leaf (str "value") public]) <$> pre_keys in
  let signed_pre_key_node :=
    branch (str "skey") [leaf (str "id") (truncate_to_3bytes signed_pre_key_id); leaf (str "value") signed_pre_key_public;
                         leaf (str "signature") signed_pre_key_signature] in
  [leaf (str "registration") (to_be_bytes 4 registration_id); leaf (str "type") [5]; leaf (str "identity") identity_key;
   branch (str "list") pre_key_nodes; signed_pre_key_node].
Definition upload_iq (spec : PreKeyUploadSpec) : InfoQuery :=
  info_query_set (str "encrypt") to_server
    (Some (NNodes (build_upload_prekeys_request (us_registration_id spec) (public_key_bytes (us_identity_key spec))
       (us_signed_pre_key_id spec) (public_key_bytes (us_signed_pre_key_public spec)) (us_signed_pre_key_signature spec)
       ((fun '(id, pk) => (id, public_key_bytes pk)) <$> us_pre_keys spec)))).

Section Direct.
Context {TM : TokenMaps} {W : Type} {BW : ByteWriter W}.
Abbreviation write_string := (write_string no_hints).

(** A tag and its bytes. *)
Definition direct_leaf (tag content : bytes) (w : W) : outcome BinaryError W :=
  w ← write_list_start 2 w; w ← write_string tag w; write_bytes_with_len content w.
Definition direct_attrs (request_id : bytes) (w : W) : outcome BinaryError W :=
  w ← write_string (str "id") w; w ← write_string request_id w;
  w ← write_string (str "xmlns") w; w ← write_string (str "encrypt") w;
  w ← write_string (str "type") w; w ← write_string (str "set") w;
  w ← write_string (str "to") w; write_jid_owned no_hints (jid_new [] Pn) w.
Definition direct_key (key : Z * PublicKey) (w : W) : outcome BinaryError W :=
  w ← write_list_start 2 w; w ← write_string (str "key") w; w ← write_list_start 2 w;
  w ← direct_leaf (str "id") (from 1 (to_be_bytes 4 (fst key))) w;
  direct_leaf (str "value") (public_key_bytes (snd key)) w.
Definition direct_content (spec : PreKeyUploadSpec) (w : W) : outcome BinaryError W :=
  w ← write_list_start 5 w;
  w ← direct_leaf (str "registration") (to_be_bytes 4 (us_registration_id spec)) w;
  w ← direct_leaf (str "type") [5] w;
  w ← direct_leaf (str "identity") (public_key_bytes (us_identity_key spec)) w;
  w ← write_list_start 2 w; w ← write_string (str "list") w; w ← write_list_start (zlen (us_pre_keys spec)) w;
  w ← write_each direct_key (us_pre_keys spec) w;
  w ← write_list_start 2 w; w ← write_string (str "skey") w; w ← write_list_start 3 w;
  w ← direct_leaf (str "id") (from 1 (to_be_bytes 4 (us_signed_pre_key_id spec))) w;
  w ← direct_leaf (str "value") (public_key_bytes (us_signed_pre_key_public spec)) w;
  direct_leaf (str "signature") (us_signed_pre_key_signature spec) w.
End Direct.

Section Encode.
Context {TM : TokenMaps}.

Definition encode_iq_direct (spec : PreKeyUploadSpec) (request_id out : bytes) : outcome BinaryError bytes :=
  w ← encoder_new_vec out;
  write_node_with no_hints (str "iq") 4 true (direct_attrs request_id) (direct_content spec) w.
End Encode.

(** ** Bundles *)

(** [str::trim]: the encodings of the characters with the property [White_Space]. *)
Definition white_space : list bytes :=
  [[9]; [10]; [11]; [12]; [13]; [32]; [194; 133]; [194; 160]; [225; 154; 128]; [226; 129; 159]; [227; 128; 128];
   [226; 128; 168]; [226; 128; 169]; [226; 128; 175]] ++ ((fun x => [226; 128; x]) <$> seqZ 128 11).
Fixpoint strip_white (fuel : nat) (spaces : list bytes) (s : bytes) : bytes :=
  match fuel with
  | O => s
  | S fuel =>
      match head (omap (fun p => match p with [] => None | _ => strip_prefix p s end) spaces) with
      | Some rest => strip_white fuel spaces rest
      | None => s
      end
  end.
Definition trim_left (s : bytes) : bytes := strip_white (length s) white_space s.
Definition trim (s : bytes) : bytes :=
  let s := trim_left s in reverse (strip_white (length s) (reverse <$> white_space) (reverse s)).
(** [u32::from_str_radix(s, 16)] *)
Definition hex_digit (b : byte) : option Z :=
  if (48 <=? b) && (b <=? 57) then Some (b - 48)
  else if (97 <=? b) && (b <=? 102) then Some (b - 87)
  else if (65 <=? b) && (b <=? 70) then Some (b - 55)
  else None.
Fixpoint parse_hex_digits (acc : Z) (s : bytes) : option Z :=
  match s with
  | [] => Some acc
  | b :: s =>
      match hex_digit b with
      | Some d => if acc * 16 + d <? 2 ^ 32 then parse_hex_digits (acc * 16 + d) s else None
      | None => None
      end
  end.
Definition parse_hex_u32 (s : bytes) : option Z :=
  match s with
  | [] => None
  | b :: rest => if b =? 43 then match rest with [] => None | _ => parse_hex_digits 0 rest end else parse_hex_digits 0 s
  end.

Definition pre_key_id_of (content : option bytes) : option Z :=
  match content with
  | Some (b :: bs) =>
      let b := b :: bs in
      if zlen b =? 3 then Some (from_be_bytes (0 :: b))
      else if utf8_valid b then match trim b with [] => None | s => parse_hex_u32 s end
      else None
  | _ => None
  end.
Definition child_bytes (node : NodeRef) (tag : bytes) : option bytes := get_optional_child node tag ≫= content_bytes.
Definition node_to_pre_key_ref (node : NodeRef) : outcome NodeError (option (Z * bytes)) :=
  match pre_key_id_of (child_bytes node (str "id")) with
  | None => Ok None
  | Some id =>
      value_bytes ← ok_or (child_bytes node (str "value")) ENode;
      if zlen value_bytes =? 32 then Ok (Some (id, value_bytes)) else Err ENode
  end.
Definition node_to_signed_pre_key_ref (node : NodeRef) : outcome NodeError (Z * bytes * bytes) :=
  key ← node_to_pre_key_ref node;
  match key with
  | None => Err ENode
  | Some (id, public_key_bytes) =>
      signature_bytes ← ok_or (child_bytes node (str "signature")) ENode;
      if zlen signature_bytes =? 64 then Ok (id, public_key_bytes, signature_bytes) else Err ENode
  end.

(** A [HashMap] by JID. *)
Abbreviation JidMap V := (list (Jid * V)).

Section Bundles.
Context {DK : Dalek} {PC : PairCodec}.

Definition djb (b : bytes) : outcome NodeError PublicKey := map_err (fun _ => ENode) (from_djb_public_key_bytes b).
(** The one-time key of the bundle, if there is one with an id. *)
Definition bundle_one_time (keys_node : NodeRef) : outcome NodeError (option (Z * PublicKey)) :=
  match get_optional_child keys_node (str "key") with
  | None => Ok None
  | Some n =>
      key ← node_to_pre_key_ref n;
      match key with
      | Some (id, key_bytes) => k ← djb key_bytes; Ok (Some (id, k))
      | None => Ok None
      end
  end.
Definition device_identity_of (node keys_node : NodeRef) : option bytes :=
  match get_optional_child node (str "device-identity") with
  | Some n => content_bytes n
  | None => get_optional_child keys_node (str "device-identity") ≫= content_bytes
  end.
(** Whether the bundle of a companion may be used. *)
Definition companion_check (jid : Jid) (device_identity : option bytes) (identity_key : bytes) (account_identity : option bytes) : bool :=
  if j_device jid =? 0 then true
  else match device_identity with
       | Some di =>
           match validate_adv_with_identity_key di identity_key account_identity with
           | AdvInvalid => false
           | _ => true
           end
       | None => true
       end.
Definition node_to_pre_key_bundle_ref (jid : Jid) (node : NodeRef) (account_identity : option bytes) : outcome NodeError PreKeyBundle :=
  match get_optional_child node (str "error") with
  | Some _ => Err ENode
  | None =>
      reg_id_bytes ← ok_or (child_bytes node (str "registration")) ENode;
      if negb (zlen reg_id_bytes =? 4) then Err ENode
      else
        let registration_id := from_be_bytes reg_id_bytes in
        let keys_node := default node (get_optional_child node (str "keys")) in
        identity_key_bytes ← ok_or (child_bytes keys_node (str "identity")) ENode;
        identity_key_array ← sized 32 identity_key_bytes;
        identity_key ← djb identity_key_array;
        pre_key ← bundle_one_time keys_node;
        signed_pre_key_node ← ok_or (get_optional_child keys_node (str "skey")) ENode;
        signed ← node_to_signed_pre_key_ref signed_pre_key_node;
        signed_pre_key_public ← djb (snd (fst signed));
        let bundle := mkBundle registration_id (j_device jid) pre_key (fst (fst signed)) signed_pre_key_public (snd signed) identity_key in
        if companion_check jid (device_identity_of node keys_node) identity_key_array account_identity then Ok bundle else Err ENode
  end.

Fixpoint jid_lookup {V} (j : Jid) (m : JidMap V) : option V :=
  match m with
  | [] => None
  | (k, v) :: m => if decide (k = j) then Some v else jid_lookup j m
  end.
Definition jid_insert {V} (j : Jid) (v : V) (m : JidMap V) : JidMap V := filter (fun kv => kv.1 <> j) m ++ [(j, v)].

(** What the client knows of the accounts of companions: [lookup] is the identity that the
    Signal cache has for an address, if there is one and no error. *)
Definition load_account_identity (lookup : Jid -> option bytes) (companion_jid : Jid) : option bytes :=
  match lookup (with_device companion_jid 0) with
  | Some id => if zlen id =? 32 then Some id else None
  | None => None
  end.
Definition collect_account_identities (lookup : Jid -> option bytes) (jids : list Jid) : JidMap bytes :=
  fold_left (fun m jid =>
      match load_account_identity lookup jid with
      | Some id => jid_insert (normalize_for_prekey_bundle jid) id m
      | None => m
      end) (filter (fun j => j_device j <> 0) jids) [].

(** The JID of an answer: the device may be part of the user. *)
Definition response_jid (jid : Jid) : Jid :=
  let jid := normalize_for_prekey_bundle jid in
  if (j_device jid =? 0) && match j_server jid with Pn | Lid => true | _ => false end then
    match split_once 58 (j_user jid) with
    | Some (user_base, device_str) =>
        match parse_u16 device_str with
        | Some device => mkJid user_base (j_server jid) (j_agent jid) device (j_integrator jid)
        | None => jid
        end
    | None => jid
    end
  else jid.
Definition parse_user (account_identities : JidMap bytes) (bundles : JidMap PreKeyBundle) (user_node : NodeRef) : JidMap PreKeyBundle :=
  if negb (bytes_eqb (ref_tag user_node) (str "user")) then bundles
  else
    let jid := response_jid (fst (attr_jid (str "jid") (attr_parser_ref user_node))) in
    match node_to_pre_key_bundle_ref jid user_node (jid_lookup jid account_identities) with
    | Ok bundle => jid_insert jid bundle bundles
    | _ => bundles
    end.
Definition parse_prekeys_response (resp_node : NodeRef) (account_identities : JidMap bytes) : outcome NodeError (JidMap PreKeyBundle) :=
  list_node ← ok_or (get_optional_child resp_node (str "list")) ENode;
  Ok (fold_left (parse_user account_identities) (default [] (children list_node)) []).
End Bundles.

(** ** The node types of both sides *)

Record SignedPreKeyNode : Type := mkSignedNode { sn_id : Z; sn_public_bytes : bytes; sn_signature : bytes }.
Record OneTimePreKeyNode : Type := mkOneTimeNode { on_id : Z; on_public_bytes : bytes }.
Record PreKeyBundleUserNode : Type := mkUserNode {
  un_jid : Jid; un_registration_id : Z; un_identity_key : bytes; un_signed : SignedPreKeyNode;
  un_one_time : option OneTimePreKeyNode; un_device_identity : option bytes
}.
Definition signed_into_node (n : SignedPreKeyNode) : Node :=
  branch (str "skey") [leaf (str "id") (truncate_to_3bytes (sn_id n)); leaf (str "value") (sn_public_bytes n); leaf (str "signature") (sn_signature n)].
Definition one_time_into_node (n : OneTimePreKeyNode) : Node :=
  branch (str "key") [leaf (str "id") (truncate_to_3bytes (on_id n)); leaf (str "value") (on_public_bytes n)].
Definition from_bundle (jid : Jid) (bundle : PreKeyBundle) (device_identity : option bytes) : PreKeyBundleUserNode :=
  mkUserNode jid (bundle_registration_id bundle) (public_key_bytes (bundle_identity bundle))
    (mkSignedNode (bundle_signed_id bundle) (public_key_bytes (bundle_signed_public bundle)) (bundle_signature bundle))
    ((fun '(id, pk) => mkOneTimeNode id (public_key_bytes pk)) <$> bundle_pre_key bundle) device_identity.
Definition user_into_node (u : PreKeyBundleUserNode) : Node :=
  let children :=
    [leaf (str "registration") (to_be_bytes 4 (un_registration_id u)); leaf (str "type") [5]; leaf (str "identity") (un_identity_key u);
     signed_into_node (un_signed u)] in
  let children := match un_one_time u with Some otpk => children ++ [one_time_into_node otpk] | None => children end in
  let children := match un_device_identity u with Some di => children ++ [leaf (str "device-identity") di] | None => children end in
  builder_build (builder_children (builder_attr (builder_attr (builder_new (str "user")) (str "jid") (VJid (un_jid u))) (str "type") (VString (str "result"))) children).

Definition expect_tag (tag : bytes) (n : NodeRef) : outcome NodeError unit := if bytes_eqb (ref_tag n) tag then Ok tt else Err ENode.
(** The content of a child, in bytes. *)
Definition required_bytes (n : NodeRef) (tag : bytes) : outcome NodeError bytes := c ← required_child n tag; bytes_of c.
Definition signed_try_from (n : NodeRef) : outcome NodeError SignedPreKeyNode :=
  _ ← expect_tag (str "skey") n;
  id_bytes ← required_bytes n (str "id");
  id ← expand_from_3bytes id_bytes;
  value ← required_bytes n (str "value");
  public_bytes ← sized 32 value;
  sig ← required_bytes n (str "signature");
  signature ← sized 64 sig;
  Ok (mkSignedNode id public_bytes signature).
Definition one_time_try_from (n : NodeRef) : outcome NodeError OneTimePreKeyNode :=
  _ ← expect_tag (str "key") n;
  id_bytes ← required_bytes n (str "id");
  id ← expand_from_3bytes id_bytes;
  value ← required_bytes n (str "value");
  public_bytes ← sized 32 value;
  Ok (mkOneTimeNode id public_bytes).
Definition optionally {A} (n : option NodeRef) (f : NodeRef -> outcome NodeError A) : outcome NodeError (option A) :=
  match n with Some n => a ← f n; Ok (Some a) | None => Ok None end.
Definition user_try_from (n : NodeRef) : outcome NodeError PreKeyBundleUserNode :=
  _ ← expect_tag (str "user") n;
  jid ← ok_or (fst (optional_jid (str "jid") (attr_parser_ref n))) ENode;
  reg ← required_bytes n (str "registration");
  reg_bytes ← sized 4 reg;
  identity ← required_bytes n (str "identity");
  identity_key ← sized 32 identity;
  skey_node ← required_child n (str "skey");
  signed_pre_key ← signed_try_from skey_node;
  one_time ← optionally (get_optional_child n (str "key")) one_time_try_from;
  device_identity ← optionally (get_optional_child n (str "device-identity")) bytes_of;
  Ok (mkUserNode jid (from_be_bytes reg_bytes) identity_key signed_pre_key one_time device_identity).

(** ** The direct encoder *)

Section DirectLemmas.
Context {TM : TokenMaps} {W : Type} {BW : ByteWriter W}.

Lemma bind_ok_right {E A} (x : outcome E A) : (a ← x; Ok a) = x.
Proof. by destruct x. Qed.
Lemma bind_bind {E A B C} (x : outcome E A) (f : A -> outcome E B) (g : B -> outcome E C) : ((a ← x; f a) ≫= g) = (a ← x; f a ≫= g).
Proof. by destruct x. Qed.
Lemma write_leaf tag content (w : W) : write_node no_hints (leaf tag content) w = direct_leaf tag content w.
Proof. done. Qed.
Lemma write_branch tag ns (w : W) :
  write_node no_hints (branch tag ns) w
  = (w ← write_list_start 2 w; w ← write_string no_hints tag w; w ← write_list_start (zlen ns) w; write_each (write_node no_hints) ns w).
Proof. done. Qed.
Lemma write_each_cons {A} (f : A -> W -> outcome BinaryError W) x l w : write_each f (x :: l) w = (w ← f x w; write_each f l w).
Proof. done. Qed.
Lemma write_each_one {A} (f : A -> W -> outcome BinaryError W) x w : write_each f [x] w = f x w.
Proof. apply bind_ok_right. Qed.
Lemma write_key id pk (w : W) :
  write_node no_hints (branch (str "key") [leaf (str "id") (truncate_to_3bytes id); leaf (str "value") (public_key_bytes pk)]) w = direct_key (id, pk) w.
Proof.
  rewrite write_branch. unfold direct_key. cbn [fst snd].
  destruct (write_list_start 2 w) as [w1|e| |]; [|done..]. cbn [mbind outcome_bind].
  destruct (write_string _ _ w1) as [w2|e| |]; [|done..]. cbn [mbind outcome_bind].
  change (zlen [_; _]) with 2. destruct (write_list_start 2 w2) as [w3|e| |]; [|done..]. cbn [mbind outcome_bind].
  rewrite write_each_cons, write_leaf. destruct (direct_leaf _ _ w3) as [w4|e| |]; [|done..]. cbn [mbind outcome_bind].
  by rewrite write_each_one.
Qed.
Lemma write_each_keys (keys : list (Z * PublicKey)) (w : W) :
  write_each (write_node no_hints)
    ((fun '(id, public) => branch (str "key") [leaf (str "id") (truncate_to_3bytes id); leaf (str "value") public])
       <$> ((fun '(id, pk) => (id, public_key_bytes pk)) <$> keys)) w
  = write_each direct_key keys w.
Proof.
  revert w. induction keys as [|[id pk] keys IH]; intros w; [done|]. cbn [fmap list_fmap]. rewrite !write_each_cons, write_key.
  destruct (direct_key (id, pk) w) as [w1|e| |]; [apply IH|done..].
Qed.
Lemma write_content spec (w : W) :
  (w ← write_list_start 5 w;
   write_each (write_node no_hints)
     (build_upload_prekeys_request (us_registration_id spec) (public_key_bytes (us_identity_key spec))
       (us_signed_pre_key_id spec) (public_key_bytes (us_signed_pre_key_public spec)) (us_signed_pre_key_signature spec)
       ((fun '(id, pk) => (id, public_key_bytes pk)) <$> us_pre_keys spec)) w)
  = direct_content spec w.
Proof.
  unfold direct_content, build_upload_prekeys_request. destruct (write_list_start 5 w) as [w1|e| |]; [|done..]. cbn [mbind outcome_bind].
  do 3 (rewrite write_each_cons, write_leaf; destruct (direct_leaf _ _ _) as [?|e| |]; [|done..]; cbn [mbind outcome_bind]).
  rewrite write_each_cons, write_branch. rewrite !bind_bind.
  destruct (write_list_start 2 _) as [?|e| |]; [|done..]. cbn [mbind outcome_bind].
  destruct (write_string _ _ _) as [?|e| |]; [|done..]. cbn [mbind outcome_bind].
  unfold zlen at 1. rewrite !length_fmap. fold (zlen (us_pre_keys spec)).
  destruct (write_list_start (zlen _) _) as [?|e| |]; [|done..]. cbn [mbind outcome_bind].
  rewrite write_each_keys. destruct (write_each direct_key _ _) as [?|e| |]; [|done..]. cbn [mbind outcome_bind].
  rewrite write_each_one, write_branch.
  destruct (write_list_start 2 _) as [?|e| |]; [|done..]. cbn [mbind outcome_bind].
  destruct (write_string _ _ _) as [?|e| |]; [|done..]. cbn [mbind outcome_bind].
  change (zlen [_; _; _]) with 3. destruct (write_list_start 3 _) as [?|e| |]; [|done..]. cbn [mbind outcome_bind].
  do 2 (rewrite write_each_cons, write_leaf; destruct (direct_leaf _ _ _) as [?|e| |]; [|done..]; cbn [mbind outcome_bind]).
  by rewrite write_each_one.
Qed.
Lemma encode_attr_text k v (w : W) : encode_attr no_hints (k, VString v) w = (w ← write_string no_hints k w; write_string no_hints v w).
Proof. done. Qed.
Lemma write_iq_attrs request_id (w : W) :
  encode_attrs no_hints [(str "id", VString request_id); (str "xmlns", VString (str "encrypt")); (str "type", VString (str "set")); (str "to", VJid to_server)] w
  = direct_attrs request_id w.
Proof.
  unfold encode_attrs, direct_attrs. do 3 (rewrite write_each_cons, encode_attr_text, bind_bind;
    destruct (write_string _ _ _) as [?|e| |]; [|done..]; cbn [mbind outcome_bind];
    destruct (write_string _ _ _) as [?|e| |]; [|done..]; cbn [mbind outcome_bind]).
  by rewrite write_each_one.
Qed.
End DirectLemmas.

(** C15: the direct encoder of the upload writes, byte for byte and error for error, what
    marshalling the node tree of the same request writes, for every number of keys. *)
Theorem upload_encoded_directly {TM : TokenMaps} (spec : PreKeyUploadSpec) (request_id out : bytes) :
  encode_iq_direct spec request_id out = marshal_to_vec (build_iq_node (upload_iq spec) request_id) out.
Proof.
  unfold encode_iq_direct, marshal_to_vec. destruct (encoder_new_vec out) as [w|e| |]; [|done..]. cbn [mbind outcome_bind].
  change (build_iq_node (upload_iq spec) request_id)
    with (mkNode (str "iq") [(str "id", VString request_id); (str "xmlns", VString (str "encrypt")); (str "type", VString (str "set")); (str "to", VJid to_server)]
            (iq_content (upload_iq spec))).
  cbn [write_node iq_content upload_iq info_query_set]. unfold write_node_with. change (zlen [_; _; _; _]) with 4.
  rewrite bool_decide_true by done.
  destruct (write_list_start _ w) as [?|e| |]; [|done..]. cbn [mbind outcome_bind].
  destruct (write_string _ _ _) as [?|e| |]; [|done..]. cbn [mbind outcome_bind].
  rewrite write_iq_attrs. destruct (direct_attrs _ _) as [?|e| |]; [|done..]. cbn [mbind outcome_bind].
  by rewrite <- write_content.
Qed.

(** ** Bundles there and back *)

Record user_wf (u : PreKeyBundleUserNode) : Prop := {
  uw_reg : 0 <= un_registration_id u < 2 ^ 32; uw_identity : zlen (un_identity_key u) = 32;
  uw_sid : 0 <= sn_id (un_signed u) < 2 ^ 24; uw_spub : zlen (sn_public_bytes (un_signed u)) = 32;
  uw_sig : zlen (sn_signature (un_signed u)) = 64;
  uw_key : forall k, un_one_time u = Some k -> 0 <= on_id k < 2 ^ 24 /\ zlen (on_public_bytes k) = 32
}.
(** The bundle that a user node stands for. *)
Definition bundle_of (u : PreKeyBundleUserNode) : PreKeyBundle :=
  mkBundle (un_registration_id u) (j_device (un_jid u)) ((fun k => (on_id k, mkPublicKey (on_public_bytes k))) <$> un_one_time u)
    (sn_id (un_signed u)) (mkPublicKey (sn_public_bytes (un_signed u))) (sn_signature (un_signed u)) (mkPublicKey (un_identity_key u)).

Lemma bundle_of_from jid b di : bundle_device_id b = j_device jid -> bundle_of (from_bundle jid b di) = b.
Proof. destruct b as [reg dev [[id [pk]]|] sid [sp] sig [ik]]; cbn; intros ->; done. Qed.

Lemma truncated_id id : 0 <= id < 2 ^ 24 -> 0 :: truncate_to_3bytes id = to_be_bytes 4 id.
Proof.
  intros Hid. unfold truncate_to_3bytes. cbn [to_be_bytes]. change (from 1 (?x :: ?l)) with l. f_equal.
  rewrite Z.shiftr_div_pow2, Z.div_small by lia. done.
Qed.
Lemma truncated_len id : zlen (truncate_to_3bytes id) = 3.
Proof. done. Qed.
Lemma expanded_id id : 0 <= id < 2 ^ 24 -> expand_from_3bytes (truncate_to_3bytes id) = Ok id.
Proof.
  intros Hid. unfold expand_from_3bytes. rewrite truncated_len. cbn [Z.eqb Pos.eqb]. rewrite truncated_id by done.
  by rewrite from_to_be_bytes by lia.
Qed.
Lemma three_byte_id id : 0 <= id < 2 ^ 24 -> pre_key_id_of (Some (truncate_to_3bytes id)) = Some id.
Proof.
  intros Hid. unfold pre_key_id_of. destruct (truncate_to_3bytes id) as [|b bs] eqn:Ht; [done|]. rewrite <- Ht.
  rewrite truncated_len. cbn [Z.eqb Pos.eqb]. rewrite truncated_id by done. by rewrite from_to_be_bytes by lia.
Qed.

(** The children of a user node. *)
Lemma user_children u (n := as_node_ref (user_into_node u)) :
  child_bytes n (str "registration") = Some (to_be_bytes 4 (un_registration_id u))
  /\ child_bytes n (str "identity") = Some (un_identity_key u)
  /\ get_optional_child n (str "skey") = Some (as_node_ref (signed_into_node (un_signed u)))
  /\ get_optional_child n (str "key") = as_node_ref ∘ one_time_into_node <$> un_one_time u
  /\ get_optional_child n (str "device-identity") = as_node_ref ∘ leaf (str "device-identity") <$> un_device_identity u
  /\ get_optional_child n (str "error") = None /\ get_optional_child n (str "keys") = None.
Proof. subst n. destruct u as [jid reg ik s [k|] [di|]]; split_and!; vm_compute; reflexivity. Qed.
Lemma one_time_children k (n := as_node_ref (one_time_into_node k)) :
  child_bytes n (str "id") = Some (truncate_to_3bytes (on_id k)) /\ child_bytes n (str "value") = Some (on_public_bytes k).
Proof. by destruct k. Qed.
Lemma signed_children s (n := as_node_ref (signed_into_node s)) :
  child_bytes n (str "id") = Some (truncate_to_3bytes (sn_id s)) /\ child_bytes n (str "value") = Some (sn_public_bytes s)
  /\ child_bytes n (str "signature") = Some (sn_signature s).
Proof. by destruct s. Qed.
Lemma required_child_bytes n tag b : child_bytes n tag = Some b -> required_bytes n tag = Ok b.
Proof.
  unfold child_bytes, required_bytes, required_child, bytes_of. destruct (get_optional_child n tag) as [c|]; [|done]. cbn. by intros ->.
Qed.

Lemma sized_ok len b : zlen b = len -> sized len b = Ok b.
Proof. unfold sized. intros ->. by rewrite Z.eqb_refl. Qed.
Lemma signed_node_roundtrip s :
  0 <= sn_id s < 2 ^ 24 -> zlen (sn_public_bytes s) = 32 -> zlen (sn_signature s) = 64 ->
  signed_try_from (as_node_ref (signed_into_node s)) = Ok s
  /\ node_to_signed_pre_key_ref (as_node_ref (signed_into_node s)) = Ok (sn_id s, sn_public_bytes s, sn_signature s).
Proof.
  intros Hid Hp Hs. destruct (signed_children s) as (H1 & H2 & H3). set (n := as_node_ref _) in *. split.
  - unfold signed_try_from. rewrite (required_child_bytes _ _ _ H1), (required_child_bytes _ _ _ H2), (required_child_bytes _ _ _ H3).
    change (expect_tag (str "skey") n) with (Ok tt : outcome NodeError unit). cbn [mbind outcome_bind].
    rewrite expanded_id by done. unfold sized. rewrite Hp, Hs. cbn. by destruct s.
  - unfold node_to_signed_pre_key_ref, node_to_pre_key_ref. rewrite H1, H2, H3, three_byte_id by done. cbn [ok_or mbind outcome_bind].
    rewrite Hp. cbn. by rewrite Hs.
Qed.
Lemma one_time_node_roundtrip k :
  0 <= on_id k < 2 ^ 24 -> zlen (on_public_bytes k) = 32 ->
  one_time_try_from (as_node_ref (one_time_into_node k)) = Ok k
  /\ node_to_pre_key_ref (as_node_ref (one_time_into_node k)) = Ok (Some (on_id k, on_public_bytes k)).
Proof.
  intros Hid Hp. destruct (one_time_children k) as (H1 & H2). set (n := as_node_ref _) in *. split.
  - unfold one_time_try_from. rewrite (required_child_bytes _ _ _ H1), (required_child_bytes _ _ _ H2).
    change (expect_tag (str "key") n) with (Ok tt : outcome NodeError unit). cbn [mbind outcome_bind].
    rewrite expanded_id by done. unfold sized. rewrite Hp. cbn. by destruct k.
  - unfold node_to_pre_key_ref. rewrite H1, H2, three_byte_id by done. cbn [ok_or mbind outcome_bind]. by rewrite Hp.
Qed.
Lemma user_node_roundtrip u : user_wf u -> user_try_from (as_node_ref (user_into_node u)) = Ok u.
Proof.
  intros [H1 H2 H3 H4 H5 H6]. destruct (user_children u) as (C1 & C2 & C3 & C4 & C5 & _). unfold user_try_from.
  rewrite (required_child_bytes _ _ _ C1), (required_child_bytes _ _ _ C2). unfold required_child. rewrite C3, C4, C5.
  set (n := as_node_ref (user_into_node u)) in *.
  change (expect_tag (str "user") n) with (Ok tt : outcome NodeError unit).
  change (fst (optional_jid (str "jid") (attr_parser_ref n))) with (Some (un_jid u)). cbn [ok_or mbind outcome_bind].
  rewrite (sized_ok 4) by done. cbn [mbind outcome_bind]. rewrite (sized_ok 32) by done. cbn [mbind outcome_bind].
  destruct (signed_node_roundtrip (un_signed u) H3 H4 H5) as [-> _]. cbn [mbind outcome_bind].
  rewrite from_to_be_bytes by lia. destruct u as [jid reg ik s [k|] di]; cbn [un_one_time fmap option_fmap option_map optionally] in *.
  - destruct (H6 k eq_refl) as [Hk1 Hk2]. unfold compose. destruct (one_time_node_roundtrip k Hk1 Hk2) as [-> _]. by destruct di.
  - by destruct di.
Qed.

Section Responses.
Context {DK : Dalek} {PC : PairCodec}.

Lemma djb_ok b : zlen b = 32 -> djb b = Ok (mkPublicKey b).
Proof. intros H. unfold djb, from_djb_public_key_bytes. by rewrite H. Qed.
Lemma one_time_parsed u :
  user_wf u -> bundle_one_time (as_node_ref (user_into_node u)) = Ok (bundle_pre_key (bundle_of u)).
Proof.
  intros [_ _ _ _ _ Hk]. destruct (user_children u) as (_ & _ & _ & C4 & _). unfold bundle_one_time. rewrite C4.
  destruct u as [jid reg ik s [k|] di]; [|done]. cbn [un_one_time fmap option_fmap option_map] in *.
  destruct (Hk k eq_refl) as [Hk1 Hk2]. unfold compose. destruct (one_time_node_roundtrip k Hk1 Hk2) as [_ ->]. cbn [mbind outcome_bind].
  by rewrite djb_ok.
Qed.
(** The account key for a signed identity: the one inside, or else the one that is known. *)
Definition names_key (signed : SignedDeviceIdentity) (known : option bytes) (key : bytes) : Prop :=
  (sd_account_signature_key signed = Some key /\ key <> [])
  \/ (sd_account_signature_key signed = None \/ sd_account_signature_key signed = Some []) /\ known = Some key.
(** The account signs the details with the identity key of the device, and the device signs them
    with both keys, in the form of usual accounts or in that of hosted ones. *)
Definition signed_by (account_key identity details account_sig device_sig : bytes) : Prop :=
  zlen account_key = 32 /\ zlen identity = 32 /\ exists hosted,
    public_verify (mkPublicKey account_key) [account_prefix hosted ++ details ++ identity] account_sig = true
    /\ public_verify (mkPublicKey identity) [device_prefix hosted ++ details ++ identity ++ account_key] device_sig = true.
(** The users whose bundles are taken: primary devices; companions without a device identity;
    and companions with one that decodes, is complete, and is either signed by the account key
    and the key of the device or names no account key while none is known. *)
Definition user_taken (ids : JidMap bytes) (u : PreKeyBundleUserNode) : Prop :=
  j_device (un_jid u) = 0 \/ un_device_identity u = None
  \/ exists di signed details account_sig device_sig,
       un_device_identity u = Some di /\ decode_signed di = Some signed /\ sd_details signed = Some details
       /\ sd_account_signature signed = Some account_sig /\ sd_device_signature signed = Some device_sig
       /\ let known := jid_lookup (un_jid u) ids in
          (forall key, ~ names_key signed known key)
          \/ exists key, names_key signed known key /\ signed_by key (un_identity_key u) details account_sig device_sig.

Lemma names_adv_key signed known key : names_key signed known key <-> adv_account_key signed known = Some key.
Proof.
  unfold names_key, adv_account_key. destruct (sd_account_signature_key signed) as [[|b k]|]; split; naive_solver.
Qed.
Lemma from_djb_ok b : zlen b = 32 -> from_djb_public_key_bytes b = Ok (mkPublicKey b).
Proof. intros Hb. unfold from_djb_public_key_bytes. by rewrite Hb. Qed.
(** The check of the signatures, read off the code. *)
Lemma adv_signed signed details account_sig device_sig key identity di known :
  decode_signed di = Some signed -> sd_details signed = Some details ->
  sd_account_signature signed = Some account_sig -> sd_device_signature signed = Some device_sig ->
  adv_account_key signed known = Some key ->
  validate_adv_with_identity_key di identity known <> AdvInvalid <-> signed_by key identity details account_sig device_sig.
Proof.
  intros Hs Hd Ha Hv Hk. unfold validate_adv_with_identity_key, signed_by. rewrite Hs, Hd, Ha, Hv, Hk.
  destruct (from_djb_public_key_bytes key) as [kp|e| |] eqn:E1.
  2-4: split; [done|]; intros (Hl & _); by rewrite from_djb_ok in E1.
  apply djb_key in E1 as [-> Hkl].
  destruct (from_djb_public_key_bytes identity) as [ip|e| |] eqn:E2.
  2-4: split; [done|]; intros (_ & Hl & _); by rewrite from_djb_ok in E2.
  apply djb_key in E2 as [-> Hil]. unfold account_message, device_message. cbn [existsb]. rewrite orb_false_r.
  destruct (_ || _) eqn:E; split; try done; intros H.
  - split; [done|]. split; [done|]. apply orb_true_iff in E as [[? ?]%andb_true_iff|[? ?]%andb_true_iff]; eauto.
  - destruct H as (_ & _ & hosted & H1 & H2). apply orb_false_iff in E as [E1 E2].
    destruct hosted; rewrite H1, H2 in *; done.
Qed.

(** What the code computes. *)
Definition user_accepted (ids : JidMap bytes) (u : PreKeyBundleUserNode) : bool :=
  (j_device (un_jid u) =? 0)
  || match un_device_identity u with
     | None => true
     | Some di => negb (bool_decide (validate_adv_with_identity_key di (un_identity_key u) (jid_lookup (un_jid u) ids) = AdvInvalid))
     end.
Lemma user_check ids u :
  companion_check (un_jid u) (un_device_identity u) (un_identity_key u) (jid_lookup (un_jid u) ids) = user_accepted ids u.
Proof.
  unfold companion_check, user_accepted. destruct (_ =? 0); [done|]. destruct (un_device_identity u) as [di|]; [|done].
  by destruct (validate_adv_with_identity_key _ _ _).
Qed.
Lemma accepted_taken ids u : user_accepted ids u = true <-> user_taken ids u.
Proof.
  unfold user_accepted, user_taken. rewrite orb_true_iff, Z.eqb_eq.
  destruct (un_device_identity u) as [di|] eqn:Hdi; [|naive_solver]. rewrite negb_true_iff, bool_decide_eq_false.
  set (known := jid_lookup (un_jid u) ids). split.
  - intros [?|Hv]; [by left|]. right; right.
    destruct (decode_signed di) as [signed|] eqn:Hs; [|unfold validate_adv_with_identity_key in Hv; by rewrite Hs in Hv].
    destruct (sd_details signed) as [details|] eqn:H1, (sd_account_signature signed) as [asig|] eqn:H2,
      (sd_device_signature signed) as [dsig|] eqn:H3;
      try (unfold validate_adv_with_identity_key in Hv; by rewrite Hs, ?H1, ?H2, ?H3 in Hv).
    exists di, signed, details, asig, dsig. split_and!; try done.
    destruct (adv_account_key signed known) as [key|] eqn:Hk.
    + right. exists key. split; [by apply names_adv_key|]. by eapply adv_signed.
    + left. intros key Hn%names_adv_key. congruence.
  - intros [?|[?|(di' & signed & details & asig & dsig & [= <-] & Hs & H1 & H2 & H3 & Hk)]]; [by left|done|right].
    destruct Hk as [Hno|(key & Hn & Hsig)].
    + destruct (adv_account_key signed known) as [key|] eqn:Hk; [by apply names_adv_key, Hno in Hk|].
      unfold validate_adv_with_identity_key. by rewrite Hs, H1, H2, H3, Hk.
    + eapply adv_signed; try done. by apply names_adv_key.
Qed.
Lemma user_parsed ids u :
  user_wf u ->
  node_to_pre_key_bundle_ref (un_jid u) (as_node_ref (user_into_node u)) (jid_lookup (un_jid u) ids)
  = if user_accepted ids u then Ok (bundle_of u) else Err ENode.
Proof.
  intros Hu. pose proof (one_time_parsed u Hu) as Hone. destruct Hu as [H1 H2 H3 H4 H5 H6].
  destruct (user_children u) as (C1 & C2 & C3 & _ & C5 & C6 & C7). set (n := as_node_ref (user_into_node u)) in *.
  unfold node_to_pre_key_bundle_ref. rewrite C6, C1. cbn [ok_or mbind outcome_bind]. rewrite to_be_bytes_zlen. change (negb (Z.of_nat 4 =? 4)) with false.
  cbv iota. rewrite C7. cbn [default]. rewrite C2. cbn [ok_or mbind outcome_bind]. rewrite (sized_ok 32) by done. cbn [mbind outcome_bind].
  rewrite (djb_ok _ H2). cbn [mbind outcome_bind]. rewrite Hone. cbn [mbind outcome_bind]. rewrite C3. cbn [ok_or mbind outcome_bind].
  destruct (signed_node_roundtrip (un_signed u) H3 H4 H5) as [_ ->]. cbn [mbind outcome_bind fst snd]. rewrite (djb_ok _ H4). cbn [mbind outcome_bind].
  rewrite from_to_be_bytes by lia.
  assert (Hdi : device_identity_of n n = un_device_identity u) by (unfold device_identity_of; rewrite C5; by destruct (un_device_identity u)).
  by rewrite Hdi, user_check.
Qed.

Lemma jid_lookup_insert {V} j j' (v : V) m : jid_lookup j (jid_insert j' v m) = if decide (j' = j) then Some v else jid_lookup j m.
Proof.
  unfold jid_insert. induction m as [|[k x] m IH]; [cbn; by destruct (decide (j' = j))|].
  rewrite filter_cons. cbn [fst]. destruct (decide (k <> j')) as [Hn|He]; cbn [app jid_lookup].
  - destruct (decide (k = j)) as [->|Hk]; [by rewrite decide_False by congruence|exact IH].
  - apply dec_stable in He as ->. rewrite IH. by destruct (decide (j' = j)).
Qed.
Lemma users_parsed ids users : forall m,
  Forall user_wf users -> NoDup (un_jid <$> users) -> Forall (fun u => response_jid (un_jid u) = un_jid u) users ->
  forall j b, jid_lookup j (fold_left (parse_user ids) ((fun u => as_node_ref (user_into_node u)) <$> users) m) = Some b
    <-> (exists u, u ∈ users /\ un_jid u = j /\ user_accepted ids u = true /\ b = bundle_of u)
        \/ (jid_lookup j m = Some b /\ forall u, u ∈ users -> un_jid u = j -> user_accepted ids u = false).
Proof.
  induction users as [|u users IH]; intros m Hwf Hn Hr j b.
  { cbn. set_solver. }
  apply Forall_cons in Hwf as [Hu Hwf]. apply NoDup_cons in Hn as [Hni Hn]. apply Forall_cons in Hr as [Hru Hr]. cbn [fmap list_fmap fold_left].
  rewrite IH by done.
  assert (Hp : parse_user ids m (as_node_ref (user_into_node u)) = if user_accepted ids u then jid_insert (un_jid u) (bundle_of u) m else m).
  { unfold parse_user. change (negb (bytes_eqb (ref_tag (as_node_ref (user_into_node u))) (str "user"))) with false. cbv iota zeta.
    change (fst (attr_jid (str "jid") (attr_parser_ref (as_node_ref (user_into_node u))))) with (un_jid u).
    rewrite Hru, user_parsed by done. by destruct (user_accepted ids u). }
  rewrite Hp. clear Hp IH.
  assert (Hnot : forall v, v ∈ users -> un_jid v <> un_jid u).
  { intros v Hv He. apply Hni. rewrite <- He. apply list_elem_of_fmap. by exists v. }
  assert (Hold : jid_lookup j (if user_accepted ids u then jid_insert (un_jid u) (bundle_of u) m else m) = Some b
    <-> (un_jid u = j /\ user_accepted ids u = true /\ b = bundle_of u) \/ (jid_lookup j m = Some b /\ (un_jid u = j -> user_accepted ids u = false))).
  { destruct (user_accepted ids u); [rewrite jid_lookup_insert; destruct (decide (un_jid u = j))|]; naive_solver. }
  rewrite Hold. split.
  - intros [(v & Hv & H)|[[H|[Hl H]] Hall]].
    + left. exists v. split; [by right|done].
    + left. exists u. split; [by left|done].
    + right. split; [done|]. intros v [->|Hv]%elem_of_cons Hj; auto.
  - intros [(v & [->|Hv]%elem_of_cons & H)|[Hl Hall]].
    + right. split; [by left|]. intros v Hv Hj. destruct H as [<- _]. by destruct (Hnot v Hv).
    + left. by exists v.
    + right. split; [right; split; [done|]; intros Hj; apply Hall; [by left|done]|]. intros v Hv Hj. apply Hall; [by right|done].
Qed.
End Responses.

(** C14: from an answer to a fetch, the client gets the bundles of its users.  Let the list of the
    answer hold the nodes of users with keys, signatures and ids of their lengths and ranges,
    with distinct JIDs that are already in the form the parser gives them (normalised, the
    device not part of the user name).  Then the parsed map has, under exactly the JIDs of the
    users that are taken, the bundle that the node of that user was made from, with the device
    of the JID; and each user node reads back as itself.  Taken are primary devices; companions
    whose signed device identity decodes, is complete and carries a signature of the account key
    over the identity key, and one of the identity key, with keys of 32 bytes; without
    verification, companions that show no device identity, and those whose complete device
    identity names no account key while none is known for them; and no others. *)
Theorem prekey_response_parsed {DK : Dalek} {PC : PairCodec} (users : list PreKeyBundleUserNode) (response : NodeRef) (ids : JidMap bytes) :
  get_optional_child response (str "list") = Some (as_node_ref (branch (str "list") (user_into_node <$> users))) ->
  Forall user_wf users -> NoDup (un_jid <$> users) -> Forall (fun u => response_jid (un_jid u) = un_jid u) users ->
  exists bundles, parse_prekeys_response response ids = Ok bundles
    /\ (forall j b, jid_lookup j bundles = Some b
          <-> exists u, u ∈ users /\ un_jid u = j /\ user_taken ids u /\ b = bundle_of u)
    /\ forall u, u ∈ users -> user_try_from (as_node_ref (user_into_node u)) = Ok u.
Proof.
  intros Hl Hwf Hn Hr. exists (fold_left (parse_user ids) ((fun u => as_node_ref (user_into_node u)) <$> users) []). split_and!.
  - unfold parse_prekeys_response. rewrite Hl. cbn [ok_or mbind outcome_bind].
    assert (Hc : default [] (children (as_node_ref (branch (str "list") (user_into_node <$> users)))) = (fun u => as_node_ref (user_into_node u)) <$> users).
    { transitivity (map as_node_ref (user_into_node <$> users)); [done|]. clear. induction users as [|u users IH]; [done|]. cbn in *. by rewrite IH. }
    by rewrite Hc.
  - intros j b. rewrite users_parsed by done. setoid_rewrite accepted_taken. cbn. naive_solver.
  - intros u Hu. apply user_node_roundtrip. rewrite Forall_forall in Hwf. by apply Hwf.
Qed.
Definition demo_user (jid : Jid) (di : option bytes) : PreKeyBundleUserNode :=
  mkUserNode jid 70000 (replicate 32 4) (mkSignedNode 7 (replicate 32 5) (replicate 64 6)) (Some (mkOneTimeNode 66000 (replicate 32 8))) di.
Lemma demo_user_wf jid di : user_wf (demo_user jid di).
Proof. split; cbn; try done; try lia. intros k [= <-]. split; [cbn; lia|done]. Qed.
Definition demo_phone : Jid := jid_new (str "123") Pn.
Definition demo_users : list PreKeyBundleUserNode := [demo_user demo_phone None; demo_user (with_device demo_phone 3) (Some [1; 2; 3])].
Definition demo_response : NodeRef := as_node_ref (branch (str "iq") [branch (str "list") (user_into_node <$> demo_users)]).
Lemma prekey_response_parsed_witness :
  (user_taken [] (demo_user demo_phone None) /\ ~ user_taken [] (demo_user (with_device demo_phone 3) (Some [1; 2; 3])))
  /\ exists bundles, parse_prekeys_response demo_response [] = Ok bundles
    /\ (forall j b, jid_lookup j bundles = Some b
          <-> exists u, u ∈ demo_users /\ un_jid u = j /\ user_taken [] u /\ b = bundle_of u)
    /\ forall u, u ∈ demo_users -> user_try_from (as_node_ref (user_into_node u)) = Ok u.
Proof.
  split.
  { rewrite <- !accepted_taken. split; [vm_compute; reflexivity|vm_compute; discriminate]. }
  refine (prekey_response_parsed demo_users demo_response [] _ _ _ _).
  - reflexivity.
  - exact (Forall_cons_2 _ _ _ (demo_user_wf _ _) (Forall_cons_2 _ _ _ (demo_user_wf _ _) (Forall_nil_2 _))).
  - apply (bool_decide_unpack _). vm_compute. exact I.
  - repeat constructor; vm_compute; reflexivity.
Defined.

(** A companion whose bundle is accepted together with a device identity, for an account whose
    key is known, is bound to that account by both signatures. *)
Lemma companion_bound {DK : Dalek} {PC : PairCodec} jid di identity fallback signed account_key :
  companion_check jid (Some di) identity fallback = true -> j_device jid <> 0 ->
  decode_signed di = Some signed -> adv_account_key signed fallback = Some account_key ->
  validate_adv_with_identity_key di identity fallback = AdvValid.
Proof.
  intros Hc Hd Hs Hk. unfold companion_check in Hc. rewrite (proj2 (Z.eqb_neq _ _) Hd) in Hc.
  destruct (validate_adv_with_identity_key di identity fallback) eqn:Hv; [done|done|].
  exfalso. unfold validate_adv_with_identity_key in Hv. rewrite Hs, Hk in Hv.
  destruct (sd_details signed), (sd_account_signature signed), (sd_device_signature signed); try done.
  destruct (from_djb_public_key_bytes account_key), (from_djb_public_key_bytes identity); try done. by destruct (existsb _ _).
Qed.
