(* ===== verification/PreKeyDigest.v ===== *)
(** * The digest of the key bundle

    [compute_key_bundle_digest] and [extract_prekey_public_key] of [wacore/src/prekeys.rs] and
    [validate_digest_key] of [src/prekeys.rs]: the client compares the server's hash over its
    keys with its own, and uploads again when the server has no record. *)

From stdpp Require Import prelude gmap.
From S2P Require Import Prelude Curve SignalCache PreKeyUpload PreKeySafe PreKeyRuns PreKeyNodes.

#[local] Open Scope Z_scope.

(** ** The public key of a record, without decoding it *)

(** The loop of [decode_varint], at the byte [i]. *)
Fixpoint varint_bytes (fuel : nat) (i result : Z) (buf : bytes) : option (Z * Z) :=
  match fuel, buf with
  | S fuel, byte :: buf =>
      if (i =? 9) && (1 <? Z.land byte 127) then None
      else
        let result := Z.lor result (wrap 64 (Z.shiftl (Z.land byte 127) (i * 7))) in
        if Z.land byte 128 =? 0 then Some (result, i + 1) else varint_bytes fuel (i + 1) result buf
  | _, _ => None
  end.
Definition decode_varint (buf : bytes) : option (Z * Z) := varint_bytes 10 0 0 buf.

(** The loop, at [pos].  Additions of [usize] wrap, as they do in a release build; a slice
    whose end lies before its start panics. *)
Fixpoint extract_loop (fuel : nat) (record : bytes) (pos : Z) (result : option bytes) : outcome unit (option bytes) :=
  match fuel with
  | O => Timeout
  | S fuel =>
      if zlen record <=? pos then Ok result
      else
        match decode_varint (from pos record) with
        | None => Ok None
        | Some (tag, consumed) =>
            let pos := pos + consumed in
            let field_number := wrap 32 (Z.shiftr tag 3) in
            let wire_type := Z.land tag 7 in
            if wire_type =? 0 then
              match decode_varint (from pos record) with
              | None => Ok None
              | Some (_, c) => extract_loop fuel record (pos + c) result
              end
            else if wire_type =? 2 then
              match decode_varint (from pos record) with
              | None => Ok None
              | Some (len, c) =>
                  let pos := pos + c in
                  let end_ := wrap 64 (pos + len) in
                  if zlen record <? end_ then Ok result
                  else if field_number =? 2 then
                    if end_ <? pos then Panic else extract_loop fuel record end_ (Some (upto (end_ - pos) (from pos record)))
                  else extract_loop fuel record end_ result
              end
            else if wire_type =? 1 then if zlen record <? pos + 8 then Ok result else extract_loop fuel record (pos + 8) result
            else if wire_type =? 5 then if zlen record <? pos + 4 then Ok result else extract_loop fuel record (pos + 4) result
            else Ok result
        end
  end.
(** Every round but one that goes back takes a byte. *)
Definition extract_prekey_public_key (record : bytes) : outcome unit (option bytes) :=
  extract_loop (S (length record)) record 0 None.

(** ** The wire form of a record *)

(** Protobuf's varints, and [PreKeyRecordStructure] as three fields in order. *)
Fixpoint wire_varint (fuel : nat) (z : Z) : bytes :=
  match fuel with
  | O => []
  | S fuel => if z <? 128 then [z] else z mod 128 + 128 :: wire_varint fuel (z / 128)
  end.
Definition wire_record (id : Z) (pub priv : bytes) : bytes :=
  8 :: wire_varint 5 id ++ 18 :: zlen pub :: pub ++ 26 :: zlen priv :: priv.
(** What the codec writes for keys of less than 128 bytes. *)
Class PreKeyWire {PC : PreKeyCodec} : Prop :=
  encode_wire : forall id pub priv, 0 <= id < 2 ^ 32 -> zlen pub < 128 -> zlen priv < 128 ->
    encode_structure (mkStructure (Some id) (Some pub) (Some priv)) = wire_record id pub priv.

Lemma low_bits x : 0 <= x < 128 -> Z.land x 127 = x /\ (Z.land x 128 =? 0) = true /\ Z.land (x + 128) 127 = x /\ (Z.land (x + 128) 128 =? 0) = false.
Proof.
  intros Hx. assert (Hall : Forall (fun x => Z.land x 127 = x /\ (Z.land x 128 =? 0) = true /\ Z.land (x + 128) 127 = x /\ (Z.land (x + 128) 128 =? 0) = false) (seqZ 0 128))
    by (apply (bool_decide_unpack _); vm_compute; exact I).
  rewrite Forall_forall in Hall. apply Hall, elem_of_seqZ. lia.
Qed.
Lemma varint_step i acc x :
  0 <= i <= 4 -> 0 <= acc < 2 ^ (7 * i) -> 0 <= x < 128 -> Z.lor acc (wrap 64 (Z.shiftl x (i * 7))) = acc + x * 2 ^ (7 * i).
Proof.
  intros Hi Ha Hx. rewrite (Z.mul_comm i). assert (Hp : 2 ^ (7 * i) <= 2 ^ 28) by (apply Z.pow_le_mono_r; lia).
  unfold wrap. rewrite Z.mod_small by (rewrite Z.shiftl_mul_pow2 by lia; nia).
  rewrite Z.lor_comm, lor_shiftl by lia. lia.
Qed.
Lemma varint_bytes_wire n : forall fuel i acc z rest,
  0 <= i -> i + Z.of_nat n <= 5 -> (n <= fuel)%nat -> (0 < n)%nat -> 0 <= acc < 2 ^ (7 * i) -> 0 <= z < 2 ^ (7 * Z.of_nat n) ->
  varint_bytes fuel i acc (wire_varint n z ++ rest) = Some (acc + z * 2 ^ (7 * i), i + zlen (wire_varint n z)).
Proof.
  induction n as [|n IH]; intros fuel i acc z rest Hi Hn Hf Hpos Ha Hz; [lia|]. destruct fuel as [|fuel]; [lia|]. cbn [wire_varint].
  assert (H9 : (i =? 9) = false) by (apply Z.eqb_neq; lia).
  destruct (Z.ltb_spec z 128) as [Hlt|Hge]; cbn [app varint_bytes]; rewrite H9; cbn [andb].
  - destruct (low_bits z) as (-> & -> & _); [lia|]. rewrite varint_step by lia. done.
  - assert (Hm : 0 <= z mod 128 < 128) by (apply Z.mod_pos_bound; lia). destruct (low_bits (z mod 128)) as (_ & _ & -> & ->); [lia|].
    rewrite varint_step by lia. destruct n as [|n]; [cbn in Hz; lia|].
    assert (Hp : 2 ^ (7 * (i + 1)) = 128 * 2 ^ (7 * i)) by (replace (7 * (i + 1)) with (7 + 7 * i) by lia; rewrite Z.pow_add_r by lia; done).
    assert (Hz' : 2 ^ (7 * Z.of_nat (S (S n))) = 128 * 2 ^ (7 * Z.of_nat (S n)))
      by (replace (7 * Z.of_nat (S (S n))) with (7 + 7 * Z.of_nat (S n)) by lia; rewrite Z.pow_add_r by lia; done).
    pose proof (Z.div_mod z 128). rewrite IH; [|lia|lia|lia|lia|nia|split; [apply Z.div_pos; lia|apply Z.div_lt_upper_bound; lia]].
    f_equal. rewrite zlen_cons, Hp. f_equal; [|lia]. nia.
Qed.
Lemma decode_wire_varint id rest : 0 <= id < 2 ^ 32 -> decode_varint (wire_varint 5 id ++ rest) = Some (id, zlen (wire_varint 5 id)).
Proof. intros Hid. unfold decode_varint. rewrite varint_bytes_wire; [f_equal; f_equal; lia|lia|lia|lia|lia|lia|lia]. Qed.
Lemma decode_small x rest : 0 <= x < 128 -> decode_varint (x :: rest) = Some (x, 1).
Proof.
  intros Hx. unfold decode_varint. cbn [varint_bytes Z.eqb andb]. destruct (low_bits x Hx) as (-> & -> & _).
  rewrite (varint_step 0) by lia. f_equal. f_equal. lia.
Qed.

Lemma from_skip pos (x rest record : bytes) : 0 <= pos -> from pos record = x ++ rest -> from (pos + zlen x) record = rest.
Proof.
  intros Hp H. unfold from, zlen in *. replace (Z.to_nat (pos + Z.of_nat (length x))) with (Z.to_nat pos + length x)%nat by lia.
  rewrite <- drop_drop, H. by rewrite drop_app_length.
Qed.
Lemma from_nonempty pos (record : bytes) x rest : from pos record = x :: rest -> (zlen record <=? pos) = false.
Proof.
  intros H. apply Z.leb_gt. destruct (Z.le_gt_cases (zlen record) pos) as [Hle|]; [|done]. unfold from, zlen in *.
  rewrite drop_ge in H by lia. done.
Qed.
Lemma from_end pos (record x rest : bytes) : 0 <= pos -> from pos record = x ++ rest -> x <> [] -> pos + zlen x + zlen rest = zlen record.
Proof.
  intros Hp H Hx. pose proof (f_equal length H) as Hl. unfold from in Hl. rewrite length_drop, length_app in Hl. unfold zlen.
  assert (0 < length x)%nat by (destruct x; [done|cbn; lia]). lia.
Qed.
Lemma extract_number fuel record pos res id rest :
  0 <= pos -> 0 <= id < 2 ^ 32 -> from pos record = 8 :: wire_varint 5 id ++ rest ->
  extract_loop (S fuel) record pos res = extract_loop fuel record (pos + 1 + zlen (wire_varint 5 id)) res.
Proof.
  intros Hp Hid H. cbn [extract_loop]. rewrite (from_nonempty _ _ _ _ H), H, decode_small by lia.
  change (Z.land 8 7 =? 0) with true. cbv iota zeta. pose proof (from_skip pos [8] (wire_varint 5 id ++ rest) record Hp H) as H1.
  change (zlen [8]) with 1 in H1. by rewrite H1, decode_wire_varint.
Qed.
Lemma extract_bytes fuel record pos res tag b rest :
  0 <= pos -> zlen record < 2 ^ 64 -> tag = 18 \/ tag = 26 -> zlen b < 128 -> from pos record = tag :: zlen b :: b ++ rest ->
  extract_loop (S fuel) record pos res = extract_loop fuel record (pos + 2 + zlen b) (if tag =? 18 then Some b else res).
Proof.
  intros Hp Hr Ht Hb H. pose proof (zlen_nonneg b) as Hb0. cbn [extract_loop].
  rewrite (from_nonempty _ _ _ _ H), H, decode_small by lia.
  pose proof (from_skip pos [tag] (zlen b :: b ++ rest) record Hp H) as H1. change (zlen [tag]) with 1 in H1.
  pose proof (from_skip (pos + 1) [zlen b] (b ++ rest) record ltac:(lia) H1) as H2. change (zlen [zlen b]) with 1 in H2.
  pose proof (from_end pos record (tag :: zlen b :: b) rest Hp H ltac:(done)) as He. rewrite !zlen_cons in He. pose proof (zlen_nonneg rest).
  assert (Hw : (Z.land tag 7 =? 0) = false /\ (Z.land tag 7 =? 2) = true /\ (wrap 32 (Z.shiftr tag 3) =? 2) = (tag =? 18))
    by (destruct Ht as [-> | ->]; done).
  destruct Hw as (-> & -> & ->). rewrite H1, decode_small by lia.
  unfold wrap. rewrite Z.mod_small by lia. rewrite (proj2 (Z.ltb_ge _ _)) by lia. rewrite (proj2 (Z.ltb_ge _ (pos + 1 + 1))) by lia.
  replace (pos + 1 + 1 + zlen b) with (pos + 2 + zlen b) by lia.
  destruct (tag =? 18); [|done]. do 2 f_equal. rewrite H2. unfold upto. replace (Z.to_nat _) with (length b) by (unfold zlen; lia).
  apply take_app_length.
Qed.
Lemma wire_varint_len n z : zlen (wire_varint n z) <= Z.of_nat n.
Proof.
  revert z. induction n as [|n IH]; intros z; [done|]. cbn [wire_varint]. destruct (z <? 128); [change (zlen [z]) with 1; lia|].
  rewrite zlen_cons. specialize (IH (z / 128)). lia.
Qed.
(** The scan finds the public key of a record that the codec has written. *)
Lemma extract_wire_record id pub priv :
  0 <= id < 2 ^ 32 -> zlen pub < 128 -> zlen priv < 128 -> extract_prekey_public_key (wire_record id pub priv) = Ok (Some pub).
Proof.
  intros Hid Hpub Hpriv. unfold extract_prekey_public_key. set (record := wire_record id pub priv).
  set (v := wire_varint 5 id). pose proof (zlen_nonneg v) as N1. pose proof (zlen_nonneg pub) as N2. pose proof (zlen_nonneg priv) as N3.
  pose proof (wire_varint_len 5 id : zlen v <= 5) as Hv.
  assert (Hlen : zlen record = 5 + zlen v + zlen pub + zlen priv).
  { unfold record, wire_record. fold v. rewrite ?zlen_cons, zlen_app, ?zlen_cons, zlen_app, ?zlen_cons. lia. }
  assert (H0 : from 0 record = 8 :: v ++ 18 :: zlen pub :: pub ++ 26 :: zlen priv :: priv) by done.
  assert (H1 : from (1 + zlen v) record = 18 :: zlen pub :: pub ++ 26 :: zlen priv :: priv).
  { pose proof (from_skip 0 (8 :: v) (18 :: zlen pub :: pub ++ 26 :: zlen priv :: priv) record ltac:(lia) H0) as H1. rewrite zlen_cons in H1. exact H1. }
  assert (H2 : from (1 + zlen v + 2 + zlen pub) record = 26 :: zlen priv :: priv ++ []).
  { pose proof (from_skip (1 + zlen v) (18 :: zlen pub :: pub) (26 :: zlen priv :: priv) record ltac:(lia) H1) as H2. rewrite !zlen_cons in H2.
    rewrite app_nil_r, <- H2. f_equal. lia. }
  assert (Hf : exists f, S (length record) = S (S (S (S f)))) by (exists (length record - 3)%nat; assert (Hlr : 5 <= zlen record) by lia; clear -Hlr; unfold zlen in Hlr; lia).
  destruct Hf as [f ->]. rewrite (extract_number _ record 0 None id _ ltac:(lia) Hid H0). fold v. change (0 + 1 + zlen v) with (1 + zlen v).
  rewrite (extract_bytes _ record (1 + zlen v) None 18 pub _ ltac:(lia) ltac:(lia) ltac:(by left) Hpub H1). cbn [Z.eqb Pos.eqb].
  rewrite (extract_bytes _ record (1 + zlen v + 2 + zlen pub) (Some pub) 26 priv [] ltac:(lia) ltac:(lia) ltac:(by right) Hpriv H2). cbn [Z.eqb Pos.eqb extract_loop].
  rewrite (proj2 (Z.leb_le _ _)) by lia. done.
Qed.

(** A length that wraps around sends the scan back to where it started, for ever, or makes a
    slice that ends before it starts. *)
Definition wrapping_length : bytes := 245 :: replicate 8 255 ++ [1].
Lemma extract_never_ends fuel : extract_loop fuel (10 :: wrapping_length) 0 None = Timeout.
Proof.
  induction fuel as [|fuel IH]; [done|].
  assert (H : extract_loop (S fuel) (10 :: wrapping_length) 0 None = extract_loop fuel (10 :: wrapping_length) 0 None) by done.
  by rewrite H.
Qed.
Lemma extract_panics : extract_prekey_public_key (18 :: wrapping_length) = Panic.
Proof. done. Qed.

(** ** Validating the digest *)

Class Sha1 : Type := sha1 : bytes -> bytes.
Definition compute_key_bundle_digest {SH : Sha1} (identity_pub_key signed_prekey_pub signed_prekey_signature : bytes) (prekey_pubkeys : list bytes) : bytes :=
  sha1 (identity_pub_key ++ signed_prekey_pub ++ signed_prekey_signature ++ concat prekey_pubkeys).

Inductive DigestReply : Type := DReply (r : DigestKeyBundleResponse) | DServerError (code : Z) | DParseError | DOtherError.
(** What is logged, or what becomes of the scan of a record. *)
Inductive DigestVerdict : Type :=
  | Reuploaded | MalformedRequest | ServiceUnavailable | Unparseable | ServerFailed | RegIdMismatch | LoadFailed | MissingPreKeys
  | NoPublicKey | HashMismatch | BundleValid | ScanPanics | ScanHangs.

Section Validate.
Context {DK : Dalek} {PC : PreKeyCodec} {SH : Sha1}.
Variable seed : nat -> bytes.
Variable keys : DeviceKeys.

(** The public keys in the order of the server. *)
Fixpoint collect_public_keys (loaded : gmap Z bytes) (ids : list Z) : DigestVerdict + list bytes :=
  match ids with
  | [] => inr []
  | id :: ids =>
      match loaded !! id with
      | None => inl MissingPreKeys
      | Some record =>
          match extract_prekey_public_key record with
          | Ok (Some pk) => match collect_public_keys loaded ids with inr pks => inr (pk :: pks) | inl v => inl v end
          | Ok None => inl NoPublicKey
          | Timeout => inl ScanHangs
          | _ => inl ScanPanics
          end
      end
  end.
Definition collect_rows (rows : list (Z * bytes)) : gmap Z bytes := fold_left (fun m '(id, r) => <[id := r]> m) rows ∅.
Definition check_loaded (r : DigestKeyBundleResponse) (rows : list (Z * bytes)) : DigestVerdict :=
  let loaded_map := collect_rows rows in
  if (size loaded_map <? size (list_to_set (dg_prekey_ids r) : gset Z))%nat then MissingPreKeys
  else
    match collect_public_keys loaded_map (dg_prekey_ids r) with
    | inl v => v
    | inr prekey_pubkeys =>
        let local_hash := compute_key_bundle_digest (public_key_bytes (dk_identity keys)) (public_key_bytes (dk_signed keys)) (dk_signature keys) prekey_pubkeys in
        if bytes_eqb local_hash (dg_hash r) then BundleValid else HashMismatch
    end.
Definition check_digest (r : DigestKeyBundleResponse) : Task DigestVerdict := fun w =>
  if negb (dg_reg_id r =? dk_registration_id keys) then (w, Done RegIdMismatch)
  else
    match load_prekeys_batch (dg_prekey_ids r) w with
    | (w, Done rows) => (w, Done (check_loaded r rows))
    | (w, Fails _) => (w, Done LoadFailed)
    | (w, Killed) => (w, Killed)
    | (w, Retrying) => (w, Retrying)
    end.
Definition validate_digest_key (attempts : nat) (reply : DigestReply) : Task DigestVerdict :=
  _ ← await;
  _ ← await;
  match reply with
  | DReply r => check_digest r
  | DServerError code =>
      if code =? 404 then _ ← upload_pre_keys_with_retry seed keys attempts true; mret Reuploaded
      else mret (if code =? 406 then MalformedRequest else if code =? 503 then ServiceUnavailable else ServerFailed)
  | DParseError => mret Unparseable
  | DOtherError => mret ServerFailed
  end.
End Validate.

(** *** The client's own bundle *)

Section Own.
Context {DK : Dalek} {PC : PreKeyCodec} {SH : Sha1} {PW : PreKeyWire}.

Lemma good_record_extracted r : good_record r -> exists k, row_public_key r = Some k /\ extract_prekey_public_key r = Ok (Some (public_key_bytes k)).
Proof.
  intros (k & [Hk _] & id & priv & Hid & Hl & Hp & ->). exists k. split; [done|]. rewrite encode_wire by lia. apply extract_wire_record; lia.
Qed.
Lemma collect_rows_lookup (rows : list (Z * bytes)) (s : gmap Z bytes) id :
  (forall id r, (id, r) ∈ rows -> s !! id = Some r) -> id ∈ rows.*1 -> collect_rows rows !! id = s !! id.
Proof.
  unfold collect_rows. induction rows as [|[id' r] rows IH] using rev_ind; [by intros _ ?%elem_of_nil|].
  intros Hs Hin. rewrite fold_left_app. cbn [fold_left]. destruct (decide (id' = id)) as [->|Hne].
  - rewrite lookup_insert_eq. symmetry. apply Hs. set_solver.
  - rewrite lookup_insert_ne by done. apply IH; [set_solver|]. rewrite fmap_app in Hin. set_solver.
Qed.
Lemma collect_rows_dom (rows : list (Z * bytes)) : dom (collect_rows rows) = list_to_set rows.*1.
Proof.
  unfold collect_rows. induction rows as [|[id r] rows IH] using rev_ind; [done|]. rewrite fold_left_app. cbn [fold_left].
  rewrite dom_insert_L, IH, fmap_app, list_to_set_app_L. cbn. set_solver.
Qed.
(** All the keys the server lists are there. *)
Lemma own_keys_collected (w : PreKeyWorld) ids pubs W B :
  Inv W B w -> Forall2 (fun id k => (id, k) ∈ offered w /\ id ∉ pw_consumed w) ids pubs ->
  collect_public_keys (collect_rows (omap (fun id => pair id <$> pw_store w !! id) ids)) ids = inr (public_key_bytes <$> pubs)
  /\ (omap (fun id => pair id <$> pw_store w !! id) ids).*1 = ids.
Proof.
  intros [Hc _] H. set (rows := omap _ ids).
  assert (Hrow : forall id k, (id, k) ∈ offered w -> id ∉ pw_consumed w -> exists r, pw_store w !! id = Some r /\ extract_prekey_public_key r = Ok (Some (public_key_bytes k))).
  { intros id k Ho Hn. destruct (inv_kept _ _ _ Hc id k Ho) as (r & [Hr|Hr] & Hk); [|done]. exists r. split; [done|].
    destruct (inv_store _ _ _ Hc id r Hr) as [_ Hg]. destruct (good_record_extracted r Hg) as (k' & Hk' & ->). congruence. }
  assert (Hids : rows.*1 = ids).
  { unfold rows. clear -H Hrow. induction H as [|id k ids pubs [Ho Hn] H IH]; [done|]. destruct (Hrow id k Ho Hn) as (r & Hr & _). cbn. rewrite Hr. cbn. by f_equal. }
  assert (Hall : forall id r, (id, r) ∈ rows -> pw_store w !! id = Some r).
  { intros id r (x & Hx & He)%list_elem_of_omap. destruct (pw_store w !! x) eqn:Hw; simplify_eq/=. done. }
  split; [|done]. assert (Hsub : forall id, id ∈ ids -> collect_rows rows !! id = pw_store w !! id)
    by (intros id Hid; apply collect_rows_lookup; [done|by rewrite Hids]).
  clearbody rows. clear Hids Hall. induction H as [|id k ids pubs [Ho Hn] H IH]; [done|]. cbn [collect_public_keys].
  destruct (Hrow id k Ho Hn) as (r & Hr & He). rewrite Hsub, Hr, He by set_solver. rewrite IH; [done|]. intros; apply Hsub; set_solver.
Qed.
End Own.

(** C13: the client finds its own bundle valid.  Take a device from its first start, with key
    pairs from seeds of 32 bytes, after any operations with failures, consumed keys and kills
    among them, where each save of the background saver happens in one go, no batch is wanted above
    [W] keys, and the operations begin no more batches of [W] than the 24-bit ids last for (past
    that the ids wrap and records are overwritten); and let nothing fail and no message consume
    a key during the validation itself.  When the server answers with the registration id of
    the device, with any of the keys that were offered to it and that no message has used, in
    any order and repeated as it likes, and with the hash over the public keys as they were
    offered, then the client finds its bundle valid and changes nothing: every record is still
    in the store, and the scan of the stored bytes finds the very key that the upload sent. *)
Theorem digest_validates {DK : Dalek} {PC : PreKeyCodec} {SH : Sha1} {DL : DalekLaws} {PL : PreKeyCodecLaws} {PW : PreKeyWire}
    (seed : nat -> bytes) (keys : DeviceKeys) (wanted W : Z) (script : list Moment) (ops : list PreKeyOp) (attempts : nat)
    (r : DigestKeyBundleResponse) (pubs : list PublicKey) :
  (forall n, zlen (seed n) = 32) ->
  clamp_wanted_pre_key_count wanted <= W -> tame_script W script -> W * ops_cost ops <= MAX_PREKEY_ID ->
  let w := run_ops seed keys ops (new_world wanted script) in
  pw_script w = [] ->
  dg_reg_id r = dk_registration_id keys ->
  Forall2 (fun id k => (id, k) ∈ offered w /\ id ∉ pw_consumed w) (dg_prekey_ids r) pubs ->
  dg_hash r = compute_key_bundle_digest (public_key_bytes (dk_identity keys)) (public_key_bytes (dk_signed keys)) (dk_signature keys)
                (public_key_bytes <$> pubs) ->
  validate_digest_key seed keys attempts (DReply r) w = (w, Done BundleValid).
Proof.
  intros Hseed Hw Hs Hc w Hscript Hreg Hids Hhash. pose proof (clamp_bounds wanted).
  assert (Hi : Inv W (1 + W * ops_cost ops) w) by (apply run_ops_Inv; [done|lia|lia|by apply new_world_Inv]).
  destruct (own_keys_collected w _ _ _ _ Hi Hids) as [Hcol Hrows].
  unfold validate_digest_key. rewrite (bind_done _ _ _ _ _ (calm_await w Hscript)), (bind_done _ _ _ _ _ (calm_await w Hscript)).
  unfold check_digest. rewrite (proj2 (Z.eqb_eq _ _) Hreg). cbn [negb]. rewrite calm_load by done. unfold check_loaded.
  rewrite <- (size_dom (D := gset Z)), collect_rows_dom, Hrows, Nat.ltb_irrefl, Hcol, Hhash.
  by rewrite (proj2 (bytes_eqb_eq _ _) eq_refl).
Qed.

(** ** An instance *)

#[local] Instance wire_codec : PreKeyCodec := {|
  encode_structure s := wire_record (default 0 (ps_id s)) (default [] (ps_public_key s)) (default [] (ps_private_key s));
  decode_structure b :=
    match decode_varint (from 1 b) with
    | Some (id, n) =>
        match from (1 + n) b with
        | _ :: l :: rest => Some (mkStructure (Some id) (Some (upto l rest)) (Some (from (l + 2) rest)))
        | _ => None
        end
    | None => None
    end
|}.
#[local] Instance wire_codec_laws : PreKeyCodecLaws (PC := wire_codec).
Proof.
  intros id pub priv Hid. cbn [encode_structure decode_structure wire_codec ps_id ps_public_key ps_private_key default]. cbv [Datatypes.id]. unfold wire_record.
  change (from 1 (8 :: ?l)) with l. rewrite decode_wire_varint by done. cbv beta iota.
  assert (Hf : from (1 + zlen (wire_varint 5 id)) (8 :: wire_varint 5 id ++ 18 :: zlen pub :: pub ++ 26 :: zlen priv :: priv) = 18 :: zlen pub :: pub ++ 26 :: zlen priv :: priv).
  { rewrite app_comm_cons. replace (1 + zlen (wire_varint 5 id)) with (zlen (8 :: wire_varint 5 id)) by (rewrite zlen_cons; lia). apply from_app. }
  rewrite Hf, upto_app. replace (zlen pub + 2) with (zlen (pub ++ [26; zlen priv])) by (by rewrite zlen_app).
  replace (pub ++ 26 :: zlen priv :: priv) with ((pub ++ [26; zlen priv]) ++ priv) by (by rewrite <- app_assoc). by rewrite from_app.
Qed.
#[local] Instance wire_codec_wire : PreKeyWire (PC := wire_codec).
Proof. by intros id pub priv. Qed.
#[local] Instance toy_sha1 : Sha1 := fun b => [foldr Z.add 0 b].

Definition demo_run : PreKeyWorld := run_ops tiny_seed tiny_keys tiny_ops (new_world 5 tiny_script).
Definition demo_pub (n : nat) : PublicKey := kp_public (keypair_generate (tiny_seed n)).
(** Keys 7 and 1, the first of them twice. *)
Definition demo_pubs : list PublicKey := [demo_pub 6; demo_pub 0; demo_pub 6].
Definition demo_digest : DigestKeyBundleResponse :=
  mkDigest 7 [] 0 [] [] [7; 1; 7]
    (compute_key_bundle_digest (public_key_bytes (dk_identity tiny_keys)) (public_key_bytes (dk_signed tiny_keys)) (dk_signature tiny_keys) (public_key_bytes <$> demo_pubs)).
Lemma digest_validates_witness : validate_digest_key tiny_seed tiny_keys 1 (DReply demo_digest) demo_run = (demo_run, Done BundleValid).
Proof.
  refine (digest_validates tiny_seed tiny_keys 5 5 tiny_script tiny_ops 1 demo_digest demo_pubs tiny_seed_len _ _ _ _ _ _ _).
  - apply (bool_decide_unpack _). vm_compute. exact I.
  - unfold tame_script, tiny_script. rewrite !Forall_app. split_and!; [apply Forall_replicate; done|by repeat constructor|apply Forall_replicate; by repeat constructor|by repeat constructor].
  - apply (bool_decide_unpack _). vm_compute. exact I.
  - vm_compute. reflexivity.
  - reflexivity.
  - apply (bool_decide_unpack _). vm_compute. exact I.
  - reflexivity.
Defined.
